(* ===== verification/_CoqProject ===== *)
-Q . S2P
Prelude.v
Monad.v
Isa.v
SyscallCode.v
Memory.v
Events.v
ByteLookup.v
Air.v
Record.v
Alu.v
Dependencies.v
State.v
Executor.v
Context.v
Step.v
Run.v
Syscalls.v
Curves.v
Precompiles.v
Access.v
Refinement.v
Trace.v
Ordering.v
Ecall.v
Simulation.v
Unconstrained.v
Termination.v
Hints.v
CallMem.v
CurveProps.v
Sha.v
BigInt.v
Sharding.v
AirBuilder.v
ByteTable.v
MemoryAir.v
Operations.v
ChipSpec.v
AddSubChip.v
BitwiseChip.v
LtChip.v
ShiftLeftChip.v
ShiftRightChip.v
MulChip.v
DivRemChip.v
Lookup.v
AluMachine.v
TraceGen.v
AluTrace.v
ControlFlow.v
MemInstrChip.v
CpuChip.v
SyscallInstrChip.v
InstrRows.v
RiscvMachine.v
RiscvStep.v
MemoryCheck.v
MemoryLocalChip.v
MemoryGlobalChip.v
CoreVerify.v
MemoryBus.v
CoreMemory.v
CoreRows.v
CoreRun.v
CoreProof.v
WordOps.v
ShaExtendChip.v
MerkleTree.v
MerkleOpen.v
Fri.v
FriProtocol.v
FriPcs.v
FriSequential.v
FriInterpolate.v
FriComplete.v
FriInstance.v
LogUp.v
Stark.v
StarkInstance.v
