(* ===== verification/Prelude.v ===== *)
(** * Verification of the MetalSPONE zkVM

    MetalSPONE proves the execution of RISC-V programs.  An executor runs an
    RV32IM guest program and records what happened; chips turn the records into
    tables of field elements whose constraints and lookups say that the
    execution was one of the program; a STARK prover commits to the tables.
    This library models the executor completely, the constraint layer of the
    chips below, the verifier of core proofs, the permutation argument and the
    verifier of shard proofs with their polynomial commitment scheme, as Rocq functions translated from crates/core/executor,
    crates/core/machine, crates/stark, crates/prover, crates/curves,
    crates/p3-merkle-tree and crates/p3-fri, and proves that the executor
    implements RV32IM, that what it records is true and ordered, that chips accept
    exactly what the executor computes, that a core proof the verifier accepts is
    a run of the program, and that the commitment scheme opens what was committed.

    ** Conventions

    A [w]-bit integer of the source is a [Z] whose wrap-around is written out
    ([u32], [wadd], ...); signed readings are [i32] and the like.  Rust's
    [Vec::insert], indexing and [unwrap] outside their domain are panics: the
    result [None], or the outcome [Panic] of the monad [M] of [Monad], whose
    other outcomes are a value with a new state and a returned error with the
    state left behind.  Structs are records with functions [upd_f] that update
    a field, enums are inductive types, traits are classes ([ByteRecord],
    [Syscall], [EventChip]); a class [*Laws] or a promise such as
    [alu_receiver] states what a client may rely on.  An [eval] of a chip is the
    list of the builder calls it makes on one row, in order.  Elements of the
    field BabyBear are integers modulo its order, compared with [≡F].

    ** The executor (crates/core/executor/src)

    - [Isa] opcode.rs, instruction.rs, register.rs, program.rs and the
      transpiler of disassembler/rrs.rs; [SyscallCode] syscalls/code.rs.
    - [Memory] memory.rs: the paged memory and the registers.  [Events],
      [ByteLookup] events/; [Record] record.rs with [append], [defer] and
      [split]; [Air] air.rs, cost.rs and shape.rs.
    - [Alu] the value functions of the instructions and utils.rs;
      [Dependencies] dependencies.rs.
    - [State], [Executor], [Step], [Run] executor.rs, state.rs, report.rs:
      memory accesses in every mode and event emission; instruction handlers and
      the cycle with its shard limits; initialisation, batches, checkpoints and
      the [run_*] entry points.
    - [Context], [Syscalls], [Precompiles] syscalls/; [Curves] crates/curves.

    What is proved of it:
    - [Memory.paged_memory_refines_map]: the paged memory is a finite map.
    - [Access], [Refinement], [Ecall], [Simulation]: [Refinement.rv_step] is an
      abstract RV32IM machine on mathematical integers, registers and words.
      Every instruction, in every mode, computes it, errors and panics included,
      and [run_fast] computes whole programs across shards and batches.
      [Ecall.ecall_refusals] covers the refused system calls.
    - [Trace], [Ordering]: a traced instruction appends one CPU event and only
      true ALU events, derived ones included, and every recorded access is later
      than the previous one to its address.
    - [Unconstrained]: an unconstrained block has the effect of a single
      cycle.  [Termination]: with a cycle limit [run] ends, although leaving a
      block sets the clock back.
    - [Hints], [CallMem], [Sha], [CurveProps], [BigInt]: hints reach
      the guest; the SHA-256, 256-bit, base-field and Weierstrass precompiles
      compute in guest memory what they promise and change nothing else.
    - [Sharding]: splitting a record loses and invents nothing, and the public
      values of the shards chain.

    ** The constraint layer (crates/stark/src/{air,lookup}, crates/core/machine/src)

    - [AirBuilder] air/builder.rs, debug.rs, word.rs: builders, words and
      messages, and the field BabyBear; [Lookup] lookup/debug.rs: messages and
      their balance.
    - [ByteTable] bytes/; [Operations] operations/; [AddSubChip],
      [BitwiseChip], [LtChip], [ShiftLeftChip], [ShiftRightChip], [MulChip],
      [DivRemChip] alu/; [TraceGen] utils/mod.rs and the loops of
      [generate_trace] and [generate_dependencies].
    - [ChipSpec] states what an ALU chip promises to senders ([alu_receiver])
      and to the prover ([row_of_event]); [AluMachine] puts the rows of all
      chips together and [AluTrace] the rows of all events.

    What is proved of it:
    - [AluMachine.alu_machine_sound]: from the constraints of the ALU rows and
      the balance of byte and instruction lookups alone, every instruction sent
      for an ALU opcode carries the executor's result.  The rows of DivRem are
      justified by the multiplications, additions and comparisons they send.
    - [AluTrace.alu_rows_complete], [AluTrace.alu_bytes_balanced],
      [AluTrace.padding_rows_silent]: the rows of true events pass and answer
      them, their lookups and the generated byte table balance, padding rows take
      part in nothing.  [AluTrace.x0_rows_fail] is the exception.
    - [Lookup.debug_check_decides_balance]; [TraceGen.traces_in_order] and
      [TraceGen.dependencies_sequential]: parallel generation equals a
      sequential loop for every number of processors.

    ** The whole machine

    - [MemoryAir] memory/ access columns and their timestamp check; [ChipSpec]
      also states what a chip of other instructions promises.
    - [ControlFlow] control_flow/; [MemInstrChip]
      memory/instructions; [SyscallInstrChip] syscall/instructions; [CpuChip]
      cpu/ and program/; [MemoryLocalChip] memory/local.rs; [MemoryGlobalChip]
      memory/global.rs.  [InstrRows] gathers the rows of the instruction chips.
    - [RiscvMachine] a shard: the tables of these chips, whose constraints hold
      and whose byte, instruction and program lookups balance ([accepted_shard]).
      [RiscvStep] the step of one row.
    - [MemoryCheck] offline memory checking: from balanced messages to the word
      at an address at a time.  [MemoryBus] the accesses of every row;
      [CoreMemory] the messages of all shards.
    - [CoreVerify] crates/prover/src/verify.rs, [SP1Prover::verify]: the checks on
      public values, with the machine verifier as an argument.
    - [CoreRows], [CoreRun] the rows of all shards in order;
      [CoreProof] an example of three shards.

    What is proved of it:
    - [RiscvStep.riscv_rows_step]: a live row of the Cpu chip is a step of
      [Refinement.rv_step] on the values its accesses show.
    - [MemoryLocalChip.memory_local_messages]: the rows and the recorded messages
      of local memory.  [MemoryGlobalChip.tables_sorted]: over linked tables the
      addresses increase.
    - [CoreVerify.verify_accepts]: what the verifier checks, exactly.
    - [CoreMemory.memory_consistent]: the accesses of an accepted proof are those
      of a memory.  [CoreRun.core_proof_runs]: an accepted proof is a run of the
      program on the machine the executor implements, to its halt.

    What these theorems assume is in the records [accepted_shard],
    [accepted_memory], [proves] and [run_ok]: that the STARK verifier stands for
    constraints and balance; that the sum of digests of the Global chips stands
    for balanced global messages ([global_balanced]); of the chips that are not
    part of a shard here (Global, Syscall, precompiles) that they take no part in the
    instruction and program lookups, time their accesses and make them to memory
    during a system call ([other_access]); that the instructions have the forms of
    the transpiler, and that the program lies at aligned addresses above 4 and its
    image above the registers.  A program at address 4 could be
    resumed through the padding row of the program table at address 0.

    ** The ShaExtend chip (crates/core/machine/src/syscall/precompiles/sha256)

    - [WordOps] operations/: XOR, AND, NOT, rotation, shift and sums of words.
    - [ShaExtendChip] extend/: columns, row counters, constraints,
      rows of an event, and an example table.
      [ShaExtendChip.sha_extend_chip_sound]: the 48 rows of a block of a table that
      passes extend the words in memory to the message schedule of [Sha].

    ** The commitment scheme (crates/p3-merkle-tree, crates/p3-fri)

    The field, its packing, the hasher, the bit utilities, the challenger and the
    transform are plonky3's: classes of operations ([Hasher], [TwoAdicField],
    [ExtensionField], [PackedField], [BitUtil], [FriChallenger]) and of laws
    ([LawfulField], [LawfulExtension], ...).  A commitment scheme is the class
    [Mmcs] (for FRI) or [InputMmcs] (for the inputs), with laws that the Merkle
    tree meets.

    - [MerkleTree], [MerkleOpen] merkle_tree.rs, mmcs.rs: a tree over matrices of
      different heights.  [MerkleOpen.opened_batch_verifies]: openings verify;
      [MerkleOpen.verified_batch_is_committed]: what verifies is what was
      committed, or there is a collision.
    - [Fri] fold_even_odd.rs, prover.rs, verifier.rs, config.rs, proof.rs;
      [FriProtocol] polynomials and their folds, and
      [fri_complete]: the proof of a low-degree input verifies;
      [accepted_query_folds]: an accepted query is a consistent fold of the
      committed codewords; [unopened_queries_accepted] and
      [short_inputs_unchecked] say what the verifier does not look at.
    - [FriPcs] two_adic_pcs.rs: [commit], [open], [open_sequential_cached],
      [open_sequential_cached_split], [verify].
      [missing_query_openings_accepted]: a proof without query openings passes.
      [FriSequential.sequential_open_same]: the openings that release the leaves
      of a round after use give the result of [open].
    - [FriInterpolate] the packed row reduction and barycentric interpolation;
      [FriComplete] inverse denominators and the quotients;
      [FriComplete.opened_values_verify]: what [open] returns, [verify] accepts.
    - [FriInstance] the Merkle tree and BabyBear as instances of
      the classes, and examples.

    ** The permutation argument and the shard verifier (crates/stark/src)

    - [LogUp] permutation.rs, debug.rs: [generate_permutation_trace] with its
      blocked inversions, [eval_permutation_constraints], and the check of a
      table row by row.  [permutation_trace_passes]: the generated trace passes;
      [passing_trace_has_the_sum]: whatever trace passes has the sum of its
      messages; [vanishing_sums_balance]: sums that vanish for as many challenges
      as there are different messages say that every message is sent as often as
      it is received, which is the balance the theorems on chips assume.
    - [Stark] chip.rs, types.rs, folder.rs, verifier.rs: [verify_shard] over the
      commitment scheme above.  [recompute_quotient_correct]: the opened chunks
      are recombined to the value of the quotient; [forged_shard_accepted]: as
      the opening check accepts proofs without query openings, so does
      [verify_shard] accept any opened values with a quotient solved for them.
    - [StarkInstance] columns, cosets and a challenger over BabyBear, and
      examples.

    ** Fuel and bounds

    Loops of the source that need not terminate ([execute_batch], [run], ...)
    take fuel and return [None] when it runs out; [Simulation] and [Termination]
    compute enough fuel from the abstract run and from the cycle limit.
    [chunks] uses the length of the list as fuel.  FRI and the Merkle tree recurse
    on the list of heights and on the layers.  The constraint theorems
    assume fewer lookups of a kind in a shard than the order of the field,
    without which a multiplicity could wrap around to 0, and the counting
    theorems fewer than [2^64] lookups.

    ** What is not modelled

    Third-party code is a parameter of the definitions that call it: the RISC-V
    decoder rrs_lib, Keccak-f of tiny_keccak, the square roots of the curve
    crates, hooks, the deferred-proof verifier, UTF-8 decoding and environment
    variables.  [when] of p3_air is a class with its law.  In the theorems on
    chips the permutation argument enters as [balanced], the statement it proves;
    [LogUp] shows when it proves it, up to the choice of the challenges.  The Edwards, decompression, U256x2048 and Keccak
    precompiles are modelled but no theorem states their functional result.
    The chips of the other precompiles, the Syscall and the Global chips are rows of a
    shard about which only the assumptions above are made.
    Logging, the profiler and progress output are left out.  The STARK prover, the
    sum of global digests over the shards, the GPU kernels, the recursion stack, the SDK and the
    guest library are not modelled.

    ** Where the executor departs from RV32IM

    The executor and the Jump chip keep the lowest bit of the target of [JALR],
    which RISC-V and the abstract machine clear; the refinement theorems leave out
    jumps to odd addresses ([odd_jump], [Refinement.jalr_keeps_low_bit]).
    Peeks at memory ([word]) do not see pending hints: a sub-word store to a
    hinted, not yet accessed word loses the other bytes
    ([sub_word_store_drops_hint]; [store_ready] leaves it out of the refinement),
    and the precompiles take 0 for such words of their first operand ([seen] in
    [BigInt] is what they compute with). *)

From Stdlib Require Import ZArith Lia Bool.
From stdpp Require Import base gmap list numbers strings.

Local Open Scope Z_scope.

(** ** Notation scope of the development *)

Declare Scope rv_scope.
Delimit Scope rv_scope with rv.

(** ** Hint databases

    [rvbound] closes range side conditions of machine integers, [hoare] holds
    the Hoare rules of the monadic operations, [sim] their relational rules. *)

Create HintDb rvbound.
Create HintDb hoare.
Create HintDb sim.

(** ** Machine integers

    A [w]-bit unsigned integer of the Rust code is a [Z] in [0, 2^w); the
    operations that wrap around write the reduction out. *)

Definition wrap (w x : Z) : Z := x mod 2 ^ w.

(** Rust's [u8], [u16], [u32], [u64] and [usize] (64-bit targets) casts. *)
Definition u8 (x : Z) : Z := wrap 8 x.
Definition u16 (x : Z) : Z := wrap 16 x.
Definition u32 (x : Z) : Z := wrap 32 x.
Definition u64 (x : Z) : Z := wrap 64 x.

(** Two's complement reading of a [w]-bit pattern ([x as i8], [i16], ...). *)
Definition signed (w x : Z) : Z :=
  if wrap w x <? 2 ^ (w - 1) then wrap w x else wrap w x - 2 ^ w.

Definition i8 (x : Z) : Z := signed 8 x.
Definition i16 (x : Z) : Z := signed 16 x.
Definition i32 (x : Z) : Z := signed 32 x.
Definition i64 (x : Z) : Z := signed 64 x.

Definition in_u (w x : Z) : Prop := 0 <= x < 2 ^ w.
Definition is_u32 (x : Z) : Prop := in_u 32 x.
Definition is_u8 (x : Z) : Prop := in_u 8 x.

Definition u32_MAX : Z := 2 ^ 32 - 1.

(** Wrapping arithmetic of [u32] (release builds wrap for [+] too). *)
Definition wadd (a b : Z) : Z := u32 (a + b).
Definition wsub (a b : Z) : Z := u32 (a - b).
Definition wmul (a b : Z) : Z := u32 (a * b).

Infix "+u" := wadd (at level 50, left associativity) : rv_scope.
Infix "-u" := wsub (at level 50, left associativity) : rv_scope.
Infix "*u" := wmul (at level 40, left associativity) : rv_scope.

(** [!x] on [u32]. *)
Definition not32 (x : Z) : Z := u32 (Z.lnot x).

(** [x.rotate_right(k)] on [u32] for [0 <= k < 32]. *)
Definition rotr32 (x k : Z) : Z :=
  Z.lor (Z.shiftr x k) (u32 (Z.shiftl x (32 - k))).

(** Little-endian bytes of a word and back. *)
Definition to_le_bytes32 (x : Z) : list Z :=
  [u8 x; u8 (Z.shiftr x 8); u8 (Z.shiftr x 16); u8 (Z.shiftr x 24)].

Definition from_le_bytes32 (b0 b1 b2 b3 : Z) : Z :=
  b0 + 256 * b1 + 65536 * b2 + 16777216 * b3.

(** ** Range lemmas *)

Lemma wrap_range w x : 0 <= w -> in_u w (wrap w x).
Proof. intros Hw. apply Z.mod_pos_bound. apply Z.pow_pos_nonneg; lia. Qed.

Lemma wrap_small w x : in_u w x -> wrap w x = x.
Proof. intros H. apply Z.mod_small. exact H. Qed.

Lemma u32_range x : is_u32 (u32 x).
Proof. apply wrap_range. lia. Qed.

Lemma u8_range x : is_u8 (u8 x).
Proof. apply wrap_range. lia. Qed.

Lemma u32_small x : is_u32 x -> u32 x = x.
Proof. apply wrap_small. Qed.

Lemma u8_small x : is_u8 x -> u8 x = x.
Proof. apply wrap_small. Qed.

Lemma u64_small x : in_u 64 x -> u64 x = x.
Proof. apply wrap_small. Qed.

Lemma u32_idem x : u32 (u32 x) = u32 x.
Proof. apply u32_small, u32_range. Qed.

Lemma wadd_range a b : is_u32 (wadd a b).
Proof. apply u32_range. Qed.

Lemma wsub_range a b : is_u32 (wsub a b).
Proof. apply u32_range. Qed.

Lemma wmul_range a b : is_u32 (wmul a b).
Proof. apply u32_range. Qed.

Lemma is_u32_iff x : is_u32 x <-> 0 <= x < 4294967296.
Proof. unfold is_u32, in_u. change (2 ^ 32) with 4294967296. reflexivity. Qed.

Lemma is_u8_iff x : is_u8 x <-> 0 <= x < 256.
Proof. unfold is_u8, in_u. change (2 ^ 8) with 256. reflexivity. Qed.

Lemma u32_mod x : u32 x = x mod 4294967296.
Proof. reflexivity. Qed.

Lemma u8_mod x : u8 x = x mod 256.
Proof. reflexivity. Qed.

#[export] Hint Resolve u32_range u8_range wadd_range wsub_range wmul_range : rvbound.

Lemma signed_range w x : 1 <= w -> - 2 ^ (w - 1) <= signed w x < 2 ^ (w - 1).
Proof.
  intros Hw. unfold signed.
  pose proof (wrap_range w x ltac:(lia)) as [H1 H2].
  assert (2 ^ w = 2 * 2 ^ (w - 1)) as Hp.
  { replace w with (1 + (w - 1)) at 1 by lia. rewrite Z.pow_add_r by lia. reflexivity. }
  destruct (Z.ltb_spec (wrap w x) (2 ^ (w - 1))); lia.
Qed.

Lemma signed_mod w x : 1 <= w -> signed w x mod 2 ^ w = x mod 2 ^ w.
Proof.
  intros Hw. unfold signed, wrap.
  destruct (_ <? _).
  - apply Z.mod_mod. apply Z.pow_nonzero; lia.
  - rewrite <- (Z.mod_mod x (2 ^ w)) at 2 by (apply Z.pow_nonzero; lia).
    rewrite <- (Z_mod_plus_full (x mod 2 ^ w) (-1) (2 ^ w)). f_equal.
Qed.

Lemma u32_i32 x : u32 (i32 x) = u32 x.
Proof. apply (signed_mod 32 x). lia. Qed.

Lemma i32_cases x : is_u32 x ->
  (x < 2147483648 /\ i32 x = x) \/ (2147483648 <= x /\ i32 x = x - 4294967296).
Proof.
  intros H. unfold i32, signed. rewrite (wrap_small 32 x H).
  change (2 ^ (32 - 1)) with 2147483648. change (2 ^ 32) with 4294967296.
  destruct (Z.ltb_spec x 2147483648); lia.
Qed.

(** ** Little-endian bytes *)

Lemma to_le_bytes32_range x : Forall is_u8 (to_le_bytes32 x).
Proof. repeat constructor; apply u8_range. Qed.

Lemma shiftr_div_lit x k n : 0 <= k -> n = 2 ^ k -> Z.shiftr x k = x / n.
Proof. intros ? ->. by apply Z.shiftr_div_pow2. Qed.

Lemma to_from_le_bytes32 b0 b1 b2 b3 :
  is_u8 b0 -> is_u8 b1 -> is_u8 b2 -> is_u8 b3 ->
  to_le_bytes32 (from_le_bytes32 b0 b1 b2 b3) = [b0; b1; b2; b3].
Proof.
  rewrite !is_u8_iff. intros. unfold to_le_bytes32, from_le_bytes32.
  rewrite (shiftr_div_lit _ 8 256), (shiftr_div_lit _ 16 65536),
    (shiftr_div_lit _ 24 16777216) by (reflexivity || lia).
  rewrite !u8_mod. repeat f_equal; Z.div_mod_to_equations; lia.
Qed.

Lemma from_to_le_bytes32 x : is_u32 x ->
  from_le_bytes32 (u8 x) (u8 (Z.shiftr x 8)) (u8 (Z.shiftr x 16)) (u8 (Z.shiftr x 24)) = x.
Proof.
  rewrite is_u32_iff. intros. unfold from_le_bytes32.
  rewrite (shiftr_div_lit _ 8 256), (shiftr_div_lit _ 16 65536),
    (shiftr_div_lit _ 24 16777216) by (reflexivity || lia).
  rewrite !u8_mod. Z.div_mod_to_equations; lia.
Qed.

(** ** Enumeration-indexed counters ([EnumMap<K, u64>]) *)

Definition EnumMap (K : Type) : Type := K -> Z.

Definition enum_zero {K} : EnumMap K := fun _ => 0.

Definition enum_set {K} `{EqDecision K} (k : K) (v : Z) (m : EnumMap K) : EnumMap K :=
  fun k' => if decide (k = k') then v else m k'.

(** [m[k] += n] on a [u64] counter. *)
Definition enum_add {K} `{EqDecision K} (k : K) (n : Z) (m : EnumMap K) : EnumMap K :=
  enum_set k (u64 (m k + n)) m.

Lemma enum_set_eq {K} `{EqDecision K} k v (m : EnumMap K) : enum_set k v m k = v.
Proof. unfold enum_set. by rewrite decide_True. Qed.

Lemma enum_set_ne {K} `{EqDecision K} k k' v (m : EnumMap K) :
  k <> k' -> enum_set k v m k' = m k'.
Proof. intros. unfold enum_set. by rewrite decide_False. Qed.

(** ** List helpers shared by the components *)

(** [v[i] = x] on a Rust slice: out of bounds panics ([None]). *)
Definition slice_set {A} (i : nat) (x : A) (l : list A) : option (list A) :=
  if decide (i < length l)%nat then Some (<[i:=x]> l) else None.

(** [0..n] as a list of [Z]. *)
Definition zseq (start : Z) (n : nat) : list Z :=
  map (fun i => start + Z.of_nat i) (seq 0 n).

Lemma zseq_S j n : zseq j (S n) = j :: zseq (j + 1) n.
Proof.
  unfold zseq. cbn [seq map]. f_equal; [lia|]. rewrite <- seq_shift, map_map.
  apply map_ext. intros a. lia.
Qed.

Lemma length_zseq s n : length (zseq s n) = n.
Proof. unfold zseq. by rewrite length_map, length_seq. Qed.

(** ** Tactics *)

(** Split the first [if]/[match] on a boolean or option in the goal. *)
Ltac case_step :=
  match goal with
  | |- context [if ?b then _ else _] => destruct b eqn:?
  | |- context [match ?x with _ => _ end] => destruct x eqn:?
  end.

(** Turn boolean comparisons on [Z] in hypotheses into propositions. *)
Ltac zbool :=
  repeat match goal with
  | H : (_ && _) = true |- _ => apply andb_true_iff in H; destruct H
  | H : (_ || _) = false |- _ => apply orb_false_iff in H; destruct H
  | H : negb _ = true |- _ => apply negb_true_iff in H
  | H : negb _ = false |- _ => apply negb_false_iff in H
  | H : (_ =? _)%Z = true |- _ => apply Z.eqb_eq in H
  | H : (_ =? _)%Z = false |- _ => apply Z.eqb_neq in H
  | H : (_ <? _)%Z = true |- _ => apply Z.ltb_lt in H
  | H : (_ <? _)%Z = false |- _ => apply Z.ltb_ge in H
  | H : (_ <=? _)%Z = true |- _ => apply Z.leb_le in H
  | H : (_ <=? _)%Z = false |- _ => apply Z.leb_gt in H
  end.

(** Range side conditions: the hint base, then linear arithmetic. *)
Ltac solve_range :=
  solve [ eauto with rvbound
        | unfold is_u32, is_u8, in_u in *; try rewrite !u32_mod in *; Z.div_mod_to_equations; lia ].
