(* ===== verification/Monad.v ===== *)
(** * State, errors and panics

    The executor mutates itself through [&mut self], returns
    [Result<_, ExecutionError>] and may panic.  [M S E A] is that effect:
    a state-passing function whose outcome is a value, a returned error
    (the mutated state stays observable behind [&mut]) or a panic.

    [hoare] is the unary logic of such computations, [rsim] the relational
    one; both come with one rule per combinator, collected in the hint
    databases [hoare] and [sim], so that a property of an operation follows the
    operation's own structure. *)

From stdpp Require Import base list.
From S2P Require Import Prelude.

Inductive Res (S E A : Type) : Type :=
| Ok (a : A) (s : S)
| Err (e : E) (s : S)
| Panic.

Arguments Ok {S E A}.
Arguments Err {S E A}.
Arguments Panic {S E A}.

Definition M (S E A : Type) : Type := S -> Res S E A.

Section Combinators.
  Context {S E : Type}.

Definition ret {A} (a : A) : M S E A := fun s => Ok a s.

Definition bind {A B} (m : M S E A) (k : A -> M S E B) : M S E B := fun s =>
  match m s with
  | Ok a s' => k a s'
  | Err e s' => Err e s'
  | Panic => Panic
  end.

Definition panic {A} : M S E A := fun _ => Panic.

Definition throw {A} (e : E) : M S E A := fun s => Err e s.

(** Read a component of the state; update the state. *)
Definition gets {A} (f : S -> A) : M S E A := fun s => Ok (f s) s.

Definition modify (f : S -> S) : M S E unit := fun s => Ok tt (f s).

(** [assert!(b)]: panics when [b] is false. *)
Definition massert (b : bool) : M S E unit := if b then ret tt else panic.

(** [x.unwrap()], [x.expect(..)] and slice indexing. *)
Definition unwrap {A} (x : option A) : M S E A :=
  match x with Some a => ret a | None => panic end.

Definition when (b : bool) (m : M S E unit) : M S E unit :=
  if b then m else ret tt.

(** [for x in l { f(x) }] and its variant collecting results. *)
Fixpoint for_each {X} (l : list X) (f : X -> M S E unit) : M S E unit :=
  match l with
  | [] => ret tt
  | x :: l' => bind (f x) (fun _ => for_each l' f)
  end.

Fixpoint collect {X A} (l : list X) (f : X -> M S E A) : M S E (list A) :=
  match l with
  | [] => ret []
  | x :: l' => bind (f x) (fun a => bind (collect l' f) (fun r => ret (a :: r)))
  end.
End Combinators.

Notation "x <- m ;; k" := (bind m (fun x => k))
  (at level 20, m at level 99, k at level 200, only parsing) : rv_scope.
Notation "' p <- m ;; k" := (bind m (fun x => match x with p => k end))
  (at level 20, p pattern, m at level 99, k at level 200, only parsing) : rv_scope.
Notation "m ;;; k" := (bind m (fun _ => k))
  (at level 100, k at level 200, right associativity) : rv_scope.

(** ** Hoare triples *)

Section Hoare.
  Context {S E : Type}.

(** From a state in [P], [m] returns a value and state in [Q], or an error and
    state in [QE], or panics. *)
Definition hoare {A} (P : S -> Prop) (m : M S E A)
    (Q : A -> S -> Prop) (QE : E -> S -> Prop) : Prop :=
  forall s, P s ->
    match m s with
    | Ok a s' => Q a s'
    | Err e s' => QE e s'
    | Panic => True
    end.

(** [m] preserves the invariant [I], also along its error paths. *)
Definition keeps {A} (I : S -> Prop) (m : M S E A) : Prop :=
  hoare I m (fun _ => I) (fun _ => I).

Lemma hoare_ret {A} (a : A) P QE : hoare P (ret a) (fun x s => x = a /\ P s) QE.
Proof. intros s HP. cbn. auto. Qed.

Lemma hoare_bind {A B} P (m : M S E A) (k : A -> M S E B) Q R QE :
  hoare P m Q QE -> (forall a, hoare (Q a) (k a) R QE) -> hoare P (bind m k) R QE.
Proof.
  intros Hm Hk s HP. unfold bind. specialize (Hm s HP).
  destruct (m s) as [a s'|e s'|]; [by apply Hk | done | done].
Qed.

Lemma hoare_weaken {A} (P P' : S -> Prop) (m : M S E A) (Q Q' : A -> S -> Prop)
    (QE QE' : E -> S -> Prop) :
  hoare P' m Q' QE' -> (forall s, P s -> P' s) ->
  (forall a s, Q' a s -> Q a s) -> (forall e s, QE' e s -> QE e s) -> hoare P m Q QE.
Proof.
  intros H HP HQ HE s Hs. specialize (H s (HP s Hs)).
  destruct (m s); auto.
Qed.

Lemma hoare_unwrap {A B} (P : S -> Prop) (x : option A) (k : A -> M S E B) Q QE :
  (forall a, x = Some a -> hoare P (k a) Q QE) -> hoare P (bind (unwrap x) k) Q QE.
Proof. destruct x; intros H s Hs; [by apply (H a) | done]. Qed.

Lemma hoare_gets {A B} (P : S -> Prop) (f : S -> A) (k : A -> M S E B) Q QE :
  (forall a, hoare P (k a) Q QE) -> hoare P (bind (gets f) k) Q QE.
Proof. intros H s Hs. by apply H. Qed.

Lemma hoare_assoc {A B C} (P : S -> Prop) (m : M S E A) (k : A -> M S E B) (h : B -> M S E C) Q QE :
  hoare P (bind m (fun x => bind (k x) h)) Q QE -> hoare P (bind (bind m k) h) Q QE.
Proof. intros H s Hs. specialize (H s Hs). unfold bind in *. by destruct (m s). Qed.

Lemma hoare_ret_l {A B} (P : S -> Prop) (a : A) (k : A -> M S E B) Q QE :
  hoare P (k a) Q QE -> hoare P (bind (ret a) k) Q QE.
Proof. intros H s Hs. exact (H s Hs). Qed.

Lemma keeps_ret {A} I (a : A) : keeps I (ret a).
Proof. intros s H. exact H. Qed.

Lemma keeps_bind {A B} I (m : M S E A) (k : A -> M S E B) :
  keeps I m -> (forall a, keeps I (k a)) -> keeps I (bind m k).
Proof. intros Hm Hk. by eapply hoare_bind. Qed.

Lemma keeps_panic {A} I : keeps I (panic (A := A)).
Proof. intros s H. exact Logic.I. Qed.

Lemma keeps_throw {A} I e : keeps I (throw (A := A) e).
Proof. intros s H. exact H. Qed.

Lemma keeps_gets {A} I (f : S -> A) : keeps I (gets f).
Proof. intros s H. exact H. Qed.

Lemma keeps_modify (I : S -> Prop) f : (forall s, I s -> I (f s)) -> keeps I (modify f).
Proof. intros H s Hs. cbn. auto. Qed.

Lemma keeps_massert I b : keeps I (massert b).
Proof. destruct b; [apply keeps_ret | apply keeps_panic]. Qed.

Lemma keeps_unwrap {A} I (x : option A) : keeps I (unwrap x).
Proof. destruct x; [apply keeps_ret | apply keeps_panic]. Qed.

Lemma keeps_when I b m : (b = true -> keeps I m) -> keeps I (when b m).
Proof. destruct b; cbn; [auto | intros _; apply keeps_ret]. Qed.

Lemma keeps_for_each {X} I (l : list X) f : (forall x, keeps I (f x)) -> keeps I (for_each l f).
Proof.
  intros H. induction l as [|x l IH]; cbn; [apply keeps_ret|].
  apply keeps_bind; auto.
Qed.

Lemma keeps_collect {X A} I (l : list X) (f : X -> M S E A) :
  (forall x, keeps I (f x)) -> keeps I (collect l f).
Proof.
  intros H. induction l as [|x l IH]; cbn; [apply keeps_ret|].
  apply keeps_bind; [auto|]. intros a. apply keeps_bind; [auto|].
  intros r. apply keeps_ret.
Qed.
End Hoare.

#[export] Hint Resolve keeps_ret keeps_bind keeps_panic keeps_throw keeps_gets
  keeps_massert keeps_unwrap keeps_when keeps_for_each keeps_collect : hoare.

(** ** Relational triples *)

Section Relational.
  Context {S1 S2 E : Type}.

(** Outcomes agree: both return related values, both return the same error, or
    both panic; final states are related again. *)
Definition rres {A B} (R : S1 -> S2 -> Prop) (RA : A -> B -> Prop)
    (r1 : Res S1 E A) (r2 : Res S2 E B) : Prop :=
  match r1, r2 with
  | Ok a s1, Ok b s2 => RA a b /\ R s1 s2
  | Err e s1, Err e' s2 => e = e' /\ R s1 s2
  | Panic, Panic => True
  | _, _ => False
  end.

Definition rsim {A B} (R : S1 -> S2 -> Prop) (RA : A -> B -> Prop)
    (m1 : M S1 E A) (m2 : M S2 E B) : Prop :=
  forall s1 s2, R s1 s2 -> rres R RA (m1 s1) (m2 s2).

Lemma rsim_ret {A B} R (RA : A -> B -> Prop) a b : RA a b -> rsim R RA (ret a) (ret b).
Proof. intros H s1 s2 HR. cbn. auto. Qed.

Lemma rsim_bind {A B A' B'} R (RA : A -> A' -> Prop) (RB : B -> B' -> Prop) m1 m2
    (k1 : A -> M S1 E B) (k2 : A' -> M S2 E B') :
  rsim R RA m1 m2 -> (forall a b, RA a b -> rsim R RB (k1 a) (k2 b)) ->
  rsim R RB (bind m1 k1) (bind m2 k2).
Proof.
  intros Hm Hk s1 s2 HR. unfold bind. specialize (Hm s1 s2 HR).
  destruct (m1 s1), (m2 s2); cbn in *; try done.
  destruct Hm as [HA HS]. by apply Hk.
Qed.

Lemma rsim_panic {A B} R (RA : A -> B -> Prop) : rsim R RA panic panic.
Proof. intros s1 s2 _. exact I. Qed.

Lemma rsim_throw {A B} R (RA : A -> B -> Prop) e : rsim R RA (throw e) (throw e).
Proof. intros s1 s2 H. cbn. auto. Qed.

Lemma rsim_gets {A B} R (RA : A -> B -> Prop) f g :
  (forall s1 s2, R s1 s2 -> RA (f s1) (g s2)) -> rsim R RA (gets f) (gets g).
Proof. intros H s1 s2 HR. cbn. auto. Qed.

Lemma rsim_modify (R : S1 -> S2 -> Prop) f g :
  (forall s1 s2, R s1 s2 -> R (f s1) (g s2)) -> rsim R eq (modify f) (modify g).
Proof. intros H s1 s2 HR. cbn. auto. Qed.

(** One side alone updates its state, invisibly to [R]. *)
Lemma rsim_modify_l {B} (R : S1 -> S2 -> Prop) f (k1 : M S1 E B) (k2 : M S2 E B) :
  (forall s1 s2, R s1 s2 -> R (f s1) s2) -> rsim R eq k1 k2 ->
  rsim R eq (bind (modify f) (fun _ => k1)) k2.
Proof. intros H Hk s1 s2 HR. cbn. apply Hk. auto. Qed.

Lemma rsim_if {A B} R (RA : A -> B -> Prop) (b : bool) m1 m2 m1' m2' :
  (b = true -> rsim R RA m1 m2) -> (b = false -> rsim R RA m1' m2') ->
  rsim R RA (if b then m1 else m1') (if b then m2 else m2').
Proof. destruct b; auto. Qed.

Lemma rsim_massert R b : rsim R eq (massert b) (massert b).
Proof. destruct b; [by apply rsim_ret | apply rsim_panic]. Qed.

Lemma rsim_unwrap {A} R (x : option A) : rsim R eq (unwrap x) (unwrap x).
Proof. destruct x; [by apply rsim_ret | apply rsim_panic]. Qed.

Lemma rsim_when R b m1 m2 : rsim R eq m1 m2 -> rsim R eq (when b m1) (when b m2).
Proof. destruct b; cbn; [auto | intros _; by apply rsim_ret]. Qed.

Lemma rsim_for_each {X} R (l : list X) f g :
  (forall x, rsim R eq (f x) (g x)) -> rsim R eq (for_each l f) (for_each l g).
Proof.
  intros H. induction l as [|x l IH]; cbn; [by apply rsim_ret|].
  eapply rsim_bind; [apply H|]. intros _ _ _. exact IH.
Qed.

Lemma rsim_collect {X A} R (l : list X) (f : X -> M S1 E A) g :
  (forall x, rsim R eq (f x) (g x)) -> rsim R eq (collect l f) (collect l g).
Proof.
  intros H. induction l as [|x l IH]; cbn; [by apply rsim_ret|].
  eapply rsim_bind; [apply H|]. intros a _ <-.
  eapply rsim_bind; [apply IH|]. intros r _ <-. by apply rsim_ret.
Qed.
End Relational.

#[export] Hint Resolve rsim_ret rsim_panic rsim_throw rsim_massert rsim_unwrap : sim.

(** ** Monad laws (pointwise) *)

Section Laws.
  Context {S E : Type}.

Lemma bind_ret_l {A B} (a : A) (k : A -> M S E B) s : bind (ret a) k s = k a s.
Proof. reflexivity. Qed.

Lemma bind_assoc {A B C} (m : M S E A) (k : A -> M S E B) (h : B -> M S E C) s :
  bind (bind m k) h s = bind m (fun x => bind (k x) h) s.
Proof. unfold bind. by destruct (m s). Qed.

Lemma bind_ok {A B} (m : M S E A) (k : A -> M S E B) s a s' :
  m s = Ok a s' -> bind m k s = k a s'.
Proof. intros H. unfold bind. by rewrite H. Qed.

Lemma bind_inv_ok {A B} (m : M S E A) (k : A -> M S E B) s b s'' :
  bind m k s = Ok b s'' -> exists a s', m s = Ok a s' /\ k a s' = Ok b s''.
Proof. unfold bind. destruct (m s); naive_solver. Qed.
End Laws.

(** ** Total correctness

    [does m s P]: from [s], [m] returns a value and a state that satisfy [P];
    it neither fails nor panics. *)

Section Total.
  Context {S E : Type}.

Definition does {A} (m : M S E A) (s : S) (P : A -> S -> Prop) : Prop :=
  match m s with Ok a s' => P a s' | _ => False end.

Lemma does_ok {A} (m : M S E A) s P : does m s P -> exists a s', m s = Ok a s' /\ P a s'.
Proof. unfold does. destruct (m s) as [a s'|e s'|]; [|done..]. intros H. by exists a, s'. Qed.

Lemma does_ret {A} (a : A) s (P : A -> S -> Prop) : P a s -> does (ret a) s P.
Proof. done. Qed.

Lemma does_weaken {A} (m : M S E A) s (P Q : A -> S -> Prop) :
  (forall a s', P a s' -> Q a s') -> does m s P -> does m s Q.
Proof. unfold does. destruct (m s); auto. Qed.

Lemma does_bind {A B} (m : M S E A) (k : A -> M S E B) s (P : A -> S -> Prop) (Q : B -> S -> Prop) :
  does m s P -> (forall a s', P a s' -> does (k a) s' Q) -> does (bind m k) s Q.
Proof. unfold does, bind. destruct (m s) as [a s'|e s'|]; [|done..]. intros Ha Hk. by apply Hk. Qed.

Lemma does_gets {A} (f : S -> A) s (P : A -> S -> Prop) : P (f s) s -> does (gets f) s P.
Proof. done. Qed.

Lemma does_modify (f : S -> S) s (P : unit -> S -> Prop) : P tt (f s) -> does (modify f) s P.
Proof. done. Qed.

Lemma does_massert b s (P : unit -> S -> Prop) : b = true -> P tt s -> does (massert b) s P.
Proof. by intros ->. Qed.

Lemma does_unwrap {A} (x : option A) a s (P : A -> S -> Prop) : x = Some a -> P a s -> does (unwrap x) s P.
Proof. by intros ->. Qed.

(** A loop that maintains [I], indexed by what it has done. *)
Lemma does_collect {X A} (l : list X) (f : X -> M S E A) (I : list X -> list A -> S -> Prop) : forall pre acc s,
  I pre acc s ->
  (forall pre x acc s, I pre acc s -> x ∈ l -> does (f x) s (fun a s' => I (pre ++ [x]) (acc ++ [a]) s')) ->
  does (collect l f) s (fun r s' => I (pre ++ l) (acc ++ r) s').
Proof.
  induction l as [|x l IH]; intros pre acc s H Hf; cbn [collect].
  - apply does_ret. by rewrite !app_nil_r.
  - eapply does_bind; [apply Hf; [exact H | left]|]. intros a s' Ha.
    eapply does_bind; [apply (IH _ _ _ Ha); intros; apply Hf; [done | by right]|].
    intros r s'' Hr. apply does_ret. by rewrite <- !app_assoc in Hr.
Qed.
End Total.
