(* ===== verification/Isa.v ===== *)
(** * The SP1 instruction set

    [Opcode], [ByteOpcode], [Instruction] and [Register]
    (crates/core/executor/src/{opcode,instruction,register}.rs), the typed
    constructors and decoders of disassembler/rrs.rs, and [Program]
    (program.rs).  The 32-bit RISC-V decoder itself ([rrs_lib]) is third-party
    code and a parameter of [transpile]. *)

From Stdlib Require Import ZArith Lia.
From stdpp Require Import base gmap list strings.
From S2P Require Import Prelude.

Local Open Scope Z_scope.

(** ** Opcodes *)

Inductive Opcode : Type :=
| ADD | SUB | XOR | OR | AND | SLL | SRL | SRA | SLT | SLTU
| MUL | MULH | MULHU | MULHSU | DIV | DIVU | REM | REMU | LB | LH
| LW | LBU | LHU | SB | SH | SW | BEQ | BNE | BLT | BGE
| BLTU | BGEU | JAL | JALR | AUIPC | ECALL | EBREAK | UNIMP.

(** [opcode as u32]. *)
Definition opcode_u32 (o : Opcode) : Z :=
  match o with
  | ADD => 0
  | SUB => 1
  | XOR => 2
  | OR => 3
  | AND => 4
  | SLL => 5
  | SRL => 6
  | SRA => 7
  | SLT => 8
  | SLTU => 9
  | MUL => 10
  | MULH => 11
  | MULHU => 12
  | MULHSU => 13
  | DIV => 14
  | DIVU => 15
  | REM => 16
  | REMU => 17
  | LB => 18
  | LH => 19
  | LW => 20
  | LBU => 21
  | LHU => 22
  | SB => 23
  | SH => 24
  | SW => 25
  | BEQ => 26
  | BNE => 27
  | BLT => 28
  | BGE => 29
  | BLTU => 30
  | BGEU => 31
  | JAL => 32
  | JALR => 33
  | AUIPC => 34
  | ECALL => 35
  | EBREAK => 36
  | UNIMP => 37
  end.

Definition opcode_of_u32 (z : Z) : option Opcode :=
  nth_error [ADD; SUB; XOR; OR; AND; SLL; SRL; SRA; SLT; SLTU; MUL; MULH; MULHU; MULHSU; DIV; DIVU; REM; REMU; LB;
    LH; LW; LBU; LHU; SB; SH; SW; BEQ; BNE; BLT; BGE; BLTU; BGEU; JAL; JALR; AUIPC; ECALL; EBREAK; UNIMP] (Z.to_nat z).

Lemma opcode_of_to o : opcode_of_u32 (opcode_u32 o) = Some o.
Proof. by destruct o. Qed.

#[export] Instance opcode_u32_inj : Inj (=) (=) opcode_u32.
Proof.
  intros x y H. apply (f_equal opcode_of_u32) in H.
  rewrite !opcode_of_to in H. congruence.
Qed.

#[export] Instance Opcode_eq_dec : EqDecision Opcode := inj_eq_dec opcode_u32.

Definition opcode_eqb (a b : Opcode) : bool := opcode_u32 a =? opcode_u32 b.

Lemma opcode_eqb_eq a b : opcode_eqb a b = true <-> a = b.
Proof. unfold opcode_eqb. rewrite Z.eqb_eq. split; [apply (inj opcode_u32) | congruence]. Qed.

Definition mnemonic (o : Opcode) : string :=
  match o with
  | ADD => "add"
  | SUB => "sub"
  | XOR => "xor"
  | OR => "or"
  | AND => "and"
  | SLL => "sll"
  | SRL => "srl"
  | SRA => "sra"
  | SLT => "slt"
  | SLTU => "sltu"
  | MUL => "mul"
  | MULH => "mulh"
  | MULHU => "mulhu"
  | MULHSU => "mulhsu"
  | DIV => "div"
  | DIVU => "divu"
  | REM => "rem"
  | REMU => "remu"
  | LB => "lb"
  | LH => "lh"
  | LW => "lw"
  | LBU => "lbu"
  | LHU => "lhu"
  | SB => "sb"
  | SH => "sh"
  | SW => "sw"
  | BEQ => "beq"
  | BNE => "bne"
  | BLT => "blt"
  | BGE => "bge"
  | BLTU => "bltu"
  | BGEU => "bgeu"
  | JAL => "jal"
  | JALR => "jalr"
  | AUIPC => "auipc"
  | ECALL => "ecall"
  | EBREAK => "ebreak"
  | UNIMP => "unimp"
  end.

(** Byte operations, looked up in the preprocessed byte table. *)
Module ByteOpcode.
Inductive t : Type :=
| AND | OR | XOR | SLL | U8Range | ShrCarry | LTU | MSB | U16Range.

Definition as_u8 (o : t) : Z :=
  match o with
  | AND => 0 | OR => 1 | XOR => 2 | SLL => 3 | U8Range => 4 | ShrCarry => 5
  | LTU => 6 | MSB => 7 | U16Range => 8
  end.

Definition all : list t := [AND; OR; XOR; SLL; U8Range; ShrCarry; LTU; MSB; U16Range].

#[global] Instance eq_dec : EqDecision t.
Proof. solve_decision. Defined.

(** [impl From<Opcode> for ByteOpcode]: panics outside four opcodes. *)
Definition from_opcode (o : Opcode) : option t :=
  match o with
  | Isa.AND => Some AND
  | Isa.OR => Some OR
  | Isa.XOR => Some XOR
  | Isa.SLL => Some SLL
  | _ => None
  end.
End ByteOpcode.

(** ** Registers *)

Inductive Register : Type :=
| X0 | X1 | X2 | X3 | X4 | X5 | X6 | X7 : Register
| X8 | X9 | X10 | X11 | X12 | X13 | X14 | X15 : Register
| X16 | X17 | X18 | X19 | X20 | X21 | X22 | X23 : Register
| X24 | X25 | X26 | X27 | X28 | X29 | X30 | X31 : Register.

(** [register as u32]. *)
Definition reg_idx (r : Register) : Z :=
  match r with
  | X0 => 0 | X1 => 1 | X2 => 2 | X3 => 3 | X4 => 4 | X5 => 5 | X6 => 6 | X7 => 7
  | X8 => 8 | X9 => 9 | X10 => 10 | X11 => 11 | X12 => 12 | X13 => 13 | X14 => 14 | X15 => 15
  | X16 => 16 | X17 => 17 | X18 => 18 | X19 => 19 | X20 => 20 | X21 => 21 | X22 => 22 | X23 => 23
  | X24 => 24 | X25 => 25 | X26 => 26 | X27 => 27 | X28 => 28 | X29 => 29 | X30 => 30 | X31 => 31
  end.

Definition all_registers : list Register :=
  [X0; X1; X2; X3; X4; X5; X6; X7; X8; X9; X10; X11; X12; X13; X14; X15] ++
  [X16; X17; X18; X19; X20; X21; X22; X23; X24; X25; X26; X27; X28; X29; X30; X31].

(** [Register::from_u8]: panics ([None]) above 31. *)
Definition reg_from_u8 (v : Z) : option Register :=
  match v with
  | 0 => Some X0 | 1 => Some X1 | 2 => Some X2 | 3 => Some X3 | 4 => Some X4 | 5 => Some X5
  | 6 => Some X6 | 7 => Some X7 | 8 => Some X8 | 9 => Some X9 | 10 => Some X10 | 11 => Some X11
  | 12 => Some X12 | 13 => Some X13 | 14 => Some X14 | 15 => Some X15 | 16 => Some X16 | 17 => Some X17
  | 18 => Some X18 | 19 => Some X19 | 20 => Some X20 | 21 => Some X21 | 22 => Some X22 | 23 => Some X23
  | 24 => Some X24 | 25 => Some X25 | 26 => Some X26 | 27 => Some X27 | 28 => Some X28 | 29 => Some X29
  | 30 => Some X30 | 31 => Some X31
  | _ => None
  end.

Lemma reg_from_idx r : reg_from_u8 (reg_idx r) = Some r.
Proof. by destruct r. Qed.

Lemma reg_idx_range r : 0 <= reg_idx r < 32.
Proof. destruct r; cbn; lia. Qed.

#[export] Instance reg_idx_inj : Inj (=) (=) reg_idx.
Proof.
  intros x y H. apply (f_equal reg_from_u8) in H.
  rewrite !reg_from_idx in H. congruence.
Qed.

#[export] Instance Register_eq_dec : EqDecision Register := inj_eq_dec reg_idx.

(** [from_u8] is defined exactly on the 32 register numbers. *)
Lemma reg_from_u8_spec v r : reg_from_u8 v = Some r -> reg_idx r = v.
Proof.
  unfold reg_from_u8.
  repeat match goal with |- context [match ?x with _ => _ end] => destruct x; try done end;
  intros [= <-]; reflexivity.
Qed.

(** ** Instructions *)

Record Instruction : Type := mkInstruction {
  opcode : Opcode;
  op_a : Z;
  op_b : Z;
  op_c : Z;
  imm_b : bool;
  imm_c : bool
}.

Definition is_alu_opcode (o : Opcode) : bool :=
  match o with
  | ADD | SUB | XOR | OR | AND | SLL | SRL | SRA | SLT | SLTU
  | MUL | MULH | MULHU | MULHSU | DIV | DIVU | REM | REMU => true
  | _ => false
  end.

Definition is_alu_instruction (i : Instruction) : bool := is_alu_opcode (opcode i).

Definition is_ecall_instruction (i : Instruction) : bool :=
  match opcode i with ECALL => true | _ => false end.

Definition is_memory_load_instruction (i : Instruction) : bool :=
  match opcode i with LB | LH | LW | LBU | LHU => true | _ => false end.

Definition is_memory_store_instruction (i : Instruction) : bool :=
  match opcode i with SB | SH | SW => true | _ => false end.

Definition is_branch_instruction (i : Instruction) : bool :=
  match opcode i with BEQ | BNE | BLT | BGE | BLTU | BGEU => true | _ => false end.

Definition is_jump_instruction (i : Instruction) : bool :=
  match opcode i with JAL | JALR => true | _ => false end.

Definition is_auipc_instruction (i : Instruction) : bool :=
  match opcode i with AUIPC => true | _ => false end.

Definition is_divrem_instruction (i : Instruction) : bool :=
  match opcode i with DIV | DIVU | REM | REMU => true | _ => false end.

Definition is_ebreak_instruction (i : Instruction) : bool :=
  match opcode i with EBREAK => true | _ => false end.

Definition is_unimp_instruction (i : Instruction) : bool :=
  match opcode i with UNIMP => true | _ => false end.

(** Every instruction falls in exactly one of the classes that
    [execute_instruction] dispatches on, so its final [unreachable!()] is. *)
Definition instruction_classes (i : Instruction) : list bool :=
  [is_alu_instruction i; is_memory_load_instruction i; is_memory_store_instruction i;
   is_branch_instruction i; is_jump_instruction i; is_auipc_instruction i;
   is_ecall_instruction i; is_ebreak_instruction i; is_unimp_instruction i].

Lemma instruction_classes_partition i :
  length (filter (fun b => b = true) (instruction_classes i)) = 1%nat.
Proof. destruct i as [o ? ? ? ? ?]. by destruct o. Qed.

(** ** Typed constructors and decoders (disassembler/rrs.rs)

    The decoded formats of [rrs_lib]: register numbers are [usize], immediates
    [i32] (two's complement values), [shamt] is [u32]. *)

Record RType : Type := mkRType { r_rd : Z; r_rs1 : Z; r_rs2 : Z }.
Record IType : Type := mkIType { i_rd : Z; i_rs1 : Z; i_imm : Z }.
Record ITypeShamt : Type := mkITypeShamt { sh_rd : Z; sh_rs1 : Z; sh_shamt : Z }.
Record SType : Type := mkSType { s_rs1 : Z; s_rs2 : Z; s_imm : Z }.
Record BType : Type := mkBType { b_rs1 : Z; b_rs2 : Z; b_imm : Z }.
Record UType : Type := mkUType { u_rd : Z; u_imm : Z }.
Record JType : Type := mkJType { j_rd : Z; j_imm : Z }.

Definition from_r_type (o : Opcode) (d : RType) : Instruction :=
  mkInstruction o (u8 (r_rd d)) (u32 (r_rs1 d)) (u32 (r_rs2 d)) false false.

Definition from_i_type (o : Opcode) (d : IType) : Instruction :=
  mkInstruction o (u8 (i_rd d)) (u32 (i_rs1 d)) (u32 (i_imm d)) false true.

Definition from_i_type_shamt (o : Opcode) (d : ITypeShamt) : Instruction :=
  mkInstruction o (u8 (sh_rd d)) (u32 (sh_rs1 d)) (sh_shamt d) false true.

Definition from_s_type (o : Opcode) (d : SType) : Instruction :=
  mkInstruction o (u8 (s_rs2 d)) (u32 (s_rs1 d)) (u32 (s_imm d)) false true.

Definition from_b_type (o : Opcode) (d : BType) : Instruction :=
  mkInstruction o (u8 (b_rs1 d)) (u32 (b_rs2 d)) (u32 (b_imm d)) false true.

Definition unimp : Instruction := mkInstruction UNIMP 0 0 0 true true.

Definition is_r_type (i : Instruction) : bool := negb (imm_c i).
Definition is_i_type (i : Instruction) : bool := imm_c i.

(** The decoders panic ([None]) on an invalid register number. *)
Definition r_type (i : Instruction) : option (Register * Register * Register) :=
  rd ← reg_from_u8 (op_a i);
  rs1 ← reg_from_u8 (u8 (op_b i));
  rs2 ← reg_from_u8 (u8 (op_c i));
  Some (rd, rs1, rs2).

Definition i_type (i : Instruction) : option (Register * Register * Z) :=
  rd ← reg_from_u8 (op_a i);
  rs1 ← reg_from_u8 (u8 (op_b i));
  Some (rd, rs1, op_c i).

Definition s_type (i : Instruction) : option (Register * Register * Z) :=
  rs1 ← reg_from_u8 (op_a i);
  rs2 ← reg_from_u8 (u8 (op_b i));
  Some (rs1, rs2, op_c i).

Definition b_type (i : Instruction) : option (Register * Register * Z) :=
  rs1 ← reg_from_u8 (op_a i);
  rs2 ← reg_from_u8 (u8 (op_b i));
  Some (rs1, rs2, op_c i).

Definition j_type (i : Instruction) : option (Register * Z) :=
  rd ← reg_from_u8 (op_a i);
  Some (rd, op_b i).

Definition u_type (i : Instruction) : option (Register * Z) :=
  rd ← reg_from_u8 (op_a i);
  Some (rd, op_b i).

(** The callbacks of [rrs_lib::InstructionProcessor], one constructor per
    trait method, with the format it receives. *)
Inductive DecodedInsn : Type :=
| process_add (d : RType)
| process_sub (d : RType)
| process_xor (d : RType)
| process_or (d : RType)
| process_and (d : RType)
| process_sll (d : RType)
| process_srl (d : RType)
| process_sra (d : RType)
| process_slt (d : RType)
| process_sltu (d : RType)
| process_mul (d : RType)
| process_mulh (d : RType)
| process_mulhu (d : RType)
| process_mulhsu (d : RType)
| process_div (d : RType)
| process_divu (d : RType)
| process_rem (d : RType)
| process_remu (d : RType)
| process_addi (d : IType)
| process_xori (d : IType)
| process_ori (d : IType)
| process_andi (d : IType)
| process_slti (d : IType)
| process_sltui (d : IType)
| process_lb (d : IType)
| process_lh (d : IType)
| process_lw (d : IType)
| process_lbu (d : IType)
| process_lhu (d : IType)
| process_slli (d : ITypeShamt)
| process_srli (d : ITypeShamt)
| process_srai (d : ITypeShamt)
| process_sb (d : SType)
| process_sh (d : SType)
| process_sw (d : SType)
| process_beq (d : BType)
| process_bne (d : BType)
| process_blt (d : BType)
| process_bge (d : BType)
| process_bltu (d : BType)
| process_bgeu (d : BType)
| process_jal (d : JType)
| process_jalr (d : IType)
| process_lui (d : UType)
| process_auipc (d : UType)
| process_ecall
| process_ebreak
| process_csrrc
| process_csrrci
| process_csrrs
| process_csrrsi
| process_csrrw
| process_csrrwi
| process_fence
| process_mret
| process_wfi.

(** [impl InstructionProcessor for InstructionTranspiler]. *)
Definition process (d : DecodedInsn) : Instruction :=
  match d with
  | process_add d => from_r_type ADD d
  | process_sub d => from_r_type SUB d
  | process_xor d => from_r_type XOR d
  | process_or d => from_r_type OR d
  | process_and d => from_r_type AND d
  | process_sll d => from_r_type SLL d
  | process_srl d => from_r_type SRL d
  | process_sra d => from_r_type SRA d
  | process_slt d => from_r_type SLT d
  | process_sltu d => from_r_type SLTU d
  | process_mul d => from_r_type MUL d
  | process_mulh d => from_r_type MULH d
  | process_mulhu d => from_r_type MULHU d
  | process_mulhsu d => from_r_type MULHSU d
  | process_div d => from_r_type DIV d
  | process_divu d => from_r_type DIVU d
  | process_rem d => from_r_type REM d
  | process_remu d => from_r_type REMU d
  | process_addi d => from_i_type ADD d
  | process_xori d => from_i_type XOR d
  | process_ori d => from_i_type OR d
  | process_andi d => from_i_type AND d
  | process_slti d => from_i_type SLT d
  | process_sltui d => from_i_type SLTU d
  | process_lb d => from_i_type LB d
  | process_lh d => from_i_type LH d
  | process_lw d => from_i_type LW d
  | process_lbu d => from_i_type LBU d
  | process_lhu d => from_i_type LHU d
  | process_slli d => from_i_type_shamt SLL d
  | process_srli d => from_i_type_shamt SRL d
  | process_srai d => from_i_type_shamt SRA d
  | process_sb d => from_s_type SB d
  | process_sh d => from_s_type SH d
  | process_sw d => from_s_type SW d
  | process_beq d => from_b_type BEQ d
  | process_bne d => from_b_type BNE d
  | process_blt d => from_b_type BLT d
  | process_bge d => from_b_type BGE d
  | process_bltu d => from_b_type BLTU d
  | process_bgeu d => from_b_type BGEU d
  | process_jal d => mkInstruction JAL (u8 (j_rd d)) (u32 (j_imm d)) 0 true true
  | process_jalr d => mkInstruction JALR (u8 (i_rd d)) (u32 (i_rs1 d)) (u32 (i_imm d)) false true
  | process_lui d => mkInstruction ADD (u8 (u_rd d)) 0 (u32 (u_imm d)) true true
  | process_auipc d => mkInstruction AUIPC (u8 (u_rd d)) (u32 (u_imm d)) (u32 (u_imm d)) true true
  | process_ecall => mkInstruction ECALL (reg_idx X5) (reg_idx X10) (reg_idx X11) false false
  | process_ebreak => mkInstruction EBREAK 0 0 0 false false
  | process_csrrc => unimp
  | process_csrrci => unimp
  | process_csrrs => unimp
  | process_csrrsi => unimp
  | process_csrrw => unimp
  | process_csrrwi => unimp
  | process_fence => unimp
  | process_mret => unimp
  | process_wfi => unimp
  end.

(** [transpile]: the first undecodable word panics. *)
Definition transpile (process_instruction : Z -> option DecodedInsn) (ws : list Z)
    : option (list Instruction) :=
  mapM (fun w => process <$> process_instruction w) ws.

(** ** Programs *)

Record Program : Type := mkProgram {
  instructions : list Instruction;
  pc_start : Z;
  pc_base : Z;
  memory_image : gmap Z Z
}.

Definition Program_new (insns : list Instruction) (start base : Z) : Program :=
  mkProgram insns start base ∅.

Definition Program_default : Program := mkProgram [] 0 0 ∅.

(** [Program::fetch]: indexing past the last instruction panics. *)
Definition fetch (p : Program) (pc : Z) : option Instruction :=
  instructions p !! Z.to_nat (wsub pc (pc_base p) / 4).

(** ** Well-formed instructions

    Register operands name registers and immediates are 32-bit; every
    instruction [process] produces from in-range formats is well-formed. *)

Definition uses_reg_b (i : Instruction) : bool :=
  match opcode i with
  | AUIPC | JAL | ECALL | EBREAK | UNIMP => false
  | o => if is_alu_opcode o then negb (imm_b i && imm_c i) else true
  end.

Definition wf_instruction (i : Instruction) : Prop :=
  0 <= op_a i < 32 /\ is_u32 (op_b i) /\ is_u32 (op_c i) /\
  (uses_reg_b i = true -> op_b i < 32) /\ (imm_c i = false -> op_c i < 32).

Definition wf_regs (d : DecodedInsn) : Prop :=
  let ok z := 0 <= z < 32 in
  match d with
  | process_add d | process_sub d | process_xor d | process_or d | process_and d
  | process_sll d | process_srl d | process_sra d | process_slt d | process_sltu d
  | process_mul d | process_mulh d | process_mulhu d | process_mulhsu d
  | process_div d | process_divu d | process_rem d | process_remu d =>
      ok (r_rd d) /\ ok (r_rs1 d) /\ ok (r_rs2 d)
  | process_addi d | process_xori d | process_ori d | process_andi d | process_slti d
  | process_sltui d | process_lb d | process_lh d | process_lw d | process_lbu d
  | process_lhu d | process_jalr d => ok (i_rd d) /\ ok (i_rs1 d)
  | process_slli d | process_srli d | process_srai d =>
      ok (sh_rd d) /\ ok (sh_rs1 d) /\ ok (sh_shamt d)
  | process_sb d | process_sh d | process_sw d => ok (s_rs1 d) /\ ok (s_rs2 d)
  | process_beq d | process_bne d | process_blt d | process_bge d | process_bltu d
  | process_bgeu d => ok (b_rs1 d) /\ ok (b_rs2 d)
  | process_jal d => ok (j_rd d)
  | process_lui d | process_auipc d => ok (u_rd d)
  | _ => True
  end.

Lemma u8_reg z : 0 <= z < 32 -> u8 z = z.
Proof. intros. apply u8_small, is_u8_iff. lia. Qed.

Lemma u32_reg z : 0 <= z < 32 -> u32 z = z.
Proof. intros. apply u32_small, is_u32_iff. lia. Qed.

Lemma is_u32_reg z : 0 <= z < 32 -> is_u32 z.
Proof. rewrite is_u32_iff. lia. Qed.

#[export] Hint Resolve is_u32_reg : rvbound.

Lemma process_wf d : wf_regs d -> wf_instruction (process d).
Proof.
  destruct d; cbn -[u8 u32]; intros H; destruct_and?;
  unfold wf_instruction; cbn -[u8 u32];
  rewrite ?u8_reg, ?(u32_reg (r_rs1 _)), ?(u32_reg (r_rs2 _)), ?(u32_reg (i_rs1 _)),
    ?(u32_reg (sh_rs1 _)), ?(u32_reg (s_rs1 _)), ?(u32_reg (b_rs2 _)) by lia;
  split_and?; try lia; try done; auto with rvbound;
  try (rewrite is_u32_iff; lia).
Qed.

(** C31. Whatever the decoder returns in range, the transpiled program consists of
    well-formed instructions, one per encoded word: destination and register operands below
    32 and 32-bit immediates, which is what the executor's handlers rely on. *)
Theorem transpile_wf pi ws insns :
  (forall w d, w ∈ ws -> pi w = Some d -> wf_regs d) ->
  transpile pi ws = Some insns -> Forall wf_instruction insns /\ length insns = length ws.
Proof.
  unfold transpile. revert insns. induction ws as [|w ws IH]; intros insns Hpi H.
  - cbn in H. injection H as <-. auto.
  - cbn in H. destruct (pi w) as [d|] eqn:Hw; [|done]. cbn in H.
    destruct (mapM _ ws) as [insns'|] eqn:Hm; [|done]. cbn in H. injection H as <-.
    destruct (IH insns') as [IH1 IH2]; [intros; eapply Hpi; [by right | done] | done |].
    split; [|cbn; lia]. constructor; [|done]. eapply process_wf, Hpi; [|exact Hw]. left.
Qed.

(** A decoder that knows one encoding: [addi x5, x6, -1]. *)
Definition decode_addi (w : Z) : option DecodedInsn :=
  if w =? 0xFFF30293 then Some (process_addi (mkIType 5 6 (-1))) else None.

Lemma transpile_wf_witness :
  Forall wf_instruction [mkInstruction ADD 5 6 4294967295 false true] /\
  length [mkInstruction ADD 5 6 4294967295 false true] = 1%nat.
Proof.
  apply (transpile_wf decode_addi [0xFFF30293] [mkInstruction ADD 5 6 4294967295 false true]).
  - intros w d _ E. unfold decode_addi in E. destruct (w =? 0xFFF30293); [|discriminate E].
    injection E as <-. cbn. lia.
  - reflexivity.
Defined.

(** Every decoder succeeds on a well-formed instruction. *)
Lemma reg_from_u8_ok v : 0 <= v < 32 -> exists r, reg_from_u8 v = Some r /\ reg_idx r = v.
Proof.
  intros H. destruct (reg_from_u8 v) as [r|] eqn:E.
  - eauto using reg_from_u8_spec.
  - exfalso. assert (forall n, (n < 32)%nat -> reg_from_u8 (Z.of_nat n) <> None) as Hall.
    { intros n Hn. do 32 (destruct n; [done|]). lia. }
    apply (Hall (Z.to_nat v)); [lia|]. rewrite Z2Nat.id by lia. done.
Qed.
