(* ===== verification/SyscallCode.v ===== *)
(** * System call numbers (crates/core/executor/src/syscalls/code.rs)

    [as_u32] is the enum's discriminant: byte 0 is the identifier, byte 1 says
    whether the call has its own table, byte 2 the extra cycles it uses. *)

From Stdlib Require Import ZArith Lia.
From stdpp Require Import base gmap list countable.
From S2P Require Import Prelude.

Local Open Scope Z_scope.

Inductive SyscallCode : Type :=
| HALT
| WRITE
| ENTER_UNCONSTRAINED
| EXIT_UNCONSTRAINED
| SHA_EXTEND
| SHA_COMPRESS
| ED_ADD
| ED_DECOMPRESS
| KECCAK_PERMUTE
| SECP256K1_ADD
| SECP256K1_DOUBLE
| SECP256K1_DECOMPRESS
| BN254_ADD
| BN254_DOUBLE
| COMMIT
| COMMIT_DEFERRED_PROOFS
| VERIFY_SP1_PROOF
| BLS12381_DECOMPRESS
| HINT_LEN
| HINT_READ
| UINT256_MUL
| U256XU2048_MUL
| BLS12381_ADD
| BLS12381_DOUBLE
| BLS12381_FP_ADD
| BLS12381_FP_SUB
| BLS12381_FP_MUL
| BLS12381_FP2_ADD
| BLS12381_FP2_SUB
| BLS12381_FP2_MUL
| BN254_FP_ADD
| BN254_FP_SUB
| BN254_FP_MUL
| BN254_FP2_ADD
| BN254_FP2_SUB
| BN254_FP2_MUL
| SECP256R1_ADD
| SECP256R1_DOUBLE
| SECP256R1_DECOMPRESS.

Definition as_u32 (c : SyscallCode) : Z :=
  match c with
  | HALT => 0x00000000
  | WRITE => 0x00000002
  | ENTER_UNCONSTRAINED => 0x00000003
  | EXIT_UNCONSTRAINED => 0x00000004
  | SHA_EXTEND => 0x00300105
  | SHA_COMPRESS => 0x00010106
  | ED_ADD => 0x00010107
  | ED_DECOMPRESS => 0x00000108
  | KECCAK_PERMUTE => 0x00010109
  | SECP256K1_ADD => 0x0001010A
  | SECP256K1_DOUBLE => 0x0000010B
  | SECP256K1_DECOMPRESS => 0x0000010C
  | BN254_ADD => 0x0001010E
  | BN254_DOUBLE => 0x0000010F
  | COMMIT => 0x00000010
  | COMMIT_DEFERRED_PROOFS => 0x0000001A
  | VERIFY_SP1_PROOF => 0x0000001B
  | BLS12381_DECOMPRESS => 0x0000011C
  | HINT_LEN => 0x000000F0
  | HINT_READ => 0x000000F1
  | UINT256_MUL => 0x0001011D
  | U256XU2048_MUL => 0x0001012F
  | BLS12381_ADD => 0x0001011E
  | BLS12381_DOUBLE => 0x0000011F
  | BLS12381_FP_ADD => 0x00010120
  | BLS12381_FP_SUB => 0x00010121
  | BLS12381_FP_MUL => 0x00010122
  | BLS12381_FP2_ADD => 0x00010123
  | BLS12381_FP2_SUB => 0x00010124
  | BLS12381_FP2_MUL => 0x00010125
  | BN254_FP_ADD => 0x00010126
  | BN254_FP_SUB => 0x00010127
  | BN254_FP_MUL => 0x00010128
  | BN254_FP2_ADD => 0x00010129
  | BN254_FP2_SUB => 0x0001012A
  | BN254_FP2_MUL => 0x0001012B
  | SECP256R1_ADD => 0x0001012C
  | SECP256R1_DOUBLE => 0x0000012D
  | SECP256R1_DECOMPRESS => 0x0000012E
  end.

(** [SyscallCode::iter()]. *)
Definition all_codes : list SyscallCode :=
  [HALT; WRITE; ENTER_UNCONSTRAINED; EXIT_UNCONSTRAINED;
   SHA_EXTEND; SHA_COMPRESS; ED_ADD; ED_DECOMPRESS;
   KECCAK_PERMUTE; SECP256K1_ADD; SECP256K1_DOUBLE; SECP256K1_DECOMPRESS;
   BN254_ADD; BN254_DOUBLE; COMMIT; COMMIT_DEFERRED_PROOFS;
   VERIFY_SP1_PROOF; BLS12381_DECOMPRESS; HINT_LEN; HINT_READ;
   UINT256_MUL; U256XU2048_MUL; BLS12381_ADD; BLS12381_DOUBLE;
   BLS12381_FP_ADD; BLS12381_FP_SUB; BLS12381_FP_MUL; BLS12381_FP2_ADD;
   BLS12381_FP2_SUB; BLS12381_FP2_MUL; BN254_FP_ADD; BN254_FP_SUB;
   BN254_FP_MUL; BN254_FP2_ADD; BN254_FP2_SUB; BN254_FP2_MUL;
   SECP256R1_ADD; SECP256R1_DOUBLE; SECP256R1_DECOMPRESS].

(** [SyscallCode::from_u32]: an unknown number panics ([None]). *)
Definition from_u32 (v : Z) : option SyscallCode :=
  match v with
  | 0x00000000 => Some HALT
  | 0x00000002 => Some WRITE
  | 0x00000003 => Some ENTER_UNCONSTRAINED
  | 0x00000004 => Some EXIT_UNCONSTRAINED
  | 0x00300105 => Some SHA_EXTEND
  | 0x00010106 => Some SHA_COMPRESS
  | 0x00010107 => Some ED_ADD
  | 0x00000108 => Some ED_DECOMPRESS
  | 0x00010109 => Some KECCAK_PERMUTE
  | 0x0001010A => Some SECP256K1_ADD
  | 0x0000010B => Some SECP256K1_DOUBLE
  | 0x0000010C => Some SECP256K1_DECOMPRESS
  | 0x0001010E => Some BN254_ADD
  | 0x0000010F => Some BN254_DOUBLE
  | 0x00000010 => Some COMMIT
  | 0x0000001A => Some COMMIT_DEFERRED_PROOFS
  | 0x0000001B => Some VERIFY_SP1_PROOF
  | 0x0000011C => Some BLS12381_DECOMPRESS
  | 0x000000F0 => Some HINT_LEN
  | 0x000000F1 => Some HINT_READ
  | 0x0001011D => Some UINT256_MUL
  | 0x0001012F => Some U256XU2048_MUL
  | 0x0001011E => Some BLS12381_ADD
  | 0x0000011F => Some BLS12381_DOUBLE
  | 0x00010120 => Some BLS12381_FP_ADD
  | 0x00010121 => Some BLS12381_FP_SUB
  | 0x00010122 => Some BLS12381_FP_MUL
  | 0x00010123 => Some BLS12381_FP2_ADD
  | 0x00010124 => Some BLS12381_FP2_SUB
  | 0x00010125 => Some BLS12381_FP2_MUL
  | 0x00010126 => Some BN254_FP_ADD
  | 0x00010127 => Some BN254_FP_SUB
  | 0x00010128 => Some BN254_FP_MUL
  | 0x00010129 => Some BN254_FP2_ADD
  | 0x0001012A => Some BN254_FP2_SUB
  | 0x0001012B => Some BN254_FP2_MUL
  | 0x0001012C => Some SECP256R1_ADD
  | 0x0000012D => Some SECP256R1_DOUBLE
  | 0x0000012E => Some SECP256R1_DECOMPRESS
  | _ => None
  end.

Lemma from_as_u32 c : from_u32 (as_u32 c) = Some c.
Proof. by destruct c. Qed.

#[export] Instance as_u32_inj : Inj (=) (=) as_u32.
Proof. intros x y H. apply (f_equal from_u32) in H. rewrite !from_as_u32 in H. congruence. Qed.

#[export] Instance SyscallCode_eq_dec : EqDecision SyscallCode := inj_eq_dec as_u32.

#[export] Program Instance SyscallCode_countable : Countable SyscallCode :=
  inj_countable as_u32 from_u32 _.
Next Obligation. apply from_as_u32. Qed.

Definition code_eqb (a b : SyscallCode) : bool := as_u32 a =? as_u32 b.

Lemma code_eqb_eq a b : code_eqb a b = true <-> a = b.
Proof. unfold code_eqb. rewrite Z.eqb_eq. split; [apply (inj as_u32) | congruence]. Qed.

Lemma code_eqb_neq a b : code_eqb a b = false <-> a <> b.
Proof. rewrite <- code_eqb_eq. by destruct (code_eqb a b). Qed.

Definition syscall_id (c : SyscallCode) : Z := u8 (as_u32 c).
Definition should_send (c : SyscallCode) : Z := u8 (Z.shiftr (as_u32 c) 8).
Definition num_cycles (c : SyscallCode) : Z := u8 (Z.shiftr (as_u32 c) 16).

(** [count_map]: calls proved in one table share a counter. *)
Definition count_map (c : SyscallCode) : SyscallCode :=
  match c with
  | BN254_FP_SUB => BN254_FP_ADD
  | BN254_FP_MUL => BN254_FP_ADD
  | BN254_FP2_SUB => BN254_FP2_ADD
  | BLS12381_FP_SUB => BLS12381_FP_ADD
  | BLS12381_FP_MUL => BLS12381_FP_ADD
  | BLS12381_FP2_SUB => BLS12381_FP2_ADD
  | c => c
  end.

(** [from_u32] accepts exactly the discriminants. *)
Lemma from_u32_inv v c : from_u32 v = Some c -> as_u32 c = v.
Proof.
  unfold from_u32.
  repeat match goal with |- context [match ?x with _ => _ end] => destruct x; try done end;
  intros [= <-]; reflexivity.
Qed.

(** Counters are shared only between calls of the same table. *)
Lemma count_map_should_send c : should_send (count_map c) = should_send c.
Proof. by destruct c. Qed.

Lemma count_map_idem c : count_map (count_map c) = count_map c.
Proof. by destruct c. Qed.
