(* ===== verification/Memory.v ===== *)
(** * Guest memory (crates/core/executor/src/memory.rs)

    [PagedMemory] is the two-level table of the code: a vector of pages of
    [PAGE_LEN] optional slots and an index from page numbers to positions in
    it, [NO_PAGE] marking absent pages.  [Registers] is the array of 32 optional
    slots.  Indexing a Rust vector out of bounds panics, so every operation
    returns [None] there.

    [Flat] is the abstract memory the executor is written against: one finite
    map per component.  [pages_rel] and [registers_rel] relate the two, and the
    refinement lemmas show that every operation of the tables implements the
    operation of the flat memory with the same result. *)

From Stdlib Require Import ZArith Lia.
From stdpp Require Import base gmap list numbers sorting.
From S2P Require Import Prelude.

Local Open Scope Z_scope.

Definition LOG_PAGE_LEN : Z := 14.
Definition PAGE_LEN : Z := 16384.
Definition MAX_PAGE_COUNT : Z := (2 ^ 31 - 2 ^ 27) / 4 / PAGE_LEN + 1.
Definition NO_PAGE : Z := 65535.
Definition PAGE_MASK : Z := PAGE_LEN - 1.
Definition NUM_IGNORED_LOWER_BITS : Z := 2.

(** [compress_addr], [decompress_addr] and [indices]. *)
Definition compress_addr (addr : Z) : Z := Z.shiftr addr NUM_IGNORED_LOWER_BITS.

Definition decompress_addr (i : Z) : Z := u32 (Z.shiftl i NUM_IGNORED_LOWER_BITS).

Definition indices (addr : Z) : Z * Z :=
  let i := compress_addr addr in (Z.shiftr i LOG_PAGE_LEN, Z.land i PAGE_MASK).

(** ** The paged table *)

Module PagedMemory.
Section Ops.
  Context {V : Type}.

Record t : Type := mk { page_table : list (list (option V)); index : list Z }.

Definition new_page : list (option V) := replicate (Z.to_nat PAGE_LEN) None.

Definition new_preallocated : t := mk [] (replicate (Z.to_nat MAX_PAGE_COUNT) NO_PAGE).

(** The slot of page number [upper], if the page is allocated. *)
Definition get (m : t) (addr : Z) : option (option V) :=
  let '(upper, lower) := indices addr in
  i ← index m !! Z.to_nat upper;
  if i =? NO_PAGE then Some None
  else page ← page_table m !! Z.to_nat i; page !! Z.to_nat lower.

(** Write one slot of an allocated page. *)
Definition set_slot (m : t) (i lower : Z) (v : option V) : option t :=
  page ← page_table m !! Z.to_nat i;
  page' ← slice_set (Z.to_nat lower) v page;
  Some (mk (<[Z.to_nat i := page']> (page_table m)) (index m)).

(** Allocate the page of [upper] at the end of the table. *)
Definition alloc (m : t) (upper : Z) : t * Z :=
  let i := u16 (Z.of_nat (length (page_table m))) in
  (mk (page_table m ++ [new_page]) (<[Z.to_nat upper := i]> (index m)), i).

Definition insert (m : t) (addr : Z) (v : V) : option (t * option V) :=
  let '(upper, lower) := indices addr in
  i ← index m !! Z.to_nat upper;
  let '(m', i') := if i =? NO_PAGE then alloc m upper else (m, i) in
  page ← page_table m' !! Z.to_nat i';
  old ← page !! Z.to_nat lower;
  m'' ← set_slot m' i' lower (Some v);
  Some (m'', old).

Definition remove (m : t) (addr : Z) : option (t * option V) :=
  let '(upper, lower) := indices addr in
  i ← index m !! Z.to_nat upper;
  if i =? NO_PAGE then Some (m, None)
  else
    page ← page_table m !! Z.to_nat i;
    old ← page !! Z.to_nat lower;
    m' ← set_slot m i lower None;
    Some (m', old).

(** [entry]: allocates the page eagerly and returns the slot's content
    ([Some] is [Occupied], [None] is [Vacant]). *)
Definition entry (m : t) (addr : Z) : option (t * option V) :=
  let '(upper, lower) := indices addr in
  i ← index m !! Z.to_nat upper;
  let '(m', i') := if i =? NO_PAGE then alloc m upper else (m, i) in
  page ← page_table m' !! Z.to_nat i';
  old ← page !! Z.to_nat lower;
  Some (m', old).

(** Addresses of the occupied slots of one page, in slot order. *)
Definition page_keys (upper : nat) (page : list (option V)) : list Z :=
  omap (fun '(lower, v) =>
      match v with
      | Some _ => Some (decompress_addr (Z.shiftl (Z.of_nat upper) LOG_PAGE_LEN + Z.of_nat lower))
      | None => None
      end)
    (zip (seq 0 (length page)) page).

Definition keys (m : t) : option (list Z) :=
  ls ← mapM (fun '(upper, i) =>
      if i =? NO_PAGE then Some []
      else page ← page_table m !! Z.to_nat i; Some (page_keys upper page))
    (zip (seq 0 (length (index m))) (index m));
  Some (concat ls).

Definition estimate_len (m : t) : Z :=
  Z.of_nat (length (filter (fun i => i <> NO_PAGE) (index m))) * PAGE_LEN.

Definition clear (m : t) : t :=
  mk [] (replicate (length (index m)) NO_PAGE).

Fixpoint from_iter_aux (m : t) (l : list (Z * V)) : option t :=
  match l with
  | [] => Some m
  | (k, v) :: l' => '(m', _) ← insert m k v; from_iter_aux m' l'
  end.

Definition from_iter (l : list (Z * V)) : option t := from_iter_aux new_preallocated l.
End Ops.
Arguments t : clear implicits.
End PagedMemory.

(** ** The register file *)

Module Registers.
Section Ops.
  Context {T : Type}.

Definition t : Type := list (option T).

Definition default : t := replicate 32 None.

Definition get (r : t) (addr : Z) : option (option T) := r !! Z.to_nat addr.

(** [entry] hands out the slot in place; [insert] replaces it. *)
Definition entry (r : t) (addr : Z) : option (option T) := r !! Z.to_nat addr.

Definition insert (r : t) (addr : Z) (v : T) : option (t * option T) :=
  old ← r !! Z.to_nat addr;
  Some (<[Z.to_nat addr := Some v]> r, old).

Definition remove (r : t) (addr : Z) : option (t * option T) :=
  old ← r !! Z.to_nat addr;
  Some (<[Z.to_nat addr := None]> r, old).

Definition clear (r : t) : t := replicate (length r) None.

Definition into_iter (r : t) : list (Z * T) :=
  omap (fun '(i, v) => (fun x => (Z.of_nat i, x)) <$> v) (zip (seq 0 (length r)) r).
End Ops.
Arguments t : clear implicits.
End Registers.

(** ** The flat memory *)

Module Flat.
Section Ops.
  Context {V : Type}.

(** Page-table component: keys are compressed addresses. *)
Definition in_range (addr : Z) : bool := Z.shiftr (compress_addr addr) LOG_PAGE_LEN <? MAX_PAGE_COUNT.

Definition pt_get (m : gmap Z V) (addr : Z) : option (option V) :=
  if in_range addr then Some (m !! compress_addr addr) else None.

Definition pt_insert (m : gmap Z V) (addr : Z) (v : V) : option (gmap Z V * option V) :=
  if in_range addr then Some (<[compress_addr addr := v]> m, m !! compress_addr addr) else None.

Definition pt_remove (m : gmap Z V) (addr : Z) : option (gmap Z V * option V) :=
  if in_range addr then Some (delete (compress_addr addr) m, m !! compress_addr addr) else None.

(** Occupied addresses in increasing order. *)
Definition pt_keys (m : gmap Z V) : list Z :=
  decompress_addr <$> merge_sort Z.le (elements (dom m)).

Record Memory : Type := mkMemory { registers : gmap Z V; page_table : gmap Z V }.

Definition empty : Memory := mkMemory ∅ ∅.

(** The two components, as the code addresses them: [memory.registers] and
    [memory.page_table]. *)
Inductive comp : Type := Reg | Page.

#[global] Instance comp_eq_dec : EqDecision comp.
Proof. solve_decision. Defined.

Definition key (c : comp) (addr : Z) : Z :=
  match c with Reg => addr | Page => compress_addr addr end.

Definition lookup (c : comp) (addr : Z) (m : Memory) : option V :=
  match c with Reg => registers m | Page => page_table m end !! key c addr.

Definition update (c : comp) (addr : Z) (v : V) (m : Memory) : Memory :=
  match c with
  | Reg => mkMemory (<[key Reg addr := v]> (registers m)) (page_table m)
  | Page => mkMemory (registers m) (<[key Page addr := v]> (page_table m))
  end.

(** [entry(addr).or_insert(v)]. *)
Definition or_insert (c : comp) (addr : Z) (v : V) (m : Memory) : Memory :=
  match lookup c addr m with Some _ => m | None => update c addr v m end.

(** [Memory::get], [insert], [remove]: addresses below 32 are registers. *)
Definition get (m : Memory) (addr : Z) : option (option V) :=
  if addr <? 32 then Some (registers m !! addr) else pt_get (page_table m) addr.

Definition insert (m : Memory) (addr : Z) (v : V) : option Memory :=
  if addr <? 32 then Some (mkMemory (<[addr := v]> (registers m)) (page_table m))
  else '(pt, _) ← pt_insert (page_table m) addr v; Some (mkMemory (registers m) pt).

Definition remove (m : Memory) (addr : Z) : option Memory :=
  if addr <? 32 then Some (mkMemory (delete addr (registers m)) (page_table m))
  else '(pt, _) ← pt_remove (page_table m) addr; Some (mkMemory (registers m) pt).

(** [into_iter]: registers first, then the pages in address order. *)
Definition into_iter (m : Memory) : list (Z * V) :=
  omap (fun k => (fun v => (k, v)) <$> registers m !! k) (zseq 0 32) ++
  omap (fun a => (fun v => (a, v)) <$> page_table m !! compress_addr a) (pt_keys (page_table m)).

Fixpoint from_iter (m : Memory) (l : list (Z * V)) : option Memory :=
  match l with
  | [] => Some m
  | (k, v) :: l' => m' ← insert m k v; from_iter m' l'
  end.
End Ops.
Arguments Memory : clear implicits.
End Flat.

Section FlatLemmas.
  Context {V : Type}.
  Implicit Types m : Flat.Memory V.

Lemma flat_lookup_update_eq c a v m : Flat.lookup c a (Flat.update c a v m) = Some v.
Proof. destruct c; cbn; apply lookup_insert_eq. Qed.

Lemma flat_lookup_update_ne c c' a a' v m :
  (c, Flat.key c a) <> (c', Flat.key c' a') ->
  Flat.lookup c' a' (Flat.update c a v m) = Flat.lookup c' a' m.
Proof. destruct c, c'; cbn; intros H; rewrite ?lookup_insert_ne; congruence. Qed.

Lemma flat_lookup_update c c' a a' v m :
  Flat.lookup c' a' (Flat.update c a v m) = Some v \/
  Flat.lookup c' a' (Flat.update c a v m) = Flat.lookup c' a' m.
Proof.
  destruct (decide ((c, Flat.key c a) = (c', Flat.key c' a'))) as [E|E].
  - left. injection E as -> E. destruct c'; cbn in E |- *; rewrite E; apply lookup_insert_eq.
  - right. by apply flat_lookup_update_ne.
Qed.
End FlatLemmas.

(** ** Address arithmetic *)

Lemma compress_div addr : compress_addr addr = addr / 4.
Proof. unfold compress_addr. by apply shiftr_div_lit. Qed.

Lemma indices_div addr :
  indices addr = (addr / 4 / 16384, (addr / 4) mod 16384).
Proof.
  unfold indices. rewrite compress_div. f_equal.
  - by apply shiftr_div_lit.
  - change PAGE_MASK with (Z.ones 14). by rewrite Z.land_ones.
Qed.

Lemma MAX_PAGE_COUNT_val : MAX_PAGE_COUNT = 30721.
Proof. reflexivity. Qed.

(** Every address below the BabyBear prime has a page. *)
Lemma in_range_iff addr : 0 <= addr -> Flat.in_range addr = true <-> addr < 2013331456.
Proof.
  intros H. unfold Flat.in_range. rewrite compress_div, MAX_PAGE_COUNT_val.
  rewrite (shiftr_div_lit _ LOG_PAGE_LEN 16384) by (reflexivity || done).
  rewrite Z.ltb_lt. split; intros; Z.div_mod_to_equations; lia.
Qed.

Lemma compress_inj a b :
  a mod 4 = 0 -> b mod 4 = 0 -> compress_addr a = compress_addr b -> a = b.
Proof. rewrite !compress_div. intros. Z.div_mod_to_equations; lia. Qed.

Lemma decompress_compress a :
  is_u32 a -> a mod 4 = 0 -> decompress_addr (compress_addr a) = a.
Proof.
  rewrite is_u32_iff. intros H Ha. unfold decompress_addr. rewrite compress_div.
  rewrite Z.shiftl_mul_pow2 by done. rewrite u32_small; [|apply is_u32_iff];
  change (2 ^ NUM_IGNORED_LOWER_BITS) with 4; Z.div_mod_to_equations; lia.
Qed.

(** ** Refinement of the page table *)

Section Refinement.
  Context {V : Type}.
  Implicit Types (pm : PagedMemory.t V) (m : gmap Z V).

Definition used (l : list Z) : nat := length (filter (fun i => i <> NO_PAGE) l).

Record wf_pages pm : Prop := {
  wf_index_len : length (PagedMemory.index pm) = Z.to_nat 30721;
  wf_page_len : Forall (fun p => length p = Z.to_nat 16384) (PagedMemory.page_table pm);
  wf_count : length (PagedMemory.page_table pm) = used (PagedMemory.index pm);
  wf_bound : forall u i, PagedMemory.index pm !! u = Some i -> i <> NO_PAGE ->
    0 <= i < Z.of_nat (length (PagedMemory.page_table pm));
  wf_inj : forall u u' i, PagedMemory.index pm !! u = Some i ->
    PagedMemory.index pm !! u' = Some i -> i <> NO_PAGE -> u = u'
}.

(** Content of compressed key [k]. *)
Definition key_slot pm (k : Z) : option V :=
  match PagedMemory.index pm !! Z.to_nat (k / 16384) with
  | Some i =>
      if i =? NO_PAGE then None
      else p ← PagedMemory.page_table pm !! Z.to_nat i; mjoin (p !! Z.to_nat (k mod 16384))
  | None => None
  end.

Definition pages_rel pm m : Prop :=
  wf_pages pm /\ forall k, m !! k = if 0 <=? k then key_slot pm k else None.

Lemma used_le l : (used l <= length l)%nat.
Proof. apply length_filter. Qed.

Lemma used_alloc l u i :
  l !! u = Some NO_PAGE -> i <> NO_PAGE -> used (<[u := i]> l) = S (used l).
Proof.
  unfold used. revert u. induction l as [|x l IH]; intros [|u] H Hi; try done; cbn in H.
  - injection H as ->. change (<[0%nat := i]> (NO_PAGE :: l)) with (i :: l).
    rewrite filter_cons_True, filter_cons_False by naive_solver. done.
  - change (<[S u := i]> (x :: l)) with (x :: <[u := i]> l).
    rewrite !filter_cons. case_decide; cbn [length]; rewrite IH; done.
Qed.

Lemma used_lt l u : l !! u = Some NO_PAGE -> (used l < length l)%nat.
Proof.
  unfold used. revert u. induction l as [|x l IH]; intros [|u] H; try done; cbn in H.
  - injection H as ->. rewrite filter_cons_False by naive_solver.
    pose proof (used_le l). unfold used in *. cbn [length]. lia.
  - rewrite filter_cons. specialize (IH u H). case_decide; cbn [length]; lia.
Qed.

Lemma index_total pm addr :
  wf_pages pm -> 0 <= addr -> Flat.in_range addr = true ->
  exists i, PagedMemory.index pm !! Z.to_nat (addr / 4 / 16384) = Some i.
Proof.
  intros Hwf H0 Hr. apply in_range_iff in Hr; [|done].
  apply lookup_lt_is_Some_2. rewrite (wf_index_len pm Hwf).
  Z.div_mod_to_equations; lia.
Qed.

Lemma index_out pm addr :
  wf_pages pm -> 0 <= addr -> Flat.in_range addr = false ->
  PagedMemory.index pm !! Z.to_nat (addr / 4 / 16384) = None.
Proof.
  intros Hwf H0 Hr. apply lookup_ge_None_2. rewrite (wf_index_len pm Hwf).
  assert (~ addr < 2013331456).
  { intros H. apply (in_range_iff addr H0) in H. congruence. }
  Z.div_mod_to_equations; lia.
Qed.

Lemma page_total pm u i :
  wf_pages pm -> PagedMemory.index pm !! u = Some i -> i <> NO_PAGE ->
  exists p, PagedMemory.page_table pm !! Z.to_nat i = Some p /\ length p = Z.to_nat 16384.
Proof.
  intros Hwf Hu Hi. destruct (wf_bound pm Hwf u i Hu Hi) as [H0 H1].
  destruct (lookup_lt_is_Some_2 (PagedMemory.page_table pm) (Z.to_nat i)) as [p Hp]; [lia|].
  exists p. split; [done|]. by eapply Forall_lookup_1 in Hp; [|apply (wf_page_len pm Hwf)].
Qed.

Lemma slot_total (p : list (option V)) k :
  length p = Z.to_nat 16384 -> exists s, p !! Z.to_nat (k mod 16384) = Some s.
Proof.
  intros Hp. apply lookup_lt_is_Some_2. rewrite Hp.
  pose proof (Z.mod_pos_bound k 16384). lia.
Qed.

(** [new_preallocated] and [clear] implement the empty map. *)
Lemma new_preallocated_rel : pages_rel PagedMemory.new_preallocated ∅.
Proof.
  assert (forall n, used (replicate n NO_PAGE) = 0%nat) as Hu.
  { induction n as [|n IH]; [done|]. unfold used in *. cbn [replicate].
    rewrite filter_cons_False; naive_solver. }
  split.
  - constructor; cbn [PagedMemory.page_table PagedMemory.index PagedMemory.new_preallocated].
    + by rewrite length_replicate.
    + constructor.
    + by rewrite Hu.
    + intros u i H. by apply lookup_replicate in H as [-> _].
    + intros u u' i H. by apply lookup_replicate in H as [-> _].
  - intros k. rewrite lookup_empty. unfold key_slot. cbn [PagedMemory.index PagedMemory.new_preallocated].
    destruct (0 <=? k); [|done]. destruct (replicate _ _ !! _) eqn:E; [|done].
    apply lookup_replicate in E as [-> _]. done.
Qed.

Lemma clear_rel pm m : pages_rel pm m -> pages_rel (PagedMemory.clear pm) ∅.
Proof.
  intros [Hwf _]. unfold PagedMemory.clear. rewrite (wf_index_len pm Hwf).
  apply new_preallocated_rel.
Qed.

(** [get] implements the flat lookup, panics included. *)
Lemma get_refines pm m addr :
  pages_rel pm m -> 0 <= addr -> PagedMemory.get pm addr = Flat.pt_get m addr.
Proof.
  intros [Hwf Hrel] H0. unfold PagedMemory.get, Flat.pt_get. rewrite indices_div.
  destruct (Flat.in_range addr) eqn:Hr.
  - destruct (index_total pm addr Hwf H0 Hr) as [i Hi]. rewrite Hi. cbn.
    rewrite Hrel, compress_div. unfold key_slot. rewrite Hi.
    rewrite (proj2 (Z.leb_le 0 (addr / 4))) by (apply Z.div_pos; lia).
    destruct (Z.eqb_spec i NO_PAGE); [done|].
    destruct (page_total pm _ i Hwf Hi n) as (p & Hp & Hl). rewrite Hp. cbn.
    destruct (slot_total p (addr / 4) Hl) as [s ->]. done.
  - by rewrite (index_out pm addr Hwf H0 Hr).
Qed.

Ltac pmsimpl := cbn [PagedMemory.page_table PagedMemory.index].

(** Allocation adds an empty page: well-formed, same content. *)
Lemma alloc_spec pm upper :
  wf_pages pm -> PagedMemory.index pm !! Z.to_nat upper = Some NO_PAGE ->
  exists pm' i, PagedMemory.alloc pm upper = (pm', i) /\ wf_pages pm' /\ i <> NO_PAGE /\
    PagedMemory.index pm' !! Z.to_nat upper = Some i /\
    forall k, key_slot pm' k = key_slot pm k.
Proof.
  intros Hwf Hu. destruct pm as [pt ix].
  pose proof (used_lt _ _ Hu) as Hlt. pose proof (wf_count _ Hwf) as Hc.
  pose proof (wf_index_len _ Hwf) as Hl. cbn [PagedMemory.page_table PagedMemory.index] in *.
  assert (u16 (Z.of_nat (length pt)) = Z.of_nat (length pt)) as Hu16.
  { apply wrap_small. unfold in_u. change (2 ^ 16) with 65536. lia. }
  assert (Z.of_nat (length pt) <> NO_PAGE) as Hne by (unfold NO_PAGE; lia).
  unfold PagedMemory.alloc. pmsimpl. rewrite Hu16. do 2 eexists. split; [reflexivity|].
  assert (forall i, ix !! i = Some (Z.of_nat (length pt)) -> False) as Hfresh.
  { intros i Hi. pose proof (wf_bound _ Hwf i _ Hi Hne) as Hb. cbn in Hb. lia. }
  split_and!; [|done| |].
  - constructor; pmsimpl.
    + by rewrite length_insert.
    + apply Forall_app. split; [apply (wf_page_len _ Hwf)|].
      apply Forall_singleton. apply length_replicate.
    + rewrite length_app, used_alloc by done. cbn [length]. lia.
    + intros u i H Hi. rewrite length_app. cbn [length].
      destruct (decide (Z.to_nat upper = u)) as [<-|Hn].
      * rewrite list_lookup_insert_eq in H by (by apply lookup_lt_Some in Hu).
        injection H as <-. lia.
      * rewrite list_lookup_insert_ne in H by done.
        pose proof (wf_bound _ Hwf u i H Hi) as Hb. cbn in Hb. lia.
    + intros u u' i H H' Hi.
      destruct (decide (Z.to_nat upper = u)) as [<-|Hn], (decide (Z.to_nat upper = u')) as [<-|Hn'];
      [done | | |].
      * rewrite list_lookup_insert_eq in H by (by apply lookup_lt_Some in Hu).
        rewrite list_lookup_insert_ne in H' by done.
        simplify_eq. by apply Hfresh in H'.
      * rewrite list_lookup_insert_eq in H' by (by apply lookup_lt_Some in Hu).
        rewrite list_lookup_insert_ne in H by done.
        simplify_eq. by apply Hfresh in H.
      * rewrite list_lookup_insert_ne in H, H' by done. by eapply (wf_inj _ Hwf).
  - pmsimpl. apply list_lookup_insert_eq. by apply lookup_lt_Some in Hu.
  - intros k. unfold key_slot. pmsimpl.
    destruct (decide (Z.to_nat upper = Z.to_nat (k / 16384))) as [He|Hn].
    + rewrite <- He, Hu, list_lookup_insert_eq by (by apply lookup_lt_Some in Hu).
      rewrite Z.eqb_refl. rewrite (proj2 (Z.eqb_neq _ _) Hne).
      rewrite Nat2Z.id, lookup_app_r, Nat.sub_diag by lia. cbn -[Z.to_nat].
      destruct (PagedMemory.new_page !! _) eqn:E; [|done].
      unfold PagedMemory.new_page in E. by apply lookup_replicate in E as [-> _].
    + rewrite list_lookup_insert_ne by done.
      destruct (ix !! Z.to_nat (k / 16384)) as [i|] eqn:E; [|done].
      destruct (Z.eqb_spec i NO_PAGE); [done|].
      pose proof (wf_bound _ Hwf _ _ E n) as Hb. cbn in Hb.
      rewrite lookup_app_l by lia. done.
Qed.

(** Writing a slot of an allocated page changes exactly that key. *)
Lemma set_slot_spec pm k i s :
  wf_pages pm -> 0 <= k -> PagedMemory.index pm !! Z.to_nat (k / 16384) = Some i ->
  i <> NO_PAGE ->
  exists pm', PagedMemory.set_slot pm i (k mod 16384) s = Some pm' /\ wf_pages pm' /\
    forall k', 0 <= k' -> key_slot pm' k' = if decide (k = k') then s else key_slot pm k'.
Proof.
  intros Hwf Hk Hi Hne. destruct (page_total pm _ i Hwf Hi Hne) as (p & Hp & Hl).
  assert (Z.to_nat (k mod 16384) < length p)%nat as Hlow.
  { rewrite Hl. pose proof (Z.mod_pos_bound k 16384). lia. }
  pose proof (wf_bound pm Hwf _ i Hi Hne) as Hb.
  unfold PagedMemory.set_slot. rewrite Hp. cbn. unfold slice_set.
  rewrite decide_True by done. cbn. eexists. split; [reflexivity|]. split.
  - constructor; pmsimpl; rewrite ?length_insert; try apply Hwf.
    apply Forall_insert; [apply (wf_page_len _ Hwf)|]. by rewrite length_insert.
  - intros k' Hk'. unfold key_slot. pmsimpl.
    destruct (decide (k = k')) as [<-|Hkk].
    + rewrite Hi, (proj2 (Z.eqb_neq _ _) Hne).
      rewrite list_lookup_insert_eq by (by apply lookup_lt_Some in Hp). cbn.
      by rewrite list_lookup_insert_eq.
    + destruct (PagedMemory.index pm !! Z.to_nat (k' / 16384)) as [i'|] eqn:Hi'; [|done].
      destruct (Z.eqb_spec i' NO_PAGE) as [|Hne']; [done|].
      pose proof (wf_bound pm Hwf _ i' Hi' Hne') as Hb'.
      destruct (decide (i = i')) as [<-|Hii].
      * rewrite list_lookup_insert_eq by (by apply lookup_lt_Some in Hp). rewrite Hp. cbn.
        rewrite list_lookup_insert_ne; [done|].
        pose proof (wf_inj pm Hwf _ _ _ Hi Hi' Hne) as Hu.
        apply Z2Nat.inj in Hu; [|apply Z.div_pos; lia..].
        pose proof (Z.mod_pos_bound k 16384). pose proof (Z.mod_pos_bound k' 16384).
        pose proof (Z.div_mod k 16384). pose proof (Z.div_mod k' 16384). lia.
      * rewrite list_lookup_insert_ne by lia. done.
Qed.

(** [entry] allocates but changes no content, and returns the current one. *)
Lemma entry_refines pm m addr :
  pages_rel pm m -> 0 <= addr ->
  match PagedMemory.entry pm addr, Flat.pt_get m addr with
  | Some (pm', old), Some old' => old = old' /\ pages_rel pm' m
  | None, None => True
  | _, _ => False
  end.
Proof.
  intros Hrel H0. pose proof (get_refines pm m addr Hrel H0) as Hg.
  destruct Hrel as [Hwf Hrel]. rewrite <- Hg. clear Hg.
  unfold PagedMemory.entry, PagedMemory.get. rewrite indices_div.
  destruct (PagedMemory.index pm !! _) as [i|] eqn:Hi; [|done]. cbn -[PagedMemory.alloc].
  destruct (Z.eqb_spec i NO_PAGE) as [->|Hne].
  - destruct (alloc_spec pm _ Hwf Hi) as (pm' & i & -> & Hwf' & Hne & Hi' & Hks).
    destruct (page_total pm' _ i Hwf' Hi' Hne) as (p & Hp & Hl). rewrite Hp. cbn -[Z.to_nat].
    destruct (slot_total p (addr / 4) Hl) as [s Hs]. rewrite Hs. cbn.
    split; [|split; [done|]; intros k; rewrite Hrel; by destruct (0 <=? k)].
    specialize (Hks (addr / 4)). unfold key_slot in Hks. rewrite Hi', Hi in Hks.
    rewrite (proj2 (Z.eqb_neq _ _) Hne), Hp in Hks. cbn -[Z.to_nat] in Hks. rewrite Hs in Hks. done.
  - destruct (page_total pm _ i Hwf Hi Hne) as (p & Hp & Hl). rewrite Hp. cbn -[Z.to_nat].
    destruct (slot_total p (addr / 4) Hl) as [s Hs]. rewrite Hs. done.
Qed.

(** [insert] implements the flat insertion and returns the previous value. *)
Lemma insert_refines pm m addr v :
  pages_rel pm m -> 0 <= addr ->
  match PagedMemory.insert pm addr v, Flat.pt_insert m addr v with
  | Some (pm', old), Some (m', old') => old = old' /\ pages_rel pm' m'
  | None, None => True
  | _, _ => False
  end.
Proof.
  intros Hrel H0. pose proof (entry_refines pm m addr Hrel H0) as He.
  unfold PagedMemory.insert, PagedMemory.entry, Flat.pt_insert, Flat.pt_get in *.
  rewrite indices_div in *.
  destruct (PagedMemory.index pm !! _) as [i|] eqn:Hi; cbn -[PagedMemory.alloc] in *;
    [|by destruct (Flat.in_range addr)].
  assert (exists pm' i', (if i =? NO_PAGE then PagedMemory.alloc pm (addr / 4 / 16384) else (pm, i))
      = (pm', i') /\ PagedMemory.index pm' !! Z.to_nat (addr / 4 / 16384) = Some i'
      /\ i' <> NO_PAGE) as (pm' & i' & Heq & Hi' & Hne).
  { destruct Hrel as [Hwf _]. destruct (Z.eqb_spec i NO_PAGE) as [->|Hne]; [|eauto].
    destruct (alloc_spec pm _ Hwf Hi) as (pm' & i & ? & ? & ? & ? & _). eauto. }
  rewrite Heq in *.
  destruct (PagedMemory.page_table pm' !! _) as [p|]; [|by destruct (Flat.in_range addr)].
  cbn -[Z.to_nat] in *.
  destruct (p !! _) as [s|]; [|by destruct (Flat.in_range addr)]. cbn -[Z.to_nat] in *.
  destruct (Flat.in_range addr); [|done]. destruct He as [Hs [Hwf' Hrel']].
  assert (0 <= addr / 4) as H4 by (apply Z.div_pos; lia).
  destruct (set_slot_spec pm' (addr / 4) i' (Some v) Hwf' H4 Hi' Hne) as (pm'' & -> & Hwf'' & Hk).
  cbn. split; [done|]. split; [done|]. intros k. rewrite compress_div, lookup_insert.
  case_decide as Hkk.
  - subst k. rewrite (proj2 (Z.leb_le _ _) H4), Hk by done. by rewrite decide_True.
  - rewrite Hrel'. destruct (Z.leb_spec 0 k); [|done]. rewrite Hk by done. by rewrite decide_False.
Qed.

(** [remove] implements the flat deletion; an absent page stays absent. *)
Lemma remove_refines pm m addr :
  pages_rel pm m -> 0 <= addr ->
  match PagedMemory.remove pm addr, Flat.pt_remove m addr with
  | Some (pm', old), Some (m', old') => old = old' /\ pages_rel pm' m'
  | None, None => True
  | _, _ => False
  end.
Proof.
  intros Hrel H0. pose proof (get_refines pm m addr Hrel H0) as Hg.
  destruct Hrel as [Hwf Hrel].
  unfold PagedMemory.remove, PagedMemory.get, Flat.pt_remove, Flat.pt_get in *.
  rewrite indices_div in *.
  destruct (PagedMemory.index pm !! _) as [i|] eqn:Hi; cbn in *;
    [|by destruct (Flat.in_range addr)].
  assert (0 <= addr / 4) as H4 by (apply Z.div_pos; lia).
  destruct (Z.eqb_spec i NO_PAGE) as [->|Hne].
  - destruct (Flat.in_range addr); [|done]. injection Hg as Hg. split; [done|].
    rewrite delete_id by done. done.
  - destruct (page_total pm _ i Hwf Hi Hne) as (p & Hp & Hl). rewrite Hp in *. cbn -[Z.to_nat] in *.
    destruct (slot_total p (addr / 4) Hl) as [s Hs]. rewrite Hs in *. cbn -[Z.to_nat].
    destruct (set_slot_spec pm (addr / 4) i None Hwf H4 Hi Hne) as (pm' & -> & Hwf' & Hk).
    destruct (Flat.in_range addr); [|done]. injection Hg as Hg. cbn. split; [done|].
    split; [done|]. intros k. rewrite compress_div, lookup_delete. case_decide as Hkk.
    + subst k. rewrite (proj2 (Z.leb_le _ _) H4), Hk by done. by rewrite decide_True.
    + rewrite Hrel. destruct (Z.leb_spec 0 k); [|done]. rewrite Hk by done. by rewrite decide_False.
Qed.
End Refinement.

(** ** Iteration order

    [keys] walks the index and then each page in increasing order, so it lists
    the occupied addresses sorted; this is the flat [pt_keys]. *)

Section Keys.
  Context {V : Type}.

(** Compressed keys of one page that starts at slot number [base]. *)
Fixpoint ckeys (base : Z) (page : list (option V)) : list Z :=
  match page with
  | [] => []
  | Some _ :: p => base :: ckeys (base + 1) p
  | None :: p => ckeys (base + 1) p
  end.

Lemma ckeys_elem base page k :
  k ∈ ckeys base page <-> exists j v, page !! j = Some (Some v) /\ k = base + Z.of_nat j.
Proof.
  revert base. induction page as [|s p IH]; intros base; cbn [ckeys].
  - rewrite elem_of_nil. split; [done|]. by intros (j & v & ? & _).
  - assert (k ∈ ckeys (base + 1) p <->
      exists j v, (s :: p) !! S j = Some (Some v) /\ k = base + Z.of_nat (S j)) as HS.
    { rewrite IH. split; intros (j & v & ? & ?); exists j, v; (split; [done | lia]). }
    destruct s as [v0|]; rewrite ?elem_of_cons, HS; split.
    + intros [->|(j & v & ? & ?)]; [exists 0%nat, v0; split; [done|lia] | eauto].
    + intros (j & v & Hj & ->). destruct j; [left; lia | right; eauto].
    + intros (j & v & ? & ?). eauto.
    + intros (j & v & Hj & ->). destruct j; [done | eauto].
Qed.

Lemma ckeys_sorted base page : StronglySorted Z.lt (ckeys base page).
Proof.
  revert base. induction page as [|[v|] p IH]; intros base; cbn [ckeys]; [constructor | |apply IH].
  constructor; [apply IH|]. apply Forall_forall. intros k Hk.
  apply ckeys_elem in Hk as (j & w & _ & ->). lia.
Qed.

Lemma page_keys_ckeys upper (page : list (option V)) :
  PagedMemory.page_keys upper page
  = decompress_addr <$> ckeys (Z.of_nat upper * 16384) page.
Proof.
  unfold PagedMemory.page_keys. rewrite Z.shiftl_mul_pow2 by done.
  change (2 ^ LOG_PAGE_LEN) with 16384.
  assert (forall n b, omap (fun '(lower, v) =>
      match v with
      | Some _ => Some (decompress_addr (b + Z.of_nat lower))
      | None => None
      end) (zip (seq n (length page)) page) = decompress_addr <$> ckeys (b + Z.of_nat n) page) as H.
  { induction page as [|[v|] p IH]; intros n b; cbn [length seq zip zip_with omap list_omap ckeys];
      [done| |]; [rewrite fmap_cons; f_equal|]; rewrite IH; do 2 f_equal; lia. }
  rewrite H. do 2 f_equal. lia.
Qed.

(** Keys of the page behind index entry [i] of page number [u]. *)
Definition entry_ckeys (pm : PagedMemory.t V) (u : nat) (i : Z) : list Z :=
  if i =? NO_PAGE then []
  else ckeys (Z.of_nat u * 16384) (default [] (PagedMemory.page_table pm !! Z.to_nat i)).

Definition all_ckeys (pm : PagedMemory.t V) (u : nat) (ix : list Z) : list Z :=
  concat (zip_with (entry_ckeys pm) (seq u (length ix)) ix).

Lemma keys_ckeys pm :
  wf_pages pm -> PagedMemory.keys pm = Some (decompress_addr <$> all_ckeys pm 0 (PagedMemory.index pm)).
Proof.
  intros Hwf. unfold PagedMemory.keys, all_ckeys.
  assert (forall u ix, (forall j i, ix !! j = Some i -> i <> NO_PAGE ->
      exists p, PagedMemory.page_table pm !! Z.to_nat i = Some p) ->
    mapM (fun '(upper, i) => if i =? NO_PAGE then Some []
      else page ← PagedMemory.page_table pm !! Z.to_nat i; Some (PagedMemory.page_keys upper page))
      (zip (seq u (length ix)) ix)
    = Some ((fun l : list Z => decompress_addr <$> l) <$> zip_with (entry_ckeys pm) (seq u (length ix)) ix)) as H.
  { intros u ix. revert u. induction ix as [|i ix IH]; intros u Hp; [done|].
    cbn [length seq zip zip_with mapM]. rewrite IH by (intros j; apply (Hp (S j))).
    assert ((if i =? NO_PAGE then Some []
      else page ← PagedMemory.page_table pm !! Z.to_nat i; Some (PagedMemory.page_keys u page))
      = Some (decompress_addr <$> entry_ckeys pm u i)) as ->; [|done].
    unfold entry_ckeys. destruct (Z.eqb_spec i NO_PAGE); [done|].
    destruct (Hp 0%nat i) as [p Hpp]; [done..|]. rewrite Hpp. cbn. by rewrite page_keys_ckeys. }
  rewrite H.
  - cbn. f_equal. generalize (zip_with (entry_ckeys pm) (seq 0 (length (PagedMemory.index pm)))
      (PagedMemory.index pm)). intros ls.
    induction ls as [|l ls IH]; [done|]. cbn. rewrite fmap_app. by rewrite <- IH.
  - intros j i Hj Hi. destruct (page_total pm j i Hwf Hj Hi) as (p & Hp & _). eauto.
Qed.

Lemma entry_ckeys_bound pm u v i k :
  wf_pages pm -> PagedMemory.index pm !! v = Some i -> k ∈ entry_ckeys pm u i ->
  Z.of_nat u * 16384 <= k < (Z.of_nat u + 1) * 16384.
Proof.
  intros Hwf Hi. unfold entry_ckeys. destruct (Z.eqb_spec i NO_PAGE) as [|Hn];
    [by rewrite elem_of_nil|].
  destruct (page_total pm v i Hwf Hi Hn) as (p & -> & Hl). cbn.
  intros (j & w & Hj & ->)%ckeys_elem. apply lookup_lt_Some in Hj. lia.
Qed.

Lemma all_ckeys_sorted pm u ix :
  wf_pages pm -> (forall j i, ix !! j = Some i -> PagedMemory.index pm !! (u + j)%nat = Some i) ->
  StronglySorted Z.lt (all_ckeys pm u ix) /\
  Forall (fun k => Z.of_nat u * 16384 <= k) (all_ckeys pm u ix).
Proof.
  intros Hwf. revert u. induction ix as [|i ix IH]; intros u Hix; [split; constructor|].
  unfold all_ckeys. cbn [length seq zip_with concat].
  destruct (IH (S u)) as [IH1 IH2].
  { intros j i' Hj. rewrite <- (Hix (S j) i') by done. f_equal. lia. }
  assert (PagedMemory.index pm !! u = Some i) as Hu.
  { rewrite <- (Hix 0%nat i) by done. f_equal. lia. }
  assert (forall k, k ∈ entry_ckeys pm u i ->
    Z.of_nat u * 16384 <= k < (Z.of_nat u + 1) * 16384) as Hb by eauto using entry_ckeys_bound.
  split.
  - apply StronglySorted_app_2; [| |exact IH1].
    + intros a b Ha Hbb. apply Hb in Ha. rewrite Forall_forall in IH2. apply IH2 in Hbb. lia.
    + unfold entry_ckeys. destruct (i =? NO_PAGE); [constructor | apply ckeys_sorted].
  - apply Forall_app. split; [apply Forall_forall; intros k Hk; apply Hb in Hk; lia|].
    eapply Forall_impl; [exact IH2|]. intros k Hk. cbn in Hk. lia.
Qed.
End Keys.

Section KeysRefine.
  Context {V : Type}.

Lemma all_ckeys_elem (pm : PagedMemory.t V) k :
  wf_pages pm -> k ∈ all_ckeys pm 0 (PagedMemory.index pm) <-> 0 <= k /\ is_Some (key_slot pm k).
Proof.
  intros Hwf. unfold all_ckeys. rewrite list_elem_of_In, in_concat. split.
  - intros (l & Hl & Hk). apply list_elem_of_In, list_elem_of_lookup in Hl as [u Hl].
    apply lookup_zip_with_Some in Hl as (u' & i & -> & Hu & Hi).
    apply lookup_seq in Hu as [-> _]. cbn in Hk. apply list_elem_of_In in Hk.
    pose proof (entry_ckeys_bound pm u u i k Hwf Hi Hk) as Hb. split; [lia|].
    unfold key_slot.
    replace (Z.to_nat (k / 16384)) with u by (Z.div_mod_to_equations; lia). rewrite Hi.
    unfold entry_ckeys in Hk. destruct (i =? NO_PAGE); [by apply elem_of_nil in Hk|].
    destruct (PagedMemory.page_table pm !! Z.to_nat i) as [p|]; cbn in *; [|by apply elem_of_nil in Hk].
    apply ckeys_elem in Hk as (j & v & Hj & ->).
    replace (Z.to_nat ((Z.of_nat u * 16384 + Z.of_nat j) mod 16384)) with j
      by (rewrite Z.add_comm, Z_mod_plus_full, Z.mod_small; lia).
    rewrite Hj. cbn. eauto.
  - intros [H0 [v Hv]]. unfold key_slot in Hv.
    destruct (PagedMemory.index pm !! Z.to_nat (k / 16384)) as [i|] eqn:Hi; [|done].
    exists (entry_ckeys pm (Z.to_nat (k / 16384)) i). split.
    + apply list_elem_of_In, list_elem_of_lookup. exists (Z.to_nat (k / 16384)).
      apply lookup_zip_with_Some. exists (Z.to_nat (k / 16384)), i. split_and!; [done| |done].
      apply lookup_seq. split; [done|]. by apply lookup_lt_Some in Hi.
    + apply list_elem_of_In. unfold entry_ckeys. destruct (i =? NO_PAGE); [done|].
      destruct (PagedMemory.page_table pm !! Z.to_nat i) as [p|]; cbn in *; [|done].
      apply ckeys_elem. exists (Z.to_nat (k mod 16384)), v.
      destruct (p !! Z.to_nat (k mod 16384)) as [s|]; cbn in *; [|done]. subst s.
      split; [done|]. pose proof (Z.mod_pos_bound k 16384). pose proof (Z.div_mod k 16384).
      assert (0 <= k / 16384) by (apply Z.div_pos; lia). lia.
Qed.

Lemma keys_refines (pm : PagedMemory.t V) m :
  pages_rel pm m -> PagedMemory.keys pm = Some (Flat.pt_keys m).
Proof.
  intros [Hwf Hrel]. rewrite keys_ckeys by done. unfold Flat.pt_keys. do 2 f_equal.
  destruct (all_ckeys_sorted pm 0 (PagedMemory.index pm) Hwf) as [Hs _]; [done|].
  assert (StronglySorted Z.le (all_ckeys pm 0 (PagedMemory.index pm))) as Hle.
  { clear -Hs. induction Hs as [|x l Hs IH Hf]; constructor; [done|].
    eapply Forall_impl; [exact Hf|]. cbn. lia. }
  apply (StronglySorted_unique Z.le); [done | apply (StronglySorted_merge_sort Z.le) |].
  rewrite merge_sort_Permutation. apply NoDup_Permutation.
  - clear -Hs. induction Hs as [|x l Hs IH Hf]; constructor; [|done].
    intros Hx. rewrite Forall_forall in Hf. specialize (Hf x Hx). lia.
  - apply NoDup_elements.
  - intros k. rewrite all_ckeys_elem, elem_of_elements, elem_of_dom, Hrel by done.
    destruct (Z.leb_spec 0 k); [naive_solver|]. split; [lia | by intros [? ?]].
Qed.
End KeysRefine.

(** ** Sequences of operations

    The interface the executor uses, as commands with observable replies; a
    panic ends the run. *)

Section Commands.
  Context {V : Type}.

Inductive Cmd : Type :=
| CGet (addr : Z)
| CInsert (addr : Z) (v : V)
| CRemove (addr : Z)
| CEntry (addr : Z)
| CKeys
| CClear.

Inductive Reply : Type :=
| RSlot (old : option V)
| RKeys (ks : list Z)
| RUnit.

Definition run_paged (pm : PagedMemory.t V) (c : Cmd) : option (PagedMemory.t V * Reply) :=
  match c with
  | CGet a => s ← PagedMemory.get pm a; Some (pm, RSlot s)
  | CInsert a v => '(pm', s) ← PagedMemory.insert pm a v; Some (pm', RSlot s)
  | CRemove a => '(pm', s) ← PagedMemory.remove pm a; Some (pm', RSlot s)
  | CEntry a => '(pm', s) ← PagedMemory.entry pm a; Some (pm', RSlot s)
  | CKeys => ks ← PagedMemory.keys pm; Some (pm, RKeys ks)
  | CClear => Some (PagedMemory.clear pm, RUnit)
  end.

Definition run_flat (m : gmap Z V) (c : Cmd) : option (gmap Z V * Reply) :=
  match c with
  | CGet a | CEntry a => s ← Flat.pt_get m a; Some (m, RSlot s)
  | CInsert a v => '(m', s) ← Flat.pt_insert m a v; Some (m', RSlot s)
  | CRemove a => '(m', s) ← Flat.pt_remove m a; Some (m', RSlot s)
  | CKeys => Some (m, RKeys (Flat.pt_keys m))
  | CClear => Some (∅, RUnit)
  end.

Definition cmd_ok (c : Cmd) : Prop :=
  match c with
  | CGet a | CInsert a _ | CRemove a | CEntry a => is_u32 a
  | CKeys | CClear => True
  end.

(** Replies of a command sequence; [None] is a panic. *)
Fixpoint replies {T} (step : T -> Cmd -> option (T * Reply)) (s : T) (cs : list Cmd)
    : option (list Reply) :=
  match cs with
  | [] => Some []
  | c :: cs' => '(s', r) ← step s c; rs ← replies step s' cs'; Some (r :: rs)
  end.

Lemma run_refines pm m c :
  pages_rel pm m -> cmd_ok c ->
  match run_paged pm c, run_flat m c with
  | Some (pm', r), Some (m', r') => r = r' /\ pages_rel pm' m'
  | None, None => True
  | _, _ => False
  end.
Proof.
  intros Hrel Hok. destruct c as [a|a v|a|a| |]; cbn [run_paged run_flat cmd_ok] in *.
  - rewrite (get_refines pm m a) by (done || apply Hok). by destruct (Flat.pt_get m a).
  - pose proof (insert_refines pm m a v Hrel (proj1 Hok)) as H.
    destruct (PagedMemory.insert pm a v) as [[? ?]|], (Flat.pt_insert m a v) as [[? ?]|]; cbn;
      naive_solver.
  - pose proof (remove_refines pm m a Hrel (proj1 Hok)) as H.
    destruct (PagedMemory.remove pm a) as [[? ?]|], (Flat.pt_remove m a) as [[? ?]|]; cbn;
      naive_solver.
  - pose proof (entry_refines pm m a Hrel (proj1 Hok)) as H.
    destruct (PagedMemory.entry pm a) as [[? ?]|], (Flat.pt_get m a); cbn; naive_solver.
  - by rewrite (keys_refines pm m Hrel).
  - split; [done|]. by eapply clear_rel.
Qed.
End Commands.
Arguments Cmd : clear implicits.
Arguments Reply : clear implicits.

Lemma replies_refine {V} (cs : list (Cmd V)) pm m :
  pages_rel pm m -> Forall cmd_ok cs -> replies run_paged pm cs = replies run_flat m cs.
Proof.
  intros Hrel Hok. revert pm m Hrel. induction Hok as [|c cs Hc Hcs IH]; intros pm m Hrel; [done|].
  cbn [replies]. pose proof (run_refines pm m c Hrel Hc) as H.
  destruct (run_paged pm c) as [[pm' r]|], (run_flat m c) as [[m' r']|]; cbn; try done.
  destruct H as [-> H]. by rewrite (IH pm' m').
Qed.

(** C26. the paged memory, started preallocated, answers every sequence of
    [get], [insert], [remove], [entry], [keys] and [clear] at 32-bit addresses
    exactly like a finite map keyed by word address, including which call
    panics (an address beyond the last page). *)
Theorem paged_memory_refines_map {V} (cs : list (Cmd V)) :
  Forall cmd_ok cs ->
  replies run_paged PagedMemory.new_preallocated cs = replies run_flat ∅ cs.
Proof. apply replies_refine, new_preallocated_rel. Qed.

Lemma paged_memory_refines_map_witness :
  replies run_paged PagedMemory.new_preallocated
    [CInsert 65536 7; CGet 65536; CEntry 64; CKeys; CRemove 65536; CGet 65536; CGet 2013331456]
  = None
  /\ replies run_paged PagedMemory.new_preallocated [CInsert 65536 7; CInsert 64 5; CKeys; CRemove 64]
  = Some [RSlot None; RSlot None; RKeys [64; 65536]; RSlot (Some 5)].
Proof.
  split.
  - rewrite (paged_memory_refines_map _); [reflexivity|].
    repeat constructor; apply is_u32_iff; lia.
  - rewrite (paged_memory_refines_map _); [reflexivity|].
    repeat constructor; apply is_u32_iff; lia.
Defined.
