(* ===== verification/Events.v ===== *)
(** * Trace events (crates/core/executor/src/events)

    The records the executor emits: memory records, instruction events, byte
    lookups and precompile events, with the constructors' source names. *)

From Stdlib Require Import ZArith Lia.
From stdpp Require Import base gmap list countable.
From S2P Require Import Prelude Isa SyscallCode.

Local Open Scope Z_scope.

(** ** Memory records (events/memory.rs) *)

Record MemoryRecord : Type := mkMemoryRecord {
  rec_shard : Z;
  rec_timestamp : Z;
  rec_value : Z
}.

Inductive MemoryAccessPosition : Type := PMemory | PC | PB | PA.

(** [position as u32]. *)
Definition position_u32 (p : MemoryAccessPosition) : Z :=
  match p with PMemory => 0 | PC => 1 | PB => 2 | PA => 3 end.

Record MemoryReadRecord : Type := mkMemoryReadRecord {
  rd_value : Z;
  rd_shard : Z;
  rd_timestamp : Z;
  rd_prev_shard : Z;
  rd_prev_timestamp : Z
}.

Record MemoryWriteRecord : Type := mkMemoryWriteRecord {
  wr_value : Z;
  wr_shard : Z;
  wr_timestamp : Z;
  wr_prev_value : Z;
  wr_prev_shard : Z;
  wr_prev_timestamp : Z
}.

Definition MemoryWriteRecord_default : MemoryWriteRecord := mkMemoryWriteRecord 0 0 0 0 0 0.

Inductive MemoryRecordEnum : Type :=
| MRead (r : MemoryReadRecord)
| MWrite (r : MemoryWriteRecord).

Definition current_record (m : MemoryRecordEnum) : MemoryRecord :=
  match m with
  | MRead r => mkMemoryRecord (rd_shard r) (rd_timestamp r) (rd_value r)
  | MWrite r => mkMemoryRecord (wr_shard r) (wr_timestamp r) (wr_value r)
  end.

Definition previous_record (m : MemoryRecordEnum) : MemoryRecord :=
  match m with
  | MRead r => mkMemoryRecord (rd_prev_shard r) (rd_prev_timestamp r) (rd_value r)
  | MWrite r => mkMemoryRecord (wr_prev_shard r) (wr_prev_timestamp r) (wr_prev_value r)
  end.

(** The order [MemoryReadRecord::new] and [MemoryWriteRecord::new] assert in
    debug builds: the access is later than the previous one. *)
Definition access_after (shard ts prev_shard prev_ts : Z) : bool :=
  (prev_shard <? shard) || ((shard =? prev_shard) && (prev_ts <? ts)).

Definition record_ordered (m : MemoryRecordEnum) : bool :=
  let c := current_record m in
  let p := previous_record m in
  access_after (rec_shard c) (rec_timestamp c) (rec_shard p) (rec_timestamp p).

Definition read_record_new (value shard timestamp prev_shard prev_timestamp : Z)
    : MemoryReadRecord :=
  mkMemoryReadRecord value shard timestamp prev_shard prev_timestamp.

Definition write_record_new (value shard timestamp prev_value prev_shard prev_timestamp : Z)
    : MemoryWriteRecord :=
  mkMemoryWriteRecord value shard timestamp prev_value prev_shard prev_timestamp.

Definition record_enum_value (m : MemoryRecordEnum) : Z :=
  match m with MRead r => rd_value r | MWrite r => wr_value r end.

Record MemoryInitializeFinalizeEvent : Type := mkMemIFEvent {
  mif_addr : Z;
  mif_value : Z;
  mif_shard : Z;
  mif_timestamp : Z;
  mif_used : Z
}.

Definition mif_initialize (addr value : Z) (used : bool) : MemoryInitializeFinalizeEvent :=
  mkMemIFEvent addr value 1 1 (if used then 1 else 0).

Definition mif_finalize_from_record (addr : Z) (r : MemoryRecord) : MemoryInitializeFinalizeEvent :=
  mkMemIFEvent addr (rec_value r) (rec_shard r) (rec_timestamp r) 1.

Record MemoryLocalEvent : Type := mkMemoryLocalEvent {
  ml_addr : Z;
  ml_initial_mem_access : MemoryRecord;
  ml_final_mem_access : MemoryRecord
}.

Definition NUM_LOCAL_MEMORY_ENTRIES_PER_ROW_EXEC : Z := 4.

(** The accesses of the current cycle (record.rs). *)
Record MemoryAccessRecord : Type := mkMemoryAccessRecord {
  ma_a : option MemoryRecordEnum;
  ma_b : option MemoryRecordEnum;
  ma_c : option MemoryRecordEnum;
  ma_memory : option MemoryRecordEnum
}.

Definition MemoryAccessRecord_default : MemoryAccessRecord :=
  mkMemoryAccessRecord None None None None.

(** ** Instruction events (events/instr.rs, cpu.rs, syscall.rs) *)

Record AluEvent : Type := mkAluEvent {
  alu_pc : Z;
  alu_opcode : Opcode;
  alu_a : Z;
  alu_b : Z;
  alu_c : Z;
  alu_op_a_0 : bool
}.

Record MemInstrEvent : Type := mkMemInstrEvent {
  mi_shard : Z;
  mi_clk : Z;
  mi_pc : Z;
  mi_opcode : Opcode;
  mi_a : Z;
  mi_b : Z;
  mi_c : Z;
  mi_op_a_0 : bool;
  mi_mem_access : MemoryRecordEnum
}.

Record BranchEvent : Type := mkBranchEvent {
  br_pc : Z;
  br_next_pc : Z;
  br_opcode : Opcode;
  br_a : Z;
  br_b : Z;
  br_c : Z;
  br_op_a_0 : bool
}.

Record JumpEvent : Type := mkJumpEvent {
  jp_pc : Z;
  jp_next_pc : Z;
  jp_opcode : Opcode;
  jp_a : Z;
  jp_b : Z;
  jp_c : Z;
  jp_op_a_0 : bool
}.

Record AUIPCEvent : Type := mkAUIPCEvent {
  au_pc : Z;
  au_opcode : Opcode;
  au_a : Z;
  au_b : Z;
  au_c : Z;
  au_op_a_0 : bool
}.

Record CpuEvent : Type := mkCpuEvent {
  cpu_clk : Z;
  cpu_pc : Z;
  cpu_next_pc : Z;
  cpu_a : Z;
  cpu_a_record : option MemoryRecordEnum;
  cpu_b : Z;
  cpu_b_record : option MemoryRecordEnum;
  cpu_c : Z;
  cpu_c_record : option MemoryRecordEnum;
  cpu_exit_code : Z
}.

Record SyscallEvent : Type := mkSyscallEvent {
  sy_pc : Z;
  sy_next_pc : Z;
  sy_shard : Z;
  sy_clk : Z;
  sy_a_record : MemoryWriteRecord;
  sy_a_record_is_real : bool;
  sy_op_a_0 : bool;
  sy_syscall_code : SyscallCode;
  sy_syscall_id : Z;
  sy_arg1 : Z;
  sy_arg2 : Z
}.

(** ** Precompile events (events/precompiles) *)

Inductive FieldOperation : Type := FAdd | FMul | FSub | FDiv.

Record ShaExtendEvent : Type := mkShaExtendEvent {
  se_shard : Z; se_clk : Z; se_w_ptr : Z;
  se_w_i_minus_15_reads : list MemoryReadRecord;
  se_w_i_minus_2_reads : list MemoryReadRecord;
  se_w_i_minus_16_reads : list MemoryReadRecord;
  se_w_i_minus_7_reads : list MemoryReadRecord;
  se_w_i_writes : list MemoryWriteRecord;
  se_local_mem_access : list MemoryLocalEvent
}.

Record ShaCompressEvent : Type := mkShaCompressEvent {
  sc_shard : Z; sc_clk : Z; sc_w_ptr : Z; sc_h_ptr : Z;
  sc_w : list Z; sc_h : list Z;
  sc_h_read_records : list MemoryReadRecord;
  sc_w_i_read_records : list MemoryReadRecord;
  sc_h_write_records : list MemoryWriteRecord;
  sc_local_mem_access : list MemoryLocalEvent
}.

Record KeccakPermuteEvent : Type := mkKeccakPermuteEvent {
  kk_shard : Z; kk_clk : Z;
  kk_pre_state : list Z; kk_post_state : list Z;
  kk_state_read_records : list MemoryReadRecord;
  kk_state_write_records : list MemoryWriteRecord;
  kk_state_addr : Z;
  kk_local_mem_access : list MemoryLocalEvent
}.

Record EllipticCurveAddEvent : Type := mkECAddEvent {
  eca_shard : Z; eca_clk : Z; eca_p_ptr : Z; eca_p : list Z;
  eca_q_ptr : Z; eca_q : list Z;
  eca_p_memory_records : list MemoryWriteRecord;
  eca_q_memory_records : list MemoryReadRecord;
  eca_local_mem_access : list MemoryLocalEvent
}.

Record EllipticCurveDoubleEvent : Type := mkECDoubleEvent {
  ecd_shard : Z; ecd_clk : Z; ecd_p_ptr : Z; ecd_p : list Z;
  ecd_p_memory_records : list MemoryWriteRecord;
  ecd_local_mem_access : list MemoryLocalEvent
}.

Record EllipticCurveDecompressEvent : Type := mkECDecompressEvent {
  ecx_shard : Z; ecx_clk : Z; ecx_ptr : Z; ecx_sign_bit : bool;
  ecx_x_bytes : list Z; ecx_decompressed_y_bytes : list Z;
  ecx_x_memory_records : list MemoryReadRecord;
  ecx_y_memory_records : list MemoryWriteRecord;
  ecx_local_mem_access : list MemoryLocalEvent
}.

Record EdDecompressEvent : Type := mkEdDecompressEvent {
  edx_shard : Z; edx_clk : Z; edx_ptr : Z; edx_sign : bool;
  edx_y_bytes : list Z; edx_decompressed_x_bytes : list Z;
  edx_x_memory_records : list MemoryWriteRecord;
  edx_y_memory_records : list MemoryReadRecord;
  edx_local_mem_access : list MemoryLocalEvent
}.

Record FpOpEvent : Type := mkFpOpEvent {
  fp_shard : Z; fp_clk : Z; fp_x_ptr : Z; fp_x : list Z; fp_y_ptr : Z; fp_y : list Z;
  fp_op : FieldOperation;
  fp_x_memory_records : list MemoryWriteRecord;
  fp_y_memory_records : list MemoryReadRecord;
  fp_local_mem_access : list MemoryLocalEvent
}.

Record Fp2AddSubEvent : Type := mkFp2AddSubEvent {
  fa_shard : Z; fa_clk : Z; fa_op : FieldOperation;
  fa_x_ptr : Z; fa_x : list Z; fa_y_ptr : Z; fa_y : list Z;
  fa_x_memory_records : list MemoryWriteRecord;
  fa_y_memory_records : list MemoryReadRecord;
  fa_local_mem_access : list MemoryLocalEvent
}.

Record Fp2MulEvent : Type := mkFp2MulEvent {
  fm_shard : Z; fm_clk : Z;
  fm_x_ptr : Z; fm_x : list Z; fm_y_ptr : Z; fm_y : list Z;
  fm_x_memory_records : list MemoryWriteRecord;
  fm_y_memory_records : list MemoryReadRecord;
  fm_local_mem_access : list MemoryLocalEvent
}.

Record Uint256MulEvent : Type := mkUint256MulEvent {
  um_shard : Z; um_clk : Z; um_x_ptr : Z; um_x : list Z;
  um_y_ptr : Z; um_y : list Z; um_modulus : list Z;
  um_x_memory_records : list MemoryWriteRecord;
  um_y_memory_records : list MemoryReadRecord;
  um_modulus_memory_records : list MemoryReadRecord;
  um_local_mem_access : list MemoryLocalEvent
}.

Record U256xU2048MulEvent : Type := mkU256xU2048MulEvent {
  ux_shard : Z; ux_clk : Z; ux_a_ptr : Z; ux_a : list Z; ux_b_ptr : Z; ux_b : list Z;
  ux_lo_ptr : Z; ux_lo : list Z; ux_hi_ptr : Z; ux_hi : list Z;
  ux_lo_ptr_memory : MemoryReadRecord; ux_hi_ptr_memory : MemoryReadRecord;
  ux_a_memory_records : list MemoryReadRecord;
  ux_b_memory_records : list MemoryReadRecord;
  ux_lo_memory_records : list MemoryWriteRecord;
  ux_hi_memory_records : list MemoryWriteRecord;
  ux_local_mem_access : list MemoryLocalEvent
}.

Inductive PrecompileEvent : Type :=
| PShaExtend (e : ShaExtendEvent)
| PShaCompress (e : ShaCompressEvent)
| PKeccakPermute (e : KeccakPermuteEvent)
| PEdAdd (e : EllipticCurveAddEvent)
| PEdDecompress (e : EdDecompressEvent)
| PSecp256k1Add (e : EllipticCurveAddEvent)
| PSecp256k1Double (e : EllipticCurveDoubleEvent)
| PSecp256k1Decompress (e : EllipticCurveDecompressEvent)
| PSecp256r1Add (e : EllipticCurveAddEvent)
| PSecp256r1Double (e : EllipticCurveDoubleEvent)
| PSecp256r1Decompress (e : EllipticCurveDecompressEvent)
| PK256Decompress (e : EllipticCurveDecompressEvent)
| PBn254Add (e : EllipticCurveAddEvent)
| PBn254Double (e : EllipticCurveDoubleEvent)
| PBn254Fp (e : FpOpEvent)
| PBn254Fp2AddSub (e : Fp2AddSubEvent)
| PBn254Fp2Mul (e : Fp2MulEvent)
| PBls12381Add (e : EllipticCurveAddEvent)
| PBls12381Double (e : EllipticCurveDoubleEvent)
| PBls12381Decompress (e : EllipticCurveDecompressEvent)
| PBls12381Fp (e : FpOpEvent)
| PBls12381Fp2AddSub (e : Fp2AddSubEvent)
| PBls12381Fp2Mul (e : Fp2MulEvent)
| PUint256Mul (e : Uint256MulEvent)
| PU256xU2048Mul (e : U256xU2048MulEvent).

(** Local memory events of one precompile event
    ([PrecompileLocalMemory::get_local_mem_events]). *)
Definition precompile_local_mem (e : PrecompileEvent) : list MemoryLocalEvent :=
  match e with
  | PShaExtend e => se_local_mem_access e
  | PShaCompress e => sc_local_mem_access e
  | PKeccakPermute e => kk_local_mem_access e
  | PEdDecompress e => edx_local_mem_access e
  | PSecp256k1Add e | PSecp256r1Add e | PEdAdd e | PBn254Add e | PBls12381Add e =>
      eca_local_mem_access e
  | PSecp256k1Double e | PSecp256r1Double e | PBn254Double e | PBls12381Double e =>
      ecd_local_mem_access e
  | PSecp256k1Decompress e | PSecp256r1Decompress e | PK256Decompress e
  | PBls12381Decompress e => ecx_local_mem_access e
  | PUint256Mul e => um_local_mem_access e
  | PU256xU2048Mul e => ux_local_mem_access e
  | PBls12381Fp e | PBn254Fp e => fp_local_mem_access e
  | PBls12381Fp2AddSub e | PBn254Fp2AddSub e => fa_local_mem_access e
  | PBls12381Fp2Mul e | PBn254Fp2Mul e => fm_local_mem_access e
  end.

(** [PrecompileEvents]: a map from syscall code to its events. *)
Abbreviation PrecompileEvents := (gmap SyscallCode (list (SyscallEvent * PrecompileEvent))).

Definition PrecompileEvents_default : PrecompileEvents :=
  list_to_map (map (fun c => (c, [])) (filter (fun c => should_send c = 1) all_codes)).

(** [append]: drains [other] into [self], skipping empty vectors. *)
Definition precompile_append (self other : PrecompileEvents) : PrecompileEvents :=
  union_with (fun a b => Some (a ++ b)) self (filter (fun '(_, evs) => evs <> []) other).

(** [add_event]: asserts that the call has its own table. *)
Definition precompile_add_event (c : SyscallCode) (se : SyscallEvent) (e : PrecompileEvent)
    (m : PrecompileEvents) : option PrecompileEvents :=
  if should_send c =? 1 then Some (<[c := default [] (m !! c) ++ [(se, e)]]> m) else None.

Definition precompile_insert (c : SyscallCode) (evs : list (SyscallEvent * PrecompileEvent))
    (m : PrecompileEvents) : option PrecompileEvents :=
  if should_send c =? 1 then Some (<[c := evs]> m) else None.

Definition precompile_get_events (c : SyscallCode) (m : PrecompileEvents)
    : option (option (list (SyscallEvent * PrecompileEvent))) :=
  if should_send c =? 1 then Some (m !! c) else None.

Definition precompile_local_mem_events (m : PrecompileEvents) : list MemoryLocalEvent :=
  concat (map (fun '(_, evs) => concat (map (fun '(_, e) => precompile_local_mem e) evs))
              (map_to_list m)).

(** ** Global interaction events (events/global.rs) *)

Record GlobalInteractionEvent : Type := mkGlobalInteractionEvent {
  gi_message : list Z;
  gi_is_receive : bool;
  gi_kind : Z
}.
