(* ===== verification/ByteLookup.v ===== *)
(** * Byte lookups (crates/core/executor/src/events/byte.rs)

    The trait [ByteRecord] is a type class with its provided methods derived
    from the required one, and its implementations for [Vec] and [HashMap] are
    instances.  [ByteRecordLaws] is what a client may rely on: a record counts
    the multiplicity of every event. *)

From Stdlib Require Import ZArith Lia.
From stdpp Require Import base gmap list countable.
From S2P Require Import Prelude Isa.

Local Open Scope Z_scope.

Definition NUM_BYTE_OPS : Z := 9.

Record ByteLookupEvent : Type := mkByteLookupEvent {
  bl_opcode : ByteOpcode.t;
  bl_a1 : Z;
  bl_a2 : Z;
  bl_b : Z;
  bl_c : Z
}.

#[export] Instance ByteLookupEvent_eq_dec : EqDecision ByteLookupEvent.
Proof. solve_decision. Defined.

Definition byte_opcode_of_u8 (z : Z) : option ByteOpcode.t := ByteOpcode.all !! Z.to_nat z.

Definition bl_encode (e : ByteLookupEvent) : Z * Z * Z * Z * Z :=
  (ByteOpcode.as_u8 (bl_opcode e), bl_a1 e, bl_a2 e, bl_b e, bl_c e).

Definition bl_decode (t : Z * Z * Z * Z * Z) : option ByteLookupEvent :=
  let '(o, a1, a2, b, c) := t in
  op ← byte_opcode_of_u8 o; Some (mkByteLookupEvent op a1 a2 b c).

#[export] Program Instance ByteLookupEvent_countable : Countable ByteLookupEvent :=
  inj_countable bl_encode bl_decode _.
Next Obligation. intros [[] a1 a2 b c]; reflexivity. Qed.

(** ** The trait *)

Class ByteRecord (R : Type) : Type := {
  add_byte_lookup_event : ByteLookupEvent -> R -> R;
  (** [None]: [unimplemented!()]. *)
  add_byte_lookup_events_from_maps : list (gmap ByteLookupEvent Z) -> R -> option R
}.

Section Provided.
  Context {R : Type} `{ByteRecord R}.

Definition add_byte_lookup_events (evs : list ByteLookupEvent) (r : R) : R :=
  fold_left (fun r e => add_byte_lookup_event e r) evs r.

Definition add_u8_range_check (a b : Z) (r : R) : R :=
  add_byte_lookup_event (mkByteLookupEvent ByteOpcode.U8Range 0 0 a b) r.

Definition add_u16_range_check (a : Z) (r : R) : R :=
  add_byte_lookup_event (mkByteLookupEvent ByteOpcode.U16Range a 0 0 0) r.

(** Pairs of bytes; an odd last byte is paired with 0. *)
Fixpoint add_u8_range_checks (bytes : list Z) (r : R) : R :=
  match bytes with
  | a :: b :: rest => add_u8_range_checks rest (add_u8_range_check a b r)
  | [a] => add_u8_range_check a 0 r
  | [] => r
  end.

(** Field elements are reduced to their canonical [u32] and cast to [u8]. *)
Definition add_u8_range_checks_field (canonical : list Z) (r : R) : R :=
  add_u8_range_checks (map u8 canonical) r.

Definition add_u16_range_checks (ls : list Z) (r : R) : R :=
  fold_left (fun r x => add_u16_range_check x r) ls r.

Definition lookup_or (b c : Z) (r : R) : R :=
  add_byte_lookup_event (mkByteLookupEvent ByteOpcode.OR (Z.lor b c) 0 b c) r.
End Provided.

(** ** Implementations *)

#[export] Instance vec_ByteRecord : ByteRecord (list ByteLookupEvent) := {
  add_byte_lookup_event e r := r ++ [e];
  add_byte_lookup_events_from_maps _ _ := None
}.

(** Merge one map of counts into another. *)
Definition merge_counts (new m : gmap ByteLookupEvent Z) : gmap ByteLookupEvent Z :=
  union_with (fun a b => Some (u64 (a + b))) m new.

#[export] Instance map_ByteRecord : ByteRecord (gmap ByteLookupEvent Z) := {
  add_byte_lookup_event e m := <[e := match m !! e with Some n => u64 (n + 1) | None => 1 end]> m;
  add_byte_lookup_events_from_maps news m := Some (fold_left (fun m n => merge_counts n m) news m)
}.

(** ** What a record promises

    [count r e] is the multiplicity of [e]; counters are 64-bit, so the law
    holds while fewer than 2^64 events are counted. *)
Class ByteRecordLaws (R : Type) `{ByteRecord R} : Type := {
  count : R -> ByteLookupEvent -> Z;
  fits : R -> Prop;
  count_add e e' r : fits r ->
    count (add_byte_lookup_event e r) e' = count r e' + (if decide (e = e') then 1 else 0)
}.

Definition vec_count (r : list ByteLookupEvent) (e : ByteLookupEvent) : Z :=
  Z.of_nat (length (filter (fun x => x = e) r)).

#[export] Program Instance vec_ByteRecordLaws : ByteRecordLaws (list ByteLookupEvent) := {|
  count := vec_count;
  fits _ := True
|}.
Next Obligation.
  intros e e' r _. unfold vec_count. cbn. rewrite list.filter_app, length_app, Nat2Z.inj_add. f_equal.
  rewrite filter_cons. by case_decide.
Qed.

#[export] Program Instance map_ByteRecordLaws : ByteRecordLaws (gmap ByteLookupEvent Z) := {|
  count m e := default 0 (m !! e);
  fits m := forall e n, m !! e = Some n -> 0 <= n < 2 ^ 64 - 1
|}.
Next Obligation.
  intros e e' m Hf. cbn. rewrite lookup_insert. case_decide as He; [subst e' | by rewrite Z.add_0_r].
  destruct (m !! e) as [n|] eqn:Hn; cbn; [|done].
  apply u64_small. specialize (Hf e n Hn). unfold in_u. lia.
Qed.

(** ** Clients, proved against the interface *)

Section Clients.
  Context {R : Type} `{Hr : ByteRecord R} `{!ByteRecordLaws R}.

(** The events one call of [add_u8_range_checks] adds. *)
Fixpoint u8_pairs (bytes : list Z) : list ByteLookupEvent :=
  match bytes with
  | a :: b :: rest => mkByteLookupEvent ByteOpcode.U8Range 0 0 a b :: u8_pairs rest
  | [a] => [mkByteLookupEvent ByteOpcode.U8Range 0 0 a 0]
  | [] => []
  end.

Lemma list_pair_ind {A} (P : list A -> Prop) :
  P [] -> (forall a, P [a]) -> (forall a b l, P l -> P (a :: b :: l)) -> forall l, P l.
Proof.
  intros H0 H1 H2. assert (forall l, P l /\ forall a, P (a :: l)) as H; [|intros l; apply H].
  induction l as [|x l [IH1 IH2]]; [auto|]. split; [auto|]. intros a. by apply H2.
Qed.

Lemma add_u8_range_checks_events bytes (r : R) :
  add_u8_range_checks bytes r = add_byte_lookup_events (u8_pairs bytes) r.
Proof.
  revert r. induction bytes as [|a|a b l IH] using list_pair_ind; intros r; [done|done|].
  cbn. by rewrite IH.
Qed.

(** Every byte of the slice is covered by a range check. *)
Lemma u8_pairs_cover bytes x :
  x ∈ bytes -> exists e, e ∈ u8_pairs bytes /\ bl_opcode e = ByteOpcode.U8Range /\
    (bl_b e = x \/ bl_c e = x).
Proof.
  induction bytes as [|a|a b l IH] using list_pair_ind; intros Hx.
  - by apply elem_of_nil in Hx.
  - apply list_elem_of_singleton in Hx as ->. eexists. split; [left|]. cbn. auto.
  - apply elem_of_cons in Hx as [->|Hx]; [eexists; split; [left|]; cbn; auto|].
    apply elem_of_cons in Hx as [->|Hx]; [eexists; split; [left|]; cbn; auto|].
    destruct (IH Hx) as (e & He & Ho). exists e. split; [by right | done].
Qed.

Lemma add_events_count evs (r : R) e :
  (forall evs' evs'', evs = evs' ++ evs'' -> fits (add_byte_lookup_events evs' r)) ->
  count (add_byte_lookup_events evs r) e = count r e + vec_count evs e.
Proof.
  revert r. induction evs as [|x evs IH]; intros r Hf; cbn; [unfold vec_count; cbn; lia|].
  fold (add_byte_lookup_events evs (add_byte_lookup_event x r)).
  rewrite IH.
  - rewrite count_add by (apply (Hf [] (x :: evs)); done).
    unfold vec_count. rewrite filter_cons. case_decide; cbn [length]; lia.
  - intros evs' evs'' ->. apply (Hf (x :: evs') evs''). done.
Qed.

(** Range-checking a slice of bytes adds, in any lawful byte record, exactly the events
    of the consecutive pairs, an odd last byte paired with 0, and every byte of the slice is
    in one of them. *)
Theorem range_checks_counted bytes (r : R) e :
  (forall evs evs', u8_pairs bytes = evs ++ evs' -> fits (add_byte_lookup_events evs r)) ->
  count (add_u8_range_checks bytes r) e = count r e + vec_count (u8_pairs bytes) e /\
  forall x, x ∈ bytes -> exists e', e' ∈ u8_pairs bytes /\ bl_opcode e' = ByteOpcode.U8Range /\
    (bl_b e' = x \/ bl_c e' = x).
Proof.
  intros Hf. split; [|intros x; apply u8_pairs_cover].
  rewrite add_u8_range_checks_events. by apply add_events_count.
Qed.
End Clients.

Lemma range_checks_counted_witness :
  count (add_u8_range_checks [7; 8; 9] ([] : list ByteLookupEvent))
    (mkByteLookupEvent ByteOpcode.U8Range 0 0 9 0) = 1.
Proof.
  refine (proj1 (range_checks_counted [7; 8; 9] ([] : list ByteLookupEvent)
    (mkByteLookupEvent ByteOpcode.U8Range 0 0 9 0) _)).
  intros evs evs' _. exact I.
Defined.
