(* ===== verification/Air.v ===== *)
(** * AIR identifiers and cost model (crates/core/executor/src/{air,cost}.rs)

    The chips of the RISC-V prover, the map from opcode counters to chip row
    counts is in [Executor]; here are the identifiers, the LDE size estimate
    and the worst-case padding used to decide when a shard must end. *)

From Stdlib Require Import ZArith Lia.
From stdpp Require Import base gmap list strings.
From S2P Require Import Prelude.

Local Open Scope Z_scope.

Module RiscvAirId.
Inductive t : Type :=
| Cpu
| Program
| ShaExtend
| ShaCompress
| EdAddAssign
| EdDecompress
| Secp256k1Decompress
| Secp256k1AddAssign
| Secp256k1DoubleAssign
| Secp256r1Decompress
| Secp256r1AddAssign
| Secp256r1DoubleAssign
| KeccakPermute
| Bn254AddAssign
| Bn254DoubleAssign
| Bls12381AddAssign
| Bls12381DoubleAssign
| Uint256MulMod
| U256XU2048Mul
| Bls12381FpOpAssign
| Bls12831Fp2AddSubAssign
| Bls12831Fp2MulAssign
| Bn254FpOpAssign
| Bn254Fp2AddSubAssign
| Bn254Fp2MulAssign
| Bls12381Decompress
| SyscallCore
| SyscallPrecompile
| DivRem
| AddSub
| Bitwise
| Mul
| ShiftRight
| ShiftLeft
| Lt
| MemoryInstrs
| Auipc
| Branch
| Jump
| SyscallInstrs
| MemoryGlobalInit
| MemoryGlobalFinalize
| MemoryLocal
| Global
| Byte.

Definition as_nat (a : t) : Z :=
  match a with
  | Cpu => 0
  | Program => 1
  | ShaExtend => 2
  | ShaCompress => 3
  | EdAddAssign => 4
  | EdDecompress => 5
  | Secp256k1Decompress => 6
  | Secp256k1AddAssign => 7
  | Secp256k1DoubleAssign => 8
  | Secp256r1Decompress => 9
  | Secp256r1AddAssign => 10
  | Secp256r1DoubleAssign => 11
  | KeccakPermute => 12
  | Bn254AddAssign => 13
  | Bn254DoubleAssign => 14
  | Bls12381AddAssign => 15
  | Bls12381DoubleAssign => 16
  | Uint256MulMod => 17
  | U256XU2048Mul => 18
  | Bls12381FpOpAssign => 19
  | Bls12831Fp2AddSubAssign => 20
  | Bls12831Fp2MulAssign => 21
  | Bn254FpOpAssign => 22
  | Bn254Fp2AddSubAssign => 23
  | Bn254Fp2MulAssign => 24
  | Bls12381Decompress => 25
  | SyscallCore => 26
  | SyscallPrecompile => 27
  | DivRem => 28
  | AddSub => 29
  | Bitwise => 30
  | Mul => 31
  | ShiftRight => 32
  | ShiftLeft => 33
  | Lt => 34
  | MemoryInstrs => 35
  | Auipc => 36
  | Branch => 37
  | Jump => 38
  | SyscallInstrs => 39
  | MemoryGlobalInit => 40
  | MemoryGlobalFinalize => 41
  | MemoryLocal => 42
  | Global => 43
  | Byte => 44
  end.

(** [RiscvAirId::iter()]. *)
Definition iter : list t :=
  [Cpu; Program; ShaExtend; ShaCompress; EdAddAssign;
   EdDecompress; Secp256k1Decompress; Secp256k1AddAssign; Secp256k1DoubleAssign; Secp256r1Decompress;
   Secp256r1AddAssign; Secp256r1DoubleAssign; KeccakPermute; Bn254AddAssign; Bn254DoubleAssign;
   Bls12381AddAssign; Bls12381DoubleAssign; Uint256MulMod; U256XU2048Mul; Bls12381FpOpAssign;
   Bls12831Fp2AddSubAssign; Bls12831Fp2MulAssign; Bn254FpOpAssign; Bn254Fp2AddSubAssign; Bn254Fp2MulAssign;
   Bls12381Decompress; SyscallCore; SyscallPrecompile; DivRem; AddSub;
   Bitwise; Mul; ShiftRight; ShiftLeft; Lt;
   MemoryInstrs; Auipc; Branch; Jump; SyscallInstrs;
   MemoryGlobalInit; MemoryGlobalFinalize; MemoryLocal; Global; Byte].

Definition of_nat (z : Z) : option t := iter !! Z.to_nat z.

Lemma of_as_nat a : of_nat (as_nat a) = Some a.
Proof. by destruct a. Qed.

#[global] Instance as_nat_inj : Inj (=) (=) as_nat.
Proof. intros x y H. apply (f_equal of_nat) in H. rewrite !of_as_nat in H. congruence. Qed.

#[global] Instance eq_dec : EqDecision t := inj_eq_dec as_nat.

(** [RiscvAirId::core()]. *)
Definition core : list t :=
  [Cpu; AddSub; Mul; Bitwise; ShiftLeft;
   ShiftRight; DivRem; Lt; Auipc; MemoryLocal;
   MemoryInstrs; Branch; Jump; SyscallCore; SyscallInstrs;
   Global].

Definition as_str (a : t) : string :=
  match a with
  | Cpu => "Cpu"
  | Program => "Program"
  | ShaExtend => "ShaExtend"
  | ShaCompress => "ShaCompress"
  | EdAddAssign => "EdAddAssign"
  | EdDecompress => "EdDecompress"
  | Secp256k1Decompress => "Secp256k1Decompress"
  | Secp256k1AddAssign => "Secp256k1AddAssign"
  | Secp256k1DoubleAssign => "Secp256k1DoubleAssign"
  | Secp256r1Decompress => "Secp256r1Decompress"
  | Secp256r1AddAssign => "Secp256r1AddAssign"
  | Secp256r1DoubleAssign => "Secp256r1DoubleAssign"
  | KeccakPermute => "KeccakPermute"
  | Bn254AddAssign => "Bn254AddAssign"
  | Bn254DoubleAssign => "Bn254DoubleAssign"
  | Bls12381AddAssign => "Bls12381AddAssign"
  | Bls12381DoubleAssign => "Bls12381DoubleAssign"
  | Uint256MulMod => "Uint256MulMod"
  | U256XU2048Mul => "U256XU2048Mul"
  | Bls12381FpOpAssign => "Bls12381FpOpAssign"
  | Bls12831Fp2AddSubAssign => "Bls12831Fp2AddSubAssign"
  | Bls12831Fp2MulAssign => "Bls12831Fp2MulAssign"
  | Bn254FpOpAssign => "Bn254FpOpAssign"
  | Bn254Fp2AddSubAssign => "Bn254Fp2AddSubAssign"
  | Bn254Fp2MulAssign => "Bn254Fp2MulAssign"
  | Bls12381Decompress => "Bls12381Decompress"
  | SyscallCore => "SyscallCore"
  | SyscallPrecompile => "SyscallPrecompile"
  | DivRem => "DivRem"
  | AddSub => "AddSub"
  | Bitwise => "Bitwise"
  | Mul => "Mul"
  | ShiftRight => "ShiftRight"
  | ShiftLeft => "ShiftLeft"
  | Lt => "Lt"
  | MemoryInstrs => "MemoryInstrs"
  | Auipc => "Auipc"
  | Branch => "Branch"
  | Jump => "Jump"
  | SyscallInstrs => "SyscallInstrs"
  | MemoryGlobalInit => "MemoryGlobalInit"
  | MemoryGlobalFinalize => "MemoryGlobalFinalize"
  | MemoryLocal => "MemoryLocal"
  | Global => "Global"
  | Byte => "Byte"
  end.

(** [FromStr]: the first identifier with that name, or an error. *)
Definition from_str (s : string) : option t :=
  head (filter (fun a => as_str a = s) iter).

(** [from_str] inverts [as_str] on all 45 identifiers. *)
Lemma from_str_as_str a : from_str (as_str a) = Some a.
Proof. by destruct a. Qed.

(** The subenum [CoreAirId], in declaration order. *)
Definition core_air_ids : list t :=
  [Cpu; SyscallCore; DivRem; AddSub; Bitwise;
   Mul; ShiftRight; ShiftLeft; Lt; MemoryInstrs;
   Auipc; Branch; Jump; SyscallInstrs; MemoryLocal;
   Global].

Definition is_core (a : t) : bool := bool_decide (a ∈ core_air_ids).
End RiscvAirId.

(** [artifacts/rv32im_costs.json]. *)
Definition rv32im_costs (a : RiscvAirId.t) : Z :=
  match a with
  | RiscvAirId.Cpu => 109
  | RiscvAirId.Program => 31
  | RiscvAirId.ShaExtend => 15936
  | RiscvAirId.ShaCompress => 40480
  | RiscvAirId.EdAddAssign => 3709
  | RiscvAirId.EdDecompress => 3100
  | RiscvAirId.Secp256k1Decompress => 2724
  | RiscvAirId.Secp256k1AddAssign => 4461
  | RiscvAirId.Secp256k1DoubleAssign => 4564
  | RiscvAirId.Secp256r1Decompress => 2724
  | RiscvAirId.Secp256r1AddAssign => 4461
  | RiscvAirId.Secp256r1DoubleAssign => 4564
  | RiscvAirId.KeccakPermute => 93720
  | RiscvAirId.Bn254AddAssign => 4461
  | RiscvAirId.Bn254DoubleAssign => 4564
  | RiscvAirId.Bls12381AddAssign => 6717
  | RiscvAirId.Bls12381DoubleAssign => 6876
  | RiscvAirId.Uint256MulMod => 880
  | RiscvAirId.U256XU2048Mul => 5849
  | RiscvAirId.Bls12381FpOpAssign => 1098
  | RiscvAirId.Bls12831Fp2AddSubAssign => 2174
  | RiscvAirId.Bls12831Fp2MulAssign => 4445
  | RiscvAirId.Bn254FpOpAssign => 738
  | RiscvAirId.Bn254Fp2AddSubAssign => 1454
  | RiscvAirId.Bn254Fp2MulAssign => 2957
  | RiscvAirId.Bls12381Decompress => 4149
  | RiscvAirId.SyscallCore => 22
  | RiscvAirId.SyscallPrecompile => 22
  | RiscvAirId.DivRem => 146
  | RiscvAirId.AddSub => 47
  | RiscvAirId.Bitwise => 41
  | RiscvAirId.Mul => 83
  | RiscvAirId.ShiftRight => 134
  | RiscvAirId.ShiftLeft => 68
  | RiscvAirId.Lt => 53
  | RiscvAirId.MemoryInstrs => 93
  | RiscvAirId.Auipc => 41
  | RiscvAirId.Branch => 58
  | RiscvAirId.Jump => 50
  | RiscvAirId.SyscallInstrs => 80
  | RiscvAirId.MemoryGlobalInit => 124
  | RiscvAirId.MemoryGlobalFinalize => 124
  | RiscvAirId.MemoryLocal => 100
  | RiscvAirId.Global => 428
  | RiscvAirId.Byte => 52
  end.

Definition BYTE_NUM_ROWS : Z := 2 ^ 16.
Definition MAX_PROGRAM_ROWS : Z := 2 ^ 22.

(** [u64::next_power_of_two]: the least power of two at or above [x]; release
    builds wrap to 0 above 2^63. *)
Definition next_power_of_two (x : Z) : Z := u64 (2 ^ Z.log2_up x).

(** The chips whose padded heights enter the estimate, in source order. *)
Definition lde_airs : list RiscvAirId.t :=
  [RiscvAirId.Cpu; RiscvAirId.AddSub; RiscvAirId.Mul; RiscvAirId.Bitwise;
   RiscvAirId.ShiftLeft; RiscvAirId.ShiftRight; RiscvAirId.DivRem; RiscvAirId.Lt;
   RiscvAirId.MemoryLocal; RiscvAirId.Branch; RiscvAirId.Jump; RiscvAirId.Auipc;
   RiscvAirId.MemoryInstrs; RiscvAirId.SyscallInstrs; RiscvAirId.SyscallCore; RiscvAirId.Global].

(** [estimate_riscv_lde_size], in [u64] arithmetic; a BabyBear element is 4
    bytes. *)
Definition estimate_riscv_lde_size (num_events_per_air : EnumMap RiscvAirId.t)
    (costs_per_air : RiscvAirId.t -> Z) : Z :=
  let byte := u64 (BYTE_NUM_ROWS * costs_per_air RiscvAirId.Byte) in
  let prog := u64 (byte + u64 (MAX_PROGRAM_ROWS * costs_per_air RiscvAirId.Program)) in
  let cells := fold_left
    (fun cells a => u64 (cells + u64 (next_power_of_two (num_events_per_air a) * costs_per_air a)))
    lde_airs prog in
  u64 (cells * (2 * 4)).

(** Worst-case growth per cycle used by [pad_rv32im_event_counts]. *)
Definition pad_factor (a : RiscvAirId.t) : Z :=
  match a with
  | RiscvAirId.Cpu => 1
  | RiscvAirId.AddSub => 5
  | RiscvAirId.Mul => 4
  | RiscvAirId.Bitwise => 3
  | RiscvAirId.ShiftLeft => 1
  | RiscvAirId.ShiftRight => 1
  | RiscvAirId.DivRem => 4
  | RiscvAirId.Lt => 2
  | RiscvAirId.MemoryLocal => 64
  | RiscvAirId.Branch => 8
  | RiscvAirId.Jump => 2
  | RiscvAirId.Auipc => 3
  | RiscvAirId.MemoryInstrs => 8
  | RiscvAirId.SyscallInstrs => 1
  | RiscvAirId.SyscallCore => 2
  | RiscvAirId.Global => 64
  | _ => 0
  end.

Definition pad_rv32im_event_counts (counts : EnumMap RiscvAirId.t) (num_cycles : Z)
    : EnumMap RiscvAirId.t :=
  fun a => u64 (counts a + u64 (pad_factor a * num_cycles)).

(** [MaximalShapes]: log2 heights per core chip, one map per shape. *)
Abbreviation MaximalShapes := (list (EnumMap RiscvAirId.t)).

(** [MaximalShapes::from_iter]: chips outside [CoreAirId] are dropped. *)
Definition maximal_shape_of (shape : list (RiscvAirId.t * Z)) : EnumMap RiscvAirId.t :=
  fold_left (fun m '(a, h) => if RiscvAirId.is_core a then enum_set a (u32 h) m else m)
    shape enum_zero.

Definition maximal_shapes_from_iter (shapes : list (list (RiscvAirId.t * Z))) : MaximalShapes :=
  map maximal_shape_of shapes.

(** ** Bounds *)

Lemma next_power_of_two_ge x :
  0 <= x <= 2 ^ 63 -> x <= next_power_of_two x <= Z.max 1 (2 * x).
Proof.
  intros H. unfold next_power_of_two.
  assert (0 <= Z.log2_up x <= 63) as Hl.
  { split; [apply Z.log2_up_nonneg|]. change 63 with (Z.log2_up (2 ^ 63)).
    apply Z.log2_up_le_mono. lia. }
  rewrite u64_small.
  - destruct (Z.le_gt_cases x 1) as [Hx|Hx].
    + rewrite Z.log2_up_eqn0 by lia. cbn. lia.
    + pose proof (Z.log2_up_spec x Hx) as [H1 H2]. split; [lia|].
      assert (2 ^ Z.log2_up x = 2 * 2 ^ Z.pred (Z.log2_up x)) as ->; [|lia].
      rewrite <- Z.pow_succ_r; [f_equal; lia|]. pose proof (Z.log2_up_pos x Hx). lia.
  - split; [apply Z.pow_nonneg; lia|]. apply Z.pow_lt_mono_r; lia.
Qed.
