(* ===== verification/Record.v ===== *)
(** * Execution records (crates/core/executor/src/record.rs,
    crates/stark/src/air/public_values.rs)

    [ExecutionRecord] is the trace of one shard; [defer] and [split] move the
    precompile and global memory events into shards of their own, and [append]
    merges records.  [upd_f] updates field [f]. *)

From Stdlib Require Import ZArith Lia.
From stdpp Require Import base gmap list.
From S2P Require Import Prelude Isa SyscallCode Events ByteLookup Air.

Local Open Scope Z_scope.

Definition PV_DIGEST_NUM_WORDS : nat := 8.
Definition POSEIDON_NUM_WORDS : nat := 8.

(** [PublicValues<u32, u32>]. *)
Record PublicValues : Type := mkPublicValues {
  committed_value_digest : list Z;
  deferred_proofs_digest : list Z;
  start_pc : Z;
  next_pc : Z;
  exit_code : Z;
  pv_shard : Z;
  execution_shard : Z;
  previous_init_addr_bits : list Z;
  last_init_addr_bits : list Z;
  previous_finalize_addr_bits : list Z;
  last_finalize_addr_bits : list Z
}.

Definition upd_committed_value_digest (f : (list Z) -> (list Z)) (x : PublicValues) : PublicValues :=
  mkPublicValues (f (committed_value_digest x)) (deferred_proofs_digest x) (start_pc x) (next_pc
    x) (exit_code x) (pv_shard x) (execution_shard x) (previous_init_addr_bits x)
    (last_init_addr_bits x) (previous_finalize_addr_bits x) (last_finalize_addr_bits x).
Definition upd_deferred_proofs_digest (f : (list Z) -> (list Z)) (x : PublicValues) : PublicValues :=
  mkPublicValues (committed_value_digest x) (f (deferred_proofs_digest x)) (start_pc x) (next_pc
    x) (exit_code x) (pv_shard x) (execution_shard x) (previous_init_addr_bits x)
    (last_init_addr_bits x) (previous_finalize_addr_bits x) (last_finalize_addr_bits x).
Definition upd_start_pc (f : Z -> Z) (x : PublicValues) : PublicValues :=
  mkPublicValues (committed_value_digest x) (deferred_proofs_digest x) (f (start_pc x)) (next_pc
    x) (exit_code x) (pv_shard x) (execution_shard x) (previous_init_addr_bits x)
    (last_init_addr_bits x) (previous_finalize_addr_bits x) (last_finalize_addr_bits x).
Definition upd_next_pc (f : Z -> Z) (x : PublicValues) : PublicValues :=
  mkPublicValues (committed_value_digest x) (deferred_proofs_digest x) (start_pc x) (f (next_pc
    x)) (exit_code x) (pv_shard x) (execution_shard x) (previous_init_addr_bits x)
    (last_init_addr_bits x) (previous_finalize_addr_bits x) (last_finalize_addr_bits x).
Definition upd_exit_code (f : Z -> Z) (x : PublicValues) : PublicValues :=
  mkPublicValues (committed_value_digest x) (deferred_proofs_digest x) (start_pc x) (next_pc x)
    (f (exit_code x)) (pv_shard x) (execution_shard x) (previous_init_addr_bits x)
    (last_init_addr_bits x) (previous_finalize_addr_bits x) (last_finalize_addr_bits x).
Definition upd_pv_shard (f : Z -> Z) (x : PublicValues) : PublicValues :=
  mkPublicValues (committed_value_digest x) (deferred_proofs_digest x) (start_pc x) (next_pc x)
    (exit_code x) (f (pv_shard x)) (execution_shard x) (previous_init_addr_bits x)
    (last_init_addr_bits x) (previous_finalize_addr_bits x) (last_finalize_addr_bits x).
Definition upd_execution_shard (f : Z -> Z) (x : PublicValues) : PublicValues :=
  mkPublicValues (committed_value_digest x) (deferred_proofs_digest x) (start_pc x) (next_pc x)
    (exit_code x) (pv_shard x) (f (execution_shard x)) (previous_init_addr_bits x)
    (last_init_addr_bits x) (previous_finalize_addr_bits x) (last_finalize_addr_bits x).
Definition upd_previous_init_addr_bits (f : (list Z) -> (list Z)) (x : PublicValues) : PublicValues :=
  mkPublicValues (committed_value_digest x) (deferred_proofs_digest x) (start_pc x) (next_pc x)
    (exit_code x) (pv_shard x) (execution_shard x) (f (previous_init_addr_bits x))
    (last_init_addr_bits x) (previous_finalize_addr_bits x) (last_finalize_addr_bits x).
Definition upd_last_init_addr_bits (f : (list Z) -> (list Z)) (x : PublicValues) : PublicValues :=
  mkPublicValues (committed_value_digest x) (deferred_proofs_digest x) (start_pc x) (next_pc x)
    (exit_code x) (pv_shard x) (execution_shard x) (previous_init_addr_bits x) (f
    (last_init_addr_bits x)) (previous_finalize_addr_bits x) (last_finalize_addr_bits x).
Definition upd_previous_finalize_addr_bits (f : (list Z) -> (list Z)) (x : PublicValues) : PublicValues :=
  mkPublicValues (committed_value_digest x) (deferred_proofs_digest x) (start_pc x) (next_pc x)
    (exit_code x) (pv_shard x) (execution_shard x) (previous_init_addr_bits x)
    (last_init_addr_bits x) (f (previous_finalize_addr_bits x)) (last_finalize_addr_bits x).
Definition upd_last_finalize_addr_bits (f : (list Z) -> (list Z)) (x : PublicValues) : PublicValues :=
  mkPublicValues (committed_value_digest x) (deferred_proofs_digest x) (start_pc x) (next_pc x)
    (exit_code x) (pv_shard x) (execution_shard x) (previous_init_addr_bits x)
    (last_init_addr_bits x) (previous_finalize_addr_bits x) (f (last_finalize_addr_bits x)).

Definition PublicValues_default : PublicValues :=
  mkPublicValues (replicate PV_DIGEST_NUM_WORDS 0) (replicate POSEIDON_NUM_WORDS 0) 0 0 0 0 0
    (replicate 32 0) (replicate 32 0) (replicate 32 0) (replicate 32 0).

(** [PublicValues::reset]: keeps the digests and the exit code. *)
Definition pv_reset (p : PublicValues) : PublicValues :=
  mkPublicValues (committed_value_digest p) (deferred_proofs_digest p) 0 0 (exit_code p) 0 0
    (replicate 32 0) (replicate 32 0) (replicate 32 0) (replicate 32 0).

(** The trace of one shard. *)
Record ExecutionRecord : Type := mkExecutionRecord {
  rprogram : Program;
  cpu_events : list CpuEvent;
  add_events : list AluEvent;
  mul_events : list AluEvent;
  sub_events : list AluEvent;
  bitwise_events : list AluEvent;
  shift_left_events : list AluEvent;
  shift_right_events : list AluEvent;
  divrem_events : list AluEvent;
  lt_events : list AluEvent;
  memory_instr_events : list MemInstrEvent;
  auipc_events : list AUIPCEvent;
  branch_events : list BranchEvent;
  jump_events : list JumpEvent;
  byte_lookups : gmap ByteLookupEvent Z;
  precompile_events : PrecompileEvents;
  global_memory_initialize_events : list MemoryInitializeFinalizeEvent;
  global_memory_finalize_events : list MemoryInitializeFinalizeEvent;
  cpu_local_memory_access : list MemoryLocalEvent;
  syscall_events : list SyscallEvent;
  global_interaction_events : list GlobalInteractionEvent;
  public_values : PublicValues;
  next_nonce : Z;
  rshape : option (list (RiscvAirId.t * Z));
  counts : option (EnumMap RiscvAirId.t)
}.

Definition upd_rprogram (f : Program -> Program) (x : ExecutionRecord) : ExecutionRecord :=
  mkExecutionRecord (f (rprogram x)) (cpu_events x) (add_events x) (mul_events x) (sub_events x)
    (bitwise_events x) (shift_left_events x) (shift_right_events x) (divrem_events x) (lt_events
    x) (memory_instr_events x) (auipc_events x) (branch_events x) (jump_events x) (byte_lookups
    x) (precompile_events x) (global_memory_initialize_events x) (global_memory_finalize_events
    x) (cpu_local_memory_access x) (syscall_events x) (global_interaction_events x)
    (public_values x) (next_nonce x) (rshape x) (counts x).
Definition upd_cpu_events (f : (list CpuEvent) -> (list CpuEvent)) (x : ExecutionRecord) : ExecutionRecord :=
  mkExecutionRecord (rprogram x) (f (cpu_events x)) (add_events x) (mul_events x) (sub_events x)
    (bitwise_events x) (shift_left_events x) (shift_right_events x) (divrem_events x) (lt_events
    x) (memory_instr_events x) (auipc_events x) (branch_events x) (jump_events x) (byte_lookups
    x) (precompile_events x) (global_memory_initialize_events x) (global_memory_finalize_events
    x) (cpu_local_memory_access x) (syscall_events x) (global_interaction_events x)
    (public_values x) (next_nonce x) (rshape x) (counts x).
Definition upd_add_events (f : (list AluEvent) -> (list AluEvent)) (x : ExecutionRecord) : ExecutionRecord :=
  mkExecutionRecord (rprogram x) (cpu_events x) (f (add_events x)) (mul_events x) (sub_events x)
    (bitwise_events x) (shift_left_events x) (shift_right_events x) (divrem_events x) (lt_events
    x) (memory_instr_events x) (auipc_events x) (branch_events x) (jump_events x) (byte_lookups
    x) (precompile_events x) (global_memory_initialize_events x) (global_memory_finalize_events
    x) (cpu_local_memory_access x) (syscall_events x) (global_interaction_events x)
    (public_values x) (next_nonce x) (rshape x) (counts x).
Definition upd_mul_events (f : (list AluEvent) -> (list AluEvent)) (x : ExecutionRecord) : ExecutionRecord :=
  mkExecutionRecord (rprogram x) (cpu_events x) (add_events x) (f (mul_events x)) (sub_events x)
    (bitwise_events x) (shift_left_events x) (shift_right_events x) (divrem_events x) (lt_events
    x) (memory_instr_events x) (auipc_events x) (branch_events x) (jump_events x) (byte_lookups
    x) (precompile_events x) (global_memory_initialize_events x) (global_memory_finalize_events
    x) (cpu_local_memory_access x) (syscall_events x) (global_interaction_events x)
    (public_values x) (next_nonce x) (rshape x) (counts x).
Definition upd_sub_events (f : (list AluEvent) -> (list AluEvent)) (x : ExecutionRecord) : ExecutionRecord :=
  mkExecutionRecord (rprogram x) (cpu_events x) (add_events x) (mul_events x) (f (sub_events x))
    (bitwise_events x) (shift_left_events x) (shift_right_events x) (divrem_events x) (lt_events
    x) (memory_instr_events x) (auipc_events x) (branch_events x) (jump_events x) (byte_lookups
    x) (precompile_events x) (global_memory_initialize_events x) (global_memory_finalize_events
    x) (cpu_local_memory_access x) (syscall_events x) (global_interaction_events x)
    (public_values x) (next_nonce x) (rshape x) (counts x).
Definition upd_bitwise_events (f : (list AluEvent) -> (list AluEvent)) (x : ExecutionRecord) : ExecutionRecord :=
  mkExecutionRecord (rprogram x) (cpu_events x) (add_events x) (mul_events x) (sub_events x) (f
    (bitwise_events x)) (shift_left_events x) (shift_right_events x) (divrem_events x)
    (lt_events x) (memory_instr_events x) (auipc_events x) (branch_events x) (jump_events x)
    (byte_lookups x) (precompile_events x) (global_memory_initialize_events x)
    (global_memory_finalize_events x) (cpu_local_memory_access x) (syscall_events x)
    (global_interaction_events x) (public_values x) (next_nonce x) (rshape x) (counts x).
Definition upd_shift_left_events (f : (list AluEvent) -> (list AluEvent)) (x : ExecutionRecord) : ExecutionRecord :=
  mkExecutionRecord (rprogram x) (cpu_events x) (add_events x) (mul_events x) (sub_events x)
    (bitwise_events x) (f (shift_left_events x)) (shift_right_events x) (divrem_events x)
    (lt_events x) (memory_instr_events x) (auipc_events x) (branch_events x) (jump_events x)
    (byte_lookups x) (precompile_events x) (global_memory_initialize_events x)
    (global_memory_finalize_events x) (cpu_local_memory_access x) (syscall_events x)
    (global_interaction_events x) (public_values x) (next_nonce x) (rshape x) (counts x).
Definition upd_shift_right_events (f : (list AluEvent) -> (list AluEvent)) (x : ExecutionRecord) : ExecutionRecord :=
  mkExecutionRecord (rprogram x) (cpu_events x) (add_events x) (mul_events x) (sub_events x)
    (bitwise_events x) (shift_left_events x) (f (shift_right_events x)) (divrem_events x)
    (lt_events x) (memory_instr_events x) (auipc_events x) (branch_events x) (jump_events x)
    (byte_lookups x) (precompile_events x) (global_memory_initialize_events x)
    (global_memory_finalize_events x) (cpu_local_memory_access x) (syscall_events x)
    (global_interaction_events x) (public_values x) (next_nonce x) (rshape x) (counts x).
Definition upd_divrem_events (f : (list AluEvent) -> (list AluEvent)) (x : ExecutionRecord) : ExecutionRecord :=
  mkExecutionRecord (rprogram x) (cpu_events x) (add_events x) (mul_events x) (sub_events x)
    (bitwise_events x) (shift_left_events x) (shift_right_events x) (f (divrem_events x))
    (lt_events x) (memory_instr_events x) (auipc_events x) (branch_events x) (jump_events x)
    (byte_lookups x) (precompile_events x) (global_memory_initialize_events x)
    (global_memory_finalize_events x) (cpu_local_memory_access x) (syscall_events x)
    (global_interaction_events x) (public_values x) (next_nonce x) (rshape x) (counts x).
Definition upd_lt_events (f : (list AluEvent) -> (list AluEvent)) (x : ExecutionRecord) : ExecutionRecord :=
  mkExecutionRecord (rprogram x) (cpu_events x) (add_events x) (mul_events x) (sub_events x)
    (bitwise_events x) (shift_left_events x) (shift_right_events x) (divrem_events x) (f
    (lt_events x)) (memory_instr_events x) (auipc_events x) (branch_events x) (jump_events x)
    (byte_lookups x) (precompile_events x) (global_memory_initialize_events x)
    (global_memory_finalize_events x) (cpu_local_memory_access x) (syscall_events x)
    (global_interaction_events x) (public_values x) (next_nonce x) (rshape x) (counts x).
Definition upd_memory_instr_events (f : (list MemInstrEvent) -> (list MemInstrEvent)) (x : ExecutionRecord) : ExecutionRecord :=
  mkExecutionRecord (rprogram x) (cpu_events x) (add_events x) (mul_events x) (sub_events x)
    (bitwise_events x) (shift_left_events x) (shift_right_events x) (divrem_events x) (lt_events
    x) (f (memory_instr_events x)) (auipc_events x) (branch_events x) (jump_events x)
    (byte_lookups x) (precompile_events x) (global_memory_initialize_events x)
    (global_memory_finalize_events x) (cpu_local_memory_access x) (syscall_events x)
    (global_interaction_events x) (public_values x) (next_nonce x) (rshape x) (counts x).
Definition upd_auipc_events (f : (list AUIPCEvent) -> (list AUIPCEvent)) (x : ExecutionRecord) : ExecutionRecord :=
  mkExecutionRecord (rprogram x) (cpu_events x) (add_events x) (mul_events x) (sub_events x)
    (bitwise_events x) (shift_left_events x) (shift_right_events x) (divrem_events x) (lt_events
    x) (memory_instr_events x) (f (auipc_events x)) (branch_events x) (jump_events x)
    (byte_lookups x) (precompile_events x) (global_memory_initialize_events x)
    (global_memory_finalize_events x) (cpu_local_memory_access x) (syscall_events x)
    (global_interaction_events x) (public_values x) (next_nonce x) (rshape x) (counts x).
Definition upd_branch_events (f : (list BranchEvent) -> (list BranchEvent)) (x : ExecutionRecord) : ExecutionRecord :=
  mkExecutionRecord (rprogram x) (cpu_events x) (add_events x) (mul_events x) (sub_events x)
    (bitwise_events x) (shift_left_events x) (shift_right_events x) (divrem_events x) (lt_events
    x) (memory_instr_events x) (auipc_events x) (f (branch_events x)) (jump_events x)
    (byte_lookups x) (precompile_events x) (global_memory_initialize_events x)
    (global_memory_finalize_events x) (cpu_local_memory_access x) (syscall_events x)
    (global_interaction_events x) (public_values x) (next_nonce x) (rshape x) (counts x).
Definition upd_jump_events (f : (list JumpEvent) -> (list JumpEvent)) (x : ExecutionRecord) : ExecutionRecord :=
  mkExecutionRecord (rprogram x) (cpu_events x) (add_events x) (mul_events x) (sub_events x)
    (bitwise_events x) (shift_left_events x) (shift_right_events x) (divrem_events x) (lt_events
    x) (memory_instr_events x) (auipc_events x) (branch_events x) (f (jump_events x))
    (byte_lookups x) (precompile_events x) (global_memory_initialize_events x)
    (global_memory_finalize_events x) (cpu_local_memory_access x) (syscall_events x)
    (global_interaction_events x) (public_values x) (next_nonce x) (rshape x) (counts x).
Definition upd_byte_lookups (f : (gmap ByteLookupEvent Z) -> (gmap ByteLookupEvent Z)) (x : ExecutionRecord) : ExecutionRecord :=
  mkExecutionRecord (rprogram x) (cpu_events x) (add_events x) (mul_events x) (sub_events x)
    (bitwise_events x) (shift_left_events x) (shift_right_events x) (divrem_events x) (lt_events
    x) (memory_instr_events x) (auipc_events x) (branch_events x) (jump_events x) (f
    (byte_lookups x)) (precompile_events x) (global_memory_initialize_events x)
    (global_memory_finalize_events x) (cpu_local_memory_access x) (syscall_events x)
    (global_interaction_events x) (public_values x) (next_nonce x) (rshape x) (counts x).
Definition upd_precompile_events (f : PrecompileEvents -> PrecompileEvents) (x : ExecutionRecord) : ExecutionRecord :=
  mkExecutionRecord (rprogram x) (cpu_events x) (add_events x) (mul_events x) (sub_events x)
    (bitwise_events x) (shift_left_events x) (shift_right_events x) (divrem_events x) (lt_events
    x) (memory_instr_events x) (auipc_events x) (branch_events x) (jump_events x) (byte_lookups
    x) (f (precompile_events x)) (global_memory_initialize_events x)
    (global_memory_finalize_events x) (cpu_local_memory_access x) (syscall_events x)
    (global_interaction_events x) (public_values x) (next_nonce x) (rshape x) (counts x).
Definition upd_global_memory_initialize_events (f : (list MemoryInitializeFinalizeEvent) -> (list MemoryInitializeFinalizeEvent)) (x : ExecutionRecord) : ExecutionRecord :=
  mkExecutionRecord (rprogram x) (cpu_events x) (add_events x) (mul_events x) (sub_events x)
    (bitwise_events x) (shift_left_events x) (shift_right_events x) (divrem_events x) (lt_events
    x) (memory_instr_events x) (auipc_events x) (branch_events x) (jump_events x) (byte_lookups
    x) (precompile_events x) (f (global_memory_initialize_events x))
    (global_memory_finalize_events x) (cpu_local_memory_access x) (syscall_events x)
    (global_interaction_events x) (public_values x) (next_nonce x) (rshape x) (counts x).
Definition upd_global_memory_finalize_events (f : (list MemoryInitializeFinalizeEvent) -> (list MemoryInitializeFinalizeEvent)) (x : ExecutionRecord) : ExecutionRecord :=
  mkExecutionRecord (rprogram x) (cpu_events x) (add_events x) (mul_events x) (sub_events x)
    (bitwise_events x) (shift_left_events x) (shift_right_events x) (divrem_events x) (lt_events
    x) (memory_instr_events x) (auipc_events x) (branch_events x) (jump_events x) (byte_lookups
    x) (precompile_events x) (global_memory_initialize_events x) (f
    (global_memory_finalize_events x)) (cpu_local_memory_access x) (syscall_events x)
    (global_interaction_events x) (public_values x) (next_nonce x) (rshape x) (counts x).
Definition upd_cpu_local_memory_access (f : (list MemoryLocalEvent) -> (list MemoryLocalEvent)) (x : ExecutionRecord) : ExecutionRecord :=
  mkExecutionRecord (rprogram x) (cpu_events x) (add_events x) (mul_events x) (sub_events x)
    (bitwise_events x) (shift_left_events x) (shift_right_events x) (divrem_events x) (lt_events
    x) (memory_instr_events x) (auipc_events x) (branch_events x) (jump_events x) (byte_lookups
    x) (precompile_events x) (global_memory_initialize_events x) (global_memory_finalize_events
    x) (f (cpu_local_memory_access x)) (syscall_events x) (global_interaction_events x)
    (public_values x) (next_nonce x) (rshape x) (counts x).
Definition upd_syscall_events (f : (list SyscallEvent) -> (list SyscallEvent)) (x : ExecutionRecord) : ExecutionRecord :=
  mkExecutionRecord (rprogram x) (cpu_events x) (add_events x) (mul_events x) (sub_events x)
    (bitwise_events x) (shift_left_events x) (shift_right_events x) (divrem_events x) (lt_events
    x) (memory_instr_events x) (auipc_events x) (branch_events x) (jump_events x) (byte_lookups
    x) (precompile_events x) (global_memory_initialize_events x) (global_memory_finalize_events
    x) (cpu_local_memory_access x) (f (syscall_events x)) (global_interaction_events x)
    (public_values x) (next_nonce x) (rshape x) (counts x).
Definition upd_global_interaction_events (f : (list GlobalInteractionEvent) -> (list GlobalInteractionEvent)) (x : ExecutionRecord) : ExecutionRecord :=
  mkExecutionRecord (rprogram x) (cpu_events x) (add_events x) (mul_events x) (sub_events x)
    (bitwise_events x) (shift_left_events x) (shift_right_events x) (divrem_events x) (lt_events
    x) (memory_instr_events x) (auipc_events x) (branch_events x) (jump_events x) (byte_lookups
    x) (precompile_events x) (global_memory_initialize_events x) (global_memory_finalize_events
    x) (cpu_local_memory_access x) (syscall_events x) (f (global_interaction_events x))
    (public_values x) (next_nonce x) (rshape x) (counts x).
Definition upd_public_values (f : PublicValues -> PublicValues) (x : ExecutionRecord) : ExecutionRecord :=
  mkExecutionRecord (rprogram x) (cpu_events x) (add_events x) (mul_events x) (sub_events x)
    (bitwise_events x) (shift_left_events x) (shift_right_events x) (divrem_events x) (lt_events
    x) (memory_instr_events x) (auipc_events x) (branch_events x) (jump_events x) (byte_lookups
    x) (precompile_events x) (global_memory_initialize_events x) (global_memory_finalize_events
    x) (cpu_local_memory_access x) (syscall_events x) (global_interaction_events x) (f
    (public_values x)) (next_nonce x) (rshape x) (counts x).
Definition upd_next_nonce (f : Z -> Z) (x : ExecutionRecord) : ExecutionRecord :=
  mkExecutionRecord (rprogram x) (cpu_events x) (add_events x) (mul_events x) (sub_events x)
    (bitwise_events x) (shift_left_events x) (shift_right_events x) (divrem_events x) (lt_events
    x) (memory_instr_events x) (auipc_events x) (branch_events x) (jump_events x) (byte_lookups
    x) (precompile_events x) (global_memory_initialize_events x) (global_memory_finalize_events
    x) (cpu_local_memory_access x) (syscall_events x) (global_interaction_events x)
    (public_values x) (f (next_nonce x)) (rshape x) (counts x).
Definition upd_rshape (f : (option (list (RiscvAirId.t * Z))) -> (option (list (RiscvAirId.t * Z)))) (x : ExecutionRecord) : ExecutionRecord :=
  mkExecutionRecord (rprogram x) (cpu_events x) (add_events x) (mul_events x) (sub_events x)
    (bitwise_events x) (shift_left_events x) (shift_right_events x) (divrem_events x) (lt_events
    x) (memory_instr_events x) (auipc_events x) (branch_events x) (jump_events x) (byte_lookups
    x) (precompile_events x) (global_memory_initialize_events x) (global_memory_finalize_events
    x) (cpu_local_memory_access x) (syscall_events x) (global_interaction_events x)
    (public_values x) (next_nonce x) (f (rshape x)) (counts x).
Definition upd_counts (f : (option (EnumMap RiscvAirId.t)) -> (option (EnumMap RiscvAirId.t))) (x : ExecutionRecord) : ExecutionRecord :=
  mkExecutionRecord (rprogram x) (cpu_events x) (add_events x) (mul_events x) (sub_events x)
    (bitwise_events x) (shift_left_events x) (shift_right_events x) (divrem_events x) (lt_events
    x) (memory_instr_events x) (auipc_events x) (branch_events x) (jump_events x) (byte_lookups
    x) (precompile_events x) (global_memory_initialize_events x) (global_memory_finalize_events
    x) (cpu_local_memory_access x) (syscall_events x) (global_interaction_events x)
    (public_values x) (next_nonce x) (rshape x) (f (counts x)).

(** [ExecutionRecord::new]: everything but the program is default. *)
Definition ExecutionRecord_new (p : Program) : ExecutionRecord :=
  mkExecutionRecord p [] [] [] [] [] [] [] [] [] [] [] [] [] ∅ PrecompileEvents_default [] [] [] [] []
    PublicValues_default 0 None None.

Definition ExecutionRecord_default : ExecutionRecord := ExecutionRecord_new Program_default.

(** [v.push(x)] on a field. *)
Definition push {A} (x : A) (l : list A) : list A := l ++ [x].

Definition add_mul_event (e : AluEvent) : ExecutionRecord -> ExecutionRecord := upd_mul_events (push e).
Definition add_lt_event (e : AluEvent) : ExecutionRecord -> ExecutionRecord := upd_lt_events (push e).
Definition add_memory_instructions_event (e : MemInstrEvent) : ExecutionRecord -> ExecutionRecord :=
  upd_memory_instr_events (push e).
Definition add_branch_event (e : BranchEvent) : ExecutionRecord -> ExecutionRecord :=
  upd_branch_events (push e).
Definition add_jump_event (e : JumpEvent) : ExecutionRecord -> ExecutionRecord :=
  upd_jump_events (push e).
Definition add_auipc_event (e : AUIPCEvent) : ExecutionRecord -> ExecutionRecord :=
  upd_auipc_events (push e).

(** [add_alu_events] for the events of one opcode; other opcodes panic. *)
Definition add_alu_events_of (o : Opcode) (evs : list AluEvent) (r : ExecutionRecord)
    : option ExecutionRecord :=
  match o with
  | ADD => Some (upd_add_events (fun l => l ++ evs) r)
  | MUL | MULH | MULHU | MULHSU => Some (upd_mul_events (fun l => l ++ evs) r)
  | SUB => Some (upd_sub_events (fun l => l ++ evs) r)
  | XOR | OR | AND => Some (upd_bitwise_events (fun l => l ++ evs) r)
  | SLL => Some (upd_shift_left_events (fun l => l ++ evs) r)
  | SRL | SRA => Some (upd_shift_right_events (fun l => l ++ evs) r)
  | SLT | SLTU => Some (upd_lt_events (fun l => l ++ evs) r)
  | _ => None
  end.

Fixpoint add_alu_events (evs : list (Opcode * list AluEvent)) (r : ExecutionRecord)
    : option ExecutionRecord :=
  match evs with
  | [] => Some r
  | (o, l) :: evs' => r' ← add_alu_events_of o l r; add_alu_events evs' r'
  end.

Definition contains_cpu (r : ExecutionRecord) : bool :=
  match cpu_events r with [] => false | _ => true end.

(** [get_local_mem_events]: precompile events first. *)
Definition get_local_mem_events (r : ExecutionRecord) : list MemoryLocalEvent :=
  precompile_local_mem_events (precompile_events r) ++ cpu_local_memory_access r.

(** [impl ByteRecord for ExecutionRecord]. *)
#[export] Instance record_ByteRecord : ByteRecord ExecutionRecord := {
  add_byte_lookup_event e r := upd_byte_lookups (add_byte_lookup_event e) r;
  add_byte_lookup_events_from_maps news r :=
    Some (upd_byte_lookups (fold_left (fun m n => merge_counts n m) news) r)
}.

(** ** Deferring events *)

(** [defer]: the deferred record and the record without its deferred events. *)
Definition defer (r : ExecutionRecord) : ExecutionRecord * ExecutionRecord :=
  let d := upd_precompile_events (fun _ => precompile_events r)
    (upd_global_memory_initialize_events (fun _ => global_memory_initialize_events r)
    (upd_global_memory_finalize_events (fun _ => global_memory_finalize_events r)
      (ExecutionRecord_new (rprogram r)))) in
  let r' := upd_precompile_events (fun _ => PrecompileEvents_default)
    (upd_global_memory_initialize_events (fun _ => [])
    (upd_global_memory_finalize_events (fun _ => []) r)) in
  (d, r').

(** [SplitOpts] of crates/stark/src/opts.rs. *)
Record SplitOpts : Type := mkSplitOpts {
  so_deferred : nat;
  so_keccak : nat;
  so_sha_extend : nat;
  so_sha_compress : nat;
  so_memory : nat
}.

(** [slice::chunks(n)] and [chunks_exact(n)] with its [remainder]; [fuel] is at
    least the length, since every chunk consumes an element. *)
Fixpoint chunks_fuel {A} (fuel n : nat) (l : list A) : list (list A) :=
  match fuel, l with
  | _, [] => []
  | O, _ => []
  | S fuel', _ => take n l :: chunks_fuel fuel' n (drop n l)
  end.

Definition chunks {A} (n : nat) (l : list A) : list (list A) := chunks_fuel (length l) n l.

Definition chunks_exact {A} (n : nat) (l : list A) : list (list A) :=
  filter (fun c => length c = n) (chunks n l).

Definition remainder {A} (n : nat) (l : list A) : list A :=
  drop (length l / n * n) l.

Definition split_threshold (opts : SplitOpts) (c : SyscallCode) : nat :=
  match c with
  | KECCAK_PERMUTE => so_keccak opts
  | SHA_EXTEND => so_sha_extend opts
  | SHA_COMPRESS => so_sha_compress opts
  | _ => so_deferred opts
  end.

Abbreviation EventVec := (list (SyscallEvent * PrecompileEvent)).

(** A fresh record that holds only [evs] under code [c]. *)
Definition precompile_shard (p : Program) (c : SyscallCode) (evs : EventVec)
    : option ExecutionRecord :=
  pe ← precompile_insert c evs PrecompileEvents_default;
  Some (upd_precompile_events (fun _ => pe) (ExecutionRecord_new p)).

(** One iteration of the first loop of [split]: the events [self] keeps and the
    shards produced. *)
Definition split_precompile (p : Program) (last : bool) (opts : SplitOpts)
    (kept : PrecompileEvents) (c : SyscallCode) (evs : EventVec)
    : option (PrecompileEvents * list ExecutionRecord) :=
  let n := split_threshold opts c in
  if (n =? 0)%nat then None
  else
    let rem := remainder n evs in
    '(kept', first) ← (
      if last then
        match rem with
        | [] => Some (kept, [])
        | _ => s ← precompile_shard p c rem; Some (kept, [s])
        end
      else k ← precompile_insert c rem kept; Some (k, []));
    ss ← mapM (precompile_shard p c) (chunks_exact n evs);
    Some (kept', first ++ ss).

Fixpoint split_precompiles (p : Program) (last : bool) (opts : SplitOpts)
    (kept : PrecompileEvents) (l : list (SyscallCode * EventVec))
    : option (PrecompileEvents * list ExecutionRecord) :=
  match l with
  | [] => Some (kept, [])
  | (c, evs) :: l' =>
      '(kept', ss) ← split_precompile p last opts kept c evs;
      '(kept'', ss') ← split_precompiles p last opts kept' l';
      Some (kept'', ss ++ ss')
  end.

(** Stable [sort_by_key(|event| event.addr)]. *)
Fixpoint insert_by_addr (e : MemoryInitializeFinalizeEvent) (l : list MemoryInitializeFinalizeEvent)
    : list MemoryInitializeFinalizeEvent :=
  match l with
  | [] => [e]
  | x :: l' => if mif_addr e <=? mif_addr x then e :: x :: l' else x :: insert_by_addr e l'
  end.

Definition sort_by_addr (l : list MemoryInitializeFinalizeEvent) : list MemoryInitializeFinalizeEvent :=
  foldr insert_by_addr [] l.

(** [core::array::from_fn(|i| (addr >> i) & 1)]. *)
Definition addr_bits (addr : Z) : list Z := map (fun i => Z.land (Z.shiftr addr i) 1) (zseq 0 32).

(** Bits of the last address of a chunk; an empty chunk keeps the previous. *)
Definition next_bits (chunk : list MemoryInitializeFinalizeEvent) (bits : list Z) : list Z :=
  match last chunk with Some e => addr_bits (mif_addr e) | None => bits end.

(** Pack one pair of chunks into a record. *)
Definition pack_chunk (ic fc : list MemoryInitializeFinalizeEvent) (ib fb : list Z)
    (r : ExecutionRecord) : ExecutionRecord :=
  upd_public_values (fun pv =>
      upd_previous_init_addr_bits (fun _ => ib)
      (upd_last_init_addr_bits (fun _ => next_bits ic ib)
      (upd_previous_finalize_addr_bits (fun _ => fb)
      (upd_last_finalize_addr_bits (fun _ => next_bits fc fb) pv))))
  (upd_global_memory_initialize_events (fun l => l ++ ic)
  (upd_global_memory_finalize_events (fun l => l ++ fc) r)).

(** [zip_longest], absent chunks read as empty. *)
Fixpoint zip_longest (a b : list (list MemoryInitializeFinalizeEvent))
    : list (list MemoryInitializeFinalizeEvent * list MemoryInitializeFinalizeEvent) :=
  match a, b with
  | [], [] => []
  | x :: a', [] => (x, []) :: zip_longest a' []
  | [], y :: b' => ([], y) :: map (fun y => ([], y)) b'
  | x :: a', y :: b' => (x, y) :: zip_longest a' b'
  end.

(** The memory loop of [split]: [target] is the record packed into, [pack] says
    whether it is the caller's last record (kept in place) or a blank one
    (pushed and replaced by a fresh one). *)
Fixpoint split_memory (p : Program) (pack : bool) (target : ExecutionRecord) (ib fb : list Z)
    (l : list (list MemoryInitializeFinalizeEvent * list MemoryInitializeFinalizeEvent))
    : ExecutionRecord * list ExecutionRecord :=
  match l with
  | [] => (target, [])
  | (ic, fc) :: l' =>
      let t := pack_chunk ic fc ib fb target in
      if pack then split_memory p pack t (next_bits ic ib) (next_bits fc fb) l'
      else
        let '(t', ss) := split_memory p pack (ExecutionRecord_new p)
          (next_bits ic ib) (next_bits fc fb) l' in
        (t', t :: ss)
  end.

(** [split]: the new [self], the possibly updated last record and the shards. *)
Definition split (self : ExecutionRecord) (last : bool) (last_record : option ExecutionRecord)
    (opts : SplitOpts) : option (ExecutionRecord * option ExecutionRecord * list ExecutionRecord) :=
  let p := rprogram self in
  '(kept, shards) ← split_precompiles p last opts PrecompileEvents_default
    (map_to_list (precompile_events self));
  let self' := upd_precompile_events (fun _ => kept) self in
  if last then
    let inits := sort_by_addr (global_memory_initialize_events self) in
    let fins := sort_by_addr (global_memory_finalize_events self) in
    let self'' := upd_global_memory_initialize_events (fun _ => inits)
      (upd_global_memory_finalize_events (fun _ => fins) self') in
    if (so_memory opts =? 0)%nat then None
    else
      let zipped := zip_longest (chunks (so_memory opts) inits) (chunks (so_memory opts) fins) in
      let zeros := replicate 32 0 in
      match last_record, shards with
      | Some lr, [] =>
          let '(lr', ss) := split_memory p true lr zeros zeros zipped in
          Some (self'', Some lr', ss)
      | _, _ =>
          let '(_, ss) := split_memory p false (ExecutionRecord_new p) zeros zeros zipped in
          Some (self'', last_record, shards ++ ss)
      end
  else Some (self', last_record, shards).

(** ** Appending records ([MachineRecord::append]); [other] is drained, and
    [public_values], the program and the shape of [self] stay. *)
Definition record_append (self other : ExecutionRecord) : ExecutionRecord :=
  upd_cpu_events (fun l => l ++ cpu_events other)
  (upd_add_events (fun l => l ++ add_events other)
  (upd_sub_events (fun l => l ++ sub_events other)
  (upd_mul_events (fun l => l ++ mul_events other)
  (upd_bitwise_events (fun l => l ++ bitwise_events other)
  (upd_shift_left_events (fun l => l ++ shift_left_events other)
  (upd_shift_right_events (fun l => l ++ shift_right_events other)
  (upd_divrem_events (fun l => l ++ divrem_events other)
  (upd_lt_events (fun l => l ++ lt_events other)
  (upd_memory_instr_events (fun l => l ++ memory_instr_events other)
  (upd_branch_events (fun l => l ++ branch_events other)
  (upd_jump_events (fun l => l ++ jump_events other)
  (upd_auipc_events (fun l => l ++ auipc_events other)
  (upd_syscall_events (fun l => l ++ syscall_events other)
  (upd_precompile_events (fun m => precompile_append m (precompile_events other))
  (upd_byte_lookups (fun m => if decide (m = ∅) then byte_lookups other
                              else merge_counts (byte_lookups other) m)
  (upd_global_memory_initialize_events (fun l => l ++ global_memory_initialize_events other)
  (upd_global_memory_finalize_events (fun l => l ++ global_memory_finalize_events other)
  (upd_cpu_local_memory_access (fun l => l ++ cpu_local_memory_access other)
  (upd_global_interaction_events (fun l => l ++ global_interaction_events other)
    self))))))))))))))))))).
