(* ===== verification/Alu.v ===== *)
(** * Instruction semantics (executor.rs [execute_alu] .. [execute_branch], utils.rs)

    The value computations of the instruction handlers, and their agreement
    with the RISC-V integer semantics: two's complement arithmetic for the ALU,
    the division algorithm, and the byte view of memory words for the sub-word
    loads and stores. *)

From Stdlib Require Import ZArith Lia Bool.
From stdpp Require Import base list.
From S2P Require Import Prelude Isa.

Local Open Scope Z_scope.
Local Open Scope rv_scope.

(** ** Operations *)

(** [align]: the word address of a byte address. *)
Definition align (addr : Z) : Z := addr - addr mod 4.

(** [i32::wrapping_div] and [wrapping_rem]: [MIN / -1] wraps to [MIN]. *)
Definition wrapping_div_i32 (x y : Z) : Z := i32 (Z.quot x y).
Definition wrapping_rem_i32 (x y : Z) : Z := i32 (Z.rem x y).

(** [i32::unsigned_abs]. *)
Definition unsigned_abs (x : Z) : Z := Z.abs x.

(** The opcode match of [execute_alu]; [None] is [unreachable!()]. *)
Definition alu_result (o : Opcode) (b c : Z) : option Z :=
  match o with
  | ADD => Some (b +u c)
  | SUB => Some (b -u c)
  | XOR => Some (Z.lxor b c)
  | OR => Some (Z.lor b c)
  | AND => Some (Z.land b c)
  | SLL => Some (u32 (Z.shiftl b (Z.land c 31)))
  | SRL => Some (Z.shiftr b (Z.land c 31))
  | SRA => Some (u32 (Z.shiftr (i32 b) (Z.land c 31)))
  | SLT => Some (if i32 b <? i32 c then 1 else 0)
  | SLTU => Some (if b <? c then 1 else 0)
  | MUL => Some (b *u c)
  | MULH => Some (u32 (Z.shiftr (i64 (i32 b * i32 c)) 32))
  | MULHU => Some (u32 (Z.shiftr (u64 (b * c)) 32))
  | MULHSU => Some (u32 (Z.shiftr (i64 (i32 b * c)) 32))
  | DIV => Some (if c =? 0 then u32_MAX else u32 (wrapping_div_i32 (i32 b) (i32 c)))
  | DIVU => Some (if c =? 0 then u32_MAX else b / c)
  | REM => Some (if c =? 0 then b else u32 (wrapping_rem_i32 (i32 b) (i32 c)))
  | REMU => Some (if c =? 0 then b else b mod c)
  | _ => None
  end.

(** The opcode match of [execute_load]: [None] is [unreachable!()], [Some None]
    the early return of [InvalidMemoryAccess]. *)
Definition load_value (o : Opcode) (addr w : Z) : option (option Z) :=
  match o with
  | LB => Some (Some (u32 (i8 (Z.land (Z.shiftr w (addr mod 4 * 8)) 0xFF))))
  | LH =>
      if negb (addr mod 2 =? 0) then Some None
      else Some (Some (u32 (i16 (Z.land (Z.shiftr w ((addr / 2) mod 2 * 16)) 0xFFFF))))
  | LW => if negb (addr mod 4 =? 0) then Some None else Some (Some w)
  | LBU => Some (Some (Z.land (Z.shiftr w (addr mod 4 * 8)) 0xFF))
  | LHU =>
      if negb (addr mod 2 =? 0) then Some None
      else Some (Some (Z.land (Z.shiftr w ((addr / 2) mod 2 * 16)) 0xFFFF))
  | _ => None
  end.

(** The opcode match of [execute_store]. *)
Definition store_value (o : Opcode) (addr a w : Z) : option (option Z) :=
  match o with
  | SB =>
      let shift := addr mod 4 * 8 in
      Some (Some (Z.lor (u32 (Z.shiftl (Z.land a 0xFF) shift))
                        (Z.land w (not32 (u32 (Z.shiftl 0xFF shift))))))
  | SH =>
      if negb (addr mod 2 =? 0) then Some None
      else
        let shift := (addr / 2) mod 2 * 16 in
        Some (Some (Z.lor (u32 (Z.shiftl (Z.land a 0xFFFF) shift))
                          (Z.land w (not32 (u32 (Z.shiftl 0xFFFF shift))))))
  | SW => if negb (addr mod 4 =? 0) then Some None else Some (Some a)
  | _ => None
  end.

(** The opcode match of [execute_branch]. *)
Definition branch_taken (o : Opcode) (a b : Z) : option bool :=
  match o with
  | BEQ => Some (a =? b)
  | BNE => Some (negb (a =? b))
  | BLT => Some (i32 a <? i32 b)
  | BGE => Some (i32 b <=? i32 a)
  | BLTU => Some (a <? b)
  | BGEU => Some (b <=? a)
  | _ => None
  end.

(** utils.rs. *)
Definition is_signed_operation (o : Opcode) : bool := opcode_eqb o DIV || opcode_eqb o REM.

Definition get_quotient_and_remainder (b c : Z) (o : Opcode) : Z * Z :=
  if c =? 0 then (u32_MAX, b)
  else if is_signed_operation o then
    (u32 (wrapping_div_i32 (i32 b) (i32 c)), u32 (wrapping_rem_i32 (i32 b) (i32 c)))
  else (b / c, b mod c).

Definition get_msb (a : Z) : Z := Z.land (Z.shiftr a 31) 1.

(** ** Reference semantics

    [rv_alu] states each ALU operation over the mathematical integers: [sx] is
    the signed reading of a register, results are taken modulo [2^32]. *)

Definition sx (x : Z) : Z := if x <? 2 ^ 31 then x else x - 2 ^ 32.

Definition rv_alu (o : Opcode) (b c : Z) : option Z :=
  let m x := x mod 2 ^ 32 in
  let sh := c mod 32 in
  match o with
  | ADD => Some (m (b + c))
  | SUB => Some (m (b - c))
  | XOR => Some (Z.lxor b c)
  | OR => Some (Z.lor b c)
  | AND => Some (Z.land b c)
  | SLL => Some (m (b * 2 ^ sh))
  | SRL => Some (b / 2 ^ sh)
  | SRA => Some (m (sx b / 2 ^ sh))
  | SLT => Some (Z.b2z (sx b <? sx c))
  | SLTU => Some (Z.b2z (b <? c))
  | MUL => Some (m (b * c))
  | MULH => Some (m (sx b * sx c / 2 ^ 32))
  | MULHU => Some (b * c / 2 ^ 32)
  | MULHSU => Some (m (sx b * c / 2 ^ 32))
  | DIV => Some (if c =? 0 then m (-1) else m (Z.quot (sx b) (sx c)))
  | DIVU => Some (if c =? 0 then m (-1) else b / c)
  | REM => Some (if c =? 0 then b else m (Z.rem (sx b) (sx c)))
  | REMU => Some (if c =? 0 then b else b mod c)
  | _ => None
  end.

(** Byte [i] of a word in memory order, and sign extension. *)
Definition byte_at (w i : Z) : Z := (w / 2 ^ (8 * i)) mod 256.

Definition half_at (w i : Z) : Z := byte_at w i + 256 * byte_at w (i + 1).

Definition sext (n x : Z) : Z := if x <? 2 ^ (n - 1) then x else 2 ^ 32 - 2 ^ n + x.

(** ** Lemmas *)

Lemma i32_sx x : is_u32 x -> i32 x = sx x.
Proof.
  intros H. unfold i32, signed, sx. by rewrite (wrap_small 32 x H).
Qed.

Lemma sx_range x : is_u32 x -> - 2 ^ 31 <= sx x < 2 ^ 31.
Proof.
  rewrite is_u32_iff. unfold sx. intros H. change (2 ^ 31) with 2147483648 in *.
  change (2 ^ 32) with 4294967296. destruct (Z.ltb_spec x 2147483648); lia.
Qed.

Lemma land31 c : Z.land c 31 = c mod 32.
Proof. change 31 with (Z.ones 5). by rewrite Z.land_ones. Qed.

Lemma land_ff x : Z.land x 0xFF = x mod 256.
Proof. change 0xFF with (Z.ones 8). by rewrite Z.land_ones. Qed.

Lemma land_ffff x : Z.land x 0xFFFF = x mod 65536.
Proof. change 0xFFFF with (Z.ones 16). by rewrite Z.land_ones. Qed.

Lemma i64_small x : - 2 ^ 63 <= x < 2 ^ 63 -> i64 x = x.
Proof.
  intros H. unfold i64, signed, wrap. change (2 ^ (64 - 1)) with (2 ^ 63).
  change (2 ^ 64) with (2 ^ 63 * 2). destruct (Z.ltb_spec (x mod (2 ^ 63 * 2)) (2 ^ 63)) as [Hlt|Hge].
  - destruct (Z.lt_ge_cases x 0).
    + rewrite <- (Z.mod_unique x (2 ^ 63 * 2) (-1) (x + 2 ^ 63 * 2)) in Hlt by lia. lia.
    + apply Z.mod_small. lia.
  - destruct (Z.lt_ge_cases x 0).
    + rewrite <- (Z.mod_unique x (2 ^ 63 * 2) (-1) (x + 2 ^ 63 * 2)) by lia. lia.
    + rewrite Z.mod_small in Hge by lia. lia.
Qed.

Lemma u32_mul_small x : in_u 64 x -> u64 x = x.
Proof. apply wrap_small. Qed.

Lemma mul_i32_range x y :
  - 2 ^ 31 <= x < 2 ^ 31 -> - 2 ^ 31 <= y < 2 ^ 32 -> - 2 ^ 63 <= x * y < 2 ^ 63.
Proof.
  change (2 ^ 31) with 2147483648. change (2 ^ 32) with 4294967296.
  change (2 ^ 63) with 9223372036854775808. nia.
Qed.

Lemma u32_i32_eq x : u32 (i32 x) = x mod 2 ^ 32.
Proof. rewrite u32_i32. reflexivity. Qed.

(** [execute_alu]'s match computes the reference semantics on every ALU opcode,
    and is unreachable exactly on the others. *)
Lemma alu_result_spec o b c : is_u32 b -> is_u32 c -> alu_result o b c = rv_alu o b c.
Proof.
  intros Hb Hc. pose proof (sx_range b Hb) as Sb. pose proof (sx_range c Hc) as Sc.
  pose proof (proj1 (is_u32_iff b) Hb) as Bb. pose proof (proj1 (is_u32_iff c) Hc) as Bc.
  assert (0 <= c mod 32 < 32) by (apply Z.mod_pos_bound; lia).
  destruct o; try reflexivity; cbn [alu_result rv_alu];
    unfold wadd, wsub, wmul, wrapping_div_i32, wrapping_rem_i32;
    rewrite ?land31, ?u32_i32_eq, ?(i32_sx b Hb), ?(i32_sx c Hc),
      ?Z.shiftl_mul_pow2, ?Z.shiftr_div_pow2 by lia;
    rewrite ?i64_small by (apply mul_i32_range; lia);
    try reflexivity; try (by destruct (_ <? _)).
  f_equal. unfold u64. rewrite wrap_small.
  2:{ unfold in_u. change (2 ^ 64) with 18446744073709551616. nia. }
  apply u32_small, is_u32_iff.
  change (2 ^ 32) with 4294967296. split; [apply Z.div_pos; nia|].
  apply Z.div_lt_upper_bound; nia.
Qed.

(** *** Ranges, bit by bit *)

Lemma in_u_bits w x : 0 <= w -> in_u w x <-> 0 <= x /\ forall n, w <= n -> Z.testbit x n = false.
Proof.
  intros Hw. split.
  - intros [H0 H]. split; [done|]. intros n Hn.
    destruct (Z.eq_dec x 0) as [->|]; [apply Z.testbit_0_l|].
    apply Z.bits_above_log2; [done|]. apply Z.log2_lt_pow2 in H; lia.
  - intros [H0 H]. split; [done|].
    destruct (Z.lt_ge_cases x (2 ^ w)) as [|Hge]; [done|exfalso].
    assert (0 < x) by (pose proof (Z.pow_pos_nonneg 2 w); lia).
    pose proof (Z.bit_log2 x ltac:(lia)) as Hb.
    rewrite H in Hb; [done|]. apply Z.log2_le_pow2; lia.
Qed.

Lemma is_u32_bits x : is_u32 x <-> 0 <= x /\ forall n, 32 <= n -> Z.testbit x n = false.
Proof. apply in_u_bits. lia. Qed.

Lemma testbit_u32 x n : Z.testbit (u32 x) n = (n <? 32) && Z.testbit x n.
Proof.
  unfold u32, wrap. destruct (Z.ltb_spec n 32).
  - by rewrite Z.mod_pow2_bits_low.
  - by rewrite Z.mod_pow2_bits_high.
Qed.

Lemma lor_u32 a b : is_u32 a -> is_u32 b -> is_u32 (Z.lor a b).
Proof.
  rewrite !is_u32_bits. intros [? Ha] [? Hb]. split; [by apply Z.lor_nonneg|].
  intros n Hn. by rewrite Z.lor_spec, Ha, Hb.
Qed.

Lemma lxor_u32 a b : is_u32 a -> is_u32 b -> is_u32 (Z.lxor a b).
Proof.
  rewrite !is_u32_bits. intros [? Ha] [? Hb]. split; [by apply Z.lxor_nonneg|].
  intros n Hn. by rewrite Z.lxor_spec, Ha, Hb.
Qed.

Lemma land_u32 a b : is_u32 a -> is_u32 (Z.land a b).
Proof.
  rewrite !is_u32_bits. intros [? Ha]. split; [apply Z.land_nonneg; auto|].
  intros n Hn. by rewrite Z.land_spec, Ha.
Qed.

Lemma shiftr_u32 a k : 0 <= k -> is_u32 a -> is_u32 (Z.shiftr a k).
Proof.
  rewrite !is_u32_bits. intros Hk [? Ha]. split; [by apply Z.shiftr_nonneg|].
  intros n Hn. rewrite Z.shiftr_spec by lia. apply Ha. lia.
Qed.

#[export] Hint Resolve lor_u32 lxor_u32 land_u32 : rvbound.

Lemma u32_bit b : is_u32 (if (b : bool) then 1 else 0).
Proof. apply is_u32_iff. destruct b; lia. Qed.

Lemma alu_result_range o b c a :
  is_u32 b -> is_u32 c -> alu_result o b c = Some a -> is_u32 a.
Proof.
  intros Hb Hc H. pose proof (proj1 (is_u32_iff b) Hb). pose proof (proj1 (is_u32_iff c) Hc).
  assert (0 <= Z.land c 31) by (rewrite land31; apply Z.mod_pos_bound; lia).
  assert (is_u32 u32_MAX) by (by apply is_u32_iff).
  destruct o; cbn [alu_result] in H; simplify_eq; auto using u32_bit, shiftr_u32 with rvbound;
    destruct (Z.eqb_spec c 0); auto with rvbound; apply is_u32_iff.
  - split; [apply Z.div_pos; lia|]. apply Z.div_lt_upper_bound; nia.
  - pose proof (Z.mod_pos_bound b c). lia.
Qed.

(** *** Division *)

(** The quotient and remainder of [get_quotient_and_remainder] are the results
    of the corresponding opcodes. *)
Lemma divrem_results o b c :
  is_u32 b -> is_u32 c ->
  match o with
  | DIV | DIVU => alu_result o b c = Some (get_quotient_and_remainder b c o).1
  | REM | REMU => alu_result o b c = Some (get_quotient_and_remainder b c o).2
  | _ => True
  end.
Proof.
  intros. unfold get_quotient_and_remainder.
  destruct o; cbn [alu_result]; try done; by destruct (c =? 0).
Qed.

Lemma sx_mod x : sx x mod 2 ^ 32 = x mod 2 ^ 32.
Proof.
  unfold sx. destruct (_ <? _); [done|].
  replace (x - 2 ^ 32) with (x + (-1) * 2 ^ 32) by lia. apply Z_mod_plus_full.
Qed.

Lemma sx_u32 x : - 2 ^ 31 <= x < 2 ^ 31 -> sx (u32 x) = x.
Proof.
  intros H. rewrite u32_mod. unfold sx. change (2 ^ 31) with 2147483648 in *.
  change (2 ^ 32) with 4294967296.
  destruct (Z.ltb_spec (x mod 4294967296) 2147483648); Z.div_mod_to_equations; lia.
Qed.

Lemma sx_eq0 c : is_u32 c -> sx c = 0 <-> c = 0.
Proof.
  rewrite is_u32_iff. unfold sx. change (2 ^ 31) with 2147483648. change (2 ^ 32) with 4294967296.
  intros. destruct (Z.ltb_spec c 2147483648); lia.
Qed.

Lemma quot_rem_range x y :
  - 2 ^ 31 <= x < 2 ^ 31 -> - 2 ^ 31 <= y < 2 ^ 31 -> y <> 0 ->
  (- 2 ^ 31 <= Z.quot x y < 2 ^ 31 \/ (x = - 2 ^ 31 /\ y = -1)) /\
  Z.abs (Z.rem x y) < Z.abs y /\ Z.abs (Z.rem x y) <= Z.abs x.
Proof.
  intros Hx Hy Hy0. change (2 ^ 31) with 2147483648 in *.
  pose proof (Z.quot_rem x y Hy0). pose proof (Z.rem_bound_abs x y Hy0).
  pose proof (Z.rem_sign_mul x y Hy0).
  split; [|split; [lia|]].
  - destruct (Z.eq_dec y (-1)) as [->|].
    + change (-1) with (- (1)). rewrite Z.quot_opp_r, Z.quot_1_r by lia. lia.
    + destruct (Z.eq_dec y 1) as [->|]; [rewrite Z.quot_1_r; lia|]. left. nia.
  - rewrite <- Z.rem_abs by done. apply Z.rem_le; lia.
Qed.

Lemma i32_small x : - 2 ^ 31 <= x < 2 ^ 31 -> i32 x = x.
Proof.
  intros H. rewrite <- (sx_u32 x) at 2 by done. rewrite <- i32_sx by auto with rvbound.
  unfold i32, signed, u32. by rewrite (wrap_small 32 (wrap 32 x)) by (apply wrap_range; lia).
Qed.

(** Signed division: the division algorithm with truncation, and the overflow
    case [MIN / -1]. *)
Lemma signed_division b c o :
  is_u32 b -> is_u32 c -> is_signed_operation o = true -> c <> 0 ->
  let '(q, r) := get_quotient_and_remainder b c o in
  is_u32 q /\ is_u32 r /\ Z.abs (sx r) < Z.abs (sx c) /\ Z.abs (sx r) <= Z.abs (sx b) /\
  (sx b = - 2 ^ 31 /\ sx c = -1 /\ q = b /\ r = 0 \/
   sx b = sx c * sx q + sx r /\ 0 <= sx r * sx b).
Proof.
  intros Hb Hc Ho H0. unfold get_quotient_and_remainder. rewrite Ho.
  destruct (Z.eqb_spec c 0); [done|]. rewrite (i32_sx b Hb), (i32_sx c Hc).
  pose proof (sx_range b Hb) as Sb. pose proof (sx_range c Hc) as Sc.
  assert (sx c <> 0) as Hc0 by (by rewrite sx_eq0).
  destruct (quot_rem_range (sx b) (sx c) Sb Sc Hc0) as (Hq & Hr & Hr').
  pose proof (Z.quot_rem (sx b) (sx c) Hc0) as Hqr.
  pose proof (Z.rem_sign_mul (sx b) (sx c) Hc0) as Hs.
  unfold wrapping_div_i32, wrapping_rem_i32.
  assert (- 2 ^ 31 <= Z.rem (sx b) (sx c) < 2 ^ 31) as Hrr by lia.
  rewrite (i32_small _ Hrr), (sx_u32 _ Hrr).
  split_and!; auto with rvbound; try lia.
  destruct Hq as [Hq|[E1 E2]].
  - right. rewrite (i32_small _ Hq), (sx_u32 _ Hq). auto.
  - left. rewrite E1, E2. split_and!; try reflexivity.
    rewrite u32_i32_eq. change (Z.quot (- 2 ^ 31) (-1)) with (2 ^ 31).
    clear -E1 Hb. rewrite is_u32_iff in Hb. revert E1. unfold sx.
    change (2 ^ 31) with 2147483648. change (2 ^ 32) with 4294967296.
    rewrite Z.mod_small by lia. destruct (Z.ltb_spec b 2147483648); lia.
Qed.

Lemma unsigned_division b c o :
  is_u32 b -> is_u32 c -> is_signed_operation o = false -> c <> 0 ->
  let '(q, r) := get_quotient_and_remainder b c o in
  is_u32 q /\ is_u32 r /\ b = c * q + r /\ 0 <= r < c.
Proof.
  rewrite !is_u32_iff. intros Hb Hc Ho H0. unfold get_quotient_and_remainder. rewrite Ho.
  destruct (Z.eqb_spec c 0); [done|].
  pose proof (Z.mod_pos_bound b c). pose proof (Z.div_mod b c).
  assert (0 <= b / c) by (apply Z.div_pos; lia).
  rewrite !is_u32_iff. split_and!; nia.
Qed.

(** The division instructions implement the RISC-V contract: division by zero yields all
    ones and the dividend; otherwise the quotient and remainder satisfy the division identity
    with a remainder smaller than the divisor and, when signed, of the dividend's sign; the
    signed overflow of the smallest integer by -1 yields the dividend and 0. *)
Theorem division_contract o b c q r :
  is_u32 b -> is_u32 c ->
  alu_result (if is_signed_operation o then DIV else DIVU) b c = Some q ->
  alu_result (if is_signed_operation o then REM else REMU) b c = Some r ->
  if c =? 0 then q = 2 ^ 32 - 1 /\ r = b
  else if is_signed_operation o then
    Z.abs (sx r) < Z.abs (sx c) /\
    (sx b = - 2 ^ 31 /\ sx c = -1 /\ q = b /\ r = 0 \/
     sx b = sx c * sx q + sx r /\ 0 <= sx r * sx b)
  else b = c * q + r /\ 0 <= r < c.
Proof.
  intros Hb Hc Eq Er. destruct (is_signed_operation o).
  - rewrite (divrem_results DIV b c Hb Hc) in Eq. rewrite (divrem_results REM b c Hb Hc) in Er.
    pose proof (signed_division b c DIV Hb Hc eq_refl) as H. unfold get_quotient_and_remainder in *.
    cbn [is_signed_operation] in *. destruct (Z.eqb_spec c 0) as [->|Hne].
    + injection Eq as <-. injection Er as <-. done.
    + injection Eq as <-. injection Er as <-. destruct (H Hne) as (_ & _ & H1 & _ & H2). done.
  - rewrite (divrem_results DIVU b c Hb Hc) in Eq. rewrite (divrem_results REMU b c Hb Hc) in Er.
    pose proof (unsigned_division b c DIVU Hb Hc eq_refl) as H. unfold get_quotient_and_remainder in *.
    cbn [is_signed_operation] in *. destruct (Z.eqb_spec c 0) as [->|Hne].
    + injection Eq as <-. injection Er as <-. done.
    + injection Eq as <-. injection Er as <-. destruct (H Hne) as (_ & _ & H1 & H2). done.
Qed.

Lemma division_contract_witness :
  alu_result DIV 0xFFFFFFF9 2 = Some 0xFFFFFFFD /\ Z.abs (sx 0xFFFFFFFF) < Z.abs (sx 2).
Proof.
  split; [reflexivity|].
  exact (proj1 (division_contract DIV 0xFFFFFFF9 2 0xFFFFFFFD 0xFFFFFFFF
    ltac:(apply is_u32_iff; lia) ltac:(apply is_u32_iff; lia) eq_refl eq_refl)).
Defined.

(** *** Byte view of words *)

Lemma byte_at_bits w i n : 0 <= i -> 0 <= n ->
  Z.testbit (byte_at w i) n = (n <? 8) && Z.testbit w (8 * i + n).
Proof.
  intros. unfold byte_at. change 256 with (2 ^ 8). rewrite <- Z.shiftr_div_pow2 by lia.
  destruct (Z.ltb_spec n 8).
  - rewrite Z.mod_pow2_bits_low, Z.shiftr_spec by lia. cbn [andb]. f_equal. lia.
  - by rewrite Z.mod_pow2_bits_high by lia.
Qed.

Lemma byte_at_range w i : 0 <= byte_at w i < 256.
Proof. apply Z.mod_pos_bound. lia. Qed.

(** Insertion of the low [len] bits of [a] at bit [sh] of [w]: the expression
    of [SB] and [SH]. *)
Definition insert_bits (len sh a w : Z) : Z :=
  Z.lor (u32 (Z.shiftl (Z.land a (Z.ones len)) sh))
        (Z.land w (not32 (u32 (Z.shiftl (Z.ones len) sh)))).

Lemma insert_bits_spec len sh a w n :
  0 <= sh -> 0 <= len -> sh + len <= 32 -> 0 <= n -> is_u32 w ->
  Z.testbit (insert_bits len sh a w) n =
  if (sh <=? n) && (n <? sh + len) then Z.testbit a (n - sh) else Z.testbit w n.
Proof.
  intros Hsh Hlen Hs Hn Hw. unfold insert_bits, not32.
  rewrite Z.lor_spec, Z.land_spec, !testbit_u32, Z.lnot_spec, testbit_u32 by lia.
  rewrite !Z.shiftl_spec by lia. rewrite Z.land_spec.
  apply is_u32_bits in Hw as [_ Hw].
  destruct (Z.leb_spec sh n).
  - rewrite Z.testbit_ones by lia. rewrite (proj2 (Z.leb_le 0 (n - sh))) by lia. cbn [andb].
    destruct (Z.ltb_spec n (sh + len)).
    + rewrite (proj2 (Z.ltb_lt (n - sh) len)), (proj2 (Z.ltb_lt n 32)) by lia.
      cbn. rewrite !andb_true_r. by rewrite andb_false_r, orb_false_r.
    + rewrite (proj2 (Z.ltb_ge (n - sh) len)) by lia. rewrite !andb_false_r. cbn.
      rewrite andb_true_r. destruct (Z.ltb_spec n 32); [apply andb_true_r|].
      rewrite Hw by lia. done.
  - rewrite !Z.testbit_neg_r by lia. rewrite !andb_false_r. cbn.
    rewrite andb_true_r, (proj2 (Z.ltb_lt n 32)) by lia. by rewrite andb_true_r.
Qed.

Lemma insert_bits_range len sh a w : is_u32 w -> is_u32 (insert_bits len sh a w).
Proof. intros. unfold insert_bits. auto with rvbound. Qed.

Lemma insert_bits_byte len sh a w i :
  (8 | len) -> (8 | sh) -> 0 <= sh -> 0 <= len -> sh + len <= 32 -> 0 <= i -> is_u32 w ->
  byte_at (insert_bits len sh a w) i =
  if (sh <=? 8 * i) && (8 * i <? sh + len) then byte_at a (i - sh / 8) else byte_at w i.
Proof.
  intros [l ->] [s ->] ? ? ? Hi Hw. apply Z.bits_inj'. intros n Hn.
  rewrite byte_at_bits, insert_bits_spec by (lia || done). rewrite Z.div_mul by lia.
  destruct (Z.ltb_spec n 8); cbn [andb].
  - destruct (Z.leb_spec (s * 8) (8 * i)), (Z.ltb_spec (8 * i) (s * 8 + l * 8)),
      (Z.leb_spec (s * 8) (8 * i + n)), (Z.ltb_spec (8 * i + n) (s * 8 + l * 8)); cbn [andb]; try lia;
      rewrite byte_at_bits by lia; rewrite (proj2 (Z.ltb_lt n 8)) by lia; cbn [andb]; f_equal; lia.
  - destruct ((s * 8 <=? 8 * i) && (8 * i <? s * 8 + l * 8)) eqn:E.
    + apply andb_true_iff in E as [?%Z.leb_le ?]. rewrite byte_at_bits by lia.
      by rewrite (proj2 (Z.ltb_ge n 8)) by lia.
    + rewrite byte_at_bits by lia. by rewrite (proj2 (Z.ltb_ge n 8)) by lia.
Qed.

(** *** Loads and stores *)

(** Bytes an instruction accesses; also its alignment. *)
Definition access_width (o : Opcode) : Z :=
  match o with LH | LHU | SH => 2 | LW | SW => 4 | _ => 1 end.

(** What a load of opcode [o] at offset [k] of the word [w] returns. *)
Definition load_spec (o : Opcode) (w k : Z) : Z :=
  match o with
  | LB => sext 8 (byte_at w k)
  | LBU => byte_at w k
  | LH => sext 16 (half_at w k)
  | LHU => half_at w k
  | _ => w
  end.

Lemma half_at_eq w k : 0 <= k -> half_at w k = (w / 2 ^ (8 * k)) mod 65536.
Proof.
  intros Hk. unfold half_at, byte_at. rewrite Z.mul_add_distr_l, Z.pow_add_r by lia.
  rewrite <- Z.div_div by (try apply Z.pow_nonzero; lia). change (2 ^ (8 * 1)) with 256.
  set (x := w / 2 ^ (8 * k)). Z.div_mod_to_equations. lia.
Qed.

Lemma u32_signed_sext n x : 0 < n <= 32 -> in_u n x -> u32 (signed n x) = sext n x.
Proof.
  intros Hn Hx. unfold signed, sext. rewrite (wrap_small n x Hx).
  assert (2 ^ n <= 2 ^ 32) by (apply Z.pow_le_mono_r; lia).
  assert (2 ^ (n - 1) < 2 ^ n) by (apply Z.pow_lt_mono_r; lia).
  unfold in_u in Hx. destruct (Z.ltb_spec x (2 ^ (n - 1))) as [|Hge].
  - apply u32_small. split; lia.
  - unfold u32, wrap. symmetry. apply Z.mod_unique with (-1); lia.
Qed.

Lemma offset2 addr : addr mod 2 = 0 -> (addr / 2) mod 2 * 16 = 8 * (addr mod 4).
Proof. intros. Z.div_mod_to_equations. lia. Qed.

(** A load fails exactly on a misaligned address, and otherwise returns the
    addressed bytes, extended. *)
Lemma load_value_spec o addr w :
  is_u32 w -> is_memory_load_instruction (mkInstruction o 0 0 0 false false) = true ->
  load_value o addr w =
  Some (if addr mod access_width o =? 0 then Some (load_spec o w (addr mod 4)) else None).
Proof.
  intros Hw Ho. pose proof (Z.mod_pos_bound addr 4 ltac:(lia)) as Hk.
  assert (Z.shiftr w (addr mod 4 * 8) mod 256 = byte_at w (addr mod 4)) as Eb.
  { unfold byte_at. rewrite Z.shiftr_div_pow2 by lia. by rewrite Z.mul_comm. }
  assert (addr mod 2 = 0 ->
    Z.shiftr w ((addr / 2) mod 2 * 16) mod 65536 = half_at w (addr mod 4)) as Eh.
  { intros E. rewrite (offset2 addr E), half_at_eq, Z.shiftr_div_pow2 by lia. done. }
  destruct o; try discriminate Ho; cbn [load_value load_spec access_width];
    rewrite ?land_ff, ?land_ffff, ?Z.mod_1_r, ?Eb; try reflexivity.
  - cbn. do 2 f_equal. apply (u32_signed_sext 8); [lia|]. apply byte_at_range.
  - destruct (Z.eqb_spec (addr mod 2) 0) as [E|]; cbn [negb]; [|done]. rewrite Eh by done.
    do 2 f_equal. apply (u32_signed_sext 16); [lia|].
    rewrite half_at_eq by lia. apply Z.mod_pos_bound. lia.
  - by destruct (addr mod 4 =? 0).
  - destruct (Z.eqb_spec (addr mod 2) 0) as [E|]; cbn [negb]; [|done]. by rewrite Eh.
Qed.

Lemma store_value_insert o addr a w v :
  is_u32 a -> is_u32 w -> store_value o addr a w = Some (Some v) ->
  addr mod access_width o = 0 /\
  (v = insert_bits (8 * access_width o) (8 * (addr mod 4)) a w /\ access_width o < 4 /\
   addr mod 4 + access_width o <= 4 \/ o = SW /\ v = a).
Proof.
  intros Ha Hw. pose proof (Z.mod_pos_bound addr 4 ltac:(lia)).
  destruct o; cbn [store_value access_width]; try discriminate.
  - intros [= <-]. rewrite Z.mod_1_r. split; [done|]. left.
    rewrite (Z.mul_comm (addr mod 4)). split_and!; [done|lia|lia].
  - destruct (Z.eqb_spec (addr mod 2) 0) as [E|]; cbn [negb]; [|done]. intros [= <-].
    rewrite (offset2 addr E). split; [done|]. left. split_and!; [done|lia|].
    Z.div_mod_to_equations. lia.
  - destruct (Z.eqb_spec (addr mod 4) 0) as [E|]; cbn [negb]; [|done]. intros [= <-]. auto.
Qed.

(** A store replaces exactly the addressed bytes of the word. *)
Lemma store_value_bytes o addr a w v i :
  is_u32 a -> is_u32 w -> 0 <= i < 4 -> store_value o addr a w = Some (Some v) ->
  is_u32 v /\
  byte_at v i =
  if (addr mod 4 <=? i) && (i <? addr mod 4 + access_width o)
  then byte_at a (i - addr mod 4) else byte_at w i.
Proof.
  intros Ha Hw Hi H. pose proof (Z.mod_pos_bound addr 4 ltac:(lia)) as Hk.
  destruct (store_value_insert o addr a w v Ha Hw H) as [Hal [(-> & Hw4 & Hk4)|[-> ->]]].
  - split; [by apply insert_bits_range|].
    assert (0 <= access_width o) by (destruct o; cbn; lia).
    rewrite insert_bits_byte by (lia || done || apply Z.divide_factor_l).
    rewrite (Z.mul_comm 8 (addr mod 4)), Z.div_mul by lia.
    replace (addr mod 4 * 8 <=? 8 * i) with (addr mod 4 <=? i)
      by (apply eq_true_iff_eq; rewrite !Z.leb_le; lia).
    replace (8 * i <? addr mod 4 * 8 + 8 * access_width o) with (i <? addr mod 4 + access_width o)
      by (apply eq_true_iff_eq; rewrite !Z.ltb_lt; lia). done.
  - split; [done|]. cbn [access_width] in *. rewrite Hal.
    rewrite (proj2 (Z.leb_le 0 i)), (proj2 (Z.ltb_lt i (0 + 4))) by lia. cbn [andb]. f_equal. lia.
Qed.

(** The load that reads back what a store of the same width wrote. *)
Definition load_of_store (o : Opcode) (signed : bool) : Opcode :=
  match o with
  | SB => if signed then LB else LBU
  | SH => if signed then LH else LHU
  | _ => LW
  end.

Definition stored_part (o : Opcode) (a : Z) : Z := a mod 2 ^ (8 * access_width o).

Lemma byte_at_0 a : byte_at a 0 = a mod 256.
Proof. unfold byte_at. change (2 ^ (8 * 0)) with 1. by rewrite Z.div_1_r. Qed.

Lemma half_at_0 a : half_at a 0 = a mod 65536.
Proof. rewrite half_at_eq by lia. change (2 ^ (8 * 0)) with 1. by rewrite Z.div_1_r. Qed.

(** C32. A store followed by the matching load at the same address returns the stored bytes,
    sign- or zero-extended as the load says, for every alignment the handlers accept. *)
Theorem store_load o sgn addr a w v :
  is_u32 a -> is_u32 w -> store_value o addr a w = Some (Some v) ->
  load_value (load_of_store o sgn) addr v =
  Some (Some (if sgn then sext (8 * access_width o) (stored_part o a) else stored_part o a)).
Proof.
  intros Ha Hw H. pose proof (Z.mod_pos_bound addr 4 ltac:(lia)) as Hk.
  destruct (store_value_insert o addr a w v Ha Hw H) as [Hal Hcase].
  assert (is_u32 v) as Hv by (apply (store_value_bytes o addr a w v 0); done || lia).
  assert (forall i, 0 <= i < 4 -> addr mod 4 <= i < addr mod 4 + access_width o ->
    byte_at v i = byte_at a (i - addr mod 4)) as Hbyte.
  { intros i Hi Hr. destruct (store_value_bytes o addr a w v i) as [_ ->]; try done.
    by rewrite (proj2 (Z.leb_le _ i)), (proj2 (Z.ltb_lt i _)) by lia. }
  unfold stored_part. destruct o; try discriminate H;
    cbn [load_of_store access_width] in *.
  - assert (byte_at v (addr mod 4) = a mod 256) as E.
    { rewrite Hbyte by lia. rewrite Z.sub_diag. apply byte_at_0. }
    destruct sgn; rewrite load_value_spec by done; cbn [access_width load_spec];
      rewrite Z.mod_1_r, E; reflexivity.
  - assert (half_at v (addr mod 4) = a mod 65536) as E.
    { rewrite <- half_at_0. unfold half_at.
      rewrite !Hbyte by (Z.div_mod_to_equations; lia). do 2 f_equal; [lia|]. f_equal. lia. }
    destruct sgn; rewrite load_value_spec by done; cbn [access_width load_spec];
      rewrite Hal, E; reflexivity.
  - destruct Hcase as [(_ & Hw4 & _)|[_ ->]]; [lia|]. rewrite load_value_spec by done.
    cbn [access_width load_spec]. rewrite Hal. cbn [Z.eqb]. do 2 f_equal.
    change (2 ^ (8 * 4)) with 4294967296. change (8 * 4) with 32.
    rewrite is_u32_iff in Ha. rewrite Z.mod_small by lia. unfold sext.
    rewrite Z.sub_diag, Z.add_0_l. destruct sgn; [by destruct (_ <? _) | done].
Qed.

Lemma store_load_witness :
  store_value SB 4098 0xABCDEF80 0x11223344 = Some (Some 0x11803344) /\
  load_value LB 4098 0x11803344 = Some (Some 0xFFFFFF80).
Proof.
  split; [reflexivity|].
  exact (store_load SB true 4098 0xABCDEF80 0x11223344 0x11803344
    ltac:(apply is_u32_iff; lia) ltac:(apply is_u32_iff; lia) eq_refl).
Defined.

(** Branch decisions in terms of the comparison opcodes. *)
Lemma branch_taken_spec o a b :
  is_u32 a -> is_u32 b ->
  branch_taken o a b =
  match o with
  | BEQ => Some (bool_decide (a = b))
  | BNE => Some (bool_decide (a <> b))
  | BLT => Some (bool_decide (sx a < sx b))
  | BGE => Some (bool_decide (sx b <= sx a))
  | BLTU => Some (bool_decide (a < b))
  | BGEU => Some (bool_decide (b <= a))
  | _ => None
  end.
Proof.
  intros Ha Hb. destruct o; try reflexivity; cbn [branch_taken]; f_equal;
    rewrite ?i32_sx by done; apply eq_true_iff_eq;
    rewrite bool_decide_eq_true, ?negb_true_iff, ?Z.eqb_eq, ?Z.eqb_neq, ?Z.ltb_lt, ?Z.leb_le; done.
Qed.
