(* ===== verification/Dependencies.v ===== *)
(** * Derived ALU events (crates/core/executor/src/dependencies.rs)

    Some chips delegate arithmetic facts to the ALU tables: an instruction
    event then emits further ALU events.  Each function updates the executor's
    record as in the source ([None] is [unreachable!()]).  The theorems show
    that every emitted event is a true fact of the ALU semantics, so the table
    that receives it can prove it, and that the emitted facts determine what the
    instruction relies on. *)

From Stdlib Require Import ZArith Lia Bool.
From stdpp Require Import base list.
From S2P Require Import Prelude Isa Events Alu Record.

Local Open Scope Z_scope.
Local Open Scope rv_scope.

Definition UNUSED_PC : Z := 1.

Definition dep_event (o : Opcode) (a b c : Z) : AluEvent := mkAluEvent UNUSED_PC o a b c false.

(** ** Operations *)

Definition emit_divrem_dependencies (event : AluEvent) (r : ExecutionRecord) : ExecutionRecord :=
  let b := alu_b event in
  let c := alu_c event in
  let '(quotient, remainder) := get_quotient_and_remainder b c (alu_opcode event) in
  let sgn := is_signed_operation (alu_opcode event) in
  let c_neg := if sgn then get_msb c else 0 in
  let rem_neg := if sgn then get_msb remainder else 0 in
  let r := if c_neg =? 1
           then upd_add_events (push (dep_event ADD 0 c (unsigned_abs (i32 c)))) r else r in
  let r := if rem_neg =? 1
           then upd_add_events (push (dep_event ADD 0 remainder (unsigned_abs (i32 remainder)))) r
           else r in
  let c_times_quotient := u64 (if sgn then i32 quotient * i32 c else quotient * c) in
  let lower_word := u32 c_times_quotient in
  let upper_word := u32 (Z.shiftr c_times_quotient 32) in
  let r := upd_mul_events (push (dep_event MUL lower_word quotient c)) r in
  let r := upd_mul_events
             (push (dep_event (if sgn then MULH else MULHU) upper_word quotient c)) r in
  let lt_event :=
    if sgn then dep_event SLTU 1 (unsigned_abs (i32 remainder)) (Z.max 1 (unsigned_abs (i32 c)))
    else dep_event SLTU 1 remainder (Z.max 1 c) in
  if negb (c =? 0) then upd_lt_events (push lt_event) r else r.

(** The sign bit [LB]/[LH] look at: the value read, its most significant byte
    and the amount subtracted when it is negative. *)
Definition sub_word (event : MemInstrEvent) (addr_offset mem_value : Z) : option (Z * Z * Z) :=
  match mi_opcode event with
  | LB =>
      most_sig ← to_le_bytes32 mem_value !! Z.to_nat addr_offset;
      Some (most_sig, most_sig, 256)
  | LH =>
      let unsigned_mem_val :=
        if (Z.shiftr addr_offset 1) mod 2 =? 0 then Z.land mem_value 0x0000FFFF
        else Z.shiftr (Z.land mem_value 0xFFFF0000) 16 in
      most_sig ← to_le_bytes32 unsigned_mem_val !! 1%nat;
      Some (unsigned_mem_val, most_sig, 65536)
  | _ => None
  end.

Definition emit_memory_dependencies (event : MemInstrEvent) (memory_record : MemoryRecord)
    (r : ExecutionRecord) : ExecutionRecord :=
  let memory_addr := mi_b event +u mi_c event in
  let r := upd_add_events (push (dep_event ADD memory_addr (mi_b event) (mi_c event))) r in
  match sub_word event (memory_addr mod 4) (rec_value memory_record) with
  | Some (unsigned_mem_val, most_sig_mem_value_byte, sign_value) =>
      if Z.land (Z.shiftr most_sig_mem_value_byte 7) 0x01 =? 1
      then upd_add_events (push (dep_event SUB (mi_a event) unsigned_mem_val sign_value)) r
      else r
  | None => r
  end.

Definition emit_branch_dependencies (event : BranchEvent) (r : ExecutionRecord)
    : option ExecutionRecord :=
  let a := br_a event in
  let b := br_b event in
  let a_eq_b := a =? b in
  let use_signed_comparison :=
    match br_opcode event with BLT | BGE => true | _ => false end in
  let a_lt_b := if use_signed_comparison then i32 a <? i32 b else a <? b in
  let a_gt_b := if use_signed_comparison then i32 b <? i32 a else b <? a in
  let alu_op_code := if use_signed_comparison then SLT else SLTU in
  let r := upd_lt_events (push (dep_event alu_op_code (Z.b2z a_lt_b) a b)) r in
  let r := upd_lt_events (push (dep_event alu_op_code (Z.b2z a_gt_b) b a)) r in
  branching ← match br_opcode event with
              | BEQ => Some a_eq_b
              | BNE => Some (negb a_eq_b)
              | BLT | BLTU => Some a_lt_b
              | BGE | BGEU => Some (a_eq_b || a_gt_b)
              | _ => None
              end;
  Some (if (branching : bool)
        then upd_add_events
               (push (dep_event ADD (br_pc event +u br_c event) (br_pc event) (br_c event))) r
        else r).

Definition emit_jump_dependencies (event : JumpEvent) (r : ExecutionRecord)
    : option ExecutionRecord :=
  match jp_opcode event with
  | JAL =>
      Some (upd_add_events
        (push (dep_event ADD (jp_pc event +u jp_b event) (jp_pc event) (jp_b event))) r)
  | JALR =>
      Some (upd_add_events
        (push (dep_event ADD (jp_b event +u jp_c event) (jp_b event) (jp_c event))) r)
  | _ => None
  end.

Definition emit_auipc_dependency (event : AUIPCEvent) (r : ExecutionRecord) : ExecutionRecord :=
  upd_add_events (push (dep_event ADD (au_a event) (au_pc event) (au_b event))) r.

(** ** Correctness of the emitted events *)

(** An ALU event is true when its operands are words and [a] is the result of
    the opcode (0 when the destination is [x0]). *)
Definition alu_event_ok (e : AluEvent) : Prop :=
  is_u32 (alu_b e) /\ is_u32 (alu_c e) /\
  if alu_op_a_0 e then alu_a e = 0
  else alu_result (alu_opcode e) (alu_b e) (alu_c e) = Some (alu_a e).

(** All ALU tables of a record. *)
Definition alu_tables (r : ExecutionRecord) : list AluEvent :=
  add_events r ++ mul_events r ++ sub_events r ++ bitwise_events r ++ shift_left_events r ++
  shift_right_events r ++ divrem_events r ++ lt_events r.

Definition alu_tables_ok (r : ExecutionRecord) : Prop := Forall alu_event_ok (alu_tables r).

Lemma alu_tables_ok_iff r :
  alu_tables_ok r <->
  Forall alu_event_ok (add_events r) /\ Forall alu_event_ok (mul_events r) /\
  Forall alu_event_ok (sub_events r) /\ Forall alu_event_ok (bitwise_events r) /\
  Forall alu_event_ok (shift_left_events r) /\ Forall alu_event_ok (shift_right_events r) /\
  Forall alu_event_ok (divrem_events r) /\ Forall alu_event_ok (lt_events r).
Proof. unfold alu_tables_ok, alu_tables. rewrite !Forall_app. tauto. Qed.

Lemma Forall_push {A} (P : A -> Prop) x l : Forall P l -> P x -> Forall P (push x l).
Proof. intros. unfold push. apply Forall_app. auto. Qed.

Ltac solve_push := rewrite alu_tables_ok_iff in *; cbn; intuition auto using Forall_push.

(** Pushing a true event onto any table keeps the tables true. *)
Section Pushes.
  Context (e : AluEvent) (r : ExecutionRecord) (Hr : alu_tables_ok r) (He : alu_event_ok e).

Lemma ok_push_add : alu_tables_ok (upd_add_events (push e) r).
Proof. solve_push. Qed.
Lemma ok_push_mul : alu_tables_ok (upd_mul_events (push e) r).
Proof. solve_push. Qed.
Lemma ok_push_sub : alu_tables_ok (upd_sub_events (push e) r).
Proof. solve_push. Qed.
Lemma ok_push_bitwise : alu_tables_ok (upd_bitwise_events (push e) r).
Proof. solve_push. Qed.
Lemma ok_push_sll : alu_tables_ok (upd_shift_left_events (push e) r).
Proof. solve_push. Qed.
Lemma ok_push_sr : alu_tables_ok (upd_shift_right_events (push e) r).
Proof. solve_push. Qed.
Lemma ok_push_divrem : alu_tables_ok (upd_divrem_events (push e) r).
Proof. solve_push. Qed.
Lemma ok_push_lt : alu_tables_ok (upd_lt_events (push e) r).
Proof. solve_push. Qed.
End Pushes.

Create HintDb tables.
#[export] Hint Resolve ok_push_add ok_push_mul ok_push_sub ok_push_bitwise ok_push_sll ok_push_sr
  ok_push_divrem ok_push_lt : tables.

Lemma dep_event_ok o a b c :
  is_u32 b -> is_u32 c -> alu_result o b c = Some a -> alu_event_ok (dep_event o a b c).
Proof. intros. split_and!; done. Qed.

Lemma add_dep_ok b c : is_u32 b -> is_u32 c -> alu_event_ok (dep_event ADD (b +u c) b c).
Proof. intros. by apply dep_event_ok. Qed.

#[export] Hint Resolve add_dep_ok : tables.

Lemma get_msb_sx x : is_u32 x -> get_msb x = 1 <-> sx x < 0.
Proof.
  intros H. unfold get_msb, sx. rewrite (Z.land_ones _ 1), Z.shiftr_div_pow2 by lia.
  change (2 ^ 31) with 2147483648. change (2 ^ 1) with 2. change (2 ^ 32) with 4294967296.
  rewrite is_u32_iff in H. destruct (Z.ltb_spec x 2147483648); Z.div_mod_to_equations; lia.
Qed.

(** The absolute value of a negative word is its additive inverse. *)
Lemma neg_abs_ok x : is_u32 x -> sx x < 0 -> alu_event_ok (dep_event ADD 0 x (unsigned_abs (i32 x))).
Proof.
  intros Hx Hneg. rewrite (i32_sx x Hx). unfold unsigned_abs.
  pose proof (sx_range x Hx). rewrite is_u32_iff in Hx.
  apply dep_event_ok; try (apply is_u32_iff; lia).
  cbn [alu_result]. f_equal. unfold wadd. rewrite u32_mod. revert Hneg. unfold sx.
  change (2 ^ 31) with 2147483648. change (2 ^ 32) with 4294967296.
  destruct (Z.ltb_spec x 2147483648); intros; [lia|].
  replace (x + Z.abs (x - 4294967296)) with (1 * 4294967296) by lia. reflexivity.
Qed.

(** The two words of the 64-bit product are [MUL] and [MULH]/[MULHU]. *)
Lemma product_lower q c (sgn : bool) : is_u32 q -> is_u32 c ->
  u32 (u64 (if sgn then i32 q * i32 c else q * c)) = q *u c.
Proof.
  intros Hq Hc. unfold wmul, u32, u64, wrap. change (2 ^ 64) with (2 ^ 32 * 2 ^ 32).
  rewrite Z.mod_mod_divide by (apply Z.divide_factor_l). destruct sgn; [|done].
  unfold i32. by rewrite Z.mul_mod, (signed_mod 32 q), (signed_mod 32 c), <- Z.mul_mod by lia.
Qed.

Lemma u32_shiftr_u64 x : - 2 ^ 63 <= x < 2 ^ 64 -> u32 (Z.shiftr (u64 x) 32) = u32 (Z.shiftr x 32).
Proof.
  intros H. unfold u32, u64, wrap. rewrite !Z.shiftr_div_pow2 by lia.
  change (2 ^ 64) with (2 ^ 32 * 2 ^ 32). rewrite Z.rem_mul_r by lia.
  rewrite (Z.mul_comm (2 ^ 32) ((x / 2 ^ 32) mod 2 ^ 32)), Z.div_add by lia.
  rewrite (Z.div_small (x mod 2 ^ 32)) by (apply Z.mod_pos_bound; lia).
  rewrite Z.add_0_l. apply Z.mod_mod. lia.
Qed.

Lemma product_upper q c (sgn : bool) : is_u32 q -> is_u32 c ->
  alu_result (if sgn then MULH else MULHU) q c =
  Some (u32 (Z.shiftr (u64 (if sgn then i32 q * i32 c else q * c)) 32)).
Proof.
  intros Hq Hc. destruct sgn; cbn [alu_result]; [|done]. f_equal.
  rewrite (i32_sx q Hq), (i32_sx c Hc).
  pose proof (sx_range q Hq). pose proof (sx_range c Hc).
  assert (- 2 ^ 63 <= sx q * sx c < 2 ^ 63) by (apply mul_i32_range; lia).
  rewrite i64_small, u32_shiftr_u64 by lia. done.
Qed.

Lemma u32_MAX_u32 : is_u32 u32_MAX.
Proof. by apply is_u32_iff. Qed.

Lemma quotient_remainder_u32 b c o :
  is_u32 b -> is_u32 c ->
  is_u32 (get_quotient_and_remainder b c o).1 /\ is_u32 (get_quotient_and_remainder b c o).2.
Proof.
  intros Hb Hc. destruct (Z.eq_dec c 0) as [->|H0].
  - split; [apply u32_MAX_u32 | done].
  - destruct (is_signed_operation o) eqn:Ho.
    + pose proof (signed_division b c o Hb Hc Ho H0) as H.
      destruct (get_quotient_and_remainder b c o). tauto.
    + pose proof (unsigned_division b c o Hb Hc Ho H0) as H.
      destruct (get_quotient_and_remainder b c o). tauto.
Qed.

(** The remainder comparison: [|r| < max(1, |c|)], signed or unsigned. *)
Lemma remainder_lt_ok b c o :
  is_u32 b -> is_u32 c -> c <> 0 ->
  let r := (get_quotient_and_remainder b c o).2 in
  alu_event_ok
    (if is_signed_operation o
     then dep_event SLTU 1 (unsigned_abs (i32 r)) (Z.max 1 (unsigned_abs (i32 c)))
     else dep_event SLTU 1 r (Z.max 1 c)).
Proof.
  intros Hb Hc H0. cbv zeta. pose proof (proj2 (quotient_remainder_u32 b c o Hb Hc)) as Hr.
  destruct (is_signed_operation o) eqn:Ho.
  - pose proof (signed_division b c o Hb Hc Ho H0) as H.
    destruct (get_quotient_and_remainder b c o) as [q r]. cbn [snd] in *.
    rewrite (i32_sx r Hr), (i32_sx c Hc). unfold unsigned_abs.
    pose proof (sx_range r Hr). pose proof (sx_range c Hc).
    apply dep_event_ok; [apply is_u32_iff; lia..|]. cbn [alu_result].
    by rewrite (proj2 (Z.ltb_lt _ _)) by lia.
  - pose proof (unsigned_division b c o Hb Hc Ho H0) as H.
    destruct (get_quotient_and_remainder b c o) as [q r]. cbn [snd] in *.
    rewrite is_u32_iff in Hc. apply dep_event_ok; [done | apply is_u32_iff; lia |].
    cbn [alu_result]. by rewrite (proj2 (Z.ltb_lt _ _)) by lia.
Qed.

Lemma emit_divrem_ok e r :
  is_u32 (alu_b e) -> is_u32 (alu_c e) -> alu_tables_ok r ->
  alu_tables_ok (emit_divrem_dependencies e r).
Proof.
  intros Hb Hc Hr. unfold emit_divrem_dependencies.
  pose proof (quotient_remainder_u32 _ _ (alu_opcode e) Hb Hc) as [Hq Hrem].
  pose proof (remainder_lt_ok _ _ (alu_opcode e) Hb Hc) as Hlt. cbv zeta in Hlt.
  destruct (get_quotient_and_remainder _ _ _) as [q m]. cbn [fst snd] in *.
  set (sgn := is_signed_operation (alu_opcode e)) in *.
  assert (forall x, is_u32 x -> (if sgn then get_msb x else 0) = 1 -> sx x < 0) as Hmsb.
  { intros x Hx. destruct sgn; [by apply get_msb_sx | done]. }
  assert (alu_event_ok (dep_event MUL
    (u32 (u64 (if sgn then i32 q * i32 (alu_c e) else q * alu_c e))) q (alu_c e))) as Hlow.
  { rewrite product_lower by done. by apply dep_event_ok. }
  pose proof (product_upper q (alu_c e) sgn Hq Hc) as Hup.
  apply dep_event_ok in Hup; [|done..].
  assert (forall x r, is_u32 x -> alu_tables_ok r -> alu_tables_ok
    (if (if sgn then get_msb x else 0) =? 1
     then upd_add_events (push (dep_event ADD 0 x (unsigned_abs (i32 x)))) r else r)) as Hneg.
  { intros x r' Hx Hr'. destruct (Z.eqb_spec (if sgn then get_msb x else 0) 1); [|done].
    apply ok_push_add; [done|]. by apply neg_abs_ok, Hmsb. }
  destruct (Z.eqb_spec (alu_c e) 0); cbn [negb]; auto 10 with tables.
Qed.

(** Both comparisons of a branch, and its target when taken. *)
Lemma emit_branch_ok e r r' :
  is_u32 (br_a e) -> is_u32 (br_b e) -> is_u32 (br_c e) -> is_u32 (br_pc e) ->
  alu_tables_ok r -> emit_branch_dependencies e r = Some r' -> alu_tables_ok r'.
Proof.
  intros Ha Hb Hc Hpc Hr. unfold emit_branch_dependencies.
  set (us := match br_opcode e with BLT | BGE => true | _ => false end).
  assert (forall x y, is_u32 x -> is_u32 y -> alu_event_ok
    (dep_event (if us then SLT else SLTU)
       (Z.b2z (if us then i32 x <? i32 y else x <? y)) x y)) as Hlt.
  { intros x y Hx Hy. apply dep_event_ok; [done..|]. destruct us; cbn [alu_result];
      by destruct (_ <? _). }
  intros H. apply bind_Some in H as (br & _ & [= <-]). destruct br; auto 10 with tables.
Qed.

Lemma emit_jump_ok e r r' :
  is_u32 (jp_pc e) -> is_u32 (jp_b e) -> is_u32 (jp_c e) -> alu_tables_ok r ->
  emit_jump_dependencies e r = Some r' -> alu_tables_ok r'.
Proof.
  intros ? ? ? ? H. unfold emit_jump_dependencies in H.
  destruct (jp_opcode e); simplify_eq; auto with tables.
Qed.

Lemma le_bytes_byte_at w k : is_u32 w -> 0 <= k < 4 ->
  to_le_bytes32 w !! Z.to_nat k = Some (byte_at w k).
Proof.
  intros Hw Hk. assert (k = 0 \/ k = 1 \/ k = 2 \/ k = 3) as [->|[->|[->| ->]]] by lia;
    unfold to_le_bytes32, byte_at; cbn -[Z.shiftr u8]; f_equal; unfold u8, wrap;
    rewrite ?Z.shiftr_div_pow2 by lia; try reflexivity. by rewrite Z.div_1_r.
Qed.

Lemma msb_byte x : 0 <= x < 256 -> Z.land (Z.shiftr x 7) 1 = 1 <-> 128 <= x.
Proof.
  intros H. rewrite (Z.land_ones _ 1), Z.shiftr_div_pow2 by lia.
  change (2 ^ 7) with 128. change (2 ^ 1) with 2. Z.div_mod_to_equations. lia.
Qed.

Lemma half_select w k : is_u32 w -> k mod 2 = 0 -> 0 <= k < 4 ->
  (if (Z.shiftr k 1) mod 2 =? 0 then Z.land w 0x0000FFFF
   else Z.shiftr (Z.land w 0xFFFF0000) 16) = half_at w k.
Proof.
  intros Hw He Hk. rewrite half_at_eq by lia.
  assert (k = 0 \/ k = 2) as [->| ->] by (Z.div_mod_to_equations; lia).
  - change ((Z.shiftr 0 1) mod 2 =? 0) with true. cbn [Z.mul]. change (2 ^ 0) with 1.
    rewrite Z.div_1_r. apply land_ffff.
  - change ((Z.shiftr 2 1) mod 2 =? 0) with false. cbv iota.
    rewrite Z.shiftr_land. change (Z.shiftr 0xFFFF0000 16) with 0xFFFF.
    rewrite land_ffff, Z.shiftr_div_pow2 by lia. reflexivity.
Qed.

(** When the sign bit is set, the sign-extended value is the unsigned one minus
    [2^8] or [2^16]. *)
Lemma sub_word_ok e w v ms sv a :
  is_u32 w ->
  sub_word e ((mi_b e +u mi_c e) mod 4) w = Some (v, ms, sv) ->
  load_value (mi_opcode e) (mi_b e +u mi_c e) w = Some (Some a) ->
  Z.land (Z.shiftr ms 7) 0x01 = 1 -> is_u32 v /\ is_u32 sv /\ alu_result SUB v sv = Some a.
Proof.
  intros Hw Hs Hl Hms. set (addr := mi_b e +u mi_c e) in *.
  pose proof (Z.mod_pos_bound addr 4 ltac:(lia)) as Hk.
  assert (is_memory_load_instruction (mkInstruction (mi_opcode e) 0 0 0 false false) = true)
    as Hload by (by destruct (mi_opcode e)).
  rewrite load_value_spec in Hl by done.
  unfold sub_word in Hs. destruct (mi_opcode e); try discriminate Hs;
    cbn [access_width load_spec] in Hl.
  - rewrite Z.mod_1_r in Hl. cbn [Z.eqb] in Hl. rewrite le_bytes_byte_at in Hs by done.
    cbn in Hs. injection Hs as <- <- <-. injection Hl as <-.
    pose proof (byte_at_range w (addr mod 4)) as Hr. rewrite (msb_byte _ Hr) in Hms.
    rewrite !is_u32_iff. split_and!; try lia. unfold sext. change (2 ^ (8 - 1)) with 128.
    rewrite (proj2 (Z.ltb_ge _ 128)) by lia. cbn [alu_result]. f_equal. unfold wsub. rewrite u32_mod.
    symmetry. apply Z.mod_unique with (-1); lia.
  - destruct (Z.eqb_spec (addr mod 2) 0) as [He|]; [|discriminate Hl].
    rewrite half_select in Hs by (done || Z.div_mod_to_equations; lia).
    assert (0 <= half_at w (addr mod 4) < 65536) as Hr
      by (rewrite half_at_eq by lia; apply Z.mod_pos_bound; lia).
    set (h := half_at w (addr mod 4)) in *.
    assert (is_u32 h) as Hh by (apply is_u32_iff; lia).
    rewrite (le_bytes_byte_at h 1 Hh ltac:(lia) : _ !! 1%nat = _) in Hs. cbn in Hs.
    injection Hs as <- <- <-. injection Hl as <-.
    rewrite (msb_byte _ (byte_at_range h 1)) in Hms.
    assert (32768 <= h) by (revert Hms; unfold byte_at; change (2 ^ (8 * 1)) with 256;
      intros; Z.div_mod_to_equations; lia).
    rewrite !is_u32_iff. split_and!; try lia. unfold sext. change (2 ^ (16 - 1)) with 32768.
    rewrite (proj2 (Z.ltb_ge _ 32768)) by lia. cbn [alu_result]. f_equal. unfold wsub. rewrite u32_mod.
    symmetry. apply Z.mod_unique with (-1); lia.
Qed.

(** The sign bit is seen when the loaded value is negative. *)
Lemma sub_word_negative e addr w : is_u32 w -> mi_opcode e = LB \/ mi_opcode e = LH -> addr mod access_width (mi_opcode e) = 0 ->
  2 ^ 31 <= load_spec (mi_opcode e) w (addr mod 4) -> exists v ms sv, sub_word e (addr mod 4) w = Some (v, ms, sv) /\ Z.land (Z.shiftr ms 7) 0x01 = 1.
Proof.
  intros Hw Ho Hal Hneg. pose proof (Z.mod_pos_bound addr 4 ltac:(lia)) as Hk. unfold sub_word. destruct Ho as [Ho|Ho]; rewrite Ho in *; cbn [access_width load_spec] in *; unfold sext in Hneg.
  - rewrite le_bytes_byte_at by done. cbn [mbind option_bind]. do 3 eexists. split; [reflexivity|]. pose proof (byte_at_range w (addr mod 4)) as Hr. apply msb_byte; [done|].
    change (2 ^ (8 - 1)) with 128 in Hneg. change (2 ^ 31) with 2147483648 in Hneg. destruct (Z.ltb_spec (byte_at w (addr mod 4)) 128); lia.
  - rewrite half_select by (done || Z.div_mod_to_equations; lia). assert (0 <= half_at w (addr mod 4) < 65536) as Hr by (rewrite half_at_eq by lia; apply Z.mod_pos_bound; lia).
    set (h := half_at w (addr mod 4)) in *. assert (is_u32 h) as Hh by (apply is_u32_iff; lia). rewrite (le_bytes_byte_at h 1 Hh ltac:(lia) : _ !! 1%nat = _). cbn [mbind option_bind].
    do 3 eexists. split; [reflexivity|]. apply msb_byte; [apply byte_at_range|]. change (2 ^ (16 - 1)) with 32768 in Hneg. change (2 ^ 31) with 2147483648 in Hneg.
    unfold byte_at. change (2 ^ (8 * 1)) with 256. destruct (Z.ltb_spec h 32768); Z.div_mod_to_equations; lia.
Qed.

(** Memory instructions: the address computation, and for a negative [LB]/[LH]
    whose event carries the loaded value, the sign extension. *)
Lemma emit_memory_ok e m r :
  is_u32 (mi_b e) -> is_u32 (mi_c e) -> is_u32 (rec_value m) -> alu_tables_ok r ->
  (mi_opcode e = LB \/ mi_opcode e = LH ->
   load_value (mi_opcode e) (mi_b e +u mi_c e) (rec_value m) = Some (Some (mi_a e))) ->
  alu_tables_ok (emit_memory_dependencies e m r).
Proof.
  intros Hb Hc Hv Hr Hload. unfold emit_memory_dependencies.
  destruct (sub_word _ _ _) as [[[v ms] sv]|] eqn:Hs; [|auto with tables].
  destruct (Z.eqb_spec (Z.land (Z.shiftr ms 7) 1) 1) as [Hms|]; [|auto with tables].
  assert (mi_opcode e = LB \/ mi_opcode e = LH) as Ho.
  { unfold sub_word in Hs. destruct (mi_opcode e); auto; discriminate. }
  destruct (sub_word_ok e _ v ms sv _ Hv Hs (Hload Ho) Hms) as (? & ? & ?).
  auto using dep_event_ok with tables.
Qed.

Lemma emit_auipc_ok e r :
  is_u32 (au_pc e) -> is_u32 (au_b e) -> au_a e = au_pc e +u au_b e -> alu_tables_ok r ->
  alu_tables_ok (emit_auipc_dependency e r).
Proof. intros ? ? Ha ?. unfold emit_auipc_dependency. rewrite Ha. auto with tables. Qed.
