(* ===== verification/State.v ===== *)
(** * Executor state (crates/core/executor/src/{executor,state,report}.rs)

    The fields of [Executor] and of the structures it owns.  The syscall table,
    the hook registry and the subproof verifier are arguments of the
    definitions that use them; the profiler is logging only.  Machine integers
    are [Z] with the wrap-around written out, strings are their UTF-8 bytes,
    hash maps are finite maps.  [upd_f] updates field [f]. *)

From Stdlib Require Import ZArith Lia.
From stdpp Require Import base gmap list.
From S2P Require Import Prelude Monad Isa SyscallCode Memory Events ByteLookup Air Record.

Local Open Scope Z_scope.

Definition DEFAULT_PC_INC : Z := 4.
Definition BABYBEAR_PRIME : Z := 0x78000001.

Inductive ExecutorMode : Type := Simple | Checkpoint | Trace | ShapeCollection.

#[export] Instance ExecutorMode_eq_dec : EqDecision ExecutorMode.
Proof. solve_decision. Defined.

Definition mode_eqb (a b : ExecutorMode) : bool := bool_decide (a = b).

Inductive ExecutionError : Type :=
| HaltWithNonZeroExitCode (code : Z)
| InvalidMemoryAccess (o : Opcode) (addr : Z)
| UnsupportedSyscall (id : Z)
| Breakpoint
| ExceededCycleLimit (limit : Z)
| InvalidSyscallUsage (id : Z)
| Unimplemented
| EndInUnconstrained.

(** A proof and its verifying key, serialised. *)
Definition ReduceProof : Type := list Z * list Z.

(** [ExecutionState]. *)
Record ExecutionState : Type := mkExecutionState {
  pc : Z;
  current_shard : Z;
  memory : Flat.Memory MemoryRecord;
  global_clk : Z;
  clk : Z;
  uninitialized_memory : Flat.Memory Z;
  input_stream : list (list Z);
  proof_stream : list ReduceProof;
  proof_stream_ptr : Z;
  public_values_stream : list Z;
  public_values_stream_ptr : Z;
  syscall_counts : gmap SyscallCode Z
}.

Definition upd_pc (f : Z -> Z) (x : ExecutionState) : ExecutionState :=
  mkExecutionState (f (pc x)) (current_shard x) (memory x) (global_clk x) (clk x)
    (uninitialized_memory x) (input_stream x) (proof_stream x) (proof_stream_ptr x)
    (public_values_stream x) (public_values_stream_ptr x) (syscall_counts x).
Definition upd_current_shard (f : Z -> Z) (x : ExecutionState) : ExecutionState :=
  mkExecutionState (pc x) (f (current_shard x)) (memory x) (global_clk x) (clk x)
    (uninitialized_memory x) (input_stream x) (proof_stream x) (proof_stream_ptr x)
    (public_values_stream x) (public_values_stream_ptr x) (syscall_counts x).
Definition upd_memory (f : (Flat.Memory MemoryRecord) -> (Flat.Memory MemoryRecord)) (x : ExecutionState) : ExecutionState :=
  mkExecutionState (pc x) (current_shard x) (f (memory x)) (global_clk x) (clk x)
    (uninitialized_memory x) (input_stream x) (proof_stream x) (proof_stream_ptr x)
    (public_values_stream x) (public_values_stream_ptr x) (syscall_counts x).
Definition upd_global_clk (f : Z -> Z) (x : ExecutionState) : ExecutionState :=
  mkExecutionState (pc x) (current_shard x) (memory x) (f (global_clk x)) (clk x)
    (uninitialized_memory x) (input_stream x) (proof_stream x) (proof_stream_ptr x)
    (public_values_stream x) (public_values_stream_ptr x) (syscall_counts x).
Definition upd_clk (f : Z -> Z) (x : ExecutionState) : ExecutionState :=
  mkExecutionState (pc x) (current_shard x) (memory x) (global_clk x) (f (clk x))
    (uninitialized_memory x) (input_stream x) (proof_stream x) (proof_stream_ptr x)
    (public_values_stream x) (public_values_stream_ptr x) (syscall_counts x).
Definition upd_uninitialized_memory (f : (Flat.Memory Z) -> (Flat.Memory Z)) (x : ExecutionState) : ExecutionState :=
  mkExecutionState (pc x) (current_shard x) (memory x) (global_clk x) (clk x) (f
    (uninitialized_memory x)) (input_stream x) (proof_stream x) (proof_stream_ptr x)
    (public_values_stream x) (public_values_stream_ptr x) (syscall_counts x).
Definition upd_input_stream (f : (list (list Z)) -> (list (list Z))) (x : ExecutionState) : ExecutionState :=
  mkExecutionState (pc x) (current_shard x) (memory x) (global_clk x) (clk x)
    (uninitialized_memory x) (f (input_stream x)) (proof_stream x) (proof_stream_ptr x)
    (public_values_stream x) (public_values_stream_ptr x) (syscall_counts x).
Definition upd_proof_stream (f : (list ReduceProof) -> (list ReduceProof)) (x : ExecutionState) : ExecutionState :=
  mkExecutionState (pc x) (current_shard x) (memory x) (global_clk x) (clk x)
    (uninitialized_memory x) (input_stream x) (f (proof_stream x)) (proof_stream_ptr x)
    (public_values_stream x) (public_values_stream_ptr x) (syscall_counts x).
Definition upd_proof_stream_ptr (f : Z -> Z) (x : ExecutionState) : ExecutionState :=
  mkExecutionState (pc x) (current_shard x) (memory x) (global_clk x) (clk x)
    (uninitialized_memory x) (input_stream x) (proof_stream x) (f (proof_stream_ptr x))
    (public_values_stream x) (public_values_stream_ptr x) (syscall_counts x).
Definition upd_public_values_stream (f : (list Z) -> (list Z)) (x : ExecutionState) : ExecutionState :=
  mkExecutionState (pc x) (current_shard x) (memory x) (global_clk x) (clk x)
    (uninitialized_memory x) (input_stream x) (proof_stream x) (proof_stream_ptr x) (f
    (public_values_stream x)) (public_values_stream_ptr x) (syscall_counts x).
Definition upd_public_values_stream_ptr (f : Z -> Z) (x : ExecutionState) : ExecutionState :=
  mkExecutionState (pc x) (current_shard x) (memory x) (global_clk x) (clk x)
    (uninitialized_memory x) (input_stream x) (proof_stream x) (proof_stream_ptr x)
    (public_values_stream x) (f (public_values_stream_ptr x)) (syscall_counts x).
Definition upd_syscall_counts (f : (gmap SyscallCode Z) -> (gmap SyscallCode Z)) (x : ExecutionState) : ExecutionState :=
  mkExecutionState (pc x) (current_shard x) (memory x) (global_clk x) (clk x)
    (uninitialized_memory x) (input_stream x) (proof_stream x) (proof_stream_ptr x)
    (public_values_stream x) (public_values_stream_ptr x) (f (syscall_counts x)).

(** [ExecutionState::new]: shard 0 is reserved for memory initialization. *)
Definition ExecutionState_new (pc_start : Z) : ExecutionState :=
  mkExecutionState pc_start 1 Flat.empty 0 0 Flat.empty [] [] 0 [] 0 ∅.

(** [ForkState]: what an unconstrained block restores. *)
Record ForkState : Type := mkForkState {
  fork_global_clk : Z;
  fork_clk : Z;
  fork_pc : Z;
  memory_diff : gmap Z (option MemoryRecord);
  fork_op_record : MemoryAccessRecord;
  fork_record : ExecutionRecord;
  fork_executor_mode : ExecutorMode
}.

Definition upd_fork_global_clk (f : Z -> Z) (x : ForkState) : ForkState :=
  mkForkState (f (fork_global_clk x)) (fork_clk x) (fork_pc x) (memory_diff x) (fork_op_record
    x) (fork_record x) (fork_executor_mode x).
Definition upd_fork_clk (f : Z -> Z) (x : ForkState) : ForkState :=
  mkForkState (fork_global_clk x) (f (fork_clk x)) (fork_pc x) (memory_diff x) (fork_op_record
    x) (fork_record x) (fork_executor_mode x).
Definition upd_fork_pc (f : Z -> Z) (x : ForkState) : ForkState :=
  mkForkState (fork_global_clk x) (fork_clk x) (f (fork_pc x)) (memory_diff x) (fork_op_record
    x) (fork_record x) (fork_executor_mode x).
Definition upd_memory_diff (f : (gmap Z (option MemoryRecord)) -> (gmap Z (option MemoryRecord))) (x : ForkState) : ForkState :=
  mkForkState (fork_global_clk x) (fork_clk x) (fork_pc x) (f (memory_diff x)) (fork_op_record
    x) (fork_record x) (fork_executor_mode x).
Definition upd_fork_op_record (f : MemoryAccessRecord -> MemoryAccessRecord) (x : ForkState) : ForkState :=
  mkForkState (fork_global_clk x) (fork_clk x) (fork_pc x) (memory_diff x) (f (fork_op_record
    x)) (fork_record x) (fork_executor_mode x).
Definition upd_fork_record (f : ExecutionRecord -> ExecutionRecord) (x : ForkState) : ForkState :=
  mkForkState (fork_global_clk x) (fork_clk x) (fork_pc x) (memory_diff x) (fork_op_record x) (f
    (fork_record x)) (fork_executor_mode x).
Definition upd_fork_executor_mode (f : ExecutorMode -> ExecutorMode) (x : ForkState) : ForkState :=
  mkForkState (fork_global_clk x) (fork_clk x) (fork_pc x) (memory_diff x) (fork_op_record x)
    (fork_record x) (f (fork_executor_mode x)).

Definition ForkState_default : ForkState :=
  mkForkState 0 0 0 ∅ MemoryAccessRecord_default ExecutionRecord_default Simple.

(** [LocalCounts]: event counters of the current shard. *)
Record LocalCounts : Type := mkLocalCounts {
  lc_event_counts : EnumMap Opcode;
  syscalls_sent : Z;
  local_mem : Z
}.

Definition upd_lc_event_counts (f : (EnumMap Opcode) -> (EnumMap Opcode)) (x : LocalCounts) : LocalCounts :=
  mkLocalCounts (f (lc_event_counts x)) (syscalls_sent x) (local_mem x).
Definition upd_syscalls_sent (f : Z -> Z) (x : LocalCounts) : LocalCounts :=
  mkLocalCounts (lc_event_counts x) (f (syscalls_sent x)) (local_mem x).
Definition upd_local_mem (f : Z -> Z) (x : LocalCounts) : LocalCounts :=
  mkLocalCounts (lc_event_counts x) (syscalls_sent x) (f (local_mem x)).

Definition LocalCounts_default : LocalCounts := mkLocalCounts enum_zero 0 0.

(** [ExecutionReport]. *)
Record ExecutionReport : Type := mkExecutionReport {
  opcode_counts : EnumMap Opcode;
  report_syscall_counts : EnumMap SyscallCode;
  report_cycle_tracker : gmap (list Z) Z;
  touched_memory_addresses : Z
}.

Definition upd_opcode_counts (f : (EnumMap Opcode) -> (EnumMap Opcode)) (x : ExecutionReport) : ExecutionReport :=
  mkExecutionReport (f (opcode_counts x)) (report_syscall_counts x) (report_cycle_tracker x)
    (touched_memory_addresses x).
Definition upd_report_syscall_counts (f : (EnumMap SyscallCode) -> (EnumMap SyscallCode)) (x : ExecutionReport) : ExecutionReport :=
  mkExecutionReport (opcode_counts x) (f (report_syscall_counts x)) (report_cycle_tracker x)
    (touched_memory_addresses x).
Definition upd_report_cycle_tracker (f : (gmap (list Z) Z) -> (gmap (list Z) Z)) (x : ExecutionReport) : ExecutionReport :=
  mkExecutionReport (opcode_counts x) (report_syscall_counts x) (f (report_cycle_tracker x))
    (touched_memory_addresses x).
Definition upd_touched_memory_addresses (f : Z -> Z) (x : ExecutionReport) : ExecutionReport :=
  mkExecutionReport (opcode_counts x) (report_syscall_counts x) (report_cycle_tracker x) (f
    (touched_memory_addresses x)).

Definition ExecutionReport_default : ExecutionReport := mkExecutionReport enum_zero enum_zero ∅ 0.

(** [Executor]. *)
Record Executor : Type := mkExecutor {
  program : Program;
  state : ExecutionState;
  memory_checkpoint : Flat.Memory (option MemoryRecord);
  uninitialized_memory_checkpoint : Flat.Memory bool;
  report : ExecutionReport;
  executor_mode : ExecutorMode;
  memory_accesses : MemoryAccessRecord;
  unconstrained : bool;
  print_report : bool;
  emit_global_memory_events : bool;
  shard_size : Z;
  shard_batch_size : Z;
  max_syscall_cycles : Z;
  max_cycles : option Z;
  record : ExecutionRecord;
  records : list ExecutionRecord;
  local_memory_access : gmap Z MemoryLocalEvent;
  cycle_tracker : gmap (list Z) (Z * Z);
  io_buf : gmap Z (list Z);
  unconstrained_state : ForkState;
  local_counts : LocalCounts;
  maximal_shapes : option MaximalShapes;
  costs : RiscvAirId.t -> Z;
  deferred_proof_verification : bool;
  shape_check_frequency : Z;
  lde_size_check : bool;
  lde_size_threshold : Z;
  event_counts : EnumMap RiscvAirId.t
}.

Definition upd_program (f : Program -> Program) (x : Executor) : Executor :=
  mkExecutor (f (program x)) (state x) (memory_checkpoint x) (uninitialized_memory_checkpoint x)
    (report x) (executor_mode x) (memory_accesses x) (unconstrained x) (print_report x)
    (emit_global_memory_events x) (shard_size x) (shard_batch_size x) (max_syscall_cycles x)
    (max_cycles x) (record x) (records x) (local_memory_access x) (cycle_tracker x) (io_buf x)
    (unconstrained_state x) (local_counts x) (maximal_shapes x) (costs x)
    (deferred_proof_verification x) (shape_check_frequency x) (lde_size_check x)
    (lde_size_threshold x) (event_counts x).
Definition upd_state (f : ExecutionState -> ExecutionState) (x : Executor) : Executor :=
  mkExecutor (program x) (f (state x)) (memory_checkpoint x) (uninitialized_memory_checkpoint x)
    (report x) (executor_mode x) (memory_accesses x) (unconstrained x) (print_report x)
    (emit_global_memory_events x) (shard_size x) (shard_batch_size x) (max_syscall_cycles x)
    (max_cycles x) (record x) (records x) (local_memory_access x) (cycle_tracker x) (io_buf x)
    (unconstrained_state x) (local_counts x) (maximal_shapes x) (costs x)
    (deferred_proof_verification x) (shape_check_frequency x) (lde_size_check x)
    (lde_size_threshold x) (event_counts x).
Definition upd_memory_checkpoint (f : (Flat.Memory (option MemoryRecord)) -> (Flat.Memory (option MemoryRecord))) (x : Executor) : Executor :=
  mkExecutor (program x) (state x) (f (memory_checkpoint x)) (uninitialized_memory_checkpoint x)
    (report x) (executor_mode x) (memory_accesses x) (unconstrained x) (print_report x)
    (emit_global_memory_events x) (shard_size x) (shard_batch_size x) (max_syscall_cycles x)
    (max_cycles x) (record x) (records x) (local_memory_access x) (cycle_tracker x) (io_buf x)
    (unconstrained_state x) (local_counts x) (maximal_shapes x) (costs x)
    (deferred_proof_verification x) (shape_check_frequency x) (lde_size_check x)
    (lde_size_threshold x) (event_counts x).
Definition upd_uninitialized_memory_checkpoint (f : (Flat.Memory bool) -> (Flat.Memory bool)) (x : Executor) : Executor :=
  mkExecutor (program x) (state x) (memory_checkpoint x) (f (uninitialized_memory_checkpoint x))
    (report x) (executor_mode x) (memory_accesses x) (unconstrained x) (print_report x)
    (emit_global_memory_events x) (shard_size x) (shard_batch_size x) (max_syscall_cycles x)
    (max_cycles x) (record x) (records x) (local_memory_access x) (cycle_tracker x) (io_buf x)
    (unconstrained_state x) (local_counts x) (maximal_shapes x) (costs x)
    (deferred_proof_verification x) (shape_check_frequency x) (lde_size_check x)
    (lde_size_threshold x) (event_counts x).
Definition upd_report (f : ExecutionReport -> ExecutionReport) (x : Executor) : Executor :=
  mkExecutor (program x) (state x) (memory_checkpoint x) (uninitialized_memory_checkpoint x) (f
    (report x)) (executor_mode x) (memory_accesses x) (unconstrained x) (print_report x)
    (emit_global_memory_events x) (shard_size x) (shard_batch_size x) (max_syscall_cycles x)
    (max_cycles x) (record x) (records x) (local_memory_access x) (cycle_tracker x) (io_buf x)
    (unconstrained_state x) (local_counts x) (maximal_shapes x) (costs x)
    (deferred_proof_verification x) (shape_check_frequency x) (lde_size_check x)
    (lde_size_threshold x) (event_counts x).
Definition upd_executor_mode (f : ExecutorMode -> ExecutorMode) (x : Executor) : Executor :=
  mkExecutor (program x) (state x) (memory_checkpoint x) (uninitialized_memory_checkpoint x)
    (report x) (f (executor_mode x)) (memory_accesses x) (unconstrained x) (print_report x)
    (emit_global_memory_events x) (shard_size x) (shard_batch_size x) (max_syscall_cycles x)
    (max_cycles x) (record x) (records x) (local_memory_access x) (cycle_tracker x) (io_buf x)
    (unconstrained_state x) (local_counts x) (maximal_shapes x) (costs x)
    (deferred_proof_verification x) (shape_check_frequency x) (lde_size_check x)
    (lde_size_threshold x) (event_counts x).
Definition upd_memory_accesses (f : MemoryAccessRecord -> MemoryAccessRecord) (x : Executor) : Executor :=
  mkExecutor (program x) (state x) (memory_checkpoint x) (uninitialized_memory_checkpoint x)
    (report x) (executor_mode x) (f (memory_accesses x)) (unconstrained x) (print_report x)
    (emit_global_memory_events x) (shard_size x) (shard_batch_size x) (max_syscall_cycles x)
    (max_cycles x) (record x) (records x) (local_memory_access x) (cycle_tracker x) (io_buf x)
    (unconstrained_state x) (local_counts x) (maximal_shapes x) (costs x)
    (deferred_proof_verification x) (shape_check_frequency x) (lde_size_check x)
    (lde_size_threshold x) (event_counts x).
Definition upd_unconstrained (f : bool -> bool) (x : Executor) : Executor :=
  mkExecutor (program x) (state x) (memory_checkpoint x) (uninitialized_memory_checkpoint x)
    (report x) (executor_mode x) (memory_accesses x) (f (unconstrained x)) (print_report x)
    (emit_global_memory_events x) (shard_size x) (shard_batch_size x) (max_syscall_cycles x)
    (max_cycles x) (record x) (records x) (local_memory_access x) (cycle_tracker x) (io_buf x)
    (unconstrained_state x) (local_counts x) (maximal_shapes x) (costs x)
    (deferred_proof_verification x) (shape_check_frequency x) (lde_size_check x)
    (lde_size_threshold x) (event_counts x).
Definition upd_print_report (f : bool -> bool) (x : Executor) : Executor :=
  mkExecutor (program x) (state x) (memory_checkpoint x) (uninitialized_memory_checkpoint x)
    (report x) (executor_mode x) (memory_accesses x) (unconstrained x) (f (print_report x))
    (emit_global_memory_events x) (shard_size x) (shard_batch_size x) (max_syscall_cycles x)
    (max_cycles x) (record x) (records x) (local_memory_access x) (cycle_tracker x) (io_buf x)
    (unconstrained_state x) (local_counts x) (maximal_shapes x) (costs x)
    (deferred_proof_verification x) (shape_check_frequency x) (lde_size_check x)
    (lde_size_threshold x) (event_counts x).
Definition upd_emit_global_memory_events (f : bool -> bool) (x : Executor) : Executor :=
  mkExecutor (program x) (state x) (memory_checkpoint x) (uninitialized_memory_checkpoint x)
    (report x) (executor_mode x) (memory_accesses x) (unconstrained x) (print_report x) (f
    (emit_global_memory_events x)) (shard_size x) (shard_batch_size x) (max_syscall_cycles x)
    (max_cycles x) (record x) (records x) (local_memory_access x) (cycle_tracker x) (io_buf x)
    (unconstrained_state x) (local_counts x) (maximal_shapes x) (costs x)
    (deferred_proof_verification x) (shape_check_frequency x) (lde_size_check x)
    (lde_size_threshold x) (event_counts x).
Definition upd_shard_size (f : Z -> Z) (x : Executor) : Executor :=
  mkExecutor (program x) (state x) (memory_checkpoint x) (uninitialized_memory_checkpoint x)
    (report x) (executor_mode x) (memory_accesses x) (unconstrained x) (print_report x)
    (emit_global_memory_events x) (f (shard_size x)) (shard_batch_size x) (max_syscall_cycles x)
    (max_cycles x) (record x) (records x) (local_memory_access x) (cycle_tracker x) (io_buf x)
    (unconstrained_state x) (local_counts x) (maximal_shapes x) (costs x)
    (deferred_proof_verification x) (shape_check_frequency x) (lde_size_check x)
    (lde_size_threshold x) (event_counts x).
Definition upd_shard_batch_size (f : Z -> Z) (x : Executor) : Executor :=
  mkExecutor (program x) (state x) (memory_checkpoint x) (uninitialized_memory_checkpoint x)
    (report x) (executor_mode x) (memory_accesses x) (unconstrained x) (print_report x)
    (emit_global_memory_events x) (shard_size x) (f (shard_batch_size x)) (max_syscall_cycles x)
    (max_cycles x) (record x) (records x) (local_memory_access x) (cycle_tracker x) (io_buf x)
    (unconstrained_state x) (local_counts x) (maximal_shapes x) (costs x)
    (deferred_proof_verification x) (shape_check_frequency x) (lde_size_check x)
    (lde_size_threshold x) (event_counts x).
Definition upd_max_syscall_cycles (f : Z -> Z) (x : Executor) : Executor :=
  mkExecutor (program x) (state x) (memory_checkpoint x) (uninitialized_memory_checkpoint x)
    (report x) (executor_mode x) (memory_accesses x) (unconstrained x) (print_report x)
    (emit_global_memory_events x) (shard_size x) (shard_batch_size x) (f (max_syscall_cycles x))
    (max_cycles x) (record x) (records x) (local_memory_access x) (cycle_tracker x) (io_buf x)
    (unconstrained_state x) (local_counts x) (maximal_shapes x) (costs x)
    (deferred_proof_verification x) (shape_check_frequency x) (lde_size_check x)
    (lde_size_threshold x) (event_counts x).
Definition upd_max_cycles (f : (option Z) -> (option Z)) (x : Executor) : Executor :=
  mkExecutor (program x) (state x) (memory_checkpoint x) (uninitialized_memory_checkpoint x)
    (report x) (executor_mode x) (memory_accesses x) (unconstrained x) (print_report x)
    (emit_global_memory_events x) (shard_size x) (shard_batch_size x) (max_syscall_cycles x) (f
    (max_cycles x)) (record x) (records x) (local_memory_access x) (cycle_tracker x) (io_buf x)
    (unconstrained_state x) (local_counts x) (maximal_shapes x) (costs x)
    (deferred_proof_verification x) (shape_check_frequency x) (lde_size_check x)
    (lde_size_threshold x) (event_counts x).
Definition upd_record (f : ExecutionRecord -> ExecutionRecord) (x : Executor) : Executor :=
  mkExecutor (program x) (state x) (memory_checkpoint x) (uninitialized_memory_checkpoint x)
    (report x) (executor_mode x) (memory_accesses x) (unconstrained x) (print_report x)
    (emit_global_memory_events x) (shard_size x) (shard_batch_size x) (max_syscall_cycles x)
    (max_cycles x) (f (record x)) (records x) (local_memory_access x) (cycle_tracker x) (io_buf
    x) (unconstrained_state x) (local_counts x) (maximal_shapes x) (costs x)
    (deferred_proof_verification x) (shape_check_frequency x) (lde_size_check x)
    (lde_size_threshold x) (event_counts x).
Definition upd_records (f : (list ExecutionRecord) -> (list ExecutionRecord)) (x : Executor) : Executor :=
  mkExecutor (program x) (state x) (memory_checkpoint x) (uninitialized_memory_checkpoint x)
    (report x) (executor_mode x) (memory_accesses x) (unconstrained x) (print_report x)
    (emit_global_memory_events x) (shard_size x) (shard_batch_size x) (max_syscall_cycles x)
    (max_cycles x) (record x) (f (records x)) (local_memory_access x) (cycle_tracker x) (io_buf
    x) (unconstrained_state x) (local_counts x) (maximal_shapes x) (costs x)
    (deferred_proof_verification x) (shape_check_frequency x) (lde_size_check x)
    (lde_size_threshold x) (event_counts x).
Definition upd_local_memory_access (f : (gmap Z MemoryLocalEvent) -> (gmap Z MemoryLocalEvent)) (x : Executor) : Executor :=
  mkExecutor (program x) (state x) (memory_checkpoint x) (uninitialized_memory_checkpoint x)
    (report x) (executor_mode x) (memory_accesses x) (unconstrained x) (print_report x)
    (emit_global_memory_events x) (shard_size x) (shard_batch_size x) (max_syscall_cycles x)
    (max_cycles x) (record x) (records x) (f (local_memory_access x)) (cycle_tracker x) (io_buf
    x) (unconstrained_state x) (local_counts x) (maximal_shapes x) (costs x)
    (deferred_proof_verification x) (shape_check_frequency x) (lde_size_check x)
    (lde_size_threshold x) (event_counts x).
Definition upd_cycle_tracker (f : (gmap (list Z) (Z * Z)) -> (gmap (list Z) (Z * Z))) (x : Executor) : Executor :=
  mkExecutor (program x) (state x) (memory_checkpoint x) (uninitialized_memory_checkpoint x)
    (report x) (executor_mode x) (memory_accesses x) (unconstrained x) (print_report x)
    (emit_global_memory_events x) (shard_size x) (shard_batch_size x) (max_syscall_cycles x)
    (max_cycles x) (record x) (records x) (local_memory_access x) (f (cycle_tracker x)) (io_buf
    x) (unconstrained_state x) (local_counts x) (maximal_shapes x) (costs x)
    (deferred_proof_verification x) (shape_check_frequency x) (lde_size_check x)
    (lde_size_threshold x) (event_counts x).
Definition upd_io_buf (f : (gmap Z (list Z)) -> (gmap Z (list Z))) (x : Executor) : Executor :=
  mkExecutor (program x) (state x) (memory_checkpoint x) (uninitialized_memory_checkpoint x)
    (report x) (executor_mode x) (memory_accesses x) (unconstrained x) (print_report x)
    (emit_global_memory_events x) (shard_size x) (shard_batch_size x) (max_syscall_cycles x)
    (max_cycles x) (record x) (records x) (local_memory_access x) (cycle_tracker x) (f (io_buf
    x)) (unconstrained_state x) (local_counts x) (maximal_shapes x) (costs x)
    (deferred_proof_verification x) (shape_check_frequency x) (lde_size_check x)
    (lde_size_threshold x) (event_counts x).
Definition upd_unconstrained_state (f : ForkState -> ForkState) (x : Executor) : Executor :=
  mkExecutor (program x) (state x) (memory_checkpoint x) (uninitialized_memory_checkpoint x)
    (report x) (executor_mode x) (memory_accesses x) (unconstrained x) (print_report x)
    (emit_global_memory_events x) (shard_size x) (shard_batch_size x) (max_syscall_cycles x)
    (max_cycles x) (record x) (records x) (local_memory_access x) (cycle_tracker x) (io_buf x)
    (f (unconstrained_state x)) (local_counts x) (maximal_shapes x) (costs x)
    (deferred_proof_verification x) (shape_check_frequency x) (lde_size_check x)
    (lde_size_threshold x) (event_counts x).
Definition upd_local_counts (f : LocalCounts -> LocalCounts) (x : Executor) : Executor :=
  mkExecutor (program x) (state x) (memory_checkpoint x) (uninitialized_memory_checkpoint x)
    (report x) (executor_mode x) (memory_accesses x) (unconstrained x) (print_report x)
    (emit_global_memory_events x) (shard_size x) (shard_batch_size x) (max_syscall_cycles x)
    (max_cycles x) (record x) (records x) (local_memory_access x) (cycle_tracker x) (io_buf x)
    (unconstrained_state x) (f (local_counts x)) (maximal_shapes x) (costs x)
    (deferred_proof_verification x) (shape_check_frequency x) (lde_size_check x)
    (lde_size_threshold x) (event_counts x).
Definition upd_maximal_shapes (f : (option MaximalShapes) -> (option MaximalShapes)) (x : Executor) : Executor :=
  mkExecutor (program x) (state x) (memory_checkpoint x) (uninitialized_memory_checkpoint x)
    (report x) (executor_mode x) (memory_accesses x) (unconstrained x) (print_report x)
    (emit_global_memory_events x) (shard_size x) (shard_batch_size x) (max_syscall_cycles x)
    (max_cycles x) (record x) (records x) (local_memory_access x) (cycle_tracker x) (io_buf x)
    (unconstrained_state x) (local_counts x) (f (maximal_shapes x)) (costs x)
    (deferred_proof_verification x) (shape_check_frequency x) (lde_size_check x)
    (lde_size_threshold x) (event_counts x).
Definition upd_costs (f : (RiscvAirId.t -> Z) -> (RiscvAirId.t -> Z)) (x : Executor) : Executor :=
  mkExecutor (program x) (state x) (memory_checkpoint x) (uninitialized_memory_checkpoint x)
    (report x) (executor_mode x) (memory_accesses x) (unconstrained x) (print_report x)
    (emit_global_memory_events x) (shard_size x) (shard_batch_size x) (max_syscall_cycles x)
    (max_cycles x) (record x) (records x) (local_memory_access x) (cycle_tracker x) (io_buf x)
    (unconstrained_state x) (local_counts x) (maximal_shapes x) (f (costs x))
    (deferred_proof_verification x) (shape_check_frequency x) (lde_size_check x)
    (lde_size_threshold x) (event_counts x).
Definition upd_deferred_proof_verification (f : bool -> bool) (x : Executor) : Executor :=
  mkExecutor (program x) (state x) (memory_checkpoint x) (uninitialized_memory_checkpoint x)
    (report x) (executor_mode x) (memory_accesses x) (unconstrained x) (print_report x)
    (emit_global_memory_events x) (shard_size x) (shard_batch_size x) (max_syscall_cycles x)
    (max_cycles x) (record x) (records x) (local_memory_access x) (cycle_tracker x) (io_buf x)
    (unconstrained_state x) (local_counts x) (maximal_shapes x) (costs x) (f
    (deferred_proof_verification x)) (shape_check_frequency x) (lde_size_check x)
    (lde_size_threshold x) (event_counts x).
Definition upd_shape_check_frequency (f : Z -> Z) (x : Executor) : Executor :=
  mkExecutor (program x) (state x) (memory_checkpoint x) (uninitialized_memory_checkpoint x)
    (report x) (executor_mode x) (memory_accesses x) (unconstrained x) (print_report x)
    (emit_global_memory_events x) (shard_size x) (shard_batch_size x) (max_syscall_cycles x)
    (max_cycles x) (record x) (records x) (local_memory_access x) (cycle_tracker x) (io_buf x)
    (unconstrained_state x) (local_counts x) (maximal_shapes x) (costs x)
    (deferred_proof_verification x) (f (shape_check_frequency x)) (lde_size_check x)
    (lde_size_threshold x) (event_counts x).
Definition upd_lde_size_check (f : bool -> bool) (x : Executor) : Executor :=
  mkExecutor (program x) (state x) (memory_checkpoint x) (uninitialized_memory_checkpoint x)
    (report x) (executor_mode x) (memory_accesses x) (unconstrained x) (print_report x)
    (emit_global_memory_events x) (shard_size x) (shard_batch_size x) (max_syscall_cycles x)
    (max_cycles x) (record x) (records x) (local_memory_access x) (cycle_tracker x) (io_buf x)
    (unconstrained_state x) (local_counts x) (maximal_shapes x) (costs x)
    (deferred_proof_verification x) (shape_check_frequency x) (f (lde_size_check x))
    (lde_size_threshold x) (event_counts x).
Definition upd_lde_size_threshold (f : Z -> Z) (x : Executor) : Executor :=
  mkExecutor (program x) (state x) (memory_checkpoint x) (uninitialized_memory_checkpoint x)
    (report x) (executor_mode x) (memory_accesses x) (unconstrained x) (print_report x)
    (emit_global_memory_events x) (shard_size x) (shard_batch_size x) (max_syscall_cycles x)
    (max_cycles x) (record x) (records x) (local_memory_access x) (cycle_tracker x) (io_buf x)
    (unconstrained_state x) (local_counts x) (maximal_shapes x) (costs x)
    (deferred_proof_verification x) (shape_check_frequency x) (lde_size_check x) (f
    (lde_size_threshold x)) (event_counts x).
Definition upd_event_counts (f : (EnumMap RiscvAirId.t) -> (EnumMap RiscvAirId.t)) (x : Executor) : Executor :=
  mkExecutor (program x) (state x) (memory_checkpoint x) (uninitialized_memory_checkpoint x)
    (report x) (executor_mode x) (memory_accesses x) (unconstrained x) (print_report x)
    (emit_global_memory_events x) (shard_size x) (shard_batch_size x) (max_syscall_cycles x)
    (max_cycles x) (record x) (records x) (local_memory_access x) (cycle_tracker x) (io_buf x)
    (unconstrained_state x) (local_counts x) (maximal_shapes x) (costs x)
    (deferred_proof_verification x) (shape_check_frequency x) (lde_size_check x)
    (lde_size_threshold x) (f (event_counts x)).

(** Computations on the executor. *)
Abbreviation EM := (M Executor ExecutionError).
