(* ===== verification/Executor.v ===== *)
(** * Memory accesses and event emission (crates/core/executor/src/executor.rs)

    [Executor::register] .. [rw_cpu] and [emit_events] .. [branch_rr].  The six
    access functions of the source repeat the same entry sequence on
    [memory.registers] or [memory.page_table]; the sequence is written once
    ([checkpoint_entry], [save_diff], [init_entry], [touch]) with the component
    as an argument.  [mr], [mw], [rr_traced] and [rw_traced] take the optional
    [local_memory_access] map of a syscall by value and return its update. *)

From Stdlib Require Import ZArith Lia Bool.
From stdpp Require Import base gmap list.
From S2P Require Import Prelude Monad Isa SyscallCode Memory Events ByteLookup Air Record Alu.
From S2P Require Import Dependencies State.

Local Open Scope Z_scope.
Local Open Scope rv_scope.

(** ** The entry sequence *)

(** The record of [addr], if the address was accessed before. *)
Definition mem_entry (c : Flat.comp) (addr : Z) (s : Executor) : option MemoryRecord :=
  Flat.lookup c addr (memory (state s)).

(** [memory_checkpoint.entry(addr).or_insert(record)]. *)
Definition checkpoint_entry (c : Flat.comp) (addr : Z) (s : Executor) : Executor :=
  upd_memory_checkpoint (Flat.or_insert c addr (mem_entry c addr s)) s.

(** [self.executor_mode == Checkpoint || self.unconstrained]. *)
Definition checkpointing (s : Executor) : bool :=
  mode_eqb (executor_mode s) Checkpoint || unconstrained s.

(** [unconstrained_state.memory_diff.entry(addr).or_insert(record)]. *)
Definition save_diff (c : Flat.comp) (addr : Z) (s : Executor) : Executor :=
  upd_unconstrained_state (upd_memory_diff (fun d =>
    match d !! addr with Some _ => d | None => <[addr := mem_entry c addr s]> d end)) s.

(** The entry's record; a vacant entry starts from [uninitialized_memory]. *)
Definition init_value (c : Flat.comp) (addr : Z) (s : Executor) : Z :=
  default 0 (Flat.lookup c addr (uninitialized_memory (state s))).

Definition entry_record (c : Flat.comp) (addr : Z) (s : Executor) : MemoryRecord :=
  match mem_entry c addr s with
  | Some r => r
  | None => mkMemoryRecord 0 0 (init_value c addr s)
  end.

Definition init_entry (c : Flat.comp) (addr : Z) (s : Executor) : Executor :=
  match mem_entry c addr s with
  | Some _ => s
  | None => upd_uninitialized_memory_checkpoint
              (Flat.or_insert c addr (negb (init_value c addr s =? 0))) s
  end.

Definition set_entry (c : Flat.comp) (addr : Z) (r : MemoryRecord) (s : Executor) : Executor :=
  upd_state (upd_memory (Flat.update c addr r)) s.

(** The whole sequence: [value = None] is a read.  [cp] says whether the caller
    saves the entry to the checkpoint.  Returns the record before and after. *)
Definition touch (cp : Executor -> bool) (c : Flat.comp) (addr : Z) (value : option Z)
    (shard timestamp : Z) (s : Executor) : MemoryRecord * MemoryRecord * Executor :=
  let s1 := if cp s then checkpoint_entry c addr s else s in
  let s2 := if unconstrained s1 then save_diff c addr s1 else s1 in
  let prev := entry_record c addr s2 in
  let s3 := init_entry c addr s2 in
  let cur := mkMemoryRecord shard timestamp (default (rec_value prev) value) in
  (prev, cur, set_entry c addr cur s3).

Definition touchM (cp : Executor -> bool) (c : Flat.comp) (addr : Z) (value : option Z)
    (shard timestamp : Z) : EM (MemoryRecord * MemoryRecord) := fun s =>
  let '(prev, cur, s') := touch cp c addr value shard timestamp s in Ok (prev, cur) s'.

(** [local_memory_access.entry(addr).and_modify(..).or_insert(..)]. *)
Definition record_local (addr : Z) (prev cur : MemoryRecord) (m : gmap Z MemoryLocalEvent)
    : gmap Z MemoryLocalEvent :=
  match m !! addr with
  | Some e => <[addr := mkMemoryLocalEvent (ml_addr e) (ml_initial_mem_access e) cur]> m
  | None => <[addr := mkMemoryLocalEvent addr prev cur]> m
  end.

(** The local event goes to the syscall's map when there is one, to the
    executor's otherwise. *)
Definition record_access (addr : Z) (prev cur : MemoryRecord)
    (lma : option (gmap Z MemoryLocalEvent)) : EM (option (gmap Z MemoryLocalEvent)) :=
  match lma with
  | Some m => ret (Some (record_local addr prev cur m))
  | None => modify (upd_local_memory_access (record_local addr prev cur)) ;;; ret None
  end.

(** ** Peeking *)

(** [register]: the value of a register, without an access. *)
Definition register (r : Register) : EM Z :=
  s <- gets id ;;
  when (checkpointing s) (modify (checkpoint_entry Flat.Reg (reg_idx r))) ;;;
  ret (default 0 (rec_value <$> mem_entry Flat.Reg (reg_idx r) s)).

Definition registers : EM (list Z) := collect all_registers register.

(** [word]: an out-of-range page index panics. *)
Definition word (addr : Z) : EM Z :=
  massert (Flat.in_range addr) ;;;
  s <- gets id ;;
  when (checkpointing s) (modify (checkpoint_entry Flat.Page addr)) ;;;
  ret (default 0 (rec_value <$> mem_entry Flat.Page addr s)).

Definition byte (addr : Z) : EM Z :=
  w <- word (align addr) ;;
  ret (u8 (Z.shiftr w (addr mod 4 * 8))).

Definition timestamp (p : MemoryAccessPosition) (s : Executor) : Z :=
  clk (state s) +u position_u32 p.

Definition shard (s : Executor) : Z := current_shard (state s).

(** ** Memory and register accesses *)

(** The addresses [mr] and [mw] accept. *)
Definition valid_mem_addr (addr : Z) : bool :=
  negb (negb (addr mod 4 =? 0) || (addr <=? reg_idx X31) || (BABYBEAR_PRIME <=? addr)).

(** [if !unconstrained && (record.shard != shard || lma.is_some()) { local_mem += 1 }]. *)
Definition count_local_mem (prev : MemoryRecord) (shard : Z)
    (lma : option (gmap Z MemoryLocalEvent)) : EM unit :=
  s <- gets id ;;
  when (negb (unconstrained s) &&
        (negb (rec_shard prev =? shard) || match lma with Some _ => true | None => false end))
    (modify (upd_local_counts (upd_local_mem (fun n => u64 (n + 1))))).

Definition tracing (s : Executor) : bool :=
  negb (unconstrained s) && mode_eqb (executor_mode s) Trace.

Definition mr (addr shard timestamp : Z) (lma : option (gmap Z MemoryLocalEvent))
    : EM (MemoryReadRecord * option (gmap Z MemoryLocalEvent)) :=
  massert (valid_mem_addr addr) ;;;
  '(prev, cur) <- touchM checkpointing Flat.Page addr None shard timestamp ;;
  count_local_mem prev shard lma ;;;
  s <- gets id ;;
  lma' <- (if tracing s then record_access addr prev cur lma else ret lma) ;;
  ret (read_record_new (rec_value cur) (rec_shard cur) (rec_timestamp cur)
         (rec_shard prev) (rec_timestamp prev), lma').

Definition rr (r : Register) (shard timestamp : Z) : EM Z :=
  '(_, cur) <- touchM checkpointing Flat.Reg (reg_idx r) None shard timestamp ;;
  ret (rec_value cur).

Definition rr_traced (r : Register) (shard timestamp : Z)
    (lma : option (gmap Z MemoryLocalEvent))
    : EM (MemoryReadRecord * option (gmap Z MemoryLocalEvent)) :=
  let addr := reg_idx r in
  '(prev, cur) <- touchM checkpointing Flat.Reg addr None shard timestamp ;;
  s <- gets id ;;
  lma' <- (if tracing s then record_access addr prev cur lma else ret lma) ;;
  ret (read_record_new (rec_value cur) (rec_shard cur) (rec_timestamp cur)
         (rec_shard prev) (rec_timestamp prev), lma').

Definition mw (addr value shard timestamp : Z) (lma : option (gmap Z MemoryLocalEvent))
    : EM (MemoryWriteRecord * option (gmap Z MemoryLocalEvent)) :=
  massert (valid_mem_addr addr) ;;;
  '(prev, cur) <- touchM checkpointing Flat.Page addr (Some value) shard timestamp ;;
  count_local_mem prev shard lma ;;;
  s <- gets id ;;
  lma' <- (if tracing s then record_access addr prev cur lma else ret lma) ;;
  ret (write_record_new (rec_value cur) (rec_shard cur) (rec_timestamp cur)
         (rec_value prev) (rec_shard prev) (rec_timestamp prev), lma').

(** Unlike the others, [rw_traced] checkpoints only in unconstrained mode and
    records the access in every mode: it is called in [Trace] mode. *)
Definition rw_traced (r : Register) (value shard timestamp : Z)
    (lma : option (gmap Z MemoryLocalEvent))
    : EM (MemoryWriteRecord * option (gmap Z MemoryLocalEvent)) :=
  let addr := reg_idx r in
  '(prev, cur) <- touchM unconstrained Flat.Reg addr (Some value) shard timestamp ;;
  s <- gets id ;;
  lma' <- (if negb (unconstrained s) then record_access addr prev cur lma else ret lma) ;;
  ret (write_record_new (rec_value cur) (rec_shard cur) (rec_timestamp cur)
         (rec_value prev) (rec_shard prev) (rec_timestamp prev), lma').

Definition rw (r : Register) (value shard timestamp : Z) : EM unit :=
  touchM checkpointing Flat.Reg (reg_idx r) (Some value) shard timestamp ;;; ret tt.

(** ** Accesses of the current cycle *)

Definition set_access (p : MemoryAccessPosition) (m : MemoryRecordEnum) (r : MemoryAccessRecord)
    : MemoryAccessRecord :=
  match p with
  | PA => mkMemoryAccessRecord (Some m) (ma_b r) (ma_c r) (ma_memory r)
  | PB => mkMemoryAccessRecord (ma_a r) (Some m) (ma_c r) (ma_memory r)
  | PC => mkMemoryAccessRecord (ma_a r) (ma_b r) (Some m) (ma_memory r)
  | PMemory => mkMemoryAccessRecord (ma_a r) (ma_b r) (ma_c r) (Some m)
  end.

Definition is_trace (s : Executor) : bool := mode_eqb (executor_mode s) Trace.

Definition mr_cpu (addr : Z) : EM Z :=
  s <- gets id ;;
  '(r, _) <- mr addr (shard s) (timestamp PMemory s) None ;;
  when (is_trace s) (modify (upd_memory_accesses (set_access PMemory (MRead r)))) ;;;
  ret (rd_value r).

Definition rr_cpu (reg : Register) (p : MemoryAccessPosition) : EM Z :=
  s <- gets id ;;
  if is_trace s then
    '(r, _) <- rr_traced reg (shard s) (timestamp p s) None ;;
    when (negb (unconstrained s)) (modify (upd_memory_accesses (set_access p (MRead r)))) ;;;
    ret (rd_value r)
  else rr reg (shard s) (timestamp p s).

Definition mw_cpu (addr value : Z) : EM unit :=
  s <- gets id ;;
  '(r, _) <- mw addr value (shard s) (timestamp PMemory s) None ;;
  when (is_trace s) (modify (upd_memory_accesses (set_access PMemory (MWrite r)))).

(** Writes to [x0] write 0. *)
Definition rw_cpu (reg : Register) (value : Z) : EM unit :=
  let value := if reg_idx reg =? reg_idx X0 then 0 else value in
  s <- gets id ;;
  if is_trace s then
    '(r, _) <- rw_traced reg value (shard s) (timestamp PA s) None ;;
    when (negb (unconstrained s)) (modify (upd_memory_accesses (set_access PA (MWrite r))))
  else rw reg value (shard s) (timestamp PA s).

(** ** Event emission *)

(** [modify] of the record by a fallible function. *)
Definition modify_record (f : ExecutionRecord -> option ExecutionRecord) : EM unit :=
  s <- gets id ;;
  r <- unwrap (f (record s)) ;;
  modify (upd_record (fun _ => r)).

Definition emit_cpu (clk_ next_pc_ a b c : Z) (r : MemoryAccessRecord) (exit_code_ : Z) : EM unit :=
  modify (fun s => upd_record (upd_cpu_events (push
    (mkCpuEvent clk_ (pc (state s)) next_pc_ a (ma_a r) b (ma_b r) c (ma_c r) exit_code_))) s).

Definition emit_alu_event (o : Opcode) (a b c : Z) (op_a_0 : bool) : EM unit :=
  s <- gets id ;;
  let event := mkAluEvent (pc (state s)) o a b c op_a_0 in
  match o with
  | ADD => modify (upd_record (upd_add_events (push event)))
  | SUB => modify (upd_record (upd_sub_events (push event)))
  | XOR | OR | AND => modify (upd_record (upd_bitwise_events (push event)))
  | SLL => modify (upd_record (upd_shift_left_events (push event)))
  | SRL | SRA => modify (upd_record (upd_shift_right_events (push event)))
  | SLT | SLTU => modify (upd_record (upd_lt_events (push event)))
  | MUL | MULHU | MULHSU | MULH => modify (upd_record (upd_mul_events (push event)))
  | DIVU | REMU | DIV | REM =>
      modify (upd_record (fun r =>
        emit_divrem_dependencies event (upd_divrem_events (push event) r)))
  | _ => panic
  end.

Definition emit_mem_instr_event (o : Opcode) (a b c : Z) (op_a_0 : bool) : EM unit :=
  s <- gets id ;;
  acc <- unwrap (ma_memory (memory_accesses s)) ;;
  let event := mkMemInstrEvent (shard s) (clk (state s)) (pc (state s)) o a b c op_a_0 acc in
  modify (upd_record (fun r =>
    emit_memory_dependencies event (current_record acc)
      (upd_memory_instr_events (push event) r))).

Definition emit_branch_event (o : Opcode) (a b c : Z) (op_a_0 : bool) (next_pc_ : Z) : EM unit :=
  s <- gets id ;;
  let event := mkBranchEvent (pc (state s)) next_pc_ o a b c op_a_0 in
  modify_record (fun r => emit_branch_dependencies event (upd_branch_events (push event) r)).

Definition emit_jump_event (o : Opcode) (a b c : Z) (op_a_0 : bool) (next_pc_ : Z) : EM unit :=
  s <- gets id ;;
  let event := mkJumpEvent (pc (state s)) next_pc_ o a b c op_a_0 in
  modify_record (fun r => emit_jump_dependencies event (upd_jump_events (push event) r)).

Definition emit_auipc_event (o : Opcode) (a b c : Z) (op_a_0 : bool) : EM unit :=
  s <- gets id ;;
  let event := mkAUIPCEvent (pc (state s)) o a b c op_a_0 in
  modify (upd_record (fun r =>
    emit_auipc_dependency event (upd_auipc_events (push event) r))).

Definition syscall_event (clk_ : Z) (a_record : option MemoryRecordEnum) (op_a_0 : option bool)
    (code : SyscallCode) (arg1 arg2 next_pc_ : Z) (s : Executor) : SyscallEvent :=
  let '(write, is_real) := match a_record with
                           | Some (MWrite r) => (r, true)
                           | _ => (MemoryWriteRecord_default, false)
                           end in
  mkSyscallEvent (pc (state s)) next_pc_ (shard s) clk_ write is_real (default false op_a_0)
    code (syscall_id code) arg1 arg2.

Definition emit_syscall_event (clk_ : Z) (a_record : option MemoryRecordEnum) (op_a_0 : bool)
    (code : SyscallCode) (arg1 arg2 next_pc_ : Z) : EM unit :=
  modify (fun s => upd_record (upd_syscall_events
    (push (syscall_event clk_ a_record (Some op_a_0) code arg1 arg2 next_pc_ s))) s).

Definition emit_events (clk_ next_pc_ : Z) (i : Instruction) (code : SyscallCode) (a b c : Z)
    (op_a_0 : bool) (r : MemoryAccessRecord) (exit_code_ : Z) : EM unit :=
  emit_cpu clk_ next_pc_ a b c r exit_code_ ;;;
  if is_alu_instruction i then emit_alu_event (opcode i) a b c op_a_0
  else if is_memory_load_instruction i || is_memory_store_instruction i then
    emit_mem_instr_event (opcode i) a b c op_a_0
  else if is_branch_instruction i then emit_branch_event (opcode i) a b c op_a_0 next_pc_
  else if is_jump_instruction i then emit_jump_event (opcode i) a b c op_a_0 next_pc_
  else if is_auipc_instruction i then emit_auipc_event (opcode i) a b c op_a_0
  else if is_ecall_instruction i then
    emit_syscall_event clk_ (ma_a r) op_a_0 code b c next_pc_
  else panic.

(** ** Operand fetch *)

Definition alu_rr (i : Instruction) : EM (Register * Z * Z) :=
  if negb (imm_c i) then
    '(rd, rs1, rs2) <- unwrap (r_type i) ;;
    c <- rr_cpu rs2 PC ;;
    b <- rr_cpu rs1 PB ;;
    ret (rd, b, c)
  else if negb (imm_b i) && imm_c i then
    '(rd, rs1, imm) <- unwrap (i_type i) ;;
    b <- rr_cpu rs1 PB ;;
    ret (rd, b, imm)
  else
    rd <- unwrap (reg_from_u8 (op_a i)) ;;
    ret (rd, op_b i, op_c i).

Definition alu_rw (rd : Register) (a : Z) : EM unit := rw_cpu rd a.

Definition load_rr (i : Instruction) : EM (Register * Z * Z * Z * Z) :=
  '(rd, rs1, imm) <- unwrap (i_type i) ;;
  b <- rr_cpu rs1 PB ;;
  let addr := b +u imm in
  memory_value <- mr_cpu (align addr) ;;
  ret (rd, b, imm, addr, memory_value).

Definition store_rr (i : Instruction) : EM (Z * Z * Z * Z * Z) :=
  '(rs1, rs2, imm) <- unwrap (s_type i) ;;
  b <- rr_cpu rs2 PB ;;
  a <- rr_cpu rs1 PA ;;
  let addr := b +u imm in
  memory_value <- word (align addr) ;;
  ret (a, b, imm, addr, memory_value).

Definition branch_rr (i : Instruction) : EM (Z * Z * Z) :=
  '(rs1, rs2, imm) <- unwrap (b_type i) ;;
  b <- rr_cpu rs2 PB ;;
  a <- rr_cpu rs1 PA ;;
  ret (a, b, imm).
