(* ===== verification/Context.v ===== *)
(** * Syscall interface (crates/core/executor/src/syscalls/{mod,context}.rs)

    [SyscallContext] wraps the executor for the duration of a syscall; [Syscall]
    is the trait every system call implements.  The executor only sees the
    trait, through its [syscall_map]. *)

From Stdlib Require Import ZArith Lia Bool.
From stdpp Require Import base gmap list.
From S2P Require Import Prelude Monad Isa SyscallCode Memory Events Air Record Alu State.
From S2P Require Import Executor.

Local Open Scope Z_scope.
Local Open Scope rv_scope.

Record SyscallContext : Type := mkSyscallContext {
  ctx_current_shard : Z;
  ctx_clk : Z;
  ctx_next_pc : Z;
  ctx_exit_code : Z;
  rt : Executor;
  ctx_local_memory_access : gmap Z MemoryLocalEvent
}.

Definition upd_ctx_next_pc (f : Z -> Z) (x : SyscallContext) : SyscallContext :=
  mkSyscallContext (ctx_current_shard x) (ctx_clk x) (f (ctx_next_pc x)) (ctx_exit_code x) (rt x)
    (ctx_local_memory_access x).
Definition upd_ctx_exit_code (f : Z -> Z) (x : SyscallContext) : SyscallContext :=
  mkSyscallContext (ctx_current_shard x) (ctx_clk x) (ctx_next_pc x) (f (ctx_exit_code x)) (rt x)
    (ctx_local_memory_access x).
Definition upd_rt (f : Executor -> Executor) (x : SyscallContext) : SyscallContext :=
  mkSyscallContext (ctx_current_shard x) (ctx_clk x) (ctx_next_pc x) (ctx_exit_code x) (f (rt x))
    (ctx_local_memory_access x).
Definition upd_ctx_local_memory_access
    (f : gmap Z MemoryLocalEvent -> gmap Z MemoryLocalEvent) (x : SyscallContext)
    : SyscallContext :=
  mkSyscallContext (ctx_current_shard x) (ctx_clk x) (ctx_next_pc x) (ctx_exit_code x) (rt x)
    (f (ctx_local_memory_access x)).
Definition upd_ctx_clk (f : Z -> Z) (x : SyscallContext) : SyscallContext :=
  mkSyscallContext (ctx_current_shard x) (f (ctx_clk x)) (ctx_next_pc x) (ctx_exit_code x) (rt x)
    (ctx_local_memory_access x).

Abbreviation CM := (M SyscallContext ExecutionError).

(** The trait [Syscall]. *)
Record Syscall : Type := mkSyscall {
  execute : SyscallCode -> Z -> Z -> CM (option Z);
  num_extra_cycles : Z
}.

Definition SyscallContext_new (s : Executor) : SyscallContext :=
  mkSyscallContext (shard s) (clk (state s)) (pc (state s) +u 4) 0 s ∅.

(** A computation on the executor behind [ctx.rt]. *)
Definition with_rt {A} (m : EM A) : CM A := fun ctx =>
  match m (rt ctx) with
  | Ok a s => Ok a (upd_rt (fun _ => s) ctx)
  | Err e s => Err e (upd_rt (fun _ => s) ctx)
  | Panic => Panic
  end.

(** ** Methods *)

(** [record_mut().precompile_events.add_event(..)]: asserts that the code has a
    precompile table. *)
Definition record_add_precompile_event (code : SyscallCode) (sev : SyscallEvent)
    (ev : PrecompileEvent) : CM unit :=
  with_rt (modify_record (fun r =>
    (fun evs => upd_precompile_events (fun _ => evs) r) <$>
      precompile_add_event code sev ev (precompile_events r))).

Definition add_precompile_event (code : SyscallCode) (sev : SyscallEvent) (ev : PrecompileEvent)
    : CM unit :=
  ctx <- gets id ;;
  when (is_trace (rt ctx)) (record_add_precompile_event code sev ev).

(** An access that also receives [Some(&mut self.local_memory_access)]. *)
Definition traced {A} (m : option (gmap Z MemoryLocalEvent) ->
    EM (A * option (gmap Z MemoryLocalEvent))) : CM A :=
  ctx <- gets id ;;
  '(a, lma) <- with_rt (m (Some (ctx_local_memory_access ctx))) ;;
  modify (upd_ctx_local_memory_access (fun old => default old lma)) ;;;
  ret a.

Definition ctx_mr (addr : Z) : CM (MemoryReadRecord * Z) :=
  ctx <- gets id ;;
  r <- traced (mr addr (ctx_current_shard ctx) (ctx_clk ctx)) ;;
  ret (r, rd_value r).

(** [addr + i * 4] for [i] in [0..len]. *)
Definition word_addrs (addr : Z) (len : nat) : list Z :=
  map (fun i => addr +u (i *u 4)) (zseq 0 len).

Definition mr_slice (addr : Z) (len : nat) : CM (list MemoryReadRecord * list Z) :=
  l <- collect (word_addrs addr len) ctx_mr ;;
  ret (map fst l, map snd l).

Definition ctx_mw (addr value : Z) : CM MemoryWriteRecord :=
  ctx <- gets id ;;
  traced (mw addr value (ctx_current_shard ctx) (ctx_clk ctx)).

Definition mw_slice (addr : Z) (values : list Z) : CM (list MemoryWriteRecord) :=
  collect (zip (word_addrs addr (length values)) values) (fun '(a, v) => ctx_mw a v).

Definition ctx_rr_traced (r : Register) : CM (MemoryReadRecord * Z) :=
  ctx <- gets id ;;
  m <- traced (rr_traced r (ctx_current_shard ctx) (ctx_clk ctx)) ;;
  ret (m, rd_value m).

Definition ctx_rw_traced (r : Register) (value : Z) : CM (MemoryWriteRecord * Z) :=
  ctx <- gets id ;;
  m <- traced (rw_traced r value (ctx_current_shard ctx) (ctx_clk ctx)) ;;
  ret (m, wr_value m).

(** One step of [postprocess]'s drain: the executor's own event for the address
    moves to the record. *)
Definition flush_local (addr : Z) (s : Executor) : Executor :=
  match local_memory_access s !! addr with
  | Some e => upd_record (upd_cpu_local_memory_access (push e))
                (upd_local_memory_access (delete addr) s)
  | None => s
  end.

Definition postprocess : CM (list MemoryLocalEvent) :=
  ctx <- gets id ;;
  if tracing (rt ctx) then
    let drained := map_to_list (ctx_local_memory_access ctx) in
    modify (upd_ctx_local_memory_access (fun _ => ∅)) ;;;
    for_each drained (fun '(addr, _) => modify (upd_rt (flush_local addr))) ;;;
    ret (map snd drained)
  else ret [].

Definition register_unsafe (r : Register) : CM Z := with_rt (register r).
Definition byte_unsafe (addr : Z) : CM Z := with_rt (byte addr).
Definition word_unsafe (addr : Z) : CM Z := with_rt (word addr).
Definition slice_unsafe (addr : Z) (len : nat) : CM (list Z) :=
  collect (word_addrs addr len) word_unsafe.

Definition set_next_pc (v : Z) : CM unit := modify (upd_ctx_next_pc (fun _ => v)).
Definition set_exit_code (v : Z) : CM unit := modify (upd_ctx_exit_code (fun _ => v)).

Definition ctx_syscall_event (clk_ : Z) (code : SyscallCode) (arg1 arg2 : Z) : CM SyscallEvent :=
  gets (fun ctx => syscall_event clk_ None None code arg1 arg2 (ctx_next_pc ctx) (rt ctx)).

(** ** Rules for [with_rt] *)

(** The invariant [I] of the executor, seen through the context. *)
Definition on_rt (I : Executor -> Prop) (ctx : SyscallContext) : Prop := I (rt ctx).

Lemma keeps_with_rt {A} I (m : EM A) : keeps I m -> keeps (on_rt I) (with_rt m).
Proof.
  intros H ctx Hc. unfold with_rt. specialize (H (rt ctx) Hc).
  destruct (m (rt ctx)); done.
Qed.

Lemma keeps_modify_rt I f : (forall s, I s -> I (f s)) -> keeps (E := ExecutionError) (on_rt I) (modify (upd_rt f)).
Proof. intros H. apply keeps_modify. intros ctx. apply H. Qed.

Lemma keeps_modify_ctx (I : Executor -> Prop) f :
  (forall c, rt (f c) = rt c) -> keeps (E := ExecutionError) (on_rt I) (modify f).
Proof. intros H. apply keeps_modify. intros ctx Hc. unfold on_rt. by rewrite H. Qed.

Lemma keeps_traced {A} I m :
  (forall lma, keeps I (m lma)) -> keeps (on_rt I) (traced (A := A) m).
Proof.
  intros H. unfold traced. apply keeps_bind; [apply keeps_gets|]. intros ctx.
  apply keeps_bind; [by apply keeps_with_rt|]. intros [a lma].
  apply keeps_bind; [by apply keeps_modify_ctx|]. intros _. apply keeps_ret.
Qed.
