(* ===== verification/Step.v ===== *)
(** * Instruction execution and shard boundaries (crates/core/executor/src/executor.rs)

    [execute_instruction] .. [bump_record].  The syscall table is the
    argument [syscall_map] of the section: the executor uses a system call only
    through the interface [Syscall]. *)

From Stdlib Require Import ZArith Lia Bool.
From stdpp Require Import base gmap list.
From S2P Require Import Prelude Monad Isa SyscallCode Memory Events ByteLookup Air Record Alu.
From S2P Require Import Dependencies State Executor Context.

Local Open Scope Z_scope.
Local Open Scope rv_scope.

(** ** Instruction handlers *)

Definition execute_alu (i : Instruction) : EM (Z * Z * Z) :=
  '(rd, b, c) <- alu_rr i ;;
  a <- unwrap (alu_result (opcode i) b c) ;;
  alu_rw rd a ;;;
  ret (a, b, c).

(** A match result: unreachable, a misaligned access, or a value. *)
Definition checked (o : Opcode) (addr : Z) (r : option (option Z)) : EM Z :=
  match r with
  | None => panic
  | Some None => throw (InvalidMemoryAccess o addr)
  | Some (Some v) => ret v
  end.

Definition execute_load (i : Instruction) : EM (Z * Z * Z) :=
  '(rd, b, c, addr, memory_read_value) <- load_rr i ;;
  a <- checked (opcode i) addr (load_value (opcode i) addr memory_read_value) ;;
  rw_cpu rd a ;;;
  ret (a, b, c).

Definition execute_store (i : Instruction) : EM (Z * Z * Z) :=
  '(a, b, c, addr, memory_read_value) <- store_rr i ;;
  v <- checked (opcode i) addr (store_value (opcode i) addr a memory_read_value) ;;
  mw_cpu (align addr) v ;;;
  ret (a, b, c).

Definition execute_branch (i : Instruction) (next_pc_ : Z) : EM (Z * Z * Z * Z) :=
  '(a, b, c) <- branch_rr i ;;
  taken <- unwrap (branch_taken (opcode i) a b) ;;
  s <- gets id ;;
  ret (a, b, c, if (taken : bool) then pc (state s) +u c else next_pc_).

Definition execute_jump (i : Instruction) : EM (Z * Z * Z * Z) :=
  match opcode i with
  | JAL =>
      '(rd, imm) <- unwrap (j_type i) ;;
      s <- gets id ;;
      let a := pc (state s) +u 4 in
      rw_cpu rd a ;;;
      ret (a, imm, 0, pc (state s) +u imm)
  | JALR =>
      '(rd, rs1, imm) <- unwrap (i_type i) ;;
      b <- rr_cpu rs1 PB ;;
      s <- gets id ;;
      let a := pc (state s) +u 4 in
      rw_cpu rd a ;;;
      ret (a, b, imm, b +u imm)
  | _ => panic
  end.

Definition execute_auipc (i : Instruction) : EM (Z * Z * Z) :=
  '(rd, imm) <- unwrap (u_type i) ;;
  s <- gets id ;;
  let a := pc (state s) +u imm in
  rw_cpu rd a ;;;
  ret (a, imm, imm).

Definition is_some {A} (x : option A) : bool := match x with Some _ => true | None => false end.

(** What an instruction handler hands to the end of the cycle. *)
Record Outcome : Type := mkOutcome {
  out_a : Z; out_b : Z; out_c : Z;
  out_clk : Z; out_next_pc : Z;
  out_syscall : SyscallCode;
  out_exit_code : Z
}.

Section Machine.
  Context (syscall_map : SyscallCode -> option Syscall).

(** [execute_ecall].  The context's executor is the state threaded on. *)
Definition run_syscall (impl : Syscall) (code : SyscallCode) (b c : Z)
    : EM (option Z * Z * Z) := fun s =>
  match execute impl code b c (SyscallContext_new s) with
  | Ok r ctx => Ok (r, ctx_next_pc ctx, ctx_exit_code ctx) (rt ctx)
  | Err e ctx => Err e (rt ctx)
  | Panic => Panic
  end.

Definition count_syscall (code : SyscallCode) (m : gmap SyscallCode Z) : gmap SyscallCode Z :=
  let k := count_map code in <[k := u64 (default 0 (m !! k) + 1)]> m.

Definition execute_ecall : EM Outcome :=
  id_ <- register X5 ;;
  c <- rr_cpu X11 PC ;;
  b <- rr_cpu X10 PB ;;
  code <- unwrap (from_u32 id_) ;;
  s <- gets id ;;
  when (print_report s && negb (unconstrained s))
    (modify (upd_report (upd_report_syscall_counts (enum_add code 1)))) ;;;
  (if unconstrained s && (negb (code_eqb code EXIT_UNCONSTRAINED) && negb (code_eqb code WRITE))
   then throw (InvalidSyscallUsage id_) else ret tt) ;;;
  modify (upd_state (upd_syscall_counts (count_syscall code))) ;;;
  match syscall_map code with
  | None => throw (UnsupportedSyscall id_)
  | Some impl =>
      '(res, precompile_next_pc, exit_code_) <- run_syscall impl code b c ;;
      let a := default id_ res in
      (if code_eqb code HALT && negb (exit_code_ =? 0)
       then throw (HaltWithNonZeroExitCode exit_code_) else ret tt) ;;;
      '(b, c) <- (if code_eqb code EXIT_UNCONSTRAINED then
                    b' <- register X10 ;; c' <- register X11 ;; ret (b', c')
                  else ret (b, c)) ;;
      rw_cpu X5 a ;;;
      s <- gets id ;;
      let clk_ := clk (state s) in
      modify (upd_state (upd_clk (fun k => k +u num_extra_cycles impl))) ;;;
      ret (mkOutcome a b c clk_ precompile_next_pc code exit_code_)
  end.

(** The opcode counters of a constrained cycle. *)
Definition count_events (i : Instruction) (m : EnumMap Opcode) : EnumMap Opcode :=
  let m := enum_add (opcode i) 1 m in
  if is_memory_load_instruction i then enum_add ADD 2 m
  else if is_jump_instruction i then enum_add ADD 1 m
  else if is_branch_instruction i then enum_add SLTU 2 (enum_add ADD 1 m)
  else if is_divrem_instruction i then enum_add SLTU 1 (enum_add ADD 2 (enum_add MUL 2 m))
  else m.

Definition count_instruction (i : Instruction) : EM unit :=
  s <- gets id ;;
  when (negb (unconstrained s))
    (modify (fun s => upd_local_counts (upd_lc_event_counts (count_events i))
                        (upd_report (upd_opcode_counts (enum_add (opcode i) 1)) s))).

(** The dispatch of [execute_instruction]. *)
Definition dispatch (i : Instruction) (clk_ next_pc_ : Z) : EM Outcome :=
  let out '(a, b, c) := mkOutcome a b c clk_ next_pc_ HALT 0 in
  let out_pc '(a, b, c, np) := mkOutcome a b c clk_ np HALT 0 in
  if is_alu_instruction i then r <- execute_alu i ;; ret (out r)
  else if is_memory_load_instruction i then r <- execute_load i ;; ret (out r)
  else if is_memory_store_instruction i then r <- execute_store i ;; ret (out r)
  else if is_branch_instruction i then r <- execute_branch i next_pc_ ;; ret (out_pc r)
  else if is_jump_instruction i then r <- execute_jump i ;; ret (out_pc r)
  else if is_auipc_instruction i then r <- execute_auipc i ;; ret (out r)
  else if is_ecall_instruction i then execute_ecall
  else if is_ebreak_instruction i then throw Breakpoint
  else if is_unimp_instruction i then throw Unimplemented
  else panic.

(** The end of [execute_instruction]: a destination [x0] reads as 0, the events
    are emitted, [pc] and [clk] advance. *)
Definition finish (i : Instruction) (o : Outcome) : EM unit :=
  let op_a_0 := op_a i =? reg_idx X0 in
  let a := if op_a_0 then 0 else out_a o in
  s <- gets id ;;
  when (is_trace s)
    (emit_events (out_clk o) (out_next_pc o) i (out_syscall o) a (out_b o) (out_c o) op_a_0
       (memory_accesses s) (out_exit_code o)) ;;;
  modify (upd_state (upd_pc (fun _ => out_next_pc o))) ;;;
  modify (upd_state (upd_clk (fun k => k +u 4))).

Definition execute_instruction (i : Instruction) : EM unit :=
  s <- gets id ;;
  when (is_trace s) (modify (upd_memory_accesses (fun _ => MemoryAccessRecord_default))) ;;;
  count_instruction i ;;;
  o <- dispatch i (clk (state s)) (pc (state s) +u 4) ;;
  finish i o.

(** ** Shard boundaries *)

(** [estimate_riscv_event_counts], in [u64] arithmetic. *)
Definition estimate_riscv_event_counts (cpu_cycles touched_addresses syscalls_sent_ : Z)
    (n : EnumMap Opcode) (old : EnumMap RiscvAirId.t) : EnumMap RiscvAirId.t :=
  let sum l := fold_left (fun acc o => u64 (acc + n o)) l 0 in
  let div_rem := sum [DIV; DIVU; REM; REMU] in
  fun air =>
    match air with
    | RiscvAirId.Cpu => cpu_cycles
    | RiscvAirId.AddSub => sum [ADD; SUB]
    | RiscvAirId.Mul => u64 (sum [MUL; MULH; MULHU; MULHSU] + div_rem)
    | RiscvAirId.Bitwise => sum [XOR; OR; AND]
    | RiscvAirId.ShiftLeft => sum [SLL]
    | RiscvAirId.ShiftRight => sum [SRL; SRA]
    | RiscvAirId.DivRem => div_rem
    | RiscvAirId.Lt => u64 (sum [SLT; SLTU] + div_rem)
    | RiscvAirId.MemoryLocal =>
        (touched_addresses + (NUM_LOCAL_MEMORY_ENTRIES_PER_ROW_EXEC - 1))
          / NUM_LOCAL_MEMORY_ENTRIES_PER_ROW_EXEC
    | RiscvAirId.Branch => sum [BEQ; BNE; BLT; BGE; BLTU; BGEU]
    | RiscvAirId.Jump => sum [JAL; JALR]
    | RiscvAirId.Auipc => sum [AUIPC; UNIMP; EBREAK]
    | RiscvAirId.MemoryInstrs => sum [LB; LH; LW; LBU; LHU; SB; SH; SW]
    | RiscvAirId.SyscallInstrs => sum [ECALL]
    | RiscvAirId.SyscallCore => syscalls_sent_
    | RiscvAirId.Global => u64 (2 * touched_addresses + sum [ECALL])
    | _ => old air
    end.

Definition usize_MAX : Z := 2 ^ 64 - 1.

(** The distance of the counts to one maximal shape: [None] when a chip already
    exceeds it ([shape_too_small]). *)
Fixpoint shape_distance (airs : list RiscvAirId.t) (shape counts : EnumMap RiscvAirId.t)
    (l_infinity : Z) : option Z :=
  match airs with
  | [] => Some l_infinity
  | air :: airs' =>
      if bool_decide (air = RiscvAirId.Cpu) then shape_distance airs' shape counts l_infinity
      else
        let threshold := Z.shiftl 1 (shape air mod 64) in
        let count := counts air in
        if threshold <? count then None
        else
          let distance := if count =? 0 then usize_MAX else threshold - count in
          shape_distance airs' shape counts (Z.min distance l_infinity)
  end.

Definition shape_fits (clk_ freq : Z) (counts shape : EnumMap RiscvAirId.t) : bool :=
  let cpu_threshold := shape RiscvAirId.Cpu in
  if u32 (Z.shiftl (u32 (Z.shiftl 1 (cpu_threshold mod 32))) 2) <? clk_ then false
  else match shape_distance RiscvAirId.core_air_ids shape counts usize_MAX with
       | None => false
       | Some l_infinity => u64 (32 * freq) <=? l_infinity
       end.

(** The shape check of [execute_cycle]: returns [shape_match_found]. *)
Definition check_shapes : EM bool :=
  s <- gets id ;;
  massert (negb (shape_check_frequency s =? 0)) ;;;
  if global_clk (state s) mod shape_check_frequency s =? 0 then
    modify (upd_event_counts (estimate_riscv_event_counts
      (Z.shiftr (clk (state s)) 2) (local_mem (local_counts s)) (syscalls_sent (local_counts s))
      (lc_event_counts (local_counts s)))) ;;;
    s <- gets id ;;
    if lde_size_check s then
      let padded := pad_rv32im_event_counts (event_counts s) (shape_check_frequency s) in
      ret (negb (lde_size_threshold s <? estimate_riscv_lde_size padded (costs s)))
    else match maximal_shapes s with
         | None => ret true
         | Some shapes =>
             let found := existsb (shape_fits (clk (state s)) (shape_check_frequency s)
                                     (event_counts s)) shapes in
             when (negb found)
               (modify (upd_record (upd_counts (fun _ => Some (event_counts s))))) ;;;
             ret found
         end
  else ret true.

(** [bump_record]: closes the record of the current shard. *)
Definition bump_record : EM unit :=
  modify (upd_local_counts (fun _ => LocalCounts_default)) ;;;
  s <- gets id ;;
  when (is_trace s)
    (modify (fun s =>
       upd_local_memory_access (fun _ => ∅)
         (upd_record (upd_cpu_local_memory_access (fun l =>
            l ++ map snd (map_to_list (local_memory_access s)))) s))) ;;;
  modify (fun s =>
    let removed := record s in
    upd_records (push removed)
      (upd_record (fun _ =>
         upd_public_values (fun _ => public_values removed)
           (ExecutionRecord_new (program s))) s)).

(** The constrained part of [execute_cycle] after the instruction. *)
Definition end_shard_if_full : EM unit :=
  s <- gets id ;;
  when (negb (unconstrained s))
    (let cpu_exit := shard_size s <=? max_syscall_cycles s +u clk (state s) in
     shape_match_found <- check_shapes ;;
     when (cpu_exit || negb shape_match_found)
       (modify (upd_state (upd_current_shard (fun n => n +u 1))) ;;;
        modify (upd_state (upd_clk (fun _ => 0))) ;;;
        bump_record)).

(** [pc == 0] or past the last instruction. *)
Definition is_done (s : Executor) : bool :=
  (pc (state s) =? 0) ||
  (u32 (Z.of_nat (length (instructions (program s))) * 4) <=? (pc (state s) -u pc_base (program s))).

Definition execute_cycle : EM bool :=
  s <- gets id ;;
  i <- unwrap (fetch (program s) (pc (state s))) ;;
  execute_instruction i ;;;
  modify (upd_state (upd_global_clk (fun n => u64 (n + 1)))) ;;;
  end_shard_if_full ;;;
  s <- gets id ;;
  match max_cycles s with
  | Some limit => if limit <=? global_clk (state s) then throw (ExceededCycleLimit limit) else ret tt
  | None => ret tt
  end ;;;
  let done := is_done s in
  if done && unconstrained s then throw EndInUnconstrained else ret done.

(** A cycle that returns: the instruction, then the shard boundary. *)
Lemma execute_cycle_inv s d s' : execute_cycle s = Ok d s' ->
  exists i s1, fetch (program s) (pc (state s)) = Some i /\ execute_instruction i s = Ok tt s1 /\
    end_shard_if_full (upd_state (upd_global_clk (fun n => u64 (n + 1))) s1) = Ok tt s' /\
    d = is_done s' /\ (forall l, max_cycles s' = Some l -> global_clk (state s') < l).
Proof.
  unfold execute_cycle. intros E. unfold bind at 1, gets at 1 in E. change (id s) with s in E.
  destruct (fetch (program s) (pc (state s))) as [i|] eqn:Hf; [|discriminate E].
  unfold unwrap at 1 in E. rewrite bind_ret_l in E. apply bind_inv_ok in E as ([] & s1 & E1 & E).
  unfold bind at 1, modify in E. apply bind_inv_ok in E as ([] & s2 & E2 & E).
  unfold bind at 1, gets at 1 in E. change (id s2) with s2 in E.
  apply bind_inv_ok in E as ([] & s3 & E3 & E).
  assert (s3 = s2 /\ forall l, max_cycles s2 = Some l -> global_clk (state s2) < l) as [-> Hl].
  { destruct (max_cycles s2) as [l|].
    - destruct (Z.leb_spec l (global_clk (state s2))); [discriminate E3|]. injection E3 as <-.
      split; [reflexivity|]. by intros ? [= <-].
    - injection E3 as <-. done. }
  cbv zeta in E. destruct (_ && _); [discriminate E|]. injection E as <- <-.
  exists i, s1. split_and!; [done | exact E1 | exact E2 | reflexivity | exact Hl].
Qed.
End Machine.
