(* ===== verification/Run.v ===== *)
(** * Program execution (crates/core/executor/src/executor.rs)

    [Executor::with_context] and [execute] .. [postprocess]: initialisation, the
    execution loop over a batch of shards, the public values of the shards,
    checkpoints, and the [run_*] entry points.  Loops of the source that need
    not terminate take [fuel]; running out of it is the result [None]. *)

From Stdlib Require Import ZArith Lia Bool.
From stdpp Require Import base gmap list.
From S2P Require Import Prelude Monad Isa SyscallCode Memory Events ByteLookup Air Record Alu.
From S2P Require Import Dependencies State Executor Context Step.

Local Open Scope Z_scope.
Local Open Scope rv_scope.

(** ** Construction *)

(** The options and context fields [with_context] reads. *)
Record CoreOpts : Type := mkCoreOpts {
  opt_shard_size : Z;
  opt_shard_batch_size : Z
}.

Record SP1Context : Type := mkSP1Context {
  cx_max_cycles : option Z;
  cx_deferred_proof_verification : bool
}.

Section Machine.
  Context (syscall_map : SyscallCode -> option Syscall).

(** The largest [num_extra_cycles] of the table. *)
Definition max_extra_cycles : Z :=
  fold_left Z.max (omap (fun c => num_extra_cycles <$> syscall_map c) all_codes) 0.

Definition with_context (p : Program) (opts : CoreOpts) (cx : SP1Context) : Executor :=
  mkExecutor p (ExecutionState_new (pc_start p)) Flat.empty Flat.empty ExecutionReport_default
    Trace MemoryAccessRecord_default false false true
    (u32 (opt_shard_size opts) *u 4) (u32 (opt_shard_batch_size opts)) max_extra_cycles
    (cx_max_cycles cx) (ExecutionRecord_new p) [] ∅ ∅ ∅ ForkState_default LocalCounts_default
    None rv32im_costs (cx_deferred_proof_verification cx) 16 false 0 enum_zero.

Definition Executor_new (p : Program) (opts : CoreOpts) : Executor :=
  with_context p opts (mkSP1Context None true).

Definition recover (p : Program) (st : ExecutionState) (opts : CoreOpts) : Executor :=
  upd_state (fun _ => st) (Executor_new p opts).

(** ** The execution loop *)

(** [initialize]: loads the memory image. *)
Definition initialize : EM unit :=
  modify (upd_state (upd_clk (fun _ => 0))) ;;;
  s <- gets id ;;
  m <- unwrap (Flat.from_iter (memory (state s))
                 ((fun '(a, v) => (a, mkMemoryRecord 0 0 v)) <$>
                    map_to_list (memory_image (program s)))) ;;
  modify (upd_state (upd_memory (fun _ => m))).

(** The loop of [execute]; [Some done] when it breaks. *)
Fixpoint execute_loop (fuel : nat) (current_shard_ num_shards_executed : Z) : EM (option bool) :=
  match fuel with
  | O => ret None
  | S fuel' =>
      done <- execute_cycle syscall_map ;;
      if (done : bool) then ret (Some true)
      else
        s <- gets id ;;
        if (0 <? shard_batch_size s) && negb (current_shard_ =? current_shard (state s)) then
          let n := num_shards_executed + 1 in
          if n =? shard_batch_size s then ret (Some false)
          else execute_loop fuel' (current_shard (state s)) n
        else execute_loop fuel' current_shard_ num_shards_executed
  end.

(** The addresses of the global memory events, registers first. *)
Definition initialize_events (image : gmap Z Z) (uninit : Flat.Memory Z) (addrs : list Z)
    : list MemoryInitializeFinalizeEvent :=
  omap (fun addr =>
    match image !! addr with
    | Some _ => None
    | None => Some (mif_initialize addr (default 0 (mjoin (Flat.get uninit addr))) true)
    end) addrs.

Definition finalize_events (m : Flat.Memory MemoryRecord) (addrs : list Z)
    : option (list MemoryInitializeFinalizeEvent) :=
  mapM (fun addr => mif_finalize_from_record addr <$> mjoin (Flat.get m addr)) addrs.

(** The touched addresses other than 0, in event order. *)
Definition touched_addrs (m : Flat.Memory MemoryRecord) : list Z :=
  filter (fun a => is_Some (Flat.registers m !! a)) (zseq 1 31) ++ Flat.pt_keys (Flat.page_table m).

Definition run_postprocess : EM unit :=
  s <- gets id ;;
  when (emit_global_memory_events s &&
        (mode_eqb (executor_mode s) Trace || mode_eqb (executor_mode s) Checkpoint))
    (let m := memory (state s) in
     let addr_0 := Flat.registers m !! 0 in
     let addrs := touched_addrs m in
     let init_0 := mif_initialize 0 0 (is_some addr_0) in
     let fin_0 := mif_finalize_from_record 0 (default (mkMemoryRecord 0 1 0) addr_0) in
     let inits := initialize_events (memory_image (rprogram (record s)))
                    (uninitialized_memory (state s)) addrs in
     fins <- unwrap (finalize_events m addrs) ;;
     modify (upd_report (upd_touched_memory_addresses (fun _ => u64 (Z.of_nat (length addrs))))) ;;;
     modify (upd_record (fun r =>
       upd_global_memory_initialize_events (fun l => l ++ init_0 :: inits)
         (upd_global_memory_finalize_events (fun l => l ++ fin_0 :: fins) r)))).

(** The loop that sets the public values of all shards. *)
Fixpoint set_public_values (p : Program) (pv : PublicValues) (shard_ last_next_pc last_exit_code : Z)
    (rs : list ExecutionRecord) : list ExecutionRecord :=
  match rs with
  | [] => []
  | r :: rs' =>
      let pv' := upd_execution_shard (fun _ => shard_) pv in
      match cpu_events r, last (cpu_events r) with
      | e :: _, Some el =>
          upd_public_values (fun _ =>
            upd_start_pc (fun _ => cpu_pc e) (upd_next_pc (fun _ => cpu_next_pc el)
              (upd_exit_code (fun _ => cpu_exit_code el) pv'))) (upd_rprogram (fun _ => p) r) ::
          set_public_values p pv (shard_ +u 1) (cpu_next_pc el) (cpu_exit_code el) rs'
      | _, _ =>
          upd_public_values (fun _ =>
            upd_start_pc (fun _ => last_next_pc) (upd_next_pc (fun _ => last_next_pc)
              (upd_exit_code (fun _ => last_exit_code) pv'))) (upd_rprogram (fun _ => p) r) ::
          set_public_values p pv (shard_ +u 1) last_next_pc last_exit_code rs'
      end
  end.

(** [execute] after its loop. *)
Definition close_batch (start_shard : Z) (done : bool) : EM (option bool) :=
  s <- gets id ;;
  let pv := public_values (record s) in
  when done (run_postprocess ;;; bump_record) ;;;
  s <- gets id ;;
  when (negb (bool_decide (cpu_events (record s) = []))) bump_record ;;;
  modify (fun s => upd_records (set_public_values (program s) pv start_shard 0 0) s) ;;;
  ret (Some done).

Definition execute_batch (fuel : nat) : EM (option bool) :=
  s <- gets id ;;
  let start_shard := current_shard (state s) in
  when (global_clk (state s) =? 0) initialize ;;;
  s <- gets id ;;
  r <- execute_loop fuel (current_shard (state s)) 0 ;;
  match r with
  | None => ret None
  | Some done => close_batch start_shard done
  end.

(** ** Entry points *)

(** [while !self.execute()? {}]. *)
Fixpoint execute_until_done (rounds fuel : nat) : EM (option unit) :=
  match rounds with
  | O => ret None
  | S rounds' =>
      r <- execute_batch fuel ;;
      match r with
      | None => ret None
      | Some true => ret (Some tt)
      | Some false => execute_until_done rounds' fuel
      end
  end.

Definition run_fast (rounds fuel : nat) : EM (option unit) :=
  modify (upd_executor_mode (fun _ => Simple)) ;;;
  modify (upd_print_report (fun _ => true)) ;;;
  execute_until_done rounds fuel.

Definition run (rounds fuel : nat) : EM (option unit) :=
  modify (upd_executor_mode (fun _ => Trace)) ;;;
  modify (upd_print_report (fun _ => true)) ;;;
  execute_until_done rounds fuel.

Definition execute_record (fuel : nat) (emit : bool) : EM (option (list ExecutionRecord * bool)) :=
  modify (upd_executor_mode (fun _ => Trace)) ;;;
  modify (upd_emit_global_memory_events (fun _ => emit)) ;;;
  modify (upd_print_report (fun _ => true)) ;;;
  r <- execute_batch fuel ;;
  match r with
  | None => ret None
  | Some done =>
      s <- gets id ;;
      modify (upd_records (fun _ => [])) ;;;
      ret (Some (records s, done))
  end.

(** ** Checkpoints *)

(** Undo the batch's accesses: restore the saved records, remove the others. *)
Fixpoint restore_memory (saved : list (Z * option MemoryRecord)) (m : Flat.Memory MemoryRecord)
    : option (Flat.Memory MemoryRecord) :=
  match saved with
  | [] => Some m
  | (addr, Some r) :: saved' => m' ← Flat.insert m addr r; restore_memory saved' m'
  | (addr, None) :: saved' => m' ← Flat.remove m addr; restore_memory saved' m'
  end.

Fixpoint remove_new (flags : list (Z * bool)) (m : Flat.Memory Z) : option (Flat.Memory Z) :=
  match flags with
  | [] => Some m
  | (addr, is_old) :: flags' =>
      m' ← (if (is_old : bool) then Some m else Flat.remove m addr); remove_new flags' m'
  end.

(** The memory of a checkpoint: all of it at the end of the program when the
    memory events are emitted from the checkpoint, otherwise what the batch
    touched. *)
Definition checkpoint_memory (full : bool) (saved : Flat.Memory (option MemoryRecord))
    (m : Flat.Memory MemoryRecord) : option (Flat.Memory MemoryRecord) :=
  if full then restore_memory (Flat.into_iter saved) m
  else Flat.from_iter Flat.empty
         (omap (fun '(addr, r) => (fun r => (addr, r)) <$> r) (Flat.into_iter saved)).

Definition checkpoint_uninit (full : bool) (flags : Flat.Memory bool) (u : Flat.Memory Z)
    : option (Flat.Memory Z) :=
  if full then remove_new (Flat.into_iter flags) u
  else
    l ← mapM (fun '(addr, _) => (fun v => (addr, v)) <$> mjoin (Flat.get u addr))
          (filter (fun '(_, has_value) => has_value = true) (Flat.into_iter flags));
    Flat.from_iter Flat.empty l.

Definition execute_state (fuel : nat) (emit : bool)
    : EM (option (ExecutionState * PublicValues * bool)) :=
  modify (upd_memory_checkpoint (fun _ => Flat.empty)) ;;;
  modify (upd_executor_mode (fun _ => Checkpoint)) ;;;
  modify (upd_emit_global_memory_events (fun _ => emit)) ;;;
  s0 <- gets id ;;
  let bare := upd_memory (fun _ => Flat.empty)
                (upd_uninitialized_memory (fun _ => Flat.empty) (state s0)) in
  r <- execute_batch fuel ;;
  match r with
  | None => ret None
  | Some done =>
      s <- gets id ;;
      modify (upd_memory_checkpoint (fun _ => Flat.empty)) ;;;
      modify (upd_uninitialized_memory_checkpoint (fun _ => Flat.empty)) ;;;
      let full := done && negb (emit_global_memory_events s) in
      m <- unwrap (checkpoint_memory full (memory_checkpoint s) (memory (state s))) ;;
      u <- unwrap (checkpoint_uninit full (uninitialized_memory_checkpoint s)
                     (uninitialized_memory (state s))) ;;
      let checkpoint := upd_memory (fun _ => m) (upd_uninitialized_memory (fun _ => u) bare) in
      lr <- unwrap (last (records s)) ;;
      let pv := upd_start_pc (fun _ => pc (state s))
                  (upd_next_pc (fun _ => pc (state s)) (public_values lr)) in
      when (negb done) (modify (upd_records (fun _ => []))) ;;;
      ret (Some (checkpoint, pv, done))
  end.

Fixpoint checkpoint_until_done (rounds fuel : nat) (emit : bool) : EM (option unit) :=
  match rounds with
  | O => ret None
  | S rounds' =>
      r <- execute_state fuel emit ;;
      match r with
      | None => ret None
      | Some (_, _, true) => ret (Some tt)
      | Some (_, _, false) => checkpoint_until_done rounds' fuel emit
      end
  end.

Definition run_checkpoint (rounds fuel : nat) (emit : bool) : EM (option unit) :=
  modify (upd_executor_mode (fun _ => Simple)) ;;;
  modify (upd_print_report (fun _ => true)) ;;;
  checkpoint_until_done rounds fuel emit.
End Machine.
