(* ===== verification/Syscalls.v ===== *)
(** * System calls (crates/core/executor/src/syscalls)

    [HALT], the hint calls, [COMMIT], [COMMIT_DEFERRED_PROOFS],
    [VERIFY_SP1_PROOF], [WRITE] and the unconstrained block.  The hook registry,
    the deprecated hooks, the [SP1_ALLOW_DEPRECATED_HOOKS] environment variable
    and the subproof verifier come from outside the executor and are arguments
    of the definitions that use them. *)

From Stdlib Require Import ZArith Lia Bool Ascii String.
From stdpp Require Import base gmap list.
From S2P Require Import Prelude Monad Isa SyscallCode Memory Events Air Record Alu State.
From S2P Require Import Executor Context.

Local Open Scope Z_scope.
Local Open Scope rv_scope.

(** ** Halt and commitments *)

Definition HaltSyscall : Syscall := mkSyscall (fun _ exit_code_ _ =>
  set_next_pc 0 ;;; set_exit_code exit_code_ ;;; ret None) 0.

(** [array[idx] = w] on a digest of the public values; out of range panics. *)
Definition set_digest (sel : PublicValues -> list Z)
    (upd : (list Z -> list Z) -> PublicValues -> PublicValues) (idx w : Z) : CM (option Z) :=
  with_rt (modify_record (fun r =>
    (fun d => upd_public_values (upd (fun _ => d)) r) <$>
      slice_set (Z.to_nat idx) w (sel (public_values r)))) ;;;
  ret None.

Definition CommitSyscall : Syscall := mkSyscall (fun _ word_idx w =>
  set_digest committed_value_digest upd_committed_value_digest word_idx w) 0.

Definition CommitDeferredSyscall : Syscall := mkSyscall (fun _ word_idx w =>
  set_digest deferred_proofs_digest upd_deferred_proofs_digest word_idx w) 0.

(** ** Hints *)

(** [panic_if_input_exhausted]. *)
Definition panic_if_input_exhausted : CM unit :=
  ctx <- gets id ;;
  massert (match input_stream (state (rt ctx)) with [] => false | _ => true end).

Definition HintLenSyscall : Syscall := mkSyscall (fun _ _ _ =>
  panic_if_input_exhausted ;;;
  ctx <- gets id ;;
  ret (match input_stream (state (rt ctx)) with
       | [] => None
       | data :: _ => Some (u32 (Z.of_nat (length data)))
       end)) 0.

(** Which component [Memory::entry] selects. *)
Definition comp_of (addr : Z) : Flat.comp := if addr <? 32 then Flat.Reg else Flat.Page.

(** The word at byte offset [i], right-padded with zeros. *)
Definition hint_word (vec : list Z) (i : Z) : option Z :=
  let b k := default 0 (vec !! Z.to_nat (i + k)) in
  b1 ← vec !! Z.to_nat i;
  Some (from_le_bytes32 b1 (b 1) (b 2) (b 3)).

(** [entry(ptr + i)] of both maps; the address must not be initialised yet. *)
Definition hint_store (addr w : Z) : CM unit :=
  massert ((addr <? 32) || Flat.in_range addr) ;;;
  modify (upd_rt (upd_uninitialized_memory_checkpoint (Flat.or_insert (comp_of addr) addr false))) ;;;
  ctx <- gets id ;;
  let u := uninitialized_memory (state (rt ctx)) in
  massert (match Flat.lookup (comp_of addr) addr u with None => true | Some _ => false end) ;;;
  modify (upd_rt (upd_state (upd_uninitialized_memory (Flat.update (comp_of addr) addr w)))).

(** [(0..len).step_by(4)]. *)
Definition step_by_4 (len : Z) : list Z :=
  map (fun k => 4 * k) (zseq 0 (Z.to_nat ((len + 3) / 4))).

Definition HintReadSyscall : Syscall := mkSyscall (fun _ ptr len =>
  panic_if_input_exhausted ;;;
  ctx <- gets id ;;
  match input_stream (state (rt ctx)) with
  | [] => panic
  | vec :: rest =>
      modify (upd_rt (upd_state (upd_input_stream (fun _ => rest)))) ;;;
      massert (negb (unconstrained (rt ctx))) ;;;
      massert (u32 (Z.of_nat (length vec)) =? len) ;;;
      massert (ptr mod 4 =? 0) ;;;
      for_each (step_by_4 len) (fun i =>
        w <- unwrap (hint_word vec i) ;;
        hint_store (ptr +u i) w) ;;;
      ret None
  end) 0.

(** ** Unconstrained blocks *)

Definition EnterUnconstrainedSyscall : Syscall := mkSyscall (fun _ _ _ =>
  ctx <- gets id ;;
  massert (negb (unconstrained (rt ctx))) ;;;
  modify (upd_rt (fun s =>
    let fork := mkForkState (global_clk (state s)) (clk (state s)) (pc (state s)) ∅
                  (memory_accesses s) (record s) (executor_mode s) in
    upd_executor_mode (fun _ => Simple)
      (upd_unconstrained_state (fun _ => fork)
        (upd_memory_accesses (fun _ => MemoryAccessRecord_default)
          (upd_record (fun _ => ExecutionRecord_default)
            (upd_unconstrained (fun _ => true) s)))))) ;;;
  ret (Some 1)) 0.

(** Drain [memory_diff] into the memory. *)
Fixpoint apply_diff (diff : list (Z * option MemoryRecord)) (m : Flat.Memory MemoryRecord)
    : option (Flat.Memory MemoryRecord) :=
  match diff with
  | [] => Some m
  | (addr, Some r) :: diff' => m' ← Flat.insert m addr r; apply_diff diff' m'
  | (addr, None) :: diff' => m' ← Flat.remove m addr; apply_diff diff' m'
  end.

Definition exit_unconstrained (s : Executor) (m : Flat.Memory MemoryRecord) : Executor :=
  let fork := unconstrained_state s in
  upd_unconstrained (fun _ => false)
    (upd_executor_mode (fun _ => fork_executor_mode fork)
      (upd_memory_accesses (fun _ => fork_op_record fork)
        (upd_record (fun _ => fork_record fork)
          (upd_state (fun st =>
             upd_memory (fun _ => m)
               (upd_pc (fun _ => fork_pc fork)
                 (upd_clk (fun _ => fork_clk fork)
                   (upd_global_clk (fun _ => fork_global_clk fork) st)))) s)))).

Definition ExitUnconstrainedSyscall : Syscall := mkSyscall (fun _ _ _ =>
  ctx <- gets id ;;
  (if unconstrained (rt ctx) then
     m <- unwrap (apply_diff (map_to_list (memory_diff (unconstrained_state (rt ctx))))
                    (memory (state (rt ctx)))) ;;
     modify (upd_rt (fun s => exit_unconstrained s m)) ;;;
     set_next_pc (fork_pc (unconstrained_state (rt ctx)) +u 4)
   else ret tt) ;;;
  modify (upd_rt (upd_unconstrained_state (fun _ => ForkState_default))) ;;;
  ret (Some 0)) 0.

(** ** Deferred proofs *)

Section Verify.
  (** [SubproofVerifier::verify_deferred_proof], when a verifier is installed:
      proof, verifying key, vkey digest, public values digest. *)
  Context (subproof_verifier : option (list Z -> list Z -> list Z -> list Z -> bool)).

Definition VerifySyscall : Syscall := mkSyscall (fun _ vkey_ptr pv_digest_ptr =>
  massert (vkey_ptr mod 4 =? 0) ;;;
  massert (pv_digest_ptr mod 4 =? 0) ;;;
  vkey <- slice_unsafe vkey_ptr 8 ;;
  pv_digest <- slice_unsafe pv_digest_ptr 8 ;;
  ctx <- gets id ;;
  let st := state (rt ctx) in
  '(proof, proof_vk) <- unwrap (proof_stream st !! Z.to_nat (proof_stream_ptr st)) ;;
  modify (upd_rt (upd_state (upd_proof_stream_ptr (fun n => n + 1)))) ;;;
  (if deferred_proof_verification (rt ctx) then
     match subproof_verifier with
     | Some verify => massert (verify proof proof_vk vkey pv_digest)
     | None => ret tt
     end
   else ret tt) ;;;
  ret None) 0.
End Verify.

(** ** Strings

    A [&str] is the list of its Unicode scalar values. *)

Definition str (s : string) : list Z := map (fun c => Z.of_N (N_of_ascii c)) (list_ascii_of_string s).

Definition cont (b : Z) : bool := (0x80 <=? b) && (b <=? 0xBF).

Definition between (lo hi b : Z) : bool := (lo <=? b) && (b <=? hi).

(** [core::str::from_utf8]: the well-formed UTF-8 byte sequences. *)
Fixpoint from_utf8 (l : list Z) : option (list Z) :=
  match l with
  | [] => Some []
  | b0 :: l1 =>
      if b0 <? 0x80 then (fun r => b0 :: r) <$> from_utf8 l1
      else match l1 with
           | [] => None
           | b1 :: l2 =>
               if between 0xC2 0xDF b0 then
                 if cont b1 then
                   (fun r => (b0 - 0xC0) * 64 + (b1 - 0x80) :: r) <$> from_utf8 l2
                 else None
               else match l2 with
                    | [] => None
                    | b2 :: l3 =>
                        if between 0xE0 0xEF b0 then
                          let ok1 := if b0 =? 0xE0 then between 0xA0 0xBF b1
                                     else if b0 =? 0xED then between 0x80 0x9F b1
                                     else cont b1 in
                          if ok1 && cont b2 then
                            (fun r => (b0 - 0xE0) * 4096 + (b1 - 0x80) * 64 + (b2 - 0x80) :: r)
                              <$> from_utf8 l3
                          else None
                        else match l3 with
                             | [] => None
                             | b3 :: l4 =>
                                 let ok1 := if b0 =? 0xF0 then between 0x90 0xBF b1
                                            else if b0 =? 0xF4 then between 0x80 0x8F b1
                                            else cont b1 in
                                 if between 0xF0 0xF4 b0 && ok1 && cont b2 && cont b3 then
                                   (fun r => (b0 - 0xF0) * 262144 + (b1 - 0x80) * 4096 +
                                             (b2 - 0x80) * 64 + (b3 - 0x80) :: r)
                                     <$> from_utf8 l4
                                 else None
                             end
                    end
           end
  end.

(** [char::is_whitespace]. *)
Definition is_whitespace (c : Z) : bool :=
  between 9 13 c || (c =? 0x20) || (c =? 0x85) || (c =? 0xA0) || (c =? 0x1680) ||
  between 0x2000 0x200A c || (c =? 0x2028) || (c =? 0x2029) || (c =? 0x202F) || (c =? 0x205F) ||
  (c =? 0x3000).

Fixpoint trim_start (l : list Z) : list Z :=
  match l with
  | [] => []
  | c :: l' => if is_whitespace c then trim_start l' else l
  end.

Definition trim (l : list Z) : list Z := rev (trim_start (rev (trim_start l))).

(** [s.split_once(c)]. *)
Fixpoint split_once (c : Z) (l : list Z) : option (list Z * list Z) :=
  match l with
  | [] => None
  | x :: l' => if x =? c then Some ([], l') else '(a, b) ← split_once c l'; Some (x :: a, b)
  end.

(** [s.split(c)]: at least one piece. *)
Fixpoint split_on (c : Z) (l : list Z) : list (list Z) :=
  match l with
  | [] => [[]]
  | x :: l' =>
      if x =? c then [] :: split_on c l'
      else match split_on c l' with
           | [] => [[x]]
           | p :: ps => (x :: p) :: ps
           end
  end.

(** ** Write *)

Inductive CycleTrackerCommand : Type :=
| Start (name : list Z)
| End (name : list Z)
| ReportStart (name : list Z)
| ReportEnd (name : list Z).

Definition parse_cycle_tracker_command (s : list Z) : option CycleTrackerCommand :=
  '(command, fn_name) ← split_once 58 s;
  let trimmed_name := trim fn_name in
  if bool_decide (command = str "cycle-tracker-start") then Some (Start trimmed_name)
  else if bool_decide (command = str "cycle-tracker-end") then Some (End trimmed_name)
  else if bool_decide (command = str "cycle-tracker-report-start")
  then Some (ReportStart trimmed_name)
  else if bool_decide (command = str "cycle-tracker-report-end")
  then Some (ReportEnd trimmed_name)
  else None.

Definition start_cycle_tracker (name : list Z) (s : Executor) : Executor :=
  upd_cycle_tracker (<[name := (global_clk (state s), u32 (Z.of_nat (size (cycle_tracker s))))]>) s.

Definition end_cycle_tracker (name : list Z) (s : Executor) : option Z * Executor :=
  match cycle_tracker s !! name with
  | Some (start, _) =>
      (Some (u64 (global_clk (state s) - start)), upd_cycle_tracker (delete name) s)
  | None => (None, s)
  end.

Definition handle_cycle_tracker_command (cmd : CycleTrackerCommand) (s : Executor) : Executor :=
  match cmd with
  | Start name | ReportStart name => start_cycle_tracker name s
  | End name => (end_cycle_tracker name s).2
  | ReportEnd name =>
      match end_cycle_tracker name s with
      | (Some total, s') =>
          upd_report (upd_report_cycle_tracker (fun m =>
            <[name := match m !! name with Some c => u64 (c + total) | None => total end]> m)) s'
      | (None, s') => s'
      end
  end.

(** [update_io_buf]: appends to the buffer of [fd]; complete lines are returned
    and leave the buffer. *)
Definition update_io_buf (fd : Z) (text : list Z) (s : Executor) : list (list Z) * Executor :=
  let entry := default [] (io_buf s !! fd) ++ text in
  if existsb (Z.eqb 10) entry then
    let lines := split_on 10 entry in
    (removelast lines, upd_io_buf (<[fd := List.last lines []]>) s)
  else ([], upd_io_buf (<[fd := entry]>) s).

Definition LOWEST_ALLOWED_FD : Z := 10.
Definition FD_PUBLIC_VALUES : Z := 13.
Definition FD_HINT : Z := 14.

(** Results go to the front of the input stream, in order. *)
Definition push_hints (res : list (list Z)) (s : Executor) : Executor :=
  upd_state (upd_input_stream (fun inp => res ++ inp)) s.

Section Write.
  (** [hook_registry.get(fd)] applied to the environment and the bytes. *)
  Context (hook : Z -> option (Executor -> list Z -> list (list Z))).
  (** [SP1_ALLOW_DEPRECATED_HOOKS] and the hooks behind it (fd 5 to 8). *)
  Context (allow_deprecated_hooks : bool)
          (deprecated_hook : Z -> Executor -> list Z -> list (list Z)).

Definition write_bytes (fd : Z) (slice : list Z) : EM unit :=
  if fd =? 1 then
    s <- unwrap (from_utf8 slice) ;;
    match parse_cycle_tracker_command s with
    | Some cmd => modify (handle_cycle_tracker_command cmd)
    | None => modify (fun x => (update_io_buf fd s x).2)
    end
  else if fd =? 2 then
    s <- unwrap (from_utf8 slice) ;;
    modify (fun x => (update_io_buf fd s x).2)
  else if fd <=? LOWEST_ALLOWED_FD then
    if allow_deprecated_hooks then
      if (fd =? 5) || (fd =? 6) || (fd =? 7) || (fd =? 8) then
        modify (fun x => push_hints (deprecated_hook fd x slice) x)
      else if fd =? 3 then
        modify (upd_state (upd_public_values_stream (fun l => l ++ slice)))
      else if fd =? 4 then modify (push_hints [slice])
      else ret tt
    else panic
  else if fd =? FD_PUBLIC_VALUES then
    modify (upd_state (upd_public_values_stream (fun l => l ++ slice)))
  else if fd =? FD_HINT then modify (push_hints [slice])
  else match hook fd with
       | Some h => modify (fun x => push_hints (h x slice) x)
       | None => ret tt
       end.

Definition WriteSyscall : Syscall := mkSyscall (fun _ fd write_buf =>
  nbytes <- register_unsafe X12 ;;
  bytes <- collect (zseq 0 (Z.to_nat nbytes)) (fun i => byte_unsafe (write_buf +u i)) ;;
  with_rt (write_bytes fd bytes) ;;;
  ret None) 0.
End Write.
