(* ===== verification/Curves.v ===== *)
(** * Elliptic curve arithmetic (crates/curves/src)

    Field and curve parameters, short Weierstrass addition and doubling, twisted
    Edwards addition and point decompression over [Z], as the default build
    computes them with arbitrary-precision naturals; a subtraction that would
    underflow panics ([None]). *)

From Stdlib Require Import ZArith Lia Bool Znumtheory.
From stdpp Require Import base list.
From S2P Require Import Prelude.

Local Open Scope Z_scope.

(** ** Naturals as little-endian digits *)

(** [BigUint::from_slice] on [u32] digits, [from_bytes_le] on bytes. *)
Fixpoint digits_to_Z (w : Z) (l : list Z) : Z :=
  match l with [] => 0 | d :: l' => d + 2 ^ w * digits_to_Z w l' end.

(** [to_u32_digits]/[to_bytes_le] followed by [resize(n, 0)]: the low [n]
    digits. *)
Fixpoint Z_to_digits (w : Z) (n : nat) (x : Z) : list Z :=
  match n with
  | O => []
  | S n' => x mod 2 ^ w :: Z_to_digits w n' (x / 2 ^ w)
  end.

Definition words_to_Z : list Z -> Z := digits_to_Z 32.
Definition Z_to_words : nat -> Z -> list Z := Z_to_digits 32.
Definition bytes_to_Z : list Z -> Z := digits_to_Z 8.
Definition Z_to_bytes : nat -> Z -> list Z := Z_to_digits 8.

(** [a - b] on naturals. *)
Definition nsub (a b : Z) : option Z := if b <=? a then Some (a - b) else None.

(** [dashu_modpow]: square and multiply, least significant bit first. *)
Fixpoint modpow_loop (result base : Z) (exp : positive) (m : Z) : Z :=
  match exp with
  | xH => (result * base) mod m
  | xO e => modpow_loop result ((base * base) mod m) e m
  | xI e => modpow_loop ((result * base) mod m) ((base * base) mod m) e m
  end.

Definition modpow (base exp m : Z) : Z :=
  if m =? 1 then 0
  else match exp with
       | Z.pos e => modpow_loop 1 (base mod m) e m
       | _ => 1
       end.

(** ** Parameters *)

Inductive CurveType : Type := Secp256k1 | Secp256r1 | Bn254 | Ed25519 | Bls12381.

(** [FieldParameters] and [NumWords]: limbs are bytes. *)
Record FieldParameters : Type := mkFieldParameters {
  MODULUS : list Z;
  NB_LIMBS : nat
}.

Definition modulus (f : FieldParameters) : Z := bytes_to_Z (MODULUS f).
Definition WordsFieldElement (f : FieldParameters) : nat := NB_LIMBS f / 4.
Definition WordsCurvePoint (f : FieldParameters) : nat := NB_LIMBS f / 2.

Definition Secp256k1BaseField : FieldParameters := mkFieldParameters
  ([0x2f; 0xfc; 0xff; 0xff; 0xfe] ++ replicate 27 0xff) 32.

Definition Secp256r1BaseField : FieldParameters := mkFieldParameters
  (replicate 12 0xff ++ replicate 12 0x00 ++ [0x01; 0x00; 0x00; 0x00] ++ replicate 4 0xff) 32.

Definition Bn254BaseField : FieldParameters := mkFieldParameters
  [71; 253; 124; 216; 22; 140; 32; 60; 141; 202; 113; 104; 145; 106; 129; 151; 93; 88; 129;
   129; 182; 69; 80; 184; 41; 160; 49; 225; 114; 78; 100; 48] 32.

Definition Bls12381BaseField : FieldParameters := mkFieldParameters
  [171; 170; 255; 255; 255; 255; 254; 185; 255; 255; 83; 177; 254; 255; 171; 30; 36; 246; 176;
   246; 160; 210; 48; 103; 191; 18; 133; 243; 132; 75; 119; 100; 215; 172; 75; 67; 182; 167;
   27; 75; 154; 230; 127; 57; 234; 17; 1; 26] 48.

Definition Ed25519BaseField : FieldParameters := mkFieldParameters
  ([237] ++ replicate 30 255 ++ [127]) 32.

(** [AffinePoint]. *)
Record AffinePoint : Type := mkAffinePoint { px : Z; py : Z }.

Definition from_words_le (words : list Z) : AffinePoint :=
  let h := (length words / 2)%nat in
  mkAffinePoint (words_to_Z (take h words)) (words_to_Z (drop h words)).

Definition to_words_le (f : FieldParameters) (p : AffinePoint) : list Z :=
  let half_words := (WordsCurvePoint f / 2)%nat in
  Z_to_words half_words (px p) ++ Z_to_words half_words (py p).

(** [EllipticCurve]: a curve is its base field with its group operations. *)
Record EllipticCurve : Type := mkEllipticCurve {
  CURVE_TYPE : CurveType;
  BaseField : FieldParameters;
  ec_add : AffinePoint -> AffinePoint -> option AffinePoint;
  ec_double : AffinePoint -> option AffinePoint;
  ec_neutral : option AffinePoint
}.

(** ** Short Weierstrass curves (weierstrass/mod.rs) *)

Section Weierstrass.
  Context (p a : Z).

(** The third point of the line of slope [slope] through [self], reflected. *)
Definition sw_third (slope : Z) (self : AffinePoint) (other_x : Z) : option AffinePoint :=
  t ← nsub (slope * slope + p + p) (px self);
  t ← nsub t other_x;
  let x_3n := t mod p in
  u ← nsub (p + px self) x_3n;
  v ← nsub (slope * u + p) (py self);
  Some (mkAffinePoint x_3n (v mod p)).

Definition sw_add (self other : AffinePoint) : option AffinePoint :=
  if (px self =? px other) && (py self =? py other) then None
  else
    n ← nsub (p + py other) (py self);
    d ← nsub (p + px other) (px self);
    let slope_numerator := n mod p in
    let slope_denominator := d mod p in
    let slope_denom_inverse := modpow slope_denominator (p - 2) p in
    let slope := (slope_numerator * slope_denom_inverse) mod p in
    sw_third slope self (px other).

Definition sw_double (self : AffinePoint) : option AffinePoint :=
  let slope_numerator := (a + px self * px self * 3) mod p in
  let slope_denominator := (py self * 2) mod p in
  let slope_denom_inverse := modpow slope_denominator (p - 2) p in
  let slope := (slope_numerator * slope_denom_inverse) mod p in
  sw_third slope self (px self).

Definition on_curve (b : Z) (q : AffinePoint) : Prop :=
  (py q * py q) mod p = (px q * px q * px q + a * px q + b) mod p.
End Weierstrass.

Definition SwCurve (t : CurveType) (f : FieldParameters) (a : Z) : EllipticCurve :=
  mkEllipticCurve t f (sw_add (modulus f)) (sw_double (modulus f) a) None.

Definition Secp256k1_curve : EllipticCurve := SwCurve Secp256k1 Secp256k1BaseField 0.
Definition Secp256r1_curve : EllipticCurve := SwCurve Secp256r1 Secp256r1BaseField
  (bytes_to_Z [252; 255; 255; 255; 255; 255; 255; 255; 255; 255; 255; 255; 0; 0; 0; 0; 0; 0; 0; 0;
               0; 0; 0; 0; 1; 0; 0; 0; 255; 255; 255; 255]).
Definition Bn254_curve : EllipticCurve := SwCurve Bn254 Bn254BaseField 0.
Definition Bls12381_curve : EllipticCurve := SwCurve Bls12381 Bls12381BaseField 0.

(** ** Edwards curves (edwards/mod.rs, edwards/ed25519.rs) *)

Definition ed_add (p d : Z) (self other : AffinePoint) : AffinePoint :=
  let x_3n := (px self * py other + py self * px other) mod p in
  let y_3n := (py self * py other + px self * px other) mod p in
  let all_xy := (px self * py self * px other * py other) mod p in
  let dxy := (d * all_xy) mod p in
  let den_x := modpow ((1 + dxy) mod p) (p - 2) p in
  let den_y := modpow ((1 + p - dxy) mod p) (p - 2) p in
  mkAffinePoint ((x_3n * den_x) mod p) ((y_3n * den_y) mod p).

Definition ed_double (p d : Z) (self : AffinePoint) : AffinePoint := ed_add p d self self.

Definition ed25519_D : Z := bytes_to_Z
  [163; 120; 89; 19; 202; 77; 235; 117; 171; 216; 65; 65; 77; 10; 112; 0; 152; 232; 121; 119;
   121; 64; 199; 140; 115; 254; 111; 43; 238; 108; 3; 82].

Definition ed25519_p : Z := 2 ^ 255 - 19.

Definition Ed25519_curve : EllipticCurve :=
  mkEllipticCurve Ed25519 Ed25519BaseField
    (fun p q => Some (ed_add ed25519_p ed25519_D p q))
    (fun p => Some (ed_double ed25519_p ed25519_D p)) (Some (mkAffinePoint 0 1)).

Definition sqrt_exponent : Z :=
  7237005577332262213973186563042994240829374041602535252466099000494570602494.
Definition sqrt_m1 : Z :=
  19681161376707505956807079304988542015446066515923890162744021073123829784752.

Definition ed25519_sqrt (a : Z) : option Z :=
  let m := ed25519_p in
  let beta := modpow a sqrt_exponent m in
  let beta_squared := (beta * beta) mod m in
  neg_a ← nsub m a;
  let beta' := if beta_squared =? neg_a then (beta * sqrt_m1) mod m else beta in
  if negb (beta_squared =? a) && negb (beta_squared =? neg_a) then None
  else Some (if Z.odd beta' then (m - beta') mod m else beta').

(** [decompress] of 32 bytes, the sign of [x] in the top bit. *)
Definition decompress (bytes : list Z) : option AffinePoint :=
  let m := ed25519_p in
  top ← bytes !! 31%nat;
  let sign := Z.shiftr top 7 =? 1 in
  let y := bytes_to_Z (<[31%nat := Z.land top 0x7F]> bytes) in
  let yy := (y * y) mod m in
  let u := (yy + m - 1) mod m in
  let v := (yy * ed25519_D + 1) mod m in
  let v_inv := modpow v (m - 2) m in
  let u_div_v := (u * v_inv) mod m in
  x ← ed25519_sqrt u_div_v;
  Some (mkAffinePoint (if sign then (m - x) mod m else x) y).

(** ** Generic scalar multiplication (scalar_mul.rs) *)

Fixpoint scalar_mul_loop (e : EllipticCurve) (bits : list bool) (result : option AffinePoint)
    (temp : AffinePoint) : option (option AffinePoint) :=
  match bits with
  | [] => Some result
  | bit :: bits' =>
      result' ← (if (bit : bool) then
                   match result with
                   | None => Some (Some temp)
                   | Some r => Some <$> ec_add e r temp
                   end
                 else Some result);
      temp' ← ec_add e temp temp;
      scalar_mul_loop e bits' result' temp'
  end.

Definition nb_scalar_bits (e : EllipticCurve) : nat := NB_LIMBS (BaseField e) * 8.

Definition scalar_mul (e : EllipticCurve) (q : AffinePoint) (scalar : Z) : option AffinePoint :=
  let n := nb_scalar_bits e in
  let bits := map (fun i => Z.testbit (scalar mod 2 ^ Z.of_nat n) i) (zseq 0 n) in
  mjoin (scalar_mul_loop e bits (ec_neutral e) q).

(** [sw_scalar_mul] of weierstrass/mod.rs: doubles with [sw_double]. *)
Fixpoint sw_scalar_mul_loop (e : EllipticCurve) (bits : list bool) (result : option AffinePoint)
    (temp : AffinePoint) : option (option AffinePoint) :=
  match bits with
  | [] => Some result
  | bit :: bits' =>
      result' ← (if (bit : bool) then
                   match result with
                   | None => Some (Some temp)
                   | Some r => Some <$> ec_add e r temp
                   end
                 else Some result);
      temp' ← ec_double e temp;
      sw_scalar_mul_loop e bits' result' temp'
  end.

Definition sw_scalar_mul (e : EllipticCurve) (num_bits : nat) (q : AffinePoint) (scalar : Z)
    : option AffinePoint :=
  mjoin (sw_scalar_mul_loop e (map (Z.testbit scalar) (zseq 0 num_bits)) None q).
