(* ===== verification/Precompiles.v ===== *)
(** * Precompiles (crates/core/executor/src/syscalls/precompiles, events/precompiles/ec.rs)

    The accelerated system calls.  Each reads its operands from guest memory,
    computes, writes the result back one tick later where it overwrites an
    operand, and emits one precompile event.  The Keccak permutation and the
    curve-library decompressions are third-party code and arguments here. *)

From Stdlib Require Import ZArith Lia Bool.
From stdpp Require Import base gmap list.
From S2P Require Import Prelude Monad Isa SyscallCode Memory Events Air Record Alu Curves State.
From S2P Require Import Executor Context Syscalls.

Local Open Scope Z_scope.
Local Open Scope rv_scope.

(** ** Shared steps *)

Definition get_clk : CM Z := gets ctx_clk.
Definition get_shard : CM Z := gets (fun ctx => current_shard (state (rt ctx))).

(** [rt.clk += 1]. *)
Definition tick : CM unit := modify (upd_ctx_clk (fun k => k +u 1)).

Definition assert_aligned (ptr : Z) : CM unit := massert (ptr mod 4 =? 0).

(** The end of every precompile: the syscall event and the precompile event. *)
Definition emit_precompile (add : SyscallCode -> SyscallEvent -> PrecompileEvent -> CM unit)
    (clk_ : Z) (code key : SyscallCode) (arg1 arg2 : Z) (ev : PrecompileEvent) : CM (option Z) :=
  se <- ctx_syscall_event clk_ code arg1 arg2 ;;
  add key se ev ;;;
  ret None.

(** ** SHA-256 (sha256/extend.rs, sha256/compress.rs) *)

Definition sha_s0 (x : Z) : Z := Z.lxor (Z.lxor (rotr32 x 7) (rotr32 x 18)) (Z.shiftr x 3).
Definition sha_s1 (x : Z) : Z := Z.lxor (Z.lxor (rotr32 x 17) (rotr32 x 19)) (Z.shiftr x 10).

(** The records of one step of the message schedule. *)
Record ExtendStep : Type := mkExtendStep {
  x15 : MemoryReadRecord; x2 : MemoryReadRecord; x16 : MemoryReadRecord; x7 : MemoryReadRecord;
  xw : MemoryWriteRecord
}.

Definition extend_step (w_ptr i : Z) : CM ExtendStep :=
  '(r15, w15) <- ctx_mr (w_ptr +u ((i - 15) *u 4)) ;;
  '(r2, w2) <- ctx_mr (w_ptr +u ((i - 2) *u 4)) ;;
  '(r16, w16) <- ctx_mr (w_ptr +u ((i - 16) *u 4)) ;;
  '(r7, w7) <- ctx_mr (w_ptr +u ((i - 7) *u 4)) ;;
  let w_i := sha_s1 w2 +u w16 +u sha_s0 w15 +u w7 in
  w <- ctx_mw (w_ptr +u (i *u 4)) w_i ;;
  tick ;;;
  ret (mkExtendStep r15 r2 r16 r7 w).

Definition Sha256ExtendSyscall : Syscall := mkSyscall (fun code w_ptr arg2 =>
  clk_init <- get_clk ;;
  massert (arg2 =? 0) ;;;
  steps <- collect (zseq 16 48) (extend_step w_ptr) ;;
  sh <- get_shard ;;
  lma <- postprocess ;;
  emit_precompile add_precompile_event clk_init code code w_ptr arg2
    (PShaExtend (mkShaExtendEvent sh clk_init w_ptr (map x15 steps) (map x2 steps)
       (map x16 steps) (map x7 steps) (map xw steps) lma))) 48.

Definition SHA_COMPRESS_K : list Z :=
  concat [
    [0x428a2f98; 0x71374491; 0xb5c0fbcf; 0xe9b5dba5; 0x3956c25b; 0x59f111f1; 0x923f82a4; 0xab1c5ed5];
    [0xd807aa98; 0x12835b01; 0x243185be; 0x550c7dc3; 0x72be5d74; 0x80deb1fe; 0x9bdc06a7; 0xc19bf174];
    [0xe49b69c1; 0xefbe4786; 0x0fc19dc6; 0x240ca1cc; 0x2de92c6f; 0x4a7484aa; 0x5cb0a9dc; 0x76f988da];
    [0x983e5152; 0xa831c66d; 0xb00327c8; 0xbf597fc7; 0xc6e00bf3; 0xd5a79147; 0x06ca6351; 0x14292967];
    [0x27b70a85; 0x2e1b2138; 0x4d2c6dfc; 0x53380d13; 0x650a7354; 0x766a0abb; 0x81c2c92e; 0x92722c85];
    [0xa2bfe8a1; 0xa81a664b; 0xc24b8b70; 0xc76c51a3; 0xd192e819; 0xd6990624; 0xf40e3585; 0x106aa070];
    [0x19a4c116; 0x1e376c08; 0x2748774c; 0x34b0bcb5; 0x391c0cb3; 0x4ed8aa4a; 0x5b9cca4f; 0x682e6ff3];
    [0x748f82ee; 0x78a5636f; 0x84c87814; 0x8cc70208; 0x90befffa; 0xa4506ceb; 0xbef9a3f7; 0xc67178f2]].

(** The working variables of the compression function. *)
Record Working : Type := mkWorking {
  va : Z; vb : Z; vc : Z; vd : Z; ve : Z; vf : Z; vg : Z; vh : Z
}.

Definition working_of (hx : list Z) : option Working :=
  match hx with
  | [a; b; c; d; e; f; g; h] => Some (mkWorking a b c d e f g h)
  | _ => None
  end.

Definition working_list (v : Working) : list Z :=
  [va v; vb v; vc v; vd v; ve v; vf v; vg v; vh v].

Definition compress_round (v : Working) (k w_i : Z) : Working :=
  let e := ve v in
  let a := va v in
  let s1 := Z.lxor (Z.lxor (rotr32 e 6) (rotr32 e 11)) (rotr32 e 25) in
  let ch := Z.lxor (Z.land e (vf v)) (Z.land (not32 e) (vg v)) in
  let temp1 := vh v +u s1 +u ch +u k +u w_i in
  let s0 := Z.lxor (Z.lxor (rotr32 a 2) (rotr32 a 13)) (rotr32 a 22) in
  let maj := Z.lxor (Z.lxor (Z.land a (vb v)) (Z.land a (vc v))) (Z.land (vb v) (vc v)) in
  let temp2 := s0 +u maj in
  mkWorking (temp1 +u temp2) a (vb v) (vc v) (vd v +u temp1) e (vf v) (vg v).

(** The loop over [i] in [0..64]: returns the reads and the final variables. *)
Fixpoint compress_loop (w_ptr : Z) (ks : list (Z * Z)) (v : Working)
    : CM (list (MemoryReadRecord * Z) * Working) :=
  match ks with
  | [] => ret ([], v)
  | (i, k) :: ks' =>
      '(r, w_i) <- ctx_mr (w_ptr +u (i *u 4)) ;;
      '(rs, v') <- compress_loop w_ptr ks' (compress_round v k w_i) ;;
      ret ((r, w_i) :: rs, v')
  end.

Definition Sha256CompressSyscall : Syscall := mkSyscall (fun code w_ptr h_ptr =>
  massert (negb (w_ptr =? h_ptr)) ;;;
  start_clk <- get_clk ;;
  '(h_read_records, hx) <- mr_slice h_ptr 8 ;;
  v0 <- unwrap (working_of hx) ;;
  '(ws, v) <- compress_loop w_ptr (zip (zseq 0 64) SHA_COMPRESS_K) v0 ;;
  tick ;;;
  h_write_records <- mw_slice h_ptr (zip_with wadd hx (working_list v)) ;;
  sh <- get_shard ;;
  lma <- postprocess ;;
  emit_precompile add_precompile_event start_clk code code w_ptr h_ptr
    (PShaCompress (mkShaCompressEvent sh start_clk w_ptr h_ptr (map snd ws) hx h_read_records
       (map fst ws) h_write_records lma))) 1.

(** ** Keccak (keccak256/permute.rs) *)

Definition STATE_SIZE : nat := 25.
Definition STATE_NUM_WORDS : nat := 50.

(** [chunks_exact(2)] into 64-bit lanes, and back. *)
Fixpoint lanes_of_words (l : list Z) : list Z :=
  match l with
  | lo :: hi :: l' => u64 (lo + u64 (Z.shiftl hi 32)) :: lanes_of_words l'
  | _ => []
  end.

Definition words_of_lanes (l : list Z) : list Z :=
  concat (map (fun x => [u32 (Z.land x 0xFFFFFFFF);
                         u32 (Z.land (Z.shiftr x 32) 0xFFFFFFFF)]) l).

Section Keccak.
  (** [tiny_keccak::keccakf] on the 25 lanes. *)
  Context (keccakf : list Z -> list Z).

Definition Keccak256PermuteSyscall : Syscall := mkSyscall (fun code state_ptr arg2 =>
  start_clk <- get_clk ;;
  massert (arg2 =? 0) ;;;
  '(state_read_records, state_values) <- mr_slice state_ptr STATE_NUM_WORDS ;;
  let saved_state := lanes_of_words state_values in
  let st := keccakf saved_state in
  tick ;;;
  state_write_records <- mw_slice state_ptr (words_of_lanes st) ;;
  sh <- get_shard ;;
  lma <- postprocess ;;
  emit_precompile add_precompile_event start_clk code code state_ptr arg2
    (PKeccakPermute (mkKeccakPermuteEvent sh start_clk saved_state st state_read_records
       state_write_records state_ptr lma))) 1.
End Keccak.

(** ** Big integers (uint256.rs, u256x2048_mul.rs) *)

Definition uint256_result (x y m : Z) : Z :=
  if m =? 0 then (x * y) mod 2 ^ 256 else (x * y) mod m.

Definition Uint256MulSyscall : Syscall := mkSyscall (fun code x_ptr y_ptr =>
  clk_ <- get_clk ;;
  assert_aligned x_ptr ;;;
  assert_aligned y_ptr ;;;
  x <- slice_unsafe x_ptr 8 ;;
  '(y_memory_records, y) <- mr_slice y_ptr 8 ;;
  '(modulus_memory_records, m) <- mr_slice (y_ptr +u 32) 8 ;;
  let result := Z_to_words 8 (uint256_result (words_to_Z x) (words_to_Z y) (words_to_Z m)) in
  tick ;;;
  x_memory_records <- mw_slice x_ptr result ;;
  sh <- get_shard ;;
  lma <- postprocess ;;
  emit_precompile add_precompile_event clk_ code code x_ptr y_ptr
    (PUint256Mul (mkUint256MulEvent sh clk_ x_ptr x y_ptr y m x_memory_records y_memory_records
       modulus_memory_records lma))) 1.

Definition U256xU2048MulSyscall : Syscall := mkSyscall (fun code a_ptr b_ptr =>
  clk_ <- get_clk ;;
  '(lo_ptr_memory, lo_ptr) <- ctx_rr_traced X12 ;;
  '(hi_ptr_memory, hi_ptr) <- ctx_rr_traced X13 ;;
  '(a_memory_records, a) <- mr_slice a_ptr 8 ;;
  '(b_memory_records, b) <- mr_slice b_ptr 64 ;;
  let result := words_to_Z a * words_to_Z b in
  let lo_words := Z_to_words 64 (result mod 2 ^ 2048) in
  let hi_words := Z_to_words 8 (result / 2 ^ 2048) in
  tick ;;;
  lo_memory_records <- mw_slice lo_ptr lo_words ;;
  hi_memory_records <- mw_slice hi_ptr hi_words ;;
  sh <- get_shard ;;
  lma <- postprocess ;;
  emit_precompile add_precompile_event clk_ code code a_ptr b_ptr
    (PU256xU2048Mul (mkU256xU2048MulEvent sh clk_ a_ptr a b_ptr b lo_ptr lo_words hi_ptr hi_words
       lo_ptr_memory hi_ptr_memory a_memory_records b_memory_records lo_memory_records
       hi_memory_records lma))) 1.

(** ** Field operations (fptower) *)

Inductive FieldType : Type := FBls12381 | FBn254.

Record FpOpField : Type := mkFpOpField { FIELD_TYPE : FieldType; fp_params : FieldParameters }.

Definition Bn254Fp : FpOpField := mkFpOpField FBn254 Bn254BaseField.
Definition Bls12381Fp : FpOpField := mkFpOpField FBls12381 Bls12381BaseField.

Definition fp_result (op : FieldOperation) (a b m : Z) : option Z :=
  match op with
  | FAdd => Some ((a + b) mod m)
  | FSub => t ← nsub (a + m) b; Some (t mod m)
  | FMul => Some ((a * b) mod m)
  | FDiv => None
  end.

(** All operations of a field share the table of its [ADD] call. *)
Definition fp_key (t : FieldType) (code : SyscallCode) : option SyscallCode :=
  match t, code with
  | FBn254, (BN254_FP_ADD | BN254_FP_SUB | BN254_FP_MUL) => Some BN254_FP_ADD
  | FBls12381, (BLS12381_FP_ADD | BLS12381_FP_SUB | BLS12381_FP_MUL) => Some BLS12381_FP_ADD
  | _, _ => None
  end.

Definition FpOpSyscall (P : FpOpField) (op : FieldOperation) : Syscall :=
  mkSyscall (fun code x_ptr y_ptr =>
    clk_ <- get_clk ;;
    assert_aligned x_ptr ;;;
    assert_aligned y_ptr ;;;
    let num_words := WordsFieldElement (fp_params P) in
    x <- slice_unsafe x_ptr num_words ;;
    '(y_memory_records, y) <- mr_slice y_ptr num_words ;;
    let m := modulus (fp_params P) in
    result <- unwrap (fp_result op (words_to_Z x mod m) (words_to_Z y mod m) m) ;;
    tick ;;;
    x_memory_records <- mw_slice x_ptr (Z_to_words num_words result) ;;
    sh <- get_shard ;;
    lma <- postprocess ;;
    let event := mkFpOpEvent sh clk_ x_ptr x y_ptr y op x_memory_records y_memory_records lma in
    key <- unwrap (fp_key (FIELD_TYPE P) code) ;;
    emit_precompile add_precompile_event clk_ code key x_ptr y_ptr
      (match FIELD_TYPE P with FBn254 => PBn254Fp event | FBls12381 => PBls12381Fp event end)) 1.

(** [split_at(len / 2)], as field elements. *)
Definition halves (l : list Z) : Z * Z :=
  let h := (length l / 2)%nat in (words_to_Z (take h l), words_to_Z (drop h l)).

Definition fp2_addsub_result (op : FieldOperation) (a b : Z * Z) (m : Z) : option (Z * Z) :=
  match op with
  | FAdd => Some ((a.1 + b.1) mod m, (a.2 + b.2) mod m)
  | FSub => c0 ← nsub (a.1 + m) b.1; c1 ← nsub (a.2 + m) b.2; Some (c0 mod m, c1 mod m)
  | _ => None
  end.

Definition fp2_mul_result (a b : Z * Z) (m : Z) : Z * Z :=
  let t0 := (a.1 * b.1) mod m in
  let t1 := (a.2 * b.2) mod m in
  let c0 := if t0 <? t1 then (m + t0 - t1) mod m else (t0 - t1) mod m in
  (c0, ((a.1 * b.2) mod m + (a.2 * b.1) mod m) mod m).

(** [c0], padded to half the words, followed by [c1]. *)
Definition fp2_words (num_words : nat) (c : Z * Z) : list Z :=
  Z_to_words (num_words / 2) c.1 ++ Z_to_words (num_words - num_words / 2) c.2.

Definition fp2_key (t : FieldType) (code : SyscallCode) : option SyscallCode :=
  match t, code with
  | FBn254, (BN254_FP2_ADD | BN254_FP2_SUB) => Some BN254_FP2_ADD
  | FBls12381, (BLS12381_FP2_ADD | BLS12381_FP2_SUB) => Some BLS12381_FP2_ADD
  | _, _ => None
  end.

Definition Fp2AddSubSyscall (P : FpOpField) (op : FieldOperation) : Syscall :=
  mkSyscall (fun code x_ptr y_ptr =>
    clk_ <- get_clk ;;
    assert_aligned x_ptr ;;;
    assert_aligned y_ptr ;;;
    let num_words := WordsCurvePoint (fp_params P) in
    x <- slice_unsafe x_ptr num_words ;;
    '(y_memory_records, y) <- mr_slice y_ptr num_words ;;
    tick ;;;
    c <- unwrap (fp2_addsub_result op (halves x) (halves y) (modulus (fp_params P))) ;;
    x_memory_records <- mw_slice x_ptr (fp2_words num_words c) ;;
    sh <- get_shard ;;
    lma <- postprocess ;;
    let event :=
      mkFp2AddSubEvent sh clk_ op x_ptr x y_ptr y x_memory_records y_memory_records lma in
    key <- unwrap (fp2_key (FIELD_TYPE P) code) ;;
    emit_precompile add_precompile_event clk_ code key x_ptr y_ptr
      (match FIELD_TYPE P with
       | FBn254 => PBn254Fp2AddSub event
       | FBls12381 => PBls12381Fp2AddSub event
       end)) 1.

Definition Fp2MulSyscall (P : FpOpField) : Syscall := mkSyscall (fun code x_ptr y_ptr =>
  clk_ <- get_clk ;;
  assert_aligned x_ptr ;;;
  assert_aligned y_ptr ;;;
  let num_words := WordsCurvePoint (fp_params P) in
  x <- slice_unsafe x_ptr num_words ;;
  '(y_memory_records, y) <- mr_slice y_ptr num_words ;;
  tick ;;;
  let c := fp2_mul_result (halves x) (halves y) (modulus (fp_params P)) in
  x_memory_records <- mw_slice x_ptr (fp2_words num_words c) ;;
  sh <- get_shard ;;
  lma <- postprocess ;;
  let event := mkFp2MulEvent sh clk_ x_ptr x y_ptr y x_memory_records y_memory_records lma in
  emit_precompile add_precompile_event clk_ code code x_ptr y_ptr
    (match FIELD_TYPE P with
     | FBn254 => PBn254Fp2Mul event
     | FBls12381 => PBls12381Fp2Mul event
     end)) 1.

(** ** Elliptic curves (events/precompiles/ec.rs, weierstrass, edwards) *)

Definition create_ec_add_event (E : EllipticCurve) (p_ptr q_ptr : Z) : CM EllipticCurveAddEvent :=
  start_clk <- get_clk ;;
  assert_aligned p_ptr ;;;
  assert_aligned q_ptr ;;;
  let num_words := WordsCurvePoint (BaseField E) in
  p <- slice_unsafe p_ptr num_words ;;
  '(q_memory_records, q) <- mr_slice q_ptr num_words ;;
  tick ;;;
  result <- unwrap (ec_add E (from_words_le p) (from_words_le q)) ;;
  p_memory_records <- mw_slice p_ptr (to_words_le (BaseField E) result) ;;
  sh <- get_shard ;;
  lma <- postprocess ;;
  ret (mkECAddEvent sh start_clk p_ptr p q_ptr q p_memory_records q_memory_records lma).

Definition create_ec_double_event (E : EllipticCurve) (p_ptr : Z) : CM EllipticCurveDoubleEvent :=
  start_clk <- get_clk ;;
  assert_aligned p_ptr ;;;
  let num_words := WordsCurvePoint (BaseField E) in
  p <- slice_unsafe p_ptr num_words ;;
  result <- unwrap (ec_double E (from_words_le p)) ;;
  p_memory_records <- mw_slice p_ptr (to_words_le (BaseField E) result) ;;
  sh <- get_shard ;;
  lma <- postprocess ;;
  ret (mkECDoubleEvent sh start_clk p_ptr p p_memory_records lma).

(** Secp256r1 events go to the record in every executor mode; the other curves
    through [add_precompile_event], which records in [Trace] mode only. *)
Definition WeierstrassAddAssignSyscall (E : EllipticCurve) : Syscall :=
  mkSyscall (fun code arg1 arg2 =>
    event <- create_ec_add_event E arg1 arg2 ;;
    let emit add ev := emit_precompile add (eca_clk event) code code arg1 arg2 ev in
    match CURVE_TYPE E with
    | Secp256k1 => emit add_precompile_event (PSecp256k1Add event)
    | Bn254 => emit add_precompile_event (PBn254Add event)
    | Bls12381 => emit add_precompile_event (PBls12381Add event)
    | Secp256r1 => emit record_add_precompile_event (PSecp256r1Add event)
    | Ed25519 => panic
    end) 1.

Definition WeierstrassDoubleAssignSyscall (E : EllipticCurve) : Syscall :=
  mkSyscall (fun code arg1 arg2 =>
    event <- create_ec_double_event E arg1 ;;
    let emit add ev := emit_precompile add (ecd_clk event) code code arg1 arg2 ev in
    match CURVE_TYPE E with
    | Secp256k1 => emit add_precompile_event (PSecp256k1Double event)
    | Secp256r1 => emit record_add_precompile_event (PSecp256r1Double event)
    | Bn254 => emit add_precompile_event (PBn254Double event)
    | Bls12381 => emit add_precompile_event (PBls12381Double event)
    | Ed25519 => panic
    end) 0.

Definition EdwardsAddAssignSyscall (E : EllipticCurve) : Syscall :=
  mkSyscall (fun code arg1 arg2 =>
    event <- create_ec_add_event E arg1 arg2 ;;
    emit_precompile add_precompile_event (eca_clk event) code code arg1 arg2 (PEdAdd event)) 1.

(** [words_to_bytes_le]. *)
Definition words_to_bytes_le (ws : list Z) : list Z := concat (map to_le_bytes32 ws).

Definition EdwardsDecompressSyscall : Syscall := mkSyscall (fun code slice_ptr sign =>
  start_clk <- get_clk ;;
  assert_aligned slice_ptr ;;;
  massert (sign <=? 1) ;;;
  '(y_memory_records, y_vec) <- mr_slice (slice_ptr +u 32) 8 ;;
  let y_bytes := words_to_bytes_le y_vec in
  let compressed := alter (fun b => Z.lor (Z.land b 0x7F) (u8 (Z.shiftl sign 7))) 31%nat y_bytes in
  point <- unwrap (decompress compressed) ;;
  let x_bytes := Z_to_bytes 32 (px point) in
  x_memory_records <- mw_slice slice_ptr (Z_to_words 8 (px point)) ;;
  sh <- get_shard ;;
  lma <- postprocess ;;
  emit_precompile add_precompile_event start_clk code code slice_ptr sign
    (PEdDecompress (mkEdDecompressEvent sh start_clk slice_ptr (negb (sign =? 0)) y_bytes x_bytes
       x_memory_records y_memory_records lma))) 0.

Section Decompress.
  (** [secp256k1_decompress], [secp256r1_decompress] and [bls12381_decompress]:
      big-endian [x] bytes and sign to the point. *)
  Context (decompress_fn : CurveType -> list Z -> Z -> option AffinePoint).

Definition create_ec_decompress_event (E : EllipticCurve) (slice_ptr sign_bit : Z)
    : CM EllipticCurveDecompressEvent :=
  start_clk <- get_clk ;;
  massert (slice_ptr mod 4 =? 0) ;;;
  massert (sign_bit <=? 1) ;;;
  let num_limbs := NB_LIMBS (BaseField E) in
  '(x_memory_records, x_vec) <- mr_slice (slice_ptr +u Z.of_nat num_limbs) (num_limbs / 4) ;;
  let x_bytes := words_to_bytes_le x_vec in
  point <- (match CURVE_TYPE E with
            | Secp256k1 | Secp256r1 | Bls12381 =>
                unwrap (decompress_fn (CURVE_TYPE E) (rev x_bytes) sign_bit)
            | _ => panic
            end) ;;
  let y_bytes := Z_to_bytes num_limbs (py point) in
  y_memory_records <- mw_slice slice_ptr (Z_to_words (num_limbs / 4) (py point)) ;;
  sh <- get_shard ;;
  lma <- postprocess ;;
  ret (mkECDecompressEvent sh start_clk slice_ptr (negb (sign_bit =? 0)) x_bytes y_bytes
         x_memory_records y_memory_records lma).

Definition WeierstrassDecompressSyscall (E : EllipticCurve) : Syscall :=
  mkSyscall (fun code arg1 arg2 =>
    event <- create_ec_decompress_event E arg1 arg2 ;;
    let emit add ev := emit_precompile add (ecx_clk event) code code arg1 arg2 ev in
    match CURVE_TYPE E with
    | Secp256k1 => emit add_precompile_event (PSecp256k1Decompress event)
    | Secp256r1 => emit record_add_precompile_event (PSecp256r1Decompress event)
    | Bls12381 => emit record_add_precompile_event (PBls12381Decompress event)
    | _ => panic
    end) 0.
End Decompress.

(** ** The default table (syscalls/mod.rs) *)

(** What the executor's environment provides. *)
Record Env : Type := mkEnv {
  env_hook : Z -> option (Executor -> list Z -> list (list Z));
  env_allow_deprecated : bool;
  env_deprecated_hook : Z -> Executor -> list Z -> list (list Z);
  env_verifier : option (list Z -> list Z -> list Z -> list Z -> bool);
  env_keccakf : list Z -> list Z;
  env_decompress : CurveType -> list Z -> Z -> option AffinePoint
}.

Definition default_syscall_map (env : Env) (code : SyscallCode) : option Syscall :=
  match code with
  | HALT => Some HaltSyscall
  | SHA_EXTEND => Some Sha256ExtendSyscall
  | SHA_COMPRESS => Some Sha256CompressSyscall
  | ED_ADD => Some (EdwardsAddAssignSyscall Ed25519_curve)
  | ED_DECOMPRESS => Some EdwardsDecompressSyscall
  | KECCAK_PERMUTE => Some (Keccak256PermuteSyscall (env_keccakf env))
  | SECP256K1_ADD => Some (WeierstrassAddAssignSyscall Secp256k1_curve)
  | SECP256K1_DOUBLE => Some (WeierstrassDoubleAssignSyscall Secp256k1_curve)
  | SECP256K1_DECOMPRESS =>
      Some (WeierstrassDecompressSyscall (env_decompress env) Secp256k1_curve)
  | SECP256R1_ADD => Some (WeierstrassAddAssignSyscall Secp256r1_curve)
  | SECP256R1_DOUBLE => Some (WeierstrassDoubleAssignSyscall Secp256r1_curve)
  | SECP256R1_DECOMPRESS =>
      Some (WeierstrassDecompressSyscall (env_decompress env) Secp256r1_curve)
  | BN254_ADD => Some (WeierstrassAddAssignSyscall Bn254_curve)
  | BN254_DOUBLE => Some (WeierstrassDoubleAssignSyscall Bn254_curve)
  | BLS12381_ADD => Some (WeierstrassAddAssignSyscall Bls12381_curve)
  | BLS12381_DOUBLE => Some (WeierstrassDoubleAssignSyscall Bls12381_curve)
  | UINT256_MUL => Some Uint256MulSyscall
  | U256XU2048_MUL => Some U256xU2048MulSyscall
  | BLS12381_FP_ADD => Some (FpOpSyscall Bls12381Fp FAdd)
  | BLS12381_FP_SUB => Some (FpOpSyscall Bls12381Fp FSub)
  | BLS12381_FP_MUL => Some (FpOpSyscall Bls12381Fp FMul)
  | BLS12381_FP2_ADD => Some (Fp2AddSubSyscall Bls12381Fp FAdd)
  | BLS12381_FP2_SUB => Some (Fp2AddSubSyscall Bls12381Fp FSub)
  | BLS12381_FP2_MUL => Some (Fp2MulSyscall Bls12381Fp)
  | BN254_FP_ADD => Some (FpOpSyscall Bn254Fp FAdd)
  | BN254_FP_SUB => Some (FpOpSyscall Bn254Fp FSub)
  | BN254_FP_MUL => Some (FpOpSyscall Bn254Fp FMul)
  | BN254_FP2_ADD => Some (Fp2AddSubSyscall Bn254Fp FAdd)
  | BN254_FP2_SUB => Some (Fp2AddSubSyscall Bn254Fp FSub)
  | BN254_FP2_MUL => Some (Fp2MulSyscall Bn254Fp)
  | ENTER_UNCONSTRAINED => Some EnterUnconstrainedSyscall
  | EXIT_UNCONSTRAINED => Some ExitUnconstrainedSyscall
  | WRITE =>
      Some (WriteSyscall (env_hook env) (env_allow_deprecated env) (env_deprecated_hook env))
  | COMMIT => Some CommitSyscall
  | COMMIT_DEFERRED_PROOFS => Some CommitDeferredSyscall
  | VERIFY_SP1_PROOF => Some (VerifySyscall (env_verifier env))
  | HINT_LEN => Some HintLenSyscall
  | HINT_READ => Some HintReadSyscall
  | BLS12381_DECOMPRESS =>
      Some (WeierstrassDecompressSyscall (env_decompress env) Bls12381_curve)
  end.
