(* ===== verification/Access.v ===== *)
(** * Semantics of memory accesses

    What an access of the executor changes and what it leaves alone.  [reg_val]
    and [mem_val] are the architectural contents of registers and memory words;
    every access preserves the control state ([same_ctl]), and a write changes
    exactly the addressed entry.  These lemmas are the interface the
    instruction-level proofs use instead of the access functions' bodies. *)

From Stdlib Require Import ZArith Lia Bool.
From stdpp Require Import base gmap list.
From S2P Require Import Prelude Monad Isa SyscallCode Memory Events ByteLookup Air Record Alu.
From S2P Require Import Dependencies State Executor.

Local Open Scope Z_scope.
Local Open Scope rv_scope.

(** ** Architectural values *)

Definition entry_val (c : Flat.comp) (addr : Z) (s : Executor) : Z :=
  rec_value (entry_record c addr s).

Definition reg_val (s : Executor) (r : Register) : Z := entry_val Flat.Reg (reg_idx r) s.

Definition mem_val (s : Executor) (addr : Z) : Z := entry_val Flat.Page addr s.

(** Everything an access leaves alone: the state except the memory, and the
    executor's configuration. *)
Definition bare_state (s : Executor) : ExecutionState :=
  upd_memory (fun _ => Flat.empty) (state s).

Record same_ctl (s s' : Executor) : Prop := {
  sc_state : bare_state s' = bare_state s;
  sc_program : program s' = program s;
  sc_mode : executor_mode s' = executor_mode s;
  sc_unconstrained : unconstrained s' = unconstrained s;
  sc_report : report s' = report s;
  sc_print : print_report s' = print_report s;
  sc_emit : emit_global_memory_events s' = emit_global_memory_events s;
  sc_sizes : (shard_size s', shard_batch_size s', max_syscall_cycles s', max_cycles s') =
             (shard_size s, shard_batch_size s, max_syscall_cycles s, max_cycles s);
  sc_record : record s' = record s;
  sc_records : records s' = records s;
  sc_shapes : (maximal_shapes s', shape_check_frequency s', lde_size_check s') =
              (maximal_shapes s, shape_check_frequency s, lde_size_check s)
}.

#[global] Instance same_ctl_preorder : PreOrder same_ctl.
Proof.
  split.
  - intros s. by constructor.
  - intros s1 s2 s3 [] []. constructor; congruence.
Qed.

Lemma same_ctl_fields s s' : same_ctl s s' ->
  pc (state s') = pc (state s) /\ clk (state s') = clk (state s) /\
  global_clk (state s') = global_clk (state s) /\
  current_shard (state s') = current_shard (state s) /\
  uninitialized_memory (state s') = uninitialized_memory (state s).
Proof.
  intros H. pose proof (sc_state _ _ H) as E.
  split_and!; [apply (f_equal pc) in E | apply (f_equal clk) in E | apply (f_equal global_clk) in E
    | apply (f_equal current_shard) in E | apply (f_equal uninitialized_memory) in E]; exact E.
Qed.

Lemma same_ctl_trace s s' : same_ctl s s' -> is_trace s' = is_trace s.
Proof. intros H. unfold is_trace. by rewrite (sc_mode _ _ H). Qed.

Lemma same_ctl_shard s s' : same_ctl s s' -> shard s' = shard s.
Proof. intros H. apply (same_ctl_fields s s' H). Qed.

Lemma same_ctl_timestamp s s' p : same_ctl s s' -> timestamp p s' = timestamp p s.
Proof. intros H. unfold timestamp. by rewrite (proj1 (proj2 (same_ctl_fields s s' H))). Qed.

(** ** The entry sequence *)

(** [s'] is [s] with the entry of [(c, addr)] set to [cur]. *)
Record touched (c : Flat.comp) (addr : Z) (cur : MemoryRecord) (s s' : Executor) : Prop := {
  td_ctl : same_ctl s s';
  td_memory : memory (state s') = Flat.update c addr cur (memory (state s))
}.

Lemma touch_spec cp c addr v sh ts s :
  let '(prev, cur, s') := touch cp c addr v sh ts s in
  prev = entry_record c addr s /\
  cur = mkMemoryRecord sh ts (default (rec_value (entry_record c addr s)) v) /\
  touched c addr cur s s'.
Proof.
  unfold touch. cbv zeta.
  set (s1 := if cp s then _ else _).
  assert (same_ctl s s1 /\ state s1 = state s) as [H1 E1] by (subst s1; by destruct (cp s)).
  set (s2 := if unconstrained s1 then _ else _).
  assert (same_ctl s1 s2 /\ state s2 = state s1) as [H2 E2]
    by (subst s2; by destruct (unconstrained s1)).
  assert (entry_record c addr s2 = entry_record c addr s) as E.
  { unfold entry_record, init_value, mem_entry. by rewrite E2, E1. }
  assert (same_ctl s2 (init_entry c addr s2) /\ state (init_entry c addr s2) = state s2) as [H3 E3]
    by (unfold init_entry; by destruct (mem_entry c addr s2)).
  split_and!; [done | by rewrite E |]. split.
  - transitivity s1; [done|]. transitivity s2; [done|]. transitivity (init_entry c addr s2); [done|].
    by constructor.
  - cbn. by rewrite E3, E2, E1.
Qed.

Lemma touched_entry c addr cur s s' : touched c addr cur s s' ->
  mem_entry c addr s' = Some cur.
Proof. intros [_ H]. unfold mem_entry. rewrite H. apply flat_lookup_update_eq. Qed.

Lemma touched_entry_ne c addr cur c' addr' s s' : touched c addr cur s s' ->
  (c, Flat.key c addr) <> (c', Flat.key c' addr') ->
  mem_entry c' addr' s' = mem_entry c' addr' s.
Proof. intros [_ H] Hne. unfold mem_entry. rewrite H. by apply flat_lookup_update_ne. Qed.

Lemma touched_val c addr cur s s' : touched c addr cur s s' ->
  entry_val c addr s' = rec_value cur.
Proof.
  intros H. unfold entry_val, entry_record. by rewrite (touched_entry _ _ _ _ _ H).
Qed.

Lemma touched_val_ne c addr cur c' addr' s s' : touched c addr cur s s' ->
  (c, Flat.key c addr) <> (c', Flat.key c' addr') ->
  entry_val c' addr' s' = entry_val c' addr' s.
Proof.
  intros H Hne. unfold entry_val, entry_record, init_value.
  rewrite (touched_entry_ne _ _ _ _ _ _ _ H Hne).
  by rewrite (proj2 (proj2 (proj2 (proj2 (same_ctl_fields _ _ (td_ctl _ _ _ _ _ H)))))).
Qed.

(** Entries agree with the key, not the address. *)
Lemma entry_val_key c a a' s : Flat.key c a = Flat.key c a' -> entry_val c a s = entry_val c a' s.
Proof.
  intros E. unfold entry_val, entry_record, init_value, mem_entry, Flat.lookup. by rewrite E.
Qed.

(** A read keeps every architectural value. *)
Lemma touched_read_vals c addr cur s s' :
  touched c addr cur s s' -> rec_value cur = entry_val c addr s ->
  forall c' addr', entry_val c' addr' s' = entry_val c' addr' s.
Proof.
  intros H Hv c' addr'.
  destruct (decide ((c, Flat.key c addr) = (c', Flat.key c' addr'))) as [E|E].
  - injection E as -> E. rewrite <- (entry_val_key c' addr addr' s' E).
    rewrite <- (entry_val_key c' addr addr' s E). rewrite (touched_val _ _ _ _ _ H). done.
  - by apply (touched_val_ne c addr cur).
Qed.

(** ** Access functions *)

(** Bookkeeping: neither the control state nor the memory changes. *)
Definition book (s s' : Executor) : Prop := same_ctl s s' /\ state s' = state s.

Lemma book_refl s : book s s.
Proof. split; [reflexivity | done]. Qed.

Lemma touched_book c addr cur s s1 s' :
  touched c addr cur s s1 -> book s1 s' -> touched c addr cur s s'.
Proof.
  intros [H1 H2] [H3 H4]. split; [by transitivity s1|]. by rewrite H4.
Qed.

Lemma book_accesses f s : book s (upd_memory_accesses f s).
Proof. by split; [constructor|]. Qed.

Lemma book_local_counts f s : book s (upd_local_counts f s).
Proof. by split; [constructor|]. Qed.

Lemma book_local f s : book s (upd_local_memory_access f s).
Proof. by split; [constructor|]. Qed.

Lemma book_checkpoint c addr s : book s (checkpoint_entry c addr s).
Proof. by split; [constructor|]. Qed.

Lemma book_trans s1 s2 s3 : book s1 s2 -> book s2 s3 -> book s1 s3.
Proof. intros [H1 E1] [H2 E2]. split; [by transitivity s2 | congruence]. Qed.

Create HintDb access.
#[export] Hint Resolve book_refl book_accesses book_local_counts book_local book_checkpoint : access.

Lemma touch_accesses cp c addr v sh ts s :
  memory_accesses (touch cp c addr v sh ts s).2 = memory_accesses s.
Proof.
  assert (forall s, memory_accesses (init_entry c addr s) = memory_accesses s) as Hi.
  { intros s'. unfold init_entry. by destruct (mem_entry c addr s'). }
  unfold touch. cbv zeta. cbn [snd]. unfold set_entry. cbn [memory_accesses upd_state].
  rewrite Hi. set (s1 := if cp s then _ else _).
  transitivity (memory_accesses s1); [by destruct (unconstrained s1) | subst s1; by destruct (cp s)].
Qed.

Lemma touchM_ok cp c addr v sh ts s :
  exists s', touchM cp c addr v sh ts s =
    Ok (entry_record c addr s,
        mkMemoryRecord sh ts (default (rec_value (entry_record c addr s)) v)) s' /\
  touched c addr (mkMemoryRecord sh ts (default (rec_value (entry_record c addr s)) v)) s s' /\
  memory_accesses s' = memory_accesses s.
Proof.
  unfold touchM. pose proof (touch_spec cp c addr v sh ts s) as H.
  pose proof (touch_accesses cp c addr v sh ts s) as Hm.
  destruct (touch cp c addr v sh ts s) as [[prev cur] s']. destruct H as (-> & -> & H).
  exists s'. auto.
Qed.

Lemma record_access_ok addr prev cur lma s :
  exists lma' s', record_access addr prev cur lma s = Ok lma' s' /\ book s s' /\
  memory_accesses s' = memory_accesses s.
Proof.
  destruct lma; cbn; eexists _, _; split_and!; eauto with access.
Qed.

Lemma count_local_mem_ok prev sh lma s :
  exists s', count_local_mem prev sh lma s = Ok tt s' /\ book s s' /\
  memory_accesses s' = memory_accesses s.
Proof.
  unfold count_local_mem, bind, gets, when. cbn.
  destruct (_ && _); eexists; split_and!; eauto with access.
Qed.

(** Step through a bind whose first computation is known. *)
Ltac step_ok L :=
  let s' := fresh "s" in
  let E := fresh "E" in
  destruct L as (s' & E & ?); erewrite bind_ok by exact E; clear E.

Section Accesses.
  Context (s : Executor).

(** The tail shared by the traced accesses. *)
Lemma record_if_ok (b : bool) addr prev cur lma s1 :
  exists lma' s', (if b then record_access addr prev cur lma else ret lma) s1 = Ok lma' s' /\
  book s1 s' /\ memory_accesses s' = memory_accesses s1.
Proof.
  destruct b; [apply record_access_ok|]. eexists _, _. split_and!; eauto with access.
Qed.

Lemma mr_ok addr sh ts lma :
  valid_mem_addr addr = true ->
  exists lma' s',
    mr addr sh ts lma s =
      Ok (read_record_new (mem_val s addr) sh ts (rec_shard (entry_record Flat.Page addr s))
            (rec_timestamp (entry_record Flat.Page addr s)), lma') s' /\
    touched Flat.Page addr (mkMemoryRecord sh ts (mem_val s addr)) s s' /\
    memory_accesses s' = memory_accesses s.
Proof.
  intros Hv. unfold mr. rewrite Hv. cbn [massert].
  destruct (touchM_ok checkpointing Flat.Page addr None sh ts s) as (s1 & E1 & T1 & A1).
  rewrite bind_ret_l. erewrite bind_ok by exact E1.
  destruct (count_local_mem_ok (entry_record Flat.Page addr s) sh lma s1) as (s2 & E2 & B2 & A2).
  erewrite bind_ok by exact E2. unfold bind at 1, gets at 1.
  destruct (record_if_ok (tracing (id s2)) addr (entry_record Flat.Page addr s)
    (mkMemoryRecord sh ts (mem_val s addr)) lma s2) as (lma' & s3 & E3 & B3 & A3).
  cbn [default]. erewrite bind_ok by exact E3.
  exists lma', s3. split_and!; [done| |congruence].
  eapply touched_book; [exact T1|]. by eapply book_trans.
Qed.

Lemma mw_ok addr v sh ts lma :
  valid_mem_addr addr = true ->
  exists lma' s',
    mw addr v sh ts lma s =
      Ok (write_record_new v sh ts (mem_val s addr) (rec_shard (entry_record Flat.Page addr s))
            (rec_timestamp (entry_record Flat.Page addr s)), lma') s' /\
    touched Flat.Page addr (mkMemoryRecord sh ts v) s s' /\
    memory_accesses s' = memory_accesses s.
Proof.
  intros Hv. unfold mw. rewrite Hv. cbn [massert].
  destruct (touchM_ok checkpointing Flat.Page addr (Some v) sh ts s) as (s1 & E1 & T1 & A1).
  rewrite bind_ret_l. erewrite bind_ok by exact E1.
  destruct (count_local_mem_ok (entry_record Flat.Page addr s) sh lma s1) as (s2 & E2 & B2 & A2).
  erewrite bind_ok by exact E2. unfold bind at 1, gets at 1.
  destruct (record_if_ok (tracing (id s2)) addr (entry_record Flat.Page addr s)
    (mkMemoryRecord sh ts v) lma s2) as (lma' & s3 & E3 & B3 & A3).
  cbn [default]. erewrite bind_ok by exact E3.
  exists lma', s3. split_and!; [done| |congruence].
  eapply touched_book; [exact T1|]. by eapply book_trans.
Qed.

Lemma rr_traced_ok r sh ts lma :
  exists lma' s',
    rr_traced r sh ts lma s =
      Ok (read_record_new (reg_val s r) sh ts (rec_shard (entry_record Flat.Reg (reg_idx r) s))
            (rec_timestamp (entry_record Flat.Reg (reg_idx r) s)), lma') s' /\
    touched Flat.Reg (reg_idx r) (mkMemoryRecord sh ts (reg_val s r)) s s' /\
    memory_accesses s' = memory_accesses s.
Proof.
  unfold rr_traced. cbv zeta.
  destruct (touchM_ok checkpointing Flat.Reg (reg_idx r) None sh ts s) as (s1 & E1 & T1 & A1).
  erewrite bind_ok by exact E1. unfold bind at 1, gets at 1.
  destruct (record_if_ok (tracing (id s1)) (reg_idx r) (entry_record Flat.Reg (reg_idx r) s)
    (mkMemoryRecord sh ts (reg_val s r)) lma s1) as (lma' & s3 & E3 & B3 & A3).
  cbn [default]. erewrite bind_ok by exact E3.
  exists lma', s3. split_and!; [done| |congruence]. by eapply touched_book.
Qed.

Lemma rw_traced_ok r v sh ts lma :
  exists lma' s',
    rw_traced r v sh ts lma s =
      Ok (write_record_new v sh ts (reg_val s r) (rec_shard (entry_record Flat.Reg (reg_idx r) s))
            (rec_timestamp (entry_record Flat.Reg (reg_idx r) s)), lma') s' /\
    touched Flat.Reg (reg_idx r) (mkMemoryRecord sh ts v) s s' /\
    memory_accesses s' = memory_accesses s.
Proof.
  unfold rw_traced. cbv zeta.
  destruct (touchM_ok unconstrained Flat.Reg (reg_idx r) (Some v) sh ts s) as (s1 & E1 & T1 & A1).
  erewrite bind_ok by exact E1. unfold bind at 1, gets at 1.
  destruct (record_if_ok (negb (unconstrained (id s1))) (reg_idx r)
    (entry_record Flat.Reg (reg_idx r) s)
    (mkMemoryRecord sh ts v) lma s1) as (lma' & s3 & E3 & B3 & A3).
  cbn [default]. erewrite bind_ok by exact E3.
  exists lma', s3. split_and!; [done| |congruence]. by eapply touched_book.
Qed.
End Accesses.

(** ** Accesses of the CPU *)

(** The records the CPU keeps for one access. *)
Definition read_rec (s : Executor) (c : Flat.comp) (addr ts : Z) : MemoryRecordEnum :=
  MRead (read_record_new (entry_val c addr s) (shard s) ts (rec_shard (entry_record c addr s))
           (rec_timestamp (entry_record c addr s))).

Definition write_rec (s : Executor) (c : Flat.comp) (addr v ts : Z) : MemoryRecordEnum :=
  MWrite (write_record_new v (shard s) ts (entry_val c addr s) (rec_shard (entry_record c addr s))
            (rec_timestamp (entry_record c addr s))).

Definition note (b : bool) (p : MemoryAccessPosition) (m : MemoryRecordEnum)
    (a : MemoryAccessRecord) : MemoryAccessRecord := if b then set_access p m a else a.

Lemma when_accesses_ok (b : bool) p m s :
  exists s', when b (modify (upd_memory_accesses (set_access p m))) s
    = Ok (E := ExecutionError) tt s' /\
  book s s' /\ memory_accesses s' = note b p m (memory_accesses s).
Proof. destruct b; eexists; split_and!; eauto with access. Qed.

Lemma rr_cpu_ok r p s :
  exists s', rr_cpu r p s = Ok (reg_val s r) s' /\
    touched Flat.Reg (reg_idx r) (mkMemoryRecord (shard s) (timestamp p s) (reg_val s r)) s s' /\
    memory_accesses s' =
      note (is_trace s && negb (unconstrained s)) p (read_rec s Flat.Reg (reg_idx r) (timestamp p s))
        (memory_accesses s).
Proof.
  unfold rr_cpu. unfold bind at 1, gets at 1. change (id s) with s. destruct (is_trace s).
  - destruct (rr_traced_ok s r (shard s) (timestamp p s) None) as (l & s1 & E1 & T1 & A1).
    erewrite bind_ok by exact E1.
    destruct (when_accesses_ok (negb (unconstrained s)) p
      (read_rec s Flat.Reg (reg_idx r) (timestamp p s)) s1) as (s2 & E2 & B2 & A2).
    erewrite bind_ok by exact E2. exists s2. split_and!; [done| |].
    + by eapply touched_book.
    + by rewrite A2, A1.
  - unfold rr. destruct (touchM_ok checkpointing Flat.Reg (reg_idx r) None (shard s)
      (timestamp p s) s) as (s1 & E1 & T1 & A1).
    erewrite bind_ok by exact E1. exists s1. done.
Qed.

Lemma rw_cpu_ok r v s :
  let v := if reg_idx r =? reg_idx X0 then 0 else v in
  exists s', rw_cpu r v s = Ok tt s' /\
    touched Flat.Reg (reg_idx r) (mkMemoryRecord (shard s) (timestamp PA s) v) s s' /\
    memory_accesses s' =
      note (is_trace s && negb (unconstrained s)) PA
        (write_rec s Flat.Reg (reg_idx r) v (timestamp PA s)) (memory_accesses s).
Proof.
  cbv zeta. unfold rw_cpu. unfold bind at 1, gets at 1. change (id s) with s.
  replace (if reg_idx r =? reg_idx X0 then 0 else if reg_idx r =? reg_idx X0 then 0 else v)
    with (if reg_idx r =? reg_idx X0 then 0 else v) by (by destruct (_ =? _)).
  set (v' := if reg_idx r =? reg_idx X0 then 0 else v). destruct (is_trace s).
  - destruct (rw_traced_ok s r v' (shard s) (timestamp PA s) None) as (l & s1 & E1 & T1 & A1).
    erewrite bind_ok by exact E1.
    destruct (when_accesses_ok (negb (unconstrained s)) PA
      (write_rec s Flat.Reg (reg_idx r) v' (timestamp PA s)) s1) as (s2 & E2 & B2 & A2).
    exists s2. split_and!; [done| |].
    + by eapply touched_book.
    + by rewrite A2, A1.
  - unfold rw. destruct (touchM_ok checkpointing Flat.Reg (reg_idx r) (Some v') (shard s)
      (timestamp PA s) s) as (s1 & E1 & T1 & A1).
    erewrite bind_ok by exact E1. exists s1. done.
Qed.

Lemma mr_cpu_ok addr s : valid_mem_addr addr = true ->
  exists s', mr_cpu addr s = Ok (mem_val s addr) s' /\
    touched Flat.Page addr (mkMemoryRecord (shard s) (timestamp PMemory s) (mem_val s addr)) s s' /\
    memory_accesses s' =
      note (is_trace s) PMemory (read_rec s Flat.Page addr (timestamp PMemory s))
        (memory_accesses s).
Proof.
  intros Hv. unfold mr_cpu. unfold bind at 1, gets at 1. change (id s) with s.
  destruct (mr_ok s addr (shard s) (timestamp PMemory s) None Hv) as (l & s1 & E1 & T1 & A1).
  erewrite bind_ok by exact E1.
  destruct (when_accesses_ok (is_trace s) PMemory
    (read_rec s Flat.Page addr (timestamp PMemory s)) s1) as (s2 & E2 & B2 & A2).
  erewrite bind_ok by exact E2. exists s2. split_and!; [done| |].
  - by eapply touched_book.
  - by rewrite A2, A1.
Qed.

Lemma mw_cpu_ok addr v s : valid_mem_addr addr = true ->
  exists s', mw_cpu addr v s = Ok tt s' /\
    touched Flat.Page addr (mkMemoryRecord (shard s) (timestamp PMemory s) v) s s' /\
    memory_accesses s' =
      note (is_trace s) PMemory (write_rec s Flat.Page addr v (timestamp PMemory s))
        (memory_accesses s).
Proof.
  intros Hv. unfold mw_cpu. unfold bind at 1, gets at 1. change (id s) with s.
  destruct (mw_ok s addr v (shard s) (timestamp PMemory s) None Hv) as (l & s1 & E1 & T1 & A1).
  erewrite bind_ok by exact E1.
  destruct (when_accesses_ok (is_trace s) PMemory
    (write_rec s Flat.Page addr v (timestamp PMemory s)) s1) as (s2 & E2 & B2 & A2).
  exists s2. split_and!; [done| |].
  - by eapply touched_book.
  - by rewrite A2, A1.
Qed.

Lemma invalid_mem_panics addr s :
  valid_mem_addr addr = false ->
  mr_cpu addr s = Panic /\ forall v, mw_cpu addr v s = Panic.
Proof.
  intros Hv. unfold mr_cpu, mw_cpu, mr, mw. rewrite Hv. done.
Qed.

(** *** Peeks *)

(** [word] returns the recorded value; it ignores [uninitialized_memory]. *)
Definition peek (c : Flat.comp) (addr : Z) (s : Executor) : Z :=
  default 0 (rec_value <$> mem_entry c addr s).

Lemma peek_entry_val c addr s :
  mem_entry c addr s <> None \/ Flat.lookup c addr (uninitialized_memory (state s)) = None ->
  peek c addr s = entry_val c addr s.
Proof.
  unfold peek, entry_val, entry_record, init_value. destruct (mem_entry c addr s); [done|].
  cbn. intros [|E]; [done|]. by rewrite E.
Qed.

Lemma when_checkpoint_ok (b : bool) c addr s :
  exists s', when b (modify (checkpoint_entry c addr)) s = Ok (E := ExecutionError) tt s' /\
    book s s' /\ memory_accesses s' = memory_accesses s.
Proof. destruct b; eexists; split_and!; eauto with access. Qed.

Lemma word_ok addr s : Flat.in_range addr = true ->
  exists s', word addr s = Ok (peek Flat.Page addr s) s' /\ book s s' /\
    memory_accesses s' = memory_accesses s.
Proof.
  intros Hr. unfold word. rewrite Hr. cbn [massert]. rewrite bind_ret_l.
  unfold bind at 1, gets at 1. change (id s) with s.
  destruct (when_checkpoint_ok (checkpointing s) Flat.Page addr s) as (s1 & E1 & B1 & A1).
  erewrite bind_ok by exact E1. exists s1. done.
Qed.

Lemma register_ok r s :
  exists s', register r s = Ok (peek Flat.Reg (reg_idx r) s) s' /\ book s s' /\
    memory_accesses s' = memory_accesses s.
Proof.
  unfold register. unfold bind at 1, gets at 1. change (id s) with s.
  destruct (when_checkpoint_ok (checkpointing s) Flat.Reg (reg_idx r) s) as (s1 & E1 & B1 & A1).
  erewrite bind_ok by exact E1. exists s1. done.
Qed.

Lemma valid_mem_in_range addr : valid_mem_addr addr = true -> 0 <= addr -> Flat.in_range addr = true.
Proof.
  unfold valid_mem_addr, BABYBEAR_PRIME. intros H H0. apply in_range_iff; [done|].
  rewrite negb_true_iff, !orb_false_iff in H. destruct H as [_ H]. apply Z.leb_gt in H. lia.
Qed.

Lemma valid_mem_aligned addr : valid_mem_addr addr = true -> addr mod 4 = 0.
Proof.
  unfold valid_mem_addr. rewrite negb_true_iff, !orb_false_iff, negb_false_iff, Z.eqb_eq. tauto.
Qed.
