(* ===== verification/Refinement.v ===== *)
(** * The executor implements RV32IM

    [RvState] and [rv_step] are an abstract RISC-V machine over mathematical
    integers: registers, word memory, program counter; no shards, clocks,
    records or modes.  The refinement lemmas show that [execute_instruction]
    computes [rv_step] on the architectural values in every executor mode, errors
    and panics included. *)

From Stdlib Require Import ZArith Lia Bool.
From stdpp Require Import base gmap list.
From S2P Require Import Prelude Monad Isa SyscallCode Memory Events ByteLookup Air Record Alu.
From S2P Require Import Dependencies State Executor Context Step Run Access.

Local Open Scope Z_scope.
Local Open Scope rv_scope.

(** ** The abstract machine *)

Record RvState : Type := mkRvState {
  rv_regs : Register -> Z;
  rv_mem : Z -> Z;
  rv_pc : Z
}.

Inductive RvResult : Type :=
| RvNext (m : RvState)
| RvFault (e : ExecutionError)
| RvPanic.

Definition set_reg (r : Register) (v : Z) (f : Register -> Z) : Register -> Z :=
  fun r' => if reg_idx r' =? reg_idx r then (if reg_idx r =? 0 then 0 else v) else f r'.

(** Memory is addressed by word. *)
Definition set_mem (addr v : Z) (f : Z -> Z) : Z -> Z :=
  fun a => if a / 4 =? addr / 4 then v else f a.

(** The word after storing the low bytes of [a] at offset [k]. *)
Definition store_spec (o : Opcode) (w k a : Z) : Z :=
  let b i := if (k <=? i) && (i <? k + access_width o) then byte_at a (i - k) else byte_at w i in
  from_le_bytes32 (b 0) (b 1) (b 2) (b 3).

Definition reg_of (z : Z) : Register := default X0 (reg_from_u8 z).

Definition rv_operands (i : Instruction) (m : RvState) : Z * Z :=
  let reg z := rv_regs m (reg_of (u8 z)) in
  if negb (imm_c i) then (reg (op_b i), reg (op_c i))
  else if negb (imm_b i) then (reg (op_b i), op_c i)
  else (op_b i, op_c i).

Definition next_pc_of (m : RvState) : Z := (rv_pc m + 4) mod 2 ^ 32.

Definition rv_writeback (rd : Register) (v np : Z) (m : RvState) : RvResult :=
  RvNext (mkRvState (set_reg rd v (rv_regs m)) (rv_mem m) np).

Definition rv_step (i : Instruction) (m : RvState) : RvResult :=
  let rd := reg_of (op_a i) in
  let rb := rv_regs m (reg_of (u8 (op_b i))) in
  let ra := rv_regs m (reg_of (op_a i)) in
  let addr := (rb + op_c i) mod 2 ^ 32 in
  let branch b := RvNext (mkRvState (rv_regs m) (rv_mem m)
                            (if (b : bool) then (rv_pc m + op_c i) mod 2 ^ 32 else next_pc_of m)) in
  if is_alu_instruction i then
    let '(b, c) := rv_operands i m in
    match rv_alu (opcode i) b c with
    | Some a => rv_writeback rd a (next_pc_of m) m
    | None => RvPanic
    end
  else if is_memory_load_instruction i then
    if valid_mem_addr (align addr) then
      if addr mod access_width (opcode i) =? 0
      then rv_writeback rd (load_spec (opcode i) (rv_mem m (align addr)) (addr mod 4))
             (next_pc_of m) m
      else RvFault (InvalidMemoryAccess (opcode i) addr)
    else RvPanic
  else if is_memory_store_instruction i then
    if Flat.in_range (align addr) then
      if addr mod access_width (opcode i) =? 0 then
        if valid_mem_addr (align addr) then
          RvNext (mkRvState (rv_regs m)
            (set_mem (align addr)
               (store_spec (opcode i) (rv_mem m (align addr)) (addr mod 4) ra) (rv_mem m))
            (next_pc_of m))
        else RvPanic
      else RvFault (InvalidMemoryAccess (opcode i) addr)
    else RvPanic
  else match opcode i with
       | BEQ => branch (bool_decide (ra = rb))
       | BNE => branch (bool_decide (ra <> rb))
       | BLT => branch (bool_decide (sx ra < sx rb))
       | BGE => branch (bool_decide (sx rb <= sx ra))
       | BLTU => branch (bool_decide (ra < rb))
       | BGEU => branch (bool_decide (rb <= ra))
       | JAL => rv_writeback rd (next_pc_of m) ((rv_pc m + op_b i) mod 2 ^ 32) m
       | JALR => rv_writeback rd (next_pc_of m) (addr - addr mod 2) m
       | AUIPC => rv_writeback rd ((rv_pc m + op_b i) mod 2 ^ 32) (next_pc_of m) m
       | EBREAK => RvFault Breakpoint
       | UNIMP => RvFault Unimplemented
       | _ => RvPanic
       end.

(** [JALR] clears the lowest bit of its target; the executor does not.  They
    differ when the target is odd. *)
Definition odd_jump (i : Instruction) (m : RvState) : bool :=
  opcode_eqb (opcode i) JALR && (((rv_regs m (reg_of (u8 (op_b i))) + op_c i) mod 2 ^ 32) mod 2 =? 1).

Lemma even_target i m : opcode i = JALR -> odd_jump i m = false ->
  let addr := (rv_regs m (reg_of (u8 (op_b i))) + op_c i) mod 2 ^ 32 in addr - addr mod 2 = addr.
Proof.
  intros Ho. unfold odd_jump. rewrite Ho. change (opcode_eqb JALR JALR) with true. cbn [andb]. intros H%Z.eqb_neq. cbn zeta.
  pose proof (Z.mod_pos_bound ((rv_regs m (reg_of (u8 (op_b i))) + op_c i) mod 2 ^ 32) 2). lia.
Qed.

(** ** Abstraction *)

Definition abs (s : Executor) : RvState := mkRvState (reg_val s) (mem_val s) (pc (state s)).

(** Equality of machine states, up to function extensionality. *)
Definition rv_eq (m m' : RvState) : Prop :=
  (forall r, rv_regs m r = rv_regs m' r) /\ (forall a, rv_mem m a = rv_mem m' a) /\
  rv_pc m = rv_pc m'.

#[global] Instance rv_eq_equiv : Equivalence rv_eq.
Proof.
  split.
  - intros m. by split_and!.
  - intros m m' (H1 & H2 & H3). by split_and!.
  - intros m m' m'' (H1 & H2 & H3) (H1' & H2' & H3').
    split_and!; [intros; by rewrite H1 | intros; by rewrite H2 | congruence].
Qed.

(** Registers and memory hold 32-bit words, [x0] holds 0. *)
Record machine_wf (s : Executor) : Prop := {
  wf_vals : forall c a, is_u32 (entry_val c a s);
  wf_x0 : reg_val s X0 = 0;
  wf_pc : is_u32 (pc (state s))
}.

(** ** Accesses, abstractly *)

Definition frame (s s' : Executor) : Prop :=
  same_ctl s s' /\ forall c a, entry_val c a s' = entry_val c a s.

#[global] Instance frame_preorder : PreOrder frame.
Proof.
  split; [by split|]. intros s1 s2 s3 [H1 E1] [H2 E2]. split; [by transitivity s2|].
  intros. by rewrite E2, E1.
Qed.

Definition wrote (c : Flat.comp) (addr v : Z) (s s' : Executor) : Prop :=
  same_ctl s s' /\ forall c' a', entry_val c' a' s' =
    if decide ((c, Flat.key c addr) = (c', Flat.key c' a')) then v else entry_val c' a' s.

Lemma touched_wrote c addr cur s s' : touched c addr cur s s' -> wrote c addr (rec_value cur) s s'.
Proof.
  intros H. split; [apply H|]. intros c' a'. destruct (decide _) as [E|E].
  - injection E as -> E. rewrite <- (entry_val_key c' addr a' s' E). by eapply touched_val.
  - by eapply touched_val_ne.
Qed.

Lemma touched_frame c addr cur s s' :
  touched c addr cur s s' -> rec_value cur = entry_val c addr s -> frame s s'.
Proof. intros H E. split; [apply H|]. by eapply touched_read_vals. Qed.

Lemma book_frame s s' : book s s' -> frame s s'.
Proof.
  intros [H E]. split; [done|]. intros. unfold entry_val, entry_record, init_value, mem_entry.
  by rewrite E.
Qed.

Lemma frame_wrote c addr v s s1 s' : frame s s1 -> wrote c addr v s1 s' -> wrote c addr v s s'.
Proof.
  intros [H1 E1] [H2 E2]. split; [by transitivity s1|]. intros. rewrite E2. by rewrite E1.
Qed.

Lemma frame_reg s s' r : frame s s' -> reg_val s' r = reg_val s r.
Proof. intros [_ E]. apply E. Qed.

Lemma frame_mem s s' a : frame s s' -> mem_val s' a = mem_val s a.
Proof. intros [_ E]. apply E. Qed.

(** In a traced cycle the memory access with value [v] is recorded; register
    accesses keep it. *)
Definition mem_noted (v : Z) (s : Executor) : Prop :=
  is_trace s = true ->
  exists m, ma_memory (memory_accesses s) = Some m /\ rec_value (current_record m) = v.

Lemma note_ma_memory b p m a : p <> PMemory -> ma_memory (note b p m a) = ma_memory a.
Proof. intros Hp. destruct b, p; done. Qed.

Lemma rr_frame r p s : p <> PMemory ->
  exists s', rr_cpu r p s = Ok (reg_val s r) s' /\ frame s s' /\ (forall v, mem_noted v s -> mem_noted v s') /\
    forall a, mem_entry Flat.Page a s' = mem_entry Flat.Page a s.
Proof.
  intros Hp. destruct (rr_cpu_ok r p s) as (s' & E & T & A). exists s'. split_and!; [done| | |].
  - by eapply touched_frame.
  - intros w. unfold mem_noted. rewrite (same_ctl_trace _ _ (td_ctl _ _ _ _ _ T)), A.
    by rewrite note_ma_memory.
  - intros a. by eapply touched_entry_ne.
Qed.

Lemma rw_wrote r v s :
  exists s', rw_cpu r v s = Ok tt s' /\
    wrote Flat.Reg (reg_idx r) (if reg_idx r =? 0 then 0 else v) s s' /\
    (forall v, mem_noted v s -> mem_noted v s').
Proof.
  destruct (rw_cpu_ok r v s) as (s' & E & T & A). change (reg_idx X0) with 0 in *.
  exists s'. split_and!.
  - rewrite <- E. unfold rw_cpu. change (reg_idx X0) with 0. by destruct (reg_idx r =? 0).
  - apply (touched_wrote _ _ _ _ _ T).
  - intros w. unfold mem_noted. rewrite (same_ctl_trace _ _ (td_ctl _ _ _ _ _ T)), A.
    by rewrite note_ma_memory.
Qed.

Lemma note_memory_some b m a : b = true -> ma_memory (note b PMemory m a) = Some m.
Proof. by intros ->. Qed.

Lemma mr_frame addr s : valid_mem_addr addr = true ->
  exists s', mr_cpu addr s = Ok (mem_val s addr) s' /\ frame s s' /\ mem_noted (mem_val s addr) s'.
Proof.
  intros Hv. destruct (mr_cpu_ok addr s Hv) as (s' & E & T & A). exists s'. split_and!; [done| |].
  - by eapply touched_frame.
  - unfold mem_noted. rewrite (same_ctl_trace _ _ (td_ctl _ _ _ _ _ T)), A.
    intros Ht. eexists. split; [by apply note_memory_some | done].
Qed.

Lemma mw_wrote addr v s : valid_mem_addr addr = true ->
  exists s', mw_cpu addr v s = Ok tt s' /\ wrote Flat.Page addr v s s' /\ mem_noted v s'.
Proof.
  intros Hv. destruct (mw_cpu_ok addr v s Hv) as (s' & E & T & A). exists s'. split_and!; [done| |].
  - apply (touched_wrote _ _ _ _ _ T).
  - unfold mem_noted. rewrite (same_ctl_trace _ _ (td_ctl _ _ _ _ _ T)), A.
    intros Ht. eexists. split; [by apply note_memory_some | done].
Qed.

(** Chain a known computation at the head of a bind. *)
Tactic Notation "run" constr(L) "as" simple_intropattern(p) :=
  let E := fresh "E" in destruct L as p;
  match goal with H : _ = Ok _ _ |- _ => erewrite bind_ok by exact H; clear H end.

(** ** Stores, by bytes *)

Lemma word_of_bytes w : is_u32 w ->
  from_le_bytes32 (byte_at w 0) (byte_at w 1) (byte_at w 2) (byte_at w 3) = w.
Proof.
  rewrite is_u32_iff. intros H. unfold from_le_bytes32, byte_at.
  change (2 ^ (8 * 0)) with 1. change (2 ^ (8 * 1)) with 256. change (2 ^ (8 * 2)) with 65536.
  change (2 ^ (8 * 3)) with 16777216. Z.div_mod_to_equations. lia.
Qed.

Lemma store_value_spec o addr a w :
  is_u32 a -> is_u32 w ->
  is_memory_store_instruction (mkInstruction o 0 0 0 false false) = true ->
  store_value o addr a w =
  Some (if addr mod access_width o =? 0 then Some (store_spec o w (addr mod 4) a) else None).
Proof.
  intros Ha Hw Ho. destruct (Z.eqb_spec (addr mod access_width o) 0) as [Hal|Hal].
  - assert (exists v, store_value o addr a w = Some (Some v)) as [v Hv].
    { destruct o; try discriminate Ho; cbn [store_value access_width] in *; eauto;
        rewrite Hal; cbn; eauto. }
    rewrite Hv. do 2 f_equal. pose proof (store_value_bytes o addr a w v) as Hb.
    rewrite <- (word_of_bytes v) by (apply (Hb 0); done || lia).
    unfold store_spec. by f_equal; apply Hb; try done; lia.
  - destruct o; try discriminate Ho; cbn [store_value access_width] in *.
    + by rewrite Z.mod_1_r in Hal.
    + by rewrite (proj2 (Z.eqb_neq _ _) Hal).
    + by rewrite (proj2 (Z.eqb_neq _ _) Hal).
Qed.

Lemma store_spec_u32 o w k a : is_u32 (store_spec o w k a).
Proof.
  unfold store_spec, from_le_bytes32. apply is_u32_iff.
  set (b := fun i => if (k <=? i) && (i <? k + access_width o) then byte_at a (i - k)
                     else byte_at w i).
  assert (forall i, 0 <= b i < 256) as Hb
    by (intros j; subst b; cbn; destruct (_ && _); apply byte_at_range).
  pose proof (Hb 0). pose proof (Hb 1). pose proof (Hb 2). pose proof (Hb 3).
  change (0 <= b 0 + 256 * b 1 + 65536 * b 2 + 16777216 * b 3 < 4294967296). lia.
Qed.

Lemma load_spec_u32 o w j : is_u32 w ->
  is_memory_load_instruction (mkInstruction o 0 0 0 false false) = true -> is_u32 (load_spec o w j).
Proof.
  intros Hw El. pose proof (byte_at_range w j). pose proof (byte_at_range w (j + 1)).
  unfold load_spec, sext, half_at.
  change (2 ^ 32) with 4294967296. change (2 ^ 8) with 256. change (2 ^ 16) with 65536.
  change (2 ^ (8 - 1)) with 128. change (2 ^ (16 - 1)) with 32768.
  destruct o; try discriminate El; try exact Hw; apply is_u32_iff;
    try (match goal with |- context [?x <? ?y] => destruct (Z.ltb_spec x y) end); lia.
Qed.

(** [SW] overwrites the word, whatever it held. *)
Lemma store_spec_sw w w' a : is_u32 a -> store_spec SW w 0 a = store_spec SW w' 0 a.
Proof. reflexivity. Qed.

(** ** Handlers *)

Lemma reg_of_ok z r : reg_from_u8 z = Some r -> reg_of z = r /\ reg_idx r = z.
Proof. intros H. unfold reg_of. rewrite H. split; [done | by apply reg_from_u8_spec]. Qed.

Section Handlers.
  Context (i : Instruction) (Hi : wf_instruction i).

Lemma dec_a : reg_from_u8 (op_a i) = Some (reg_of (op_a i)) /\ reg_idx (reg_of (op_a i)) = op_a i.
Proof.
  destruct (reg_from_u8_ok (op_a i)) as (r & E & Hr); [apply Hi|].
  destruct (reg_of_ok _ _ E) as [-> ?]. done.
Qed.

Lemma dec_b : uses_reg_b i = true ->
  reg_from_u8 (u8 (op_b i)) = Some (reg_of (u8 (op_b i))).
Proof.
  intros H. destruct Hi as (_ & [Hb _] & _ & Hr & _). specialize (Hr H).
  destruct (reg_from_u8_ok (u8 (op_b i))) as (r & E & _); [rewrite u8_reg by lia; lia|].
  by destruct (reg_of_ok _ _ E) as [-> ?].
Qed.

Lemma dec_c : imm_c i = false -> reg_from_u8 (u8 (op_c i)) = Some (reg_of (u8 (op_c i))).
Proof.
  intros H. destruct Hi as (_ & _ & [Hc _] & _ & Hr). specialize (Hr H).
  destruct (reg_from_u8_ok (u8 (op_c i))) as (r & E & _); [rewrite u8_reg by lia; lia|].
  by destruct (reg_of_ok _ _ E) as [-> ?].
Qed.

Lemma alu_uses_b : is_alu_instruction i = true -> imm_b i && imm_c i = false -> uses_reg_b i = true.
Proof.
  unfold is_alu_instruction, uses_reg_b. intros H ->. by destruct (opcode i).
Qed.

Lemma nonalu_uses_b :
  is_memory_load_instruction i || is_memory_store_instruction i || is_branch_instruction i ||
    opcode_eqb (opcode i) JALR = true -> uses_reg_b i = true.
Proof.
  unfold is_memory_load_instruction, is_memory_store_instruction, is_branch_instruction, uses_reg_b.
  by destruct (opcode i).
Qed.

Context (s : Executor) (Hs : machine_wf s).

Lemma operands_u32 : let '(b, c) := rv_operands i (abs s) in is_u32 b /\ is_u32 c.
Proof.
  destruct Hi as (_ & Hb & Hc & _). unfold rv_operands. cbn [rv_regs abs].
  destruct (negb (imm_c i)); [|destruct (negb (imm_b i))];
    split; try done; apply (wf_vals s Hs).
Qed.

Lemma alu_rr_ok : is_alu_instruction i = true ->
  exists s', alu_rr i s = Ok (reg_of (op_a i), (rv_operands i (abs s)).1, (rv_operands i (abs s)).2) s' /\
  frame s s'.
Proof.
  intros Ha. unfold alu_rr, rv_operands. destruct (imm_c i) eqn:Hc; cbn [negb].
  - destruct (imm_b i) eqn:Hb; cbn [negb andb].
    + rewrite (proj1 dec_a). exists s. split; done.
    + unfold i_type. rewrite (proj1 dec_a), dec_b by (apply alu_uses_b; by rewrite ?Hb).
      cbn [mbind option_bind unwrap]. rewrite bind_ret_l.
      run (rr_frame (reg_of (u8 (op_b i))) PB s ltac:(done)) as (s1 & ? & F1 & _).
      exists s1. done.
  - unfold r_type. rewrite (proj1 dec_a), dec_b, dec_c
      by (first [done | apply alu_uses_b; rewrite ?Hc, ?andb_false_r; done]).
    cbn [mbind option_bind unwrap]. rewrite bind_ret_l.
    run (rr_frame (reg_of (u8 (op_c i))) PC s ltac:(done)) as (s1 & ? & F1 & _).
    run (rr_frame (reg_of (u8 (op_b i))) PB s1 ltac:(done)) as (s2 & ? & F2 & _).
    exists s2. split; [|by transitivity s1]. cbn. by rewrite (frame_reg s s1 _ F1).
Qed.

Lemma execute_alu_ok : is_alu_instruction i = true ->
  let '(b, c) := rv_operands i (abs s) in
  exists a s', rv_alu (opcode i) b c = Some a /\ execute_alu i s = Ok (a, b, c) s' /\
  wrote Flat.Reg (op_a i) (if op_a i =? 0 then 0 else a) s s'.
Proof.
  intros Ha. pose proof operands_u32 as Hop. destruct (alu_rr_ok Ha) as (s1 & E1 & F1).
  destruct (rv_operands i (abs s)) as [b c]. destruct Hop as [Hb Hc].
  assert (exists a, alu_result (opcode i) b c = Some a) as [a Ea].
  { unfold is_alu_instruction in Ha. destruct (opcode i); try discriminate Ha; eauto. }
  unfold execute_alu. erewrite bind_ok by exact E1. cbn [fst snd]. rewrite Ea. cbn [unwrap].
  rewrite bind_ret_l. unfold alu_rw.
  run (rw_wrote (reg_of (op_a i)) a s1) as (s2 & ? & W2 & _).
  exists a, s2. rewrite <- alu_result_spec by done. split_and!; [done..|].
  rewrite (proj2 dec_a) in W2. by eapply frame_wrote.
Qed.

(** The effective address of a load or store. *)
Definition ea : Z := reg_val s (reg_of (u8 (op_b i))) +u op_c i.

Lemma align_ea_bound : 0 <= align ea < 2 ^ 32.
Proof.
  pose proof (u32_range (reg_val s (reg_of (u8 (op_b i))) + op_c i)) as [H1 H2].
  fold (wadd (reg_val s (reg_of (u8 (op_b i)))) (op_c i)) in H1, H2. fold ea in H1, H2.
  unfold align. pose proof (Z.mod_pos_bound ea 4). pose proof (Z.mod_le ea 4). lia.
Qed.

Lemma execute_load_ok : is_memory_load_instruction i = true ->
  execute_load i s = Panic /\ valid_mem_addr (align ea) = false \/
  valid_mem_addr (align ea) = true /\
  ((ea mod access_width (opcode i) <> 0 /\
    exists s', execute_load i s = Err (InvalidMemoryAccess (opcode i) ea) s' /\ frame s s') \/
   (ea mod access_width (opcode i) = 0 /\
    exists s', let a := load_spec (opcode i) (mem_val s (align ea)) (ea mod 4) in
      execute_load i s = Ok (a, reg_val s (reg_of (u8 (op_b i))), op_c i) s' /\
      wrote Flat.Reg (op_a i) (if op_a i =? 0 then 0 else a) s s' /\
      mem_noted (mem_val s (align ea)) s')).
Proof.
  intros Hl. unfold execute_load, load_rr, i_type.
  rewrite (proj1 dec_a), dec_b by (apply nonalu_uses_b; by rewrite Hl).
  cbn [mbind option_bind unwrap]. rewrite !bind_assoc, bind_ret_l, bind_assoc.
  run (rr_frame (reg_of (u8 (op_b i))) PB s ltac:(done)) as (s1 & ? & F1 & _).
  rewrite bind_assoc. fold ea.
  destruct (valid_mem_addr (align ea)) eqn:Hv.
  2:{ left. split; [|done]. unfold bind. by rewrite (proj1 (invalid_mem_panics _ s1 Hv)). }
  right. split; [done|].
  run (mr_frame (align ea) s1 Hv) as (s2 & ? & F2 & N2). rewrite bind_ret_l. cbn beta iota.
  rewrite (frame_mem _ _ _ F1) in *. rewrite load_value_spec.
  2: apply (wf_vals s Hs). 2: { unfold is_memory_load_instruction in *. done. }
  assert (frame s s2) as F by (by transitivity s1).
  destruct (Z.eqb_spec (ea mod access_width (opcode i)) 0) as [Hal|Hal]; [right|left].
  - split; [done|]. cbn [checked]. rewrite bind_ret_l.
    run (rw_wrote (reg_of (op_a i))
      (load_spec (opcode i) (mem_val s (align ea)) (ea mod 4)) s2) as (s3 & ? & W3 & N3).
    exists s3. cbv zeta. split_and!; [done| |by apply N3]. rewrite (proj2 dec_a) in W3.
    by eapply frame_wrote.
  - split; [done|]. exists s2. done.
Qed.

(** The word a sub-word store modifies was accessed before, or no hint was
    placed on it: then [word] sees its value. *)
Definition store_ready : Prop :=
  opcode i = SW \/ mem_entry Flat.Page (align ea) s <> None \/
  Flat.lookup Flat.Page (align ea) (uninitialized_memory (state s)) = None.

Lemma peek_u32 c a s1 : (forall c a, is_u32 (entry_val c a s1)) -> is_u32 (peek c a s1).
Proof.
  intros H. specialize (H c a). revert H. unfold peek, entry_val, entry_record.
  destruct (mem_entry c a s1); cbn; [done|]. intros _. by apply is_u32_iff.
Qed.

Lemma peek_same s1 a : (forall a, mem_entry Flat.Page a s1 = mem_entry Flat.Page a s) -> peek Flat.Page a s1 = peek Flat.Page a s.
Proof. intros He. unfold peek. by rewrite He. Qed.

Lemma peek_ready : store_ready -> opcode i <> SW -> peek Flat.Page (align ea) s = mem_val s (align ea).
Proof. intros [Hr|Hr] Hsw; [done|]. by rewrite peek_entry_val. Qed.

(** The word a store leaves, merged into what [word] sees. *)
Definition merged : Z := store_spec (opcode i) (peek Flat.Page (align ea) s) (ea mod 4) (reg_val s (reg_of (op_a i))).

Lemma execute_store_merged : is_memory_store_instruction i = true ->
  execute_store i s = Panic /\ Flat.in_range (align ea) = false \/
  Flat.in_range (align ea) = true /\
  ((ea mod access_width (opcode i) <> 0 /\
    exists s', execute_store i s = Err (InvalidMemoryAccess (opcode i) ea) s' /\ frame s s') \/
   (ea mod access_width (opcode i) = 0 /\
    (execute_store i s = Panic /\ valid_mem_addr (align ea) = false \/
     valid_mem_addr (align ea) = true /\
     exists s', execute_store i s = Ok (reg_val s (reg_of (op_a i)), reg_val s (reg_of (u8 (op_b i))), op_c i) s' /\
       wrote Flat.Page (align ea) merged s s' /\ mem_noted merged s'))).
Proof.
  intros Hl. unfold execute_store, store_rr, s_type.
  rewrite (proj1 dec_a), dec_b by (apply nonalu_uses_b; by rewrite Hl, orb_true_r).
  cbn [mbind option_bind unwrap]. rewrite !bind_assoc, bind_ret_l, bind_assoc.
  run (rr_frame (reg_of (u8 (op_b i))) PB s ltac:(done)) as (s1 & ? & F1 & _ & M1).
  rewrite bind_assoc.
  run (rr_frame (reg_of (op_a i)) PA s1 ltac:(done)) as (s2 & ? & F2 & _ & M2).
  rewrite (frame_reg _ _ _ F1), bind_assoc. fold ea.
  assert (frame s s2) as F by (by transitivity s1).
  assert (forall a, mem_entry Flat.Page a s2 = mem_entry Flat.Page a s) as M
    by (intros a; by rewrite M2).
  destruct (Flat.in_range (align ea)) eqn:Hr.
  2:{ left. split; [|done]. unfold word, bind at 1. by rewrite Hr. }
  right. split; [done|].
  run (word_ok (align ea) s2 Hr) as (s3 & ? & B3 & A3). rewrite bind_ret_l. cbn beta iota.
  assert (frame s s3) as F3 by (transitivity s2; [done | by apply book_frame]).
  rewrite (peek_same s2 _ M).
  rewrite store_value_spec; [|apply (wf_vals s Hs)|apply peek_u32, (wf_vals s Hs)|done].
  destruct (Z.eqb_spec (ea mod access_width (opcode i)) 0) as [Hal|Hal]; [right|left].
  - split; [done|]. cbn [checked]. rewrite bind_ret_l. fold merged.
    destruct (valid_mem_addr (align ea)) eqn:Hv.
    2:{ left. split; [|done]. unfold bind. by rewrite (proj2 (invalid_mem_panics _ s3 Hv)). }
    right. split; [done|].
    run (mw_wrote (align ea) merged s3 Hv) as (s4 & ? & W4 & N4).
    exists s4. split_and!; [done| |done]. by eapply frame_wrote.
  - split; [done|]. exists s3. done.
Qed.

Lemma merged_ready : ea mod access_width (opcode i) = 0 -> store_ready ->
  merged = store_spec (opcode i) (mem_val s (align ea)) (ea mod 4) (reg_val s (reg_of (op_a i))).
Proof.
  intros Hal Hready. unfold merged. destruct (decide (opcode i = SW)) as [Hsw|Hsw].
  - rewrite Hsw in *. cbn [access_width] in Hal. rewrite Hal. reflexivity.
  - by rewrite (peek_ready Hready Hsw).
Qed.

Lemma execute_branch_ok np : is_branch_instruction i = true ->
  let a := reg_val s (reg_of (op_a i)) in
  let b := reg_val s (reg_of (u8 (op_b i))) in
  exists t s', branch_taken (opcode i) a b = Some t /\
  execute_branch i np s = Ok (a, b, op_c i, if t then pc (state s) +u op_c i else np) s' /\
  frame s s'.
Proof.
  intros Hb. cbv zeta. unfold execute_branch, branch_rr, b_type.
  rewrite (proj1 dec_a), dec_b by (apply nonalu_uses_b; rewrite Hb; by rewrite orb_true_r).
  cbn [mbind option_bind unwrap].
  assert (exists t, branch_taken (opcode i) (reg_val s (reg_of (op_a i)))
    (reg_val s (reg_of (u8 (op_b i)))) = Some t) as [t Ht].
  { unfold is_branch_instruction in Hb. destruct (opcode i); try discriminate Hb; eexists; done. }
  exists t. rewrite bind_assoc, bind_ret_l, bind_assoc.
  run (rr_frame (reg_of (u8 (op_b i))) PB s ltac:(done)) as (s1 & ? & F1 & _).
  rewrite bind_assoc.
  run (rr_frame (reg_of (op_a i)) PA s1 ltac:(done)) as (s2 & ? & F2 & _).
  rewrite (frame_reg _ _ _ F1), bind_ret_l. cbn beta iota. rewrite Ht. cbn [unwrap].
  rewrite bind_ret_l. exists s2.
  assert (frame s s2) as F by (by transitivity s1). split_and!; [done| |done].
  unfold bind, gets, ret, id. by rewrite (proj1 (same_ctl_fields _ _ (proj1 F))).
Qed.

Lemma execute_jump_ok : is_jump_instruction i = true ->
  exists b c s', execute_jump i s =
    Ok (pc (state s) +u 4, b, c, if opcode_eqb (opcode i) JAL then pc (state s) +u op_b i else ea) s' /\
  wrote Flat.Reg (op_a i) (if op_a i =? 0 then 0 else pc (state s) +u 4) s s' /\
  is_u32 b /\ is_u32 c.
Proof.
  intros Hj. unfold execute_jump. pose proof Hi as (_ & Hbu & Hcu & _). unfold is_jump_instruction in Hj.
  destruct (opcode i) eqn:Ho; try discriminate Hj; cbn [opcode_eqb].
  - unfold j_type. rewrite (proj1 dec_a). cbn [mbind option_bind unwrap].
    rewrite bind_ret_l. unfold bind at 1, gets at 1. change (id s) with s.
    run (rw_wrote (reg_of (op_a i)) (pc (state s) +u 4) s) as (s1 & ? & W & _).
    rewrite (proj2 dec_a) in W. eexists _, _, s1. split_and!; done.
  - unfold i_type. rewrite (proj1 dec_a), dec_b
      by (apply nonalu_uses_b; rewrite Ho; by rewrite !orb_true_r).
    cbn [mbind option_bind unwrap]. rewrite bind_ret_l.
    run (rr_frame (reg_of (u8 (op_b i))) PB s ltac:(done)) as (s1 & ? & F1 & _).
    unfold bind at 1, gets at 1. change (id s1) with s1.
    rewrite (proj1 (same_ctl_fields _ _ (proj1 F1))).
    run (rw_wrote (reg_of (op_a i)) (pc (state s) +u 4) s1) as (s2 & ? & W & _).
    rewrite (proj2 dec_a) in W. eexists _, _, s2.
    split_and!; [done | by eapply frame_wrote | apply (wf_vals s Hs) | done].
Qed.

Lemma execute_auipc_ok : is_auipc_instruction i = true ->
  exists s', execute_auipc i s = Ok (pc (state s) +u op_b i, op_b i, op_b i) s' /\
  wrote Flat.Reg (op_a i) (if op_a i =? 0 then 0 else pc (state s) +u op_b i) s s'.
Proof.
  intros Hj. unfold execute_auipc, u_type. rewrite (proj1 dec_a). cbn [mbind option_bind unwrap].
  rewrite bind_ret_l. unfold bind at 1, gets at 1. change (id s) with s.
  run (rw_wrote (reg_of (op_a i)) (pc (state s) +u op_b i) s) as (s1 & ? & W & _).
  rewrite (proj2 dec_a) in W. exists s1. done.
Qed.
End Handlers.

(** ** End of the cycle *)

(** Only the record changed. *)
Definition rec_only (s s' : Executor) : Prop := s' = upd_record (fun _ => record s') s.

#[global] Instance rec_only_preorder : PreOrder rec_only.
Proof.
  split; [by intros []|]. intros s1 s2 s3 H1 H2. unfold rec_only in *. rewrite H2, H1. done.
Qed.

Lemma rec_only_upd f s : rec_only s (upd_record f s).
Proof. done. Qed.

Lemma modify_record_ok f s : f (record s) <> None ->
  exists s', modify_record f s = Ok tt s' /\ rec_only s s'.
Proof.
  intros H. unfold modify_record, bind, gets, unwrap, id. destruct (f (record s)); [|done].
  eexists. split; [done|]. done.
Qed.

(** Instructions whose cycle completes. *)
Definition completes (i : Instruction) : bool :=
  negb (is_ebreak_instruction i) && negb (is_unimp_instruction i).

Lemma emit_alu_ok o a b c z s :
  is_alu_opcode o = true -> exists s', emit_alu_event o a b c z s = Ok tt s' /\ rec_only s s'.
Proof.
  intros Ho. unfold emit_alu_event, bind, gets. destruct o; try discriminate Ho;
    (eexists; split; [done|]; apply rec_only_upd).
Qed.

Lemma emit_events_ok clk_ np i code a b c z r x s :
  completes i = true ->
  (is_memory_load_instruction i || is_memory_store_instruction i = true ->
   ma_memory (memory_accesses s) <> None) ->
  exists s', emit_events clk_ np i code a b c z r x s = Ok tt s' /\ rec_only s s'.
Proof.
  intros Hc Hm. unfold emit_events. unfold bind at 1, emit_cpu, modify.
  set (s1 := upd_record _ s). assert (rec_only s s1) as R1 by apply rec_only_upd.
  assert (memory_accesses s1 = memory_accesses s) as A1 by done. clearbody s1.
  assert (forall m : EM unit, (exists s', m s1 = Ok tt s' /\ rec_only s1 s') ->
    exists s', m s1 = Ok tt s' /\ rec_only s s') as K.
  { intros m (s' & ? & ?). exists s'. split; [done|]. by transitivity s1. }
  destruct (is_alu_instruction i) eqn:Ea; [apply K; by apply emit_alu_ok|].
  destruct (is_memory_load_instruction i || is_memory_store_instruction i) eqn:Em.
  { apply K. unfold emit_mem_instr_event, bind, gets, unwrap, id. rewrite A1.
    destruct (ma_memory (memory_accesses s)) eqn:E; [|by destruct (Hm eq_refl)].
    eexists. split; [done|]. apply rec_only_upd. }
  destruct (is_branch_instruction i) eqn:Eb.
  { apply K. unfold emit_branch_event, bind, gets. apply modify_record_ok.
    unfold emit_branch_dependencies, is_branch_instruction in *. cbn [br_opcode].
    destruct (opcode i); try discriminate Eb; cbn; discriminate. }
  destruct (is_jump_instruction i) eqn:Ej.
  { apply K. unfold emit_jump_event, bind, gets. apply modify_record_ok.
    unfold emit_jump_dependencies, is_jump_instruction in *. cbn [jp_opcode].
    destruct (opcode i); try discriminate Ej; discriminate. }
  destruct (is_auipc_instruction i) eqn:Eau.
  { apply K. cbv [emit_auipc_event emit_syscall_event bind gets modify].
    eexists. split; [reflexivity|]. apply rec_only_upd. }
  destruct (is_ecall_instruction i) eqn:Ee.
  { apply K. cbv [emit_auipc_event emit_syscall_event bind gets modify].
    eexists. split; [reflexivity|]. apply rec_only_upd. }
  exfalso. revert Hc Ea Em Eb Ej Eau Ee. unfold completes, is_alu_instruction,
    is_memory_load_instruction, is_memory_store_instruction, is_branch_instruction,
    is_jump_instruction, is_auipc_instruction, is_ecall_instruction, is_ebreak_instruction,
    is_unimp_instruction. by destruct (opcode i).
Qed.

(** [finish] only emits events and advances [pc] and [clk]. *)
Lemma finish_ok i o s :
  completes i = true ->
  (is_memory_load_instruction i || is_memory_store_instruction i = true ->
   exists v, mem_noted v s) ->
  exists s1, rec_only s s1 /\
    finish i o s = Ok tt
      (upd_state (upd_clk (fun k => k +u 4)) (upd_state (upd_pc (fun _ => out_next_pc o)) s1)).
Proof.
  intros Hc Hm. unfold finish. cbv zeta. unfold bind at 1, gets at 1. change (id s) with s.
  destruct (is_trace s) eqn:Ht; cbn [when].
  - destruct (emit_events_ok (out_clk o) (out_next_pc o) i (out_syscall o)
      (if op_a i =? reg_idx X0 then 0 else out_a o) (out_b o) (out_c o) (op_a i =? reg_idx X0)
      (memory_accesses s) (out_exit_code o) s Hc) as (s1 & E1 & R1).
    { intros H. destruct (Hm H) as (v & N). destruct (N Ht) as (m & -> & _). done. }
    erewrite bind_ok by exact E1. exists s1. done.
  - rewrite bind_ret_l. exists s. split; [reflexivity | done].
Qed.

(** ** The refinement *)

(** The state after [finish]. *)
Definition finished (np : Z) (s : Executor) : Executor :=
  upd_state (upd_clk (fun k => k +u 4)) (upd_state (upd_pc (fun _ => np)) s).

(** What a cycle keeps besides registers, memory, [pc] and [clk]. *)
Definition same_env (s s' : Executor) : Prop :=
  program s' = program s /\ executor_mode s' = executor_mode s /\
  unconstrained s' = unconstrained s /\ global_clk (state s') = global_clk (state s) /\
  current_shard (state s') = current_shard (state s) /\
  uninitialized_memory (state s') = uninitialized_memory (state s) /\
  clk (state s') = clk (state s) +u 4 /\
  (max_cycles s', shard_batch_size s', shape_check_frequency s') =
  (max_cycles s, shard_batch_size s, shape_check_frequency s).

Lemma finished_val c a np s1 s2 : rec_only s2 s1 ->
  entry_val c a (finished np s1) = entry_val c a s2.
Proof. intros H. unfold rec_only in H. rewrite H. done. Qed.

Lemma finished_env np s s1 s2 : same_ctl s s2 -> rec_only s2 s1 -> same_env s (finished np s1).
Proof.
  intros C R. destruct (same_ctl_fields _ _ C) as (_ & Ec & Eg & Es & Eu).
  unfold rec_only in R. rewrite R. unfold same_env, finished. cbn.
  rewrite Ec, Eg, Es, Eu, (sc_program _ _ C), (sc_mode _ _ C), (sc_unconstrained _ _ C).
  pose proof (sc_sizes _ _ C) as E1. injection E1 as _ -> _ ->.
  pose proof (sc_shapes _ _ C) as E2. injection E2 as _ -> _. done.
Qed.

Lemma reg_key_eq r r' :
  (Flat.Reg, Flat.key Flat.Reg (reg_idx r)) = (Flat.Reg, Flat.key Flat.Reg (reg_idx r')) <->
  reg_idx r' = reg_idx r.
Proof. cbn. split; [by intros [=] | by intros ->]. Qed.

Section Assemble.
  Context (i : Instruction) (Hi : wf_instruction i) (s : Executor) (Hs : machine_wf s).

Lemma set_reg_zero r v f : reg_idx r = op_a i ->
  set_reg (reg_of (op_a i)) v f r = if op_a i =? 0 then 0 else v.
Proof.
  intros Hr. unfold set_reg. rewrite (proj2 (dec_a i Hi)), Hr, Z.eqb_refl. done.
Qed.

Lemma finish_writeback a np s1 s2 :
  wrote Flat.Reg (op_a i) (if op_a i =? 0 then 0 else a) s s2 -> rec_only s2 s1 ->
  is_u32 a -> is_u32 np ->
  rv_eq (abs (finished np s1))
    (mkRvState (set_reg (reg_of (op_a i)) a (rv_regs (abs s))) (rv_mem (abs s)) np) /\
  machine_wf (finished np s1).
Proof.
  intros [C W] R Ha Hnp.
  assert (forall r, reg_val (finished np s1) r = set_reg (reg_of (op_a i)) a (reg_val s) r) as Hreg.
  { intros r. unfold reg_val. rewrite (finished_val _ _ _ _ _ R), W. cbn [Flat.key].
    destruct (decide _) as [E|E].
    - injection E as E. by rewrite set_reg_zero.
    - unfold set_reg. rewrite (proj2 (dec_a i Hi)).
      destruct (Z.eqb_spec (reg_idx r) (op_a i)); [congruence|done]. }
  split; [split_and!|split].
  - exact Hreg.
  - intros x. cbn. unfold mem_val. rewrite (finished_val _ _ _ _ _ R), W.
    by destruct (decide _).
  - done.
  - intros c x. rewrite (finished_val _ _ _ _ _ R), W. destruct (decide _).
    + destruct (op_a i =? 0); [by apply is_u32_iff | done].
    + apply (wf_vals s Hs).
  - rewrite Hreg. unfold set_reg. rewrite (proj2 (dec_a i Hi)). change (reg_idx X0) with 0.
    destruct (Z.eqb_spec 0 (op_a i)) as [<-|]; [done|]. apply (wf_x0 s Hs).
  - done.
Qed.

Lemma finish_frame np s1 s2 :
  frame s s2 -> rec_only s2 s1 -> is_u32 np ->
  rv_eq (abs (finished np s1)) (mkRvState (rv_regs (abs s)) (rv_mem (abs s)) np) /\
  machine_wf (finished np s1).
Proof.
  intros [C W] R Hnp.
  assert (forall c a, entry_val c a (finished np s1) = entry_val c a s) as V
    by (intros; by rewrite (finished_val _ _ _ _ _ R)).
  split; [split_and!; try done; intros; apply V|]. split.
  - intros. rewrite V. apply (wf_vals s Hs).
  - unfold reg_val. rewrite V. apply (wf_x0 s Hs).
  - done.
Qed.

Lemma finish_store addr v np s1 s2 :
  0 <= addr -> wrote Flat.Page addr v s s2 -> rec_only s2 s1 -> is_u32 v -> is_u32 np ->
  rv_eq (abs (finished np s1))
    (mkRvState (rv_regs (abs s)) (set_mem addr v (rv_mem (abs s))) np) /\
  machine_wf (finished np s1).
Proof.
  intros Ha [C W] R Hv Hnp. split; [split_and!|split].
  - intros r. cbn. unfold reg_val. rewrite (finished_val _ _ _ _ _ R), W. by destruct (decide _).
  - intros a. cbn. unfold mem_val, set_mem. rewrite (finished_val _ _ _ _ _ R), W. cbn [Flat.key].
    rewrite !compress_div. destruct (decide _) as [E|E].
    + injection E as E. by rewrite E, Z.eqb_refl.
    + destruct (Z.eqb_spec (a / 4) (addr / 4)) as [E'|]; [|done]. by rewrite E' in E.
  - done.
  - intros c x. rewrite (finished_val _ _ _ _ _ R), W.
    destruct (decide _); [done | apply (wf_vals s Hs)].
  - unfold reg_val. rewrite (finished_val _ _ _ _ _ R), W.
    destruct (decide _); [done | apply (wf_x0 s Hs)].
  - done.
Qed.
End Assemble.

(** Outcome of the executor against the outcome of the abstract machine. *)
Definition refines (s : Executor) (r : Res Executor ExecutionError unit) (m : RvResult) : Prop :=
  match r, m with
  | Ok _ s', RvNext m' => rv_eq (abs s') m' /\ machine_wf s' /\ same_env s s'
  | Err e s', RvFault e' => e = e' /\ rv_eq (abs s') (abs s)
  | Panic, RvPanic => True
  | _, _ => False
  end.

Section Machine.
  Context (syscall_map : SyscallCode -> option Syscall).

Lemma execute_instruction_pre i s :
  exists s0, state s0 = state s /\ program s0 = program s /\ executor_mode s0 = executor_mode s /\
    unconstrained s0 = unconstrained s /\ record s0 = record s /\
    (max_cycles s0, shard_batch_size s0, shape_check_frequency s0) =
    (max_cycles s, shard_batch_size s, shape_check_frequency s) /\
    execute_instruction syscall_map i s =
    bind (dispatch syscall_map i (clk (state s)) (pc (state s) +u 4)) (finish i) s0.
Proof.
  unfold execute_instruction. unfold bind at 1, gets at 1. change (id s) with s.
  set (s1 := if is_trace s then upd_memory_accesses (fun _ => MemoryAccessRecord_default) s else s).
  assert (when (is_trace s) (modify (upd_memory_accesses (fun _ => MemoryAccessRecord_default))) s
    = Ok (E := ExecutionError) tt s1) as E1 by (subst s1; by destruct (is_trace s)).
  erewrite bind_ok by exact E1.
  assert (state s1 = state s /\ program s1 = program s /\ executor_mode s1 = executor_mode s /\
    unconstrained s1 = unconstrained s /\ record s1 = record s /\
    (max_cycles s1, shard_batch_size s1, shape_check_frequency s1) =
    (max_cycles s, shard_batch_size s, shape_check_frequency s)) as H1 by (subst s1; by destruct (is_trace s)).
  clearbody s1.
  assert (exists s0, count_instruction i s1 = Ok tt s0 /\ state s0 = state s1 /\
    program s0 = program s1 /\ executor_mode s0 = executor_mode s1 /\
    unconstrained s0 = unconstrained s1 /\ record s0 = record s1 /\
    (max_cycles s0, shard_batch_size s0, shape_check_frequency s0) =
    (max_cycles s1, shard_batch_size s1, shape_check_frequency s1)) as (s0 & E0 & H0).
  { unfold count_instruction, bind, gets, when. destruct (negb _); eexists; split_and!; done. }
  erewrite bind_ok by exact E0. exists s0. destruct_and?. split_and!; congruence || done.
Qed.

Lemma same_state_val c a s0 s : state s0 = state s -> entry_val c a s0 = entry_val c a s.
Proof.
  intros E. unfold entry_val, entry_record, init_value, mem_entry. by rewrite E.
Qed.

Lemma same_state_wf s0 s : state s0 = state s -> machine_wf s -> machine_wf s0.
Proof.
  intros E [H1 H2 H3]. split.
  - intros. rewrite (same_state_val _ _ _ _ E). done.
  - unfold reg_val. by rewrite (same_state_val _ _ _ _ E).
  - by rewrite E.
Qed.

Lemma same_state_abs s0 s : state s0 = state s -> rv_eq (abs s0) (abs s).
Proof.
  intros E. split_and!; cbn; intros; try apply (same_state_val _ _ _ _ E). by rewrite E.
Qed.

Lemma frame_abs s s' : frame s s' -> rv_eq (abs s') (abs s).
Proof.
  intros F. split_and!; cbn; intros; [apply F|apply F|]. apply (same_ctl_fields _ _ (proj1 F)).
Qed.

Ltac classes :=
  unfold completes, is_alu_instruction, is_memory_load_instruction, is_memory_store_instruction,
    is_branch_instruction, is_jump_instruction, is_auipc_instruction, is_ecall_instruction,
    is_ebreak_instruction, is_unimp_instruction in *.

(** One lemma per instruction class: the handler followed by [finish]. *)
Section Classes.
  Context (i : Instruction) (Hi : wf_instruction i) (s : Executor) (Hs : machine_wf s) (k : Z).
Let np := pc (state s) +u 4.

Definition plain_out (r : Z * Z * Z) : Outcome :=
  let '(a, b, c) := r in mkOutcome a b c k np HALT 0.

Definition pc_out (r : Z * Z * Z * Z) : Outcome :=
  let '(a, b, c, p) := r in mkOutcome a b c k p HALT 0.

(** Run [finish] on the outcome in the goal. *)
Ltac run_finish s2 :=
  match goal with |- context [finish i ?o s2] =>
    destruct (finish_ok i o s2) as (s1 & R & ->);
      [classes; by destruct (opcode i) | first [by eauto | classes; by destruct (opcode i)] |] end;
  cbn [out_next_pc].

Lemma np_u32 : is_u32 np.
Proof. apply wadd_range. Qed.

Lemma writeback_refines s1 s2 a p m' :
  wrote Flat.Reg (op_a i) (if op_a i =? 0 then 0 else a) s s2 -> rec_only s2 s1 ->
  is_u32 a -> is_u32 p ->
  m' = rv_writeback (reg_of (op_a i)) a p (abs s) ->
  refines s (Ok tt (finished p s1)) m'.
Proof.
  intros W R Ha Hp ->. destruct (finish_writeback i Hi s Hs a p s1 s2 W R Ha Hp) as [? ?].
  split_and!; [done..|]. apply (finished_env _ _ _ _ (proj1 W) R).
Qed.

Lemma alu_refines : is_alu_instruction i = true ->
  refines s (bind (execute_alu i) (fun r => finish i (plain_out r)) s) (rv_step i (abs s)).
Proof.
  intros Ea. unfold rv_step. rewrite Ea.
  pose proof (execute_alu_ok i Hi s Hs Ea) as H. pose proof (operands_u32 i Hi s Hs) as Ho.
  destruct (rv_operands i (abs s)) as [b c]. destruct Ho as [Hb Hc].
  destruct H as (a & s2 & Hr & E & W). rewrite Hr. erewrite bind_ok by exact E.
  cbn [plain_out]. run_finish s2.
  rewrite <- alu_result_spec in Hr by done.
  eapply writeback_refines; eauto using alu_result_range, np_u32.
Qed.

Lemma load_refines : is_alu_instruction i = false -> is_memory_load_instruction i = true ->
  refines s (bind (execute_load i) (fun r => finish i (plain_out r)) s) (rv_step i (abs s)).
Proof.
  intros Ea El. unfold rv_step. rewrite Ea, El. cbv zeta. cbn [abs rv_regs rv_mem].
  change ((reg_val s (reg_of (u8 (op_b i))) + op_c i) mod 2 ^ 32) with (ea i s).
  destruct (execute_load_ok i Hi s Hs El) as
    [[E Hv]|(Hv & [(Hal & s2 & E & F)|(Hal & s2 & E & W & N)])]; rewrite Hv.
  - unfold bind. by rewrite E.
  - rewrite (proj2 (Z.eqb_neq _ _) Hal). unfold bind. rewrite E.
    split; [done|]. by apply frame_abs.
  - rewrite Hal. cbn [Z.eqb]. erewrite bind_ok by exact E. cbn [plain_out]. run_finish s2.
    eapply writeback_refines; eauto using np_u32. apply load_spec_u32; [apply (wf_vals s Hs) | done].
Qed.

Lemma store_refines : is_alu_instruction i = false -> is_memory_load_instruction i = false ->
  is_memory_store_instruction i = true -> store_ready i s ->
  refines s (bind (execute_store i) (fun r => finish i (plain_out r)) s) (rv_step i (abs s)).
Proof.
  intros Ea El Est Hready. unfold rv_step. rewrite Ea, El, Est. cbv zeta. cbn [abs rv_regs rv_mem].
  change ((reg_val s (reg_of (u8 (op_b i))) + op_c i) mod 2 ^ 32) with (ea i s).
  destruct (execute_store_merged i Hi s Hs Est) as
    [[E Hv]|(Hv & [(Hal & s2 & E & F)|(Hal & [[E Hv']|(Hv' & s2 & E & W & N)])])]; rewrite Hv.
  - unfold bind. by rewrite E.
  - rewrite (proj2 (Z.eqb_neq _ _) Hal). unfold bind. rewrite E.
    split; [done|]. by apply frame_abs.
  - rewrite Hal, Hv'. unfold bind. by rewrite E.
  - rewrite (merged_ready i s Hal Hready) in W, N. rewrite Hal, Hv'. cbn [Z.eqb]. erewrite bind_ok by exact E. cbn [plain_out]. run_finish s2.
    destruct (finish_store s Hs _ _ np s1 s2
      (proj1 (align_ea_bound i s)) W R (store_spec_u32 _ _ _ _) np_u32) as [? ?].
    split_and!; [done..|]. apply (finished_env _ _ _ _ (proj1 W) R).
Qed.

Lemma branch_refines : is_branch_instruction i = true ->
  refines s (bind (execute_branch i np) (fun r => finish i (pc_out r)) s) (rv_step i (abs s)).
Proof.
  intros Eb. destruct (execute_branch_ok i Hi s np Eb) as (t & s2 & Ht & E & F).
  erewrite bind_ok by exact E. cbn [pc_out]. run_finish s2.
  destruct (finish_frame s Hs (if t then pc (state s) +u op_c i else np) s1 s2 F R)
    as [? ?]; [destruct t; auto using np_u32 with rvbound|].
  rewrite branch_taken_spec in Ht by apply (wf_vals s Hs).
  unfold rv_step. classes. destruct (opcode i); try discriminate Eb;
    injection Ht as <-; (split_and!; [done..|]; apply (finished_env _ _ _ _ (proj1 F) R)).
Qed.

Lemma jump_refines : is_jump_instruction i = true -> odd_jump i (abs s) = false ->
  refines s (bind (execute_jump i) (fun r => finish i (pc_out r)) s) (rv_step i (abs s)).
Proof.
  intros Ej Hodd. destruct (execute_jump_ok i Hi s Hs Ej) as (b & c & s2 & E & W & _).
  erewrite bind_ok by exact E. cbn [pc_out]. run_finish s2.
  eapply writeback_refines; eauto using np_u32.
  - destruct (opcode_eqb _ _); [auto with rvbound|]. apply wadd_range.
  - unfold rv_step. pose proof (even_target i (abs s)) as Heven. cbv zeta in Heven. classes. destruct (opcode i); try discriminate Ej; [done|].
    by rewrite (Heven eq_refl Hodd).
Qed.

Lemma auipc_refines : is_auipc_instruction i = true ->
  refines s (bind (execute_auipc i) (fun r => finish i (plain_out r)) s) (rv_step i (abs s)).
Proof.
  intros Eau. destruct (execute_auipc_ok i Hi s Eau) as (s2 & E & W).
  erewrite bind_ok by exact E. cbn [plain_out]. run_finish s2.
  eapply writeback_refines; eauto using np_u32; [auto with rvbound|].
  unfold rv_step. classes. by destruct (opcode i).
Qed.
End Classes.

(** The body of [execute_instruction] after its preamble. *)
Lemma body_refines i s k :
  wf_instruction i -> machine_wf s -> is_ecall_instruction i = false ->
  (is_memory_store_instruction i = true -> store_ready i s) -> odd_jump i (abs s) = false ->
  refines s (bind (dispatch syscall_map i k (pc (state s) +u 4)) (finish i) s) (rv_step i (abs s)).
Proof.
  intros Hi Hs Hec Hready Hodd. unfold dispatch. rewrite Hec.
  destruct (is_alu_instruction i) eqn:Ea; [rewrite bind_assoc; by apply alu_refines|].
  destruct (is_memory_load_instruction i) eqn:El; [rewrite bind_assoc; by apply load_refines|].
  destruct (is_memory_store_instruction i) eqn:Est.
  { rewrite bind_assoc. apply store_refines; auto. }
  destruct (is_branch_instruction i) eqn:Eb; [rewrite bind_assoc; by apply branch_refines|].
  destruct (is_jump_instruction i) eqn:Ej; [rewrite bind_assoc; by apply jump_refines|].
  destruct (is_auipc_instruction i) eqn:Eau; [rewrite bind_assoc; by apply auipc_refines|].
  assert (opcode i = EBREAK \/ opcode i = UNIMP) as Ho.
  { clear Hi Hs Hready Hodd. classes. destruct (opcode i); try discriminate; auto. }
  unfold rv_step. rewrite Ea, El, Est. classes. destruct Ho as [-> | ->];
    (split; [reflexivity | apply reflexivity]).
Qed.

Lemma same_state_abs_eq s0 s : state s0 = state s -> abs s0 = abs s.
Proof.
  intros E. unfold abs, reg_val, mem_val, entry_val, entry_record, init_value, mem_entry.
  by rewrite E.
Qed.

Lemma instruction_refines i s :
  wf_instruction i -> machine_wf s -> is_ecall_instruction i = false ->
  (is_memory_store_instruction i = true -> store_ready i s) -> odd_jump i (abs s) = false ->
  refines s (execute_instruction syscall_map i s) (rv_step i (abs s)).
Proof.
  intros Hi Hs Hec Hready Hodd.
  destruct (execute_instruction_pre i s) as (s0 & E0 & Hp & Hm & Hu & _ & Hz & ->).
  pose proof (body_refines i s0 (clk (state s)) Hi (same_state_wf s0 s E0 Hs) Hec) as H.
  rewrite E0, (same_state_abs_eq s0 s E0) in H. unfold refines, same_env in *.
  assert (is_memory_store_instruction i = true -> store_ready i s0) as Hready0.
  { intros Hst. specialize (Hready Hst). unfold store_ready, ea, reg_val, mem_entry in *.
    by rewrite E0, (same_state_val _ _ _ _ E0). }
  specialize (H Hready0 Hodd).
  destruct (bind _ _ s0), (rv_step i (abs s)); try done.
  - rewrite E0, Hp, Hm, Hu, Hz in H. done.
  - by rewrite (same_state_abs_eq s0 s E0) in H.
Qed.

(** C4. In every executor mode, a well-formed instruction other than [ECALL] does
    what the RV32IM machine does: same registers, memory, program counter, same
    fault on a misaligned access, breakpoint or unimplemented instruction, a panic
    exactly on addresses the machine forbids; registers and words stay 32-bit,
    [x0] stays 0, and the clock advances by 4.  Two cases are excluded: a sub-word
    store to a word that carries a pending hint and was not accessed, and [JALR] to
    an odd address, whose lowest bit the executor keeps. *)
Theorem execute_instruction_refines i s :
  wf_instruction i -> machine_wf s -> is_ecall_instruction i = false ->
  (is_memory_store_instruction i = true -> store_ready i s) -> odd_jump i (abs s) = false ->
  refines s (execute_instruction syscall_map i s) (rv_step i (abs s)).
Proof. apply instruction_refines. Qed.

(** [JALR] to an odd address: the machine clears the lowest bit of the target
    ("pc <- (rs1 + imm) & ~1", opcode.rs), the executor goes to the odd address. *)
Lemma jalr_keeps_low_bit i s : wf_instruction i -> machine_wf s -> odd_jump i (abs s) = true ->
  exists s' m', execute_instruction syscall_map i s = Ok tt s' /\ rv_step i (abs s) = RvNext m' /\ pc (state s') = rv_pc m' + 1.
Proof.
  intros Hi Hs Hodd. unfold odd_jump in Hodd. apply andb_true_iff in Hodd as [Ho%opcode_eqb_eq Hb%Z.eqb_eq].
  destruct (execute_instruction_pre i s) as (s0 & E0 & _ & _ & _ & _ & _ & ->). pose proof (same_state_wf s0 s E0 Hs) as Hs0.
  rewrite <- (same_state_abs_eq s0 s E0) in *. assert (is_jump_instruction i = true) as Ej by (unfold is_jump_instruction; by rewrite Ho).
  destruct (execute_jump_ok i Hi s0 Hs0 Ej) as (b & c & s2 & E & W & _).
  unfold dispatch. classes. rewrite Ho in E |- *. change (is_alu_opcode JALR) with false. cbv iota. rewrite bind_assoc. erewrite bind_ok by exact E. change (opcode_eqb JALR JAL) with false. cbn iota.
  rewrite bind_ret_l. match goal with |- context [finish i ?o s2] => destruct (finish_ok i o s2) as (s1 & R & ->); [classes; by rewrite Ho|classes; by rewrite Ho|] end.
  eexists _, _. split; [reflexivity|]. split; [unfold rv_step; classes; rewrite Ho; reflexivity|]. cbn [state upd_state pc upd_clk upd_pc rv_pc out_next_pc].
  change ((rv_regs (abs s0) (reg_of (u8 (op_b i))) + op_c i) mod 2 ^ 32) with (ea i s0) in *. lia.
Qed.

(** The bytes of a stored word. *)
Lemma store_spec_byte o w k a j : 0 <= j < 4 -> byte_at (store_spec o w k a) j = if (k <=? j) && (j <? k + access_width o) then byte_at a (j - k) else byte_at w j.
Proof.
  intros Hj. unfold store_spec. set (b := fun i => if (k <=? i) && (i <? k + access_width o) then byte_at a (i - k) else byte_at w i).
  change (byte_at (from_le_bytes32 (b 0) (b 1) (b 2) (b 3)) j = b j).
  assert (forall i, 0 <= b i < 256) as Hb by (intros i; subst b; cbn; destruct (_ && _); apply byte_at_range).
  pose proof (Hb 0). pose proof (Hb 1). pose proof (Hb 2). pose proof (Hb 3). unfold from_le_bytes32, byte_at.
  assert (j = 0 \/ j = 1 \/ j = 2 \/ j = 3) as [-> |[-> |[-> | ->]]] by lia;
    [change (2 ^ (8 * 0)) with 1|change (2 ^ (8 * 1)) with 256|change (2 ^ (8 * 2)) with 65536|change (2 ^ (8 * 3)) with 16777216]; Z.div_mod_to_equations; lia.
Qed.

(** C34. [store_rr] peeks with [word], which does not consult
    [uninitialized_memory]: on every machine, an aligned [SB] or [SH] to a valid word
    that was hinted and not accessed yet writes its bytes and sets the other bytes of
    the word to 0, while the RV32IM machine keeps the bytes of the hint. *)
Theorem sub_word_store_drops_hint i s w :
  let addr := ea i s in
  let stored j := (addr mod 4 <=? j) && (j <? addr mod 4 + access_width (opcode i)) in
  wf_instruction i -> machine_wf s -> opcode i = SB \/ opcode i = SH ->
  valid_mem_addr (align addr) = true -> addr mod access_width (opcode i) = 0 ->
  mem_entry Flat.Page (align addr) s = None -> Flat.lookup Flat.Page (align addr) (uninitialized_memory (state s)) = Some w ->
  exists s' m', execute_instruction syscall_map i s = Ok tt s' /\ rv_step i (abs s) = RvNext m' /\
    forall j, 0 <= j < 4 ->
      byte_at (mem_val s' (align addr)) j = (if stored j then byte_at (reg_val s (reg_of (op_a i))) (j - addr mod 4) else 0) /\
      byte_at (rv_mem m' (align addr)) j = (if stored j then byte_at (reg_val s (reg_of (op_a i))) (j - addr mod 4) else byte_at w j).
Proof.
  intros addr stored Hi Hs Ho Hv Hal Hnone Hw. assert (is_memory_store_instruction i = true) as Est by (unfold is_memory_store_instruction; by destruct Ho as [-> | ->]).
  pose proof (align_ea_bound i s) as Hbound. fold addr in Hbound. assert (Flat.in_range (align addr) = true) as Hr by (apply valid_mem_in_range; [done|lia]).
  assert (mem_val s (align addr) = w) as Ew by (unfold mem_val, entry_val, entry_record, init_value; rewrite Hnone, Hw; done).
  assert (is_alu_instruction i = false /\ is_memory_load_instruction i = false) as [Ea El] by (unfold is_alu_instruction, is_memory_load_instruction; destruct Ho as [-> | ->]; by split).
  destruct (execute_instruction_pre i s) as (s0 & E0 & _ & _ & _ & _ & _ & ->). pose proof (same_state_wf s0 s E0 Hs) as Hs0.
  assert (ea i s0 = addr) as Eea by (unfold ea, reg_val; by rewrite (same_state_val _ _ _ _ E0)).
  destruct (execute_store_merged i Hi s0 Hs0 Est) as [[E Hx]|(_ & [(Hx & _)|(_ & [[E Hx]|(_ & s2 & E & W & N)])])]; rewrite ?Eea in *; try congruence.
  assert (merged i s0 = store_spec (opcode i) 0 (addr mod 4) (reg_val s (reg_of (op_a i)))) as Em.
  { unfold merged. rewrite Eea. unfold peek, reg_val. rewrite (same_state_val _ _ _ _ E0). unfold mem_entry in Hnone |- *. by rewrite E0, Hnone. }
  rewrite Em in *. unfold dispatch. rewrite Ea, El, Est, bind_assoc. erewrite bind_ok by exact E. rewrite bind_ret_l.
  match goal with |- context [finish i ?o s2] => destruct (finish_ok i o s2) as (s1 & R & ->) end; [classes; by destruct Ho as [-> | ->]|intros _; by eexists|]. cbn [out_next_pc].
  eexists _, _. split; [reflexivity|]. split.
  { unfold rv_step. rewrite Ea, El, Est. cbn [abs rv_regs rv_mem]. change ((reg_val s (reg_of (u8 (op_b i))) + op_c i) mod 2 ^ 32) with addr. rewrite Hr, Hal, Hv. reflexivity. }
  intros j Hj. destruct (finish_store s0 Hs0 (align addr) _ (pc (state s) +u 4) s1 s2 (proj1 Hbound) W R (store_spec_u32 _ _ _ _) ltac:(apply wadd_range)) as [(_ & Hmem & _) _].
  cbn [abs rv_mem] in Hmem |- *. unfold finished in Hmem. rewrite Hmem. unfold set_mem. rewrite Z.eqb_refl, !store_spec_byte, Ew by done. by split; [unfold stored; destruct (_ && _)|].
Qed.
End Machine.

(** ** Concrete machines *)

Definition no_syscalls : SyscallCode -> option Syscall := fun _ => None.

(** A fresh executor on the given instructions. *)
Definition boot (insns : list Instruction) : Executor :=
  Executor_new no_syscalls (Program_new insns 0 0) (mkCoreOpts 1024 1).

Lemma fresh_machine_wf s :
  memory (state s) = Flat.empty ->
  (forall c a, is_u32 (default 0 (Flat.lookup c a (uninitialized_memory (state s))))) ->
  Flat.lookup Flat.Reg 0 (uninitialized_memory (state s)) = None ->
  is_u32 (pc (state s)) -> machine_wf s.
Proof.
  intros Hm Hu H0 Hpc. assert (forall c a, mem_entry c a s = None) as He.
  { intros [] a; unfold mem_entry; by rewrite Hm. }
  split; [|unfold reg_val|done]; unfold entry_val, entry_record, init_value; intros; rewrite He.
  - apply Hu.
  - cbn [rec_value]. change (reg_idx X0) with 0. by rewrite H0.
Qed.

Lemma boot_wf insns : machine_wf (boot insns).
Proof.
  apply fresh_machine_wf; try done. intros [] a; by apply is_u32_iff.
Qed.

Lemma execute_instruction_refines_witness :
  refines (boot []) (execute_instruction no_syscalls (mkInstruction ADD 5 6 7 false true) (boot []))
    (rv_step (mkInstruction ADD 5 6 7 false true) (abs (boot []))).
Proof.
  apply execute_instruction_refines; [|apply boot_wf|reflexivity|discriminate|reflexivity].
  split_and!; try done; cbn; try lia; apply is_u32_iff; lia.
Defined.

(** A word hinted at address 4096 and not accessed yet. *)
Definition hinted : Executor :=
  upd_state (upd_uninitialized_memory (Flat.update Flat.Page 4096 0xDDCCBBAA)) (boot []).

Definition sb_hinted : Instruction := mkInstruction SB 0 0 4096 false true.

Lemma sub_word_store_drops_hint_witness :
  rv_mem (abs hinted) 4096 = 0xDDCCBBAA /\ exists s', execute_instruction no_syscalls sb_hinted hinted = Ok tt s' /\ byte_at (mem_val s' 4096) 3 = 0.
Proof.
  split; [vm_compute; reflexivity|]. destruct (sub_word_store_drops_hint no_syscalls sb_hinted hinted 0xDDCCBBAA) as (s' & m' & E & _ & H); [| |by left|reflexivity..|].
  - split_and!; try done; cbn; try lia; apply is_u32_iff; lia.
  - apply fresh_machine_wf; try done.
    intros c a. unfold hinted. cbn [state upd_state uninitialized_memory upd_uninitialized_memory].
    destruct (flat_lookup_update Flat.Page c 4096 a 0xDDCCBBAA
      (uninitialized_memory (state (boot [])))) as [-> | ->]; [by apply is_u32_iff|].
    destruct c; by apply is_u32_iff.
  - exists s'. split; [exact E|]. destruct (H 3 ltac:(lia)) as [H3 _]. assert (align (ea sb_hinted hinted) = 4096 /\ ea sb_hinted hinted mod 4 = 0) as [E1 E2] by (vm_compute; done).
    rewrite E1, E2 in H3. exact H3.
Defined.
