(* ===== verification/Trace.v ===== *)
(** * Soundness of the emitted trace

    In [Trace] mode every cycle emits one CPU event, the event of the
    instruction's own chip and the derived ALU events.  The lemmas show that the
    emitted ALU events are true facts of the ALU semantics and that the CPU
    event describes the cycle. *)

From Stdlib Require Import ZArith Lia Bool.
From stdpp Require Import base gmap list.
From S2P Require Import Prelude Monad Isa SyscallCode Memory Events ByteLookup Air Record Alu.
From S2P Require Import Dependencies State Executor Context Step Run Access Refinement.

Local Open Scope Z_scope.
Local Open Scope rv_scope.

(** What the operands passed to [emit_events] must satisfy, per instruction
    class; [v] is the value of the cycle's memory access, [z] says that the
    destination is [x0]. *)
Definition operands_valid (i : Instruction) (a b c pc_ v : Z) (z : bool) : Prop :=
  is_u32 a /\ is_u32 b /\ is_u32 c /\ is_u32 pc_ /\ is_u32 v /\
  (is_alu_instruction i = true ->
   if z then a = 0 else alu_result (opcode i) b c = Some a) /\
  (opcode i = LB \/ opcode i = LH -> load_value (opcode i) (b +u c) v = Some (Some a)) /\
  (opcode i = AUIPC -> a = pc_ +u b).

(** [emit_events] keeps the ALU tables true. *)
Lemma emit_events_tables clk_ np i code a b c z r x s v s' :
  operands_valid i a b c (pc (state s)) v z ->
  (is_memory_load_instruction i || is_memory_store_instruction i = true ->
   exists m, ma_memory (memory_accesses s) = Some m /\ rec_value (current_record m) = v) ->
  alu_tables_ok (record s) ->
  emit_events clk_ np i code a b c z r x s = Ok tt s' -> alu_tables_ok (record s').
Proof.
  intros (Ha & Hb & Hc & Hpc & Hv & Halu & Hld & Haui) Hm Ht.
  unfold emit_events. unfold bind at 1, emit_cpu, modify.
  set (s1 := upd_record _ s).
  assert (alu_tables_ok (record s1)) as Ht1 by done.
  assert (state s1 = state s /\ memory_accesses s1 = memory_accesses s) as [E1 A1] by done.
  clearbody s1.
  destruct (is_alu_instruction i) eqn:Ea.
  { specialize (Halu eq_refl). unfold emit_alu_event, bind, gets, id. rewrite E1.
    set (e := mkAluEvent _ _ _ _ _ _).
    assert (alu_event_ok e) as He by (split_and!; done).
    unfold is_alu_instruction in Ea. destruct (opcode i) eqn:Ho; try discriminate Ea;
      unfold modify; intros [= <-]; cbn [record upd_record];
      auto using emit_divrem_ok with tables. }
  destruct (is_memory_load_instruction i || is_memory_store_instruction i) eqn:Em.
  { destruct (Hm eq_refl) as (m & Em' & Emv). unfold emit_mem_instr_event, bind, gets, unwrap, id.
    rewrite A1, Em'. unfold ret, modify. intros [= <-]. cbn [record upd_record].
    apply emit_memory_ok; cbn [mi_b mi_c mi_opcode mi_a]; rewrite ?Emv; auto. }
  destruct (is_branch_instruction i) eqn:Eb.
  { unfold emit_branch_event, modify_record, bind, gets, unwrap, id. rewrite E1.
    destruct (emit_branch_dependencies _ _) as [r'|] eqn:Er; [|done]. unfold ret, modify.
    intros [= <-]. cbn [record upd_record]. by eapply emit_branch_ok in Er. }
  destruct (is_jump_instruction i) eqn:Ej.
  { unfold emit_jump_event, modify_record, bind, gets, unwrap, id. rewrite E1.
    destruct (emit_jump_dependencies _ _) as [r'|] eqn:Er; [|done]. unfold ret, modify.
    intros [= <-]. cbn [record upd_record]. by eapply emit_jump_ok in Er. }
  destruct (is_auipc_instruction i) eqn:Eau.
  { cbv [emit_auipc_event bind gets id modify]. rewrite E1. intros [= <-].
    cbn [record upd_record]. apply emit_auipc_ok; cbn; auto. apply Haui.
    unfold is_auipc_instruction in Eau. by destruct (opcode i). }
  destruct (is_ecall_instruction i) eqn:Ee; [|done].
  cbv [emit_syscall_event modify]. intros [= <-]. done.
Qed.

(** Loads and [AUIPC] to [x0] have no arithmetic to prove. *)
Definition x0_special (i : Instruction) : bool :=
  (op_a i =? 0) && match opcode i with LB | LH | AUIPC => true | _ => false end.

Definition shown_a (i : Instruction) (a : Z) : Z := if op_a i =? 0 then 0 else a.

Section Dispatch.
  Context (syscall_map : SyscallCode -> option Syscall).
  Context (i : Instruction) (Hi : wf_instruction i) (s : Executor) (Hs : machine_wf s) (k : Z).
  Context (Hx : x0_special i = false).
Let np := pc (state s) +u 4.

(** The dispatched handler returns operands that satisfy [operands_valid], and
    has noted its memory access. *)
Definition dispatched (o : Outcome) (s2 : Executor) : Prop :=
  same_ctl s s2 /\
  exists v, operands_valid i (shown_a i (out_a o)) (out_b o) (out_c o) (pc (state s)) v (op_a i =? 0) /\
    (is_memory_load_instruction i || is_memory_store_instruction i = true -> mem_noted v s2).

Lemma shown_u32 a : is_u32 a -> is_u32 (shown_a i a).
Proof. intros. unfold shown_a. destruct (_ =? _); [by apply is_u32_iff | done]. Qed.

Ltac classes :=
  unfold is_alu_instruction, is_memory_load_instruction, is_memory_store_instruction,
    is_branch_instruction, is_jump_instruction, is_auipc_instruction, is_ecall_instruction,
    is_ebreak_instruction, is_unimp_instruction in *.

Lemma zero_u32 : is_u32 0.
Proof. by apply is_u32_iff. Qed.

Lemma not_x0 : match opcode i with LB | LH | AUIPC => (op_a i =? 0) = false | _ => True end.
Proof.
  unfold x0_special in Hx. destruct (op_a i =? 0), (opcode i); done.
Qed.

Lemma alu_dispatched a b c s2 : is_alu_instruction i = true ->
  execute_alu i s = Ok (a, b, c) s2 -> dispatched (mkOutcome a b c k np HALT 0) s2.
Proof.
  intros Ea E. pose proof (execute_alu_ok i Hi s Hs Ea) as H.
  pose proof (operands_u32 i Hi s Hs) as Ho.
  destruct (rv_operands i (abs s)) as [b' c']. destruct Ho as [Hb Hc].
  destruct H as (a' & s2' & Hr & E' & W). rewrite E' in E. injection E as -> -> -> ->.
  rewrite <- alu_result_spec in Hr by done. split; [apply W|]. exists 0. split.
  - split_and!; cbn [out_a out_b out_c]; try done.
    + apply shown_u32. by apply (alu_result_range (opcode i) b c).
    + apply (wf_pc s Hs).
    + intros _. unfold shown_a. by destruct (op_a i =? 0).
    + intros [Ho|Ho]; classes; rewrite Ho in Ea; discriminate.
    + intros Ho. classes. rewrite Ho in Ea; discriminate.
  - intros H. exfalso. classes. by destruct (opcode i).
Qed.

Lemma load_dispatched a b c s2 : is_memory_load_instruction i = true ->
  execute_load i s = Ok (a, b, c) s2 -> dispatched (mkOutcome a b c k np HALT 0) s2.
Proof.
  intros El E. destruct (execute_load_ok i Hi s Hs El) as
    [[E' _]|(_ & [(_ & ? & E' & _)|(Hal & s2' & E' & W & N)])]; rewrite E' in E; try discriminate E.
  cbv zeta in *. injection E as <- <- <- <-. split; [apply W|]. exists (mem_val s (align (ea i s))).
  split; [|done]. split_and!; cbn [out_a out_b out_c]; try done.
  - apply shown_u32, load_spec_u32; [apply (wf_vals s Hs) | done].
  - apply (wf_vals s Hs).
  - apply Hi.
  - apply (wf_pc s Hs).
  - apply (wf_vals s Hs).
  - intros Ha. classes. by destruct (opcode i).
  - intros Ho. fold (ea i s). rewrite load_value_spec; [|apply (wf_vals s Hs)|done].
    rewrite Hal. cbn [Z.eqb]. unfold shown_a. pose proof not_x0 as Hz.
    destruct Ho as [Ho|Ho]; rewrite Ho in Hz; by rewrite Hz.
  - intros Ho. classes. by rewrite Ho in El.
Qed.

Lemma store_dispatched a b c s2 :
  is_memory_store_instruction i = true ->
  execute_store i s = Ok (a, b, c) s2 -> dispatched (mkOutcome a b c k np HALT 0) s2.
Proof.
  intros Est E. destruct (execute_store_merged i Hi s Hs Est) as
    [[E' _]|(_ & [(_ & ? & E' & _)|(_ & [[E' _]|(_ & s2' & E' & W & N)])])];
    rewrite E' in E; try discriminate E.
  cbv zeta in *. injection E as <- <- <- <-. split; [apply W|].
  eexists. split; [|intros _; exact N]. split_and!; cbn [out_a out_b out_c]; try done.
  - apply shown_u32, (wf_vals s Hs).
  - apply (wf_vals s Hs).
  - apply Hi.
  - apply (wf_pc s Hs).
  - apply store_spec_u32.
  - intros Ha. classes. by destruct (opcode i).
  - intros [Ho|Ho]; classes; by rewrite Ho in Est.
  - intros Ho. classes. by rewrite Ho in Est.
Qed.

Lemma branch_dispatched a b c p s2 : is_branch_instruction i = true ->
  execute_branch i np s = Ok (a, b, c, p) s2 -> dispatched (mkOutcome a b c k p HALT 0) s2.
Proof.
  intros Eb E. destruct (execute_branch_ok i Hi s np Eb) as (t & s2' & Ht & E' & F).
  rewrite E' in E. injection E as <- <- <- <- <-. split; [apply F|]. exists 0. split.
  - split_and!; cbn [out_a out_b out_c]; try done.
    + apply shown_u32, (wf_vals s Hs).
    + apply (wf_vals s Hs).
    + apply Hi.
    + apply (wf_pc s Hs).
    + intros Ha. classes. by destruct (opcode i).
    + intros [Ho|Ho]; classes; by rewrite Ho in Eb.
    + intros Ho. classes. by rewrite Ho in Eb.
  - intros H. exfalso. classes. by destruct (opcode i).
Qed.

Lemma jump_dispatched a b c p s2 : is_jump_instruction i = true ->
  execute_jump i s = Ok (a, b, c, p) s2 -> dispatched (mkOutcome a b c k p HALT 0) s2.
Proof.
  intros Ej E. destruct (execute_jump_ok i Hi s Hs Ej) as (b' & c' & s2' & E' & W & Hb & Hc).
  rewrite E' in E. injection E as <- <- <- <- <-. split; [apply W|]. exists 0. split.
  - split_and!; cbn [out_a out_b out_c]; try done.
    + apply shown_u32, wadd_range.
    + apply (wf_pc s Hs).
    + intros Ha. classes. by destruct (opcode i).
    + intros [Ho|Ho]; classes; by rewrite Ho in Ej.
    + intros Ho. classes. by rewrite Ho in Ej.
  - intros H. exfalso. classes. by destruct (opcode i).
Qed.

Lemma auipc_dispatched a b c s2 : is_auipc_instruction i = true ->
  execute_auipc i s = Ok (a, b, c) s2 -> dispatched (mkOutcome a b c k np HALT 0) s2.
Proof.
  intros Eau E. destruct (execute_auipc_ok i Hi s Eau) as (s2' & E' & W).
  rewrite E' in E. injection E as <- <- <- <-. split; [apply W|]. exists 0. split.
  - split_and!; cbn [out_a out_b out_c]; try apply Hi; try done.
    + apply shown_u32, wadd_range.
    + apply (wf_pc s Hs).
    + intros Ha. classes. by destruct (opcode i).
    + intros [Ho|Ho]; classes; by rewrite Ho in Eau.
    + intros Ho. pose proof not_x0 as Hz. rewrite Ho in Hz. unfold shown_a. by rewrite Hz.
  - intros H. exfalso. classes. by destruct (opcode i).
Qed.

Lemma dispatch_dispatched o s2 :
  is_ecall_instruction i = false -> dispatch syscall_map i k np s = Ok o s2 -> dispatched o s2.
Proof.
  intros Hec. unfold dispatch. rewrite Hec.
  destruct (is_alu_instruction i) eqn:Ea.
  { intros H. apply bind_inv_ok in H as ([[a b] c] & s1 & E & [= <- <-]). by apply alu_dispatched. }
  destruct (is_memory_load_instruction i) eqn:El.
  { intros H. apply bind_inv_ok in H as ([[a b] c] & s1 & E & [= <- <-]). by apply load_dispatched. }
  destruct (is_memory_store_instruction i) eqn:Est.
  { intros H. apply bind_inv_ok in H as ([[a b] c] & s1 & E & [= <- <-]). apply store_dispatched; auto. }
  destruct (is_branch_instruction i) eqn:Eb.
  { intros H. apply bind_inv_ok in H as ([[[a b] c] p] & s1 & E & [= <- <-]). by apply branch_dispatched. }
  destruct (is_jump_instruction i) eqn:Ej.
  { intros H. apply bind_inv_ok in H as ([[[a b] c] p] & s1 & E & [= <- <-]). by apply jump_dispatched. }
  destruct (is_auipc_instruction i) eqn:Eau.
  { intros H. apply bind_inv_ok in H as ([[a b] c] & s1 & E & [= <- <-]). by apply auipc_dispatched. }
  destruct (is_ebreak_instruction i); [done|]. by destruct (is_unimp_instruction i).
Qed.
End Dispatch.

Lemma dispatch_out syscall_map i k np s o s2 :
  is_ecall_instruction i = false -> dispatch syscall_map i k np s = Ok o s2 ->
  out_clk o = k /\ out_exit_code o = 0.
Proof.
  intros Hec. unfold dispatch. rewrite Hec.
  repeat (match goal with |- context [if ?b then _ else _] => destruct b end;
    [intros H; first
       [ apply bind_inv_ok in H as ([[a b] c] & s1 & _ & [= <- <-]); done
       | apply bind_inv_ok in H as ([[[a b] c] p] & s1 & _ & [= <- <-]); done
       | discriminate H ] |]).
  done.
Qed.

(** Derived events leave the CPU events alone. *)
Lemma divrem_cpu_events e r : cpu_events (emit_divrem_dependencies e r) = cpu_events r.
Proof.
  unfold emit_divrem_dependencies. destruct (get_quotient_and_remainder _ _ _).
  cbv zeta. destruct (negb _); cbn; (destruct (_ =? 1); destruct (_ =? 1)); done.
Qed.

Lemma emit_events_cpu clk_ np i code a b c z r x s s' :
  emit_events clk_ np i code a b c z r x s = Ok tt s' ->
  cpu_events (record s') = cpu_events (record s) ++
    [mkCpuEvent clk_ (pc (state s)) np a (ma_a r) b (ma_b r) c (ma_c r) x].
Proof.
  unfold emit_events. unfold bind at 1, emit_cpu, modify. cbn beta.
  set (s1 := upd_record _ s). change (_ ++ [_]) with (cpu_events (record s1)). clearbody s1.
  destruct (is_alu_instruction i).
  { unfold emit_alu_event, bind, gets, modify. destruct (opcode i); try discriminate;
      intros [= <-]; cbn [record upd_record]; rewrite ?divrem_cpu_events; done. }
  destruct (_ || _).
  { unfold emit_mem_instr_event, bind, gets, unwrap, id. destruct (ma_memory _); [|done].
    unfold ret, modify. intros [= <-]. cbn [record upd_record]. unfold emit_memory_dependencies.
    cbv zeta. destruct (sub_word _ _ _) as [[[? ?] ?]|]; [destruct (_ =? 1)|]; done. }
  destruct (is_branch_instruction i).
  { unfold emit_branch_event, modify_record, bind, gets, unwrap, id.
    destruct (emit_branch_dependencies _ _) as [r'|] eqn:Er; [|done]. unfold ret, modify.
    intros [= <-]. cbn [record upd_record]. unfold emit_branch_dependencies in Er.
    apply bind_Some in Er as (t & _ & [= <-]). by destruct t. }
  destruct (is_jump_instruction i).
  { unfold emit_jump_event, modify_record, bind, gets, unwrap, id.
    destruct (emit_jump_dependencies _ _) as [r'|] eqn:Er; [|done]. unfold ret, modify.
    intros [= <-]. cbn [record upd_record]. unfold emit_jump_dependencies in Er.
    cbn [jp_opcode] in Er. by destruct (opcode i); simplify_eq. }
  destruct (is_auipc_instruction i).
  { cbv [emit_auipc_event bind gets id modify]. by intros [= <-]. }
  destruct (is_ecall_instruction i); [|done].
  cbv [emit_syscall_event modify]. by intros [= <-].
Qed.

Section Machine.
  Context (syscall_map : SyscallCode -> option Syscall).

(** C5. Tracing a completed cycle of a well-formed instruction other than [ECALL],
    and other than [LB], [LH] or [AUIPC] to [x0], appends exactly one CPU event,
    whose [pc], [next_pc] and [clk] are those of the cycle, and every ALU event of
    the record, those derived for other chips included, stays a true statement of
    the ALU semantics. *)
Theorem execute_instruction_trace i s s' :
  wf_instruction i -> machine_wf s -> is_ecall_instruction i = false ->
  is_trace s = true -> x0_special i = false -> alu_tables_ok (record s) ->
  execute_instruction syscall_map i s = Ok tt s' ->
  alu_tables_ok (record s') /\
  exists e, cpu_events (record s') = cpu_events (record s) ++ [e] /\
    cpu_pc e = pc (state s) /\ cpu_next_pc e = pc (state s') /\ cpu_clk e = clk (state s) /\
    cpu_exit_code e = 0.
Proof.
  intros Hi Hs Hec Ht Hx Hok E.
  destruct (execute_instruction_pre syscall_map i s) as (s0 & E0 & Hp & Hm & Hu & Hrec & _ & Eq).
  rewrite Eq in E. apply bind_inv_ok in E as (o & s2 & Ed & Ef).
  rewrite <- E0 in Ed.
  destruct (dispatch_out _ _ _ _ _ _ _ Hec Ed) as [Hk Hexit].
  destruct (dispatch_dispatched syscall_map i Hi s0 (same_state_wf s0 s E0 Hs) (clk (state s0)) Hx
    o s2 Hec Ed) as (C & v & Hv & Hn).
  assert (is_trace s2 = true) as Ht2.
  { rewrite (same_ctl_trace _ _ C). unfold is_trace in *. by rewrite Hm. }
  unfold finish in Ef. cbv zeta in Ef. unfold bind at 1, gets at 1 in Ef. change (id s2) with s2 in Ef.
  rewrite Ht2 in Ef. cbn [when] in Ef. apply bind_inv_ok in Ef as ([] & s3 & Ee & [= <-]).
  cbn [record upd_state state upd_clk upd_pc pc].
  pose proof (same_ctl_fields _ _ C) as (Cpc & _). rewrite E0 in Cpc.
  split.
  - eapply emit_events_tables; [| |rewrite (sc_record _ _ C), Hrec; exact Hok|exact Ee].
    + rewrite Cpc, <- E0. exact Hv.
    + intros H. by apply Hn.
  - apply emit_events_cpu in Ee. rewrite (sc_record _ _ C), Hrec in Ee. eexists. split; [exact Ee|].
    cbn. rewrite Cpc, Hk, Hexit, E0. done.
Qed.

(** The value a load or [AUIPC] would write, had it a destination. *)
Definition x0_value (i : Instruction) (s : Executor) : Z :=
  match opcode i with AUIPC => pc (state s) +u op_b i | o => load_spec o (mem_val s (align (ea i s))) (ea i s mod 4) end.

(** A false addition or subtraction. *)
Lemma false_event o a b c : o = ADD \/ o = SUB -> alu_result o b c <> Some a -> ~ alu_event_ok (dep_event o a b c).
Proof. intros _ Hne (_ & _ & H). cbn in H. by apply Hne. Qed.

(** The events [finish] derives for a destination [x0]. *)
Lemma finish_trace i o s s' : is_trace s = true -> finish i o s = Ok tt s' ->
  exists s3, emit_events (out_clk o) (out_next_pc o) i (out_syscall o) (if op_a i =? 0 then 0 else out_a o) (out_b o) (out_c o) (op_a i =? 0) (memory_accesses s) (out_exit_code o) s = Ok tt s3 /\
    record s' = record s3.
Proof.
  intros Ht. unfold finish. cbv zeta. unfold bind at 1, gets at 1. change (id s) with s. rewrite Ht. cbn [when]. change (reg_idx X0) with 0.
  intros ([] & s3 & Ee & [= <-])%bind_inv_ok. by exists s3.
Qed.

Lemma auipc_x0_event i s s' : is_trace s = true -> opcode i = AUIPC -> op_a i = 0 -> pc (state s) +u op_b i <> 0 ->
  wf_instruction i -> machine_wf s -> bind (dispatch syscall_map i (clk (state s)) (pc (state s) +u 4)) (finish i) s = Ok tt s' ->
  exists e, add_events (record s') = add_events (record s) ++ [e] /\ ~ alu_event_ok e.
Proof.
  intros Ht Ho H0 Hne Hi Hs E. apply bind_inv_ok in E as (o & s2 & Ed & Ef). unfold dispatch in Ed.
  assert (is_alu_instruction i = false /\ is_memory_load_instruction i = false /\ is_memory_store_instruction i = false /\ is_branch_instruction i = false /\ is_jump_instruction i = false /\ is_auipc_instruction i = true) as (C1 & C2 & C3 & C4 & C5 & C6)
    by (unfold is_alu_instruction, is_memory_load_instruction, is_memory_store_instruction, is_branch_instruction, is_jump_instruction, is_auipc_instruction; rewrite Ho; done).
  rewrite C1, C2, C3, C4, C5, C6 in Ed. apply bind_inv_ok in Ed as ([[a b] c] & s1 & Ea & [= <- <-]). destruct (execute_auipc_ok i Hi s C6) as (s1' & Ea' & W). rewrite Ea' in Ea. injection Ea as <- <- <- <-.
  apply finish_trace in Ef as (s3 & Ee & ->); [|by rewrite (same_ctl_trace _ _ (proj1 W))]. unfold emit_events in Ee. rewrite C1, C2, C3, C4, C5, C6, H0 in Ee. cbn [orb] in Ee.
  cbv [bind emit_cpu modify emit_auipc_event gets id] in Ee. injection Ee as <-. cbn [record upd_record]. eexists. split; [cbn; by rewrite (sc_record _ _ (proj1 W))|].
  apply false_event; [by left|]. cbn [alu_result au_pc au_b out_b]. cbn. rewrite (proj1 (same_ctl_fields _ _ (proj1 W))). by intros [= E].
Qed.

Lemma load_x0_event i s s' : is_trace s = true -> opcode i = LB \/ opcode i = LH -> op_a i = 0 -> 2 ^ 31 <= load_spec (opcode i) (mem_val s (align (ea i s))) (ea i s mod 4) ->
  wf_instruction i -> machine_wf s -> bind (dispatch syscall_map i (clk (state s)) (pc (state s) +u 4)) (finish i) s = Ok tt s' ->
  exists e' e, add_events (record s') = add_events (record s) ++ [e'; e] /\ ~ alu_event_ok e.
Proof.
  intros Ht Ho H0 Hneg Hi Hs E. apply bind_inv_ok in E as (o & s2 & Ed & Ef). unfold dispatch in Ed.
  assert (is_alu_instruction i = false /\ is_memory_load_instruction i = true) as [C1 C2] by (unfold is_alu_instruction, is_memory_load_instruction; by destruct Ho as [-> | ->]).
  rewrite C1, C2 in Ed. apply bind_inv_ok in Ed as ([[a b] c] & s1 & Ea & [= <- <-]).
  destruct (execute_load_ok i Hi s Hs C2) as [[E' _]|(_ & [(_ & ? & E' & _)|(Hal & s1' & E' & W & N)])]; rewrite E' in Ea; try discriminate Ea. cbv zeta in *. injection Ea as <- <- <- <-.
  assert (is_trace s1' = true) as Ht1 by (by rewrite (same_ctl_trace _ _ (proj1 W))). apply finish_trace in Ef as (s3 & Ee & ->); [|done]. unfold emit_events in Ee. rewrite C1, C2, H0 in Ee. cbn [orb Z.eqb] in Ee.
  destruct (N Ht1) as (m & Em & Ev). unfold bind at 1, emit_cpu, modify at 1 in Ee. unfold emit_mem_instr_event, bind at 1, gets in Ee. cbn [id memory_accesses upd_record] in Ee. rewrite Em in Ee. cbn [unwrap] in Ee. rewrite bind_ret_l in Ee.
  cbv [modify] in Ee. injection Ee as <-. cbn [record upd_record]. unfold emit_memory_dependencies. cbn [mi_b mi_c mi_a out_b out_c]. fold (ea i s). rewrite Ev.
  match goal with |- context [sub_word ?e _ _] => destruct (sub_word_negative e (ea i s) (mem_val s (align (ea i s))) (wf_vals s Hs _ _) Ho Hal Hneg) as (v & ms & sv & Hsw & Hms); rewrite Hsw end.
  rewrite Hms. cbn [Z.eqb]. eexists _, _. split; [cbn; rewrite (sc_record _ _ (proj1 W)), <- app_assoc; reflexivity|].
  apply false_event; [by right|]. intros Hr. assert (load_value (opcode i) (ea i s) (mem_val s (align (ea i s))) = Some (Some (load_spec (opcode i) (mem_val s (align (ea i s))) (ea i s mod 4)))) as Hlv.
  { rewrite load_value_spec; [by rewrite Hal|apply (wf_vals s Hs)|exact C2]. }
  destruct (sub_word_ok _ _ _ _ _ _ (wf_vals s Hs _ _) Hsw Hlv Hms) as (_ & _ & Hr'). cbn [mi_a] in Hr. rewrite Hr' in Hr. injection Hr as Hr. rewrite Hr in Hneg. by destruct Hneg.
Qed.

(** C35. The derived events of [AUIPC] and of a negative [LB] or [LH] take the result
    from the event, which is 0 for destination [x0]: whenever the instruction
    would have written something other than 0, respectively a negative number, tracing
    it to [x0] leaves a false [ADD] or [SUB] event at the end of the table, although
    no chip asks for it. *)
Theorem x0_dependencies_are_false i s s' :
  wf_instruction i -> machine_wf s -> is_trace s = true -> op_a i = 0 -> execute_instruction syscall_map i s = Ok tt s' ->
  opcode i = AUIPC /\ x0_value i s <> 0 \/ (opcode i = LB \/ opcode i = LH) /\ 2 ^ 31 <= x0_value i s ->
  exists es e, add_events (record s') = add_events (record s) ++ es ++ [e] /\ ~ alu_event_ok e.
Proof.
  intros Hi Hs Ht H0 E Hcase. destruct (execute_instruction_pre syscall_map i s) as (s0 & E0 & _ & Hm & _ & Hrec & _ & Eq). rewrite Eq, <- E0 in E. rewrite <- Hrec.
  pose proof (same_state_wf s0 s E0 Hs) as Hs0. assert (is_trace s0 = true) as Ht0 by (unfold is_trace in *; by rewrite Hm).
  assert (x0_value i s0 = x0_value i s) as Ev by (unfold x0_value, ea, mem_val, reg_val; by rewrite E0, !(same_state_val _ _ _ _ E0)). rewrite <- Ev in Hcase. unfold x0_value in Hcase.
  destruct Hcase as [[Ho Hne]|[Ho Hneg]].
  - rewrite Ho in Hne. destruct (auipc_x0_event i s0 s' Ht0 Ho H0 Hne Hi Hs0 E) as (e & He & Hf). by exists [], e.
  - destruct (load_x0_event i s0 s' Ht0 Ho H0) as (e' & e & He & Hf); [by destruct Ho as [Ho|Ho]; rewrite Ho in Hneg |- *|done..|]. by exists [e'], e.
Qed.
End Machine.

Definition addi_x5 : Instruction := mkInstruction ADD 5 6 7 false true.

Lemma execute_instruction_trace_witness :
  match execute_instruction no_syscalls addi_x5 (boot []) with
  | Ok _ s' => alu_tables_ok (record s') /\ exists e, cpu_events (record s') = [e] /\ cpu_pc e = 0
  | _ => False
  end.
Proof.
  destruct (execute_instruction no_syscalls addi_x5 (boot [])) as [[] s'|e s'|] eqn:E;
    [|apply (f_equal (fun r => match r with Ok _ _ => true | _ => false end)) in E;
      vm_compute in E; discriminate E..].
  destruct (execute_instruction_trace no_syscalls addi_x5 (boot []) s') as (H & e & He & Hpc & _);
    [| apply boot_wf | reflexivity | reflexivity | reflexivity
     | constructor | exact E | ].
  - clear E. split_and!; cbn; try lia; try discriminate; apply is_u32_iff; lia.
  - split; [exact H|]. exists e. split; [exact He | exact Hpc].
Defined.

Definition auipc_x0 : Instruction := mkInstruction AUIPC 0 4096 4096 true true.
Definition lb_x0 : Instruction := mkInstruction LB 0 0 4096 false true.

Lemma hinted_wf : machine_wf hinted.
Proof.
  apply fresh_machine_wf; try done. intros c a. unfold hinted. cbn [state upd_state uninitialized_memory upd_uninitialized_memory].
  destruct (flat_lookup_update Flat.Page c 4096 a 0xDDCCBBAA (uninitialized_memory (state (boot [])))) as [-> | ->]; [by apply is_u32_iff|]. destruct c; by apply is_u32_iff.
Qed.

Lemma x0_dependencies_are_false_witness :
  match execute_instruction no_syscalls auipc_x0 (boot []) with Ok _ s' => exists e, e ∈ add_events (record s') /\ ~ alu_event_ok e | _ => False end /\
  match execute_instruction no_syscalls lb_x0 hinted with Ok _ s' => exists e, e ∈ add_events (record s') /\ ~ alu_event_ok e | _ => False end.
Proof.
  split.
  - destruct (execute_instruction no_syscalls auipc_x0 (boot [])) as [[] s'|e s'|] eqn:E;
      [|apply (f_equal (fun r => match r with Ok _ _ => true | _ => false end)) in E; vm_compute in E; discriminate E..].
    destruct (x0_dependencies_are_false no_syscalls auipc_x0 (boot []) s') as (es & e & He & Hf); [|apply boot_wf|reflexivity|reflexivity|exact E|left; split; [reflexivity|vm_compute; discriminate]|].
    + clear E. split_and!; cbn; try lia; try discriminate; apply is_u32_iff; lia.
    + exists e. split; [|exact Hf]. rewrite He, !elem_of_app. right. right. by left.
  - destruct (execute_instruction no_syscalls lb_x0 hinted) as [[] s'|e s'|] eqn:E;
      [|apply (f_equal (fun r => match r with Ok _ _ => true | _ => false end)) in E; vm_compute in E; discriminate E..].
    destruct (x0_dependencies_are_false no_syscalls lb_x0 hinted s') as (es & e & He & Hf); [|apply hinted_wf|reflexivity|reflexivity|exact E|right; split; [by left|vm_compute; discriminate]|].
    + clear E. split_and!; cbn; try lia; try discriminate; apply is_u32_iff; lia.
    + exists e. split; [|exact Hf]. rewrite He, !elem_of_app. right. right. by left.
Defined.
