(* ===== verification/Ordering.v ===== *)
(** * Memory access timestamps

    The memory argument needs every access to be later than the previous access
    to the same address: [record_ordered].  An instruction accesses registers at
    positions [C < B < A] of its four clock ticks and memory at position
    [Memory].  [stamped kr km] bounds the timestamps of the register and memory
    records by [clk + kr] and [clk + km]; each access moves its bound past its
    position. *)

From Stdlib Require Import ZArith Lia Bool.
From stdpp Require Import base gmap list.
From S2P Require Import Prelude Monad Isa SyscallCode Memory Events ByteLookup Air Record Alu.
From S2P Require Import Dependencies State Executor Context Step Run Access Refinement Trace.

Local Open Scope Z_scope.
Local Open Scope rv_scope.

(** A record is older than tick [k] of the current cycle. *)
Definition older (s : Executor) (k : Z) (r : MemoryRecord) : Prop :=
  rec_shard r < shard s \/ (rec_shard r = shard s /\ rec_timestamp r < clk (state s) + k).

(** The accesses of the cycle so far. *)
Definition accesses (a : MemoryAccessRecord) : list MemoryRecordEnum :=
  omap id [ma_a a; ma_b a; ma_c a; ma_memory a].

Definition accesses_ordered (a : MemoryAccessRecord) : Prop :=
  Forall (fun m => record_ordered m = true) (accesses a).

Record stamped (kr km : Z) (s : Executor) : Prop := {
  st_shard : 0 < shard s;
  st_clk : 0 <= clk (state s) /\ clk (state s) + 4 < 2 ^ 32;
  st_regs : forall a r, mem_entry Flat.Reg a s = Some r -> older s kr r;
  st_pages : forall a r, mem_entry Flat.Page a s = Some r -> older s km r;
  st_accesses : accesses_ordered (memory_accesses s)
}.

Lemma stamped_mono kr km kr' km' s :
  kr <= kr' -> km <= km' -> stamped kr km s -> stamped kr' km' s.
Proof.
  intros H1 H2 [? ? Hr Hp ?]. split; try done.
  - intros a r E. destruct (Hr a r E) as [|[? ?]]; [by left | right; lia].
  - intros a r E. destruct (Hp a r E) as [|[? ?]]; [by left | right; lia].
Qed.

Lemma accesses_set p m a :
  accesses_ordered a -> record_ordered m = true -> accesses_ordered (set_access p m a).
Proof.
  unfold accesses_ordered, accesses. intros Ha Hm.
  destruct p, (ma_a a) eqn:?, (ma_b a) eqn:?, (ma_c a) eqn:?, (ma_memory a) eqn:?; cbn in *;
    repeat match goal with
           | E : _ = Some _ |- _ => rewrite E in *
           | E : _ = None |- _ => rewrite E in *
           end; cbn in *; rewrite ?Forall_cons in *; intuition.
Qed.

Lemma accesses_note b p m a :
  accesses_ordered a -> (b = true -> record_ordered m = true) -> accesses_ordered (note b p m a).
Proof. destruct b; cbn; intros; [apply accesses_set; auto | done]. Qed.

(** The bound that applies to a component. *)
Definition bound (c : Flat.comp) (kr km : Z) : Z := match c with Flat.Reg => kr | Flat.Page => km end.

(** An access at tick [k], at or after the component's bound, is later than the
    entry's previous record. *)
Lemma entry_ordered c addr kr km k s :
  stamped kr km s -> bound c kr km <= k ->
  access_after (shard s) (clk (state s) + k)
    (rec_shard (entry_record c addr s)) (rec_timestamp (entry_record c addr s)) = true.
Proof.
  intros H Hk. unfold access_after, entry_record. destruct (mem_entry c addr s) as [r|] eqn:E.
  - assert (older s (bound c kr km) r) as Ho
      by (destruct c; [by eapply (st_regs _ _ _ H) | by eapply (st_pages _ _ _ H)]).
    destruct Ho as [Ho|[Ho1 Ho2]]; rewrite orb_true_iff, andb_true_iff, Z.eqb_eq, !Z.ltb_lt; lia.
  - cbn. rewrite (proj2 (Z.ltb_lt 0 (shard s))); [done | apply (st_shard _ _ _ H)].
Qed.

Lemma touched_older c addr kr km k v s s' :
  stamped kr km s -> bound c kr km <= k ->
  touched c addr (mkMemoryRecord (shard s) (clk (state s) + k) v) s s' ->
  forall c' a r, mem_entry c' a s' = Some r ->
  older s' (if decide (c = c') then k + 1 else bound c' kr km) r.
Proof.
  intros H Hk T c' a r E.
  destruct (same_ctl_fields _ _ (td_ctl _ _ _ _ _ T)) as (_ & Ec & _ & Es & _).
  assert (forall k' r, older s k' r -> older s' k' r) as Hold
    by (unfold older, shard; intros; by rewrite Ec, Es).
  unfold mem_entry in E. rewrite (td_memory _ _ _ _ _ T) in E.
  destruct (decide ((c, Flat.key c addr) = (c', Flat.key c' a))) as [Ek|Ek].
  - injection Ek as -> Ek. rewrite decide_True by done.
    assert (Flat.lookup c' a = Flat.lookup (V := MemoryRecord) c' addr) as Hl
      by (unfold Flat.lookup; by rewrite Ek).
    rewrite Hl, flat_lookup_update_eq in E. injection E as <-.
    right. unfold shard. cbn. rewrite Es, Ec. unfold shard. lia.
  - rewrite flat_lookup_update_ne in E by done.
    assert (older s (bound c' kr km) r) as Ho
      by (destruct c'; [by eapply (st_regs _ _ _ H) | by eapply (st_pages _ _ _ H)]).
    destruct (decide (c = c')) as [->|]; [|auto].
    apply Hold. destruct Ho as [|[? ?]]; [by left | right; lia].
Qed.

Lemma touched_stamped c addr kr km k v s s' :
  stamped kr km s -> bound c kr km <= k ->
  touched c addr (mkMemoryRecord (shard s) (clk (state s) + k) v) s s' ->
  accesses_ordered (memory_accesses s') ->
  stamped (if decide (c = Flat.Reg) then k + 1 else kr) (if decide (c = Flat.Page) then k + 1 else km) s'.
Proof.
  intros H Hk T Ha. pose proof (touched_older c addr kr km k v s s' H Hk T) as Ho.
  destruct (same_ctl_fields _ _ (td_ctl _ _ _ _ _ T)) as (_ & Ec & _ & Es & _).
  split.
  - unfold shard. rewrite Es. apply (st_shard _ _ _ H).
  - rewrite Ec. apply (st_clk _ _ _ H).
  - intros a r E. apply (Ho Flat.Reg a r E).
  - intros a r E. apply (Ho Flat.Page a r E).
  - done.
Qed.

Lemma timestamp_clk kr km p s : stamped kr km s -> timestamp p s = clk (state s) + position_u32 p.
Proof.
  intros H. unfold timestamp, wadd. destruct (st_clk _ _ _ H). apply u32_small, is_u32_iff.
  change (2 ^ 32) with 4294967296 in *. destruct p; cbn; lia.
Qed.

(** ** Hoare rules of the accesses *)

(** [stamped], in a cycle that started with the control state of [s0]. *)
Definition at_tick (s0 : Executor) (kr km : Z) (s : Executor) : Prop :=
  stamped kr km s /\ same_ctl s0 s.

Abbreviation anyErr := (fun (_ : ExecutionError) (_ : Executor) => True).

Lemma rr_stamped s0 r p kr km : p <> PMemory -> kr <= position_u32 p ->
  hoare (at_tick s0 kr km) (rr_cpu r p) (fun _ => at_tick s0 (position_u32 p + 1) km) anyErr.
Proof.
  intros Hp Hk s [H C]. destruct (rr_cpu_ok r p s) as (s' & -> & T & A).
  rewrite (timestamp_clk _ _ _ _ H) in T, A.
  split; [|transitivity s; [exact C | apply T]].
  apply (touched_stamped Flat.Reg (reg_idx r) kr km (position_u32 p) (reg_val s r) s s' H Hk T).
  rewrite A. apply accesses_note; [apply (st_accesses _ _ _ H)|]. intros _.
  by apply (entry_ordered Flat.Reg _ kr km).
Qed.

Lemma rw_stamped s0 r v kr km : kr <= 3 ->
  hoare (at_tick s0 kr km) (rw_cpu r v) (fun _ => at_tick s0 4 km) anyErr.
Proof.
  intros Hk s [H C]. destruct (rw_cpu_ok r v s) as (s' & E & T & A).
  rewrite (timestamp_clk _ _ _ _ H) in T, A.
  replace (rw_cpu r v s) with (rw_cpu r (if reg_idx r =? reg_idx X0 then 0 else v) s)
    by (unfold rw_cpu; by destruct (reg_idx r =? reg_idx X0)).
  rewrite E. split; [|transitivity s; [exact C | apply T]].
  eapply (touched_stamped Flat.Reg (reg_idx r) kr km 3 _ s s' H Hk T).
  rewrite A. apply accesses_note; [apply (st_accesses _ _ _ H)|]. intros _.
  by apply (entry_ordered Flat.Reg _ kr km).
Qed.

Lemma mr_stamped s0 addr kr km : km <= 0 ->
  hoare (at_tick s0 kr km) (mr_cpu addr) (fun _ => at_tick s0 kr 1) anyErr.
Proof.
  intros Hk s [H C]. destruct (valid_mem_addr addr) eqn:Hv.
  2: by rewrite (proj1 (invalid_mem_panics _ s Hv)).
  destruct (mr_cpu_ok addr s Hv) as (s' & -> & T & A). rewrite (timestamp_clk _ _ _ _ H) in T, A.
  split; [|transitivity s; [exact C | apply T]].
  apply (touched_stamped Flat.Page addr kr km 0 (mem_val s addr) s s' H Hk T).
  rewrite A. apply accesses_note; [apply (st_accesses _ _ _ H)|]. intros _.
  by apply (entry_ordered Flat.Page _ kr km).
Qed.

Lemma mw_stamped s0 addr v kr km : km <= 0 ->
  hoare (at_tick s0 kr km) (mw_cpu addr v) (fun _ => at_tick s0 kr 1) anyErr.
Proof.
  intros Hk s [H C]. destruct (valid_mem_addr addr) eqn:Hv.
  2: by rewrite (proj2 (invalid_mem_panics _ s Hv)).
  destruct (mw_cpu_ok addr v s Hv) as (s' & -> & T & A). rewrite (timestamp_clk _ _ _ _ H) in T, A.
  split; [|transitivity s; [exact C | apply T]].
  apply (touched_stamped Flat.Page addr kr km 0 v s s' H Hk T).
  rewrite A. apply accesses_note; [apply (st_accesses _ _ _ H)|]. intros _.
  by apply (entry_ordered Flat.Page _ kr km).
Qed.

(** Lookups that record nothing. *)
Lemma same_stamped kr km s s' :
  state s' = state s -> memory_accesses s' = memory_accesses s -> stamped kr km s -> stamped kr km s'.
Proof.
  intros E A [H1 H2 H3 H4 H5].
  split; unfold older, shard, mem_entry; try intros a r; rewrite ?E, ?A;
    [done | done | apply (H3 a r) | apply (H4 a r) | done].
Qed.

Lemma word_stamped s0 addr kr km :
  hoare (at_tick s0 kr km) (word addr) (fun _ => at_tick s0 kr km) anyErr.
Proof.
  intros s [H C]. destruct (Flat.in_range addr) eqn:Hr.
  - destruct (word_ok addr s Hr) as (s' & -> & B & A).
    split; [eapply same_stamped; [apply B | done..] | transitivity s; [exact C | apply B]].
  - unfold word. by rewrite Hr.
Qed.

Lemma hoare_stamped_ret s0 {A} (a : A) kr km kr' km' :
  kr <= kr' -> km <= km' -> hoare (at_tick s0 kr km) (ret a) (fun _ => at_tick s0 kr' km') anyErr.
Proof. intros H1 H2 s [H C]. cbn. split; [by eapply stamped_mono | done]. Qed.

Lemma checked_stamped s0 o addr r kr km :
  hoare (at_tick s0 kr km) (checked o addr r) (fun _ => at_tick s0 kr km) anyErr.
Proof. destruct r as [[?|]|]; intros s H; done. Qed.

(** Executes a handler access by access. *)
Ltac stamp :=
  repeat match goal with
  | |- forall _, _ => intros ?
  | |- hoare _ (match ?x with _ => _ end) _ _ => destruct x
  | |- hoare _ (bind (match ?x with _ => _ end) _) _ _ => destruct x
  | |- hoare _ (bind (unwrap _) _) _ _ => apply hoare_unwrap
  | |- hoare _ (bind (gets _) _) _ _ => apply hoare_gets
  | |- hoare _ (bind (bind _ _) _) _ _ => apply hoare_assoc
  | |- hoare _ (bind (ret _) _) _ _ => apply hoare_ret_l; cbn beta iota
  | |- hoare _ (bind (rr_cpu _ _) _) _ _ => eapply hoare_bind; [apply rr_stamped; [done | cbn; lia]|cbn beta]
  | |- hoare _ (bind (rw_cpu _ _) _) _ _ => eapply hoare_bind; [apply rw_stamped; cbn; lia|cbn beta]
  | |- hoare _ (bind (mr_cpu _) _) _ _ => eapply hoare_bind; [apply mr_stamped; lia|cbn beta]
  | |- hoare _ (bind (mw_cpu _ _) _) _ _ => eapply hoare_bind; [apply mw_stamped; lia|cbn beta]
  | |- hoare _ (bind (word _) _) _ _ => eapply hoare_bind; [apply word_stamped|cbn beta]
  | |- hoare _ (bind (checked _ _ _) _) _ _ => eapply hoare_bind; [apply checked_stamped|cbn beta]
  | |- hoare _ (ret _) _ _ => apply hoare_stamped_ret; cbn; lia
  | |- hoare _ (bind panic _) _ _ => intros ?s ?Hs; exact I
  | |- hoare _ panic _ _ => intros ?s ?Hs; exact I
  | |- hoare _ (throw _) _ _ => intros ?s ?Hs; exact I
  end.

Lemma dispatch_stamped syscall_map s0 i k np :
  is_ecall_instruction i = false ->
  hoare (at_tick s0 0 0) (dispatch syscall_map i k np) (fun _ => at_tick s0 4 4) anyErr.
Proof.
  intros Hec. unfold dispatch. rewrite Hec.
  destruct (is_alu_instruction i).
  { unfold execute_alu, alu_rr, alu_rw. stamp. }
  destruct (is_memory_load_instruction i).
  { unfold execute_load, load_rr. stamp. }
  destruct (is_memory_store_instruction i).
  { unfold execute_store, store_rr. stamp. }
  destruct (is_branch_instruction i).
  { unfold execute_branch, branch_rr. stamp. }
  destruct (is_jump_instruction i).
  { unfold execute_jump. stamp. }
  destruct (is_auipc_instruction i).
  { unfold execute_auipc. stamp. }
  stamp.
Qed.

(** ** The cycle *)

Definition opt_ordered (m : option MemoryRecordEnum) : Prop :=
  match m with Some r => record_ordered r = true | None => True end.

(** The CPU and memory-instruction events of a record carry ordered accesses. *)
Definition events_ordered (r : ExecutionRecord) : Prop :=
  Forall (fun e => opt_ordered (cpu_a_record e) /\ opt_ordered (cpu_b_record e) /\
                   opt_ordered (cpu_c_record e)) (cpu_events r) /\
  Forall (fun e => record_ordered (mi_mem_access e) = true) (memory_instr_events r).

(** The invariant of constrained cycles, with [clk] within [slack] of the shard
    size. *)
Record ordered_within (slack : Z) (s : Executor) : Prop := {
  oi_constrained : unconstrained s = false;
  oi_stamped : stamped 0 0 s;
  oi_clk : clk (state s) < shard_size s + slack;
  oi_sizes : 0 <= max_syscall_cycles s /\ shard_size s + max_syscall_cycles s + 8 <= 2 ^ 32;
  oi_record : events_ordered (record s);
  oi_records : Forall events_ordered (records s)
}.

Definition ordered_inv : Executor -> Prop := ordered_within 0.

Lemma divrem_mem_events e r : memory_instr_events (emit_divrem_dependencies e r) = memory_instr_events r.
Proof.
  unfold emit_divrem_dependencies. destruct (get_quotient_and_remainder _ _ _).
  cbv zeta. destruct (negb _); cbn; (destruct (_ =? 1); destruct (_ =? 1)); done.
Qed.

(** Emission changes the record alone; the one memory event it may append
    carries the memory access of the cycle. *)
Lemma emit_events_mem clk_ np i code a b c z r x s s' :
  emit_events clk_ np i code a b c z r x s = Ok tt s' ->
  rec_only s s' /\
  exists l, memory_instr_events (record s') = memory_instr_events (record s) ++ l /\
    Forall (fun e => ma_memory (memory_accesses s) = Some (mi_mem_access e)) l.
Proof.
  unfold emit_events. unfold bind at 1, emit_cpu, modify. cbn beta.
  set (s1 := upd_record _ s). assert (rec_only s s1) as R1 by apply rec_only_upd.
  change (memory_instr_events (record s)) with (memory_instr_events (record s1)).
  assert (memory_accesses s1 = memory_accesses s) as A1 by done. clearbody s1.
  assert (forall r', s' = upd_record (fun _ => r') s1 ->
    memory_instr_events r' = memory_instr_events (record s1) ->
    rec_only s s' /\ exists l, memory_instr_events (record s') = memory_instr_events (record s1) ++ l /\
    Forall (fun e => ma_memory (memory_accesses s) = Some (mi_mem_access e)) l) as K.
  { intros r' -> Hr. split; [transitivity s1; [done | apply rec_only_upd]|].
    exists []. cbn. by rewrite app_nil_r. }
  destruct (is_alu_instruction i).
  { unfold emit_alu_event, bind, gets, modify. destruct (opcode i); try discriminate;
      intros [= <-]; (eapply K; [reflexivity|]); rewrite ?divrem_mem_events; done. }
  destruct (_ || _).
  { unfold emit_mem_instr_event, bind, gets, unwrap, id. rewrite A1.
    destruct (ma_memory _) as [m|] eqn:Em; [|done].
    unfold ret, modify. intros [= <-]. split; [transitivity s1; [done | apply rec_only_upd]|].
    cbn [record upd_record].
    exists [mkMemInstrEvent (shard s1) (clk (state s1)) (pc (state s1)) (opcode i) a b c z m].
    split; [|by apply Forall_singleton]. unfold emit_memory_dependencies. cbv zeta.
    destruct (sub_word _ _ _) as [[[? ?] ?]|]; [destruct (_ =? 1)|]; reflexivity. }
  destruct (is_branch_instruction i).
  { unfold emit_branch_event, modify_record, bind, gets, unwrap, id.
    destruct (emit_branch_dependencies _ _) as [r'|] eqn:Er; [|done]. unfold ret, modify.
    intros [= <-]. eapply K; [reflexivity|]. unfold emit_branch_dependencies in Er.
    apply bind_Some in Er as (t & _ & [= <-]). by destruct t. }
  destruct (is_jump_instruction i).
  { unfold emit_jump_event, modify_record, bind, gets, unwrap, id.
    destruct (emit_jump_dependencies _ _) as [r'|] eqn:Er; [|done]. unfold ret, modify.
    intros [= <-]. eapply K; [reflexivity|]. unfold emit_jump_dependencies in Er.
    cbn [jp_opcode] in Er. by destruct (opcode i); simplify_eq. }
  destruct (is_auipc_instruction i).
  { cbv [emit_auipc_event bind gets id modify]. intros [= <-]. by eapply K. }
  destruct (is_ecall_instruction i); [|done].
  cbv [emit_syscall_event modify]. intros [= <-]. by eapply K.
Qed.

Lemma accesses_opt a : accesses_ordered a ->
  opt_ordered (ma_a a) /\ opt_ordered (ma_b a) /\ opt_ordered (ma_c a) /\ opt_ordered (ma_memory a).
Proof.
  unfold accesses_ordered, accesses. intros H.
  destruct (ma_a a), (ma_b a), (ma_c a), (ma_memory a); cbn in *; rewrite ?Forall_cons in H; intuition.
Qed.

Lemma emit_events_ordered clk_ np i code a b c z x s s' :
  accesses_ordered (memory_accesses s) -> events_ordered (record s) ->
  emit_events clk_ np i code a b c z (memory_accesses s) x s = Ok tt s' ->
  rec_only s s' /\ events_ordered (record s').
Proof.
  intros Ha [Hc Hm] E. destruct (accesses_opt _ Ha) as (H1 & H2 & H3 & H4).
  destruct (emit_events_mem _ _ _ _ _ _ _ _ _ _ _ _ E) as (R & l & El & Hl).
  apply emit_events_cpu in E. split; [done|]. split.
  - rewrite E. apply Forall_app. split; [done|]. by apply Forall_singleton.
  - rewrite El. apply Forall_app. split; [done|]. eapply Forall_impl; [exact Hl|].
    intros e He. rewrite He in H4. exact H4.
Qed.

Lemma same_ctl_sizes s s' : same_ctl s s' ->
  shard_size s' = shard_size s /\ max_syscall_cycles s' = max_syscall_cycles s.
Proof. intros C. pose proof (sc_sizes _ _ C) as E. by injection E as -> _ ->. Qed.

(** Four ticks later every access is in the past. *)
Lemma stamped_advance p s :
  stamped 4 4 s -> clk (state s) + 8 < 2 ^ 32 -> stamped 0 0 (finished p s).
Proof.
  intros [H1 H2 H3 H4 H5] Hc. assert (clk (state (finished p s)) = clk (state s) + 4) as Ek.
  { cbn. unfold wadd. apply u32_small, is_u32_iff. change (2 ^ 32) with 4294967296 in *. lia. }
  split; rewrite ?Ek; try done; [lia| |].
  all: intros a r E; unfold older; rewrite Ek.
  - destruct (H3 a r E) as [|[? ?]]; [by left | right; split; [done | lia]].
  - destruct (H4 a r E) as [|[? ?]]; [by left | right; split; [done | lia]].
Qed.

Section Cycle.
  Context (syscall_map : SyscallCode -> option Syscall).

Lemma execute_instruction_ordered i s s' :
  is_ecall_instruction i = false -> ordered_inv s ->
  execute_instruction syscall_map i s = Ok tt s' ->
  ordered_within 4 s' /\ shard s' = shard s /\ shard_size s' = shard_size s.
Proof.
  intros Hec [U St Hk Hz Hr Hrs] E. unfold execute_instruction in E.
  unfold bind at 1, gets at 1 in E. change (id s) with s in E.
  apply bind_inv_ok in E as ([] & s1 & E1 & E). apply bind_inv_ok in E as ([] & s2 & E2 & E).
  apply bind_inv_ok in E as (o & s3 & E3 & E).
  assert (exists f, s1 = upd_memory_accesses f s /\ accesses_ordered (memory_accesses s1)) as (f & -> & Ha1).
  { destruct (is_trace s); injection E1 as <-; eexists; (split; [|]);
      [reflexivity | constructor | instantiate (1 := id); by destruct s | apply St]. }
  unfold count_instruction in E2. unfold bind at 1, gets in E2. cbn [unconstrained upd_memory_accesses id] in E2.
  rewrite U in E2. injection E2 as <-. set (s2 := upd_local_counts _ _) in *.
  assert (stamped 0 0 s2) as St2 by (split; [apply St.. | exact Ha1]).
  pose proof (dispatch_stamped syscall_map s2 i (clk (state s)) (pc (state s) +u 4) Hec s2
    (conj St2 (reflexivity _))) as H3.
  rewrite E3 in H3. destruct H3 as [St3 C]. destruct (same_ctl_sizes _ _ C) as [Z1 Z2].
  destruct (same_ctl_fields _ _ C) as (_ & Ek & _ & Esh & _).
  assert (clk (state s3) + 8 < 2 ^ 32) as Hb by (rewrite Ek; cbn; lia).
  unfold finish in E. cbv zeta in E. unfold bind at 1, gets at 1 in E. change (id s3) with s3 in E.
  apply bind_inv_ok in E as ([] & s4 & E4 & E). injection E as <-.
  assert (rec_only s3 s4 /\ events_ordered (record s4)) as [R Ho].
  { destruct (is_trace s3).
    - eapply emit_events_ordered; [apply St3 | rewrite (sc_record _ _ C); exact Hr | exact E4].
    - injection E4 as <-. split; [reflexivity | rewrite (sc_record _ _ C); exact Hr]. }
  rewrite R. assert (clk (state (finished (out_next_pc o) s3)) = clk (state s3) + 4) as Ek'.
  { cbn. unfold wadd. apply u32_small, is_u32_iff. destruct (st_clk _ _ _ St3).
    change (2 ^ 32) with 4294967296 in *. lia. }
  pose proof (stamped_advance (out_next_pc o) s3 St3 Hb) as Hst.
  split; [|split; [exact Esh | exact Z1]].
  split; cbn [unconstrained record records shard_size max_syscall_cycles upd_state upd_record].
  - rewrite (sc_unconstrained _ _ C). exact U.
  - eapply same_stamped; [| |exact Hst]; reflexivity.
  - change (clk (state (finished (out_next_pc o) s3)) < shard_size s3 + 4).
    rewrite Ek', Ek, Z1. cbn. lia.
  - rewrite Z1, Z2. exact Hz.
  - exact Ho.
  - rewrite (sc_records _ _ C). exact Hrs.
Qed.

(** ** Shard boundaries *)

(** The shape check changes only the event counts and the record's counts. *)
Lemma check_shapes_out s b s' : check_shapes s = Ok b s' ->
  exists f g, s' = upd_record (upd_counts f) (upd_event_counts g s).
Proof.
  assert (forall g, upd_event_counts g s = upd_record (upd_counts id) (upd_event_counts g s)) as Hid.
  { intros g. destruct s as [? ? ? ? ? ? ? ? ? ? ? ? ? ? r]. by destruct r. }
  unfold check_shapes. cbv [bind gets id massert when ret panic modify].
  destruct (shape_check_frequency s =? 0); cbn [negb]; [done|].
  destruct (_ mod _ =? 0).
  2: { intros [= _ <-]. exists id, id. rewrite <- Hid. by destruct s. }
  destruct (lde_size_check _); [intros [= _ <-]; eexists id, _; apply Hid|].
  destruct (maximal_shapes _) as [shapes|]; [|intros [= _ <-]; eexists id, _; apply Hid].
  destruct (existsb _ _); cbn [negb]; intros [= _ <-]; [eexists id, _; apply Hid|].
  eexists _, _. reflexivity.
Qed.

(** A new shard: every access is in an earlier shard, and the closed record moves
    to [records]. *)
Lemma new_shard_ordered s s' :
  ordered_within 4 s -> 0 < shard_size s -> shard s + 1 < 2 ^ 32 ->
  bump_record (upd_state (upd_clk (fun _ => 0)) (upd_state (upd_current_shard (fun n => n +u 1)) s))
    = Ok tt s' ->
  ordered_inv s'.
Proof.
  intros [U St Hk Hz Hr Hrs] Hpos Hsh E.
  assert (u32 (current_shard (state s) + 1) = current_shard (state s) + 1) as Es.
  { apply u32_small, is_u32_iff. pose proof (st_shard _ _ _ St). unfold shard in *.
    change (2 ^ 32) with 4294967296 in *. lia. }
  assert (forall l, unconstrained l = false -> memory_accesses l = memory_accesses s ->
    state l = upd_clk (fun _ => 0) (upd_current_shard (fun n => n +u 1) (state s)) ->
    shard_size l = shard_size s -> max_syscall_cycles l = max_syscall_cycles s ->
    events_ordered (record l) -> Forall events_ordered (records l) -> ordered_inv l) as K.
  { intros l Hu Ha Hst Z1 Z2 Hr' Hrs'. pose proof (st_shard _ _ _ St) as Hp. unfold shard in Hp.
    assert (shard l = current_shard (state s) + 1) as Es'
      by (unfold shard; rewrite Hst; exact Es).
    assert (clk (state l) = 0) as Ec by (by rewrite Hst).
    split; [done| | rewrite Ec, Z1; lia | by rewrite Z1, Z2 | done | done].
    split; [lia | rewrite Ec; lia | | | rewrite Ha; apply St].
    all: intros a r Ea; unfold mem_entry in Ea; rewrite Hst in Ea; left; rewrite Es'.
    - destruct (st_regs _ _ _ St a r Ea) as [|[-> _]]; unfold shard in *; lia.
    - destruct (st_pages _ _ _ St a r Ea) as [|[-> _]]; unfold shard in *; lia. }
  unfold bump_record in E. cbv [bind modify gets id when ret] in E.
  assert (events_ordered (ExecutionRecord_new (program s))) as Hnew by (split; constructor).
  destruct (is_trace _); injection E as <-; apply K; try reflexivity; try exact U; try exact Hnew;
    apply Forall_app; (split; [exact Hrs|]); apply Forall_singleton; exact Hr.
Qed.

Lemma end_shard_ordered s s' :
  ordered_within 4 s -> 0 < shard_size s -> shard s + 1 < 2 ^ 32 ->
  end_shard_if_full s = Ok tt s' -> ordered_inv s'.
Proof.
  intros H Hpos Hsh E. pose proof H as [U St Hk Hz Hr Hrs].
  unfold end_shard_if_full in E. unfold bind at 1, gets at 1 in E. change (id s) with s in E.
  rewrite U in E. cbn [negb when] in E. cbv zeta in E. apply bind_inv_ok in E as (found & s1 & E1 & E).
  destruct (check_shapes_out _ _ _ E1) as (f & g & ->).
  set (s1 := upd_record (upd_counts f) (upd_event_counts g s)) in *.
  assert (ordered_within 4 s1) as H1.
  { split; try assumption. eapply same_stamped; [| |exact St]; reflexivity. }
  destruct (_ || _) eqn:Hexit.
  - by apply (new_shard_ordered s1).
  - injection E as <-. destruct H1 as [? ? ? ? ? ?]. split; try assumption.
    apply orb_false_iff in Hexit as [Hexit _]. apply Z.leb_gt in Hexit.
    pose proof (st_clk _ _ _ St). unfold wadd in Hexit. rewrite u32_small in Hexit.
    + change (clk (state s) < shard_size s + 0). lia.
    + apply is_u32_iff. change (2 ^ 32) with 4294967296 in *. lia.
Qed.

(** A constrained cycle of an instruction other than [ECALL]. *)
Inductive cycle : Executor -> Executor -> Prop :=
| cycle_intro s s' i d :
    fetch (program s) (pc (state s)) = Some i -> is_ecall_instruction i = false ->
    shard s + 1 < 2 ^ 32 -> execute_cycle syscall_map s = Ok d s' -> cycle s s'.

Lemma cycle_ordered s s' : cycle s s' -> ordered_inv s -> ordered_inv s'.
Proof.
  intros [s0 s4 i d Hf Hec Hsh E] H.
  destruct (execute_cycle_inv _ _ _ _ E) as (i' & s2 & Hf' & E2 & E4 & _ & _).
  rewrite Hf in Hf'. injection Hf' as <-.
  destruct (execute_instruction_ordered i s0 s2 Hec H E2) as (H2 & Es & Ez).
  apply (end_shard_ordered _ s4) in E4; [exact E4| | |].
  - destruct H2 as [? [? ? ? ? ?] ? ? ? ?]. split; try assumption. by split.
  - change (0 < shard_size s2). rewrite Ez. pose proof (oi_clk _ _ H).
    pose proof (st_clk _ _ _ (oi_stamped _ _ H)). lia.
  - change (shard s2 + 1 < 2 ^ 32). by rewrite Es.
Qed.

(** C19. Along any number of constrained cycles of instructions other than
    [ECALL], across shard boundaries, every memory access recorded in a CPU or
    memory-instruction event is strictly later than the previous access to the same
    address, in the (shard, timestamp) order the memory argument checks; the clock
    stays below the shard size, so that no timestamp wraps. *)
Theorem accesses_stay_ordered s s' : rtc cycle s s' -> ordered_inv s -> ordered_inv s'.
Proof. induction 1; eauto using cycle_ordered. Qed.
End Cycle.

Definition two_adds : Executor :=
  boot [mkInstruction ADD 5 5 7 false true; mkInstruction SW 5 0 64 false true].

Lemma accesses_stay_ordered_witness :
  match execute_cycle no_syscalls two_adds with
  | Ok _ s' => ordered_inv s' /\ length (cpu_events (record s')) = 1%nat
  | _ => False
  end.
Proof.
  destruct (execute_cycle no_syscalls two_adds) as [d s'|e s'|] eqn:E.
  2,3: apply (f_equal (fun r => match r with Ok _ _ => true | _ => false end)) in E;
      vm_compute in E; discriminate E.
  split.
  - apply (accesses_stay_ordered no_syscalls two_adds).
    + apply rtc_once. eapply cycle_intro; [reflexivity | reflexivity | | exact E].
      apply Z.ltb_lt. vm_compute. reflexivity.
    + clear E. split; [reflexivity | | | | split; constructor | constructor].
      * split; [apply Z.ltb_lt; vm_compute; reflexivity | | | | constructor].
        -- split; [|apply Z.ltb_lt; vm_compute; reflexivity]. apply Z.leb_le. vm_compute. reflexivity.
        -- intros a r Ea. discriminate Ea.
        -- intros a r Ea. discriminate Ea.
      * apply Z.ltb_lt. vm_compute. reflexivity.
      * split; apply Z.leb_le; vm_compute; reflexivity.
  - apply (f_equal (fun r => match r with Ok _ s => length (cpu_events (record s)) | _ => 0%nat end)) in E.
    rewrite <- E. vm_compute. reflexivity.
Defined.
