(* ===== verification/Ecall.v ===== *)
(** * System calls, from the instruction's side

    [execute_ecall] reads the code and the arguments, refuses calls that are
    unknown, unsupported or not allowed in an unconstrained block, runs the
    implementation and checks the exit code of [HALT].  [calm] says that a step
    changed nothing the program can see. *)

From Stdlib Require Import ZArith Lia Bool.
From stdpp Require Import base gmap list.
From S2P Require Import Prelude Monad Isa SyscallCode Memory Events ByteLookup Air Record Alu.
From S2P Require Import Dependencies State Executor Context Step Run Syscalls Access Refinement.

Local Open Scope Z_scope.
Local Open Scope rv_scope.

(** What the limits and the program see of an executor. *)
Definition config (s : Executor) :=
  (program s, unconstrained s, executor_mode s, (max_cycles s, shard_batch_size s, shape_check_frequency s)).

Definition clocks (s : Executor) :=
  (pc (state s), clk (state s), global_clk (state s), current_shard (state s), uninitialized_memory (state s)).

Record calm (s s' : Executor) : Prop := {
  cm_vals : forall c a, entry_val c a s' = entry_val c a s;
  cm_clocks : clocks s' = clocks s;
  cm_config : config s' = config s
}.

#[global] Instance calm_preorder : PreOrder calm.
Proof.
  split; [by split|]. intros s1 s2 s3 [V1 K1 C1] [V2 K2 C2].
  split; [intros; by rewrite V2 | congruence | congruence].
Qed.

Lemma same_ctl_config s s' : same_ctl s s' -> clocks s' = clocks s /\ config s' = config s.
Proof.
  intros C. unfold clocks, config. destruct (same_ctl_fields _ _ C) as (-> & -> & -> & -> & ->).
  rewrite (sc_program _ _ C), (sc_mode _ _ C), (sc_unconstrained _ _ C).
  pose proof (sc_sizes _ _ C) as E1. injection E1 as _ -> _ ->.
  pose proof (sc_shapes _ _ C) as E2. injection E2 as _ -> _. done.
Qed.

Lemma frame_calm s s' : frame s s' -> calm s s'.
Proof. intros [C V]. split; [exact V | by apply same_ctl_config..]. Qed.

Lemma calm_abs s s' : calm s s' -> rv_eq (abs s') (abs s).
Proof.
  intros [V K _]. split_and!; cbn; [intros; apply V | intros; apply V|]. by injection K.
Qed.

Lemma calm_entry s s' c a : calm s s' -> entry_val c a s' = entry_val c a s.
Proof. intros H. apply (cm_vals _ _ H). Qed.

Section Ecall.
  Context (syscall_map : SyscallCode -> option Syscall).

(** [execute_ecall] after the checks of the code. *)
Definition ecall_body (code : SyscallCode) (id_ b c : Z) : EM Outcome :=
  match syscall_map code with
  | None => throw (UnsupportedSyscall id_)
  | Some impl =>
      '(res, precompile_next_pc, exit_code_) <- run_syscall impl code b c ;;
      let a := default id_ res in
      (if code_eqb code HALT && negb (exit_code_ =? 0)
       then throw (HaltWithNonZeroExitCode exit_code_) else ret tt) ;;;
      '(b, c) <- (if code_eqb code EXIT_UNCONSTRAINED then
                    b' <- register X10 ;; c' <- register X11 ;; ret (b', c')
                  else ret (b, c)) ;;
      rw_cpu X5 a ;;;
      s <- gets id ;;
      let clk_ := clk (state s) in
      modify (upd_state (upd_clk (fun k => k +u num_extra_cycles impl))) ;;;
      ret (mkOutcome a b c clk_ precompile_next_pc code exit_code_)
  end.

(** Calls an unconstrained block may make. *)
Definition allowed (s : Executor) (code : SyscallCode) : bool :=
  negb (unconstrained s && (negb (code_eqb code EXIT_UNCONSTRAINED) && negb (code_eqb code WRITE))).

Lemma execute_ecall_prologue s :
  exists s', calm s s' /\
  execute_ecall syscall_map s =
    let id_ := peek Flat.Reg 5 s in
    match from_u32 id_ with
    | None => Panic
    | Some code =>
        if allowed s code then ecall_body code id_ (reg_val s X10) (reg_val s X11) s'
        else Err (InvalidSyscallUsage id_) s'
    end.
Proof.
  destruct (register_ok X5 s) as (s1 & E1 & B1 & _).
  destruct (rr_frame X11 PC s1) as (s2 & E2 & F2 & _); [done|].
  destruct (rr_frame X10 PB s2) as (s3 & E3 & F3 & _); [done|].
  assert (calm s s3) as C3.
  { transitivity s1; [by apply frame_calm, book_frame|]. transitivity s2; by apply frame_calm. }
  assert (reg_val s1 X11 = reg_val s X11) as H11 by (apply frame_reg; by apply book_frame).
  assert (reg_val s2 X10 = reg_val s X10) as H10.
  { rewrite (frame_reg s1 s2 _ F2). apply frame_reg. by apply book_frame. }
  unfold execute_ecall. erewrite bind_ok by exact E1. erewrite bind_ok by exact E2.
  erewrite bind_ok by exact E3. change (reg_idx X5) with 5. cbv zeta.
  destruct (from_u32 (peek Flat.Reg 5 s)) as [code|]; [|by exists s3].
  unfold unwrap at 1. rewrite bind_ret_l. unfold bind at 1, gets at 1. change (id s3) with s3.
  set (s4 := if print_report s3 && negb (unconstrained s3)
             then upd_report (upd_report_syscall_counts (enum_add code 1)) s3 else s3).
  assert (when (print_report s3 && negb (unconstrained s3))
    (modify (upd_report (upd_report_syscall_counts (enum_add code 1)))) s3 = Ok (E := ExecutionError) tt s4) as E4
    by (subst s4; by destruct (_ && _)).
  erewrite bind_ok by exact E4.
  assert (calm s s4) as C4 by (transitivity s3; [done|]; subst s4; destruct (_ && _); by split).
  assert (unconstrained s3 = unconstrained s) as Hu.
  { pose proof (cm_config _ _ C3) as C. unfold config in C. by injection C as _ -> _. }
  rewrite Hu. unfold allowed. destruct (unconstrained s && _); cbn [negb]; [by exists s4|].
  rewrite bind_ret_l. unfold bind at 1, modify. set (s5 := upd_state _ s4).
  exists s5. split; [transitivity s4; [done|]; by split|]. by rewrite H10, H11.
Qed.

(** The instruction around it. *)
Lemma execute_instruction_ecall i s : is_ecall_instruction i = true ->
  exists s0, calm s s0 /\ (forall c a, mem_entry c a s0 = mem_entry c a s) /\
    execute_instruction syscall_map i s = bind (execute_ecall syscall_map) (finish i) s0.
Proof.
  intros Hec. destruct (execute_instruction_pre syscall_map i s) as (s0 & E0 & Hp & Hm & Hu & _ & Hz & E).
  exists s0. split_and!.
  - split; [intros; by apply same_state_val | unfold clocks; by rewrite E0
      | unfold config; by rewrite Hp, Hm, Hu, Hz].
  - intros. unfold mem_entry. by rewrite E0.
  - rewrite E. f_equal. revert Hec. unfold dispatch, is_alu_instruction, is_memory_load_instruction,
      is_memory_store_instruction, is_branch_instruction, is_jump_instruction, is_auipc_instruction,
      is_ecall_instruction, opcode_eqb. by destruct (opcode i).
Qed.

(** ** HALT *)

(** [HALT] returns to program counter 0 with exit code [b], or reports it. *)
Lemma halt_body s id_ b c : syscall_map HALT = Some HaltSyscall ->
  if b =? 0 then
    exists s' o, ecall_body HALT id_ b c s = Ok o s' /\ out_next_pc o = 0 /\ out_exit_code o = 0 /\
      exists s1, wrote Flat.Reg 5 id_ s s1 /\ s' = upd_state (upd_clk (fun k => k +u 0)) s1
  else exists s', ecall_body HALT id_ b c s = Err (HaltWithNonZeroExitCode b) s' /\ s' = s.
Proof.
  intros Hmap. unfold ecall_body. rewrite Hmap.
  assert (run_syscall HaltSyscall HALT b c s = Ok (None, 0, b) s) as E by reflexivity.
  erewrite bind_ok by exact E. cbv zeta. change (code_eqb HALT HALT) with true.
  change (code_eqb HALT EXIT_UNCONSTRAINED) with false. cbn [andb default from_option].
  destruct (Z.eqb_spec b 0) as [->|Hb]; cbn [negb]; [|by eexists].
  rewrite !bind_ret_l. destruct (rw_wrote X5 id_ s) as (s1 & E1 & W & _).
  erewrite bind_ok by exact E1. eexists _, _. split; [reflexivity|].
  split_and!; [reflexivity | reflexivity | exists s1; split; [exact W | reflexivity]].
Qed.

(** [HALT] on the abstract machine; [None] is any other system call. *)
Definition rv_ecall (m : RvState) : option RvResult :=
  match from_u32 (rv_regs m X5) with
  | None => Some RvPanic
  | Some HALT =>
      Some (if rv_regs m X10 =? 0 then RvNext (mkRvState (rv_regs m) (rv_mem m) 0)
            else RvFault (HaltWithNonZeroExitCode (rv_regs m X10)))
  | Some _ => None
  end.

(** The end of a cycle that halts. *)
Lemma halt_finish i s s1 o : is_ecall_instruction i = true -> machine_wf s -> calm s s1 ->
  (exists s2, wrote Flat.Reg 5 (reg_val s X5) s1 s2 /\ o = upd_state (upd_clk (fun k => k +u 0)) s2) ->
  forall out, out_next_pc out = 0 ->
  exists s', finish i out o = Ok tt s' /\ rv_eq (abs s') (mkRvState (reg_val s) (mem_val s) 0) /\
    machine_wf s' /\ same_env s s'.
Proof.
  intros Hec [Hv H0 _] C (s2 & [C2 W] & ->) out Hpc.
  destruct (finish_ok i out (upd_state (upd_clk (fun k => k +u 0)) s2)) as (s3 & R & E).
  { revert Hec. unfold completes, is_ecall_instruction, is_ebreak_instruction, is_unimp_instruction.
    by destruct (opcode i). }
  { revert Hec. unfold is_memory_load_instruction, is_memory_store_instruction, is_ecall_instruction.
    by destruct (opcode i). }
  eexists. split; [exact E|]. clear E. rewrite Hpc. unfold rec_only in R.
  assert (forall c a, entry_val c a s3 = entry_val c a s) as V.
  { intros c a. rewrite R. change (entry_val c a (upd_record _ _)) with (entry_val c a s2). rewrite W.
    case_decide as K; [|apply (cm_vals _ _ C)]. injection K as <- K. cbn in K. by subst a. }
  destruct (same_ctl_config _ _ C2) as [K2 G2]. rewrite (cm_clocks _ _ C) in K2. rewrite (cm_config _ _ C) in G2.
  unfold clocks, config in K2, G2. injection K2 as _ Kc Kg Ks Ku. injection G2 as Gp Gu Gm Gl Gb Gf.
  split_and!; [split_and!; [intros r; apply V | intros a; apply V | reflexivity] | |].
  - split; [intros c a; change (is_u32 (entry_val c a s3)); by rewrite V
      | change (entry_val Flat.Reg (reg_idx X0) s3 = 0); by rewrite V | by apply is_u32_iff].
  - rewrite R. unfold same_env. cbn. split_and!; try congruence.
    rewrite Kc. unfold wadd, u32, wrap. rewrite Z.add_0_r. apply Zplus_mod_idemp_l.
Qed.

(** [ECALL] does what the abstract machine does, for [HALT] and unknown codes. *)
Lemma ecall_refines i s : is_ecall_instruction i = true -> machine_wf s -> unconstrained s = false ->
  syscall_map HALT = Some HaltSyscall -> peek Flat.Reg 5 s = reg_val s X5 ->
  match rv_ecall (abs s) with
  | Some r => refines s (execute_instruction syscall_map i s) r
  | None => True
  end.
Proof.
  intros Hec Hs Hu Hmap H5. destruct (execute_instruction_ecall i s Hec) as (s0 & C0 & M0 & E0).
  destruct (execute_ecall_prologue s0) as (s1 & C1 & E1). cbv zeta in E1. rewrite E0.
  assert (calm s s1) as C by (by transitivity s0).
  assert (peek Flat.Reg 5 s0 = reg_val s X5) as Hp by (rewrite <- H5; unfold peek; by rewrite M0).
  assert (forall r, reg_val s0 r = reg_val s r) as Hr by (intros; apply (cm_vals _ _ C0)).
  assert (unconstrained s0 = false) as Hu0.
  { pose proof (cm_config _ _ C0) as G. unfold config in G. by injection G as _ -> _. }
  rewrite Hp, !Hr in E1. unfold rv_ecall. cbn [abs rv_regs].
  destruct (from_u32 (reg_val s X5)) as [code|]; [|unfold bind; by rewrite E1].
  unfold allowed in E1. rewrite Hu0 in E1. cbn [andb negb] in E1.
  destruct code; try exact I.
  pose proof (halt_body s1 (reg_val s X5) (reg_val s X10) (reg_val s X11) Hmap) as Hh.
  destruct (reg_val s X10 =? 0).
  - destruct Hh as (s2 & o & Eb & Hpc & _ & W). rewrite Eb in E1. erewrite bind_ok by exact E1.
    destruct (halt_finish i s s1 s2 Hec Hs C W o Hpc) as (s3 & -> & H). exact H.
  - destruct Hh as (s2 & Eb & ->). rewrite Eb in E1. unfold bind. rewrite E1. split; [reflexivity|].
    by apply calm_abs.
Qed.

(** ** Refused calls *)

(** C27. [ECALL] refuses with the error the code promises and changes nothing the program
    can see: an unknown code panics; in an unconstrained block every call but
    [EXIT_UNCONSTRAINED] and [WRITE] is an invalid usage; a code without an implementation
    is unsupported; and [HALT] with a nonzero exit code reports that code. *)
Theorem ecall_refusals i s :
  is_ecall_instruction i = true ->
  let id_ := peek Flat.Reg 5 s in
  let refused e := exists s', execute_instruction syscall_map i s = Err e s' /\ rv_eq (abs s') (abs s) in
  match from_u32 id_ with
  | None => execute_instruction syscall_map i s = Panic
  | Some code =>
      (allowed s code = false -> refused (InvalidSyscallUsage id_)) /\
      (allowed s code = true -> syscall_map code = None -> refused (UnsupportedSyscall id_)) /\
      (code = HALT -> unconstrained s = false -> syscall_map HALT = Some HaltSyscall ->
       reg_val s X10 <> 0 -> refused (HaltWithNonZeroExitCode (reg_val s X10)))
  end.
Proof.
  intros Hec. destruct (execute_instruction_ecall i s Hec) as (s0 & C0 & M0 & E0).
  destruct (execute_ecall_prologue s0) as (s1 & C1 & E1). cbv zeta in E1 |- *.
  assert (peek Flat.Reg 5 s0 = peek Flat.Reg 5 s) as Hp by (unfold peek; by rewrite M0).
  assert (forall r, reg_val s0 r = reg_val s r) as Hr by (intros; apply (cm_vals _ _ C0)).
  assert (unconstrained s0 = unconstrained s) as Hu.
  { pose proof (cm_config _ _ C0) as C. unfold config in C. by injection C as _ -> _. }
  assert (forall code, allowed s0 code = allowed s code) as Ha by (intros; unfold allowed; by rewrite Hu).
  assert (forall e, execute_ecall syscall_map s0 = Err e s1 ->
    exists s', execute_instruction syscall_map i s = Err e s' /\ rv_eq (abs s') (abs s)) as Hgo.
  { intros e E. exists s1. split; [rewrite E0; unfold bind; by rewrite E|].
    apply calm_abs. by transitivity s0. }
  rewrite Hp, !Hr in E1. destruct (from_u32 (peek Flat.Reg 5 s)) as [code|].
  - rewrite Ha in E1. split_and!.
    + intros H. apply Hgo. by rewrite E1, H.
    + intros H Hmap. apply Hgo. rewrite E1, H. unfold ecall_body. by rewrite Hmap.
    + intros -> H Hmap Hx. apply Hgo. rewrite E1. unfold allowed. rewrite H. cbn [andb negb].
      pose proof (halt_body s1 (peek Flat.Reg 5 s) (reg_val s X10) (reg_val s X11) Hmap) as Hh.
      rewrite (proj2 (Z.eqb_neq _ _) Hx) in Hh. by destruct Hh as (s' & -> & ->).
  - rewrite E0. unfold bind. by rewrite E1.
Qed.
End Ecall.

(** [ECALL] with [x5 = HALT] and exit code 3. *)
Definition halting : Executor :=
  upd_state (upd_memory (Flat.update Flat.Reg 10 (mkMemoryRecord 0 1 3))) (boot [mkInstruction ECALL 5 10 11 false false]).

Definition only_halt (c : SyscallCode) : option Syscall :=
  if code_eqb c HALT then Some HaltSyscall else None.

Lemma ecall_refusals_witness :
  exists s', execute_instruction only_halt (mkInstruction ECALL 5 10 11 false false) halting
    = Err (HaltWithNonZeroExitCode 3) s' /\ rv_eq (abs s') (abs halting).
Proof.
  apply (ecall_refusals only_halt (mkInstruction ECALL 5 10 11 false false) halting eq_refl);
    [reflexivity | reflexivity | reflexivity | discriminate].
Defined.
