(* ===== verification/Simulation.v ===== *)
(** * Whole programs

    [rv_run] iterates the abstract machine of [Refinement] over a program until
    it halts.  The executor's loop, its shard boundaries, its batches and
    [run_fast] compute the same final state, fault or panic. *)

From Stdlib Require Import ZArith Lia Bool.
From stdpp Require Import base gmap list.
From S2P Require Import Prelude Monad Isa SyscallCode Memory Events ByteLookup Air Record Alu.
From S2P Require Import Dependencies State Executor Context Step Run Syscalls Access Refinement Ordering.
From S2P Require Import Ecall.

Local Open Scope Z_scope.
Local Open Scope rv_scope.

(** ** The abstract run *)

(** One cycle; [None] at a system call other than [HALT], and at a [JALR] to an odd
    address, where the executor leaves the machine. *)
Definition rv_cycle (p : Program) (m : RvState) : option RvResult :=
  match fetch p (rv_pc m) with
  | Some i => if is_ecall_instruction i then rv_ecall m else if odd_jump i m then None else Some (rv_step i m)
  | None => Some RvPanic
  end.

(** The machine halts at program counter 0 or past the last instruction. *)
Definition rv_done (p : Program) (m : RvState) : bool :=
  (rv_pc m =? 0) ||
  ((4 * Z.of_nat (length (instructions p))) mod 2 ^ 32 <=? (rv_pc m - pc_base p) mod 2 ^ 32).

Inductive RvRun : Type :=
| Halted (m : RvState)
| Faulted (e : ExecutionError)
| Crashed
| External (m : RvState)
| Running (m : RvState).

Fixpoint rv_run (p : Program) (n : nat) (m : RvState) : RvRun :=
  match n with
  | O => Running m
  | S n' =>
      match rv_cycle p m with
      | Some (RvNext m') => if rv_done p m' then Halted m' else rv_run p n' m'
      | Some (RvFault e) => Faulted e
      | Some RvPanic => Crashed
      | None => External m
      end
  end.

(** Results up to extensional equality of machine states. *)
Definition res_eq (r r' : RvResult) : Prop :=
  match r, r' with
  | RvNext m, RvNext m' => rv_eq m m'
  | RvFault e, RvFault e' => e = e'
  | RvPanic, RvPanic => True
  | _, _ => False
  end.

Definition run_eq (r r' : RvRun) : Prop :=
  match r, r' with
  | Halted m, Halted m' | Running m, Running m' | External m, External m' => rv_eq m m'
  | Faulted e, Faulted e' => e = e'
  | Crashed, Crashed => True
  | _, _ => False
  end.

#[global] Instance run_eq_equiv : Equivalence run_eq.
Proof.
  split.
  - intros []; cbn; done || reflexivity.
  - intros [] []; cbn; done || by symmetry.
  - intros [] [] []; cbn; try done; congruence || (intros; etransitivity; eassumption).
Qed.

#[global] Instance set_reg_proper r v : Proper (pointwise_relation _ eq ==> pointwise_relation _ eq) (set_reg r v).
Proof. intros f g H r'. unfold set_reg. by rewrite H. Qed.

#[global] Instance set_mem_proper a v : Proper (pointwise_relation _ eq ==> pointwise_relation _ eq) (set_mem a v).
Proof. intros f g H a'. unfold set_mem. by rewrite H. Qed.

#[global] Instance rv_step_proper i : Proper (rv_eq ==> res_eq) (rv_step i).
Proof.
  intros [f g k] [f' g' k'] (Hf & Hg & Hk). cbn in Hf, Hg, Hk. subst k'.
  assert (forall rd v np, rv_eq (mkRvState (set_reg rd v f) g np) (mkRvState (set_reg rd v f') g' np)) as Hw.
  { intros rd v np. split_and!; cbn; [intros r; by apply set_reg_proper | done | done]. }
  assert (forall np, rv_eq (mkRvState f g np) (mkRvState f' g' np)) as Hj
    by (intros np; split_and!; [exact Hf | exact Hg | reflexivity]).
  unfold rv_step, rv_operands, rv_writeback, next_pc_of. cbn [rv_regs rv_mem rv_pc]. rewrite !Hf, !Hg.
  destruct (is_alu_instruction i).
  { destruct (negb _); [|destruct (negb _)]; (destruct (rv_alu _ _ _); [apply Hw | exact I]). }
  destruct (is_memory_load_instruction i).
  { destruct (valid_mem_addr _); [|exact I]. destruct (_ =? 0); [apply Hw | reflexivity]. }
  destruct (is_memory_store_instruction i).
  { destruct (Flat.in_range _); [|exact I]. destruct (_ =? 0); [|reflexivity].
    destruct (valid_mem_addr _); [|exact I]. split_and!; cbn; [done | intros a; by apply set_mem_proper | done]. }
  destruct (opcode i); try exact I; try reflexivity; apply Hj || apply Hw.
Qed.

#[global] Instance rv_ecall_proper : Proper (rv_eq ==> option_Forall2 res_eq) rv_ecall.
Proof.
  intros m m' H. unfold rv_ecall. rewrite !(proj1 H). destruct (from_u32 _) as [c|]; [|by constructor].
  destruct c; try constructor. destruct (_ =? 0); [|done].
  split_and!; [apply H | apply H | reflexivity].
Qed.

#[global] Instance rv_cycle_proper p : Proper (rv_eq ==> option_Forall2 res_eq) (rv_cycle p).
Proof.
  intros m m' H. unfold rv_cycle. rewrite (proj2 (proj2 H)). destruct (fetch _ _) as [i|]; [|by constructor].
  destruct (is_ecall_instruction i); [by apply rv_ecall_proper|]. unfold odd_jump. rewrite (proj1 H). destruct (_ && _); constructor. by apply rv_step_proper.
Qed.

#[global] Instance rv_done_proper p : Proper (rv_eq ==> eq) (rv_done p).
Proof. intros m m' (_ & _ & H). unfold rv_done. by rewrite H. Qed.

#[global] Instance rv_run_proper p n : Proper (rv_eq ==> run_eq) (rv_run p n).
Proof.
  induction n as [|n IH]; intros m m' H; [exact H|]. cbn [rv_run].
  pose proof (rv_cycle_proper p m m' H) as Hc.
  destruct Hc as [[] [] Hc|]; try done. cbn in Hc.
  rewrite (rv_done_proper p _ _ Hc). destruct (rv_done p _); [exact Hc | by apply IH].
Qed.

(** ** One cycle *)

(** Same registers, memory, program counter, hints and global clock. *)
Definition same_arch (st st' : ExecutionState) : Prop :=
  memory st' = memory st /\ uninitialized_memory st' = uninitialized_memory st /\ pc st' = pc st /\
  global_clk st' = global_clk st.

Lemma same_arch_val c a s s' : same_arch (state s) (state s') -> entry_val c a s' = entry_val c a s.
Proof.
  intros (Hm & Hu & _). unfold entry_val, entry_record, mem_entry, init_value. by rewrite Hm, Hu.
Qed.

Lemma same_arch_abs s s' : same_arch (state s) (state s') -> rv_eq (abs s') (abs s).
Proof.
  intros H. split_and!; cbn; [intros r | intros a | apply H]; by apply same_arch_val.
Qed.

Lemma same_arch_wf s s' : same_arch (state s) (state s') -> machine_wf s -> machine_wf s'.
Proof.
  intros H [Hv H0 Hp]. split; [intros c a | unfold reg_val | rewrite (proj1 (proj2 (proj2 H))); exact Hp];
    by rewrite (same_arch_val _ _ _ _ H).
Qed.

Lemma bump_record_ok s : exists s', bump_record s = Ok tt s' /\ state s' = state s /\ config s' = config s.
Proof.
  unfold bump_record. cbv [bind modify gets id when ret].
  destruct (is_trace _); eexists; (split_and!; reflexivity).
Qed.

Lemma check_shapes_ok s : shape_check_frequency s <> 0 ->
  exists b s', check_shapes s = Ok b s' /\ state s' = state s /\ config s' = config s.
Proof.
  intros Hf. unfold check_shapes. cbv [bind gets id massert when ret panic modify].
  rewrite (proj2 (Z.eqb_neq _ _) Hf). cbn [negb].
  destruct (_ mod _ =? 0); [|by eexists _, _].
  destruct (lde_size_check _); [by eexists _, _|].
  destruct (maximal_shapes _) as [shapes|]; [|by eexists _, _].
  destruct (existsb _ _); cbn [negb]; by eexists _, _.
Qed.

(** A shard boundary never fails, and changes only the shard and its clock. *)
Lemma end_shard_ok s : shape_check_frequency s <> 0 ->
  exists s', end_shard_if_full s = Ok tt s' /\ same_arch (state s) (state s') /\ config s' = config s.
Proof.
  intros Hf. unfold end_shard_if_full. unfold bind at 1, gets at 1. change (id s) with s.
  destruct (unconstrained s); cbn [negb when]; [by eexists|]. cbv zeta.
  destruct (check_shapes_ok s Hf) as (b & s1 & E1 & S1 & C1). erewrite bind_ok by exact E1.
  destruct (_ || _); cbn [when]; [|eexists; split_and!; [reflexivity | unfold same_arch; by rewrite S1 | exact C1]].
  unfold bind at 1 2, modify. set (s2 := upd_state _ (upd_state _ s1)).
  destruct (bump_record_ok s2) as (s3 & E3 & S3 & C3). exists s3.
  split_and!; [exact E3 | unfold same_arch; rewrite S3; cbn; by rewrite S1 | by rewrite C3].
Qed.

(** No hint is pending. *)
Definition hint_free (s : Executor) : Prop :=
  forall c a, Flat.lookup c a (uninitialized_memory (state s)) = None.

Section Program.
  Context (syscall_map : SyscallCode -> option Syscall) (p : Program).
  Hypothesis Hwf : Forall wf_instruction (instructions p).
  Hypothesis Hhalt : syscall_map HALT = Some HaltSyscall.

(** The executor runs [p], constrained, without a cycle limit and without hints. *)
Record ready (s : Executor) : Prop := {
  rd_program : program s = p;
  rd_constrained : unconstrained s = false;
  rd_unlimited : max_cycles s = None;
  rd_frequency : shape_check_frequency s <> 0;
  rd_hints : hint_free s;
  rd_wf : machine_wf s
}.

Lemma fetch_wf k i : fetch p k = Some i -> wf_instruction i.
Proof. intros E. unfold fetch in E. exact (Forall_lookup_1 _ _ _ _ Hwf E). Qed.

Lemma instruction_simulates i s : ready s -> wf_instruction i ->
  match (if is_ecall_instruction i then rv_ecall (abs s) else if odd_jump i (abs s) then None else Some (rv_step i (abs s))) with
  | Some r => refines s (execute_instruction syscall_map i s) r
  | None => True
  end.
Proof.
  intros [Hp Hu Hl Hf Hh Hw] Hi. destruct (is_ecall_instruction i) eqn:Hec.
  - apply ecall_refines; try done. apply peek_entry_val. right. apply Hh.
  - destruct (odd_jump i (abs s)) eqn:Hodd; [exact I|]. apply instruction_refines; try done. intros _. right. right. apply Hh.
Qed.

Lemma is_done_abs s : program s = p -> is_done s = rv_done p (abs s).
Proof. intros <-. unfold is_done, rv_done, wsub, u32, wrap. cbn [abs rv_pc]. by rewrite Z.mul_comm. Qed.

Definition cycle_matches (s : Executor) (r : option RvResult) (x : Res Executor ExecutionError bool) : Prop :=
  match r, x with
  | None, _ => True
  | Some (RvNext m'), Ok d s' =>
      rv_eq (abs s') m' /\ ready s' /\ d = rv_done p m' /\
      global_clk (state s') = u64 (global_clk (state s) + 1) /\ executor_mode s' = executor_mode s
  | Some (RvFault e), Err e' s' => e' = e
  | Some RvPanic, Panic => True
  | _, _ => False
  end.

Lemma cycle_simulates s : ready s -> cycle_matches s (rv_cycle p (abs s)) (execute_cycle syscall_map s).
Proof.
  intros Hs. pose proof Hs as [Hp Hu Hl Hf Hh Hw]. unfold rv_cycle, execute_cycle. unfold bind at 1, gets at 1.
  change (id s) with s. rewrite Hp. cbn [abs rv_pc].
  destruct (fetch p (pc (state s))) as [i|] eqn:Ei; [|exact I].
  unfold unwrap at 1. rewrite bind_ret_l.
  pose proof (instruction_simulates i s Hs (fetch_wf _ _ Ei)) as H. unfold bind at 1.
  destruct (if is_ecall_instruction i then _ else _) as [r|]; [|exact I].
  destruct (execute_instruction syscall_map i s) as [[] s1|e s1|], r as [m'|e'|];
    try done; [|by destruct H].
  destruct H as (Hm & Hw1 & Ep & Em & Eu & Eg & _ & Eh & _ & Ez). injection Ez as Ez1 Ez2 Ez3.
  unfold bind at 1, modify at 1. set (s2 := upd_state _ s1).
  destruct (end_shard_ok s2) as (s3 & E3 & A3 & C3); [change (shape_check_frequency s1 <> 0); by rewrite Ez3|].
  erewrite bind_ok by exact E3. unfold bind at 1, gets at 1. change (id s3) with s3.
  unfold config in C3. injection C3 as Cp Cu Cm Cl _ Cf.
  rewrite Cl. change (max_cycles s2) with (max_cycles s1). rewrite Ez1, Hl. rewrite bind_ret_l.
  change (unconstrained s2) with (unconstrained s1) in Cu. rewrite Cu, Eu, Hu, andb_false_r. cbn [cycle_matches ret].
  assert (rv_eq (abs s3) m') as Hm3 by (rewrite (same_arch_abs _ _ A3); exact Hm).
  assert (program s3 = p) as Hp3 by (rewrite Cp; change (program s2) with (program s1); by rewrite Ep).
  split_and!.
  - exact Hm3.
  - split; [exact Hp3 | by rewrite Cu, Eu | by rewrite Cl; change (max_cycles s2) with (max_cycles s1); rewrite Ez1
      | rewrite Cf; change (shape_check_frequency s1 <> 0); by rewrite Ez3
      | | apply (same_arch_wf s2 s3 A3); split; apply Hw1].
    intros c a. rewrite (proj1 (proj2 A3)). change (uninitialized_memory (state s2)) with (uninitialized_memory (state s1)).
    rewrite Eh. apply Hh.
  - rewrite is_done_abs by exact Hp3. by apply rv_done_proper.
  - rewrite (proj2 (proj2 (proj2 A3))). cbn. by rewrite Eg.
  - rewrite Cm. exact Em.
Qed.

(** ** The loop *)

(** The run ends within its fuel. *)
Definition finished_run (r : RvRun) : bool := match r with Running _ | External _ => false | _ => true end.

Lemma finished_run_eq r r' : run_eq r r' -> finished_run r = finished_run r'.
Proof. by destruct r, r'. Qed.

(** The clock counts [n] more cycles without wrapping. *)
Definition clock_room (n : nat) (s : Executor) : Prop :=
  0 < global_clk (state s) /\ global_clk (state s) + Z.of_nat n < 2 ^ 64.

(** The outcome [x] of a batch started [n] cycles before the outcome [r] of the
    abstract run: the batch ends the run, or leaves fewer cycles to do. *)
Definition batch_matches (mode : ExecutorMode) (n : nat) (r : RvRun)
    (x : Res Executor ExecutionError (option bool)) : Prop :=
  match x with
  | Ok (Some true) s' => run_eq r (Halted (abs s')) /\ executor_mode s' = mode
  | Ok (Some false) s' =>
      exists j, (j < n)%nat /\ run_eq r (rv_run p j (abs s')) /\ ready s' /\ clock_room j s' /\
        executor_mode s' = mode
  | Ok None _ => False
  | Err e _ => r = Faulted e
  | Panic => r = Crashed
  end.

Lemma batch_matches_mono mode n n' r r' x :
  (n <= n')%nat -> run_eq r' r -> batch_matches mode n r x -> batch_matches mode n' r' x.
Proof.
  intros Hn Hr. destruct x as [[[]|] s|e s|]; cbn; [| |done|..].
  - intros (H & Hm). split; [|exact Hm]. by transitivity r.
  - intros (j & Hj & H & Hrest). exists j. split_and!; [lia | by transitivity r | apply Hrest..].
  - intros ->. by destruct r'; cbn in Hr; try done; subst.
  - intros ->. by destruct r'.
Qed.

Lemma loop_simulates n : forall fuel s cs k,
  (n <= fuel)%nat -> ready s -> 0 <= global_clk (state s) -> global_clk (state s) + Z.of_nat n < 2 ^ 64 ->
  finished_run (rv_run p n (abs s)) = true ->
  batch_matches (executor_mode s) n (rv_run p n (abs s)) (execute_loop syscall_map fuel cs k s).
Proof.
  induction n as [|n IH]; intros fuel s cs k Hn Hs Hg0 Hg Hfin; [discriminate Hfin|].
  destruct fuel as [|fuel]; [lia|]. cbn [execute_loop rv_run] in *.
  pose proof (cycle_simulates s Hs) as H. unfold bind at 1.
  destruct (rv_cycle p (abs s)) as [r|]; [|discriminate Hfin].
  destruct (execute_cycle syscall_map s) as [d s1|e s1|], r as [m'|e'|];
    try done; [|by cbn in H |- *; subst].
  destruct H as (Hm & Hs1 & -> & Hclk & Hmode).
  rewrite <- Hmode. destruct (rv_done p m') eqn:Ed; [split; [by symmetry | done]|].
  assert (run_eq (rv_run p n m') (rv_run p n (abs s1))) as Hrun by (apply rv_run_proper; by symmetry).
  rewrite (finished_run_eq _ _ Hrun) in Hfin.
  assert (global_clk (state s1) = global_clk (state s) + 1) as Hc1 by (rewrite Hclk; apply Z.mod_small; lia).
  unfold bind at 1, gets at 1. change (id s1) with s1.
  assert (forall cs k, batch_matches (executor_mode s1) (S n) (rv_run p n m')
    (execute_loop syscall_map fuel cs k s1)) as Hgo.
  { intros cs' k'. eapply batch_matches_mono; [|exact Hrun|apply IH; [lia | done | lia | lia | done]]. lia. }
  destruct (_ && _); [|apply Hgo]. cbv zeta. destruct (_ =? _); [|apply Hgo].
  exists n. split_and!; [lia | exact Hrun | exact Hs1 | | reflexivity]. unfold clock_room. lia.
Qed.

Lemma idle_postprocess s : executor_mode s = Simple -> run_postprocess s = Ok tt s.
Proof.
  intros Hm. unfold run_postprocess. unfold bind at 1, gets at 1. change (id s) with s.
  by rewrite Hm, andb_false_r.
Qed.

(** Nothing of the architecture changes after the loop in [Simple] mode. *)
Lemma close_batch_ok start d s : executor_mode s = Simple ->
  exists s', close_batch start d s = Ok (Some d) s' /\ state s' = state s /\ config s' = config s.
Proof.
  intros Hm. unfold close_batch. unfold bind at 1, gets at 1. change (id s) with s. cbv zeta.
  assert (exists s1, when d (run_postprocess ;;; bump_record) s = Ok tt s1 /\ state s1 = state s /\
    config s1 = config s) as (s1 & E1 & S1 & C1).
  { destruct d; cbn [when]; [|by eexists]. 
    erewrite bind_ok by exact (idle_postprocess s Hm). apply bump_record_ok. }
  erewrite bind_ok by exact E1. unfold bind at 1, gets at 1. change (id s1) with s1.
  assert (exists s2, when (negb (bool_decide (cpu_events (record s1) = []))) bump_record s1 = Ok tt s2 /\
    state s2 = state s1 /\ config s2 = config s1) as (s2 & E2 & S2 & C2).
  { destruct (negb _); cbn [when]; [apply bump_record_ok | by eexists]. }
  erewrite bind_ok by exact E2. eexists. split; [reflexivity|].
  cbn. split; [congruence|]. rewrite <- C1, <- C2. reflexivity.
Qed.

Lemma ready_close s s' : state s' = state s -> config s' = config s -> ready s -> ready s'.
Proof.
  intros E C [H1 H2 H3 H4 H5 H6]. unfold config in C. injection C as C1 C2 _ C3 _ C4.
  split; [congruence.. | unfold hint_free; by rewrite E | by apply (same_state_wf s' s)].
Qed.

(** A batch, from the state after its possible [initialize]. *)
Lemma batch_simulates n fuel s s0 :
  (n <= fuel)%nat -> when (global_clk (state s) =? 0) initialize s = Ok tt s0 ->
  executor_mode s0 = Simple -> ready s0 ->
  0 <= global_clk (state s0) -> global_clk (state s0) + Z.of_nat n < 2 ^ 64 ->
  finished_run (rv_run p n (abs s0)) = true ->
  batch_matches Simple n (rv_run p n (abs s0)) (execute_batch syscall_map fuel s).
Proof.
  intros Hn Hi Hm Hs Hg0 Hg Hfin. unfold execute_batch. unfold bind at 1, gets at 1.
  change (id s) with s. cbv zeta. erewrite bind_ok by exact Hi.
  unfold bind at 1, gets at 1. change (id s0) with s0.
  pose proof (loop_simulates n fuel s0 (current_shard (state s0)) 0 Hn Hs Hg0 Hg Hfin) as H.
  unfold bind at 1. rewrite Hm in H.
  destruct (execute_loop _ _ _ _ s0) as [[d|] s1|e s1|]; [|done..].
  assert (executor_mode s1 = Simple) as Hm1 by (destruct d; [apply H | by destruct H as (? & ? & ? & ? & ? & ?)]).
  destruct (close_batch_ok (current_shard (state s)) d s1 Hm1) as (s2 & -> & S2 & C2).
  assert (executor_mode s2 = Simple) as Hm2 by (unfold config in C2; by injection C2 as _ _ -> _).
  destruct d; cbn in H |- *.
  - destruct H as [H _]. rewrite (same_state_abs_eq s2 s1 S2). split; [exact H | exact Hm2].
  - destruct H as (j & Hj & Hr & Hs1 & Hc & _). exists j. rewrite (same_state_abs_eq s2 s1 S2).
    split_and!; [exact Hj | exact Hr | by apply (ready_close s1) | unfold clock_room; by rewrite S2 | exact Hm2].
Qed.

Definition run_matches (r : RvRun) (x : Res Executor ExecutionError (option unit)) : Prop :=
  match x with
  | Ok (Some _) s' => run_eq r (Halted (abs s'))
  | Ok None _ => False
  | Err e _ => r = Faulted e
  | Panic => r = Crashed
  end.

Lemma until_done_simulates rounds : forall n fuel s s0,
  (n <= rounds)%nat -> (n <= fuel)%nat -> when (global_clk (state s) =? 0) initialize s = Ok tt s0 ->
  executor_mode s0 = Simple -> ready s0 ->
  0 <= global_clk (state s0) -> global_clk (state s0) + Z.of_nat n < 2 ^ 64 ->
  finished_run (rv_run p n (abs s0)) = true ->
  run_matches (rv_run p n (abs s0)) (execute_until_done syscall_map rounds fuel s).
Proof.
  induction rounds as [|rounds IH]; intros n fuel s s0 Hr Hf Hi Hm Hs Hg0 Hg Hfin.
  { assert (n = 0%nat) as -> by lia. discriminate Hfin. }
  cbn [execute_until_done].
  pose proof (batch_simulates n fuel s s0 Hf Hi Hm Hs Hg0 Hg Hfin) as H. unfold bind at 1.
  destruct (execute_batch syscall_map fuel s) as [[[]|] s1|e s1|]; cbn in H |- *; try done.
  - apply H.
  - destruct H as (j & Hj & Hrun & Hs1 & [Hc0 Hc] & Hm1).
    assert (run_matches (rv_run p j (abs s1)) (execute_until_done syscall_map rounds fuel s1)) as H1.
    { apply (IH j fuel s1 s1); [lia | lia | | exact Hm1 | exact Hs1 | lia | exact Hc|].
      - by rewrite (proj2 (Z.eqb_neq _ _)) by lia.
      - rewrite <- Hfin. symmetry. by apply finished_run_eq. }
    destruct (execute_until_done _ _ _ s1) as [[[]|] s2|e s2|]; cbn in H1 |- *; try done.
    + etransitivity; [exact Hrun | exact H1].
    + rewrite H1 in Hrun. destruct (rv_run p n (abs s0)); try done. cbn in Hrun. by subst.
    + rewrite H1 in Hrun. by destruct (rv_run p n (abs s0)).
Qed.
End Program.

(** ** Loading the program *)

(** The memory image: 32-bit words at word addresses above the registers. *)
Definition wf_image (image : gmap Z Z) : Prop :=
  map_Forall (fun a v => 32 <= a /\ a mod 4 = 0 /\ Flat.in_range a = true /\ is_u32 v) image.

(** Where the abstract machine starts. *)
Definition rv_init (p : Program) : RvState :=
  mkRvState (fun _ => 0) (fun a => default 0 (memory_image p !! align a)) (pc_start p).

Lemma page_key_align k a : k mod 4 = 0 ->
  Flat.key Flat.Page k = Flat.key Flat.Page a <-> k = align a.
Proof.
  intros Hk. cbn [Flat.key]. rewrite !compress_div. unfold align.
  Z.to_euclidean_division_equations; lia.
Qed.

Lemma from_iter_words (l : list (Z * MemoryRecord)) : forall m,
  Forall (fun x => 32 <= x.1 /\ x.1 mod 4 = 0 /\ Flat.in_range x.1 = true) l -> NoDup l.*1 ->
  exists m', Flat.from_iter m l = Some m' /\ Flat.registers m' = Flat.registers m /\
    forall a, Flat.lookup Flat.Page a m' =
      match (list_to_map l : gmap Z MemoryRecord) !! align a with
      | Some r => Some r
      | None => Flat.lookup Flat.Page a m
      end.
Proof.
  induction l as [|[k r] l IH]; intros m Hl Hn; [by exists m|].
  inversion_clear Hl as [|? ? (H32 & H4 & Hr) Hl']. inversion_clear Hn as [|? ? Hk Hn']. cbn in H32, H4, Hr, Hk.
  cbn [Flat.from_iter]. unfold Flat.insert, Flat.pt_insert. rewrite (proj2 (Z.ltb_ge _ _) H32), Hr.
  cbn [mbind option_bind]. set (m1 := Flat.mkMemory _ _).
  destruct (IH m1 Hl' Hn') as (m' & -> & Hreg & Hpage). exists m'. split_and!; [reflexivity | exact Hreg|].
  intros a. rewrite Hpage. cbn [list_to_map foldr uncurry fst snd].
  change m1 with (Flat.update Flat.Page k r m).
  destruct (decide (k = align a)) as [->|Hne].
  - rewrite lookup_insert_eq. rewrite (not_elem_of_list_to_map_1 l (align a) Hk).
    unfold Flat.lookup. rewrite <- (proj2 (page_key_align (align a) a H4) eq_refl).
    apply (flat_lookup_update_eq Flat.Page (align a) r m).
  - rewrite lookup_insert_ne by done. destruct (list_to_map l !! align a); [done|].
    apply flat_lookup_update_ne. intros [= E]. apply Hne. by apply page_key_align.
Qed.

Lemma from_iter_image image : wf_image image ->
  exists m', Flat.from_iter Flat.empty
      ((fun '(a, v) => (a, mkMemoryRecord 0 0 v)) <$> map_to_list image) = Some m' /\
    Flat.registers m' = ∅ /\
    forall a, Flat.lookup Flat.Page a m' = mkMemoryRecord 0 0 <$> image !! align a.
Proof.
  intros Hw. set (f := fun '(a, v) => (a, mkMemoryRecord 0 0 v)).
  assert ((f <$> map_to_list image).*1 = (map_to_list image).*1) as Hk.
  { rewrite <- list_fmap_compose. by apply list_fmap_ext; intros ? [] ?. }
  destruct (from_iter_words (f <$> map_to_list image) Flat.empty) as (m' & E & Hr & Hp).
  - apply Forall_fmap, Forall_forall. intros [a v] Hin. apply elem_of_map_to_list in Hin.
    destruct (Hw a v Hin) as (? & ? & ? & _). by split_and!.
  - rewrite Hk. apply NoDup_fst_map_to_list.
  - exists m'. split_and!; [exact E | exact Hr|]. intros a. rewrite Hp.
    assert (f <$> map_to_list image = prod_map id (mkMemoryRecord 0 0) <$> map_to_list image) as ->
      by (by apply list_fmap_ext; intros ? [] ?).
    rewrite list_to_map_fmap, list_to_map_to_list, lookup_fmap. by destruct (image !! align a).
Qed.

(** An executor that has not started. *)
Record fresh (p : Program) (s : Executor) : Prop := {
  fr_program : program s = p;
  fr_memory : memory (state s) = Flat.empty;
  fr_hints : uninitialized_memory (state s) = Flat.empty;
  fr_pc : pc (state s) = pc_start p;
  fr_clk : global_clk (state s) = 0;
  fr_constrained : unconstrained s = false;
  fr_unlimited : max_cycles s = None;
  fr_frequency : shape_check_frequency s <> 0
}.

Lemma new_fresh syscall_map p opts :
  fresh p (upd_print_report (fun _ => true) (upd_executor_mode (fun _ => Simple)
    (Executor_new syscall_map p opts))).
Proof. split; reflexivity || discriminate. Qed.

(** [initialize] loads the image. *)
Lemma initialize_ok p s : fresh p s -> wf_image (memory_image p) ->
  exists m, initialize s = Ok tt (upd_state (upd_memory (fun _ => m)) (upd_state (upd_clk (fun _ => 0)) s)) /\
    Flat.registers m = ∅ /\
    forall a, Flat.lookup Flat.Page a m = mkMemoryRecord 0 0 <$> memory_image p !! align a.
Proof.
  intros Hs Hw. destruct (from_iter_image _ Hw) as (m & E & Hr & Hp). exists m. split_and!; [|done..].
  unfold initialize. unfold bind at 1, modify at 1. unfold bind at 1, gets at 1.
  set (s1 := id _). change (program s1) with (program s).
  change (memory (state s1)) with (memory (state s)). rewrite (fr_program _ _ Hs), (fr_memory _ _ Hs), E.
  reflexivity.
Qed.

Lemma initialize_simulates p s : fresh p s -> wf_image (memory_image p) -> is_u32 (pc_start p) ->
  exists s0, initialize s = Ok tt s0 /\ executor_mode s0 = executor_mode s /\ ready p s0 /\
    global_clk (state s0) = 0 /\ rv_eq (abs s0) (rv_init p).
Proof.
  intros Hs Hw Hpc. destruct (initialize_ok p s Hs Hw) as (m & E & Hr & Hp).
  eexists. split; [exact E|]. clear E. set (s0 := upd_state _ _).
  assert (forall r, entry_val Flat.Reg r s0 = 0) as Hreg.
  { intros r. unfold entry_val, entry_record, mem_entry, init_value.
    change (memory (state s0)) with m. change (uninitialized_memory (state s0)) with (uninitialized_memory (state s)).
    rewrite (fr_hints _ _ Hs). unfold Flat.lookup. by rewrite Hr. }
  assert (forall a, mem_val s0 a = default 0 (memory_image p !! align a)) as Hmem.
  { intros a. unfold mem_val, entry_val, entry_record, mem_entry, init_value.
    change (memory (state s0)) with m. change (uninitialized_memory (state s0)) with (uninitialized_memory (state s)).
    rewrite (fr_hints _ _ Hs), Hp. by destruct (memory_image p !! align a). }
  assert (pc (state s0) = pc_start p) as Hpc0 by exact (fr_pc _ _ Hs).
  split_and!; [reflexivity | | exact (fr_clk _ _ Hs) | split_and!; [intros r; apply Hreg | exact Hmem | exact Hpc0]].
  split; [exact (fr_program _ _ Hs) | exact (fr_constrained _ _ Hs) | exact (fr_unlimited _ _ Hs)
    | exact (fr_frequency _ _ Hs) | |].
  - intros c a. change (uninitialized_memory (state s0)) with (uninitialized_memory (state s)).
    rewrite (fr_hints _ _ Hs). by destruct c.
  - split; [|apply Hreg | by rewrite Hpc0]. intros [] a; [rewrite Hreg; by apply is_u32_iff|].
    fold (mem_val s0 a). rewrite Hmem. destruct (memory_image p !! align a) as [v|] eqn:Ev; [|by apply is_u32_iff].
    by destruct (Hw _ _ Ev) as (_ & _ & _ & ?).
Qed.

Definition simple (s : Executor) : Executor :=
  upd_print_report (fun _ => true) (upd_executor_mode (fun _ => Simple) s).

Lemma run_fast_eq syscall_map rounds fuel s :
  run_fast syscall_map rounds fuel s = execute_until_done syscall_map rounds fuel (simple s).
Proof. reflexivity. Qed.

(** C3. Whole programs: if the RV32IM machine, started on the program's memory image with
    zeroed registers, halts (at [HALT], at program counter 0 or past the last instruction),
    faults or crashes within [n] steps without another system call and without a [JALR] to an
    odd address, then [run_fast], for any shard and batch sizes and enough fuel for [n] cycles,
    ends the same way, with the same registers, memory and program counter when it halts and
    the same error when it faults. *)
Theorem run_fast_refines syscall_map p opts n rounds fuel :
  Forall wf_instruction (instructions p) -> syscall_map HALT = Some HaltSyscall -> wf_image (memory_image p) -> is_u32 (pc_start p) ->
  finished_run (rv_run p n (rv_init p)) = true ->
  (n <= rounds)%nat -> (n <= fuel)%nat -> Z.of_nat n < 2 ^ 64 ->
  run_matches (rv_run p n (rv_init p)) (run_fast syscall_map rounds fuel (Executor_new syscall_map p opts)).
Proof.
  intros Hwf Hhalt Hw Hpc Hfin Hr Hf Hn. rewrite run_fast_eq.
  pose proof (new_fresh syscall_map p opts : fresh p (simple (Executor_new syscall_map p opts))) as Hfresh.
  assert (executor_mode (simple (Executor_new syscall_map p opts)) = Simple) as Hmode by reflexivity.
  revert Hfresh Hmode. generalize (simple (Executor_new syscall_map p opts)). intros s Hfresh Hmode.
  destruct (initialize_simulates p s Hfresh Hw Hpc) as (s0 & Ei & Hm & Hs & Hg & Habs). rewrite Hmode in Hm.
  pose proof (rv_run_proper p n _ _ Habs) as Hrun.
  assert (run_matches (rv_run p n (abs s0)) (execute_until_done syscall_map rounds fuel s)) as H.
  { apply (until_done_simulates syscall_map p Hwf Hhalt rounds n fuel s s0 Hr Hf); [| done | done | lia | lia|].
    - by rewrite (fr_clk _ _ Hfresh).
    - rewrite <- Hfin. by apply finished_run_eq. }
  destruct (execute_until_done _ _ _ _) as [[[]|] s2|e s2|]; cbn in H |- *; try done.
  - by rewrite <- Hrun.
  - rewrite H in Hrun. destruct (rv_run p n (rv_init p)); try done. cbn in Hrun. by subst.
  - rewrite H in Hrun. by destruct (rv_run p n (rv_init p)).
Qed.

(** [x5 := mem[4096] + 5; mem[4096] := x5; halt]. *)
Definition sum_program : Program :=
  mkProgram [mkInstruction LW 6 0 4096 false true; mkInstruction ADD 7 6 5 false true;
             mkInstruction SW 7 0 4096 false true; mkInstruction ECALL 5 10 11 false false] 65536 65536 {[4096 := 7]}.

Lemma run_fast_refines_witness :
  match run_fast only_halt 4 4 (Executor_new only_halt sum_program (mkCoreOpts 1024 1)) with
  | Ok (Some _) s' => mem_val s' 4096 = 12 /\ reg_val s' X7 = 12
  | _ => False
  end.
Proof.
  assert (run_matches (rv_run sum_program 4 (rv_init sum_program))
    (run_fast only_halt 4 4 (Executor_new only_halt sum_program (mkCoreOpts 1024 1)))) as H.
  { apply run_fast_refines; [| reflexivity | | | vm_compute; reflexivity | lia | lia | lia].
    - repeat constructor; cbn; try lia; try discriminate; apply is_u32_iff; lia.
    - intros a v E. cbn in E. apply lookup_singleton_Some in E as [<- <-].
      split_and!; [lia | reflexivity | reflexivity | apply is_u32_iff; lia].
    - apply is_u32_iff. cbn. lia. }
  destruct (run_fast _ _ _ _) as [[[]|] s'|e s'|]; [| done | discriminate H | discriminate H].
  destruct H as (Hr & Hm & _). specialize (Hr X7). specialize (Hm 4096). cbn [abs rv_regs rv_mem] in Hr, Hm.
  rewrite <- Hr, <- Hm. vm_compute. split; reflexivity.
Defined.
