(* ===== verification/Unconstrained.v ===== *)
(** * Unconstrained blocks (crates/core/executor/src/syscalls/unconstrained.rs)

    Between [ENTER_UNCONSTRAINED] and [EXIT_UNCONSTRAINED] the executor runs
    code whose effects must not reach the proof.  [forked s0 s] is the invariant
    of the block: [s0] is the executor at the entry, and [s] can still be rolled
    back to it.  The accesses of the executor, and [WRITE], keep it; leaving the
    block restores the machine, so that the whole block is one [ECALL] cycle that
    returns 0. *)

From Stdlib Require Import ZArith Lia Bool.
From stdpp Require Import base gmap list.
From S2P Require Import Prelude Monad Isa SyscallCode Memory Events ByteLookup Air Record Alu Dependencies State Executor Context Step Run Syscalls.
From S2P Require Import Curves Precompiles Access Refinement Trace Ordering.

Local Open Scope Z_scope.

(** * The undo log of memory accesses

    [unconstrained_state.memory_diff] and the checkpoint of a batch keep, for
    every address accessed since a point in time, the record the address had
    then.  [logs m0 diff m] says that undoing [diff] in [m] gives [m0] back;
    draining the log ([apply_diff], and [restore_memory] of a checkpoint) then
    computes [m0]. *)

Implicit Types (m : Flat.Memory MemoryRecord) (diff : gmap Z (option MemoryRecord)).

(** The addresses an access may have: a register or a valid memory word. *)
Definition accessible (c : Flat.comp) (a : Z) : Prop :=
  match c with Flat.Reg => 0 <= a < 32 | Flat.Page => valid_mem_addr a = true end.

(** The canonical address of a key of a component. *)
Definition canonical (c : Flat.comp) (a : Z) : Prop :=
  match c with Flat.Reg => True | Flat.Page => a mod 4 = 0 end.

(** The record of [a] after undoing [diff]. *)
Definition undone diff (c : Flat.comp) (a : Z) m : option MemoryRecord :=
  if decide (comp_of a = c) then match diff !! a with Some old => old | None => Flat.lookup c a m end
  else Flat.lookup c a m.

Definition accessible_addr (a : Z) : Prop := accessible (comp_of a) a.

Record logs (m0 : Flat.Memory MemoryRecord) diff m : Prop := {
  lg_dom : forall a old, diff !! a = Some old -> accessible_addr a;
  lg_undo : forall c a, canonical c a -> Flat.lookup c a m0 = undone diff c a m
}.

Lemma valid_mem_above a : valid_mem_addr a = true -> 32 <= a.
Proof.
  unfold valid_mem_addr. rewrite negb_true_iff, !orb_false_iff.
  change (reg_idx X31) with 31. rewrite Z.leb_gt. lia.
Qed.

Lemma accessible_comp c a : accessible c a -> comp_of a = c /\ canonical c a.
Proof.
  unfold comp_of. destruct c; cbn; intros H.
  - by rewrite (proj2 (Z.ltb_lt a 32) (proj2 H)).
  - split; [|by apply valid_mem_aligned].
    destruct (Z.ltb_spec a 32); [|done]. apply valid_mem_above in H. lia.
Qed.

(** Canonical addresses with the same key are equal. *)
Lemma canonical_key c a a' : canonical c a -> canonical c a' ->
  Flat.key c a = Flat.key c a' -> a = a'.
Proof. destruct c; cbn; [done|]. rewrite !compress_div. Z.to_euclidean_division_equations; lia. Qed.

(** Memories that agree on canonical addresses are equal. *)
Lemma flat_memory_eq m m' :
  (forall c a, canonical c a -> Flat.lookup c a m = Flat.lookup c a m') -> m = m'.
Proof.
  intros H. destruct m as [r1 p1], m' as [r2 p2]. f_equal; apply map_eq; intros k.
  - exact (H Flat.Reg k I).
  - pose proof (H Flat.Page (4 * k)) as E. cbn in E. rewrite !compress_div in E.
    replace (4 * k / 4) with k in E by (Z.to_euclidean_division_equations; lia).
    apply E. Z.to_euclidean_division_equations; lia.
Qed.

(** ** Recording *)

Lemma logs_start m : logs m ∅ m.
Proof.
  split; [intros a old; by rewrite lookup_empty|]. intros c a _. unfold undone.
  rewrite lookup_empty. by case_decide.
Qed.

(** Saving the record before an update keeps the log. *)
Lemma logs_update m0 diff m c a r :
  accessible c a -> logs m0 diff m ->
  logs m0 (match diff !! a with Some _ => diff | None => <[a := Flat.lookup c a m]> diff end)
    (Flat.update c a r m).
Proof.
  intros Ha [Hd Hu]. destruct (accessible_comp c a Ha) as [Hc Hcan]. split.
  - intros a' old. destruct (diff !! a) eqn:E; [apply Hd|].
    rewrite lookup_insert. case_decide as Ea; [intros _ | apply Hd].
    rewrite <- Ea. unfold accessible_addr. by rewrite Hc.
  - intros c' a' Hcan'. rewrite (Hu c' a' Hcan'). unfold undone.
    destruct (decide ((c, Flat.key c a) = (c', Flat.key c' a'))) as [E|E].
    + injection E as -> E. apply (canonical_key c') in E as ->; [|done..].
      rewrite !decide_True by done. destruct (diff !! a') eqn:E; rewrite ?E; [done|].
      by rewrite lookup_insert_eq.
    + rewrite flat_lookup_update_ne by done. case_decide as Hc'; [|done].
      assert (a <> a') as Hne by (intros ->; apply E; congruence).
      destruct (diff !! a); [done|]. by rewrite lookup_insert_ne.
Qed.

(** ** Draining *)

Lemma accessible_in_range a : accessible_addr a -> a < 32 \/ (32 <= a /\ Flat.in_range a = true).
Proof.
  unfold accessible_addr, comp_of. destruct (Z.ltb_spec a 32); cbn; [by left|].
  intros Hv. right. split; [done|]. apply valid_mem_in_range; [done | lia].
Qed.

Definition put (a : Z) (old : option MemoryRecord) m : option (Flat.Memory MemoryRecord) :=
  match old with Some r => Flat.insert m a r | None => Flat.remove m a end.

Definition set_opt (c : Flat.comp) (a : Z) (old : option MemoryRecord) m : Flat.Memory MemoryRecord :=
  match c with
  | Flat.Reg => Flat.mkMemory (partial_alter (fun _ => old) a (Flat.registers m)) (Flat.page_table m)
  | Flat.Page =>
      Flat.mkMemory (Flat.registers m) (partial_alter (fun _ => old) (compress_addr a) (Flat.page_table m))
  end.

Lemma put_set a old m : accessible_addr a -> put a old m = Some (set_opt (comp_of a) a old m).
Proof.
  intros Ha. destruct (accessible_in_range a Ha) as [Hr|[Hr Hin]];
    unfold put, Flat.insert, Flat.remove, Flat.pt_insert, Flat.pt_remove, comp_of.
  - rewrite (proj2 (Z.ltb_lt a 32) Hr). by destruct old.
  - rewrite (proj2 (Z.ltb_ge a 32) Hr), Hin. by destruct old.
Qed.

Lemma lookup_set_opt c a old m c' a' : canonical c a -> canonical c' a' ->
  Flat.lookup c' a' (set_opt c a old m) =
  if decide ((c, a) = (c', a')) then old else Flat.lookup c' a' m.
Proof.
  intros Hc Hc'. case_decide as E.
  - injection E as -> ->. destruct c'; cbn; apply lookup_partial_alter_eq.
  - destruct c, c'; cbn; try done; apply lookup_partial_alter_ne.
    + congruence.
    + intros Ek. apply E. f_equal. by apply (canonical_key Flat.Page).
Qed.

(** Draining a log, whatever the order of its entries, undoes it. *)
Lemma apply_diff_spec l m :
  NoDup l.*1 -> Forall (fun e => accessible_addr e.1) l ->
  exists m', apply_diff l m = Some m' /\
    forall c a, canonical c a -> Flat.lookup c a m' = undone (list_to_map l) c a m.
Proof.
  revert m. induction l as [|[a old] l IH]; intros m Hnd Hacc.
  - exists m. split; [done|]. intros c a _. unfold undone. change (list_to_map []) with (∅ : gmap Z (option MemoryRecord)).
    rewrite lookup_empty. by case_decide.
  - cbn in Hnd. apply NoDup_cons in Hnd as [Hnot Hnd]. apply Forall_cons in Hacc as [Ha Hacc].
    pose proof (accessible_comp _ _ Ha) as [_ Hcan].
    assert (apply_diff ((a, old) :: l) m = m' ← put a old m; apply_diff l m') as E by (by destruct old).
    rewrite E, put_set by done. cbn [mbind option_bind].
    destruct (IH (set_opt (comp_of a) a old m) Hnd Hacc) as (m' & -> & Hm'). exists m'. split; [done|].
    intros c a' Hca. rewrite (Hm' c a' Hca). unfold undone.
    rewrite lookup_set_opt by done. cbn [list_to_map foldr fst snd].
    destruct (decide (a = a')) as [->|Hne].
    + rewrite lookup_insert_eq. rewrite (not_elem_of_list_to_map_1 l a') by done.
      case_decide as Hc; [subst c; by rewrite decide_True|].
      rewrite decide_False; [done | congruence].
    + rewrite lookup_insert_ne, (decide_False (P := (comp_of a, a) = (c, a'))) by congruence.
      done.
Qed.

(** [apply_diff] computes the memory the log started from. *)
Lemma apply_diff_logs m0 diff m : logs m0 diff m -> apply_diff (map_to_list diff) m = Some m0.
Proof.
  intros [Hd Hu]. destruct (apply_diff_spec (map_to_list diff) m) as (m' & -> & Hm').
  - apply NoDup_fst_map_to_list.
  - apply Forall_forall. intros [a old] Hin. apply elem_of_map_to_list in Hin. by eapply Hd.
  - rewrite list_to_map_to_list in Hm'. f_equal. apply flat_memory_eq. intros c a Hca.
    rewrite Hm', Hu; done.
Qed.

Local Open Scope rv_scope.

(** What the block must not change at all. *)
Definition kept (s : Executor) :=
  (program s, current_shard (state s), uninitialized_memory (state s),
   (proof_stream (state s), proof_stream_ptr (state s)),
   (records s, local_memory_access s, local_counts s, opcode_counts (report s)),
   (shard_size s, shard_batch_size s, max_syscall_cycles s, max_cycles s)).

Record forked (s0 s : Executor) : Prop := {
  fk_unconstrained : unconstrained s = true;
  fk_mode : executor_mode s = Simple;
  fk_fork : exists diff,
    unconstrained_state s = mkForkState (global_clk (state s0)) (clk (state s0)) (pc (state s0)) diff
      (memory_accesses s0) (record s0) (executor_mode s0) /\
    logs (memory (state s0)) diff (memory (state s));
  fk_kept : kept s = kept s0
}.

(** ** Accesses keep the invariant *)

Lemma touch_forked s0 cp c addr v sh ts s :
  accessible c addr -> forked s0 s -> forked s0 (touch cp c addr v sh ts s).2.
Proof.
  intros Ha [U Md (diff & Ef & L) K]. unfold touch. cbv zeta.
  set (s1 := if cp s then _ else _).
  assert (unconstrained s1 = true /\ executor_mode s1 = Simple /\ kept s1 = kept s0 /\
    unconstrained_state s1 = unconstrained_state s /\ state s1 = state s) as (U1 & Md1 & K1 & Ef1 & E1)
    by (subst s1; by destruct (cp s)).
  rewrite U1. clearbody s1. cbn [snd].
  set (s2 := save_diff c addr s1). set (s3 := init_entry c addr s2).
  assert (unconstrained s3 = true /\ executor_mode s3 = Simple /\ kept s3 = kept s0 /\
    unconstrained_state s3 = unconstrained_state s2 /\ state s3 = state s1) as (U3 & Md3 & K3 & Ef3 & E3)
    by (subst s3 s2; unfold init_entry; by destruct (mem_entry c addr _)).
  split; [exact U3 | exact Md3 | | exact K3].
  exists (match diff !! addr with Some _ => diff
          | None => <[addr := Flat.lookup c addr (memory (state s))]> diff end).
  change (unconstrained_state (set_entry c addr _ s3)) with (unconstrained_state s3).
  split.
  - rewrite Ef3. subst s2. unfold save_diff. cbn [unconstrained_state upd_unconstrained_state].
    rewrite Ef1, Ef. unfold upd_memory_diff, mem_entry. cbn. by rewrite E1.
  - change (memory (state (set_entry c addr ?r s3))) with (Flat.update c addr r (memory (state s3))).
    rewrite E3, E1. by apply logs_update.
Qed.

Lemma forked_tracing s0 s : forked s0 s -> tracing s = false.
Proof. intros H. unfold tracing. by rewrite (fk_unconstrained _ _ H). Qed.

Lemma forked_is_trace s0 s : forked s0 s -> is_trace s = false.
Proof. intros H. unfold is_trace. by rewrite (fk_mode _ _ H). Qed.

Lemma keeps_gets_id {S E A} (I : S -> Prop) (k : S -> M S E A) :
  (forall s, I s -> keeps I (k s)) -> keeps I (bind (gets id) k).
Proof. intros H s Hs. by apply (H s). Qed.

(** Updates of the fields the invariant does not mention. *)
Lemma forked_same s0 s s' :
  unconstrained s' = unconstrained s -> executor_mode s' = executor_mode s ->
  unconstrained_state s' = unconstrained_state s -> memory (state s') = memory (state s) ->
  kept s' = kept s -> forked s0 s -> forked s0 s'.
Proof.
  intros E1 E2 E3 E4 E5 [H1 H2 (diff & H3 & H4) H5]. split; [congruence.. | | congruence].
  exists diff. rewrite E3, E4. done.
Qed.

Ltac forked_upd :=
  apply keeps_modify; let s := fresh "s" in let Hs := fresh "Hs" in intros s Hs;
  refine (forked_same _ s _ _ _ _ _ _ Hs); reflexivity.

(** Runs through a computation; in the block nothing is traced. *)
Ltac fk :=
  repeat match goal with
  | |- forall _, _ => intros ?
  | |- keeps _ (bind (gets id) _) => apply keeps_gets_id; intros ?s ?Hs; cbn beta
  | H : forked _ ?s |- context [tracing ?s] => rewrite (forked_tracing _ _ H)
  | H : forked _ ?s |- context [is_trace ?s] => rewrite (forked_is_trace _ _ H)
  | H : forked _ ?s |- context [unconstrained ?s] => rewrite (fk_unconstrained _ _ H)
  | |- context [when false _] => cbn [when]
  | |- context [negb true] => cbn [negb]
  | |- context [false && _] => cbn [andb]
  | |- keeps _ (when _ _) => apply keeps_when; intros _
  | |- keeps _ (bind _ _) => apply keeps_bind
  | |- keeps _ (if _ then _ else _) => case_match
  | |- keeps _ (match _ with _ => _ end) => case_match
  | |- keeps _ (ret _) => apply keeps_ret
  | |- keeps _ panic => apply keeps_panic
  | |- keeps _ (throw _) => apply keeps_throw
  | |- keeps _ (gets _) => apply keeps_gets
  | |- keeps _ (unwrap _) => apply keeps_unwrap
  | |- keeps _ (massert _) => apply keeps_massert
  | |- keeps _ (modify _) => forked_upd
  | |- keeps _ _ => solve [auto with fkdb]
  end.

Create HintDb fkdb.

Section Block.
  Context (s0 : Executor).
  Local Abbreviation K := (keeps (E := ExecutionError) (forked s0)).

Lemma keeps_touchM {cp c addr v sh ts} : accessible c addr -> K (touchM cp c addr v sh ts).
Proof.
  intros Ha s Hs. unfold touchM. pose proof (touch_forked s0 cp c addr v sh ts s Ha Hs) as H.
  by destruct (touch cp c addr v sh ts s) as [[? ?] ?].
Qed.

Lemma reg_accessible r : accessible Flat.Reg (reg_idx r).
Proof. apply reg_idx_range. Qed.

Hint Resolve keeps_touchM reg_accessible : fkdb.

Lemma keeps_count_local_mem p sh lma : K (count_local_mem p sh lma).
Proof. unfold count_local_mem. fk. Qed.

Hint Resolve keeps_count_local_mem : fkdb.

Lemma keeps_mr addr sh ts lma : K (mr addr sh ts lma).
Proof.
  unfold mr. destruct (valid_mem_addr addr) eqn:Hv; [|intros s Hs; exact I].
  assert (accessible Flat.Page addr) by done. fk.
Qed.

Lemma keeps_mw addr v sh ts lma : K (mw addr v sh ts lma).
Proof.
  unfold mw. destruct (valid_mem_addr addr) eqn:Hv; [|intros s Hs; exact I].
  assert (accessible Flat.Page addr) by done. fk.
Qed.

Lemma keeps_rr r sh ts : K (rr r sh ts).
Proof. unfold rr. fk. Qed.

Lemma keeps_rw r v sh ts : K (rw r v sh ts).
Proof. unfold rw. fk. Qed.

Hint Resolve keeps_mr keeps_mw keeps_rr keeps_rw : fkdb.

Lemma keeps_mr_cpu addr : K (mr_cpu addr).
Proof. unfold mr_cpu. fk. Qed.

Lemma keeps_mw_cpu addr v : K (mw_cpu addr v).
Proof. unfold mw_cpu. fk. Qed.

Lemma keeps_rr_cpu r p : K (rr_cpu r p).
Proof. unfold rr_cpu. fk. Qed.

Lemma keeps_rw_cpu r v : K (rw_cpu r v).
Proof. unfold rw_cpu. cbv zeta. fk. Qed.

Lemma keeps_word addr : K (word addr).
Proof. unfold word. fk. Qed.

Lemma keeps_register r : K (register r).
Proof. unfold register. fk. Qed.

Hint Resolve keeps_mr_cpu keeps_mw_cpu keeps_rr_cpu keeps_rw_cpu keeps_word keeps_register : fkdb.

Lemma keeps_byte addr : K (byte addr).
Proof. unfold byte. fk. Qed.

Hint Resolve keeps_byte : fkdb.

Lemma keeps_plain_dispatch syscall_map i k np :
  is_ecall_instruction i = false -> K (dispatch syscall_map i k np).
Proof.
  intros Hec. unfold dispatch. rewrite Hec. cbv zeta.
  unfold execute_alu, execute_load, execute_store, execute_branch, execute_jump, execute_auipc,
    alu_rr, alu_rw, load_rr, store_rr, branch_rr, checked. fk.
Qed.

Lemma keeps_count_instruction i : K (count_instruction i).
Proof. unfold count_instruction. fk. Qed.

Lemma keeps_finish i o : K (finish i o).
Proof. unfold finish. cbv zeta. fk. Qed.

(** ** System calls of the block *)

Lemma keeps_handle_cycle_tracker cmd : K (modify (handle_cycle_tracker_command cmd)).
Proof.
  unfold handle_cycle_tracker_command, start_cycle_tracker, end_cycle_tracker.
  apply keeps_modify. intros s Hs.
  destruct cmd as [n|n|n|n]; try (destruct (cycle_tracker s !! n) as [[? ?]|]);
    refine (forked_same _ s _ _ _ _ _ _ Hs); reflexivity.
Qed.

Lemma keeps_update_io_buf fd text : K (modify (fun x => (update_io_buf fd text x).2)).
Proof.
  unfold update_io_buf. apply keeps_modify. intros s Hs.
  destruct (existsb _ _); refine (forked_same _ s _ _ _ _ _ _ Hs); reflexivity.
Qed.

Hint Resolve keeps_handle_cycle_tracker keeps_update_io_buf : fkdb.

Lemma keeps_write_bytes hook allow dep fd slice : K (write_bytes hook allow dep fd slice).
Proof.
  unfold write_bytes.
  repeat match goal with
  | |- K (modify (handle_cycle_tracker_command _)) => apply keeps_handle_cycle_tracker
  | |- K (modify (fun x => (update_io_buf _ _ x).2)) => apply keeps_update_io_buf
  | |- K (bind _ _) => apply keeps_bind; [apply keeps_unwrap | intros ?]
  | |- K (if _ then _ else _) => case_match
  | |- K (match _ with _ => _ end) => case_match
  | |- K (ret _) => apply keeps_ret
  | |- K panic => apply keeps_panic
  | |- K (modify _) => forked_upd
  end.
Qed.

Lemma keeps_write hook allow dep code b c :
  keeps (on_rt (forked s0)) (execute (WriteSyscall hook allow dep) code b c).
Proof.
  unfold WriteSyscall. cbn [execute].
  apply keeps_bind; [apply keeps_with_rt, keeps_register|]. intros n.
  apply keeps_bind; [apply keeps_collect; intros x; apply keeps_with_rt, keeps_byte|]. intros bytes.
  apply keeps_bind; [apply keeps_with_rt, keeps_write_bytes|]. intros []. apply keeps_ret.
Qed.
End Block.

Lemma dispatch_ecall syscall_map i k np : is_ecall_instruction i = true ->
  dispatch syscall_map i k np = execute_ecall syscall_map.
Proof.
  unfold dispatch, is_alu_instruction, is_memory_load_instruction, is_memory_store_instruction,
    is_branch_instruction, is_jump_instruction, is_auipc_instruction, is_ecall_instruction, opcode_eqb.
  by destruct (opcode i).
Qed.

(** ** Entering and leaving *)

(** [s] is [s0] again, up to what the block may change: the streams, the report's
    trackers, the system call counts and the checkpoints. *)
Record restored (s0 s : Executor) : Prop := {
  rs_unconstrained : unconstrained s = false;
  rs_mode : executor_mode s = executor_mode s0;
  rs_memory : memory (state s) = memory (state s0);
  rs_clocks : (pc (state s), clk (state s), global_clk (state s)) =
              (pc (state s0), clk (state s0), global_clk (state s0));
  rs_record : record s = record s0;
  rs_accesses : memory_accesses s = memory_accesses s0;
  rs_kept : kept s = kept s0
}.

Lemma exit_restores s0 s code b c : forked s0 s ->
  exists s', run_syscall ExitUnconstrainedSyscall code b c s = Ok (Some 0, pc (state s0) +u 4, 0) s' /\
    restored s0 s'.
Proof.
  intros [U Md (diff & Ef & L) Hk]. unfold run_syscall, ExitUnconstrainedSyscall. cbn [execute].
  unfold bind at 1, gets at 1. change (rt (id (SyscallContext_new s))) with s.
  rewrite U, Ef. cbn [memory_diff fork_pc]. rewrite (apply_diff_logs _ _ _ L).
  eexists. split; [reflexivity|].
  split; cbn; rewrite ?Ef; try reflexivity. exact Hk.
Qed.

Lemma enter_forks s code b c : unconstrained s = false ->
  exists s', run_syscall EnterUnconstrainedSyscall code b c s = Ok (Some 1, pc (state s) +u 4, 0) s' /\
    forked s s'.
Proof.
  intros U. unfold run_syscall, EnterUnconstrainedSyscall. cbn [execute].
  unfold bind at 1, gets at 1. change (rt (id (SyscallContext_new s))) with s.
  rewrite U. eexists. split; [reflexivity|].
  split; cbn; try reflexivity. exists ∅. split; [reflexivity | apply logs_start].
Qed.

Section Cycles.
  Context (env : Env).
  Local Abbreviation table := (default_syscall_map env).

(** An [ECALL] of the block is [WRITE], which keeps the block going, or the exit:
    the rest of the system call then runs on the restored executor. *)
Lemma block_ecall s0 s o s' : forked s0 s -> execute_ecall table s = Ok o s' ->
  forked s0 s' \/
  (out_next_pc o = pc (state s0) +u 4 /\
   exists s1 s2, restored s0 s1 /\ book s1 s2 /\ memory_accesses s2 = memory_accesses s1 /\
     bind (rw_cpu X5 0) (fun _ => modify (upd_state (upd_clk (fun k => k +u 0)))) s2 = Ok tt s').
Proof.
  intros H E. unfold execute_ecall in E.
  apply bind_inv_ok in E as (id_ & sa & E1 & E). pose proof (keeps_register s0 X5 s H) as Ha.
  rewrite E1 in Ha. apply bind_inv_ok in E as (c & sb & E2 & E).
  pose proof (keeps_rr_cpu s0 X11 PC sa Ha) as Hb. rewrite E2 in Hb.
  apply bind_inv_ok in E as (b & sc & E3 & E). pose proof (keeps_rr_cpu s0 X10 PB sb Hb) as Hc.
  rewrite E3 in Hc. destruct (from_u32 id_) as [code|]; [|discriminate E].
  unfold unwrap at 1 in E. rewrite bind_ret_l in E. unfold bind at 1, gets at 1 in E.
  change (id sc) with sc in E. rewrite (fk_unconstrained _ _ Hc) in E.
  replace (print_report sc && negb true) with false in E by (by destruct (print_report sc)).
  cbn [when] in E. rewrite bind_ret_l in E.
  destruct (true && _) eqn:Hcode; [discriminate E|]. rewrite bind_ret_l in E.
  cbn [andb] in Hcode. apply andb_false_iff in Hcode.
  unfold bind at 1, modify in E. set (sd := upd_state _ sc) in E.
  assert (forked s0 sd) as Hd by (refine (forked_same _ sc _ _ _ _ _ _ Hc); reflexivity).
  destruct Hcode as [Hcode|Hcode]; apply negb_false_iff, code_eqb_eq in Hcode as ->;
    cbn [default_syscall_map] in E.
  - right. destruct (exit_restores s0 sd EXIT_UNCONSTRAINED b c Hd) as (s1 & Ex & R).
    erewrite bind_ok in E by exact Ex. 
    change (code_eqb EXIT_UNCONSTRAINED HALT) with false in E.
    change (code_eqb EXIT_UNCONSTRAINED EXIT_UNCONSTRAINED) with true in E.
    cbn [andb default from_option] in E.
    rewrite bind_ret_l in E. rewrite bind_assoc in E.
    destruct (register_ok X10 s1) as (s2 & E4 & B4 & A4). erewrite bind_ok in E by exact E4.
    rewrite bind_assoc in E.
    destruct (register_ok X11 s2) as (s3 & E5 & B5 & A5). erewrite bind_ok in E by exact E5.
    rewrite bind_ret_l in E. apply bind_inv_ok in E as ([] & s4 & E6 & E).
    unfold bind, gets, modify, ret in E. injection E as <- <-. split; [reflexivity|].
    exists s1, s3. split_and!; [exact R | | congruence |].
    + destruct B4 as [C4 S4], B5 as [C5 S5]. split; [by transitivity s2 | congruence].
    + erewrite bind_ok by exact E6. reflexivity.
  - left. apply bind_inv_ok in E as ([[res np] ec] & s1 & Ew & E).
    assert (forked s0 s1) as H1.
    { unfold run_syscall in Ew.
      pose proof (keeps_write s0 (env_hook env) (env_allow_deprecated env) (env_deprecated_hook env)
        WRITE b c (SyscallContext_new sd) Hd) as Hw.
      destruct (execute _ _ _ _ _) as [r ctx|e ctx|]; try discriminate Ew.
      injection Ew as _ _ _ <-. exact Hw. }
    change (code_eqb WRITE HALT) with false in E.
    change (code_eqb WRITE EXIT_UNCONSTRAINED) with false in E.
    cbn [andb] in E. rewrite !bind_ret_l in E.
    apply bind_inv_ok in E as ([] & s2 & E6 & E).
    pose proof (keeps_rw_cpu s0 X5 (default id_ res) s1 H1) as H2. rewrite E6 in H2.
    unfold bind, gets, modify, ret in E. injection E as _ <-.
    refine (forked_same _ s2 _ _ _ _ _ _ H2); reflexivity.
Qed.

(** The end of a cycle changes the clock and the shard only. *)
Lemma end_shard_state s s' : end_shard_if_full s = Ok tt s' ->
  unconstrained s' = unconstrained s /\ executor_mode s' = executor_mode s /\
  (state s' = state s \/
   state s' = upd_clk (fun _ => 0) (upd_current_shard (fun n => n +u 1) (state s))) /\
  (unconstrained s = true -> s' = s).
Proof.
  intros E. unfold end_shard_if_full in E. unfold bind at 1, gets at 1 in E. change (id s) with s in E.
  destruct (unconstrained s) eqn:U.
  { injection E as <-. rewrite U. split_and!; [reflexivity | reflexivity | left; reflexivity | done]. }
  cbn [negb when] in E. cbv zeta in E. apply bind_inv_ok in E as (found & s1 & E1 & E).
  destruct (check_shapes_out _ _ _ E1) as (f & g & ->). destruct (_ || _).
  - unfold bump_record in E. cbv [bind modify gets id when ret] in E.
    destruct (is_trace _); injection E as <-;
      (split_and!; [exact U | reflexivity | right; reflexivity | discriminate]).
  - injection E as <-. split_and!; [exact U | reflexivity | left; reflexivity | discriminate].
Qed.

(** The executor after the block: [s0] with one [ECALL] cycle on top, which wrote
    0 to [x5]. *)
Record left_block (s0 s : Executor) : Prop := {
  lb_unconstrained : unconstrained s = false;
  lb_mode : executor_mode s = executor_mode s0;
  lb_pc : pc (state s) = pc (state s0) +u 4;
  lb_global_clk : global_clk (state s) = u64 (global_clk (state s0) + 1);
  lb_clk : (current_shard (state s), clk (state s)) =
             (current_shard (state s0), clk (state s0) +u 0 +u 4) \/
           (current_shard (state s), clk (state s)) = (current_shard (state s0) +u 1, 0);
  lb_memory : memory (state s) =
    Flat.update Flat.Reg 5 (mkMemoryRecord (shard s0) (timestamp PA s0) 0) (memory (state s0));
  lb_uninit : uninitialized_memory (state s) = uninitialized_memory (state s0)
}.

Lemma exit_cycle s0 s1 s2 s3 i o s4 s5 :
  restored s0 s1 -> book s1 s2 -> out_next_pc o = pc (state s0) +u 4 ->
  bind (rw_cpu X5 0) (fun _ => modify (upd_state (upd_clk (fun k => k +u 0)))) s2 = Ok tt s3 ->
  finish i o s3 = Ok tt s4 ->
  end_shard_if_full (upd_state (upd_global_clk (fun n => u64 (n + 1))) s4) = Ok tt s5 ->
  left_block s0 s5.
Proof.
  intros R [C2 S2] Hnp E3 E4 E5.
  destruct (rw_cpu_ok X5 0 s2) as (s2' & Ew & T & _). cbn [reg_idx Z.eqb] in Ew, T.
  change (rw_cpu X5 0 s2 = Ok tt s2') in Ew. erewrite bind_ok in E3 by exact Ew.
  unfold modify in E3. injection E3 as <-.
  unfold finish in E4. cbv zeta in E4. unfold bind at 1, gets at 1 in E4.
  apply bind_inv_ok in E4 as ([] & s3' & Ee & E4). injection E4 as <-.
  match type of Ee with when _ _ ?x = _ => assert (rec_only x s3') as Ro end.
  { destruct (is_trace _); [by apply emit_events_mem in Ee as [? _] | injection Ee as <-; reflexivity]. }
  assert (state s3' = upd_clk (fun k => k +u 0) (state s2')) as Es by (by rewrite Ro).
  assert (unconstrained s3' = unconstrained s2' /\ executor_mode s3' = executor_mode s2') as [Eu Em]
    by (by rewrite Ro).
  destruct (end_shard_state _ _ E5) as (Eu5 & Em5 & Hst & _). cbn in Eu5, Em5.
  destruct (same_ctl_fields _ _ (td_ctl _ _ _ _ _ T)) as (Fp & Fk & Fg & Fs & Fu).
  pose proof (rs_clocks _ _ R) as Rc. injection Rc as Rp Rk Rg.
  pose proof (rs_kept _ _ R) as Rkept. unfold kept in Rkept.
  assert (current_shard (state s1) = current_shard (state s0) /\
    uninitialized_memory (state s1) = uninitialized_memory (state s0)) as [Rs Ru] by (split; congruence).
  pose proof (td_memory _ _ _ _ _ T) as Tm. rewrite S2, (rs_memory _ _ R) in Tm.
  unfold shard, timestamp in Tm. rewrite S2, Rs, Rk in Tm.
  split.
  - rewrite Eu5, Eu, (sc_unconstrained _ _ (td_ctl _ _ _ _ _ T)), (sc_unconstrained _ _ C2).
    apply (rs_unconstrained _ _ R).
  - rewrite Em5, Em, (sc_mode _ _ (td_ctl _ _ _ _ _ T)), (sc_mode _ _ C2). apply (rs_mode _ _ R).
  - destruct Hst as [-> | ->]; cbn; rewrite ?Es; cbn; exact Hnp.
  - destruct Hst as [-> | ->]; cbn; rewrite Es; cbn; rewrite Fg, S2, Rg; reflexivity.
  - destruct Hst as [-> | ->]; cbn; rewrite Es; cbn; rewrite Fs, S2, Rs; [left|right; reflexivity].
    rewrite Fk, S2, Rk. reflexivity.
  - destruct Hst as [-> | ->]; cbn; rewrite Es; cbn; exact Tm.
  - destruct Hst as [-> | ->]; cbn; rewrite Es; cbn; rewrite Fu, S2; exact Ru.
Qed.

Lemma block_cycle s0 s d s' : forked s0 s -> execute_cycle table s = Ok d s' ->
  forked s0 s' \/ left_block s0 s'.
Proof.
  intros H E. destruct (execute_cycle_inv _ _ _ _ E) as (i & s5 & _ & E5 & Eend & _ & _).
  unfold execute_instruction in E5. unfold bind at 1, gets at 1 in E5. change (id s) with s in E5.
  rewrite (forked_is_trace _ _ H) in E5. cbn [when] in E5. rewrite bind_ret_l in E5.
  apply bind_inv_ok in E5 as ([] & s1 & E1 & E5).
  pose proof (keeps_count_instruction s0 i s H) as H1. rewrite E1 in H1.
  apply bind_inv_ok in E5 as (o & s2 & E2 & E5).
  assert (forked s0 s2 -> forked s0 s') as Hgo.
  { intros H2. pose proof (keeps_finish s0 i o s2 H2) as H3. rewrite E5 in H3.
    assert (forked s0 (upd_state (upd_global_clk (fun n => u64 (n + 1))) s5)) as H4
      by (refine (forked_same _ s5 _ _ _ _ _ _ H3); reflexivity).
    destruct (end_shard_state _ _ Eend) as (_ & _ & _ & Hid).
    rewrite Hid; [exact H4 | apply (fk_unconstrained _ _ H4)]. }
  destruct (is_ecall_instruction i) eqn:Hec.
  - assert (dispatch table i (clk (state s)) (pc (state s) +u 4) = execute_ecall table) as Hd
      by (by apply dispatch_ecall).
    rewrite Hd in E2. destruct (block_ecall s0 s1 o s2 H1 E2) as [H2|(Hnp & sa & sb & R & B & _ & Eb)].
    + left. by apply Hgo.
    + right. by eapply exit_cycle.
  - left. apply Hgo. pose proof (keeps_plain_dispatch s0 table i (clk (state s)) (pc (state s) +u 4) Hec s1 H1)
      as H2. by rewrite E2 in H2.
Qed.

(** The [ENTER_UNCONSTRAINED] cycle: up to reads, the fork is taken in the state
    the cycle started in. *)
Lemma enter_cycle s d s' i :
  unconstrained s = false -> fetch (program s) (pc (state s)) = Some i ->
  is_ecall_instruction i = true -> peek Flat.Reg 5 s = as_u32 ENTER_UNCONSTRAINED ->
  execute_cycle table s = Ok d s' ->
  exists s0, forked s0 s' /\ executor_mode s0 = executor_mode s /\
    (forall c a, entry_val c a s0 = entry_val c a s) /\
    (pc (state s0), clk (state s0), global_clk (state s0), current_shard (state s0)) =
    (pc (state s), clk (state s), global_clk (state s), current_shard (state s)).
Proof.
  intros U Hf Hec Hx5 E. destruct (execute_cycle_inv _ _ _ _ E) as (i' & s5 & Hf' & E5 & Eend & _ & _).
  rewrite Hf in Hf'. injection Hf' as <-.
  destruct (execute_instruction_pre table i s) as (s1 & E1 & Hp1 & Hm1 & Hu1 & Hr1 & _ & Eq).
  rewrite Eq in E5. apply bind_inv_ok in E5 as (o & s2 & E2 & E5).
  assert (dispatch table i (clk (state s)) (pc (state s) +u 4) = execute_ecall table) as Hd
    by (by apply dispatch_ecall).
  rewrite Hd in E2. unfold execute_ecall in E2.
  destruct (register_ok X5 s1) as (sa & Ea & [Ca Sa] & Aa). erewrite bind_ok in E2 by exact Ea.
  replace (peek Flat.Reg (reg_idx X5) s1) with (as_u32 ENTER_UNCONSTRAINED) in E2
    by (rewrite <- Hx5; unfold peek, mem_entry; by rewrite E1).
  destruct (rr_frame X11 PC sa) as (sb & Eb & Fb & _); [done|]. erewrite bind_ok in E2 by exact Eb.
  destruct (rr_frame X10 PB sb) as (sc & Ec & Fc & _); [done|]. erewrite bind_ok in E2 by exact Ec.
  rewrite from_as_u32 in E2. unfold unwrap at 1 in E2. rewrite bind_ret_l in E2.
  assert (frame sa sc) as Fac by (by transitivity sb).
  assert (frame s1 sc) as F by (transitivity sa; [by apply book_frame | exact Fac]).
  unfold bind at 1, gets at 1 in E2. change (id sc) with sc in E2.
  assert (unconstrained sc = false) as Uc by (rewrite (sc_unconstrained _ _ (proj1 F)); congruence).
  rewrite Uc in E2. apply bind_inv_ok in E2 as ([] & sd & Ed & E2).
  assert (state sd = state sc /\ executor_mode sd = executor_mode sc /\ unconstrained sd = false)
    as (Sd & Md & Ud).
  { destruct (print_report sc); injection Ed as <-; done. }
  cbn [andb] in E2. rewrite bind_ret_l in E2.
  unfold bind at 1, modify in E2. set (se := upd_state _ sd) in E2.
  cbn [default_syscall_map] in E2.
  destruct (enter_forks se ENTER_UNCONSTRAINED (reg_val sb X10) (reg_val sa X11) Ud) as (sf & Ef & Hfork).
  erewrite bind_ok in E2 by exact Ef.
  change (code_eqb ENTER_UNCONSTRAINED HALT) with false in E2.
  change (code_eqb ENTER_UNCONSTRAINED EXIT_UNCONSTRAINED) with false in E2.
  cbn [andb default from_option] in E2. rewrite !bind_ret_l in E2.
  apply bind_inv_ok in E2 as ([] & sg & Eg & E2).
  change (rw_cpu X5 1 sf = Ok tt sg) in Eg.
  pose proof (keeps_rw_cpu se X5 1 sf Hfork) as Hg. rewrite Eg in Hg.
  unfold bind, gets, modify, ret in E2. injection E2 as <- <-.
  assert (forked se s5) as H5.
  { match type of E5 with finish ?i ?o ?x = _ => pose proof (keeps_finish se i o x) as H5 end.
    rewrite E5 in H5. apply H5. refine (forked_same _ sg _ _ _ _ _ _ Hg); reflexivity. }
  exists se. split_and!.
  - assert (forked se (upd_state (upd_global_clk (fun n => u64 (n + 1))) s5)) as H6
      by (refine (forked_same _ s5 _ _ _ _ _ _ H5); reflexivity).
    destruct (end_shard_state _ _ Eend) as (_ & _ & _ & Hid).
    rewrite Hid; [exact H6 | apply (fk_unconstrained _ _ H6)].
  - change (executor_mode se) with (executor_mode sd). rewrite Md, (sc_mode _ _ (proj1 F)). exact Hm1.
  - intros cm a. transitivity (entry_val cm a sc).
    + unfold entry_val, entry_record, init_value, mem_entry.
      change (memory (state se)) with (memory (state sd)).
      change (uninitialized_memory (state se)) with (uninitialized_memory (state sd)).
      by rewrite Sd.
    + rewrite (proj2 F). unfold entry_val, entry_record, init_value, mem_entry. by rewrite E1.
  - destruct (same_ctl_fields _ _ (proj1 F)) as (Fp & Fk & Fg & Fs & _). cbn. rewrite Sd. congruence.
Qed.

(** A cycle that stays in the block. *)
Definition in_block (s s' : Executor) : Prop :=
  exists d, execute_cycle table s = Ok d s' /\ unconstrained s' = true.

Lemma block_forked s0 s s' : rtc in_block s s' -> forked s0 s -> forked s0 s'.
Proof.
  induction 1 as [|s1 s2 s3 (d & E & U) _ IH]; [done|]. intros H.
  destruct (block_cycle s0 s1 d s2 H E) as [H2|H2]; [by apply IH|].
  rewrite (lb_unconstrained _ _ H2) in U. discriminate U.
Qed.

(** C18. An unconstrained block is invisible: from the [ECALL] that enters it to the
    cycle that leaves it, whatever instructions and [WRITE]s it runs, the executor
    ends with the registers and memory of the entry, [x5 = 0], [pc] after the
    entering [ECALL], the execution mode of the entry and the global clock advanced
    by one, as if the block were a single cycle. *)
Theorem unconstrained_block_is_one_cycle s i d1 s1 s2 d3 s3 :
  unconstrained s = false -> fetch (program s) (pc (state s)) = Some i ->
  is_ecall_instruction i = true -> peek Flat.Reg 5 s = as_u32 ENTER_UNCONSTRAINED ->
  execute_cycle table s = Ok d1 s1 -> rtc in_block s1 s2 ->
  execute_cycle table s2 = Ok d3 s3 -> unconstrained s3 = false ->
  rv_eq (abs s3) (mkRvState (set_reg X5 0 (reg_val s)) (mem_val s) (pc (state s) +u 4)) /\
  executor_mode s3 = executor_mode s /\
  global_clk (state s3) = u64 (global_clk (state s) + 1) /\
  ((current_shard (state s3), clk (state s3)) = (current_shard (state s), clk (state s) +u 0 +u 4) \/
   (current_shard (state s3), clk (state s3)) = (current_shard (state s) +u 1, 0)).
Proof.
  intros U Hf Hec Hx5 E1 Hb E3 U3.
  destruct (enter_cycle s d1 s1 i U Hf Hec Hx5 E1) as (s0 & H1 & Hm & Hv & Hc).
  injection Hc as Hp Hk Hg Hs.
  destruct (block_cycle s0 s2 d3 s3 (block_forked s0 s1 s2 Hb H1) E3) as [H3|H3].
  { rewrite (fk_unconstrained _ _ H3) in U3. discriminate U3. }
  destruct H3 as [_ Lm Lp Lg Lk Lmem Lu]. rewrite Lm, Lg, <- Hp, <- Hk, <- Hg, <- Hs, Hm.
  split; [|done].
  assert (forall c a, entry_val c a s3 =
    if decide ((Flat.Reg, 5) = (c, Flat.key c a)) then 0 else entry_val c a s) as Hval.
  { intros c a. rewrite <- Hv. unfold entry_val, entry_record, init_value, mem_entry. rewrite Lmem, Lu.
    case_decide as Ek.
    - injection Ek as <- Ek. cbn in Ek. subst a. by rewrite flat_lookup_update_eq.
    - by rewrite flat_lookup_update_ne by exact Ek. }
  split_and!; cbn.
  - intros r. unfold reg_val, set_reg. rewrite Hval. cbn [Flat.key].
    destruct (Z.eqb_spec (reg_idx r) (reg_idx X5)) as [Er|Er].
    + by rewrite decide_True by (cbn in Er; by rewrite Er).
    + rewrite decide_False; [done|]. intros [= Ek]. by apply Er.
  - intros a. unfold mem_val. by rewrite Hval.
  - exact Lp.
Qed.
End Cycles.

(** ** A concrete block *)

Definition quiet_env : Env :=
  mkEnv (fun _ => None) false (fun _ _ _ => []) None id (fun _ _ _ => None).

Definition block_program : list Instruction :=
  [mkInstruction ECALL 5 10 11 false false; mkInstruction ADD 6 6 9 false true;
   mkInstruction ADD 5 0 4 true true; mkInstruction ECALL 5 10 11 false false].

(** [x5] holds the code of [ENTER_UNCONSTRAINED]. *)
Definition block_start : Executor :=
  upd_state (upd_memory (Flat.update Flat.Reg 5 (mkMemoryRecord 0 1 (as_u32 ENTER_UNCONSTRAINED))))
    (boot block_program).

(** [n] cycles, as long as they return. *)
Fixpoint cycles (n : nat) (s : Executor) : option Executor :=
  match n with
  | O => Some s
  | S n' => s' ← cycles n' s;
            match execute_cycle (default_syscall_map quiet_env) s' with
            | Ok _ s'' => Some s''
            | _ => None
            end
  end.

Lemma cycles_step n s s1 s2 : cycles n s = Some s1 -> cycles (S n) s = Some s2 ->
  exists d, execute_cycle (default_syscall_map quiet_env) s1 = Ok d s2.
Proof.
  intros E1 E2. cbn [cycles] in E2. rewrite E1 in E2. cbn [mbind option_bind] in E2.
  destruct (execute_cycle _ s1) as [d s'|e s'|]; [|discriminate E2..].
  injection E2 as <-. by exists d.
Qed.

Lemma unconstrained_block_is_one_cycle_witness :
  match cycles 4 block_start with
  | Some s' => rv_eq (abs s') (mkRvState (set_reg X5 0 (reg_val block_start)) (mem_val block_start)
                                 (pc (state block_start) +u 4))
  | None => False
  end.
Proof.
  assert (forall n, cycles n block_start = None -> fmap unconstrained (cycles n block_start) <> None -> False)
    as Hno by (intros n E H; rewrite E in H; by apply H).
  assert (forall n b s, cycles n block_start = Some s ->
    fmap unconstrained (cycles n block_start) = Some b -> unconstrained s = b) as Hu
    by (intros n b s E H; rewrite E in H; by injection H).
  destruct (cycles 1 block_start) as [s1|] eqn:C1; [|exfalso; apply (Hno 1%nat C1); vm_compute; discriminate].
  destruct (cycles 2 block_start) as [s2|] eqn:C2; [|exfalso; apply (Hno 2%nat C2); vm_compute; discriminate].
  destruct (cycles 3 block_start) as [s3|] eqn:C3; [|exfalso; apply (Hno 3%nat C3); vm_compute; discriminate].
  destruct (cycles 4 block_start) as [s4|] eqn:C4; [|exfalso; apply (Hno 4%nat C4); vm_compute; discriminate].
  destruct (cycles_step 0 _ _ _ eq_refl C1) as (d1 & E1).
  destruct (cycles_step 1 _ _ _ C1 C2) as (d2 & E2).
  destruct (cycles_step 2 _ _ _ C2 C3) as (d3 & E3).
  destruct (cycles_step 3 _ _ _ C3 C4) as (d4 & E4).
  refine (proj1 (unconstrained_block_is_one_cycle quiet_env block_start
    (mkInstruction ECALL 5 10 11 false false) d1 s1 s3 d4 s4 eq_refl eq_refl eq_refl eq_refl E1 _ E4 _)).
  - apply (rtc_l _ s1 s2 s3); [exists d2; split; [exact E2|]|apply rtc_once; exists d3; split; [exact E3|]].
    + apply (Hu 2%nat true s2 C2). vm_compute. reflexivity.
    + apply (Hu 3%nat true s3 C3). vm_compute. reflexivity.
  - apply (Hu 4%nat false s4 C4). vm_compute. reflexivity.
Defined.
