(* ===== verification/Termination.v ===== *)
(** * Termination under a cycle limit

    [ExceededCycleLimit] bounds [global_clk], but [EXIT_UNCONSTRAINED] sets
    [global_clk] back.  The executor still stops: [measure] decreases in every
    cycle, because a block costs the constrained execution one cycle and is
    itself bounded by the limit.  The executor's side is proved against the
    interface [ClockSafe] of the system call table; the default table
    implements it. *)

From Stdlib Require Import ZArith Lia Bool.
From stdpp Require Import base gmap list.
From S2P Require Import Prelude Monad Isa SyscallCode Memory Events ByteLookup Air Record Alu Dependencies State Executor Context Step Run Syscalls.
From S2P Require Import Curves Precompiles Access Refinement Trace Ordering Unconstrained.

Local Open Scope Z_scope.
Local Open Scope rv_scope.

(** What the cycle limit depends on. *)
Record Clock : Type := mkClock {
  ck_global : Z; ck_unconstrained : bool; ck_fork : Z; ck_limit : option Z
}.

Definition clock (s : Executor) : Clock :=
  mkClock (global_clk (state s)) (unconstrained s) (fork_global_clk (unconstrained_state s)) (max_cycles s).

Definition at_clock (t : Clock) (s : Executor) : Prop := clock s = t.

(** The interface: a system call other than the two block calls leaves the clock
    alone; the block calls fork it and set it back. *)
Class ClockSafe (syscall_map : SyscallCode -> option Syscall) : Prop := {
  clock_plain : forall code impl b c t,
    syscall_map code = Some impl -> code <> ENTER_UNCONSTRAINED -> code <> EXIT_UNCONSTRAINED ->
    keeps (on_rt (at_clock t)) (execute impl code b c);
  clock_enter : forall impl b c s r np ec s',
    syscall_map ENTER_UNCONSTRAINED = Some impl ->
    run_syscall impl ENTER_UNCONSTRAINED b c s = Ok (r, np, ec) s' ->
    clock s' = mkClock (global_clk (state s)) true (global_clk (state s)) (max_cycles s);
  clock_exit : forall impl b c s r np ec s',
    syscall_map EXIT_UNCONSTRAINED = Some impl ->
    run_syscall impl EXIT_UNCONSTRAINED b c s = Ok (r, np, ec) s' ->
    clock s' = mkClock (if unconstrained s then fork_global_clk (unconstrained_state s)
                        else global_clk (state s)) false 0 (max_cycles s)
}.

(** ** The executor's accesses *)

Lemma touch_clock cp c addr v sh ts s : clock (touch cp c addr v sh ts s).2 = clock s.
Proof.
  unfold touch. cbv zeta.
  set (s1 := if cp s then _ else _). assert (clock s1 = clock s) as <- by (subst s1; by destruct (cp s)).
  set (s2 := if unconstrained s1 then _ else _).
  assert (clock s2 = clock s1) as <- by (subst s2; by destruct (unconstrained s1)).
  unfold init_entry. by destruct (mem_entry c addr s2).
Qed.

Create HintDb ckdb.

(** Runs through a computation that leaves the clock alone. *)
Ltac ck :=
  repeat match goal with
  | |- forall _, _ => intros ?
  | |- keeps _ (when _ _) => apply keeps_when; intros _
  | |- keeps _ (bind _ _) => apply keeps_bind
  | |- keeps _ (if _ then _ else _) => case_match
  | |- keeps _ (match _ with _ => _ end) => case_match
  | |- keeps _ (ret _) => apply keeps_ret
  | |- keeps _ panic => apply keeps_panic
  | |- keeps _ (throw _) => apply keeps_throw
  | |- keeps _ (gets _) => apply keeps_gets
  | |- keeps _ (unwrap _) => apply keeps_unwrap
  | |- keeps _ (massert _) => apply keeps_massert
  | |- keeps _ (collect _ _) => apply keeps_collect; intros ?
  | |- keeps _ (for_each _ _) => apply keeps_for_each; intros ?
  | |- keeps _ (with_rt _) => apply keeps_with_rt
  | |- keeps _ (traced _) => apply keeps_traced; intros ?
  | |- keeps _ _ => solve [auto with ckdb]
  | |- keeps _ (modify _) => apply keeps_modify; let s := fresh in let H := fresh in intros s H; exact H
  end.

Section Keeps.
  Context (t : Clock).
  Local Abbreviation K := (keeps (E := ExecutionError) (at_clock t)).

Lemma ck_touchM cp c addr v sh ts : K (touchM cp c addr v sh ts).
Proof.
  intros s Hs. unfold touchM. pose proof (touch_clock cp c addr v sh ts s) as H.
  destruct (touch cp c addr v sh ts s) as [[? ?] ?]. cbn in *. unfold at_clock. by rewrite H.
Qed.

Hint Resolve ck_touchM : ckdb.

Lemma ck_accesses :
  (forall addr sh ts l, K (mr addr sh ts l)) /\ (forall addr v sh ts l, K (mw addr v sh ts l)) /\
  (forall r sh ts, K (rr r sh ts)) /\ (forall r v sh ts, K (rw r v sh ts)) /\
  (forall r sh ts l, K (rr_traced r sh ts l)) /\ (forall r v sh ts l, K (rw_traced r v sh ts l)) /\
  (forall a, K (word a)) /\ (forall r, K (register r)).
Proof.
  unfold mr, mw, rr, rw, rr_traced, rw_traced, word, register, count_local_mem, record_access.
  cbv zeta. split_and!; ck.
Qed.

Lemma ck_mr addr sh ts l : K (mr addr sh ts l).
Proof. apply ck_accesses. Qed.
Lemma ck_mw addr v sh ts l : K (mw addr v sh ts l).
Proof. apply ck_accesses. Qed.
Lemma ck_rr r sh ts : K (rr r sh ts).
Proof. apply ck_accesses. Qed.
Lemma ck_rw r v sh ts : K (rw r v sh ts).
Proof. apply ck_accesses. Qed.
Lemma ck_rr_traced r sh ts l : K (rr_traced r sh ts l).
Proof. apply ck_accesses. Qed.
Lemma ck_rw_traced r v sh ts l : K (rw_traced r v sh ts l).
Proof. apply ck_accesses. Qed.
Lemma ck_word a : K (word a).
Proof. apply ck_accesses. Qed.
Lemma ck_register r : K (register r).
Proof. apply ck_accesses. Qed.

Hint Resolve ck_mr ck_mw ck_rr ck_rw ck_rr_traced ck_rw_traced ck_word ck_register : ckdb.

Lemma ck_rr_cpu r p : K (rr_cpu r p).
Proof. unfold rr_cpu. ck. Qed.
Lemma ck_rw_cpu r v : K (rw_cpu r v).
Proof. unfold rw_cpu. cbv zeta. ck. Qed.
Lemma ck_mr_cpu a : K (mr_cpu a).
Proof. unfold mr_cpu. ck. Qed.
Lemma ck_mw_cpu a v : K (mw_cpu a v).
Proof. unfold mw_cpu. ck. Qed.
Lemma ck_byte a : K (byte a).
Proof. unfold byte. ck. Qed.

Hint Resolve ck_rr_cpu ck_rw_cpu ck_mr_cpu ck_mw_cpu ck_byte : ckdb.

Lemma ck_plain_dispatch syscall_map i k np :
  is_ecall_instruction i = false -> K (dispatch syscall_map i k np).
Proof.
  intros Hec. unfold dispatch. rewrite Hec. cbv zeta.
  unfold execute_alu, execute_load, execute_store, execute_branch, execute_jump, execute_auipc,
    alu_rr, alu_rw, load_rr, store_rr, branch_rr, checked. ck.
Qed.

Lemma ck_count_instruction i : K (count_instruction i).
Proof. unfold count_instruction. ck. Qed.

Lemma ck_finish i o : K (finish i o).
Proof.
  unfold finish, emit_events, emit_cpu, emit_alu_event, emit_mem_instr_event, emit_branch_event,
    emit_jump_event, emit_auipc_event, emit_syscall_event, modify_record. cbv zeta. ck.
Qed.

Lemma ck_end_shard : K end_shard_if_full.
Proof. unfold end_shard_if_full, check_shapes, bump_record. cbv zeta. ck. Qed.
End Keeps.

#[export] Hint Resolve ck_mr ck_mw ck_rr ck_rw ck_rr_traced ck_rw_traced ck_word ck_register
  ck_rr_cpu ck_rw_cpu ck_mr_cpu ck_mw_cpu ck_byte : ckdb.

(** ** The default table *)

Section Table.
  Context (t : Clock).
  Local Abbreviation K := (keeps (E := ExecutionError) (on_rt (at_clock t))).

Lemma ck_ctx f : (forall ctx, rt (f ctx) = rt ctx) -> K (modify f).
Proof. apply keeps_modify_ctx. Qed.

Lemma ck_postprocess : K postprocess.
Proof.
  unfold postprocess. ck.
  apply keeps_modify_rt. intros s Hs. unfold flush_local. by case_match.
Qed.

Lemma ck_add_event add clk_ code key a1 a2 ev :
  (forall k se e, K (add k se e)) -> K (emit_precompile add clk_ code key a1 a2 ev).
Proof. intros H. unfold emit_precompile, ctx_syscall_event. ck. Qed.

Lemma ck_record_add code se ev : K (record_add_precompile_event code se ev).
Proof. unfold record_add_precompile_event, modify_record. ck. Qed.

Hint Resolve ck_postprocess ck_record_add : ckdb.

Lemma ck_add code se ev : K (add_precompile_event code se ev).
Proof. unfold add_precompile_event. ck. Qed.

Hint Resolve ck_add ck_add_event : ckdb.

Lemma ck_ctx_ops :
  (forall a, K (ctx_mr a)) /\ (forall a v, K (ctx_mw a v)) /\ (forall a n, K (mr_slice a n)) /\
  (forall a l, K (mw_slice a l)) /\ (forall r, K (ctx_rr_traced r)) /\ (forall a n, K (slice_unsafe a n)) /\
  K get_clk /\ K get_shard /\ K tick /\ (forall p, K (assert_aligned p)).
Proof.
  unfold mr_slice, mw_slice, ctx_mr, ctx_mw, ctx_rr_traced, slice_unsafe, word_unsafe, get_clk, get_shard,
    tick, assert_aligned. split_and!; ck.
Qed.

Lemma ck_ctx_mr a : K (ctx_mr a).
Proof. apply ck_ctx_ops. Qed.
Lemma ck_mr_slice a n : K (mr_slice a n).
Proof. apply ck_ctx_ops. Qed.
Lemma ck_mw_slice a l : K (mw_slice a l).
Proof. apply ck_ctx_ops. Qed.
Lemma ck_ctx_mw a v : K (ctx_mw a v).
Proof. apply ck_ctx_ops. Qed.
Lemma ck_ctx_rr r : K (ctx_rr_traced r).
Proof. apply ck_ctx_ops. Qed.
Lemma ck_slice_unsafe a n : K (slice_unsafe a n).
Proof. apply ck_ctx_ops. Qed.
Lemma ck_get_clk : K get_clk.
Proof. apply ck_ctx_ops. Qed.
Lemma ck_get_shard : K get_shard.
Proof. apply ck_ctx_ops. Qed.
Lemma ck_tick : K tick.
Proof. apply ck_ctx_ops. Qed.
Lemma ck_aligned p : K (assert_aligned p).
Proof. apply ck_ctx_ops. Qed.

Hint Resolve ck_ctx_mr ck_mr_slice ck_mw_slice ck_ctx_mw ck_ctx_rr ck_slice_unsafe ck_get_clk
  ck_get_shard ck_tick ck_aligned : ckdb.

Lemma ck_compress_loop w ks v : K (compress_loop w ks v).
Proof. revert v. induction ks as [|[i k] ks IH]; intros v; cbn [compress_loop]; ck. Qed.

Lemma ck_write_bytes hook allow dep fd slice :
  keeps (at_clock t) (write_bytes hook allow dep fd slice).
Proof.
  unfold write_bytes, update_io_buf, handle_cycle_tracker_command, start_cycle_tracker, end_cycle_tracker.
  ck; apply keeps_modify; intros s Hs; repeat case_match; simplify_eq/=; exact Hs.
Qed.

Lemma ck_hint_store a w : K (hint_store a w).
Proof. unfold hint_store. ck; by apply keeps_modify_rt. Qed.

Hint Resolve ck_compress_loop ck_write_bytes ck_hint_store : ckdb.

Lemma ck_events_ec E p q :
  K (create_ec_add_event E p q) /\ K (create_ec_double_event E p) /\
  (forall f, K (create_ec_decompress_event f E p q)).
Proof.
  unfold create_ec_add_event, create_ec_double_event, create_ec_decompress_event. cbv zeta.
  split_and!; ck.
Qed.

Lemma ck_ec_add E p q : K (create_ec_add_event E p q).
Proof. apply ck_events_ec. Qed.
Lemma ck_ec_double E p : K (create_ec_double_event E p).
Proof. by apply (ck_events_ec E p 0). Qed.
Lemma ck_ec_decompress f E p q : K (create_ec_decompress_event f E p q).
Proof. apply ck_events_ec. Qed.

Hint Resolve ck_ec_add ck_ec_double ck_ec_decompress : ckdb.

Lemma ck_sha code b c :
  K (execute Sha256ExtendSyscall code b c) /\ K (execute Sha256CompressSyscall code b c) /\
  (forall f, K (execute (Keccak256PermuteSyscall f) code b c)).
Proof.
  unfold Sha256ExtendSyscall, Sha256CompressSyscall, Keccak256PermuteSyscall, extend_step.
  cbn [execute]. cbv zeta. split_and!; ck.
Qed.

Lemma ck_bigint code b c :
  K (execute Uint256MulSyscall code b c) /\ K (execute U256xU2048MulSyscall code b c).
Proof.
  unfold Uint256MulSyscall, U256xU2048MulSyscall. cbn [execute]. cbv zeta. split_and!; ck.
Qed.

Lemma ck_field P code b c :
  (forall op, K (execute (FpOpSyscall P op) code b c)) /\
  (forall op, K (execute (Fp2AddSubSyscall P op) code b c)) /\ K (execute (Fp2MulSyscall P) code b c).
Proof.
  unfold FpOpSyscall, Fp2AddSubSyscall, Fp2MulSyscall. cbn [execute]. cbv zeta. split_and!; ck.
Qed.

Lemma ck_curve E code b c :
  K (execute (WeierstrassAddAssignSyscall E) code b c) /\
  K (execute (WeierstrassDoubleAssignSyscall E) code b c) /\
  (forall f, K (execute (WeierstrassDecompressSyscall f E) code b c)) /\
  K (execute (EdwardsAddAssignSyscall E) code b c) /\ K (execute EdwardsDecompressSyscall code b c).
Proof.
  unfold WeierstrassAddAssignSyscall, WeierstrassDoubleAssignSyscall, WeierstrassDecompressSyscall,
    EdwardsAddAssignSyscall, EdwardsDecompressSyscall. cbn [execute]. cbv zeta. split_and!; ck.
Qed.

Lemma ck_basic code b c :
  K (execute HaltSyscall code b c) /\ K (execute CommitSyscall code b c) /\
  K (execute CommitDeferredSyscall code b c) /\ K (execute HintLenSyscall code b c) /\
  K (execute HintReadSyscall code b c) /\ (forall v, K (execute (VerifySyscall v) code b c)) /\
  (forall h a d, K (execute (WriteSyscall h a d) code b c)).
Proof.
  unfold HaltSyscall, CommitSyscall, CommitDeferredSyscall, HintLenSyscall, HintReadSyscall, VerifySyscall,
    WriteSyscall, set_digest, modify_record, panic_if_input_exhausted, set_next_pc, set_exit_code,
    register_unsafe, byte_unsafe. cbn [execute]. cbv zeta. split_and!; ck.
Qed.
End Table.

Lemma default_clock_plain env code impl b c t :
  default_syscall_map env code = Some impl -> code <> ENTER_UNCONSTRAINED -> code <> EXIT_UNCONSTRAINED ->
  keeps (on_rt (at_clock t)) (execute impl code b c).
Proof.
  intros E H1 H2.
  destruct code; cbn [default_syscall_map] in E; try (exfalso; apply H1; reflexivity);
    try (exfalso; apply H2; reflexivity); apply (inj Some) in E; subst impl.
  all: lazymatch goal with
       | |- keeps _ (execute HaltSyscall _ _ _) => apply (proj1 (ck_basic _ _ _ _))
       | |- keeps _ (execute CommitSyscall _ _ _) => apply (proj1 (proj2 (ck_basic _ _ _ _)))
       | |- keeps _ (execute CommitDeferredSyscall _ _ _) => apply (proj1 (proj2 (proj2 (ck_basic _ _ _ _))))
       | |- keeps _ (execute HintLenSyscall _ _ _) => apply (proj1 (proj2 (proj2 (proj2 (ck_basic _ _ _ _)))))
       | |- keeps _ (execute HintReadSyscall _ _ _) => apply (proj1 (proj2 (proj2 (proj2 (proj2 (ck_basic _ _ _ _))))))
       | |- keeps _ (execute (VerifySyscall _) _ _ _) => apply (proj1 (proj2 (proj2 (proj2 (proj2 (proj2 (ck_basic _ _ _ _)))))))
       | |- keeps _ (execute (WriteSyscall _ _ _) _ _ _) => apply (proj2 (proj2 (proj2 (proj2 (proj2 (proj2 (ck_basic _ _ _ _)))))))
       | |- keeps _ (execute Sha256ExtendSyscall _ _ _) => apply (proj1 (ck_sha _ _ _ _))
       | |- keeps _ (execute Sha256CompressSyscall _ _ _) => apply (proj1 (proj2 (ck_sha _ _ _ _)))
       | |- keeps _ (execute (Keccak256PermuteSyscall _) _ _ _) => apply (proj2 (proj2 (ck_sha _ _ _ _)))
       | |- keeps _ (execute Uint256MulSyscall _ _ _) => apply (proj1 (ck_bigint _ _ _ _))
       | |- keeps _ (execute U256xU2048MulSyscall _ _ _) => apply (proj2 (ck_bigint _ _ _ _))
       | |- keeps _ (execute (FpOpSyscall ?P _) _ _ _) => apply (proj1 (ck_field _ P _ _ _))
       | |- keeps _ (execute (Fp2AddSubSyscall ?P _) _ _ _) => apply (proj1 (proj2 (ck_field _ P _ _ _)))
       | |- keeps _ (execute (Fp2MulSyscall ?P) _ _ _) => apply (proj2 (proj2 (ck_field _ P _ _ _)))
       | |- keeps _ (execute (WeierstrassAddAssignSyscall ?P) _ _ _) => apply (proj1 (ck_curve _ P _ _ _))
       | |- keeps _ (execute (WeierstrassDoubleAssignSyscall ?P) _ _ _) => apply (proj1 (proj2 (ck_curve _ P _ _ _)))
       | |- keeps _ (execute (WeierstrassDecompressSyscall _ ?P) _ _ _) => apply (proj1 (proj2 (proj2 (ck_curve _ P _ _ _))))
       | |- keeps _ (execute (EdwardsAddAssignSyscall ?P) _ _ _) => apply (proj1 (proj2 (proj2 (proj2 (ck_curve _ P _ _ _)))))
       | |- keeps _ (execute EdwardsDecompressSyscall _ _ _) => apply (proj2 (proj2 (proj2 (proj2 (ck_curve _ Ed25519_curve _ _ _)))))
       end.
Qed.

#[export] Instance default_clock_safe env : ClockSafe (default_syscall_map env).
Proof.
  split.
  - intros code impl b c t. apply default_clock_plain.
  - intros impl b c s r np ec s' [= <-] E. unfold run_syscall, EnterUnconstrainedSyscall in E.
    cbn [execute] in E. unfold bind at 1, gets at 1 in E. change (rt (id (SyscallContext_new s))) with s in E.
    destruct (unconstrained s); [discriminate E|]. injection E as _ _ _ <-. reflexivity.
  - intros impl b c s r np ec s' [= <-] E. unfold run_syscall, ExitUnconstrainedSyscall in E.
    cbn [execute] in E. unfold bind at 1, gets at 1 in E. change (rt (id (SyscallContext_new s))) with s in E.
    destruct (unconstrained s) eqn:U.
    + destruct (apply_diff _ _) as [m|]; [|discriminate E]. injection E as _ _ _ <-. reflexivity.
    + injection E as _ _ _ <-. unfold clock. cbn. by rewrite U.
Qed.

(** ** The measure *)

Definition clock_wf (L : Z) (t : Clock) : Prop :=
  ck_limit t = Some L /\ 0 <= ck_global t < L /\ L < 2 ^ 64 /\
  (ck_unconstrained t = true -> 0 <= ck_fork t <= ck_global t).

(** The constrained progress first, then the progress of the block. *)
Definition measure (L : Z) (t : Clock) : Z :=
  let base := if ck_unconstrained t then ck_fork t else ck_global t in
  (L - base) * (L + 1) + (L - ck_global t).

Lemma measure_nonneg L t : clock_wf L t -> 0 <= measure L t.
Proof.
  intros (_ & Hg & _ & Hf). unfold measure. destruct (ck_unconstrained t); [specialize (Hf eq_refl)|]; nia.
Qed.

(** How one cycle moves the clock. *)
Inductive ticks : Clock -> Clock -> Prop :=
| tick_plain g u f l : ticks (mkClock g u f l) (mkClock (u64 (g + 1)) u f l)
| tick_enter g f l : ticks (mkClock g false f l) (mkClock (u64 (g + 1)) true g l)
| tick_exit g f l : ticks (mkClock g true f l) (mkClock (u64 (f + 1)) false 0 l)
| tick_exit_outside g f l : ticks (mkClock g false f l) (mkClock (u64 (g + 1)) false 0 l).

Lemma ticks_measure L t t' : clock_wf L t -> ticks t t' -> ck_global t' < L ->
  clock_wf L t' /\ measure L t' < measure L t.
Proof.
  intros (Hl & Hg & HL & Hf) T. assert (forall x, 0 <= x < L -> u64 (x + 1) = x + 1) as Hu.
  { intros x Hx. unfold u64, wrap. apply Z.mod_small. lia. }
  destruct T; cbn [ck_limit ck_global ck_unconstrained ck_fork] in *; unfold clock_wf, measure;
    cbn [ck_limit ck_global ck_unconstrained ck_fork]; intros Hlt;
    try specialize (Hf eq_refl); rewrite Hu in * by lia.
  - split; [split_and!; [done|lia|lia|lia|]|].
    + intros ->. specialize (Hf eq_refl). lia.
    + destruct u; nia.
  - split; [split_and!; [done|lia|lia|lia|lia]|]. nia.
  - split; [split_and!; [done|lia|lia|lia|discriminate]|]. nia.
  - split; [split_and!; [done|lia|lia|lia|discriminate]|]. nia.
Qed.

Section Loop.
  Context (syscall_map : SyscallCode -> option Syscall) `{!ClockSafe syscall_map}.

(** The clock after the [ECALL] dispatch, before the cycle counter advances. *)
Definition after_ecall (t t' : Clock) : Prop :=
  t' = t \/ (ck_unconstrained t = false /\ t' = mkClock (ck_global t) true (ck_global t) (ck_limit t)) \/
  t' = mkClock (if ck_unconstrained t then ck_fork t else ck_global t) false 0 (ck_limit t).

Lemma run_syscall_clock code impl b c s r np ec s' :
  syscall_map code = Some impl ->
  (unconstrained s = true -> code <> ENTER_UNCONSTRAINED) ->
  run_syscall impl code b c s = Ok (r, np, ec) s' -> after_ecall (clock s) (clock s').
Proof.
  intros Hm Hu E.
  destruct (decide (code = ENTER_UNCONSTRAINED)) as [->|H1].
  { right. left. split; [|by eapply clock_enter]. cbn. destruct (unconstrained s); [|done].
    by destruct (Hu eq_refl). }
  destruct (decide (code = EXIT_UNCONSTRAINED)) as [->|H2].
  { right. right. by eapply clock_exit. }
  left. unfold run_syscall in E.
  pose proof (clock_plain code impl b c (clock s) Hm H1 H2 (SyscallContext_new s) eq_refl) as H.
  destruct (execute impl code b c _) as [r' ctx|e ctx|]; try discriminate E.
  injection E as _ _ _ <-. exact H.
Qed.

Lemma ecall_clock s o s' : execute_ecall syscall_map s = Ok o s' -> after_ecall (clock s) (clock s').
Proof.
  intros E. unfold execute_ecall in E.
  apply bind_inv_ok in E as (id_ & sa & E1 & E). pose proof (ck_register (clock s) X5 s eq_refl) as Ha.
  rewrite E1 in Ha. apply bind_inv_ok in E as (c & sb & E2 & E).
  pose proof (ck_rr_cpu (clock s) X11 PC sa Ha) as Hb. rewrite E2 in Hb.
  apply bind_inv_ok in E as (b & sc & E3 & E). pose proof (ck_rr_cpu (clock s) X10 PB sb Hb) as Hc.
  rewrite E3 in Hc. rewrite <- Hc. clear Hc Hb Ha E1 E2 E3 s sa sb.
  destruct (from_u32 id_) as [code|]; [|discriminate E].
  unfold unwrap at 1 in E. rewrite bind_ret_l in E. unfold bind at 1, gets at 1 in E.
  change (id sc) with sc in E. apply bind_inv_ok in E as ([] & sd & Ed & E).
  assert (clock sd = clock sc) as <- by (destruct (_ && _); injection Ed as <-; done).
  assert (unconstrained sd = unconstrained sc) as Hu by (destruct (_ && _); injection Ed as <-; done).
  rewrite <- Hu in E. clear Ed Hu.
  destruct (unconstrained sd && _) eqn:Hcode; [discriminate E|]. rewrite bind_ret_l in E.
  assert (unconstrained sd = true -> code <> ENTER_UNCONSTRAINED) as Hne.
  { intros U ->. rewrite U in Hcode. discriminate Hcode. }
  unfold bind at 1, modify in E. set (se := upd_state _ sd) in E.
  change (clock sd) with (clock se). change (unconstrained sd) with (unconstrained se) in Hne.
  destruct (syscall_map code) as [impl|] eqn:Hm; [|discriminate E].
  apply bind_inv_ok in E as ([[r np] ec] & sf & Ef & E).
  pose proof (run_syscall_clock code impl b c se r np ec sf Hm Hne Ef) as Hstep.
  apply bind_inv_ok in E as ([] & sg & Eg & E).
  assert (sg = sf) as ->.
  { destruct (code_eqb code HALT && negb (ec =? 0)); [discriminate Eg | by injection Eg as <-]. }
  apply bind_inv_ok in E as ([b' c'] & sh & Eh & E).
  assert (clock sh = clock sf) as Hh.
  { destruct (code_eqb code EXIT_UNCONSTRAINED); [|by injection Eh as _ _ <-].
    apply bind_inv_ok in Eh as (b2 & s1 & E1 & Eh). apply bind_inv_ok in Eh as (c2 & s2 & E2 & Eh).
    injection Eh as _ _ <-. pose proof (ck_register (clock sf) X10 sf eq_refl) as H1. rewrite E1 in H1.
    pose proof (ck_register (clock sf) X11 s1 H1) as H2. rewrite E2 in H2. exact H2. }
  apply bind_inv_ok in E as ([] & si & Ei & E).
  pose proof (ck_rw_cpu (clock sf) X5 (default id_ r) sh Hh) as Hi. rewrite Ei in Hi.
  unfold bind, gets, modify, ret in E. injection E as _ <-.
  change (after_ecall (clock se) (clock si)). by rewrite Hi.
Qed.

Lemma cycle_ticks s d s' : execute_cycle syscall_map s = Ok d s' -> ticks (clock s) (clock s').
Proof.
  intros E. destruct (execute_cycle_inv _ _ _ _ E) as (i & s4 & _ & E4 & Eend & _).
  pose proof (ck_end_shard (clock (upd_state (upd_global_clk (fun n => u64 (n + 1))) s4)) _ eq_refl) as Hend.
  rewrite Eend in Hend. rewrite Hend. clear Eend Hend E.
  unfold execute_instruction in E4. unfold bind at 1, gets at 1 in E4. change (id s) with s in E4.
  apply bind_inv_ok in E4 as ([] & s1 & E1 & E4).
  assert (clock s1 = clock s) as <- by (destruct (is_trace s); by injection E1 as <-).
  apply bind_inv_ok in E4 as ([] & s2 & E2 & E4).
  pose proof (ck_count_instruction (clock s1) i s1 eq_refl) as H2. rewrite E2 in H2. rewrite <- H2.
  apply bind_inv_ok in E4 as (o & s3 & E3 & E4).
  assert (after_ecall (clock s2) (clock s3)) as H3.
  { destruct (is_ecall_instruction i) eqn:Hec.
    - rewrite dispatch_ecall in E3 by done. by eapply ecall_clock.
    - left. pose proof (ck_plain_dispatch (clock s2) syscall_map i (clk (state s)) (pc (state s) +u 4) Hec s2
        eq_refl) as H3.
      rewrite E3 in H3. exact H3. }
  pose proof (ck_finish (clock s3) i o s3 eq_refl) as H4. rewrite E4 in H4.
  assert (clock (upd_state (upd_global_clk (fun n => u64 (n + 1))) s4) =
    mkClock (u64 (ck_global (clock s3) + 1)) (ck_unconstrained (clock s3)) (ck_fork (clock s3))
      (ck_limit (clock s3))) as -> by (rewrite <- H4; reflexivity).
  destruct (clock s2) as [g u f l]. destruct H3 as [-> | [[Hu ->] | ->]]; cbn in *.
  - constructor.
  - subst u. constructor.
  - destruct u; constructor.
Qed.

Lemma cycle_measure L s d s' : clock_wf L (clock s) -> execute_cycle syscall_map s = Ok d s' ->
  clock_wf L (clock s') /\ measure L (clock s') < measure L (clock s).
Proof.
  intros H E. pose proof (cycle_ticks s d s' E) as T.
  destruct (execute_cycle_inv _ _ _ _ E) as (i & s1 & _ & _ & _ & _ & Hlim).
  apply ticks_measure; [done | done |]. apply Hlim.
  assert (ck_limit (clock s') = ck_limit (clock s)) as El by (by destruct T).
  cbn in El. rewrite El. apply (proj1 H).
Qed.

(** With more fuel than the measure the loop breaks, fails or panics. *)
Lemma execute_loop_terminates L fuel : forall cs n s,
  clock_wf L (clock s) -> measure L (clock s) < Z.of_nat fuel ->
  match execute_loop syscall_map fuel cs n s with
  | Ok None _ => False
  | Ok (Some d) s' => clock_wf L (clock s') /\ measure L (clock s') < measure L (clock s)
  | _ => True
  end.
Proof.
  induction fuel as [|fuel IH]; intros cs n s Hw Hm; [pose proof (measure_nonneg L (clock s) Hw); lia|].
  cbn [execute_loop]. unfold bind at 1.
  destruct (execute_cycle syscall_map s) as [d s1|e s1|] eqn:E; [|exact I..].
  destruct (cycle_measure L s d s1 Hw E) as [Hw1 Hm1].
  destruct d; [split; assumption|]. unfold bind at 1, gets at 1. change (id s1) with s1.
  assert (forall cs n, match execute_loop syscall_map fuel cs n s1 with
    | Ok None _ => False
    | Ok (Some d) s' => clock_wf L (clock s') /\ measure L (clock s') < measure L (clock s)
    | _ => True end) as Hrec.
  { intros cs' n'. specialize (IH cs' n' s1 Hw1 ltac:(lia)).
    destruct (execute_loop _ _ _ _ s1) as [[b|] s2|e s2|]; [|done..]. destruct IH. split; [done | lia]. }
  destruct (_ && _); [|apply Hrec]. cbv zeta. destruct (_ =? _); [split; assumption | apply Hrec].
Qed.

Lemma initialize_clock t : keeps (at_clock t) initialize.
Proof. unfold initialize. ck. Qed.

Lemma bump_record_clock t : keeps (at_clock t) bump_record.
Proof. unfold bump_record. ck. Qed.

Lemma run_postprocess_clock t : keeps (at_clock t) run_postprocess.
Proof. unfold run_postprocess. cbv zeta. ck. Qed.

Hint Resolve initialize_clock bump_record_clock run_postprocess_clock : ckdb.

Lemma close_batch_clock t start done : keeps (at_clock t) (close_batch start done).
Proof. unfold close_batch. cbv zeta. ck. Qed.

Lemma close_batch_some start done s : match close_batch start done s with Ok None _ => False | _ => True end.
Proof.
  unfold close_batch. cbv zeta. unfold bind at 1, gets at 1.
  unfold bind at 1. destruct (when done _ _) as [[] s1|e s1|]; [|exact I..].
  unfold bind at 1, gets at 1. unfold bind at 1. destruct (when _ _ _) as [[] s2|e s2|]; [|exact I..].
  exact I.
Qed.

Lemma execute_batch_terminates L fuel s :
  clock_wf L (clock s) -> measure L (clock s) < Z.of_nat fuel ->
  match execute_batch syscall_map fuel s with
  | Ok None _ => False
  | Ok (Some d) s' => clock_wf L (clock s') /\ measure L (clock s') < measure L (clock s)
  | _ => True
  end.
Proof.
  intros Hw Hm. unfold execute_batch. unfold bind at 1, gets at 1. change (id s) with s. cbv zeta.
  assert (keeps (at_clock (clock s)) (when (global_clk (state s) =? 0) initialize)) as Hi by ck.
  specialize (Hi s eq_refl). unfold bind at 1.
  destruct (when _ _ s) as [[] s1|e s1|]; [|exact I..]. unfold at_clock in Hi.
  unfold bind at 1, gets at 1. change (id s1) with s1. unfold bind at 1.
  rewrite <- Hi in Hw, Hm |- *.
  pose proof (execute_loop_terminates L fuel (current_shard (state s1)) 0 s1 Hw Hm) as Hl.
  destruct (execute_loop _ _ _ _ s1) as [[dn|] s2|e s2|]; [|done..].
  change (match close_batch (current_shard (state s)) dn s2 with
    | Ok None _ => False
    | Ok (Some d) s' => clock_wf L (clock s') /\ measure L (clock s') < measure L (clock s1)
    | _ => True end).
  pose proof (close_batch_some (current_shard (state s)) dn s2) as Hs.
  pose proof (close_batch_clock (clock s2) (current_shard (state s)) dn s2 eq_refl) as Hc.
  destruct (close_batch _ _ s2) as [[d|] s3|e s3|]; [|done..]. unfold at_clock in Hc. by rewrite Hc.
Qed.

Lemma until_done_terminates L rounds fuel : forall s,
  clock_wf L (clock s) -> measure L (clock s) < Z.of_nat fuel -> measure L (clock s) < Z.of_nat rounds ->
  match execute_until_done syscall_map rounds fuel s with Ok None _ => False | _ => True end.
Proof.
  induction rounds as [|rounds IH]; intros s Hw Hf Hr; [pose proof (measure_nonneg L (clock s) Hw); lia|].
  cbn [execute_until_done]. unfold bind at 1.
  pose proof (execute_batch_terminates L fuel s Hw Hf) as Hb.
  destruct (execute_batch _ fuel s) as [[[]|] s1|e s1|]; try done.
  destruct Hb as [Hw1 Hm1]. apply IH; [done | lia | lia].
Qed.
End Loop.

(** C20. With a cycle limit the executor stops: [run], given enough fuel for the
    limit, finishes, reports an error or panics, and never runs on, although leaving an
    unconstrained block sets the cycle counter back. *)
Theorem run_terminates env L s rounds fuel :
  clock_wf L (clock s) -> measure L (clock s) < Z.of_nat fuel -> measure L (clock s) < Z.of_nat rounds ->
  match run (default_syscall_map env) rounds fuel s with Ok None _ => False | _ => True end.
Proof.
  intros Hw Hf Hr. unfold run. unfold bind at 1, modify at 1. unfold bind at 1, modify at 1.
  by apply (until_done_terminates _ L).
Qed.

Definition limited : Executor := upd_max_cycles (fun _ => Some 3) (boot [mkInstruction JAL 0 0 0 true true]).

Lemma run_terminates_witness :
  clock_wf 3 (clock limited) /\
  match run (default_syscall_map quiet_env) 20 20 limited with Ok None _ => False | _ => True end.
Proof.
  assert (clock_wf 3 (clock limited)) as H by (split_and!; cbn; [reflexivity | lia | lia | lia | discriminate]).
  split; [exact H|].
  apply (run_terminates quiet_env 3 limited 20 20 H); apply Z.ltb_lt; vm_compute; reflexivity.
Defined.
