(* ===== verification/Hints.v ===== *)
(** * Hints (crates/core/executor/src/syscalls/hint.rs)

    [HINT_LEN] and [HINT_READ] hand the host's input to the program: the bytes
    of the next input vector become the initial contents of untouched memory.
    The last section shows what happens below address 32, where the same call
    reaches the registers. *)

From Stdlib Require Import ZArith Lia Bool.
From stdpp Require Import base gmap list.
From S2P Require Import Prelude Monad Isa SyscallCode Memory Events ByteLookup Air Record Alu Dependencies State Executor Context Step Run Syscalls.
From S2P Require Import Curves Precompiles Access Refinement Trace Ordering Unconstrained.

Local Open Scope Z_scope.
Local Open Scope rv_scope.

Lemma in_range_below a : 0 <= a < 2013331456 -> Flat.in_range a = true.
Proof. intros H. apply in_range_iff; lia. Qed.

(** The word of the hint at byte offset [i] exists below the length. *)
Lemma hint_word_some vec i : 0 <= i < Z.of_nat (length vec) -> exists w, hint_word vec i = Some w.
Proof.
  intros H. unfold hint_word. destruct (lookup_lt_is_Some_2 vec (Z.to_nat i)) as [b ->]; [lia|].
  by eexists.
Qed.

Section Loop.
  Context (vec : list Z) (ptr : Z).
  Hypothesis Hptr : 32 <= ptr.
  Hypothesis Hal : ptr mod 4 = 0.

(** The body of the loop of [HINT_READ]. *)
Definition hint_body (i : Z) : CM unit := w <- unwrap (hint_word vec i) ;; hint_store (ptr +u i) w.

(** [a] is one of the words [j], ..., [j + n - 1] of the hint. *)
Definition hinted_word (j : Z) (n : nat) (a : Z) : bool :=
  (ptr + 4 * j <=? a) && (a <? ptr + 4 * (j + Z.of_nat n)).

Lemma hint_loop n : forall j ctx,
  0 <= j -> 4 * (j + Z.of_nat n) < Z.of_nat (length vec) + 4 ->
  ptr + 4 * (j + Z.of_nat n) <= 2013331456 ->
  (forall a, a mod 4 = 0 -> hinted_word j n a = true ->
     Flat.lookup Flat.Page a (uninitialized_memory (state (rt ctx))) = None) ->
  exists u' f,
    for_each (map (fun k => 4 * k) (zseq j n)) hint_body ctx = Ok tt (upd_rt (fun s =>
      upd_state (upd_uninitialized_memory (fun _ => u')) (upd_uninitialized_memory_checkpoint f s)) ctx) /\
    Flat.registers u' = Flat.registers (uninitialized_memory (state (rt ctx))) /\
    forall a, a mod 4 = 0 -> Flat.lookup Flat.Page a u' =
      if hinted_word j n a then hint_word vec (a - ptr)
      else Flat.lookup Flat.Page a (uninitialized_memory (state (rt ctx))).
Proof.
  induction n as [|n IH]; intros j ctx Hj Hlen Hr Hfresh.
  - exists (uninitialized_memory (state (rt ctx))), id. split_and!; [|done|].
    + cbn. f_equal. destruct ctx as [? ? ? ? s ?]. destruct s as [? st]. by destruct st.
    + intros a _. unfold hinted_word. replace (j + Z.of_nat 0) with j by lia.
      destruct (Z.leb_spec (ptr + 4 * j) a), (Z.ltb_spec a (ptr + 4 * j)); try lia; done.
  - rewrite zseq_S. cbn [map for_each]. unfold bind at 1, hint_body at 1.
    destruct (hint_word_some vec (4 * j)) as [w Hw]; [lia|]. rewrite Hw.
    unfold unwrap. rewrite bind_ret_l.
    assert (ptr +u 4 * j = ptr + 4 * j) as Ea by (unfold wadd; apply u32_small, is_u32_iff; lia).
    assert ((ptr + 4 * j) mod 4 = 0) as Ham by (Z.to_euclidean_division_equations; lia).
    rewrite Ea. unfold hint_store. rewrite (in_range_below (ptr + 4 * j)) by lia.
    replace ((ptr + 4 * j <? 32) || true) with true by (by destruct (_ <? _)).
    assert (comp_of (ptr + 4 * j) = Flat.Page) as Ec
      by (unfold comp_of; by rewrite (proj2 (Z.ltb_ge _ 32)) by lia).
    rewrite Ec. cbn [massert]. rewrite bind_ret_l. unfold bind at 1, modify at 1.
    unfold bind at 1, gets at 1. cbn [rt upd_rt id state upd_uninitialized_memory_checkpoint].
    rewrite Hfresh; [|done|]; cycle 1.
    { unfold hinted_word. rewrite andb_true_iff, Z.leb_le, Z.ltb_lt. lia. }
    cbn [massert]. rewrite bind_ret_l. unfold modify at 1.
    match goal with |- context [for_each _ _ ?c] => set (ctx1 := c) end.
    assert (forall a, a mod 4 = 0 ->
      Flat.lookup Flat.Page a (uninitialized_memory (state (rt ctx1))) =
      if decide (a = ptr + 4 * j) then Some w
      else Flat.lookup Flat.Page a (uninitialized_memory (state (rt ctx)))) as Hu1.
    { intros a Ha. subst ctx1. cbn [rt upd_rt state upd_state uninitialized_memory upd_uninitialized_memory].
      case_decide as E; [subst a; apply flat_lookup_update_eq|]. apply flat_lookup_update_ne.
      intros [= Ek]. apply E. rewrite !compress_div in Ek. Z.to_euclidean_division_equations; lia. }
    destruct (IH (j + 1) ctx1) as (u' & f & El & Hreg & Hu); [lia..| |].
    { intros a Ha Hin. rewrite Hu1 by done. unfold hinted_word in Hin. zbool.
      rewrite decide_False by lia. apply Hfresh; [done|]. unfold hinted_word.
      rewrite andb_true_iff, Z.leb_le, Z.ltb_lt. lia. }
    rewrite El. exists u', (fun m => f (Flat.or_insert Flat.Page (ptr + 4 * j) false m)). split_and!; [reflexivity | exact Hreg |].
    intros a Ha. rewrite Hu, Hu1 by done. unfold hinted_word.
    destruct (decide (a = ptr + 4 * j)) as [->|Hne].
    + rewrite (proj2 (Z.leb_gt _ _)) by lia. cbn [andb].
      rewrite (proj2 (Z.leb_le _ _)), (proj2 (Z.ltb_lt _ _)) by lia. cbn [andb].
      replace (ptr + 4 * j - ptr) with (4 * j) by lia. by rewrite Hw.
    + assert ((ptr + 4 * (j + 1) <=? a) = (ptr + 4 * j <=? a)) as ->.
      { destruct (Z.leb_spec (ptr + 4 * (j + 1)) a), (Z.leb_spec (ptr + 4 * j) a); try done; try lia.
        exfalso. apply Hne. Z.to_euclidean_division_equations; lia. }
      by replace (j + 1 + Z.of_nat n) with (j + Z.of_nat (S n)) by lia.
Qed.
End Loop.

(** ** The bytes of the hint *)

Lemma byte_at_le_bytes b0 b1 b2 b3 k : Forall is_u8 [b0; b1; b2; b3] -> 0 <= k < 4 ->
  [b0; b1; b2; b3] !! Z.to_nat k = Some (byte_at (from_le_bytes32 b0 b1 b2 b3) k).
Proof.
  rewrite !Forall_cons, !is_u8_iff. intros (H0 & H1 & H2 & H3 & _) Hk.
  assert (k = 0 \/ k = 1 \/ k = 2 \/ k = 3) as [-> | [-> | [-> | ->]]] by lia;
    cbn [Z.to_nat]; unfold byte_at, from_le_bytes32;
    [change (Z.to_nat 0) with 0%nat | change (Z.to_nat 1) with 1%nat | change (Z.to_nat 2) with 2%nat
     | change (Z.to_nat 3) with 3%nat]; cbn [lookup list_lookup];
    f_equal; [change (2 ^ (8 * 0)) with 1 | change (2 ^ (8 * 1)) with 256
     | change (2 ^ (8 * 2)) with 65536 | change (2 ^ (8 * 3)) with 16777216];
    Z.to_euclidean_division_equations; lia.
Qed.

(** Byte [k] of the hint is byte [k mod 4] of its word. *)
Lemma hint_word_byte vec k b : Forall is_u8 vec -> 0 <= k -> vec !! Z.to_nat k = Some b ->
  exists w, hint_word vec (align k) = Some w /\ byte_at w (k mod 4) = b.
Proof.
  intros Hv Hk Hb. unfold hint_word, align.
  assert (Z.to_nat k < length vec)%nat as Hlen by (by eapply lookup_lt_Some).
  assert (0 <= k mod 4 < 4 /\ k mod 4 <= k) as [Hm Hle]
    by (split; [apply Z.mod_pos_bound; lia | apply Z.mod_le; lia]).
  set (i := k - k mod 4). assert (0 <= i <= k) as Hi by (subst i; lia).
  destruct (lookup_lt_is_Some_2 vec (Z.to_nat i)) as [b0 Eb0]; [lia|]. rewrite Eb0. cbn [mbind option_bind].
  eexists. split; [reflexivity|].
  assert (forall j, is_u8 (default 0 (vec !! Z.to_nat j))) as Hd.
  { intros j. destruct (vec !! Z.to_nat j) eqn:E; [|by apply is_u8_iff].
    by eapply Forall_lookup_1 in E. }
  set (c j := default 0 (vec !! Z.to_nat (i + j))).
  assert (b0 = c 0) as E0 by (subst c; cbn beta; replace (i + 0) with i by lia; by rewrite Eb0).
  rewrite E0. assert ([c 0; c 1; c 2; c 3] !! Z.to_nat (k mod 4) = Some b) as Hc.
  { replace b with (c (k mod 4)).
    - assert (k mod 4 = 0 \/ k mod 4 = 1 \/ k mod 4 = 2 \/ k mod 4 = 3) as [-> | [-> | [-> | ->]]] by lia;
        reflexivity.
    - subst c. cbn beta. replace (i + k mod 4) with k by (subst i; lia). by rewrite Hb. }
  rewrite byte_at_le_bytes in Hc; [by injection Hc| |lia].
  repeat constructor; apply Hd.
Qed.

(** The memory from [ptr] up to [ptr + len] was neither accessed nor hinted. *)
Definition untouched (ptr len : Z) (s : Executor) : Prop :=
  forall a, a mod 4 = 0 -> ptr <= a < ptr + len ->
    mem_entry Flat.Page a s = None /\ Flat.lookup Flat.Page a (uninitialized_memory (state s)) = None.

Lemma hint_len_ok ctx vec rest :
  input_stream (state (rt ctx)) = vec :: rest -> Z.of_nat (length vec) < 2 ^ 32 ->
  execute HintLenSyscall HINT_LEN 0 0 ctx = Ok (Some (Z.of_nat (length vec))) ctx.
Proof.
  intros Hin Hlen. unfold HintLenSyscall, panic_if_input_exhausted. cbn [execute].
  cbv [bind gets id ret massert]. rewrite Hin. f_equal. rewrite Hin. f_equal.
  apply u32_small, is_u32_iff. lia.
Qed.

(** What [HINT_READ] leaves: the input consumed, and the words of the vector as the
    initial contents of the memory at [ptr]. *)
Lemma hint_read_state ctx vec rest ptr :
  let len := Z.of_nat (length vec) in
  input_stream (state (rt ctx)) = vec :: rest -> unconstrained (rt ctx) = false ->
  32 <= ptr -> ptr mod 4 = 0 -> ptr + len + 4 <= 2013331456 -> untouched ptr len (rt ctx) ->
  exists u' ctx', execute HintReadSyscall HINT_READ ptr len ctx = Ok None ctx' /\
    input_stream (state (rt ctx')) = rest /\
    (forall c a, mem_entry c a (rt ctx') = mem_entry c a (rt ctx)) /\
    uninitialized_memory (state (rt ctx')) = u' /\
    Flat.registers u' = Flat.registers (uninitialized_memory (state (rt ctx))) /\
    forall a, a mod 4 = 0 -> Flat.lookup Flat.Page a u' =
      if (ptr <=? a) && (a <? ptr + len) then hint_word vec (a - ptr)
      else Flat.lookup Flat.Page a (uninitialized_memory (state (rt ctx))).
Proof.
  intros len Hin Hu Hptr Hal Hr Hfresh.
  assert (u32 len = len) as El by (apply u32_small, is_u32_iff; lia).
  unfold HintReadSyscall, panic_if_input_exhausted. cbn [execute].
  unfold bind at 1 2, gets at 1. change (id ctx) with ctx. rewrite Hin. cbn [massert ret].
  unfold bind at 1, gets at 1. change (id ctx) with ctx. rewrite Hin.
  unfold bind at 1, modify at 1. rewrite Hu. cbn [negb massert]. rewrite bind_ret_l.
  fold len. rewrite El, Z.eqb_refl. cbn [massert]. rewrite bind_ret_l.
  rewrite Hal, Z.eqb_refl. cbn [massert]. rewrite bind_ret_l.
  set (ctx1 := upd_rt _ ctx). unfold step_by_4. set (n := Z.to_nat ((len + 3) / 4)).
  assert (4 * Z.of_nat n < len + 4 /\ len <= 4 * Z.of_nat n) as Hn.
  { subst n. rewrite Z2Nat.id by (apply Z.div_pos; lia). Z.to_euclidean_division_equations; lia. }
  assert (forall a, a mod 4 = 0 -> hinted_word ptr 0 n a = (ptr <=? a) && (a <? ptr + len)) as Hword.
  { intros a Ha. apply eq_true_iff_eq. unfold hinted_word. zbool.
    Z.to_euclidean_division_equations; lia. }
  destruct (hint_loop vec ptr Hptr Hal n 0 ctx1) as (u' & f & Eloop & Hreg & Hpage); [lia..| |].
  { intros a Ha Hw. rewrite Hword in Hw by done. zbool. by apply (Hfresh a Ha). }
  change (for_each (map (fun k => 4 * k) (zseq 0 n))
    (fun i => w <- unwrap (hint_word vec i) ;; hint_store (ptr +u i) w) ctx1)
    with (for_each (map (fun k => 4 * k) (zseq 0 n)) (hint_body vec ptr) ctx1).
  erewrite bind_ok by exact Eloop. eexists u', _.
  split_and!; [reflexivity.. | exact Hreg |]. intros a Ha. by rewrite <- Hword, Hpage by done.
Qed.

(** [HINT_LEN] returns the length of the next input vector, and [HINT_READ] at a
    word-aligned pointer outside the registers, to memory that was neither accessed nor
    hinted before, succeeds: it consumes the vector, every byte of it is then the byte the
    program reads at its address, and all registers and other memory words keep their
    values. *)
Theorem hint_read_delivers ctx vec rest ptr :
  let len := Z.of_nat (length vec) in
  input_stream (state (rt ctx)) = vec :: rest -> Forall is_u8 vec -> unconstrained (rt ctx) = false ->
  32 <= ptr -> ptr mod 4 = 0 -> ptr + len + 4 <= 2013331456 -> untouched ptr len (rt ctx) ->
  execute HintLenSyscall HINT_LEN 0 0 ctx = Ok (Some len) ctx /\
  exists ctx', execute HintReadSyscall HINT_READ ptr len ctx = Ok None ctx' /\
    input_stream (state (rt ctx')) = rest /\
    (forall k b, 0 <= k -> vec !! Z.to_nat k = Some b ->
       byte_at (mem_val (rt ctx') (align (ptr + k))) ((ptr + k) mod 4) = b) /\
    (forall r, reg_val (rt ctx') r = reg_val (rt ctx) r) /\
    (forall a, a mod 4 = 0 -> ~ (ptr <= a < ptr + len) -> mem_val (rt ctx') a = mem_val (rt ctx) a).
Proof.
  intros len Hin Hv Hu Hptr Hal Hr Hfresh.
  split; [apply (hint_len_ok ctx vec rest Hin); lia|].
  destruct (hint_read_state ctx vec rest ptr Hin Hu Hptr Hal Hr Hfresh)
    as (u' & ctx' & E & Hrest & Hent & Hu' & Hreg & Hpage).
  assert (forall c a, entry_val c a (rt ctx') = match mem_entry c a (rt ctx) with
    Some r => rec_value r | None => default 0 (Flat.lookup c a u') end) as Hval.
  { intros c a. unfold entry_val, entry_record, init_value. rewrite Hent, Hu'. by destruct (mem_entry _ _ _). }
  assert (forall c a, entry_val c a (rt ctx) = match mem_entry c a (rt ctx) with Some r => rec_value r
    | None => default 0 (Flat.lookup c a (uninitialized_memory (state (rt ctx)))) end) as Hval0.
  { intros c a. unfold entry_val, entry_record. by destruct (mem_entry c a (rt ctx)). }
  exists ctx'. split_and!; [exact E | exact Hrest | | |].
  - intros k b Hk Hb. assert (Z.to_nat k < length vec)%nat as Hlt by (by eapply lookup_lt_Some).
    assert (align (ptr + k) = ptr + align k /\ (ptr + k) mod 4 = k mod 4 /\ 0 <= align k < len /\
      align (ptr + k) mod 4 = 0) as (Ea & Em & Hrange & Hmod).
    { unfold align. Z.to_euclidean_division_equations; lia. }
    unfold mem_val. rewrite Hval. rewrite (proj1 (Hfresh _ Hmod ltac:(rewrite Ea; lia))).
    rewrite Hpage by done. rewrite (proj2 (Z.leb_le _ _)), (proj2 (Z.ltb_lt _ _)) by lia. cbn [andb].
    rewrite Ea, Em. replace (ptr + align k - ptr) with (align k) by lia.
    destruct (hint_word_byte vec k b Hv Hk Hb) as (w & -> & Hw). exact Hw.
  - intros r. unfold reg_val. rewrite Hval, Hval0. unfold Flat.lookup. by rewrite Hreg.
  - intros a Ha Hout. unfold mem_val. rewrite Hval, Hval0. rewrite Hpage by done.
    destruct (_ && _) eqn:Hw; [|done]. exfalso. zbool. by apply Hout.
Qed.

(** A context whose next input is [[7; 8; 9; 10; 11]]. *)
Definition hint_ctx : SyscallContext :=
  SyscallContext_new (upd_state (upd_input_stream (fun _ => [[7; 8; 9; 10; 11]])) (boot [])).

Lemma hint_read_delivers_witness :
  exists ctx', execute HintReadSyscall HINT_READ 4096 5 hint_ctx = Ok None ctx' /\
    byte_at (mem_val (rt ctx') 4100) 0 = 11.
Proof.
  destruct (hint_read_delivers hint_ctx [7; 8; 9; 10; 11] [] 4096) as (_ & ctx' & E & _ & Hb & _);
    [reflexivity | repeat constructor; apply is_u8_iff; lia | reflexivity | lia | reflexivity | cbn; lia
     | intros a _ _; split; reflexivity |].
  exists ctx'. split; [exact E|]. exact (Hb 4 11 ltac:(lia) eq_refl).
Defined.

(** ** Hints below address 32 *)

(** [x5 := HINT_READ; x11 := 4; ecall; x6 := x0 + 0], with [x10 = 0]. *)
Definition hint_x0_program : list Instruction :=
  [mkInstruction ADD 5 0 (as_u32 HINT_READ) true true; mkInstruction ADD 11 0 4 true true;
   mkInstruction ECALL 5 10 11 false false; mkInstruction ADD 6 0 0 false true].

Definition hint_x0_start : Executor :=
  upd_state (upd_input_stream (fun _ => [[7; 0; 0; 0]])) (boot hint_x0_program).

(** [HINT_READ] only asserts that the pointer is word aligned.  With pointer 0 it
    initialises [x0], which nothing has accessed yet: the next instruction that reads [x0]
    reads the host's value 7 instead of 0. *)
Theorem hint_read_reaches_x0 :
  reg_val hint_x0_start X0 = 0 /\
  match cycles 4 hint_x0_start with
  | Some s => reg_val s X0 = 7 /\ reg_val s X6 = 7
  | None => False
  end.
Proof. split; vm_compute; [reflexivity | split; reflexivity]. Qed.
