(* ===== verification/CallMem.v ===== *)
(** * Guest memory, seen by a system call

    A precompile reads words, computes, writes words and emits an event.
    [leaves f c0 ctx] says that the call started in [c0] has so far changed the
    memory to [f] and nothing else the program can see.  The rules below follow
    the accessors of [SyscallContext]; a precompile's functional specification is
    a chain of them. *)

From Stdlib Require Import ZArith Lia Bool.
From stdpp Require Import base gmap list.
From S2P Require Import Prelude Monad Isa SyscallCode Memory Events ByteLookup Air Record Alu.
From S2P Require Import Dependencies State Executor Context Step Run Syscalls Curves Precompiles.
From S2P Require Import Access Refinement Ecall.

Local Open Scope Z_scope.
Local Open Scope rv_scope.

(** What a call must not change: where the program goes on, and the executor around it. *)
Definition surroundings (ctx : SyscallContext) :=
  (ctx_next_pc ctx, ctx_exit_code ctx, clocks (rt ctx), config (rt ctx)).

Record leaves (f : Z -> Z) (c0 ctx : SyscallContext) : Prop := {
  lv_mem : forall a, mem_val (rt ctx) a = f a;
  lv_reg : forall r, reg_val (rt ctx) r = reg_val (rt c0) r;
  lv_rest : surroundings ctx = surroundings c0
}.

Lemma leaves_start ctx : leaves (mem_val (rt ctx)) ctx ctx.
Proof. by split. Qed.

Lemma leaves_frame f c0 ctx ctx' :
  leaves f c0 ctx -> (forall c a, entry_val c a (rt ctx') = entry_val c a (rt ctx)) ->
  surroundings ctx' = surroundings ctx -> leaves f c0 ctx'.
Proof.
  intros [Hm Hr Hs] V S. split; [intros a | intros r | congruence].
  - rewrite <- Hm. apply V.
  - rewrite <- Hr. apply V.
Qed.

Lemma leaves_wrote f c0 ctx ctx' addr v :
  leaves f c0 ctx -> wrote Flat.Page addr v (rt ctx) (rt ctx') -> surroundings ctx' = surroundings ctx ->
  leaves (set_mem addr v f) c0 ctx'.
Proof.
  intros [Hm Hr Hs] [_ W] S. split; [intros a | intros r | congruence].
  - unfold mem_val, set_mem. rewrite W. cbn [Flat.key]. rewrite !compress_div.
    destruct (Z.eqb_spec (a / 4) (addr / 4)) as [E|E].
    + rewrite decide_True; [done|]. by rewrite E.
    + rewrite decide_False; [apply Hm|]. intros [= K]. by apply E.
  - rewrite <- Hr. unfold reg_val. rewrite W. by rewrite decide_False.
Qed.

(** ** The accessors *)

Lemma with_rt_ok {A} (m : EM A) ctx a s : m (rt ctx) = Ok a s ->
  with_rt m ctx = Ok a (upd_rt (fun _ => s) ctx).
Proof. intros E. unfold with_rt. by rewrite E. Qed.

Lemma traced_ok {A} (m : option (gmap Z MemoryLocalEvent) -> EM (A * option (gmap Z MemoryLocalEvent)))
    ctx a lma s :
  m (Some (ctx_local_memory_access ctx)) (rt ctx) = Ok (a, lma) s ->
  traced m ctx = Ok a (upd_ctx_local_memory_access (fun old => default old lma) (upd_rt (fun _ => s) ctx)).
Proof.
  intros E. unfold traced. unfold bind at 1, gets at 1. change (id ctx) with ctx.
  erewrite bind_ok by (apply with_rt_ok; exact E). reflexivity.
Qed.

Lemma same_ctl_surroundings ctx s f : same_ctl (rt ctx) s ->
  surroundings (upd_ctx_local_memory_access f (upd_rt (fun _ => s) ctx)) = surroundings ctx.
Proof. intros C. unfold surroundings. cbn. by destruct (same_ctl_config _ _ C) as [-> ->]. Qed.

Lemma does_mr f c0 ctx addr : valid_mem_addr addr = true -> leaves f c0 ctx ->
  does (ctx_mr addr) ctx (fun x ctx' => x.2 = f addr /\ leaves f c0 ctx').
Proof.
  intros Hv H. unfold ctx_mr. unfold does. unfold bind at 1, gets at 1. change (id ctx) with ctx.
  destruct (mr_ok (rt ctx) addr (ctx_current_shard ctx) (ctx_clk ctx) (Some (ctx_local_memory_access ctx)) Hv)
    as (lma & s & E & T & _).
  erewrite bind_ok by (apply traced_ok; exact E). cbn [ret rd_value read_record_new snd].
  pose proof (touched_frame _ _ _ _ _ T eq_refl) as [C V]. split.
  - apply (lv_mem _ _ _ H).
  - apply (leaves_frame f c0 ctx); [exact H | exact V | by apply same_ctl_surroundings].
Qed.

Lemma does_mw f c0 ctx addr v : valid_mem_addr addr = true -> leaves f c0 ctx ->
  does (ctx_mw addr v) ctx (fun _ ctx' => leaves (set_mem addr v f) c0 ctx').
Proof.
  intros Hv H. unfold ctx_mw. unfold does. unfold bind at 1, gets at 1. change (id ctx) with ctx.
  destruct (mw_ok (rt ctx) addr v (ctx_current_shard ctx) (ctx_clk ctx) (Some (ctx_local_memory_access ctx)) Hv)
    as (lma & s & E & T & _).
  erewrite traced_ok by exact E.
  pose proof (touched_wrote _ _ _ _ _ T) as W.
  apply (leaves_wrote f c0 ctx); [exact H | exact W | by apply same_ctl_surroundings, W].
Qed.

Lemma does_tick f c0 ctx : leaves f c0 ctx -> does tick ctx (fun _ ctx' => leaves f c0 ctx').
Proof. intros H. apply does_modify. by apply (leaves_frame f c0 ctx). Qed.

(** ** Slices *)

(** [n] words at [ptr] that a call may access. *)
Definition region (ptr : Z) (n : nat) : Prop :=
  32 <= ptr /\ ptr mod 4 = 0 /\ ptr + 4 * Z.of_nat n <= BABYBEAR_PRIME.

Ltac solve_region := split_and!; [lia | reflexivity | unfold BABYBEAR_PRIME; lia].

Lemma word_addr ptr n i : region ptr n -> 0 <= i < Z.of_nat n -> ptr +u (i *u 4) = ptr + 4 * i.
Proof.
  intros (H1 & H2 & H3) Hi. unfold BABYBEAR_PRIME in H3. unfold wadd, wmul.
  rewrite (u32_small (i * 4)) by (apply is_u32_iff; lia). rewrite u32_small by (apply is_u32_iff; lia). lia.
Qed.

Lemma region_valid ptr n i : region ptr n -> 0 <= i < Z.of_nat n -> valid_mem_addr (ptr + 4 * i) = true.
Proof.
  intros (H1 & H2 & H3) Hi. unfold valid_mem_addr. change (reg_idx X31) with 31.
  assert ((ptr + 4 * i) mod 4 = 0) as ->.
  { rewrite Z.add_mod, H2, (Z.mul_comm 4 i), Z.mod_mul by lia. done. }
  rewrite (proj2 (Z.leb_gt _ _)), (proj2 (Z.leb_gt _ _)) by lia. done.
Qed.

Lemma word_addrs_eq ptr n : region ptr n -> word_addrs ptr n = map (fun i => ptr + 4 * i) (zseq 0 n).
Proof.
  intros H. unfold word_addrs. apply map_ext_in. intros i Hi. unfold zseq in Hi.
  apply in_map_iff in Hi as (k & <- & Hk). apply in_seq in Hk. apply (word_addr ptr n); [done | lia].
Qed.

(** The words of [f] from [ptr]. *)
Definition words_at (f : Z -> Z) (ptr : Z) (n : nat) : list Z := map (fun i => f (ptr + 4 * i)) (zseq 0 n).

Lemma does_reads {l} : forall f c0 ctx, Forall (fun a => valid_mem_addr a = true) l -> leaves f c0 ctx ->
  does (collect l ctx_mr) ctx (fun x ctx' => map snd x = map f l /\ leaves f c0 ctx').
Proof.
  intros f c0 ctx Hl H.
  refine (does_weaken _ _ _ _ _ (does_collect l ctx_mr
    (fun pre acc s => map snd acc = map f pre /\ leaves f c0 s) [] [] ctx (conj eq_refl H) _)); [done|].
  intros pre a acc s [E Hs] Ha. rewrite Forall_forall in Hl.
  refine (does_weaken _ _ _ _ _ (does_mr f c0 s a (Hl a Ha) Hs)).
  intros x s' [Ex Hs']. split; [|exact Hs']. rewrite !map_app, E. cbn [map]. by rewrite Ex.
Qed.

Lemma does_mr_slice f c0 ctx ptr n : region ptr n -> leaves f c0 ctx ->
  does (mr_slice ptr n) ctx (fun x ctx' => x.2 = words_at f ptr n /\ leaves f c0 ctx').
Proof.
  intros Hr H. unfold mr_slice. rewrite (word_addrs_eq ptr n Hr). eapply does_bind.
  - apply does_reads; [|exact H]. apply Forall_map, Forall_forall. intros i Hi.
    apply list_elem_of_In in Hi. unfold zseq in Hi. apply in_map_iff in Hi as (k & <- & Hk). apply in_seq in Hk.
    apply (region_valid ptr n); [done | lia].
  - intros x ctx' [E Hx]. apply does_ret. split; [|exact Hx]. cbn [snd]. rewrite E. unfold words_at. by rewrite map_map.
Qed.

(** Memory after writing [vs] from [ptr]. *)
Fixpoint put_words (ptr : Z) (vs : list Z) (f : Z -> Z) : Z -> Z :=
  match vs with
  | [] => f
  | v :: vs' => put_words (ptr + 4) vs' (set_mem ptr v f)
  end.

Lemma put_words_before vs : forall ptr f a, a / 4 < ptr / 4 -> put_words ptr vs f a = f a.
Proof.
  induction vs as [|v vs IH]; intros ptr f a Ha; [done|]. cbn [put_words].
  rewrite IH by (rewrite <- (Z.div_add_l 1 4 ptr) || Z.to_euclidean_division_equations; lia).
  unfold set_mem. by rewrite (proj2 (Z.eqb_neq _ _)) by lia.
Qed.

Lemma put_words_after vs : forall ptr f a,
  ptr mod 4 = 0 -> ptr + 4 * Z.of_nat (length vs) <= a -> put_words ptr vs f a = f a.
Proof.
  induction vs as [|v vs IH]; intros ptr f a Hp Ha; [done|]. cbn [put_words length] in *.
  rewrite IH by (Z.to_euclidean_division_equations; lia).
  unfold set_mem. rewrite (proj2 (Z.eqb_neq _ _)); [done|]. Z.to_euclidean_division_equations; lia.
Qed.

(** Reading back what was written. *)
Lemma put_words_read vs : forall ptr f, ptr mod 4 = 0 -> words_at (put_words ptr vs f) ptr (length vs) = vs.
Proof.
  induction vs as [|v vs IH]; intros ptr f Hp; [done|]. cbn [length put_words].
  unfold words_at, zseq. cbn [seq map]. f_equal.
  - rewrite put_words_before by (Z.to_euclidean_division_equations; lia). unfold set_mem.
    by rewrite Z.mul_0_r, Z.add_0_r, Z.eqb_refl.
  - rewrite <- (IH (ptr + 4) (set_mem ptr v f)) at 2 by (Z.to_euclidean_division_equations; lia).
    unfold words_at, zseq. rewrite <- seq_shift, !map_map. apply map_ext. intros k. f_equal. lia.
Qed.

Lemma does_mw_slice vs : forall f c0 ctx ptr, region ptr (length vs) -> leaves f c0 ctx ->
  does (mw_slice ptr vs) ctx (fun _ ctx' => leaves (put_words ptr vs f) c0 ctx').
Proof.
  intros f c0 ctx ptr Hr H. unfold mw_slice. rewrite (word_addrs_eq ptr _ Hr).
  assert (forall vs k f ctx, 0 <= k -> region (ptr + 4 * k) (length vs) -> leaves f c0 ctx ->
    does (collect (zip (map (fun i => ptr + 4 * i) (zseq k (length vs))) vs) (fun '(a, v) => ctx_mw a v)) ctx
      (fun _ ctx' => leaves (put_words (ptr + 4 * k) vs f) c0 ctx')) as Hgo.
  { clear. induction vs as [|v vs IH]; intros k f ctx Hk Hr H; [by apply does_ret|].
    cbn [length]. rewrite zseq_S. cbn [map zip zip_with collect].
    eapply does_bind.
    - apply (does_mw f c0 ctx); [|exact H].
      replace (ptr + 4 * k) with (ptr + 4 * k + 4 * 0) by lia. apply (region_valid _ _ 0 Hr). cbn [length]. lia.
    - intros w s Hs. cbn [put_words].
      eapply (does_bind _ _ _ (fun _ ctx' =>
        leaves (put_words (ptr + 4 * k + 4) vs (set_mem (ptr + 4 * k) v f)) c0 ctx')); [|intros r s2 H2; exact H2].
      replace (ptr + 4 * k + 4) with (ptr + 4 * (k + 1)) by lia.
      apply IH; [lia | | exact Hs]. destruct Hr as (H1 & H2 & H3). cbn [length] in H3.
      split_and!; [lia | | lia]. Z.to_euclidean_division_equations; lia. }
  specialize (Hgo vs 0 f ctx). rewrite Z.mul_0_r, Z.add_0_r in Hgo. apply Hgo; [lia | exact Hr | exact H].
Qed.

(** ** The end of a call *)

Lemma flush_calm a s : calm s (flush_local a s).
Proof. unfold flush_local. destruct (local_memory_access s !! a); by split. Qed.

Lemma does_postprocess f c0 ctx : leaves f c0 ctx -> does postprocess ctx (fun _ ctx' => leaves f c0 ctx').
Proof.
  intros H. unfold postprocess. unfold does. unfold bind at 1, gets at 1. change (id ctx) with ctx.
  destruct (tracing (rt ctx)); [|exact H]. cbv zeta. unfold bind at 1, modify at 1.
  set (ctx1 := upd_ctx_local_memory_access _ ctx).
  assert (leaves f c0 ctx1) as H1 by (by apply (leaves_frame f c0 ctx)). clearbody ctx1.
  generalize (map_to_list (ctx_local_memory_access ctx)) at 1. intros l. clear H. revert ctx1 H1.
  generalize (map snd (map_to_list (ctx_local_memory_access ctx))). intros out.
  induction l as [|[a e] l IH]; intros ctx1 H1; [exact H1|]. cbn [for_each].
  unfold bind at 1 2, modify at 1. apply (IH (upd_rt (flush_local a) ctx1)).
  pose proof (flush_calm a (rt ctx1)) as [V K C].
  apply (leaves_frame f c0 ctx1); [exact H1 | exact V|]. unfold surroundings. cbn [upd_rt rt]. by rewrite K, C.
Qed.

(** Both ways to add a precompile event accept the codes that have a table. *)
Definition accepts (add : SyscallCode -> SyscallEvent -> PrecompileEvent -> CM unit) : Prop :=
  forall f c0 ctx key se ev, should_send key = 1 -> leaves f c0 ctx ->
    does (add key se ev) ctx (fun _ ctx' => leaves f c0 ctx').

Lemma record_add_accepts : accepts record_add_precompile_event.
Proof.
  intros f c0 ctx key se ev Hc H. unfold record_add_precompile_event, precompile_add_event, does.
  rewrite Hc. by apply (leaves_frame f c0 ctx).
Qed.

Lemma add_accepts : accepts add_precompile_event.
Proof.
  intros f c0 ctx key se ev Hc H. unfold add_precompile_event, does. unfold bind at 1, gets at 1.
  change (id ctx) with ctx. destruct (is_trace (rt ctx)); cbn [when]; [by apply record_add_accepts | exact H].
Qed.

Lemma does_emit_with add f c0 ctx clk_ code key arg1 arg2 ev :
  accepts add -> should_send key = 1 -> leaves f c0 ctx ->
  does (emit_precompile add clk_ code key arg1 arg2 ev) ctx (fun r ctx' => r = None /\ leaves f c0 ctx').
Proof.
  intros Ha Hc H. unfold emit_precompile.
  eapply (does_bind _ _ _ (fun _ ctx1 => leaves f c0 ctx1)); [by apply does_gets|]. intros se ctx1 H1.
  eapply (does_bind _ _ _ (fun _ ctx2 => leaves f c0 ctx2)); [by apply Ha|]. intros [] ctx2 H2. by apply does_ret.
Qed.

Lemma does_emit f c0 ctx clk_ code key arg1 arg2 ev : should_send key = 1 -> leaves f c0 ctx ->
  does (emit_precompile add_precompile_event clk_ code key arg1 arg2 ev) ctx
    (fun r ctx' => r = None /\ leaves f c0 ctx').
Proof. intros Hc H. by apply does_emit_with; [apply add_accepts|..]. Qed.

(** The call changed at most the [n] words at [ptr]. *)
Record only_writes (ptr : Z) (n : nat) (ctx ctx' : SyscallContext) : Prop := {
  ow_mem : forall a, a < ptr \/ ptr + 4 * Z.of_nat n <= a -> mem_val (rt ctx') a = mem_val (rt ctx) a;
  ow_reg : forall r, reg_val (rt ctx') r = reg_val (rt ctx) r;
  ow_rest : surroundings ctx' = surroundings ctx
}.

Lemma leaves_words_at f c0 ctx ptr n : leaves f c0 ctx -> words_at (mem_val (rt ctx)) ptr n = words_at f ptr n.
Proof. intros H. unfold words_at. apply map_ext. intros i. apply (lv_mem _ _ _ H). Qed.

(** A call that ends by writing [vs] at [ptr]. *)
Lemma leaves_put ctx ctx' ptr vs : ptr mod 4 = 0 ->
  leaves (put_words ptr vs (mem_val (rt ctx))) ctx ctx' ->
  words_at (mem_val (rt ctx')) ptr (length vs) = vs /\ only_writes ptr (length vs) ctx ctx'.
Proof.
  intros Hp H. split; [rewrite (leaves_words_at _ _ _ _ _ H); by apply put_words_read|].
  destruct H as [Hm Hr Hs]. split; [|exact Hr | exact Hs]. intros a [Ha|Ha]; rewrite Hm.
  - apply put_words_before. Z.to_euclidean_division_equations; lia.
  - by apply put_words_after.
Qed.
