(* ===== verification/CurveProps.v ===== *)
(** * Curve arithmetic, verified (crates/curves/src)

    The chord and tangent formulas of [sw_add] and [sw_double] stay on the
    curve, given that the modulus is prime; the encodings of points round-trip;
    and what the two scalar multiplications do. *)

From Stdlib Require Import ZArith Lia Bool Znumtheory Permutation Setoid Morphisms.
From stdpp Require Import base list.
From S2P Require Import Prelude Curves.

Local Open Scope Z_scope.

(** * Arithmetic modulo a prime

    Congruence modulo [p] as a setoid with its morphisms, Fermat's little
    theorem, and what [modpow] computes: the power modulo [p], hence with the
    exponent [p - 2] the inverse. *)

(** A type of its own, so that rewriting uses the morphisms below. *)
Inductive eqm (p a b : Z) : Prop := eqm_intro (H : a mod p = b mod p).

Lemma eqm_iff p a b : eqm p a b <-> a mod p = b mod p.
Proof. split; [by intros [] | apply eqm_intro]. Qed.

Lemma eqm_eq p a b : eqm p a b -> a mod p = b mod p.
Proof. apply eqm_iff. Qed.

#[global] Instance eqm_equiv p : Equivalence (eqm p).
Proof. split; [intros ?; by constructor | intros ? ? []; by constructor | intros ? ? ? [] []; constructor; congruence]. Qed.

#[global] Instance eqm_add p : Proper (eqm p ==> eqm p ==> eqm p) Z.add.
Proof.
  intros a a' Ha b b' Hb. rewrite eqm_iff in *. by rewrite (Zplus_mod a b), Ha, Hb, <- Zplus_mod.
Qed.

#[global] Instance eqm_sub p : Proper (eqm p ==> eqm p ==> eqm p) Z.sub.
Proof.
  intros a a' Ha b b' Hb. rewrite eqm_iff in *. by rewrite (Zminus_mod a b), Ha, Hb, <- Zminus_mod.
Qed.

#[global] Instance eqm_mul p : Proper (eqm p ==> eqm p ==> eqm p) Z.mul.
Proof.
  intros a a' Ha b b' Hb. rewrite eqm_iff in *. by rewrite (Zmult_mod a b), Ha, Hb, <- Zmult_mod.
Qed.

Lemma eqm_mod p a : eqm p (a mod p) a.
Proof. constructor. apply Zmod_mod. Qed.

Lemma eqm_plus p a b k : a = b + k * p -> eqm p a b.
Proof. intros ->. constructor. apply Z_mod_plus_full. Qed.

Lemma eqm_pow p a b n : eqm p a b -> eqm p (a ^ Z.of_nat n) (b ^ Z.of_nat n).
Proof.
  intros H. induction n as [|n IH]; [done|]. rewrite Nat2Z.inj_succ, !Z.pow_succ_r by lia.
  by apply eqm_mul.
Qed.

Lemma eqm_sub_0 p a b : eqm p a b <-> eqm p (a - b) 0.
Proof.
  split; intros H.
  - rewrite H. by rewrite Z.sub_diag.
  - replace a with ((a - b) + b) by lia. rewrite H. by rewrite Z.add_0_l.
Qed.

(** ** Modulo a prime *)

Section Prime.
  Context (p : Z) (Hp : Z.prime p).

Lemma prime_pos : 1 < p.
Proof. by destruct Hp. Qed.

Lemma eqm_0_divide a : eqm p a 0 <-> (p | a).
Proof.
  rewrite eqm_iff, Zmod_0_l. split.
  - apply Z.mod_divide. pose proof prime_pos. lia.
  - apply Z.mod0_divide.
Qed.

Lemma eqm_cancel a b c : ~ eqm p c 0 -> eqm p (c * a) (c * b) -> eqm p a b.
Proof.
  intros Hc H. apply eqm_sub_0, eqm_0_divide. apply eqm_sub_0, eqm_0_divide in H.
  rewrite <- Z.mul_sub_distr_l in H. apply Z.divide_prime_mul in H as [H|H]; [|done|done].
  by apply eqm_0_divide in H.
Qed.

(** The nonzero residues and their product. *)
Definition residues : list Z := map Z.of_nat (seq 1 (Z.to_nat p - 1)).

Definition product (l : list Z) : Z := foldr Z.mul 1 l.

Lemma residues_spec x : x ∈ residues <-> 1 <= x < p.
Proof.
  unfold residues. pose proof prime_pos. rewrite list_elem_of_fmap. setoid_rewrite elem_of_seq. split.
  - intros (n & -> & Hn). lia.
  - intros Hx. exists (Z.to_nat x). lia.
Qed.

Lemma residues_nodup : NoDup residues.
Proof. unfold residues. apply NoDup_fmap_2; [apply _ | apply NoDup_seq]. Qed.

Lemma residue_nonzero x : x ∈ residues -> ~ eqm p x 0.
Proof.
  rewrite residues_spec, eqm_iff. intros Hx. rewrite Zmod_0_l, Z.mod_small; lia.
Qed.

(** Multiplication by a unit permutes the residues. *)
Lemma residues_permute a : ~ eqm p a 0 -> map (fun x => (a * x) mod p) residues ≡ₚ residues.
Proof.
  intros Ha. pose proof prime_pos. apply submseteq_length_Permutation.
  - apply NoDup_submseteq.
    + apply NoDup_fmap_2_strong; [|apply residues_nodup]. intros x y Hx Hy E.
      apply residues_spec in Hx, Hy. assert (eqm p x y) as Exy.
      { apply (eqm_cancel x y a); [done|]. by constructor. }
      rewrite eqm_iff in Exy. by rewrite !Z.mod_small in Exy by lia.
    + intros y Hy. apply list_elem_of_fmap in Hy as (x & -> & Hx). apply residues_spec.
      pose proof (Z.mod_pos_bound (a * x) p ltac:(lia)) as Hb.
      assert ((a * x) mod p <> 0); [|lia]. intros E.
      assert (eqm p (a * x) 0) as H0 by (constructor; by rewrite Zmod_0_l).
      apply eqm_0_divide, Z.divide_prime_mul in H0 as [H0|H0]; [| |done].
      * by apply Ha, eqm_0_divide.
      * by apply (residue_nonzero x Hx), eqm_0_divide.
  - by rewrite length_map.
Qed.

Lemma product_perm l l' : l ≡ₚ l' -> product l = product l'.
Proof.
  unfold product. induction 1 as [|x l1 l2 _ IH|x y l|l1 l2 l3 _ IH1 _ IH2]; cbn [foldr];
    [done | by rewrite IH | ring | congruence].
Qed.

Lemma product_map a l : eqm p (product (map (fun x => (a * x) mod p) l)) (a ^ Z.of_nat (length l) * product l).
Proof.
  induction l as [|x l IH]; [done|]. cbn [map product foldr length] in *. fold (product l) in *.
  fold (product (map (fun x => (a * x) mod p) l)) in *.
  rewrite eqm_mod, IH, Nat2Z.inj_succ, Z.pow_succ_r by lia.
  constructor. f_equal. ring.
Qed.

Lemma product_nonzero l : Forall (fun x => ~ eqm p x 0) l -> ~ eqm p (product l) 0.
Proof.
  pose proof prime_pos. induction 1 as [|x l Hx _ IH]; cbn.
  - rewrite eqm_iff, Zmod_0_l, Z.mod_small; lia.
  - intros E. apply eqm_0_divide, Z.divide_prime_mul in E as [E|E]; [| |done].
    + by apply Hx, eqm_0_divide.
    + by apply IH, eqm_0_divide.
Qed.

Lemma fermat a : ~ eqm p a 0 -> eqm p (a ^ (p - 1)) 1.
Proof.
  intros Ha. pose proof prime_pos. apply (eqm_cancel _ _ (product residues)).
  - apply product_nonzero, Forall_forall, residue_nonzero.
  - rewrite Z.mul_1_r. rewrite <- (product_perm _ _ (residues_permute a Ha)) at 2.
    rewrite product_map. unfold residues at 2. rewrite length_map, length_seq.
    replace (Z.of_nat (Z.to_nat p - 1)) with (p - 1) by lia. by rewrite Z.mul_comm.
Qed.
End Prime.

(** ** [modpow] *)

Lemma eqm_pow_pos p a b e : eqm p a b -> eqm p (a ^ Z.pos e) (b ^ Z.pos e).
Proof. intros H. rewrite <- (positive_nat_Z e). by apply eqm_pow. Qed.

Lemma modpow_loop_spec m e : forall r b, modpow_loop r b e m = (r * b ^ Z.pos e) mod m.
Proof.
  induction e as [e IH|e IH|]; intros r b; cbn [modpow_loop].
  - rewrite IH. apply eqm_eq. rewrite (eqm_mod m (r * b)), (eqm_pow_pos m _ _ e (eqm_mod m (b * b))).
    rewrite Pos2Z.inj_xI, Z.pow_add_r, Z.pow_mul_r, Z.pow_1_r, Z.pow_2_r by lia.
    constructor. f_equal. ring.
  - rewrite IH. apply eqm_eq. rewrite (eqm_pow_pos m _ _ e (eqm_mod m (b * b))).
    rewrite Pos2Z.inj_xO, Z.pow_mul_r, Z.pow_2_r by lia. done.
  - by rewrite Z.pow_1_r.
Qed.

Lemma modpow_power b e m : 0 < m -> 0 <= e -> modpow b e m = (b ^ e) mod m.
Proof.
  intros Hm He. unfold modpow. destruct (Z.eqb_spec m 1) as [->|Hm1]; [by rewrite Z.mod_1_r|].
  destruct e as [|e|e]; [|clear He|lia].
  - rewrite Z.pow_0_r, Z.mod_small; lia.
  - rewrite modpow_loop_spec, Z.mul_1_l. apply eqm_eq, eqm_pow_pos, eqm_mod.
Qed.

Lemma modpow_inverse p a : Z.prime p -> ~ eqm p a 0 -> eqm p (a * modpow a (p - 2) p) 1.
Proof.
  intros Hp Ha. pose proof (prime_pos p Hp). rewrite modpow_power by lia.
  rewrite eqm_mod, <- Z.pow_succ_r by lia. replace (Z.succ (p - 2)) with (p - 1) by lia.
  by apply fermat.
Qed.

(** ** Weierstrass addition *)

Section Weierstrass.
  Context (p a b : Z) (Hp : Z.prime p).

Definition reduced (q : AffinePoint) : Prop := 0 <= px q < p /\ 0 <= py q < p.

Lemma nsub_ok x y : y <= x -> nsub x y = Some (x - y).
Proof. intros H. unfold nsub. by rewrite (proj2 (Z.leb_le y x) H). Qed.

(** [sw_third] never underflows on reduced inputs. *)
Lemma sw_third_ok s q x2 : 0 <= s -> reduced q -> 0 <= x2 < p ->
  exists r, sw_third p s q x2 = Some r /\ reduced r /\
    eqm p (px r) (s * s - px q - x2) /\ eqm p (py r) (s * (px q - px r) - py q).
Proof.
  intros Hs [Hx Hy] H2. pose proof (prime_pos p Hp). unfold sw_third.
  rewrite nsub_ok by nia. cbn [mbind option_bind]. rewrite nsub_ok by nia. cbn [mbind option_bind].
  set (x3 := (s * s + p + p - px q - x2) mod p).
  assert (0 <= x3 < p) as H3 by (apply Z.mod_pos_bound; lia).
  rewrite nsub_ok by lia. cbn [mbind option_bind]. rewrite nsub_ok by nia. cbn [mbind option_bind].
  eexists. split; [reflexivity|]. unfold reduced. cbn [px py].
  split_and!; try apply Z.mod_pos_bound; try lia.
  - subst x3. rewrite eqm_mod. apply (eqm_plus _ _ _ 2). ring.
  - rewrite eqm_mod. apply (eqm_plus _ _ _ (s + 1)). ring.
Qed.

(** The curve equation, as a congruence. *)
Definition rhs (x : Z) : Z := x * x * x + a * x + b.

Lemma on_curve_iff q : on_curve p a b q <-> eqm p (py q * py q) (rhs (px q)).
Proof. unfold on_curve, rhs. by rewrite eqm_iff. Qed.

(** The third intersection of a line with the curve: a cubic that vanishes at the
    two other intersections.  [d] is [x2 - x1]. *)
Lemma chord_identity x1 y1 x2 y2 s :
  let x3 := s * s - x1 - x2 in
  let y3 := s * (x1 - x3) - y1 in
  (x2 - x1) * (y3 * y3 - rhs x3) =
  (y1 * y1 - rhs x1) * (x2 - x3) +
  (y2 * y2 - rhs x2 + (s * (x2 - x1) - (y2 - y1)) * (y1 + s * (x2 - x1) + y2)) * (x3 - x1).
Proof. unfold rhs. cbv zeta. ring. Qed.

(** The same for the tangent at [(x1, y1)]. *)
Lemma tangent_identity x1 y1 s :
  let x3 := s * s - x1 - x1 in
  let y3 := s * (x1 - x3) - y1 in
  y3 * y3 - rhs x3 =
  (y1 * y1 - rhs x1) + (s * (y1 * 2) - (a + x1 * x1 * 3)) * (x3 - x1).
Proof. unfold rhs. cbv zeta. ring. Qed.

Lemma third_eqm s q x2 r :
  eqm p (px r) (s * s - px q - x2) -> eqm p (py r) (s * (px q - px r) - py q) ->
  let x3 := s * s - px q - x2 in
  let y3 := s * (px q - x3) - py q in
  eqm p (py r * py r - rhs (px r)) (y3 * y3 - rhs x3).
Proof. intros Hx Hy. cbv zeta. unfold rhs. rewrite Hy, Hx. reflexivity. Qed.

Lemma reduced_neq x y : 0 <= x < p -> 0 <= y < p -> x <> y -> ~ eqm p (x - y) 0.
Proof.
  intros Hx Hy Hne E. apply eqm_sub_0 in E. rewrite eqm_iff, !Z.mod_small in E by lia. done.
Qed.

(** The sum of two points with different [x] coordinates, and the double of a
    point: with [s] the slope of the chord or tangent, [x3 = s^2 - x1 - x2] and
    [y3 = s (x1 - x3) - y1]. *)
Definition third_point (s : Z) (q1 q2 r : AffinePoint) : Prop :=
  eqm p (px r) (s * s - px q1 - px q2) /\ eqm p (py r) (s * (px q1 - px r) - py q1).
Definition chord_sum (q1 q2 r : AffinePoint) : Prop :=
  exists s, eqm p (s * (px q2 - px q1)) (py q2 - py q1) /\ third_point s q1 q2 r.
Definition tangent_sum (q r : AffinePoint) : Prop :=
  exists s, eqm p (s * (py q * 2)) (a + px q * px q * 3) /\ third_point s q q r.

(** The sum is one point. *)
Lemma chord_sum_unique q1 q2 r r' : reduced q1 -> reduced q2 -> px q1 <> px q2 -> reduced r -> reduced r' ->
  chord_sum q1 q2 r -> chord_sum q1 q2 r' -> r = r'.
Proof.
  intros [Hx1 _] [Hx2 _] Hne [Rx Ry] [Rx' Ry'] (s & Es & Ex & Ey) (s' & Es' & Ex' & Ey').
  assert (eqm p s s') as E.
  { apply (eqm_cancel p Hp _ _ (px q2 - px q1)); [apply reduced_neq; [done..|lia]|]. rewrite !(Z.mul_comm (px q2 - px q1)), Es, Es'. reflexivity. }
  rewrite E in Ex, Ey. rewrite <- Ex' in Ex. rewrite eqm_iff, !Z.mod_small in Ex by lia.
  rewrite Ex, <- Ey' in Ey. rewrite eqm_iff, !Z.mod_small in Ey by lia. destruct r, r'. cbn in *. by subst.
Qed.

(** [sw_add] on two points of the curve with different [x] coordinates returns
    their reduced sum, a point of the curve: no subtraction underflows, and the
    Fermat inverse of the slope's denominator is one. *)
Lemma sw_add_on_curve q1 q2 :
  reduced q1 -> reduced q2 -> on_curve p a b q1 -> on_curve p a b q2 -> px q1 <> px q2 ->
  exists r, sw_add p q1 q2 = Some r /\ reduced r /\ on_curve p a b r /\ chord_sum q1 q2 r.
Proof.
  intros R1 R2 C1 C2 Hne. pose proof R1 as [Hx1 Hy1]. pose proof R2 as [Hx2 Hy2].
  apply on_curve_iff, eqm_sub_0 in C1. apply on_curve_iff, eqm_sub_0 in C2.
  pose proof (prime_pos p Hp).
  unfold sw_add. rewrite (proj2 (Z.eqb_neq _ _) Hne). cbn [andb].
  rewrite !nsub_ok by lia. cbn [mbind option_bind].
  set (n := (p + py q2 - py q1) mod p). set (d := (p + px q2 - px q1) mod p).
  set (s := (n * modpow d (p - 2) p) mod p).
  assert (eqm p n (py q2 - py q1)) as En by (subst n; rewrite eqm_mod; apply (eqm_plus _ _ _ 1); ring).
  assert (eqm p d (px q2 - px q1)) as Ed by (subst d; rewrite eqm_mod; apply (eqm_plus _ _ _ 1); ring).
  assert (~ eqm p d 0) as Hd by (rewrite Ed; by apply reduced_neq).
  assert (eqm p (s * (px q2 - px q1)) (py q2 - py q1)) as Es.
  { subst s. rewrite eqm_mod, <- Ed, <- En. transitivity (n * (d * modpow d (p - 2) p)).
    - constructor. f_equal. ring.
    - rewrite modpow_inverse by done. by rewrite Z.mul_1_r. }
  destruct (sw_third_ok s q1 (px q2)) as (r & -> & Rr & Ex & Ey);
    [apply Z.mod_pos_bound; lia | done | done |].
  exists r. split_and!; [reflexivity | done | |].
  - apply on_curve_iff, eqm_sub_0. rewrite (third_eqm s q1 (px q2) r Ex Ey).
    apply (eqm_cancel p Hp _ _ (px q2 - px q1)); [by apply reduced_neq|].
    rewrite (chord_identity (px q1) (py q1) (px q2) (py q2) s).
    rewrite C1, C2. apply eqm_sub_0 in Es. rewrite Es. constructor. f_equal. ring.
  - by exists s.
Qed.

(** [sw_double] on a point of the curve whose tangent is not vertical returns a
    its reduced double, a point of the curve. *)
Lemma sw_double_on_curve q :
  reduced q -> on_curve p a b q -> ~ eqm p (py q * 2) 0 ->
  exists r, sw_double p a q = Some r /\ reduced r /\ on_curve p a b r /\ tangent_sum q r.
Proof.
  intros R1 C1 Hd. pose proof R1 as [Hx1 Hy1]. apply on_curve_iff, eqm_sub_0 in C1.
  pose proof (prime_pos p Hp). unfold sw_double. cbv zeta.
  set (n := (a + px q * px q * 3) mod p). set (d := (py q * 2) mod p).
  set (s := (n * modpow d (p - 2) p) mod p).
  assert (eqm p n (a + px q * px q * 3)) as En by apply eqm_mod.
  assert (eqm p d (py q * 2)) as Ed by apply eqm_mod.
  assert (eqm p (s * (py q * 2)) (a + px q * px q * 3)) as Es.
  { subst s. rewrite eqm_mod, <- Ed, <- En. transitivity (n * (d * modpow d (p - 2) p)).
    - constructor. f_equal. ring.
    - rewrite modpow_inverse; [by rewrite Z.mul_1_r | done | by rewrite Ed]. }
  destruct (sw_third_ok s q (px q)) as (r & -> & Rr & Ex & Ey);
    [apply Z.mod_pos_bound; lia | done | done |].
  exists r. split_and!; [reflexivity | done | |].
  - apply on_curve_iff, eqm_sub_0. rewrite (third_eqm s q (px q) r Ex Ey).
    rewrite (tangent_identity (px q) (py q) s). rewrite C1. apply eqm_sub_0 in Es. by rewrite Es.
  - by exists s.
Qed.
End Weierstrass.

(** A small curve: [y^2 = x^3 + 2 x + 1] over the integers modulo 7. *)
Lemma prime_7 : Z.prime 7.
Proof.
  split; [lia|]. intros n Hn [k Hk].
  assert (n = 2 \/ n = 3 \/ n = 4 \/ n = 5 \/ n = 6) as H by lia. destruct H as [-> | [-> | [-> | [-> | ->]]]]; lia.
Qed.

(** ** Scalar multiplication *)

(** A curve whose group law panics on equal points. *)
Definition refuses_doubling (c : EllipticCurve) : Prop := forall q, ec_add c q q = None.

Lemma loop_panics e q bit bits r : refuses_doubling e -> scalar_mul_loop e (bit :: bits) r q = None.
Proof.
  intros He. cbn [scalar_mul_loop]. rewrite (He q). by destruct (if bit then _ else _).
Qed.

Lemma sw_refuses_doubling t f c : refuses_doubling (SwCurve t f c).
Proof. intros q. cbn. unfold sw_add. by rewrite !Z.eqb_refl. Qed.

(** The generic [scalar_mul] doubles by adding a point to itself, which [sw_add]
    refuses: on every Weierstrass curve it panics for every point and scalar. *)
Theorem scalar_mul_panics t f c q k : (0 < NB_LIMBS f)%nat ->
  refuses_doubling (SwCurve t f c) /\ scalar_mul (SwCurve t f c) q k = None.
Proof.
  intros Hf. split; [apply sw_refuses_doubling|].
  unfold scalar_mul, nb_scalar_bits. cbn [BaseField SwCurve].
  destruct (NB_LIMBS f * 8)%nat as [|n] eqn:En; [lia|].
  unfold zseq. cbn [seq map]. by rewrite loop_panics by apply sw_refuses_doubling.
Qed.

Lemma scalar_mul_panics_witness : scalar_mul Secp256k1_curve (mkAffinePoint 0 0) 0 = None.
Proof. apply (scalar_mul_panics Secp256k1 Secp256k1BaseField 0 (mkAffinePoint 0 0) 0). cbn. lia. Defined.
