(* ===== verification/Sha.v ===== *)
(** * The SHA-256 precompiles compute SHA-256 (syscalls/precompiles/sha256)

    [schedule] and [compress] are the message schedule and the compression
    function of FIPS 180-4, over lists of words; the system calls compute them in
    guest memory. *)

From Stdlib Require Import ZArith Lia Bool.
From stdpp Require Import base gmap list.
From S2P Require Import Prelude Monad Isa SyscallCode Memory Events ByteLookup Air Record Alu Dependencies State Executor Context Step Run Syscalls.
From S2P Require Import Curves Precompiles Access Refinement Ecall CallMem CurveProps.

Local Open Scope Z_scope.
Local Open Scope rv_scope.

(** ** FIPS 180-4 *)

Definition ROTR (n x : Z) : Z := rotr32 x n.
Definition SHR (n x : Z) : Z := x / 2 ^ n.

Definition sigma0 (x : Z) : Z := Z.lxor (Z.lxor (ROTR 7 x) (ROTR 18 x)) (SHR 3 x).
Definition sigma1 (x : Z) : Z := Z.lxor (Z.lxor (ROTR 17 x) (ROTR 19 x)) (SHR 10 x).
Definition Sigma0 (x : Z) : Z := Z.lxor (Z.lxor (ROTR 2 x) (ROTR 13 x)) (ROTR 22 x).
Definition Sigma1 (x : Z) : Z := Z.lxor (Z.lxor (ROTR 6 x) (ROTR 11 x)) (ROTR 25 x).
Definition Ch (x y z : Z) : Z := Z.lxor (Z.land x y) (Z.land (not32 x) z).
Definition Maj (x y z : Z) : Z := Z.lxor (Z.lxor (Z.land x y) (Z.land x z)) (Z.land y z).

Definition next_word (w : list Z) : Z :=
  let W i := nth (length w - i) w 0 in
  (sigma1 (W 2%nat) + W 7%nat + sigma0 (W 15%nat) + W 16%nat) mod 2 ^ 32.

Fixpoint schedule (n : nat) (w : list Z) : list Z :=
  match n with
  | O => w
  | S n' => schedule n' (w ++ [next_word w])
  end.

Definition sha_round (v : Working) (kw : Z * Z) : Working :=
  let T1 := vh v + Sigma1 (ve v) + Ch (ve v) (vf v) (vg v) + kw.1 + kw.2 in
  let T2 := Sigma0 (va v) + Maj (va v) (vb v) (vc v) in
  mkWorking ((T1 + T2) mod 2 ^ 32) (va v) (vb v) (vc v) ((vd v + T1) mod 2 ^ 32) (ve v) (vf v) (vg v).

Definition compress (h : Working) (w : list Z) : list Z :=
  let v := fold_left sha_round (zip SHA_COMPRESS_K w) h in
  zip_with (fun x y => (x + y) mod 2 ^ 32) (working_list h) (working_list v).

(** The digest of the one-block message [abc]. *)
Example sha256_abc :
  compress (mkWorking 0x6a09e667 0xbb67ae85 0x3c6ef372 0xa54ff53a 0x510e527f 0x9b05688c 0x1f83d9ab 0x5be0cd19)
    (schedule 48 ([0x61626380] ++ replicate 14 0 ++ [24])) =
  [0xba7816bf; 0x8f01cfea; 0x414140de; 0x5dae2223; 0xb00361a3; 0x96177a9c; 0xb410ff61; 0xf20015ad].
Proof. vm_compute. reflexivity. Qed.

(** ** Words in memory *)

Lemma words_at_S f ptr n : words_at f ptr (S n) = words_at f ptr n ++ [f (ptr + 4 * Z.of_nat n)].
Proof. unfold words_at, zseq. by rewrite seq_S, !map_app. Qed.

Lemma length_words_at f ptr n : length (words_at f ptr n) = n.
Proof. unfold words_at. by rewrite length_map, length_zseq. Qed.

Lemma nth_words_at f ptr n j : (j < n)%nat -> nth j (words_at f ptr n) 0 = f (ptr + 4 * Z.of_nat j).
Proof.
  intros Hj. unfold words_at, zseq. rewrite map_map.
  rewrite (nth_indep _ 0 ((fun x => f (ptr + 4 * (0 + Z.of_nat x))) 0%nat))
    by (by rewrite length_map, length_seq).
  rewrite (map_nth (fun x => f (ptr + 4 * (0 + Z.of_nat x)))). by rewrite seq_nth.
Qed.

Lemma words_at_set f ptr n a v : ptr mod 4 = 0 -> ptr + 4 * Z.of_nat n <= a ->
  words_at (set_mem a v f) ptr n = words_at f ptr n.
Proof.
  intros Hp Ha. unfold words_at. apply map_ext_in. intros i Hi. unfold zseq in Hi.
  apply in_map_iff in Hi as (k & <- & Hk). apply in_seq in Hk. unfold set_mem.
  rewrite (proj2 (Z.eqb_neq _ _)); [done|]. Z.to_euclidean_division_equations; lia.
Qed.

Lemma set_mem_eq a v f : set_mem a v f a = v.
Proof. unfold set_mem. by rewrite Z.eqb_refl. Qed.

(** ** Extend *)

(** Merge nested reductions of a sum, then compare the sums. *)
Ltac wsum := unfold wadd, u32, wrap; apply eqm_eq; rewrite ?eqm_mod; constructor; f_equal; ring.

Lemma sum_u32 a b c d : a +u b +u c +u d = (a + d + c + b) mod 2 ^ 32.
Proof. wsum. Qed.

Section Extend.
  Context (ptr : Z) (c0 : SyscallContext).
  Hypothesis Hr : region ptr 64.

Lemma extend_addr i j : 0 <= i < 64 -> 0 < j <= i ->
  ptr +u ((i - j) *u 4) = ptr + 4 * (i - j) /\ valid_mem_addr (ptr + 4 * (i - j)) = true.
Proof. intros Hi Hj. split; [apply (word_addr ptr 64) | apply (region_valid ptr 64)]; (done || lia). Qed.

Lemma does_extend_step f ctx (i : nat) : (16 <= i < 64)%nat -> leaves f c0 ctx ->
  does (extend_step ptr (Z.of_nat i)) ctx (fun _ ctx' =>
    leaves (set_mem (ptr + 4 * Z.of_nat i) (next_word (words_at f ptr i)) f) c0 ctx').
Proof.
  intros Hi H. unfold extend_step.
  assert (forall j, (0 < j <= 16)%nat -> nth (i - j) (words_at f ptr i) 0 = f (ptr + 4 * (Z.of_nat i - Z.of_nat j))) as Hn.
  { intros j Hj. rewrite nth_words_at by lia. do 3 f_equal. lia. }
  destruct (extend_addr (Z.of_nat i) 15) as [-> V15]; [lia..|].
  destruct (extend_addr (Z.of_nat i) 2) as [-> V2]; [lia..|].
  destruct (extend_addr (Z.of_nat i) 16) as [-> V16]; [lia..|].
  destruct (extend_addr (Z.of_nat i) 7) as [-> V7]; [lia..|].
  eapply does_bind; [by apply does_mr|]. intros [r15 w15] c1 [E15 H1]. cbn in E15.
  eapply does_bind; [by apply does_mr|]. intros [r2 w2] c2 [E2 H2]. cbn in E2.
  eapply does_bind; [by apply does_mr|]. intros [r16 w16] c3 [E16 H3]. cbn in E16.
  eapply does_bind; [by apply does_mr|]. intros [r7 w7] c4 [E7 H4]. cbn in E7. cbv zeta.
  assert (sha_s1 w2 +u w16 +u sha_s0 w15 +u w7 = next_word (words_at f ptr i)) as ->.
  { unfold next_word. rewrite length_words_at, !Hn by lia.
    change (Z.of_nat 2) with 2. change (Z.of_nat 7) with 7. change (Z.of_nat 15) with 15. change (Z.of_nat 16) with 16.
    rewrite <- E2, <- E7, <- E15, <- E16, sum_u32. unfold sha_s1, sha_s0, sigma1, sigma0, ROTR, SHR.
    by rewrite !Z.shiftr_div_pow2 by lia. }
  rewrite (word_addr ptr 64) by (done || lia).
  eapply does_bind; [apply does_mw; [apply (region_valid ptr 64); (done || lia) | exact H4]|].
  intros w c5 H5. eapply does_bind; [apply does_tick; exact H5|]. intros [] c6 H6. exact H6.
Qed.

Lemma does_extend_loop n : forall (i : nat) f ctx, (i + n = 64)%nat -> (16 <= i)%nat -> leaves f c0 ctx ->
  does (collect (zseq (Z.of_nat i) n) (extend_step ptr)) ctx (fun _ ctx' => exists g,
    leaves g c0 ctx' /\ words_at g ptr 64 = schedule n (words_at f ptr i) /\
    forall a, a < ptr \/ ptr + 256 <= a -> g a = f a).
Proof.
  induction n as [|n IH]; intros i f ctx Hi H16 H.
  { apply does_ret. exists f. assert (i = 64%nat) as -> by lia. done. }
  pose proof Hr as (H32 & H4 & _). rewrite zseq_S. cbn [collect].
  eapply does_bind; [apply does_extend_step; [lia | exact H]|]. intros st c1 H1.
  replace (Z.of_nat i + 1) with (Z.of_nat (S i)) by lia.
  eapply does_bind; [apply (IH (S i)); [lia | lia | exact H1]|].
  intros r c2 (g & Hg & Hw & Hout). apply does_ret. exists g. split_and!; [exact Hg | |].
  - rewrite Hw. cbn [schedule]. f_equal. rewrite words_at_S, words_at_set, set_mem_eq by (lia || done). done.
  - intros a Ha. rewrite Hout by done. unfold set_mem. rewrite (proj2 (Z.eqb_neq _ _)); [done|].
    Z.to_euclidean_division_equations; lia.
Qed.
End Extend.

(** C22. [SHA_EXTEND] computes the message schedule of FIPS 180-4 in place: on any 64-word
    buffer the program may access it succeeds, the buffer then holds the schedule of its
    first 16 words, and registers, all other memory and the program counter are unchanged. *)
Theorem sha_extend_correct ctx ptr : region ptr 64 ->
  exists ctx', execute Sha256ExtendSyscall SHA_EXTEND ptr 0 ctx = Ok None ctx' /\
    words_at (mem_val (rt ctx')) ptr 64 = schedule 48 (words_at (mem_val (rt ctx)) ptr 16) /\
    only_writes ptr 64 ctx ctx'.
Proof.
  intros Hr. unfold Sha256ExtendSyscall. cbn [execute].
  assert (does (clk_init <- get_clk ;; massert (0 =? 0) ;;;
    steps <- collect (zseq 16 48) (extend_step ptr) ;; sh <- get_shard ;; lma <- postprocess ;;
    emit_precompile add_precompile_event clk_init SHA_EXTEND SHA_EXTEND ptr 0
      (PShaExtend (mkShaExtendEvent sh clk_init ptr (map x15 steps) (map x2 steps)
        (map x16 steps) (map x7 steps) (map xw steps) lma))) ctx (fun r ctx' => r = None /\ exists g,
    leaves g ctx ctx' /\ words_at g ptr 64 = schedule 48 (words_at (mem_val (rt ctx)) ptr 16) /\
    forall a, a < ptr \/ ptr + 256 <= a -> g a = mem_val (rt ctx) a)) as H.
  { eapply (does_bind _ _ _ (fun _ c => c = ctx)); [by apply does_gets|]. intros k c ->.
    eapply (does_bind _ _ _ (fun _ c => c = ctx)); [by apply does_massert|]. intros _ c ->.
    eapply does_bind; [apply (does_extend_loop ptr ctx Hr 48 16); [lia | lia | apply leaves_start]|].
    intros st c1 (g & Hg & Hw & Hout).
    eapply (does_bind _ _ _ (fun _ c => c = c1)); [by apply does_gets|]. intros sh c ->.
    eapply does_bind; [apply does_postprocess; exact Hg|]. intros lma c2 H2.
    refine (does_weaken _ _ _ _ _ (does_emit g ctx c2 _ SHA_EXTEND SHA_EXTEND _ _ _ eq_refl H2)).
    intros r c3 [-> H3]. split; [reflexivity|]. exists g. split_and!; [exact H3 | exact Hw | exact Hout]. }
  apply does_ok in H as (r & ctx' & E & -> & g & Hg & Hw & Hout). exists ctx'.
  split_and!; [exact E | by rewrite (leaves_words_at _ _ _ _ _ Hg)|]. destruct Hg as [Hm Hreg Hs].
  split; [intros a Ha; rewrite Hm; apply Hout; lia | exact Hreg | exact Hs].
Qed.

(** A program buffer holding 1, 2, ..., 16 at address 4096. *)
Definition sha_ctx : SyscallContext :=
  SyscallContext_new (upd_state (upd_memory (fun m =>
    fold_left (fun m i => Flat.update Flat.Page (4096 + 4 * i) (mkMemoryRecord 0 0 (i + 1)) m) (zseq 0 16) m)) (boot [])).

Lemma sha_extend_correct_witness :
  exists ctx', execute Sha256ExtendSyscall SHA_EXTEND 4096 0 sha_ctx = Ok None ctx' /\
    words_at (mem_val (rt ctx')) 4096 64 = schedule 48 (map (fun i => i + 1) (zseq 0 16)).
Proof.
  destruct (sha_extend_correct sha_ctx 4096) as (ctx' & E & Hw & _); [solve_region|].
  exists ctx'. split; [exact E|]. rewrite Hw. vm_compute. reflexivity.
Defined.

(** ** Compress *)

Lemma compress_round_eq v k w : compress_round v k w = sha_round v (k, w).
Proof.
  unfold compress_round, sha_round, Sigma0, Sigma1, Ch, Maj, ROTR. cbv zeta. cbn [fst snd].
  f_equal; wsum.
Qed.

Lemma does_compress_loop f c0 ptr ks : forall v ctx,
  Forall (fun ik : Z * Z => ptr +u (ik.1 *u 4) = ptr + 4 * ik.1 /\ valid_mem_addr (ptr + 4 * ik.1) = true) ks ->
  leaves f c0 ctx ->
  does (compress_loop ptr ks v) ctx (fun x ctx' =>
    x.2 = fold_left (fun v ik => sha_round v (ik.2, f (ptr + 4 * ik.1))) ks v /\ leaves f c0 ctx').
Proof.
  induction ks as [|[i k] ks IH]; intros v ctx Hk H; [by apply does_ret|].
  inversion_clear Hk as [|? ? [Ea Hv] Hk']. cbn [fst] in Ea, Hv. cbn [compress_loop]. rewrite Ea.
  eapply does_bind; [apply does_mr; [exact Hv | exact H]|]. intros [r w] c1 [Ew H1]. cbn in Ew. subst w.
  eapply does_bind; [apply IH; [exact Hk' | exact H1]|]. intros [rs v'] c2 [Ev H2]. cbn in Ev.
  apply does_ret. split; [|exact H2]. cbn [snd fold_left fst]. by rewrite Ev, compress_round_eq.
Qed.

Lemma fold_zip_words {A} (g : A -> Z * Z -> A) f ptr ks : forall i a,
  fold_left (fun v ik => g v (ik.2, f (ptr + 4 * ik.1))) (zip (zseq i (length ks)) ks) a =
  fold_left g (zip ks (map (fun i => f (ptr + 4 * i)) (zseq i (length ks)))) a.
Proof.
  induction ks as [|k ks IH]; intros i a; [done|]. cbn [length]. rewrite !zseq_S. cbn [zip zip_with fold_left map].
  apply IH.
Qed.

Lemma working_of_words f ptr : exists v, working_of (words_at f ptr 8) = Some v /\ working_list v = words_at f ptr 8.
Proof. eexists. split; reflexivity. Qed.

Lemma wadd_zip h v : zip_with wadd h v = zip_with (fun x y => (x + y) mod 2 ^ 32) h v.
Proof. reflexivity. Qed.

(** C21. [SHA_COMPRESS] computes the compression function of FIPS 180-4: on a 64-word
    schedule and an 8-word state the program may access, at different addresses, it
    succeeds, the state then holds the compressed state, and registers, all other memory
    and the program counter are unchanged. *)
Theorem sha_compress_correct ctx w_ptr h_ptr : region w_ptr 64 -> region h_ptr 8 -> w_ptr <> h_ptr ->
  exists ctx' h, execute Sha256CompressSyscall SHA_COMPRESS w_ptr h_ptr ctx = Ok None ctx' /\
    working_list h = words_at (mem_val (rt ctx)) h_ptr 8 /\
    words_at (mem_val (rt ctx')) h_ptr 8 = compress h (words_at (mem_val (rt ctx)) w_ptr 64) /\
    only_writes h_ptr 8 ctx ctx'.
Proof.
  intros Hw Hh Hne. set (f := mem_val (rt ctx)). destruct (working_of_words f h_ptr) as (h & Eh & Lh).
  set (out := compress h (words_at f w_ptr 64)).
  assert (does (execute Sha256CompressSyscall SHA_COMPRESS w_ptr h_ptr) ctx (fun r ctx' =>
    r = None /\ leaves (put_words h_ptr out f) ctx ctx')) as H.
  { unfold Sha256CompressSyscall. cbn [execute].
    eapply (does_bind _ _ _ (fun _ c => c = ctx)).
    { apply does_massert; [|done]. by rewrite (proj2 (Z.eqb_neq _ _) Hne). }
    intros _ c ->. eapply (does_bind _ _ _ (fun _ c => c = ctx)); [by apply does_gets|]. intros k c ->.
    eapply does_bind; [apply (does_mr_slice f ctx ctx h_ptr 8 Hh), leaves_start|].
    intros [hr hx] c1 [Ex H1]. cbn [snd] in Ex. subst hx. rewrite Eh.
    eapply (does_bind _ _ _ (fun v c => v = h /\ c = c1)); [by apply does_unwrap with h|]. intros v c [-> ->].
    eapply does_bind; [apply (does_compress_loop f ctx w_ptr); [|exact H1]|].
    { apply Forall_forall. intros [i k'] Hi. apply elem_of_zip_l, list_elem_of_In in Hi. cbn [fst].
      unfold zseq in Hi. apply in_map_iff in Hi as (j & <- & Hj). apply in_seq in Hj.
      split; [apply (word_addr w_ptr 64) | apply (region_valid w_ptr 64)]; (done || lia). }
    intros [ws v] c2 [Ev H2]. cbn [snd] in Ev.
    change 64%nat with (length SHA_COMPRESS_K) in Ev. rewrite (fold_zip_words sha_round f w_ptr) in Ev.
    eapply does_bind; [apply does_tick; exact H2|]. intros [] c3 H3.
    rewrite <- Lh, Ev. change (zip_with wadd _ _) with out.
    eapply does_bind; [apply does_mw_slice; [exact Hh | exact H3]|]. intros wr c4 H4.
    eapply (does_bind _ _ _ (fun _ c => c = c4)); [by apply does_gets|]. intros sh c ->.
    eapply does_bind; [apply does_postprocess; exact H4|]. intros lma c5 H5.
    exact (does_emit _ ctx c5 _ SHA_COMPRESS SHA_COMPRESS _ _ _ eq_refl H5). }
  apply does_ok in H as (r & ctx' & E & -> & Hl). pose proof Hh as (_ & H4 & _).
  destruct (leaves_put ctx ctx' h_ptr out H4 Hl) as [Hout Hrest].
  exists ctx', h. split_and!; [exact E | exact Lh | exact Hout | exact Hrest].
Qed.

Lemma sha_compress_correct_witness :
  exists ctx' h, execute Sha256CompressSyscall SHA_COMPRESS 4096 8192 sha_ctx = Ok None ctx' /\
    words_at (mem_val (rt ctx')) 8192 8 = compress h (words_at (mem_val (rt sha_ctx)) 4096 64).
Proof.
  destruct (sha_compress_correct sha_ctx 4096 8192) as (ctx' & h & E & _ & Hw & _);
    [solve_region | solve_region | lia |].
  exists ctx', h. split; [exact E | exact Hw].
Defined.
