(* ===== verification/BigInt.v ===== *)
(** * The big-integer and curve precompiles compute what they promise
    (syscalls/precompiles/{uint256,u256x2048_mul,fptower,weierstrass}, events/precompiles/ec.rs)

    Digits and numbers round-trip, so that what a precompile writes to memory is
    the number it computed. *)

From Stdlib Require Import ZArith Lia Bool.
From stdpp Require Import base gmap list.
From S2P Require Import Prelude Monad Isa SyscallCode Memory Events ByteLookup Air Record Alu Dependencies State Executor Context Step Run Syscalls.
From S2P Require Import Curves Precompiles Access Refinement Ecall CallMem CurveProps Sha.

Local Open Scope Z_scope.
Local Open Scope rv_scope.

(** ** Digits *)

Section Digits.
  Context (w : Z) (Hw : 0 < w).

Lemma length_Z_to_digits n : forall x, length (Z_to_digits w n x) = n.
Proof. induction n; intros x; cbn; auto. Qed.

Lemma digits_of_Z n : forall x, 0 <= x < 2 ^ (w * Z.of_nat n) -> digits_to_Z w (Z_to_digits w n x) = x.
Proof.
  induction n as [|n IH]; intros x Hx; cbn [Z_to_digits digits_to_Z].
  - change (Z.of_nat 0) with 0 in Hx. rewrite Z.mul_0_r in Hx. cbn in Hx. lia.
  - assert (0 < 2 ^ w) as H2 by (apply Z.pow_pos_nonneg; lia).
    rewrite IH; [pose proof (Z.div_mod x (2 ^ w)); lia|].
    rewrite Nat2Z.inj_succ, Z.mul_succ_r, Z.pow_add_r in Hx by lia.
    split; [apply Z.div_pos; lia | apply Z.div_lt_upper_bound; lia].
Qed.

Definition digit (d : Z) : Prop := 0 <= d < 2 ^ w.

Lemma digits_range l : Forall digit l -> 0 <= digits_to_Z w l < 2 ^ (w * Z.of_nat (length l)).
Proof.
  induction 1 as [|d l Hd _ IH]; cbn [digits_to_Z length].
  - change (Z.of_nat 0) with 0. rewrite Z.mul_0_r. cbn. lia.
  - rewrite Nat2Z.inj_succ, Z.mul_succ_r, Z.pow_add_r by lia. unfold digit in Hd. nia.
Qed.
End Digits.

Lemma words_of_number n x : 0 <= x < 2 ^ (32 * Z.of_nat n) -> words_to_Z (Z_to_words n x) = x.
Proof. apply digits_of_Z. lia. Qed.

Lemma length_Z_to_words n x : length (Z_to_words n x) = n.
Proof. apply length_Z_to_digits. Qed.

Lemma words_range l : Forall is_u32 l -> 0 <= words_to_Z l < 2 ^ (32 * Z.of_nat (length l)).
Proof.
  intros H. apply digits_range; [lia|]. eapply Forall_impl; [exact H|]. intros x Hx. by apply is_u32_iff in Hx.
Qed.

(** The number stored in [n] words at [ptr]. *)
Definition number_at (s : Executor) (ptr : Z) (n : nat) : Z := words_to_Z (words_at (mem_val s) ptr n).

(** ** Operands read with [slice_unsafe] *)

(** What [slice_unsafe] sees: the word of the memory map, which is 0 for a word
    that was hinted and not accessed yet. *)
Definition seen (s : Executor) (addr : Z) : Z := peek Flat.Page addr s.
Definition seen_number (s : Executor) (ptr : Z) (n : nat) : Z := words_to_Z (words_at (seen s) ptr n).

(** The words at [ptr] were accessed before or carry no pending hint. *)
Definition settled (s : Executor) (ptr : Z) (n : nat) : Prop :=
  forall i, 0 <= i < Z.of_nat n -> peek Flat.Page (ptr + 4 * i) s = mem_val s (ptr + 4 * i).

Lemma does_word f c0 ctx addr : valid_mem_addr addr = true -> 0 <= addr -> leaves f c0 ctx ->
  does (word_unsafe addr) ctx (fun v ctx' => v = peek Flat.Page addr (rt ctx) /\ leaves f c0 ctx' /\
    memory (state (rt ctx')) = memory (state (rt ctx))).
Proof.
  intros Hv H0 H. unfold word_unsafe, does.
  destruct (word_ok addr (rt ctx) (valid_mem_in_range _ Hv H0)) as (s' & E & B & _).
  erewrite with_rt_ok by exact E. pose proof (book_frame _ _ B) as [C V].
  split_and!; [reflexivity | |].
  - apply (leaves_frame f c0 ctx); [exact H | exact V|]. unfold surroundings. cbn [upd_rt rt ctx_next_pc ctx_exit_code].
    by destruct (same_ctl_config _ _ C) as [-> ->].
  - cbn [upd_rt rt]. by rewrite (proj2 B).
Qed.

Lemma settled_seen s ptr n : settled s ptr n -> words_at (seen s) ptr n = words_at (mem_val s) ptr n.
Proof.
  intros Hs. unfold words_at. apply map_ext_in. intros i Hi. unfold zseq in Hi. apply in_map_iff in Hi as (k & <- & Hk). apply in_seq in Hk.
  apply Hs. lia.
Qed.

Lemma does_slice_unsafe f c0 ctx ptr n : region ptr n -> leaves f c0 ctx ->
  does (slice_unsafe ptr n) ctx (fun x ctx' => x = words_at (seen (rt ctx)) ptr n /\ leaves f c0 ctx').
Proof.
  intros Hr H. unfold slice_unsafe. rewrite (word_addrs_eq ptr n Hr).
  set (m0 := memory (state (rt ctx))).
  refine (does_weaken _ _ _ _ _ (does_collect _ word_unsafe
    (fun pre acc s => acc = map (seen (rt ctx)) pre /\ leaves f c0 s /\ memory (state (rt s)) = m0)
    [] [] ctx (conj eq_refl (conj H eq_refl)) _)).
  { intros x s' (E & Hl & _). split; [|exact Hl]. cbn in E. rewrite E. unfold words_at. by rewrite map_map. }
  intros pre a acc s (E & Hs & Hm) Ha. apply list_elem_of_In, in_map_iff in Ha as (i & <- & Hi).
  unfold zseq in Hi. apply in_map_iff in Hi as (k & <- & Hk). apply in_seq in Hk.
  assert (valid_mem_addr (ptr + 4 * (0 + Z.of_nat k)) = true) as Hv by (apply (region_valid ptr n); [done | lia]).
  assert (0 <= ptr + 4 * (0 + Z.of_nat k)) as H0 by (destruct Hr; lia).
  refine (does_weaken _ _ _ _ _ (does_word f c0 s _ Hv H0 Hs)).
  intros v s' (Ev & Hs' & Hm'). split_and!; [|exact Hs' | by rewrite Hm'].
  rewrite map_app, E. cbn [map]. do 2 f_equal. rewrite Ev. unfold seen, peek, mem_entry. by rewrite Hm.
Qed.

(** ** Multiplication of 256-bit integers *)

Lemma uint256_range x y m : 0 <= m < 2 ^ 256 -> 0 <= uint256_result x y m < 2 ^ 256.
Proof.
  intros Hm. unfold uint256_result. destruct (Z.eqb_spec m 0); [apply Z.mod_pos_bound; lia|].
  pose proof (Z.mod_pos_bound (x * y) m). lia.
Qed.

(** C24. [UINT256_MUL] replaces the 256-bit number at [x_ptr] by its product with the number
    at [y_ptr] modulo the number that follows it, modulo 2^256 when that is 0; it changes no
    other memory and no register.  The first operand is the number [slice_unsafe] sees: the
    number in memory if its words were accessed before or carry no pending hint, and with 0
    for words that were hinted and not accessed. *)
Theorem uint256_mul_correct ctx x_ptr y_ptr :
  let num := number_at (rt ctx) in
  let x := seen_number (rt ctx) x_ptr 8 in
  region x_ptr 8 -> region y_ptr 16 ->
  Forall is_u32 (words_at (mem_val (rt ctx)) (y_ptr + 32) 8) ->
  exists ctx', execute Uint256MulSyscall UINT256_MUL x_ptr y_ptr ctx = Ok None ctx' /\
    number_at (rt ctx') x_ptr 8 =
      (x * num y_ptr 8%nat) mod
      (if num (y_ptr + 32) 8%nat =? 0 then 2 ^ 256 else num (y_ptr + 32) 8%nat) /\
    (settled (rt ctx) x_ptr 8 -> x = num x_ptr 8%nat) /\
    only_writes x_ptr 8 ctx ctx'.
Proof.
  intros num x0 Hx Hy Hm. pose proof Hx as (Hx32 & Hx4 & _). pose proof Hy as (Hy32 & Hy4 & Hyp).
  set (f := mem_val (rt ctx)). set (out := Z_to_words 8 (uint256_result x0 (num y_ptr 8%nat)
    (num (y_ptr + 32) 8%nat))).
  assert (y_ptr +u 32 = y_ptr + 32) as E32
    by (unfold wadd, BABYBEAR_PRIME in *; apply u32_small, is_u32_iff; lia).
  assert (region y_ptr 8) as Hy1 by (split_and!; [lia | done | lia]).
  assert (region (y_ptr + 32) 8) as Hy2
    by (split_and!; [lia | rewrite Z.add_mod, Hy4 by lia; done | lia]).
  assert (does (execute Uint256MulSyscall UINT256_MUL x_ptr y_ptr) ctx (fun r ctx' =>
    r = None /\ leaves (put_words x_ptr out f) ctx ctx')) as H.
  { unfold Uint256MulSyscall, assert_aligned. cbn [execute]. rewrite E32.
    eapply (does_bind _ _ _ (fun _ c => c = ctx)); [by apply does_gets|]. intros k c ->.
    eapply (does_bind _ _ _ (fun _ c => c = ctx)); [by apply does_massert; [rewrite Hx4|]|]. intros _ c ->.
    eapply (does_bind _ _ _ (fun _ c => c = ctx)); [by apply does_massert; [rewrite Hy4|]|]. intros _ c ->.
    eapply does_bind; [apply (does_slice_unsafe f ctx ctx); [exact Hx | apply leaves_start]|].
    intros x c1 [-> H1]. eapply does_bind; [apply (does_mr_slice f ctx c1 y_ptr 8 Hy1 H1)|].
    intros [ry y] c2 [Ey H2]. cbn [snd] in Ey. subst y.
    eapply does_bind; [apply (does_mr_slice f ctx c2 (y_ptr + 32) 8 Hy2 H2)|].
    intros [rm m] c3 [Em H3]. cbn [snd] in Em. subst m. cbv zeta.
    eapply does_bind; [apply does_tick; exact H3|]. intros [] c4 H4.
    eapply does_bind; [apply (does_mw_slice out f ctx c4 x_ptr); [exact Hx | exact H4]|]. intros wr c5 H5.
    eapply (does_bind _ _ _ (fun _ c => c = c5)); [by apply does_gets|]. intros sh c ->.
    eapply does_bind; [apply does_postprocess; exact H5|]. intros lma c6 H6.
    exact (does_emit _ ctx c6 _ UINT256_MUL UINT256_MUL _ _ _ eq_refl H6). }
  apply does_ok in H as (r & ctx' & E & -> & Hl). destruct (leaves_put ctx ctx' x_ptr out Hx4 Hl) as [Hout Hrest].
  exists ctx'. split_and!; [exact E | | intros Hset; unfold x0, seen_number; by rewrite (settled_seen _ _ _ Hset) | exact Hrest].
  unfold number_at. change 8%nat with (length out) at 1. rewrite Hout. unfold out.
  rewrite words_of_number; [unfold uint256_result; by destruct (_ =? 0)|].
  apply uint256_range. change (2 ^ 256) with (2 ^ (32 * Z.of_nat (length (words_at f (y_ptr + 32) 8)))).
  by apply words_range.
Qed.

(** Numbers 3 at 4096 and 5 at 8192, modulus 7 at 8224. *)
Definition mul_ctx : SyscallContext :=
  SyscallContext_new (upd_state (upd_memory (fun m =>
    Flat.update Flat.Page 4096 (mkMemoryRecord 0 0 3)
      (Flat.update Flat.Page 8192 (mkMemoryRecord 0 0 5)
        (Flat.update Flat.Page 8224 (mkMemoryRecord 0 0 7) m)))) (boot [])).

(** Without pending hints every word is settled. *)
Lemma settled_no_hints s ptr n :
  (forall a, Flat.lookup Flat.Page a (uninitialized_memory (state s)) = None) -> settled s ptr n.
Proof. intros H i _. apply peek_entry_val. right. apply H. Qed.

Lemma uint256_mul_correct_witness :
  exists ctx', execute Uint256MulSyscall UINT256_MUL 4096 8192 mul_ctx = Ok None ctx' /\
    number_at (rt ctx') 4096 8 = 1.
Proof.
  destruct (uint256_mul_correct mul_ctx 4096 8192) as (ctx' & E & Hn & _);
    [solve_region | solve_region | |].
  - assert (words_at (mem_val (rt mul_ctx)) (8192 + 32) 8 = [7; 0; 0; 0; 0; 0; 0; 0]) as -> by (vm_compute; reflexivity).
    repeat constructor; apply is_u32_iff; lia.
  - exists ctx'. split; [exact E|]. rewrite Hn. vm_compute. reflexivity.
Defined.

(** ** Prime fields *)

Definition fp_spec (op : FieldOperation) (a b p : Z) : Z :=
  match op with FAdd => (a + b) mod p | FSub => (a - b) mod p | _ => (a * b) mod p end.

Lemma fp_result_spec op x y p : 0 < p -> op <> FDiv ->
  fp_result op (x mod p) (y mod p) p = Some (fp_spec op x y p).
Proof.
  intros Hp Hop. pose proof (Z.mod_pos_bound x p Hp). pose proof (Z.mod_pos_bound y p Hp).
  destruct op; cbn [fp_result fp_spec]; try done; f_equal.
  - symmetry. apply Zplus_mod.
  - symmetry. apply Zmult_mod.
  - rewrite nsub_ok by lia. cbn [mbind option_bind]. f_equal.
    replace (x mod p + p - y mod p) with (x mod p - y mod p + 1 * p) by lia.
    rewrite Z_mod_plus_full. symmetry. apply Zminus_mod.
Qed.

Lemma fp_spec_range op x y p : 0 < p -> 0 <= fp_spec op x y p < p.
Proof. intros Hp. destruct op; cbn [fp_spec]; by apply Z.mod_pos_bound. Qed.

Lemma fp_modulus P : P = Bn254Fp \/ P = Bls12381Fp ->
  0 < modulus (fp_params P) < 2 ^ (32 * Z.of_nat (WordsFieldElement (fp_params P))).
Proof. intros [-> | ->]; vm_compute; split; reflexivity. Qed.

(** C25. The field precompiles compute in the field: [FpOpSyscall] for addition, subtraction
    or multiplication in the base field of BN254 or BLS12-381 replaces the number at [x_ptr]
    by the result of the operation with the number at [y_ptr], reduced modulo the prime even
    when the operands are not, and changes nothing else.  The first operand is the number
    [slice_unsafe] sees: the number in memory if its words were accessed before or carry no
    pending hint, and with 0 for words that were hinted and not accessed. *)
Theorem fp_op_correct P op code key ctx x_ptr y_ptr :
  let n := WordsFieldElement (fp_params P) in
  let p := modulus (fp_params P) in
  let x := seen_number (rt ctx) x_ptr n in
  P = Bn254Fp \/ P = Bls12381Fp -> op <> FDiv -> fp_key (FIELD_TYPE P) code = Some key ->
  region x_ptr n -> region y_ptr n ->
  exists ctx', execute (FpOpSyscall P op) code x_ptr y_ptr ctx = Ok None ctx' /\
    number_at (rt ctx') x_ptr n = fp_spec op x (number_at (rt ctx) y_ptr n) p /\
    (settled (rt ctx) x_ptr n -> x = number_at (rt ctx) x_ptr n) /\
    only_writes x_ptr n ctx ctx'.
Proof.
  intros n p x0 HP Hop Hkey Hx Hy. pose proof Hx as (_ & Hx4 & _). pose proof Hy as (_ & Hy4 & _).
  pose proof (fp_modulus P HP) as Hp. fold n p in Hp.
  set (f := mem_val (rt ctx)).
  set (r := fp_spec op x0 (number_at (rt ctx) y_ptr n) p).
  set (out := Z_to_words n r).
  assert (length out = n) as Hlen by apply length_Z_to_words.
  assert (does (execute (FpOpSyscall P op) code x_ptr y_ptr) ctx (fun r ctx' =>
    r = None /\ leaves (put_words x_ptr out f) ctx ctx')) as H.
  { unfold FpOpSyscall, assert_aligned. cbn [execute]. fold n p.
    eapply (does_bind _ _ _ (fun _ c => c = ctx)); [by apply does_gets|]. intros k c ->.
    eapply (does_bind _ _ _ (fun _ c => c = ctx)); [by apply does_massert; [rewrite Hx4|]|]. intros _ c ->.
    eapply (does_bind _ _ _ (fun _ c => c = ctx)); [by apply does_massert; [rewrite Hy4|]|]. intros _ c ->.
    cbv zeta. eapply does_bind; [apply (does_slice_unsafe f ctx ctx); [exact Hx | apply leaves_start]|].
    intros x c1 [-> H1]. eapply does_bind; [apply (does_mr_slice f ctx c1 y_ptr n Hy H1)|].
    intros [ry y] c2 [Ey H2]. cbn [snd] in Ey. subst y.
    eapply (does_bind _ _ _ (fun v c => v = r /\ c = c2)).
    { eapply does_unwrap; [apply fp_result_spec; [apply Hp | exact Hop] | done]. }
    intros v c [-> ->]. eapply does_bind; [apply does_tick; exact H2|]. intros [] c3 H3.
    eapply does_bind; [apply (does_mw_slice out f ctx c3 x_ptr); [by rewrite Hlen | exact H3]|]. intros wr c4 H4.
    eapply (does_bind _ _ _ (fun _ c => c = c4)); [by apply does_gets|]. intros sh c ->.
    eapply does_bind; [apply does_postprocess; exact H4|]. intros lma c5 H5. rewrite Hkey.
    eapply (does_bind _ _ _ (fun k c => k = key /\ c = c5)); [by apply does_unwrap with key|]. intros k' c [-> ->].
    apply does_emit; [|exact H5].
    revert Hkey. destruct HP as [-> | ->]; cbn [FIELD_TYPE Bn254Fp Bls12381Fp fp_key];
      destruct code; (discriminate || by intros [= <-]). }
  apply does_ok in H as (z & ctx' & E & -> & Hl). destruct (leaves_put ctx ctx' x_ptr out Hx4 Hl) as [Hout Hrest].
  rewrite Hlen in Hout, Hrest. exists ctx'. split_and!; [exact E | | intros Hset; unfold x0, seen_number; by rewrite (settled_seen _ _ _ Hset) | exact Hrest].
  unfold number_at at 1. rewrite Hout. apply words_of_number.
  pose proof (fp_spec_range op x0 (number_at (rt ctx) y_ptr n) p (proj1 Hp)). fold r in H. lia.
Qed.

Lemma fp_op_correct_witness :
  exists ctx', execute (FpOpSyscall Bn254Fp FSub) BN254_FP_SUB 4096 8192 mul_ctx = Ok None ctx' /\
    only_writes 4096 8 mul_ctx ctx'.
Proof.
  destruct (fp_op_correct Bn254Fp FSub BN254_FP_SUB BN254_FP_ADD mul_ctx 4096 8192) as (ctx' & E & _ & _ & H);
    [by left | discriminate | reflexivity | change (region 4096 8); solve_region
     | change (region 8192 8); solve_region |].
  exists ctx'. split; [exact E | exact H].
Defined.

(** ** Weierstrass curves *)

(** The point stored in [n] words at [ptr]. *)
Definition point_at (s : Executor) (ptr : Z) (n : nat) : AffinePoint := from_words_le (words_at (mem_val s) ptr n).

(** The point [slice_unsafe] sees. *)
Definition seen_point (s : Executor) (ptr : Z) (n : nat) : AffinePoint := from_words_le (words_at (seen s) ptr n).

Lemma settled_point s ptr n : settled s ptr n -> seen_point s ptr n = point_at s ptr n.
Proof. intros Hs. unfold seen_point, point_at. by rewrite settled_seen. Qed.

Lemma take_app_exact {A} n (l l' : list A) : length l = n -> take n (l ++ l') = l.
Proof. intros <-. by rewrite take_app_length. Qed.

Lemma drop_app_exact {A} n (l l' : list A) : length l = n -> drop n (l ++ l') = l'.
Proof. intros <-. by rewrite drop_app_length. Qed.

Section CurvePoints.
  Context (f : FieldParameters) (k : nat).
  Hypothesis Hk : NB_LIMBS f = (4 * k)%nat.

Lemma curve_point_words : WordsCurvePoint f = (2 * k)%nat.
Proof. unfold WordsCurvePoint. rewrite Hk. replace (4 * k)%nat with (2 * k * 2)%nat by lia. apply Nat.div_mul. lia. Qed.

Lemma half_words : (2 * k / 2)%nat = k.
Proof. rewrite Nat.mul_comm. apply Nat.div_mul. lia. Qed.

Lemma length_to_words q : length (to_words_le f q) = (2 * k)%nat.
Proof. unfold to_words_le. rewrite length_app, !length_Z_to_words, curve_point_words, half_words. lia. Qed.

(** A point with coordinates of [k] words survives the trip through memory. *)
Lemma point_words q : 0 <= px q < 2 ^ (32 * Z.of_nat k) -> 0 <= py q < 2 ^ (32 * Z.of_nat k) ->
  from_words_le (to_words_le f q) = q.
Proof.
  intros Hx Hy. unfold from_words_le. rewrite length_to_words, half_words.
  unfold to_words_le. rewrite curve_point_words, half_words.
  rewrite take_app_exact, drop_app_exact by apply length_Z_to_words.
  rewrite !words_of_number by done. by destruct q.
Qed.
End CurvePoints.

Section EcSyscalls.
  Context (E : EllipticCurve) (k : nat) (ctx : SyscallContext).
  Hypothesis Hk : NB_LIMBS (BaseField E) = (4 * k)%nat.
  Hypothesis Hed : CURVE_TYPE E <> Ed25519.

(** [r] fits the [2 k] words of a point. *)
Definition fits_words (r : AffinePoint) : Prop :=
  0 <= px r < 2 ^ (32 * Z.of_nat k) /\ 0 <= py r < 2 ^ (32 * Z.of_nat k).

Lemma point_written ctx' p_ptr r : fits_words r -> p_ptr mod 4 = 0 ->
  leaves (put_words p_ptr (to_words_le (BaseField E) r) (mem_val (rt ctx))) ctx ctx' ->
  point_at (rt ctx') p_ptr (2 * k) = r /\ only_writes p_ptr (2 * k) ctx ctx'.
Proof.
  intros [Hx Hy] H4 Hl. destruct (leaves_put _ _ _ _ H4 Hl) as [Hout Hrest].
  rewrite (length_to_words _ k Hk) in Hout, Hrest. split; [|exact Hrest].
  unfold point_at. rewrite Hout. by apply (point_words _ k Hk).
Qed.

(** What [WeierstrassAddAssignSyscall] does with the result of the group law. *)
Lemma ec_add_writes code p_ptr q_ptr r : should_send code = 1 ->
  region p_ptr (2 * k) -> region q_ptr (2 * k) -> fits_words r ->
  ec_add E (seen_point (rt ctx) p_ptr (2 * k)) (point_at (rt ctx) q_ptr (2 * k)) = Some r ->
  exists ctx', execute (WeierstrassAddAssignSyscall E) code p_ptr q_ptr ctx = Ok None ctx' /\
    point_at (rt ctx') p_ptr (2 * k) = r /\ only_writes p_ptr (2 * k) ctx ctx'.
Proof.
  intros Hcode Hp Hq Hfit Hr. pose proof Hp as (_ & Hp4 & _). pose proof Hq as (_ & Hq4 & _).
  set (f := mem_val (rt ctx)). set (out := to_words_le (BaseField E) r).
  assert (length out = (2 * k)%nat) as Hlen by (by apply length_to_words).
  assert (does (execute (WeierstrassAddAssignSyscall E) code p_ptr q_ptr) ctx (fun z ctx' =>
    z = None /\ leaves (put_words p_ptr out f) ctx ctx')) as H.
  { unfold WeierstrassAddAssignSyscall. cbn [execute].
    eapply (does_bind _ _ _ (fun _ c => leaves (put_words p_ptr out f) ctx c)).
    - unfold create_ec_add_event, assert_aligned. rewrite (curve_point_words _ k Hk). cbv zeta.
      eapply (does_bind _ _ _ (fun _ c => c = ctx)); [by apply does_gets|]. intros t c ->.
      eapply (does_bind _ _ _ (fun _ c => c = ctx)); [by apply does_massert; [rewrite Hp4|]|]. intros _ c ->.
      eapply (does_bind _ _ _ (fun _ c => c = ctx)); [by apply does_massert; [rewrite Hq4|]|]. intros _ c ->.
      eapply does_bind; [apply (does_slice_unsafe f ctx ctx); [exact Hp | apply leaves_start]|].
      intros x c1 [-> H1]. eapply does_bind; [apply (does_mr_slice f ctx c1 q_ptr _ Hq H1)|].
      intros [ry y] c2 [Ey H2]. cbn [snd] in Ey. subst y.
      eapply does_bind; [apply does_tick; exact H2|]. intros [] c3 H3.
      eapply (does_bind _ _ _ (fun v c => v = r /\ c = c3)); [by apply does_unwrap with r|]. intros v c [-> ->].
      eapply does_bind; [apply (does_mw_slice out f ctx c3 p_ptr); [by rewrite Hlen | exact H3]|]. intros wr c4 H4.
      eapply (does_bind _ _ _ (fun _ c => c = c4)); [by apply does_gets|]. intros sh c ->.
      eapply does_bind; [apply does_postprocess; exact H4|]. intros lma c5 H5. by apply does_ret.
    - intros ev c6 H6. cbv zeta.
      destruct (CURVE_TYPE E); try done; by apply does_emit_with;
        [apply add_accepts || apply record_add_accepts|..]. }
  apply does_ok in H as (z & ctx' & Ez & -> & Hl). exists ctx'.
  destruct (point_written ctx' p_ptr r Hfit Hp4 Hl) as [H1 H2]. by split_and!.
Qed.

(** And [WeierstrassDoubleAssignSyscall]. *)
Lemma ec_double_writes code p_ptr arg2 r : should_send code = 1 ->
  region p_ptr (2 * k) -> fits_words r ->
  ec_double E (seen_point (rt ctx) p_ptr (2 * k)) = Some r ->
  exists ctx', execute (WeierstrassDoubleAssignSyscall E) code p_ptr arg2 ctx = Ok None ctx' /\
    point_at (rt ctx') p_ptr (2 * k) = r /\ only_writes p_ptr (2 * k) ctx ctx'.
Proof.
  intros Hcode Hp Hfit Hr. pose proof Hp as (_ & Hp4 & _).
  set (f := mem_val (rt ctx)). set (out := to_words_le (BaseField E) r).
  assert (length out = (2 * k)%nat) as Hlen by (by apply length_to_words).
  assert (does (execute (WeierstrassDoubleAssignSyscall E) code p_ptr arg2) ctx (fun z ctx' =>
    z = None /\ leaves (put_words p_ptr out f) ctx ctx')) as H.
  { unfold WeierstrassDoubleAssignSyscall. cbn [execute].
    eapply (does_bind _ _ _ (fun _ c => leaves (put_words p_ptr out f) ctx c)).
    - unfold create_ec_double_event, assert_aligned. rewrite (curve_point_words _ k Hk). cbv zeta.
      eapply (does_bind _ _ _ (fun _ c => c = ctx)); [by apply does_gets|]. intros t c ->.
      eapply (does_bind _ _ _ (fun _ c => c = ctx)); [by apply does_massert; [rewrite Hp4|]|]. intros _ c ->.
      eapply does_bind; [apply (does_slice_unsafe f ctx ctx); [exact Hp | apply leaves_start]|].
      intros x c1 [-> H1].
      eapply (does_bind _ _ _ (fun v c => v = r /\ c = c1)); [by apply does_unwrap with r|]. intros v c [-> ->].
      eapply does_bind; [apply (does_mw_slice out f ctx c1 p_ptr); [by rewrite Hlen | exact H1]|]. intros wr c4 H4.
      eapply (does_bind _ _ _ (fun _ c => c = c4)); [by apply does_gets|]. intros sh c ->.
      eapply does_bind; [apply does_postprocess; exact H4|]. intros lma c5 H5. by apply does_ret.
    - intros ev c6 H6. cbv zeta.
      destruct (CURVE_TYPE E); try done; by apply does_emit_with;
        [apply add_accepts || apply record_add_accepts|..]. }
  apply does_ok in H as (z & ctx' & Ez & -> & Hl). exists ctx'.
  destruct (point_written ctx' p_ptr r Hfit Hp4 Hl) as [H1 H2]. by split_and!.
Qed.
End EcSyscalls.

Section Weierstrass.
  Context (t : CurveType) (f : FieldParameters) (a b : Z) (k : nat) (ctx : SyscallContext).
  Hypothesis Hk : NB_LIMBS f = (4 * k)%nat.
  Hypothesis Ht : t <> Ed25519.
  Hypothesis Hprime : Z.prime (modulus f).
  Hypothesis Hbig : modulus f <= 2 ^ (32 * Z.of_nat k).

Lemma reduced_fits r : reduced (modulus f) r -> fits_words k r.
Proof. intros [Hx Hy]. split; lia. Qed.

(** C23. The Weierstrass addition precompile, over any prime field whose modulus fits its words:
    given two reduced points of the curve with different [x] coordinates, it succeeds and
    leaves at [p_ptr] their sum [(s^2 - x1 - x2, s (x1 - x3) - y1)] with [s] the slope of the
    chord, reduced and on the curve, which determines it; nothing else in memory or registers
    changes.  The first operand is the point [slice_unsafe] sees: the point in memory if its
    words were accessed before or carry no pending hint, and with 0 for words that were hinted
    and not accessed. *)
Theorem weierstrass_add_correct code p_ptr q_ptr :
  let P := seen_point (rt ctx) p_ptr (2 * k) in
  let Q := point_at (rt ctx) q_ptr (2 * k) in
  should_send code = 1 -> region p_ptr (2 * k) -> region q_ptr (2 * k) ->
  reduced (modulus f) P -> reduced (modulus f) Q ->
  on_curve (modulus f) a b P -> on_curve (modulus f) a b Q -> px P <> px Q ->
  exists ctx', execute (WeierstrassAddAssignSyscall (SwCurve t f a)) code p_ptr q_ptr ctx = Ok None ctx' /\
    let R := point_at (rt ctx') p_ptr (2 * k) in
    reduced (modulus f) R /\ on_curve (modulus f) a b R /\ chord_sum (modulus f) P Q R /\
    (forall R', reduced (modulus f) R' -> chord_sum (modulus f) P Q R' -> R' = R) /\
    (settled (rt ctx) p_ptr (2 * k) -> P = point_at (rt ctx) p_ptr (2 * k)) /\
    only_writes p_ptr (2 * k) ctx ctx'.
Proof.
  intros P Q Hcode Hp Hq RP RQ CP CQ Hne.
  destruct (sw_add_on_curve (modulus f) a b Hprime P Q RP RQ CP CQ Hne) as (r & E & Rr & Cr & Hsum).
  destruct (ec_add_writes (SwCurve t f a) k ctx Hk Ht code p_ptr q_ptr r Hcode Hp Hq
    (reduced_fits r Rr) E) as (ctx' & Ex & Hpt & Hrest).
  exists ctx'. cbv zeta. rewrite Hpt. split_and!; [done.. | | apply settled_point | done].
  intros R' HR' HS'. by apply (chord_sum_unique (modulus f) Hprime P Q).
Qed.

(** The Weierstrass doubling precompile leaves at [p_ptr] the double of the point it
    sees there, when the tangent is not vertical, and changes nothing else. *)
Theorem weierstrass_double_correct code p_ptr arg2 :
  let P := seen_point (rt ctx) p_ptr (2 * k) in
  should_send code = 1 -> region p_ptr (2 * k) ->
  reduced (modulus f) P -> on_curve (modulus f) a b P -> ~ eqm (modulus f) (py P * 2) 0 ->
  exists ctx', execute (WeierstrassDoubleAssignSyscall (SwCurve t f a)) code p_ptr arg2 ctx = Ok None ctx' /\
    let R := point_at (rt ctx') p_ptr (2 * k) in
    reduced (modulus f) R /\ on_curve (modulus f) a b R /\ tangent_sum (modulus f) a P R /\
    only_writes p_ptr (2 * k) ctx ctx'.
Proof.
  intros P Hcode Hp RP CP Hne.
  destruct (sw_double_on_curve (modulus f) a b Hprime P RP CP Hne) as (r & E & Rr & Cr & Htangent).
  destruct (ec_double_writes (SwCurve t f a) k ctx Hk Ht code p_ptr arg2 r Hcode Hp
    (reduced_fits r Rr) E) as (ctx' & Ex & Hpt & Hrest).
  exists ctx'. cbv zeta. rewrite Hpt. by split_and!.
Qed.
End Weierstrass.

(** The field of 7 elements in one word; the curve [y^2 = x^3 + 2 x + 1] with the points
    [(0, 1)] at 4096 and [(1, 2)] at 8192. *)
Definition field7 : FieldParameters := mkFieldParameters [7] 4.

Definition curve7_ctx : SyscallContext :=
  SyscallContext_new (upd_state (upd_memory (fun m =>
    Flat.update Flat.Page 4100 (mkMemoryRecord 0 0 1)
      (Flat.update Flat.Page 8192 (mkMemoryRecord 0 0 1)
        (Flat.update Flat.Page 8196 (mkMemoryRecord 0 0 2) m)))) (boot [])).

Lemma weierstrass_add_correct_witness :
  exists ctx', execute (WeierstrassAddAssignSyscall (SwCurve Secp256k1 field7 2)) SECP256K1_ADD 4096 8192 curve7_ctx
    = Ok None ctx' /\ point_at (rt ctx') 4096 2 = mkAffinePoint 0 6.
Proof.
  assert (seen_point (rt curve7_ctx) 4096 2 = mkAffinePoint 0 1) as E1 by (vm_compute; reflexivity).
  assert (point_at (rt curve7_ctx) 8192 2 = mkAffinePoint 1 2) as E2 by (vm_compute; reflexivity).
  destruct (weierstrass_add_correct Secp256k1 field7 2 1 1 curve7_ctx eq_refl ltac:(discriminate) prime_7
    ltac:(vm_compute; discriminate) SECP256K1_ADD 4096 8192) as (ctx' & E & _ & _ & _ & H & _);
    [reflexivity | solve_region | solve_region | | | | | |].
  - change (2 * 1)%nat with 2%nat. rewrite E1. split; vm_compute; split; discriminate || reflexivity.
  - change (2 * 1)%nat with 2%nat. rewrite E2. split; vm_compute; split; discriminate || reflexivity.
  - change (2 * 1)%nat with 2%nat. rewrite E1. reflexivity.
  - change (2 * 1)%nat with 2%nat. rewrite E2. reflexivity.
  - change (2 * 1)%nat with 2%nat. rewrite E1, E2. discriminate.
  - exists ctx'. split; [exact E|]. specialize (H (mkAffinePoint 0 6)). change (2 * 1)%nat with 2%nat in H. rewrite E1, E2 in H. symmetry. refine (H _ _).
    + clear. split; vm_compute; split; discriminate || reflexivity.
    + clear. exists 1. split; [|split]; constructor; reflexivity.
Defined.

Lemma weierstrass_double_correct_witness :
  exists ctx', execute (WeierstrassDoubleAssignSyscall (SwCurve Bn254 field7 2)) BN254_DOUBLE 4096 0 curve7_ctx
    = Ok None ctx' /\ on_curve 7 2 1 (point_at (rt ctx') 4096 2).
Proof.
  assert (seen_point (rt curve7_ctx) 4096 2 = mkAffinePoint 0 1) as E1 by (vm_compute; reflexivity).
  destruct (weierstrass_double_correct Bn254 field7 2 1 1 curve7_ctx eq_refl ltac:(discriminate) prime_7
    ltac:(vm_compute; discriminate) BN254_DOUBLE 4096 0) as (ctx' & E & _ & H & _);
    [reflexivity | solve_region | | | |].
  - change (2 * 1)%nat with 2%nat. rewrite E1. split; vm_compute; split; discriminate || reflexivity.
  - change (2 * 1)%nat with 2%nat. rewrite E1. reflexivity.
  - change (2 * 1)%nat with 2%nat. rewrite E1. intros [H]. discriminate H.
  - exists ctx'. split; [exact E | exact H].
Defined.
