(* ===== verification/Sharding.v ===== *)
(** * Splitting records into shards (crates/core/executor/src/record.rs, executor.rs)

    [split] distributes the deferred events of a record over proof shards, and
    [set_public_values] links the shards of an execution.  The theorems say that
    no event is lost or duplicated, that memory events come out sorted by
    address with their public address bits chained from shard to shard, and that
    the program counters of the shards chain. *)

From Stdlib Require Import ZArith Lia Bool Sorted.
From stdpp Require Import base gmap list sorting.
From S2P Require Import Prelude Monad Isa SyscallCode Memory Events ByteLookup Air Record State.
From S2P Require Import Executor Context Step Run.

Local Open Scope Z_scope.

(** ** Chunks *)

Section Chunks.
  Context {A : Type}.
  Implicit Types l : list A.

Lemma chunks_fuel_more n fuel fuel' l : (0 < n)%nat -> (length l <= fuel)%nat -> (length l <= fuel')%nat ->
  chunks_fuel fuel n l = chunks_fuel fuel' n l.
Proof.
  intros Hn. revert fuel' l. induction fuel as [|fuel IH]; intros fuel' l H1 H2.
  - destruct l; [by destruct fuel' | cbn in H1; lia].
  - destruct l as [|x l]; [by destruct fuel'|]. destruct fuel' as [|fuel']; [cbn in H2; lia|].
    cbn [chunks_fuel]. f_equal. cbn in H1, H2. apply IH; rewrite length_drop; cbn; lia.
Qed.

Lemma chunks_step n l : (0 < n)%nat -> l <> [] -> chunks n l = take n l :: chunks n (drop n l).
Proof.
  intros Hn Hl. destruct l as [|x l]; [done|]. unfold chunks at 1. cbn [length chunks_fuel].
  f_equal. apply chunks_fuel_more; [done | rewrite length_drop; cbn; lia | done].
Qed.

(** Induction on the chunks of a list. *)
Lemma chunks_ind n (P : list A -> Prop) : (0 < n)%nat -> P [] ->
  (forall l, l <> [] -> P (drop n l) -> P l) -> forall l, P l.
Proof.
  intros Hn H0 Hs l. remember (length l) as k eqn:Ek. revert l Ek.
  induction k as [k IH] using lt_wf_ind. intros l ->.
  destruct (decide (l = [])) as [->|Hl]; [done|]. apply Hs; [done|].
  apply (IH (length (drop n l))); [|done]. rewrite length_drop.
  destruct l; [done | cbn; lia].
Qed.

Lemma concat_chunks n l : (0 < n)%nat -> concat (chunks n l) = l.
Proof.
  intros Hn. apply (chunks_ind n (fun l => concat (chunks n l) = l)); [done..|]. clear l. intros l Hl IH.
  rewrite chunks_step by done. cbn [concat]. by rewrite IH, take_drop.
Qed.

(** The chunks of length [n] and the remainder. *)
Lemma chunks_exact_remainder n l : (0 < n)%nat ->
  concat (chunks_exact n l) ++ remainder n l = l.
Proof.
  intros Hn. unfold chunks_exact, remainder.
  apply (chunks_ind n (fun l => concat (filter (fun c => length c = n) (chunks n l)) ++
    drop (length l / n * n) l = l)); [done | cbn; by rewrite drop_nil |]. clear l. intros l Hl IH.
  rewrite chunks_step by done. rewrite filter_cons. case_decide as Hlen.
  - rewrite length_take in Hlen. cbn [concat]. rewrite length_drop in IH.
      assert ((length l / n * n)%nat = (n + (length l - n) / n * n)%nat) as ->.
      { replace (length l) with (1 * n + (length l - n))%nat at 1 by lia.
        rewrite Nat.div_add_l by lia. lia. }
      rewrite <- drop_drop, <- app_assoc, IH. apply take_drop.
  - rewrite length_take in Hlen. assert (length l < n)%nat as Hlt by lia.
      rewrite Nat.div_small by done. cbn [Nat.mul]. rewrite drop_0, (drop_ge l) by lia. done.
Qed.
End Chunks.

(** ** Sorting *)

Lemma insert_by_addr_perm e l : insert_by_addr e l ≡ₚ e :: l.
Proof.
  induction l as [|x l IH]; [done|]. cbn. case_match; [done|]. rewrite IH. apply perm_swap.
Qed.

Lemma sort_by_addr_perm l : sort_by_addr l ≡ₚ l.
Proof. induction l as [|x l IH]; [done|]. cbn. rewrite insert_by_addr_perm. by rewrite IH. Qed.

Definition addr_le (x y : MemoryInitializeFinalizeEvent) : Prop := mif_addr x <= mif_addr y.

Lemma insert_by_addr_sorted e l : Sorted addr_le l -> Sorted addr_le (insert_by_addr e l).
Proof.
  induction 1 as [|x l Hs IH Hh]; cbn; [by repeat constructor|].
  destruct (Z.leb_spec (mif_addr e) (mif_addr x)); [by repeat constructor|].
  constructor; [done|]. destruct l as [|y l]; cbn; [constructor; unfold addr_le; lia|].
  case_match; constructor; unfold addr_le; [lia|]. by inversion Hh.
Qed.

Lemma sort_by_addr_sorted l : Sorted addr_le (sort_by_addr l).
Proof. induction l as [|x l IH]; [constructor | by apply insert_by_addr_sorted]. Qed.

(** ** Memory shards *)

Lemma zip_longest_fst a b : concat (zip_longest a b).*1 = concat a.
Proof.
  revert b. induction a as [|x a IH]; intros [|y b]; cbn; [done| |by rewrite IH|by rewrite IH].
  induction b; done.
Qed.

Lemma zip_longest_snd a b : concat (zip_longest a b).*2 = concat b.
Proof.
  revert b. induction a as [|x a IH]; intros [|y b]; cbn; [done| | |by rewrite IH].
  - f_equal. induction b as [|z b IH]; [done|]. cbn. by rewrite IH.
  - by rewrite IH.
Qed.

(** The public address bits of the shards chain, starting from [b]. *)
Fixpoint bits_chain (prev last_ : PublicValues -> list Z)
    (events : ExecutionRecord -> list MemoryInitializeFinalizeEvent) (b : list Z)
    (rs : list ExecutionRecord) : Prop :=
  match rs with
  | [] => True
  | r :: rs' =>
      prev (public_values r) = b /\
      last_ (public_values r) = next_bits (events r) b /\
      bits_chain prev last_ events (last_ (public_values r)) rs'
  end.

Abbreviation inits := global_memory_initialize_events.
Abbreviation fins := global_memory_finalize_events.

Abbreviation init_chain := (bits_chain previous_init_addr_bits last_init_addr_bits inits).
Abbreviation fin_chain := (bits_chain previous_finalize_addr_bits last_finalize_addr_bits fins).

Lemma split_memory_spec p l : forall ib fb,
  let ss := (split_memory p false (ExecutionRecord_new p) ib fb l).2 in
  concat (map inits ss) = concat l.*1 /\ concat (map fins ss) = concat l.*2 /\
  init_chain ib ss /\ fin_chain fb ss /\
  Forall (fun r => precompile_events r = PrecompileEvents_default) ss.
Proof.
  induction l as [|[ic fc] l IH]; intros ib fb; cbn [split_memory fst snd]; [done|].
  specialize (IH (next_bits ic ib) (next_bits fc fb)). cbv zeta in *.
  destruct (split_memory p false _ _ _ l) as [t ss]. cbn [snd] in *.
  destruct IH as (H1 & H2 & H3 & H4 & H5). cbn [map concat fmap list_fmap fst snd bits_chain].
  change (inits (pack_chunk ic fc ib fb (ExecutionRecord_new p))) with ic.
  change (fins (pack_chunk ic fc ib fb (ExecutionRecord_new p))) with fc.
  rewrite H1, H2. split_and!.
  - reflexivity.
  - reflexivity.
  - reflexivity.
  - reflexivity.
  - exact H3.
  - reflexivity.
  - reflexivity.
  - exact H4.
  - constructor; [reflexivity | exact H5].
Qed.

(** ** Precompile shards *)

Definition evs_of (c : SyscallCode) (r : ExecutionRecord) : EventVec := default [] (precompile_events r !! c).

Definition all_evs (c : SyscallCode) (rs : list ExecutionRecord) : EventVec := concat (map (evs_of c) rs).

Lemma all_evs_app c rs rs' : all_evs c (rs ++ rs') = all_evs c rs ++ all_evs c rs'.
Proof. unfold all_evs. by rewrite map_app, concat_app. Qed.

Lemma default_events c : default [] (PrecompileEvents_default !! c) = [].
Proof.
  unfold PrecompileEvents_default. destruct (list_to_map _ !! c) as [evs|] eqn:E; [|reflexivity].
  apply elem_of_list_to_map_2, list_elem_of_fmap in E as (c' & E & _). by injection E as _ ->.
Qed.

Lemma default_evs_of c rs : Forall (fun r => precompile_events r = PrecompileEvents_default) rs ->
  all_evs c rs = [].
Proof.
  induction 1 as [|r rs Hr _ IH]; [reflexivity|]. unfold all_evs in *. cbn [map concat].
  unfold evs_of at 1. rewrite Hr, default_events, IH. reflexivity.
Qed.

Definition plain_shard (r : ExecutionRecord) : Prop := inits r = [] /\ fins r = [].

Lemma precompile_shard_spec p c evs r : precompile_shard p c evs = Some r ->
  plain_shard r /\ forall c', evs_of c' r = if decide (c = c') then evs else [].
Proof.
  unfold precompile_shard, precompile_insert. destruct (_ =? 1); cbn [mbind option_bind]; [|discriminate].
  intros E. apply (inj Some) in E. subst r. split; [split; reflexivity|]. intros c'.
  unfold evs_of. cbn [precompile_events upd_precompile_events].
  case_decide as Ec; [subst c'; by rewrite lookup_insert_eq|].
  rewrite lookup_insert_ne by done. apply default_events.
Qed.

Lemma precompile_shards_spec p c ls rs : mapM (precompile_shard p c) ls = Some rs ->
  Forall plain_shard rs /\ forall c', all_evs c' rs = if decide (c = c') then concat ls else [].
Proof.
  revert rs. induction ls as [|l ls IH]; intros rs E.
  - injection E as <-. split; [constructor|]. intros c'. by case_decide.
  - cbn in E. apply bind_Some in E as (r & Er & E). apply bind_Some in E as (rs' & Ers & E).
    injection E as <-. destruct (IH rs' Ers) as [H1 H2]. destruct (precompile_shard_spec p c l r Er) as [H3 H4].
    split; [by constructor|]. intros c'. unfold all_evs in *. cbn [map concat]. rewrite H4, H2.
    by case_decide.
Qed.

(** What [self] keeps of [c]'s events. *)
Definition kept_evs (last : bool) (kept : PrecompileEvents) (c : SyscallCode) : EventVec :=
  if last then [] else default [] (kept !! c).

Lemma split_precompile_spec p last opts kept c evs kept' ss :
  split_precompile p last opts kept c evs = Some (kept', ss) ->
  Forall plain_shard ss /\ all_evs c ss ++ kept_evs last kept' c ≡ₚ evs /\
  forall c', c <> c' -> all_evs c' ss = [] /\ kept_evs last kept' c' = kept_evs last kept c'.
Proof.
  unfold split_precompile. cbv zeta. set (n := split_threshold opts c).
  destruct (Nat.eqb_spec n 0) as [|Hn]; [discriminate|]. intros E.
  apply bind_Some in E as ([k first] & E1 & E). apply bind_Some in E as (rs & Ers & E).
  apply (inj Some), (inj2 pair) in E as [<- <-].
  destruct (precompile_shards_spec p c _ rs Ers) as [H1 H2].
  pose proof (chunks_exact_remainder n evs ltac:(lia)) as Hch.
  assert (Forall plain_shard first /\ all_evs c first ++ kept_evs last k c = remainder n evs /\
    forall c', c <> c' -> all_evs c' first = [] /\ kept_evs last k c' = kept_evs last kept c') as (H3 & H4 & H5).
  { destruct last.
    - destruct (remainder n evs) as [|e rem] eqn:Er.
      + injection E1 as <- <-. split_and!; [constructor | reflexivity | by intros].
      + apply bind_Some in E1 as (s & Es & E1). injection E1 as <- <-.
        destruct (precompile_shard_spec p c _ s Es) as [H3 H4]. unfold all_evs, kept_evs. cbn [map concat].
        split_and!; [by constructor | rewrite H4, decide_True by done; by rewrite !app_nil_r |].
        intros c' Hc. by rewrite H4, decide_False by done.
    - apply bind_Some in E1 as (k' & Ek & E1). injection E1 as <- <-.
      unfold kept_evs, precompile_insert in *. destruct (_ =? 1); [|discriminate Ek]. injection Ek as <-.
      split_and!; [constructor | by rewrite lookup_insert_eq | intros c' Hc; by rewrite lookup_insert_ne]. }
  split_and!; [by apply Forall_app| |].
  - rewrite all_evs_app, H2, decide_True by done. rewrite <- app_assoc, (Permutation_app_comm (concat _)).
    rewrite app_assoc, H4. rewrite Permutation_app_comm. by rewrite Hch.
  - intros c' Hc. rewrite all_evs_app, H2, decide_False by done. destruct (H5 c' Hc) as [-> ->]. done.
Qed.

Lemma split_precompiles_spec p last opts l : forall kept kept' ss,
  NoDup l.*1 -> split_precompiles p last opts kept l = Some (kept', ss) ->
  Forall plain_shard ss /\
  forall c, all_evs c ss ++ kept_evs last kept' c ≡ₚ
    default (kept_evs last kept c) ((list_to_map l : gmap _ _) !! c).
Proof.
  induction l as [|[c0 evs] l IH]; intros kept kept' ss Hnd E.
  - injection E as <- <-. split; [constructor|]. intros c. done.
  - cbn [split_precompiles] in E. apply bind_Some in E as ([k1 s1] & E1 & E).
    apply bind_Some in E as ([k2 s2] & E2 & E). injection E as <- <-.
    cbn [fmap list_fmap fst] in Hnd. apply NoDup_cons in Hnd as [Hnot Hnd].
    destruct (split_precompile_spec _ _ _ _ _ _ _ _ E1) as (H1 & H2 & H2').
    destruct (IH k1 k2 s2 Hnd E2) as [H3 H4]. split; [by apply Forall_app|]. intros c.
    rewrite all_evs_app, <- app_assoc, H4. cbn [list_to_map foldr fst snd].
    destruct (decide (c0 = c)) as [->|Ec].
    + rewrite lookup_insert_eq, (not_elem_of_list_to_map_1 l c) by done. exact H2.
    + rewrite lookup_insert_ne by done. by destruct (H2' c Ec) as [-> ->].
Qed.

(** No precompile shard is empty. *)
Definition busy_shard (r : ExecutionRecord) : Prop := exists c, evs_of c r <> [].

Lemma precompile_shard_busy p c evs r : precompile_shard p c evs = Some r -> evs <> [] -> busy_shard r.
Proof.
  intros E Hne. destruct (precompile_shard_spec p c evs r E) as [_ H]. exists c. by rewrite H, decide_True.
Qed.

Lemma split_precompile_busy p opts kept c evs kept' ss :
  split_precompile p true opts kept c evs = Some (kept', ss) -> Forall busy_shard ss.
Proof.
  unfold split_precompile. cbv zeta. set (n := split_threshold opts c).
  destruct (Nat.eqb_spec n 0) as [|Hn]; [discriminate|]. intros E.
  apply bind_Some in E as ([k first] & E1 & E). apply bind_Some in E as (rs & Ers & E).
  apply (inj Some), (inj2 pair) in E as [_ <-]. apply Forall_app. split.
  - destruct (remainder n evs) as [|e rem]; [by injection E1 as _ <-|].
    apply bind_Some in E1 as (s & Es & E1). injection E1 as _ <-. constructor; [|constructor].
    by apply (precompile_shard_busy p c _ s Es).
  - apply mapM_Some in Ers. apply (Forall2_Forall_r _ _ _ _ Ers), Forall_forall. intros ch Hch r Er.
    apply (precompile_shard_busy p c ch r Er). unfold chunks_exact in Hch.
    apply list_elem_of_filter in Hch as [Hlen _]. by destruct ch.
Qed.

Lemma split_precompiles_busy p opts l : forall kept kept' ss,
  split_precompiles p true opts kept l = Some (kept', ss) -> Forall busy_shard ss.
Proof.
  induction l as [|[c evs] l IH]; intros kept kept' ss E; [by injection E as _ <-|].
  cbn [split_precompiles] in E. apply bind_Some in E as ([k1 s1] & E1 & E).
  apply bind_Some in E as ([k2 s2] & E2 & E). injection E as _ <-. apply Forall_app.
  split; [exact (split_precompile_busy _ _ _ _ _ _ _ E1) | exact (IH _ _ _ E2)].
Qed.

Lemma busy_all_evs rs : Forall busy_shard rs -> (forall c, all_evs c rs = []) -> rs = [].
Proof.
  destruct 1 as [|r rs [c Hc] _]; [done|]. intros H. specialize (H c). unfold all_evs in H.
  cbn [map concat] in H. by apply app_eq_nil in H as [H _].
Qed.

(** ** Packing into the last record *)

(** [r] with other memory events and public values, and nothing else changed. *)
Definition with_memory (mi mf : list MemoryInitializeFinalizeEvent) (pv : PublicValues) (r : ExecutionRecord)
    : ExecutionRecord :=
  upd_public_values (fun _ => pv)
  (upd_global_memory_initialize_events (fun _ => mi)
  (upd_global_memory_finalize_events (fun _ => mf) r)).

(** [r] with memory events appended to its own. *)
Definition packed (mi mf : list MemoryInitializeFinalizeEvent) (pv : PublicValues) (r : ExecutionRecord)
    : ExecutionRecord := with_memory (inits r ++ mi) (fins r ++ mf) pv r.

Lemma packed_pack_chunk mi mf pv ic fc ib fb r :
  packed mi mf pv (pack_chunk ic fc ib fb r) = packed (ic ++ mi) (fc ++ mf) pv r.
Proof.
  transitivity (with_memory ((inits r ++ ic) ++ mi) ((fins r ++ fc) ++ mf) pv r); [reflexivity|].
  unfold packed. by rewrite !app_assoc.
Qed.

Lemma packed_nil r : packed [] [] (public_values r) r = r.
Proof.
  unfold packed. rewrite !app_nil_r.
  destruct r. reflexivity.
Qed.

Lemma split_memory_pack_spec p l : forall r ib fb, exists pv,
  split_memory p true r ib fb l = (packed (concat l.*1) (concat l.*2) pv r, []).
Proof.
  induction l as [|[ic fc] l IH]; intros r ib fb.
  - exists (public_values r). cbn [split_memory fmap list_fmap concat]. by rewrite packed_nil.
  - cbn [split_memory fmap list_fmap concat fst snd].
    destruct (IH (pack_chunk ic fc ib fb r) (next_bits ic ib) (next_bits fc fb)) as [pv ->].
    exists pv. by rewrite packed_pack_chunk.
Qed.

(** ** [split] *)

Lemma plain_shards_mem rs : Forall plain_shard rs -> concat (map inits rs) = [] /\ concat (map fins rs) = [].
Proof.
  induction 1 as [|r rs [H1 H2] _ [IH1 IH2]]; [done|]. cbn [map concat]. by rewrite H1, H2, IH1, IH2.
Qed.

(** The two ways the last split ends, with the precompile shards [ss] in both. *)
Lemma split_last_cases self last_record opts self' last_record' shards :
  split self true last_record opts = Some (self', last_record', shards) ->
  exists ss, Forall plain_shard ss /\ Forall busy_shard ss /\ (forall c, all_evs c ss ≡ₚ evs_of c self) /\
    ((exists r pv, last_record = Some r /\ ss = [] /\ shards = [] /\
        last_record' = Some (packed (sort_by_addr (inits self)) (sort_by_addr (fins self)) pv r)) \/
     (exists ms, (last_record = None \/ ss <> []) /\ last_record' = last_record /\ shards = ss ++ ms /\
        concat (map inits ms) = sort_by_addr (inits self) /\ concat (map fins ms) = sort_by_addr (fins self) /\
        Forall (fun r => precompile_events r = PrecompileEvents_default) ms)).
Proof.
  unfold split. intros E. apply bind_Some in E as ([kept ss] & Ep & E).
  destruct (split_precompiles_spec _ _ _ _ _ _ _ (NoDup_fst_map_to_list _) Ep) as [Hpl Hev].
  exists ss. split_and!; [exact Hpl | exact (split_precompiles_busy _ _ _ _ _ _ Ep) | |].
  { intros c. specialize (Hev c). rewrite list_to_map_to_list in Hev. unfold kept_evs in Hev.
    by rewrite app_nil_r in Hev. }
  destruct (Nat.eqb_spec (so_memory opts) 0) as [|Hn]; [discriminate E|].
  set (zipped := zip_longest _ _) in E.
  assert (concat zipped.*1 = sort_by_addr (inits self) /\ concat zipped.*2 = sort_by_addr (fins self))
    as [Hz1 Hz2].
  { subst zipped. by rewrite zip_longest_fst, zip_longest_snd, !concat_chunks by lia. }
  pose proof (split_memory_spec (rprogram self) zipped (replicate 32 0) (replicate 32 0)) as Hm.
  destruct (split_memory (rprogram self) false _ _ _ zipped) as [t ms]. cbn [snd] in Hm.
  destruct Hm as (Hi & Hf & _ & _ & Hd). rewrite Hz1 in Hi. rewrite Hz2 in Hf.
  destruct last_record as [r|], ss as [|s ss];
    try (right; exists ms; apply (inj Some), (inj2 pair) in E as [[= _ <-] <-];
         split_and!; [by (left + right) | done..]).
  destruct (split_memory_pack_spec (rprogram self) zipped r (replicate 32 0) (replicate 32 0)) as [pv Hp].
  rewrite Hp, Hz1, Hz2 in E. left. exists r, pv. by apply (inj Some), (inj2 pair) in E as [[= _ <-] <-].
Qed.

(** The last record is packed into: there is one, and no precompile event to shard. *)
Definition packs (self : ExecutionRecord) (last_record : option ExecutionRecord) (r : ExecutionRecord) : Prop :=
  last_record = Some r /\ forall c, evs_of c self = [].

(** C28. Splitting the last record loses nothing and invents nothing. For every system
    call the precompile events of the shards are a permutation of the record's. The memory
    initialisation events of the record, sorted by address, and likewise the finalisation
    events, end up in one of two places. When the caller gives a record to pack into and
    there is no precompile event, they are appended to the events of that record, of which
    nothing else changes but the public values, and there are no shards. In every other
    case the shards hold them in that order, and the record the caller gave is unchanged. *)
Theorem split_conserves_events self last_record opts self' last_record' shards :
  split self true last_record opts = Some (self', last_record', shards) ->
  (forall c, all_evs c shards ≡ₚ evs_of c self) /\
  exists mi mf,
    (mi ≡ₚ inits self /\ Sorted addr_le mi) /\ (mf ≡ₚ fins self /\ Sorted addr_le mf) /\
    ((exists r pv, packs self last_record r /\ last_record' = Some (packed mi mf pv r) /\ shards = []) \/
     ((forall r, ~ packs self last_record r) /\ last_record' = last_record /\
      concat (map inits shards) = mi /\ concat (map fins shards) = mf)).
Proof.
  intros E. destruct (split_last_cases _ _ _ _ _ _ E) as (ss & Hpl & Hbusy & Hss & Hcases).
  assert (forall P, P (sort_by_addr (inits self)) (sort_by_addr (fins self)) ->
    exists mi mf, (mi ≡ₚ inits self /\ Sorted addr_le mi) /\ (mf ≡ₚ fins self /\ Sorted addr_le mf) /\ P mi mf)
    as Hsort.
  { intros P HP. exists (sort_by_addr (inits self)), (sort_by_addr (fins self)).
    auto using sort_by_addr_perm, sort_by_addr_sorted. }
  destruct Hcases as [(r & pv & -> & -> & -> & ->)|(ms & Hno & -> & -> & Hi & Hf & Hd)].
  - split; [exact Hss|]. apply Hsort. left. exists r, pv. split_and!; [split; [done|] | done | done].
    intros c. apply Permutation_nil. by rewrite <- (Hss c).
  - split; [intros c; by rewrite all_evs_app, (default_evs_of c ms Hd), app_nil_r|].
    destruct (plain_shards_mem ss Hpl) as [Pi Pf]. apply Hsort. right.
    rewrite !map_app, !concat_app, Pi, Pf, Hi, Hf. split_and!; [|done..].
    intros r [-> Hnone]. destruct Hno as [|Hno]; [done|]. apply Hno, busy_all_evs; [done|].
    intros c. apply Permutation_nil. by rewrite (Hss c), Hnone.
Qed.

(** A record with two memory events, in the wrong order. *)
Definition small_record : ExecutionRecord :=
  upd_global_memory_initialize_events (fun _ => [mif_initialize 64 1 true; mif_initialize 32 2 true])
    (ExecutionRecord_new Program_default).

Definition unit_opts : SplitOpts := mkSplitOpts 1 1 1 1 1.

(** The same memory events and three events of SHA_EXTEND. *)
Definition sha_call (w_ptr : Z) : SyscallEvent * PrecompileEvent :=
  (mkSyscallEvent 0 4 1 8 MemoryWriteRecord_default false false SHA_EXTEND 5 w_ptr 0,
   PShaExtend (mkShaExtendEvent 1 8 w_ptr [] [] [] [] [] [])).

Definition sha_record : ExecutionRecord :=
  upd_precompile_events (fun m => <[SHA_EXTEND := [sha_call 256; sha_call 512; sha_call 768]]> m) small_record.

Lemma sha_record_calls : evs_of SHA_EXTEND sha_record = [sha_call 256; sha_call 512; sha_call 768].
Proof. exact (f_equal (default []) (lookup_insert_eq PrecompileEvents_default SHA_EXTEND _)). Qed.

Definition pair_opts : SplitOpts := mkSplitOpts 1 1 2 1 1.

Abbreviation blank_record := (ExecutionRecord_new Program_default).

(** Without precompile events the blank record is packed into; with the three events of
    SHA_EXTEND there are two precompile shards and two memory shards. *)
Lemma split_conserves_events_witness :
  match split small_record true (Some blank_record) unit_opts, split sha_record true (Some blank_record) pair_opts with
  | Some (_, lr1, shards1), Some (_, lr2, shards2) =>
      shards1 = [] /\ (exists mi mf pv, lr1 = Some (packed mi mf pv blank_record) /\
        mi ≡ₚ inits small_record /\ Sorted addr_le mi) /\
      length shards2 = 4%nat /\ lr2 = Some blank_record /\
      all_evs SHA_EXTEND shards2 ≡ₚ [sha_call 256; sha_call 512; sha_call 768] /\
      Sorted addr_le (concat (map inits shards2))
  | _, _ => False
  end.
Proof.
  destruct (split small_record true (Some blank_record) unit_opts) as [[[s1 lr1] shards1]|] eqn:E1;
    [|apply (f_equal (fun r => match r with Some _ => true | None => false end)) in E1; vm_compute in E1; discriminate E1].
  destruct (split sha_record true (Some blank_record) pair_opts) as [[[s2 lr2] shards2]|] eqn:E2;
    [|apply (f_equal (fun r => match r with Some _ => true | None => false end)) in E2; vm_compute in E2; discriminate E2].
  assert (length shards2 = 4%nat) as Hlen.
  { apply (f_equal (fun r => match r with Some (_, _, l) => length l | None => 0%nat end)) in E2.
    rewrite <- E2. vm_compute. reflexivity. }
  destruct (split_conserves_events small_record (Some blank_record) unit_opts s1 lr1 shards1 E1)
    as [_ (mi & mf & [Hp Hs] & _ & [(r & pv & [[= <-] _] & -> & ->)|(Hno & _)])].
  2: { destruct (Hno blank_record). split; [reflexivity|]. intros c. unfold evs_of. apply default_events. }
  destruct (split_conserves_events sha_record (Some blank_record) pair_opts s2 lr2 shards2 E2)
    as [Hev (mi' & mf' & [Hp' Hs'] & _ & [(r & pv' & _ & _ & ->)|(_ & -> & <- & _)])]; [discriminate Hlen|].
  specialize (Hev SHA_EXTEND). rewrite sha_record_calls in Hev.
  split; [reflexivity|]. split; [exists mi, mf, pv; split; [reflexivity | split; assumption]|].
  split; [exact Hlen|]. split; [reflexivity|]. split; assumption.
Defined.

(** In the memory shards of a split the public address bits chain: the first shard
    continues from address 0, every shard's last bits are those of its last event (or the
    previous ones when it has none), and the next shard continues from there; precompile
    shards come first and carry no memory events. *)
Theorem split_chains_address_bits self opts self' lr shards :
  split self true None opts = Some (self', lr, shards) ->
  exists ss ms, shards = ss ++ ms /\ Forall plain_shard ss /\
    init_chain (replicate 32 0) ms /\ fin_chain (replicate 32 0) ms.
Proof.
  unfold split. intros E. apply bind_Some in E as ([kept ss] & Ep & E).
  destruct (split_precompiles_spec _ _ _ _ _ _ _ (NoDup_fst_map_to_list _) Ep) as [Hpl _].
  destruct (Nat.eqb_spec (so_memory opts) 0) as [|Hn]; [discriminate E|].
  set (zipped := zip_longest _ _) in E.
  pose proof (split_memory_spec (rprogram self) zipped (replicate 32 0) (replicate 32 0)) as Hm. cbv zeta in Hm.
  destruct (split_memory (rprogram self) false _ _ _ zipped) as [t ms]. cbn [snd] in Hm.
  apply (inj Some), (inj2 pair) in E as [_ <-]. destruct Hm as (_ & _ & Hic & Hfc & _).
  exists ss, ms. split_and!; [reflexivity | exact Hpl | exact Hic | exact Hfc].
Qed.

Lemma split_chains_address_bits_witness :
  match split small_record true None unit_opts with
  | Some (_, _, shards) => exists ss ms, shards = ss ++ ms /\ init_chain (replicate 32 0) ms
  | None => False
  end.
Proof.
  destruct (split small_record true None unit_opts) as [[[self' lr] shards]|] eqn:E.
  - destruct (split_chains_address_bits small_record unit_opts self' lr shards E) as (ss & ms & H1 & _ & H2 & _).
    exists ss, ms. split; [exact H1 | exact H2].
  - apply (f_equal (fun r => match r with Some _ => true | None => false end)) in E.
    vm_compute in E. discriminate E.
Defined.

(** When the record is not the last, [split] emits only full precompile shards and keeps
    the rest in the record for later: shards and record together hold exactly the events
    the record held, and the memory events stay in the record untouched. *)
Theorem split_keeps_remainder self lr opts self' lr' shards :
  split self false lr opts = Some (self', lr', shards) ->
  lr' = lr /\ inits self' = inits self /\ fins self' = fins self /\
  Forall plain_shard shards /\
  forall c, all_evs c shards ++ evs_of c self' ≡ₚ evs_of c self.
Proof.
  unfold split. intros E. apply bind_Some in E as ([kept ss] & Ep & E).
  destruct (split_precompiles_spec _ _ _ _ _ _ _ (NoDup_fst_map_to_list _) Ep) as [Hpl Hev].
  apply (inj Some), (inj2 pair) in E as [E <-]. apply (inj2 pair) in E as [<- <-].
  split_and!; [reflexivity | reflexivity | reflexivity | exact Hpl |].
  intros c. specialize (Hev c). rewrite list_to_map_to_list in Hev. unfold kept_evs in Hev.
  rewrite default_events in Hev. exact Hev.
Qed.

Lemma split_keeps_remainder_witness :
  match split small_record false None unit_opts with
  | Some (self', _, shards) => inits self' = inits small_record /\ Forall plain_shard shards
  | None => False
  end.
Proof.
  destruct (split small_record false None unit_opts) as [[[self' lr] shards]|] eqn:E.
  - destruct (split_keeps_remainder small_record None unit_opts self' lr shards E) as (_ & H1 & _ & H2 & _).
    split; [exact H1 | exact H2].
  - apply (f_equal (fun r => match r with Some _ => true | None => false end)) in E.
    vm_compute in E. discriminate E.
Defined.

(** ** The public values of the shards *)

(** The CPU events of the shards chain from [p]. *)
Fixpoint cpu_chained (p : Z) (rs : list ExecutionRecord) : Prop :=
  match rs with
  | [] => True
  | r :: rs' =>
      match cpu_events r, last (cpu_events r) with
      | e :: _, Some el => cpu_pc e = p /\ cpu_chained (cpu_next_pc el) rs'
      | _, _ => cpu_chained p rs'
      end
  end.

(** The shards' public program counters chain from [p], and their execution
    shards count from [n]. *)
Fixpoint pv_chained (p n : Z) (pvs : list PublicValues) : Prop :=
  match pvs with
  | [] => True
  | pv :: pvs' => start_pc pv = p /\ execution_shard pv = n /\ pv_chained (next_pc pv) (n +u 1)%rv pvs'
  end.

Lemma set_public_values_chain p pv rs : forall n lp lx,
  cpu_chained lp rs -> pv_chained lp n (map public_values (set_public_values p pv n lp lx rs)).
Proof.
  induction rs as [|r rs IH]; intros n lp lx H; [done|]. cbn [set_public_values cpu_chained] in *.
  destruct (cpu_events r) as [|e es] eqn:Ee.
  - cbn [map pv_chained]. split_and!; [reflexivity | reflexivity|]. by apply IH.
  - destruct (last (e :: es)) as [el|] eqn:El; [|by apply last_None in El]. destruct H as [H1 H2].
    cbn [map pv_chained]. split_and!; [exact H1 | reflexivity|]. by apply IH.
Qed.

Lemma set_public_values_digests p pv rs : forall n lp lx,
  Forall (fun r => committed_value_digest (public_values r) = committed_value_digest pv /\
                   deferred_proofs_digest (public_values r) = deferred_proofs_digest pv /\ rprogram r = p)
    (set_public_values p pv n lp lx rs).
Proof.
  induction rs as [|r rs IH]; intros n lp lx; cbn [set_public_values]; [constructor|].
  destruct (cpu_events r) as [|e es]; [constructor; [done | apply IH]|].
  destruct (last (e :: es)); (constructor; [done | apply IH]).
Qed.

(** The public values of an execution's shards: if the CPU events of the shards
    chain, then so do the shards' [start_pc] and [next_pc], shards without CPU events
    included; the execution shards are numbered consecutively, and every shard carries
    the committed and deferred digests of the end of the batch. *)
Theorem public_values_chain p pv n r e es rs :
  cpu_events r = e :: es -> cpu_chained (cpu_pc e) (r :: rs) ->
  let out := set_public_values p pv n 0 0 (r :: rs) in
  length out = S (length rs) /\
  pv_chained (cpu_pc e) n (map public_values out) /\
  Forall (fun r => committed_value_digest (public_values r) = committed_value_digest pv /\
                   deferred_proofs_digest (public_values r) = deferred_proofs_digest pv /\ rprogram r = p) out.
Proof.
  intros He Hc. cbv zeta.
  assert (set_public_values p pv n 0 0 (r :: rs) = set_public_values p pv n (cpu_pc e) 0 (r :: rs)) as ->.
  { cbn [set_public_values]. rewrite He. destruct (last (e :: es)) eqn:El; [reflexivity | by apply last_None in El]. }
  split_and!; [|by apply set_public_values_chain | apply set_public_values_digests].
  assert (forall l n lp lx, length (set_public_values p pv n lp lx l) = length l) as Hlen.
  { induction l as [|x l IH]; intros n' lp lx; cbn [set_public_values]; [reflexivity|].
    destruct (cpu_events x) as [|? ?]; [|destruct (last _)]; cbn [length]; by rewrite IH. }
  apply Hlen.
Qed.

Definition one_event (pc_ np : Z) : ExecutionRecord :=
  upd_cpu_events (fun _ => [mkCpuEvent 0 pc_ np 0 None 0 None 0 None 0]) (ExecutionRecord_new Program_default).

Lemma public_values_chain_witness :
  pv_chained 4 1 (map public_values (set_public_values Program_default PublicValues_default 1 0 0
    [one_event 4 8; ExecutionRecord_new Program_default; one_event 8 12])).
Proof.
  apply (public_values_chain Program_default PublicValues_default 1 (one_event 4 8)
    (mkCpuEvent 0 4 8 0 None 0 None 0 None 0) []
    [ExecutionRecord_new Program_default; one_event 8 12]); [reflexivity|].
  cbn. split_and!; reflexivity.
Defined.
