(* ===== verification/AirBuilder.v ===== *)
(** * Constraint builders (crates/stark/src/air/builder.rs, debug.rs,
    lookup/builder.rs, word.rs; crates/core/machine/src/air/word.rs)

    The [eval] of a chip calls the methods of a builder.  The calls are data
    here: [eval] returns the list of its calls in order, and what a builder
    does with them is a function of that list.  [holds] is the builder of
    debug.rs, which checks the assertions; [sends] and [receives] are the
    builder of lookup/builder.rs, which collects the messages.

    Columns and expressions are integers read modulo the BabyBear prime, the
    field of every chip of the machine. *)

From Stdlib Require Import ZArith Lia Bool Setoid Morphisms Zcong.
From stdpp Require Import base list.
From S2P Require Import Prelude Isa.

Local Open Scope Z_scope.
Local Open Scope rv_scope.

(** ** The field *)

(** 2^31 - 2^27 + 1. *)
Definition BABYBEAR : Z := 2013265921.

Definition eqF (x y : Z) : Prop := x mod BABYBEAR = y mod BABYBEAR.
Infix "≡F" := eqF (at level 70, no associativity) : rv_scope.

(** The canonical representative of a field element. *)
Definition Fred (x : Z) : Z := x mod BABYBEAR.

Definition canon (x : Z) : Prop := 0 <= x < BABYBEAR.

(** [F::from_bool]. *)
Definition from_bool (b : bool) : Z := if b then 1 else 0.

#[export] Instance eqF_dec x y : Decision (x ≡F y).
Proof. unfold eqF. apply _. Defined.

#[export] Instance eqF_equiv : Equivalence eqF.
Proof. split; unfold eqF; congruence. Qed.

Lemma eqF_diff x y : x ≡F y <-> exists k, x = y + k * BABYBEAR.
Proof.
  unfold eqF. split.
  - intros H. exists (x / BABYBEAR - y / BABYBEAR).
    pose proof (Z.div_mod x BABYBEAR ltac:(done)). pose proof (Z.div_mod y BABYBEAR ltac:(done)). lia.
  - intros [k ->]. apply Z_mod_plus_full.
Qed.

#[export] Instance eqF_add : Proper (eqF ==> eqF ==> eqF) Z.add.
Proof.
  intros x x' [k ->]%eqF_diff y y' [j ->]%eqF_diff. apply eqF_diff. exists (k + j). lia.
Qed.

#[export] Instance eqF_sub : Proper (eqF ==> eqF ==> eqF) Z.sub.
Proof.
  intros x x' [k ->]%eqF_diff y y' [j ->]%eqF_diff. apply eqF_diff. exists (k - j). lia.
Qed.

#[export] Instance eqF_mul : Proper (eqF ==> eqF ==> eqF) Z.mul.
Proof.
  intros x x' [k ->]%eqF_diff y y' [j ->]%eqF_diff. apply eqF_diff.
  exists (x' * j + y' * k + k * j * BABYBEAR). ring.
Qed.

Lemma Fred_eqF x : Fred x ≡F x.
Proof. apply Z.mod_mod. done. Qed.

Lemma Fred_canon x : canon (Fred x).
Proof. apply Z.mod_pos_bound. done. Qed.

(** Congruent numbers closer than the modulus are equal: the step by which a
    range check turns a constraint into an equation between integers. *)
Lemma eqF_small x y : x ≡F y -> - BABYBEAR < x - y < BABYBEAR -> x = y.
Proof. intros [k ->]%eqF_diff. unfold BABYBEAR. lia. Qed.

Lemma eqF_canon x y : x ≡F y -> canon x -> canon y -> x = y.
Proof. unfold canon. intros H ??. apply eqF_small; [done|lia]. Qed.

Lemma eqF_sub_0 x y : x - y ≡F 0 <-> x ≡F y.
Proof.
  split; intros H.
  - apply eqF_diff in H as [k H]. apply eqF_diff. exists k. lia.
  - apply eqF_diff in H as [k H]. apply eqF_diff. exists k. lia.
Qed.

Lemma zero_ne_one : ~ 1 ≡F 0.
Proof. discriminate. Qed.

(** ** Messages *)

Inductive InteractionScope : Type := Global | Local.

Inductive InteractionKind : Type :=
| KMemory | KProgram | KInstruction | KAlu | KByte | KRange | KField | KSyscall | KGlobal.

#[export] Instance InteractionScope_eq_dec : EqDecision InteractionScope.
Proof. solve_decision. Defined.
#[export] Instance InteractionKind_eq_dec : EqDecision InteractionKind.
Proof. solve_decision. Defined.

(** [kind as usize]. *)
Definition argument_index (k : InteractionKind) : Z :=
  match k with
  | KMemory => 1 | KProgram => 2 | KInstruction => 3 | KAlu => 4 | KByte => 5
  | KRange => 6 | KField => 7 | KSyscall => 8 | KGlobal => 9
  end.

Record AirInteraction : Type := mkAirInteraction {
  values : list Z;
  multiplicity : Z;
  kind : InteractionKind
}.

(** ** Calls *)

Inductive Call : Type :=
| AssertZero (x : Z)
| AssertOne (x : Z)
| AssertEq (x y : Z)
| AssertBool (x : Z)
| When (condition : Z) (c : Call)
| Send (m : AirInteraction) (scope : InteractionScope)
| Receive (m : AirInteraction) (scope : InteractionScope).

(** [builder.when(condition)] followed by the given calls; [when_ne] and
    [when_not] are the same with another condition. *)
Definition when (condition : Z) (calls : list Call) : list Call := map (When condition) calls.
Definition when_ne (x y : Z) (calls : list Call) : list Call := when (x - y) calls.
Definition when_not (condition : Z) (calls : list Call) : list Call := when_ne condition 1 calls.

(** *** BaseAirBuilder *)

Definition assert_all_eq (left right : list Z) : list Call := zip_with AssertEq left right.
Definition assert_all_zero (l : list Z) : list Call := map AssertZero l.
Definition if_else (condition a b : Z) : Z := condition * a + (1 - condition) * b.

Definition index_array (array index_bitmap : list Z) : Z :=
  fold_left (fun result '(v, i) => result + v * i) (zip array index_bitmap) 0.

(** *** ByteAirBuilder *)

Definition send_byte_pair (opcode a1 a2 b c multiplicity : Z) : list Call :=
  [Send (mkAirInteraction [opcode; a1; a2; b; c] multiplicity KByte) Local].
Definition send_byte (opcode a b c multiplicity : Z) : list Call :=
  send_byte_pair opcode a 0 b c multiplicity.
Definition receive_byte_pair (opcode a1 a2 b c multiplicity : Z) : list Call :=
  [Receive (mkAirInteraction [opcode; a1; a2; b; c] multiplicity KByte) Local].
Definition receive_byte (opcode a b c multiplicity : Z) : list Call :=
  receive_byte_pair opcode a 0 b c multiplicity.

(** ** Words *)

Record Word : Type := mkWord { w0 : Z; w1 : Z; w2 : Z; w3 : Z }.

Definition WORD_SIZE : nat := 4.
Definition BYTE_SIZE : nat := 8.
Definition LONG_WORD_SIZE : nat := 8.

(** [word.0] and [word[i]]; an index out of range panics in the source and is
    never used. *)
Definition limbs (w : Word) : list Z := [w0 w; w1 w; w2 w; w3 w].
Definition widx (w : Word) (i : nat) : Z :=
  match i with O => w0 w | 1%nat => w1 w | 2%nat => w2 w | _ => w3 w end.
Notation "w .[ i ]" := (widx w i) (at level 1, left associativity, format "w .[ i ]") : rv_scope.

Definition word_map (f : Z -> Z) (w : Word) : Word := mkWord (f (w0 w)) (f (w1 w)) (f (w2 w)) (f (w3 w)).
Definition word_of (f : nat -> Z) : Word := mkWord (f 0%nat) (f 1%nat) (f 2%nat) (f 3%nat).
Definition extend_var (x : Z) : Word := mkWord (0 + x) 0 0 0.
Definition word_zero : Word := mkWord 0 0 0 0.

(** [Word::from(u32)]. *)
Definition word_from (x : Z) : Word :=
  mkWord (u8 x) (u8 (Z.shiftr x 8)) (u8 (Z.shiftr x 16)) (u8 (Z.shiftr x 24)).

(** [to_u32], on a word of bytes. *)
Definition to_u32 (w : Word) : Z := from_le_bytes32 (w0 w) (w1 w) (w2 w) (w3 w).

Definition reduce (w : Word) : Z := 1 * w0 w + 2 ^ 8 * w1 w + 2 ^ 16 * w2 w + 2 ^ 24 * w3 w.

Definition word_bytes (w : Word) : Prop :=
  is_u8 (w0 w) /\ is_u8 (w1 w) /\ is_u8 (w2 w) /\ is_u8 (w3 w).
Definition word_canon (w : Word) : Prop :=
  canon (w0 w) /\ canon (w1 w) /\ canon (w2 w) /\ canon (w3 w).

#[export] Instance Word_eq_dec : EqDecision Word.
Proof. solve_decision. Defined.

(** *** WordAirBuilder *)

Definition assert_word_eq (left right : Word) : list Call := zip_with AssertEq (limbs left) (limbs right).
Definition assert_word_zero (w : Word) : list Call := map AssertZero (limbs w).

Definition index_word_array (array : list Word) (index_bitmap : list Z) : Word :=
  word_of (fun i => index_array (map (fun w => w.[i]) array) index_bitmap).

Definition select_word (condition : Z) (a b : Word) : Word :=
  word_of (fun i => if_else condition a.[i] b.[i]).

(** Pairs of limbs; an odd last limb is paired with 0. *)
Fixpoint slice_range_check_u8 (input : list Z) (mult : Z) : list Call :=
  match input with
  | a :: b :: rest =>
      send_byte (ByteOpcode.as_u8 ByteOpcode.U8Range) 0 a b mult ++ slice_range_check_u8 rest mult
  | [a] => send_byte (ByteOpcode.as_u8 ByteOpcode.U8Range) 0 a 0 mult
  | [] => []
  end.

Definition slice_range_check_u16 (input : list Z) (mult : Z) : list Call :=
  flat_map (fun limb => send_byte (ByteOpcode.as_u8 ByteOpcode.U16Range) limb 0 0 mult) input.

(** *** InstructionAirBuilder *)

Definition instruction_values (shard clk pc next_pc num_extra_cycles opcode : Z) (a b c : Word)
    (op_a_0 op_a_immutable is_memory is_syscall is_halt : Z) : list Z :=
  [shard; clk; pc; next_pc; num_extra_cycles; opcode] ++ limbs a ++ limbs b ++ limbs c ++
  [op_a_0; op_a_immutable; is_memory; is_syscall; is_halt].

Definition send_instruction (shard clk pc next_pc num_extra_cycles opcode : Z) (a b c : Word)
    (op_a_0 op_a_immutable is_memory is_syscall is_halt multiplicity : Z) : list Call :=
  [Send (mkAirInteraction
     (instruction_values shard clk pc next_pc num_extra_cycles opcode a b c
        op_a_0 op_a_immutable is_memory is_syscall is_halt) multiplicity KInstruction) Local].

Definition receive_instruction (shard clk pc next_pc num_extra_cycles opcode : Z) (a b c : Word)
    (op_a_0 op_a_immutable is_memory is_syscall is_halt multiplicity : Z) : list Call :=
  [Receive (mkAirInteraction
     (instruction_values shard clk pc next_pc num_extra_cycles opcode a b c
        op_a_0 op_a_immutable is_memory is_syscall is_halt) multiplicity KInstruction) Local].

Definition send_syscall (shard clk syscall_id arg1 arg2 multiplicity : Z)
    (scope : InteractionScope) : list Call :=
  [Send (mkAirInteraction [shard; clk; syscall_id; arg1; arg2] multiplicity KSyscall) scope].
Definition receive_syscall (shard clk syscall_id arg1 arg2 multiplicity : Z)
    (scope : InteractionScope) : list Call :=
  [Receive (mkAirInteraction [shard; clk; syscall_id; arg1; arg2] multiplicity KSyscall) scope].

(** ** The builders

    [when] is p3_air's: a sub-builder whose constraints are enforced only when
    the condition is nonzero.  [enforced] says when they are. *)
Class FilteredAirBuilder : Type := {
  enforced : Z -> bool;
  enforced_spec c : enforced c = false <-> c ≡F 0
}.

(** The filter of a prime field. *)
#[refine] Definition nonzero_filter : FilteredAirBuilder := {|
  enforced c := negb (bool_decide (c ≡F 0))
|}.
Proof. intros c. rewrite negb_false_iff. apply bool_decide_eq_true. Defined.

Section Builders.
  Context {FB : FilteredAirBuilder}.

(** [DebugConstraintBuilder]: does the call pass?  Messages are no-ops. *)
Fixpoint debug_call (k : Call) : bool :=
  match k with
  | AssertZero x => bool_decide (x ≡F 0)
  | AssertOne x => bool_decide (x ≡F 1)
  | AssertEq x y => bool_decide (x ≡F y)
  | AssertBool x => bool_decide (x ≡F 0) || bool_decide (x ≡F 1)
  | When condition c => negb (enforced condition) || debug_call c
  | Send _ _ | Receive _ _ => true
  end.

Definition debug_constraints (calls : list Call) : bool := forallb debug_call calls.

(** What a passed call says. *)
Fixpoint holds (k : Call) : Prop :=
  match k with
  | AssertZero x => x ≡F 0
  | AssertOne x => x ≡F 1
  | AssertEq x y => x ≡F y
  | AssertBool x => x ≡F 0 \/ x ≡F 1
  | When condition c => ~ condition ≡F 0 -> holds c
  | Send _ _ | Receive _ _ => True
  end.

Fixpoint all_hold (calls : list Call) : Prop :=
  match calls with [] => True | k :: rest => holds k /\ all_hold rest end.

Lemma debug_call_holds k : debug_call k = true <-> holds k.
Proof.
  induction k as [| | | |cond c IH| |]; cbn [debug_call holds].
  1-3: apply bool_decide_eq_true.
  - rewrite orb_true_iff, !bool_decide_eq_true. done.
  - rewrite orb_true_iff, negb_true_iff, enforced_spec, IH.
    destruct (decide (cond ≡F 0)); tauto.
  - done.
  - done.
Qed.

Lemma debug_constraints_hold calls : debug_constraints calls = true <-> all_hold calls.
Proof.
  induction calls as [|k l IH]; cbn; [done|].
  rewrite andb_true_iff, debug_call_holds. unfold debug_constraints in IH. by rewrite IH.
Qed.
End Builders.

Lemma all_hold_app l1 l2 : all_hold (l1 ++ l2) <-> all_hold l1 /\ all_hold l2.
Proof. induction l1 as [|k l IH]; cbn; [tauto|]. rewrite IH. tauto. Qed.

Lemma all_hold_in l k : all_hold l -> In k l -> holds k.
Proof. induction l as [|x l IH]; cbn; [done|]. intros [Hx Hl] [->|Hin]; auto. Qed.

Lemma all_hold_when c l : all_hold (when c l) <-> (~ c ≡F 0 -> all_hold l).
Proof.
  unfold when. induction l as [|k l IH]; cbn; [tauto|]. rewrite IH.
  destruct (decide (c ≡F 0)); tauto.
Qed.

(** [InteractionBuilder]: the messages of a kind, with their multiplicities. *)
Definition sends (k : InteractionKind) (calls : list Call) : list AirInteraction :=
  omap (fun c => match c with Send m _ => if decide (kind m = k) then Some m else None | _ => None end) calls.
Definition receives (k : InteractionKind) (calls : list Call) : list AirInteraction :=
  omap (fun c => match c with Receive m _ => if decide (kind m = k) then Some m else None | _ => None end) calls.

Lemma sends_app k l1 l2 : sends k (l1 ++ l2) = sends k l1 ++ sends k l2.
Proof. apply omap_app. Qed.
Lemma receives_app k l1 l2 : receives k (l1 ++ l2) = receives k l1 ++ receives k l2.
Proof. apply omap_app. Qed.

(** Two messages are the same message when their values agree in the field. *)
Definition same_values (v v' : list Z) : Prop := map Fred v = map Fred v'.

Lemma same_values_Forall2 v v' : same_values v v' <-> Forall2 eqF v v'.
Proof.
  unfold same_values. split.
  - revert v'. induction v as [|x v IH]; intros [|y v'] H; try done. injection H as H1 H2.
    constructor; [exact H1|auto].
  - induction 1 as [|x y v v' Hxy _ IH]; [done|]. cbn. rewrite IH. f_equal. exact Hxy.
Qed.

(** ** Words and numbers *)

Lemma to_u32_range w : word_bytes w -> is_u32 (to_u32 w).
Proof.
  unfold word_bytes, to_u32, from_le_bytes32. rewrite !is_u8_iff, is_u32_iff. lia.
Qed.

Lemma word_from_to_u32 w : word_bytes w -> word_from (to_u32 w) = w.
Proof.
  intros (H0 & H1 & H2 & H3). destruct w as [a b c d]. cbn in *. unfold to_u32. cbn.
  pose proof (to_from_le_bytes32 a b c d H0 H1 H2 H3) as E. injection E as E0 E1 E2 E3.
  unfold word_from. by rewrite E0, E1, E2, E3.
Qed.

Lemma to_u32_word_from x : is_u32 x -> to_u32 (word_from x) = x.
Proof. apply from_to_le_bytes32. Qed.

Lemma word_from_bytes x : word_bytes (word_from x).
Proof. repeat split; apply u8_range. Qed.

Lemma to_u32_inj w w' : word_bytes w -> word_bytes w' -> to_u32 w = to_u32 w' -> w = w'.
Proof. intros H H' E. by rewrite <- (word_from_to_u32 w), <- (word_from_to_u32 w'), E. Qed.

Lemma u8_canon x : is_u8 x -> canon x.
Proof. rewrite is_u8_iff. unfold canon, BABYBEAR. lia. Qed.

Lemma word_bytes_canon w : word_bytes w -> word_canon w.
Proof. intros (?&?&?&?). repeat split; by apply u8_canon. Qed.

Lemma word_from_canon x : word_canon (word_from x).
Proof. apply word_bytes_canon, word_from_bytes. Qed.

Lemma limbs_bytes w : word_bytes w -> Forall is_u8 (limbs w).
Proof. intros (?&?&?&?). unfold limbs. by rewrite !Forall_cons. Qed.

Lemma limbs_canon w : word_canon w -> Forall canon (limbs w).
Proof. intros (?&?&?&?). unfold limbs. by rewrite !Forall_cons. Qed.

Lemma from_bool_canon x : canon (from_bool x).
Proof. by destruct x. Qed.

Lemma sel_sum x : from_bool x + from_bool (negb x) = 1.
Proof. by destruct x. Qed.

Lemma from_bool_01 x : from_bool x = 0 \/ from_bool x = 1.
Proof. destruct x; auto. Qed.

#[export] Hint Resolve word_from_canon word_from_bytes from_bool_canon Fred_canon limbs_bytes limbs_canon : rvbound.

Lemma receives_map {A} (f : A -> Call) k l :
  (forall x, match f x with Receive _ _ => False | _ => True end) -> receives k (map f l) = [].
Proof.
  intros Hf. unfold receives. induction l as [|x l IH]; [done|]. cbn. specialize (Hf x).
  destruct (f x); done || exact IH.
Qed.

Lemma sends_map {A} (f : A -> Call) k l :
  (forall x, match f x with Send _ _ => False | _ => True end) -> sends k (map f l) = [].
Proof.
  intros Hf. unfold sends. induction l as [|x l IH]; [done|]. cbn. specialize (Hf x).
  destruct (f x); done || exact IH.
Qed.

(** Range checks send bytes only. *)
Lemma sends_range k l m : k <> KByte -> sends k (slice_range_check_u8 l m) = [].
Proof.
  intros Hk. induction l as [l IH] using (well_founded_induction (Wf_nat.well_founded_ltof _ length)).
  destruct l as [|a [|b l]]; [done|..].
  - cbn. by destruct k.
  - cbn [slice_range_check_u8]. rewrite sends_app, IH by (unfold ltof; cbn; lia). by destruct k.
Qed.

(** * BabyBear is a prime field

    The order of the field of the chips is prime, so that products vanish only
    with a factor and nonzero elements have an inverse. *)

(** [F::inverse]. *)
Definition Finv (x : Z) : Z := Z.invmod x BABYBEAR.

(** No odd number from [d] on, [n] of them, divides the modulus. *)
Fixpoint no_divisor (n : nat) (d : Z) : bool :=
  match n with O => true | S n => negb (BABYBEAR mod d =? 0) && no_divisor n (d + 2) end.

Lemma no_divisor_spec n d : no_divisor n d = true ->
  forall i, (i < n)%nat -> BABYBEAR mod (d + 2 * Z.of_nat i) <> 0.
Proof.
  revert d. induction n as [|n IH]; intros d H i Hi; [lia|].
  cbn [no_divisor] in H. apply andb_true_iff in H as [H1 H2]. apply negb_true_iff, Z.eqb_neq in H1.
  destruct i as [|i]; [by rewrite Z.add_0_r|].
  replace (d + 2 * Z.of_nat (S i)) with (d + 2 + 2 * Z.of_nat i) by lia. apply IH; [done|lia].
Qed.

(** Divisors up to the square root, 44869.4... *)
Lemma no_small_divisor n : 1 < n <= 45000 -> ~ (n | BABYBEAR).
Proof.
  intros Hn Hd. apply Z.mod_divide in Hd; [|lia].
  assert (no_divisor (Pos.to_nat 22500) 3 = true) as H by (vm_compute; reflexivity).
  pose proof (no_divisor_spec _ _ H) as H'. clear H.
  destruct (Z.eq_dec (n mod 2) 0) as [He|He].
  - assert (n = 2 * (n / 2)) as En by (Z.div_mod_to_equations; lia).
    assert (BABYBEAR mod 2 = 0) as H2.
    { apply Z.mod_divide; [done|]. exists (n / 2 * (BABYBEAR / n)).
      pose proof (Z.div_mod BABYBEAR n ltac:(lia)). nia. }
    discriminate H2.
  - apply (H' (Z.to_nat ((n - 3) / 2))).
    + rewrite <- Z2Nat.inj_pos. apply Z2Nat.inj_lt; Z.div_mod_to_equations; lia.
    + rewrite Z2Nat.id by (Z.div_mod_to_equations; lia).
      replace (3 + 2 * ((n - 3) / 2)) with n by (Z.div_mod_to_equations; lia). done.
Qed.

Lemma babybear_prime : Z.prime BABYBEAR.
Proof.
  split; [done|]. intros n Hn [k Hk].
  destruct (Z.le_gt_cases n 45000).
  - apply (no_small_divisor n); [lia|]. by exists k.
  - apply (no_small_divisor k); [unfold BABYBEAR in *; nia|]. exists n. lia.
Qed.

Lemma Finv_spec x : ~ x ≡F 0 -> Finv x * x ≡F 1.
Proof.
  intros Hx. unfold eqF, Finv. rewrite (Z.invmod_prime x BABYBEAR babybear_prime); [done|].
  intros E. apply Hx. unfold eqF. rewrite E. done.
Qed.

Lemma Finv_canon x : canon (Finv x).
Proof. unfold Finv, Z.invmod. apply Z.mod_pos_bound. done. Qed.

Lemma eqF_mul_0 x y : x * y ≡F 0 -> x ≡F 0 \/ y ≡F 0.
Proof.
  unfold eqF. rewrite Zmod_0_l. intros H. apply Z.mod_divide in H; [|done].
  apply Z.divide_prime_mul in H; [|exact babybear_prime].
  destruct H as [H|H]; [left|right]; by apply Z.mod_divide in H.
Qed.
