(* ===== verification/ByteTable.v ===== *)
(** * The byte table (crates/core/machine/src/bytes)

    [ByteChip] has one row per pair of bytes, with the result of every byte
    operation in its preprocessed columns and the number of uses of each in its
    main columns.  Other chips send byte messages; [in_byte_table] says that a
    message is one the table can receive. *)

From Stdlib Require Import ZArith Lia Bool.
From stdpp Require Import base list gmap.
From S2P Require Import Prelude Isa ByteLookup Alu AirBuilder.

Local Open Scope Z_scope.
Local Open Scope rv_scope.

Module ByteChip.

(** bytes/utils.rs; both arguments are bytes, the shifts are those of [u8]. *)
Definition shr_carry (input rotation : Z) : Z * Z :=
  let c_mod := Z.land rotation 7 in
  if negb (c_mod =? 0) then
    (Z.shiftr input c_mod, Z.shiftr (u8 (Z.shiftl input (8 - c_mod))) (8 - c_mod))
  else (input, 0).

Record BytePreprocessedCols : Type := mkBytePreprocessedCols {
  b : Z; c : Z; and : Z; or : Z; xor : Z; sll : Z; shr : Z; shr_carry_ : Z; ltu : Z; msb : Z;
  value_u16 : Z
}.

(** The row of [trace] for the bytes [b] and [c]. *)
Definition row (b c : Z) : BytePreprocessedCols :=
  let '(res, carry) := shr_carry b c in
  mkBytePreprocessedCols b c (Z.land b c) (Z.lor b c) (Z.lxor b c) (u8 (Z.shiftl b (Z.land c 7)))
    res carry (from_bool (b <? c)) (from_bool (negb (Z.land b 128 =? 0))) (Z.shiftl b 8 + c).

Definition bytes : list Z := zseq 0 256.

(** [ByteChip::trace]: the cartesian product, [b] outermost. *)
Definition trace : list BytePreprocessedCols := flat_map (fun b => map (row b) bytes) bytes.

(** The message a row can receive for an operation: opcode, a1, a2, b, c. *)
Definition received (r : BytePreprocessedCols) (o : ByteOpcode.t) : list Z :=
  match o with
  | ByteOpcode.AND => [ByteOpcode.as_u8 o; and r; 0; b r; c r]
  | ByteOpcode.OR => [ByteOpcode.as_u8 o; or r; 0; b r; c r]
  | ByteOpcode.XOR => [ByteOpcode.as_u8 o; xor r; 0; b r; c r]
  | ByteOpcode.SLL => [ByteOpcode.as_u8 o; sll r; 0; b r; c r]
  | ByteOpcode.U8Range => [ByteOpcode.as_u8 o; 0; 0; b r; c r]
  | ByteOpcode.ShrCarry => [ByteOpcode.as_u8 o; shr r; shr_carry_ r; b r; c r]
  | ByteOpcode.LTU => [ByteOpcode.as_u8 o; ltu r; 0; b r; c r]
  | ByteOpcode.MSB => [ByteOpcode.as_u8 o; msb r; 0; b r; 0]
  | ByteOpcode.U16Range => [ByteOpcode.as_u8 o; value_u16 r; 0; 0; 0]
  end.

Definition receive_row (vals : list Z) (mult : Z) : list Call :=
  match vals with
  | [op; a1; a2; vb; vc] => receive_byte_pair op a1 a2 vb vc mult
  | _ => []
  end.

(** [Air::eval], for a preprocessed row and the multiplicities of the main row. *)
Definition eval (local : BytePreprocessedCols) (multiplicities : list Z) : list Call :=
  flat_map (fun '(o, mult) => receive_row (received local o) mult) (zip ByteOpcode.all multiplicities).

(** [MachineAir::generate_trace]: the row and the column of a lookup. *)
Definition lookup_row (e : ByteLookupEvent) : Z :=
  if bool_decide (bl_opcode e = ByteOpcode.U16Range) then bl_a1 e
  else u16 (u16 (Z.shiftl (bl_b e) 8) + bl_c e).

Definition NUM_ROWS : Z := Z.shiftl 1 16.

(** One lookup with its count adds to a multiplicity ([None]: out of bounds). *)
Definition add_mult (e : ByteLookupEvent) (mult : Z) (t : list (list Z)) : option (list (list Z)) :=
  mults ← t !! Z.to_nat (lookup_row e);
  old ← mults !! Z.to_nat (ByteOpcode.as_u8 (bl_opcode e));
  Some (<[Z.to_nat (lookup_row e) :=
           <[Z.to_nat (ByteOpcode.as_u8 (bl_opcode e)) := Fred (old + mult)]> mults]> t).

Definition generate_trace (byte_lookups : gmap ByteLookupEvent Z) : option (list (list Z)) :=
  fold_left (fun acc '(e, mult) => t ← acc; add_mult e mult t)
    (map_to_list byte_lookups)
    (Some (replicate (Z.to_nat NUM_ROWS) (replicate (Z.to_nat NUM_BYTE_OPS) 0))).
End ByteChip.

(** ** What the table receives *)

(** The message of a lookup event. *)
Definition event_values (e : ByteLookupEvent) : list Z :=
  [ByteOpcode.as_u8 (bl_opcode e); bl_a1 e; bl_a2 e; bl_b e; bl_c e].

(** A message some row of the table can receive. *)
Definition in_byte_table (vals : list Z) : Prop :=
  exists r o, r ∈ ByteChip.trace /\ same_values vals (ByteChip.received r o).

(** What the lookup argument gives a row: its byte messages of nonzero
    multiplicity are in the table. *)
Definition call_found (k : Call) : Prop :=
  match k with
  | Send m _ =>
      match kind m with KByte => ~ multiplicity m ≡F 0 -> in_byte_table (values m) | _ => True end
  | _ => True
  end.

Fixpoint bytes_found (calls : list Call) : Prop :=
  match calls with [] => True | k :: rest => call_found k /\ bytes_found rest end.

Lemma bytes_found_app l1 l2 : bytes_found (l1 ++ l2) <-> bytes_found l1 /\ bytes_found l2.
Proof. induction l1 as [|k l IH]; cbn; [tauto|]. rewrite IH. tauto. Qed.

Lemma bytes_found_sends calls : bytes_found calls <->
  forall m, m ∈ sends KByte calls -> ~ multiplicity m ≡F 0 -> in_byte_table (values m).
Proof.
  induction calls as [|k l IH]; cbn [bytes_found].
  { split; [|done]. intros _ m Hm. by apply not_elem_of_nil in Hm. }
  rewrite IH. change (k :: l) with ([k] ++ l). rewrite sends_app. setoid_rewrite elem_of_app.
  assert (call_found k <-> forall m, m ∈ sends KByte [k] -> ~ multiplicity m ≡F 0 -> in_byte_table (values m)) as ->.
  2:{ split; [intros [H1 H2] m [Hm|Hm]; eauto|intros H; split; intros m Hm; eauto]. }
  destruct k as [| | | | |m sc|]; cbn [call_found sends omap list_omap];
    try (split; [intros _ m' Hm'; by apply not_elem_of_nil in Hm'|done]).
  destruct (kind m) eqn:Hk; case_decide; try congruence;
    try (split; [intros _ m' Hm'; by apply not_elem_of_nil in Hm'|done]).
  setoid_rewrite list_elem_of_singleton. split; [by intros H0 m' ->|by intros H0; apply H0].
Qed.

(** A checked row whose byte messages were found. *)
Definition row_ok (calls : list Call) : Prop := all_hold calls /\ bytes_found calls.

Lemma row_ok_app l1 l2 : row_ok (l1 ++ l2) <-> row_ok l1 /\ row_ok l2.
Proof. unfold row_ok. rewrite all_hold_app, bytes_found_app. tauto. Qed.

Lemma in_zseq x s n : x ∈ zseq s n <-> s <= x < s + Z.of_nat n.
Proof.
  unfold zseq. rewrite list_elem_of_In, in_map_iff. split.
  - intros (i & <- & Hi%in_seq). lia.
  - intros H. exists (Z.to_nat (x - s)). rewrite in_seq. split; lia.
Qed.

Lemma in_trace r : r ∈ ByteChip.trace <-> exists b c, is_u8 b /\ is_u8 c /\ r = ByteChip.row b c.
Proof.
  assert (forall x, In x ByteChip.bytes <-> is_u8 x) as Hb.
  { intros x. rewrite <- list_elem_of_In. unfold ByteChip.bytes. rewrite in_zseq, is_u8_iff. lia. }
  unfold ByteChip.trace. rewrite list_elem_of_In, in_flat_map. split.
  - intros (b & H1%Hb & (c & <- & H2%Hb)%in_map_iff). by exists b, c.
  - intros (b & c & H1 & H2 & ->). exists b. rewrite Hb. split; [done|].
    apply in_map_iff. exists c. by rewrite Hb.
Qed.

(** Opcodes of the table, modulo the field. *)
Lemma as_u8_inj o o' : ByteOpcode.as_u8 o ≡F ByteOpcode.as_u8 o' -> o = o'.
Proof. destruct o, o'; intros H; try reflexivity; discriminate H. Qed.

Lemma in_byte_table_inv o vs : in_byte_table (ByteOpcode.as_u8 o :: vs) ->
  exists b c, is_u8 b /\ is_u8 c /\
    same_values (ByteOpcode.as_u8 o :: vs) (ByteChip.received (ByteChip.row b c) o).
Proof.
  intros (r & o' & (b & c & Hb & Hc & ->)%in_trace & Hs). exists b, c. do 2 (split; [done|]).
  assert (o = o') as ->; [|done].
  apply as_u8_inj. apply same_values_Forall2 in Hs. destruct o'; cbn in Hs; by inversion Hs.
Qed.

(** *** One lemma per operation: what a found message says of its values, when
    they are field elements *)

Ltac byte_inv H b c :=
  apply in_byte_table_inv in H; destruct H as (b & c & ? & ? & H);
  apply same_values_Forall2 in H; unfold ByteChip.row, ByteChip.received in H;
  destruct (ByteChip.shr_carry _ _) eqn:?;
  cbn [ByteChip.b ByteChip.c ByteChip.and ByteChip.or ByteChip.xor ByteChip.sll ByteChip.shr
       ByteChip.shr_carry_ ByteChip.ltu ByteChip.msb ByteChip.value_u16] in H;
  repeat match type of H with
  | Forall2 _ (_ :: _) _ => apply Forall2_cons in H; let E := fresh "E" in destruct H as [E H]
  end; clear H.

Lemma land_u8 x y : is_u8 x -> is_u8 y -> is_u8 (Z.land x y).
Proof.
  intros Hx Hy. apply in_u_bits in Hx, Hy; try lia. apply in_u_bits; [lia|].
  split; [apply Z.land_nonneg; left; apply Hx|]. intros n Hn. rewrite Z.land_spec.
  by rewrite (proj2 Hx n Hn).
Qed.

Lemma lor_u8 x y : is_u8 x -> is_u8 y -> is_u8 (Z.lor x y).
Proof.
  intros Hx Hy. apply in_u_bits in Hx, Hy; try lia. apply in_u_bits; [lia|].
  split; [apply Z.lor_nonneg; split; [apply Hx|apply Hy]|]. intros n Hn. rewrite Z.lor_spec.
  by rewrite (proj2 Hx n Hn), (proj2 Hy n Hn).
Qed.

Lemma lxor_u8 x y : is_u8 x -> is_u8 y -> is_u8 (Z.lxor x y).
Proof.
  intros Hx Hy. apply in_u_bits in Hx, Hy; try lia. apply in_u_bits; [lia|].
  split; [apply Z.lxor_nonneg; split; intros; [apply Hy|apply Hx]|]. intros n Hn. rewrite Z.lxor_spec.
  by rewrite (proj2 Hx n Hn), (proj2 Hy n Hn).
Qed.

Lemma from_bool_u8 x : is_u8 (from_bool x).
Proof. rewrite is_u8_iff. destruct x; cbn; lia. Qed.

#[export] Hint Resolve land_u8 lor_u8 lxor_u8 from_bool_u8 u8_canon : rvbound.

(** [shr_carry] divides. *)
Lemma shr_carry_spec x k : is_u8 x -> 0 <= k < 8 ->
  ByteChip.shr_carry x k = (x / 2 ^ k, x mod 2 ^ k).
Proof.
  rewrite is_u8_iff. intros Hx Hk. unfold ByteChip.shr_carry.
  assert (Z.land k 7 = k) as ->.
  { change 7 with (Z.ones 3). rewrite Z.land_ones by lia. apply Z.mod_small. lia. }
  destruct (Z.eqb_spec k 0) as [->|Hk0]; cbn [negb].
  { by rewrite Z.div_1_r, Z.mod_1_r. }
  rewrite Z.shiftr_div_pow2, Z.shiftl_mul_pow2, Z.shiftr_div_pow2 by lia. f_equal.
  unfold u8, wrap. replace (2 ^ 8) with (2 ^ k * 2 ^ (8 - k)).
  2:{ rewrite <- Z.pow_add_r by lia. f_equal. lia. }
  rewrite Z.mul_mod_distr_r by (apply Z.pow_nonzero; lia).
  apply Z.div_mul. apply Z.pow_nonzero; lia.
Qed.

(** A decidable fact about bytes, checked on all of them. *)
Lemma byte_cases (P : Z -> bool) : forallb P ByteChip.bytes = true -> forall x, is_u8 x -> P x = true.
Proof.
  intros H x Hx. rewrite is_u8_iff in Hx. rewrite forallb_forall in H. apply H, list_elem_of_In.
  unfold ByteChip.bytes. apply in_zseq. change (Z.of_nat 256) with 256. lia.
Qed.

Lemma msb_div x : is_u8 x -> from_bool (negb (Z.land x 128 =? 0)) = x / 128.
Proof.
  intros Hx. apply Z.eqb_eq.
  apply (byte_cases (fun x => from_bool (negb (Z.land x 128 =? 0)) =? x / 128)); [reflexivity|done].
Qed.

Ltac byte_eqs :=
  repeat match goal with
  | E : ?x ≡F ?y |- _ => apply eqF_canon in E; [subst|solve [eauto with rvbound]|solve [eauto with rvbound]]
  end.

Section Found.
  Context (a x y : Z) (Ha : canon a) (Hx : canon x) (Hy : canon y).

Lemma and_found : in_byte_table [ByteOpcode.as_u8 ByteOpcode.AND; a; 0; x; y] ->
  is_u8 x /\ is_u8 y /\ a = Z.land x y.
Proof. intros H. byte_inv H b c. byte_eqs. auto. Qed.

Lemma or_found : in_byte_table [ByteOpcode.as_u8 ByteOpcode.OR; a; 0; x; y] ->
  is_u8 x /\ is_u8 y /\ a = Z.lor x y.
Proof. intros H. byte_inv H b c. byte_eqs. auto. Qed.

Lemma xor_found : in_byte_table [ByteOpcode.as_u8 ByteOpcode.XOR; a; 0; x; y] ->
  is_u8 x /\ is_u8 y /\ a = Z.lxor x y.
Proof. intros H. byte_inv H b c. byte_eqs. auto. Qed.

Lemma ltu_found : in_byte_table [ByteOpcode.as_u8 ByteOpcode.LTU; a; 0; x; y] ->
  is_u8 x /\ is_u8 y /\ a = from_bool (x <? y).
Proof. intros H. byte_inv H b c. byte_eqs. auto. Qed.

Lemma u8range_found : in_byte_table [ByteOpcode.as_u8 ByteOpcode.U8Range; 0; 0; x; y] ->
  is_u8 x /\ is_u8 y.
Proof. intros H. byte_inv H b c. byte_eqs. auto. Qed.

Lemma msb_found : in_byte_table [ByteOpcode.as_u8 ByteOpcode.MSB; a; 0; x; 0] ->
  is_u8 x /\ a = x / 128.
Proof.
  intros H. byte_inv H b c. byte_eqs. split; [done|]. by apply msb_div.
Qed.

Lemma u16range_found : in_byte_table [ByteOpcode.as_u8 ByteOpcode.U16Range; a; 0; 0; 0] -> in_u 16 a.
Proof.
  intros H. byte_inv H b c. rewrite Z.shiftl_mul_pow2 in E0 by lia.
  rewrite is_u8_iff in *.
  unfold canon in Ha. apply eqF_small in E0; [|unfold BABYBEAR in *; lia]. subst. split; lia.
Qed.

Lemma shr_carry_found r k : canon r -> 0 <= k < 8 -> y = k ->
  in_byte_table [ByteOpcode.as_u8 ByteOpcode.ShrCarry; a; r; x; y] ->
  is_u8 x /\ a = x / 2 ^ k /\ r = x mod 2 ^ k.
Proof.
  intros Hr Hk -> H. byte_inv H b c. apply eqF_canon in E2, E3; auto with rvbound.
  subst b c. rewrite (shr_carry_spec x k) in Heqp by done.
  injection Heqp as <- <-.
  assert (is_u8 (x / 2 ^ k) /\ is_u8 (x mod 2 ^ k)) as [B1 B2].
  { rewrite !is_u8_iff in *. pose proof (Z.pow_pos_nonneg 2 k). pose proof (Z.mod_pos_bound x (2 ^ k)).
    pose proof (Z.div_pos x (2 ^ k)). pose proof (Z.div_le_upper_bound x (2 ^ k) x).
    assert (2 ^ k <= 2 ^ 8) by (apply Z.pow_le_mono_r; lia). change (2 ^ 8) with 256 in *. nia. }
  apply eqF_canon in E0, E1; auto with rvbound.
Qed.
End Found.

(** ** Range checks *)

Lemma slice_range_check_u8_found l m :
  bytes_found (slice_range_check_u8 l m) -> ~ m ≡F 0 -> Forall canon l -> Forall is_u8 l.
Proof.
  intros H Hm. revert H. induction l as [l IH] using (induction_ltof1 _ length).
  unfold ltof in IH. destruct l as [|x [|y rest]]; intros H Hc.
  - constructor.
  - rewrite Forall_singleton in Hc. destruct H as [H _]. cbn in H.
    constructor; [|constructor].
    assert (canon 0) as H0 by done. by destruct (u8range_found x 0 Hc H0 (H Hm)).
  - rewrite !Forall_cons in Hc. destruct Hc as (Hx & Hy & Hc).
    destruct H as [H Hr]. cbn in H. destruct (u8range_found x y Hx Hy (H Hm)).
    do 2 (constructor; [done|]). apply IH; [cbn; lia|done..].
Qed.

Lemma slice_range_check_u16_found l m :
  bytes_found (slice_range_check_u16 l m) -> ~ m ≡F 0 -> Forall canon l -> Forall (in_u 16) l.
Proof.
  intros H Hm. revert H. unfold slice_range_check_u16.
  induction l as [|x l IH]; intros H Hc; [constructor|].
  rewrite Forall_cons in Hc. destruct Hc as [Hx Hc]. cbn in H. destruct H as [H Hr].
  constructor; [|auto]. apply (u16range_found x Hx), H, Hm.
Qed.

Lemma word_range_checked w m :
  bytes_found (slice_range_check_u8 (limbs w) m) -> ~ m ≡F 0 -> word_canon w -> word_bytes w.
Proof.
  intros H Hm (H0 & H1 & H2 & H3).
  pose proof (slice_range_check_u8_found _ _ H Hm) as Hb.
  assert (Forall is_u8 (limbs w)) as HF by (apply Hb; repeat constructor; apply H0 || apply H1 || apply H2 || apply H3).
  unfold limbs in HF. rewrite !Forall_cons in HF. by destruct HF as (?&?&?&?&_).
Qed.

(** ** Automation for the proofs about rows *)

(** Columns asserted to be boolean are 0 or 1. *)
Ltac bool_cases :=
  repeat match goal with
  | H : ?x ≡F 0 \/ ?x ≡F 1 |- _ =>
      let E := fresh "B" in
      assert (x = 0 \/ x = 1) as E
        by (destruct H as [H|H]; [left|right]; apply eqF_canon in H; auto; unfold canon, BABYBEAR; lia);
      clear H
  end.

(** Linear constraints between range-checked columns are equations. *)
Ltac small_eqs :=
  repeat match goal with
  | H : _ ≡F _ |- _ => apply eqF_small in H; [|unfold canon, BABYBEAR in *; lia]
  end.

Lemma zero_or_base x : x * (x - 256) ≡F 0 -> -4096 < x < 4096 -> x = 0 \/ x = 256.
Proof.
  intros H Hx. apply eqF_small in H; [|unfold BABYBEAR; nia].
  apply Zmult_integral in H. lia.
Qed.

(** ** Messages sent against events recorded *)

(** The byte messages of nonzero multiplicity. *)
Definition byte_messages (calls : list Call) : list (list Z) :=
  map values (filter (fun m => ~ multiplicity m ≡F 0) (sends KByte calls)).

Lemma byte_messages_app l1 l2 : byte_messages (l1 ++ l2) = byte_messages l1 ++ byte_messages l2.
Proof. unfold byte_messages. by rewrite sends_app, filter_app, map_app. Qed.

Lemma byte_messages_when c l :
  Forall (fun k => match k with Send _ _ => False | _ => True end) l -> byte_messages (when c l) = [].
Proof. induction 1 as [|k l Hk _ IH]; [done|]. cbn. exact IH. Qed.

Lemma byte_messages_send o a1 a2 b c m :
  byte_messages (send_byte_pair o a1 a2 b c m) =
  if decide (m ≡F 0) then [] else [[o; a1; a2; b; c]].
Proof.
  unfold byte_messages, send_byte_pair. cbn [sends omap list_omap kind].
  rewrite decide_True by done. rewrite filter_cons. cbn [multiplicity]. by repeat case_decide.
Qed.

Lemma byte_messages_range l m :
  byte_messages (slice_range_check_u8 l m) =
  if decide (m ≡F 0) then [] else map event_values (u8_pairs l).
Proof.
  induction l as [|a|a b l IH] using list_pair_ind; cbn [slice_range_check_u8 u8_pairs].
  - by case_decide.
  - unfold send_byte. rewrite byte_messages_send. done.
  - unfold send_byte at 1. rewrite byte_messages_app, byte_messages_send, IH. by case_decide.
Qed.

Lemma add_byte_lookup_events_app {R} `{ByteRecord R} l1 l2 (r : R) :
  add_byte_lookup_events (l1 ++ l2) r = add_byte_lookup_events l2 (add_byte_lookup_events l1 r).
Proof. apply fold_left_app. Qed.

Lemma add_byte_lookup_event_one {R} `{ByteRecord R} e (r : R) :
  add_byte_lookup_event e r = add_byte_lookup_events [e] r.
Proof. done. Qed.

(** A lookup event the table has. *)
Definition event_found (e : ByteLookupEvent) : Prop :=
  exists b c, is_u8 b /\ is_u8 c /\ event_values e = ByteChip.received (ByteChip.row b c) (bl_opcode e).

Lemma event_found_in_table e : event_found e -> in_byte_table (event_values e).
Proof. intros (b & c & Hb & Hc & ->). exists (ByteChip.row b c), (bl_opcode e). split; [apply in_trace; eauto|done]. Qed.

Lemma bytes_found_messages calls :
  bytes_found calls <-> Forall in_byte_table (byte_messages calls).
Proof.
  rewrite bytes_found_sends. unfold byte_messages. rewrite Forall_forall. setoid_rewrite list_elem_of_In.
  setoid_rewrite in_map_iff. setoid_rewrite <- list_elem_of_In. setoid_rewrite list_elem_of_filter. split.
  - intros H v (m & <- & Hm1 & Hm2). auto.
  - intros H m Hm Hn. apply H. eauto.
Qed.

Lemma events_found_messages calls evs :
  byte_messages calls ≡ₚ map event_values evs -> Forall event_found evs -> bytes_found calls.
Proof. intros Hp He. rewrite bytes_found_messages, Hp. apply Forall_map. eapply Forall_impl; [exact He|apply event_found_in_table]. Qed.

Lemma u8_pairs_found l : Forall is_u8 l -> Forall event_found (u8_pairs l).
Proof.
  assert (forall a b, is_u8 a -> is_u8 b -> event_found (mkByteLookupEvent ByteOpcode.U8Range 0 0 a b)) as Hab.
  { intros a b Ha Hb. exists a, b. do 2 (split; [done|]). cbn [bl_opcode].
    unfold ByteChip.row. by destruct (ByteChip.shr_carry a b). }
  induction l as [|a|a b l IH] using list_pair_ind; cbn [u8_pairs]; rewrite ?Forall_cons.
  - done.
  - intros [Ha _]. split; [|done]. apply Hab; [done|]. by apply is_u8_iff.
  - intros (Ha & Hb & Hl). auto.
Qed.

Lemma bool_canon x : x ≡F 0 \/ x ≡F 1 -> canon x -> x = 0 \/ x = 1.
Proof. intros [H|H] Hc; [left|right]; apply eqF_canon in H; done. Qed.

Lemma not_zero_one x : x = 0 \/ x = 1 -> ~ x ≡F 0 -> x = 1.
Proof. intros [->| ->] H; [by destruct H|done]. Qed.

Lemma event_found_intro e b c : is_u8 b -> is_u8 c ->
  event_values e = ByteChip.received (ByteChip.row b c) (bl_opcode e) -> event_found e.
Proof. intros Hb Hc E. by exists b, c. Qed.

(** ** Loops and one-hot selectors *)

Lemma all_hold_flat_map {A} (f : A -> list Call) l :
  all_hold (flat_map f l) <-> forall x, In x l -> all_hold (f x).
Proof.
  induction l as [|y l IH]; cbn [flat_map]; [split; [intros _ x []|done]|].
  rewrite all_hold_app, IH. split.
  - intros [H1 H2] x [->|Hx]; auto.
  - intros H. split; [apply H; by left|]. intros x Hx. apply H. by right.
Qed.

Lemma row_ok_flat_map {A} (f : A -> list Call) l :
  row_ok (flat_map f l) -> forall x, In x l -> row_ok (f x).
Proof.
  induction l as [|y l IH]; cbn [flat_map]; [done|]. rewrite row_ok_app.
  intros [H1 H2] x [->|Hx]; auto.
Qed.

Lemma all_hold_map {A} (f : A -> Call) l :
  all_hold (map f l) <-> forall x, In x l -> holds (f x).
Proof.
  induction l as [|y l IH]; cbn [map all_hold]; [split; [intros _ x []|done]|].
  rewrite IH. split.
  - intros [H1 H2] x [->|Hx]; auto.
  - intros H. split; [apply H; by left|]. intros x Hx. apply H. by right.
Qed.

(** [iter().fold(zero, |acc, x| acc + x)]. *)
Definition sum_columns (l : list Z) : Z := fold_left (fun acc x => acc + x) l 0.

Lemma sum_zeros l : Forall (fun x => x = 0) l -> sum_columns l = 0.
Proof. unfold sum_columns. intros H. induction H as [|x l -> _ IH]; [done|exact IH]. Qed.

Lemma one_hot l : Forall canon l -> all_hold (map AssertBool l) -> sum_columns l ≡F 1 ->
  exists i, (i < length l)%nat /\ nth i l 0 = 1.
Proof.
  intros Hc Hb Hs. destruct (decide (Forall (fun x => x = 0) l)) as [Hz|Hz].
  { rewrite sum_zeros in Hs by done. discriminate Hs. }
  apply not_Forall_Exists in Hz; [|apply _]. apply Exists_exists in Hz as (x & Hx & Hx0).
  apply list_elem_of_In, (In_nth l x 0) in Hx as (i & Hi & <-). exists i. split; [done|].
  rewrite all_hold_map in Hb. specialize (Hb (nth i l 0) ltac:(by apply nth_In)).
  apply bool_canon in Hb; [by destruct Hb|]. rewrite Forall_forall in Hc. apply Hc, list_elem_of_In. by apply nth_In.
Qed.

Lemma bool_columns l : Forall canon l -> all_hold (map AssertBool l) -> Forall (fun x => x = 0 \/ x = 1) l.
Proof.
  intros Hc Hb. rewrite all_hold_map in Hb. rewrite Forall_forall in *. intros x Hx.
  apply bool_canon; [|by apply Hc]. apply Hb. by apply list_elem_of_In.
Qed.

Lemma bytes_found_flat_map {A} (f : A -> list Call) l :
  bytes_found (flat_map f l) <-> forall x, In x l -> bytes_found (f x).
Proof.
  induction l as [|y l IH]; cbn [flat_map]; [split; [intros _ x []|done]|].
  rewrite bytes_found_app, IH. split.
  - intros [H1 H2] x [->|Hx]; auto.
  - intros H. split; [apply H; by left|]. intros x Hx. apply H. by right.
Qed.

Lemma nth_canon l i : Forall canon l -> canon (nth i l 0).
Proof.
  intros H. destruct (Nat.lt_ge_cases i (length l)).
  - rewrite Forall_forall in H. apply H, list_elem_of_In. by apply nth_In.
  - by rewrite nth_overflow.
Qed.

Lemma nth_replicate {A} n i (x d : A) : (i < n)%nat -> nth i (replicate n x) d = x.
Proof. revert i. induction n as [|n IH]; intros [|i] Hi; try lia; [done|]. apply IH. lia. Qed.

Lemma receives_range k l m : receives k (slice_range_check_u8 l m) = [].
Proof. induction l as [|a|a b l IH] using list_pair_ind; [done..|]. exact IH. Qed.

Lemma receives_range16 k l m : receives k (slice_range_check_u16 l m) = [].
Proof. induction l as [|a l IH]; [done|]. exact IH. Qed.

Lemma nth_u8 l i : Forall is_u8 l -> is_u8 (nth i l 0).
Proof.
  intros H. destruct (Nat.lt_ge_cases i (length l)).
  - rewrite Forall_forall in H. apply H, list_elem_of_In. by apply nth_In.
  - rewrite nth_overflow by done. by apply is_u8_iff.
Qed.

Lemma shiftr7 x : is_u8 x -> Z.shiftr x 7 = x / 128 /\ Z.land (Z.shiftr x 7) 1 = x / 128.
Proof.
  rewrite is_u8_iff. intros Hx. rewrite Z.shiftr_div_pow2 by lia. change (2 ^ 7) with 128. split; [done|].
  change 1 with (Z.ones 1). rewrite Z.land_ones by lia. apply Z.mod_small. change (2 ^ 1) with 2.
  Z.div_mod_to_equations. lia.
Qed.

Lemma bool_eqF x : from_bool x ≡F 0 \/ from_bool x ≡F 1.
Proof. destruct x; [right|left]; reflexivity. Qed.

Lemma all_hold_range l m : all_hold (slice_range_check_u8 l m).
Proof. induction l as [|a|a b l IH] using list_pair_ind; [done..|]. by split. Qed.

Lemma all_hold_range16 l m : all_hold (slice_range_check_u16 l m).
Proof. induction l as [|a l IH]; [done|]. by split. Qed.

Lemma nth_in_u16 l i : Forall (in_u 16) l -> 0 <= nth i l 0 < 65536.
Proof.
  intros H. destruct (Nat.lt_ge_cases i (length l)).
  - rewrite Forall_forall in H. apply (H (nth i l 0)), list_elem_of_In. by apply nth_In.
  - rewrite nth_overflow by done. lia.
Qed.

Lemma map_id_Forall {A} (f : A -> A) l : Forall (fun x => f x = x) l -> map f l = l.
Proof. induction 1 as [|x l Hx _ IH]; [done|]. cbn. by rewrite Hx, IH. Qed.
