(* ===== verification/MemoryAir.v ===== *)
(** * Memory accesses of the chips (crates/core/machine/src/air/memory.rs,
    memory/consistency)

    An access row holds the value of a word after the access, the time of the
    previous access and the difference of the times in limbs.  [eval] checks that
    the previous access is earlier, sends the word as it was then and receives it
    as it is now. *)

From Stdlib Require Import ZArith Lia Bool.
From stdpp Require Import base list.
From S2P Require Import Prelude Isa Events ByteLookup AirBuilder ByteTable.

Local Open Scope Z_scope.
Local Open Scope rv_scope.

(** ** Columns *)

Record MemoryAccessCols : Type := mkMemoryAccessCols {
  ac_value : Word;
  prev_shard : Z;
  prev_clk : Z;
  compare_clk : Z;
  diff_16bit_limb : Z;
  diff_8bit_limb : Z
}.

Record MemoryReadCols : Type := mkMemoryReadCols { mr_access : MemoryAccessCols }.
Record MemoryWriteCols : Type := mkMemoryWriteCols { mw_prev_value : Word; mw_access : MemoryAccessCols }.
Record MemoryReadWriteCols : Type := mkMemoryReadWriteCols { mrw_prev_value : Word; mrw_access : MemoryAccessCols }.

Class MemoryCols (C : Type) : Type := {
  access : C -> MemoryAccessCols;
  prev_value : C -> Word;
  value : C -> Word
}.

#[export] Instance read_cols : MemoryCols MemoryReadCols := {
  access := mr_access; prev_value c := ac_value (mr_access c); value c := ac_value (mr_access c) }.
#[export] Instance write_cols : MemoryCols MemoryWriteCols := {
  access := mw_access; prev_value := mw_prev_value; value c := ac_value (mw_access c) }.
#[export] Instance read_write_cols : MemoryCols MemoryReadWriteCols := {
  access := mrw_access; prev_value := mrw_prev_value; value c := ac_value (mrw_access c) }.

Definition access_zero : MemoryAccessCols := mkMemoryAccessCols word_zero 0 0 0 0 0.
Definition read_zero : MemoryReadCols := mkMemoryReadCols access_zero.
Definition read_write_zero : MemoryReadWriteCols := mkMemoryReadWriteCols word_zero access_zero.

(** ** Filling the columns *)

Section Populate.
  Context {R : Type} `{ByteRecord R}.

(** Subtraction wraps, as in a release build. *)
Definition populate_access (current_record prev_record : MemoryRecord) (output : R) : MemoryAccessCols * R :=
  let use_clk_comparison := rec_shard prev_record =? rec_shard current_record in
  let prev_time_value := if use_clk_comparison then rec_timestamp prev_record else rec_shard prev_record in
  let current_time_value := if use_clk_comparison then rec_timestamp current_record else rec_shard current_record in
  let diff_minus_one := u32 (u32 (current_time_value - prev_time_value) - 1) in
  let diff_16bit_limb := u16 (Z.land diff_minus_one 0xffff) in
  let diff_8bit_limb := Z.land (Z.shiftr diff_minus_one 16) 0xff in
  (mkMemoryAccessCols (word_from (rec_value current_record)) (Fred (rec_shard prev_record)) (Fred (rec_timestamp prev_record))
     (from_bool use_clk_comparison) diff_16bit_limb diff_8bit_limb,
   add_u8_range_check 0 (u8 diff_8bit_limb) (add_u16_range_check diff_16bit_limb output)).

Definition populate_mem_read (record : MemoryReadRecord) (output : R) : MemoryReadCols * R :=
  let '(acc, output) := populate_access (current_record (MRead record)) (previous_record (MRead record)) output in
  (mkMemoryReadCols acc, output).

Definition populate_mem_write (record : MemoryWriteRecord) (output : R) : MemoryWriteCols * R :=
  let '(acc, output) := populate_access (current_record (MWrite record)) (previous_record (MWrite record)) output in
  (mkMemoryWriteCols (word_from (wr_prev_value record)) acc, output).

(** [populate_read] and [populate_write]. *)
Definition populate_read_write (record : MemoryRecordEnum) (output : R) : MemoryReadWriteCols * R :=
  let '(acc, output) := populate_access (current_record record) (previous_record record) output in
  (mkMemoryReadWriteCols (word_from (rec_value (previous_record record))) acc, output).
End Populate.

(** ** Constraints *)

Definition eval_range_check_24bits (value limb_16 limb_8 do_check : Z) : list Call :=
  when do_check [AssertEq value (limb_16 + limb_8 * 2 ^ 16)] ++
  send_byte (ByteOpcode.as_u8 ByteOpcode.U16Range) limb_16 0 0 do_check ++
  send_byte (ByteOpcode.as_u8 ByteOpcode.U8Range) 0 0 limb_8 do_check.

Definition eval_memory_access_timestamp (mem_access : MemoryAccessCols) (do_check shard clk : Z) : list Call :=
  let prev_comp_value := if_else (compare_clk mem_access) (prev_clk mem_access) (prev_shard mem_access) in
  let current_comp_val := if_else (compare_clk mem_access) clk shard in
  when do_check [AssertBool (compare_clk mem_access)] ++
  when do_check (when (compare_clk mem_access) [AssertEq shard (prev_shard mem_access)]) ++
  eval_range_check_24bits (current_comp_val - prev_comp_value - 1) (diff_16bit_limb mem_access) (diff_8bit_limb mem_access) do_check.

(** The word at an address at a time. *)
Definition memory_values (shard clk addr : Z) (w : Word) : list Z := [shard; clk; addr] ++ limbs w.

Definition eval_memory_access {C} `{MemoryCols C} (shard clk addr : Z) (memory_access : C) (do_check : Z) : list Call :=
  let mem_access := access memory_access in
  [AssertBool do_check] ++
  eval_memory_access_timestamp mem_access do_check shard clk ++
  [Send (mkAirInteraction (memory_values (prev_shard mem_access) (prev_clk mem_access) addr (prev_value memory_access)) do_check KMemory) Local;
   Receive (mkAirInteraction (memory_values shard clk addr (value memory_access)) do_check KMemory) Local].

Definition eval_memory_access_slice {C} `{MemoryCols C} (shard clk initial_addr : Z) (memory_access_slice : list C)
    (verify_memory_access : Z) : list Call :=
  concat (imap (fun i access_slice =>
    eval_memory_access shard clk (initial_addr + Z.of_nat (i * 4)) access_slice verify_memory_access) memory_access_slice).

Definition access_wf (a : MemoryAccessCols) : Prop :=
  word_canon (ac_value a) /\ canon (prev_shard a) /\ canon (prev_clk a) /\ canon (compare_clk a) /\
  canon (diff_16bit_limb a) /\ canon (diff_8bit_limb a).
Definition read_write_wf (c : MemoryReadWriteCols) : Prop := word_canon (mrw_prev_value c) /\ access_wf (mrw_access c).
Definition read_wf (c : MemoryReadCols) : Prop := access_wf (mr_access c).

(** ** Order *)

(** Times are ordered by shard, then clock. *)
Definition before (t t' : Z * Z) : Prop := t.1 < t'.1 \/ t.1 = t'.1 /\ t.2 < t'.2.

Lemma before_trans t t' t'' : before t t' -> before t' t'' -> before t t''.
Proof. unfold before. lia. Qed.

Lemma before_irrefl t : ~ before t t.
Proof. unfold before. lia. Qed.

(** Times the clocks of the chips can show. *)
Definition time_ok (t : Z * Z) : Prop := 0 <= t.1 < 2 ^ 25 /\ 0 <= t.2 < 2 ^ 25.

Lemma range_check_24_sound value limb_16 limb_8 do_check : canon limb_16 -> canon limb_8 -> ~ do_check ≡F 0 ->
  row_ok (eval_range_check_24bits value limb_16 limb_8 do_check) ->
  exists d, value ≡F d /\ d = limb_16 + limb_8 * 2 ^ 16 /\ 0 <= limb_16 < 2 ^ 16 /\ 0 <= limb_8 < 2 ^ 8 /\ 0 <= d < 2 ^ 24.
Proof.
  intros C1 C2 Hd (Hh & Hb). unfold eval_range_check_24bits in *. rewrite !all_hold_app, all_hold_when in Hh.
  destruct Hh as (Hh & _). destruct (Hh Hd) as [Ev _]. rewrite !bytes_found_app in Hb. destruct Hb as (_ & H16 & H8).
  destruct H16 as [H16 _]. destruct H8 as [H8 _]. cbn [call_found kind multiplicity values] in H16, H8.
  pose proof (u16range_found limb_16 C1 (H16 Hd)) as R16. assert (canon 0) as C0 by done.
  pose proof (u8range_found 0 limb_8 C0 C2 (H8 Hd)) as [_ R8]. rewrite is_u8_iff in R8. unfold in_u in R16.
  exists (limb_16 + limb_8 * 2 ^ 16). split_and!; [exact Ev|done|lia..].
Qed.

Section Sound.
  Context {C : Type} `{MemoryCols C} (shard clk addr do_check : Z) (cols : C).
  Abbreviation acc := (access cols).
  Context (Hwf : access_wf acc) (Hd : ~ do_check ≡F 0).

(** A checked access comes after the previous one, if both show valid times. *)
Lemma access_sound : row_ok (eval_memory_access shard clk addr cols do_check) ->
  time_ok (shard, clk) -> time_ok (prev_shard acc, prev_clk acc) ->
  before (prev_shard acc, prev_clk acc) (shard, clk).
Proof using Hwf Hd.
  intros Hok [Hs Hc] [Hps Hpc]. cbn [fst snd] in *. destruct Hwf as (_ & C1 & C2 & Cc & C16 & C8).
  unfold eval_memory_access, eval_memory_access_timestamp in Hok. rewrite !row_ok_app in Hok.
  destruct Hok as (_ & (H1 & H2 & H3) & _). destruct H1 as [H1 _], H2 as [H2 _]. rewrite all_hold_when in H1. rewrite !all_hold_when in H2.
  destruct (H1 Hd) as [B _]. cbn [holds] in B. apply bool_canon in B; [|done]. specialize (H2 Hd).
  destruct (range_check_24_sound _ _ _ _ C16 C8 Hd H3) as (d & Ed & _ & _ & _ & Hr). unfold before. cbn [fst snd].
  unfold if_else in Ed. destruct B as [E|E]; rewrite E in *.
  - left. assert (shard - prev_shard acc - 1 = d); [|lia]. apply eqF_small; [|unfold BABYBEAR; lia].
    rewrite <- Ed. apply eqF_diff. exists 0. ring.
  - right. destruct (H2 ltac:(done)) as [Es _]. cbn [holds] in Es. apply eqF_small in Es; [|unfold BABYBEAR; lia]. split; [done|].
    assert (clk - prev_clk acc - 1 = d); [|lia]. apply eqF_small; [|unfold BABYBEAR; lia].
    rewrite <- Ed. apply eqF_diff. exists 0. ring.
Qed.

Lemma access_sends : sends KMemory (eval_memory_access shard clk addr cols do_check) =
  [mkAirInteraction (memory_values (prev_shard acc) (prev_clk acc) addr (prev_value cols)) do_check KMemory].
Proof using. clear. done. Qed.
Lemma access_receives : receives KMemory (eval_memory_access shard clk addr cols do_check) =
  [mkAirInteraction (memory_values shard clk addr (value cols)) do_check KMemory].
Proof using. clear. done. Qed.

Lemma access_bool : all_hold (eval_memory_access shard clk addr cols do_check) -> do_check ≡F 0 \/ do_check ≡F 1.
Proof using. clear. intros [Hb _]. exact Hb. Qed.
End Sound.

(** ** Accesses of the executor *)

(** The lookups of an access. *)
Definition access_lookups (a : MemoryAccessCols) : list ByteLookupEvent :=
  [mkByteLookupEvent ByteOpcode.U16Range (diff_16bit_limb a) 0 0 0; mkByteLookupEvent ByteOpcode.U8Range 0 0 0 (diff_8bit_limb a)].

Definition record_times_ok (m : MemoryRecord) : Prop := 0 <= rec_shard m < 2 ^ 24 /\ 0 <= rec_timestamp m < 2 ^ 24.

Section Complete.
  Context {R} `{ByteRecord R} (cur prev : MemoryRecord) (output : R).
  Context (Hc : record_times_ok cur) (Hp : record_times_ok prev).
  Context (Hord : access_after (rec_shard cur) (rec_timestamp cur) (rec_shard prev) (rec_timestamp prev) = true).

Lemma populate_access_limbs :
  let '(a, output') := populate_access cur prev output in
  exists d, 0 <= d < 2 ^ 24 /\ diff_16bit_limb a + diff_8bit_limb a * 2 ^ 16 = d /\
    0 <= diff_16bit_limb a < 2 ^ 16 /\ 0 <= diff_8bit_limb a < 2 ^ 8 /\
    d = (if rec_shard prev =? rec_shard cur then rec_timestamp cur - rec_timestamp prev else rec_shard cur - rec_shard prev) - 1 /\
    output' = add_byte_lookup_events (access_lookups a) output.
Proof using Hc Hp Hord.
  destruct Hc as [Hs Ht], Hp as [Hps Hpt]. unfold access_after in Hord. unfold populate_access.
  cbn [diff_16bit_limb diff_8bit_limb access_lookups].
  set (b := rec_shard prev =? rec_shard cur) in *.
  assert (exists d, 0 <= d < 2 ^ 24 /\ d = (if b then rec_timestamp cur - rec_timestamp prev else rec_shard cur - rec_shard prev) - 1) as (d & Hd & Ed).
  { eexists. split; [|reflexivity]. subst b. destruct (Z.eqb_spec (rec_shard prev) (rec_shard cur)) as [E|E].
    - rewrite E, Z.ltb_irrefl, Z.eqb_refl in Hord. cbn in Hord. apply Z.ltb_lt in Hord. lia.
    - destruct (Z.ltb_spec (rec_shard prev) (rec_shard cur)); [lia|]. destruct (Z.eqb_spec (rec_shard cur) (rec_shard prev)); [lia|done]. }
  assert (u32 (u32 ((if b then rec_timestamp cur else rec_shard cur) - (if b then rec_timestamp prev else rec_shard prev)) - 1) = d) as ->.
  { rewrite (u32_small ((if b then _ else _) - _)) by (apply is_u32_iff; destruct b; lia). rewrite u32_small by (apply is_u32_iff; destruct b; lia).
    destruct b; lia. }
  assert (Z.land d 0xffff = d mod 2 ^ 16) as -> by (change 0xffff with (Z.ones 16); apply Z.land_ones; lia).
  assert (Z.land (Z.shiftr d 16) 0xff = d / 2 ^ 16) as ->.
  { change 0xff with (Z.ones 8). rewrite Z.land_ones, Z.shiftr_div_pow2 by lia. apply Z.mod_small. Z.div_mod_to_equations. lia. }
  assert (u16 (d mod 2 ^ 16) = d mod 2 ^ 16) as -> by (apply Z.mod_mod; lia).
  assert (0 <= d mod 2 ^ 16 < 2 ^ 16) by (apply Z.mod_pos_bound; lia). assert (0 <= d / 2 ^ 16 < 2 ^ 8) by (Z.div_mod_to_equations; lia).
  rewrite (u8_small (d / 2 ^ 16)) by (apply is_u8_iff; lia).
  exists d. split_and!; try done; try lia. pose proof (Z.div_mod d (2 ^ 16)). lia.
Qed.

Lemma populate_access_wf : access_wf (populate_access cur prev output).1.
Proof using Hc Hp Hord.
  pose proof populate_access_limbs as Hl. destruct (populate_access cur prev output) as [a o] eqn:E. cbn [fst].
  destruct Hl as (d & _ & _ & H16 & H8 & _). unfold populate_access in E. injection E as <- _. cbn [diff_16bit_limb diff_8bit_limb] in *.
  split_and!; cbn [ac_value prev_shard prev_clk compare_clk diff_16bit_limb diff_8bit_limb]; auto with rvbound;
    unfold canon, BABYBEAR; lia.
Qed.

Lemma access_lookups_found : Forall event_found (access_lookups (populate_access cur prev output).1).
Proof using Hc Hp Hord.
  pose proof populate_access_limbs as Hl. destruct (populate_access cur prev output) as [a o]. cbn [fst].
  destruct Hl as (d & _ & _ & H16 & H8 & _). repeat apply Forall_cons_2; [| |apply Forall_nil_2].
  - apply (event_found_intro _ (diff_16bit_limb a / 2 ^ 8) (diff_16bit_limb a mod 2 ^ 8)).
    + apply is_u8_iff. Z.div_mod_to_equations. lia.
    + apply is_u8_iff. Z.div_mod_to_equations. lia.
    + unfold ByteChip.row. destruct (ByteChip.shr_carry _ _). cbn [event_values bl_opcode bl_a1 bl_a2 bl_b bl_c].
      unfold ByteChip.received. cbn. rewrite Z.shiftl_mul_pow2 by lia. pose proof (Z.div_mod (diff_16bit_limb a) (2 ^ 8)).
      replace (diff_16bit_limb a / 2 ^ 8 * 2 ^ 8 + diff_16bit_limb a mod 2 ^ 8) with (diff_16bit_limb a) by lia. done.
  - apply (event_found_intro _ 0 (diff_8bit_limb a)); [apply is_u8_iff; lia..|].
    unfold ByteChip.row. by destruct (ByteChip.shr_carry _ _).
Qed.

(** The filled columns pass, and the lookups they send are the recorded ones. *)
Lemma access_complete {C} `{MemoryCols C} (cols : C) addr do_check : access cols = (populate_access cur prev output).1 ->
  do_check = 0 \/ do_check = 1 ->
  all_hold (eval_memory_access (rec_shard cur) (rec_timestamp cur) addr cols do_check) /\
  byte_messages (eval_memory_access (rec_shard cur) (rec_timestamp cur) addr cols do_check) =
    (if decide (do_check ≡F 0) then [] else map event_values (access_lookups (access cols))).
Proof using Hc Hp Hord.
  intros Ea Hd. pose proof populate_access_limbs as Hl. unfold eval_memory_access. rewrite Ea.
  destruct (populate_access cur prev output) as [a o] eqn:E. cbn [fst].
  destruct Hl as (d & Hd24 & Ed & H16 & H8 & Ed' & _). destruct Hc as [Hs Ht], Hp as [Hps Hpt].
  assert (prev_shard a ≡F rec_shard prev /\ prev_clk a ≡F rec_timestamp prev /\ compare_clk a = from_bool (rec_shard prev =? rec_shard cur)) as (E1 & E2 & E3).
  { unfold populate_access in E. injection E as <- _. cbn [prev_shard prev_clk compare_clk]. by rewrite !Fred_eqF. }
  split.
  - rewrite !all_hold_app. unfold eval_memory_access_timestamp, eval_range_check_24bits. rewrite !all_hold_app, !all_hold_when.
    split_and!; try done; try (intros _).
    + split; [|done]. cbn [holds]. destruct Hd as [-> | ->]; [by left|by right].
    + split; [|done]. cbn [holds]. rewrite E3. apply bool_eqF.
    + intros Hz. split; [|done]. cbn [holds]. rewrite E1. rewrite E3 in Hz. destruct (Z.eqb_spec (rec_shard prev) (rec_shard cur)) as [->|]; done.
    + split; [|done]. cbn [holds]. rewrite Ed, Ed'. unfold if_else. rewrite E3, E1, E2. apply eqF_diff. exists 0.
      destruct (rec_shard prev =? rec_shard cur); cbn [from_bool]; ring.
  - rewrite !byte_messages_app. unfold eval_memory_access_timestamp, eval_range_check_24bits. rewrite !byte_messages_app.
    unfold send_byte. rewrite !byte_messages_send. rewrite byte_messages_when by (by repeat constructor).
    destruct (decide (do_check ≡F 0)); done.
Qed.
End Complete.
