(* ===== verification/Operations.v ===== *)
(** * Gadgets of the chips (crates/core/machine/src/operations)

    Words below the order of the field, addition, zero tests, comparisons and bit
    decompositions.  A gadget is a set of columns with [populate], which fills
    them, and [eval], which constrains them. *)

From Stdlib Require Import ZArith Lia Bool.
From stdpp Require Import base list.
From S2P Require Import Prelude Isa Events ByteLookup Alu AirBuilder ByteTable.

Local Open Scope Z_scope.
Local Open Scope rv_scope.

(** * Words below the order of the field (crates/core/machine/src/operations/baby_bear_word.rs)

    Program counters and addresses are words in some tables and field elements
    in others.  The two agree when the word is below the order of the field,
    which the most significant byte decides. *)

Module BabyBearWordRangeChecker.
Record BabyBearWordRangeChecker : Type := mkBabyBearWordRangeChecker { most_sig_byte_lt_120 : Z }.

Definition default : BabyBearWordRangeChecker := mkBabyBearWordRangeChecker 0.

Definition lookup (value : Word) : ByteLookupEvent :=
  let ms_byte_u8 := u8 (Fred value.[3]) in
  mkByteLookupEvent ByteOpcode.LTU (if ms_byte_u8 <? 120 then 1 else 0) 0 ms_byte_u8 120.

Definition populate {R} `{ByteRecord R} (value : Word) (record : R) : BabyBearWordRangeChecker * R :=
  let ms_byte_u8 := u8 (Fred value.[3]) in
  (mkBabyBearWordRangeChecker (from_bool (ms_byte_u8 <? 120)), add_byte_lookup_event (lookup value) record).

Definition range_check (value : Word) (cols : BabyBearWordRangeChecker) (is_real : Z) : list Call :=
  let ms_byte := value.[3] in
  send_byte (ByteOpcode.as_u8 ByteOpcode.LTU) (most_sig_byte_lt_120 cols) ms_byte 120 is_real ++
  when is_real (when_not (most_sig_byte_lt_120 cols) [AssertEq ms_byte 120]) ++
  when is_real (when_not (most_sig_byte_lt_120 cols)
    [AssertZero value.[0]; AssertZero value.[1]; AssertZero value.[2]]).

Definition wf (cols : BabyBearWordRangeChecker) : Prop := canon (most_sig_byte_lt_120 cols).
End BabyBearWordRangeChecker.

Lemma reduce_bytes w : word_bytes w -> reduce w = to_u32 w.
Proof. intros _. unfold reduce, to_u32, from_le_bytes32. lia. Qed.

(** ** Soundness *)

Lemma range_check_sound w cols is_real : word_canon w -> BabyBearWordRangeChecker.wf cols -> ~ is_real ≡F 0 ->
  row_ok (BabyBearWordRangeChecker.range_check w cols is_real) ->
  is_u8 w.[3] /\ (word_bytes w -> canon (to_u32 w)).
Proof.
  intros (C0 & C1 & C2 & C3) Cc Hr (Hh & Hb). unfold BabyBearWordRangeChecker.range_check, when_not, when_ne in Hh, Hb.
  rewrite !all_hold_app, !all_hold_when in Hh. destruct Hh as (_ & H1 & H2). specialize (H1 Hr). specialize (H2 Hr).
  rewrite !bytes_found_app in Hb. destruct Hb as ((Hb & _) & _). cbn [call_found kind multiplicity values] in Hb. specialize (Hb Hr).
  assert (canon 120) as C120 by done. cbn [widx] in *.
  destruct (ltu_found _ _ _ Cc C3 C120 Hb) as (U3 & _ & El). split; [exact U3|].
  intros (U0 & U1 & U2 & _). rewrite is_u8_iff in *. unfold canon, to_u32, from_le_bytes32.
  destruct (Z.ltb_spec (w3 w) 120) as [Hlt|Hge]; rewrite El in *; cbn [from_bool] in *; [unfold BABYBEAR; lia|].
  destruct (H1 ltac:(done)) as [E3 _]. destruct (H2 ltac:(done)) as (E0 & E1 & E2 & _). cbn [holds] in *.
  apply eqF_canon in E0, E1, E2, E3; try done. rewrite E0, E1, E2, E3. done.
Qed.

(** A field element determines the word that passes. *)
Lemma reduce_inj w w' : word_bytes w -> word_bytes w' -> canon (to_u32 w) -> canon (to_u32 w') ->
  reduce w ≡F reduce w' -> w = w'.
Proof.
  intros H H' C C' E. rewrite !reduce_bytes in E by done. apply eqF_canon in E; [|done..]. by apply to_u32_inj.
Qed.

(** ** Completeness *)

Lemma range_check_complete {R} `{ByteRecord R} x is_real (record : R) : is_u32 x -> canon x ->
  let '(cols, record') := BabyBearWordRangeChecker.populate (word_from x) record in
  BabyBearWordRangeChecker.wf cols /\ record' = add_byte_lookup_events [BabyBearWordRangeChecker.lookup (word_from x)] record /\
  event_found (BabyBearWordRangeChecker.lookup (word_from x)) /\
  all_hold (BabyBearWordRangeChecker.range_check (word_from x) cols is_real) /\
  byte_messages (BabyBearWordRangeChecker.range_check (word_from x) cols is_real) =
    (if decide (is_real ≡F 0) then [] else map event_values [BabyBearWordRangeChecker.lookup (word_from x)]).
Proof.
  intros Hx Cx. pose proof (word_from_bytes x) as (U0 & U1 & U2 & U3). pose proof (to_u32_word_from x Hx) as Ex.
  unfold BabyBearWordRangeChecker.populate, BabyBearWordRangeChecker.lookup, BabyBearWordRangeChecker.range_check.
  set (w := word_from x) in *. clearbody w. cbn [widx].
  assert (u8 (Fred (w3 w)) = w3 w) as ->.
  { unfold Fred. rewrite Z.mod_small by (by apply u8_canon). by apply u8_small. }
  assert ((if w3 w <? 120 then 1 else 0) = from_bool (w3 w <? 120)) as -> by done.
  split_and!; [apply from_bool_canon|done| | |].
  - apply (event_found_intro _ (w3 w) 120); [done|by apply is_u8_iff|]. unfold ByteChip.row. by destruct (ByteChip.shr_carry _ _).
  - rewrite !all_hold_app. unfold when_not, when_ne. rewrite !all_hold_when. cbn [BabyBearWordRangeChecker.most_sig_byte_lt_120].
    unfold canon, to_u32, from_le_bytes32 in *. rewrite !is_u8_iff in *.
    destruct (Z.ltb_spec (w3 w) 120) as [Hlt|Hge]; cbn [from_bool].
    + split_and!; [done|..]; intros _ Hz; exfalso; apply Hz; done.
    + unfold BABYBEAR in Cx. assert (w3 w = 120 /\ w0 w = 0 /\ w1 w = 0 /\ w2 w = 0) as (E3 & E0 & E1 & E2) by lia.
      split_and!; [done|intros _ _; split; [|done]; cbn [holds]; by rewrite E3|].
      intros _ _. cbn [all_hold holds]. by rewrite E0, E1, E2.
  - unfold send_byte. rewrite !byte_messages_app, byte_messages_send. unfold when_not, when_ne, when. cbn.
    by destruct (decide (is_real ≡F 0)).
Qed.

(** * Addition gadgets (crates/core/machine/src/operations/add.rs)

    A gadget is a set of columns with [populate], which fills them, and [eval],
    which constrains them.  For each: columns that pass [eval] hold the sum of
    their operands modulo 2^32, and the columns [populate] fills pass. *)

Module AddOperation.
Record AddOperation : Type := mkAddOperation { value : Word; carry : list Z }.

Definition default : AddOperation := mkAddOperation word_zero [0; 0; 0].

(** The columns keep their carry where it is 0. *)
Definition populate {R} `{ByteRecord R} (self : AddOperation) (record : R) (a_u32 b_u32 : Z)
    : AddOperation * R * Z :=
  let expected := a_u32 +u b_u32 in
  let a := word_from a_u32 in
  let b := word_from b_u32 in
  let carry0 := if 255 <? a.[0] + b.[0] then 1 else 0 in
  let carry1 := if 255 <? a.[1] + b.[1] + carry0 then 1 else 0 in
  let carry2 := if 255 <? a.[2] + b.[2] + carry1 then 1 else 0 in
  let set c i := if c =? 1 then 1 else nth i (carry self) 0 in
  let record := add_u8_range_checks (limbs a) record in
  let record := add_u8_range_checks (limbs b) record in
  let record := add_u8_range_checks (limbs (word_from expected)) record in
  (mkAddOperation (word_from expected) [set carry0 0%nat; set carry1 1%nat; set carry2 2%nat],
   record, expected).

Definition eval (a b : Word) (cols : AddOperation) (is_real : Z) : list Call :=
  let base := 256 in
  let carry i := nth i (carry cols) 0 in
  let overflow_0 := a.[0] + b.[0] - (value cols).[0] in
  let overflow_1 := a.[1] + b.[1] - (value cols).[1] + carry 0%nat in
  let overflow_2 := a.[2] + b.[2] - (value cols).[2] + carry 1%nat in
  let overflow_3 := a.[3] + b.[3] - (value cols).[3] + carry 2%nat in
  when is_real [
    AssertZero (overflow_0 * (overflow_0 - base));
    AssertZero (overflow_1 * (overflow_1 - base));
    AssertZero (overflow_2 * (overflow_2 - base));
    AssertZero (overflow_3 * (overflow_3 - base));
    AssertZero (carry 0%nat * (overflow_0 - base));
    AssertZero (carry 1%nat * (overflow_1 - base));
    AssertZero (carry 2%nat * (overflow_2 - base));
    AssertZero ((carry 0%nat - 1) * overflow_0);
    AssertZero ((carry 1%nat - 1) * overflow_1);
    AssertZero ((carry 2%nat - 1) * overflow_2);
    AssertBool (carry 0%nat);
    AssertBool (carry 1%nat);
    AssertBool (carry 2%nat);
    AssertBool is_real] ++
  slice_range_check_u8 (limbs a) is_real ++
  slice_range_check_u8 (limbs b) is_real ++
  slice_range_check_u8 (limbs (value cols)) is_real.

Definition wf (cols : AddOperation) : Prop :=
  word_canon (value cols) /\ length (carry cols) = 3%nat /\ Forall canon (carry cols).
End AddOperation.

Lemma add_operation_sound a b cols is_real :
  word_canon a -> word_canon b -> AddOperation.wf cols -> ~ is_real ≡F 0 ->
  row_ok (AddOperation.eval a b cols is_real) ->
  word_bytes a /\ word_bytes b /\ word_bytes (AddOperation.value cols) /\
  to_u32 (AddOperation.value cols) = to_u32 a +u to_u32 b.
Proof.
  intros Ha Hb (Hv & Hl & Hc) Hr [Hh Hf]. unfold AddOperation.eval in *.
  rewrite !bytes_found_app in Hf. destruct Hf as (_ & Fa & Fb & Fv).
  apply word_range_checked in Fa, Fb, Fv; [|done..]. split_and!; [done..|].
  apply all_hold_app in Hh as [Hh _]. apply (proj1 (all_hold_when _ _)) in Hh; [|done].
  destruct cols as [[v0 v1 v2 v3] cs]. cbn [AddOperation.value AddOperation.carry] in *.
  destruct cs as [|c0 [|c1 [|c2 [|]]]]; try discriminate Hl.
  rewrite !Forall_cons in Hc. destruct Hc as (C0 & C1 & C2 & _).
  destruct a as [a0 a1 a2 a3], b as [b0 b1 b2 b3].
  cbn [all_hold holds nth widx w0 w1 w2 w3] in Hh. destruct_and? Hh.
  unfold word_bytes in Fa, Fb, Fv. cbn in Fa, Fb, Fv. destruct_and? Fa. destruct_and? Fb. destruct_and? Fv.
  rewrite !is_u8_iff in *.
  bool_cases.
  repeat match goal with H : _ * (_ - 256) ≡F 0 |- _ => apply zero_or_base in H; [|lia] end.
  destruct B as [->| ->], B0 as [->| ->], B1 as [->| ->]; small_eqs;
    unfold to_u32, from_le_bytes32, wadd; cbn [w0 w1 w2 w3]; rewrite u32_mod;
    Z.div_mod_to_equations; lia.
Qed.

(** The carries of [populate], and the sum digit by digit. *)
Lemma add_digits a b (c0 c1 c2 : Z) :
  word_bytes a -> word_bytes b ->
  c0 = (if 255 <? a.[0] + b.[0] then 1 else 0) ->
  c1 = (if 255 <? a.[1] + b.[1] + c0 then 1 else 0) ->
  c2 = (if 255 <? a.[2] + b.[2] + c1 then 1 else 0) ->
  exists c3, (c0 = 0 \/ c0 = 1) /\ (c1 = 0 \/ c1 = 1) /\ (c2 = 0 \/ c2 = 1) /\ (c3 = 0 \/ c3 = 1) /\
  word_from (to_u32 a +u to_u32 b) =
    mkWord (a.[0] + b.[0] - 256 * c0) (a.[1] + b.[1] + c0 - 256 * c1)
           (a.[2] + b.[2] + c1 - 256 * c2) (a.[3] + b.[3] + c2 - 256 * c3).
Proof.
  destruct a as [a0 a1 a2 a3], b as [b0 b1 b2 b3]. unfold word_bytes. cbn [widx w0 w1 w2 w3].
  rewrite !is_u8_iff. intros Ha Hb -> -> ->.
  set (c0 := if 255 <? a0 + b0 then 1 else 0).
  set (c1 := if 255 <? a1 + b1 + c0 then 1 else 0).
  set (c2 := if 255 <? a2 + b2 + c1 then 1 else 0).
  set (c3 := if 255 <? a3 + b3 + c2 then 1 else 0).
  assert (c0 = 0 /\ a0 + b0 <= 255 \/ c0 = 1 /\ 255 < a0 + b0) as H0 by (unfold c0; destruct (Z.ltb_spec 255 (a0 + b0)); lia).
  assert (c1 = 0 /\ a1 + b1 + c0 <= 255 \/ c1 = 1 /\ 255 < a1 + b1 + c0) as H1 by (unfold c1; destruct (Z.ltb_spec 255 (a1 + b1 + c0)); lia).
  assert (c2 = 0 /\ a2 + b2 + c1 <= 255 \/ c2 = 1 /\ 255 < a2 + b2 + c1) as H2 by (unfold c2; destruct (Z.ltb_spec 255 (a2 + b2 + c1)); lia).
  assert (c3 = 0 /\ a3 + b3 + c2 <= 255 \/ c3 = 1 /\ 255 < a3 + b3 + c2) as H3 by (unfold c3; destruct (Z.ltb_spec 255 (a3 + b3 + c2)); lia).
  clearbody c0 c1 c2 c3. exists c3. split_and!; [lia..|].
  match goal with |- _ = ?v => rewrite <- (word_from_to_u32 v) end.
  2:{ unfold word_bytes. cbn [w0 w1 w2 w3]. rewrite !is_u8_iff. lia. }
  f_equal. unfold to_u32, from_le_bytes32, wadd. cbn [w0 w1 w2 w3]. rewrite u32_mod.
  Z.div_mod_to_equations. lia.
Qed.

(** The events of [populate]. *)
Definition add_events_of (a b : Z) : list ByteLookupEvent :=
  u8_pairs (limbs (word_from a)) ++ u8_pairs (limbs (word_from b)) ++ u8_pairs (limbs (word_from (a +u b))).

Lemma add_operation_complete {R} `{ByteRecord R} (r : R) a b is_real :
  is_u32 a -> is_u32 b -> is_real = 0 \/ is_real = 1 ->
  let '(cols, r', v) := AddOperation.populate AddOperation.default r a b in
  AddOperation.wf cols /\ v = a +u b /\ AddOperation.value cols = word_from v /\
  r' = add_byte_lookup_events (add_events_of a b) r /\
  all_hold (AddOperation.eval (word_from a) (word_from b) cols is_real) /\
  byte_messages (AddOperation.eval (word_from a) (word_from b) cols is_real) =
    if decide (is_real = 0) then [] else map event_values (add_events_of a b).
Proof.
  intros Ha Hb Hr. unfold AddOperation.populate.
  set (c0 := if 255 <? (word_from a).[0] + _ then 1 else 0).
  set (c1 := if 255 <? (word_from a).[1] + _ + c0 then 1 else 0).
  set (c2 := if 255 <? (word_from a).[2] + _ + c1 then 1 else 0).
  destruct (add_digits (word_from a) (word_from b) c0 c1 c2 (word_from_bytes a) (word_from_bytes b)
    eq_refl eq_refl eq_refl) as (c3 & B0 & B1 & B2 & B3 & E).
  clearbody c0 c1 c2. rewrite !to_u32_word_from in E by done.
  assert (forall c i, c = 0 \/ c = 1 ->
    (if c =? 1 then 1 else nth i (AddOperation.carry AddOperation.default) 0) = c) as Hset.
  { intros c i [->| ->]; [|done]. by destruct i as [|[|[|[]]]]. }
  rewrite !Hset by done. split_and!; try done.
  - split_and!; try done; cbn [AddOperation.value AddOperation.carry].
    + destruct (word_from_bytes (a +u b)) as (?&?&?&?). repeat split; by apply u8_canon.
    + rewrite !Forall_cons. unfold canon, BABYBEAR. split_and!; [lia..|constructor].
  - unfold AddOperation.eval. rewrite !all_hold_app. split_and!; [|done..].
    apply all_hold_when. intros _. cbn [AddOperation.value AddOperation.carry all_hold holds nth].
    rewrite E. cbn [widx w0 w1 w2 w3].
    destruct B0 as [->| ->], B1 as [->| ->], B2 as [->| ->], B3 as [->| ->], Hr as [->| ->];
      split_and!; try exact I; try (left; reflexivity); try (right; reflexivity); unfold eqF; f_equal; ring.
  - unfold AddOperation.eval. rewrite !byte_messages_app, byte_messages_when by (repeat constructor).
    rewrite !byte_messages_range. unfold add_events_of. rewrite !map_app.
    destruct Hr as [->| ->]; done.
Qed.

(** * Zero tests (crates/core/machine/src/operations/is_zero.rs,
    is_zero_word.rs, is_equal_word.rs)

    A field element is zero exactly when it has no inverse.  [eval] on a live
    row forces the result to be the truth value of the test, and the columns
    [populate] fills pass. *)

Module IsZeroOperation.
Record IsZeroOperation : Type := mkIsZeroOperation { inverse : Z; result : Z }.

(** The columns and the returned flag. *)
Definition populate_from_field_element (a : Z) : IsZeroOperation * Z :=
  ((if bool_decide (a ≡F 0) then mkIsZeroOperation 0 1 else mkIsZeroOperation (Finv a) 0),
   from_bool (bool_decide (a ≡F 0))).

(** [F::from_canonical_u32]. *)
Definition populate (a : Z) : IsZeroOperation * Z := populate_from_field_element (Fred a).

Definition eval (a : Z) (cols : IsZeroOperation) (is_real : Z) : list Call :=
  let is_zero := 1 - inverse cols * a in
  when is_real [AssertEq is_zero (result cols)] ++
  when is_real [AssertBool (result cols)] ++
  when is_real (when (result cols) [AssertZero a]).

Definition wf (cols : IsZeroOperation) : Prop := canon (inverse cols) /\ canon (result cols).
End IsZeroOperation.

Module IsZeroWordOperation.
Record IsZeroWordOperation : Type := mkIsZeroWordOperation {
  is_zero_byte : list IsZeroOperation.IsZeroOperation;
  is_lower_half_zero : Z; is_upper_half_zero : Z; result : Z
}.

Definition zero_byte : IsZeroOperation.IsZeroOperation := IsZeroOperation.mkIsZeroOperation 0 0.
Definition byte (cols : IsZeroWordOperation) (i : nat) : IsZeroOperation.IsZeroOperation :=
  nth i (is_zero_byte cols) zero_byte.

Definition populate_from_field_element (a : Word) : IsZeroWordOperation * Z :=
  let tests := map IsZeroOperation.populate_from_field_element (limbs a) in
  let is_zero := fold_left (fun acc t => acc && (t.2 =? 1)) tests true in
  let bytes := map fst tests in
  let r i := IsZeroOperation.result (nth i bytes zero_byte) in
  (mkIsZeroWordOperation bytes (r 0%nat * r 1%nat) (r 2%nat * r 3%nat) (from_bool is_zero), from_bool is_zero).

Definition populate (a_u32 : Z) : IsZeroWordOperation * Z := populate_from_field_element (word_from a_u32).

Definition eval (a : Word) (cols : IsZeroWordOperation) (is_real : Z) : list Call :=
  flat_map (fun i => IsZeroOperation.eval a.[i] (byte cols i) is_real) (seq 0 WORD_SIZE) ++
  [AssertBool is_real] ++
  when is_real [
    AssertBool (is_lower_half_zero cols);
    AssertBool (is_upper_half_zero cols);
    AssertBool (result cols);
    AssertEq (is_lower_half_zero cols)
      (IsZeroOperation.result (byte cols 0) * IsZeroOperation.result (byte cols 1));
    AssertEq (is_upper_half_zero cols)
      (IsZeroOperation.result (byte cols 2) * IsZeroOperation.result (byte cols 3));
    AssertEq (result cols) (is_lower_half_zero cols * is_upper_half_zero cols)].

Definition wf (cols : IsZeroWordOperation) : Prop :=
  length (is_zero_byte cols) = 4%nat /\ Forall IsZeroOperation.wf (is_zero_byte cols) /\
  canon (is_lower_half_zero cols) /\ canon (is_upper_half_zero cols) /\ canon (result cols).
End IsZeroWordOperation.

Module IsEqualWordOperation.
Record IsEqualWordOperation : Type := mkIsEqualWordOperation {
  is_diff_zero : IsZeroWordOperation.IsZeroWordOperation
}.

Definition diff (a b : Word) : Word :=
  mkWord (a.[0] - b.[0]) (a.[1] - b.[1]) (a.[2] - b.[2]) (a.[3] - b.[3]).

Definition populate (a_u32 b_u32 : Z) : IsEqualWordOperation * Z :=
  (mkIsEqualWordOperation
     (IsZeroWordOperation.populate_from_field_element (diff (word_from a_u32) (word_from b_u32))).1,
   from_bool (a_u32 =? b_u32)).

Definition eval (a b : Word) (cols : IsEqualWordOperation) (is_real : Z) : list Call :=
  [AssertBool is_real] ++ IsZeroWordOperation.eval (diff a b) (is_diff_zero cols) is_real.

Definition wf (cols : IsEqualWordOperation) : Prop := IsZeroWordOperation.wf (is_diff_zero cols).
End IsEqualWordOperation.

(** ** Field elements *)

Lemma is_zero_sound a cols is_real :
  canon (IsZeroOperation.result cols) -> ~ is_real ≡F 0 -> all_hold (IsZeroOperation.eval a cols is_real) ->
  IsZeroOperation.result cols = from_bool (bool_decide (a ≡F 0)).
Proof.
  intros Hc Hr. unfold IsZeroOperation.eval. rewrite !all_hold_app, !all_hold_when.
  intros (H1 & H2 & H3). specialize (H1 Hr) as [H1 _]. specialize (H2 Hr) as [H2 _]. specialize (H3 Hr).
  cbn [holds] in *. apply bool_canon in H2; [|done]. destruct H2 as [E|E]; rewrite E in *.
  - case_bool_decide as Ha; [|done]. rewrite Ha, Z.mul_0_r in H1. discriminate H1.
  - rewrite bool_decide_eq_true_2; [done|]. by apply H3.
Qed.

Lemma is_zero_complete a is_real :
  IsZeroOperation.wf (IsZeroOperation.populate_from_field_element a).1 /\
  all_hold (IsZeroOperation.eval a (IsZeroOperation.populate_from_field_element a).1 is_real).
Proof.
  unfold IsZeroOperation.populate_from_field_element, IsZeroOperation.eval, IsZeroOperation.wf. cbn [fst].
  rewrite !all_hold_app, !all_hold_when. case_bool_decide as Ha; cbn [IsZeroOperation.inverse IsZeroOperation.result].
  - split; [done|]. split_and!; intros _; [by split|split; [by right|done]|]. intros _. by split.
  - split; [split; [apply Finv_canon|done]|]. split_and!; intros _.
    + split; [|done]. cbn [holds]. by rewrite Finv_spec.
    + split; [by left|done].
    + intros Hz. by destruct Hz.
Qed.

Lemma is_zero_no_sends a cols is_real : byte_messages (IsZeroOperation.eval a cols is_real) = [].
Proof. done. Qed.

(** ** Words *)

Definition word_is_zero (w : Word) : Prop := w.[0] ≡F 0 /\ w.[1] ≡F 0 /\ w.[2] ≡F 0 /\ w.[3] ≡F 0.

#[export] Instance word_is_zero_dec w : Decision (word_is_zero w).
Proof. unfold word_is_zero. apply _. Defined.

Lemma word_is_zero_bools w :
  bool_decide (word_is_zero w) = bool_decide (w.[0] ≡F 0) && bool_decide (w.[1] ≡F 0) &&
    bool_decide (w.[2] ≡F 0) && bool_decide (w.[3] ≡F 0).
Proof.
  unfold word_is_zero. repeat case_bool_decide; tauto.
Qed.

Lemma is_zero_word_sound a cols is_real :
  IsZeroWordOperation.wf cols -> ~ is_real ≡F 0 -> all_hold (IsZeroWordOperation.eval a cols is_real) ->
  IsZeroWordOperation.result cols = from_bool (bool_decide (word_is_zero a)).
Proof.
  intros (Hl & Hb & Hlo & Hhi & Hres) Hr. unfold IsZeroWordOperation.eval.
  rewrite !all_hold_app, all_hold_flat_map, all_hold_when. intros (H1 & _ & H2). specialize (H2 Hr).
  assert (forall i, (i < 4)%nat ->
    IsZeroOperation.result (IsZeroWordOperation.byte cols i) = from_bool (bool_decide (a.[i] ≡F 0))) as Hbyte.
  { intros i Hi. apply (is_zero_sound _ _ is_real); [|done|].
    - unfold IsZeroWordOperation.byte. rewrite Forall_forall in Hb. apply Hb, list_elem_of_In, nth_In. lia.
    - apply H1, in_seq. unfold WORD_SIZE. lia. }
  rewrite !Hbyte in H2 by lia. cbn [all_hold holds] in H2. destruct H2 as (_ & _ & _ & L & U & R & _).
  rewrite L, U in R. rewrite word_is_zero_bools.
  apply eqF_canon in R; [|done|]; [|by do 4 case_bool_decide].
  rewrite R. by do 4 case_bool_decide.
Qed.

Lemma is_zero_word_populate a : IsZeroWordOperation.populate_from_field_element a =
  (IsZeroWordOperation.mkIsZeroWordOperation
    (map (fun x => (IsZeroOperation.populate_from_field_element x).1) (limbs a))
    (from_bool (bool_decide (a.[0] ≡F 0)) * from_bool (bool_decide (a.[1] ≡F 0)))
    (from_bool (bool_decide (a.[2] ≡F 0)) * from_bool (bool_decide (a.[3] ≡F 0)))
    (from_bool (bool_decide (word_is_zero a))), from_bool (bool_decide (word_is_zero a))).
Proof.
  unfold IsZeroWordOperation.populate_from_field_element, IsZeroOperation.populate_from_field_element.
  rewrite word_is_zero_bools. cbn. by do 4 case_bool_decide.
Qed.

Lemma is_zero_word_complete a is_real : is_real = 0 \/ is_real = 1 ->
  IsZeroWordOperation.wf (IsZeroWordOperation.populate_from_field_element a).1 /\
  IsZeroWordOperation.result (IsZeroWordOperation.populate_from_field_element a).1 =
    from_bool (bool_decide (word_is_zero a)) /\
  all_hold (IsZeroWordOperation.eval a (IsZeroWordOperation.populate_from_field_element a).1 is_real).
Proof.
  intros Hr. rewrite is_zero_word_populate. cbn [fst]. split_and!; [|done|].
  - split_and!; cbn [IsZeroWordOperation.is_zero_byte IsZeroWordOperation.is_lower_half_zero
      IsZeroWordOperation.is_upper_half_zero IsZeroWordOperation.result]; [done| |by do 2 case_bool_decide..|apply from_bool_canon].
    rewrite Forall_map. apply Forall_forall. intros x _. cbn. apply (is_zero_complete x 1).
  - unfold IsZeroWordOperation.eval. rewrite !all_hold_app, all_hold_flat_map, all_hold_when. split_and!.
    + intros i Hi%in_seq. do 4 (destruct i as [|i]; [apply is_zero_complete|]). unfold WORD_SIZE in Hi. lia.
    + split; [|done]. destruct Hr as [->| ->]; [by left|by right].
    + intros _. unfold IsZeroWordOperation.byte. cbn [IsZeroWordOperation.is_zero_byte IsZeroWordOperation.is_lower_half_zero
        IsZeroWordOperation.is_upper_half_zero IsZeroWordOperation.result limbs map nth].
      rewrite word_is_zero_bools. unfold IsZeroOperation.populate_from_field_element. cbn [fst widx].
      cbn [all_hold holds].
      do 4 case_bool_decide; cbn; split_and!; try exact I; try reflexivity; first [left; reflexivity|right; reflexivity].
Qed.

(** ** Equality *)

Lemma diff_is_zero a b : word_canon a -> word_canon b ->
  word_is_zero (IsEqualWordOperation.diff a b) <-> a = b.
Proof.
  intros (A0&A1&A2&A3) (B0&B1&B2&B3). unfold word_is_zero. cbn [widx IsEqualWordOperation.diff w0 w1 w2 w3].
  rewrite !eqF_sub_0. split; [|by intros ->].
  intros (E0&E1&E2&E3). apply eqF_canon in E0, E1, E2, E3; try done.
  destruct a as [a0 a1 a2 a3], b as [b0 b1 b2 b3]. cbn [widx w0 w1 w2 w3] in *. congruence.
Qed.

Lemma is_equal_word_sound a b cols is_real :
  word_canon a -> word_canon b -> IsEqualWordOperation.wf cols -> ~ is_real ≡F 0 ->
  all_hold (IsEqualWordOperation.eval a b cols is_real) ->
  IsZeroWordOperation.result (IsEqualWordOperation.is_diff_zero cols) = from_bool (bool_decide (a = b)).
Proof.
  intros Ha Hb Hc Hr [_ H]%all_hold_app. rewrite (is_zero_word_sound _ _ is_real Hc Hr H).
  f_equal. apply bool_decide_ext. by apply diff_is_zero.
Qed.

Lemma is_equal_word_complete a b is_real : is_u32 a -> is_u32 b -> is_real = 0 \/ is_real = 1 ->
  let cols := (IsEqualWordOperation.populate a b).1 in
  IsEqualWordOperation.wf cols /\
  IsZeroWordOperation.result (IsEqualWordOperation.is_diff_zero cols) = from_bool (a =? b) /\
  all_hold (IsEqualWordOperation.eval (word_from a) (word_from b) cols is_real).
Proof.
  intros Ha Hb Hr cols. subst cols. unfold IsEqualWordOperation.populate. cbn [fst IsEqualWordOperation.is_diff_zero].
  destruct (is_zero_word_complete (IsEqualWordOperation.diff (word_from a) (word_from b)) is_real Hr) as (H1 & H2 & H3).
  split_and!; [exact H1| |].
  - rewrite H2. f_equal. rewrite (bool_decide_ext _ _ (diff_is_zero _ _ (word_from_canon a) (word_from_canon b))).
    destruct (Z.eqb_spec a b) as [->|Hne]; [by apply bool_decide_eq_true|].
    apply bool_decide_eq_false. intros E. apply Hne. by rewrite <- (to_u32_word_from a), E, to_u32_word_from.
  - unfold IsEqualWordOperation.eval. apply all_hold_app. split; [|exact H3].
    split; [|done]. destruct Hr as [->| ->]; [by left|by right].
Qed.

(** * Comparisons and bit decompositions (crates/core/machine/src/operations/lt.rs,
    baby_bear_range.rs)

    [AssertLtColsBits] and [AssertLtColsBytes] compare two numbers digit by digit
    from the most significant one: one flag marks the first digit that differs.
    [BabyBearBitDecomposition] writes a field element in bits, canonically. *)

(** ** The loops *)

(** The flags, most significant digit first; [None]: a digit of [a] is larger. *)
Fixpoint first_lt (digits : list (Z * Z)) : option (list Z) :=
  match digits with
  | [] => Some []
  | (a, b) :: rest =>
      if b <? a then None
      else if a <? b then Some (1 :: replicate (length rest) 0)
      else flags ← first_lt rest; Some (0 :: flags)
  end.

(** The digits up to the marked one are equal; the marked digits of both. *)
Fixpoint compare_digits (guard : Z -> list Call -> list Call) (is_inequality_visited a_comparison b_comparison : Z)
    (digits : list (Z * Z * Z)) : list Call * (Z * Z) :=
  match digits with
  | [] => ([], (a_comparison, b_comparison))
  | (a, b, flag) :: rest =>
      let is_inequality_visited := is_inequality_visited + flag in
      let '(calls, marked) := compare_digits guard is_inequality_visited (a_comparison + a * flag) (b_comparison + b * flag) rest in
      (guard is_inequality_visited [AssertEq a b] ++ calls, marked)
  end.

Definition flag_sum (flags : list Z) : Z := fold_left Z.add flags 0.

Module AssertLtColsBits.
Record AssertLtColsBits : Type := mkAssertLtColsBits { bit_flags : list Z }.

Definition populate (a b : list Z) : option AssertLtColsBits :=
  flags ← first_lt (zip (rev a) (rev b)); Some (mkAssertLtColsBits (rev flags)).

Definition eval (cols : AssertLtColsBits) (a b : list Z) (is_real : Z) : list Call :=
  let '(calls, (a_comparison_bit, b_comparison_bit)) :=
    compare_digits (fun visited c => when is_real (when_not visited c)) 0 0 0 (zip (zip (rev a) (rev b)) (rev (bit_flags cols))) in
  map AssertBool (bit_flags cols) ++
  when is_real [AssertOne (flag_sum (bit_flags cols))] ++
  calls ++
  when is_real [AssertEq a_comparison_bit 0] ++
  when is_real [AssertEq b_comparison_bit 1].

Definition wf (n : nat) (cols : AssertLtColsBits) : Prop := length (bit_flags cols) = n /\ Forall canon (bit_flags cols).
End AssertLtColsBits.

Module AssertLtColsBytes.
Record AssertLtColsBytes : Type := mkAssertLtColsBytes { byte_flags : list Z; a_comparison_byte : Z; b_comparison_byte : Z }.

(** The bytes of the first difference. *)
Definition first_diff (a b : list Z) : option (Z * Z) := find (fun p => p.1 <? p.2) (zip (rev a) (rev b)).

(** Columns the loop leaves alone keep their old content. *)
Definition populate {R} `{ByteRecord R} (old : AssertLtColsBytes) (record : R) (a b : list Z) : option (AssertLtColsBytes * R) :=
  flags ← first_lt (zip (rev a) (rev b));
  match first_diff a b with
  | Some (x, y) => Some (mkAssertLtColsBytes (rev flags) x y, add_byte_lookup_event (mkByteLookupEvent ByteOpcode.LTU 1 0 x y) record)
  | None => Some (mkAssertLtColsBytes (rev flags) (a_comparison_byte old) (b_comparison_byte old), record)
  end.

Definition eval (cols : AssertLtColsBytes) (a b : list Z) (is_real : Z) : list Call :=
  let '(calls, (first_lt_byte, b_comparison)) :=
    compare_digits (fun visited c => when_not visited (when is_real c)) 0 0 0 (zip (zip (rev a) (rev b)) (rev (byte_flags cols))) in
  map AssertBool (byte_flags cols) ++
  when is_real [AssertOne (flag_sum (byte_flags cols))] ++
  calls ++
  when is_real [AssertEq (a_comparison_byte cols) first_lt_byte] ++
  when is_real [AssertEq (b_comparison_byte cols) b_comparison] ++
  send_byte (ByteOpcode.as_u8 ByteOpcode.LTU) 1 (a_comparison_byte cols) (b_comparison_byte cols) is_real.

Definition wf (n : nat) (cols : AssertLtColsBytes) : Prop :=
  length (byte_flags cols) = n /\ Forall canon (byte_flags cols) /\ canon (a_comparison_byte cols) /\ canon (b_comparison_byte cols).
End AssertLtColsBytes.

(** [array::from_fn(|i| (x >> i) & 1)]. *)
Definition bits_of (x : Z) : list Z := map (fun i => Z.land (Z.shiftr x (Z.of_nat i)) 1) (seq 0 32).

(** The sum of the bits times their powers of two. *)
Definition bits2num (bits : list Z) : Z :=
  fold_left (fun reconstructed_value '(i, bit) => reconstructed_value + 2 ^ Z.of_nat i * bit) (zip (seq 0 (length bits)) bits) 0.

Module BabyBearBitDecomposition.
Record BabyBearBitDecomposition : Type := mkBabyBearBitDecomposition {
  bits : list Z;
  and_most_sig_byte_decomp_3_to_5 : Z;
  and_most_sig_byte_decomp_3_to_6 : Z;
  and_most_sig_byte_decomp_3_to_7 : Z
}.

Definition bit (l : list Z) (i : nat) : Z := nth i l 0.

Definition populate (value : Z) : BabyBearBitDecomposition :=
  let bits := bits_of value in
  let and_5 := bit bits 27 * bit bits 28 in
  let and_6 := and_5 * bit bits 29 in
  mkBabyBearBitDecomposition bits and_5 and_6 (and_6 * bit bits 30).

Definition range_check (value : Z) (cols : BabyBearBitDecomposition) (is_real : Z) : list Call :=
  let msb i := bit (bits cols) (24 + i) in
  flat_map (fun b => when is_real [AssertBool b]) (bits cols) ++
  when is_real [AssertEq (bits2num (bits cols)) value] ++
  when is_real [AssertZero (msb 7%nat)] ++
  when is_real [AssertEq (and_most_sig_byte_decomp_3_to_5 cols) (msb 3%nat * msb 4%nat)] ++
  when is_real [AssertEq (and_most_sig_byte_decomp_3_to_6 cols) (and_most_sig_byte_decomp_3_to_5 cols * msb 5%nat)] ++
  when is_real [AssertEq (and_most_sig_byte_decomp_3_to_7 cols) (and_most_sig_byte_decomp_3_to_6 cols * msb 6%nat)] ++
  when is_real (when (and_most_sig_byte_decomp_3_to_7 cols) [AssertZero (fold_left Z.add (take 27 (bits cols)) 0)]).

Definition wf (cols : BabyBearBitDecomposition) : Prop :=
  length (bits cols) = 32%nat /\ Forall canon (bits cols) /\ canon (and_most_sig_byte_decomp_3_to_5 cols) /\
  canon (and_most_sig_byte_decomp_3_to_6 cols) /\ canon (and_most_sig_byte_decomp_3_to_7 cols).

Definition zero : BabyBearBitDecomposition := mkBabyBearBitDecomposition (replicate 32 0) 0 0 0.
End BabyBearBitDecomposition.
Import BabyBearBitDecomposition (BabyBearBitDecomposition).

(** ** Numbers from digits *)

(** Most significant digit first, in base [base]. *)
Fixpoint num (base : Z) (digits : list Z) : Z :=
  match digits with [] => 0 | x :: l => x * base ^ Z.of_nat (length l) + num base l end.

Definition digits (base : Z) (l : list Z) : Prop := Forall (fun x => 0 <= x < base) l.

Lemma num_bound base l : 1 < base -> digits base l -> 0 <= num base l < base ^ Z.of_nat (length l).
Proof.
  intros Hb. induction 1 as [|x l Hx _ IH]; cbn [num length]; [lia|]. rewrite Nat2Z.inj_succ, Z.pow_succ_r by lia. nia.
Qed.

Lemma num_app base l1 l2 : num base (l1 ++ l2) = num base l1 * base ^ Z.of_nat (length l2) + num base l2.
Proof.
  induction l1 as [|x l1 IH]; cbn [app num]; [lia|]. rewrite IH, length_app, Nat2Z.inj_add, Z.pow_add_r by lia. lia.
Qed.

Lemma fold_add_acc l x : fold_left Z.add l x = x + fold_left Z.add l 0.
Proof. revert x. induction l as [|y l IH]; intros x; cbn [fold_left]; [lia|]. rewrite (IH (x + y)), (IH (0 + y)). lia. Qed.

Lemma flag_sum_cons x l : flag_sum (x :: l) = x + flag_sum l.
Proof. unfold flag_sum. cbn [fold_left]. rewrite fold_add_acc. lia. Qed.

Lemma flag_sum_app l1 l2 : flag_sum (l1 ++ l2) = flag_sum l1 + flag_sum l2.
Proof. induction l1 as [|x l1 IH]; [done|]. cbn [app]. rewrite !flag_sum_cons, IH. lia. Qed.

Lemma flag_sum_rev l : flag_sum (rev l) = flag_sum l.
Proof. induction l as [|x l IH]; [done|]. cbn [rev]. rewrite flag_sum_app, !flag_sum_cons, IH. change (flag_sum []) with 0. lia. Qed.

(** Flags are bits. *)
Definition flags_ok (l : list Z) : Prop := Forall (fun x => x = 0 \/ x = 1) l.

Lemma flag_sum_bound l : flags_ok l -> 0 <= flag_sum l <= Z.of_nat (length l).
Proof. induction 1 as [|x l Hx _ IH]; [done|]. rewrite flag_sum_cons. cbn [length]. lia. Qed.

Lemma flag_sum_zero l : flags_ok l -> flag_sum l = 0 -> l = replicate (length l) 0.
Proof.
  induction 1 as [|x l Hx Hl IH]; [done|]. rewrite flag_sum_cons. intros E. pose proof (flag_sum_bound l Hl). cbn [length replicate].
  f_equal; [lia|]. apply IH. lia.
Qed.

Lemma flag_sum_replicate n : flag_sum (replicate n 0) = 0.
Proof. induction n as [|n IH]; [done|]. cbn [replicate]. rewrite flag_sum_cons, IH. done. Qed.

Lemma asserted_flags l : Forall canon l -> all_hold (map AssertBool l) -> flags_ok l.
Proof.
  induction 1 as [|x l Hx _ IH]; [constructor|]. intros [H1 H2]. constructor; [by apply bool_canon|by apply IH].
Qed.

(** ** Comparisons *)

Abbreviation a_digits l := (map (fun t : Z * Z * Z => t.1.1) l).
Abbreviation b_digits l := (map (fun t : Z * Z * Z => t.1.2) l).
Abbreviation flags_of l := (map (fun t : Z * Z * Z => t.2) l).

Lemma marked_after guard v ca cb l : flag_sum (flags_of l) = 0 -> flags_ok (flags_of l) -> (compare_digits guard v ca cb l).2 = (ca, cb).
Proof.
  revert v ca cb. induction l as [|[[a b] f] l IH]; intros v ca cb; [done|]. cbn [map fst snd]. rewrite flag_sum_cons. intros E Hf.
  apply Forall_cons in Hf as [Hf Hl]. pose proof (flag_sum_bound _ Hl). assert (f = 0) as -> by lia. cbn [compare_digits].
  specialize (IH (v + 0) (ca + a * 0) (cb + b * 0) ltac:(lia) Hl). destruct (compare_digits _ _ _ _ l) as [calls marked]. cbn [snd] in *. rewrite IH. f_equal; lia.
Qed.

Section Compare.
  Context (base : Z) (Hbase : 1 < base <= BABYBEAR) (guard : Z -> list Call -> list Call).
  Context (Hguard : forall a b, all_hold (guard 0 [AssertEq a b]) -> a ≡F b).

(** The marked digits decide the order of the numbers. *)
Lemma compare_sound l : digits base (a_digits l) -> digits base (b_digits l) -> flags_ok (flags_of l) -> flag_sum (flags_of l) = 1 ->
  all_hold (compare_digits guard 0 0 0 l).1 ->
  let '(x, y) := (compare_digits guard 0 0 0 l).2 in
  0 <= x < base /\ 0 <= y < base /\ (x < y -> num base (a_digits l) < num base (b_digits l)).
Proof using Hbase Hguard.
  induction l as [|[[a b] f] l IH]; [done|]. cbn [map fst snd]. rewrite flag_sum_cons. intros Ha Hb Hf E.
  apply Forall_cons in Ha as [Ha Hal], Hb as [Hb Hbl], Hf as [Hf Hfl]. cbn [compare_digits].
  destruct Hf as [-> | ->].
  - replace (0 + a * 0) with 0 by lia. replace (0 + b * 0) with 0 by lia. change (0 + 0) with 0.
    specialize (IH Hal Hbl Hfl ltac:(lia)). destruct (compare_digits guard 0 0 0 l) as [calls [x y]]. cbn [fst snd] in *. rewrite all_hold_app. intros [Eab Hc].
    apply Hguard in Eab. apply eqF_small in Eab; [|lia]. subst b. destruct (IH Hc) as (Hx & Hy & Hn). split_and!; [lia..|]. intros Hlt. cbn [num]. rewrite !length_map. specialize (Hn Hlt). lia.
  - pose proof (marked_after guard (0 + 1) (0 + a * 1) (0 + b * 1) l ltac:(lia) Hfl) as Em.
    destruct (compare_digits guard (0 + 1) (0 + a * 1) (0 + b * 1) l) as [calls marked]. cbn [fst snd] in *. subst marked. intros _.
    split_and!; [lia..|]. intros Hlt. cbn [num]. rewrite !length_map. pose proof (num_bound base _ ltac:(lia) Hal) as B1. pose proof (num_bound base _ ltac:(lia) Hbl) as B2.
    rewrite length_map in B1, B2. nia.
Qed.

(** The flags [populate] sets pass, and mark the first difference. *)
Lemma first_lt_sound l flags : first_lt l = Some flags -> length flags = length l /\ flags_ok flags /\
  (flag_sum flags = 1 /\ (exists x y, x < y /\ find (fun p : Z * Z => p.1 <? p.2) l = Some (x, y) /\ (x, y) ∈ l) \/
   flag_sum flags = 0 /\ find (fun p : Z * Z => p.1 <? p.2) l = None /\ map fst l = map snd l).
Proof using.
  revert flags. induction l as [|[a b] l IH]; intros flags; cbn [first_lt].
  - intros [= <-]. split; [done|]. split; [constructor|]. by right.
  - destruct (Z.ltb_spec b a); [done|]. destruct (Z.ltb_spec a b) as [Hlt|].
    + intros [= <-]. cbn [length]. rewrite length_replicate, flag_sum_cons, flag_sum_replicate. split; [done|]. split.
      { constructor; [by right|]. apply Forall_replicate. by left. }
      left. split; [done|]. exists a, b. split; [done|]. split; [|left]. cbn. by rewrite (proj2 (Z.ltb_lt a b) Hlt).
    + destruct (first_lt l) as [fl|]; [|done]. intros [= <-]. destruct (IH fl eq_refl) as (Hl & Hf & Hc). cbn [length]. rewrite flag_sum_cons.
      split; [lia|]. split; [constructor; [by left|done]|]. cbn [find fst snd map]. rewrite (proj2 (Z.ltb_ge a b)) by lia.
      destruct Hc as [(Hs & x & y & Hxy & Hfi & Hin)|(Hs & Hfi & Hm)]; [left|right].
      * split; [lia|]. exists x, y. split; [done|]. split; [done|]. by right.
      * split; [lia|]. split; [done|]. rewrite Hm. f_equal. lia.
Qed.
End Compare.

Lemma compare_complete guard l flags v ca cb : (forall w a b, w = 1 \/ a = b -> all_hold (guard w [AssertEq a b])) ->
  first_lt l = Some flags -> v = 0 -> let '(calls, marked) := compare_digits guard v ca cb (zip l flags) in all_hold calls /\
  marked = match find (fun p : Z * Z => p.1 <? p.2) l with Some (x, y) => (ca + x, cb + y) | None => (ca, cb) end.
Proof.
  intros Hg. assert (forall l n ca cb, let '(calls, marked) := compare_digits guard 1 ca cb (zip l (replicate n 0)) in all_hold calls /\ marked = (ca, cb)) as H1.
  { clear l flags v ca cb. induction l as [|[a b] l IH]; intros [|n] ca cb; try by split. cbn [replicate zip zip_with compare_digits]. specialize (IH n (ca + a * 0) (cb + b * 0)).
    change (1 + 0) with 1. unfold zip in *. destruct (compare_digits _ _ _ _ _) as [calls marked]. destruct IH as [Hc ->]. rewrite all_hold_app. split; [split; [apply Hg; by left|done]|]. f_equal; lia. }
  revert flags v ca cb. induction l as [|[a b] l IH]; intros flags v ca cb; cbn [first_lt]; [intros [= <-] ->; by split|].
  destruct (Z.ltb_spec b a); [done|]. destruct (Z.ltb_spec a b) as [Hlt|].
  - intros [= <-] ->. cbn [zip zip_with compare_digits find fst snd]. rewrite (proj2 (Z.ltb_lt a b) Hlt). specialize (H1 l (length l) (ca + a * 1) (cb + b * 1)).
    change (0 + 1) with 1. unfold zip in *. destruct (compare_digits _ _ _ _ _) as [calls marked]. destruct H1 as [Hc ->]. rewrite all_hold_app. split; [split; [apply Hg; by left|done]|]. f_equal; lia.
  - destruct (first_lt l) as [fl|]; [|done]. intros [= <-] ->. cbn [zip zip_with compare_digits find fst snd]. rewrite (proj2 (Z.ltb_ge a b)) by lia.
    specialize (IH fl 0 (ca + a * 0) (cb + b * 0) eq_refl eq_refl). change (0 + 0) with 0. unfold zip in *. destruct (compare_digits _ _ _ _ _) as [calls marked]. destruct IH as [Hc ->].
    rewrite all_hold_app. split; [split; [apply Hg; right; lia|done]|]. destruct (find _ l) as [[x y]|]; f_equal; lia.
Qed.

Lemma a_digits_zip (a b f : list Z) : length a = length b -> length f = length b -> a_digits (zip (zip a b) f) = a /\ b_digits (zip (zip a b) f) = b /\ flags_of (zip (zip a b) f) = f.
Proof.
  revert b f. induction a as [|x a IH]; intros [|y b] [|z f] H1 H2; try done. cbn in *. destruct (IH b f) as (E1 & E2 & E3); [lia..|].
  by rewrite E1, E2, E3.
Qed.

Lemma digits_rev base l : digits base l -> digits base (rev l).
Proof. apply Forall_rev. Qed.

Section AssertLt.
  Context (n : nat) (Hn : Z.of_nat n < BABYBEAR) (a b : list Z) (Ha : length a = n) (Hb : length b = n).

Lemma flags_checked flags is_real : length flags = n -> Forall canon flags -> ~ is_real ≡F 0 ->
  all_hold (map AssertBool flags) -> all_hold (when is_real [AssertOne (flag_sum flags)]) -> flags_ok (rev flags) /\ flag_sum (rev flags) = 1.
Proof using Hn.
  clear Ha Hb. intros Hl Hc Hr Hb' Hs. pose proof (asserted_flags _ Hc Hb') as Hok. rewrite all_hold_when in Hs. destruct (Hs Hr) as [E _]. cbn [holds] in E.
  split; [by apply Forall_rev|]. rewrite flag_sum_rev. apply eqF_small; [done|]. pose proof (flag_sum_bound _ Hok). unfold BABYBEAR in *. lia.
Qed.

Lemma lt_bits_sound cols is_real : AssertLtColsBits.wf n cols -> ~ is_real ≡F 0 -> digits 2 a -> digits 2 b ->
  all_hold (AssertLtColsBits.eval cols a b is_real) -> num 2 (rev a) < num 2 (rev b).
Proof using Hn Ha Hb.
  intros [Hl Hc] Hr Da Db. unfold AssertLtColsBits.eval. destruct (a_digits_zip (rev a) (rev b) (rev (AssertLtColsBits.bit_flags cols))) as (Ea & Eb & Ef);
    [rewrite ?length_rev; congruence..|].
  pose proof (compare_sound 2 ltac:(unfold BABYBEAR; lia) (fun visited c => when is_real (when_not visited c))
    ltac:(intros x y; unfold when_not, when_ne; rewrite !all_hold_when; intros H; by apply H) (zip (zip (rev a) (rev b)) (rev (AssertLtColsBits.bit_flags cols)))) as Hs.
  rewrite Ea, Eb, Ef in Hs. destruct (compare_digits _ _ _ _ _) as [calls [x y]]. rewrite !all_hold_app, !all_hold_when.
  intros (H1 & H2 & H3 & H4 & H5). destruct (flags_checked _ _ Hl Hc Hr H1) as [Hf E1]; [by rewrite all_hold_when|].
  destruct (Hs (digits_rev _ _ Da) (digits_rev _ _ Db) Hf E1 H3) as (Hx & Hy & Hlt). destruct (H4 Hr) as [Ex _], (H5 Hr) as [Ey _]. cbn [holds] in Ex, Ey.
  apply eqF_small in Ex, Ey; [|unfold BABYBEAR; lia..]. apply Hlt. lia.
Qed.

Lemma lt_bits_complete cols is_real : AssertLtColsBits.populate a b = Some cols -> digits 2 a -> digits 2 b ->
  AssertLtColsBits.wf n cols /\ (a <> b -> all_hold (AssertLtColsBits.eval cols a b is_real)).
Proof using Ha Hb.
  clear Hn. unfold AssertLtColsBits.populate. destruct (first_lt (zip (rev a) (rev b))) as [flags|] eqn:E; [|done]. intros [= <-] Da Db.
  destruct (first_lt_sound _ _ E) as (Hl & Hf & Hc). rewrite length_zip, !length_rev, Ha, Hb, Nat.min_id in Hl.
  split; [split; cbn; [by rewrite length_rev|]|].
  { apply Forall_rev. eapply Forall_impl; [exact Hf|]. intros x [-> | ->]; done. }
  intros Hne. unfold AssertLtColsBits.eval. cbn [AssertLtColsBits.bit_flags]. rewrite rev_involutive.
  pose proof (compare_complete (fun visited c => when is_real (when_not visited c)) (zip (rev a) (rev b)) flags 0 0 0) as Hcc.
  destruct (compare_digits _ _ _ _ _) as [calls marked]. destruct Hcc as [Hcalls ->]; [|done|done|].
  { intros w x y Hw. unfold when_not, when_ne. rewrite !all_hold_when. intros _ Hz. destruct Hw as [->| ->]; [by destruct Hz|by split]. }
  destruct Hc as [(Hs & x & y & Hxy & Hfi & Hin)|(_ & _ & Hm)].
  2:{ exfalso. apply Hne. change (fmap fst (zip (rev a) (rev b)) = fmap snd (zip (rev a) (rev b))) in Hm. rewrite fst_zip, snd_zip in Hm by (rewrite !length_rev; lia).
      by rewrite <- (rev_involutive a), <- (rev_involutive b), Hm. }
  rewrite Hfi. assert (x = 0 /\ y = 1) as [-> ->].
  { apply elem_of_zip_l in Hin as Hx. apply elem_of_zip_r in Hin as Hy. apply digits_rev in Da, Db. unfold digits in Da, Db. rewrite Forall_forall in Da, Db. specialize (Da _ Hx). specialize (Db _ Hy). lia. }
  rewrite !all_hold_app, !all_hold_when. split_and!; [|intros _; split; [|done]; cbn [holds]; by rewrite flag_sum_rev, Hs|done|by intros _..].
  clear - Hf. apply Forall_rev in Hf. induction Hf as [|f l Hf _ IH]; [done|]. split; [|exact IH]. cbn [holds]. destruct Hf as [-> | ->]; [by left|by right].
Qed.

Lemma lt_bytes_sound cols is_real : AssertLtColsBytes.wf n cols -> ~ is_real ≡F 0 -> digits 256 a -> digits 256 b ->
  row_ok (AssertLtColsBytes.eval cols a b is_real) -> num 256 (rev a) < num 256 (rev b).
Proof using Hn Ha Hb.
  intros (Hl & Hc & Ca & Cb) Hr Da Db. unfold AssertLtColsBytes.eval. destruct (a_digits_zip (rev a) (rev b) (rev (AssertLtColsBytes.byte_flags cols))) as (Ea & Eb & Ef);
    [rewrite ?length_rev; congruence..|].
  pose proof (compare_sound 256 ltac:(unfold BABYBEAR; lia) (fun visited c => when_not visited (when is_real c))
    ltac:(intros x y; unfold when_not, when_ne; rewrite !all_hold_when; intros H; by apply H) (zip (zip (rev a) (rev b)) (rev (AssertLtColsBytes.byte_flags cols)))) as Hs.
  rewrite Ea, Eb, Ef in Hs. destruct (compare_digits _ _ _ _ _) as [calls [x y]]. rewrite !row_ok_app.
  intros ([H1 _] & [H2 _] & [H3 _] & [H4 _] & [H5 _] & [_ [H6 _]]). destruct (flags_checked _ _ Hl Hc Hr H1 H2) as [Hf E1].
  destruct (Hs (digits_rev _ _ Da) (digits_rev _ _ Db) Hf E1 H3) as (Hx & Hy & Hlt). rewrite all_hold_when in H4, H5. destruct (H4 Hr) as [Ex _], (H5 Hr) as [Ey _]. cbn [holds] in Ex, Ey.
  apply eqF_canon in Ex, Ey; [|done || (unfold canon, BABYBEAR; lia)..]. apply Hlt. cbn [call_found kind multiplicity values] in H6. specialize (H6 Hr).
  apply ltu_found in H6 as (_ & _ & E); [|done..]. rewrite Ex, Ey in E. unfold from_bool in E. destruct (Z.ltb_spec x y); [done|discriminate E].
Qed.
End AssertLt.

(** ** Bits *)

Lemma num_snoc base l x : num base (l ++ [x]) = num base l * base + x.
Proof. rewrite num_app. cbn [num length]. change (Z.of_nat 1) with 1. change (Z.of_nat 0) with 0. rewrite Z.pow_1_r, Z.pow_0_r. lia. Qed.

Lemma bits2num_num l : bits2num l = num 2 (rev l).
Proof.
  unfold bits2num. assert (forall k acc, fold_left (fun s '(i, bit) => s + 2 ^ Z.of_nat i * bit) (zip (seq k (length l)) l) acc = acc + 2 ^ Z.of_nat k * num 2 (rev l)) as H.
  { induction l as [|x l IH]; intros k acc; [cbn; lia|]. cbn [length seq zip zip_with fold_left rev]. unfold zip in IH. rewrite IH, num_snoc, Nat2Z.inj_succ, Z.pow_succ_r by lia. lia. }
  rewrite H. change (Z.of_nat 0) with 0. lia.
Qed.

Lemma num_bits n x : num 2 (rev (map (fun i => Z.land (Z.shiftr x (Z.of_nat i)) 1) (seq 0 n))) = x mod 2 ^ Z.of_nat n.
Proof.
  induction n as [|n IH]; [by rewrite Z.mod_1_r|]. rewrite seq_S, map_app, rev_app_distr. cbn [map rev app num Nat.add]. rewrite IH, length_rev, length_map, length_seq.
  rewrite Z.shiftr_div_pow2 by lia. change 1 with (Z.ones 1) at 1. rewrite Z.land_ones by lia. rewrite Nat2Z.inj_succ, Z.pow_succ_r by lia.
  rewrite (Z.mul_comm 2), Z.rem_mul_r by lia. change (2 ^ 1) with 2. lia.
Qed.

Lemma bits_of_num x : is_u32 x -> num 2 (rev (bits_of x)) = x.
Proof. rewrite is_u32_iff. intros H. unfold bits_of. rewrite num_bits. change (2 ^ Z.of_nat 32) with (2 ^ 32). apply Z.mod_small. lia. Qed.

Lemma bits_of_digits x : digits 2 (bits_of x) /\ length (bits_of x) = 32%nat.
Proof.
  split; [|done]. apply Forall_forall. intros y Hy. unfold bits_of in Hy. apply list_elem_of_In, in_map_iff in Hy as (i & <- & _).
  change 1 with (Z.ones 1). rewrite Z.land_ones by lia. apply Z.mod_pos_bound. lia.
Qed.

(** Numbers of the same length are equal when their digits are. *)
Lemma num_inj base l l' : 1 < base -> digits base l -> digits base l' -> length l = length l' -> num base l = num base l' -> l = l'.
Proof.
  intros Hb Hl. revert l'. induction Hl as [|x l Hx Hl IH]; intros [|y l'] Hl' E; try done. apply Forall_cons in Hl' as [Hy Hl']. cbn [num length] in *. intros En. injection E as E.
  pose proof (num_bound base l Hb Hl). pose proof (num_bound base l' Hb Hl'). rewrite E in *. assert (x = y) as -> by nia. f_equal. apply IH; [done..|lia].
Qed.

(** ** Canonical decompositions *)

Import BabyBearBitDecomposition.

Lemma bits_split l : length l = 32%nat -> l = take 27 l ++ [bit l 27; bit l 28; bit l 29; bit l 30; bit l 31].
Proof. intros H. do 32 (destruct l as [|? l]; [discriminate H|]). destruct l; [done|discriminate H]. Qed.

Lemma bits_value l : length l = 32%nat ->
  bits2num l = bit l 31 * 2 ^ 31 + bit l 30 * 2 ^ 30 + bit l 29 * 2 ^ 29 + bit l 28 * 2 ^ 28 + bit l 27 * 2 ^ 27 + num 2 (rev (take 27 l)).
Proof.
  intros H. rewrite bits2num_num. rewrite (bits_split l H) at 1. rewrite rev_app_distr, num_app. rewrite length_rev, length_take, H.
  change (Z.of_nat (27 `min` 32)) with 27. cbn [rev app num length]. change (Z.of_nat 4) with 4. change (Z.of_nat 3) with 3. change (Z.of_nat 2) with 2. change (Z.of_nat 1) with 1. change (Z.of_nat 0) with 0. lia.
Qed.

Lemma bit_range l i : digits 2 l -> bit l i = 0 \/ bit l i = 1.
Proof.
  intros H. unfold bit. destruct (nth_in_or_default i l 0) as [Hin|E]; [|by left]. apply list_elem_of_In in Hin. unfold digits in H. rewrite Forall_forall in H. specialize (H _ Hin). lia.
Qed.

(** Bits of numbers below the modulus: if the four bits under the top are set,
    the lower ones are not. *)
Definition canonical (l : list Z) : Prop := bit l 31 = 0 /\ (bit l 27 * bit l 28 * bit l 29 * bit l 30 = 1 -> flag_sum (take 27 l) = 0).

Lemma flags_digits l : flags_ok l <-> digits 2 l.
Proof. split; intros H; (eapply Forall_impl; [exact H|]); cbn; lia. Qed.

Lemma num_zeros n : num 2 (rev (replicate n 0)) = 0.
Proof. induction n as [|n IH]; [done|]. cbn [replicate rev]. rewrite num_snoc, IH. done. Qed.

Lemma sum_positive l : digits 2 l -> num 2 (rev l) = 0 -> flag_sum l = 0.
Proof.
  intros H. induction H as [|x l Hx Hl IH]; [done|]. cbn [rev]. rewrite num_snoc, flag_sum_cons. pose proof (num_bound 2 (rev l) ltac:(lia) (digits_rev _ _ Hl)).
  intros E. rewrite IH by lia. lia.
Qed.

Lemma canonical_iff l : length l = 32%nat -> digits 2 l -> canonical l <-> canon (bits2num l).
Proof.
  intros Hl Hd. rewrite (bits_value l Hl). assert (digits 2 (take 27 l)) as Ht by (by apply Forall_take).
  pose proof (num_bound 2 (rev (take 27 l)) ltac:(lia) (digits_rev _ _ Ht)) as B. rewrite length_rev, length_take, Hl in B. change (Z.of_nat (27 `min` 32)) with 27 in B.
  assert (flag_sum (take 27 l) = 0 <-> num 2 (rev (take 27 l)) = 0) as Hz.
  { split; [|by apply sum_positive]. intros E%flag_sum_zero; [|by apply flags_digits]. by rewrite E, num_zeros. }
  unfold canonical, canon, BABYBEAR. rewrite Hz. pose proof (bit_range l 31 Hd). pose proof (bit_range l 30 Hd). pose proof (bit_range l 29 Hd). pose proof (bit_range l 28 Hd). pose proof (bit_range l 27 Hd).
  destruct (bit_range l 31 Hd) as [-> | ->], (bit_range l 30 Hd) as [-> | ->], (bit_range l 29 Hd) as [-> | ->], (bit_range l 28 Hd) as [-> | ->], (bit_range l 27 Hd) as [-> | ->]; lia.
Qed.

Lemma decomposition_sound value cols is_real : wf cols -> ~ is_real ≡F 0 -> all_hold (range_check value cols is_real) ->
  digits 2 (bits cols) /\ canon (bits2num (bits cols)) /\ value ≡F bits2num (bits cols).
Proof.
  intros (Hl & Hc & C5 & C6 & C7) Hr H. unfold range_check in H. rewrite !all_hold_app, !all_hold_when in H.
  destruct H as (H0 & H1 & H2 & H3 & H4 & H5 & H6). destruct (H1 Hr) as [E1 _], (H2 Hr) as [E2 _], (H3 Hr) as [E3 _], (H4 Hr) as [E4 _], (H5 Hr) as [E5 _]. specialize (H6 Hr). cbn [holds] in *.
  assert (digits 2 (bits cols)) as Hd.
  { apply flags_digits. clear - H0 Hc Hr. induction Hc as [|x l Hx _ IH]; [constructor|]. cbn [flat_map] in H0. rewrite all_hold_app, all_hold_when in H0. destruct H0 as [Hb H0].
    constructor; [|by apply IH]. destruct (Hb Hr) as [Hb' _]. by apply bool_canon. }
  split; [done|]. split; [|done]. apply canonical_iff; [done..|]. cbn [Nat.add] in *. pose proof (bit_range _ 31 Hd). pose proof (bit_range _ 30 Hd). pose proof (bit_range _ 29 Hd). pose proof (bit_range _ 28 Hd). pose proof (bit_range _ 27 Hd).
  split; [apply eqF_small; [done|unfold BABYBEAR; lia]|]. intros Ep.
  assert (and_most_sig_byte_decomp_3_to_7 cols ≡F 1) as E7 by (rewrite E5, E4, E3, Ep; done). rewrite E7 in H6. destruct (H6 ltac:(done)) as [E _]. cbn [holds] in E.
  apply eqF_small; [exact E|]. assert (flags_ok (take 27 (bits cols))) as Hf by (apply flags_digits; by apply Forall_take). pose proof (flag_sum_bound _ Hf). rewrite length_take, Hl in *. unfold BABYBEAR. lia.
Qed.

(** The columns of canonical bits pass. *)
Definition cols_of (l : list Z) : BabyBearBitDecomposition :=
  let and_5 := bit l 27 * bit l 28 in let and_6 := and_5 * bit l 29 in mkBabyBearBitDecomposition l and_5 and_6 (and_6 * bit l 30).

Lemma canonical_complete l is_real : length l = 32%nat -> digits 2 l -> canon (bits2num l) -> wf (cols_of l) /\ all_hold (range_check (bits2num l) (cols_of l) is_real).
Proof.
  intros Hl Hd Hv. destruct (proj2 (canonical_iff l Hl Hd) Hv) as [C1 C2].
  pose proof (bit_range _ 30 Hd) as B30. pose proof (bit_range _ 29 Hd) as B29. pose proof (bit_range _ 28 Hd) as B28. pose proof (bit_range _ 27 Hd) as B27.
  unfold cols_of, range_check, wf. cbn [bits and_most_sig_byte_decomp_3_to_5 and_most_sig_byte_decomp_3_to_6 and_most_sig_byte_decomp_3_to_7 Nat.add].
  split; [split_and!; try done|].
  - eapply Forall_impl; [exact Hd|]. unfold canon, BABYBEAR. cbn. lia.
  - destruct B27 as [-> | ->], B28 as [-> | ->]; done.
  - destruct B27 as [-> | ->], B28 as [-> | ->], B29 as [-> | ->]; done.
  - destruct B27 as [-> | ->], B28 as [-> | ->], B29 as [-> | ->], B30 as [-> | ->]; done.
  - rewrite !all_hold_app, !all_hold_when. split_and!; try (intros _; split; [|done]; cbn [holds]; first [by rewrite C1|reflexivity]).
    + clear - Hd. induction Hd as [|x l Hx _ IH]; [done|]. cbn [flat_map]. rewrite all_hold_app, all_hold_when. split; [|exact IH]. intros _. split; [|done].
      cbn [holds]. assert (x = 0 \/ x = 1) as [-> | ->] by lia; [by left|by right].
    + intros _ Hz. split; [|done]. cbn [holds]. unfold flag_sum in C2. rewrite C2; [done|].
      assert (forall p, p = 0 \/ p = 1 -> ~ p ≡F 0 -> p = 1) as Hp by (intros p [-> | ->]; [by intros []|done]). apply Hp; [|done].
      destruct B27 as [-> | ->], B28 as [-> | ->], B29 as [-> | ->], B30 as [-> | ->]; first [by left|by right].
Qed.

Lemma decomposition_complete value is_real : canon value -> wf (populate value) /\ all_hold (range_check value (populate value) is_real).
Proof.
  intros Hv. destruct (bits_of_digits value) as [Hd Hl]. assert (is_u32 value) as Hu by (apply is_u32_iff; unfold canon, BABYBEAR in Hv; lia).
  assert (bits2num (bits_of value) = value) as E by (rewrite bits2num_num; by apply bits_of_num).
  change (populate value) with (cols_of (bits_of value)). rewrite <- E at 2. apply canonical_complete; [done..|by rewrite E].
Qed.
