(* ===== verification/ChipSpec.v ===== *)
(** * What the ALU chips promise

    The CPU chip sends one instruction message per row; the chip of the opcode
    receives it.  [alu_receiver] is the promise of a chip to the senders: a
    message it receives for a destination other than [x0] carries the result
    the executor computes.  [row_of_event] is its promise to the prover: the
    row it builds for an event passes, receives the message of that event and
    sends the byte lookups it recorded. *)

From Stdlib Require Import ZArith Lia Bool.
From stdpp Require Import base list.
From S2P Require Import Prelude Isa Events ByteLookup Record Alu Dependencies State AirBuilder ByteTable Operations.

Local Open Scope Z_scope.
Local Open Scope rv_scope.

(** ** Fields of an instruction message, as field elements *)

Definition msg (i : nat) (vals : list Z) : Z := Fred (nth i vals 0).
Definition msg_word (i : nat) (vals : list Z) : Word :=
  mkWord (msg i vals) (msg (i + 1) vals) (msg (i + 2) vals) (msg (i + 3) vals).
Definition msg_pc (vals : list Z) : Z := msg 2 vals.
Definition msg_next_pc (vals : list Z) : Z := msg 3 vals.
Definition msg_opcode (vals : list Z) : Z := msg 5 vals.
Definition msg_a (vals : list Z) : Word := msg_word 6 vals.
Definition msg_b (vals : list Z) : Word := msg_word 10 vals.
Definition msg_c (vals : list Z) : Word := msg_word 14 vals.
Definition msg_op_a_0 (vals : list Z) : Z := msg 18 vals.

(** A message of an instruction that neither branches nor touches memory. *)
Definition plain_message (vals : list Z) : Prop :=
  length vals = 23%nat /\ msg 0 vals = 0 /\ msg 1 vals = 0 /\
  msg_next_pc vals ≡F msg_pc vals + DEFAULT_PC_INC /\ msg 4 vals = 0 /\
  msg 19 vals = 0 /\ msg 20 vals = 0 /\ msg 21 vals = 0 /\ msg 22 vals = 0.

(** The message is a true ALU instruction. *)
Definition alu_message (vals : list Z) : Prop :=
  exists o, msg_opcode vals = opcode_u32 o /\ word_bytes (msg_a vals) /\
    alu_result o (to_u32 (msg_b vals)) (to_u32 (msg_c vals)) = Some (to_u32 (msg_a vals)).

(** Opcodes the chip answers for. *)
Definition answers (os : list Opcode) (vals : list Z) : Prop :=
  exists o, In o os /\ msg_opcode vals = opcode_u32 o.

(** The promise to the senders, who must send words of bytes as operands. *)
Definition alu_receiver (os : list Opcode) (calls : list Call) : Prop :=
  forall m, m ∈ receives KInstruction calls -> ~ multiplicity m ≡F 0 ->
    plain_message (values m) /\ answers os (values m) /\
    (msg_op_a_0 (values m) = 0 -> word_bytes (msg_b (values m)) -> word_bytes (msg_c (values m)) ->
     alu_message (values m)).

(** A chip that range checks the operands itself promises them to be words of
    bytes: DivRem relies on it for the absolute values it sends. *)
Definition checks_operands (calls : list Call) : Prop :=
  forall m, m ∈ receives KInstruction calls -> ~ multiplicity m ≡F 0 -> msg_op_a_0 (values m) = 0 ->
    word_bytes (msg_b (values m)) /\ word_bytes (msg_c (values m)).

(** What a sender may rely on once its message is received: the message is
    true, if its operands are words of bytes; those of a sum are. *)
Definition instruction_answered (vals : list Z) : Prop :=
  msg_op_a_0 vals = 0 ->
  (word_bytes (msg_b vals) -> word_bytes (msg_c vals) -> alu_message vals) /\
  (answers [ADD; SUB] vals -> word_bytes (msg_b vals) /\ word_bytes (msg_c vals)).

Definition sends_answered (calls : list Call) : Prop :=
  forall m, m ∈ sends KInstruction calls -> ~ multiplicity m ≡F 0 -> instruction_answered (values m).

(** ** Rows of events *)

(** [F::from_canonical_u32] on a program counter. *)
Definition event_message (e : AluEvent) : list Z :=
  instruction_values 0 0 (Fred (alu_pc e)) (Fred (alu_pc e) + DEFAULT_PC_INC) 0 (opcode_u32 (alu_opcode e))
    (word_from (alu_a e)) (word_from (alu_b e)) (word_from (alu_c e)) (from_bool (alu_op_a_0 e)) 0 0 0 0.

(** The instruction messages received with a nonzero multiplicity. *)
Definition received_messages (calls : list Call) : list AirInteraction :=
  filter (fun m => ~ multiplicity m ≡F 0) (receives KInstruction calls).

(** [evs] are the byte lookups the row records. *)
Definition row_of_event (e : AluEvent) (calls : list Call) (evs : list ByteLookupEvent) : Prop :=
  all_hold calls /\ byte_messages calls ≡ₚ map event_values evs /\ Forall event_found evs /\
  exists m, received_messages calls = [m] /\ multiplicity m = 1 /\ same_values (values m) (event_message e).

Lemma row_of_event_ok e calls evs : row_of_event e calls evs -> row_ok calls.
Proof. intros (H1 & H2 & H3 & _). split; [done|]. by eapply events_found_messages. Qed.

(** A row that takes part in nothing. *)
Definition silent_row (calls : list Call) : Prop :=
  all_hold calls /\ forall k, byte_messages calls = [] /\
  filter (fun m => ~ multiplicity m ≡F 0) (sends k calls) = [] /\
  filter (fun m => ~ multiplicity m ≡F 0) (receives k calls) = [].

(** ** Shared steps *)

Lemma Fred_small x : canon x -> Fred x = x.
Proof. apply Z.mod_small. Qed.

Lemma Fred_0 x : x ≡F 0 -> Fred x = 0.
Proof. done. Qed.

Lemma Fred_eq x y : x ≡F y -> Fred x = Fred y.
Proof. done. Qed.

Lemma word_Fred w : word_canon w -> word_map Fred w = w.
Proof. intros (?&?&?&?). destruct w. cbn in *. unfold word_map. cbn. by rewrite !Fred_small. Qed.

Section Message.
  Context (shard clk pc next_pc extra opcode : Z) (a b c : Word) (x0 imm mem sys halt : Z).
Let vals := instruction_values shard clk pc next_pc extra opcode a b c x0 imm mem sys halt.

Lemma msg_a_eq : msg_a vals = word_map Fred a.
Proof. done. Qed.
Lemma msg_b_eq : msg_b vals = word_map Fred b.
Proof. done. Qed.
Lemma msg_c_eq : msg_c vals = word_map Fred c.
Proof. done. Qed.

(** What the ALU chips fill in. *)
Lemma plain_message_intro : shard = 0 -> clk = 0 -> next_pc = pc + DEFAULT_PC_INC -> extra = 0 ->
  imm = 0 -> mem = 0 -> sys = 0 -> halt = 0 -> plain_message vals.
Proof.
  intros -> -> -> -> -> -> -> ->. unfold plain_message. split_and!; try reflexivity.
  change (Fred (pc + DEFAULT_PC_INC) ≡F Fred pc + DEFAULT_PC_INC).
  by rewrite !Fred_eqF.
Qed.

Lemma alu_message_intro o :
  opcode ≡F opcode_u32 o -> word_canon b -> word_canon c -> word_bytes a ->
  alu_result o (to_u32 b) (to_u32 c) = Some (to_u32 a) -> alu_message vals.
Proof.
  intros Ho Hb Hc Ha Hr. exists o. rewrite msg_a_eq, msg_b_eq, msg_c_eq.
  assert (word_canon a) as Ca by (destruct Ha as (?&?&?&?); repeat split; apply u8_canon; done).
  rewrite !word_Fred by done. split; [|done]. unfold msg_opcode, msg. cbn. rewrite (Fred_eq _ _ Ho).
  by destruct o.
Qed.
Lemma answers_intro os o : In o os -> opcode ≡F opcode_u32 o -> answers os vals.
Proof.
  intros Hin Ho. exists o. split; [done|]. unfold msg_opcode, msg. cbn. rewrite (Fred_eq _ _ Ho). by destruct o.
Qed.
End Message.

Lemma live_cons m l : multiplicity m = 1 ->
  filter (fun m => ~ multiplicity m ≡F 0) (m :: l) = m :: filter (fun m => ~ multiplicity m ≡F 0) l.
Proof. intros E. rewrite filter_cons, decide_True; [done|]. by rewrite E. Qed.

Lemma dead_cons m l : multiplicity m = 0 ->
  filter (fun m => ~ multiplicity m ≡F 0) (m :: l) = filter (fun m => ~ multiplicity m ≡F 0) l.
Proof. intros E. rewrite filter_cons, decide_False; [done|]. rewrite E. intros H. by apply H. Qed.

(** [op_a_0 = 1 - op_a_not_0] is 0. *)
Lemma op_a_0_not x : canon x -> Fred (1 - x) = 0 -> x = 1.
Proof. intros Hx H. unfold canon, Fred in *. apply eqF_small; [|unfold BABYBEAR in *; lia].
  symmetry. by apply eqF_sub_0.
Qed.

(** ** Reading an answered message *)

Lemma opcode_field o o' : opcode_u32 o ≡F opcode_u32 o' -> o = o'.
Proof. destruct o, o'; intros H; try reflexivity; discriminate H. Qed.

(** The instruction the chips send for a fact they need. *)
Definition dep_values (o : Opcode) (a b c : Word) : list Z :=
  instruction_values 0 0 UNUSED_PC (UNUSED_PC + DEFAULT_PC_INC) 0 (opcode_u32 o) a b c 0 0 0 0 0.

Lemma msg_opcode_dep o a b c : msg_opcode (dep_values o a b c) = opcode_u32 o.
Proof. by destruct o. Qed.

Lemma dep_answered o a b c : word_canon a -> word_canon b -> word_canon c ->
  instruction_answered (dep_values o a b c) ->
  (word_bytes b -> word_bytes c -> word_bytes a /\ alu_result o (to_u32 b) (to_u32 c) = Some (to_u32 a)) /\
  (o = ADD -> word_bytes b /\ word_bytes c).
Proof.
  intros Ca Cb Cc H. destruct (H eq_refl) as [H1 H2]. unfold dep_values in H1, H2.
  rewrite msg_b_eq, msg_c_eq, !word_Fred in H1, H2 by done. split.
  - intros Wb Wc. destruct (H1 Wb Wc) as (o' & Eo & Wa & E). rewrite msg_a_eq, msg_b_eq, msg_c_eq, !word_Fred in * by done.
    change (msg_opcode (dep_values o a b c) = opcode_u32 o') in Eo. rewrite msg_opcode_dep in Eo.
    apply (inj opcode_u32) in Eo as <-. done.
  - intros ->. apply H2. exists ADD. split; [by left|done].
Qed.

(** * What the control-flow chips promise

    The counterpart of [ChipSpec] for instructions that set the program counter:
    what a received message says about the instruction, in the terms of the
    executor. *)

(** A message of an instruction that touches no memory, calls no system call
    and does not halt; [imm] says whether it leaves its first operand alone. *)
Definition quiet_message (imm : Z) (vals : list Z) : Prop :=
  length vals = 23%nat /\ msg 0 vals = 0 /\ msg 1 vals = 0 /\ msg 4 vals = 0 /\
  msg 19 vals = imm /\ msg 20 vals = 0 /\ msg 21 vals = 0 /\ msg 22 vals = 0.

(** The branch is taken exactly when its condition holds. *)
Definition branch_message (vals : list Z) : Prop :=
  exists o taken, msg_opcode vals = opcode_u32 o /\
    branch_taken o (to_u32 (msg_a vals)) (to_u32 (msg_b vals)) = Some taken /\
    if taken then msg_next_pc vals = msg_pc vals +u to_u32 (msg_c vals)
    else msg_next_pc vals ≡F msg_pc vals + DEFAULT_PC_INC.

(** The jump goes to its target and links, unless the destination is [x0]. *)
Definition jump_message (vals : list Z) : Prop :=
  (msg_opcode vals = opcode_u32 JAL /\ msg_next_pc vals = msg_pc vals +u to_u32 (msg_b vals) \/
   msg_opcode vals = opcode_u32 JALR /\ msg_next_pc vals = to_u32 (msg_b vals) +u to_u32 (msg_c vals)) /\
  (msg_op_a_0 vals = 0 -> canon (to_u32 (msg_a vals)) /\ to_u32 (msg_a vals) ≡F msg_pc vals + DEFAULT_PC_INC).

Definition auipc_message (vals : list Z) : Prop :=
  msg_opcode vals = opcode_u32 AUIPC /\ msg_next_pc vals ≡F msg_pc vals + DEFAULT_PC_INC /\
  (msg_op_a_0 vals = 0 -> to_u32 (msg_a vals) = msg_pc vals +u to_u32 (msg_b vals)).

(** The promise to the sender, whose operands are words of bytes. *)
Definition instr_receiver (imm : Z) (os : list Opcode) (P : list Z -> Prop) (calls : list Call) : Prop :=
  forall m, m ∈ receives KInstruction calls -> ~ multiplicity m ≡F 0 ->
    quiet_message imm (values m) /\ answers os (values m) /\
    (word_bytes (msg_a (values m)) -> word_bytes (msg_b (values m)) -> word_bytes (msg_c (values m)) -> P (values m)).

(** ** Shared steps *)

Lemma msg_pc_reduce w : word_bytes w -> canon (to_u32 w) -> Fred (reduce w) = to_u32 w.
Proof. intros Hw Hc. rewrite reduce_bytes by done. by apply Fred_small. Qed.

Lemma to_u32_extend_var x : to_u32 (extend_var x) = x.
Proof. unfold to_u32, extend_var, from_le_bytes32. cbn [w0 w1 w2 w3]. lia. Qed.

Lemma extend_var_canon x : canon x -> word_canon (extend_var x).
Proof. intros H. by split_and!. Qed.

Lemma assert_word_eq_canon a b : word_canon a -> word_canon b -> all_hold (assert_word_eq a b) -> a = b.
Proof.
  intros (?&?&?&?) (?&?&?&?) (E0 & E1 & E2 & E3 & _). cbn [holds] in *. apply eqF_canon in E0, E1, E2, E3; try done.
  destruct a as [a0 a1 a2 a3], b as [b0 b1 b2 b3]. cbn in *. congruence.
Qed.

(** A sum that was answered. *)
Lemma sum_answered a b c : word_canon a -> word_canon b -> word_canon c -> instruction_answered (dep_values ADD a b c) ->
  word_bytes a /\ word_bytes b /\ word_bytes c /\ to_u32 a = to_u32 b +u to_u32 c.
Proof.
  intros Ca Cb Cc H. destruct (dep_answered ADD a b c Ca Cb Cc H) as [H1 H2]. destruct (H2 eq_refl) as [Wb Wc].
  destruct (H1 Wb Wc) as [Wa E]. cbn [alu_result] in E. injection E as E. by split_and!.
Qed.

Lemma quiet_message_intro pc next_pc opcode a b c x0 imm : canon imm ->
  quiet_message imm (instruction_values 0 0 pc next_pc 0 opcode a b c x0 imm 0 0 0).
Proof. intros Hi. split_and!; try reflexivity. by apply Fred_small. Qed.

(** ** Rows of events *)

(** The row passes, receives the message, sends the byte lookups recorded and
    the instructions it relies on. *)
Definition instr_row (vals : list Z) (deps : list AluEvent) (calls : list Call) (evs : list ByteLookupEvent) : Prop :=
  all_hold calls /\ byte_messages calls ≡ₚ map event_values evs /\ Forall event_found evs /\
  (exists m, received_messages calls = [m] /\ multiplicity m = 1 /\ same_values (values m) vals) /\
  map values (filter (fun m => ~ multiplicity m ≡F 0) (sends KInstruction calls)) ≡ₚ map event_message deps.

Lemma dep_event_message o a b c : event_message (dep_event o a b c) = dep_values o (word_from a) (word_from b) (word_from c).
Proof. done. Qed.

Lemma word_from_bool x : word_from (Z.b2z x) = extend_var (from_bool x).
Proof. by destruct x. Qed.

Lemma reduce_word_from x : is_u32 x -> reduce (word_from x) = x.
Proof. intros Hx. rewrite reduce_bytes by apply word_from_bytes. by apply to_u32_word_from. Qed.

Lemma canon_u32 x : canon x -> is_u32 x.
Proof. unfold canon, BABYBEAR. rewrite is_u32_iff. lia. Qed.

Lemma from_bool_holds x : holds (AssertBool (from_bool x)).
Proof. destruct x; [by right|by left]. Qed.

Lemma byte_messages_sends calls calls' : sends KByte calls = sends KByte calls' -> byte_messages calls = byte_messages calls'.
Proof. unfold byte_messages. by intros ->. Qed.

(** Discharges constraints behind selectors with known values. *)
Ltac decide_when :=
  rewrite ?all_hold_when;
  try (let Hz := fresh in intros Hz; first [exfalso; apply Hz; reflexivity | clear Hz]).
