(* ===== verification/AddSubChip.v ===== *)
(** * The AddSub chip (crates/core/machine/src/alu/add_sub/mod.rs)

    One row per ADD or SUB: a SUB row adds the result and the second operand
    and receives the message with the sum as first operand. *)

From Stdlib Require Import ZArith Lia Bool.
From stdpp Require Import base list.
From S2P Require Import Prelude Isa Events ByteLookup Alu Dependencies State AirBuilder ByteTable Operations ChipSpec.

Local Open Scope Z_scope.
Local Open Scope rv_scope.

Module AddSubChip.
Record AddSubCols : Type := mkAddSubCols {
  pc : Z;
  add_operation : AddOperation.AddOperation;
  operand_1 : Word;
  operand_2 : Word;
  op_a_not_0 : Z;
  is_add : Z;
  is_sub : Z
}.

(** A zeroed row. *)
Definition default : AddSubCols :=
  mkAddSubCols 0 AddOperation.default word_zero word_zero 0 0 0.

Definition event_to_row {R} `{ByteRecord R} (event : AluEvent) (cols : AddSubCols) (blu : R)
    : AddSubCols * R :=
  let is_add := bool_decide (alu_opcode event = ADD) in
  let operand_1 := if is_add then alu_b event else alu_a event in
  let operand_2 := alu_c event in
  let '(op, blu, _) := AddOperation.populate (add_operation cols) blu operand_1 operand_2 in
  (mkAddSubCols (Fred (alu_pc event)) op (word_from operand_1) (word_from operand_2)
     (from_bool (negb (alu_op_a_0 event))) (from_bool is_add) (from_bool (negb is_add)), blu).

Definition eval (local : AddSubCols) : list Call :=
  let is_real := is_add local + is_sub local in
  let opcode := opcode_u32 ADD * is_add local + opcode_u32 SUB * is_sub local in
  [AssertBool (is_add local); AssertBool (is_sub local); AssertBool is_real] ++
  AddOperation.eval (operand_1 local) (operand_2 local) (add_operation local) (op_a_not_0 local) ++
  when (op_a_not_0 local) [AssertOne is_real] ++
  receive_instruction 0 0 (pc local) (pc local + DEFAULT_PC_INC) 0 opcode
    (AddOperation.value (add_operation local)) (operand_1 local) (operand_2 local)
    (1 - op_a_not_0 local) 0 0 0 0 (is_add local) ++
  receive_instruction 0 0 (pc local) (pc local + DEFAULT_PC_INC) 0 opcode
    (operand_1 local) (AddOperation.value (add_operation local)) (operand_2 local)
    (1 - op_a_not_0 local) 0 0 0 0 (is_sub local).

(** A row of field elements. *)
Definition wf (r : AddSubCols) : Prop :=
  canon (pc r) /\ AddOperation.wf (add_operation r) /\ word_canon (operand_1 r) /\
  word_canon (operand_2 r) /\ canon (op_a_not_0 r) /\ canon (is_add r) /\ canon (is_sub r).
End AddSubChip.

Lemma wadd_sub x y : is_u32 x -> is_u32 y -> (x +u y) -u y = x.
Proof. rewrite !is_u32_iff. intros. unfold wadd, wsub. rewrite !u32_mod. Z.div_mod_to_equations. lia. Qed.

Lemma wsub_add x y : is_u32 x -> is_u32 y -> (x -u y) +u y = x.
Proof. rewrite !is_u32_iff. intros. unfold wadd, wsub. rewrite !u32_mod. Z.div_mod_to_equations. lia. Qed.

Section Sound.
  Context (r : AddSubChip.AddSubCols) (Hwf : AddSubChip.wf r) (Hok : row_ok (AddSubChip.eval r)).

Lemma add_sub_sound m : m ∈ receives KInstruction (AddSubChip.eval r) -> ~ multiplicity m ≡F 0 ->
  plain_message (values m) /\ answers [ADD; SUB] (values m) /\
  (msg_op_a_0 (values m) = 0 ->
   word_bytes (msg_b (values m)) /\ word_bytes (msg_c (values m)) /\ alu_message (values m)).
Proof using Hwf Hok.
  destruct Hwf as (Hpc & Hop & H1 & H2 & Hn & Ha & Hs).
  unfold AddSubChip.eval in Hok. rewrite !row_ok_app in Hok. destruct Hok as (Hsel & Hadd & Hpad & _).
  destruct Hsel as [(B1 & B2 & B3 & _) _]. cbn [holds] in B1, B2, B3.
  apply bool_canon in B1; [|done]. apply bool_canon in B2; [|done].
  destruct Hpad as [Hpad _]. rewrite all_hold_when in Hpad.
  set (op := opcode_u32 ADD * AddSubChip.is_add r + opcode_u32 SUB * AddSubChip.is_sub r).
  assert (~ (AddSubChip.is_add r = 1 /\ AddSubChip.is_sub r = 1)) as Hexcl.
  { intros [E1 E2]. rewrite E1, E2 in B3. destruct B3; discriminate. }
  assert (Fred (1 - AddSubChip.op_a_not_0 r) = 0 ->
    word_bytes (AddSubChip.operand_1 r) /\ word_bytes (AddSubChip.operand_2 r) /\
    word_bytes (AddOperation.value (AddSubChip.add_operation r)) /\
    to_u32 (AddOperation.value (AddSubChip.add_operation r)) =
      to_u32 (AddSubChip.operand_1 r) +u to_u32 (AddSubChip.operand_2 r)) as Hsum.
  { intros H0. apply (add_operation_sound _ _ _ (AddSubChip.op_a_not_0 r)); try done.
    intros Hz. unfold Fred in H0. assert (1 - AddSubChip.op_a_not_0 r ≡F 0) as H0' by done.
    rewrite Hz in H0'. discriminate H0'. }
  assert (receives KInstruction (AddSubChip.eval r) = [
    mkAirInteraction (instruction_values 0 0 (AddSubChip.pc r) (AddSubChip.pc r + DEFAULT_PC_INC) 0 op
      (AddOperation.value (AddSubChip.add_operation r)) (AddSubChip.operand_1 r) (AddSubChip.operand_2 r)
      (1 - AddSubChip.op_a_not_0 r) 0 0 0 0) (AddSubChip.is_add r) KInstruction;
    mkAirInteraction (instruction_values 0 0 (AddSubChip.pc r) (AddSubChip.pc r + DEFAULT_PC_INC) 0 op
      (AddSubChip.operand_1 r) (AddOperation.value (AddSubChip.add_operation r)) (AddSubChip.operand_2 r)
      (1 - AddSubChip.op_a_not_0 r) 0 0 0 0) (AddSubChip.is_sub r) KInstruction]) as Hrec by reflexivity.
  destruct Hop as (Hv & _).
  intros Hm Hmult. rewrite Hrec in Hm. rewrite !elem_of_cons in Hm.
  destruct Hm as [->|[->|Hm]]; [| |by apply not_elem_of_nil in Hm]; cbn [multiplicity values] in *;
    apply not_zero_one in Hmult; try done;
    (split; [by apply plain_message_intro|]).
  - assert (op = opcode_u32 ADD) as Eop by (subst op; cbn; lia).
    split; [eapply (answers_intro); [by left|]; by rewrite Eop|].
    intros H0. destruct (Hsum H0) as (W1 & W2 & W3 & E). rewrite msg_b_eq, msg_c_eq, !word_Fred by done.
    do 2 (split; [done|]). apply (alu_message_intro _ _ _ _ _ _ _ _ _ _ _ _ _ _ ADD); try done; [by rewrite Eop|].
    cbn [alu_result]. by rewrite E.
  - assert (op = opcode_u32 SUB) as Eop by (subst op; cbn; lia).
    split; [eapply (answers_intro); [by right; left|]; by rewrite Eop|].
    intros H0. destruct (Hsum H0) as (W1 & W2 & W3 & E). rewrite msg_b_eq, msg_c_eq, !word_Fred by done.
    do 2 (split; [done|]). apply (alu_message_intro _ _ _ _ _ _ _ _ _ _ _ _ _ _ SUB); try done; [by rewrite Eop|].
    cbn [alu_result]. f_equal. rewrite E. apply wadd_sub; by apply to_u32_range.
Qed.

Lemma add_sub_receiver : alu_receiver [ADD; SUB] (AddSubChip.eval r).
Proof using Hwf Hok.
  intros m Hm Hmult. destruct (add_sub_sound m Hm Hmult) as (H1 & H2 & H3). do 2 (split; [done|]).
  intros H0 _ _. by apply H3.
Qed.

(** The sum gadget range checks its operands. *)
Lemma add_sub_checks : checks_operands (AddSubChip.eval r).
Proof using Hwf Hok. intros m Hm Hmult H0. destruct (add_sub_sound m Hm Hmult) as (_ & _ & H3). by apply H3 in H0 as (?&?&?). Qed.
End Sound.

(** ** Rows of events *)

Definition add_sub_events (e : AluEvent) : list ByteLookupEvent :=
  add_events_of (if bool_decide (alu_opcode e = ADD) then alu_b e else alu_a e) (alu_c e).

Lemma add_events_found a b : Forall event_found (add_events_of a b).
Proof.
  unfold add_events_of. rewrite !Forall_app.
  split_and!; apply u8_pairs_found, limbs_bytes, word_from_bytes.
Qed.

Section Rows.
  Context {R} `{ByteRecord R} (e : AluEvent) (r : R).
  Context (Ho : alu_opcode e = ADD \/ alu_opcode e = SUB) (He : alu_event_ok e).

(** What [event_to_row] fills in, whatever the destination. *)
Lemma add_sub_event_row :
  let '(cols, r') := AddSubChip.event_to_row e AddSubChip.default r in
  let op1 := if bool_decide (alu_opcode e = ADD) then alu_b e else alu_a e in
  AddSubChip.wf cols /\ r' = add_byte_lookup_events (add_sub_events e) r /\
  all_hold (AddSubChip.eval cols) /\
  byte_messages (AddSubChip.eval cols) = (if alu_op_a_0 e then [] else map event_values (add_sub_events e)) /\
  AddSubChip.operand_1 cols = word_from op1 /\
  AddOperation.value (AddSubChip.add_operation cols) = word_from (op1 +u alu_c e).
Proof using Ho He.
  destruct He as (Hb & Hc & Ha).
  assert (is_u32 (alu_a e)) as Hau.
  { destruct (alu_op_a_0 e); [rewrite Ha; done|]. exact (alu_result_range _ _ _ _ Hb Hc Ha). }
  unfold AddSubChip.event_to_row. set (op1 := if bool_decide _ then alu_b e else alu_a e).
  assert (is_u32 op1) as H1 by (subst op1; by destruct (bool_decide _)).
  pose proof (add_operation_complete r op1 (alu_c e) (from_bool (negb (alu_op_a_0 e))) H1 Hc
    ltac:(destruct (alu_op_a_0 e); auto)) as Hadd.
  cbn [AddSubChip.add_operation AddSubChip.default].
  destruct (AddOperation.populate _ r op1 (alu_c e)) as [[cols r'] v].
  destruct Hadd as (W & -> & V & Er & A & M).
  split_and!; try done; cbn [AddSubChip.wf].
  - unfold AddSubChip.wf. cbn [AddSubChip.pc AddSubChip.add_operation AddSubChip.operand_1 AddSubChip.operand_2
      AddSubChip.op_a_not_0 AddSubChip.is_add AddSubChip.is_sub]. split_and!; auto with rvbound.
  - unfold AddSubChip.eval. rewrite !all_hold_app. cbn [AddSubChip.is_add AddSubChip.is_sub AddSubChip.op_a_not_0].
    split_and!; [|exact A| |by split|by split].
    + cbn [all_hold holds]. destruct (bool_decide _); cbn [from_bool negb]; split_and!;
        first [left; reflexivity|right; reflexivity|exact I].
    + apply all_hold_when. intros _. cbn [all_hold holds]. split; [|done]. by destruct (bool_decide _).
  - unfold AddSubChip.eval. rewrite !byte_messages_app, byte_messages_when by repeat constructor.
    cbn [AddSubChip.operand_1 AddSubChip.operand_2 AddSubChip.add_operation AddSubChip.op_a_not_0].
    rewrite M. cbn. rewrite app_nil_r. by destruct (alu_op_a_0 e).
Qed.
End Rows.

Lemma add_sub_received (cols : AddSubChip.AddSubCols) (is_add : bool) (z : bool) :
  AddSubChip.is_add cols = from_bool is_add -> AddSubChip.is_sub cols = from_bool (negb is_add) ->
  AddSubChip.op_a_not_0 cols = from_bool (negb z) ->
  exists m, received_messages (AddSubChip.eval cols) = [m] /\ multiplicity m = 1 /\
    values m = instruction_values 0 0 (AddSubChip.pc cols) (AddSubChip.pc cols + DEFAULT_PC_INC) 0
      (if is_add then 0 else 1)
      (if is_add then AddOperation.value (AddSubChip.add_operation cols) else AddSubChip.operand_1 cols)
      (if is_add then AddSubChip.operand_1 cols else AddOperation.value (AddSubChip.add_operation cols))
      (AddSubChip.operand_2 cols) (from_bool z) 0 0 0 0.
Proof.
  intros E1 E2 E3. unfold received_messages.
  assert (receives KInstruction (AddSubChip.eval cols) = [
    mkAirInteraction (instruction_values 0 0 (AddSubChip.pc cols) (AddSubChip.pc cols + DEFAULT_PC_INC) 0
      (opcode_u32 ADD * AddSubChip.is_add cols + opcode_u32 SUB * AddSubChip.is_sub cols)
      (AddOperation.value (AddSubChip.add_operation cols)) (AddSubChip.operand_1 cols) (AddSubChip.operand_2 cols)
      (1 - AddSubChip.op_a_not_0 cols) 0 0 0 0) (AddSubChip.is_add cols) KInstruction;
    mkAirInteraction (instruction_values 0 0 (AddSubChip.pc cols) (AddSubChip.pc cols + DEFAULT_PC_INC) 0
      (opcode_u32 ADD * AddSubChip.is_add cols + opcode_u32 SUB * AddSubChip.is_sub cols)
      (AddSubChip.operand_1 cols) (AddOperation.value (AddSubChip.add_operation cols)) (AddSubChip.operand_2 cols)
      (1 - AddSubChip.op_a_not_0 cols) 0 0 0 0) (AddSubChip.is_sub cols) KInstruction]) as -> by reflexivity.
  rewrite E1, E2, E3. destruct is_add; cbn [from_bool negb].
  - rewrite live_cons, dead_cons by done. eexists. split; [reflexivity|]. split; [done|]. by destruct z.
  - rewrite dead_cons, live_cons by done. eexists. split; [reflexivity|]. split; [done|]. by destruct z.
Qed.

Section Claims.
  Context {R} `{ByteRecord R} (e : AluEvent) (r : R).
  Context (Ho : alu_opcode e = ADD \/ alu_opcode e = SUB) (He : alu_event_ok e).

Lemma add_sub_row : alu_op_a_0 e = false ->
  let '(cols, r') := AddSubChip.event_to_row e AddSubChip.default r in
  AddSubChip.wf cols /\ r' = add_byte_lookup_events (add_sub_events e) r /\
  row_of_event e (AddSubChip.eval cols) (add_sub_events e).
Proof using Ho He.
  intros Hz. pose proof (add_sub_event_row e r Ho He) as Hrow.
  pose proof (add_sub_received (fst (AddSubChip.event_to_row e AddSubChip.default r))
    (bool_decide (alu_opcode e = ADD)) (alu_op_a_0 e)) as Hrec.
  assert (AddSubChip.is_add (fst (AddSubChip.event_to_row e AddSubChip.default r)) =
    from_bool (bool_decide (alu_opcode e = ADD))) as S1.
  { unfold AddSubChip.event_to_row. by destruct (AddOperation.populate _ _ _ _) as [[??]?]. }
  assert (AddSubChip.is_sub (fst (AddSubChip.event_to_row e AddSubChip.default r)) =
    from_bool (negb (bool_decide (alu_opcode e = ADD)))) as S2.
  { unfold AddSubChip.event_to_row. by destruct (AddOperation.populate _ _ _ _) as [[??]?]. }
  assert (AddSubChip.op_a_not_0 (fst (AddSubChip.event_to_row e AddSubChip.default r)) =
    from_bool (negb (alu_op_a_0 e)) /\
    AddSubChip.pc (fst (AddSubChip.event_to_row e AddSubChip.default r)) = Fred (alu_pc e) /\
    AddSubChip.operand_2 (fst (AddSubChip.event_to_row e AddSubChip.default r)) = word_from (alu_c e)) as (S3 & S4 & S5).
  { unfold AddSubChip.event_to_row. by destruct (AddOperation.populate _ _ _ _) as [[??]?]. }
  specialize (Hrec S1 S2 S3). destruct (AddSubChip.event_to_row e AddSubChip.default r) as [cols r'].
  cbn [fst] in *. destruct Hrow as (W & Er & A & M & O1 & V). do 2 (split; [done|]).
  destruct Hrec as (m & Hm1 & Hm2 & Hm3).
  split_and!; [done| |apply add_events_found|].
  - rewrite M, Hz. done.
  - exists m. do 2 (split; [done|]). rewrite Hm3, S4, S5, O1, V. unfold event_message.
    destruct He as (Hb & Hc & Ha). rewrite Hz in Ha.
    destruct Ho as [E|E]; rewrite E in *; cbn [alu_result] in Ha; injection Ha as Ha.
    + rewrite bool_decide_eq_true_2, Ha by done. done.
    + rewrite bool_decide_eq_false_2 by done. rewrite <- Ha. by rewrite wsub_add.
Qed.
End Claims.
