(* ===== verification/BitwiseChip.v ===== *)
(** * The Bitwise chip (crates/core/machine/src/alu/bitwise/mod.rs)

    One row per XOR, OR or AND; the four byte lookups of a row are the whole
    constraint on its result. *)

From Stdlib Require Import ZArith Lia Bool.
From stdpp Require Import base list.
From S2P Require Import Prelude Isa Events ByteLookup Alu Dependencies State AirBuilder ByteTable ChipSpec.

Local Open Scope Z_scope.
Local Open Scope rv_scope.

Module BitwiseChip.
Record BitwiseCols : Type := mkBitwiseCols {
  pc : Z; a : Word; b : Word; c : Word; op_a_not_0 : Z; is_xor : Z; is_or : Z; is_and : Z
}.

Definition default : BitwiseCols := mkBitwiseCols 0 word_zero word_zero word_zero 0 0 0 0.

(** The lookups of a row; [None]: [ByteOpcode::from] panics. *)
Definition row_events (event : AluEvent) : option (list ByteLookupEvent) :=
  if alu_op_a_0 event then Some []
  else
    o ← ByteOpcode.from_opcode (alu_opcode event);
    Some (map (fun '(b_a, b_b, b_c) => mkByteLookupEvent o b_a 0 b_b b_c)
      (zip (zip (limbs (word_from (alu_a event))) (limbs (word_from (alu_b event))))
           (limbs (word_from (alu_c event))))).

Definition event_to_row {R} `{ByteRecord R} (event : AluEvent) (blu : R) : option (BitwiseCols * R) :=
  evs ← row_events event;
  Some (mkBitwiseCols (Fred (alu_pc event))
          (word_from (alu_a event)) (word_from (alu_b event)) (word_from (alu_c event))
          (from_bool (negb (alu_op_a_0 event)))
          (from_bool (bool_decide (alu_opcode event = XOR)))
          (from_bool (bool_decide (alu_opcode event = OR)))
          (from_bool (bool_decide (alu_opcode event = AND))),
        fold_left (fun r e => add_byte_lookup_event e r) evs blu).

Definition eval (local : BitwiseCols) : list Call :=
  let opcode := is_xor local * ByteOpcode.as_u8 ByteOpcode.XOR
    + is_or local * ByteOpcode.as_u8 ByteOpcode.OR + is_and local * ByteOpcode.as_u8 ByteOpcode.AND in
  let mult := is_xor local + is_or local + is_and local in
  let cpu_opcode := is_xor local * opcode_u32 XOR + is_or local * opcode_u32 OR
    + is_and local * opcode_u32 AND in
  flat_map (fun '(x, y, z) => send_byte opcode x y z (op_a_not_0 local))
    (zip (zip (limbs (a local)) (limbs (b local))) (limbs (c local))) ++
  when (op_a_not_0 local) [AssertOne mult] ++
  receive_instruction 0 0 (pc local) (pc local + DEFAULT_PC_INC) 0 cpu_opcode (a local) (b local) (c local)
    (1 - op_a_not_0 local) 0 0 0 0 (is_xor local + is_or local + is_and local) ++
  [AssertBool (is_xor local); AssertBool (is_or local); AssertBool (is_and local);
   AssertBool (is_xor local + is_or local + is_and local)].

Definition wf (r : BitwiseCols) : Prop :=
  canon (pc r) /\ word_canon (a r) /\ word_canon (b r) /\ word_canon (c r) /\ canon (op_a_not_0 r) /\
  canon (is_xor r) /\ canon (is_or r) /\ canon (is_and r).
End BitwiseChip.

(** ** Bytes of bitwise results *)

Section Bytewise.
  Context (f : Z -> Z -> Z) (g : bool -> bool -> bool).
  Context (Hf : forall x y n, Z.testbit (f x y) n = g (Z.testbit x n) (Z.testbit y n)).
  Context (Hnn : forall x y, 0 <= x -> 0 <= y -> 0 <= f x y).
  Context (Hg : g false false = false).

Lemma bitwise_u8 x k y : u8 (Z.shiftr (f x y) k) = f (u8 (Z.shiftr x k)) (u8 (Z.shiftr y k)).
Proof using Hf Hg.
  apply Z.bits_inj'. intros n Hn. rewrite Hf. unfold u8, wrap.
  destruct (Z.lt_ge_cases n 8).
  - rewrite !Z.mod_pow2_bits_low by lia. rewrite !Z.shiftr_spec by lia. apply Hf.
  - rewrite !Z.mod_pow2_bits_high by lia. done.
Qed.

Lemma word_from_bitwise x y :
  word_from (f x y) =
  mkWord (f (word_from x).[0] (word_from y).[0]) (f (word_from x).[1] (word_from y).[1])
         (f (word_from x).[2] (word_from y).[2]) (f (word_from x).[3] (word_from y).[3]).
Proof using Hf Hg.
  unfold word_from. cbn [widx w0 w1 w2 w3]. f_equal; try apply bitwise_u8.
  pose proof (bitwise_u8 x 0 y) as H. by rewrite !Z.shiftr_0_r in H.
Qed.

Lemma to_u32_bitwise v x y :
  word_bytes x -> word_bytes y -> is_u32 (f (to_u32 x) (to_u32 y)) ->
  v = mkWord (f x.[0] y.[0]) (f x.[1] y.[1]) (f x.[2] y.[2]) (f x.[3] y.[3]) ->
  f (to_u32 x) (to_u32 y) = to_u32 v /\ word_bytes v.
Proof using Hf Hg.
  intros Hx Hy Hr ->. pose proof (word_from_bitwise (to_u32 x) (to_u32 y)) as E.
  rewrite !word_from_to_u32 in E by done. rewrite <- E.
  split; [by rewrite to_u32_word_from|apply word_from_bytes].
Qed.
End Bytewise.

Import BitwiseChip.

(** The byte operation a row selects. *)
Definition byte_fun (o : Opcode) : Z -> Z -> Z :=
  match o with XOR => Z.lxor | OR => Z.lor | _ => Z.land end.

Lemma byte_fun_words o v x y : In o [XOR; OR; AND] -> word_bytes x -> word_bytes y ->
  v = mkWord (byte_fun o x.[0] y.[0]) (byte_fun o x.[1] y.[1]) (byte_fun o x.[2] y.[2]) (byte_fun o x.[3] y.[3]) ->
  alu_result o (to_u32 x) (to_u32 y) = Some (to_u32 v) /\ word_bytes v.
Proof.
  intros Hin Hx Hy ->. pose proof (to_u32_range x Hx). pose proof (to_u32_range y Hy).
  destruct Hin as [<-|[<-|[<-|[]]]]; cbn [alu_result byte_fun].
  - destruct (to_u32_bitwise Z.lxor xorb Z.lxor_spec eq_refl _ x y Hx Hy ltac:(by apply lxor_u32) eq_refl) as [-> ?].
    by split.
  - destruct (to_u32_bitwise Z.lor orb Z.lor_spec eq_refl _ x y Hx Hy ltac:(by apply lor_u32) eq_refl) as [-> ?].
    by split.
  - destruct (to_u32_bitwise Z.land andb Z.land_spec eq_refl _ x y Hx Hy ltac:(by apply land_u32) eq_refl) as [-> ?].
    by split.
Qed.

(** The byte opcode of a selected operation, and its lookup. *)
Definition byte_op (o : Opcode) : ByteOpcode.t :=
  match o with XOR => ByteOpcode.XOR | OR => ByteOpcode.OR | _ => ByteOpcode.AND end.

Lemma byte_op_found o x y z : In o [XOR; OR; AND] -> canon x -> canon y -> canon z ->
  in_byte_table [ByteOpcode.as_u8 (byte_op o); x; 0; y; z] -> is_u8 y /\ is_u8 z /\ x = byte_fun o y z.
Proof.
  intros [<-|[<-|[<-|[]]]] ???; cbn [byte_op byte_fun].
  - by apply xor_found.
  - by apply or_found.
  - by apply and_found.
Qed.

Section Sound.
  Context (r : BitwiseCols) (Hwf : wf r) (Hok : row_ok (eval r)).

(** Exactly one selector is on in a row with a nonzero multiplicity. *)
Lemma bitwise_selected : ~ is_xor r + is_or r + is_and r ≡F 0 ->
  exists o, In o [XOR; OR; AND] /\
    is_xor r * opcode_u32 XOR + is_or r * opcode_u32 OR + is_and r * opcode_u32 AND = opcode_u32 o /\
    is_xor r * ByteOpcode.as_u8 ByteOpcode.XOR + is_or r * ByteOpcode.as_u8 ByteOpcode.OR
      + is_and r * ByteOpcode.as_u8 ByteOpcode.AND = ByteOpcode.as_u8 (byte_op o).
Proof using Hwf Hok.
  intros Hm. destruct Hwf as (_ & _ & _ & _ & _ & H1 & H2 & H3).
  unfold eval in Hok. rewrite !row_ok_app in Hok. destruct Hok as (_ & _ & _ & [(B1 & B2 & B3 & B4 & _) _]).
  cbn [holds] in *. apply bool_canon in B1, B2, B3; try done.
  destruct B1 as [E1|E1], B2 as [E2|E2], B3 as [E3|E3]; rewrite E1, E2, E3 in *;
    try (destruct B4; discriminate); [by destruct Hm|exists AND|exists OR|exists XOR]; cbn; auto.
Qed.

Lemma bitwise_receiver : alu_receiver [XOR; OR; AND] (eval r).
Proof using Hwf Hok.
  pose proof bitwise_selected as Hsel. destruct Hwf as (Hpc & Ha & Hb & Hc & Hn & _).
  intros m Hm Hmult.
  assert (receives KInstruction (eval r) = [
    mkAirInteraction (instruction_values 0 0 (pc r) (pc r + DEFAULT_PC_INC) 0
      (is_xor r * opcode_u32 XOR + is_or r * opcode_u32 OR + is_and r * opcode_u32 AND) (a r) (b r) (c r)
      (1 - op_a_not_0 r) 0 0 0 0) (is_xor r + is_or r + is_and r) KInstruction]) as Hrec by reflexivity.
  rewrite Hrec in Hm. apply list_elem_of_singleton in Hm as ->. cbn [multiplicity values] in *.
  destruct (Hsel Hmult) as (o & Hin & Eo & Eb). split; [by apply plain_message_intro|].
  split; [eapply answers_intro; [done|]; by rewrite Eo|].
  intros H0 _ _.
  assert (~ op_a_not_0 r ≡F 0) as Hn0.
  { intros Hz. assert (1 - op_a_not_0 r ≡F 0) as H0' by done. rewrite Hz in H0'. discriminate H0'. }
  unfold eval in Hok. rewrite !row_ok_app in Hok. destruct Hok as ([_ Hf] & _).
  rewrite Eb in Hf. cbn [zip zip_with limbs flat_map send_byte send_byte_pair app bytes_found call_found kind
    multiplicity values] in Hf. destruct Hf as (F0 & F1 & F2 & F3 & _).
  destruct Ha as (A0 & A1 & A2 & A3), Hb as (B0 & B1 & B2 & B3), Hc as (C0 & C1 & C2 & C3).
  apply (byte_op_found o) in F0 as (Y0 & Z0 & E0), F1 as (Y1 & Z1 & E1), F2 as (Y2 & Z2 & E2), F3 as (Y3 & Z3 & E3); try done.
  destruct (byte_fun_words o (a r) (b r) (c r)) as [Hr Hba]; [done..| |].
  { destruct (a r). cbn in *. by rewrite E0, E1, E2, E3. }
  apply (alu_message_intro _ _ _ _ _ _ _ _ _ _ _ _ _ _ o); try done. by rewrite Eo.
Qed.
End Sound.

(** ** Rows of events *)

Lemma byte_fun_result o x y v : In o [XOR; OR; AND] -> is_u32 x -> is_u32 y -> alu_result o x y = Some v ->
  word_from v = mkWord (byte_fun o (word_from x).[0] (word_from y).[0]) (byte_fun o (word_from x).[1] (word_from y).[1])
    (byte_fun o (word_from x).[2] (word_from y).[2]) (byte_fun o (word_from x).[3] (word_from y).[3]).
Proof.
  intros Hin Hx Hy Hv. match goal with |- _ = ?w =>
    destruct (byte_fun_words o w (word_from x) (word_from y) Hin) as [Hr Hb]; [apply word_from_bytes..|reflexivity|] end.
  rewrite !to_u32_word_from, Hv in Hr by done. injection Hr as ->. by rewrite word_from_to_u32.
Qed.

Lemma byte_fun_found o x y : In o [XOR; OR; AND] -> is_u8 x -> is_u8 y ->
  event_found (mkByteLookupEvent (byte_op o) (byte_fun o x y) 0 x y).
Proof.
  intros Hin Hx Hy. apply (event_found_intro _ x y); [done..|]. unfold ByteChip.row.
  destruct (ByteChip.shr_carry x y). by destruct Hin as [<-|[<-|[<-|[]]]].
Qed.

Section Rows.
  Context {R} `{ByteRecord R} (e : AluEvent) (r : R).
  Context (Ho : In (alu_opcode e) [XOR; OR; AND]) (He : alu_event_ok e).

Lemma bitwise_row : exists cols evs,
  event_to_row e r = Some (cols, add_byte_lookup_events evs r) /\ wf cols /\ row_of_event e (eval cols) evs.
Proof using Ho He.
  destruct He as (Hb & Hc & Ha). unfold event_to_row.
  assert (exists evs, row_events e = Some evs /\ Forall event_found evs /\
    map event_values evs = if alu_op_a_0 e then [] else
      map (fun '(x, y, z) => [ByteOpcode.as_u8 (byte_op (alu_opcode e)); x; 0; y; z])
      (zip (zip (limbs (word_from (alu_a e))) (limbs (word_from (alu_b e)))) (limbs (word_from (alu_c e)))))
    as (evs & Eevs & Fevs & Mevs).
  { unfold row_events. destruct (alu_op_a_0 e); [by exists []|].
    assert (ByteOpcode.from_opcode (alu_opcode e) = Some (byte_op (alu_opcode e))) as ->
      by (by destruct Ho as [<-|[<-|[<-|[]]]]).
    cbn [mbind option_bind]. eexists. split; [reflexivity|]. split; [|reflexivity].
    apply byte_fun_result in Ha; [|done..]. rewrite Ha.
    pose proof (word_from_bytes (alu_b e)) as (B0 & B1 & B2 & B3).
    pose proof (word_from_bytes (alu_c e)) as (C0 & C1 & C2 & C3).
    cbn [limbs zip zip_with map w0 w1 w2 w3 widx]. rewrite !Forall_cons. split_and!; try by apply byte_fun_found. done. }
  rewrite Eevs. cbn [mbind option_bind]. eexists _, evs. split; [reflexivity|].
  split; [unfold wf; cbn [pc a b c op_a_not_0 is_xor is_or is_and]; split_and!; auto with rvbound|].
  unfold row_of_event, eval. cbn [pc a b c op_a_not_0 is_xor is_or is_and].
  unfold event_message. set (o := alu_opcode e) in *. clearbody o.
  split_and!; [| |done|].
  - destruct Ho as [<-|[<-|[<-|[]]]]; cbn; repeat split; auto; try (left; reflexivity); right; reflexivity.
  - rewrite Mevs, !byte_messages_app, byte_messages_when by repeat constructor.
    destruct (alu_op_a_0 e); destruct Ho as [<-|[<-|[<-|[]]]]; reflexivity.
  - destruct Ho as [<-|[<-|[<-|[]]]]; eexists; unfold received_messages; cbn; (split; [reflexivity|]);
      (split; [reflexivity|]); by destruct (alu_op_a_0 e).
Qed.
End Rows.
