(* ===== verification/LtChip.v ===== *)
(** * The Lt chip (crates/core/machine/src/alu/lt/mod.rs)

    One row per SLT or SLTU.  The row marks the most significant byte at which
    the operands differ, for SLT without their sign bits, looks that pair up
    and combines the outcome with the signs. *)

From Stdlib Require Import ZArith Lia Bool.
From stdpp Require Import base list.
From S2P Require Import Prelude Isa Events ByteLookup Alu Dependencies State AirBuilder ByteTable ChipSpec.

Local Open Scope Z_scope.
Local Open Scope rv_scope.

Module LtChip.
Record LtCols : Type := mkLtCols {
  pc : Z; is_slt : Z; is_sltu : Z; a : Z; b : Word; c : Word; op_a_not_0 : Z;
  byte_flags : Word; b_masked : Z; c_masked : Z; not_eq_inv : Z; msb_b : Z; msb_c : Z;
  bit_b : Z; bit_c : Z; sltu : Z; is_comp_eq : Z; is_sign_eq : Z;
  comparison_bytes : Z * Z; byte_equality_check : Word
}.

Definition set_byte (w : Word) (i : nat) (x : Z) : Word :=
  match i with
  | O => mkWord x (w1 w) (w2 w) (w3 w) | 1%nat => mkWord (w0 w) x (w2 w) (w3 w)
  | 2%nat => mkWord (w0 w) (w1 w) x (w3 w) | _ => mkWord (w0 w) (w1 w) (w2 w) x
  end.

(** [<] on arrays of bytes. *)
Fixpoint lex_lt (l l' : list Z) : bool :=
  match l, l' with
  | x :: l, y :: l' => if x =? y then lex_lt l l' else x <? y
  | [], _ :: _ => true
  | _, [] => false
  end.

(** The loop over the bytes from the most significant: the first index where
    they differ. *)
Definition first_diff (b_comp c_comp : Word) : option nat :=
  find (fun i => negb (c_comp.[i] =? b_comp.[i])) [3%nat; 2%nat; 1%nat; 0%nat].

(** [None]: the assertion on [cols.a] fails. *)
Definition event_to_row {R} `{ByteRecord R} (event : AluEvent) (blu : R) : option (LtCols * R) :=
  let a := word_from (alu_a event) in
  let b := word_from (alu_b event) in
  let c := word_from (alu_c event) in
  let masked_b := Z.land b.[3] 0x7f in
  let masked_c := Z.land c.[3] 0x7f in
  let blu := add_byte_lookup_event (mkByteLookupEvent ByteOpcode.AND masked_b 0 b.[3] 0x7f) blu in
  let blu := add_byte_lookup_event (mkByteLookupEvent ByteOpcode.AND masked_c 0 c.[3] 0x7f) blu in
  let is_slt := bool_decide (alu_opcode event = SLT) in
  let b_comp := if is_slt then set_byte b 3 masked_b else b in
  let c_comp := if is_slt then set_byte c 3 masked_c else c in
  let sltu := from_bool (lex_lt (limbs b_comp) (limbs c_comp)) in
  let is_comp_eq := from_bool (bool_decide (b_comp = c_comp)) in
  let '(byte_flags, sltu, not_eq_inv, comparison_bytes) :=
    match first_diff b_comp c_comp with
    | Some i => (set_byte word_zero i 1, from_bool (b_comp.[i] <? c_comp.[i]),
                 Finv (b_comp.[i] - c_comp.[i]), (b_comp.[i], c_comp.[i]))
    | None => (word_zero, sltu, 0, (0, 0))
    end in
  let msb_b := Z.land (Z.shiftr b.[3] 7) 1 in
  let msb_c := Z.land (Z.shiftr c.[3] 7) 1 in
  let is_sign_eq := if is_slt then from_bool (Z.shiftr b.[3] 7 =? Z.shiftr c.[3] 7) else 1 in
  let bit_b := Fred (msb_b * from_bool is_slt) in
  let bit_c := Fred (msb_c * from_bool is_slt) in
  if a.[0] =? Fred (bit_b * (1 - bit_c) + is_sign_eq * sltu) then
    let blu := add_byte_lookup_event
      (mkByteLookupEvent ByteOpcode.LTU sltu 0 (fst comparison_bytes) (snd comparison_bytes)) blu in
    Some (mkLtCols (Fred (alu_pc event)) (from_bool is_slt) (from_bool (bool_decide (alu_opcode event = SLTU)))
            a.[0] b c (from_bool (negb (alu_op_a_0 event))) byte_flags masked_b masked_c not_eq_inv
            msb_b msb_c bit_b bit_c sltu is_comp_eq is_sign_eq comparison_bytes word_zero, blu)
  else None.

(** The loop over the bytes: visited flag, comparison bytes and constraints. *)
Definition compare_step (is_comp_eq : Z) (st : Z * Z * Z * list Call) (x : Z * Z * Z)
    : Z * Z * Z * list Call :=
  let '(visited, bb, cb, calls) := st in
  let '(b_byte, c_byte, flag) := x in
  let visited := visited + flag in
  (visited, bb + b_byte * flag, cb + c_byte * flag,
   calls ++ when_not visited [AssertEq b_byte c_byte] ++ when is_comp_eq [AssertZero visited]).

Definition eval (local : LtCols) : list Call :=
  let is_real := is_slt local + is_sltu local in
  let b_comp := set_byte (b local) 3 ((b local).[3] * is_sltu local + b_masked local * is_slt local) in
  let c_comp := set_byte (c local) 3 ((c local).[3] * is_sltu local + c_masked local * is_slt local) in
  let inv_128 := Finv 128 in
  let sum_flags := (byte_flags local).[0] + (byte_flags local).[1] + (byte_flags local).[2] + (byte_flags local).[3] in
  let '(_, b_comparison_byte, c_comparison_byte, loop) :=
    fold_left (compare_step (is_comp_eq local))
      (zip (zip (rev (limbs b_comp)) (rev (limbs c_comp))) (rev (limbs (byte_flags local)))) (0, 0, 0, []) in
  let '(b_comp_byte, c_comp_byte) := comparison_bytes local in
  send_byte (ByteOpcode.as_u8 ByteOpcode.AND) (b_masked local) (b local).[3] 0x7f is_real ++
  send_byte (ByteOpcode.as_u8 ByteOpcode.AND) (c_masked local) (c local).[3] 0x7f is_real ++
  [AssertEq (bit_b local) (msb_b local * is_slt local);
   AssertEq (bit_c local) (msb_c local * is_slt local);
   AssertEq (msb_b local) (((b local).[3] - b_masked local) * inv_128);
   AssertEq (msb_c local) (((c local).[3] - c_masked local) * inv_128);
   AssertBool (is_sign_eq local)] ++
  when (is_sign_eq local) [AssertEq (bit_b local) (bit_c local)] ++
  when is_real (when_not (is_sign_eq local) [AssertOne (bit_b local + bit_c local)]) ++
  when (op_a_not_0 local)
    [AssertEq (a local) (bit_b local * (1 - bit_c local) + is_sign_eq local * sltu local)] ++
  [AssertBool (byte_flags local).[0]; AssertBool (byte_flags local).[1];
   AssertBool (byte_flags local).[2]; AssertBool (byte_flags local).[3]; AssertBool sum_flags] ++
  when is_real [AssertEq (1 - is_comp_eq local) sum_flags] ++
  [AssertBool (is_comp_eq local)] ++
  loop ++
  [AssertEq b_comp_byte b_comparison_byte; AssertEq c_comp_byte c_comparison_byte] ++
  when_not (is_comp_eq local) [AssertEq (not_eq_inv local * (b_comp_byte - c_comp_byte)) is_real] ++
  send_byte (ByteOpcode.as_u8 ByteOpcode.LTU) (sltu local) b_comp_byte c_comp_byte is_real ++
  [AssertBool (is_slt local); AssertBool (is_sltu local); AssertBool (is_slt local + is_sltu local)] ++
  receive_instruction 0 0 (pc local) (pc local + DEFAULT_PC_INC) 0
    (is_slt local * opcode_u32 SLT + is_sltu local * opcode_u32 SLTU)
    (extend_var (a local)) (b local) (c local) (1 - op_a_not_0 local) 0 0 0 0 is_real.

Definition wf (r : LtCols) : Prop :=
  canon (pc r) /\ canon (is_slt r) /\ canon (is_sltu r) /\ canon (a r) /\ word_canon (b r) /\ word_canon (c r) /\
  canon (op_a_not_0 r) /\ word_canon (byte_flags r) /\ canon (b_masked r) /\ canon (c_masked r) /\
  canon (not_eq_inv r) /\ canon (msb_b r) /\ canon (msb_c r) /\ canon (bit_b r) /\ canon (bit_c r) /\
  canon (sltu r) /\ canon (is_comp_eq r) /\ canon (is_sign_eq r) /\ canon (fst (comparison_bytes r)) /\
  canon (snd (comparison_bytes r)).
End LtChip.

Import LtChip.

(** ** Masks and sign bits *)

Lemma mask_127 x : is_u8 x -> Z.land x 127 = x mod 128.
Proof. intros _. change 127 with (Z.ones 7). by rewrite Z.land_ones by lia. Qed.

Lemma msb_column x m q : is_u8 x -> m = Z.land x 127 -> canon q -> q ≡F (x - m) * Finv 128 -> q = x / 128.
Proof.
  intros Hx -> Hq H. rewrite mask_127 in H by done. rewrite is_u8_iff in Hx.
  assert (x - x mod 128 = x / 128 * 128) as E by (Z.div_mod_to_equations; lia). rewrite E in H.
  assert (x / 128 * 128 * Finv 128 ≡F x / 128) as H'.
  { replace (x / 128 * 128 * Finv 128) with (x / 128 * (Finv 128 * 128)) by ring.
    rewrite Finv_spec by done. by rewrite Z.mul_1_r. }
  rewrite H' in H. apply eqF_canon in H; [done|done|]. unfold canon, BABYBEAR. Z.div_mod_to_equations. lia.
Qed.

(** Comparing numbers by their most significant different byte. *)
Lemma compare_words x y : word_bytes x -> word_bytes y ->
  (to_u32 x <? to_u32 y) =
    (if x.[3] =? y.[3] then if x.[2] =? y.[2] then if x.[1] =? y.[1] then x.[0] <? y.[0]
     else x.[1] <? y.[1] else x.[2] <? y.[2] else x.[3] <? y.[3]).
Proof.
  unfold word_bytes, to_u32, from_le_bytes32. destruct x as [x0 x1 x2 x3], y as [y0 y1 y2 y3].
  cbn [w0 w1 w2 w3 widx]. rewrite !is_u8_iff. intros Hx Hy.
  repeat match goal with |- context [?p =? ?q] => destruct (Z.eqb_spec p q) end;
    apply eq_true_iff_eq; rewrite !Z.ltb_lt; lia.
Qed.

(** The flags mark the first difference, so the looked-up bytes decide. *)
Section Compare.
  Context (B C f : Word) (bb cb comp_eq inv lt : Z).
  Context (HB : word_bytes B) (HC : word_bytes C) (Hf : word_canon f) (Hbb : canon bb) (Hcb : canon cb).
  Context (Hlt : canon lt) (Hce : canon comp_eq).

Lemma comparison_sound :
  all_hold [AssertBool f.[0]; AssertBool f.[1]; AssertBool f.[2]; AssertBool f.[3];
            AssertBool (f.[0] + f.[1] + f.[2] + f.[3])] ->
  1 - comp_eq ≡F f.[0] + f.[1] + f.[2] + f.[3] ->
  (let '(_, bc, cc, loop) := fold_left (compare_step comp_eq)
      (zip (zip (rev (limbs B)) (rev (limbs C))) (rev (limbs f))) (0, 0, 0, []) in
   all_hold loop /\ bb ≡F bc /\ cb ≡F cc) ->
  (~ comp_eq ≡F 1 -> inv * (bb - cb) ≡F 1) ->
  in_byte_table [ByteOpcode.as_u8 ByteOpcode.LTU; lt; 0; bb; cb] ->
  lt = from_bool (to_u32 B <? to_u32 C).
Proof using HB HC Hf Hbb Hcb Hlt Hce.
  intros Hbools Hsum Hloop Hinv Hlu. apply ltu_found in Hlu as (Lb & Lc & ->); [|done..].
  f_equal. rewrite compare_words by done.
  destruct B as [B0 B1 B2 B3], C as [C0 C1 C2 C3], f as [f0 f1 f2 f3].
  destruct Hf as (F0 & F1 & F2 & F3). cbn [all_hold holds widx w0 w1 w2 w3] in *.
  destruct Hbools as (G0 & G1 & G2 & G3 & G4 & _).
  apply bool_canon in G0, G1, G2, G3; try done.
  cbn [fold_left zip zip_with rev limbs app compare_step w0 w1 w2 w3 when when_ne when_not map all_hold holds] in Hloop.
  destruct Hloop as ((E3 & _ & E2 & _ & E1 & _ & E0 & _) & Hb & Hc).
  unfold word_bytes in HB, HC. cbn [w0 w1 w2 w3] in HB, HC. rewrite !is_u8_iff in *.
  destruct G0 as [->| ->], G1 as [->| ->], G2 as [->| ->], G3 as [->| ->];
    try (destruct G4; discriminate);
    repeat match goal with
    | H : ~ ?x ≡F 0 -> _ |- _ => first [specialize (H ltac:(discriminate)) | clear H]
    end;
    apply eqF_small in Hsum; try (unfold canon, BABYBEAR in *; lia);
    assert (~ comp_eq ≡F 1 -> bb <> cb) as Hne by
      (intros Hc1 ->; specialize (Hinv Hc1); rewrite Z.sub_diag, Z.mul_0_r in Hinv; discriminate Hinv);
    try (assert (~ comp_eq ≡F 1) as Hc1 by (replace comp_eq with 0 by lia; discriminate);
         specialize (Hne Hc1));
    small_eqs; repeat match goal with |- context [?p =? ?q] => destruct (Z.eqb_spec p q) end;
    apply eq_true_iff_eq; rewrite !Z.ltb_lt; lia.
Qed.
End Compare.

Section Sound.
  Context (r : LtCols) (Hwf : wf r) (Hok : row_ok (eval r)).
Let is_real := is_slt r + is_sltu r.
Let b_comp := set_byte (b r) 3 ((b r).[3] * is_sltu r + b_masked r * is_slt r).
Let c_comp := set_byte (c r) 3 ((c r).[3] * is_sltu r + c_masked r * is_slt r).

(** The constraints, one component at a time. *)
Lemma lt_constraints : is_real = 1 ->
  in_byte_table [ByteOpcode.as_u8 ByteOpcode.AND; b_masked r; 0; (b r).[3]; 127] /\
  in_byte_table [ByteOpcode.as_u8 ByteOpcode.AND; c_masked r; 0; (c r).[3]; 127] /\
  (bit_b r ≡F msb_b r * is_slt r /\ bit_c r ≡F msb_c r * is_slt r /\
   msb_b r ≡F ((b r).[3] - b_masked r) * Finv 128 /\ msb_c r ≡F ((c r).[3] - c_masked r) * Finv 128 /\
   (is_sign_eq r ≡F 0 \/ is_sign_eq r ≡F 1)) /\
  (~ is_sign_eq r ≡F 0 -> bit_b r ≡F bit_c r) /\
  (~ is_sign_eq r ≡F 1 -> bit_b r + bit_c r ≡F 1) /\
  (~ op_a_not_0 r ≡F 0 -> a r ≡F bit_b r * (1 - bit_c r) + is_sign_eq r * sltu r) /\
  (word_bytes b_comp -> word_bytes c_comp -> sltu r = from_bool (to_u32 b_comp <? to_u32 c_comp)).
Proof using Hwf Hok.
  intros Hreal.
  destruct Hwf as (_ & _ & _ & _ & Cb & Cc & _ & Cf & _ & _ & _ & _ & _ & _ & _ & Cs & Ce & _ & Cb0 & Cb1).
  pose proof (comparison_sound b_comp c_comp (byte_flags r) (fst (comparison_bytes r)) (snd (comparison_bytes r))
    (is_comp_eq r) (not_eq_inv r) (sltu r)) as Hcmp.
  unfold eval in Hok. fold is_real b_comp c_comp in Hok.
  destruct (fold_left _ _ _) as [[[? bc] cc] loop]. destruct (comparison_bytes r) as [bb cb]. cbn [fst snd] in *.
  rewrite !row_ok_app in Hok. unfold row_ok in Hok. rewrite Hreal in Hok.
  destruct Hok as ([_ (F1 & _)] & [_ (F2 & _)] & [(K1 & K2 & K3 & K4 & K5 & _) _] & [(K6 & _) _] & [(K7 & _) _] &
    [(K8 & _) _] & [K9 _] & [(K10 & _) _] & _ & [K11 _] & [(K12 & K13 & _) _] & [(K14 & _) _] & [_ (F3 & _)] & _).
  cbn [when when_not when_ne map holds call_found kind multiplicity values] in *.
  assert (~ 1 ≡F 0) as H10 by discriminate.
  rewrite (eqF_sub_0 (is_comp_eq r)) in K14.
  split_and!; auto.
  intros Hx. apply K7; [done|]. by rewrite eqF_sub_0.
Qed.

Lemma set_byte_3 w x : set_byte w 3 x = mkWord (w0 w) (w1 w) (w2 w) x.
Proof. done. Qed.

Lemma lt_value : is_real = 1 -> op_a_not_0 r = 1 -> word_bytes (b r) -> word_bytes (c r) ->
  is_slt r = 0 \/ is_slt r = 1 ->
  a r = from_bool (if is_slt r =? 1 then i32 (to_u32 (b r)) <? i32 (to_u32 (c r))
                   else to_u32 (b r) <? to_u32 (c r)).
Proof using Hwf Hok.
  intros Hreal Hn Wb Wc Hsel. destruct (lt_constraints Hreal) as (F1 & F2 & (K1 & K2 & K3 & K4 & K5) & K6 & K7 & K8 & Hcmp).
  destruct Hwf as (_ & _ & _ & Ca & _ & _ & _ & _ & Cbm & Ccm & _ & Cmb & Cmc & Cbb & Cbc & Cs & _ & Csg & _).
  pose proof Wb as (W0 & W1 & W2 & W3). pose proof Wc as (V0 & V1 & V2 & V3).
  apply and_found in F1 as (_ & _ & M1); [|done|by apply u8_canon|done].
  apply and_found in F2 as (_ & _ & M2); [|done|by apply u8_canon|done].
  apply (msb_column _ _ _ W3 M1 Cmb) in K3. apply (msb_column _ _ _ V3 M2 Cmc) in K4.
  rewrite mask_127 in M1, M2 by done.
  apply bool_canon in K5; [|done]. specialize (K8 ltac:(by rewrite Hn)).
  assert (word_bytes b_comp /\ word_bytes c_comp) as [Bb Bc].
  { unfold b_comp, c_comp, is_real in *. rewrite !set_byte_3. unfold word_bytes. cbn [w0 w1 w2 w3 widx].
    rewrite is_u8_iff in W3, V3. split_and!; auto; rewrite is_u8_iff, ?M1, ?M2;
      destruct Hsel as [E|E]; rewrite E in *; replace (is_sltu r) with (1 - is_slt r) by lia; rewrite E;
      Z.div_mod_to_equations; lia. }
  specialize (Hcmp Bb Bc). rewrite Hcmp in K8. clear Hcmp.
  rewrite K3 in K1. rewrite K4 in K2.
  pose proof (to_u32_range _ Wb) as Rb. pose proof (to_u32_range _ Wc) as Rc.
  unfold b_comp, c_comp, is_real in *. rewrite !set_byte_3 in *. unfold to_u32, from_le_bytes32 in *.
  cbn [w0 w1 w2 w3 widx] in *. rewrite M1, M2 in *. clear M1 M2 Bb Bc Wb Wc.
  rewrite is_u8_iff in *.
  set (b0 := w0 (b r)) in *. set (b1 := w1 (b r)) in *. set (b2 := w2 (b r)) in *. set (b3 := w3 (b r)) in *.
  set (c0 := w0 (c r)) in *. set (c1 := w1 (c r)) in *. set (c2 := w2 (c r)) in *. set (c3 := w3 (c r)) in *.
  clearbody b0 b1 b2 b3 c0 c1 c2 c3.
  pose proof (Z.div_mod b3 128 ltac:(lia)) as Db. pose proof (Z.div_mod c3 128 ltac:(lia)) as Dc.
  pose proof (Z.mod_pos_bound b3 128 ltac:(lia)) as Mb. pose proof (Z.mod_pos_bound c3 128 ltac:(lia)) as Mc.
  assert (b3 / 128 = 0 \/ b3 / 128 = 1) as Qb by lia. assert (c3 / 128 = 0 \/ c3 / 128 = 1) as Qc by lia.
  destruct Hsel as [E|E]; rewrite E in *.
  - rewrite Z.mul_0_r in K1, K2. apply eqF_canon in K1, K2; try done. rewrite K1, K2 in *.
    destruct K5 as [E5|E5]; rewrite E5 in *; [specialize (K7 ltac:(discriminate)); discriminate K7|].
    replace (is_sltu r) with 1 in * by lia. change (0 =? 1) with false. cbn iota.
    rewrite !Z.mul_1_r, !Z.mul_0_r, !Z.add_0_r in K8.
    apply eqF_canon in K8; [|done|]; rewrite ?Z.mul_0_l, ?Z.add_0_l, ?Z.mul_1_l in *; [done|].
    apply from_bool_canon.
  - rewrite Z.mul_1_r in K1, K2. replace (is_sltu r) with 0 in * by lia.
    rewrite !Z.mul_0_r, !Z.mul_1_r, !Z.add_0_l in K8. change (1 =? 1) with true. cbn iota.
    apply eqF_canon in K1; [|done|unfold canon, BABYBEAR; lia]. apply eqF_canon in K2; [|done|unfold canon, BABYBEAR; lia].
    destruct (i32_cases _ Rb) as [[Rb1 ->]|[Rb1 ->]], (i32_cases _ Rc) as [[Rc1 ->]|[Rc1 ->]];
    destruct Qb as [Qb|Qb], Qc as [Qc|Qc]; try (exfalso; lia); rewrite K1, K2, Qb, Qc in *;
    (destruct K5 as [E5|E5]; rewrite E5 in *;
      [specialize (K7 ltac:(discriminate)); try discriminate K7|specialize (K6 ltac:(discriminate)); try discriminate K6]);
    destruct (Z.ltb_spec (b0 + 256 * b1 + 65536 * b2 + 16777216 * (b3 mod 128)) (c0 + 256 * c1 + 65536 * c2 + 16777216 * (c3 mod 128)));
    cbn [from_bool] in K8; apply eqF_small in K8; try (unfold canon, BABYBEAR in *; lia); rewrite K8;
    match goal with |- _ = from_bool (?x <? ?y) => destruct (Z.ltb_spec x y) end; cbn [from_bool]; lia.
Qed.
End Sound.

Lemma lt_receiver r : wf r -> row_ok (eval r) -> alu_receiver [SLT; SLTU] (eval r).
Proof.
  intros Hwf Hok m Hm Hmult.
  assert (receives KInstruction (eval r) = [
    mkAirInteraction (instruction_values 0 0 (pc r) (pc r + DEFAULT_PC_INC) 0
      (is_slt r * opcode_u32 SLT + is_sltu r * opcode_u32 SLTU) (extend_var (a r)) (b r) (c r)
      (1 - op_a_not_0 r) 0 0 0 0) (is_slt r + is_sltu r) KInstruction]) as Hrec.
  { unfold eval. destruct (comparison_bytes r). reflexivity. }
  rewrite Hrec in Hm. apply list_elem_of_singleton in Hm as ->. cbn [multiplicity values] in *.
  pose proof Hwf as (_ & Cs & Cu & Ca & Cb & Cc & Cn & _).
  assert ((is_slt r = 0 \/ is_slt r = 1) /\ is_slt r + is_sltu r = 1) as [Hsel Hreal].
  { unfold eval in Hok. destruct (fold_left _ _ _) as [[[??]?]?], (comparison_bytes r).
    rewrite !row_ok_app in Hok. destruct Hok as (_&_&_&_&_&_&_&_&_&_&_&_&_& [(K1 & K2 & K3 & _) _] & _).
    cbn [holds] in *. apply bool_canon in K1, K2; try done. split; [done|].
    destruct K1 as [E1|E1], K2 as [E2|E2]; rewrite E1, E2 in *;
      first [done|by destruct Hmult|destruct K3; discriminate]. }
  set (o := if is_slt r =? 1 then SLT else SLTU).
  assert (is_slt r * opcode_u32 SLT + is_sltu r * opcode_u32 SLTU = opcode_u32 o) as Eo.
  { subst o. destruct Hsel as [E|E]; rewrite E in *; cbn; lia. }
  split; [by apply plain_message_intro|].
  split; [eapply (answers_intro _ _ _ _ _ _ _ _ _ _ _ _ _ _ _ o); [|by rewrite Eo]; subst o; destruct (_ =? _); cbn; auto|].
  intros H0 Wb Wc. rewrite msg_b_eq, msg_c_eq, !word_Fred in * by done.
  apply op_a_0_not in H0; [|done]. pose proof (lt_value r Hwf Hok Hreal H0 Wb Wc Hsel) as Ea.
  assert (is_u8 (a r)) as Ba by (rewrite Ea; apply from_bool_u8).
  apply (alu_message_intro _ _ _ _ _ _ _ _ _ _ _ _ _ _ o); try done; [by rewrite Eo|].
  unfold to_u32 at 3, from_le_bytes32, extend_var. cbn [w0 w1 w2 w3]. rewrite Ea. subst o.
  destruct (is_slt r =? 1); cbn [alu_result]; (destruct (_ <? _); done).
Qed.

(** ** Rows of events *)

(** The comparison of a row: the operands without their sign bits for SLT. *)
Definition masked (is_slt : bool) (w : Word) : Word :=
  if is_slt then set_byte w 3 (Z.land w.[3] 127) else w.

Lemma masked_bytes s w : word_bytes w -> word_bytes (masked s w).
Proof.
  intros (H0 & H1 & H2 & H3). destruct s; [|done]. unfold masked. rewrite set_byte_3.
  unfold word_bytes. cbn [w0 w1 w2 w3]. split_and!; try done. by apply land_u8.
Qed.

(** What [event_to_row] computes for the comparison. *)
Definition diff_sltu (x y : Word) : Z :=
  match first_diff x y with Some i => from_bool (x.[i] <? y.[i]) | None => from_bool (lex_lt (limbs x) (limbs y)) end.

Lemma first_diff_cases x y : word_bytes x -> word_bytes y ->
  (first_diff x y = None /\ x = y /\ diff_sltu x y = 0) \/
  exists i, first_diff x y = Some i /\ (i < 4)%nat /\ x.[i] <> y.[i] /\ x <> y /\
    (forall j, (i < j < 4)%nat -> x.[j] = y.[j]) /\ diff_sltu x y = from_bool (x.[i] <? y.[i]).
Proof.
  intros Hx Hy. unfold diff_sltu, first_diff. cbn [find].
  destruct x as [x0 x1 x2 x3], y as [y0 y1 y2 y3]. cbn [widx w0 w1 w2 w3].
  destruct (Z.eqb_spec y3 x3) as [->|N3]; cbn [negb].
  2:{ right. exists 3%nat. cbn. split_and!; try done; try lia; try congruence. }
  destruct (Z.eqb_spec y2 x2) as [->|N2]; cbn [negb].
  2:{ right. exists 2%nat. cbn. split_and!; try done; try lia; try congruence.
      intros j Hj. by replace j with 3%nat by lia. }
  destruct (Z.eqb_spec y1 x1) as [->|N1]; cbn [negb].
  2:{ right. exists 1%nat. cbn. split_and!; try done; try lia; try congruence.
      intros j Hj. assert (j = 2%nat \/ j = 3%nat) as [->| ->] by lia; done. }
  destruct (Z.eqb_spec y0 x0) as [->|N0]; cbn [negb].
  2:{ right. exists 0%nat. cbn. split_and!; try done; try lia; try congruence.
      intros j Hj. assert (j = 1%nat \/ j = 2%nat \/ j = 3%nat) as [->|[->| ->]] by lia; done. }
  left. split_and!; try done. cbn. by rewrite !Z.eqb_refl.
Qed.

Lemma diff_sltu_spec x y : word_bytes x -> word_bytes y -> diff_sltu x y = from_bool (to_u32 x <? to_u32 y).
Proof.
  intros Hx Hy. rewrite compare_words by done. unfold diff_sltu, first_diff. cbn [find].
  destruct x as [x0 x1 x2 x3], y as [y0 y1 y2 y3]. cbn [widx w0 w1 w2 w3].
  rewrite (Z.eqb_sym y3), (Z.eqb_sym y2), (Z.eqb_sym y1), (Z.eqb_sym y0).
  destruct (Z.eqb_spec x3 y3) as [->|N3]; [|done]. destruct (Z.eqb_spec x2 y2) as [->|N2]; [|done].
  destruct (Z.eqb_spec x1 y1) as [->|N1]; [|done]. destruct (Z.eqb_spec x0 y0) as [->|N0]; [|done].
  cbn. by rewrite !Z.eqb_refl, Z.ltb_irrefl.
Qed.

(** The formula of the row is the comparison. *)
Lemma lt_formula (s : bool) x y : word_bytes x -> word_bytes y ->
  let bit w := if s then w.[3] / 128 else 0 in
  bit x * (1 - bit y) + from_bool (bit x =? bit y) * diff_sltu (masked s x) (masked s y) =
  from_bool (if s then i32 (to_u32 x) <? i32 (to_u32 y) else to_u32 x <? to_u32 y).
Proof.
  intros Hx Hy bit. rewrite diff_sltu_spec by by apply masked_bytes. subst bit. destruct s; cbn beta iota.
  2:{ change (0 =? 0) with true. unfold masked. cbn [from_bool]. lia. }
  pose proof (to_u32_range _ Hx) as Rx. pose proof (to_u32_range _ Hy) as Ry.
  unfold masked, to_u32, from_le_bytes32 in *. destruct x as [x0 x1 x2 x3], y as [y0 y1 y2 y3].
  unfold word_bytes in *. cbn [w0 w1 w2 w3 widx set_byte] in *.
  rewrite !mask_127 by apply Hx || apply Hy. rewrite !is_u8_iff in *.
  assert (x3 / 128 = 0 \/ x3 / 128 = 1) as Qx by (Z.div_mod_to_equations; lia).
  assert (y3 / 128 = 0 \/ y3 / 128 = 1) as Qy by (Z.div_mod_to_equations; lia).
  pose proof (Z.div_mod x3 128 ltac:(lia)). pose proof (Z.div_mod y3 128 ltac:(lia)).
  pose proof (Z.mod_pos_bound x3 128 ltac:(lia)). pose proof (Z.mod_pos_bound y3 128 ltac:(lia)).
  destruct (i32_cases _ Rx) as [[Rb1 ->]|[Rb1 ->]], (i32_cases _ Ry) as [[Rc1 ->]|[Rc1 ->]];
    destruct Qx as [Qx|Qx], Qy as [Qy|Qy]; try (exfalso; lia); rewrite Qx, Qy;
    repeat match goal with |- context [?p <? ?q] => destruct (Z.ltb_spec p q) end; cbn; lia.
Qed.

Lemma if_from_bool (t x y : bool) : from_bool (if t then x else y) = if t then from_bool x else from_bool y.
Proof. by destruct t. Qed.

Lemma cond_from_bool (t x y : bool) :
  (if t then from_bool x else from_bool y) = 0 \/ (if t then from_bool x else from_bool y) = 1.
Proof. destruct t; apply from_bool_01. Qed.

Section Rows.
  Context {R} `{ByteRecord R} (e : AluEvent) (r : R).
  Context (Ho : In (alu_opcode e) [SLT; SLTU]) (He : alu_event_ok e).
Let s := bool_decide (alu_opcode e = SLT).
Let b := word_from (alu_b e).
Let c := word_from (alu_c e).
Let B := masked s b.
Let C := masked s c.

(** The lookups of a row. *)
Definition lt_lookups : list ByteLookupEvent :=
  let '(x, y) := match first_diff B C with Some i => (B.[i], C.[i]) | None => (0, 0) end in
  [mkByteLookupEvent ByteOpcode.AND (Z.land b.[3] 127) 0 b.[3] 127;
   mkByteLookupEvent ByteOpcode.AND (Z.land c.[3] 127) 0 c.[3] 127;
   mkByteLookupEvent ByteOpcode.LTU (diff_sltu B C) 0 x y].

(** The columns of a row whose result is [v]. *)
Definition lt_cols (v : Z) : LtCols :=
  let bit w := if s then w.[3] / 128 else 0 in
  let '(flags, inv, cmp) := match first_diff B C with
    | Some i => (set_byte word_zero i 1, Finv (B.[i] - C.[i]), (B.[i], C.[i]))
    | None => (word_zero, 0, (0, 0)) end in
  mkLtCols (Fred (alu_pc e)) (from_bool s) (from_bool (negb s)) v b c (from_bool (negb (alu_op_a_0 e)))
    flags (Z.land b.[3] 127) (Z.land c.[3] 127) inv (b.[3] / 128) (c.[3] / 128) (bit b) (bit c)
    (diff_sltu B C) (from_bool (bool_decide (B = C))) (from_bool (bit b =? bit c)) cmp word_zero.

(** [event_to_row] builds these columns when the recorded result is the
    comparison, and panics otherwise. *)
Lemma lt_event_row :
  let v := if s then from_bool (i32 (alu_b e) <? i32 (alu_c e)) else from_bool (alu_b e <? alu_c e) in
  event_to_row e r = if u8 (alu_a e) =? v then Some (lt_cols v, add_byte_lookup_events lt_lookups r) else None.
Proof using Ho He.
  destruct He as (Hb & Hc & _). intros v. unfold event_to_row. fold s b c. fold (masked s b) (masked s c). fold B C.
  pose proof (word_from_bytes (alu_b e)) as Wb. pose proof (word_from_bytes (alu_c e)) as Wc. fold b in Wb. fold c in Wc.
  pose proof Wb as (_ & _ & _ & W3). pose proof Wc as (_ & _ & _ & V3).
  change (w3 b) with b.[3] in W3. change (w3 c) with c.[3] in V3.
  destruct (shiftr7 _ W3) as [S1 S2], (shiftr7 _ V3) as [S3 S4]. rewrite S2, S4, S1, S3. clear S1 S2 S3 S4.
  set (bit w := if s then w.[3] / 128 else 0).
  assert (forall w, is_u8 w.[3] -> Fred (w.[3] / 128 * from_bool s) = bit w) as Hbit.
  { intros w Hw. rewrite is_u8_iff in Hw. subst bit. cbn beta. destruct s; cbn [from_bool]; [|by rewrite Z.mul_0_r].
    rewrite Z.mul_1_r. apply Fred_small. unfold canon, BABYBEAR. Z.div_mod_to_equations; lia. }
  rewrite !Hbit by done.
  assert ((if s then from_bool (b.[3] / 128 =? c.[3] / 128) else 1) = from_bool (bit b =? bit c)) as ->
    by (subst bit; cbn beta; by destruct s).
  pose proof (lt_formula s b c Wb Wc) as Hform. cbn beta in Hform. fold (bit b) (bit c) B C in Hform.
  unfold b, c in Hform. rewrite !to_u32_word_from in Hform by done. fold b c in Hform.
  assert (from_bool (bool_decide (alu_opcode e = SLTU)) = from_bool (negb s)) as -> by
    (subst s; destruct Ho as [E|[E|[]]]; rewrite <- E; reflexivity).
  assert (v = bit b * (1 - bit c) + from_bool (bit b =? bit c) * diff_sltu B C) as Hv
    by (etransitivity; [|symmetry; exact Hform]; subst v; clear; by destruct s).
  assert (canon v) as Cv by (subst v; destruct s; apply from_bool_canon).
  unfold lt_cols, lt_lookups. fold bit. unfold diff_sltu in *.
  destruct (first_diff B C) as [i|]; cbn [fst snd]; rewrite <- Hv, (Fred_small v) by done;
    change (widx (word_from (alu_a e)) 0) with (u8 (alu_a e)); (destruct (Z.eqb_spec (u8 (alu_a e)) v) as [->|]; [|done]); done.
Qed.

Lemma compare_words_bytes : word_bytes B /\ word_bytes C.
Proof. split; apply masked_bytes, word_from_bytes. Qed.

Lemma lt_events_found : Forall event_found lt_lookups.
Proof.
  destruct compare_words_bytes as [HB HC].
  pose proof (word_from_bytes (alu_b e)) as (_ & _ & _ & W3). pose proof (word_from_bytes (alu_c e)) as (_ & _ & _ & V3).
  assert (is_u8 127) as H127 by done. assert (is_u8 0) as H0 by done.
  assert (forall x, is_u8 x -> event_found (mkByteLookupEvent ByteOpcode.AND (Z.land x 127) 0 x 127)) as Hand.
  { intros x Hx. by apply (event_found_intro _ x 127). }
  unfold lt_lookups. destruct (first_diff_cases B C HB HC) as [(E & _ & D)|(i & E & Hi & _ & _ & _ & D)];
    rewrite E, D; rewrite !Forall_cons; split_and!; try (apply Hand; exact W3); try (apply Hand; exact V3); try constructor.
  - apply (event_found_intro _ 0 0); done.
  - destruct HB as (?&?&?&?), HC as (?&?&?&?).
    apply (event_found_intro _ B.[i] C.[i]); [destruct i as [|[|[|[|]]]]; done..|].
    unfold ByteChip.row. by destruct (ByteChip.shr_carry _ _).
Qed.

Lemma lt_cols_wf v : canon v -> wf (lt_cols v).
Proof.
  intros Hv. destruct compare_words_bytes as [HB HC].
  pose proof (word_from_bytes (alu_b e)) as Wb. pose proof (word_from_bytes (alu_c e)) as Wc. fold b in Wb. fold c in Wc.
  assert (forall w : Word, word_bytes w -> canon (w.[3] / 128) /\ canon (Z.land w.[3] 127) /\
    canon (if s then w.[3] / 128 else 0)) as Hb.
  { intros w (_ & _ & _ & W3). change (w3 w) with w.[3] in W3.
    assert (canon (w.[3] / 128)) by (rewrite is_u8_iff in W3; unfold canon, BABYBEAR; Z.div_mod_to_equations; lia).
    split_and!; [done|by apply u8_canon, land_u8|by destruct s]. }
  destruct (Hb b Wb) as (B1 & B2 & B3), (Hb c Wc) as (C1 & C2 & C3). clear Hb.
  assert (canon (diff_sltu B C)) as Hd by (rewrite diff_sltu_spec by done; apply from_bool_canon).
  unfold lt_cols, wf. destruct (first_diff_cases B C HB HC) as [(E & _)|(i & E & Hi & _)]; rewrite E;
    cbn [pc is_slt is_sltu a LtChip.b LtChip.c op_a_not_0 byte_flags b_masked c_masked not_eq_inv msb_b msb_c bit_b bit_c sltu
      is_comp_eq is_sign_eq comparison_bytes fst snd]; split_and!; try done; auto using Fred_canon, from_bool_canon, Finv_canon with rvbound.
  - by apply word_bytes_canon.
  - by apply word_bytes_canon.
  - by apply word_bytes_canon.
  - by apply word_bytes_canon.
  - destruct i as [|[|[|[|]]]]; try lia; done.
  - destruct HB as (?&?&?&?). destruct i as [|[|[|[|]]]]; try lia; by apply u8_canon.
  - destruct HC as (?&?&?&?). destruct i as [|[|[|[|]]]]; try lia; by apply u8_canon.
Qed.

(** The loop passes on these columns and selects the looked-up bytes. *)
Lemma loop_complete :
  let flags := match first_diff B C with Some i => set_byte word_zero i 1 | None => word_zero end in
  let cmp := match first_diff B C with Some i => (B.[i], C.[i]) | None => (0, 0) end in
  let '(_, bc, cc, loop) := fold_left (compare_step (from_bool (bool_decide (B = C))))
    (zip (zip (rev (limbs B)) (rev (limbs C))) (rev (limbs flags))) (0, 0, 0, []) in
  all_hold loop /\ byte_messages loop = [] /\ receives KInstruction loop = [] /\ bc = fst cmp /\ cc = snd cmp.
Proof.
  destruct compare_words_bytes as [HB HC]. cbv zeta.
  destruct (first_diff_cases B C HB HC) as [(E & Eq & _)|(i & E & Hi & _ & Ne & Hj & _)]; rewrite E.
  - rewrite bool_decide_eq_true_2 by done. rewrite Eq.
    cbn [fold_left zip zip_with rev limbs app compare_step w0 w1 w2 w3 when when_ne when_not map word_zero from_bool fst snd].
    split_and!; try reflexivity; try ring. cbn [all_hold holds]. split_and!; intros; reflexivity.
  - rewrite bool_decide_eq_false_2 by done.
    pose proof (Hj 1%nat) as J1. pose proof (Hj 2%nat) as J2. pose proof (Hj 3%nat) as J3. clear Hj.
    revert J1 J2 J3. generalize B C. intros [x0 x1 x2 x3] [y0 y1 y2 y3]. clear. cbn [widx w0 w1 w2 w3].
    intros J1 J2 J3.
    destruct i as [|[|[|i]]]; cbn [fold_left zip zip_with rev limbs app compare_step w0 w1 w2 w3 when when_ne when_not map
        word_zero from_bool fst snd set_byte widx];
      try (specialize (J1 ltac:(lia))); try (specialize (J2 ltac:(lia))); try (specialize (J3 ltac:(lia))); subst;
      (split_and!; [cbn [all_hold holds]; split_and!; first [exact I|intros Hn; first [reflexivity|exfalso; apply Hn; reflexivity]]
        |reflexivity|reflexivity|ring|ring]).
Qed.

(** The rest of the constraints. *)
Lemma lt_cols_hold v :
  v = (if s then from_bool (i32 (alu_b e) <? i32 (alu_c e)) else from_bool (alu_b e <? alu_c e)) ->
  all_hold (eval (lt_cols v)) /\ byte_messages (eval (lt_cols v)) = map event_values lt_lookups /\
  receives KInstruction (eval (lt_cols v)) = [mkAirInteraction
    (instruction_values 0 0 (Fred (alu_pc e)) (Fred (alu_pc e) + DEFAULT_PC_INC) 0
      (from_bool s * opcode_u32 SLT + from_bool (negb s) * opcode_u32 SLTU) (extend_var v) b c
      (1 - from_bool (negb (alu_op_a_0 e))) 0 0 0 0) (from_bool s + from_bool (negb s)) KInstruction].
Proof using He.
  intros Ev. destruct He as (Hb & Hc & _). destruct compare_words_bytes as [HB HC].
  pose proof (word_from_bytes (alu_b e)) as Wb. pose proof (word_from_bytes (alu_c e)) as Wc. fold b in Wb. fold c in Wc.
  pose proof (lt_formula s b c Wb Wc) as Hform. cbn beta in Hform. fold B C in Hform.
  unfold b, c in Hform. rewrite !to_u32_word_from in Hform by done. fold b c in Hform.
  pose proof Wb as (_ & _ & _ & W3). pose proof Wc as (_ & _ & _ & V3).
  change (w3 b) with b.[3] in W3. change (w3 c) with c.[3] in V3.
  pose proof loop_complete as Hloop. cbv zeta in Hloop.
  assert (forall w : Word, set_byte w 3 (w.[3] * from_bool (negb s) + Z.land w.[3] 127 * from_bool s) = masked s w) as Hmask.
  { intros w. unfold masked. rewrite !set_byte_3. destruct s; cbn [from_bool negb]; [f_equal; ring|].
    destruct w. cbn. f_equal. ring. }
  assert (forall w : Word, is_u8 w.[3] -> w.[3] / 128 ≡F (w.[3] - Z.land w.[3] 127) * Finv 128) as Hmsb.
  { intros w Hw. rewrite mask_127 by done.
    replace (w.[3] - w.[3] mod 128) with (w.[3] / 128 * 128) by (Z.div_mod_to_equations; lia).
    replace (w.[3] / 128 * 128 * Finv 128) with (w.[3] / 128 * (Finv 128 * 128)) by ring.
    rewrite (Finv_spec 128) by discriminate. by rewrite Z.mul_1_r. }
  assert (v = (if s then b.[3] / 128 else 0) * (1 - (if s then c.[3] / 128 else 0)) +
    from_bool ((if s then b.[3] / 128 else 0) =? (if s then c.[3] / 128 else 0)) * diff_sltu B C) as Hv.
  { rewrite Hform, Ev. by destruct s. }
  assert (forall w : Word, is_u8 w.[3] -> w.[3] / 128 = 0 \/ w.[3] / 128 = 1) as Hq.
  { intros w Hw. rewrite is_u8_iff in Hw. Z.div_mod_to_equations. lia. }
  pose proof (Hq b W3) as Qb. pose proof (Hq c V3) as Qc. clear Hq.
  unfold eval, lt_cols, lt_lookups. cbv zeta.
  set (bb := if s then b.[3] / 128 else 0) in *. set (cb := if s then c.[3] / 128 else 0) in *.
  assert (bb = b.[3] / 128 * from_bool s /\ cb = c.[3] / 128 * from_bool s) as [Ebb Ecb]
    by (subst bb cb; destruct s; cbn [from_bool]; lia).
  assert ((bb = 0 \/ bb = 1) /\ (cb = 0 \/ cb = 1)) as [Qbb Qcb] by (subst bb cb; destruct s; lia).
  assert (from_bool s + from_bool (negb s) = 1) as Hreal by (by destruct s).
  clearbody bb cb. clear Hform Ev.
  destruct (first_diff_cases B C HB HC) as [(E & Eq & D)|(i & E & Hi & Nb & Ne & Hj & D)]; rewrite E in *;
    cbn [pc is_slt is_sltu a LtChip.b LtChip.c op_a_not_0 byte_flags b_masked c_masked not_eq_inv msb_b msb_c bit_b bit_c sltu
      is_comp_eq is_sign_eq comparison_bytes fst snd] in *; rewrite !Hmask; fold B C;
    destruct (fold_left _ _ _) as [[[vis bc] cc] loop]; destruct Hloop as (L1 & L2 & L3 & -> & ->);
    rewrite Hreal; (split_and!;
    [|rewrite !byte_messages_app, L2, !byte_messages_when by repeat constructor; reflexivity
     |rewrite !receives_app, L3; reflexivity]);
    rewrite !all_hold_app; (split_and!; [by split|by split| | | | | | | |exact L1| | |by split| |by split]);
    rewrite ?all_hold_when; unfold when_not, when_ne; rewrite ?all_hold_when; intros;
    cbn [all_hold holds]; split_and!; try exact I; try apply bool_eqF; try reflexivity;
    try (rewrite Ebb; reflexivity); try (rewrite Ecb; reflexivity); try (apply Hmsb; done);
    try (rewrite Hv; reflexivity); try (right; reflexivity); try (left; reflexivity);
    try (rewrite (bool_decide_eq_true_2 (B = C)) in * by done); try (rewrite (bool_decide_eq_false_2 (B = C)) in * by done);
    try (destruct i as [|[|[|[|]]]]; try lia; first [reflexivity|left; reflexivity|right; reflexivity]);
    try (destruct (Z.eqb_spec bb cb) as [->|]; cbn [from_bool] in *;
         first [reflexivity|exfalso; match goal with H : ~ _ ≡F 0 |- _ => apply H; reflexivity end|idtac]).
  all: try (exfalso; match goal with H : ~ _ ≡F 0 |- _ => apply H; reflexivity end).
  all: try (replace (bb + cb) with 1 by lia; reflexivity).
  all: apply Finv_spec; intros Hd0; apply Nb; rewrite eqF_sub_0 in Hd0; apply eqF_canon in Hd0; [done|..];
    destruct HB as (?&?&?&?), HC as (?&?&?&?); destruct i as [|[|[|[|]]]]; try lia; by apply u8_canon.
Qed.

Lemma lt_row : alu_op_a_0 e = false -> exists cols evs,
  event_to_row e r = Some (cols, add_byte_lookup_events evs r) /\ wf cols /\ row_of_event e (eval cols) evs.
Proof using Ho He.
  intros Hz. pose proof lt_event_row as Hrow. cbv zeta in Hrow.
  set (v := if s then from_bool (i32 (alu_b e) <? i32 (alu_c e)) else from_bool (alu_b e <? alu_c e)) in *.
  assert (alu_a e = v) as Ea.
  { destruct He as (_ & _ & Ha). rewrite Hz in Ha. subst v. unfold s, from_bool.
    destruct Ho as [E|[E|[]]]; rewrite <- E in *; injection Ha as <-; reflexivity. }
  assert (v = 0 \/ v = 1) as Hv01 by (subst v; apply cond_from_bool).
  assert (u8 (alu_a e) = v) as Eu by (rewrite Ea; apply u8_small, is_u8_iff; lia).
  rewrite Eu, Z.eqb_refl in Hrow.
  exists (lt_cols v), lt_lookups. split; [exact Hrow|].
  split; [apply lt_cols_wf; unfold canon, BABYBEAR; lia|].
  destruct (lt_cols_hold v eq_refl) as (A & M & Rc). split_and!; [done|by rewrite M|apply lt_events_found|].
  unfold received_messages. rewrite Rc, live_cons by apply sel_sum. eexists. split; [reflexivity|].
  split; [apply sel_sum|]. cbn [values]. unfold event_message. rewrite Ea, Hz.
  assert (word_from v = extend_var v) as -> by (by destruct Hv01 as [->| ->]).
  fold b c. assert (from_bool s * opcode_u32 SLT + from_bool (negb s) * opcode_u32 SLTU = opcode_u32 (alu_opcode e)) as ->.
  { unfold s. by destruct Ho as [<-|[<-|[]]]. }
  done.
Qed.

(** An event with destination [x0] records 0, whatever the comparison. *)
Lemma lt_x0_panics : alu_op_a_0 e = true ->
  (if s then i32 (alu_b e) <? i32 (alu_c e) else alu_b e <? alu_c e) = true -> event_to_row e r = None.
Proof using Ho He.
  intros Hz Hlt. pose proof lt_event_row as Hrow. cbv zeta in Hrow. rewrite Hrow.
  destruct He as (_ & _ & Ha). rewrite Hz in Ha. rewrite Ha, <- if_from_bool, Hlt. done.
Qed.
End Rows.
