(* ===== verification/ShiftLeftChip.v ===== *)
(** * The ShiftLeft chip (crates/core/machine/src/alu/sll/mod.rs)

    One row per SLL: the first operand is multiplied by a power of two below
    256 with a carry per byte, then moved by whole bytes. *)

From Stdlib Require Import ZArith Lia Bool.
From stdpp Require Import base list.
From S2P Require Import Prelude Isa Events ByteLookup Alu Dependencies State AirBuilder ByteTable ChipSpec.

Local Open Scope Z_scope.
Local Open Scope rv_scope.

Module ShiftLeft.
Record ShiftLeftCols : Type := mkShiftLeftCols {
  pc : Z; a : Word; b : Word; c : Word; op_a_not_0 : Z;
  c_least_sig_byte : list Z; shift_by_n_bits : list Z; bit_shift_multiplier : Z;
  bit_shift_result : Word; bit_shift_result_carry : Word; shift_by_n_bytes : list Z; is_real : Z
}.

(** [bit_shift_result] and its carries, byte by byte. *)
Fixpoint shift_bytes (bytes : list Z) (multiplier carry : Z) : list (Z * Z) :=
  match bytes with
  | [] => []
  | b :: rest =>
      let v := b * multiplier + carry in
      (u8 (v mod 256), u8 (v / 256)) :: shift_bytes rest multiplier (v / 256)
  end.

Definition one_hot_at (i n : nat) : list Z := map (fun j => from_bool (bool_decide (i = j))) (seq 0 n).

Definition event_to_row {R} `{ByteRecord R} (event : AluEvent) (blu : R) : ShiftLeftCols * R :=
  let b := word_from (alu_b event) in
  let num_bits_to_shift := Z.to_nat (alu_c event mod 8) in
  let multiplier := Z.shiftl 1 (Z.of_nat num_bits_to_shift) in
  let shifted := shift_bytes (limbs b) multiplier 0 in
  let bit_shift_result := word_of (fun i => fst (nth i shifted (0, 0))) in
  let bit_shift_result_carry := word_of (fun i => snd (nth i shifted (0, 0))) in
  let num_bytes_to_shift := Z.to_nat (Z.land (alu_c event) 31 / 8) in
  let blu := add_u8_range_checks (limbs bit_shift_result) blu in
  let blu := add_u8_range_checks (limbs bit_shift_result_carry) blu in
  (mkShiftLeftCols (Fred (alu_pc event)) (word_from (alu_a event)) b (word_from (alu_c event))
     (from_bool (negb (alu_op_a_0 event)))
     (map (fun i => Z.land (Z.shiftr (alu_c event) (Z.of_nat i)) 1) (seq 0 BYTE_SIZE))
     (one_hot_at num_bits_to_shift BYTE_SIZE) multiplier
     bit_shift_result bit_shift_result_carry (one_hot_at num_bytes_to_shift WORD_SIZE) 1, blu).

(** The padding row of [generate_trace]. *)
Definition padded_row_template : ShiftLeftCols :=
  mkShiftLeftCols 0 word_zero word_zero word_zero 0 (replicate 8 0) [1; 0; 0; 0; 0; 0; 0; 0] 1
    word_zero word_zero [1; 0; 0; 0] 0.

Definition eval (local : ShiftLeftCols) : list Call :=
  let bit i := nth i (c_least_sig_byte local) 0 in
  let by_bits i := nth i (shift_by_n_bits local) 0 in
  let by_bytes i := nth i (shift_by_n_bytes local) 0 in
  let base := 256 in
  let c_byte_sum := fold_left (fun s i => s + 2 ^ Z.of_nat i * bit i) (seq 0 BYTE_SIZE) 0 in
  let num_bits_to_shift := fold_left (fun s i => s + bit i * 2 ^ Z.of_nat i) (seq 0 3) 0 in
  let num_bytes_to_shift := bit 3%nat + bit 4%nat * 2 in
  [AssertEq c_byte_sum (c local).[0]] ++
  flat_map (fun i => when (by_bits i) [AssertEq num_bits_to_shift (Z.of_nat i)]) (seq 0 BYTE_SIZE) ++
  flat_map (fun i => when (by_bits i) [AssertEq (bit_shift_multiplier local) (2 ^ Z.of_nat i)]) (seq 0 BYTE_SIZE) ++
  flat_map (fun i =>
    let v := (b local).[i] * bit_shift_multiplier local - (bit_shift_result_carry local).[i] * base in
    let v := if (0 <? i)%nat then v + (bit_shift_result_carry local).[i - 1] else v in
    [AssertEq (bit_shift_result local).[i] v]) (seq 0 WORD_SIZE) ++
  flat_map (fun i => when (by_bytes i) [AssertEq num_bytes_to_shift (Z.of_nat i)]) (seq 0 WORD_SIZE) ++
  flat_map (fun n => flat_map (fun i =>
    when (by_bytes n) (when (op_a_not_0 local)
      [AssertEq (a local).[i] (if (i <? n)%nat then 0 else (bit_shift_result local).[i - n])]))
    (seq 0 WORD_SIZE)) (seq 0 WORD_SIZE) ++
  map AssertBool (c_least_sig_byte local) ++
  map AssertBool (shift_by_n_bits local) ++
  [AssertEq (sum_columns (shift_by_n_bits local)) 1] ++
  slice_range_check_u8 (limbs (bit_shift_result local)) (is_real local) ++
  slice_range_check_u8 (limbs (bit_shift_result_carry local)) (is_real local) ++
  map AssertBool (shift_by_n_bytes local) ++
  [AssertEq (sum_columns (shift_by_n_bytes local)) 1] ++
  [AssertBool (is_real local)] ++
  receive_instruction 0 0 (pc local) (pc local + DEFAULT_PC_INC) 0 (opcode_u32 SLL) (a local) (b local) (c local)
    (1 - op_a_not_0 local) 0 0 0 0 (is_real local) ++
  when (op_a_not_0 local) [AssertOne (is_real local)].

Definition wf (r : ShiftLeftCols) : Prop :=
  canon (pc r) /\ word_canon (a r) /\ word_canon (b r) /\ word_canon (c r) /\ canon (op_a_not_0 r) /\
  (length (c_least_sig_byte r) = BYTE_SIZE /\ Forall canon (c_least_sig_byte r)) /\
  (length (shift_by_n_bits r) = BYTE_SIZE /\ Forall canon (shift_by_n_bits r)) /\
  canon (bit_shift_multiplier r) /\ word_canon (bit_shift_result r) /\ word_canon (bit_shift_result_carry r) /\
  (length (shift_by_n_bytes r) = WORD_SIZE /\ Forall canon (shift_by_n_bytes r)) /\ canon (is_real r).
End ShiftLeft.

Import ShiftLeft.

(** ** The shift amount

    Eight boolean columns whose weighted sum is a byte are its bits. *)
Section Amount.
  Context (bits : list Z) (c0 : Z).
  Context (Hlen : length bits = BYTE_SIZE) (Hc : Forall canon bits) (Hb : all_hold (map AssertBool bits)).
  Context (Hc0 : is_u8 c0).
  Context (Hsum : fold_left (fun s i => s + 2 ^ Z.of_nat i * nth i bits 0) (seq 0 BYTE_SIZE) 0 ≡F c0).

Lemma amount_bits :
  fold_left (fun s i => s + nth i bits 0 * 2 ^ Z.of_nat i) (seq 0 3) 0 = c0 mod 8 /\
  nth 3 bits 0 + nth 4 bits 0 * 2 = c0 mod 32 / 8.
Proof using Hlen Hc Hb Hc0 Hsum.
  pose proof (bool_columns _ Hc Hb) as Hbool. rewrite is_u8_iff in Hc0.
  destruct bits as [|x0 [|x1 [|x2 [|x3 [|x4 [|x5 [|x6 [|x7 [|]]]]]]]]]; try discriminate Hlen.
  rewrite !Forall_cons in Hbool. destruct Hbool as (B0 & B1 & B2 & B3 & B4 & B5 & B6 & B7 & _).
  cbn [fold_left seq nth BYTE_SIZE] in *.
  change (2 ^ Z.of_nat 0) with 1 in *. change (2 ^ Z.of_nat 1) with 2 in *. change (2 ^ Z.of_nat 2) with 4 in *.
  change (2 ^ Z.of_nat 3) with 8 in *. change (2 ^ Z.of_nat 4) with 16 in *. change (2 ^ Z.of_nat 5) with 32 in *.
  change (2 ^ Z.of_nat 6) with 64 in *. change (2 ^ Z.of_nat 7) with 128 in *.
  apply eqF_small in Hsum; [|unfold BABYBEAR; lia]. clear Hc Hb. Z.div_mod_to_equations. lia.
Qed.
End Amount.

(** The shift amount of a word is that of its low byte. *)
Lemma amount_word w : word_bytes w -> Z.land (to_u32 w) 31 = w0 w mod 8 + 8 * (w0 w mod 32 / 8).
Proof.
  unfold word_bytes, to_u32, from_le_bytes32. rewrite !is_u8_iff. intros (H0 & H1 & H2 & H3).
  change 31 with (Z.ones 5). rewrite Z.land_ones by lia. change (2 ^ 5) with 32. Z.div_mod_to_equations. lia.
Qed.

(** Moving a word by [n] bytes. *)
Lemma byte_move (a res : Word) n : (n < 4)%nat -> word_bytes res ->
  (forall i, (i < 4)%nat -> a.[i] = if (i <? n)%nat then 0 else res.[i - n]) ->
  word_bytes a /\ to_u32 a = u32 (to_u32 res * 2 ^ (8 * Z.of_nat n)).
Proof.
  intros Hn (R0 & R1 & R2 & R3) Ha.
  pose proof (Ha 0%nat ltac:(lia)) as A0. pose proof (Ha 1%nat ltac:(lia)) as A1.
  pose proof (Ha 2%nat ltac:(lia)) as A2. pose proof (Ha 3%nat ltac:(lia)) as A3. clear Ha.
  destruct a as [a0 a1 a2 a3], res as [r0 r1 r2 r3]. unfold word_bytes, to_u32, from_le_bytes32.
  cbn [widx w0 w1 w2 w3] in *.
  destruct n as [|[|[|[|]]]]; cbn in A0, A1, A2, A3; subst; [| | | |lia];
    (split; [by split_and!|]); rewrite !is_u8_iff in *; rewrite u32_mod;
    [change (2 ^ (8 * Z.of_nat 0)) with 1|change (2 ^ (8 * Z.of_nat 1)) with 256
    |change (2 ^ (8 * Z.of_nat 2)) with 65536|change (2 ^ (8 * Z.of_nat 3)) with 16777216];
    Z.div_mod_to_equations; lia.
Qed.

Section Sound.
  Context (r : ShiftLeftCols) (Hwf : wf r) (Hok : row_ok (eval r)).

Lemma sll_value : is_real r = 1 -> op_a_not_0 r = 1 -> word_bytes (b r) -> word_bytes (c r) ->
  word_bytes (a r) /\ to_u32 (a r) = u32 (Z.shiftl (to_u32 (b r)) (Z.land (to_u32 (c r)) 31)).
Proof using Hwf Hok.
  intros Hr Hn Wb Wc.
  destruct Hwf as (_ & Ca & Cb & Cc & _ & [L1 F1] & [L2 F2] & Cm & Cres & Ccar & [L3 F3] & _).
  unfold eval in Hok. rewrite !row_ok_app in Hok. cbn zeta in Hok.
  destruct Hok as ([(K1 & _) _] & [K2 _] & [K3 _] & [K4 _] & [K5 _] & [K6 _] & [K7 _] & [K8 _] & [(K9 & _) _] &
    [_ K10] & [_ K11] & [K12 _] & [(K13 & _) _] & _). cbn [holds] in K1, K9, K13.
  pose proof Wc as (W0 & _).
  destruct (amount_bits _ _ L1 F1 K7 W0 K1) as [Ebits Ebytes].
  destruct (one_hot _ F2 K8 K9) as (k & Hk & Ek). destruct (one_hot _ F3 K12 K13) as (n & Hn4 & En).
  rewrite L2 in Hk. rewrite L3 in Hn4.
  rewrite all_hold_flat_map in K2, K3, K4, K5, K6.
  specialize (K2 k ltac:(apply in_seq; lia)). specialize (K3 k ltac:(apply in_seq; lia)).
  specialize (K5 n ltac:(apply in_seq; lia)). specialize (K6 n ltac:(apply in_seq; lia)).
  rewrite all_hold_when in K2, K3, K5. rewrite Ek in K2, K3. rewrite En in K5.
  destruct (K2 zero_ne_one) as [E2 _]. destruct (K3 zero_ne_one) as [E3 _]. destruct (K5 zero_ne_one) as [E5 _].
  cbn [holds] in E2, E3, E5. rewrite Ebits in E2. rewrite Ebytes in E5. clear K2 K3 K5.
  assert (~ is_real r ≡F 0) as Hr0 by (by rewrite Hr).
  apply word_range_checked in K10, K11; try done.
  apply eqF_small in E2; [|unfold BABYBEAR, BYTE_SIZE in *; Z.div_mod_to_equations; lia].
  apply eqF_small in E5; [|unfold BABYBEAR, WORD_SIZE in *; Z.div_mod_to_equations; lia].
  assert (1 <= 2 ^ Z.of_nat k <= 128) as Hpow.
  { split; [apply (Z.pow_le_mono_r 2 0); lia|]. change 128 with (2 ^ 7). apply Z.pow_le_mono_r; unfold BYTE_SIZE in *; lia. }
  apply eqF_small in E3; [|unfold canon, BABYBEAR in *; lia].
  assert (to_u32 (bit_shift_result r) = u32 (to_u32 (b r) * 2 ^ Z.of_nat k)) as Eres.
  { pose proof (K4 0%nat ltac:(by left)) as [J0 _]. pose proof (K4 1%nat ltac:(cbn; auto)) as [J1 _].
    pose proof (K4 2%nat ltac:(cbn; auto)) as [J2 _]. pose proof (K4 3%nat ltac:(cbn; auto 6)) as [J3 _].
    cbn [Nat.ltb Nat.leb Nat.sub holds widx] in J0, J1, J2, J3. rewrite E3 in *.
    unfold word_bytes in *. rewrite !is_u8_iff in *. destruct_and? Wb. destruct_and? K10. destruct_and? K11.
    clear K4 K6 E3. set (m := 2 ^ Z.of_nat k) in *. clearbody m.
    unfold to_u32, from_le_bytes32. rewrite u32_mod.
    assert (forall x, 0 <= x < 256 -> 0 <= x * m <= 32640) as Hprod by (clear - Hpow; intros; nia).
    pose proof (Hprod (w0 (b r)) ltac:(lia)). pose proof (Hprod (w1 (b r)) ltac:(lia)).
    pose proof (Hprod (w2 (b r)) ltac:(lia)). pose proof (Hprod (w3 (b r)) ltac:(lia)).
    apply eqF_small in J0, J1, J2, J3; try (unfold BABYBEAR; lia).
    apply (Z.mod_unique _ _ (w3 (bit_shift_result_carry r))); [left; lia|].
    rewrite !Z.mul_add_distr_r, <- !Z.mul_assoc. lia. }
  destruct (byte_move (a r) (bit_shift_result r) n) as [Wa Ea]; [done|done| |].
  { intros i Hi. rewrite all_hold_flat_map in K6. specialize (K6 i ltac:(apply in_seq; unfold WORD_SIZE; lia)).
    rewrite !all_hold_when, En, Hn in K6. destruct (K6 zero_ne_one zero_ne_one) as [E _].
    cbn [holds] in E. apply eqF_canon in E; [done|..].
    - destruct Ca as (?&?&?&?). by destruct i as [|[|[|]]].
    - destruct (i <? n)%nat; [done|]. destruct Cres as (?&?&?&?). by destruct (i - n)%nat as [|[|[|]]]. }
  split; [done|]. rewrite Ea, Eres, amount_word, E2, E5 by done.
  rewrite Z.shiftl_mul_pow2 by lia. rewrite Z.pow_add_r, Z.mul_assoc by lia.
  rewrite !u32_mod, Z.mul_mod_idemp_l by done. done.
Qed.

Lemma sll_receiver : alu_receiver [SLL] (eval r).
Proof using Hwf Hok.
  intros m Hm Hmult. pose proof sll_value as Hval.
  pose proof Hwf as (_ & Ca & Cb & Cc & Cn & _ & _ & _ & _ & _ & _ & Cr).
  assert (is_real r = 0 \/ is_real r = 1) as Hr.
  { unfold eval in Hok. rewrite !row_ok_app in Hok. destruct Hok as (_&_&_&_&_&_&_&_&_&_&_&_&_& [(K & _) _] & _).
    by apply bool_canon in K. }
  assert (receives KInstruction (eval r) = [mkAirInteraction
    (instruction_values 0 0 (pc r) (pc r + DEFAULT_PC_INC) 0 (opcode_u32 SLL) (a r) (b r) (c r)
      (1 - op_a_not_0 r) 0 0 0 0) (is_real r) KInstruction]) as Hrec.
  { unfold eval. rewrite !receives_app, !receives_map by done. reflexivity. }
  rewrite Hrec in Hm. apply list_elem_of_singleton in Hm as ->. cbn [multiplicity values] in *.
  apply not_zero_one in Hmult; [|done].
  split; [by apply plain_message_intro|]. split; [eapply answers_intro; [by left|reflexivity]|].
  intros H0 Wb Wc. rewrite msg_b_eq, msg_c_eq, !word_Fred in * by done. apply op_a_0_not in H0; [|done].
  destruct (Hval Hmult H0 Wb Wc) as [Wa Ea].
  apply (alu_message_intro _ _ _ _ _ _ _ _ _ _ _ _ _ _ SLL); try done. cbn [alu_result]. by rewrite Ea.
Qed.
End Sound.

(** ** Rows of events *)

Lemma one_hot_nth i n j : (j < n)%nat -> nth j (one_hot_at i n) 0 = from_bool (bool_decide (i = j)).
Proof.
  intros Hj. unfold one_hot_at. rewrite (nth_indep _ 0 (from_bool (bool_decide (i = 0%nat)))) by (by rewrite length_map, length_seq).
  rewrite (map_nth (fun j => from_bool (bool_decide (i = j)))). by rewrite seq_nth.
Qed.

Lemma one_hot_sel k n i : (i < n)%nat -> ~ nth i (one_hot_at k n) 0 ≡F 0 -> k = i.
Proof. intros Hi. rewrite one_hot_nth by done. case_bool_decide; [done|]. intros Hn. by destruct Hn. Qed.

Lemma one_hot_wf i n : length (one_hot_at i n) = n /\ Forall canon (one_hot_at i n).
Proof.
  unfold one_hot_at. rewrite length_map, length_seq. split; [done|]. apply Forall_map, Forall_forall.
  intros x _. apply from_bool_canon.
Qed.

Lemma one_hot_bools i n : all_hold (map AssertBool (one_hot_at i n)).
Proof.
  apply all_hold_map. intros x Hx. unfold one_hot_at in Hx. apply in_map_iff in Hx as (j & <- & _). cbn.
  destruct (bool_decide _); [right|left]; reflexivity.
Qed.

Lemma one_hot_sum8 i : (i < 8)%nat -> sum_columns (one_hot_at i 8) = 1.
Proof. intros Hi. do 8 (destruct i as [|i]; [reflexivity|]). lia. Qed.

Lemma one_hot_sum4 i : (i < 4)%nat -> sum_columns (one_hot_at i 4) = 1.
Proof. intros Hi. do 4 (destruct i as [|i]; [reflexivity|]). lia. Qed.

(** The columns of the bits of a number. *)
Definition bit_columns (c : Z) : list Z :=
  map (fun i => Z.land (Z.shiftr c (Z.of_nat i)) 1) (seq 0 BYTE_SIZE).

Lemma bit_columns_u8 c : bit_columns c = bit_columns (u8 c).
Proof.
  unfold bit_columns. apply map_ext_in. intros i Hi%in_seq. unfold BYTE_SIZE in Hi.
  apply Z.bits_inj'. intros n Hn. rewrite !Z.land_spec. change 1 with (Z.ones 1).
  destruct (Z.eq_dec n 0) as [->|]; [|rewrite Z.ones_spec_high by lia; by rewrite !andb_false_r].
  rewrite !Z.shiftr_spec by lia. unfold u8, wrap. rewrite Z.mod_pow2_bits_low by lia. done.
Qed.

Lemma bit_columns_facts c :
  length (bit_columns c) = BYTE_SIZE /\ Forall (fun x => x = 0 \/ x = 1) (bit_columns c) /\
  fold_left (fun s i => s + 2 ^ Z.of_nat i * nth i (bit_columns c) 0) (seq 0 BYTE_SIZE) 0 = u8 c /\
  fold_left (fun s i => s + nth i (bit_columns c) 0 * 2 ^ Z.of_nat i) (seq 0 3) 0 = c mod 8 /\
  nth 3 (bit_columns c) 0 + nth 4 (bit_columns c) 0 * 2 = Z.land c 31 / 8.
Proof.
  rewrite bit_columns_u8. pose proof (u8_range c) as Hu.
  assert (c mod 8 = u8 c mod 8) as -> by (rewrite u8_mod; Z.div_mod_to_equations; lia).
  assert (Z.land c 31 = u8 c mod 32) as ->.
  { change 31 with (Z.ones 5). rewrite Z.land_ones by lia. rewrite u8_mod. change (2 ^ 5) with 32.
    Z.div_mod_to_equations. lia. }
  generalize dependent (u8 c). clear c. intros c Hc. split; [done|].
  pose proof (byte_cases (fun c => forallb (fun x => (x =? 0) || (x =? 1)) (bit_columns c) &&
    (fold_left (fun s i => s + 2 ^ Z.of_nat i * nth i (bit_columns c) 0) (seq 0 BYTE_SIZE) 0 =? c) &&
    (fold_left (fun s i => s + nth i (bit_columns c) 0 * 2 ^ Z.of_nat i) (seq 0 3) 0 =? c mod 8) &&
    (nth 3 (bit_columns c) 0 + nth 4 (bit_columns c) 0 * 2 =? c mod 32 / 8)) eq_refl c Hc) as H.
  apply andb_true_iff in H as [H H4]. apply andb_true_iff in H as [H H3]. apply andb_true_iff in H as [H1 H2].
  apply Z.eqb_eq in H2, H3, H4. split_and!; [|done..].
  rewrite forallb_forall in H1. apply Forall_forall. intros x Hx. apply list_elem_of_In, H1 in Hx.
  apply orb_true_iff in Hx as [Hx|Hx]; apply Z.eqb_eq in Hx; auto.
Qed.

Lemma bits_canon l : Forall (fun x => x = 0 \/ x = 1) l -> Forall canon l /\ all_hold (map AssertBool l).
Proof.
  intros H. split; [eapply Forall_impl; [exact H|]; intros x [->| ->]; done|].
  apply all_hold_map. intros x Hx. rewrite Forall_forall in H. apply list_elem_of_In, H in Hx.
  destruct Hx as [->| ->]; cbn; [left|right]; reflexivity.
Qed.

(** The bytes of the bit shift. *)
Lemma shift_bytes_spec w m : word_bytes w -> 1 <= m <= 128 ->
  let v0 := w.[0] * m in let v1 := w.[1] * m + v0 / 256 in
  let v2 := w.[2] * m + v1 / 256 in let v3 := w.[3] * m + v2 / 256 in
  shift_bytes (limbs w) m 0 = [(v0 mod 256, v0 / 256); (v1 mod 256, v1 / 256); (v2 mod 256, v2 / 256); (v3 mod 256, v3 / 256)] /\
  is_u8 (v0 / 256) /\ is_u8 (v1 / 256) /\ is_u8 (v2 / 256) /\ is_u8 (v3 / 256).
Proof.
  intros (H0 & H1 & H2 & H3) Hm v0 v1 v2 v3. unfold limbs. cbn [shift_bytes]. rewrite Z.add_0_r.
  change (w0 w * m) with v0. change (w1 w * m + v0 / 256) with v1. change (w2 w * m + v1 / 256) with v2.
  change (w3 w * m + v2 / 256) with v3.
  assert (forall x y, is_u8 x -> is_u8 y -> is_u8 ((x * m + y) / 256)) as Hq.
  { intros x y Hx Hy. rewrite is_u8_iff in *. assert (0 <= x * m <= 32640) by nia. Z.div_mod_to_equations. lia. }
  assert (is_u8 (v0 / 256)) as B0 by (unfold v0; rewrite <- (Z.add_0_r (_ * m)); apply Hq; done).
  assert (is_u8 (v1 / 256)) as B1 by (apply Hq; done). assert (is_u8 (v2 / 256)) as B2 by (apply Hq; done).
  assert (is_u8 (v3 / 256)) as B3 by (apply Hq; done).
  rewrite !(u8_small (_ / 256)) by done. rewrite !(u8_small (_ mod 256)) by (apply is_u8_iff, Z.mod_pos_bound; lia).
  done.
Qed.

Section Rows.
  Context {R} `{ByteRecord R} (e : AluEvent) (r : R).
  Context (Ho : alu_opcode e = SLL) (He : alu_event_ok e).

Lemma sll_row : exists cols evs,
  event_to_row e r = (cols, add_byte_lookup_events evs r) /\ wf cols /\ row_of_event e (eval cols) evs.
Proof using Ho He.
  destruct He as (Hb & Hc & Ha). unfold event_to_row.
  set (b := word_from (alu_b e)). pose proof (word_from_bytes (alu_b e)) as Wb. fold b in Wb.
  pose proof (Z.mod_pos_bound (alu_c e) 8 ltac:(lia)) as Hk8.
  set (k := Z.to_nat (alu_c e mod 8)). assert (k < 8)%nat as Hk by (subst k; lia).
  set (m := Z.shiftl 1 (Z.of_nat k)).
  assert (m = 2 ^ Z.of_nat k) as Em by (subst m; rewrite Z.shiftl_mul_pow2 by lia; lia).
  assert (1 <= m <= 128) as Hm.
  { rewrite Em. split; [apply (Z.pow_le_mono_r 2 0); lia|]. change 128 with (2 ^ 7). apply Z.pow_le_mono_r; lia. }
  assert (0 <= Z.land (alu_c e) 31 / 8 < 4) as Hn4.
  { change 31 with (Z.ones 5). rewrite Z.land_ones by lia. pose proof (Z.mod_pos_bound (alu_c e) (2 ^ 5) ltac:(lia)).
    change (2 ^ 5) with 32 in *. Z.div_mod_to_equations. lia. }
  set (n := Z.to_nat (Z.land (alu_c e) 31 / 8)). assert (n < 4)%nat as Hn by (subst n; lia).
  destruct (shift_bytes_spec b m Wb Hm) as (Eshift & B0 & B1 & B2 & B3). cbv zeta in *. rewrite Eshift.
  set (v0 := b.[0] * m) in *. set (v1 := b.[1] * m + v0 / 256) in *. set (v2 := b.[2] * m + v1 / 256) in *.
  set (v3 := b.[3] * m + v2 / 256) in *.
  set (res := mkWord (v0 mod 256) (v1 mod 256) (v2 mod 256) (v3 mod 256)).
  set (car := mkWord (v0 / 256) (v1 / 256) (v2 / 256) (v3 / 256)).
  set (sh := [(v0 mod 256, v0 / 256); _; _; _]).
  assert (word_of (fun i => fst (nth i sh (0, 0))) = res) as -> by reflexivity.
  assert (word_of (fun i => snd (nth i sh (0, 0))) = car) as -> by reflexivity.
  assert (word_bytes res) as Wres by (unfold word_bytes; cbn [w0 w1 w2 w3]; rewrite !is_u8_iff;
    split_and!; apply Z.mod_pos_bound; lia).
  assert (word_bytes car) as Wcar by (by unfold word_bytes).
  rewrite !add_u8_range_checks_events, <- add_byte_lookup_events_app.
  eexists _, (u8_pairs (limbs res) ++ u8_pairs (limbs car)). split; [reflexivity|].
  destruct (bit_columns_facts (alu_c e)) as (L1 & F1 & S1 & S2 & S3). fold (bit_columns (alu_c e)) in *.
  destruct (bits_canon _ F1) as [C1 A1].
  split.
  { unfold wf. cbn [pc a ShiftLeft.b c op_a_not_0 c_least_sig_byte shift_by_n_bits bit_shift_multiplier bit_shift_result
      bit_shift_result_carry shift_by_n_bytes is_real].
    split_and!; auto using one_hot_wf, word_bytes_canon with rvbound; try apply one_hot_wf; try done.
    unfold canon, BABYBEAR. lia. }
  assert (to_u32 res = u32 (alu_b e * 2 ^ Z.of_nat k)) as Eres.
  { rewrite <- Em, <- (to_u32_word_from (alu_b e) Hb). fold b. unfold to_u32, from_le_bytes32, res. cbn [w0 w1 w2 w3].
    rewrite u32_mod. unfold v0, v1, v2, v3. cbn [widx].
    apply (Z.mod_unique _ _ (v3 / 256)); unfold v3, v2, v1, v0; cbn [widx].
    - left. Z.div_mod_to_equations. lia.
    - rewrite !Z.mul_add_distr_r, <- !Z.mul_assoc. Z.div_mod_to_equations. lia. }
  assert (alu_op_a_0 e = false -> forall i, (i < 4)%nat ->
    (word_from (alu_a e)).[i] = if (i <? n)%nat then 0 else res.[i - n]) as Hbytes.
  { intros Hz i Hi. rewrite Hz, Ho in Ha. cbn [alu_result] in Ha. injection Ha as Ha.
    set (W := word_of (fun i => if (i <? n)%nat then 0 else res.[i - n])).
    assert (forall i, (i < 4)%nat -> W.[i] = if (i <? n)%nat then 0 else res.[i - n]) as HW
      by (intros j Hj; do 4 (destruct j as [|j]; [reflexivity|]); lia).
    destruct (byte_move W res n Hn Wres HW) as [WW EW]. rewrite <- HW by done. f_equal.
    rewrite <- (word_from_to_u32 W WW). f_equal. rewrite EW, Eres, <- Ha.
    rewrite Z.shiftl_mul_pow2 by (apply Z.land_nonneg; right; lia).
    rewrite !u32_mod, Z.mul_mod_idemp_l by done. rewrite <- Z.mul_assoc, <- Z.pow_add_r by lia.
    do 3 f_equal. subst k n. rewrite !Z2Nat.id by lia. change 31 with (Z.ones 5). rewrite Z.land_ones by lia.
    change (2 ^ 5) with 32. Z.div_mod_to_equations. lia. }
  unfold row_of_event. split_and!.
  - unfold eval. cbn [pc a ShiftLeft.b c op_a_not_0 c_least_sig_byte shift_by_n_bits bit_shift_multiplier bit_shift_result
      bit_shift_result_carry shift_by_n_bytes is_real]. rewrite S1, S2, S3.
    rewrite !all_hold_app, !all_hold_flat_map.
    split_and!; try exact A1; try apply one_hot_bools; try exact I; try reflexivity;
      try (intros i [_ Hi]%in_seq; apply all_hold_when; intros Hne; apply one_hot_sel in Hne; [|done]; subst i;
           split; [cbn [holds]|exact I]).
    + by split.
    + subst k. by rewrite Z2Nat.id by lia.
    + by rewrite Em.
    + intros i [_ Hi]%in_seq. split; [|exact I]. cbn [holds].
      do 4 (destruct i as [|i]; [cbn [Nat.ltb Nat.leb Nat.sub widx res car w0 w1 w2 w3]; unfold eqF; f_equal;
        unfold v3, v2, v1, v0; cbn [widx]; Z.div_mod_to_equations; lia|]). unfold WORD_SIZE in Hi. lia.
    + subst n. by rewrite Z2Nat.id by lia.
    + intros j [_ Hj]%in_seq. apply all_hold_flat_map. intros i [_ Hi]%in_seq. rewrite !all_hold_when.
      intros Hne Hz. apply one_hot_sel in Hne; [|done]. subst j. split; [|exact I]. cbn [holds].
      rewrite Hbytes; [done| |done]. destruct (alu_op_a_0 e); [|done]. by destruct Hz.
    + split; [|exact I]. cbn [holds]. by rewrite one_hot_sum8.
    + done.
    + done.
    + split; [|exact I]. cbn [holds]. by rewrite one_hot_sum4.
    + split; [right; reflexivity|exact I].
    + done.
    + apply all_hold_when. intros _. by split.
  - reflexivity.
  - rewrite Forall_app. split; apply u8_pairs_found, limbs_bytes; done.
  - eexists. split; [reflexivity|]. split; [reflexivity|]. unfold event_message. rewrite Ho. by destruct (alu_op_a_0 e).
Qed.
End Rows.
