(* ===== verification/ShiftRightChip.v ===== *)
(** * The ShiftRight chip (crates/core/machine/src/alu/sr)

    One row per SRL or SRA: the first operand, extended to eight bytes, is
    moved by whole bytes and then by up to seven bits with [ShrCarry] lookups. *)

From Stdlib Require Import ZArith Lia Bool.
From stdpp Require Import base list.
From S2P Require Import Prelude Isa Events ByteLookup Alu Dependencies State AirBuilder ByteTable ChipSpec ShiftLeftChip.

Local Open Scope Z_scope.
Local Open Scope rv_scope.

Module ShiftRightChip.
(** sr/utils.rs *)
Definition nb_bytes_to_shift (shift_amount : Z) : nat := Z.to_nat (shift_amount mod 32 / 8).
Definition nb_bits_to_shift (shift_amount : Z) : nat := Z.to_nat (shift_amount mod 32 mod 8).

Record ShiftRightCols : Type := mkShiftRightCols {
  pc : Z; a : Word; b : Word; c : Word; op_a_not_0 : Z; shift_by_n_bits : list Z; shift_by_n_bytes : list Z;
  byte_shift_result : list Z; bit_shift_result : list Z; shr_carry_output_carry : list Z;
  shr_carry_output_shifted_byte : list Z; b_msb : Z; c_least_sig_byte : list Z; is_srl : Z; is_sra : Z; is_real : Z
}.

(** [to_le_bytes] of an [i64] or [u64]. *)
Definition to_le_bytes64 (x : Z) : list Z := map (fun i => u8 (Z.shiftr x (8 * Z.of_nat i))) (seq 0 8).

(** The bit-shift loop, from the most significant byte: result, carry and
    shifted byte at each index, least significant first. *)
Fixpoint bit_shift (bytes : list Z) (num_bits : Z) : list (Z * Z * Z) :=
  match bytes with
  | [] => []
  | x :: rest =>
      let above := bit_shift rest num_bits in
      let last_carry := match above with (_, carry, _) :: _ => carry | [] => 0 end in
      let '(shift, carry) := ByteChip.shr_carry x num_bits in
      (Z.land (shift + last_carry * 2 ^ (8 - num_bits)) 0xff, carry, shift) :: above
  end.

Definition event_to_row {R} `{ByteRecord R} (event : AluEvent) (blu : R) : ShiftRightCols * R :=
  let b := word_from (alu_b event) in
  let blu := add_byte_lookup_events
    [mkByteLookupEvent ByteOpcode.MSB (Z.land (Z.shiftr b.[3] 7) 1) 0 b.[3] 0] blu in
  let num_bytes_to_shift := nb_bytes_to_shift (alu_c event) in
  let num_bits_to_shift := nb_bits_to_shift (alu_c event) in
  let sign_extended_b :=
    to_le_bytes64 (if bool_decide (alu_opcode event = SRA) then i32 (alu_b event) else alu_b event) in
  let byte_shift_result := map (fun i =>
    if (i + num_bytes_to_shift <? LONG_WORD_SIZE)%nat then nth (i + num_bytes_to_shift) sign_extended_b 0 else 0)
    (seq 0 LONG_WORD_SIZE) in
  let shifted := bit_shift byte_shift_result (Z.of_nat num_bits_to_shift) in
  let blu := fold_left (fun blu '((_, carry, shift), byte) =>
      add_byte_lookup_event (mkByteLookupEvent ByteOpcode.ShrCarry shift carry byte (Z.of_nat num_bits_to_shift)) blu)
    (rev (zip shifted byte_shift_result)) blu in
  let bit_shift_result := map (fun '(x, _, _) => x) shifted in
  let carries := map (fun '(_, x, _) => x) shifted in
  let shifts := map (fun '(_, _, x) => x) shifted in
  let blu := add_u8_range_checks byte_shift_result blu in
  let blu := add_u8_range_checks bit_shift_result blu in
  let blu := add_u8_range_checks carries blu in
  let blu := add_u8_range_checks shifts blu in
  (mkShiftRightCols (Fred (alu_pc event)) (word_from (alu_a event)) b (word_from (alu_c event))
     (from_bool (negb (alu_op_a_0 event)))
     (ShiftLeft.one_hot_at num_bits_to_shift BYTE_SIZE) (ShiftLeft.one_hot_at num_bytes_to_shift WORD_SIZE)
     byte_shift_result bit_shift_result carries shifts
     (Z.land (Z.shiftr (alu_b event) 31) 1)
     (map (fun i => Z.land (Z.shiftr (alu_c event) (Z.of_nat i)) 1) (seq 0 BYTE_SIZE))
     (from_bool (bool_decide (alu_opcode event = SRL))) (from_bool (bool_decide (alu_opcode event = SRA))) 1, blu).

(** A padding row of [generate_trace]. *)
Definition padding_row : ShiftRightCols :=
  mkShiftRightCols 0 word_zero word_zero word_zero 0 [1; 0; 0; 0; 0; 0; 0; 0] [1; 0; 0; 0]
    (replicate 8 0) (replicate 8 0) (replicate 8 0) (replicate 8 0) 0 (replicate 8 0) 0 0 0.

Definition eval (local : ShiftRightCols) : list Call :=
  let bit i := nth i (c_least_sig_byte local) 0 in
  let by_bits i := nth i (shift_by_n_bits local) 0 in
  let by_bytes i := nth i (shift_by_n_bytes local) 0 in
  let c_byte_sum := fold_left (fun s i => s + 2 ^ Z.of_nat i * bit i) (seq 0 BYTE_SIZE) 0 in
  let num_bits_to_shift := fold_left (fun s i => s + bit i * 2 ^ Z.of_nat i) (seq 0 3) 0 in
  let num_bytes_to_shift := bit 3%nat + bit 4%nat * 2 in
  let leading_byte := is_sra local * b_msb local * 0xff in
  let sign_extended_b := limbs (b local) ++ replicate WORD_SIZE leading_byte in
  let carry_multiplier := fold_left (fun s i => s + 2 ^ (8 - Z.of_nat i) * by_bits i) (seq 0 BYTE_SIZE) 0 in
  send_byte (ByteOpcode.as_u8 ByteOpcode.MSB) (b_msb local) (b local).[3] 0 (is_real local) ++
  [AssertEq c_byte_sum (c local).[0]] ++
  flat_map (fun i => when (by_bits i) [AssertEq num_bits_to_shift (Z.of_nat i)]) (seq 0 BYTE_SIZE) ++
  [AssertEq (sum_columns (shift_by_n_bits local)) 1] ++
  flat_map (fun i => when (by_bytes i) [AssertEq num_bytes_to_shift (Z.of_nat i)]) (seq 0 WORD_SIZE) ++
  [AssertEq (sum_columns (shift_by_n_bytes local)) 1] ++
  flat_map (fun n => flat_map (fun i =>
      when (by_bytes n) [AssertEq (nth i (byte_shift_result local) 0) (nth (i + n) sign_extended_b 0)])
    (seq 0 (LONG_WORD_SIZE - n))) (seq 0 WORD_SIZE) ++
  flat_map (fun i => send_byte_pair (ByteOpcode.as_u8 ByteOpcode.ShrCarry)
      (nth i (shr_carry_output_shifted_byte local) 0) (nth i (shr_carry_output_carry local) 0)
      (nth i (byte_shift_result local) 0) num_bits_to_shift (is_real local)) (rev (seq 0 LONG_WORD_SIZE)) ++
  flat_map (fun i =>
      let v := nth i (shr_carry_output_shifted_byte local) 0 in
      let v := if (i + 1 <? LONG_WORD_SIZE)%nat
               then v + nth (i + 1) (shr_carry_output_carry local) 0 * carry_multiplier else v in
      [AssertEq v (nth i (bit_shift_result local) 0)]) (rev (seq 0 LONG_WORD_SIZE)) ++
  flat_map (fun i => when (op_a_not_0 local) [AssertEq (a local).[i] (nth i (bit_shift_result local) 0)])
    (seq 0 WORD_SIZE) ++
  map AssertBool [is_srl local; is_sra local; is_real local; b_msb local] ++
  map AssertBool (shift_by_n_bytes local) ++
  map AssertBool (shift_by_n_bits local) ++
  map AssertBool (c_least_sig_byte local) ++
  flat_map (fun long_word => slice_range_check_u8 long_word (is_real local))
    [byte_shift_result local; bit_shift_result local; shr_carry_output_carry local;
     shr_carry_output_shifted_byte local] ++
  [AssertBool (is_srl local); AssertBool (is_sra local); AssertBool (is_real local);
   AssertEq (is_srl local + is_sra local) (is_real local)] ++
  receive_instruction 0 0 (pc local) (pc local + DEFAULT_PC_INC) 0
    (is_srl local * opcode_u32 SRL + is_sra local * opcode_u32 SRA) (a local) (b local) (c local)
    (1 - op_a_not_0 local) 0 0 0 0 (is_real local) ++
  when (op_a_not_0 local) [AssertOne (is_real local)].

Definition col_list (n : nat) (l : list Z) : Prop := length l = n /\ Forall canon l.

Definition wf (r : ShiftRightCols) : Prop :=
  canon (pc r) /\ word_canon (a r) /\ word_canon (b r) /\ word_canon (c r) /\ canon (op_a_not_0 r) /\
  col_list 8 (shift_by_n_bits r) /\ col_list 4 (shift_by_n_bytes r) /\ col_list 8 (byte_shift_result r) /\
  col_list 8 (bit_shift_result r) /\ col_list 8 (shr_carry_output_carry r) /\
  col_list 8 (shr_carry_output_shifted_byte r) /\ canon (b_msb r) /\ col_list 8 (c_least_sig_byte r) /\
  canon (is_srl r) /\ canon (is_sra r) /\ canon (is_real r).
End ShiftRightChip.

Import ShiftRightChip.

(** ** The number that is shifted

    Bytes of an integer in two's complement, and of its right shift. *)
Definition byte_at (x : Z) (j : nat) : Z := u8 (Z.shiftr x (8 * Z.of_nat j)).

Lemma byte_at_div x j : byte_at x j = x / 256 ^ Z.of_nat j mod 256.
Proof.
  unfold byte_at. rewrite Z.shiftr_div_pow2 by lia. rewrite Z.pow_mul_r by lia. change (2 ^ 8) with 256.
  by rewrite u8_mod.
Qed.

Lemma byte_at_u8 x j : is_u8 (byte_at x j).
Proof. apply u8_range. Qed.

Lemma shift_step x k : 0 <= k < 8 ->
  x mod 256 / 2 ^ k + (x / 256 mod 256) mod 2 ^ k * 2 ^ (8 - k) = x / 2 ^ k mod 256.
Proof.
  intros Hk.
  assert (k = 0 \/ k = 1 \/ k = 2 \/ k = 3 \/ k = 4 \/ k = 5 \/ k = 6 \/ k = 7) as Hc by lia.
  destruct Hc as [->|[->|[->|[->|[->|[->|[->| ->]]]]]]];
    [change (2 ^ 0) with 1; change (2 ^ (8 - 0)) with 256
    |change (2 ^ 1) with 2; change (2 ^ (8 - 1)) with 128
    |change (2 ^ 2) with 4; change (2 ^ (8 - 2)) with 64
    |change (2 ^ 3) with 8; change (2 ^ (8 - 3)) with 32
    |change (2 ^ 4) with 16; change (2 ^ (8 - 4)) with 16
    |change (2 ^ 5) with 32; change (2 ^ (8 - 5)) with 8
    |change (2 ^ 6) with 64; change (2 ^ (8 - 6)) with 4
    |change (2 ^ 7) with 128; change (2 ^ (8 - 7)) with 2];
    Z.div_mod_to_equations; lia.
Qed.

(** One byte of the shifted number from two bytes of the number. *)
Lemma byte_at_shift x n k i : 0 <= k < 8 ->
  byte_at x (i + n) / 2 ^ k + byte_at x (i + 1 + n) mod 2 ^ k * 2 ^ (8 - k) =
  byte_at (Z.shiftr x (k + 8 * Z.of_nat n)) i.
Proof.
  intros Hk. rewrite !byte_at_div.
  replace (Z.of_nat (i + 1 + n)) with (Z.of_nat (i + n) + 1) by lia.
  rewrite Z.pow_add_r, <- Z.div_div by lia. change (256 ^ 1) with 256.
  rewrite shift_step by done. rewrite Z.shiftr_div_pow2 by lia. rewrite !Z.div_div by lia. do 2 f_equal.
  change 256 with (2 ^ 8). rewrite <- !Z.pow_mul_r, <- !Z.pow_add_r by lia. f_equal. lia.
Qed.

(** The operand as an integer, and its bytes. *)
Definition extended (sra : bool) (x : Z) : Z := if sra then i32 x else x.

Lemma extended_low s w j : word_bytes w -> (j < 4)%nat -> byte_at (extended s (to_u32 w)) j = w.[j].
Proof.
  intros Hw Hj. rewrite byte_at_div. pose proof (to_u32_range w Hw) as Hr.
  assert (exists q, extended s (to_u32 w) = to_u32 w + q * 4294967296) as (q & ->).
  { destruct s; cbn [extended]; [|exists 0; lia]. destruct (i32_cases _ Hr) as [[_ ->]|[_ ->]]; [exists 0|exists (-1)]; lia. }
  unfold word_bytes, to_u32, from_le_bytes32 in *. rewrite !is_u8_iff in Hw.
  do 4 (destruct j as [|j]; [cbn [widx];
    first [change (256 ^ Z.of_nat 0) with 1|change (256 ^ Z.of_nat 1) with 256
          |change (256 ^ Z.of_nat 2) with 65536|change (256 ^ Z.of_nat 3) with 16777216];
    Z.div_mod_to_equations; lia|]). lia.
Qed.

Lemma extended_high s w j : word_bytes w -> (4 <= j < 8)%nat ->
  byte_at (extended s (to_u32 w)) j = from_bool s * (w.[3] / 128) * 255.
Proof.
  intros Hw Hj. rewrite byte_at_div. pose proof (to_u32_range w Hw) as Hr. pose proof (proj1 (is_u32_iff _) Hr) as Hr'.
  assert (4294967296 <= 256 ^ Z.of_nat j) as Hp.
  { change 4294967296 with (256 ^ 4). apply Z.pow_le_mono_r; lia. }
  assert (2147483648 <= to_u32 w <-> w.[3] / 128 = 1) as Hmsb.
  { unfold word_bytes, to_u32, from_le_bytes32 in *. rewrite !is_u8_iff in Hw. cbn [widx]. Z.div_mod_to_equations. lia. }
  assert (w.[3] / 128 = 0 \/ w.[3] / 128 = 1) as Hq.
  { unfold word_bytes in Hw. rewrite !is_u8_iff in Hw. cbn [widx]. Z.div_mod_to_equations. lia. }
  destruct s; cbn [extended from_bool].
  - destruct (i32_cases _ Hr) as [[Hs ->]|[Hs ->]].
    + rewrite Z.div_small by lia. destruct Hq as [-> | Hq]; [done|lia].
    + assert (w.[3] / 128 = 1) as -> by (apply Hmsb; lia).
      assert ((to_u32 w - 4294967296) / 256 ^ Z.of_nat j = -1) as ->; [|done].
      symmetry. apply (Z.div_unique _ _ _ (to_u32 w - 4294967296 + 256 ^ Z.of_nat j)); lia.
  - rewrite Z.div_small by lia. done.
Qed.

Lemma sign_extended_nth s w j : word_bytes w -> (j < 8)%nat ->
  nth j (limbs w ++ replicate WORD_SIZE (from_bool s * (w.[3] / 128) * 255)) 0 = byte_at (extended s (to_u32 w)) j.
Proof.
  intros Hw Hj. destruct (Nat.lt_ge_cases j 4).
  - rewrite extended_low by done. do 4 (destruct j as [|j]; [done|]). lia.
  - rewrite extended_high by (done || lia). do 8 (destruct j as [|j]; [done || lia|]). lia.
Qed.

Lemma word_from_u32 x : word_from (u32 x) = word_from x.
Proof.
  unfold word_from. rewrite !(shiftr_div_lit _ 8 256), !(shiftr_div_lit _ 16 65536), !(shiftr_div_lit _ 24 16777216) by (reflexivity || lia).
  rewrite !u8_mod, u32_mod. f_equal; Z.div_mod_to_equations; lia.
Qed.

Lemma word_from_byte_at w x : (forall i, (i < 4)%nat -> w.[i] = byte_at x i) -> w = word_from x.
Proof.
  intros Hw. pose proof (Hw 0%nat ltac:(lia)). pose proof (Hw 1%nat ltac:(lia)). pose proof (Hw 2%nat ltac:(lia)).
  pose proof (Hw 3%nat ltac:(lia)). destruct w. cbn in *. subst. unfold word_from, byte_at. cbn. by rewrite Z.shiftr_0_r.
Qed.

Lemma to_u32_word_from_any x : to_u32 (word_from x) = u32 x.
Proof. rewrite <- word_from_u32. apply to_u32_word_from, u32_range. Qed.

(** A one-hot list whose selected index is known. *)
Lemma one_hot_unique l k : Forall canon l -> all_hold (map AssertBool l) ->
  (forall i, (i < length l)%nat -> nth i l 0 = 1 -> i = k) -> (k < length l)%nat -> nth k l 0 = 1 ->
  l = ShiftLeft.one_hot_at k (length l).
Proof.
  intros Hc Hb Hu Hk Hkv. pose proof (bool_columns _ Hc Hb) as Hbool.
  apply (nth_ext _ _ 0 0); [by rewrite (proj1 (one_hot_wf k (length l)))|].
  intros i Hi. rewrite one_hot_nth by done. case_bool_decide as E; [by subst|].
  rewrite Forall_forall in Hbool. destruct (Hbool (nth i l 0)) as [E0|E1]; [by apply list_elem_of_In, nth_In|done|].
  exfalso. apply E. symmetry. by apply Hu.
Qed.

Lemma multiplier_one_hot k : (k < 8)%nat ->
  fold_left (fun s i => s + 2 ^ (8 - Z.of_nat i) * nth i (ShiftLeft.one_hot_at k 8) 0) (seq 0 BYTE_SIZE) 0 =
  2 ^ (8 - Z.of_nat k).
Proof. intros Hk. do 8 (destruct k as [|k]; [reflexivity|]). lia. Qed.

Section Sound.
  Context (r : ShiftRightCols) (Hwf : wf r) (Hok : row_ok (eval r)).

(** The shift amount of the row. *)
Lemma sr_amount : word_bytes (c r) -> exists k n, (k < 8)%nat /\ (n < 4)%nat /\
  Z.of_nat k = w0 (c r) mod 8 /\ Z.of_nat n = w0 (c r) mod 32 / 8 /\
  fold_left (fun s i => s + nth i (c_least_sig_byte r) 0 * 2 ^ Z.of_nat i) (seq 0 3) 0 = Z.of_nat k /\
  shift_by_n_bits r = ShiftLeft.one_hot_at k 8 /\ nth n (shift_by_n_bytes r) 0 = 1.
Proof using Hwf Hok.
  intros (W0 & _).
  destruct Hwf as (_ & _ & _ & _ & _ & [L1 F1] & [L2 F2] & _ & _ & _ & _ & _ & [L3 F3] & _).
  unfold eval in Hok. rewrite !row_ok_app in Hok. cbn zeta in Hok.
  destruct Hok as (_ & [(K1 & _) _] & [K2 _] & [(K3 & _) _] & [K4 _] & [(K5 & _) _] & _ & _ & _ & _ & _ & [K6 _] & [K7 _] & [K8 _] & _).
  cbn [holds] in K1, K3, K5. destruct (amount_bits _ _ L3 F3 K8 W0 K1) as [Ebits Ebytes].
  destruct (one_hot _ F1 K7 K3) as (k & Hk & Ek). destruct (one_hot _ F2 K6 K5) as (n & Hn & En).
  rewrite all_hold_flat_map in K2, K4. rewrite L1 in Hk. rewrite L2 in Hn. rewrite is_u8_iff in W0.
  assert (forall i, (i < 8)%nat -> nth i (shift_by_n_bits r) 0 = 1 -> Z.of_nat i = w0 (c r) mod 8) as Hbits.
  { intros i Hi Ei. specialize (K2 i ltac:(apply in_seq; unfold BYTE_SIZE; lia)).
    rewrite all_hold_when, Ei in K2. destruct (K2 zero_ne_one) as [E _]. cbn [holds] in E. rewrite Ebits in E.
    apply eqF_small in E; [done|]. unfold BABYBEAR. Z.div_mod_to_equations. lia. }
  specialize (K4 n ltac:(apply in_seq; unfold WORD_SIZE; lia)). rewrite all_hold_when, En in K4.
  destruct (K4 zero_ne_one) as [E _]. cbn [holds] in E. rewrite Ebytes in E.
  apply eqF_small in E; [|unfold BABYBEAR; Z.div_mod_to_equations; lia].
  exists k, n. pose proof (Hbits k Hk Ek) as Hkv. split_and!; auto; [by rewrite Ebits, Hkv|].
  rewrite <- L1. apply one_hot_unique; rewrite ?L1; auto.
  intros i Hi Ei. apply Nat2Z.inj. rewrite Hkv. by apply Hbits.
Qed.

Lemma sr_value : is_real r = 1 -> op_a_not_0 r = 1 -> word_bytes (b r) -> word_bytes (c r) ->
  is_sra r = 0 \/ is_sra r = 1 ->
  a r = word_from (Z.shiftr (extended (is_sra r =? 1) (to_u32 (b r))) (Z.land (to_u32 (c r)) 31)).
Proof using Hwf Hok.
  intros Hr Hn1 Wb Wc Hs. destruct (sr_amount Wc) as (k & n & Hk & Hn & Ek & En & Enum & Eone & En1).
  destruct Hwf as (_ & Ca & Cb & _ & _ & _ & _ & [L1 F1] & [L2 F2] & [L3 F3] & [L4 F4] & Cm & _).
  unfold eval in Hok. rewrite !row_ok_app in Hok. cbn zeta in Hok. rewrite Enum, Eone in Hok.
  destruct Hok as ([_ (K0 & _)] & _ & _ & _ & _ & _ & [K1 _] & [_ K2] & [K3 _] & [K4 _] & _ & _ & _ & _ & [_ K5] & _).
  cbn [send_byte send_byte_pair call_found kind multiplicity values] in K0.
  assert (~ is_real r ≡F 0) as Hr0 by (by rewrite Hr).
  apply msb_found in K0 as [_ Emsb]; [|done|apply Cb|done].
  rewrite (multiplier_one_hot k Hk) in K3.
  apply word_from_byte_at. intros i Hi.
  rewrite all_hold_flat_map in K1, K3, K4.
  specialize (K4 i ltac:(apply in_seq; unfold WORD_SIZE; lia)). rewrite all_hold_when, Hn1 in K4.
  destruct (K4 zero_ne_one) as [Ea _]. cbn [holds] in Ea. clear K4.
  cbn [flat_map app] in K5. rewrite app_nil_r, !bytes_found_app in K5. destruct K5 as (R1 & R2 & R3 & R4).
  apply slice_range_check_u8_found in R1, R2, R3, R4; try done.
  assert (forall j, (j < 8)%nat -> nth j (shr_carry_output_shifted_byte r) 0 = nth j (byte_shift_result r) 0 / 2 ^ Z.of_nat k /\
    nth j (shr_carry_output_carry r) 0 = nth j (byte_shift_result r) 0 mod 2 ^ Z.of_nat k) as Hlook.
  { intros j Hj. rewrite bytes_found_flat_map in K2. specialize (K2 j ltac:(rewrite <- in_rev; apply in_seq; unfold LONG_WORD_SIZE; lia)).
    destruct K2 as [K2 _]. cbn [call_found kind multiplicity values send_byte_pair] in K2.
    assert (canon (Z.of_nat k)) as Ck by (unfold canon, BABYBEAR; lia).
    apply (shr_carry_found _ _ _ (nth_canon _ j F4) (nth_canon _ j F1) Ck _ (Z.of_nat k) (nth_canon _ j F3)) in K2;
      [|lia|done|done]. by destruct K2 as (_ & ? & ?). }
  assert (forall j, (j + n < 8)%nat -> nth j (byte_shift_result r) 0 = byte_at (extended (is_sra r =? 1) (to_u32 (b r))) (j + n)) as Hbytes.
  { intros j Hj. specialize (K1 n ltac:(apply in_seq; unfold WORD_SIZE; lia)). rewrite all_hold_flat_map in K1.
    specialize (K1 j ltac:(apply in_seq; unfold LONG_WORD_SIZE; lia)). rewrite all_hold_when, En1 in K1.
    destruct (K1 zero_ne_one) as [E _]. cbn [holds] in E. apply eqF_canon in E; [rewrite E|by apply nth_canon|].
    all: assert (is_sra r * b_msb r * 255 = from_bool (is_sra r =? 1) * ((b r).[3] / 128) * 255) as ->
      by (rewrite Emsb; by destruct Hs as [->| ->]).
    all: rewrite sign_extended_nth by (done || lia). 1: done. apply u8_canon, byte_at_u8. }
  specialize (K3 i ltac:(rewrite <- in_rev; apply in_seq; unfold LONG_WORD_SIZE; lia)).
  cbv zeta in K3. assert ((i + 1 <? LONG_WORD_SIZE)%nat = true) as E1 by (apply Nat.ltb_lt; unfold LONG_WORD_SIZE; lia).
  rewrite E1 in K3. destruct K3 as [K3 _]. cbn [holds] in K3. rewrite <- K3 in Ea. clear K3.
  destruct (Hlook i ltac:(lia)) as [Es _]. destruct (Hlook (i + 1)%nat ltac:(lia)) as [_ Ec].
  rewrite Es, Ec, !Hbytes in Ea by lia. rewrite byte_at_shift in Ea by lia.
  apply eqF_canon in Ea; [|by destruct Ca as (?&?&?&?); destruct i as [|[|[|]]]|apply u8_canon, byte_at_u8].
  rewrite Ea. f_equal. f_equal. rewrite amount_word by done. lia.
Qed.
End Sound.

Lemma srl_result x s : is_u32 x -> 0 <= s -> u32 (Z.shiftr x s) = Z.shiftr x s.
Proof.
  rewrite is_u32_iff. intros Hx Hs. apply u32_small, is_u32_iff. rewrite Z.shiftr_div_pow2 by done.
  assert (0 < 2 ^ s) by (apply Z.pow_pos_nonneg; lia).
  split; [apply Z.div_pos; lia|]. apply Z.div_lt_upper_bound; nia.
Qed.

Lemma sr_result (s : bool) x y : is_u32 x -> is_u32 y ->
  alu_result (if s then SRA else SRL) x y = Some (u32 (Z.shiftr (extended s x) (Z.land y 31))).
Proof.
  intros Hx Hy. destruct s; [done|]. cbn [alu_result extended]. rewrite srl_result; [done|done|].
  apply Z.land_nonneg. right. lia.
Qed.

Lemma sr_receiver r : wf r -> row_ok (eval r) -> alu_receiver [SRL; SRA] (eval r).
Proof.
  intros Hwf Hok m Hm Hmult.
  pose proof Hwf as (_ & Ca & Cb & Cc & Cn & _ & _ & _ & _ & _ & _ & _ & _ & C1 & C2 & C3).
  assert ((is_srl r = 0 \/ is_srl r = 1) /\ (is_sra r = 0 \/ is_sra r = 1) /\ (is_real r = 0 \/ is_real r = 1) /\
    is_srl r + is_sra r ≡F is_real r) as (B1 & B2 & B3 & Hsum).
  { unfold eval in Hok. rewrite !row_ok_app in Hok.
    destruct Hok as (_&_&_&_&_&_&_&_&_&_&_&_&_&_&_& [(K1 & K2 & K3 & K4 & _) _] & _).
    cbn [holds] in *. split_and!; [by apply bool_canon..|done]. }
  assert (receives KInstruction (eval r) = [mkAirInteraction
    (instruction_values 0 0 (pc r) (pc r + DEFAULT_PC_INC) 0
      (is_srl r * opcode_u32 SRL + is_sra r * opcode_u32 SRA) (a r) (b r) (c r)
      (1 - op_a_not_0 r) 0 0 0 0) (is_real r) KInstruction]) as Hrec.
  { unfold eval. rewrite !receives_app, !receives_map by done. cbn [flat_map]. rewrite !receives_app.
    rewrite !receives_range. reflexivity. }
  rewrite Hrec in Hm. apply list_elem_of_singleton in Hm as ->. cbn [multiplicity values] in *.
  apply not_zero_one in Hmult; [|done].
  apply eqF_small in Hsum; [|unfold BABYBEAR; lia].
  set (s := is_sra r =? 1).
  assert (is_srl r * opcode_u32 SRL + is_sra r * opcode_u32 SRA = opcode_u32 (if s then SRA else SRL)) as Eo.
  { subst s. destruct B2 as [E|E]; rewrite E in *; cbn; lia. }
  split; [by apply plain_message_intro|].
  split; [apply (answers_intro _ _ _ _ _ _ _ _ _ _ _ _ _ _ _ (if s then SRA else SRL)); [destruct s; cbn; auto|by rewrite Eo]|].
  intros H0 Wb Wc. rewrite msg_b_eq, msg_c_eq, !word_Fred in * by done. apply op_a_0_not in H0; [|done].
  pose proof (sr_value r Hwf Hok Hmult H0 Wb Wc B2) as Ea. fold s in Ea.
  apply (alu_message_intro _ _ _ _ _ _ _ _ _ _ _ _ _ _ (if s then SRA else SRL)); try done; [by rewrite Eo|..].
  - rewrite Ea. apply word_from_bytes.
  - rewrite sr_result by (by apply to_u32_range). by rewrite Ea, to_u32_word_from_any.
Qed.

(** ** Rows of events *)

Definition shifted_at (l : list Z) (k : Z) : list (Z * Z * Z) :=
  map (fun i => (nth i l 0 / 2 ^ k + nth (i + 1) l 0 mod 2 ^ k * 2 ^ (8 - k), nth i l 0 mod 2 ^ k, nth i l 0 / 2 ^ k))
    (seq 0 (length l)).

Lemma shifted_byte x y k : is_u8 x -> is_u8 y -> 0 <= k < 8 -> is_u8 (x / 2 ^ k + y mod 2 ^ k * 2 ^ (8 - k)).
Proof.
  intros Hx Hy Hk. pose proof (shift_step (x + 256 * y) k Hk) as H. rewrite is_u8_iff in *.
  replace ((x + 256 * y) mod 256) with x in H by (Z.div_mod_to_equations; lia).
  replace ((x + 256 * y) / 256 mod 256) with y in H by (Z.div_mod_to_equations; lia).
  rewrite H. apply Z.mod_pos_bound. lia.
Qed.

Lemma bit_shift_spec l k : Forall is_u8 l -> 0 <= k < 8 -> bit_shift l k = shifted_at l k.
Proof.
  intros Hl Hk. induction Hl as [|x l Hx Hl IH]; [done|].
  cbn [bit_shift]. rewrite IH, shr_carry_spec by done.
  unfold shifted_at at 3. cbn [length seq map nth]. rewrite <- seq_shift, map_map. cbn [nth Nat.add].
  assert (match shifted_at l k with (_, carry, _) :: _ => carry | [] => 0 end = nth 0 l 0 mod 2 ^ k) as ->.
  { destruct l; [cbn; by rewrite Z.mod_0_l by (apply Z.pow_nonzero; lia)|done]. }
  f_equal. do 2 f_equal. change 0xff with (Z.ones 8). rewrite Z.land_ones by lia. apply Z.mod_small.
  apply shifted_byte; [done| |done]. destruct Hl; [by apply is_u8_iff|done].
Qed.

Lemma shr_carry_event x k : is_u8 x -> 0 <= k < 8 ->
  event_found (mkByteLookupEvent ByteOpcode.ShrCarry (x / 2 ^ k) (x mod 2 ^ k) x k).
Proof.
  intros Hx Hk. apply (event_found_intro _ x k); [done|apply is_u8_iff; lia|].
  unfold ByteChip.row. by rewrite shr_carry_spec.
Qed.

Section Rows.
  Context {R} `{ByteRecord R} (e : AluEvent) (r : R).
  Context (Ho : In (alu_opcode e) [SRL; SRA]) (He : alu_event_ok e).
Let s := bool_decide (alu_opcode e = SRA).
Let S := extended s (alu_b e).
Let k := nb_bits_to_shift (alu_c e).
Let n := nb_bytes_to_shift (alu_c e).

Lemma sr_event_amount : (k < 8)%nat /\ (n < 4)%nat /\ Z.of_nat k = alu_c e mod 8 /\
  Z.of_nat n = Z.land (alu_c e) 31 / 8 /\ Z.land (alu_c e) 31 = Z.of_nat k + 8 * Z.of_nat n.
Proof.
  unfold k, n, nb_bits_to_shift, nb_bytes_to_shift. change 31 with (Z.ones 5). rewrite Z.land_ones by lia.
  change (2 ^ 5) with 32. pose proof (Z.mod_pos_bound (alu_c e) 32 ltac:(lia)).
  rewrite !Z2Nat.id by (Z.div_mod_to_equations; lia). split_and!; Z.div_mod_to_equations; lia.
Qed.

(** The bytes before the bit shift. *)
Definition moved : list Z :=
  map (fun i => if (i + n <? LONG_WORD_SIZE)%nat then byte_at S (i + n) else 0) (seq 0 LONG_WORD_SIZE).

Lemma moved_bytes : Forall is_u8 moved.
Proof.
  apply Forall_map, Forall_forall. intros i _. cbn beta. destruct (Nat.ltb (i + n) LONG_WORD_SIZE); [apply byte_at_u8|done].
Qed.

Lemma moved_eq : map (fun i => if (i + n <? LONG_WORD_SIZE)%nat then nth (i + n) (to_le_bytes64 S) 0 else 0)
  (seq 0 LONG_WORD_SIZE) = moved.
Proof.
  apply map_ext_in. intros i _. destruct (Nat.ltb_spec (i + n) LONG_WORD_SIZE); [|done].
  unfold to_le_bytes64. rewrite (nth_indep _ 0 (u8 (Z.shiftr S (8 * Z.of_nat 0)))) by (by rewrite length_map, length_seq).
  rewrite (map_nth (fun i => u8 (Z.shiftr S (8 * Z.of_nat i)))). by rewrite seq_nth.
Qed.

(** The columns the row gets, and its lookups. *)
Definition sr_events : list ByteLookupEvent :=
  let sh := shifted_at moved (Z.of_nat k) in
  [mkByteLookupEvent ByteOpcode.MSB (alu_b e / 2 ^ 31) 0 (w3 (word_from (alu_b e))) 0] ++
  map (fun '((_, carry, shift), byte) => mkByteLookupEvent ByteOpcode.ShrCarry shift carry byte (Z.of_nat k)) (rev (zip sh moved)) ++
  u8_pairs moved ++ u8_pairs (map (fun '(x, _, _) => x) sh) ++ u8_pairs (map (fun '(_, x, _) => x) sh) ++
  u8_pairs (map (fun '(_, _, x) => x) sh).

Definition sr_cols : ShiftRightCols :=
  let sh := shifted_at moved (Z.of_nat k) in
  mkShiftRightCols (Fred (alu_pc e)) (word_from (alu_a e)) (word_from (alu_b e)) (word_from (alu_c e))
    (from_bool (negb (alu_op_a_0 e))) (ShiftLeft.one_hot_at k 8) (ShiftLeft.one_hot_at n 4) moved
    (map (fun '(x, _, _) => x) sh) (map (fun '(_, x, _) => x) sh) (map (fun '(_, _, x) => x) sh)
    (alu_b e / 2 ^ 31) (bit_columns (alu_c e)) (from_bool (negb s)) (from_bool s) 1.

Lemma msb_u32 x : is_u32 x -> Z.land (Z.shiftr x 31) 1 = x / 2 ^ 31 /\ Z.land (Z.shiftr (w3 (word_from x)) 7) 1 = x / 2 ^ 31.
Proof.
  rewrite is_u32_iff. intros Hx. change 1 with (Z.ones 1). rewrite !Z.land_ones by lia.
  unfold word_from. cbn [w3]. rewrite !Z.shiftr_div_pow2 by lia. rewrite u8_mod.
  change (2 ^ 31) with 2147483648. change (2 ^ 1) with 2. change (2 ^ 7) with 128. change (2 ^ 24) with 16777216.
  split; Z.div_mod_to_equations; lia.
Qed.

Lemma sr_event_row : event_to_row e r = (sr_cols, add_byte_lookup_events sr_events r).
Proof using Ho He.
  destruct He as (Hb & Hc & _). unfold event_to_row. fold s k n.
  fold S. change (if s then i32 (alu_b e) else alu_b e) with S. rewrite moved_eq.
  destruct sr_event_amount as (Hk & Hn & _). rewrite bit_shift_spec by (apply moved_bytes || lia).
  destruct (msb_u32 _ Hb) as [E1 E2]. cbn [widx]. rewrite E1, E2.
  unfold sr_cols, sr_events. cbv zeta. f_equal.
  assert (from_bool (bool_decide (alu_opcode e = SRL)) = from_bool (negb s)) as ->; [|done].
  unfold s. by destruct Ho as [<-|[<-|[]]].
Qed.

Lemma shifted_columns (f : Z * Z * Z -> Z) (P : Z -> Prop) :
  (forall x y, is_u8 x -> is_u8 y ->
     P (f (x / 2 ^ Z.of_nat k + y mod 2 ^ Z.of_nat k * 2 ^ (8 - Z.of_nat k), x mod 2 ^ Z.of_nat k, x / 2 ^ Z.of_nat k))) ->
  Forall P (map f (shifted_at moved (Z.of_nat k))).
Proof.
  intros HP. unfold shifted_at. rewrite map_map. apply Forall_map, Forall_forall. intros i _.
  apply HP; apply nth_u8, moved_bytes.
Qed.

Lemma shifted_bytes :
  Forall is_u8 (map (fun '(x, _, _) => x) (shifted_at moved (Z.of_nat k))) /\
  Forall is_u8 (map (fun '(_, x, _) => x) (shifted_at moved (Z.of_nat k))) /\
  Forall is_u8 (map (fun '(_, _, x) => x) (shifted_at moved (Z.of_nat k))).
Proof.
  destruct sr_event_amount as (Hk & _).
  assert (forall x, is_u8 x -> is_u8 (x / 2 ^ Z.of_nat k) /\ is_u8 (x mod 2 ^ Z.of_nat k)) as Hdm.
  { intros x Hx. rewrite is_u8_iff in Hx. assert (1 <= 2 ^ Z.of_nat k <= 128) as Hp.
    { split; [apply (Z.pow_le_mono_r 2 0); lia|]. change 128 with (2 ^ 7). apply Z.pow_le_mono_r; lia. }
    rewrite !is_u8_iff. pose proof (Z.mod_pos_bound x (2 ^ Z.of_nat k) ltac:(lia)).
    pose proof (Z.div_pos x (2 ^ Z.of_nat k)). pose proof (Z.div_le_upper_bound x (2 ^ Z.of_nat k) x). nia. }
  split_and!; apply shifted_columns; intros x y Hx Hy; [by apply shifted_byte; try lia|apply Hdm; done|apply Hdm; done].
Qed.

Lemma sr_cols_wf : wf sr_cols.
Proof using He.
  destruct shifted_bytes as (B1 & B2 & B3). destruct He as (Hb & _). rewrite is_u32_iff in Hb.
  destruct (bit_columns_facts (alu_c e)) as (L1 & F1 & _). destruct (bits_canon _ F1) as [C1 _].
  assert (forall l, Forall is_u8 l -> Forall canon l) as Hc by (intros l Hl; eapply Forall_impl; [exact Hl|apply u8_canon]).
  unfold wf, sr_cols, col_list. cbn [pc a b c op_a_not_0 shift_by_n_bits shift_by_n_bytes byte_shift_result bit_shift_result
    shr_carry_output_carry shr_carry_output_shifted_byte b_msb c_least_sig_byte is_srl is_sra is_real].
  split_and!; auto using moved_bytes with rvbound; try done; try apply one_hot_wf.
  unfold canon, BABYBEAR. change (2 ^ 31) with 2147483648. Z.div_mod_to_equations. lia.
Qed.

Lemma sr_events_found : Forall event_found sr_events.
Proof using He.
  destruct shifted_bytes as (B1 & B2 & B3). destruct sr_event_amount as (Hk & _).
  unfold sr_events. cbv zeta. rewrite !Forall_app. split_and!; try by apply u8_pairs_found.
  - constructor; [|constructor]. pose proof (word_from_bytes (alu_b e)) as (_ & _ & _ & W3).
    apply (event_found_intro _ (w3 (word_from (alu_b e))) 0); [done..|].
    destruct He as (Hb & _). destruct (msb_u32 _ Hb) as [_ E]. destruct (shiftr7 _ W3) as [_ E'].
    unfold event_values. cbn [bl_opcode bl_a1 bl_a2 bl_b bl_c]. rewrite <- E, E', <- msb_div by done. done.
  - pose proof moved_bytes as Hm. assert (length moved = 8%nat) as Hl by done. revert Hm Hl. generalize moved. clear -Hk.
    intros l Hm Hl. destruct l as [|x0 [|x1 [|x2 [|x3 [|x4 [|x5 [|x6 [|x7 [|]]]]]]]]]; try discriminate Hl.
    rewrite !Forall_cons in Hm. destruct Hm as (?&?&?&?&?&?&?&?&_).
    cbn [shifted_at length seq map zip zip_with rev app nth Nat.add]. rewrite !Forall_cons.
    split_and!; try (apply shr_carry_event; [done|lia]). done.
  - apply u8_pairs_found, moved_bytes.
Qed.

Lemma shifted_nth i : (i < 8)%nat ->
  nth i (map (fun '(x, _, _) => x) (shifted_at moved (Z.of_nat k))) 0 =
    nth i moved 0 / 2 ^ Z.of_nat k + nth (i + 1) moved 0 mod 2 ^ Z.of_nat k * 2 ^ (8 - Z.of_nat k) /\
  nth i (map (fun '(_, x, _) => x) (shifted_at moved (Z.of_nat k))) 0 = nth i moved 0 mod 2 ^ Z.of_nat k /\
  nth i (map (fun '(_, _, x) => x) (shifted_at moved (Z.of_nat k))) 0 = nth i moved 0 / 2 ^ Z.of_nat k.
Proof. intros Hi. do 8 (destruct i as [|i]; [split_and!; reflexivity|]). lia. Qed.

Lemma moved_nth i : (i < 8)%nat -> nth i moved 0 = if (i + n <? 8)%nat then byte_at S (i + n) else 0.
Proof. intros Hi. do 8 (destruct i as [|i]; [reflexivity|]). lia. Qed.

(** The low four bytes are those of the shifted number. *)
Lemma sr_bytes i : alu_op_a_0 e = false -> (i < 4)%nat ->
  (word_from (alu_a e)).[i] = nth i (map (fun '(x, _, _) => x) (shifted_at moved (Z.of_nat k))) 0.
Proof using Ho He.
  intros Hz Hi. destruct He as (Hb & Hc & Ha). rewrite Hz in Ha. destruct sr_event_amount as (Hk & Hn & _ & _ & Ekn).
  assert (alu_opcode e = if s then SRA else SRL) as Eo by (unfold s; by destruct Ho as [<-|[<-|[]]]).
  rewrite Eo, sr_result in Ha by done. injection Ha as Ha. rewrite <- Ha, word_from_u32. fold S.
  rewrite (proj1 (shifted_nth i ltac:(lia))), !moved_nth by lia.
  assert ((i + n <? 8)%nat = true) as -> by (apply Nat.ltb_lt; lia).
  assert ((i + 1 + n <? 8)%nat = true) as -> by (apply Nat.ltb_lt; lia).
  rewrite byte_at_shift by lia. rewrite Ekn. generalize (Z.shiftr S (Z.of_nat k + 8 * Z.of_nat n)). intros x.
  do 4 (destruct i as [|i]; [cbn [widx word_from w0 w1 w2 w3]; unfold byte_at; by rewrite ?Z.shiftr_0_r|]). lia.
Qed.

Lemma sr_cols_hold : all_hold (eval sr_cols).
Proof using Ho He.
  pose proof sr_bytes as Hby. destruct He as (Hb & Hc & Ha). destruct sr_event_amount as (Hk & Hn & Ek & En & Ekn).
  destruct (bit_columns_facts (alu_c e)) as (L1 & F1 & S1 & S2 & S3). destruct (bits_canon _ F1) as [_ A1].
  pose proof (word_from_bytes (alu_b e)) as Wb.
  unfold eval, sr_cols. cbn [pc a b c op_a_not_0 shift_by_n_bits shift_by_n_bytes byte_shift_result bit_shift_result
    shr_carry_output_carry shr_carry_output_shifted_byte b_msb c_least_sig_byte is_srl is_sra is_real].
  rewrite S1, S2, S3, (multiplier_one_hot k Hk). rewrite !all_hold_app, !all_hold_flat_map.
  split_and!; try apply one_hot_bools; try exact A1; try exact I.
  - by split.
  - by split.
  - intros i [_ Hi]%in_seq. apply all_hold_when. intros Hne. apply one_hot_sel in Hne; [|done]. subst i. by rewrite <- Ek.
  - split; [|exact I]. cbn [holds]. by rewrite one_hot_sum8.
  - intros i [_ Hi]%in_seq. apply all_hold_when. intros Hne. apply one_hot_sel in Hne; [|done]. subst i. by rewrite <- En.
  - split; [|exact I]. cbn [holds]. by rewrite one_hot_sum4.
  - intros j [_ Hj]%in_seq. apply all_hold_flat_map. intros i [_ Hi]%in_seq. apply all_hold_when. intros Hne.
    apply one_hot_sel in Hne; [|done]. subst j. split; [|exact I]. cbn [holds]. unfold LONG_WORD_SIZE in Hi.
    destruct (msb_u32 _ Hb) as [_ <-]. pose proof Wb as (_ & _ & _ & W3). destruct (shiftr7 _ W3) as [_ ->].
    change (w3 (word_from (alu_b e))) with (word_from (alu_b e)).[3].
    rewrite sign_extended_nth by (done || lia). rewrite moved_nth by lia.
    assert ((i + n <? 8)%nat = true) as -> by (apply Nat.ltb_lt; lia). by rewrite to_u32_word_from.
  - intros i _. by split.
  - intros i Hi. rewrite <- in_rev in Hi. apply in_seq in Hi as [_ Hi]. unfold LONG_WORD_SIZE in *.
    split; [|exact I]. cbn [holds]. destruct (shifted_nth i ltac:(lia)) as (-> & _ & ->).
    destruct (Nat.ltb_spec (i + 1) 8).
    + by destruct (shifted_nth (i + 1) ltac:(lia)) as (_ & -> & _).
    + rewrite (nth_overflow moved 0 (n:=(i + 1)%nat)) by done.
      rewrite Z.mod_0_l by (apply Z.pow_nonzero; lia). by rewrite Z.mul_0_l, Z.add_0_r.
  - intros i [_ Hi]%in_seq. apply all_hold_when. intros Hz. split; [|exact I]. cbn [holds].
    rewrite Hby; [done| |done]. destruct (alu_op_a_0 e); [|done]. by destruct Hz.
  - cbn [map all_hold holds]. split_and!; try apply bool_eqF; [right; reflexivity| |exact I].
    rewrite is_u32_iff in Hb. change (2 ^ 31) with 2147483648.
    assert (alu_b e / 2147483648 = 0 \/ alu_b e / 2147483648 = 1) as [->| ->] by (Z.div_mod_to_equations; lia);
      [left|right]; reflexivity.
  - intros l _. apply all_hold_range.
  - cbn [all_hold holds]. split_and!; try apply bool_eqF; [right; reflexivity| |exact I].
    by rewrite Z.add_comm, sel_sum.
  - by split.
  - apply all_hold_when. intros _. by split.
Qed.

Lemma sr_row : exists cols evs,
  event_to_row e r = (cols, add_byte_lookup_events evs r) /\ wf cols /\ row_of_event e (eval cols) evs.
Proof using Ho He.
  exists sr_cols, sr_events. split; [exact sr_event_row|]. split; [exact sr_cols_wf|].
  split_and!; [exact sr_cols_hold| |exact sr_events_found|].
  - destruct sr_event_amount as (Hk & _ & Ek & _). destruct (bit_columns_facts (alu_c e)) as (_ & _ & _ & S2 & _).
    unfold eval, sr_cols, sr_events. cbn [pc a b c op_a_not_0 shift_by_n_bits shift_by_n_bytes byte_shift_result bit_shift_result
      shr_carry_output_carry shr_carry_output_shifted_byte b_msb c_least_sig_byte is_srl is_sra is_real].
    rewrite S2, <- Ek. reflexivity.
  - eexists. split; [reflexivity|]. split; [reflexivity|]. unfold event_message.
    assert (from_bool (negb s) * opcode_u32 SRL + from_bool s * opcode_u32 SRA = opcode_u32 (alu_opcode e)) as Eo
      by (unfold s; by destruct Ho as [<-|[<-|[]]]).
    cbn [values]. unfold sr_cols. cbn [is_srl is_sra pc a b c op_a_not_0]. rewrite Eo. by destruct (alu_op_a_0 e).
Qed.
End Rows.
