(* ===== verification/MulChip.v ===== *)
(** * The Mul chip (crates/core/machine/src/alu/mul)

    One row per MUL, MULH, MULHU or MULHSU: a schoolbook product of the
    operands, extended to eight bytes, with a carry per byte. *)

From Stdlib Require Import ZArith Lia Bool.
From stdpp Require Import base list.
From S2P Require Import Prelude Isa Events ByteLookup Alu Dependencies State AirBuilder ByteTable ChipSpec ShiftRightChip.

Local Open Scope Z_scope.
Local Open Scope rv_scope.

Module MulChip.
Record MulCols : Type := mkMulCols {
  pc : Z; a : Word; b : Word; c : Word; op_a_not_0 : Z; carry : list Z; product : list Z;
  b_msb : Z; c_msb : Z; b_sign_extend : Z; c_sign_extend : Z;
  is_mul : Z; is_mulh : Z; is_mulhu : Z; is_mulhsu : Z; is_real : Z
}.

Definition BYTE_MASK : Z := 0xff.

(** mul/utils.rs *)
Definition get_msb (a : Word) : Z := Z.land (Z.shiftr a.[3] 7) 1.

(** The products of the digits, added up by position: the two loops of
    [event_to_row] and of [eval].  The sums stay below 8 * 255^2. *)
Definition uncarried (b c : list Z) : list Z :=
  fold_left (fun m i =>
    fold_left (fun m j =>
      if (i + j <? LONG_WORD_SIZE)%nat then alter (fun x => x + nth i b 0 * nth j c 0) (i + j)%nat m else m)
      (seq 0 (length c)) m)
    (seq 0 (length b)) (replicate LONG_WORD_SIZE 0).

(** The carry loop: product digit and carry at each position. *)
Fixpoint propagate (m : list Z) (carry : Z) : list (Z * Z) :=
  match m with
  | [] => []
  | x :: rest => ((x + carry) mod 256, (x + carry) / 256) :: propagate rest ((x + carry) / 256)
  end.

(** [b.resize(LONG_WORD_SIZE, BYTE_MASK)] *)
Definition extend (sign : bool) (w : Word) : list Z :=
  if sign then limbs w ++ replicate 4 BYTE_MASK else limbs w.

Definition event_to_row {R} `{ByteRecord R} (event : AluEvent) (blu : R) : MulCols * R :=
  let b_word := word_from (alu_b event) in
  let c_word := word_from (alu_c event) in
  let b_msb := get_msb b_word in
  let c_msb := get_msb c_word in
  let b_sign := (bool_decide (alu_opcode event = MULH) || bool_decide (alu_opcode event = MULHSU)) && (b_msb =? 1) in
  let c_sign := bool_decide (alu_opcode event = MULH) && (c_msb =? 1) in
  let blu := add_byte_lookup_events
    [mkByteLookupEvent ByteOpcode.MSB b_msb 0 b_word.[3] 0; mkByteLookupEvent ByteOpcode.MSB c_msb 0 c_word.[3] 0] blu in
  let digits := propagate (uncarried (extend b_sign b_word) (extend c_sign c_word)) 0 in
  let product := map fst digits in
  let carry := map snd digits in
  let blu := add_u16_range_checks (map u16 carry) blu in
  let blu := add_u8_range_checks (map u8 product) blu in
  (mkMulCols (Fred (alu_pc event)) (word_from (alu_a event)) b_word c_word (from_bool (negb (alu_op_a_0 event)))
     carry product b_msb c_msb (from_bool b_sign) (from_bool c_sign)
     (from_bool (bool_decide (alu_opcode event = MUL))) (from_bool (bool_decide (alu_opcode event = MULH)))
     (from_bool (bool_decide (alu_opcode event = MULHU))) (from_bool (bool_decide (alu_opcode event = MULHSU))) 1, blu).

(** A padding row is zero. *)
Definition padding_row : MulCols :=
  mkMulCols 0 word_zero word_zero word_zero 0 (replicate 8 0) (replicate 8 0) 0 0 0 0 0 0 0 0 0.

Definition eval (local : MulCols) : list Call :=
  let base := 256 in
  let is_b_i32 := is_mulh local + is_mulhsu local - is_mulh local * is_mulhsu local in
  let is_c_i32 := is_mulh local in
  let b := limbs (b local) ++ replicate 4 (b_sign_extend local * BYTE_MASK) in
  let c := limbs (c local) ++ replicate 4 (c_sign_extend local * BYTE_MASK) in
  let m := uncarried b c in
  let is_upper := is_mulh local + is_mulhu local + is_mulhsu local in
  let opcode := is_mul local * opcode_u32 MUL + is_mulh local * opcode_u32 MULH
    + is_mulhu local * opcode_u32 MULHU + is_mulhsu local * opcode_u32 MULHSU in
  send_byte (ByteOpcode.as_u8 ByteOpcode.MSB) (b_msb local) (MulChip.b local).[3] 0 (is_real local) ++
  send_byte (ByteOpcode.as_u8 ByteOpcode.MSB) (c_msb local) (MulChip.c local).[3] 0 (is_real local) ++
  [AssertEq (b_sign_extend local) (is_b_i32 * b_msb local);
   AssertEq (c_sign_extend local) (is_c_i32 * c_msb local)] ++
  flat_map (fun i =>
    [AssertEq (nth i (product local) 0)
       (if (i =? 0)%nat then nth i m 0 - nth i (carry local) 0 * base
        else nth i m 0 + nth (i - 1) (carry local) 0 - nth i (carry local) 0 * base)]) (seq 0 LONG_WORD_SIZE) ++
  flat_map (fun i =>
    when (op_a_not_0 local) (when (is_mul local) [AssertEq (nth i (product local) 0) (a local).[i]]) ++
    when (op_a_not_0 local) (when is_upper [AssertEq (nth (i + WORD_SIZE) (product local) 0) (a local).[i]]))
    (seq 0 WORD_SIZE) ++
  map AssertBool [b_msb local; c_msb local; b_sign_extend local; c_sign_extend local; is_mul local; is_mulh local;
                  is_mulhu local; is_mulhsu local; is_real local] ++
  when (b_sign_extend local) [AssertEq (b_msb local) 1] ++
  when (c_sign_extend local) [AssertEq (c_msb local) 1] ++
  when (is_real local) [AssertOne (is_mul local + is_mulh local + is_mulhu local + is_mulhsu local)] ++
  slice_range_check_u16 (carry local) (is_real local) ++
  slice_range_check_u8 (product local) (is_real local) ++
  receive_instruction 0 0 (pc local) (pc local + DEFAULT_PC_INC) 0 opcode (a local) (MulChip.b local) (MulChip.c local)
    (1 - op_a_not_0 local) 0 0 0 0 (is_real local) ++
  when (op_a_not_0 local) [AssertOne (is_real local)].

Definition wf (r : MulCols) : Prop :=
  canon (pc r) /\ word_canon (a r) /\ word_canon (b r) /\ word_canon (c r) /\ canon (op_a_not_0 r) /\
  ShiftRightChip.col_list 8 (carry r) /\ ShiftRightChip.col_list 8 (product r) /\
  canon (b_msb r) /\ canon (c_msb r) /\ canon (b_sign_extend r) /\ canon (c_sign_extend r) /\
  canon (is_mul r) /\ canon (is_mulh r) /\ canon (is_mulhu r) /\ canon (is_mulhsu r) /\ canon (is_real r).
End MulChip.

Import MulChip.

(** ** Schoolbook multiplication *)

Definition digits8 (l : list Z) : Z :=
  nth 0 l 0 + 256 * nth 1 l 0 + 256 ^ 2 * nth 2 l 0 + 256 ^ 3 * nth 3 l 0 + 256 ^ 4 * nth 4 l 0 +
  256 ^ 5 * nth 5 l 0 + 256 ^ 6 * nth 6 l 0 + 256 ^ 7 * nth 7 l 0.

Section Schoolbook.
  Context (b0 b1 b2 b3 b4 b5 b6 b7 c0 c1 c2 c3 c4 c5 c6 c7 : Z).
Let b := [b0; b1; b2; b3; b4; b5; b6; b7].
Let c := [c0; c1; c2; c3; c4; c5; c6; c7].

Lemma uncarried_eq : uncarried b c =
  [b0 * c0; b0 * c1 + b1 * c0; b0 * c2 + b1 * c1 + b2 * c0; b0 * c3 + b1 * c2 + b2 * c1 + b3 * c0;
   b0 * c4 + b1 * c3 + b2 * c2 + b3 * c1 + b4 * c0;
   b0 * c5 + b1 * c4 + b2 * c3 + b3 * c2 + b4 * c1 + b5 * c0;
   b0 * c6 + b1 * c5 + b2 * c4 + b3 * c3 + b4 * c2 + b5 * c1 + b6 * c0;
   b0 * c7 + b1 * c6 + b2 * c5 + b3 * c4 + b4 * c3 + b5 * c2 + b6 * c1 + b7 * c0].
Proof. reflexivity. Qed.

Lemma uncarried_bound i : Forall is_u8 b -> Forall is_u8 c -> 0 <= nth i (uncarried b c) 0 <= 520200.
Proof.
  intros Hb Hc. rewrite uncarried_eq. unfold b, c in *. rewrite !Forall_cons in Hb, Hc.
  destruct_and? Hb. destruct_and? Hc.
  assert (forall x y, is_u8 x -> is_u8 y -> 0 <= x * y <= 65025) as Hp by (intros x y; rewrite !is_u8_iff; nia).
  do 8 (destruct i as [|i]; [cbn [nth];
    repeat match goal with |- context [?x * ?y] =>
      pose proof (Hp x y ltac:(assumption) ltac:(assumption)); generalize dependent (x * y); intros end; lia|]).
  rewrite nth_overflow by (cbn; lia). lia.
Qed.

(** The digits of the uncarried product, carried, are the product modulo 2^64. *)
Lemma schoolbook p k : length p = 8%nat -> Forall is_u8 p ->
  (forall i, (i < 8)%nat -> nth i p 0 = (if (i =? 0)%nat then nth i (uncarried b c) 0 - nth i k 0 * 256
     else nth i (uncarried b c) 0 + nth (i - 1) k 0 - nth i k 0 * 256)) ->
  digits8 p = (digits8 b * digits8 c) mod 2 ^ 64.
Proof.
  intros Hl Hp Hk. rewrite uncarried_eq in Hk.
  pose proof (Hk 0%nat ltac:(lia)) as E0. pose proof (Hk 1%nat ltac:(lia)) as E1. pose proof (Hk 2%nat ltac:(lia)) as E2.
  pose proof (Hk 3%nat ltac:(lia)) as E3. pose proof (Hk 4%nat ltac:(lia)) as E4. pose proof (Hk 5%nat ltac:(lia)) as E5.
  pose proof (Hk 6%nat ltac:(lia)) as E6. pose proof (Hk 7%nat ltac:(lia)) as E7. clear Hk.
  cbn [nth Nat.eqb Nat.sub] in *.
  apply (Z.mod_unique _ _ (nth 7 k 0 +
    (b1 * c7 + b2 * c6 + b3 * c5 + b4 * c4 + b5 * c3 + b6 * c2 + b7 * c1) +
    256 * (b2 * c7 + b3 * c6 + b4 * c5 + b5 * c4 + b6 * c3 + b7 * c2) +
    256 ^ 2 * (b3 * c7 + b4 * c6 + b5 * c5 + b6 * c4 + b7 * c3) +
    256 ^ 3 * (b4 * c7 + b5 * c6 + b6 * c5 + b7 * c4) +
    256 ^ 4 * (b5 * c7 + b6 * c6 + b7 * c5) + 256 ^ 5 * (b6 * c7 + b7 * c6) + 256 ^ 6 * (b7 * c7))).
  - left. assert (forall i, 0 <= nth i p 0 < 256) as Hb by (intros i; apply is_u8_iff, nth_u8, Hp).
    pose proof (Hb 0%nat). pose proof (Hb 1%nat). pose proof (Hb 2%nat). pose proof (Hb 3%nat). pose proof (Hb 4%nat).
    pose proof (Hb 5%nat). pose proof (Hb 6%nat). pose proof (Hb 7%nat). unfold digits8. lia.
  - unfold digits8, b, c. cbn [nth]. rewrite E0, E1, E2, E3, E4, E5, E6, E7. ring.
Qed.
End Schoolbook.

(** An operand, signed or not, and its eight digits. *)
Lemma digits8_extended s w : word_bytes w ->
  exists q, digits8 (limbs w ++ replicate 4 (from_bool (s && (w.[3] / 128 =? 1)) * 255)) = extended s (to_u32 w) + q * 2 ^ 64.
Proof.
  intros Hw. pose proof (to_u32_range w Hw) as Hr.
  assert (2147483648 <= to_u32 w <-> w.[3] / 128 = 1) as Hmsb.
  { unfold word_bytes, to_u32, from_le_bytes32 in *. rewrite !is_u8_iff in Hw. cbn [widx]. Z.div_mod_to_equations. lia. }
  assert (forall x, digits8 (limbs w ++ replicate 4 x) = to_u32 w + x * 72340172821233664) as Hd.
  { intros x. unfold digits8, to_u32, from_le_bytes32. cbn [limbs replicate app nth]. ring. }
  rewrite Hd. destruct s; cbn [extended andb].
  - destruct (i32_cases _ Hr) as [[Hs ->]|[Hs ->]].
    + exists 0. destruct (Z.eqb_spec (w.[3] / 128) 1) as [E|]; [apply Hmsb in E; lia|]. cbn [from_bool]. lia.
    + exists 1. assert (w.[3] / 128 = 1) as -> by (apply Hmsb; lia). cbn [Z.eqb Pos.eqb from_bool]. lia.
  - exists 0. cbn [from_bool]. lia.
Qed.

(** The product columns hold the product of the operands as integers. *)
Lemma product_columns s t x y (sx sy : Z) p k : word_bytes x -> word_bytes y -> length p = 8%nat -> Forall is_u8 p ->
  sx = from_bool (s && (x.[3] / 128 =? 1)) -> sy = from_bool (t && (y.[3] / 128 =? 1)) ->
  (forall i, (i < 8)%nat -> nth i p 0 = (if (i =? 0)%nat
     then nth i (uncarried (limbs x ++ replicate 4 (sx * 255)) (limbs y ++ replicate 4 (sy * 255))) 0 - nth i k 0 * 256
     else nth i (uncarried (limbs x ++ replicate 4 (sx * 255)) (limbs y ++ replicate 4 (sy * 255))) 0
       + nth (i - 1) k 0 - nth i k 0 * 256)) ->
  digits8 p = (extended s (to_u32 x) * extended t (to_u32 y)) mod 2 ^ 64.
Proof.
  intros Wx Wy Hl Hp -> -> Hk. unfold limbs in Hk. cbn [replicate app] in Hk.
  rewrite (schoolbook _ _ _ _ _ _ _ _ _ _ _ _ _ _ _ _ p k Hl Hp Hk).
  destruct (digits8_extended s x Wx) as (q & E). destruct (digits8_extended t y Wy) as (q' & E').
  unfold limbs in E, E'. cbn [replicate app] in E, E'. rewrite E, E'.
  rewrite <- (Z_mod_plus_full (extended s (to_u32 x) * extended t (to_u32 y))
    (extended s (to_u32 x) * q' + q * extended t (to_u32 y) + q * q' * 2 ^ 64)). f_equal. ring.
Qed.

(** The words of a 64-bit product. *)
Lemma product_words p P : length p = 8%nat -> Forall is_u8 p -> digits8 p = P mod 2 ^ 64 ->
  mkWord (nth 0 p 0) (nth 1 p 0) (nth 2 p 0) (nth 3 p 0) = word_from P /\
  mkWord (nth 4 p 0) (nth 5 p 0) (nth 6 p 0) (nth 7 p 0) = word_from (Z.shiftr P 32).
Proof.
  intros Hl Hp Hd. assert (forall i, is_u8 (nth i p 0)) as Hb by (intros i; apply nth_u8, Hp).
  assert (forall i0 i1 i2 i3, word_bytes (mkWord (nth i0 p 0) (nth i1 p 0) (nth i2 p 0) (nth i3 p 0))) as Hw
    by (intros; unfold word_bytes; cbn [w0 w1 w2 w3]; auto).
  assert (forall i, 0 <= nth i p 0 < 256) as Hb' by (intros i; apply is_u8_iff, Hb).
  pose proof (Hb' 0%nat). pose proof (Hb' 1%nat). pose proof (Hb' 2%nat). pose proof (Hb' 3%nat). pose proof (Hb' 4%nat).
  pose proof (Hb' 5%nat). pose proof (Hb' 6%nat). pose proof (Hb' 7%nat). clear Hb'. unfold digits8 in Hd.
  split.
  - rewrite <- (word_from_to_u32 _ (Hw 0%nat 1%nat 2%nat 3%nat)), <- (word_from_u32 P). f_equal.
    unfold to_u32, from_le_bytes32. cbn [w0 w1 w2 w3]. rewrite u32_mod. Z.div_mod_to_equations. lia.
  - rewrite <- (word_from_to_u32 _ (Hw 4%nat 5%nat 6%nat 7%nat)), <- (word_from_u32 (Z.shiftr P 32)). f_equal.
    unfold to_u32, from_le_bytes32. cbn [w0 w1 w2 w3]. rewrite (shiftr_div_lit _ 32 4294967296), u32_mod by done.
    Z.div_mod_to_equations. lia.
Qed.

(** Which operands an opcode reads as signed, and which half it returns. *)
Definition b_signed (o : Opcode) : bool := match o with MULH | MULHSU => true | _ => false end.
Definition c_signed (o : Opcode) : bool := match o with MULH => true | _ => false end.
Definition upper (o : Opcode) : bool := match o with MUL => false | _ => true end.

Lemma mul_result o x y : In o [MUL; MULH; MULHU; MULHSU] -> is_u32 x -> is_u32 y ->
  let P := extended (b_signed o) x * extended (c_signed o) y in
  alu_result o x y = Some (u32 (if upper o then Z.shiftr P 32 else P)).
Proof.
  intros Hin Hx Hy P. subst P. pose proof (proj1 (is_u32_iff x) Hx) as Hx'. pose proof (proj1 (is_u32_iff y) Hy) as Hy'.
  assert (forall z, - 2 ^ 63 <= z < 2 ^ 63 -> i64 z = z) as Hi64 by (intros z; apply i64_small).
  pose proof (signed_range 32 x ltac:(lia)) as Sx. pose proof (signed_range 32 y ltac:(lia)) as Sy.
  change (signed 32 x) with (i32 x) in Sx. change (signed 32 y) with (i32 y) in Sy.
  change (2 ^ (32 - 1)) with 2147483648 in *. change (2 ^ 63) with 9223372036854775808 in *.
  destruct Hin as [<-|[<-|[<-|[<-|[]]]]]; cbn [alu_result b_signed c_signed upper extended].
  - done.
  - rewrite Hi64 by nia. done.
  - rewrite u64_small; [done|]. unfold in_u. change (2 ^ 64) with 18446744073709551616. nia.
  - rewrite Hi64 by nia. done.
Qed.

Section Sound.
  Context (r : MulCols) (Hwf : wf r) (Hok : row_ok (eval r)).

(** Exactly one opcode is selected in a real row. *)
Lemma mul_selected : is_real r = 1 -> exists o, In o [MUL; MULH; MULHU; MULHSU] /\
  is_mul r = from_bool (bool_decide (o = MUL)) /\ is_mulh r = from_bool (bool_decide (o = MULH)) /\
  is_mulhu r = from_bool (bool_decide (o = MULHU)) /\ is_mulhsu r = from_bool (bool_decide (o = MULHSU)).
Proof using Hwf Hok.
  intros Hr. destruct Hwf as (_ & _ & _ & _ & _ & _ & _ & _ & _ & _ & _ & C1 & C2 & C3 & C4 & _).
  unfold eval in Hok. rewrite !row_ok_app in Hok. cbn zeta in Hok.
  destruct Hok as (_ & _ & _ & _ & _ & [K1 _] & _ & _ & [K2 _] & _).
  cbn [map all_hold holds] in K1. destruct K1 as (_ & _ & _ & _ & B1 & B2 & B3 & B4 & _).
  apply bool_canon in B1, B2, B3, B4; try done.
  rewrite all_hold_when, Hr in K2. destruct (K2 zero_ne_one) as [E _]. cbn [holds] in E.
  destruct B1 as [E1|E1], B2 as [E2|E2], B3 as [E3|E3], B4 as [E4|E4]; rewrite E1, E2, E3, E4 in *;
    try discriminate E; [exists MULHSU|exists MULHU|exists MULH|exists MUL]; cbn; auto 10.
Qed.

Lemma mul_value o : is_real r = 1 -> op_a_not_0 r = 1 -> word_bytes (b r) -> word_bytes (c r) ->
  In o [MUL; MULH; MULHU; MULHSU] ->
  is_mul r = from_bool (bool_decide (o = MUL)) -> is_mulh r = from_bool (bool_decide (o = MULH)) ->
  is_mulhu r = from_bool (bool_decide (o = MULHU)) -> is_mulhsu r = from_bool (bool_decide (o = MULHSU)) ->
  let P := extended (b_signed o) (to_u32 (b r)) * extended (c_signed o) (to_u32 (c r)) in
  a r = word_from (if upper o then Z.shiftr P 32 else P).
Proof using Hwf Hok.
  intros Hr Hn Wb Wc Hin E1 E2 E3 E4 P.
  destruct Hwf as (_ & Ca & Cb & Cc & _ & [L1 F1] & [L2 F2] & Cbm & Ccm & Cbs & Ccs & _).
  unfold eval in Hok. rewrite !row_ok_app in Hok. cbn zeta in Hok.
  destruct Hok as ([_ (K1 & _)] & [_ (K2 & _)] & [(K3 & K4 & _) _] & [K5 _] & [K6 _] & _ & _ & _ & _ & [_ K7] & [_ K8] & _).
  cbn [send_byte send_byte_pair call_found kind multiplicity values holds] in K1, K2, K3, K4.
  assert (~ is_real r ≡F 0) as Hr0 by (by rewrite Hr).
  apply msb_found in K1 as [_ M1]; [|done|apply Cb|done]. apply msb_found in K2 as [_ M2]; [|done|apply Cc|done].
  apply slice_range_check_u16_found in K7; [|done|done]. apply slice_range_check_u8_found in K8; [|done|done].
  assert (b_sign_extend r = from_bool (b_signed o && ((b r).[3] / 128 =? 1)) /\
    c_sign_extend r = from_bool (c_signed o && ((c r).[3] / 128 =? 1))) as [Eb Ec].
  { assert (forall w : Word, word_bytes w -> w.[3] / 128 = 0 \/ w.[3] / 128 = 1) as Hq.
    { intros w (_ & _ & _ & W3). rewrite is_u8_iff in W3. cbn [widx]. Z.div_mod_to_equations. lia. }
    rewrite M1, E2, E4 in K3. rewrite M2, E2 in K4.
    destruct Hin as [<-|[<-|[<-|[<-|[]]]]], (Hq _ Wb) as [Q1|Q1], (Hq _ Wc) as [Q2|Q2]; rewrite Q1 in K3 |- *; rewrite Q2 in K4 |- *;
      (split; [apply (eqF_canon _ _ K3)|apply (eqF_canon _ _ K4)]); done. }
  assert (digits8 (product r) = P mod 2 ^ 64) as HP.
  { apply (product_columns (b_signed o) (c_signed o) (b r) (c r) (b_sign_extend r) (c_sign_extend r) (product r) (carry r)); try done.
    intros i Hi. rewrite all_hold_flat_map in K5. specialize (K5 i ltac:(apply in_seq; unfold LONG_WORD_SIZE; lia)).
    destruct K5 as [K5 _]. cbn [holds] in K5.
    assert (forall w x, word_bytes w -> Forall is_u8 (limbs w ++ replicate 4 (from_bool x * BYTE_MASK))) as Hext.
    { intros w x Hw. apply Forall_app. split; [by apply limbs_bytes|]. apply Forall_replicate. by destruct x. }
    pose proof (uncarried_bound (w0 (b r)) (w1 (b r)) (w2 (b r)) (w3 (b r)) (b_sign_extend r * BYTE_MASK) (b_sign_extend r * BYTE_MASK)
      (b_sign_extend r * BYTE_MASK) (b_sign_extend r * BYTE_MASK) (w0 (c r)) (w1 (c r)) (w2 (c r)) (w3 (c r))
      (c_sign_extend r * BYTE_MASK) (c_sign_extend r * BYTE_MASK) (c_sign_extend r * BYTE_MASK) (c_sign_extend r * BYTE_MASK) i) as Hbd.
    rewrite Eb, Ec in Hbd. specialize (Hbd (Hext _ _ Wb) (Hext _ _ Wc)). rewrite <- Eb, <- Ec in Hbd.
    assert (forall j, 0 <= nth j (carry r) 0 < 65536) as Hcar by (intros j; apply (nth_in_u16 _ j K7)).
    assert (0 <= nth i (product r) 0 < 256) as Hpr by (apply is_u8_iff, nth_u8, K8).
    pose proof (Hcar i). pose proof (Hcar (i - 1)%nat).
    unfold limbs in *. cbn [replicate app] in *. unfold BYTE_MASK in *. change 0xff with 255 in *.
    apply eqF_small in K5; [exact K5|]. unfold BABYBEAR. destruct (i =? 0)%nat; lia. }
  destruct (product_words (product r) P L2 K8 HP) as [Hlo Hhi].
  assert (forall i, (i < 4)%nat -> (a r).[i] = if upper o then nth (i + 4) (product r) 0 else nth i (product r) 0) as Ha.
  { intros i Hi. rewrite all_hold_flat_map in K6. specialize (K6 i ltac:(apply in_seq; unfold WORD_SIZE; lia)).
    rewrite all_hold_app, !all_hold_when, Hn in K6. destruct K6 as [K6 K6'].
    specialize (K6 zero_ne_one). specialize (K6' zero_ne_one). rewrite E1 in K6. rewrite E2, E3, E4 in K6'.
    assert (canon (a r).[i]) as Cai by (destruct Ca as (?&?&?&?); by destruct i as [|[|[|]]]).
    destruct Hin as [<-|[<-|[<-|[<-|[]]]]]; cbn [upper];
      [destruct (K6 zero_ne_one) as [E _]|destruct (K6' zero_ne_one) as [E _]..];
      cbn [holds] in E; symmetry; apply eqF_canon in E; auto; by apply nth_canon. }
  destruct (a r) as [a0 a1 a2 a3] eqn:Ear.
  pose proof (Ha 0%nat ltac:(lia)) as A0. pose proof (Ha 1%nat ltac:(lia)) as A1. pose proof (Ha 2%nat ltac:(lia)) as A2.
  pose proof (Ha 3%nat ltac:(lia)) as A3. cbn [widx w0 w1 w2 w3 Nat.add] in *. rewrite A0, A1, A2, A3.
  destruct (upper o); [exact Hhi|exact Hlo].
Qed.

Lemma mul_receiver : alu_receiver [MUL; MULH; MULHU; MULHSU] (eval r).
Proof using Hwf Hok.
  intros m Hm Hmult. pose proof mul_selected as Hsel. pose proof mul_value as Hval.
  pose proof Hwf as (_ & Ca & Cb & Cc & Cn & _ & _ & _ & _ & _ & _ & _ & _ & _ & _ & Cr).
  assert (is_real r = 0 \/ is_real r = 1) as Br.
  { unfold eval in Hok. rewrite !row_ok_app in Hok. destruct Hok as (_ & _ & _ & _ & _ & [K1 _] & _).
    cbn [map all_hold holds] in K1. destruct K1 as (_ & _ & _ & _ & _ & _ & _ & _ & B & _). by apply bool_canon. }
  assert (receives KInstruction (eval r) = [mkAirInteraction
    (instruction_values 0 0 (pc r) (pc r + DEFAULT_PC_INC) 0
      (is_mul r * opcode_u32 MUL + is_mulh r * opcode_u32 MULH + is_mulhu r * opcode_u32 MULHU + is_mulhsu r * opcode_u32 MULHSU)
      (a r) (b r) (c r) (1 - op_a_not_0 r) 0 0 0 0) (is_real r) KInstruction]) as Hrec.
  { unfold eval. rewrite !receives_app, !receives_map, receives_range, receives_range16 by done. reflexivity. }
  rewrite Hrec in Hm. apply list_elem_of_singleton in Hm as ->. cbn [multiplicity values] in *.
  apply not_zero_one in Hmult; [|done]. destruct (Hsel Hmult) as (o & Hin & E1 & E2 & E3 & E4).
  assert (is_mul r * opcode_u32 MUL + is_mulh r * opcode_u32 MULH + is_mulhu r * opcode_u32 MULHU + is_mulhsu r * opcode_u32 MULHSU
    = opcode_u32 o) as Eo by (rewrite E1, E2, E3, E4; by destruct Hin as [<-|[<-|[<-|[<-|[]]]]]).
  split; [by apply plain_message_intro|].
  split; [apply (answers_intro _ _ _ _ _ _ _ _ _ _ _ _ _ _ _ o); [done|by rewrite Eo]|].
  intros H0 Wb Wc. rewrite msg_b_eq, msg_c_eq, !word_Fred in * by done. apply op_a_0_not in H0; [|done].
  pose proof (Hval o Hmult H0 Wb Wc Hin E1 E2 E3 E4) as Ea. cbv zeta in Ea.
  apply (alu_message_intro _ _ _ _ _ _ _ _ _ _ _ _ _ _ o); try done; [by rewrite Eo|..].
  - rewrite Ea. apply word_from_bytes.
  - rewrite mul_result by (done || by apply to_u32_range). by rewrite Ea, to_u32_word_from_any.
Qed.
End Sound.

(** ** Rows of events *)

Lemma uncarried_extend s t x y :
  uncarried (extend s x) (extend t y) =
  uncarried (limbs x ++ replicate 4 (from_bool s * BYTE_MASK)) (limbs y ++ replicate 4 (from_bool t * BYTE_MASK)).
Proof.
  destruct x as [x0 x1 x2 x3], y as [y0 y1 y2 y3]. unfold extend, limbs.
  destruct s, t; cbn [w0 w1 w2 w3 app replicate from_bool]; cbv [uncarried BYTE_MASK LONG_WORD_SIZE];
    cbn [length seq fold_left Nat.add Nat.ltb Nat.leb nth replicate alter list_alter]; repeat (apply (f_equal2 cons); [ring|]); reflexivity.
Qed.

Lemma propagate_bounds m k : Forall (fun x => 0 <= x <= 520200) m -> 0 <= k <= 2040 ->
  Forall is_u8 (map fst (propagate m k)) /\ Forall (fun x => 0 <= x <= 2040) (map snd (propagate m k)).
Proof.
  intros Hm. revert k. induction Hm as [|x m Hx Hm IH]; intros k Hk; [split; constructor|].
  cbn [propagate map fst snd]. assert (0 <= (x + k) / 256 <= 2040) as Hq by (Z.div_mod_to_equations; lia).
  destruct (IH _ Hq) as [H1 H2]. split; constructor; auto. apply is_u8_iff, Z.mod_pos_bound. lia.
Qed.

Lemma propagate_nth m k i : (i < length m)%nat ->
  nth i (map fst (propagate m k)) 0 =
    nth i m 0 + (if (i =? 0)%nat then k else nth (i - 1) (map snd (propagate m k)) 0) - nth i (map snd (propagate m k)) 0 * 256.
Proof.
  revert k i. induction m as [|x m IH]; intros k i Hi; [cbn in Hi; lia|].
  destruct i as [|i]; cbn [propagate map fst snd nth].
  - cbn [Nat.eqb]. pose proof (Z.div_mod (x + k) 256 ltac:(lia)). lia.
  - rewrite IH by (cbn in Hi; lia). cbn [Nat.eqb]. replace (Datatypes.S i - 1)%nat with i by lia.
    destruct i as [|i]; cbn [Nat.eqb nth]; [done|]. by replace (Datatypes.S i - 1)%nat with i by lia.
Qed.

Section Rows.
  Context {R} `{ByteRecord R} (e : AluEvent) (r : R).
  Context (Ho : In (alu_opcode e) [MUL; MULH; MULHU; MULHSU]) (He : alu_event_ok e).
Let o := alu_opcode e.
Let b := word_from (alu_b e).
Let c := word_from (alu_c e).
Let sb := b_signed o && (b.[3] / 128 =? 1).
Let sc := c_signed o && (c.[3] / 128 =? 1).
Let digits := propagate (uncarried (limbs b ++ replicate 4 (from_bool sb * BYTE_MASK))
                                     (limbs c ++ replicate 4 (from_bool sc * BYTE_MASK))) 0.

Definition mul_lookups : list ByteLookupEvent :=
  [mkByteLookupEvent ByteOpcode.MSB (b.[3] / 128) 0 b.[3] 0; mkByteLookupEvent ByteOpcode.MSB (c.[3] / 128) 0 c.[3] 0] ++
  map (fun x => mkByteLookupEvent ByteOpcode.U16Range x 0 0 0) (map snd digits) ++ u8_pairs (map fst digits).

Definition mul_cols : MulCols :=
  mkMulCols (Fred (alu_pc e)) (word_from (alu_a e)) b c (from_bool (negb (alu_op_a_0 e)))
    (map snd digits) (map fst digits) (b.[3] / 128) (c.[3] / 128) (from_bool sb) (from_bool sc)
    (from_bool (bool_decide (o = MUL))) (from_bool (bool_decide (o = MULH)))
    (from_bool (bool_decide (o = MULHU))) (from_bool (bool_decide (o = MULHSU))) 1.

Lemma mul_digits : length digits = 8%nat /\ Forall is_u8 (map fst digits) /\
  Forall (fun x => 0 <= x <= 2040) (map snd digits).
Proof.
  assert (forall w x, word_bytes w -> Forall is_u8 (limbs w ++ replicate 4 (from_bool x * BYTE_MASK))) as Hext.
  { intros w x Hw. apply Forall_app. split; [by apply limbs_bytes|]. apply Forall_replicate. by destruct x. }
  split; [done|]. apply propagate_bounds; [|lia].
  pose proof (Hext b sb (word_from_bytes _)) as Hb. pose proof (Hext c sc (word_from_bytes _)) as Hc.
  apply Forall_forall. intros x Hx. apply list_elem_of_In, (In_nth _ _ 0) in Hx as (i & _ & <-).
  exact (uncarried_bound _ _ _ _ _ _ _ _ _ _ _ _ _ _ _ _ i Hb Hc).
Qed.

Lemma mul_event_row : event_to_row e r = (mul_cols, add_byte_lookup_events mul_lookups r).
Proof using Ho.
  destruct mul_digits as (Hl & H1 & H2). unfold event_to_row. fold b c.
  pose proof (word_from_bytes (alu_b e)) as (_ & _ & _ & W3). pose proof (word_from_bytes (alu_c e)) as (_ & _ & _ & V3).
  unfold get_msb. change (w3 (word_from (alu_b e))) with b.[3] in W3. change (w3 (word_from (alu_c e))) with c.[3] in V3.
  destruct (shiftr7 _ W3) as [_ ->], (shiftr7 _ V3) as [_ ->]. rewrite uncarried_extend.
  assert ((bool_decide (alu_opcode e = MULH) || bool_decide (alu_opcode e = MULHSU)) && (b.[3] / 128 =? 1) = sb) as ->
    by (unfold sb, o; by destruct Ho as [<-|[<-|[<-|[<-|[]]]]]).
  assert (bool_decide (alu_opcode e = MULH) && (c.[3] / 128 =? 1) = sc) as ->
    by (unfold sc, o; by destruct Ho as [<-|[<-|[<-|[<-|[]]]]]).
  fold digits. unfold mul_cols, mul_lookups. f_equal. rewrite !add_byte_lookup_events_app, add_u8_range_checks_events.
  assert (map u8 (map fst digits) = map fst digits) as ->.
  { apply map_id_Forall. eapply Forall_impl; [exact H1|]. intros x Hx. by apply u8_small. }
  assert (map u16 (map snd digits) = map snd digits) as ->.
  { apply map_id_Forall. eapply Forall_impl; [exact H2|]. intros x Hx. cbn in Hx. apply wrap_small. split; [lia|].
    change (2 ^ 16) with 65536. lia. }
  done.
Qed.

Lemma msb_01 (w : Word) : word_bytes w -> w.[3] / 128 = 0 \/ w.[3] / 128 = 1.
Proof. intros (_ & _ & _ & W3). rewrite is_u8_iff in W3. cbn [widx]. Z.div_mod_to_equations. lia. Qed.

Lemma mul_cols_wf : wf mul_cols.
Proof.
  destruct mul_digits as (Hl & H1 & H2).
  destruct (msb_01 b (word_from_bytes _)) as [Eb|Eb], (msb_01 c (word_from_bytes _)) as [Ec|Ec];
  unfold wf, mul_cols, ShiftRightChip.col_list; cbn [pc a MulChip.b MulChip.c op_a_not_0 carry product b_msb c_msb b_sign_extend c_sign_extend
    is_mul is_mulh is_mulhu is_mulhsu is_real]; rewrite ?Eb, ?Ec;
  (split_and!; auto with rvbound; try done; try (unfold b, c; auto with rvbound));
  try (eapply Forall_impl; [exact H2|]; intros x Hx; cbn in Hx; unfold canon, BABYBEAR; lia);
  (eapply Forall_impl; [exact H1|]; apply u8_canon).
Qed.

Lemma msb_event x : is_u8 x -> event_found (mkByteLookupEvent ByteOpcode.MSB (x / 128) 0 x 0).
Proof.
  intros Hx. apply (event_found_intro _ x 0); [done..|]. unfold event_values. cbn [bl_opcode bl_a1 bl_a2 bl_b bl_c].
  by rewrite <- msb_div.
Qed.

Lemma u16_event x : 0 <= x < 65536 -> event_found (mkByteLookupEvent ByteOpcode.U16Range x 0 0 0).
Proof.
  intros Hx. apply (event_found_intro _ (x / 256) (x mod 256)).
  - apply is_u8_iff. Z.div_mod_to_equations. lia.
  - apply is_u8_iff, Z.mod_pos_bound. lia.
  - unfold ByteChip.row. destruct (ByteChip.shr_carry _ _). unfold event_values. cbn.
    do 2 f_equal. rewrite Z.shiftl_mul_pow2 by lia. pose proof (Z.div_mod x 256 ltac:(lia)). lia.
Qed.

Lemma mul_lookups_found : Forall event_found mul_lookups.
Proof.
  destruct mul_digits as (Hl & H1 & H2). unfold mul_lookups. rewrite !Forall_app. split_and!.
  - pose proof (word_from_bytes (alu_b e)) as (_ & _ & _ & W3). pose proof (word_from_bytes (alu_c e)) as (_ & _ & _ & V3).
    rewrite !Forall_cons. split_and!; [by apply msb_event..|constructor].
  - apply Forall_map. eapply Forall_impl; [exact H2|]. intros x Hx. cbn in Hx. apply u16_event. lia.
  - by apply u8_pairs_found.
Qed.

Lemma mul_cols_hold : all_hold (eval mul_cols).
Proof using Ho He.
  destruct mul_digits as (Hl & H1 & H2). destruct He as (Hb & Hc & Ha).
  pose proof (msb_01 b (word_from_bytes _)) as Qb. pose proof (msb_01 c (word_from_bytes _)) as Qc.
  assert (forall i, (i < 8)%nat -> nth i (map fst digits) 0 = (if (i =? 0)%nat
     then nth i (uncarried (limbs b ++ replicate 4 (from_bool sb * 255)) (limbs c ++ replicate 4 (from_bool sc * 255))) 0 - nth i (map snd digits) 0 * 256
     else nth i (uncarried (limbs b ++ replicate 4 (from_bool sb * 255)) (limbs c ++ replicate 4 (from_bool sc * 255))) 0
       + nth (i - 1) (map snd digits) 0 - nth i (map snd digits) 0 * 256)) as Hdig.
  { intros i Hi. unfold digits. rewrite propagate_nth by done. destruct (i =? 0)%nat; [|done]. by rewrite Z.add_0_r. }
  pose proof (product_columns (b_signed o) (c_signed o) b c (from_bool sb) (from_bool sc) (map fst digits) (map snd digits)
    (word_from_bytes _) (word_from_bytes _) ltac:(rewrite length_map; exact Hl) H1 eq_refl eq_refl Hdig) as HP.
  unfold b, c in HP. rewrite !to_u32_word_from in HP by done. fold b c in HP.
  set (P := extended (b_signed o) (alu_b e) * extended (c_signed o) (alu_c e)) in *.
  destruct (product_words (map fst digits) P ltac:(rewrite length_map; exact Hl) H1 HP) as [Hlo Hhi].
  unfold eval, mul_cols. cbn [pc a MulChip.b MulChip.c op_a_not_0 carry product b_msb c_msb b_sign_extend c_sign_extend
    is_mul is_mulh is_mulhu is_mulhsu is_real]. rewrite !all_hold_app, !all_hold_flat_map.
  split_and!.
  - by split.
  - by split.
  - cbn [all_hold holds]. unfold sb, sc. split_and!; [| |exact I];
      destruct Ho as [E|[E|[E|[E|[]]]]]; unfold o; rewrite <- E; destruct Qb as [Qb'|Qb'], Qc as [Qc'|Qc']; rewrite ?Qb', ?Qc'; reflexivity.
  - intros i [_ Hi]%in_seq. split; [|exact I]. cbn [holds]. rewrite Hdig by done. done.
  - intros i [_ Hi]%in_seq. rewrite all_hold_app, !all_hold_when.
    assert (~ from_bool (negb (alu_op_a_0 e)) ≡F 0 -> (word_from (alu_a e)) =
      word_from (if upper o then Z.shiftr P 32 else P)) as Hword.
    { intros Hz. assert (alu_op_a_0 e = false) as Hz' by (destruct (alu_op_a_0 e); [by destruct Hz|done]).
      rewrite Hz' in Ha. fold o in Ha. rewrite mul_result in Ha by done. injection Ha as <-. by rewrite word_from_u32. }
    split; intros Hz Hsel; rewrite (Hword Hz); (split; [|exact I]); cbn [holds]; unfold o in *;
      destruct Ho as [E|[E|[E|[E|[]]]]]; rewrite <- E in *; try (exfalso; apply Hsel; reflexivity);
      cbn [upper]; rewrite <- ?Hlo, <- ?Hhi; do 4 (destruct i as [|i]; [reflexivity|]); unfold WORD_SIZE in Hi; lia.
  - cbn [map all_hold holds]. destruct Qb as [-> | ->], Qc as [-> | ->]; split_and!; try apply bool_eqF; try exact I;
      first [left; reflexivity|right; reflexivity].
  - apply all_hold_when. intros Hz. split; [|exact I]. cbn [holds]. unfold sb in Hz.
    destruct Qb as [E| ->]; [|done]. rewrite E, andb_false_r in Hz. by destruct Hz.
  - apply all_hold_when. intros Hz. split; [|exact I]. cbn [holds]. unfold sc in Hz.
    destruct Qc as [E| ->]; [|done]. rewrite E, andb_false_r in Hz. by destruct Hz.
  - apply all_hold_when. intros _. split; [|exact I]. unfold o. by destruct Ho as [<-|[<-|[<-|[<-|[]]]]].
  - apply all_hold_range16.
  - apply all_hold_range.
  - by split.
  - apply all_hold_when. intros _. by split.
Qed.

Lemma mul_row : exists cols evs,
  event_to_row e r = (cols, add_byte_lookup_events evs r) /\ wf cols /\ row_of_event e (eval cols) evs.
Proof using Ho He.
  exists mul_cols, mul_lookups. split; [exact mul_event_row|]. split; [exact mul_cols_wf|].
  split_and!; [exact mul_cols_hold|by reflexivity|exact mul_lookups_found|].
  eexists. split; [reflexivity|]. split; [reflexivity|]. unfold event_message, mul_cols. cbn [values].
  cbn [pc a MulChip.b MulChip.c op_a_not_0 is_mul is_mulh is_mulhu is_mulhsu].
  assert (from_bool (bool_decide (o = MUL)) * opcode_u32 MUL + from_bool (bool_decide (o = MULH)) * opcode_u32 MULH +
    from_bool (bool_decide (o = MULHU)) * opcode_u32 MULHU + from_bool (bool_decide (o = MULHSU)) * opcode_u32 MULHSU
    = opcode_u32 (alu_opcode e)) as -> by (unfold o; by destruct Ho as [<-|[<-|[<-|[<-|[]]]]]).
  by destruct (alu_op_a_0 e).
Qed.
End Rows.
