(* ===== verification/DivRemChip.v ===== *)
(** * The DivRem chip (crates/core/machine/src/alu/divrem)

    One row per DIV, DIVU, REM or REMU.  The chip does not divide: it takes a
    quotient and a remainder, has the Mul chip multiply, the AddSub chip negate
    and the Lt chip compare, and checks the division identity byte by byte.
    Its promise therefore rests on those of the chips it sends to. *)

From Stdlib Require Import ZArith Lia Bool Zquot.
From stdpp Require Import base list.
From S2P Require Import Prelude Isa Events ByteLookup Record Alu Dependencies State AirBuilder ByteTable Operations ChipSpec ShiftRightChip MulChip.

Local Open Scope Z_scope.
Local Open Scope rv_scope.

Module DivRemChip.
Record DivRemCols : Type := mkDivRemCols {
  pc : Z; a : Word; b : Word; c : Word; op_a_not_0 : Z;
  quotient : Word; remainder : Word; abs_remainder : Word; abs_c : Word; max_abs_c_or_1 : Word;
  c_times_quotient : list Z; carry : list Z;
  is_c_0 : IsZeroWordOperation.IsZeroWordOperation;
  is_div : Z; is_divu : Z; is_rem : Z; is_remu : Z; is_overflow : Z;
  is_overflow_b : IsEqualWordOperation.IsEqualWordOperation;
  is_overflow_c : IsEqualWordOperation.IsEqualWordOperation;
  b_msb : Z; rem_msb : Z; c_msb : Z; b_neg : Z; rem_neg : Z; c_neg : Z;
  abs_c_alu_event : Z; abs_rem_alu_event : Z; is_real : Z; remainder_check_multiplicity : Z
}.

(** [i32::abs], which wraps on the smallest integer, as a [u32]. *)
Definition abs_u32 (x : Z) : Z := u32 (i32 (Z.abs (i32 x))).

(** [u32::max(1, x)] *)
Definition max_1 (x : Z) : Z := Z.max 1 x.

Definition msb_event_of (word : Z) : ByteLookupEvent :=
  mkByteLookupEvent ByteOpcode.MSB (Alu.get_msb word) 0 (word_from word).[3] 0.

(** [c * quotient] and the remainder as 64-bit integers. *)
Definition product64 (o : Opcode) (quotient c : Z) : Z :=
  if is_signed_operation o then i32 quotient * i32 c else quotient * c.
Definition extended64 (o : Opcode) (remainder : Z) : Z :=
  if is_signed_operation o then i32 remainder else remainder.

(** The body of the loop of [generate_trace]; [None] is the failed assertion.
    The carries are those of [MulChip.propagate] on the digit sums. *)
Definition event_to_row {R} `{ByteRecord R} (event : AluEvent) (output : R) : option (DivRemCols * R) :=
  let o := alu_opcode event in
  if negb (bool_decide (o ∈ [DIVU; REMU; REM; DIV])) then None else
  let sgn := is_signed_operation o in
  let '(quotient, remainder) := get_quotient_and_remainder (alu_b event) (alu_c event) o in
  let is_c_0 := (IsZeroWordOperation.populate (alu_c event)).1 in
  let rem_msb := Alu.get_msb remainder in
  let b_msb := Alu.get_msb (alu_b event) in
  let c_msb := Alu.get_msb (alu_c event) in
  let rem_neg := if sgn then rem_msb else 0 in
  let b_neg := if sgn then b_msb else 0 in
  let c_neg := if sgn then c_msb else 0 in
  let is_overflow := if sgn then from_bool ((i32 (alu_b event) =? - 2 ^ 31) && (i32 (alu_c event) =? -1)) else 0 in
  let abs_remainder := if sgn then abs_u32 remainder else remainder in
  let abs_c := if sgn then abs_u32 (alu_c event) else alu_c event in
  let c_times_quotient := ShiftRightChip.to_le_bytes64 (product64 o quotient (alu_c event)) in
  let remainder_bytes := ShiftRightChip.to_le_bytes64 (extended64 o remainder) in
  let output := add_byte_lookup_events (map msb_event_of [alu_b event; alu_c event; remainder]) output in
  let output := add_u8_range_checks (limbs (word_from quotient)) output in
  let output := add_u8_range_checks (limbs (word_from remainder)) output in
  let output := add_u8_range_checks c_times_quotient output in
  Some (mkDivRemCols (Fred (alu_pc event)) (word_from (alu_a event)) (word_from (alu_b event)) (word_from (alu_c event))
    (from_bool (negb (alu_op_a_0 event)))
    (word_from quotient) (word_from remainder) (word_from abs_remainder) (word_from abs_c) (word_from (max_1 abs_c))
    c_times_quotient (map snd (MulChip.propagate (zip_with Z.add c_times_quotient remainder_bytes) 0)) is_c_0
    (from_bool (bool_decide (o = DIV))) (from_bool (bool_decide (o = DIVU)))
    (from_bool (bool_decide (o = REM))) (from_bool (bool_decide (o = REMU))) is_overflow
    (IsEqualWordOperation.populate (alu_b event) (u32 (- 2 ^ 31))).1
    (IsEqualWordOperation.populate (alu_c event) (u32 (-1))).1
    b_msb rem_msb c_msb b_neg rem_neg c_neg (c_neg * 1) (rem_neg * 1) 1
    (1 * (1 - IsZeroWordOperation.result is_c_0)), output).

Definition zero_test : IsZeroWordOperation.IsZeroWordOperation :=
  IsZeroWordOperation.mkIsZeroWordOperation (replicate 4 IsZeroWordOperation.zero_byte) 0 0 0.

(** 0 divided by 1. *)
Definition padded_row_template : DivRemCols :=
  mkDivRemCols 0 word_zero word_zero (mkWord 1 0 0 0) 0 word_zero word_zero word_zero (mkWord 1 0 0 0) (mkWord 1 0 0 0)
    (replicate 8 0) (replicate 8 0) (IsZeroWordOperation.populate 1).1 0 1 0 0 0
    (IsEqualWordOperation.mkIsEqualWordOperation zero_test) (IsEqualWordOperation.mkIsEqualWordOperation zero_test)
    0 0 0 0 0 0 0 0 0 0.

(** The sum of [c_times_quotient] and the remainder, carries propagated. *)
Definition c_times_quotient_plus_remainder (local : DivRemCols) (i : nat) : Z :=
  let sign_extension := rem_neg local * 255 in
  let x := nth i (c_times_quotient local) 0 + (if (i <? WORD_SIZE)%nat then (remainder local).[i] else sign_extension)
    - nth i (carry local) 0 * 256 in
  if (0 <? i)%nat then x + nth (i - 1) (carry local) 0 else x.

Definition eval (local : DivRemCols) : list Call :=
  let is_signed := is_div local + is_rem local in
  let is_unsigned := is_divu local + is_remu local in
  let lower_half := word_of (fun i => nth i (c_times_quotient local) 0) in
  let upper_half := word_of (fun i => nth (i + 4) (c_times_quotient local) 0) in
  let send o a b c mult :=
    send_instruction 0 0 UNUSED_PC (UNUSED_PC + DEFAULT_PC_INC) 0 o a b c 0 0 0 0 0 mult in
  let is_c_0_result := IsZeroWordOperation.result (is_c_0 local) in
  let not_overflow := 1 - is_overflow local in
  let rem_byte_sum := fold_left (fun acc i => acc + (remainder local).[i]) (seq 0 WORD_SIZE) 0 in
  [AssertEq (b_msb local * is_signed) (b_neg local);
   AssertEq (rem_msb local * is_signed) (rem_neg local);
   AssertEq (c_msb local * is_signed) (c_neg local)] ++
  send (opcode_u32 MUL) lower_half (quotient local) (c local) (is_real local) ++
  send (is_signed * opcode_u32 MULH + is_unsigned * opcode_u32 MULHU) upper_half (quotient local) (c local) (is_real local) ++
  IsEqualWordOperation.eval (b local) (word_from (u32 (- 2 ^ 31))) (is_overflow_b local) (is_real local) ++
  IsEqualWordOperation.eval (c local) (word_from (u32 (-1))) (is_overflow_c local) (is_real local) ++
  [AssertEq (is_overflow local)
     (IsZeroWordOperation.result (IsEqualWordOperation.is_diff_zero (is_overflow_b local))
      * IsZeroWordOperation.result (IsEqualWordOperation.is_diff_zero (is_overflow_c local)) * is_signed)] ++
  flat_map (fun i =>
    if (i <? WORD_SIZE)%nat then [AssertEq (b local).[i] (c_times_quotient_plus_remainder local i)]
    else
      when not_overflow (when (b_neg local) [AssertEq (c_times_quotient_plus_remainder local i) 255]) ++
      when not_overflow (when_ne 1 (b_neg local) [AssertZero (c_times_quotient_plus_remainder local i)]) ++
      when (is_overflow local) [AssertZero (c_times_quotient_plus_remainder local i)])
    (seq 0 LONG_WORD_SIZE) ++
  flat_map (fun i =>
    when (op_a_not_0 local) (when (is_divu local + is_div local) [AssertEq (quotient local).[i] (a local).[i]]) ++
    when (op_a_not_0 local) (when (is_remu local + is_rem local) [AssertEq (remainder local).[i] (a local).[i]]))
    (seq 0 WORD_SIZE) ++
  when (rem_neg local) [AssertOne (b_neg local)] ++
  when rem_byte_sum (when (1 - rem_neg local) [AssertZero (b_neg local)]) ++
  IsZeroWordOperation.eval (c local) (is_c_0 local) (is_real local) ++
  flat_map (fun i =>
    when is_c_0_result (when (is_divu local + is_div local) [AssertEq (quotient local).[i] 255])) (seq 0 WORD_SIZE) ++
  flat_map (fun i =>
    when_not (c_neg local) [AssertEq (c local).[i] (abs_c local).[i]] ++
    when_not (rem_neg local) [AssertEq (remainder local).[i] (abs_remainder local).[i]]) (seq 0 WORD_SIZE) ++
  send (opcode_u32 ADD) word_zero (c local) (abs_c local) (abs_c_alu_event local) ++
  send (opcode_u32 ADD) word_zero (remainder local) (abs_remainder local) (abs_rem_alu_event local) ++
  map (fun i => AssertEq (max_abs_c_or_1 local).[i]
      (if (i =? 0)%nat then is_c_0_result * 1 + (1 - is_c_0_result) * (abs_c local).[0]
       else (1 - is_c_0_result) * (abs_c local).[i])) (seq 0 WORD_SIZE) ++
  [AssertEq ((1 - is_c_0_result) * is_real local) (remainder_check_multiplicity local);
   AssertEq (abs_c_alu_event local) (c_neg local * is_real local);
   AssertEq (abs_rem_alu_event local) (rem_neg local * is_real local)] ++
  send (opcode_u32 SLTU) (mkWord 1 0 0 0) (abs_remainder local) (max_abs_c_or_1 local) (remainder_check_multiplicity local) ++
  send_byte (ByteOpcode.as_u8 ByteOpcode.MSB) (b_msb local) (b local).[3] 0 (is_real local) ++
  send_byte (ByteOpcode.as_u8 ByteOpcode.MSB) (c_msb local) (c local).[3] 0 (is_real local) ++
  send_byte (ByteOpcode.as_u8 ByteOpcode.MSB) (rem_msb local) (remainder local).[3] 0 (is_real local) ++
  slice_range_check_u8 (limbs (quotient local)) (is_real local) ++
  slice_range_check_u8 (limbs (remainder local)) (is_real local) ++
  map AssertBool (carry local) ++
  slice_range_check_u8 (c_times_quotient local) (is_real local) ++
  map AssertBool [is_div local; is_divu local; is_rem local; is_remu local; is_overflow local; b_msb local; rem_msb local;
                  c_msb local; b_neg local; rem_neg local; c_neg local; is_real local; abs_c_alu_event local;
                  abs_rem_alu_event local] ++
  [AssertEq 1 (is_divu local + is_remu local + is_div local + is_rem local)] ++
  receive_instruction 0 0 (pc local) (pc local + DEFAULT_PC_INC) 0
    (is_divu local * opcode_u32 DIVU + is_remu local * opcode_u32 REMU + is_div local * opcode_u32 DIV
     + is_rem local * opcode_u32 REM)
    (a local) (b local) (c local) (1 - op_a_not_0 local) 0 0 0 0 (is_real local) ++
  when (op_a_not_0 local) [AssertOne (is_real local)].

Definition wf (r : DivRemCols) : Prop :=
  (canon (pc r) /\ canon (op_a_not_0 r) /\ Forall word_canon [a r; b r; c r; quotient r; remainder r; abs_remainder r; abs_c r;
    max_abs_c_or_1 r]) /\
  ShiftRightChip.col_list 8 (c_times_quotient r) /\ ShiftRightChip.col_list 8 (carry r) /\
  (IsZeroWordOperation.wf (is_c_0 r) /\ IsEqualWordOperation.wf (is_overflow_b r) /\ IsEqualWordOperation.wf (is_overflow_c r)) /\
  Forall canon [is_div r; is_divu r; is_rem r; is_remu r; is_overflow r; b_msb r; rem_msb r; c_msb r; b_neg r; rem_neg r;
    c_neg r; abs_c_alu_event r; abs_rem_alu_event r; is_real r; remainder_check_multiplicity r].
End DivRemChip.

Import DivRemChip.

(** ** Division is determined *)

(** The quotient and the remainder are those of [get_quotient_and_remainder]
    once they satisfy the identity modulo 2^64, the bound and the signs. *)
Lemma signed_determined b c q m :
  is_u32 b -> is_u32 c -> is_u32 q -> is_u32 m -> c <> 0 ->
  let over := (b =? 2 ^ 31) && (c =? 2 ^ 32 - 1) in
  (i32 q * i32 c + i32 m) mod 2 ^ 64 = (if over then b else i32 b) mod 2 ^ 64 ->
  Z.abs (i32 m) < Z.abs (i32 c) -> (i32 m < 0 -> i32 b < 0) -> (0 < i32 m -> 0 <= i32 b) ->
  q = u32 (wrapping_div_i32 (i32 b) (i32 c)) /\ m = u32 (wrapping_rem_i32 (i32 b) (i32 c)).
Proof.
  intros Hb Hc Hq Hm H0 over Hid Hlt Hn Hp.
  pose proof (sx_range b Hb) as Sb. pose proof (sx_range c Hc) as Sc. pose proof (sx_range q Hq) as Sq. pose proof (sx_range m Hm) as Sm.
  rewrite !i32_sx in * by done. change (2 ^ 31) with 2147483648 in *.
  assert (-4611686018427387904 <= sx q * sx c <= 4611686018427387904) as Hprod by nia.
  assert (sx q * sx c + sx m = if over then b else sx b) as E.
  { change (2 ^ 64) with 18446744073709551616 in Hid. rewrite is_u32_iff in Hb.
    destruct over; Z.div_mod_to_equations; lia. }
  assert (forall x, is_u32 x -> u32 (sx x) = x) as Hback.
  { intros x Hx. rewrite u32_mod, sx_mod. apply Z.mod_small. by apply is_u32_iff. }
  unfold wrapping_div_i32, wrapping_rem_i32. rewrite !u32_i32_eq, <- !u32_mod. subst over.
  destruct ((b =? 2147483648) && (c =? 2 ^ 32 - 1)) eqn:Eo.
  - apply andb_true_iff in Eo as [->%Z.eqb_eq ->%Z.eqb_eq].
    change (sx (2 ^ 32 - 1)) with (-1) in *. change (sx 2147483648) with (-2147483648) in *.
    assert (sx m = 0) as Em by lia. rewrite <- (Hback m Hm), Em. rewrite <- (Hback q Hq).
    replace (sx q) with (-2147483648) by lia. split; reflexivity.
  - assert (Zquot.Remainder (sx b) (sx c) (sx m)) as HR.
    { unfold Zquot.Remainder. destruct (Z.lt_trichotomy (sx m) 0) as [H|[H|H]]; [right|destruct (Z.le_ge_cases 0 (sx b)); [left|right]|left]; lia. }
    destruct (Zquot_mod_unique_full (sx b) (sx c) (sx q) (sx m) HR ltac:(lia)) as [E1 E2].
    rewrite <- E1, <- E2. by rewrite !Hback.
Qed.

Lemma unsigned_determined b c q m :
  is_u32 b -> is_u32 c -> is_u32 q -> is_u32 m ->
  (q * c + m) mod 2 ^ 64 = b mod 2 ^ 64 -> m < c -> q = b / c /\ m = b mod c.
Proof.
  rewrite !is_u32_iff. intros Hb Hc Hq Hm Hid Hlt. change (2 ^ 64) with 18446744073709551616 in Hid.
  assert (0 <= q * c <= 18446744065119617025) by nia.
  assert (b = c * q + m) as E by (Z.div_mod_to_equations; lia).
  split; [by apply (Z.div_unique _ _ _ m); lia|by apply (Z.mod_unique _ _ q); lia].
Qed.

(** Adding two numbers of eight digits with carries. *)
Lemma carried_sum (x y d k : list Z) :
  (forall i, (i < 8)%nat -> nth i d 0 = nth i x 0 + nth i y 0 - nth i k 0 * 256 + (if (0 <? i)%nat then nth (i - 1) k 0 else 0)) ->
  digits8 d = digits8 x + digits8 y - nth 7 k 0 * 2 ^ 64.
Proof.
  intros H. unfold digits8.
  rewrite (H 0%nat), (H 1%nat), (H 2%nat), (H 3%nat), (H 4%nat), (H 5%nat), (H 6%nat), (H 7%nat) by lia. cbn [Nat.ltb Nat.leb Nat.sub].
  change (2 ^ 64) with 18446744073709551616. lia.
Qed.

Lemma sign_bit w : word_bytes w -> w.[3] / 128 = 0 /\ to_u32 w < 2 ^ 31 \/ w.[3] / 128 = 1 /\ 2 ^ 31 <= to_u32 w.
Proof.
  destruct w as [x0 x1 x2 x3]. unfold word_bytes, to_u32, from_le_bytes32. cbn [w0 w1 w2 w3 widx]. rewrite !is_u8_iff.
  change (2 ^ 31) with 2147483648. intros. Z.div_mod_to_equations. lia.
Qed.

Lemma i32_sign x : is_u32 x -> i32 x = if 2 ^ 31 <=? x then x - 2 ^ 32 else x.
Proof. intros Hx. rewrite i32_sx by done. unfold sx. rewrite Z.leb_antisym. by destruct (x <? 2 ^ 31). Qed.

Lemma msb_negative w : word_bytes w -> (w.[3] / 128 =? 1) = (i32 (to_u32 w) <? 0).
Proof.
  intros Hw. rewrite i32_sign by (by apply to_u32_range). pose proof (proj1 (is_u32_iff _) (to_u32_range w Hw)).
  destruct (sign_bit w Hw) as [[-> H1]|[-> H1]]; change (2 ^ 31) with 2147483648 in *; change (2 ^ 32) with 4294967296 in *;
    destruct (Z.leb_spec 2147483648 (to_u32 w)); try lia; symmetry; first [apply Z.ltb_lt; lia|apply Z.ltb_ge; lia].
Qed.

(** Selected opcode flags. *)
Definition selected (o : Opcode) (r : DivRemCols) : Prop :=
  In o [DIV; DIVU; REM; REMU] /\
  is_div r = from_bool (bool_decide (o = DIV)) /\ is_divu r = from_bool (bool_decide (o = DIVU)) /\
  is_rem r = from_bool (bool_decide (o = REM)) /\ is_remu r = from_bool (bool_decide (o = REMU)).

Definition divu_like (o : Opcode) : bool := match o with DIV | DIVU => true | _ => false end.

Lemma selected_sums o r : selected o r ->
  is_div r + is_rem r = from_bool (is_signed_operation o) /\
  is_divu r + is_remu r = from_bool (negb (is_signed_operation o)) /\
  is_divu r + is_div r = from_bool (divu_like o) /\ is_remu r + is_rem r = from_bool (negb (divu_like o)) /\
  is_divu r * opcode_u32 DIVU + is_remu r * opcode_u32 REMU + is_div r * opcode_u32 DIV + is_rem r * opcode_u32 REM = opcode_u32 o.
Proof. intros (Hin & -> & -> & -> & ->). by destruct Hin as [<-|[<-|[<-|[<-|[]]]]]. Qed.

(** The instructions a row sends. *)
Definition sent_instructions (r : DivRemCols) : list AirInteraction :=
  let dep o a b c mult := mkAirInteraction
    (instruction_values 0 0 UNUSED_PC (UNUSED_PC + DEFAULT_PC_INC) 0 o a b c 0 0 0 0 0) mult KInstruction in
  [dep (opcode_u32 MUL) (word_of (fun i => nth i (c_times_quotient r) 0)) (quotient r) (c r) (is_real r);
   dep ((is_div r + is_rem r) * opcode_u32 MULH + (is_divu r + is_remu r) * opcode_u32 MULHU)
     (word_of (fun i => nth (i + 4) (c_times_quotient r) 0)) (quotient r) (c r) (is_real r);
   dep (opcode_u32 ADD) word_zero (c r) (abs_c r) (abs_c_alu_event r);
   dep (opcode_u32 ADD) word_zero (remainder r) (abs_remainder r) (abs_rem_alu_event r);
   dep (opcode_u32 SLTU) (mkWord 1 0 0 0) (abs_remainder r) (max_abs_c_or_1 r) (remainder_check_multiplicity r)].

Lemma divrem_sends r : sends KInstruction (eval r) = sent_instructions r.
Proof. unfold eval. rewrite !sends_app, !sends_range, (sends_map AssertBool) by done. reflexivity. Qed.

Lemma divrem_receives r : receives KInstruction (eval r) = [mkAirInteraction
  (instruction_values 0 0 (pc r) (pc r + DEFAULT_PC_INC) 0
    (is_divu r * opcode_u32 DIVU + is_remu r * opcode_u32 REMU + is_div r * opcode_u32 DIV + is_rem r * opcode_u32 REM)
    (a r) (b r) (c r) (1 - op_a_not_0 r) 0 0 0 0) (is_real r) KInstruction].
Proof. unfold eval. rewrite !receives_app, !receives_range, (receives_map AssertBool) by done. reflexivity. Qed.

Section Sound.
  Context (r : DivRemCols) (Hwf : wf r) (Hok : row_ok (eval r)) (Hsent : sends_answered (eval r)).

(** The calls of [eval], in order. *)
Ltac open_row :=
  let H := fresh in
  pose proof Hok as H; unfold eval in H; rewrite !row_ok_app in H; cbn zeta in H;
  destruct H as (P0 & P1 & P2 & P3 & P4 & P5 & P6 & P7 & P8 & P9 & P10 & P11 & P12 & P13 & P14 & P15 & P16 & P17 &
    P18 & P19 & P20 & P21 & P22 & P23 & P24 & P25 & P26 & P27 & P28).

Ltac open_wf :=
  let H := fresh in
  pose proof Hwf as ((Cpc & Cn & H) & [Lcq Ccq] & [Lk Ck] & (Wz & Wob & Woc) & HF); rewrite !Forall_cons in H;
  destruct H as (Ca & Cb & Cc & Cq & Cm & Cam & Cac & Cmx & _).

Lemma divrem_bools : Forall (fun x => x = 0 \/ x = 1)
  [is_div r; is_divu r; is_rem r; is_remu r; is_overflow r; b_msb r; rem_msb r; c_msb r; b_neg r; rem_neg r; c_neg r;
   is_real r; abs_c_alu_event r; abs_rem_alu_event r].
Proof using Hwf Hok.
  open_row. open_wf. apply bool_columns; [|apply P25]. rewrite !Forall_cons in HF. destruct_and! HF. rewrite !Forall_cons. split_and!; done || constructor.
Qed.

Lemma divrem_selected : exists o, selected o r.
Proof using Hwf Hok.
  pose proof divrem_bools as HB. rewrite !Forall_cons in HB. destruct HB as (B1 & B2 & B3 & B4 & _).
  open_row. destruct P26 as [[E _] _]. cbn [holds] in E. unfold selected.
  destruct B1 as [E1|E1], B2 as [E2|E2], B3 as [E3|E3], B4 as [E4|E4]; rewrite E1, E2, E3, E4 in *;
    try discriminate E; [exists REMU|exists REM|exists DIVU|exists DIV]; cbn; auto 10.
Qed.
(** What the chip may rely on. *)
Lemma sent_at i vals mult : nth_error (sent_instructions r) i = Some (mkAirInteraction vals mult KInstruction) ->
  ~ mult ≡F 0 -> instruction_answered vals.
Proof using Hsent.
  intros Hn%nth_error_In Hm. apply (Hsent (mkAirInteraction vals mult KInstruction)); [|done].
  rewrite divrem_sends. by apply list_elem_of_In.
Qed.

Section Real.
  Context (o : Opcode) (Hr : is_real r = 1) (Hsel : selected o r) (Wb : word_bytes (b r)) (Wc : word_bytes (c r)).
  Abbreviation sgn := (is_signed_operation o).

Lemma live : ~ is_real r ≡F 0.
Proof using Hr. by rewrite Hr. Qed.

Lemma divrem_ranges : word_bytes (quotient r) /\ word_bytes (remainder r) /\ Forall is_u8 (c_times_quotient r).
Proof using Hwf Hok Hr.
  open_row. open_wf. pose proof live. split_and!.
  - apply (word_range_checked _ (is_real r)); [apply P21|done..].
  - apply (word_range_checked _ (is_real r)); [apply P22|done..].
  - apply (slice_range_check_u8_found _ (is_real r)); [apply P24|done..].
Qed.

(** A value is negative when the operation is signed and its top bit is set. *)
Lemma divrem_signs :
  b_neg r = from_bool (sgn && (i32 (to_u32 (b r)) <? 0)) /\
  rem_neg r = from_bool (sgn && (i32 (to_u32 (remainder r)) <? 0)) /\
  c_neg r = from_bool (sgn && (i32 (to_u32 (c r)) <? 0)).
Proof using Hwf Hok Hr Hsel Wb Wc.
  destruct divrem_ranges as (_ & Wm & _). pose proof live as Hl.
  open_row. open_wf. rewrite !Forall_cons in HF. destruct HF as (_ & _ & _ & _ & _ & C1 & C2 & C3 & C4 & C5 & C6 & _).
  destruct P0 as [(E1 & E2 & E3 & _) _]. cbn [holds] in E1, E2, E3.
  destruct P18 as [_ (M1 & _)], P19 as [_ (M2 & _)], P20 as [_ (M3 & _)].
  cbn [send_byte send_byte_pair call_found kind multiplicity values] in M1, M2, M3.
  apply msb_found in M1 as [_ M1]; [|done|apply Cb|done]. apply msb_found in M2 as [_ M2]; [|done|apply Cc|done].
  apply msb_found in M3 as [_ M3]; [|done|apply Cm|done].
  destruct (selected_sums o r Hsel) as (Es & _). rewrite Es in E1, E2, E3. rewrite M1 in E1. rewrite M2 in E3. rewrite M3 in E2. rewrite <- !msb_negative by done.
  assert (forall w x, word_bytes w -> canon x -> w.[3] / 128 * from_bool sgn ≡F x ->
    x = from_bool (sgn && (w.[3] / 128 =? 1))) as Hgen.
  { intros w x Hw Hx E. symmetry in E. apply eqF_canon in E; [rewrite E|done|];
      destruct (sign_bit w Hw) as [[-> _]|[-> _]], sgn; done. }
  split_and!; by apply Hgen.
Qed.

(** The columns of the product hold it, by the answers of the Mul chip. *)
Lemma divrem_product :
  digits8 (c_times_quotient r) = product64 o (to_u32 (quotient r)) (to_u32 (c r)) mod 2 ^ 64.
Proof using Hwf Hok Hsent Hr Hsel Wb Wc.
  destruct divrem_ranges as (Wq & _ & Wcq). destruct (selected_sums o r Hsel) as (Es & Eu & _). open_wf.
  assert (forall i, is_u8 (nth i (c_times_quotient r) 0)) as Hd by (intros i; by apply nth_u8).
  assert (word_canon (word_of (fun i => nth i (c_times_quotient r) 0)) /\
    word_canon (word_of (fun i => nth (i + 4) (c_times_quotient r) 0))) as [C1 C2]
    by (split; split_and!; apply u8_canon, Hd).
  assert (A1 : instruction_answered (dep_values MUL (word_of (fun i => nth i (c_times_quotient r) 0)) (quotient r) (c r))).
  { exact (sent_at 0 _ _ eq_refl live). }
  assert (A2 : instruction_answered (dep_values (if sgn then MULH else MULHU)
    (word_of (fun i => nth (i + 4) (c_times_quotient r) 0)) (quotient r) (c r))).
  { assert (opcode_u32 (if sgn then MULH else MULHU) = (is_div r + is_rem r) * opcode_u32 MULH + (is_divu r + is_remu r) * opcode_u32 MULHU) as Eop
      by (rewrite Es, Eu; by destruct sgn).
    unfold dep_values. rewrite Eop. exact (sent_at 1 _ _ eq_refl live). }
  apply dep_answered in A1 as [A1 _]; [|done..]. apply dep_answered in A2 as [A2 _]; [|done..].
  destruct (A1 Wq Wc) as [_ R1], (A2 Wq Wc) as [_ R2].
  pose proof (to_u32_range _ Wq) as Hq. pose proof (to_u32_range _ Wc) as Hc.
  rewrite mul_result in R1, R2 by (done || (destruct sgn; cbn; auto)). injection R1 as R1. injection R2 as R2.
  set (P := product64 o (to_u32 (quotient r)) (to_u32 (c r))).
  assert (u32 P = to_u32 (word_of (fun i => nth i (c_times_quotient r) 0))) as L1.
  { rewrite <- R1. cbn [upper b_signed c_signed]. unfold P, product64. destruct sgn; [|done]. cbn [extended].
    rewrite !u32_mod, !i32_sx by done. rewrite Z.mul_mod, !sx_mod, <- Z.mul_mod by done. done. }
  assert (u32 (Z.shiftr P 32) = to_u32 (word_of (fun i => nth (i + 4) (c_times_quotient r) 0))) as L2.
  { rewrite <- R2. unfold P, product64. by destruct sgn. }
  unfold digits8. unfold to_u32, from_le_bytes32, word_of in L1, L2. cbn [w0 w1 w2 w3 Nat.add] in L1, L2.
  rewrite u32_mod in L1, L2. rewrite Z.shiftr_div_pow2 in L2 by lia. clear -L1 L2. 
  change (2 ^ 32) with 4294967296 in *. change (2 ^ 64) with 18446744073709551616.
  Z.div_mod_to_equations. lia.
Qed.

Definition over : bool := sgn && (to_u32 (b r) =? 2 ^ 31) && (to_u32 (c r) =? 2 ^ 32 - 1).

Lemma word_eqb w x : word_bytes w -> is_u32 x -> bool_decide (w = word_from x) = (to_u32 w =? x).
Proof.
  intros Hw Hx. destruct (Z.eqb_spec (to_u32 w) x) as [E|E].
  - apply bool_decide_eq_true. by rewrite <- E, word_from_to_u32.
  - apply bool_decide_eq_false. intros ->. by rewrite to_u32_word_from in E.
Qed.

Lemma divrem_overflow : is_overflow r = from_bool over.
Proof using Hwf Hok Hr Hsel Wb Wc.
  open_row. open_wf. pose proof live as Hl. rewrite !Forall_cons in HF. destruct HF as (_ & _ & _ & _ & Co & _).
  destruct P3 as [P3 _], P4 as [P4 _], P5 as [[E _] _]. cbn [holds] in E.
  rewrite (is_equal_word_sound _ _ _ _ Cb (word_from_canon _) Wob Hl P3),
    (is_equal_word_sound _ _ _ _ Cc (word_from_canon _) Woc Hl P4) in E.
  rewrite !word_eqb in E by done. destruct (selected_sums o r Hsel) as (Es & _). rewrite Es in E.
  unfold over. change (u32 (- 2 ^ 31)) with (2 ^ 31) in E. change (u32 (-1)) with (2 ^ 32 - 1) in E.
  apply eqF_canon in E; [rewrite E|done|]; by destruct sgn, (_ =? 2 ^ 31), (_ =? 2 ^ 32 - 1).
Qed.

Lemma divrem_c_0 : IsZeroWordOperation.result (is_c_0 r) = from_bool (to_u32 (c r) =? 0).
Proof using Hwf Hok Hr Wc.
  open_row. open_wf. destruct P10 as [P10 _]. rewrite (is_zero_word_sound _ _ _ Wz live P10). f_equal.
  rewrite <- (word_eqb _ 0 Wc ltac:(done)). apply bool_decide_ext. change (word_from 0) with word_zero.
  destruct Cc as (C0 & C1 & C2 & C3). destruct (c r) as [c0 c1 c2 c3]. unfold word_is_zero. cbn [widx w0 w1 w2 w3] in *. split.
  - intros (E0 & E1 & E2 & E3). apply eqF_canon in E0, E1, E2, E3; try done. by subst.
  - by intros [= -> -> -> ->].
Qed.

(** The division identity, modulo 2^64. *)
Lemma divrem_identity :
  (product64 o (to_u32 (quotient r)) (to_u32 (c r)) + extended64 o (to_u32 (remainder r))) mod 2 ^ 64 =
  (if over then to_u32 (b r) else extended64 o (to_u32 (b r))) mod 2 ^ 64.
Proof using Hwf Hok Hsent Hr Hsel Wb Wc.
  pose proof divrem_product as HP. pose proof divrem_overflow as HO. destruct divrem_ranges as (_ & Wm & Wcq).
  destruct divrem_signs as (Sb & Sm & _). rewrite <- msb_negative in Sb, Sm by done. open_row. open_wf.
  assert (Forall (fun x => x = 0 \/ x = 1) (carry r)) as Bk by (apply bool_columns; [done|apply P23]).
  assert (forall i, nth i (carry r) 0 = 0 \/ nth i (carry r) 0 = 1) as Bk'.
  { intros i. destruct (Nat.lt_ge_cases i (length (carry r))); [|left; by apply nth_overflow].
    rewrite Forall_forall in Bk. apply Bk, list_elem_of_In. by apply nth_In. }
  assert (rem_neg r = 0 \/ rem_neg r = 1) as Bm by (rewrite Sm; apply from_bool_01).
  assert (b_neg r = 0 \/ b_neg r = 1) as Bb by (rewrite Sb; apply from_bool_01).
  set (top := if over then 0 else b_neg r * 255).
  assert (exists k, digits8 (limbs (b r) ++ replicate 4 top) =
    (if over then to_u32 (b r) else extended64 o (to_u32 (b r))) + k * 2 ^ 64) as [kb Kb].
  { subst top. rewrite Sb. destruct over.
    - destruct (digits8_extended false (b r) Wb) as [k E]. exists k. exact E.
    - exact (digits8_extended sgn (b r) Wb). }
  destruct (digits8_extended sgn (remainder r) Wm) as [km Km]. rewrite <- Sm in Km.
  assert (digits8 (limbs (b r) ++ replicate 4 top) =
    digits8 (c_times_quotient r) + digits8 (limbs (remainder r) ++ replicate 4 (rem_neg r * 255)) - nth 7 (carry r) 0 * 2 ^ 64) as Hsum.
  { apply carried_sum. intros i Hi. destruct P6 as [P6 _]. rewrite all_hold_flat_map in P6.
    specialize (P6 i ltac:(apply in_seq; unfold LONG_WORD_SIZE; lia)).
    pose proof (proj1 (is_u8_iff _) (nth_u8 _ i Wcq)) as Hd. pose proof (Bk' i) as Hk. pose proof (Bk' (i - 1)%nat) as Hk'.
    assert (c_times_quotient_plus_remainder r i = nth i (c_times_quotient r) 0
      + nth i (limbs (remainder r) ++ replicate 4 (rem_neg r * 255)) 0 - nth i (carry r) 0 * 256
      + (if (0 <? i)%nat then nth (i - 1) (carry r) 0 else 0)) as Ei.
    { unfold c_times_quotient_plus_remainder. do 8 (destruct i as [|i]; [cbn [Nat.ltb Nat.leb Nat.sub nth limbs app replicate widx WORD_SIZE]; ring|]). lia. }
    rewrite <- Ei.
    assert (0 <= nth i (limbs (remainder r) ++ replicate 4 (rem_neg r * 255)) 0 < 256) as Hm.
    { apply is_u8_iff, nth_u8. apply Forall_app. split; [by apply limbs_bytes|]. apply Forall_replicate. rewrite is_u8_iff. lia. }
    assert (-256 <= c_times_quotient_plus_remainder r i <= 768) as Hrange by (rewrite Ei; destruct (0 <? i)%nat; lia).
    destruct (Nat.ltb_spec i WORD_SIZE) as [Hlt|Hge].
    - destruct P6 as [E _]. cbn [holds] in E.
      assert (nth i (limbs (b r) ++ replicate 4 top) 0 = (b r).[i]) as -> by (unfold WORD_SIZE in Hlt; do 4 (destruct i as [|i]; [done|]); lia).
      apply eqF_small; [done|]. assert (0 <= (b r).[i] < 256)
        by (apply is_u8_iff; destruct Wb as (?&?&?&?); by destruct i as [|[|[|]]]). unfold BABYBEAR. lia.
    - assert (nth i (limbs (b r) ++ replicate 4 top) 0 = top) as ->
        by (unfold WORD_SIZE in Hge; do 8 (destruct i as [|i]; [done || lia|]); lia).
      rewrite !all_hold_app in P6. unfold when_ne in P6. rewrite !all_hold_when in P6. rewrite HO in P6. subst top.
      destruct P6 as (Q1 & Q2 & Q3). symmetry. apply eqF_small; [|unfold BABYBEAR; destruct over; lia].
      destruct over; [apply Q3, zero_ne_one|]. destruct Bb as [E|E]; rewrite E in *.
      + apply Q2; apply zero_ne_one.
      + apply Q1; apply zero_ne_one. }
  rewrite Kb, HP, Km in Hsum.
  change (extended sgn (to_u32 (remainder r))) with (extended64 o (to_u32 (remainder r))) in Hsum.
  clear -Hsum. set (X := if over then _ else _) in *. set (Q := product64 _ _ _) in *. set (Y := extended64 o _) in *.
  change (2 ^ 64) with 18446744073709551616 in *. Z.div_mod_to_equations. lia.
Qed.

(** The absolute value columns, by the answers of the AddSub chip. *)
Lemma abs_columns w aw neg :
  word_bytes w -> word_canon aw -> neg = from_bool (sgn && (i32 (to_u32 w) <? 0)) ->
  (neg = 0 -> w = aw) ->
  (neg = 1 -> instruction_answered (dep_values ADD word_zero w aw)) ->
  word_bytes aw /\ to_u32 aw = Z.abs (extended64 o (to_u32 w)).
Proof.
  intros Hw Caw Hneg H0 H1. pose proof (to_u32_range w Hw) as Hr'. unfold extended64.
  destruct (sgn && (i32 (to_u32 w) <? 0)) eqn:E.
  - apply andb_true_iff in E as [Es En%Z.ltb_lt]. rewrite Es. specialize (H1 Hneg).
    apply dep_answered in H1 as [R1 R2]; [|done|by apply word_bytes_canon|done]. destruct (R2 eq_refl) as [_ Waw].
    split; [done|]. destruct (R1 Hw Waw) as [_ R]. cbn [alu_result] in R. injection R as R.
    pose proof (proj1 (is_u32_iff _) (to_u32_range _ Waw)). rewrite i32_sign in * by done.
    unfold wadd in R. rewrite u32_mod in R. change (to_u32 word_zero) with 0 in R. rewrite is_u32_iff in Hr'.
    change (2 ^ 32) with 4294967296 in *. destruct (Z.leb_spec (2 ^ 31) (to_u32 w)); [|lia]. Z.div_mod_to_equations. lia.
  - rewrite <- (H0 Hneg). split; [done|]. rewrite is_u32_iff in Hr'. destruct sgn; [|lia].
    cbn [andb] in E. apply Z.ltb_ge in E. rewrite i32_sign in * by (by apply is_u32_iff).
    destruct (Z.leb_spec (2 ^ 31) (to_u32 w)); change (2 ^ 32) with 4294967296 in *; lia.
Qed.

Lemma when_not_word neg (v w : Word) : canon neg -> neg = 0 -> word_canon v -> word_canon w ->
  (forall i, In i (seq 0 WORD_SIZE) -> all_hold (when_not neg [AssertEq v.[i] w.[i]])) -> v = w.
Proof.
  intros _ -> (V0 & V1 & V2 & V3) (W0 & W1 & W2 & W3) H.
  assert (forall i, In i (seq 0 WORD_SIZE) -> v.[i] ≡F w.[i]) as H'.
  { intros i Hi. specialize (H i Hi). unfold when_not, when_ne in H. rewrite all_hold_when in H. by apply H. }
  destruct v as [v0 v1 v2 v3], w as [u0 u1 u2 u3]. cbn [w0 w1 w2 w3] in *.
  pose proof (H' 0%nat ltac:(cbn; auto)) as E0. pose proof (H' 1%nat ltac:(cbn; auto)) as E1.
  pose proof (H' 2%nat ltac:(cbn; auto)) as E2. pose proof (H' 3%nat ltac:(cbn; auto)) as E3. cbn [widx w0 w1 w2 w3] in *.
  apply eqF_canon in E0, E1, E2, E3; try done. by subst.
Qed.

(** The remainder is smaller than the divisor, by the answer of the Lt chip. *)
Lemma divrem_bound : to_u32 (c r) <> 0 ->
  Z.abs (extended64 o (to_u32 (remainder r))) < Z.abs (extended64 o (to_u32 (c r))).
Proof using Hwf Hok Hsent Hr Hsel Wb Wc.
  intros Hc0. destruct divrem_signs as (_ & Sm & Sc). destruct divrem_ranges as (_ & Wm & _). pose proof divrem_c_0 as Z0.
  open_row. open_wf. rewrite !Forall_cons in HF. destruct HF as (_ & _ & _ & _ & _ & _ & _ & _ & _ & Cnm & Cnc & Cec & Cem & _ & Crm & _).
  rewrite (proj2 (Z.eqb_neq _ _) Hc0) in Z0. cbn [from_bool] in Z0.
  destruct P16 as [(E1 & E2 & E3 & _) _]. cbn [holds] in E1, E2, E3. rewrite Z0, Hr in E1. rewrite Hr, Z.mul_1_r in E2, E3.
  apply eqF_canon in E2, E3; [|done..]. symmetry in E1. apply eqF_canon in E1; [|done..]. cbn in E1.
  destruct P12 as [P12 _]. rewrite all_hold_flat_map in P12.
  destruct (abs_columns (c r) (abs_c r) (c_neg r) Wc Cac Sc) as [Wac Eac].
  { intros E. apply (when_not_word (c_neg r)); try done. intros i Hi. by specialize (P12 i Hi) as [? _]%all_hold_app. }
  { intros E. apply (sent_at 2 _ _ eq_refl). by rewrite E2, E. }
  destruct (abs_columns (remainder r) (abs_remainder r) (rem_neg r) Wm Cam Sm) as [Wam Eam].
  { intros E. apply (when_not_word (rem_neg r)); try done. intros i Hi. by specialize (P12 i Hi) as [_ ?]%all_hold_app. }
  { intros E. apply (sent_at 3 _ _ eq_refl). by rewrite E3, E. }
  assert (max_abs_c_or_1 r = abs_c r) as Emx.
  { destruct P15 as [P15 _]. rewrite all_hold_map, Z0 in P15. apply (when_not_word 0); try done.
    intros i Hi. unfold when_not, when_ne. apply all_hold_when. intros _. split; [|done]. specialize (P15 i Hi). cbn [holds] in *.
    rewrite P15. destruct i as [|i]; cbn [Nat.eqb]; apply eq_refl || (apply eqF_diff; exists 0; ring). }
  assert (instruction_answered (dep_values SLTU (mkWord 1 0 0 0) (abs_remainder r) (max_abs_c_or_1 r))) as A.
  { apply (sent_at 4 _ _ eq_refl). by rewrite E1. }
  rewrite Emx in A. apply dep_answered in A as [A _]; [|done..]. destruct (A Wam Wac) as [_ R]. cbn [alu_result] in R.
  rewrite <- Eac, <- Eam. destruct (to_u32 (abs_remainder r) <? to_u32 (abs_c r)) eqn:El; [by apply Z.ltb_lt|discriminate R].
Qed.

(** The remainder has the sign of the dividend. *)
Lemma divrem_same_sign : sgn = true ->
  (i32 (to_u32 (remainder r)) < 0 -> i32 (to_u32 (b r)) < 0) /\
  (0 < i32 (to_u32 (remainder r)) -> 0 <= i32 (to_u32 (b r))).
Proof using Hwf Hok Hr Hsel Wb Wc.
  intros Hsg. destruct divrem_signs as (Sb & Sm & _). destruct divrem_ranges as (_ & Wm & _). rewrite Hsg in Sb, Sm.
  cbn [andb] in Sb, Sm. open_row. destruct P8 as [P8 _], P9 as [P9 _]. rewrite !all_hold_when, Sb, Sm in *.
  split; intros H.
  - rewrite (proj2 (Z.ltb_lt _ _) H) in P8. destruct (P8 zero_ne_one) as [E _]. cbn [holds] in E.
    destruct (Z.ltb_spec (i32 (to_u32 (b r))) 0); [done|discriminate E].
  - rewrite (proj2 (Z.ltb_ge (i32 (to_u32 (remainder r))) 0)) in P9 by lia.
    destruct P9 as [E _].
    + intros E. cbn [seq WORD_SIZE fold_left widx] in E.
      assert (remainder r = word_zero) as E0; [|by rewrite E0 in H].
      destruct (remainder r) as [m0 m1 m2 m3]. unfold word_bytes in Wm. cbn [w0 w1 w2 w3] in *. rewrite !is_u8_iff in Wm.
      apply eqF_small in E; [|unfold BABYBEAR; lia]. unfold word_zero. f_equal; lia.
    + done.
    + cbn [holds] in E. destruct (Z.ltb_spec (i32 (to_u32 (b r))) 0); [discriminate E|lia].
Qed.

Lemma divrem_quotient_remainder :
  (divu_like o = true -> to_u32 (quotient r) = (get_quotient_and_remainder (to_u32 (b r)) (to_u32 (c r)) o).1) /\
  to_u32 (remainder r) = (get_quotient_and_remainder (to_u32 (b r)) (to_u32 (c r)) o).2.
Proof using Hwf Hok Hsent Hr Hsel Wb Wc.
  pose proof divrem_identity as HI. pose proof divrem_bound as HB. pose proof divrem_same_sign as HS. pose proof divrem_c_0 as Z0.
  destruct divrem_ranges as (Wq & Wm & _). unfold over, product64, extended64, get_quotient_and_remainder in *.
  pose proof (to_u32_range _ Wq) as Hq. pose proof (to_u32_range _ Wm) as Hm.
  pose proof (to_u32_range _ Wb) as Hb. pose proof (to_u32_range _ Wc) as Hc.
  destruct (Z.eqb_spec (to_u32 (c r)) 0) as [Ec|Ec]; cbn [fst snd].
  - split.
    + intros Hdl. open_row. open_wf. destruct P11 as [P11 _]. rewrite all_hold_flat_map, Z0 in P11.
      destruct (selected_sums o r Hsel) as (_ & _ & Ed & _). rewrite Ed, Hdl in P11.
      enough (quotient r = word_from u32_MAX) as -> by done.
      apply (when_not_word 0); try done. intros i Hi. specialize (P11 i Hi).
      rewrite !all_hold_when in P11. destruct (P11 zero_ne_one zero_ne_one) as [E _]. apply all_hold_when. intros _.
      split; [|done]. cbn [holds] in *. rewrite E. by do 4 (destruct i as [|i]; [reflexivity|]).
    + rewrite Ec in HI. change (i32 0) with 0 in HI. rewrite !Z.mul_0_r, andb_false_r in HI.
      assert ((if sgn then 0 + i32 (to_u32 (remainder r)) else 0 + to_u32 (remainder r)) mod 2 ^ 64 =
        (if sgn then i32 (to_u32 (b r)) else to_u32 (b r)) mod 2 ^ 64) as HI' by (by destruct sgn).
      rewrite !i32_sign in HI' by done. rewrite is_u32_iff in Hm, Hb.
      change (2 ^ 64) with 18446744073709551616 in HI'. change (2 ^ 32) with 4294967296 in *.
      destruct sgn, (Z.leb_spec (2 ^ 31) (to_u32 (remainder r))), (Z.leb_spec (2 ^ 31) (to_u32 (b r)));
        change (2 ^ 31) with 2147483648 in *; Z.div_mod_to_equations; lia.
  - specialize (HB Ec). destruct sgn; cbn [fst snd].
    + destruct (HS eq_refl) as [S1 S2].
      destruct (signed_determined (to_u32 (b r)) (to_u32 (c r)) (to_u32 (quotient r)) (to_u32 (remainder r)) Hb Hc Hq Hm Ec HI HB S1 S2) as [E1 E2].
      by split.
    + rewrite !is_u32_iff in *.
      destruct (unsigned_determined (to_u32 (b r)) (to_u32 (c r)) (to_u32 (quotient r)) (to_u32 (remainder r))) as [E1 E2];
        [by apply is_u32_iff..|exact HI|lia|by split].
Qed.

Lemma divrem_value : op_a_not_0 r = 1 ->
  word_bytes (a r) /\ alu_result o (to_u32 (b r)) (to_u32 (c r)) = Some (to_u32 (a r)).
Proof using Hwf Hok Hsent Hr Hsel Wb Wc.
  intros Hn. destruct divrem_quotient_remainder as [Eq Em]. destruct divrem_ranges as (Wq & Wm & _).
  open_row. open_wf. destruct P7 as [P7 _]. rewrite all_hold_flat_map, Hn in P7.
  destruct (selected_sums o r Hsel) as (_ & _ & Ed & Er & _). rewrite Ed, Er in P7.
  assert (a r = if divu_like o then quotient r else remainder r) as Ea.
  { symmetry. apply (when_not_word 0); [done..| |done|]; [by destruct (divu_like o)|].
    intros i Hi. apply all_hold_when. intros _. specialize (P7 i Hi). rewrite all_hold_app, !all_hold_when in P7.
    destruct P7 as [Q1 Q2]. destruct (divu_like o); [apply Q1|apply Q2]; done. }
  pose proof (divrem_results o (to_u32 (b r)) (to_u32 (c r)) (to_u32_range _ Wb) (to_u32_range _ Wc)) as HR.
  rewrite Ea. destruct Hsel as (Hin & _). destruct Hin as [<-|[<-|[<-|[<-|[]]]]]; cbn [divu_like] in *; rewrite HR, ?Em;
    (split; [done|]); try done; by rewrite Eq.
Qed.
End Real.

Lemma divrem_answers m : m ∈ receives KInstruction (eval r) -> ~ multiplicity m ≡F 0 ->
  plain_message (values m) /\ exists o, In o [DIV; DIVU; REM; REMU] /\ selected o r /\ msg_opcode (values m) = opcode_u32 o.
Proof using Hwf Hok.
  intros Hm _. rewrite divrem_receives in Hm. apply list_elem_of_singleton in Hm as ->. cbn [multiplicity values] in *.
  destruct divrem_selected as [o Hsel]. destruct (selected_sums o r Hsel) as (_ & _ & _ & _ & Eo). pose proof Hsel as (Hin & _).
  split; [by apply plain_message_intro|]. exists o. split; [done|]. split; [done|]. unfold msg_opcode, msg. cbn [instruction_values app nth].
  rewrite Eo. by destruct o.
Qed.

Lemma divrem_receiver : alu_receiver [DIV; DIVU; REM; REMU] (eval r).
Proof using Hwf Hok Hsent.
  intros m Hm Hmult. destruct (divrem_answers m Hm Hmult) as (Hp & o & Hin & Hsel & Emo).
  rewrite divrem_receives in Hm. apply list_elem_of_singleton in Hm as ->. cbn [multiplicity values] in *.
  pose proof divrem_bools as HB. rewrite !Forall_cons in HB. destruct HB as (_ & _ & _ & _ & _ & _ & _ & _ & _ & _ & _ & Br & _).
  apply not_zero_one in Hmult; [|done]. destruct (selected_sums o r Hsel) as (_ & _ & _ & _ & Eo).
  split; [done|]. split; [by exists o|].
  open_wf. intros H0 Wb Wc. rewrite msg_b_eq, msg_c_eq, !word_Fred in * by done. apply op_a_0_not in H0; [|done].
  destruct (divrem_value o Hmult Hsel Wb Wc H0) as [Wa Hv].
  apply (alu_message_intro _ _ _ _ _ _ _ _ _ _ _ _ _ _ o); try done. by rewrite Eo.
Qed.
End Sound.

(** ** Rows of events *)

Lemma le_bytes64_digits P : length (ShiftRightChip.to_le_bytes64 P) = 8%nat /\ Forall is_u8 (ShiftRightChip.to_le_bytes64 P) /\
  digits8 (ShiftRightChip.to_le_bytes64 P) = P mod 2 ^ 64.
Proof.
  split; [done|]. split; [apply Forall_map, Forall_forall; intros; apply u8_range|].
  unfold digits8, ShiftRightChip.to_le_bytes64. cbn [seq map nth Z.of_nat Z.mul Pos.mul Pos.of_succ_nat Pos.succ].
  unfold u8, wrap. rewrite !Z.shiftr_div_pow2 by lia.
  change (2 ^ 8) with 256. change (2 ^ 0) with 1.
  change (2 ^ 16) with 65536. change (2 ^ 24) with 16777216. change (2 ^ 32) with 4294967296.
  change (2 ^ 40) with 1099511627776. change (2 ^ 48) with 281474976710656. change (2 ^ 56) with 72057594037927936.
  change (2 ^ 64) with 18446744073709551616. Z.div_mod_to_equations. lia.
Qed.

Lemma propagate_01 m k : Forall (fun x => 0 <= x <= 510) m -> 0 <= k <= 1 ->
  Forall is_u8 (map fst (MulChip.propagate m k)) /\ Forall (fun x => x = 0 \/ x = 1) (map snd (MulChip.propagate m k)).
Proof.
  intros Hm. revert k. induction Hm as [|x m Hx Hm IH]; intros k Hk; [split; constructor|].
  cbn [MulChip.propagate map fst snd]. assert (0 <= (x + k) / 256 <= 1) as Hq by (Z.div_mod_to_equations; lia).
  destruct (IH _ Hq) as [H1 H2]. split; constructor; auto; [|lia]. apply is_u8_iff, Z.mod_pos_bound. lia.
Qed.

Lemma get_msb_i32 x : is_u32 x -> Alu.get_msb x = from_bool (i32 x <? 0) /\ Alu.get_msb x = (word_from x).[3] / 128.
Proof.
  intros Hx. pose proof (word_from_bytes x) as Wx. pose proof (msb_negative _ Wx) as E. pose proof (sign_bit _ Wx) as S.
  rewrite to_u32_word_from in E, S by done. rewrite is_u32_iff in Hx. unfold Alu.get_msb.
  rewrite (Z.land_ones _ 1), Z.shiftr_div_pow2 by lia. change (2 ^ 1) with 2. rewrite <- E.
  change (2 ^ 31) with 2147483648 in *. destruct S as [[-> S]|[-> S]]; cbn [Z.eqb Pos.eqb from_bool]; Z.div_mod_to_equations; lia.
Qed.

Lemma abs_u32_eq x : is_u32 x -> abs_u32 x = Z.abs (i32 x) /\ is_u32 (abs_u32 x).
Proof.
  intros Hx. unfold abs_u32. rewrite u32_i32_eq, <- u32_mod. split; [|auto with rvbound].
  pose proof (signed_range 32 x ltac:(lia)) as S. change (signed 32 x) with (i32 x) in S. change (2 ^ (32 - 1)) with 2147483648 in S.
  apply u32_small, is_u32_iff. lia.
Qed.

(** The division identity of the values the row is filled with. *)
Lemma divrem_values o b c : is_u32 b -> is_u32 c -> In o [DIV; DIVU; REM; REMU] ->
  let '(q, m) := get_quotient_and_remainder b c o in
  let over := is_signed_operation o && (i32 b =? - 2 ^ 31) && (i32 c =? -1) in
  is_u32 q /\ is_u32 m /\
  product64 o q c + extended64 o m = (if over then b else extended64 o b) /\
  (c <> 0 -> Z.abs (extended64 o m) < Z.abs (extended64 o c)) /\
  (is_signed_operation o = true -> (i32 m < 0 -> i32 b < 0) /\ (0 < i32 m -> 0 <= i32 b)).
Proof.
  intros Hb Hc Hin. unfold product64, extended64.
  destruct (Z.eq_dec c 0) as [->|Hc0].
  - unfold get_quotient_and_remainder. cbn [Z.eqb]. change (i32 0) with 0.
    change (0 =? -1) with false. rewrite andb_false_r, !Z.mul_0_r. split_and!; [done|done| |done|lia].
    by destruct (is_signed_operation o).
  - destruct (is_signed_operation o) eqn:Es.
    + pose proof (signed_division b c o Hb Hc Es Hc0) as H. destruct (get_quotient_and_remainder b c o) as [q m].
      destruct H as (Hq & Hm & H1 & H2 & H3). rewrite !i32_sx by done. split_and!; [done|done| |done|].
      * destruct H3 as [(E1 & E2 & -> & ->)|[E1 E2]].
        -- assert (b = 2 ^ 31) as ->; [|by rewrite E2].
           rewrite is_u32_iff in Hb. revert E1. unfold sx. change (2 ^ 31) with 2147483648. change (2 ^ 32) with 4294967296.
           destruct (Z.ltb_spec b 2147483648); lia.
        -- cbn [andb]. destruct (Z.eqb_spec (sx b) (- 2 ^ 31)) as [Eb|]; [|cbn [andb]; lia].
           destruct (Z.eqb_spec (sx c) (-1)) as [Ec|]; [|cbn [andb]; lia]. exfalso.
           pose proof (sx_range q Hq). rewrite Ec, Eb in *. change (2 ^ 31) with 2147483648 in *. nia.
      * intros _. destruct H3 as [(E1 & E2 & -> & ->)|[E1 E2]]; [change (sx 0) with 0; lia|]. split; intros; nia.
    + pose proof (unsigned_division b c o Hb Hc Es Hc0) as H. destruct (get_quotient_and_remainder b c o) as [q m].
      destruct H as (Hq & Hm & H1 & H2). cbn [andb]. split_and!; try done; lia.
Qed.

Lemma nth_zip_add l l' i : length l = length l' -> nth i (zip_with Z.add l l') 0 = nth i l 0 + nth i l' 0.
Proof.
  revert l' i. induction l as [|x l IH]; intros [|y l'] i Hl; try discriminate Hl; [by destruct i|].
  destruct i as [|i]; [done|]. cbn [zip_with nth]. apply IH. by injection Hl.
Qed.

(** Eight bytes that hold a sign-extended word. *)
Lemma sign_extended o x p : is_u32 x -> length p = 8%nat -> Forall is_u8 p -> digits8 p = extended64 o x mod 2 ^ 64 ->
  p = limbs (word_from x) ++ replicate 4 (from_bool (is_signed_operation o && (i32 x <? 0)) * 255).
Proof.
  intros Hx Hl Hp Hd. destruct (product_words p _ Hl Hp Hd) as [E1 E2].
  assert (word_from (extended64 o x) = word_from x) as Elo.
  { unfold extended64. destruct (is_signed_operation o); [|done]. by rewrite <- (word_from_u32 (i32 x)), u32_i32_eq, <- u32_mod, word_from_u32. }
  assert (word_from (Z.shiftr (extended64 o x) 32) =
    let t := from_bool (is_signed_operation o && (i32 x <? 0)) * 255 in mkWord t t t t) as Ehi.
  { unfold extended64. rewrite i32_sign by done. rewrite is_u32_iff in Hx. rewrite Z.shiftr_div_pow2 by lia.
    change (2 ^ 31) with 2147483648. change (2 ^ 32) with 4294967296.
    destruct (is_signed_operation o); cbn [andb]; [destruct (Z.leb_spec 2147483648 x)|].
    - replace ((x - 4294967296) / 4294967296) with (-1) by (Z.div_mod_to_equations; lia).
      rewrite (proj2 (Z.ltb_lt _ _)) by lia. reflexivity.
    - rewrite Z.div_small by lia. rewrite (proj2 (Z.ltb_ge _ _)) by lia. reflexivity.
    - rewrite Z.div_small by lia. reflexivity. }
  rewrite Elo in E1. rewrite Ehi in E2. cbv zeta in E2. rewrite <- E1. injection E2 as E4 E5 E6 E7.
  do 8 (destruct p as [|? p]; [discriminate Hl|]). destruct p; [|discriminate Hl].
  cbn [limbs nth w0 w1 w2 w3 app replicate] in *. by rewrite E4, E5, E6, E7.
Qed.

Lemma live_if vals mult x k l : mult = from_bool x ->
  map values (filter (fun m => ~ multiplicity m ≡F 0) (mkAirInteraction vals mult k :: l)) =
  (if x then [vals] else []) ++ map values (filter (fun m => ~ multiplicity m ≡F 0) l).
Proof. intros ->. destruct x; [by rewrite live_cons|by rewrite dead_cons]. Qed.

Lemma word_from_u64 x : word_from x = word_from (u32 (u64 x)) /\ word_from (Z.shiftr x 32) = word_from (u32 (Z.shiftr (u64 x) 32)).
Proof.
  destruct (le_bytes64_digits x) as (L & F & D). destruct (product_words _ x L F D) as [W1 W2].
  assert (digits8 (ShiftRightChip.to_le_bytes64 x) = u64 x mod 2 ^ 64) as D' by (rewrite D; symmetry; apply Z.mod_mod; done).
  destruct (product_words _ (u64 x) L F D') as [V1 V2]. rewrite !word_from_u32, <- W1, <- W2. done.
Qed.

Section Rows.
  Context (e : AluEvent) (Ho : In (alu_opcode e) [DIV; DIVU; REM; REMU]) (He : alu_event_ok e).
  Context (q m : Z) (Eqm : get_quotient_and_remainder (alu_b e) (alu_c e) (alu_opcode e) = (q, m)).
  Abbreviation o := (alu_opcode e).
  Abbreviation sgn := (is_signed_operation (alu_opcode e)).
  Abbreviation cq := (ShiftRightChip.to_le_bytes64 (product64 (alu_opcode e) q (alu_c e))).
  Abbreviation mb := (ShiftRightChip.to_le_bytes64 (extended64 (alu_opcode e) m)).
  Abbreviation digits := (MulChip.propagate (zip_with Z.add cq mb) 0).
  Abbreviation neg x := (from_bool (is_signed_operation (alu_opcode e) && (i32 x <? 0))).
  Abbreviation absv x := (Z.abs (extended64 (alu_opcode e) x)).
  Abbreviation ovf := (is_signed_operation (alu_opcode e) && (i32 (alu_b e) =? - 2 ^ 31) && (i32 (alu_c e) =? -1)).

Definition divrem_lookups : list ByteLookupEvent :=
  map msb_event_of [alu_b e; alu_c e; m] ++ u8_pairs (limbs (word_from q)) ++ u8_pairs (limbs (word_from m)) ++ u8_pairs cq.

Definition divrem_cols : DivRemCols :=
  mkDivRemCols (Fred (alu_pc e)) (word_from (alu_a e)) (word_from (alu_b e)) (word_from (alu_c e))
    (from_bool (negb (alu_op_a_0 e)))
    (word_from q) (word_from m) (word_from (absv m)) (word_from (absv (alu_c e))) (word_from (max_1 (absv (alu_c e))))
    cq (map snd digits) (IsZeroWordOperation.populate (alu_c e)).1
    (from_bool (bool_decide (o = DIV))) (from_bool (bool_decide (o = DIVU)))
    (from_bool (bool_decide (o = REM))) (from_bool (bool_decide (o = REMU))) (from_bool ovf)
    (IsEqualWordOperation.populate (alu_b e) (u32 (- 2 ^ 31))).1 (IsEqualWordOperation.populate (alu_c e) (u32 (-1))).1
    (Alu.get_msb (alu_b e)) (Alu.get_msb m) (Alu.get_msb (alu_c e)) (neg (alu_b e)) (neg m) (neg (alu_c e))
    (neg (alu_c e)) (neg m) 1 (from_bool (negb (alu_c e =? 0))).

Lemma divrem_ok_values : is_u32 (alu_b e) /\ is_u32 (alu_c e) /\ is_u32 q /\ is_u32 m /\
  product64 o q (alu_c e) + extended64 o m = (if ovf then alu_b e else extended64 o (alu_b e)) /\
  (sgn = true -> (i32 m < 0 -> i32 (alu_b e) < 0) /\ (0 < i32 m -> 0 <= i32 (alu_b e))).
Proof using He Ho Eqm.
  destruct He as (Hb & Hc & _). pose proof (divrem_values o (alu_b e) (alu_c e) Hb Hc Ho) as H. rewrite Eqm in H.
  cbv zeta in H. tauto.
Qed.

Lemma zero_word_test x : is_u32 x ->
  IsZeroWordOperation.result (IsZeroWordOperation.populate x).1 = from_bool (x =? 0).
Proof.
  intros Hx. unfold IsZeroWordOperation.populate. rewrite is_zero_word_populate. cbn [fst IsZeroWordOperation.result]. f_equal.
  assert ((x =? 0) = (to_u32 (word_from x) =? 0)) as -> by (by rewrite to_u32_word_from). rewrite <- (word_eqb _ 0 (word_from_bytes x) ltac:(done)). apply bool_decide_ext.
  pose proof (diff_is_zero (word_from x) (word_from 0) ltac:(auto with rvbound) ltac:(auto with rvbound)) as D.
  change (word_from 0) with word_zero in D |- *. unfold word_is_zero, IsEqualWordOperation.diff in D. cbn [widx word_zero w0 w1 w2 w3] in D.
  rewrite !Z.sub_0_r in D. exact D.
Qed.

Lemma divrem_event_row {R} `{ByteRecord R} (rec : R) :
  event_to_row e rec = Some (divrem_cols, add_byte_lookup_events divrem_lookups rec).
Proof using He Ho Eqm.
  destruct divrem_ok_values as (Hb & Hc & Hq & Hm & _).
  unfold event_to_row. rewrite bool_decide_eq_true_2 by (apply list_elem_of_In; cbn in *; tauto). cbn [negb].
  rewrite Eqm. unfold divrem_lookups. rewrite !add_byte_lookup_events_app, !add_u8_range_checks_events. f_equal. f_equal.
  - rewrite zero_word_test by done. unfold divrem_cols. rewrite !Z.mul_1_r, Z.mul_1_l.
    assert (forall x, is_u32 x -> (if sgn then Alu.get_msb x else 0) = neg x) as Hneg.
    { intros x Hx. destruct (get_msb_i32 x Hx) as [-> _]. by destruct sgn. }
    assert (forall x, is_u32 x -> (if sgn then abs_u32 x else x) = absv x) as Habs.
    { intros x Hx. unfold extended64. destruct (abs_u32_eq x Hx) as [-> _]. destruct sgn; [done|]. rewrite is_u32_iff in Hx. lia. }
    rewrite !Hneg, !Habs by done. f_equal; [by destruct sgn|by destruct (alu_c e =? 0)].
Qed.

Lemma divrem_digits : length digits = 8%nat /\ Forall is_u8 (map fst digits) /\ Forall (fun x => x = 0 \/ x = 1) (map snd digits) /\
  map fst digits = limbs (word_from (alu_b e)) ++ replicate 4 (if ovf then 0 else neg (alu_b e) * 255).
Proof using He Ho Eqm.
  destruct divrem_ok_values as (Hb & Hc & Hq & Hm & Hid & _).
  destruct (le_bytes64_digits (product64 o q (alu_c e))) as (L1 & F1 & D1).
  destruct (le_bytes64_digits (extended64 o m)) as (L2 & F2 & D2).
  assert (Forall (fun x => 0 <= x <= 510) (zip_with Z.add cq mb)) as Hsum.
  { generalize cq mb F1 F2. intros l. induction l as [|x l IH]; intros l' Hl Hl'; [constructor|].
    destruct l' as [|y l']; [constructor|]. rewrite !Forall_cons in Hl, Hl'. destruct Hl as [Hx Hl], Hl' as [Hy Hl'].
    rewrite is_u8_iff in Hx, Hy. cbn [zip_with]. constructor; [lia|auto]. }
  destruct (propagate_01 _ 0 Hsum ltac:(lia)) as [B1 B2].
  assert (length digits = 8%nat) as Hl by done. split_and!; try done.
  assert (digits8 (map fst digits) = (product64 o q (alu_c e) + extended64 o m) mod 2 ^ 64) as Hd.
  { assert (0 <= digits8 (map fst digits) < 2 ^ 64) as Hr.
    { assert (forall i, 0 <= nth i (map fst digits) 0 < 256) as Hi by (intros i; apply is_u8_iff, nth_u8, B1).
      pose proof (Hi 0%nat). pose proof (Hi 1%nat). pose proof (Hi 2%nat). pose proof (Hi 3%nat). pose proof (Hi 4%nat).
      pose proof (Hi 5%nat). pose proof (Hi 6%nat). pose proof (Hi 7%nat). unfold digits8. change (2 ^ 64) with 18446744073709551616. lia. }
    rewrite Z.add_mod, <- D1, <- D2 by done. apply (Z.mod_unique _ _ (nth 7 (map snd digits) 0)); [left; exact Hr|].
    rewrite (carried_sum cq mb (map fst digits) (map snd digits)); [ring|].
    intros i Hi. rewrite propagate_nth, nth_zip_add by done. destruct i as [|i]; cbn [Nat.eqb Nat.ltb Nat.leb]; ring. }
  rewrite Hid in Hd. destruct ovf eqn:Eo.
  - exact (sign_extended DIVU (alu_b e) (map fst digits) Hb Hl B1 Hd).
  - exact (sign_extended o (alu_b e) (map fst digits) Hb Hl B1 Hd).
Qed.

Lemma absv_u32 x : is_u32 x -> is_u32 (absv x).
Proof.
  intros Hx. unfold extended64. destruct sgn; [|by rewrite Z.abs_eq by (rewrite is_u32_iff in Hx; lia)].
  destruct (abs_u32_eq x Hx) as [<- ?]. done.
Qed.

Lemma divrem_cols_wf : wf divrem_cols.
Proof using He Ho Eqm.
  destruct divrem_ok_values as (Hb & Hc & Hq & Hm & _). destruct divrem_digits as (Hl & _ & B2 & _).
  destruct (le_bytes64_digits (product64 o q (alu_c e))) as (L1 & F1 & _).
  assert (forall x, is_u32 x -> canon (Alu.get_msb x)) as Cmsb by (intros x Hx; destruct (get_msb_i32 x Hx) as [-> _]; apply from_bool_canon).
  unfold wf, divrem_cols. cbn [pc a b c op_a_not_0 quotient remainder abs_remainder abs_c max_abs_c_or_1 c_times_quotient carry is_c_0
    is_div is_divu is_rem is_remu is_overflow is_overflow_b is_overflow_c b_msb rem_msb c_msb b_neg rem_neg c_neg abs_c_alu_event
    abs_rem_alu_event is_real remainder_check_multiplicity]. split_and!; auto with rvbound.
  - rewrite !Forall_cons. split_and!; auto with rvbound.
  - split; [done|]. eapply Forall_impl; [exact F1|apply u8_canon].
  - split; [by rewrite length_map|]. eapply Forall_impl; [exact B2|]. intros x [->| ->]; done.
  - apply (is_zero_word_complete _ 1). by right.
  - apply (is_equal_word_complete _ _ 1); auto with rvbound.
  - apply (is_equal_word_complete _ _ 1); auto with rvbound.
  - rewrite !Forall_cons. split_and!; auto with rvbound; done.
Qed.

Lemma divrem_lookups_found : Forall event_found divrem_lookups.
Proof using He Ho Eqm.
  destruct divrem_ok_values as (Hb & Hc & Hq & Hm & _).
  destruct (le_bytes64_digits (product64 o q (alu_c e))) as (_ & F1 & _).
  assert (forall x, is_u32 x -> event_found (msb_event_of x)) as Hmsb.
  { intros x Hx. unfold msb_event_of. destruct (get_msb_i32 x Hx) as [_ ->]. apply msb_event. apply (word_from_bytes x). }
  unfold divrem_lookups. rewrite !Forall_app. cbn [map]. rewrite !Forall_cons.
  split_and!; auto; apply u8_pairs_found; auto with rvbound.
Qed.

Lemma divrem_messages : byte_messages (eval divrem_cols) = map event_values divrem_lookups.
Proof.
  unfold eval, divrem_lookups. rewrite !byte_messages_app, !byte_messages_range. rewrite !map_app.
  assert (byte_messages (map AssertBool (carry divrem_cols)) = []) as -> by (unfold byte_messages; by rewrite sends_map).
  unfold divrem_cols. cbn [quotient remainder c_times_quotient is_real b_msb c_msb rem_msb b c]. reflexivity.
Qed.

Lemma divrem_cols_selected : selected o divrem_cols.
Proof using Ho. by split. Qed.

Lemma cols_identity i : (i < 8)%nat -> c_times_quotient_plus_remainder divrem_cols i = nth i (map fst digits) 0.
Proof using He Ho Eqm.
  intros Hi. destruct divrem_ok_values as (_ & _ & _ & Hm & _). destruct (le_bytes64_digits (extended64 o m)) as (L2 & F2 & D2).
  rewrite propagate_nth, nth_zip_add by done. rewrite (sign_extended o m mb Hm L2 F2 D2).
  unfold c_times_quotient_plus_remainder, divrem_cols. cbn [c_times_quotient remainder carry rem_neg].
  rewrite (sign_extended o m mb Hm L2 F2 D2).
  do 8 (destruct i as [|i]; [cbn [Nat.ltb Nat.leb Nat.eqb Nat.sub nth limbs app replicate widx WORD_SIZE]; ring|]). lia.
Qed.

Lemma cols_identity_hold i : In i (seq 0 LONG_WORD_SIZE) -> all_hold
  (if (i <? WORD_SIZE)%nat then [AssertEq (b divrem_cols).[i] (c_times_quotient_plus_remainder divrem_cols i)]
   else
     when (1 - is_overflow divrem_cols) (when (b_neg divrem_cols) [AssertEq (c_times_quotient_plus_remainder divrem_cols i) 255]) ++
     when (1 - is_overflow divrem_cols) (when_ne 1 (b_neg divrem_cols) [AssertZero (c_times_quotient_plus_remainder divrem_cols i)]) ++
     when (is_overflow divrem_cols) [AssertZero (c_times_quotient_plus_remainder divrem_cols i)]).
Proof using He Ho Eqm.
  intros [_ Hi]%in_seq. cbn [Nat.add] in Hi. unfold LONG_WORD_SIZE in Hi. rewrite (cols_identity i Hi).
  destruct divrem_digits as (_ & _ & _ & ->). cbn [b b_neg is_overflow divrem_cols].
  destruct (Nat.ltb_spec i WORD_SIZE) as [Hlt|Hge]; unfold WORD_SIZE in *.
  - split; [|done]. by do 4 (destruct i as [|i]; [reflexivity|]); lia.
  - assert (nth i (limbs (word_from (alu_b e)) ++ replicate 4 (if ovf then 0 else neg (alu_b e) * 255)) 0 =
      if ovf then 0 else neg (alu_b e) * 255) as -> by (do 8 (destruct i as [|i]; [lia || done|]); lia).
    unfold when_ne. rewrite !all_hold_app, !all_hold_when.
    generalize (neg (alu_b e)) (from_bool_01 (sgn && (i32 (alu_b e) <? 0))). intros x Hx.
    destruct ovf; cbn [from_bool]; split_and!; intros Z1; try (by destruct Z1); try intros Z2; (split; [|done]); try reflexivity;
      destruct Hx as [->| ->]; done || by destruct Z2.
Qed.

Lemma cols_a : alu_op_a_0 e = false ->
  (divu_like o = true -> word_from q = word_from (alu_a e)) /\ (divu_like o = false -> word_from m = word_from (alu_a e)).
Proof using He Ho Eqm.
  intros H0. destruct He as (Hb & Hc & Ha). rewrite H0 in Ha.
  pose proof (divrem_results o (alu_b e) (alu_c e) Hb Hc) as HR. rewrite Eqm in HR. cbn [fst snd] in HR.
  destruct Ho as [E|[E|[E|[E|[]]]]]; rewrite <- E in *; cbn [divu_like]; rewrite HR in Ha; injection Ha as ->; done.
Qed.

Lemma cols_signs : all_hold (
  when (rem_neg divrem_cols) [AssertOne (b_neg divrem_cols)] ++
  when (fold_left (fun acc i => acc + (remainder divrem_cols).[i]) (seq 0 WORD_SIZE) 0)
    (when (1 - rem_neg divrem_cols) [AssertZero (b_neg divrem_cols)])).
Proof using He Ho Eqm.
  destruct divrem_ok_values as (Hb & Hc & Hq & Hm & _ & Hs). cbn [rem_neg b_neg remainder divrem_cols].
  rewrite all_hold_app, !all_hold_when. destruct sgn; [|by split; [intros [] |intros _ _; split]].
  destruct (Hs eq_refl) as [S1 S2]. cbn [andb]. split; [intros Z1|intros Z1 Z2]; (split; [|done]); cbn [holds].
  - destruct (Z.ltb_spec (i32 m) 0); [|by destruct Z1]. by rewrite (proj2 (Z.ltb_lt _ _)) by auto.
  - destruct (Z.ltb_spec (i32 m) 0); [by destruct Z2|]. assert (i32 m <> 0) as Hne.
    { rewrite i32_sx, sx_eq0 by done. intros ->. by destruct Z1. }
    rewrite (proj2 (Z.ltb_ge _ _)); [done|]. apply S2. lia.
Qed.

Lemma absv_nonneg x : is_u32 x -> neg x = 0 -> absv x = x.
Proof.
  intros Hx Hn. unfold extended64. rewrite i32_sign in * by done. rewrite is_u32_iff in Hx.
  destruct sgn; [|lia]. destruct (Z.leb_spec (2 ^ 31) x); [|lia]. cbn [andb] in Hn. change (2 ^ 32) with 4294967296 in *.
  rewrite (proj2 (Z.ltb_lt _ _)) in Hn by lia. discriminate Hn.
Qed.

Lemma when_not_neg x i : is_u32 x -> all_hold (when_not (neg x) [AssertEq (word_from x).[i] (word_from (absv x)).[i]]).
Proof.
  intros Hx. unfold when_not, when_ne. apply all_hold_when. intros Hz.
  destruct (from_bool_01 (sgn && (i32 x <? 0))) as [E|E]; [|by rewrite E in Hz].
  rewrite (absv_nonneg x Hx E). by split.
Qed.

Lemma cols_max i : In i (seq 0 WORD_SIZE) ->
  (word_from (max_1 (absv (alu_c e)))).[i] ≡F
    if (i =? 0)%nat then from_bool (alu_c e =? 0) * 1 + (1 - from_bool (alu_c e =? 0)) * (word_from (absv (alu_c e))).[0]
    else (1 - from_bool (alu_c e =? 0)) * (word_from (absv (alu_c e))).[i].
Proof using He Ho Eqm.
  intros Hi. destruct divrem_ok_values as (_ & Hc & _). destruct (Z.eqb_spec (alu_c e) 0) as [E|E]; cbn [from_bool].
  - rewrite E. unfold max_1. assert (absv 0 = 0) as -> by (unfold extended64; by destruct sgn).
    cbn in Hi. by destruct Hi as [<-|[<-|[<-|[<-|[]]]]].
  - assert (max_1 (absv (alu_c e)) = absv (alu_c e)) as ->.
    { unfold max_1. apply Z.max_r. unfold extended64. destruct sgn; [rewrite i32_sx by done; pose proof (sx_eq0 _ Hc); lia|lia]. }
    cbn in Hi. destruct Hi as [<-|[<-|[<-|[<-|[]]]]]; cbn [Nat.eqb]; apply eqF_diff; exists 0; ring.
Qed.

Lemma divrem_cols_hold : all_hold (eval divrem_cols).
Proof using He Ho Eqm.
  destruct divrem_ok_values as (Hb & Hc & Hq & Hm & _). destruct divrem_digits as (Hl & _ & B2 & _).
  destruct (selected_sums _ _ divrem_cols_selected) as (Es & Eu & Ed & Er & _). pose proof cols_signs as HS. rewrite all_hold_app in HS.
  destruct (is_zero_word_complete (word_from (alu_c e)) 1 ltac:(auto)) as (_ & _ & H0). pose proof (zero_word_test _ Hc) as E0.
  destruct (is_equal_word_complete (alu_b e) (u32 (- 2 ^ 31)) 1 Hb ltac:(auto with rvbound) ltac:(auto)) as (_ & R1 & H1).
  destruct (is_equal_word_complete (alu_c e) (u32 (-1)) 1 Hc ltac:(auto with rvbound) ltac:(auto)) as (_ & R2 & H2).
  assert (forall x, is_u32 x -> Alu.get_msb x = from_bool (i32 x <? 0)) as Hmsb by (intros x Hx; by destruct (get_msb_i32 x Hx)).
  unfold eval. rewrite Es, Eu, Ed, Er. rewrite !all_hold_app, !all_hold_flat_map, !all_hold_map.
  split_and!; try exact (conj I I); try apply HS; try apply all_hold_range.
  - cbn [all_hold holds b_msb b_neg rem_msb rem_neg c_msb c_neg divrem_cols]. rewrite !Hmsb by done.
    destruct sgn; cbn [andb from_bool]; rewrite ?Z.mul_1_r, ?Z.mul_0_r; done.
  - exact H1.
  - exact H2.
  - split; [|done]. cbn [holds is_overflow is_overflow_b is_overflow_c divrem_cols]. rewrite R1, R2.
    assert ((i32 (alu_b e) =? - 2 ^ 31) = (alu_b e =? u32 (- 2 ^ 31))) as ->.
    { rewrite i32_sign by done. rewrite is_u32_iff in Hb. change (u32 (- 2 ^ 31)) with 2147483648. change (2 ^ 31) with 2147483648.
      change (2 ^ 32) with 4294967296. apply eq_true_iff_eq. rewrite !Z.eqb_eq. destruct (Z.leb_spec 2147483648 (alu_b e)); lia. }
    assert ((i32 (alu_c e) =? -1) = (alu_c e =? u32 (-1))) as ->.
    { rewrite i32_sign by done. rewrite is_u32_iff in Hc. change (u32 (-1)) with 4294967295. change (2 ^ 31) with 2147483648.
      change (2 ^ 32) with 4294967296. apply eq_true_iff_eq. rewrite !Z.eqb_eq. destruct (Z.leb_spec 2147483648 (alu_c e)); lia. }
    generalize (alu_b e =? u32 (- 2 ^ 31)) (alu_c e =? u32 (-1)) sgn. intros [] [] []; reflexivity.
  - exact cols_identity_hold.
  - intros i Hi. rewrite all_hold_app, !all_hold_when. cbn [op_a_not_0 quotient remainder a divrem_cols].
    split; intros Z1 Z2; (split; [|done]); (destruct (alu_op_a_0 e) eqn:Ez; [by destruct Z1|]);
      destruct (cols_a Ez) as [A1 A2]; (destruct (divu_like o); [try (by destruct Z2)|try (by destruct Z2)]); cbn [holds];
      rewrite ?A1, ?A2 by done; reflexivity.
  - exact H0.
  - intros i Hi. rewrite !all_hold_when. cbn [is_c_0 quotient divrem_cols]. rewrite E0. intros Z1 _. split; [|done]. cbn [holds].
    destruct (Z.eqb_spec (alu_c e) 0) as [E|E]; [|by destruct Z1].
    unfold get_quotient_and_remainder in Eqm. rewrite E in Eqm. cbn [Z.eqb] in Eqm. injection Eqm as <- _.
    cbn in Hi. by destruct Hi as [<-|[<-|[<-|[<-|[]]]]].
  - intros i Hi. rewrite all_hold_app. split; by apply when_not_neg.
  - intros i Hi. cbn [holds is_c_0 max_abs_c_or_1 abs_c divrem_cols]. rewrite E0. by apply cols_max.
  - cbn [all_hold holds is_c_0 is_real remainder_check_multiplicity abs_c_alu_event abs_rem_alu_event c_neg rem_neg divrem_cols].
    rewrite E0, !Z.mul_1_r. by destruct (alu_c e =? 0).
  - intros x Hx. rewrite Forall_forall in B2. specialize (B2 x (proj2 (list_elem_of_In _ _) Hx)). cbn [holds].
    destruct B2 as [->| ->]; [by left|by right].
  - assert (Forall (fun x => x = 0 \/ x = 1) [is_div divrem_cols; is_divu divrem_cols; is_rem divrem_cols; is_remu divrem_cols;
      is_overflow divrem_cols; b_msb divrem_cols; rem_msb divrem_cols; c_msb divrem_cols; b_neg divrem_cols; rem_neg divrem_cols;
      c_neg divrem_cols; is_real divrem_cols; abs_c_alu_event divrem_cols; abs_rem_alu_event divrem_cols]) as HB.
    { cbn [is_div is_divu is_rem is_remu is_overflow b_msb rem_msb c_msb b_neg rem_neg c_neg is_real abs_c_alu_event abs_rem_alu_event divrem_cols].
      rewrite !Hmsb by done. rewrite !Forall_cons. split_and!; try apply from_bool_01; [by right|constructor]. }
    intros x Hx. rewrite Forall_forall in HB. specialize (HB x (proj2 (list_elem_of_In _ _) Hx)).
    cbn [holds]. destruct HB as [->| ->]; [by left|by right].
  - split; [|done]. cbn [holds is_divu is_remu is_div is_rem divrem_cols]. by destruct Ho as [<-|[<-|[<-|[<-|[]]]]].
  - apply all_hold_when. intros _. by split.
Qed.

(** The events of [emit_divrem_dependencies], in its order. *)
Definition divrem_deps : list AluEvent :=
  let P := u64 (if sgn then i32 q * i32 (alu_c e) else q * alu_c e) in
  (if (if sgn then Alu.get_msb (alu_c e) else 0) =? 1 then [dep_event ADD 0 (alu_c e) (unsigned_abs (i32 (alu_c e)))] else []) ++
  (if (if sgn then Alu.get_msb m else 0) =? 1 then [dep_event ADD 0 m (unsigned_abs (i32 m))] else []) ++
  [dep_event MUL (u32 P) q (alu_c e); dep_event (if sgn then MULH else MULHU) (u32 (Z.shiftr P 32)) q (alu_c e)] ++
  (if negb (alu_c e =? 0)
   then [if sgn then dep_event SLTU 1 (unsigned_abs (i32 m)) (Z.max 1 (unsigned_abs (i32 (alu_c e))))
         else dep_event SLTU 1 m (Z.max 1 (alu_c e))] else []).

Lemma neg_iff x : is_u32 x -> ((if sgn then Alu.get_msb x else 0) =? 1) = (sgn && (i32 x <? 0)).
Proof. intros Hx. destruct (get_msb_i32 x Hx) as [-> _]. destruct sgn; [|done]. by destruct (i32 x <? 0). Qed.

(** The row sends the instructions that were emitted for the event. *)
Lemma divrem_cols_sends : map values (filter (fun m => ~ multiplicity m ≡F 0) (sends KInstruction (eval divrem_cols)))
  ≡ₚ map event_message divrem_deps.
Proof using He Ho Eqm.
  destruct divrem_ok_values as (Hb & Hc & Hq & Hm & _).
  destruct (le_bytes64_digits (product64 o q (alu_c e))) as (L1 & F1 & D1). destruct (product_words cq _ L1 F1 D1) as [W1 W2].
  destruct (selected_sums _ _ divrem_cols_selected) as (Es & Eu & _).
  rewrite divrem_sends. unfold sent_instructions, divrem_deps. rewrite Es, Eu, !neg_iff by done. rewrite !map_app.
  unfold word_of. cbn [Nat.add c_times_quotient divrem_cols]. rewrite W1, W2.
  rewrite !(live_if _ (is_real divrem_cols) true), (live_if _ (abs_c_alu_event divrem_cols) (sgn && (i32 (alu_c e) <? 0))),
    (live_if _ (abs_rem_alu_event divrem_cols) (sgn && (i32 m <? 0))),
    (live_if _ (remainder_check_multiplicity divrem_cols) (negb (alu_c e =? 0))) by done.
  cbn [quotient c abs_c remainder abs_remainder max_abs_c_or_1 divrem_cols]. change (map values (filter _ [])) with (@nil (list Z)).
  rewrite app_nil_r. set (PP := if sgn then i32 q * _ else _). change (product64 o q (alu_c e)) with PP.
  destruct (word_from_u64 PP) as [-> ->].
  assert (forall l1 l2 l3 l4 l5 : list (list Z), l1 ++ l2 ++ l3 ++ l4 ++ l5 ≡ₚ l3 ++ l4 ++ (l1 ++ l2) ++ l5) as Hperm
    by (intros; solve_Permutation).
  rewrite Hperm. clear Hperm W1 W2 L1 F1 D1 Es Eu. clearbody PP. match goal with |- ?l ≡ₚ ?l' => enough (l = l') as -> by done end.
  rewrite is_u32_iff in Hc, Hm. unfold extended64.
  assert (Z.abs m = m /\ Z.abs (alu_c e) = alu_c e) as [Am Ac] by lia.
  destruct sgn; cbn [andb]; rewrite ?Am, ?Ac; [destruct (i32 (alu_c e) <? 0), (i32 m <? 0)|]; destruct (alu_c e =? 0); reflexivity.
Qed.

Lemma divrem_emits r : emit_divrem_dependencies e r =
  fold_left (fun r d => match alu_opcode d with
    | ADD => upd_add_events (push d) r
    | SLTU => upd_lt_events (push d) r
    | _ => upd_mul_events (push d) r
    end) divrem_deps r.
Proof using Eqm.
  unfold emit_divrem_dependencies, divrem_deps. rewrite Eqm.
  destruct (_ =? 1), (_ =? 1), (negb (alu_c e =? 0)), sgn; reflexivity.
Qed.

Lemma divrem_row {R} `{ByteRecord R} (rec : R) : exists cols evs,
  event_to_row e rec = Some (cols, add_byte_lookup_events evs rec) /\ wf cols /\ row_of_event e (eval cols) evs /\
  map values (filter (fun m => ~ multiplicity m ≡F 0) (sends KInstruction (eval cols))) ≡ₚ map event_message divrem_deps.
Proof using He Ho Eqm.
  exists divrem_cols, divrem_lookups. split; [apply divrem_event_row|]. split; [exact divrem_cols_wf|].
  split; [|exact divrem_cols_sends]. split_and!; [exact divrem_cols_hold|by rewrite divrem_messages|exact divrem_lookups_found|].
  unfold received_messages. rewrite divrem_receives. destruct (selected_sums _ _ divrem_cols_selected) as (_ & _ & _ & _ & ->).
  eexists. split; [reflexivity|]. split; [reflexivity|]. unfold event_message, divrem_cols. cbn [values pc a b c op_a_not_0].
  by destruct (alu_op_a_0 e).
Qed.
End Rows.

(** A padding row passes and takes part in nothing. *)
Lemma divrem_padding : wf padded_row_template /\ silent_row (eval padded_row_template).
Proof.
  split.
  - unfold wf, padded_row_template. cbn [pc a b c op_a_not_0 quotient remainder abs_remainder abs_c max_abs_c_or_1 c_times_quotient carry is_c_0
    is_div is_divu is_rem is_remu is_overflow is_overflow_b is_overflow_c b_msb rem_msb c_msb b_neg rem_neg c_neg abs_c_alu_event
    abs_rem_alu_event is_real remainder_check_multiplicity]. split_and!; try done.
    + rewrite !Forall_cons. done.
    + split; [done|]. cbn [replicate]. rewrite !Forall_cons. done.
    + split; [done|]. cbn [replicate]. rewrite !Forall_cons. done.
    + apply (is_zero_word_complete _ 1). by right.
    + split_and!; try done. cbn [replicate IsZeroWordOperation.is_zero_byte zero_test IsEqualWordOperation.is_diff_zero]. rewrite !Forall_cons. done.
    + split_and!; try done. cbn [replicate IsZeroWordOperation.is_zero_byte zero_test IsEqualWordOperation.is_diff_zero]. rewrite !Forall_cons. done.
    + rewrite !Forall_cons. done.
  - split; [|intros k; by destruct k]. apply (debug_constraints_hold (FB := nonzero_filter)). by vm_compute.
Qed.
