(* ===== verification/Lookup.v ===== *)
(** * Lookups (crates/stark/src/lookup/debug.rs)

    Chips exchange messages; the lookup argument of the proof system enforces
    that every message is sent as often as it is received, multiplicities
    counted in the field.  [balanced] states it, and
    [debug_interactions_with_all_chips], the check the prover runs in debug
    mode, decides it.  In a balanced shard a message sent with boolean
    multiplicities, fewer than the order of the field, has a receiver. *)

From Stdlib Require Import ZArith Lia Bool.
From stdpp Require Import base list gmap.
From S2P Require Import Prelude AirBuilder.

Local Open Scope Z_scope.
Local Open Scope rv_scope.

(** ** The debug check *)

Definition scope_code (s : InteractionScope) : bool := match s with Global => true | Local => false end.
#[export] Instance scope_code_inj : Inj (=) (=) scope_code.
Proof. intros [] []; done. Qed.
#[export] Instance argument_index_inj : Inj (=) (=) argument_index.
Proof. intros [] []; done. Qed.
#[export] Instance InteractionScope_countable : Countable InteractionScope.
Proof. refine (inj_countable' scope_code (fun b => if b then Global else Local) _). by intros []. Defined.
#[export] Instance InteractionKind_countable : Countable InteractionKind.
Proof.
  refine (inj_countable argument_index (fun z => find (fun k => argument_index k =? z)
    [KMemory; KProgram; KInstruction; KAlu; KByte; KRange; KField; KSyscall; KGlobal]) _).
  by intros [].
Defined.

(** The key of a message: the source prints scope, kind and canonical values
    into a string. *)
Definition Key : Type := InteractionScope * InteractionKind * list Z.

Definition sends_in (s : InteractionScope) (calls : list Call) : list AirInteraction :=
  omap (fun c => match c with Send m s' => if decide (s' = s) then Some m else None | _ => None end) calls.
Definition receives_in (s : InteractionScope) (calls : list Call) : list AirInteraction :=
  omap (fun c => match c with Receive m s' => if decide (s' = s) then Some m else None | _ => None end) calls.

Definition key_of (s : InteractionScope) (m : AirInteraction) : Key := (s, kind m, map Fred (values m)).

(** [*current += x] on a map of field elements. *)
Definition bump (k : Key) (x : Z) (counts : gmap Key Z) : gmap Key Z :=
  <[k := Fred (default 0 (counts !! k) + x)]> counts.

(** One interaction of a row. *)
Definition count_interaction (kinds : list InteractionKind) (s : InteractionScope) (is_send : bool)
    (counts : gmap Key Z) (m : AirInteraction) : gmap Key Z :=
  if negb (bool_decide (kind m ∈ kinds)) then counts
  else if bool_decide (multiplicity m ≡F 0) then counts
  else bump (key_of s m) (if is_send then multiplicity m else - multiplicity m) counts.

(** The sends of a row, then its receives. *)
Definition count_row (kinds : list InteractionKind) (s : InteractionScope) (counts : gmap Key Z) (calls : list Call)
    : gmap Key Z :=
  fold_left (count_interaction kinds s false) (receives_in s calls)
    (fold_left (count_interaction kinds s true) (sends_in s calls) counts).

(** A chip is the calls of each of its rows. *)
Definition debug_interactions (rows : list (list Call)) (kinds : list InteractionKind) (s : InteractionScope) : gmap Key Z :=
  fold_left (count_row kinds s) rows ∅.

Definition merge_counts (final counts : gmap Key Z) : gmap Key Z :=
  fold_left (fun final '(k, x) => bump k x final) (map_to_list counts) final.

(** The included chips of the shards; [None] is the failed assertion. *)
Definition debug_interactions_with_all_chips (nb_shards : nat) (chips : list (list (list Call)))
    (kinds : list InteractionKind) (s : InteractionScope) : option bool :=
  if bool_decide (s = Local) && negb (nb_shards =? 1)%nat then None else
  let final_map := fold_left (fun final rows => merge_counts final (debug_interactions rows kinds s)) chips ∅ in
  Some (negb (existsb (fun '(_, x) => negb (bool_decide (x ≡F 0))) (map_to_list final_map))).

(** ** Balance *)

#[export] Instance same_values_dec v v' : Decision (same_values v v').
Proof. unfold same_values. apply _. Defined.

(** Total multiplicity of a message. *)
Fixpoint mult_sum (v : list Z) (ms : list AirInteraction) : Z :=
  match ms with
  | [] => 0
  | m :: ms => (if decide (same_values (values m) v) then multiplicity m else 0) + mult_sum v ms
  end.

Definition balanced (s : InteractionScope) (k : InteractionKind) (calls : list Call) : Prop :=
  forall v, mult_sum v (filter (fun m => kind m = k) (sends_in s calls)) ≡F
            mult_sum v (filter (fun m => kind m = k) (receives_in s calls)).

Lemma mult_sum_app v l1 l2 : mult_sum v (l1 ++ l2) = mult_sum v l1 + mult_sum v l2.
Proof. induction l1 as [|m l IH]; cbn; [done|]. rewrite IH. ring. Qed.

(** ** The debug check decides balance *)

Definition at_key (k : Key) (counts : gmap Key Z) : Z := default 0 (counts !! k).

Lemma at_bump k k' x counts : at_key k (bump k' x counts) ≡F at_key k counts + (if decide (k' = k) then x else 0).
Proof.
  unfold at_key, bump. case_decide as E.
  - subst k'. rewrite lookup_insert_eq. cbn. apply Fred_eqF.
  - rewrite lookup_insert_ne by done. by rewrite Z.add_0_r.
Qed.

(** The contribution of the messages of a row to a key. *)
Section Counting.
  Context (kinds : list InteractionKind) (s : InteractionScope).

Lemma at_count_interactions (is_send : bool) ms k v counts : k ∈ kinds ->
  at_key (s, k, map Fred v) (fold_left (count_interaction kinds s is_send) ms counts) ≡F
  at_key (s, k, map Fred v) counts + (if is_send then 1 else -1) * mult_sum v (filter (fun m => kind m = k) ms).
Proof.
  intros Hk. revert counts. induction ms as [|m ms IH]; intros counts; cbn [fold_left].
  { cbn. by rewrite Z.mul_0_r, Z.add_0_r. }
  rewrite IH. clear IH. unfold count_interaction, key_of. rewrite filter_cons.
  destruct (decide (kind m = k)) as [E|E].
  - rewrite E, bool_decide_eq_true_2 by done. cbn [negb mult_sum].
    set (S := mult_sum _ _). case_bool_decide as Hz.
    + assert ((if decide (same_values (values m) v) then multiplicity m else 0) ≡F 0) as -> by (by case_decide). by rewrite Z.add_0_l.
    + rewrite at_bump. assert ((s, k, map Fred (values m)) = (s, k, map Fred v) <-> same_values (values m) v) as Hiff.
      { unfold same_values. split; [by intros [= E']|by intros ->]. }
      destruct (decide (same_values (values m) v)); [rewrite decide_True by tauto|rewrite decide_False by tauto];
        apply eqF_diff; exists 0; destruct is_send; ring.
  - destruct (bool_decide (kind m ∈ kinds)); cbn [negb]; [|done]. case_bool_decide; [done|].
    rewrite at_bump, decide_False by (intros [= ? ?]; congruence). by rewrite Z.add_0_r.
Qed.

Lemma at_count_interactions_other (is_send : bool) ms (key : Key) counts : key.1.1 <> s \/ key.1.2 ∉ kinds ->
  (fold_left (count_interaction kinds s is_send) ms counts) !! key = counts !! key.
Proof.
  intros Hk. revert counts. induction ms as [|m ms IH]; intros counts; cbn [fold_left]; [done|].
  rewrite IH. unfold count_interaction. case_bool_decide as Hin; cbn [negb]; [|done]. case_bool_decide; [done|].
  unfold bump. rewrite lookup_insert_ne; [done|]. unfold key_of. intros <-. cbn in Hk. tauto.
Qed.

Definition net (k : InteractionKind) (v : list Z) (calls : list Call) : Z :=
  mult_sum v (filter (fun m => kind m = k) (sends_in s calls)) - mult_sum v (filter (fun m => kind m = k) (receives_in s calls)).

Lemma net_app k v l1 l2 : net k v (l1 ++ l2) = net k v l1 + net k v l2.
Proof. unfold net, sends_in, receives_in. rewrite !omap_app, !filter_app, !mult_sum_app. ring. Qed.

Lemma at_count_row k v counts calls : k ∈ kinds ->
  at_key (s, k, map Fred v) (count_row kinds s counts calls) ≡F at_key (s, k, map Fred v) counts + net k v calls.
Proof.
  intros Hk. unfold count_row. rewrite !at_count_interactions by done. apply eqF_diff. exists 0. unfold net. ring.
Qed.

Lemma at_debug_interactions k v rows : k ∈ kinds ->
  at_key (s, k, map Fred v) (debug_interactions rows kinds s) ≡F net k v (concat rows).
Proof.
  intros Hk. unfold debug_interactions.
  assert (forall counts, at_key (s, k, map Fred v) (fold_left (count_row kinds s) rows counts) ≡F
    at_key (s, k, map Fred v) counts + net k v (concat rows)) as H; [|by rewrite H].
  induction rows as [|r rows IH]; intros counts; cbn [fold_left concat].
  - unfold net. cbn. by rewrite Z.add_0_r.
  - rewrite IH, at_count_row, net_app by done. apply eqF_diff. exists 0. ring.
Qed.

(** No other key is counted. *)
Lemma other_keys (key : Key) rows : key.1.1 <> s \/ key.1.2 ∉ kinds -> debug_interactions rows kinds s !! key = None.
Proof.
  intros Hk. unfold debug_interactions.
  assert (forall counts, fold_left (count_row kinds s) rows counts !! key = counts !! key) as H; [|by rewrite H].
  induction rows as [|r rows IH]; intros counts; cbn [fold_left]; [done|]. rewrite IH. unfold count_row.
  by rewrite !at_count_interactions_other.
Qed.

(** A key holds canonical values. *)
Lemma counted_keys (key : Key) rows : debug_interactions rows kinds s !! key <> None -> map Fred key.2 = key.2.
Proof.
  unfold debug_interactions.
  assert (forall is_send ms counts, (forall key : Key, counts !! key <> None -> map Fred key.2 = key.2) ->
    forall key : Key, fold_left (count_interaction kinds s is_send) ms counts !! key <> None -> map Fred key.2 = key.2) as H.
  { intros is_send ms. induction ms as [|m ms IH]; intros counts Hc; cbn [fold_left]; [done|]. apply IH. clear IH.
    intros key'. unfold count_interaction. case_bool_decide; cbn [negb]; [|apply Hc]. case_bool_decide; [apply Hc|].
    unfold bump. destruct (decide (key_of s m = key')) as [<-|Hne]; [|rewrite lookup_insert_ne by done; apply Hc].
    intros _. cbn. rewrite map_map. apply map_ext. intros x. apply Z.mod_mod. done. }
  assert (forall counts, (forall key : Key, counts !! key <> None -> map Fred key.2 = key.2) ->
    forall key : Key, fold_left (count_row kinds s) rows counts !! key <> None -> map Fred key.2 = key.2) as H2.
  { induction rows as [|r rows IH]; intros counts Hc; cbn [fold_left]; [done|]. apply IH. unfold count_row. by do 2 apply H. }
  apply H2. intros k Hk. by rewrite lookup_empty in Hk.
Qed.

Lemma at_uncounted (key : Key) rows : (key.1.1 <> s \/ key.1.2 ∉ kinds) \/ map Fred key.2 <> key.2 ->
  at_key key (debug_interactions rows kinds s) = 0.
Proof.
  intros H. unfold at_key. destruct (debug_interactions rows kinds s !! key) eqn:E; [|done]. exfalso.
  destruct H as [H|H]; [by rewrite other_keys in E|]. apply H, (counted_keys key rows). by rewrite E.
Qed.
End Counting.

Lemma at_merge k final counts : at_key k (merge_counts final counts) ≡F at_key k final + at_key k counts.
Proof.
  unfold merge_counts, at_key at 3. 
  assert (forall l : list (Key * Z), NoDup l.*1 -> forall final,
    at_key k (fold_left (fun final '(k, x) => bump k x final) l final) ≡F
    at_key k final + default 0 ((list_to_map l : gmap Key Z) !! k)) as H.
  { induction l as [|[k' x] l IH]; intros Hnd f; cbn [fold_left].
    - cbn. rewrite lookup_empty. cbn. by rewrite Z.add_0_r.
    - cbn in Hnd. apply NoDup_cons in Hnd as [Hni Hnd]. rewrite IH, list_to_map_cons by done. rewrite at_bump. case_decide as E.
      + subst k'. rewrite lookup_insert_eq. rewrite (not_elem_of_list_to_map_1 l k Hni). cbn. by rewrite Z.add_0_r.
      + rewrite lookup_insert_ne by done. apply eqF_diff. exists 0. ring. }
  rewrite H by apply NoDup_fst_map_to_list. by rewrite list_to_map_to_list.
Qed.

Lemma at_final kinds s key chips : 
  at_key key (fold_left (fun final rows => merge_counts final (debug_interactions rows kinds s)) chips ∅) ≡F
  fold_right (fun rows acc => at_key key (debug_interactions rows kinds s) + acc) 0 chips.
Proof.
  assert (forall final, at_key key (fold_left (fun final rows => merge_counts final (debug_interactions rows kinds s)) chips final) ≡F
    at_key key final + fold_right (fun rows acc => at_key key (debug_interactions rows kinds s) + acc) 0 chips) as H; [|by rewrite H].
  induction chips as [|rows chips IH]; intros final; cbn [fold_left fold_right].
  - by rewrite Z.add_0_r.
  - rewrite IH, at_merge. apply eqF_diff. exists 0. ring.
Qed.

Lemma no_nonzero (counts : gmap Key Z) :
  negb (existsb (fun '(_, x) => negb (bool_decide (x ≡F 0))) (map_to_list counts)) = true <-> forall key, at_key key counts ≡F 0.
Proof.
  rewrite negb_true_iff, <- not_true_iff_false, existsb_exists. split.
  - intros H key. unfold at_key. destruct (counts !! key) as [x|] eqn:E; [|done]. cbn.
    destruct (decide (x ≡F 0)) as [|Hn]; [done|]. exfalso. apply H. exists (key, x). split.
    + by apply list_elem_of_In, elem_of_map_to_list.
    + by rewrite bool_decide_eq_false_2.
  - intros H ([key x] & Hin%list_elem_of_In%elem_of_map_to_list & Hx). specialize (H key). unfold at_key in H. rewrite Hin in H.
    cbn in H. by rewrite bool_decide_eq_true_2 in Hx.
Qed.

Lemma fold_zero (f : list (list Call) -> Z) chips : (forall rows, f rows = 0) -> fold_right (fun rows acc => f rows + acc) 0 chips = 0.
Proof. intros H. induction chips as [|rows chips IH]; cbn; [done|]. by rewrite H, IH. Qed.

(** The check passes exactly when every kind it looks at is balanced. *)
Lemma debug_interactions_balanced nb_shards chips kinds s : (s = Local -> nb_shards = 1%nat) ->
  debug_interactions_with_all_chips nb_shards chips kinds s = Some true <->
  forall k, k ∈ kinds -> balanced s k (concat (concat chips)).
Proof.
  intros Hs. unfold debug_interactions_with_all_chips.
  assert (bool_decide (s = Local) && negb (nb_shards =? 1)%nat = false) as ->.
  { case_bool_decide as E; [|done]. rewrite (Hs E). done. }
  rewrite (inj_iff Some), no_nonzero. setoid_rewrite at_final.
  assert (forall k v, k ∈ kinds -> fold_right (fun rows acc => at_key (s, k, map Fred v) (debug_interactions rows kinds s) + acc) 0 chips
    ≡F net s k v (concat (concat chips))) as Hnet.
  { intros k v Hk. induction chips as [|rows chips IH]; cbn [fold_right concat]; [done|].
    rewrite concat_app, net_app, IH. rewrite at_debug_interactions by done. done. }
  split.
  - intros H k Hk v. apply eqF_sub_0. rewrite <- (Hnet k v Hk). apply H.
  - intros H [[s' k] w]. destruct (decide (s' = s /\ k ∈ kinds)) as [[-> Hk]|Hn].
    + destruct (decide (map Fred w = w)) as [<-|Hw]; [rewrite Hnet by done; by apply eqF_sub_0, H|].
      rewrite fold_zero; [done|]. intros rows. apply at_uncounted. by right.
    + rewrite fold_zero; [done|]. intros rows. apply at_uncounted. left. cbn.
      destruct (decide (s' = s)); [right|left]; tauto.
Qed.

(** ** Messages find a partner *)

Definition boolean (x : Z) : Prop := x ≡F 0 \/ x ≡F 1.

Lemma boolean_sum v ms : Forall (fun m => boolean (multiplicity m)) ms ->
  exists n, mult_sum v ms ≡F Z.of_nat n /\ (n <= length ms)%nat /\
    ((exists m, m ∈ ms /\ same_values (values m) v /\ ~ multiplicity m ≡F 0) -> (0 < n)%nat).
Proof.
  induction 1 as [|m ms Hm _ (n & E & Hn & Hpos)]; cbn [mult_sum length].
  - exists 0%nat. split_and!; [done|done|]. intros (m & Hm & _). by apply not_elem_of_nil in Hm.
  - assert ((exists m', m' ∈ m :: ms /\ same_values (values m') v /\ ~ multiplicity m' ≡F 0) ->
      same_values (values m) v /\ ~ multiplicity m ≡F 0 \/ (0 < n)%nat) as Hcase.
    { intros (m' & [->|Hin]%elem_of_cons & H1 & H2); [by left|right; eauto]. }
    case_decide as Hs; [destruct Hm as [Hm|Hm]|].
    + exists n. split_and!; [by rewrite Hm, E|lia|]. intros H. by destruct (Hcase H) as [[_ []]|].
    + exists (S n). split_and!; [rewrite Hm, E; apply eqF_diff; exists 0; lia|lia|lia].
    + exists n. split_and!; [by rewrite E|lia|]. intros H. by destruct (Hcase H) as [[]|].
Qed.

Lemma nonzero_sum v ms : ~ mult_sum v ms ≡F 0 ->
  exists m, m ∈ ms /\ same_values (values m) v /\ ~ multiplicity m ≡F 0.
Proof.
  induction ms as [|m ms IH]; cbn [mult_sum]; [by intros []|]. intros H.
  destruct (decide (same_values (values m) v)) as [Hs|Hs]; [destruct (decide (multiplicity m ≡F 0)) as [Hz|Hz]|].
  - destruct IH as (m' & ? & ?); [by rewrite Hz, Z.add_0_l in H|]. exists m'. split; [by right|done].
  - exists m. split; [by left|done].
  - destruct IH as (m' & ? & ?); [done|]. exists m'. split; [by right|done].
Qed.

(** With boolean multiplicities on one side, fewer than the order of the field,
    a live message has a live partner on the other side. *)
Lemma partner v ms ms' m : mult_sum v ms ≡F mult_sum v ms' ->
  Forall (fun m => boolean (multiplicity m)) ms -> Z.of_nat (length ms) < BABYBEAR ->
  m ∈ ms -> same_values (values m) v -> ~ multiplicity m ≡F 0 ->
  exists m', m' ∈ ms' /\ same_values (values m') v /\ ~ multiplicity m' ≡F 0.
Proof.
  intros E Hb Hl Hm Hv Hz. apply nonzero_sum. rewrite <- E. destruct (boolean_sum v ms Hb) as (n & En & Hn & Hpos).
  rewrite En. intros H0. apply eqF_small in H0; [|unfold BABYBEAR in *; lia].
  assert (0 < n)%nat by (apply Hpos; eauto). lia.
Qed.

(** ** Local rows *)

Definition local_call (c : Call) : bool :=
  match c with Send _ s | Receive _ s => bool_decide (s = Local) | _ => true end.

Lemma local_sends k calls : forallb local_call calls = true ->
  filter (fun m => kind m = k) (sends_in Local calls) = sends k calls.
Proof.
  unfold sends_in, sends. induction calls as [|c calls IH]; cbn [forallb omap list_omap]; [done|].
  rewrite andb_true_iff. intros [Hc Hcs]. destruct c; try exact (IH Hcs).
  apply bool_decide_eq_true in Hc as ->. rewrite decide_True by done. rewrite filter_cons, IH by done.
  by case_decide.
Qed.

Lemma local_receives k calls : forallb local_call calls = true ->
  filter (fun m => kind m = k) (receives_in Local calls) = receives k calls.
Proof.
  unfold receives_in, receives. induction calls as [|c calls IH]; cbn [forallb omap list_omap]; [done|].
  rewrite andb_true_iff. intros [Hc Hcs]. destruct c; try exact (IH Hcs).
  apply bool_decide_eq_true in Hc as ->. rewrite decide_True by done. rewrite filter_cons, IH by done.
  by case_decide.
Qed.

(** The messages of the shard, by kind. *)
Definition sent (k : InteractionKind) (calls : list Call) : list AirInteraction :=
  filter (fun m => kind m = k) (sends_in Local calls).
Definition received (k : InteractionKind) (calls : list Call) : list AirInteraction :=
  filter (fun m => kind m = k) (receives_in Local calls).

Lemma sent_app k l1 l2 : sent k (l1 ++ l2) = sent k l1 ++ sent k l2.
Proof. unfold sent, sends_in. by rewrite omap_app, filter_app. Qed.
Lemma received_app k l1 l2 : received k (l1 ++ l2) = received k l1 ++ received k l2.
Proof. unfold received, receives_in. by rewrite omap_app, filter_app. Qed.

Lemma sent_concat k m rows : m ∈ sent k (concat rows) <-> exists r, r ∈ rows /\ m ∈ sent k r.
Proof.
  unfold sent, sends_in. induction rows as [|r rows IH]; cbn [concat].
  - cbn. split; [by intros ?%not_elem_of_nil|]. intros (r & Hr & _). by apply not_elem_of_nil in Hr.
  - rewrite omap_app, filter_app, elem_of_app, IH. setoid_rewrite elem_of_cons. naive_solver.
Qed.

Lemma received_concat k m rows : m ∈ received k (concat rows) <-> exists r, r ∈ rows /\ m ∈ received k r.
Proof.
  unfold received, receives_in. induction rows as [|r rows IH]; cbn [concat].
  - cbn. split; [by intros ?%not_elem_of_nil|]. intros (r & Hr & _). by apply not_elem_of_nil in Hr.
  - rewrite omap_app, filter_app, elem_of_app, IH. setoid_rewrite elem_of_cons. naive_solver.
Qed.

(** The check of the interactions of all chips that the prover runs in
    debug mode fails its assertion on local lookups of several shards, and
    otherwise answers yes exactly when, for every kind it looks at, every
    message is sent as often as it is received, counted in the field. *)
Theorem debug_check_decides_balance nb_shards chips kinds s :
  (debug_interactions_with_all_chips nb_shards chips kinds s = None <-> s = Local /\ nb_shards <> 1%nat) /\
  ((s = Local -> nb_shards = 1%nat) ->
    debug_interactions_with_all_chips nb_shards chips kinds s = Some true <->
    forall k, k ∈ kinds -> balanced s k (concat (concat chips))).
Proof.
  split; [|apply debug_interactions_balanced]. unfold debug_interactions_with_all_chips.
  case_bool_decide as E; cbn [andb].
  - destruct (Nat.eqb_spec nb_shards 1); cbn [negb]; split; try done. by intros [_ []].
  - split; [done|]. by intros [].
Qed.

Lemma debug_check_decides_balance_witness :
  let m := mkAirInteraction [1; 2] 1 KByte in
  balanced Local KByte [Send m Local; Receive m Local] /\ ~ balanced Local KByte [Send m Local].
Proof.
  intros m. split.
  - apply (proj2 (debug_check_decides_balance 1 [[[Send m Local]]; [[Receive m Local]]] [KByte] Local) ltac:(done)); [vm_compute; done|by left].
  - intros H. assert (debug_interactions_with_all_chips 1 [[[Send m Local]]] [KByte] Local = Some true) as E; [|vm_compute in E; discriminate E].
    apply (proj2 (debug_check_decides_balance 1 [[[Send m Local]]] [KByte] Local) ltac:(done)).
    intros k [->|Hk]%elem_of_cons; [exact H|by apply not_elem_of_nil in Hk].
Defined.
