(* ===== verification/AluMachine.v ===== *)
(** * The ALU chips as a machine

    The rows of the seven ALU chips, the byte table and the rows of the other
    chips form a shard.  From the constraints of the rows and the balance of
    the byte and instruction lookups alone, every instruction message sent in
    the shard for an ALU opcode carries the result the executor computes. *)

From Stdlib Require Import ZArith Lia Bool.
From stdpp Require Import base list.
From S2P Require Import Prelude Isa Events ByteLookup Record Alu Dependencies State AirBuilder ByteTable Operations ChipSpec AddSubChip BitwiseChip.
From S2P Require Import LtChip ShiftLeftChip ShiftRightChip MulChip DivRemChip Lookup.

Local Open Scope Z_scope.
Local Open Scope rv_scope.

(** ** Rows *)

Inductive AluRow : Type :=
| AddSubRow (r : AddSubChip.AddSubCols)
| BitwiseRow (r : BitwiseChip.BitwiseCols)
| LtRow (r : LtChip.LtCols)
| ShiftLeftRow (r : ShiftLeft.ShiftLeftCols)
| ShiftRightRow (r : ShiftRightChip.ShiftRightCols)
| MulRow (r : MulChip.MulCols)
| DivRemRow (r : DivRemChip.DivRemCols).

Definition row_calls (row : AluRow) : list Call :=
  match row with
  | AddSubRow r => AddSubChip.eval r
  | BitwiseRow r => BitwiseChip.eval r
  | LtRow r => LtChip.eval r
  | ShiftLeftRow r => ShiftLeft.eval r
  | ShiftRightRow r => ShiftRightChip.eval r
  | MulRow r => MulChip.eval r
  | DivRemRow r => DivRemChip.eval r
  end.

Definition row_wf (row : AluRow) : Prop :=
  match row with
  | AddSubRow r => AddSubChip.wf r
  | BitwiseRow r => BitwiseChip.wf r
  | LtRow r => LtChip.wf r
  | ShiftLeftRow r => ShiftLeft.wf r
  | ShiftRightRow r => ShiftRightChip.wf r
  | MulRow r => MulChip.wf r
  | DivRemRow r => DivRemChip.wf r
  end.

Definition row_opcodes (row : AluRow) : list Opcode :=
  match row with
  | AddSubRow _ => [ADD; SUB]
  | BitwiseRow _ => [XOR; OR; AND]
  | LtRow _ => [SLT; SLTU]
  | ShiftLeftRow _ => [SLL]
  | ShiftRightRow _ => [SRL; SRA]
  | MulRow _ => [MUL; MULH; MULHU; MULHSU]
  | DivRemRow _ => [DIV; DIVU; REM; REMU]
  end.

(** What the lookup argument needs of a row. *)
Record row_shape (calls : list Call) : Prop := {
  shape_local : forallb local_call calls = true;
  shape_no_table : receives KByte calls = [];
  shape_receives : Forall (fun m => boolean (multiplicity m)) (receives KInstruction calls);
  shape_sends : Forall (fun m => boolean (multiplicity m) /\ msg_op_a_0 (values m) = 0) (sends KInstruction calls);
  shape_bytes : (forall m, m ∈ receives KInstruction calls -> ~ multiplicity m ≡F 0 -> boolean (msg_op_a_0 (values m))) ->
    Forall (fun m => boolean (multiplicity m)) (sends KByte calls)
}.

Lemma forallb_map_local {A} (f : A -> Call) l : (forall x, local_call (f x) = true) -> forallb local_call (map f l) = true.
Proof. intros H. apply forallb_forall. intros y (x & <- & _)%in_map_iff. apply H. Qed.

Lemma local_range l m : forallb local_call (slice_range_check_u8 l m) = true.
Proof. induction l as [|a|a b l IH] using list_pair_ind; [done..|]. exact IH. Qed.

Lemma local_range16 l m : forallb local_call (slice_range_check_u16 l m) = true.
Proof. induction l as [|a l IH]; [done|]. exact IH. Qed.

Lemma sends_range16 k l m : k <> KByte -> sends k (slice_range_check_u16 l m) = [].
Proof. intros Hk. induction l as [|a l IH]; [done|]. cbn. destruct k; done || exact IH. Qed.

(** The byte messages of a row all have the same multiplicity. *)
Definition at_mult (x : Z) (ms : list AirInteraction) : Prop := Forall (fun m => multiplicity m = x) ms.

Lemma at_mult_range l x : at_mult x (sends KByte (slice_range_check_u8 l x)).
Proof. induction l as [|a|a b l IH] using list_pair_ind; unfold at_mult in *; cbn; [constructor|by repeat constructor|by constructor]. Qed.

Lemma at_mult_range16 l x : at_mult x (sends KByte (slice_range_check_u16 l x)).
Proof. induction l as [|a l IH]; unfold at_mult in *; cbn; [constructor|by constructor]. Qed.

Lemma at_mult_boolean x ms : at_mult x ms -> boolean x -> Forall (fun m => boolean (multiplicity m)) ms.
Proof. intros H Hx. eapply Forall_impl; [exact H|]. by intros m ->. Qed.

Ltac local_row := rewrite ?forallb_app, ?local_range, ?local_range16, ?forallb_map_local by done; reflexivity.
Ltac silent_kind := rewrite ?sends_app, ?receives_app, ?sends_range, ?receives_range, ?sends_range16, ?receives_range16 by done;
  rewrite ?(sends_map AssertBool), ?(receives_map AssertBool) by done; reflexivity.
Ltac same_mult := rewrite ?sends_app; unfold at_mult; rewrite ?Forall_app; split_and!;
  try (rewrite (sends_map AssertBool) by done); try apply at_mult_range; try apply at_mult_range16; try (cbn; by repeat constructor).

Lemma add_sub_shape r : all_hold (AddSubChip.eval r) -> row_shape (AddSubChip.eval r).
Proof.
  intros Hh. unfold AddSubChip.eval in Hh. cbn zeta in Hh. rewrite !all_hold_app in Hh.
  destruct Hh as ((B1 & B2 & _) & Hadd & _). cbn [holds] in B1, B2. constructor.
  - unfold AddSubChip.eval. local_row.
  - reflexivity.
  - constructor; [exact B1|constructor; [exact B2|constructor]].
  - constructor.
  - intros _. apply (at_mult_boolean (AddSubChip.op_a_not_0 r)).
    + unfold AddSubChip.eval, AddOperation.eval. same_mult.
    + unfold AddOperation.eval in Hadd. rewrite all_hold_app in Hadd. destruct Hadd as [Hadd _]. rewrite all_hold_when in Hadd.
      destruct (decide (AddSubChip.op_a_not_0 r ≡F 0)) as [|Hn]; [by left|].
      specialize (Hadd Hn). cbn [all_hold holds] in Hadd. by destruct Hadd as (_ & _ & _ & _ & _ & _ & _ & _ & _ & _ & _ & _ & _ & B & _).
Qed.

(** Nothing in the Bitwise chip makes [op_a_not_0] boolean: its byte lookups
    are counted once because the message it receives is one that was sent. *)
Lemma bitwise_shape r : all_hold (BitwiseChip.eval r) -> row_shape (BitwiseChip.eval r).
Proof.
  intros Hh. unfold BitwiseChip.eval in Hh. cbn zeta in Hh. rewrite !all_hold_app in Hh.
  destruct Hh as (_ & Hn & _ & (_ & _ & _ & B & _)). cbn [holds] in B. rewrite all_hold_when in Hn. constructor.
  - reflexivity.
  - reflexivity.
  - constructor; [exact B|constructor].
  - constructor.
  - intros Hx. apply (at_mult_boolean (BitwiseChip.op_a_not_0 r)); [cbn; by repeat constructor|].
    destruct (decide (BitwiseChip.op_a_not_0 r ≡F 0)) as [|Hz]; [by left|]. destruct (Hn Hz) as [E _]. cbn [holds] in E.
    assert (boolean (Fred (1 - BitwiseChip.op_a_not_0 r))) as [H|H].
    { refine (Hx _ (list_elem_of_here _ _) _). cbn [multiplicity]. by rewrite E. }
    + right. rewrite Fred_eqF, eqF_sub_0 in H. symmetry. exact H.
    + left. rewrite Fred_eqF in H. apply eqF_diff in H as [k H]. apply eqF_diff. exists (- k). lia.
Qed.

Lemma sll_shape r : all_hold (ShiftLeft.eval r) -> row_shape (ShiftLeft.eval r).
Proof.
  intros Hh. unfold ShiftLeft.eval in Hh. cbn zeta in Hh. rewrite !all_hold_app in Hh.
  destruct Hh as (_ & _ & _ & _ & _ & _ & _ & _ & _ & _ & _ & _ & _ & [B _] & _). cbn [holds] in B.
  assert (receives KInstruction (ShiftLeft.eval r) = [mkAirInteraction
    (instruction_values 0 0 (ShiftLeft.pc r) (ShiftLeft.pc r + DEFAULT_PC_INC) 0 (opcode_u32 SLL) (ShiftLeft.a r) (ShiftLeft.b r)
      (ShiftLeft.c r) (1 - ShiftLeft.op_a_not_0 r) 0 0 0 0) (ShiftLeft.is_real r) KInstruction]) as Hr
    by (unfold ShiftLeft.eval; silent_kind).
  constructor.
  - unfold ShiftLeft.eval. local_row.
  - unfold ShiftLeft.eval. silent_kind.
  - rewrite Hr. constructor; [exact B|constructor].
  - assert (sends KInstruction (ShiftLeft.eval r) = []) as -> by (unfold ShiftLeft.eval; silent_kind). constructor.
  - intros _. apply (at_mult_boolean (ShiftLeft.is_real r)); [|done]. unfold ShiftLeft.eval. same_mult.
Qed.

Lemma lt_shape r : all_hold (LtChip.eval r) -> row_shape (LtChip.eval r).
Proof.
  intros Hh. assert (boolean (LtChip.is_slt r + LtChip.is_sltu r)) as B.
  { unfold LtChip.eval in Hh. destruct (fold_left _ _ _) as [[[? ?] ?] loop]. destruct (LtChip.comparison_bytes r). rewrite !all_hold_app in Hh.
    destruct_and! Hh. match goal with H : all_hold [AssertBool (LtChip.is_slt r); _; _] |- _ => destruct H as (_ & _ & B & _) end. exact B. }
  assert (forall s, receives s (LtChip.eval r) = if decide (s = KInstruction) then [mkAirInteraction
    (instruction_values 0 0 (LtChip.pc r) (LtChip.pc r + DEFAULT_PC_INC) 0
      (LtChip.is_slt r * opcode_u32 SLT + LtChip.is_sltu r * opcode_u32 SLTU) (extend_var (LtChip.a r)) (LtChip.b r)
      (LtChip.c r) (1 - LtChip.op_a_not_0 r) 0 0 0 0) (LtChip.is_slt r + LtChip.is_sltu r) KInstruction] else []) as Hr.
  { intros s. unfold LtChip.eval. destruct (LtChip.comparison_bytes r). by destruct s. }
  constructor.
  - unfold LtChip.eval. destruct (LtChip.comparison_bytes r). reflexivity.
  - by rewrite Hr.
  - rewrite Hr. constructor; [exact B|constructor].
  - assert (sends KInstruction (LtChip.eval r) = []) as ->; [|constructor].
    unfold LtChip.eval. destruct (LtChip.comparison_bytes r). reflexivity.
  - intros _. apply (at_mult_boolean (LtChip.is_slt r + LtChip.is_sltu r)); [|done].
    unfold LtChip.eval. destruct (LtChip.comparison_bytes r). cbn. by repeat constructor.
Qed.

Lemma sr_shape r : all_hold (ShiftRightChip.eval r) -> row_shape (ShiftRightChip.eval r).
Proof.
  intros Hh. unfold ShiftRightChip.eval in Hh. cbn zeta in Hh. rewrite !all_hold_app in Hh. destruct_and! Hh.
  assert (boolean (ShiftRightChip.is_real r)) as B
    by (match goal with H : all_hold [AssertBool (ShiftRightChip.is_srl r); _; _; _] |- _ => destruct H as (_ & _ & B & _) end; exact B).
  constructor.
  - unfold ShiftRightChip.eval. cbn [flat_map]. local_row.
  - unfold ShiftRightChip.eval. cbn [flat_map]. silent_kind.
  - assert (receives KInstruction (ShiftRightChip.eval r) = [mkAirInteraction
      (instruction_values 0 0 (ShiftRightChip.pc r) (ShiftRightChip.pc r + DEFAULT_PC_INC) 0
        (ShiftRightChip.is_srl r * opcode_u32 SRL + ShiftRightChip.is_sra r * opcode_u32 SRA) (ShiftRightChip.a r) (ShiftRightChip.b r)
        (ShiftRightChip.c r) (1 - ShiftRightChip.op_a_not_0 r) 0 0 0 0) (ShiftRightChip.is_real r) KInstruction]) as ->
      by (unfold ShiftRightChip.eval; cbn [flat_map]; silent_kind).
    constructor; [exact B|constructor].
  - assert (sends KInstruction (ShiftRightChip.eval r) = []) as -> by (unfold ShiftRightChip.eval; cbn [flat_map]; silent_kind). constructor.
  - intros _. apply (at_mult_boolean (ShiftRightChip.is_real r)); [|done]. unfold ShiftRightChip.eval. cbn [flat_map]. same_mult.
Qed.

Lemma mul_shape r : all_hold (MulChip.eval r) -> row_shape (MulChip.eval r).
Proof.
  intros Hh. assert (boolean (MulChip.is_real r)) as B.
  { unfold MulChip.eval in Hh. cbn zeta in Hh. rewrite !all_hold_app in Hh. destruct Hh as (_ & _ & _ & _ & _ & K & _).
    cbn [map all_hold holds] in K. by destruct K as (_ & _ & _ & _ & _ & _ & _ & _ & B & _). }
  constructor.
  - unfold MulChip.eval. local_row.
  - unfold MulChip.eval. silent_kind.
  - assert (receives KInstruction (MulChip.eval r) = [mkAirInteraction
      (instruction_values 0 0 (MulChip.pc r) (MulChip.pc r + DEFAULT_PC_INC) 0
        (MulChip.is_mul r * opcode_u32 MUL + MulChip.is_mulh r * opcode_u32 MULH + MulChip.is_mulhu r * opcode_u32 MULHU
          + MulChip.is_mulhsu r * opcode_u32 MULHSU) (MulChip.a r) (MulChip.b r)
        (MulChip.c r) (1 - MulChip.op_a_not_0 r) 0 0 0 0) (MulChip.is_real r) KInstruction]) as ->
      by (unfold MulChip.eval; silent_kind).
    constructor; [exact B|constructor].
  - assert (sends KInstruction (MulChip.eval r) = []) as -> by (unfold MulChip.eval; silent_kind). constructor.
  - intros _. apply (at_mult_boolean (MulChip.is_real r)); [|done]. unfold MulChip.eval. same_mult.
Qed.

Lemma boolean_mul x y : boolean x -> boolean y -> boolean (x * y).
Proof. unfold boolean. intros [E|E] [F|F]; rewrite E, F; [by left..|by right]. Qed.

Lemma divrem_shape r : all_hold (DivRemChip.eval r) -> row_shape (DivRemChip.eval r).
Proof.
  intros Hh. pose proof Hh as Hh'. unfold DivRemChip.eval in Hh'. cbn zeta in Hh'. rewrite !all_hold_app in Hh'.
  destruct Hh' as (_ & _ & _ & _ & _ & _ & _ & _ & _ & _ & H10 & _ & _ & _ & _ & _ & H16 & _ & _ & _ & _ & _ & _ & _ & _ & H25 & _).
  cbn [map all_hold holds] in H16, H25. destruct H16 as (E1 & _).
  destruct H25 as (_ & _ & _ & _ & _ & _ & _ & _ & _ & _ & _ & B & Bc & Bm & _).
  assert (boolean (DivRemChip.remainder_check_multiplicity r)) as Br.
  { destruct (decide (DivRemChip.is_real r ≡F 0)) as [Hz|Hz].
    - left. by rewrite <- E1, Hz, Z.mul_0_r.
    - unfold Operations.IsZeroWordOperation.eval in H10. rewrite !all_hold_app, all_hold_when in H10. destruct H10 as (_ & _ & H10).
      specialize (H10 Hz) as (_ & _ & R & _). cbn [holds] in R.
      assert (boolean (1 - Operations.IsZeroWordOperation.result (DivRemChip.is_c_0 r))) as R' by (destruct R as [R|R]; [right|left]; by rewrite R).
      destruct (boolean_mul _ _ R' B) as [H|H]; rewrite E1 in H; [by left|by right]. }
  constructor.
  - unfold DivRemChip.eval. local_row.
  - unfold DivRemChip.eval. silent_kind.
  - rewrite divrem_receives. constructor; [exact B|constructor].
  - rewrite divrem_sends. unfold sent_instructions. rewrite !Forall_cons. cbn [multiplicity values]. split_and!; done || constructor.
  - intros _. apply (at_mult_boolean (DivRemChip.is_real r)); [|exact B]. unfold DivRemChip.eval. same_mult.
Qed.

Lemma alu_row_shape row : all_hold (row_calls row) -> row_shape (row_calls row).
Proof.
  destruct row; cbn [row_calls];
    [apply add_sub_shape|apply bitwise_shape|apply lt_shape|apply sll_shape|apply sr_shape|apply mul_shape|apply divrem_shape].
Qed.

(** ** Shards *)

(** The rows of the ALU chips, the multiplicities of the byte table and the
    calls of the rows of the other chips. *)
Record AluShard : Type := mkAluShard {
  alu_rows : list AluRow;
  byte_mults : list (list Z);
  other_rows : list (list Call)
}.

Definition byte_rows (s : AluShard) : list (list Call) := zip_with ByteChip.eval ByteChip.trace (byte_mults s).

Definition shard_rows (s : AluShard) : list (list Call) := map row_calls (alu_rows s) ++ byte_rows s ++ other_rows s.

Definition alu_opcodes : list Opcode :=
  [ADD; SUB; XOR; OR; AND; SLT; SLTU; SLL; SRL; SRA; MUL; MULH; MULHU; MULHSU; DIV; DIVU; REM; REMU].

(** The messages a row receives say truthfully whether the destination is [x0]. *)
Definition flags_received (calls : list Call) : Prop :=
  forall m, m ∈ received KInstruction calls -> ~ multiplicity m ≡F 0 -> boolean (msg_op_a_0 (values m)).

(** The byte lookups of a row are rows of the table. *)
Definition bytes_looked_up (calls : list Call) : Prop :=
  forall m, m ∈ sent KByte calls -> ~ multiplicity m ≡F 0 -> in_byte_table (values m).

(** The other chips say whether the destination is [x0] and, if the messages
    they receive do, send each lookup at most once per row; they neither answer
    ALU instructions nor byte lookups. *)
Record other_row_ok (calls : list Call) : Prop := {
  other_flags : Forall (fun m => ~ multiplicity m ≡F 0 -> boolean (msg_op_a_0 (values m))) (sent KInstruction calls);
  other_sends : flags_received calls -> bytes_looked_up calls -> Forall (fun m => boolean (multiplicity m)) (sent KInstruction calls);
  other_receives : Forall (fun m => boolean (multiplicity m) /\
    (~ multiplicity m ≡F 0 -> bytes_looked_up calls -> ~ answers alu_opcodes (values m))) (received KInstruction calls);
  other_bytes : flags_received calls -> Forall (fun m => boolean (multiplicity m)) (sent KByte calls);
  other_no_table : received KByte calls = []
}.

Record accepted (s : AluShard) : Prop := {
  acc_wf : Forall row_wf (alu_rows s);
  acc_hold : Forall (fun row => all_hold (row_calls row)) (alu_rows s);
  acc_other : Forall other_row_ok (other_rows s);
  acc_bytes : balanced Local KByte (concat (shard_rows s));
  acc_instructions : balanced Local KInstruction (concat (shard_rows s));
  acc_few : Z.of_nat (length (sent KByte (concat (shard_rows s)))) < BABYBEAR /\
    Z.of_nat (length (sent KInstruction (concat (shard_rows s)))) < BABYBEAR /\
    Z.of_nat (length (received KInstruction (concat (shard_rows s)))) < BABYBEAR
}.

(** ** Soundness *)

Lemma same_values_msg v v' i : same_values v v' -> msg i v = msg i v'.
Proof.
  intros H. unfold msg. rewrite <- !(map_nth Fred). unfold same_values in H. rewrite H.
  reflexivity.
Qed.

Lemma decide_divrem row : (exists r, row = DivRemRow r) \/ (forall r, row <> DivRemRow r).
Proof. destruct row; try (by right); left; eauto. Qed.

(** Only the DivRem chip sends instructions. *)
Lemma quiet_row row : (forall r, row <> DivRemRow r) -> sends KInstruction (row_calls row) = [].
Proof.
  intros Hnd. destruct row; [| | | | | |by destruct (Hnd r)]; cbn [row_calls].
  - reflexivity.
  - reflexivity.
  - unfold LtChip.eval. destruct (LtChip.comparison_bytes r). reflexivity.
  - unfold ShiftLeft.eval. silent_kind.
  - unfold ShiftRightChip.eval. cbn [flat_map]. silent_kind.
  - unfold MulChip.eval. silent_kind.
Qed.

Lemma quiet_row_answered row : (forall r, row <> DivRemRow r) -> sends_answered (row_calls row).
Proof. intros Hnd m Hm. rewrite quiet_row in Hm by done. by apply not_elem_of_nil in Hm. Qed.

Section Machine.
  Context (s : AluShard) (Hacc : accepted s).
  Abbreviation calls := (concat (shard_rows s)).

Lemma byte_row_calls row : row ∈ byte_rows s -> sent KByte row = [] /\ sent KInstruction row = [] /\ received KInstruction row = [] /\
  forall m, m ∈ received KByte row -> in_byte_table (values m).
Proof.
  unfold byte_rows. intros (c & mults & -> & Hc & _)%elem_of_zip_with. unfold ByteChip.eval.
  assert (forall o x, ByteChip.receive_row (ByteChip.received c o) x =
    [Receive (mkAirInteraction (ByteChip.received c o) x KByte) Local]) as Hrow by (by intros []).
  generalize (zip ByteOpcode.all mults). intros l. induction l as [|[o x] l IH].
  { split_and!; try done. by intros m ?%not_elem_of_nil. }
  cbn [flat_map]. rewrite Hrow. destruct IH as (S1 & S2 & S3 & S4). split_and!; try done.
  intros m [->|Hm]%elem_of_cons; [|by apply S4]. exists c, o. by split.
Qed.

(** Where a message of the shard comes from. *)
Lemma sent_cases k m : m ∈ sent k calls ->
  (exists row, row ∈ alu_rows s /\ m ∈ sends k (row_calls row)) \/ (exists row, row ∈ byte_rows s /\ m ∈ sent k row) \/
  (exists row, row ∈ other_rows s /\ m ∈ sent k row).
Proof using Hacc.
  intros (row & Hrow & Hm)%sent_concat. unfold shard_rows in Hrow. rewrite !elem_of_app in Hrow.
  destruct Hrow as [Hrow|[Hrow|Hrow]]; [left|right; left; eauto|right; right; eauto].
  apply list_elem_of_In, in_map_iff in Hrow as (r & <- & Hr%list_elem_of_In). exists r. split; [done|].
  pose proof (acc_hold s Hacc) as Hh. rewrite Forall_forall in Hh. specialize (Hh r Hr).
  unfold sent in Hm. by rewrite local_sends in Hm by (by apply shape_local, alu_row_shape).
Qed.

Lemma received_cases k m : m ∈ received k calls ->
  (exists row, row ∈ alu_rows s /\ m ∈ receives k (row_calls row)) \/ (exists row, row ∈ byte_rows s /\ m ∈ received k row) \/
  (exists row, row ∈ other_rows s /\ m ∈ received k row).
Proof using Hacc.
  intros (row & Hrow & Hm)%received_concat. unfold shard_rows in Hrow. rewrite !elem_of_app in Hrow.
  destruct Hrow as [Hrow|[Hrow|Hrow]]; [left|right; left; eauto|right; right; eauto].
  apply list_elem_of_In, in_map_iff in Hrow as (r & <- & Hr%list_elem_of_In). exists r. split; [done|].
  pose proof (acc_hold s Hacc) as Hh. rewrite Forall_forall in Hh. specialize (Hh r Hr).
  unfold received in Hm. by rewrite local_receives in Hm by (by apply shape_local, alu_row_shape).
Qed.

Lemma alu_messages k row m : row ∈ alu_rows s ->
  (m ∈ sends k (row_calls row) -> m ∈ sent k calls) /\ (m ∈ receives k (row_calls row) -> m ∈ received k calls).
Proof using Hacc.
  intros Hr. pose proof (acc_hold s Hacc) as Hh. rewrite Forall_forall in Hh. specialize (Hh row Hr).
  assert (row_calls row ∈ shard_rows s) as Hin.
  { unfold shard_rows. rewrite !elem_of_app. left. by apply list_elem_of_In, in_map, list_elem_of_In. }
  pose proof (shape_local _ (alu_row_shape _ Hh)) as Hl.
  split; intros Hm; [apply sent_concat|apply received_concat]; exists (row_calls row); (split; [done|]);
    unfold sent, received; [by rewrite local_sends|by rewrite local_receives].
Qed.

Lemma instruction_sends_flags : Forall (fun m => ~ multiplicity m ≡F 0 -> boolean (msg_op_a_0 (values m))) (sent KInstruction calls).
Proof using Hacc.
  apply Forall_forall. intros m [(row & Hr & Hm)|[(row & Hr & Hm)|(row & Hr & Hm)]]%sent_cases.
  - pose proof (acc_hold s Hacc) as Hh. rewrite Forall_forall in Hh. specialize (Hh row Hr).
    pose proof (shape_sends _ (alu_row_shape _ Hh)) as Hs. rewrite Forall_forall in Hs. destruct (Hs m Hm) as [? ->]. by left.
  - destruct (byte_row_calls row Hr) as (_ & E & _). rewrite E in Hm. by apply not_elem_of_nil in Hm.
  - pose proof (acc_other s Hacc) as Ho. rewrite Forall_forall in Ho. pose proof (other_flags _ (Ho row Hr)) as Hs.
    rewrite Forall_forall in Hs. by apply Hs.
Qed.

Lemma instruction_receives_boolean : Forall (fun m => boolean (multiplicity m)) (received KInstruction calls).
Proof using Hacc.
  apply Forall_forall. intros m [(row & Hr & Hm)|[(row & Hr & Hm)|(row & Hr & Hm)]]%received_cases.
  - pose proof (acc_hold s Hacc) as Hh. rewrite Forall_forall in Hh. specialize (Hh row Hr).
    pose proof (shape_receives _ (alu_row_shape _ Hh)) as Hs. rewrite Forall_forall in Hs. by apply Hs.
  - destruct (byte_row_calls row Hr) as (_ & _ & E & _). rewrite E in Hm. by apply not_elem_of_nil in Hm.
  - pose proof (acc_other s Hacc) as Ho. rewrite Forall_forall in Ho. pose proof (other_receives _ (Ho row Hr)) as Hs.
    rewrite Forall_forall in Hs. by apply Hs.
Qed.

(** A received instruction was sent, so its [x0] flag is boolean. *)
Lemma received_flag m : m ∈ received KInstruction calls -> ~ multiplicity m ≡F 0 -> boolean (msg_op_a_0 (values m)).
Proof using Hacc.
  intros Hm Hz. pose proof (acc_instructions s Hacc (values m)) as HB. destruct (acc_few s Hacc) as (_ & _ & Hf).
  symmetry in HB. destruct (partner _ _ _ m HB instruction_receives_boolean Hf Hm eq_refl Hz) as (m' & Hin & Hv & Hz').
  pose proof instruction_sends_flags as Hs. rewrite Forall_forall in Hs. pose proof (Hs m' Hin Hz') as Hb.
  unfold msg_op_a_0 in *. by rewrite <- (same_values_msg _ _ 18 Hv).
Qed.

Lemma other_flags_received row : row ∈ other_rows s -> flags_received row.
Proof using Hacc.
  intros Hr m Hm Hz. apply received_flag; [|done]. apply received_concat. exists row. split; [|done].
  unfold shard_rows. rewrite !elem_of_app. by right; right.
Qed.

Lemma byte_sends_boolean : Forall (fun m => boolean (multiplicity m)) (sent KByte calls).
Proof using Hacc.
  apply Forall_forall. intros m [(row & Hr & Hm)|[(row & Hr & Hm)|(row & Hr & Hm)]]%sent_cases.
  - pose proof (acc_hold s Hacc) as Hh. rewrite Forall_forall in Hh. specialize (Hh row Hr).
    pose proof (shape_bytes _ (alu_row_shape _ Hh)) as Hs. rewrite Forall_forall in Hs. apply Hs; [|done].
    intros m' Hm' Hz. apply received_flag; [|done]. by apply (alu_messages KInstruction row m' Hr).
  - destruct (byte_row_calls row Hr) as (E & _). rewrite E in Hm. by apply not_elem_of_nil in Hm.
  - pose proof (acc_other s Hacc) as Ho. rewrite Forall_forall in Ho. pose proof (other_bytes _ (Ho row Hr) (other_flags_received row Hr)) as Hs.
    rewrite Forall_forall in Hs. by apply Hs.
Qed.

(** Every byte lookup is a row of the table. *)
Lemma bytes_in_table m : m ∈ sent KByte calls -> ~ multiplicity m ≡F 0 -> in_byte_table (values m).
Proof using Hacc.
  intros Hm Hz. pose proof (acc_bytes s Hacc (values m)) as HB. destruct (acc_few s Hacc) as (Hf & _).
  destruct (partner _ _ _ m HB byte_sends_boolean Hf Hm eq_refl Hz) as (m' & Hin & Hv & _).
  assert (in_byte_table (values m')) as (c & o & Hc & Ho).
  { apply received_cases in Hin as [(row & Hr & Hm')|[(row & Hr & Hm')|(row & Hr & Hm')]].
    - pose proof (acc_hold s Hacc) as Hh. rewrite Forall_forall in Hh. specialize (Hh row Hr).
      rewrite (shape_no_table _ (alu_row_shape _ Hh)) in Hm'. by apply not_elem_of_nil in Hm'.
    - by apply (byte_row_calls row Hr).
    - pose proof (acc_other s Hacc) as Ho. rewrite Forall_forall in Ho. rewrite (other_no_table _ (Ho row Hr)) in Hm'.
      by apply not_elem_of_nil in Hm'. }
  exists c, o. split; [done|]. unfold same_values in *. congruence.
Qed.

Lemma other_looked_up row : row ∈ other_rows s -> bytes_looked_up row.
Proof using Hacc.
  intros Hr m Hm. apply bytes_in_table. apply sent_concat. exists row. split; [|done]. unfold shard_rows. rewrite !elem_of_app. by right; right.
Qed.

Lemma instruction_sends_boolean : Forall (fun m => boolean (multiplicity m)) (sent KInstruction calls).
Proof using Hacc.
  apply Forall_forall. intros m [(row & Hr & Hm)|[(row & Hr & Hm)|(row & Hr & Hm)]]%sent_cases.
  - pose proof (acc_hold s Hacc) as Hh. rewrite Forall_forall in Hh. specialize (Hh row Hr).
    pose proof (shape_sends _ (alu_row_shape _ Hh)) as Hs. rewrite Forall_forall in Hs. by destruct (Hs m Hm).
  - destruct (byte_row_calls row Hr) as (_ & E & _). rewrite E in Hm. by apply not_elem_of_nil in Hm.
  - pose proof (acc_other s Hacc) as Ho. rewrite Forall_forall in Ho. pose proof (other_sends _ (Ho row Hr) (other_flags_received row Hr) (other_looked_up row Hr)) as Hs.
    rewrite Forall_forall in Hs. by apply Hs.
Qed.

Lemma rows_ok row : row ∈ alu_rows s -> row_wf row /\ row_ok (row_calls row).
Proof using Hacc.
  intros Hr. pose proof (acc_hold s Hacc) as Hh. pose proof (acc_wf s Hacc) as Hw. rewrite Forall_forall in Hh, Hw.
  split; [by apply Hw|]. split; [by apply Hh|]. apply bytes_found_sends. intros m Hm Hz. apply bytes_in_table; [|done].
  by apply (alu_messages KByte row m Hr).
Qed.

(** The rows that do not depend on others, and the DivRem rows once theirs are
    answered. *)
Lemma row_receiver row : row ∈ alu_rows s -> sends_answered (row_calls row) -> alu_receiver (row_opcodes row) (row_calls row).
Proof using Hacc.
  intros Hr Hs. destruct (rows_ok row Hr) as [Hw Ho]. destruct row; cbn [row_calls row_wf row_opcodes] in *.
  - by apply add_sub_receiver.
  - by apply bitwise_receiver.
  - by apply lt_receiver.
  - by apply sll_receiver.
  - by apply sr_receiver.
  - by apply mul_receiver.
  - by apply divrem_receiver.
Qed.

(** The opcode of a received message is one of its chip. *)
Lemma row_answers row m : row ∈ alu_rows s -> m ∈ receives KInstruction (row_calls row) -> ~ multiplicity m ≡F 0 ->
  plain_message (values m) /\ answers (row_opcodes row) (values m).
Proof using Hacc.
  intros Hr Hm Hz. destruct (rows_ok row Hr) as [Hw Ho].
  destruct (decide_divrem row) as [[r ->]|Hnd].
  - destruct (divrem_answers r Hw Ho m Hm Hz) as (Hp & o & Hin & _ & E). split; [done|]. by exists o.
  - destruct (row_receiver row Hr (quiet_row_answered row Hnd) m Hm Hz) as (? & ? & _). done.
Qed.

(** A sent ALU instruction is received by the chip of its opcode. *)
Lemma instruction_received m : m ∈ sent KInstruction calls -> ~ multiplicity m ≡F 0 -> answers alu_opcodes (values m) ->
  exists row m', row ∈ alu_rows s /\ m' ∈ receives KInstruction (row_calls row) /\ ~ multiplicity m' ≡F 0 /\
    same_values (values m') (values m) /\ answers (row_opcodes row) (values m).
Proof using Hacc.
  intros Hm Hz Ha. pose proof (acc_instructions s Hacc (values m)) as HB. destruct (acc_few s Hacc) as (_ & Hf & _).
  destruct (partner _ _ _ m HB instruction_sends_boolean Hf Hm eq_refl Hz) as (m' & Hin & Hv & Hz').
  assert (forall os, answers os (values m') <-> answers os (values m)) as Hans.
  { intros os. unfold answers, msg_opcode. by rewrite (same_values_msg _ _ 5 Hv). }
  apply received_cases in Hin as [(row & Hr & Hm')|[(row & Hr & Hm')|(row & Hr & Hm')]].
  - exists row, m'. split_and!; try done. apply Hans. by apply row_answers.
  - destruct (byte_row_calls row Hr) as (_ & _ & E & _). rewrite E in Hm'. by apply not_elem_of_nil in Hm'.
  - pose proof (acc_other s Hacc) as Ho. rewrite Forall_forall in Ho. pose proof (other_receives _ (Ho row Hr)) as Hs.
    rewrite Forall_forall in Hs. destruct (Hs m' Hm') as [_ Hn]. exfalso. apply (Hn Hz'); [by apply other_looked_up|by apply Hans].
Qed.

(** Equal messages promise the same. *)
Lemma same_message v v' : same_values v v' -> msg_op_a_0 v = msg_op_a_0 v' /\ msg_opcode v = msg_opcode v' /\
  msg_a v = msg_a v' /\ msg_b v = msg_b v' /\ msg_c v = msg_c v'.
Proof.
  intros H. unfold msg_op_a_0, msg_opcode, msg_a, msg_b, msg_c, msg_word. rewrite !(fun i => same_values_msg v v' i H). done.
Qed.

Lemma same_alu_message v v' : same_values v v' -> alu_message v -> alu_message v'.
Proof.
  intros H. destruct (same_message v v' H) as (_ & E1 & E2 & E3 & E4). unfold alu_message. by rewrite E1, E2, E3, E4.
Qed.

(** Two chips never share an opcode. *)
Lemma answers_opcode o os vals : msg_opcode vals = opcode_u32 o -> answers os vals -> In o os.
Proof. intros E (o' & Hin & E'). rewrite E in E'. by apply (inj opcode_u32) in E' as ->. Qed.

(** The instructions the DivRem rows send are answered. *)
Lemma divrem_sends_answered r : DivRemRow r ∈ alu_rows s -> sends_answered (DivRemChip.eval r).
Proof using Hacc.
  intros Hr m Hm Hz. destruct (rows_ok _ Hr) as [Hw Ho]. cbn [row_wf row_calls] in *.
  assert (exists o, In o [MUL; MULH; MULHU; ADD; SLTU] /\ msg_opcode (values m) = opcode_u32 o) as (o & Hin & Eo).
  { destruct (divrem_selected r Hw Ho) as [o Hsel]. destruct (selected_sums o r Hsel) as (Es & Eu & _).
    rewrite divrem_sends in Hm. unfold sent_instructions in Hm. rewrite !elem_of_cons in Hm.
    destruct Hm as [->|[->|[->|[->|[->|Hm]]]]]; [exists MUL| |exists ADD|exists ADD|exists SLTU|by apply not_elem_of_nil in Hm];
      try (by split; [cbn; tauto|]).
    exists (if is_signed_operation o then MULH else MULHU). cbn [values]. unfold msg_opcode, msg. cbn [instruction_values app nth].
    rewrite Es, Eu. destruct (is_signed_operation o); split; cbn; tauto. }
  assert (answers alu_opcodes (values m)) as Ha by (exists o; split; [cbn in Hin |- *; tauto|done]).
  destruct (instruction_received m (proj1 (alu_messages KInstruction _ m Hr) Hm) Hz Ha) as (row & m' & Hrow & Hm' & Hz' & Hv & Hans).
  destruct (rows_ok row Hrow) as [Hw' Ho']. pose proof (same_message _ _ Hv) as (F0 & _ & _ & Fb & Fc).
  pose proof (answers_opcode _ _ _ Eo Hans) as Hino.
  assert (forall r', row <> DivRemRow r') as Hnd.
  { intros r' ->. cbn in Hino, Hin. intuition congruence. }
  intros H0. rewrite <- F0 in H0. destruct (row_receiver row Hrow (quiet_row_answered row Hnd) m' Hm' Hz') as (_ & _ & Hprom). split.
  - intros Wb Wc. apply (same_alu_message _ _ Hv). apply Hprom; [done|by rewrite Fb|by rewrite Fc].
  - intros Hadd. pose proof (answers_opcode _ _ _ Eo Hadd) as Hin'. assert (exists r', row = AddSubRow r') as [r' ->].
    { destruct row; try (cbn in Hino, Hin'; intuition congruence). by eexists. }
    rewrite <- Fb, <- Fc. by apply (add_sub_checks r').
Qed.

Lemma alu_instruction_sound m : m ∈ sent KInstruction calls -> ~ multiplicity m ≡F 0 -> answers alu_opcodes (values m) ->
  plain_message (values m) /\
  (msg_op_a_0 (values m) = 0 -> word_bytes (msg_b (values m)) -> word_bytes (msg_c (values m)) -> alu_message (values m)).
Proof using Hacc.
  intros Hm Hz Ha. destruct (instruction_received m Hm Hz Ha) as (row & m' & Hrow & Hm' & Hz' & Hv & Hans).
  assert (sends_answered (row_calls row)) as Hs.
  { destruct (decide_divrem row) as [[r ->]|Hnd]; [by apply divrem_sends_answered|by apply quiet_row_answered]. }
  destruct (row_receiver row Hrow Hs m' Hm' Hz') as (Hp & _ & Hprom). pose proof (same_message _ _ Hv) as (F0 & _ & _ & Fb & Fc).
  split.
  - unfold plain_message, msg_next_pc, msg_pc in *. rewrite !(fun i => same_values_msg _ _ i Hv) in Hp.
    assert (length (values m') = length (values m)) as <- by (unfold same_values in Hv; by rewrite <- (length_map Fred), Hv, length_map). done.
  - intros H0 Wb Wc. apply (same_alu_message _ _ Hv), Hprom; [by rewrite F0|by rewrite Fb|by rewrite Fc].
Qed.

(** What the senders of an ALU instruction may rely on. *)
Lemma sent_answered m : m ∈ sent KInstruction calls -> ~ multiplicity m ≡F 0 -> answers alu_opcodes (values m) ->
  instruction_answered (values m).
Proof using Hacc.
  intros Hm Hz Ha H0. split; [by apply (alu_instruction_sound m Hm Hz Ha)|].
  intros (o & Hin & Eo). destruct (instruction_received m Hm Hz Ha) as (row & m' & Hrow & Hm' & Hz' & Hv & Hans).
  destruct (rows_ok row Hrow) as [Hw' Ho']. pose proof (same_message _ _ Hv) as (F0 & _ & _ & Fb & Fc).
  pose proof (answers_opcode _ _ _ Eo Hans) as Hino. assert (exists r', row = AddSubRow r') as [r' ->].
  { destruct row; try (cbn in Hino, Hin; intuition congruence). by eexists. }
  rewrite <- Fb, <- Fc. rewrite <- F0 in H0. by apply (add_sub_checks r').
Qed.
End Machine.

(** C7. In a shard whose ALU rows satisfy their constraints and whose byte and
    instruction lookups balance, every instruction any chip sends for one of
    the 18 ALU opcodes moves to the next program counter, touches no memory,
    and, for a destination other than [x0] and operands that are words of
    bytes, carries the result the executor computes.  The DivRem rows are
    justified by the instructions they send themselves. *)
Theorem alu_machine_sound s m : accepted s ->
  m ∈ sent KInstruction (concat (shard_rows s)) -> ~ multiplicity m ≡F 0 -> answers alu_opcodes (values m) ->
  plain_message (values m) /\
  (msg_op_a_0 (values m) = 0 -> word_bytes (msg_b (values m)) -> word_bytes (msg_c (values m)) -> alu_message (values m)).
Proof. intros H. by apply alu_instruction_sound. Qed.

(** A shard that adds 0x0100 and 0x0200. *)
Definition sample_event : AluEvent := mkAluEvent 4 ADD 0x0300 0x0100 0x0200 false.
Definition sample_message : AirInteraction := mkAirInteraction (event_message sample_event) 1 KInstruction.
Definition sample_shard : AluShard :=
  let range n := map (fun o => if bool_decide (o = ByteOpcode.U8Range) then n else 0) ByteOpcode.all in
  mkAluShard [AddSubRow (AddSubChip.event_to_row sample_event AddSubChip.default ([] : list ByteLookupEvent)).1]
    [range 3; range 1; range 1; range 1] [[Send sample_message Local]].

Lemma sample_accepted : accepted sample_shard.
Proof.
  assert (debug_interactions_with_all_chips 1 [shard_rows sample_shard] [KByte; KInstruction] Local = Some true) as Hb by (vm_compute; reflexivity).
  rewrite debug_interactions_balanced in Hb by done. cbn [concat] in Hb. rewrite app_nil_r in Hb.
  pose proof (add_sub_row sample_event ([] : list ByteLookupEvent) ltac:(by left) ltac:(split_and!; done) eq_refl) as Hrow.
  destruct (AddSubChip.event_to_row sample_event AddSubChip.default ([] : list ByteLookupEvent)) as [cols l] eqn:E.
  destruct Hrow as (Hw & _ & (Hh & _)). constructor.
  - unfold sample_shard. rewrite E. cbn [alu_rows fst]. by apply Forall_singleton.
  - unfold sample_shard. rewrite E. cbn [alu_rows fst]. by apply Forall_singleton.
  - apply Forall_singleton. constructor; try done.
    + apply Forall_singleton. intros _. by left.
    + intros _ _. apply Forall_singleton. by right.
  - apply Hb. by left.
  - apply Hb. right. by left.
  - split_and!; vm_compute; reflexivity.
Qed.

Lemma alu_machine_sound_witness : alu_message (values sample_message).
Proof.
  apply (alu_machine_sound sample_shard sample_message sample_accepted).
  - apply sent_concat. exists [Send sample_message Local]. split; [|by left].
    unfold shard_rows. rewrite !elem_of_app. right. right. by left.
  - intros H. vm_compute in H. discriminate H.
  - exists ADD. split; [by left|vm_compute; reflexivity].
  - vm_compute. reflexivity.
  - unfold sample_message, event_message. cbn [values]. rewrite msg_b_eq, word_Fred by apply word_from_canon. apply word_from_bytes.
  - unfold sample_message, event_message. cbn [values]. rewrite msg_c_eq, word_Fred by apply word_from_canon. apply word_from_bytes.
Defined.
