(* ===== verification/TraceGen.v ===== *)
(** * Trace generation loops (MachineAir of crates/core/machine/src/alu,
    crates/core/machine/src/utils/mod.rs)

    A chip turns the events of its table into rows, in parallel chunks whose
    size depends on the number of processors, and pads them to a power of two;
    it collects the byte lookups of its events into one map per chunk and
    merges the maps into the record.  Neither result depends on the number of
    processors. *)

From Stdlib Require Import ZArith Lia Bool.
From stdpp Require Import base list gmap.
From S2P Require Import Prelude Isa Events ByteLookup Air Record Alu AirBuilder ByteTable Operations AddSubChip BitwiseChip LtChip ShiftLeftChip ShiftRightChip.
From S2P Require Import MulChip DivRemChip.

Local Open Scope Z_scope.
Local Open Scope rv_scope.

(** ** Helpers of utils/mod.rs and the standard library *)

(** [slice::chunks]; the chunk size is positive. *)
Fixpoint chunks_fuel {A} (fuel size : nat) (l : list A) : list (list A) :=
  match fuel, l with
  | S fuel, _ :: _ => take size l :: chunks_fuel fuel size (drop size l)
  | _, _ => []
  end.
Definition chunks {A} (size : nat) (l : list A) : list (list A) := chunks_fuel (length l) size l.

(** [Iterator::enumerate]. *)
Fixpoint enumerate_from {A} (k : nat) (l : list A) : list (nat * A) :=
  match l with [] => [] | x :: l => (k, x) :: enumerate_from (S k) l end.
Definition enumerate {A} (l : list A) : list (nat * A) := enumerate_from 0 l.

(** [None]: the fixed height is too small. *)
Definition next_power_of_two (n : nat) (fixed_power : option Z) : option nat :=
  match fixed_power with
  | Some power => if Z.shiftl 1 power <? Z.of_nat n then None else Some (Z.to_nat (Z.shiftl 1 power))
  | None => Some (Z.to_nat (Z.max 16 (Air.next_power_of_two (Z.of_nat n))))
  end.

Definition resize {A} (l : list A) (n : nat) (x : A) : list A := take n l ++ replicate (n - length l) x.

Definition pad_rows_fixed {A} (rows : list A) (dummy : A) (size_log2 : option Z) : option (list A) :=
  n ← next_power_of_two (length rows) size_log2; Some (resize rows n dummy).

(** [ExecutionRecord::fixed_log2_rows]; [None]: the chip is not in the shape. *)
Definition fixed_log2_rows (r : ExecutionRecord) (id : RiscvAirId.t) : option (option Z) :=
  match rshape r with
  | None => Some None
  | Some shape => '(_, h) ← find (fun p => bool_decide (p.1 = id)) shape; Some (Some h)
  end.

(** ** The trait, as the ALU chips use it *)

Class EventChip (Cols : Type) : Type := {
  chip_id : RiscvAirId.t;
  events_of : ExecutionRecord -> list AluEvent;
  zero_row : Cols;
  to_row {R} `{ByteRecord R} : AluEvent -> R -> option (Cols * R)
}.

Section Loops.
  Context {Cols : Type} `{EventChip Cols}.

(** A row whose lookups are dropped. *)
Definition row_only (e : AluEvent) : option Cols := '(cols, _) ← to_row e ([] : list ByteLookupEvent); Some cols.

(** The loop over [values.chunks_mut]: row [j] of chunk [i] has the index
    [i * chunk_size + j]. *)
Definition fill_chunks (events : list AluEvent) (padded chunk_size : nat) (pad : Cols) : option (list Cols) :=
  concat (A := Cols) <$> mapM (fun '(i, rows) =>
      mapM (fun '(j, row) => match events !! (i * chunk_size + j)%nat with Some e => row_only e | None => Some pad end)
        (enumerate rows))
    (enumerate (chunks chunk_size (replicate padded zero_row))).

(** One map of counts per chunk of events. *)
Definition chunk_lookups (events : list AluEvent) : option (gmap ByteLookupEvent Z) :=
  fold_left (fun blu e => blu ← blu; '(_, blu) ← to_row e blu; Some blu) events (Some ∅).

Definition dependencies {R} `{ByteRecord R} (batches : list (list AluEvent)) (output : R) : option R :=
  maps ← mapM chunk_lookups batches; add_byte_lookup_events_from_maps maps output.
End Loops.

(** ** The chips *)

Definition lt_zero_row : LtChip.LtCols :=
  LtChip.mkLtCols 0 0 0 0 word_zero word_zero 0 word_zero 0 0 0 0 0 0 0 0 0 0 (0, 0) word_zero.
Definition sll_zero_row : ShiftLeft.ShiftLeftCols :=
  ShiftLeft.mkShiftLeftCols 0 word_zero word_zero word_zero 0 (replicate 8 0) (replicate 8 0) 0 word_zero word_zero (replicate 4 0) 0.
Definition sr_zero_row : ShiftRightChip.ShiftRightCols :=
  ShiftRightChip.mkShiftRightCols 0 word_zero word_zero word_zero 0 (replicate 8 0) (replicate 4 0)
    (replicate 8 0) (replicate 8 0) (replicate 8 0) (replicate 8 0) 0 (replicate 8 0) 0 0 0.
Definition divrem_zero_row : DivRemChip.DivRemCols :=
  DivRemChip.mkDivRemCols 0 word_zero word_zero word_zero 0 word_zero word_zero word_zero word_zero word_zero
    (replicate 8 0) (replicate 8 0) DivRemChip.zero_test 0 0 0 0 0
    (Operations.IsEqualWordOperation.mkIsEqualWordOperation DivRemChip.zero_test)
    (Operations.IsEqualWordOperation.mkIsEqualWordOperation DivRemChip.zero_test) 0 0 0 0 0 0 0 0 0 0.

#[export] Instance add_sub_chip : EventChip AddSubChip.AddSubCols := {
  chip_id := RiscvAirId.AddSub;
  events_of r := add_events r ++ sub_events r;
  zero_row := AddSubChip.default;
  to_row _ _ e blu := Some (AddSubChip.event_to_row e AddSubChip.default blu)
}.
#[export] Instance bitwise_chip : EventChip BitwiseChip.BitwiseCols := {
  chip_id := RiscvAirId.Bitwise; events_of := bitwise_events; zero_row := BitwiseChip.default;
  to_row _ _ e blu := BitwiseChip.event_to_row e blu
}.
#[export] Instance lt_chip : EventChip LtChip.LtCols := {
  chip_id := RiscvAirId.Lt; events_of := lt_events; zero_row := lt_zero_row;
  to_row _ _ e blu := LtChip.event_to_row e blu
}.
#[export] Instance sll_chip : EventChip ShiftLeft.ShiftLeftCols := {
  chip_id := RiscvAirId.ShiftLeft; events_of := shift_left_events; zero_row := sll_zero_row;
  to_row _ _ e blu := Some (ShiftLeft.event_to_row e blu)
}.
#[export] Instance sr_chip : EventChip ShiftRightChip.ShiftRightCols := {
  chip_id := RiscvAirId.ShiftRight; events_of := shift_right_events; zero_row := sr_zero_row;
  to_row _ _ e blu := Some (ShiftRightChip.event_to_row e blu)
}.
#[export] Instance mul_chip : EventChip MulChip.MulCols := {
  chip_id := RiscvAirId.Mul; events_of := mul_events; zero_row := MulChip.padding_row;
  to_row _ _ e blu := Some (MulChip.event_to_row e blu)
}.
#[export] Instance divrem_chip : EventChip DivRemChip.DivRemCols := {
  chip_id := RiscvAirId.DivRem; events_of := divrem_events; zero_row := divrem_zero_row;
  to_row _ _ e blu := DivRemChip.event_to_row e blu
}.

(** [std::cmp::max(n / num_cpus::get(), 1)] *)
Definition chunk_size (n cpus : nat) : nat := Nat.max (n / cpus) 1.

Definition num_rows {Cols} `{EventChip Cols} (input : ExecutionRecord) : option nat :=
  size_log2 ← fixed_log2_rows input chip_id; next_power_of_two (length (events_of input)) size_log2.

(** [MachineAir::generate_trace] of each chip. *)
Definition add_sub_generate_trace (cpus : nat) (input : ExecutionRecord) : option (list AddSubChip.AddSubCols) :=
  padded_nb_rows ← num_rows (Cols := AddSubChip.AddSubCols) input;
  fill_chunks (add_events input ++ sub_events input) padded_nb_rows
    (chunk_size (length (add_events input) + length (sub_events input)) cpus) zero_row.

Definition generate_trace_chunked {Cols} `{EventChip Cols} (pad : Cols) (cpus : nat) (input : ExecutionRecord) : option (list Cols) :=
  let nb_rows := length (events_of input) in
  size_log2 ← fixed_log2_rows input chip_id;
  padded_nb_rows ← next_power_of_two nb_rows size_log2;
  fill_chunks (events_of input) padded_nb_rows (chunk_size (nb_rows + 1) cpus) pad.

Definition lt_generate_trace : nat -> ExecutionRecord -> option (list LtChip.LtCols) := generate_trace_chunked zero_row.
Definition mul_generate_trace : nat -> ExecutionRecord -> option (list MulChip.MulCols) := generate_trace_chunked zero_row.
Definition sr_generate_trace : nat -> ExecutionRecord -> option (list ShiftRightChip.ShiftRightCols) :=
  generate_trace_chunked ShiftRightChip.padding_row.

(** Rows in order, padded with zeros. *)
Definition generate_trace_ordered {Cols} `{EventChip Cols} (input : ExecutionRecord) : option (list Cols) :=
  rows ← mapM row_only (events_of input);
  size_log2 ← fixed_log2_rows input chip_id;
  pad_rows_fixed rows zero_row size_log2.

(** The loop that writes the template over the padding. *)
Definition write_template {A} (n : nat) (template : A) (rows : list A) : list A :=
  map (fun '(i, row) => if (i <? n)%nat then row else template) (enumerate rows).

Definition bitwise_generate_trace (input : ExecutionRecord) : option (list BitwiseChip.BitwiseCols) := generate_trace_ordered input.
Definition sll_generate_trace (input : ExecutionRecord) : option (list ShiftLeft.ShiftLeftCols) :=
  rows ← generate_trace_ordered input;
  Some (write_template (length (shift_left_events input)) ShiftLeft.padded_row_template rows).

(** The DivRem chip records its lookups while it generates the trace. *)
Definition divrem_generate_trace (input output : ExecutionRecord) : option (list DivRemChip.DivRemCols * ExecutionRecord) :=
  '(rows, output) ← fold_left (fun acc e =>
      '(rows, output) ← acc; '(row, output) ← DivRemChip.event_to_row e output; Some (rows ++ [row], output))
    (divrem_events input) (Some ([], output));
  size_log2 ← fixed_log2_rows input RiscvAirId.DivRem;
  rows ← pad_rows_fixed rows divrem_zero_row size_log2;
  Some (write_template (length (divrem_events input)) DivRemChip.padded_row_template rows, output).

(** [MachineAir::generate_dependencies] of the AddSub chip, and of the chips
    with one table; that of DivRem is its [generate_trace]. *)
Definition add_sub_generate_dependencies (cpus : nat) (input output : ExecutionRecord) : option ExecutionRecord :=
  let size := chunk_size (length (add_events input) + length (sub_events input)) cpus in
  dependencies (Cols := AddSubChip.AddSubCols) (chunks size (add_events input) ++ chunks size (sub_events input)) output.

Definition generate_dependencies {Cols} `{EventChip Cols} (cpus : nat) (input output : ExecutionRecord) : option ExecutionRecord :=
  dependencies (Cols := Cols) (chunks (chunk_size (length (events_of input)) cpus) (events_of input)) output.

(** ** The loops do not depend on the chunks *)

Lemma mapM_app_opt {A B} (f : A -> option B) l l' :
  mapM f (l ++ l') = x ← mapM f l; y ← mapM f l'; Some (x ++ y).
Proof.
  induction l as [|a l IH]; cbn [app mapM]; [by destruct (mapM f l')|].
  destruct (f a); cbn [mbind option_bind]; [|done]. rewrite IH. destruct (mapM f l); cbn [mbind option_bind]; [|done].
  by destruct (mapM f l').
Qed.

Lemma chunks_concat {A} size (l : list A) : (0 < size)%nat -> concat (chunks size l) = l.
Proof.
  intros Hs. unfold chunks. assert (forall fuel (l : list A), (length l <= fuel)%nat -> concat (chunks_fuel fuel size l) = l) as H; [|by apply H].
  induction fuel as [|fuel IH]; intros l' Hl; [destruct l'; [done|cbn in Hl; lia]|].
  destruct l' as [|x l']; [done|]. cbn [chunks_fuel concat]. rewrite IH by (rewrite length_drop; cbn in *; lia).
  apply take_drop.
Qed.

Section Chunked.
  Context {B : Type} (g : nat -> option B) (size : nat) (Hs : (0 < size)%nat).

Lemma enumerate_rows {A} (l : list A) k s : mapM (fun '(j, _) => g (s + j)%nat) (enumerate_from k l) = mapM g (seq (s + k) (length l)).
Proof.
  revert k. induction l as [|x l IH]; intros k; cbn [enumerate_from length seq mapM]; [done|].
  rewrite IH. by replace (s + S k)%nat with (S (s + k)) by lia.
Qed.

Lemma enumerate_chunks {A} fuel (l : list A) k : (length l <= fuel)%nat ->
  concat (A := B) <$> mapM (fun '(i, rows) => mapM (fun '(j, _) => g (i * size + j)%nat) (enumerate rows))
    (enumerate_from k (chunks_fuel fuel size l)) = mapM g (seq (k * size) (length l)).
Proof using Hs.
  revert l k. induction fuel as [|fuel IH]; intros l k Hl; [destruct l; [done|cbn in Hl; lia]|].
  destruct l as [|x l]; [done|]. cbn [chunks_fuel enumerate_from mapM]. change (enumerate (take size (x :: l))) with (enumerate_from 0 (take size (x :: l))). rewrite enumerate_rows.
  set (L := x :: l) in *. rewrite Nat.add_0_r, length_take.
  specialize (IH (drop size L) (S k)). rewrite length_drop in IH. specialize (IH ltac:(subst L; cbn in *; lia)).
  replace (length L) with (Nat.min size (length L) + (length L - size))%nat at 2 by lia. rewrite seq_app, mapM_app_opt.
  assert (seq (k * size + Nat.min size (length L)) (length L - size) = seq (S k * size) (length L - size)) as ->.
  { destruct (Nat.le_gt_cases size (length L)); [f_equal; lia|]. by replace (length L - size)%nat with 0%nat by lia. }
  rewrite <- IH. destruct (mapM g (seq (k * size) _)); cbn [mbind option_bind fmap option_fmap option_map]; [|done].
  by destruct (mapM _ (enumerate_from (S k) _)).
Qed.
End Chunked.

Lemma mapM_lookup {A B} (f : A -> option B) (pad : B) l n : (length l <= n)%nat ->
  mapM (fun i => match l !! i with Some x => f x | None => Some pad end) (seq 0 n) =
  rows ← mapM f l; Some (rows ++ replicate (n - length l) pad).
Proof.
  revert n. induction l as [|x l IH]; intros n Hn.
  - cbn [length mapM mbind option_bind app]. rewrite Nat.sub_0_r. clear. generalize 0%nat. induction n as [|n IH]; intros k; cbn; [done|].
    by rewrite IH.
  - destruct n as [|n]; [cbn in Hn; lia|]. cbn [seq mapM lookup list_lookup]. rewrite <- seq_shift.
    assert (forall h : nat -> option B, mapM h (map S (seq 0 n)) = mapM (fun i => h (S i)) (seq 0 n)) as Hmap.
    { intros h. induction (seq 0 n) as [|i s' IHs]; cbn [map mapM]; [done|]. by rewrite IHs. }
    rewrite Hmap. change (fun i => match (x :: l) !! S i with Some x0 => f x0 | None => Some pad end) with
      (fun i => match l !! i with Some x0 => f x0 | None => Some pad end).
    rewrite IH by (cbn in Hn; lia). destruct (f x); cbn [mbind option_bind]; [|done]. by destruct (mapM f l).
Qed.

(** The filled trace: the rows of the events in order, then padding. *)
Lemma fill_chunks_eq {Cols} `{EventChip Cols} events padded size pad : (0 < size)%nat -> (length events <= padded)%nat ->
  fill_chunks events padded size pad = rows ← mapM row_only events; Some (rows ++ replicate (padded - length events) pad).
Proof.
  intros Hs Hl. unfold fill_chunks, chunks, enumerate at 2.
  rewrite (enumerate_chunks (fun i => match events !! i with Some e => row_only e | None => Some pad end) size Hs) by done.
  rewrite length_replicate. cbn [Nat.mul]. by apply mapM_lookup.
Qed.

(** ** Lookups do not depend on the record they are added to *)

(** A row is filled and its lookups are added in the same way to any record. *)
Definition parametric_row {Cols} `{EventChip Cols} (e : AluEvent) : Prop :=
  (exists cols evs, forall R (HR : ByteRecord R) (blu : R), to_row e blu = Some (cols, add_byte_lookup_events evs blu)) \/
  (forall R (HR : ByteRecord R) (blu : R), to_row e blu = None).

Class EventChipLaws (Cols : Type) `{EventChip Cols} : Prop := { to_row_parametric e : parametric_row (Cols := Cols) e }.

#[export] Instance add_sub_laws : EventChipLaws AddSubChip.AddSubCols.
Proof.
  constructor. intros e. left. exists (AddSubChip.event_to_row e AddSubChip.default ([] : list ByteLookupEvent)).1, (add_sub_events e).
  intros R HR blu. cbn [to_row add_sub_chip]. unfold AddSubChip.event_to_row, AddOperation.populate, add_sub_events, add_events_of.
  by rewrite !add_u8_range_checks_events, !add_byte_lookup_events_app.
Qed.

#[export] Instance bitwise_laws : EventChipLaws BitwiseChip.BitwiseCols.
Proof.
  constructor. intros e. unfold parametric_row. cbn [to_row bitwise_chip]. unfold BitwiseChip.event_to_row.
  destruct (BitwiseChip.row_events e) as [evs|]; [left|by right]. eexists _, evs. reflexivity.
Qed.

#[export] Instance lt_laws : EventChipLaws LtChip.LtCols.
Proof.
  constructor. intros e. unfold parametric_row. cbn [to_row lt_chip]. unfold LtChip.event_to_row. cbv zeta.
  destruct (match LtChip.first_diff _ _ with Some _ => _ | None => _ end) as [[[flags sltu] inv] [x y]].
  destruct (_ =? _); [left|by right]. eexists _, [_; _; _]. intros R HR blu. unfold add_byte_lookup_events. cbn [fold_left]. reflexivity.
Qed.

#[export] Instance sll_laws : EventChipLaws ShiftLeft.ShiftLeftCols.
Proof.
  constructor. intros e. left. eexists (ShiftLeft.event_to_row e ([] : list ByteLookupEvent)).1,
    (ShiftLeft.event_to_row e ([] : list ByteLookupEvent)).2.
  intros R HR blu. reflexivity.
Qed.

Lemma fold_left_eq {A B} (f g : A -> B -> A) l a : (forall a x, f a x = g a x) -> fold_left f l a = fold_left g l a.
Proof. intros H. revert a. induction l as [|x l IH]; intros a; [done|]. cbn. by rewrite H, IH. Qed.

Lemma add_mapped {R} `{ByteRecord R} {A} (h : A -> ByteLookupEvent) l (blu : R) :
  fold_left (fun blu x => add_byte_lookup_event (h x) blu) l blu = add_byte_lookup_events (map h l) blu.
Proof. revert blu. induction l as [|x l IH]; intros blu; [done|]. cbn [fold_left map]. by rewrite IH. Qed.

Lemma add_u16_range_checks_events {R} `{ByteRecord R} l (blu : R) :
  add_u16_range_checks l blu = add_byte_lookup_events (map (fun x => mkByteLookupEvent ByteOpcode.U16Range x 0 0 0) l) blu.
Proof. apply (add_mapped (fun x => mkByteLookupEvent ByteOpcode.U16Range x 0 0 0)). Qed.

#[export] Instance sr_laws : EventChipLaws ShiftRightChip.ShiftRightCols.
Proof.
  constructor. intros e. left. eexists (ShiftRightChip.event_to_row e ([] : list ByteLookupEvent)).1, _.
  intros R HR blu. cbn [to_row sr_chip]. unfold ShiftRightChip.event_to_row. cbn [fst].
  rewrite !add_u8_range_checks_events.
  rewrite (fold_left_eq (fun blu '(_, carry, shift, byte) => _) (fun blu x => add_byte_lookup_event
    ((fun '(_, carry, shift, byte) => mkByteLookupEvent ByteOpcode.ShrCarry shift carry byte
       (Z.of_nat (ShiftRightChip.nb_bits_to_shift (alu_c e)))) x) blu)) by (by intros ? [[[? ?] ?] ?]).
  rewrite add_mapped, <- !add_byte_lookup_events_app. reflexivity.
Qed.

#[export] Instance mul_laws : EventChipLaws MulChip.MulCols.
Proof.
  constructor. intros e. left. eexists (MulChip.event_to_row e ([] : list ByteLookupEvent)).1, _.
  intros R HR blu. cbn [to_row mul_chip]. unfold MulChip.event_to_row. cbn [fst].
  rewrite add_u8_range_checks_events, add_u16_range_checks_events, <- !add_byte_lookup_events_app. reflexivity.
Qed.

#[export] Instance divrem_laws : EventChipLaws DivRemChip.DivRemCols.
Proof.
  constructor. intros e. unfold parametric_row. cbn [to_row divrem_chip]. unfold DivRemChip.event_to_row.
  destruct (negb _); [by right|]. left. destruct (get_quotient_and_remainder _ _ _) as [q m]. eexists _, _.
  intros R HR blu. rewrite !add_u8_range_checks_events, <- !add_byte_lookup_events_app. reflexivity.
Qed.

(** ** Merging the maps of the chunks *)

(** Counters that fit in 64 bits. *)
Definition counters (m : gmap ByteLookupEvent Z) : Prop := forall e n, m !! e = Some n -> in_u 64 n.

Lemma counters_add e m : counters m -> counters (add_byte_lookup_event e m).
Proof.
  intros Hm e' n. cbn. destruct (decide (e = e')) as [<-|Hne]; [rewrite lookup_insert_eq|rewrite lookup_insert_ne by done; apply Hm].
  intros [= <-]. destruct (m !! e); [apply wrap_range; lia|]. unfold in_u. lia.
Qed.

Lemma counters_adds evs m : counters m -> counters (add_byte_lookup_events evs m).
Proof.
  unfold add_byte_lookup_events. revert m. induction evs as [|e evs IH]; intros m Hm; [done|]. cbn [fold_left]. by apply IH, counters_add.
Qed.

Lemma u64_mod x : u64 x = x mod 2 ^ 64.
Proof. done. Qed.

(** Adding an event to a part of a merged map adds it to the whole. *)
Lemma merge_add e n m : counters m -> counters n ->
  merge_counts (add_byte_lookup_event e n) m = add_byte_lookup_event e (merge_counts n m).
Proof.
  intros Hm Hn. apply map_eq. intros e'. unfold merge_counts. cbn. rewrite lookup_union_with.
  destruct (decide (e = e')) as [<-|Hne].
  - rewrite !lookup_insert_eq, lookup_union_with. specialize (Hm e). specialize (Hn e).
    destruct (m !! e) as [x|], (n !! e) as [y|]; cbn; try done; f_equal; rewrite !u64_mod.
    rewrite Zplus_mod_idemp_r, Zplus_mod_idemp_l. f_equal. lia.
  - by rewrite !lookup_insert_ne, lookup_union_with by done.
Qed.

Lemma merge_adds evs m : counters m -> merge_counts (add_byte_lookup_events evs ∅) m = add_byte_lookup_events evs m.
Proof.
  intros Hm. induction evs as [|e evs IH] using rev_ind.
  - apply map_eq. intros e. unfold merge_counts. cbn. rewrite lookup_union_with, lookup_empty. by destruct (m !! e).
  - rewrite !add_byte_lookup_events_app. cbn [add_byte_lookup_events fold_left]. rewrite <- IH. apply merge_add; [done|].
    apply counters_adds. intros e' n. by rewrite lookup_empty.
Qed.

(** The lookups of an event. *)
Definition lookups_of {Cols} `{EventChip Cols} (e : AluEvent) : list ByteLookupEvent :=
  match to_row e ([] : list ByteLookupEvent) with Some (_, evs) => evs | None => [] end.

Section Dependencies.
  Context {Cols : Type} `{EventChipLaws Cols}.

Lemma vec_adds evs l : add_byte_lookup_events evs l = l ++ evs.
Proof.
  unfold add_byte_lookup_events. revert l. induction evs as [|e evs IH]; intros l; cbn [fold_left]; [by rewrite app_nil_r|].
  rewrite IH. cbn. by rewrite <- app_assoc.
Qed.

Lemma to_row_lookups e {R} `{ByteRecord R} (blu : R) :
  to_row e blu = cols ← row_only (Cols := Cols) e; Some (cols, add_byte_lookup_events (lookups_of (Cols := Cols) e) blu).
Proof.
  destruct (to_row_parametric (Cols := Cols) e) as [(cols & evs & E)|E]; unfold row_only, lookups_of; rewrite !E; [|done].
  cbn. by rewrite vec_adds.
Qed.

(** One loop over the events, whose rows are dropped: the lookups are added in
    order, unless a row cannot be built. *)
Definition lookup_loop {R} `{ByteRecord R} (events : list AluEvent) (blu : option R) : option R :=
  fold_left (fun blu e => blu ← blu; '(_, blu) ← to_row (Cols := Cols) e blu; Some blu) events blu.

Lemma lookup_loop_eq {R} `{ByteRecord R} events (blu : R) :
  lookup_loop events (Some blu) =
  _ ← mapM (row_only (Cols := Cols)) events; Some (add_byte_lookup_events (concat (map (lookups_of (Cols := Cols)) events)) blu).
Proof.
  unfold lookup_loop. revert blu. induction events as [|e events IH]; intros blu; [done|].
  cbn [fold_left mapM mbind option_bind]. rewrite to_row_lookups. destruct (row_only e); cbn [mbind option_bind].
  - rewrite IH. destruct (mapM row_only events); [|done]. cbn [mbind option_bind map concat mret option_ret].
    by rewrite add_byte_lookup_events_app.
  - clear. induction events; [done|]. by cbn [fold_left mbind option_bind].
Qed.

Lemma chunk_maps batches :
  mapM (chunk_lookups (Cols := Cols)) batches =
  _ ← mapM (row_only (Cols := Cols)) (concat batches);
  Some (map (fun b => add_byte_lookup_events (concat (map (lookups_of (Cols := Cols)) b)) ∅) batches).
Proof.
  induction batches as [|b batches IH]; [done|]. cbn [mapM concat]. rewrite mapM_app_opt.
  change (chunk_lookups b) with (lookup_loop b (Some ∅)). rewrite lookup_loop_eq, IH.
  destruct (mapM row_only b); [|done]. cbn [mbind option_bind]. by destruct (mapM row_only (concat batches)).
Qed.

Lemma merge_maps batches m : counters m ->
  fold_left (fun m n => merge_counts n m)
    (map (fun b => add_byte_lookup_events (concat (map (lookups_of (Cols := Cols)) b)) ∅) batches) m =
  add_byte_lookup_events (concat (map (lookups_of (Cols := Cols)) (concat batches))) m.
Proof.
  revert m. induction batches as [|b batches IH]; intros m Hm; [done|].
  cbn [map fold_left concat]. rewrite merge_adds by done. rewrite IH by (by apply counters_adds).
  by rewrite map_app, concat_app, add_byte_lookup_events_app.
Qed.

Lemma record_adds evs (r : ExecutionRecord) : add_byte_lookup_events evs r = upd_byte_lookups (add_byte_lookup_events evs) r.
Proof.
  revert r. induction evs as [|e evs IH]; intros r; [by destruct r|].
  change (add_byte_lookup_events (e :: evs) r) with (add_byte_lookup_events evs (add_byte_lookup_event e r)). rewrite IH. by destruct r.
Qed.

(** The record after the chunks are merged is the one a single loop over the
    events builds. *)
Lemma dependencies_eq batches (output : ExecutionRecord) : counters (byte_lookups output) ->
  dependencies (Cols := Cols) batches output = lookup_loop (concat batches) (Some output).
Proof.
  intros Ho. unfold dependencies. rewrite chunk_maps, lookup_loop_eq.
  destruct (mapM row_only (concat batches)); [|done]. cbn [mbind option_bind]. f_equal.
  cbn [add_byte_lookup_events_from_maps record_ByteRecord]. rewrite record_adds.
  pose proof (merge_maps batches _ Ho) as E. destruct output. unfold upd_byte_lookups in *. cbn in *. by rewrite E.
Qed.
End Dependencies.

(** ** The traces *)

Definition padded_trace {Cols} `{EventChip Cols} (pad : Cols) (r : ExecutionRecord) : option (list Cols) :=
  rows ← mapM row_only (events_of r);
  size_log2 ← fixed_log2_rows r chip_id;
  n ← next_power_of_two (length (events_of r)) size_log2;
  Some (rows ++ replicate (n - length (events_of r)) pad).

Lemma next_power_of_two_le n fixed p : Z.of_nat n <= 2 ^ 63 -> next_power_of_two n fixed = Some p -> (n <= p)%nat.
Proof.
  intros Hn. destruct fixed as [power|]; cbn [next_power_of_two].
  - destruct (Z.ltb_spec (Z.shiftl 1 power) (Z.of_nat n)); [done|]. intros [= <-]. lia.
  - intros [= <-]. pose proof (Air.next_power_of_two_ge (Z.of_nat n) ltac:(lia)). lia.
Qed.

Lemma mapM_length_opt {A B} (f : A -> option B) l l' : mapM f l = Some l' -> length l' = length l.
Proof. intros H. apply mapM_Some in H. symmetry. by apply Forall2_length in H. Qed.

Section Traces.
  Context {Cols : Type} `{EventChip Cols} (r : ExecutionRecord) (Hlen : Z.of_nat (length (events_of r)) <= 2 ^ 63).

Lemma chunked_trace_eq pad cpus : generate_trace_chunked pad cpus r = padded_trace pad r.
Proof using Hlen.
  unfold generate_trace_chunked, padded_trace. destruct (fixed_log2_rows r chip_id) as [size|]; cbn [mbind option_bind].
  2:{ by destruct (mapM row_only (events_of r)). }
  destruct (next_power_of_two _ size) as [n|] eqn:En; cbn [mbind option_bind]; [|by destruct (mapM row_only (events_of r))].
  apply fill_chunks_eq; [unfold chunk_size; lia|by apply (next_power_of_two_le _ size)].
Qed.

Lemma ordered_trace_eq : generate_trace_ordered r = padded_trace zero_row r.
Proof using Hlen.
  unfold generate_trace_ordered, padded_trace, pad_rows_fixed. destruct (mapM row_only (events_of r)) as [rows|] eqn:E; [|done].
  cbn [mbind option_bind]. destruct (fixed_log2_rows r chip_id) as [size|]; [|done]. cbn [mbind option_bind].
  rewrite (mapM_length_opt _ _ _ E). destruct (next_power_of_two _ size) as [n|] eqn:En; [|done]. cbn [mbind option_bind].
  pose proof (next_power_of_two_le _ _ _ Hlen En). unfold resize. rewrite take_ge; rewrite (mapM_length_opt _ _ _ E); [done|lia].
Qed.

Lemma write_template_eq {A} (rows : list A) k x template : write_template (length rows) template (rows ++ replicate k x) = rows ++ replicate k template.
Proof.
  unfold write_template, enumerate.
  assert (forall s n, (n <= s)%nat -> map (fun '(i, row) => if (i <? n)%nat then row else template) (enumerate_from s (replicate k x)) = replicate k template) as Hpad.
  { induction k as [|k IH]; intros s n Hs; [done|]. cbn [replicate enumerate_from map]. rewrite (proj2 (Nat.ltb_ge _ _)) by done.
    by rewrite IH by lia. }
  assert (forall s, map (fun '(i, row) => if (i <? s + length rows)%nat then row else template) (enumerate_from s (rows ++ replicate k x)) = rows ++ replicate k template) as Hrows.
  { induction rows as [|y rows IH]; intros s; cbn [app length]; [apply Hpad; lia|].
    cbn [enumerate_from map]. rewrite (proj2 (Nat.ltb_lt _ _)) by lia. f_equal. rewrite <- (IH (S s)). f_equal. by rewrite Nat.add_succ_r. }
  exact (Hrows 0%nat).
Qed.

Lemma template_trace_eq template :
  (rows ← generate_trace_ordered r; Some (write_template (length (events_of r)) template rows)) = padded_trace template r.
Proof using Hlen.
  rewrite ordered_trace_eq. unfold padded_trace. destruct (mapM row_only (events_of r)) as [rows|] eqn:E; [|done].
  cbn [mbind option_bind]. destruct (fixed_log2_rows r chip_id) as [size|]; [|done]. cbn [mbind option_bind].
  destruct (next_power_of_two _ size) as [n|]; [|done]. cbn [mbind option_bind]. f_equal.
  rewrite <- (mapM_length_opt _ _ _ E). apply write_template_eq.
Qed.
End Traces.

Lemma divrem_rows events rows output :
  fold_left (fun acc e => '(rows, output) ← acc; '(row, output) ← DivRemChip.event_to_row e output; Some (rows ++ [row], output))
    events (Some (rows, output : ExecutionRecord)) =
  rows' ← mapM (row_only (Cols := DivRemChip.DivRemCols)) events;
  Some (rows ++ rows', add_byte_lookup_events (concat (map (lookups_of (Cols := DivRemChip.DivRemCols)) events)) output).
Proof.
  revert rows output. induction events as [|e events IH]; intros rows output; cbn [fold_left mapM map concat mbind option_bind].
  - change (mret []) with (Some ([] : list DivRemChip.DivRemCols)). cbn [mbind option_bind]. by rewrite app_nil_r.
  - pose proof (to_row_lookups (Cols := DivRemChip.DivRemCols) e output) as E. cbn [to_row divrem_chip] in E. rewrite E.
    destruct (row_only e) as [row|]; cbn [mbind option_bind].
    + rewrite IH. destruct (mapM row_only events); cbn [mbind option_bind mret option_ret]; [|done].
      by rewrite <- app_assoc, add_byte_lookup_events_app.
    + clear. induction events as [|e' events IH]; [done|]. exact IH.
Qed.

(** The trace of every ALU chip is the rows of the events of its tables in order, then padding rows up to
    the padded height, however many processors the chunks are spread over; the loop panics exactly when a row
    cannot be built, the chip is missing from the proof shape or the shape is too small. *)
Theorem traces_in_order cpus r output :
  Forall (fun es => Z.of_nat (length es) <= 2 ^ 62)
    [add_events r; sub_events r; bitwise_events r; lt_events r; shift_left_events r; shift_right_events r; mul_events r; divrem_events r] ->
  add_sub_generate_trace cpus r = padded_trace AddSubChip.default r /\
  bitwise_generate_trace r = padded_trace BitwiseChip.default r /\
  lt_generate_trace cpus r = padded_trace lt_zero_row r /\
  sll_generate_trace r = padded_trace ShiftLeft.padded_row_template r /\
  sr_generate_trace cpus r = padded_trace ShiftRightChip.padding_row r /\
  mul_generate_trace cpus r = padded_trace MulChip.padding_row r /\
  (fst <$> divrem_generate_trace r output) = padded_trace DivRemChip.padded_row_template r.
Proof.
  rewrite !Forall_cons. intros (H1 & H2 & H3 & H4 & H5 & H6 & H7 & H8 & _). split_and!.
  - unfold add_sub_generate_trace, padded_trace, num_rows. cbn [events_of add_sub_chip chip_id zero_row].
    destruct (fixed_log2_rows r RiscvAirId.AddSub) as [size|]; cbn [mbind option_bind]; [|by destruct (mapM row_only _)].
    destruct (next_power_of_two _ size) as [n|] eqn:En; cbn [mbind option_bind]; [|by destruct (mapM row_only _)].
    apply fill_chunks_eq; [unfold chunk_size; lia|]. apply (next_power_of_two_le _ size); [|done]. rewrite length_app. lia.
  - refine (ordered_trace_eq (Cols := BitwiseChip.BitwiseCols) r _). cbn [events_of bitwise_chip]. lia.
  - refine (chunked_trace_eq (Cols := LtChip.LtCols) r _ _ cpus). cbn [events_of lt_chip]. lia.
  - refine (template_trace_eq (Cols := ShiftLeft.ShiftLeftCols) r _ _). cbn [events_of sll_chip]. lia.
  - refine (chunked_trace_eq (Cols := ShiftRightChip.ShiftRightCols) r _ _ cpus). cbn [events_of sr_chip]. lia.
  - refine (chunked_trace_eq (Cols := MulChip.MulCols) r _ _ cpus). cbn [events_of mul_chip]. lia.
  - unfold divrem_generate_trace. rewrite divrem_rows. rewrite <- (template_trace_eq (Cols := DivRemChip.DivRemCols)) by (cbn [events_of divrem_chip]; lia).
    unfold generate_trace_ordered. cbn [events_of divrem_chip chip_id zero_row].
    destruct (mapM row_only (divrem_events r)) as [rows|]; [|done]. cbn [mbind option_bind app].
    destruct (fixed_log2_rows r RiscvAirId.DivRem) as [size|]; [|done]. cbn [mbind option_bind].
    by destruct (pad_rows_fixed rows divrem_zero_row size).
Qed.

(** A record with two additions, an OR and a division. *)
Definition sample_record : ExecutionRecord :=
  upd_add_events (fun _ => [mkAluEvent 4 ADD 7 3 4 false; mkAluEvent 8 ADD 0 (2 ^ 32 - 1) 1 false])
    (upd_bitwise_events (fun _ => [mkAluEvent 12 OR 7 3 4 false])
      (upd_divrem_events (fun _ => [mkAluEvent 16 DIV 3 7 2 false]) ExecutionRecord_default)).

Lemma traces_in_order_witness :
  bitwise_generate_trace sample_record = padded_trace BitwiseChip.default sample_record /\
  add_sub_generate_trace 8 sample_record = padded_trace AddSubChip.default sample_record /\
  ((fun rows : list AddSubChip.AddSubCols => length rows) <$> add_sub_generate_trace 8 sample_record) = Some 16%nat.
Proof.
  destruct (traces_in_order 8 sample_record ExecutionRecord_default) as (H1 & H2 & _).
  - repeat apply Forall_cons_2; [cbn; lia..|apply Forall_nil_2].
  - split_and!; [exact H2|exact H1|vm_compute; reflexivity].
Defined.

(** The byte lookups the ALU chips add to a record when their events are
    processed in parallel chunks and the maps merged are those of one loop over
    the events in order, panics included, for any number of processors. *)
Theorem dependencies_sequential cpus r output : counters (byte_lookups output) ->
  add_sub_generate_dependencies cpus r output = lookup_loop (Cols := AddSubChip.AddSubCols) (add_events r ++ sub_events r) (Some output) /\
  generate_dependencies (Cols := BitwiseChip.BitwiseCols) cpus r output = lookup_loop (Cols := BitwiseChip.BitwiseCols) (bitwise_events r) (Some output) /\
  generate_dependencies (Cols := LtChip.LtCols) cpus r output = lookup_loop (Cols := LtChip.LtCols) (lt_events r) (Some output) /\
  generate_dependencies (Cols := ShiftLeft.ShiftLeftCols) cpus r output = lookup_loop (Cols := ShiftLeft.ShiftLeftCols) (shift_left_events r) (Some output) /\
  generate_dependencies (Cols := ShiftRightChip.ShiftRightCols) cpus r output = lookup_loop (Cols := ShiftRightChip.ShiftRightCols) (shift_right_events r) (Some output) /\
  generate_dependencies (Cols := MulChip.MulCols) cpus r output = lookup_loop (Cols := MulChip.MulCols) (mul_events r) (Some output).
Proof.
  intros Ho. unfold add_sub_generate_dependencies, generate_dependencies.
  split_and!; rewrite dependencies_eq by done; rewrite ?concat_app, !chunks_concat by (unfold chunk_size; lia); reflexivity.
Qed.

Lemma dependencies_sequential_witness :
  add_sub_generate_dependencies 8 sample_record ExecutionRecord_default =
    lookup_loop (Cols := AddSubChip.AddSubCols) (add_events sample_record) (Some ExecutionRecord_default) /\
  (size ∘ byte_lookups <$> add_sub_generate_dependencies 8 sample_record ExecutionRecord_default) = Some 6%nat.
Proof.
  destruct (dependencies_sequential 8 sample_record ExecutionRecord_default) as (H & _).
  - intros e n. cbn. by rewrite lookup_empty.
  - split; [exact H|vm_compute; reflexivity].
Defined.
