(* ===== verification/AluTrace.v ===== *)
(** * Trace generation of the ALU chips

    [event_row] is the row the chip of an event builds for it.  A true event
    with a destination other than [x0] gets a row that passes, receives the
    message of the event and sends the byte lookups that were recorded; the
    rows of a list of events and the byte table generated from the recorded
    lookups balance.  Two chips cannot prove an instruction that writes [x0]. *)

From Stdlib Require Import ZArith Lia Bool.
From stdpp Require Import base list gmap.
From S2P Require Import Prelude Isa Events ByteLookup Record Alu Dependencies State AirBuilder ByteTable Operations ChipSpec AddSubChip BitwiseChip.
From S2P Require Import LtChip ShiftLeftChip ShiftRightChip MulChip DivRemChip Lookup AluMachine TraceGen.

Local Open Scope Z_scope.
Local Open Scope rv_scope.

(** ** Rows of events *)

Section EventRow.
  Context {R : Type} `{ByteRecord R}.

(** The chip that handles the opcode; [None] is a panic. *)
Definition event_row (e : AluEvent) (blu : R) : option (AluRow * R) :=
  match alu_opcode e with
  | ADD | SUB => let '(cols, blu) := AddSubChip.event_to_row e AddSubChip.default blu in Some (AddSubRow cols, blu)
  | XOR | OR | AND => '(cols, blu) ← BitwiseChip.event_to_row e blu; Some (BitwiseRow cols, blu)
  | SLT | SLTU => '(cols, blu) ← LtChip.event_to_row e blu; Some (LtRow cols, blu)
  | SLL => let '(cols, blu) := ShiftLeft.event_to_row e blu in Some (ShiftLeftRow cols, blu)
  | SRL | SRA => let '(cols, blu) := ShiftRightChip.event_to_row e blu in Some (ShiftRightRow cols, blu)
  | MUL | MULH | MULHU | MULHSU => let '(cols, blu) := MulChip.event_to_row e blu in Some (MulRow cols, blu)
  | DIV | DIVU | REM | REMU => '(cols, blu) ← DivRemChip.event_to_row e blu; Some (DivRemRow cols, blu)
  | _ => None
  end.

(** The rows of a list of events. *)
Fixpoint event_rows (es : list AluEvent) (blu : R) : option (list AluRow * R) :=
  match es with
  | [] => Some ([], blu)
  | e :: es => '(row, blu) ← event_row e blu; '(rows, blu) ← event_rows es blu; Some (row :: rows, blu)
  end.
End EventRow.

(** Events the chips can prove. *)
Definition provable (e : AluEvent) : Prop :=
  alu_event_ok e /\ In (alu_opcode e) alu_opcodes /\
  (alu_op_a_0 e = true -> ~ In (alu_opcode e) [ADD; SUB; SLT; SLTU]).

(** The instructions the row of an event sends. *)
Definition event_deps (e : AluEvent) : list AluEvent :=
  if bool_decide (In (alu_opcode e) [DIV; DIVU; REM; REMU]) then
    let '(q, m) := get_quotient_and_remainder (alu_b e) (alu_c e) (alu_opcode e) in divrem_deps e q m
  else [].

(** What the row of an event provides. *)
Definition row_for (e : AluEvent) (row : AluRow) (evs : list ByteLookupEvent) : Prop :=
  row_wf row /\ row_of_event e (row_calls row) evs /\
  map values (filter (fun m => ~ multiplicity m ≡F 0) (sends KInstruction (row_calls row))) ≡ₚ map event_message (event_deps e).

Lemma quiet_row_for e row evs : (forall r, row <> DivRemRow r) -> ~ In (alu_opcode e) [DIV; DIVU; REM; REMU] ->
  row_wf row -> row_of_event e (row_calls row) evs -> row_for e row evs.
Proof.
  intros Hnd Hno Hw Hr. split; [done|]. split; [done|]. rewrite quiet_row by done. unfold event_deps. by rewrite bool_decide_eq_false_2.
Qed.

Lemma event_row_complete {R} `{ByteRecord R} e (blu : R) : provable e ->
  exists row evs, event_row e blu = Some (row, add_byte_lookup_events evs blu) /\ row_for e row evs.
Proof.
  intros (He & Ho & Hx). unfold event_row.
  destruct (decide (In (alu_opcode e) [ADD; SUB])) as [H1|H1].
  { assert (alu_op_a_0 e = false) as Hz by (destruct (alu_op_a_0 e); [|done]; exfalso; apply Hx; [done|cbn in H1 |- *; tauto]).
    assert (alu_opcode e = ADD \/ alu_opcode e = SUB) as H1' by (cbn in H1; intuition).
    pose proof (add_sub_row e blu H1' He Hz) as Hrow. destruct (AddSubChip.event_to_row e AddSubChip.default blu) as [cols blu'] eqn:E.
    destruct Hrow as (Hw & -> & Hr). exists (AddSubRow cols), (add_sub_events e).
    split; [by destruct H1' as [-> | ->]|]. apply quiet_row_for; try done. destruct H1' as [-> | ->]; cbn; intuition congruence. }
  destruct (decide (In (alu_opcode e) [XOR; OR; AND])) as [H2|H2].
  { destruct (bitwise_row e blu H2 He) as (cols & evs & E & Hw & Hr). exists (BitwiseRow cols), evs.
    rewrite E. cbn [mbind option_bind]. split; [by destruct H2 as [<-|[<-|[<-|[]]]]|]. apply quiet_row_for; try done.
    destruct H2 as [<-|[<-|[<-|[]]]]; cbn; intuition congruence. }
  destruct (decide (In (alu_opcode e) [SLT; SLTU])) as [H3|H3].
  { assert (alu_op_a_0 e = false) as Hz by (destruct (alu_op_a_0 e); [|done]; exfalso; apply Hx; [done|cbn in H3 |- *; tauto]).
    destruct (lt_row e blu H3 He Hz) as (cols & evs & E & Hw & Hr). exists (LtRow cols), evs.
    rewrite E. cbn [mbind option_bind]. split; [by destruct H3 as [<-|[<-|[]]]|]. apply quiet_row_for; try done.
    destruct H3 as [<-|[<-|[]]]; cbn; intuition congruence. }
  destruct (decide (alu_opcode e = SLL)) as [H4|H4].
  { destruct (sll_row e blu H4 He) as (cols & evs & E & Hw & Hr). exists (ShiftLeftRow cols), evs.
    rewrite H4, E. split; [done|]. apply quiet_row_for; try done. rewrite H4. cbn; intuition congruence. }
  destruct (decide (In (alu_opcode e) [SRL; SRA])) as [H5|H5].
  { destruct (sr_row e blu H5 He) as (cols & evs & E & Hw & Hr). exists (ShiftRightRow cols), evs.
    rewrite E. split; [by destruct H5 as [<-|[<-|[]]]|]. apply quiet_row_for; try done.
    destruct H5 as [<-|[<-|[]]]; cbn; intuition congruence. }
  destruct (decide (In (alu_opcode e) [MUL; MULH; MULHU; MULHSU])) as [H6|H6].
  { destruct (mul_row e blu H6 He) as (cols & evs & E & Hw & Hr). exists (MulRow cols), evs.
    rewrite E. split; [by destruct H6 as [<-|[<-|[<-|[<-|[]]]]]|]. apply quiet_row_for; try done.
    destruct H6 as [<-|[<-|[<-|[<-|[]]]]]; cbn; intuition congruence. }
  assert (In (alu_opcode e) [DIV; DIVU; REM; REMU]) as H7 by (cbn in *; intuition).
  destruct (get_quotient_and_remainder (alu_b e) (alu_c e) (alu_opcode e)) as [q m] eqn:Eqm.
  destruct (divrem_row e H7 He q m Eqm blu) as (cols & evs & E & Hw & Hr & Hd). exists (DivRemRow cols), evs.
  rewrite E. cbn [mbind option_bind]. split; [by destruct H7 as [<-|[<-|[<-|[<-|[]]]]]|]. split; [done|]. split; [done|].
  unfold event_deps. rewrite bool_decide_eq_true_2, Eqm by done. exact Hd.
Qed.

(** ** The byte table of the recorded lookups *)

(** Sums over paired lists. *)
Fixpoint zsum {A B} (f : A -> B -> Z) (l : list A) (l' : list B) : Z :=
  match l, l' with x :: l, y :: l' => f x y + zsum f l l' | _, _ => 0 end.

Lemma zsum_insert {A B} (f : A -> B -> Z) l l' i x y y' : l !! i = Some x -> l' !! i = Some y ->
  zsum f l (<[i:=y']> l') = zsum f l l' + (f x y' - f x y).
Proof.
  revert l' i. induction l as [|a l IH]; intros [|b l'] [|i] Hx Hy; try discriminate; cbn in Hx, Hy.
  - injection Hx as ->. injection Hy as ->. change (<[0%nat:=y']> (y :: l')) with (y' :: l'). cbn [zsum]. ring.
  - change (<[S i:=y']> (b :: l')) with (b :: <[i:=y']> l'). cbn [zsum]. rewrite (IH l' i Hx Hy). ring.
Qed.

Lemma zsum_eqF {A B} (f g : A -> B -> Z) l l' : (forall x y, f x y ≡F g x y) -> zsum f l l' ≡F zsum g l l'.
Proof. intros H. revert l'. induction l as [|a l IH]; intros [|b l']; cbn; try done. by rewrite H, IH. Qed.

(** What a row of the table, and the table, receive of a message. *)
Definition slot_mult (v : list Z) (r : ByteChip.BytePreprocessedCols) (o : ByteOpcode.t) (x : Z) : Z :=
  if decide (same_values (ByteChip.received r o) v) then x else 0.
Definition table_mult (v : list Z) (t : list (list Z)) : Z :=
  zsum (fun r mults => zsum (slot_mult v r) ByteOpcode.all mults) ByteChip.trace t.

Lemma byte_row_mult v r mults : mult_sum v (received KByte (ByteChip.eval r mults)) = zsum (slot_mult v r) ByteOpcode.all mults.
Proof.
  unfold ByteChip.eval. generalize ByteOpcode.all. intros os. revert mults.
  induction os as [|o os IH]; intros [|x mults]; try done.
  assert (ByteChip.receive_row (ByteChip.received r o) x = [Receive (mkAirInteraction (ByteChip.received r o) x KByte) Local]) as Hrow by (by destruct o).
  cbn [zip zip_with flat_map zsum]. rewrite Hrow, received_app, mult_sum_app, IH. unfold slot_mult at 2.
  change (received KByte [Receive (mkAirInteraction (ByteChip.received r o) x KByte) Local]) with
    [mkAirInteraction (ByteChip.received r o) x KByte]. cbn [mult_sum values multiplicity]. ring.
Qed.

Lemma byte_table_mult v t : mult_sum v (received KByte (concat (zip_with ByteChip.eval ByteChip.trace t))) = table_mult v t.
Proof.
  unfold table_mult. generalize ByteChip.trace. intros rows. revert t. induction rows as [|r rows IH]; intros [|x t]; try done.
  cbn [zip_with concat zsum]. by rewrite received_app, mult_sum_app, byte_row_mult, IH.
Qed.

Lemma flat_map_lookup {A B} (f : A -> list B) l n i j x : (forall y, length (f y) = n) -> l !! i = Some x -> (j < n)%nat ->
  flat_map f l !! (i * n + j)%nat = f x !! j.
Proof.
  intros Hn. revert i. induction l as [|y l IH]; intros [|i] Hx Hj; try discriminate; cbn [flat_map].
  - injection Hx as ->. by rewrite lookup_app_l by (rewrite Hn; lia).
  - rewrite lookup_app_r by (rewrite Hn; lia). rewrite Hn. replace (S i * n + j - n)%nat with (i * n + j)%nat by lia. by apply IH.
Qed.

Lemma zseq_lookup s n i : (i < n)%nat -> zseq s n !! i = Some (s + Z.of_nat i).
Proof.
  intros Hi. unfold zseq. rewrite list_lookup_fmap, lookup_seq_lt by done. done.
Qed.

Lemma trace_lookup b c : is_u8 b -> is_u8 c -> ByteChip.trace !! Z.to_nat (b * 256 + c) = Some (ByteChip.row b c).
Proof.
  rewrite !is_u8_iff. intros Hb Hc. replace (Z.to_nat (b * 256 + c)) with (Z.to_nat b * 256 + Z.to_nat c)%nat by lia.
  assert (forall z, 0 <= z < 256 -> ByteChip.bytes !! Z.to_nat z = Some z) as Hbytes.
  { intros z Hz. unfold ByteChip.bytes. rewrite zseq_lookup by lia. f_equal. lia. }
  unfold ByteChip.trace. rewrite (flat_map_lookup _ _ 256 _ _ b); [|intros y; by rewrite length_map|by apply Hbytes|lia].
  rewrite list_lookup_fmap, Hbytes by done. done.
Qed.

(** The slot of a lookup holds its message. *)
Lemma event_slot e : event_found e -> exists r, ByteChip.trace !! Z.to_nat (ByteChip.lookup_row e) = Some r /\
  0 <= ByteChip.lookup_row e < ByteChip.NUM_ROWS /\ ByteChip.received r (bl_opcode e) = event_values e.
Proof.
  intros (b & c & Hb & Hc & E). unfold ByteChip.lookup_row. change ByteChip.NUM_ROWS with 65536. pose proof (proj1 (is_u8_iff b) Hb). pose proof (proj1 (is_u8_iff c) Hc).
  assert (forall b c, is_u8 b -> is_u8 c -> u16 (u16 (Z.shiftl b 8) + c) = b * 256 + c) as Hrow.
  { clear. intros b c. rewrite !is_u8_iff. intros. rewrite Z.shiftl_mul_pow2 by lia. unfold u16, wrap.
    change (2 ^ 8) with 256. change (2 ^ 16) with 65536. rewrite (Z.mod_small (b * 256)) by lia. rewrite Z.mod_small by lia. done. }
  destruct e as [o a1 a2 eb ec]. unfold event_values in *. cbn [bl_opcode bl_a1 bl_a2 bl_b bl_c] in *.
  case_bool_decide as Eo; [subst o|].
  - exists (ByteChip.row b c). unfold ByteChip.row in *. destruct (ByteChip.shr_carry b c) as [sh ca] eqn:Es. cbn in E.
    injection E as -> -> -> ->. assert (Z.shiftl b 8 + c = b * 256 + c) as Esh by (by rewrite Z.shiftl_mul_pow2).
    pose proof (trace_lookup b c Hb Hc) as Ht. unfold ByteChip.row in Ht. rewrite Es, <- Esh in Ht.
    split; [exact Ht|]. split; [rewrite Esh; lia|reflexivity].
  - assert (eb = b /\ (o <> ByteOpcode.MSB -> ec = c) /\ (o = ByteOpcode.MSB -> ec = 0)) as (-> & E1 & E2).
    { unfold ByteChip.row in E. destruct (ByteChip.shr_carry b c). destruct o; cbn in E; injection E; intros; subst; done. }
    destruct (decide (o = ByteOpcode.MSB)) as [->|Hne].
    + rewrite (E2 eq_refl) in *. rewrite Hrow by done. exists (ByteChip.row b 0). rewrite trace_lookup by done.
      split; [done|]. split; [lia|]. rewrite E. unfold ByteChip.row. by destruct (ByteChip.shr_carry b c), (ByteChip.shr_carry b 0).
    + rewrite (E1 Hne) in *. rewrite Hrow by done. exists (ByteChip.row b c). rewrite trace_lookup by done. split; [done|]. split; [lia|done].
Qed.

(** Tables of the right shape. *)
Definition table_ok (t : list (list Z)) : Prop := Z.of_nat (length t) = ByteChip.NUM_ROWS /\ Forall (fun mults => length mults = 9%nat) t.

Lemma add_mult_ok e x t : event_found e -> table_ok t -> exists t', ByteChip.add_mult e x t = Some t' /\ table_ok t' /\
  forall v, table_mult v t' ≡F table_mult v t + (if decide (same_values (event_values e) v) then x else 0).
Proof.
  intros He (Hl & Ht). destruct (event_slot e He) as (r & Hr & Hlt & Ev). unfold ByteChip.add_mult.
  destruct (lookup_lt_is_Some_2 t (Z.to_nat (ByteChip.lookup_row e)) ltac:(lia)) as [mults Em].
  pose proof (Forall_lookup_1 _ _ _ _ Ht Em) as Hm. cbn beta in Hm.
  assert (exists k, (k < 9)%nat /\ k = Z.to_nat (ByteOpcode.as_u8 (bl_opcode e)) /\ ByteOpcode.all !! k = Some (bl_opcode e)) as (k & Hk & Ek & Eo).
  { eexists. split; [|split; [reflexivity|by destruct (bl_opcode e)]]. destruct (bl_opcode e); cbn; lia. }
  rewrite <- Ek. destruct (lookup_lt_is_Some_2 mults k ltac:(lia)) as [old Eold]. rewrite Em. cbn [mbind option_bind]. rewrite Eold.
  cbn [mbind option_bind]. eexists. split; [reflexivity|]. split.
  - split; [by rewrite length_insert|]. apply Forall_insert; [done|]. by rewrite length_insert.
  - intros v. unfold table_mult. rewrite (zsum_insert _ _ _ _ _ _ _ Hr Em), (zsum_insert _ _ _ _ _ _ _ Eo Eold).
    assert (slot_mult v r (bl_opcode e) (Fred (old + x)) - slot_mult v r (bl_opcode e) old ≡F
      if decide (same_values (event_values e) v) then x else 0) as Hslot.
    { unfold slot_mult. rewrite Ev. case_decide; [|done]. rewrite Fred_eqF. apply eqF_diff. exists 0. ring. }
    set (T := zsum _ _ t). set (S := zsum (slot_mult v r) ByteOpcode.all mults). rewrite <- Hslot. apply eqF_diff. exists 0. ring.
Qed.

(** Sums over lists, which permutations keep. *)
Definition lsum {A} (f : A -> Z) (l : list A) : Z := fold_right (fun x acc => f x + acc) 0 l.

#[export] Instance lsum_perm {A} (f : A -> Z) : Proper ((≡ₚ) ==> eq) (lsum f).
Proof. intros l l' H. unfold lsum. induction H; cbn; lia. Qed.

Lemma lsum_app {A} (f : A -> Z) l l' : lsum f (l ++ l') = lsum f l + lsum f l'.
Proof. unfold lsum. induction l as [|x l IH]; cbn; [done|]. rewrite IH. lia. Qed.

Definition event_mult (v : list Z) (p : ByteLookupEvent * Z) : Z :=
  if decide (same_values (event_values p.1) v) then p.2 else 0.

Lemma empty_table : let zero := replicate (Z.to_nat ByteChip.NUM_ROWS) (replicate (Z.to_nat NUM_BYTE_OPS) 0) in
  table_ok zero /\ forall v, table_mult v zero = 0.
Proof.
  intros zero. split.
  - assert (forall n, 0 <= n -> Z.of_nat (length (replicate (Z.to_nat n) (replicate (Z.to_nat NUM_BYTE_OPS) 0))) = n) as Hlen.
    { intros n Hn. rewrite length_replicate. by apply Z2Nat.id. }
    split; [apply Hlen; unfold ByteChip.NUM_ROWS; rewrite Z.shiftl_1_l; apply Z.pow_nonneg; lia|]. subst zero.
    generalize (Z.to_nat ByteChip.NUM_ROWS). intros n. apply Forall_replicate. reflexivity.
  - intros v. subst zero. unfold table_mult. generalize ByteChip.trace (Z.to_nat ByteChip.NUM_ROWS). intros rows n.
    assert (forall r, zsum (slot_mult v r) ByteOpcode.all (replicate (Z.to_nat NUM_BYTE_OPS) 0) = 0) as H0.
    { intros r. unfold slot_mult. cbn. by repeat case_decide. }
    revert n. induction rows as [|r rows IH]; intros [|n]; try reflexivity. cbn [replicate zsum]. by rewrite H0, IH.
Qed.

Lemma generate_trace_ok (lookups : gmap ByteLookupEvent Z) : (forall e x, lookups !! e = Some x -> event_found e) ->
  exists t, ByteChip.generate_trace lookups = Some t /\ table_ok t /\
    forall v, table_mult v t ≡F lsum (event_mult v) (map_to_list lookups).
Proof.
  intros Hf. unfold ByteChip.generate_trace.
  assert (forall l t, Forall (fun p : ByteLookupEvent * Z => event_found p.1) l -> table_ok t -> exists t',
    fold_left (fun acc '(e, mult) => t ← acc; ByteChip.add_mult e mult t) l (Some t) = Some t' /\ table_ok t' /\
    forall v, table_mult v t' ≡F table_mult v t + lsum (event_mult v) l) as H.
  { induction l as [|[e x] l IH]; intros t Hl Ht; cbn [fold_left].
    - exists t. split_and!; [reflexivity|exact Ht|]. intros v. cbn [lsum fold_right]. by rewrite Z.add_0_r.
    - apply Forall_cons in Hl as [He Hl]. destruct (add_mult_ok e x t He Ht) as (t1 & E1 & Ht1 & Hs1).
      destruct (IH t1 Hl Ht1) as (t2 & E2 & Ht2 & Hs2). exists t2. cbn [mbind option_bind]. rewrite E1. split_and!; [exact E2|exact Ht2|].
      intros v. rewrite Hs2, Hs1. cbn [lsum fold_right]. unfold event_mult at 2. cbn [fst snd]. apply eqF_diff. exists 0. unfold lsum. ring. }
  destruct empty_table as (Hz & Hz0). set (zero := replicate (Z.to_nat ByteChip.NUM_ROWS) _) in *. clearbody zero.
  destruct (H (map_to_list lookups) zero) as (t & E & Ht & Hs).
  - apply Forall_forall. intros [e x] Hin%elem_of_map_to_list. by apply (Hf e x).
  - exact Hz.
  - exists t. split_and!; [exact E|exact Ht|]. intros v. by rewrite Hs, Hz0.
Qed.

(** The counts of a record of events. *)
Lemma counted_events v evs : Z.of_nat (length evs) < 2 ^ 64 ->
  lsum (event_mult v) (map_to_list (add_byte_lookup_events evs ∅ : gmap ByteLookupEvent Z)) =
    lsum (fun e => if decide (same_values (event_values e) v) then 1 else 0) evs /\
  (forall e x, (add_byte_lookup_events evs ∅ : gmap ByteLookupEvent Z) !! e = Some x -> e ∈ evs /\ 0 < x <= Z.of_nat (length evs)).
Proof.
  induction evs as [|e evs IH] using rev_ind; intros Hl.
  { cbn. split; [by rewrite map_to_list_empty|]. intros e x. by rewrite lookup_empty. }
  rewrite length_app in Hl. cbn [length] in Hl. destruct IH as [IH1 IH2]; [lia|].
  rewrite add_byte_lookup_events_app. set (m := add_byte_lookup_events evs ∅ : gmap ByteLookupEvent Z) in *. cbn [add_byte_lookup_events fold_left].
  rewrite lsum_app, <- IH1. cbn [lsum fold_right]. rewrite Z.add_0_r. unfold add_byte_lookup_event, map_ByteRecord. split.
  - destruct (m !! e) as [n|] eqn:E.
    + destruct (IH2 e n E) as [_ Hn]. rewrite u64_small by (unfold in_u; lia).
      rewrite <- (insert_delete_eq m e (n + 1)). rewrite <- (insert_delete_id m e n E) at 2.
      rewrite !map_to_list_insert by apply lookup_delete_eq. cbn [lsum fold_right]. unfold event_mult at 1 3. cbn [fst snd]. case_decide; lia.
    + rewrite map_to_list_insert by done. cbn [lsum fold_right]. unfold event_mult at 1. cbn [fst snd]. unfold lsum. lia.
  - intros e' x. rewrite length_app. cbn [length]. destruct (decide (e = e')) as [<-|Hne].
    + rewrite lookup_insert_eq. intros [= <-]. split; [apply elem_of_app; right; by apply list_elem_of_singleton|].
      destruct (m !! e) as [n|] eqn:E; [|lia]. destruct (IH2 e n E) as [_ Hn]. rewrite u64_small by (unfold in_u; lia). lia.
    + rewrite lookup_insert_ne by done. intros Hx. destruct (IH2 e' x Hx) as [Hin Hb]. split; [apply elem_of_app; by left|lia].
Qed.

(** What a row sends of a message, when it is the row of an event. *)
Lemma row_byte_mult e row evs v : row_for e row evs ->
  mult_sum v (sent KByte (row_calls row)) ≡F lsum (fun e => if decide (same_values (event_values e) v) then 1 else 0) evs.
Proof.
  intros (Hw & (Hh & Hp & Hf & m & Hm & Hm1 & Hmv) & _). pose proof (alu_row_shape row Hh) as Hs.
  assert (Forall (fun m => boolean (multiplicity m)) (sends KByte (row_calls row))) as Hb.
  { apply (shape_bytes _ Hs). intros m' Hin Hz.
    assert (m' ∈ received_messages (row_calls row)) as Hin' by (unfold received_messages; by apply list_elem_of_filter).
    rewrite Hm in Hin'. apply list_elem_of_singleton in Hin' as ->.
    unfold msg_op_a_0. rewrite (same_values_msg _ _ 18 Hmv). unfold msg. cbn. destruct (alu_op_a_0 e); [by right|by left]. }
  unfold sent. rewrite local_sends by apply (shape_local _ Hs).
  transitivity (lsum (fun w => if decide (same_values w v) then 1 else 0) (byte_messages (row_calls row))).
  - unfold byte_messages. induction Hb as [|x l Hx _ IH]; [done|]. cbn [mult_sum]. rewrite filter_cons. destruct Hx as [Hx|Hx].
    + rewrite (decide_False (P := ~ multiplicity x ≡F 0)) by (intros Hn; by apply Hn). rewrite <- IH.
      assert ((if decide (same_values (values x) v) then multiplicity x else 0) ≡F 0) as -> by (by case_decide). done.
    + rewrite (decide_True (P := ~ multiplicity x ≡F 0)) by (rewrite Hx; apply zero_ne_one). cbn [map lsum fold_right]. fold (lsum (fun w => if decide (same_values w v) then 1 else 0)).
      rewrite <- IH. by case_decide; rewrite ?Hx.
  - rewrite Hp. clear. induction evs as [|x l IH]; cbn [map lsum fold_right]; [done|].
    fold (lsum (fun e => if decide (same_values (event_values e) v) then 1 else 0) l).
    fold (lsum (fun w => if decide (same_values w v) then 1 else 0) (map event_values l)). by rewrite IH.
Qed.

Lemma event_rows_complete {R} `{ByteRecord R} es (blu : R) : Forall provable es ->
  exists rows evss, event_rows es blu = Some (rows, add_byte_lookup_events (concat evss) blu) /\
    Forall3 row_for es rows evss.
Proof.
  intros Hes. revert blu. induction Hes as [|e es He _ IH]; intros blu; cbn [event_rows].
  - exists [], []. split; [done|constructor].
  - destruct (event_row_complete e blu He) as (row & evs & E & Hr). rewrite E. cbn [mbind option_bind].
    destruct (IH (add_byte_lookup_events evs blu)) as (rows & evss & E' & Hrs). rewrite E'. cbn [mbind option_bind].
    exists (row :: rows), (evs :: evss). split; [|by constructor]. cbn [concat]. by rewrite add_byte_lookup_events_app.
Qed.

Lemma byte_rows_send_nothing t : sent KByte (concat (zip_with ByteChip.eval ByteChip.trace t)) = [].
Proof.
  destruct (sent KByte _) as [|m l] eqn:E; [reflexivity|]. exfalso.
  assert (m ∈ sent KByte (concat (zip_with ByteChip.eval ByteChip.trace t))) as Hm by (rewrite E; by left).
  apply sent_concat in Hm as (row & Hr & Hm). destruct (byte_row_calls (mkAluShard [] t []) row Hr) as (E' & _).
  rewrite E' in Hm. by apply not_elem_of_nil in Hm.
Qed.

(** The rows of the events and the byte table of their lookups. *)
Lemma trace_bytes_balanced es : Forall provable es ->
  exists rows evs, event_rows es (∅ : gmap ByteLookupEvent Z) = Some (rows, add_byte_lookup_events evs ∅) /\
    Forall row_wf rows /\ Forall (fun row => all_hold (row_calls row)) rows /\
    (Z.of_nat (length evs) < 2 ^ 64 -> exists t, ByteChip.generate_trace (add_byte_lookup_events evs ∅) = Some t /\
      balanced Local KByte (concat (map row_calls rows ++ zip_with ByteChip.eval ByteChip.trace t))).
Proof.
  intros Hes. destruct (event_rows_complete es (∅ : gmap ByteLookupEvent Z) Hes) as (rows & evss & E & Hr).
  exists rows, (concat evss). split; [done|].
  assert (Forall row_wf rows /\ Forall (fun row => all_hold (row_calls row)) rows /\ Forall event_found (concat evss) /\
    forall v, mult_sum v (sent KByte (concat (map row_calls rows))) ≡F
      lsum (fun e => if decide (same_values (event_values e) v) then 1 else 0) (concat evss) /\
      mult_sum v (received KByte (concat (map row_calls rows))) = 0) as (H1 & H2 & H3 & H4).
  { clear E Hes. induction Hr as [|e row evs es rows evss Hrow _ IH]; [split_and!; constructor; done|].
    destruct IH as (I1 & I2 & I3 & I4). pose proof Hrow as (Hw & (Hh & _ & Hf & _) & _).
    split; [by constructor|]. split; [by constructor|]. split; [by apply Forall_app|]. intros v. destruct (I4 v) as [J1 J2].
    cbn [map concat]. rewrite sent_app, received_app, !mult_sum_app, lsum_app, J2. split; [by rewrite J1, (row_byte_mult e row evs v Hrow)|].
    unfold received. by rewrite local_receives, (shape_no_table _ (alu_row_shape row Hh)) by apply (shape_local _ (alu_row_shape row Hh)). }
  split; [done|]. split; [done|]. intros Hlen. destruct (counted_events [] (concat evss) Hlen) as [_ Hin].
  destruct (generate_trace_ok (add_byte_lookup_events (concat evss) ∅)) as (t & Et & _ & Hs).
  { intros e x Hx. destruct (Hin e x Hx) as [Hin' _]. rewrite Forall_forall in H3. by apply H3. }
  exists t. split; [exact Et|]. intros v. destruct (H4 v) as [S1 S2]. destruct (counted_events v (concat evss) Hlen) as [Hc _].
  change (mult_sum v (sent KByte (concat (map row_calls rows ++ zip_with ByteChip.eval ByteChip.trace t))) ≡F
    mult_sum v (received KByte (concat (map row_calls rows ++ zip_with ByteChip.eval ByteChip.trace t)))).
  rewrite concat_app, sent_app, received_app, !mult_sum_app, S1, S2, byte_table_mult, Hs, Hc, byte_rows_send_nothing. cbn [mult_sum].
  by rewrite Z.add_0_r, Z.add_0_l.
Qed.

(** ** Events that write [x0] *)

(** The message the row of an AddSub event receives. *)
Lemma add_sub_event_message {R} `{ByteRecord R} e (blu : R) : alu_opcode e = ADD \/ alu_opcode e = SUB -> alu_event_ok e ->
  let '(cols, _) := AddSubChip.event_to_row e AddSubChip.default blu in
  let is_add := bool_decide (alu_opcode e = ADD) in
  let op1 := if is_add then alu_b e else alu_a e in
  exists m, received_messages (AddSubChip.eval cols) = [m] /\
    msg_a (values m) = word_from (if is_add then op1 +u alu_c e else op1) /\
    msg_b (values m) = word_from (if is_add then op1 else op1 +u alu_c e).
Proof.
  intros Ho He. pose proof (add_sub_event_row e blu Ho He) as Hrow.
  pose proof (add_sub_received (AddSubChip.event_to_row e AddSubChip.default blu).1 (bool_decide (alu_opcode e = ADD)) (alu_op_a_0 e)) as Hrec.
  unfold AddSubChip.event_to_row in *. destruct (AddOperation.populate _ _ _ _) as [[cols blu'] v] eqn:E. cbn [fst] in *.
  destruct Hrow as (_ & _ & _ & _ & O1 & V). destruct (Hrec eq_refl eq_refl eq_refl) as (m & Hm & _ & Ev). exists m. split; [done|].
  rewrite Ev, msg_a_eq, msg_b_eq, O1, V. by destruct (bool_decide _); rewrite !word_Fred by auto with rvbound.
Qed.

Lemma to_u32_word_from_inj x y : is_u32 x -> is_u32 y -> word_from x = word_from y -> x = y.
Proof. intros Hx Hy E. apply (f_equal to_u32) in E. by rewrite !to_u32_word_from in E. Qed.

Lemma add_sub_x0_differs {R} `{ByteRecord R} e (blu : R) : alu_opcode e = ADD \/ alu_opcode e = SUB -> alu_event_ok e ->
  alu_op_a_0 e = true -> alu_result (alu_opcode e) (alu_b e) (alu_c e) <> Some 0 ->
  let '(cols, _) := AddSubChip.event_to_row e AddSubChip.default blu in
  forall m, m ∈ received_messages (AddSubChip.eval cols) -> ~ same_values (values m) (event_message e).
Proof.
  intros Ho He Hz Hr. pose proof (add_sub_event_message e blu Ho He) as Hm.
  destruct (AddSubChip.event_to_row e AddSubChip.default blu) as [cols blu']. destruct Hm as (m & Hm & Ea & Eb).
  intros m' Hin Hs. rewrite Hm in Hin. apply list_elem_of_singleton in Hin as ->. destruct (same_message _ _ Hs) as (_ & _ & Fa & Fb & _).
  unfold event_message in Fa, Fb. rewrite msg_a_eq, word_Fred in Fa by auto with rvbound. rewrite msg_b_eq, word_Fred in Fb by auto with rvbound.
  destruct He as (Hb & Hc & Ha). rewrite Hz in Ha. rewrite Ha in *. rewrite Ea in Fa. rewrite Eb in Fb. apply Hr.
  assert (forall x, is_u32 (x +u alu_c e)) as Hu by (intros x; apply wrap_range; lia).
  destruct Ho as [E|E]; rewrite E in *; cbn [alu_result]; f_equal.
  - rewrite bool_decide_eq_true_2 in Fa by done. apply to_u32_word_from_inj in Fa; done.
  - rewrite bool_decide_eq_false_2 in Fb by done. apply to_u32_word_from_inj in Fb; [|done..].
    rewrite <- Fb. unfold wadd, wsub. rewrite Z.add_0_l. change (u32 (alu_c e)) with (wrap 32 (alu_c e)).
    rewrite (wrap_small 32 (alu_c e)) by done. by rewrite Z.sub_diag.
Qed.

(** C36. An ADD, SUB, SLT or SLTU with destination [x0] whose result is not 0
    cannot be proved: the row construction panics (SLT, SLTU) or builds a row
    that answers a different instruction (ADD, SUB). *)
Theorem x0_rows_fail {R} `{ByteRecord R} e (blu : R) : In (alu_opcode e) [ADD; SUB; SLT; SLTU] -> alu_event_ok e ->
  alu_op_a_0 e = true -> alu_result (alu_opcode e) (alu_b e) (alu_c e) <> Some 0 ->
  ~ exists row blu' m, event_row e blu = Some (row, blu') /\ m ∈ received_messages (row_calls row) /\
      same_values (values m) (event_message e).
Proof.
  intros Ho He Hz Hr (row & blu' & m & E & Hm & Hs). unfold event_row in E.
  destruct (decide (alu_opcode e = ADD \/ alu_opcode e = SUB)) as [Ha|Ha].
  - pose proof (add_sub_x0_differs e blu Ha He Hz Hr) as Hd. destruct (AddSubChip.event_to_row e AddSubChip.default blu) as [cols b'].
    assert (row = AddSubRow cols) as -> by (destruct Ha as [E'|E']; rewrite E' in E; congruence). by apply (Hd m).
  - assert (In (alu_opcode e) [SLT; SLTU]) as Hl by (cbn in Ho |- *; intuition congruence).
    rewrite (lt_x0_panics e blu Hl He Hz) in E; [destruct Hl as [E'|[E'|[]]]; by rewrite <- E' in E|].
    destruct Hl as [E'|[E'|[]]]; rewrite <- E' in Hr |- *; cbn [alu_result] in Hr.
    + change ((i32 (alu_b e) <? i32 (alu_c e)) = true). by destruct (i32 (alu_b e) <? i32 (alu_c e)).
    + change ((alu_b e <? alu_c e) = true). by destruct (alu_b e <? alu_c e).
Qed.

Lemma x0_rows_fail_witness :
  let e := mkAluEvent 4 ADD 0 1 2 true in
  ~ exists row blu' m, event_row e ([] : list ByteLookupEvent) = Some (row, blu') /\ m ∈ received_messages (row_calls row) /\
      same_values (values m) (event_message e).
Proof.
  intros e. apply x0_rows_fail; [by left|split_and!; done|done|done].
Defined.

(** ** Claims *)

(** C8. Every true ALU event, other than an ADD, SUB, SLT or SLTU that writes
    [x0], gets a row: the columns are well formed, every constraint holds, the
    row receives exactly the message of the event, sends exactly the byte
    lookups it recorded, all of them in the byte table, and sends exactly the
    instructions it depends on. *)
Theorem alu_rows_complete {R} `{ByteRecord R} e (blu : R) : provable e ->
  exists row evs, event_row e blu = Some (row, add_byte_lookup_events evs blu) /\ row_for e row evs.
Proof. apply event_row_complete. Qed.

Lemma alu_rows_complete_witness :
  let e := mkAluEvent 16 REM (2 ^ 32 - 1) (2 ^ 32 - 7) 2 false in
  exists row evs, event_row e ([] : list ByteLookupEvent) = Some (row, add_byte_lookup_events evs []) /\ row_for e row evs.
Proof.
  intros e. apply alu_rows_complete. split_and!; [split_and!; vm_compute; done|cbn; tauto|done].
Defined.

(** The rows the ALU chips build for provable events pass, and with the
    table the byte chip generates from the lookups they recorded, every byte
    lookup is sent as often as it is received. *)
Theorem alu_bytes_balanced es : Forall provable es ->
  exists rows evs, event_rows es (∅ : gmap ByteLookupEvent Z) = Some (rows, add_byte_lookup_events evs ∅) /\
    Forall row_wf rows /\ Forall (fun row => all_hold (row_calls row)) rows /\
    (Z.of_nat (length evs) < 2 ^ 64 -> exists t, ByteChip.generate_trace (add_byte_lookup_events evs ∅) = Some t /\
      balanced Local KByte (concat (map row_calls rows ++ zip_with ByteChip.eval ByteChip.trace t))).
Proof. apply trace_bytes_balanced. Qed.

Lemma alu_bytes_balanced_witness :
  let es := [mkAluEvent 4 ADD 7 3 4 false; mkAluEvent 8 SLT 1 (2 ^ 32 - 1) 0 false] in
  exists rows evs, event_rows es (∅ : gmap ByteLookupEvent Z) = Some (rows, add_byte_lookup_events evs ∅) /\
    Forall row_wf rows /\ Forall (fun row => all_hold (row_calls row)) rows /\
    (Z.of_nat (length evs) < 2 ^ 64 -> exists t, ByteChip.generate_trace (add_byte_lookup_events evs ∅) = Some t /\
      balanced Local KByte (concat (map row_calls rows ++ zip_with ByteChip.eval ByteChip.trace t))).
Proof.
  intros es. apply alu_bytes_balanced. repeat apply Forall_cons_2; [| |apply Forall_nil_2];
    (split_and!; [split_and!; vm_compute; done|cbn; tauto|done]).
Defined.

(** The rows that fill the tables of the ALU chips up to their height. *)
Definition padding_rows : list AluRow :=
  [AddSubRow AddSubChip.default; BitwiseRow BitwiseChip.default; LtRow lt_zero_row; ShiftLeftRow ShiftLeft.padded_row_template;
   ShiftRightRow ShiftRightChip.padding_row; MulRow MulChip.padding_row; DivRemRow DivRemChip.padded_row_template].

(** The padding rows of the seven ALU chips satisfy their constraints and
    neither send nor receive anything. *)
Theorem padding_rows_silent : Forall (fun row => silent_row (row_calls row)) padding_rows.
Proof.
  unfold padding_rows. repeat apply Forall_cons_2; [| | | | | |exact (proj2 divrem_padding)|apply Forall_nil_2];
    (split; [apply (debug_constraints_hold (FB := nonzero_filter)); by vm_compute|intros k; by destruct k]).
Qed.
