(* ===== verification/ControlFlow.v ===== *)
(** * The control-flow chips (crates/core/machine/src/control_flow)

    The Branch, Jump and Auipc chips: one row per instruction that sets or reads
    the program counter. *)

From Stdlib Require Import ZArith Lia Bool.
From stdpp Require Import base list.
From S2P Require Import Prelude Isa Events ByteLookup Record Alu Dependencies State AirBuilder ByteTable Operations ChipSpec.

Local Open Scope Z_scope.
Local Open Scope rv_scope.

(** * The Branch chip (crates/core/machine/src/control_flow/branch)

    One row per branch.  The Lt chip compares the operands both ways, the AddSub
    chip computes the target of a taken branch, and the row checks that the
    branch is taken exactly when its condition holds. *)

Module BranchChip.
Record BranchColumns : Type := mkBranchColumns {
  pc : Word;
  pc_range_checker : BabyBearWordRangeChecker.BabyBearWordRangeChecker;
  next_pc : Word;
  next_pc_range_checker : BabyBearWordRangeChecker.BabyBearWordRangeChecker;
  op_a_value : Word;
  op_b_value : Word;
  op_c_value : Word;
  op_a_0 : Z;
  is_beq : Z; is_bne : Z; is_blt : Z; is_bge : Z; is_bltu : Z; is_bgeu : Z;
  is_branching : Z;
  not_branching : Z;
  a_eq_b : Z; a_gt_b : Z; a_lt_b : Z
}.

Definition use_signed_comparison (o : Opcode) : bool := match o with BLT | BGE => true | _ => false end.

(** [None]: [unreachable!()]. *)
Definition branching (o : Opcode) (a_eq_b a_lt_b a_gt_b : bool) : option bool :=
  match o with
  | BEQ => Some a_eq_b
  | BNE => Some (negb a_eq_b)
  | BLT | BLTU => Some a_lt_b
  | BGE | BGEU => Some (a_eq_b || a_gt_b)
  | _ => None
  end.

Definition event_to_row {R} `{ByteRecord R} (event : BranchEvent) (blu : R) : option (BranchColumns * R) :=
  let o := br_opcode event in
  let flag o' := from_bool (bool_decide (o = o')) in
  let a := br_a event in
  let b := br_b event in
  let a_eq_b := a =? b in
  let a_lt_b := if use_signed_comparison o then i32 a <? i32 b else a <? b in
  let a_gt_b := if use_signed_comparison o then i32 b <? i32 a else b <? a in
  branching ← branching o a_eq_b a_lt_b a_gt_b;
  let pc := word_from (br_pc event) in
  let next_pc := word_from (br_next_pc event) in
  let '(pc_range_checker, blu) := BabyBearWordRangeChecker.populate pc blu in
  let '(next_pc_range_checker, blu) := BabyBearWordRangeChecker.populate next_pc blu in
  Some (mkBranchColumns pc pc_range_checker next_pc next_pc_range_checker
    (word_from a) (word_from b) (word_from (br_c event)) (from_bool (br_op_a_0 event))
    (flag BEQ) (flag BNE) (flag BLT) (flag BGE) (flag BLTU) (flag BGEU)
    (from_bool branching) (from_bool (negb branching))
    (from_bool a_eq_b) (from_bool a_gt_b) (from_bool a_lt_b), blu).

Definition is_real (local : BranchColumns) : Z :=
  is_beq local + is_bne local + is_blt local + is_bge local + is_bltu local + is_bgeu local.

Definition send_alu (opcode : Z) (a b c : Word) (multiplicity : Z) : list Call :=
  send_instruction 0 0 UNUSED_PC (UNUSED_PC + DEFAULT_PC_INC) 0 opcode a b c 0 0 0 0 0 multiplicity.

Definition eval (local : BranchColumns) : list Call :=
  let is_real := is_real local in
  let opcode := is_beq local * opcode_u32 BEQ + is_bne local * opcode_u32 BNE + is_blt local * opcode_u32 BLT
    + is_bge local * opcode_u32 BGE + is_bltu local * opcode_u32 BLTU + is_bgeu local * opcode_u32 BGEU in
  let use_signed_comparison := is_blt local + is_bge local in
  let compare := use_signed_comparison * opcode_u32 SLT + (1 - use_signed_comparison) * opcode_u32 SLTU in
  map AssertBool [is_beq local; is_bne local; is_blt local; is_bge local; is_bltu local; is_bgeu local; is_real] ++
  receive_instruction 0 0 (reduce (pc local)) (reduce (next_pc local)) 0 opcode
    (op_a_value local) (op_b_value local) (op_c_value local) (op_a_0 local) 1 0 0 0 is_real ++
  BabyBearWordRangeChecker.range_check (pc local) (pc_range_checker local) is_real ++
  BabyBearWordRangeChecker.range_check (next_pc local) (next_pc_range_checker local) is_real ++
  send_alu (opcode_u32 ADD) (next_pc local) (pc local) (op_c_value local) (is_branching local) ++
  when is_real (when (not_branching local) [AssertEq (reduce (pc local) + DEFAULT_PC_INC) (reduce (next_pc local))]) ++
  when (not_branching local) [AssertOne is_real] ++
  when_not is_real [AssertZero (is_branching local)] ++
  when is_real [AssertOne (is_branching local + not_branching local)] ++
  when is_real [AssertBool (is_branching local)] ++
  when is_real [AssertBool (not_branching local)] ++
  when (is_beq local * is_branching local) [AssertOne (a_eq_b local)] ++
  when (is_beq local) (when_not (is_branching local) [AssertOne (a_gt_b local + a_lt_b local)]) ++
  when (is_bne local * is_branching local) [AssertOne (a_gt_b local + a_lt_b local)] ++
  when (is_bne local) (when_not (is_branching local) [AssertOne (a_eq_b local)]) ++
  when ((is_blt local + is_bltu local) * is_branching local) [AssertOne (a_lt_b local)] ++
  when (is_blt local + is_bltu local) (when_not (is_branching local) [AssertOne (a_eq_b local + a_gt_b local)]) ++
  when ((is_bge local + is_bgeu local) * is_branching local) [AssertOne (a_gt_b local + a_eq_b local)] ++
  when (is_bge local + is_bgeu local) (when_not (is_branching local) [AssertOne (a_lt_b local)]) ++
  when (is_real * a_eq_b local) (assert_word_eq (op_a_value local) (op_b_value local)) ++
  send_alu compare (extend_var (a_lt_b local)) (op_a_value local) (op_b_value local) is_real ++
  send_alu compare (extend_var (a_gt_b local)) (op_b_value local) (op_a_value local) is_real.

Definition wf (r : BranchColumns) : Prop :=
  Forall word_canon [pc r; next_pc r; op_a_value r; op_b_value r; op_c_value r] /\
  BabyBearWordRangeChecker.wf (pc_range_checker r) /\ BabyBearWordRangeChecker.wf (next_pc_range_checker r) /\
  Forall canon [op_a_0 r; is_beq r; is_bne r; is_blt r; is_bge r; is_bltu r; is_bgeu r; is_branching r; not_branching r;
    a_eq_b r; a_gt_b r; a_lt_b r].
End BranchChip.
Import BranchChip.

Definition branch_opcodes : list Opcode := [BEQ; BNE; BLT; BGE; BLTU; BGEU].

Definition branch_sends (r : BranchColumns) : list AirInteraction :=
  let compare := (is_blt r + is_bge r) * opcode_u32 SLT + (1 - (is_blt r + is_bge r)) * opcode_u32 SLTU in
  let dep o a b c mult := mkAirInteraction
    (instruction_values 0 0 UNUSED_PC (UNUSED_PC + DEFAULT_PC_INC) 0 o a b c 0 0 0 0 0) mult KInstruction in
  [dep (opcode_u32 ADD) (next_pc r) (pc r) (op_c_value r) (is_branching r);
   dep compare (extend_var (a_lt_b r)) (op_a_value r) (op_b_value r) (is_real r);
   dep compare (extend_var (a_gt_b r)) (op_b_value r) (op_a_value r) (is_real r)].

Lemma branch_sends_eq r : sends KInstruction (eval r) = branch_sends r.
Proof. reflexivity. Qed.

Lemma branch_receives_eq r : receives KInstruction (eval r) = [mkAirInteraction
  (instruction_values 0 0 (reduce (pc r)) (reduce (next_pc r)) 0
    (is_beq r * opcode_u32 BEQ + is_bne r * opcode_u32 BNE + is_blt r * opcode_u32 BLT
      + is_bge r * opcode_u32 BGE + is_bltu r * opcode_u32 BLTU + is_bgeu r * opcode_u32 BGEU)
    (op_a_value r) (op_b_value r) (op_c_value r) (op_a_0 r) 1 0 0 0) (is_real r) KInstruction].
Proof. reflexivity. Qed.

Lemma branch_bytes_eq r : sends KByte (eval r) = sends KByte
  (BabyBearWordRangeChecker.range_check (pc r) (pc_range_checker r) (is_real r) ++
   BabyBearWordRangeChecker.range_check (next_pc r) (next_pc_range_checker r) (is_real r)).
Proof. reflexivity. Qed.

Section Sound.
  Context (r : BranchColumns) (Hwf : wf r) (Hok : row_ok (eval r)) (Hsent : sends_answered (eval r)).

Ltac open_row :=
  let H := fresh in
  pose proof Hok as H; unfold eval in H; rewrite !row_ok_app in H; cbn zeta in H;
  destruct H as (P0 & P1 & P2 & P3 & P4 & P5 & P6 & P7 & P8 & P9 & P10 & P11 & P12 & P13 & P14 & P15 & P16 & P17 & P18 & P19 & P20 & P21).

Ltac open_wf :=
  let H := fresh "HW" in let H' := fresh "HF" in
  pose proof Hwf as (H & Wpc & Wnpc & H'); rewrite !Forall_cons in H; rewrite !Forall_cons in H';
  destruct H as (Cpc & Cnpc & Ca & Cb & Cc & _); destruct H' as (C0 & C1 & C2 & C3 & C4 & C5 & C6 & C7 & C8 & C9 & C10 & C11 & _).

Definition selected (o : Opcode) : Prop :=
  In o branch_opcodes /\
  is_beq r = from_bool (bool_decide (o = BEQ)) /\ is_bne r = from_bool (bool_decide (o = BNE)) /\
  is_blt r = from_bool (bool_decide (o = BLT)) /\ is_bge r = from_bool (bool_decide (o = BGE)) /\
  is_bltu r = from_bool (bool_decide (o = BLTU)) /\ is_bgeu r = from_bool (bool_decide (o = BGEU)).

Lemma branch_selected : ~ is_real r ≡F 0 -> exists o, selected o.
Proof using Hwf Hok.
  intros Hr. open_row. open_wf. destruct P0 as [P0 _]. cbn [map all_hold holds] in P0.
  destruct P0 as (B1 & B2 & B3 & B4 & B5 & B6 & BR & _).
  apply bool_canon in B1, B2, B3, B4, B5, B6; try done. unfold is_real in *.
  assert (is_beq r + is_bne r + is_blt r + is_bge r + is_bltu r + is_bgeu r = 1) as E.
  { destruct BR as [BR|BR]; [done|]. apply eqF_small in BR; unfold BABYBEAR; lia. }
  unfold selected, branch_opcodes.
  destruct B1 as [E1|E1], B2 as [E2|E2], B3 as [E3|E3], B4 as [E4|E4], B5 as [E5|E5], B6 as [E6|E6];
    rewrite E1, E2, E3, E4, E5, E6 in *; try discriminate E;
    [exists BGEU|exists BLTU|exists BGE|exists BLT|exists BNE|exists BEQ]; (split; [cbn; tauto|by split_and!]).
Qed.

Section Real.
  Context (o : Opcode) (Hsel : selected o) (Wa : word_bytes (op_a_value r)) (Wb : word_bytes (op_b_value r)).

Lemma selected_facts : is_real r = 1 /\ is_blt r + is_bge r = from_bool (use_signed_comparison o) /\
  is_beq r * opcode_u32 BEQ + is_bne r * opcode_u32 BNE + is_blt r * opcode_u32 BLT
    + is_bge r * opcode_u32 BGE + is_bltu r * opcode_u32 BLTU + is_bgeu r * opcode_u32 BGEU = opcode_u32 o.
Proof using Hsel.
  destruct Hsel as (Hin & E1 & E2 & E3 & E4 & E5 & E6). unfold is_real. rewrite E1, E2, E3, E4, E5, E6.
  by destruct Hin as [<-|[<-|[<-|[<-|[<-|[<-|[]]]]]]].
Qed.

(** The comparisons of the Lt chip. *)
Lemma branch_compared :
  a_lt_b r = from_bool (if use_signed_comparison o then i32 (to_u32 (op_a_value r)) <? i32 (to_u32 (op_b_value r))
                        else to_u32 (op_a_value r) <? to_u32 (op_b_value r)) /\
  a_gt_b r = from_bool (if use_signed_comparison o then i32 (to_u32 (op_b_value r)) <? i32 (to_u32 (op_a_value r))
                        else to_u32 (op_b_value r) <? to_u32 (op_a_value r)).
Proof using Hwf Hsent Hsel Wa Wb.
  open_wf. destruct selected_facts as (Er & Es & _).
  assert (forall x a b, canon x -> word_canon a -> word_canon b -> word_bytes a -> word_bytes b ->
    mkAirInteraction (dep_values (if use_signed_comparison o then SLT else SLTU) (extend_var x) a b) 1 KInstruction ∈ branch_sends r ->
    x = from_bool (if use_signed_comparison o then i32 (to_u32 a) <? i32 (to_u32 b) else to_u32 a <? to_u32 b)) as H.
  { intros x a b Hx Ha Hb Ba Bb Hin. rewrite <- branch_sends_eq in Hin. pose proof (Hsent _ Hin ltac:(done)) as Hans.
    cbn [values] in Hans. apply (dep_answered _ _ _ _ (extend_var_canon x Hx) Ha Hb) in Hans as [Hans _].
    destruct (Hans Ba Bb) as [_ E]. rewrite to_u32_extend_var in E.
    destruct (use_signed_comparison o); cbn [alu_result] in E; injection E as <-; by destruct (_ <? _). }
  assert ((is_blt r + is_bge r) * opcode_u32 SLT + (1 - (is_blt r + is_bge r)) * opcode_u32 SLTU =
    opcode_u32 (if use_signed_comparison o then SLT else SLTU)) as Eop by (rewrite Es; by destruct (use_signed_comparison o)).
  split; apply H; try done; unfold branch_sends; rewrite Er, Eop; unfold dep_values; [right; left|right; right; left].
Qed.

(** Keeps the constraints whose condition is nonzero. *)
Ltac select_live :=
  repeat match goal with
         | P : ~ _ ≡F 0 -> all_hold _ |- _ => first [specialize (P ltac:(done)); rewrite ?all_hold_when in P | clear P]
         | P : all_hold [_] |- _ => destruct P as [P _]; cbn [holds] in P
         end.

Lemma branch_decided : exists taken, branch_taken o (to_u32 (op_a_value r)) (to_u32 (op_b_value r)) = Some taken /\
  is_branching r = from_bool taken /\ not_branching r = from_bool (negb taken).
Proof using Hwf Hok Hsent Hsel Wa Wb.
  open_row. open_wf. destruct selected_facts as (Er & _). destruct branch_compared as [Elt Egt].
  rewrite Er in *. destruct P8 as [P8 _], P9 as [P9 _], P10 as [P10 _]. rewrite all_hold_when in P8, P9, P10.
  destruct (P8 ltac:(done)) as [S _]. destruct (P9 ltac:(done)) as [B1 _]. destruct (P10 ltac:(done)) as [B2 _]. cbn [holds] in S, B1, B2.
  apply bool_canon in B1, B2; try done.
  assert (exists taken, is_branching r = from_bool taken /\ not_branching r = from_bool (negb taken)) as (taken & E1 & E2).
  { destruct B1 as [E1|E1], B2 as [E2|E2]; rewrite E1, E2 in S; try discriminate S; [exists false|exists true]; done. }
  exists taken. split; [|done].
  assert (a_eq_b r ≡F 1 -> to_u32 (op_a_value r) = to_u32 (op_b_value r)) as Heq.
  { intros He. destruct P19 as [P19 _]. rewrite all_hold_when in P19. rewrite Z.mul_1_l in P19.
    f_equal. apply assert_word_eq_canon; [done..|]. apply P19. rewrite He. apply zero_ne_one. }
  clear P0 P1 P2 P3 P4 P5 P6 P7 P8 P9 P10 P19 P20 P21 S B1 B2.
  destruct P11 as [P11 _], P12 as [P12 _], P13 as [P13 _], P14 as [P14 _], P15 as [P15 _], P16 as [P16 _], P17 as [P17 _], P18 as [P18 _].
  unfold when_not, when_ne in P12, P14, P16, P18.
  rewrite !all_hold_when in P11, P12, P13, P14, P15, P16, P17, P18. rewrite E1 in *.
  set (x := to_u32 (op_a_value r)) in *. set (y := to_u32 (op_b_value r)) in *.
  pose proof (to_u32_range _ Wa) as Ux. pose proof (to_u32_range _ Wb) as Uy. fold x y in Ux, Uy.
  destruct Hsel as (Hin & S1 & S2 & S3 & S4 & S5 & S6). rewrite S1 in P11, P12. rewrite S2 in P13, P14. rewrite S3, S5 in P15, P16. rewrite S4, S6 in P17, P18.
  rewrite Elt, Egt in *. clear Hwf Hok Hsent.
  destruct Hin as [<-|[<-|[<-|[<-|[<-|[<-|[]]]]]]]; cbn [use_signed_comparison] in *; destruct taken; cbn [branch_taken]; f_equal; select_live.
  all: clear S1 S2 S3 S4 S5 S6; clearbody x y.
  all: repeat match goal with
              | P : context [from_bool (?a <? ?b)] |- _ => destruct (Z.ltb_spec a b); cbn [from_bool] in *
              end; try discriminate.
  all: rewrite ?Z.add_0_r, ?Z.add_0_l in *; try (rewrite (Heq ltac:(assumption)) in *).
  all: rewrite ?negb_true_iff, ?negb_false_iff; rewrite ?Z.eqb_eq, ?Z.eqb_neq, ?Z.ltb_lt, ?Z.ltb_ge, ?Z.leb_le, ?Z.leb_gt; try lia.
Qed.

Lemma branch_next_pc taken : is_branching r = from_bool taken -> not_branching r = from_bool (negb taken) ->
  if taken then Fred (reduce (next_pc r)) = Fred (reduce (pc r)) +u to_u32 (op_c_value r)
  else Fred (reduce (next_pc r)) ≡F Fred (reduce (pc r)) + DEFAULT_PC_INC.
Proof using Hwf Hok Hsent Hsel.
  intros E1 E2. open_row. open_wf. destruct selected_facts as (Er & _). rewrite Er in *. destruct taken.
  - assert (instruction_answered (dep_values ADD (next_pc r) (pc r) (op_c_value r))) as Hans.
    { apply (Hsent (mkAirInteraction (dep_values ADD (next_pc r) (pc r) (op_c_value r)) 1 KInstruction)); [|done].
      rewrite branch_sends_eq. unfold branch_sends. rewrite E1. left. }
    apply sum_answered in Hans as (Wn & Wp & _ & E); [|done..].
    destruct (range_check_sound _ _ _ Cpc Wpc zero_ne_one P2) as [_ Hp]. destruct (range_check_sound _ _ _ Cnpc Wnpc zero_ne_one P3) as [_ Hn].
    rewrite !msg_pc_reduce by auto. exact E.
  - destruct P5 as [P5 _]. rewrite !all_hold_when, E2 in P5. destruct (P5 ltac:(done) ltac:(done)) as [E _]. cbn [holds] in E.
    rewrite !Fred_eqF. by rewrite E.
Qed.
End Real.

Lemma branch_receiver : instr_receiver 1 branch_opcodes branch_message (eval r).
Proof using Hwf Hok Hsent.
  intros m Hm Hz. rewrite branch_receives_eq in Hm. apply list_elem_of_singleton in Hm as ->. cbn [multiplicity values] in *.
  destruct (branch_selected Hz) as [o Hsel]. destruct (selected_facts o Hsel) as (_ & _ & ->).
  split; [by apply quiet_message_intro|]. split; [eapply answers_intro; [apply Hsel|done]|].
  open_wf. rewrite msg_a_eq, msg_b_eq, msg_c_eq, !word_Fred by done. intros Wa Wb _.
  destruct (branch_decided o Hsel Wa Wb) as (taken & Et & E1 & E2). exists o, taken.
  rewrite msg_a_eq, msg_b_eq, msg_c_eq, !word_Fred by done. split; [|split; [done|exact (branch_next_pc o Hsel taken E1 E2)]].
  unfold msg_opcode, msg. cbn [instruction_values app nth]. by destruct o.
Qed.
End Sound.

(** ** Rows of events *)

(** What the executor records of a branch; the chip needs program counters
    below the order of the field. *)
Definition branch_event_ok (e : BranchEvent) : Prop :=
  is_u32 (br_a e) /\ is_u32 (br_b e) /\ is_u32 (br_c e) /\ canon (br_pc e) /\ canon (br_next_pc e) /\
  exists taken, branch_taken (br_opcode e) (br_a e) (br_b e) = Some taken /\
    br_next_pc e = if taken then br_pc e +u br_c e else br_pc e + DEFAULT_PC_INC.

Definition branch_event_message (e : BranchEvent) : list Z :=
  instruction_values 0 0 (br_pc e) (br_next_pc e) 0 (opcode_u32 (br_opcode e)) (word_from (br_a e)) (word_from (br_b e))
    (word_from (br_c e)) (from_bool (br_op_a_0 e)) 1 0 0 0.

(** The instructions a branch relies on. *)
Definition branch_deps (e : BranchEvent) (taken : bool) : list AluEvent :=
  let o := if use_signed_comparison (br_opcode e) then SLT else SLTU in
  let lt x y := Z.b2z (if use_signed_comparison (br_opcode e) then i32 x <? i32 y else x <? y) in
  [dep_event o (lt (br_a e) (br_b e)) (br_a e) (br_b e); dep_event o (lt (br_b e) (br_a e)) (br_b e) (br_a e)] ++
  if taken then [dep_event ADD (br_pc e +u br_c e) (br_pc e) (br_c e)] else [].

Lemma branching_taken o a b : is_u32 a -> is_u32 b ->
  branching o (a =? b) (if use_signed_comparison o then i32 a <? i32 b else a <? b)
    (if use_signed_comparison o then i32 b <? i32 a else b <? a) = branch_taken o a b.
Proof.
  intros Ha Hb. assert (i32 a = i32 b -> a = b) as Hinj.
  { intros E. rewrite <- (u32_small a), <- (u32_small b), <- (u32_i32 a), <- (u32_i32 b), E by done. done. }
  destruct o; cbn [branching branch_taken use_signed_comparison]; try done; f_equal.
  - destruct (Z.eqb_spec a b) as [->|]; cbn [orb]; [symmetry; apply Z.leb_refl|].
    destruct (Z.ltb_spec (i32 b) (i32 a)), (Z.leb_spec (i32 b) (i32 a)); try done; try lia.
  - destruct (Z.eqb_spec a b) as [->|]; cbn [orb]; [symmetry; apply Z.leb_refl|].
    destruct (Z.ltb_spec b a), (Z.leb_spec b a); try done; lia.
Qed.

(** The events [emit_branch_dependencies] pushes. *)
Lemma branch_emits e taken r : is_u32 (br_a e) -> is_u32 (br_b e) -> branch_taken (br_opcode e) (br_a e) (br_b e) = Some taken ->
  emit_branch_dependencies e r = Some (upd_add_events (fun l => l ++ filter (fun d => alu_opcode d = ADD) (branch_deps e taken))
    (upd_lt_events (fun l => l ++ filter (fun d => alu_opcode d <> ADD) (branch_deps e taken)) r)).
Proof.
  intros Ha Hb Ht. rewrite <- branching_taken in Ht by done. unfold emit_branch_dependencies, branch_deps.
  change (match br_opcode e with BLT | BGE => true | _ => false end) with (use_signed_comparison (br_opcode e)).
  set (lt := if use_signed_comparison (br_opcode e) then i32 (br_a e) <? i32 (br_b e) else br_a e <? br_b e) in *.
  set (gt := if use_signed_comparison (br_opcode e) then i32 (br_b e) <? i32 (br_a e) else br_b e <? br_a e) in *.
  change (match br_opcode e with BEQ => _ | _ => _ end) with (branching (br_opcode e) (br_a e =? br_b e) lt gt).
  rewrite Ht. cbn [mbind option_bind]. f_equal. unfold push.
  destruct (use_signed_comparison (br_opcode e)), taken; destruct r; unfold upd_add_events, upd_lt_events;
    cbn; rewrite <- ?app_assoc, ?app_nil_r; reflexivity.
Qed.

(** The flags the row derives from its operands. *)
Lemma comparison_flags o a b : is_u32 a -> is_u32 b ->
  let lt := if use_signed_comparison o then i32 a <? i32 b else a <? b in
  let gt := if use_signed_comparison o then i32 b <? i32 a else b <? a in
  (a =? b) = negb (lt || gt) /\ lt && gt = false.
Proof.
  intros Ha Hb. assert (i32 a = i32 b -> a = b) as Hinj.
  { intros E. rewrite <- (u32_small a), <- (u32_small b), <- (u32_i32 a), <- (u32_i32 b), E by done. done. }
  assert (a = b -> i32 a = i32 b) as Hinj' by (by intros ->).
  destruct (use_signed_comparison o); cbn zeta;
    repeat match goal with |- context [?x <? ?y] => destruct (Z.ltb_spec x y) end; destruct (Z.eqb_spec a b); (split; [first [done|exfalso; lia]|first [done|exfalso; lia]]).
Qed.

(** The constraints that tie the outcome to the comparison. *)
Lemma branch_outcome_holds (o : Opcode) (eq lt gt taken : bool) (a b : Word) :
  In o branch_opcodes -> eq = negb (lt || gt) -> lt && gt = false -> branching o eq lt gt = Some taken ->
  (eq = true -> a = b) ->
  let flag o' := from_bool (bool_decide (o = o')) in
  all_hold (when (flag BEQ * from_bool taken) [AssertOne (from_bool eq)] ++
    when (flag BEQ) (when_not (from_bool taken) [AssertOne (from_bool gt + from_bool lt)]) ++
    when (flag BNE * from_bool taken) [AssertOne (from_bool gt + from_bool lt)] ++
    when (flag BNE) (when_not (from_bool taken) [AssertOne (from_bool eq)]) ++
    when ((flag BLT + flag BLTU) * from_bool taken) [AssertOne (from_bool lt)] ++
    when (flag BLT + flag BLTU) (when_not (from_bool taken) [AssertOne (from_bool eq + from_bool gt)]) ++
    when ((flag BGE + flag BGEU) * from_bool taken) [AssertOne (from_bool gt + from_bool eq)] ++
    when (flag BGE + flag BGEU) (when_not (from_bool taken) [AssertOne (from_bool lt)]) ++
    when (1 * from_bool eq) (assert_word_eq a b)).
Proof.
  intros Hin -> Hx Hb Hab. cbn zeta. rewrite !all_hold_app. unfold when_not, when_ne.
  assert (all_hold (when (1 * from_bool (negb (lt || gt))) (assert_word_eq a b))) as Hw.
  { rewrite all_hold_when. intros Hz. destruct (negb (lt || gt)); [|exfalso; apply Hz; reflexivity].
    rewrite Hab by done. by split_and!. }
  split_and!; try exact Hw; clear Hw; rewrite ?all_hold_when;
  destruct Hin as [<-|[<-|[<-|[<-|[<-|[<-|[]]]]]]]; injection Hb as <-; destruct lt, gt; try discriminate Hx;
  intros; try (exfalso; match goal with Hz : ~ _ ≡F 0 |- _ => apply Hz; reflexivity end); by split.
Qed.

Lemma branch_row {R} `{ByteRecord R} e (blu : R) taken : branch_event_ok e ->
  branch_taken (br_opcode e) (br_a e) (br_b e) = Some taken -> exists cols evs,
  event_to_row e blu = Some (cols, add_byte_lookup_events evs blu) /\ wf cols /\
  instr_row (branch_event_message e) (branch_deps e taken) (eval cols) evs.
Proof.
  intros (Ha & Hb & Hc & Cpc & Cnpc & taken' & Ht' & Enpc) Ht. assert (taken' = taken) as -> by congruence.
  pose proof (canon_u32 _ Cpc) as Upc. pose proof (canon_u32 _ Cnpc) as Unpc.
  unfold event_to_row. rewrite branching_taken, Ht by done. cbn [mbind option_bind].
  pose proof (range_check_complete (br_pc e) 1 blu Upc Cpc) as H1.
  destruct (BabyBearWordRangeChecker.populate (word_from (br_pc e)) blu) as [k1 blu1]. destruct H1 as (W1 & -> & F1 & A1 & M1).
  pose proof (range_check_complete (br_next_pc e) 1 (add_byte_lookup_events [BabyBearWordRangeChecker.lookup (word_from (br_pc e))] blu) Unpc Cnpc) as H2.
  destruct (BabyBearWordRangeChecker.populate (word_from (br_next_pc e)) _) as [k2 blu2]. destruct H2 as (W2 & -> & F2 & A2 & M2).
  eexists _, ([BabyBearWordRangeChecker.lookup (word_from (br_pc e))] ++ [BabyBearWordRangeChecker.lookup (word_from (br_next_pc e))]).
  split; [by rewrite add_byte_lookup_events_app|].
  pose proof (comparison_flags (br_opcode e) _ _ Ha Hb) as [Feq Fx]. pose proof Ht as Hbr. rewrite <- branching_taken in Hbr by done.
  assert (forall l g, branch_deps e taken = [dep_event (if use_signed_comparison (br_opcode e) then SLT else SLTU) (Z.b2z l) (br_a e) (br_b e);
     dep_event (if use_signed_comparison (br_opcode e) then SLT else SLTU) (Z.b2z g) (br_b e) (br_a e)] ++
     (if taken then [dep_event ADD (br_pc e +u br_c e) (br_pc e) (br_c e)] else []) ->
     map event_message (branch_deps e taken) = _) as Hd by (intros l g ->; rewrite map_app; reflexivity).
  specialize (Hd _ _ eq_refl). 
  set (lt := if use_signed_comparison (br_opcode e) then i32 (br_a e) <? i32 (br_b e) else br_a e <? br_b e) in *.
  set (gt := if use_signed_comparison (br_opcode e) then i32 (br_b e) <? i32 (br_a e) else br_b e <? br_a e) in *.
  set (cols := mkBranchColumns _ _ _ _ _ _ _ _ _ _ _ _ _ _ _ _ _ _ _).
  assert (is_real cols = 1 /\ selected cols (br_opcode e)) as [Er Hsel].
  { unfold is_real, selected, cols, branch_opcodes. cbn [is_beq is_bne is_blt is_bge is_bltu is_bgeu].
    destruct (br_opcode e); try discriminate Ht; (split; [reflexivity|split; [cbn; tauto|by split_and!]]). }
  pose proof (selected_facts cols _ Hsel) as (_ & Es & Eo).
  split.
  { split_and!; [repeat apply Forall_cons_2; try apply word_from_canon; apply Forall_nil_2|done|done|].
    repeat apply Forall_cons_2; try apply from_bool_canon; apply Forall_nil_2. }
  assert ((br_a e =? br_b e) = true -> word_from (br_a e) = word_from (br_b e)) as Hw by (by intros ->%Z.eqb_eq).
  pose proof (branch_outcome_holds _ _ _ _ _ _ _ (proj1 Hsel) Feq Fx Hbr Hw) as Hout.
  split_and!; [| |by apply Forall_app_2; apply Forall_cons_2| |].
  - unfold eval. cbn zeta. rewrite Er. rewrite !all_hold_app in *. destruct Hout as (O1 & O2 & O3 & O4 & O5 & O6 & O7 & O8 & O9).
    destruct Hsel as (Hin & S). 
    split_and!; try assumption; try (by split_and!).
    + cbn [map all_hold holds]. destruct S as (-> & -> & -> & -> & -> & ->). split_and!; try apply from_bool_holds; try done; by right.
    + rewrite !all_hold_when. intros _. cbn [not_branching pc next_pc cols]. destruct taken; [intros Hz; exfalso; by apply Hz|].
      intros _. split; [|done]. cbn [holds]. rewrite !reduce_word_from by done. by rewrite Enpc.
    + unfold when_not, when_ne. rewrite all_hold_when. intros Hz. exfalso. by apply Hz.
    + rewrite all_hold_when. intros _. cbn. by destruct taken.
    + rewrite all_hold_when. intros _. cbn. split; [apply (from_bool_holds taken)|done].
    + rewrite all_hold_when. intros _. cbn. split; [apply (from_bool_holds (negb taken))|done].
  - rewrite (byte_messages_sends _ _ (branch_bytes_eq cols)), byte_messages_app, Er. unfold cols.
    cbn [pc next_pc pc_range_checker next_pc_range_checker]. by rewrite M1, M2.
  - unfold received_messages. rewrite branch_receives_eq, live_cons by exact Er. eexists. split; [reflexivity|]. split; [exact Er|].
    cbn [values]. rewrite Eo. unfold cols. cbn [pc next_pc op_a_value op_b_value op_c_value op_a_0]. by rewrite !reduce_word_from.
  - rewrite branch_sends_eq. unfold branch_sends. cbn zeta.
    assert ((is_blt cols + is_bge cols) * opcode_u32 SLT + (1 - (is_blt cols + is_bge cols)) * opcode_u32 SLTU =
      opcode_u32 (if use_signed_comparison (br_opcode e) then SLT else SLTU)) as -> by (rewrite Es; by destruct (use_signed_comparison (br_opcode e))).
    assert (is_branching cols = from_bool taken) as Eb by done. rewrite Hd, Eb. destruct taken.
    + rewrite !live_cons by (done || exact Er). cbn [map values]. rewrite <- Enpc.
      rewrite !dep_event_message, !word_from_bool. cbn [app map]. exact (Permutation_cons_append [_; _] _).
    + rewrite dead_cons, !live_cons by (done || exact Er). cbn [map values].
      rewrite !dep_event_message, !word_from_bool. done.
Qed.

(** * The Jump chip (crates/core/machine/src/control_flow/jump)

    One row per JAL or JALR.  The AddSub chip computes the target; the row checks
    the link and that the program counters are field elements. *)

Module JumpChip.
Record JumpColumns : Type := mkJumpColumns {
  pc : Word;
  pc_range_checker : BabyBearWordRangeChecker.BabyBearWordRangeChecker;
  next_pc : Word;
  next_pc_range_checker : BabyBearWordRangeChecker.BabyBearWordRangeChecker;
  op_a_value : Word;
  op_b_value : Word;
  op_c_value : Word;
  op_a_0 : Z;
  is_jal : Z;
  is_jalr : Z;
  op_a_range_checker : BabyBearWordRangeChecker.BabyBearWordRangeChecker
}.

(** [None]: [unreachable!()]. *)
Definition target (event : JumpEvent) : option Z :=
  match jp_opcode event with
  | JAL => Some (jp_pc event +u jp_b event)
  | JALR => Some (jp_b event +u jp_c event)
  | _ => None
  end.

Definition event_to_row {R} `{ByteRecord R} (event : JumpEvent) (blu : R) : option (JumpColumns * R) :=
  let flag o' := from_bool (bool_decide (jp_opcode event = o')) in
  let op_a_value := word_from (jp_a event) in
  let '(op_a_range_checker, blu) := BabyBearWordRangeChecker.populate op_a_value blu in
  let pc := word_from (jp_pc event) in
  let '(pc_range_checker, blu) := BabyBearWordRangeChecker.populate pc blu in
  next_pc ← target event;
  let next_pc := word_from next_pc in
  let '(next_pc_range_checker, blu) := BabyBearWordRangeChecker.populate next_pc blu in
  Some (mkJumpColumns pc pc_range_checker next_pc next_pc_range_checker op_a_value (word_from (jp_b event))
    (word_from (jp_c event)) (from_bool (jp_op_a_0 event)) (flag JAL) (flag JALR) op_a_range_checker, blu).

Definition is_real (local : JumpColumns) : Z := is_jal local + is_jalr local.

Definition eval (local : JumpColumns) : list Call :=
  let is_real := is_real local in
  let opcode := is_jal local * opcode_u32 JAL + is_jalr local * opcode_u32 JALR in
  [AssertBool (is_jal local); AssertBool (is_jalr local); AssertBool is_real] ++
  receive_instruction 0 0 (reduce (pc local)) (reduce (next_pc local)) 0 opcode
    (op_a_value local) (op_b_value local) (op_c_value local) (op_a_0 local) 0 0 0 0 is_real ++
  when is_real (when_not (op_a_0 local) [AssertEq (reduce (op_a_value local)) (reduce (pc local) + DEFAULT_PC_INC)]) ++
  BabyBearWordRangeChecker.range_check (op_a_value local) (op_a_range_checker local) is_real ++
  BabyBearWordRangeChecker.range_check (pc local) (pc_range_checker local) is_real ++
  BabyBearWordRangeChecker.range_check (next_pc local) (next_pc_range_checker local) is_real ++
  send_instruction 0 0 UNUSED_PC (UNUSED_PC + DEFAULT_PC_INC) 0 (opcode_u32 ADD) (next_pc local) (pc local)
    (op_b_value local) 0 0 0 0 0 (is_jal local) ++
  send_instruction 0 0 UNUSED_PC (UNUSED_PC + DEFAULT_PC_INC) 0 (opcode_u32 ADD) (next_pc local) (op_b_value local)
    (op_c_value local) 0 0 0 0 0 (is_jalr local).

Definition wf (r : JumpColumns) : Prop :=
  Forall word_canon [pc r; next_pc r; op_a_value r; op_b_value r; op_c_value r] /\
  Forall BabyBearWordRangeChecker.wf [pc_range_checker r; next_pc_range_checker r; op_a_range_checker r] /\
  Forall canon [op_a_0 r; is_jal r; is_jalr r].
End JumpChip.
Import JumpChip.

Definition jump_opcodes : list Opcode := [JAL; JALR].

Lemma jump_sends_eq r : sends KInstruction (eval r) =
  [mkAirInteraction (dep_values ADD (next_pc r) (pc r) (op_b_value r)) (is_jal r) KInstruction;
   mkAirInteraction (dep_values ADD (next_pc r) (op_b_value r) (op_c_value r)) (is_jalr r) KInstruction].
Proof. reflexivity. Qed.

Lemma jump_receives_eq r : receives KInstruction (eval r) = [mkAirInteraction
  (instruction_values 0 0 (reduce (pc r)) (reduce (next_pc r)) 0 (is_jal r * opcode_u32 JAL + is_jalr r * opcode_u32 JALR)
    (op_a_value r) (op_b_value r) (op_c_value r) (op_a_0 r) 0 0 0 0) (is_real r) KInstruction].
Proof. reflexivity. Qed.

Lemma jump_bytes_eq r : sends KByte (eval r) = sends KByte
  (BabyBearWordRangeChecker.range_check (op_a_value r) (op_a_range_checker r) (is_real r) ++
   BabyBearWordRangeChecker.range_check (pc r) (pc_range_checker r) (is_real r) ++
   BabyBearWordRangeChecker.range_check (next_pc r) (next_pc_range_checker r) (is_real r)).
Proof. reflexivity. Qed.

Section Sound.
  Context (r : JumpColumns) (Hwf : wf r) (Hok : row_ok (eval r)) (Hsent : sends_answered (eval r)).

Ltac open_row :=
  let H := fresh in
  pose proof Hok as H; unfold eval in H; rewrite !row_ok_app in H; cbn zeta in H;
  destruct H as (P0 & P1 & P2 & P3 & P4 & P5 & P6 & P7).

Ltac open_wf :=
  let H := fresh "HW" in let H' := fresh "HF" in let H'' := fresh "HR" in
  pose proof Hwf as (H & H'' & H'); rewrite !Forall_cons in H; rewrite !Forall_cons in H'; rewrite !Forall_cons in H'';
  destruct H as (Cpc & Cnpc & Ca & Cb & Cc & _); destruct H'' as (Wpc & Wnpc & Wa & _); destruct H' as (C0 & C1 & C2 & _).

Lemma jump_selected : ~ is_real r ≡F 0 ->
  is_real r = 1 /\ (is_jal r = 1 /\ is_jalr r = 0 \/ is_jal r = 0 /\ is_jalr r = 1).
Proof using Hwf Hok.
  intros Hr. open_row. open_wf. destruct P0 as [(B1 & B2 & B3 & _) _]. cbn [holds] in *.
  apply bool_canon in B1, B2; try done. unfold is_real in *.
  destruct B1 as [E1|E1], B2 as [E2|E2]; rewrite E1, E2 in *; cbn in *; try (by auto); try (exfalso; by apply Hr).
  destruct B3 as [B3|B3]; discriminate B3.
Qed.

(** The link is the next instruction, as a word. *)
Lemma jump_link : is_real r = 1 -> op_a_0 r = 0 -> word_bytes (op_a_value r) ->
  canon (to_u32 (op_a_value r)) /\ to_u32 (op_a_value r) ≡F Fred (reduce (pc r)) + DEFAULT_PC_INC.
Proof using Hwf Hok.
  intros Er E0 Ha. open_row. open_wf. rewrite Er in *. split.
  - by apply (range_check_sound _ _ _ Ca Wa zero_ne_one P3).
  - destruct P2 as [P2 _]. unfold when_not, when_ne in P2. rewrite !all_hold_when, E0 in P2.
    destruct (P2 ltac:(done) ltac:(done)) as [E _]. cbn [holds] in E. rewrite reduce_bytes in E by done. by rewrite Fred_eqF.
Qed.

Lemma jump_target : is_real r = 1 -> (is_jal r = 1 /\ is_jalr r = 0 \/ is_jal r = 0 /\ is_jalr r = 1) ->
  (is_jal r = 1 -> Fred (reduce (next_pc r)) = Fred (reduce (pc r)) +u to_u32 (op_b_value r)) /\
  (is_jalr r = 1 -> Fred (reduce (next_pc r)) = to_u32 (op_b_value r) +u to_u32 (op_c_value r)).
Proof using Hwf Hok Hsent.
  intros Er Hs. open_row. open_wf. rewrite Er in *. split; intros E.
  - assert (instruction_answered (dep_values ADD (next_pc r) (pc r) (op_b_value r))) as Hans.
    { apply (Hsent (mkAirInteraction (dep_values ADD (next_pc r) (pc r) (op_b_value r)) 1 KInstruction)); [|done].
      rewrite jump_sends_eq, E. left. }
    apply sum_answered in Hans as (Wn & Wp & _ & Es); [|done..].
    destruct (range_check_sound _ _ _ Cpc Wpc zero_ne_one P4) as [_ Hp]. destruct (range_check_sound _ _ _ Cnpc Wnpc zero_ne_one P5) as [_ Hn].
    rewrite !msg_pc_reduce by auto. exact Es.
  - assert (instruction_answered (dep_values ADD (next_pc r) (op_b_value r) (op_c_value r))) as Hans.
    { apply (Hsent (mkAirInteraction (dep_values ADD (next_pc r) (op_b_value r) (op_c_value r)) 1 KInstruction)); [|done].
      rewrite jump_sends_eq, E. right. left. }
    apply sum_answered in Hans as (Wn & _ & _ & Es); [|done..].
    destruct (range_check_sound _ _ _ Cnpc Wnpc zero_ne_one P5) as [_ Hn]. rewrite msg_pc_reduce by auto. exact Es.
Qed.

Lemma jump_receiver : instr_receiver 0 jump_opcodes jump_message (eval r).
Proof using Hwf Hok Hsent.
  intros m Hm Hz. rewrite jump_receives_eq in Hm. apply list_elem_of_singleton in Hm as ->. cbn [multiplicity values] in *.
  destruct (jump_selected Hz) as [Er Hs]. destruct (jump_target Er Hs) as [T1 T2].
  split; [by apply quiet_message_intro|]. split.
  { destruct Hs as [[-> ->]|[-> ->]]; [apply (answers_intro _ _ _ _ _ _ _ _ _ _ _ _ _ _ _ JAL)|apply (answers_intro _ _ _ _ _ _ _ _ _ _ _ _ _ _ _ JALR)]; cbn; tauto || done. }
  open_wf. unfold jump_message. rewrite msg_a_eq, msg_b_eq, msg_c_eq, !word_Fred by done. intros Ba Bb _. split.
  - destruct Hs as [[E1 E2]|[E1 E2]]; rewrite E1, E2; [left|right]; (split; [done|]); auto.
  - unfold msg_op_a_0, msg, msg_pc. cbn [instruction_values app nth]. rewrite Fred_small by done. intros E0. by apply jump_link.
Qed.
End Sound.

(** ** Rows of events *)

(** What the executor records of a jump. *)
Definition jump_event_ok (e : JumpEvent) : Prop :=
  is_u32 (jp_b e) /\ is_u32 (jp_c e) /\ canon (jp_pc e) /\ canon (jp_next_pc e) /\ canon (jp_a e) /\
  target e = Some (jp_next_pc e) /\ if jp_op_a_0 e then jp_a e = 0 else jp_a e = jp_pc e + DEFAULT_PC_INC.

Definition jump_event_message (e : JumpEvent) : list Z :=
  instruction_values 0 0 (jp_pc e) (jp_next_pc e) 0 (opcode_u32 (jp_opcode e)) (word_from (jp_a e)) (word_from (jp_b e))
    (word_from (jp_c e)) (from_bool (jp_op_a_0 e)) 0 0 0 0.

(** The sum that gives the target. *)
Definition jump_dep (e : JumpEvent) : AluEvent :=
  match jp_opcode e with
  | JAL => dep_event ADD (jp_next_pc e) (jp_pc e) (jp_b e)
  | _ => dep_event ADD (jp_next_pc e) (jp_b e) (jp_c e)
  end.

(** The event [emit_jump_dependencies] pushes. *)
Lemma jump_emits e r : target e = Some (jp_next_pc e) -> emit_jump_dependencies e r = Some (upd_add_events (push (jump_dep e)) r).
Proof. unfold target, emit_jump_dependencies, jump_dep. destruct (jp_opcode e); intros E; try discriminate E; by injection E as <-. Qed.

Lemma jump_row {R} `{ByteRecord R} e (blu : R) : jump_event_ok e -> exists cols evs,
  event_to_row e blu = Some (cols, add_byte_lookup_events evs blu) /\ wf cols /\
  instr_row (jump_event_message e) [jump_dep e] (eval cols) evs.
Proof.
  intros (Ub & Uc & Cpc & Cnpc & Ca & Ht & Hl).
  pose proof (canon_u32 _ Cpc) as Upc. pose proof (canon_u32 _ Cnpc) as Unpc. pose proof (canon_u32 _ Ca) as Ua.
  set (l x := [BabyBearWordRangeChecker.lookup (word_from x)]).
  unfold event_to_row. rewrite Ht. cbn [mbind option_bind].
  pose proof (range_check_complete (jp_a e) 1 blu Ua Ca) as H1.
  destruct (BabyBearWordRangeChecker.populate (word_from (jp_a e)) blu) as [k1 blu1]. destruct H1 as (W1 & -> & F1 & A1 & M1).
  pose proof (range_check_complete (jp_pc e) 1 (add_byte_lookup_events (l (jp_a e)) blu) Upc Cpc) as H2. fold (l (jp_a e)).
  destruct (BabyBearWordRangeChecker.populate (word_from (jp_pc e)) _) as [k2 blu2]. destruct H2 as (W2 & -> & F2 & A2 & M2).
  pose proof (range_check_complete (jp_next_pc e) 1 (add_byte_lookup_events (l (jp_pc e)) (add_byte_lookup_events (l (jp_a e)) blu)) Unpc Cnpc) as H3. fold (l (jp_pc e)).
  destruct (BabyBearWordRangeChecker.populate (word_from (jp_next_pc e)) _) as [k3 blu3]. destruct H3 as (W3 & -> & F3 & A3 & M3).
  eexists _, (l (jp_a e) ++ l (jp_pc e) ++ l (jp_next_pc e)). split; [by rewrite !add_byte_lookup_events_app|].
  set (cols := mkJumpColumns _ _ _ _ _ _ _ _ _ _ _).
  assert (is_real cols = 1) as Er.
  { unfold is_real, cols, target in *. cbn [is_jal is_jalr]. by destruct (jp_opcode e). }
  split.
  { split_and!; [repeat apply Forall_cons_2; try apply word_from_canon; apply Forall_nil_2|by repeat apply Forall_cons_2|].
    repeat apply Forall_cons_2; try apply from_bool_canon; apply Forall_nil_2. }
  split_and!.
  - unfold eval. cbn zeta. rewrite Er, !all_hold_app. split_and!; try assumption; try done.
    + split; [apply from_bool_holds|]. split; [apply from_bool_holds|]. split; [by right|done].
    + unfold when_not, when_ne. rewrite !all_hold_when. intros _. cbn [op_a_0 op_a_value pc cols]. destruct (jp_op_a_0 e); [intros Hz; exfalso; by apply Hz|].
      intros _. split; [|done]. cbn [holds]. rewrite !reduce_word_from by done. by rewrite Hl.
  - rewrite (byte_messages_sends _ _ (jump_bytes_eq cols)), !byte_messages_app, Er. unfold cols.
    cbn [pc next_pc op_a_value op_a_range_checker pc_range_checker next_pc_range_checker]. by rewrite M1, M2, M3.
  - by repeat apply Forall_app_2; apply Forall_cons_2.
  - unfold received_messages. rewrite jump_receives_eq, live_cons by exact Er. eexists. split; [reflexivity|]. split; [exact Er|].
    cbn [values]. unfold cols, jump_event_message. cbn [pc next_pc op_a_value op_b_value op_c_value op_a_0 is_jal is_jalr]. rewrite !reduce_word_from by done.
    unfold target in Ht. by destruct (jp_opcode e).
  - rewrite jump_sends_eq. unfold cols, jump_dep, target in *. cbn [pc next_pc op_b_value op_c_value is_jal is_jalr].
    destruct (jp_opcode e); try discriminate Ht; [rewrite live_cons, dead_cons by done|rewrite dead_cons, live_cons by done]; done.
Qed.

(** * The Auipc chip (crates/core/machine/src/control_flow/auipc.rs)

    One row per AUIPC, UNIMP or EBREAK; the last two cannot be proved. *)

Module AuipcChip.
Record AuipcColumns : Type := mkAuipcColumns {
  pc : Word;
  op_a_value : Word;
  op_b_value : Word;
  op_c_value : Word;
  op_a_not_0 : Z;
  pc_range_checker : BabyBearWordRangeChecker.BabyBearWordRangeChecker;
  is_auipc : Z;
  is_unimp : Z;
  is_ebreak : Z
}.

Definition event_to_row {R} `{ByteRecord R} (event : AUIPCEvent) (blu : R) : AuipcColumns * R :=
  let flag o' := from_bool (bool_decide (au_opcode event = o')) in
  let pc := word_from (au_pc event) in
  let '(pc_range_checker, blu) :=
    if bool_decide (au_opcode event = AUIPC) then BabyBearWordRangeChecker.populate pc blu
    else (BabyBearWordRangeChecker.mkBabyBearWordRangeChecker 0, blu) in
  (mkAuipcColumns pc (word_from (au_a event)) (word_from (au_b event)) (word_from (au_c event))
    (from_bool (negb (au_op_a_0 event))) pc_range_checker (flag AUIPC) (flag UNIMP) (flag EBREAK), blu).

Definition is_real (local : AuipcColumns) : Z := is_auipc local + is_unimp local + is_ebreak local.

Definition eval (local : AuipcColumns) : list Call :=
  let is_real := is_real local in
  let opcode := opcode_u32 AUIPC * is_auipc local + opcode_u32 UNIMP * is_unimp local
    + opcode_u32 EBREAK * is_ebreak local in
  [AssertBool (is_auipc local); AssertBool (is_unimp local); AssertBool (is_ebreak local); AssertBool is_real] ++
  receive_instruction 0 0 (reduce (pc local)) (reduce (pc local) + DEFAULT_PC_INC) 0 opcode
    (op_a_value local) (op_b_value local) (op_c_value local) (1 - op_a_not_0 local) 0 0 0 0 is_real ++
  [AssertZero (is_unimp local); AssertZero (is_ebreak local)] ++
  BabyBearWordRangeChecker.range_check (pc local) (pc_range_checker local) (is_auipc local) ++
  send_instruction 0 0 UNUSED_PC (UNUSED_PC + DEFAULT_PC_INC) 0 (opcode_u32 ADD) (op_a_value local) (pc local)
    (op_b_value local) 0 0 0 0 0 (op_a_not_0 local) ++
  when (op_a_not_0 local) [AssertOne is_real].

Definition wf (r : AuipcColumns) : Prop :=
  Forall word_canon [pc r; op_a_value r; op_b_value r; op_c_value r] /\
  BabyBearWordRangeChecker.wf (pc_range_checker r) /\ Forall canon [op_a_not_0 r; is_auipc r; is_unimp r; is_ebreak r].
End AuipcChip.
Import AuipcChip.

Lemma auipc_sends_eq r : sends KInstruction (eval r) =
  [mkAirInteraction (dep_values ADD (op_a_value r) (pc r) (op_b_value r)) (op_a_not_0 r) KInstruction].
Proof. reflexivity. Qed.

Lemma auipc_receives_eq r : receives KInstruction (eval r) = [mkAirInteraction
  (instruction_values 0 0 (reduce (pc r)) (reduce (pc r) + DEFAULT_PC_INC) 0
    (opcode_u32 AUIPC * is_auipc r + opcode_u32 UNIMP * is_unimp r + opcode_u32 EBREAK * is_ebreak r)
    (op_a_value r) (op_b_value r) (op_c_value r) (1 - op_a_not_0 r) 0 0 0 0) (is_real r) KInstruction].
Proof. reflexivity. Qed.

Lemma auipc_bytes_eq r : sends KByte (eval r) =
  sends KByte (BabyBearWordRangeChecker.range_check (pc r) (pc_range_checker r) (is_auipc r)).
Proof. reflexivity. Qed.

Section Sound.
  Context (r : AuipcColumns) (Hwf : wf r) (Hok : row_ok (eval r)).

Ltac open_row :=
  let H := fresh in
  pose proof Hok as H; unfold eval in H; rewrite !row_ok_app in H; cbn zeta in H;
  destruct H as (P0 & P1 & P2 & P3 & P4 & P5).

Ltac open_wf :=
  let H := fresh "HW" in let H' := fresh "HF" in
  pose proof Hwf as (H & Wpc & H'); rewrite !Forall_cons in H; rewrite !Forall_cons in H';
  destruct H as (Cpc & Ca & Cb & Cc & _); destruct H' as (C0 & C1 & C2 & C3 & _).

(** Only AUIPC can be proved. *)
Lemma auipc_selected : is_unimp r = 0 /\ is_ebreak r = 0 /\ (is_auipc r = 0 \/ is_auipc r = 1).
Proof using Hwf Hok.
  open_row. open_wf. destruct P0 as [(B1 & _) _]. destruct P2 as [(Z1 & Z2 & _) _]. cbn [holds] in *.
  apply bool_canon in B1; try done. apply eqF_canon in Z1, Z2; done.
Qed.

Lemma auipc_receiver (Hsent : sends_answered (eval r)) : instr_receiver 0 [AUIPC] auipc_message (eval r).
Proof using Hwf Hok.
  intros m Hm Hz. rewrite auipc_receives_eq in Hm. apply list_elem_of_singleton in Hm as ->. cbn [multiplicity values] in *.
  destruct auipc_selected as (E1 & E2 & E3). unfold is_real in Hz. rewrite E1, E2 in *.
  assert (is_auipc r = 1) as Er by (destruct E3 as [E3|E3]; [rewrite E3 in Hz; exfalso; by apply Hz|done]). rewrite Er.
  split; [by apply quiet_message_intro|]. split; [eapply (answers_intro _ _ _ _ _ _ _ _ _ _ _ _ _ _ _ AUIPC); [by left|done]|].
  open_wf. open_row. unfold auipc_message. rewrite msg_a_eq, msg_b_eq, msg_c_eq, !word_Fred by done. intros _ _ _. split; [done|].
  unfold msg_next_pc, msg_pc, msg_op_a_0, msg. cbn [instruction_values app nth]. split; [by rewrite !Fred_eqF|].
  intros E0. apply op_a_0_not in E0; [|done].
  assert (instruction_answered (dep_values ADD (op_a_value r) (pc r) (op_b_value r))) as Hans.
  { apply (Hsent (mkAirInteraction (dep_values ADD (op_a_value r) (pc r) (op_b_value r)) 1 KInstruction)); [|done].
    rewrite auipc_sends_eq, E0. left. }
  apply sum_answered in Hans as (_ & Wp & _ & Es); [|done..]. rewrite Er in P3.
  destruct (range_check_sound _ _ _ Cpc Wpc zero_ne_one P3) as [_ Hp]. rewrite msg_pc_reduce by auto. exact Es.
Qed.
End Sound.

(** ** Rows of events *)

Definition auipc_event_ok (e : AUIPCEvent) : Prop :=
  au_opcode e = AUIPC /\ is_u32 (au_b e) /\ is_u32 (au_c e) /\ canon (au_pc e).

Definition auipc_event_message (e : AUIPCEvent) : list Z :=
  instruction_values 0 0 (au_pc e) (au_pc e + DEFAULT_PC_INC) 0 (opcode_u32 AUIPC) (word_from (au_a e)) (word_from (au_b e))
    (word_from (au_c e)) (from_bool (au_op_a_0 e)) 0 0 0 0.

(** The row for destination [x0] relies on no sum, although
    [emit_auipc_dependency] records one. *)
Definition auipc_deps (e : AUIPCEvent) : list AluEvent :=
  if au_op_a_0 e then [] else [dep_event ADD (au_a e) (au_pc e) (au_b e)].

Lemma auipc_row {R} `{ByteRecord R} e (blu : R) : auipc_event_ok e -> exists cols evs,
  event_to_row e blu = (cols, add_byte_lookup_events evs blu) /\ wf cols /\
  instr_row (auipc_event_message e) (auipc_deps e) (eval cols) evs.
Proof.
  intros (Eo & Ub & Uc & Cpc). pose proof (canon_u32 _ Cpc) as Upc. unfold event_to_row. rewrite Eo.
  pose proof (range_check_complete (au_pc e) 1 blu Upc Cpc) as H1. change (bool_decide (AUIPC = AUIPC)) with true. cbv iota.
  destruct (BabyBearWordRangeChecker.populate (word_from (au_pc e)) blu) as [k1 blu1]. destruct H1 as (W1 & -> & F1 & A1 & M1).
  eexists _, _. split; [reflexivity|]. set (cols := mkAuipcColumns _ _ _ _ _ _ _ _ _).
  split; [|split_and!].
  - split_and!; [repeat apply Forall_cons_2; try apply word_from_canon; apply Forall_nil_2|done|].
    repeat apply Forall_cons_2; try apply from_bool_canon; apply Forall_nil_2.
  - unfold eval. cbn zeta. rewrite !all_hold_app. split_and!; try assumption; try done.
    + cbn [cols all_hold]. split_and!; try apply from_bool_holds; try done.
  - rewrite (byte_messages_sends _ _ (auipc_bytes_eq cols)). unfold cols. cbn [pc pc_range_checker is_auipc]. change (from_bool true) with 1. by rewrite M1.
  - by apply Forall_cons_2.
  - unfold received_messages. rewrite auipc_receives_eq, live_cons by done. eexists. split; [reflexivity|]. split; [done|].
    cbn [values]. unfold cols, auipc_event_message. cbn [pc op_a_value op_b_value op_c_value op_a_not_0 is_auipc is_unimp is_ebreak].
    rewrite !reduce_word_from by done. by destruct (au_op_a_0 e).
  - rewrite auipc_sends_eq. unfold cols, auipc_deps. cbn [pc op_a_value op_b_value op_a_not_0].
    destruct (au_op_a_0 e); [by rewrite dead_cons|by rewrite live_cons].
Qed.
