(* ===== verification/MemInstrChip.v ===== *)
(** * The MemoryInstrs chip (crates/core/machine/src/memory/instructions)

    One row per load or store.  The AddSub chip computes the address; the row
    accesses the word that holds it and checks what is loaded or stored. *)

From Stdlib Require Import ZArith Lia Bool.
From stdpp Require Import base list.
From S2P Require Import Prelude Isa Events ByteLookup Record Alu Dependencies State Refinement AirBuilder ByteTable MemoryAir Operations ChipSpec.

Local Open Scope Z_scope.
Local Open Scope rv_scope.

Module MemoryInstructionsChip.
Record MemoryInstructionsColumns : Type := mkMemoryInstructionsColumns {
  pc : Z;
  shard : Z;
  clk : Z;
  op_a_value : Word;
  op_b_value : Word;
  op_c_value : Word;
  op_a_0 : Z;
  is_lb : Z; is_lbu : Z; is_lh : Z; is_lhu : Z; is_lw : Z; is_sb : Z; is_sh : Z; is_sw : Z;
  addr_word : Word;
  addr_aligned : Z;
  addr_ls_two_bits : Z;
  ls_bits_is_one : Z; ls_bits_is_two : Z; ls_bits_is_three : Z;
  addr_word_range_checker : BabyBearWordRangeChecker.BabyBearWordRangeChecker;
  memory_access : MemoryReadWriteCols;
  unsigned_mem_val : Word;
  most_sig_bit : Z;
  most_sig_byte : Z;
  mem_value_is_neg_not_x0 : Z;
  mem_value_is_pos_not_x0 : Z;
  most_sig_bytes_zero : IsZeroOperation.IsZeroOperation
}.

(** ** Rows *)

(** [unsigned_mem_val] of a load, [None] for a store. *)
Definition loaded (o : Opcode) (mem_value addr_ls_two_bits : Z) : option Z :=
  match o with
  | LB | LBU => Some (byte_at mem_value addr_ls_two_bits)
  | LH | LHU =>
      Some (if (Z.shiftr addr_ls_two_bits 1) mod 2 =? 0 then Z.land mem_value 0x0000FFFF
            else Z.shiftr (Z.land mem_value 0xFFFF0000) 16)
  | LW => Some mem_value
  | _ => None
  end.

(** The most significant byte of the value LB or LH read. *)
Definition sign_byte (o : Opcode) (unsigned_mem_val : Word) : option Z :=
  match o with
  | LB => Some (byte_at (to_u32 unsigned_mem_val) 0)
  | LH => Some (byte_at (to_u32 unsigned_mem_val) 1)
  | _ => None
  end.

(** [None]: the assertion that the shard is not 0. *)
Definition event_to_row {R} `{ByteRecord R} (event : MemInstrEvent) (blu : R) : option (MemoryInstructionsColumns * R) :=
  let o := mi_opcode event in
  let flag o' := from_bool (bool_decide (o = o')) in
  let shard := Fred (mi_shard event) in
  if shard =? 0 then None else
  let '(memory_access, blu) := populate_read_write (mi_mem_access event) blu in
  let memory_addr := mi_b event +u mi_c event in
  let aligned_addr := memory_addr - memory_addr mod 4 in
  let addr_word := word_from memory_addr in
  let '(addr_word_range_checker, blu) := BabyBearWordRangeChecker.populate addr_word blu in
  let addr_ls_two_bits := u8 (memory_addr mod 4) in
  let blu := add_byte_lookup_event (mkByteLookupEvent ByteOpcode.AND addr_ls_two_bits 0 (u8 addr_word.[0]) 3) blu in
  let mem_value := rec_value (current_record (mi_mem_access event)) in
  let unsigned_mem_val :=
    match loaded o mem_value addr_ls_two_bits with Some v => word_from v | None => word_zero end in
  let sign := sign_byte o unsigned_mem_val in
  let most_sig_byte := default 0 sign in
  let most_sig_bit := Z.shiftr most_sig_byte 7 in
  let blu := match sign with
             | Some byte => add_byte_lookup_event (mkByteLookupEvent ByteOpcode.MSB most_sig_bit 0 byte 0) blu
             | None => blu
             end in
  let neg := if most_sig_bit =? 1 then from_bool (negb (mi_op_a_0 event)) else 0 in
  let pos := match loaded o mem_value addr_ls_two_bits with
             | Some _ => from_bool ((match o with
                                     | LB | LH => most_sig_bit =? 0
                                     | LBU | LHU | LW => true
                                     | _ => false
                                     end) && negb (mi_op_a_0 event))
             | None => 0
             end in
  let blu := add_byte_lookup_event (mkByteLookupEvent ByteOpcode.U8Range 0 0 (byte_at memory_addr 1) (byte_at memory_addr 2)) blu in
  let most_sig_bytes_zero :=
    (IsZeroOperation.populate_from_field_element (addr_word.[1] + addr_word.[2] + addr_word.[3])).1 in
  let blu := if IsZeroOperation.result most_sig_bytes_zero =? 1
             then add_byte_lookup_event (mkByteLookupEvent ByteOpcode.LTU 1 0 31 (u8 addr_word.[0])) blu else blu in
  Some (mkMemoryInstructionsColumns (Fred (mi_pc event)) shard (Fred (mi_clk event))
    (word_from (mi_a event)) (word_from (mi_b event)) (word_from (mi_c event)) (from_bool (mi_op_a_0 event))
    (flag LB) (flag LBU) (flag LH) (flag LHU) (flag LW) (flag SB) (flag SH) (flag SW)
    addr_word (Fred aligned_addr) addr_ls_two_bits
    (from_bool (addr_ls_two_bits =? 1)) (from_bool (addr_ls_two_bits =? 2)) (from_bool (addr_ls_two_bits =? 3))
    addr_word_range_checker memory_access unsigned_mem_val most_sig_bit most_sig_byte neg pos most_sig_bytes_zero, blu).

(** ** Constraints *)

Definition is_real (local : MemoryInstructionsColumns) : Z :=
  is_lb local + is_lbu local + is_lh local + is_lhu local + is_lw local + is_sb local + is_sh local + is_sw local.

Definition compute_opcode (local : MemoryInstructionsColumns) : Z :=
  is_lb local * opcode_u32 LB + is_lbu local * opcode_u32 LBU + is_lh local * opcode_u32 LH +
  is_lhu local * opcode_u32 LHU + is_lw local * opcode_u32 LW + is_sb local * opcode_u32 SB +
  is_sh local * opcode_u32 SH + is_sw local * opcode_u32 SW.

Definition offset_is_zero (local : MemoryInstructionsColumns) : Z :=
  1 - ls_bits_is_one local - ls_bits_is_two local - ls_bits_is_three local.

Definition eval_offset_value_flags (local : MemoryInstructionsColumns) : list Call :=
  [AssertBool (ls_bits_is_one local); AssertBool (ls_bits_is_two local); AssertBool (ls_bits_is_three local);
   AssertOne (offset_is_zero local + ls_bits_is_one local + ls_bits_is_two local + ls_bits_is_three local)] ++
  when (offset_is_zero local) [AssertZero (addr_ls_two_bits local)] ++
  when (ls_bits_is_one local) [AssertOne (addr_ls_two_bits local)] ++
  when (ls_bits_is_two local) [AssertEq (addr_ls_two_bits local) 2] ++
  when (ls_bits_is_three local) [AssertEq (addr_ls_two_bits local) 3].

Definition eval_memory_address_and_access (local : MemoryInstructionsColumns) (is_real : Z) : list Call :=
  send_instruction 0 0 UNUSED_PC (UNUSED_PC + DEFAULT_PC_INC) 0 (opcode_u32 ADD) (addr_word local) (op_b_value local)
    (op_c_value local) 0 0 0 0 0 is_real ++
  BabyBearWordRangeChecker.range_check (addr_word local) (addr_word_range_checker local) is_real ++
  slice_range_check_u8 [(addr_word local).[1]; (addr_word local).[2]] is_real ++
  send_byte (ByteOpcode.as_u8 ByteOpcode.LTU) 1 31 (addr_word local).[0]
    (IsZeroOperation.result (most_sig_bytes_zero local)) ++
  when (IsZeroOperation.result (most_sig_bytes_zero local)) [AssertOne is_real] ++
  IsZeroOperation.eval ((addr_word local).[1] + (addr_word local).[2] + (addr_word local).[3])
    (most_sig_bytes_zero local) is_real ++
  eval_offset_value_flags local ++
  when is_real [AssertEq (addr_aligned local + addr_ls_two_bits local) (reduce (addr_word local))] ++
  send_byte (ByteOpcode.as_u8 ByteOpcode.AND) (addr_ls_two_bits local) (addr_word local).[0] 3 is_real ++
  eval_memory_access (shard local) (clk local + position_u32 PMemory) (addr_aligned local) (memory_access local) is_real ++
  when (is_lb local + is_lbu local + is_lh local + is_lhu local + is_lw local)
    (assert_word_eq (value (memory_access local)) (prev_value (memory_access local))).

Definition eval_unsigned_mem_value (local : MemoryInstructionsColumns) : list Call :=
  let mem_val := value (memory_access local) in
  let mem_byte := mem_val.[0] * offset_is_zero local + mem_val.[1] * ls_bits_is_one local
    + mem_val.[2] * ls_bits_is_two local + mem_val.[3] * ls_bits_is_three local in
  let half_value := mkWord
    (offset_is_zero local * mem_val.[0] + ls_bits_is_two local * mem_val.[2])
    (offset_is_zero local * mem_val.[1] + ls_bits_is_two local * mem_val.[3]) 0 0 in
  when (is_lb local + is_lbu local) (assert_word_eq (extend_var mem_byte) (unsigned_mem_val local)) ++
  when (is_lh local + is_lhu local) [AssertZero (ls_bits_is_one local + ls_bits_is_three local)] ++
  when (is_lw local) [AssertOne (offset_is_zero local)] ++
  when (is_lh local + is_lhu local) (assert_word_eq half_value (unsigned_mem_val local)) ++
  when (is_lw local) (assert_word_eq mem_val (unsigned_mem_val local)).

Definition eval_memory_load (local : MemoryInstructionsColumns) : list Call :=
  let signed_value := mkWord 0 (1 * is_lb local) (1 * is_lh local) 0 in
  let mem_value_is_pos := (is_lb local + is_lh local) * (1 - most_sig_bit local)
    + is_lbu local + is_lhu local + is_lw local in
  eval_unsigned_mem_value local ++
  [AssertEq (mem_value_is_neg_not_x0 local)
     ((is_lb local + is_lh local) * most_sig_bit local * (1 - op_a_0 local))] ++
  send_byte (ByteOpcode.as_u8 ByteOpcode.MSB) (most_sig_bit local) (most_sig_byte local) 0 (is_lb local + is_lh local) ++
  [AssertEq (most_sig_byte local)
     (is_lb local * (unsigned_mem_val local).[0] + is_lh local * (unsigned_mem_val local).[1])] ++
  send_instruction 0 0 UNUSED_PC (UNUSED_PC + DEFAULT_PC_INC) 0 (opcode_u32 SUB) (op_a_value local)
    (unsigned_mem_val local) signed_value 0 0 0 0 0 (mem_value_is_neg_not_x0 local) ++
  [AssertEq (mem_value_is_pos_not_x0 local) (mem_value_is_pos * (1 - op_a_0 local))] ++
  when (mem_value_is_pos_not_x0 local) (assert_word_eq (unsigned_mem_val local) (op_a_value local)).

Definition eval_memory_store (local : MemoryInstructionsColumns) : list Call :=
  let a_val := op_a_value local in
  let mem_val := value (memory_access local) in
  let prev_mem_val := prev_value (memory_access local) in
  let pick sel x y := x * sel + (1 - sel) * y in
  let sb_expected_stored_value := mkWord
    (pick (offset_is_zero local) a_val.[0] prev_mem_val.[0]) (pick (ls_bits_is_one local) a_val.[0] prev_mem_val.[1])
    (pick (ls_bits_is_two local) a_val.[0] prev_mem_val.[2]) (pick (ls_bits_is_three local) a_val.[0] prev_mem_val.[3]) in
  let sh_expected_stored_value := mkWord
    (pick (offset_is_zero local) a_val.[0] prev_mem_val.[0]) (pick (offset_is_zero local) a_val.[1] prev_mem_val.[1])
    (pick (ls_bits_is_two local) a_val.[0] prev_mem_val.[2]) (pick (ls_bits_is_two local) a_val.[1] prev_mem_val.[3]) in
  eval_offset_value_flags local ++
  when (is_sb local) (assert_word_eq mem_val sb_expected_stored_value) ++
  when (is_sh local) [AssertZero (ls_bits_is_one local + ls_bits_is_three local)] ++
  when (is_sw local) [AssertOne (offset_is_zero local)] ++
  when (is_sh local) (assert_word_eq mem_val sh_expected_stored_value) ++
  when (is_sw local) (assert_word_eq mem_val a_val).

Definition eval (local : MemoryInstructionsColumns) : list Call :=
  let is_real := is_real local in
  map AssertBool [is_lb local; is_lbu local; is_lh local; is_lhu local; is_lw local; is_sb local; is_sh local;
    is_sw local; is_real; op_a_0 local] ++
  eval_memory_address_and_access local is_real ++
  eval_memory_load local ++
  eval_memory_store local ++
  receive_instruction (shard local) (clk local) (pc local) (pc local + DEFAULT_PC_INC) 0 (compute_opcode local)
    (op_a_value local) (op_b_value local) (op_c_value local) (op_a_0 local)
    (is_sb local + is_sh local + is_sw local) 1 0 0 is_real.

Definition wf (r : MemoryInstructionsColumns) : Prop :=
  Forall word_canon [op_a_value r; op_b_value r; op_c_value r; addr_word r; unsigned_mem_val r] /\
  BabyBearWordRangeChecker.wf (addr_word_range_checker r) /\ read_write_wf (memory_access r) /\
  IsZeroOperation.wf (most_sig_bytes_zero r) /\
  Forall canon [pc r; shard r; clk r; op_a_0 r; is_lb r; is_lbu r; is_lh r; is_lhu r; is_lw r; is_sb r; is_sh r; is_sw r] /\
  Forall canon [addr_aligned r; addr_ls_two_bits r; ls_bits_is_one r; ls_bits_is_two r; ls_bits_is_three r;
    most_sig_bit r; most_sig_byte r; mem_value_is_neg_not_x0 r; mem_value_is_pos_not_x0 r].
End MemoryInstructionsChip.
Import MemoryInstructionsChip.

(** ** Soundness *)

Definition load_opcodes : list Opcode := [LB; LBU; LH; LHU; LW].
Definition store_opcodes : list Opcode := [SB; SH; SW].
Definition mem_opcodes : list Opcode := load_opcodes ++ store_opcodes.

(** What a row promises of the word it accesses: the address is the sum of the
    operands, outside the registers and aligned; a load returns what the word
    holds and keeps it, a store replaces the addressed bytes. *)
Definition mem_message (vals : list Z) (addr_aligned : Z) (prev cur : Word) : Prop :=
  exists o addr, In o mem_opcodes /\ msg_opcode vals = opcode_u32 o /\
    addr = to_u32 (msg_b vals) +u to_u32 (msg_c vals) /\ 32 <= addr < BABYBEAR /\
    addr_aligned = addr - addr mod 4 /\ addr mod access_width o = 0 /\
    if bool_decide (In o load_opcodes) then
      msg 19 vals = 0 /\ cur = prev /\
      (msg_op_a_0 vals = 0 -> word_bytes prev -> to_u32 (msg_a vals) = load_spec o (to_u32 prev) (addr mod 4))
    else
      msg 19 vals = 1 /\
      (word_bytes (msg_a vals) -> word_bytes prev ->
       word_bytes cur /\ to_u32 cur = store_spec o (to_u32 prev) (addr mod 4) (to_u32 (msg_a vals))).

Lemma mem_receives_eq r : receives KInstruction (eval r) = [mkAirInteraction
  (instruction_values (shard r) (clk r) (pc r) (pc r + DEFAULT_PC_INC) 0 (compute_opcode r)
    (op_a_value r) (op_b_value r) (op_c_value r) (op_a_0 r) (is_sb r + is_sh r + is_sw r) 1 0 0) (is_real r) KInstruction].
Proof. reflexivity. Qed.

Lemma mem_sends_eq r : sends KInstruction (eval r) =
  [mkAirInteraction (dep_values ADD (addr_word r) (op_b_value r) (op_c_value r)) (is_real r) KInstruction;
   mkAirInteraction (dep_values SUB (op_a_value r) (unsigned_mem_val r) (mkWord 0 (1 * is_lb r) (1 * is_lh r) 0))
     (mem_value_is_neg_not_x0 r) KInstruction].
Proof. reflexivity. Qed.

Lemma byte_at_word w k : word_bytes w -> (k < 4)%nat -> byte_at (to_u32 w) (Z.of_nat k) = w.[k].
Proof.
  intros (H0 & H1 & H2 & H3) Hk. rewrite is_u8_iff in H0, H1, H2, H3. unfold byte_at, to_u32, from_le_bytes32.
  destruct k as [|[|[|[|k]]]]; [..|lia]; cbn [widx];
    [change (2 ^ (8 * Z.of_nat 0)) with 1|change (2 ^ (8 * Z.of_nat 1)) with 256
    |change (2 ^ (8 * Z.of_nat 2)) with 65536|change (2 ^ (8 * Z.of_nat 3)) with 16777216];
    Z.to_euclidean_division_equations; lia.
Qed.

(** The bytes a load reads. *)
Definition unsigned_word (o : Opcode) (k : nat) (m : Word) : Word :=
  match o with
  | LB | LBU => mkWord m.[k] 0 0 0
  | LH | LHU => mkWord m.[k] m.[S k] 0 0
  | _ => m
  end.

Definition unsigned_value (o : Opcode) (w : Z) (k : nat) : Z :=
  match o with LB | LBU => byte_at w (Z.of_nat k) | LH | LHU => half_at w (Z.of_nat k) | _ => w end.

Lemma unsigned_word_value o k m : word_bytes m -> (k < 4)%nat -> Z.of_nat k mod access_width o = 0 ->
  word_bytes (unsigned_word o k m) /\ to_u32 (unsigned_word o k m) = unsigned_value o (to_u32 m) k.
Proof.
  intros Wm Hk Hal. assert (forall i, is_u8 m.[i]) as Hi by (destruct Wm as (?&?&?&?); intros [|[|[|]]]; done).
  assert (access_width o = 2 -> half_at (to_u32 m) (Z.of_nat k) = m.[k] + 256 * m.[S k]) as Hh.
  { intros E. rewrite E in Hal. assert (S k < 4)%nat by (destruct k as [|[|[|[|]]]]; try discriminate Hal; lia).
    unfold half_at. replace (Z.of_nat k + 1) with (Z.of_nat (S k)) by lia. by rewrite !byte_at_word. }
  assert (is_u8 0) as U0 by done. pose proof (Hi k) as Uk. pose proof (Hi (S k)) as Uk'.
  destruct o; cbn [unsigned_word unsigned_value]; (split; [first [exact Wm|exact (conj Uk (conj U0 (conj U0 U0)))|exact (conj Uk (conj Uk' (conj U0 U0)))]|]); try done;
    rewrite ?byte_at_word by done; rewrite ?Hh by done; unfold to_u32, from_le_bytes32; cbn [w0 w1 w2 w3]; lia.
Qed.

(** The word after a store of [a] at offset [k]. *)
Definition stored_word (o : Opcode) (k : nat) (a p : Word) : Word :=
  word_of (fun i => if (k <=? i)%nat && (Z.of_nat i <? Z.of_nat k + access_width o) then a.[i - k] else p.[i]).

Lemma stored_word_value o k a p : word_bytes a -> word_bytes p ->
  word_bytes (stored_word o k a p) /\ to_u32 (stored_word o k a p) = store_spec o (to_u32 p) (Z.of_nat k) (to_u32 a).
Proof.
  intros Wa Wp. assert (forall w i, word_bytes w -> is_u8 w.[i]) as Hi by (intros w [|[|[|]]] (?&?&?&?); done).
  split.
  - unfold stored_word, word_of, word_bytes. cbn [w0 w1 w2 w3].
    refine (conj _ (conj _ (conj _ _))); match goal with |- is_u8 (if ?b then _ else _) => destruct b end; by apply Hi.
  - assert (forall i : nat, (i < 4)%nat -> (if (k <=? i)%nat && (Z.of_nat i <? Z.of_nat k + access_width o) then a.[i - k] else p.[i]) =
      if (Z.of_nat k <=? Z.of_nat i) && (Z.of_nat i <? Z.of_nat k + access_width o) then byte_at (to_u32 a) (Z.of_nat i - Z.of_nat k)
      else byte_at (to_u32 p) (Z.of_nat i)) as Hb.
    { intros i Hlt. destruct (Nat.leb_spec k i) as [Hle|Hgt].
      - rewrite (proj2 (Z.leb_le _ _)) by lia. cbn [andb]. destruct (_ <? _); [|by rewrite byte_at_word].
        rewrite <- Nat2Z.inj_sub by done. by rewrite byte_at_word by (done || lia).
      - rewrite (proj2 (Z.leb_gt _ _)) by lia. cbn [andb]. by rewrite byte_at_word. }
    unfold store_spec, to_u32 at 1, stored_word, word_of. cbn [w0 w1 w2 w3].
    by rewrite (Hb 0%nat), (Hb 1%nat), (Hb 2%nat), (Hb 3%nat) by lia.
Qed.

Section Sound.
  Context (r : MemoryInstructionsColumns) (Hwf : wf r) (Hok : row_ok (eval r)) (Hsent : sends_answered (eval r)).

Ltac open_wf :=
  let H1 := fresh "HW" in let H2 := fresh "HF" in let H3 := fresh "HG" in
  pose proof Hwf as (H1 & Wrc & Wma & Wz & H2 & H3); rewrite !Forall_cons in H1; rewrite !Forall_cons in H2; rewrite !Forall_cons in H3;
  destruct H1 as (Ca & Cb & Cc & Caddr & Cun & _);
  destruct H2 as (Cpc & Cshard & Cclk & C0 & Clb & Clbu & Clh & Clhu & Clw & Csb & Csh & Csw & _);
  destruct H3 as (Cal & Cls & C1 & C2 & C3 & Cbit & Cbyte & Cneg & Cpos & _).

Lemma mem_parts : row_ok (map AssertBool [is_lb r; is_lbu r; is_lh r; is_lhu r; is_lw r; is_sb r; is_sh r; is_sw r; is_real r; op_a_0 r]) /\
  row_ok (eval_memory_address_and_access r (is_real r)) /\ row_ok (eval_memory_load r) /\ row_ok (eval_memory_store r).
Proof using Hok. pose proof Hok as H. unfold eval in H. rewrite !row_ok_app in H. tauto. Qed.

Definition selected (o : Opcode) : Prop :=
  In o mem_opcodes /\
  is_lb r = from_bool (bool_decide (o = LB)) /\ is_lbu r = from_bool (bool_decide (o = LBU)) /\
  is_lh r = from_bool (bool_decide (o = LH)) /\ is_lhu r = from_bool (bool_decide (o = LHU)) /\
  is_lw r = from_bool (bool_decide (o = LW)) /\ is_sb r = from_bool (bool_decide (o = SB)) /\
  is_sh r = from_bool (bool_decide (o = SH)) /\ is_sw r = from_bool (bool_decide (o = SW)).

Lemma mem_selected : ~ is_real r ≡F 0 -> exists o, selected o.
Proof using Hwf Hok.
  intros Hr. open_wf. destruct mem_parts as ([P0 _] & _). cbn [map all_hold holds] in P0.
  destruct P0 as (B1 & B2 & B3 & B4 & B5 & B6 & B7 & B8 & BR & _).
  apply bool_canon in B1, B2, B3, B4, B5, B6, B7, B8; try done. unfold is_real in *.
  assert (is_lb r + is_lbu r + is_lh r + is_lhu r + is_lw r + is_sb r + is_sh r + is_sw r = 1) as E.
  { destruct BR as [BR|BR]; [done|]. apply eqF_small in BR; unfold BABYBEAR; lia. }
  unfold selected. clear - B1 B2 B3 B4 B5 B6 B7 B8 E.
  destruct B1 as [E1|E1], B2 as [E2|E2], B3 as [E3|E3], B4 as [E4|E4]; rewrite E1, E2, E3, E4 in *; try (exfalso; lia);
  destruct B5 as [E5|E5], B6 as [E6|E6], B7 as [E7|E7], B8 as [E8|E8]; rewrite E5, E6, E7, E8 in *; try (exfalso; lia);
    [exists SW|exists SH|exists SB|exists LW|exists LHU|exists LH|exists LBU|exists LB]; (split; [cbn; tauto|by split_and!]).
Qed.

Section Real.
  Context (o : Opcode) (Hsel : selected o).

Ltac each_opcode :=
  let Hin := fresh in
  pose proof Hsel as (Hin & S1 & S2 & S3 & S4 & S5 & S6 & S7 & S8);
  destruct Hin as [<-|[<-|[<-|[<-|[<-|[<-|[<-|[<-|[]]]]]]]]];
  cbn in S1, S2, S3, S4, S5, S6, S7, S8.

Lemma mem_facts : is_real r = 1 /\ compute_opcode r = opcode_u32 o /\
  is_sb r + is_sh r + is_sw r = from_bool (negb (bool_decide (In o load_opcodes))) /\
  is_lb r + is_lbu r + is_lh r + is_lhu r + is_lw r = from_bool (bool_decide (In o load_opcodes)).
Proof using Hsel.
  unfold is_real, compute_opcode. each_opcode; rewrite S1, S2, S3, S4, S5, S6, S7, S8; split_and!; done.
Qed.

(** Exactly one offset flag is on, the one of the low bits of the address. *)
Definition at_offset (k : nat) : Prop :=
  (k < 4)%nat /\ addr_ls_two_bits r = Z.of_nat k /\ offset_is_zero r = from_bool (k =? 0)%nat /\
  ls_bits_is_one r = from_bool (k =? 1)%nat /\ ls_bits_is_two r = from_bool (k =? 2)%nat /\
  ls_bits_is_three r = from_bool (k =? 3)%nat.

Lemma mem_offset : exists k, at_offset k.
Proof using Hwf Hok.
  open_wf. destruct mem_parts as (_ & _ & _ & P). unfold eval_memory_store in P. rewrite !row_ok_app in P. destruct P as ([P _] & _).
  unfold eval_offset_value_flags in P. rewrite !all_hold_app, !all_hold_when in P. destruct P as ((B1 & B2 & B3 & _) & K0 & K1 & K2 & K3).
  cbn [holds] in B1, B2, B3. apply bool_canon in B1, B2, B3; try done. unfold at_offset, offset_is_zero in *.
  destruct B1 as [E1|E1], B2 as [E2|E2], B3 as [E3|E3]; rewrite E1, E2, E3 in *;
    [exists 0%nat|exists 3%nat|exists 2%nat| |exists 1%nat| | |].
  all: try (specialize (K0 ltac:(done)) as [K0 _]); try (specialize (K1 ltac:(done)) as [K1 _]);
    try (specialize (K2 ltac:(done)) as [K2 _]); try (specialize (K3 ltac:(done)) as [K3 _]); cbn [holds] in *.
  all: repeat match goal with K : addr_ls_two_bits r ≡F _ |- _ => apply eqF_canon in K; [|done..] end; try lia.
  all: split_and!; done || lia.
Qed.

(** The row accesses the word that holds the sum of the operands. *)
Lemma mem_address k : at_offset k -> exists addr, addr = to_u32 (op_b_value r) +u to_u32 (op_c_value r) /\
  32 <= addr < BABYBEAR /\ addr mod 4 = Z.of_nat k /\ addr_aligned r = addr - addr mod 4.
Proof using Hwf Hok Hsent Hsel.
  intros (Hk & El & _). open_wf. destruct mem_facts as (Er & _). destruct mem_parts as (_ & P & _).
  unfold eval_memory_address_and_access in P. rewrite !row_ok_app, Er in P.
  destruct P as (_ & P1 & P2 & P3 & P4 & P5 & _ & P7 & P8 & _).
  assert (instruction_answered (dep_values ADD (addr_word r) (op_b_value r) (op_c_value r))) as Hans.
  { apply (Hsent (mkAirInteraction (dep_values ADD (addr_word r) (op_b_value r) (op_c_value r)) 1 KInstruction)); [|done].
    rewrite mem_sends_eq, Er. left. }
  apply sum_answered in Hans as (Wd & _ & _ & Es); [|done..].
  destruct (range_check_sound _ _ _ Caddr Wrc zero_ne_one P1) as [_ Hc]. specialize (Hc Wd).
  exists (to_u32 (addr_word r)). split; [exact Es|].
  destruct P7 as [P7 _]. rewrite all_hold_when in P7. destruct (P7 zero_ne_one) as [E7 _]. cbn [holds] in E7. rewrite reduce_bytes in E7 by done.
  pose proof Wd as (U0 & U1 & U2 & U3). pose proof Caddr as (D0 & D1 & D2 & D3). rewrite is_u8_iff in U0, U1, U2, U3.
  assert (to_u32 (addr_word r) mod 4 = Z.of_nat k) as Em.
  { destruct P8 as [_ [P8 _]]. cbn [call_found kind multiplicity values widx] in P8. assert (canon 3) as Hc3 by done.
    destruct (and_found _ _ _ Cls D0 Hc3 (P8 zero_ne_one)) as (_ & _ & E). rewrite El in E. rewrite E.
    change 3 with (Z.ones 2). rewrite Z.land_ones by lia. unfold to_u32, from_le_bytes32. change (2 ^ 2) with 4.
    Z.to_euclidean_division_equations. lia. }
  destruct Wz as [Wz1 Wz2]. destruct P5 as [P5 _]. pose proof (is_zero_sound _ _ _ Wz2 zero_ne_one P5) as Ez.
  assert (32 <= to_u32 (addr_word r)) as H32; [|unfold canon in *; split; [lia|split; [exact Em|]]].
  - case_bool_decide as Hz; rewrite Ez in P3; cbn [from_bool] in P3.
    + destruct P3 as [_ [P3 _]]. cbn [call_found kind multiplicity values widx] in P3. assert (canon 1 /\ canon 31) as [Hc1 Hc31] by done.
      destruct (ltu_found _ _ _ Hc1 Hc31 D0 (P3 zero_ne_one)) as (_ & _ & E). unfold to_u32, from_le_bytes32.
      destruct (Z.ltb_spec 31 (w0 (addr_word r))); [lia|discriminate E].
    + assert (w1 (addr_word r) + w2 (addr_word r) + w3 (addr_word r) <> 0) as Hn by (intros E; apply Hz; cbn [widx]; by rewrite E).
      unfold to_u32, from_le_bytes32. lia.
  - rewrite El in E7. rewrite Em.
    assert (addr_aligned r + Z.of_nat k = to_u32 (addr_word r)); [|lia].
    apply eqF_small in E7; [exact E7|]. unfold BABYBEAR in *. lia.
Qed.

Abbreviation cur := (value (memory_access r)).
Abbreviation prev := (prev_value (memory_access r)).

Lemma cur_canon : word_canon cur /\ word_canon prev.
Proof using Hwf. open_wf. destruct Wma as [W1 (W2 & _)]. done. Qed.

Lemma mem_unsigned k : In o load_opcodes -> at_offset k ->
  Z.of_nat k mod access_width o = 0 /\ cur = prev /\ unsigned_mem_val r = unsigned_word o k cur.
Proof using Hwf Hok Hsel.
  intros Hl (Hk & El & K0 & K1 & K2 & K3). open_wf. destruct cur_canon as [Cm Cp].
  destruct mem_facts as (_ & _ & _ & Eld). destruct mem_parts as (_ & A & P & _).
  unfold eval_memory_address_and_access in A. rewrite !row_ok_app, Eld in A. destruct A as (_ & _ & _ & _ & _ & _ & _ & _ & _ & _ & [A _]).
  rewrite all_hold_when, bool_decide_eq_true_2 in A by done. specialize (A ltac:(done)). apply assert_word_eq_canon in A; [|done..].
  unfold eval_memory_load in P. rewrite !row_ok_app in P. destruct P as ([P _] & _).
  unfold eval_unsigned_mem_value in P. rewrite !all_hold_app, !all_hold_when, K0, K1, K2, K3 in P. destruct P as (P1 & P2 & P3 & P4 & P5).
  pose proof Hsel as (_ & S1 & S2 & S3 & S4 & S5 & _).
  set (m := cur) in *. set (u := unsigned_mem_val r) in *.
  assert (m.[0] * from_bool (k =? 0)%nat + m.[1] * from_bool (k =? 1)%nat + m.[2] * from_bool (k =? 2)%nat
    + m.[3] * from_bool (k =? 3)%nat = m.[k]) as Ebyte by (clear -Hk; destruct k as [|[|[|[|]]]]; cbn; ring || lia).
  assert (canon m.[k]) as Ck by (destruct Cm as (?&?&?&?); destruct k as [|[|[|]]]; done).
  assert (is_lb r + is_lbu r = 1 -> u = mkWord m.[k] 0 0 0) as Hbyte.
  { intros E. rewrite Ebyte, E in P1. specialize (P1 zero_ne_one). symmetry. apply assert_word_eq_canon in P1; [|by split_and!|done].
    rewrite <- P1. reflexivity. }
  assert (is_lh r + is_lhu r = 1 -> Z.of_nat k mod 2 = 0 /\ u = mkWord m.[k] m.[S k] 0 0) as Hhalf.
  { intros E. rewrite E in P2, P4. specialize (P2 zero_ne_one). specialize (P4 zero_ne_one). destruct P2 as [P2 _]. cbn [holds] in P2.
    destruct Cm as (?&?&?&?). clear - P2 P4 Hk H H0 H1 H2 Cun.
    destruct k as [|[|[|[|k]]]]; [|discriminate P2| |discriminate P2|lia]; (split; [done|]);
      rewrite ?Z.mul_0_l, ?Z.mul_1_l, ?Z.add_0_r, ?Z.add_0_l in P4; symmetry; (apply assert_word_eq_canon in P4; [|by split_and!|done]);
      rewrite <- P4; cbn [widx Nat.eqb from_bool]; by rewrite ?Z.mul_0_l, ?Z.mul_1_l, ?Z.add_0_r, ?Z.add_0_l. }
  assert (is_lw r = 1 -> k = 0%nat /\ u = m) as Hword.
  { intros E. rewrite E in P3, P5. specialize (P3 zero_ne_one). specialize (P5 zero_ne_one). destruct P3 as [P3 _]. cbn [holds] in P3.
    apply assert_word_eq_canon in P5; [|done..]. split; [|done]. by destruct k as [|k]. }
  destruct Hl as [<-|[<-|[<-|[<-|[<-|[]]]]]]; cbn in S1, S2, S3, S4, S5; rewrite S1, S2, S3, S4, S5 in *; cbn [unsigned_word access_width].
  - split; [apply Z.mod_1_r|]. split; [done|by apply Hbyte].
  - split; [apply Z.mod_1_r|]. split; [done|by apply Hbyte].
  - destruct (Hhalf eq_refl). done.
  - destruct (Hhalf eq_refl). done.
  - destruct (Hword eq_refl) as [-> ->]. done.
Qed.

(** A negative value is read as [2^n] less. *)
Lemma mem_negative k : at_offset k -> In o [LB; LH] -> op_a_0 r = 0 -> word_bytes cur -> most_sig_bit r = 1 ->
  to_u32 (op_a_value r) = unsigned_value o (to_u32 cur) k -u (if opcode_eqb o LB then 256 else 65536).
Proof using Hwf Hok Hsel Hsent.
  intros Hk Hl E0 Wm Eb. assert (In o load_opcodes) as Hl' by (cbn in *; tauto). destruct (mem_unsigned k Hl' Hk) as (Hal & _ & Eu).
  destruct Hk as (Hk & _). open_wf.
  destruct mem_parts as (_ & _ & P & _). unfold eval_memory_load in P. rewrite !row_ok_app in P. destruct P as (_ & [[N _] _] & _). cbn [holds] in N.
  pose proof Hsel as (_ & S1 & _ & S3 & _). destruct (unsigned_word_value o k cur Wm Hk Hal) as [Wu Ev].
  assert (mem_value_is_neg_not_x0 r = 1) as En.
  { apply eqF_canon; [|done..]. rewrite N, E0, Eb, S1, S3. by destruct Hl as [<-|[<-|[]]]. }
  assert (instruction_answered (dep_values SUB (op_a_value r) (unsigned_mem_val r) (mkWord 0 (1 * is_lb r) (1 * is_lh r) 0))) as Hans.
  { apply (Hsent (mkAirInteraction (dep_values SUB (op_a_value r) (unsigned_mem_val r) (mkWord 0 (1 * is_lb r) (1 * is_lh r) 0)) 1 KInstruction)); [|done].
    rewrite mem_sends_eq, En. right. left. }
  assert (word_bytes (mkWord 0 (1 * is_lb r) (1 * is_lh r) 0)) as Ws.
  { rewrite S1, S3. destruct Hl as [<-|[<-|[]]]; by split_and!. }
  assert (word_canon (mkWord 0 (1 * is_lb r) (1 * is_lh r) 0)) as Cs.
  { rewrite S1, S3. destruct Hl as [<-|[<-|[]]]; by split_and!. }
  destruct (dep_answered SUB _ _ _ Ca Cun Cs Hans) as [H _]. rewrite Eu in H. destruct (H Wu Ws) as [_ E].
  cbn [alu_result] in E. apply (inj Some) in E. rewrite <- E, Ev, S1, S3. f_equal. by destruct Hl as [<-|[<-|[]]].
Qed.

(** The destination holds the bytes read, extended. *)
Lemma mem_signed k : In o load_opcodes -> at_offset k -> op_a_0 r = 0 -> word_bytes cur ->
  to_u32 (op_a_value r) = load_spec o (to_u32 cur) (Z.of_nat k).
Proof using Hwf Hok Hsel Hsent.
  intros Hl Hk E0 Wm. destruct (mem_unsigned k Hl Hk) as (Hal & _ & Eu). pose proof Hk as (Hk4 & _). open_wf.
  destruct (unsigned_word_value o k cur Wm Hk4 Hal) as [Wu Ev]. rewrite <- Eu in Wu, Ev.
  destruct mem_parts as (_ & _ & P & _). unfold eval_memory_load in P. rewrite !row_ok_app in P.
  destruct P as (_ & _ & [_ [Mb _]] & [[B _] _] & _ & [[Po _] _] & [W _]). cbn [holds] in B, Po. rewrite all_hold_when in W.
  cbn [call_found kind multiplicity values] in Mb. rewrite E0 in Po.
  assert (mem_value_is_pos_not_x0 r = 1 -> to_u32 (op_a_value r) = unsigned_value o (to_u32 cur) k) as Hpos.
  { intros E. rewrite E in W. apply assert_word_eq_canon in W; [|done..|]; [by rewrite <- W, Ev|exact zero_ne_one]. }
  destruct (decide (In o [LB; LH])) as [Hs|Hs].
  - assert (is_lb r + is_lh r = 1) as Elh by (destruct Hsel as (_ & -> & _ & -> & _); by destruct Hs as [<-|[<-|[]]]). rewrite Elh in Mb.
    destruct (msb_found _ _ Cbit Cbyte (Mb zero_ne_one)) as [Ub Ebit].
    assert (most_sig_byte r = if opcode_eqb o LB then (unsigned_mem_val r).[0] else (unsigned_mem_val r).[1]) as Ebyte.
    { pose proof Cun as (?&?&_). apply eqF_canon; [|done|by destruct (opcode_eqb _ _)]. rewrite B. destruct Hsel as (_ & -> & _ & -> & _).
      destruct Hs as [<-|[<-|[]]];
        [change (from_bool (bool_decide (LB = LB))) with 1; change (from_bool (bool_decide (LB = LH))) with 0; change (opcode_eqb LB LB) with true
        |change (from_bool (bool_decide (LH = LH))) with 1; change (from_bool (bool_decide (LH = LB))) with 0; change (opcode_eqb LH LB) with false];
        apply eqF_diff; exists 0; ring. }
    pose proof (mem_negative k Hk Hs E0 Wm) as Hneg.
    assert (most_sig_bit r = 0 -> mem_value_is_pos_not_x0 r = 1) as Hp.
    { intros E. apply eqF_canon; [|done..]. rewrite Po, Elh, E. destruct Hsel as (_ & _ & -> & _ & -> & -> & _). by destruct Hs as [<-|[<-|[]]]. }
    clear - Hs Hneg Hp Hpos Eu Wu Ev Ub Ebit Ebyte. set (a := to_u32 (op_a_value r)) in *. clearbody a.
    destruct Wu as (U0 & U1 & _). rewrite Eu in *. rewrite is_u8_iff in *. unfold wsub in Hneg. rewrite u32_mod in Hneg.
    unfold sext in *. destruct Hs as [<-|[<-|[]]]; cbn [load_spec]; unfold sext;
      cbn [unsigned_value unsigned_word] in *; unfold to_u32 at 1, from_le_bytes32 in Ev; cbn [w0 w1 w2 w3] in *;
      [change (opcode_eqb LB LB) with true in *|change (opcode_eqb LH LB) with false in *]; cbn [widx w0 w1] in *;
      rewrite Ebyte in Ebit; destruct (Z.ltb_spec (most_sig_byte r) 128) as [Hlt|Hge]; rewrite Ebyte in *.
    + rewrite Hpos by (apply Hp; rewrite Ebit; apply Z.div_small; lia). rewrite (proj2 (Z.ltb_lt _ _)) by lia. done.
    + rewrite Hneg by (rewrite Ebit; Z.div_mod_to_equations; lia). rewrite (proj2 (Z.ltb_ge _ _)) by lia. Z.div_mod_to_equations; lia.
    + rewrite Hpos by (apply Hp; rewrite Ebit; apply Z.div_small; lia). rewrite (proj2 (Z.ltb_lt _ _)) by lia. done.
    + rewrite Hneg by (rewrite Ebit; Z.div_mod_to_equations; lia). rewrite (proj2 (Z.ltb_ge _ _)) by lia. Z.div_mod_to_equations; lia.
  - assert (mem_value_is_pos_not_x0 r = 1) as Ep.
    { apply eqF_canon; [|done..]. rewrite Po. destruct Hsel as (_ & -> & -> & -> & -> & -> & _).
      destruct Hl as [<-|[<-|[<-|[<-|[<-|[]]]]]]; try done; exfalso; apply Hs; cbn; tauto. }
    rewrite Hpos by done. destruct Hl as [<-|[<-|[<-|[<-|[<-|[]]]]]]; try done; exfalso; apply Hs; cbn; tauto.
Qed.

(** The word accessed by a store. *)
Lemma mem_stored k : In o store_opcodes -> at_offset k ->
  Z.of_nat k mod access_width o = 0 /\ cur = stored_word o k (op_a_value r) prev.
Proof using Hwf Hok Hsel.
  intros Hl (Hk & El & K0 & K1 & K2 & K3). open_wf. destruct cur_canon as [Cm Cp].
  destruct mem_parts as (_ & _ & _ & [P _]). unfold eval_memory_store in P. rewrite !all_hold_app, !all_hold_when, K0, K1, K2, K3 in P.
  destruct P as (_ & P1 & P2 & P3 & P4 & P5). pose proof Hsel as (_ & _ & _ & _ & _ & _ & S6 & S7 & S8).
  rewrite S6 in P1. rewrite S7 in P2, P4. rewrite S8 in P3, P5.
  set (m := cur) in *. set (p := prev) in *. set (a := op_a_value r) in *. clear - Hl Hk P1 P2 P3 P4 P5 Cm Cp Ca. clearbody m p a.
  destruct Ca as (A0 & A1 & A2 & A3). destruct Cp as (Q0 & Q1 & Q2 & Q3).
  assert (forall x y : Z, x * 1 + (1 - 1) * y = x) as H1 by (intros; ring). assert (forall x y : Z, x * 0 + (1 - 0) * y = y) as H0 by (intros; ring).
  destruct Hl as [<-|[<-|[<-|[]]]].
  - specialize (P1 zero_ne_one). split; [apply Z.mod_1_r|].
    destruct k as [|[|[|[|k]]]]; [..|lia]; cbn [Nat.eqb from_bool] in P1; rewrite ?H1, ?H0 in P1; by apply assert_word_eq_canon in P1.
  - specialize (P2 zero_ne_one). specialize (P4 zero_ne_one). destruct P2 as [P2 _]. cbn [holds] in P2.
    destruct k as [|[|[|[|k]]]]; [|discriminate P2| |discriminate P2|lia]; (split; [done|]);
      cbn [Nat.eqb from_bool] in P4; rewrite ?H1, ?H0 in P4; by apply assert_word_eq_canon in P4.
  - specialize (P3 zero_ne_one). specialize (P5 zero_ne_one). destruct P3 as [P3 _]. cbn [holds] in P3.
    destruct k as [|k]; [|discriminate P3]. split; [done|]. apply assert_word_eq_canon in P5; [|done..]. subst m. by destruct a.
Qed.
End Real.

(** The promise of the chip: what a live row received, and the access it made. *)
Lemma mem_receiver m : m ∈ receives KInstruction (eval r) -> ~ multiplicity m ≡F 0 ->
  is_real r = 1 /\ length (values m) = 23%nat /\ msg 0 (values m) = shard r /\ msg 1 (values m) = clk r /\
  msg_next_pc (values m) ≡F msg_pc (values m) + DEFAULT_PC_INC /\ msg 4 (values m) = 0 /\
  msg 20 (values m) = 1 /\ msg 21 (values m) = 0 /\ msg 22 (values m) = 0 /\
  mem_message (values m) (addr_aligned r) (prev_value (memory_access r)) (value (memory_access r)).
Proof using Hwf Hok Hsent.
  intros Hm Hz. rewrite mem_receives_eq in Hm. apply list_elem_of_singleton in Hm as ->. cbn [multiplicity values] in *.
  destruct (mem_selected Hz) as [o Hsel]. destruct (mem_facts o Hsel) as (Er & Eo & Est & _). open_wf.
  split_and!; try done.
  { by apply Fred_small. }
  { by apply Fred_small. }
  { unfold msg_next_pc, msg_pc, msg. cbn [instruction_values app nth]. by rewrite !Fred_eqF. }
  destruct mem_offset as [k Hk]. destruct (mem_address o Hsel k Hk) as (addr & Ea & Hr & Em & Eal).
  exists o, addr. rewrite msg_a_eq, msg_b_eq, msg_c_eq, !word_Fred, Eo, Est by done. split; [apply Hsel|].
  assert (forall z, (z mod 4) mod access_width o = z mod access_width o) as Hmod.
  { intros z. symmetry. destruct o; cbn [access_width]; Z.div_mod_to_equations; lia. }
  split; [unfold msg_opcode, msg; cbn [instruction_values app nth]; by destruct o|]. split; [done|]. split; [done|]. split; [done|].
  rewrite <- Hmod, Em. unfold msg_op_a_0, msg. cbn [instruction_values app nth limbs]. rewrite (Fred_small (op_a_0 r)) by done.
  case_bool_decide as Hl.
  - destruct (mem_unsigned o Hsel k Hl Hk) as (Hal & Ecp & _). split; [done|]. split; [done|]. split; [exact Ecp|].
    intros E0 Wp. rewrite <- Ecp in *. by apply (mem_signed o Hsel).
  - assert (In o store_opcodes) as Hst by (destruct Hsel as (Hin & _); unfold mem_opcodes in Hin; apply in_app_or in Hin; tauto).
    destruct (mem_stored o Hsel k Hst Hk) as [Hal Es]. split; [done|]. split; [done|]. intros Wa Wp. rewrite Es. by apply stored_word_value.
Qed.
End Sound.
