(* ===== verification/CpuChip.v ===== *)
(** * The Cpu chip (crates/core/machine/src/cpu, air/program.rs)

    One row per cycle.  A row sends its instruction to the program table and to
    the chip of its opcode, and accesses the registers the instruction names.
    Consecutive rows are tied by shard, clock and program counter. *)

From Stdlib Require Import ZArith Lia Bool.
From stdpp Require Import base list.
From S2P Require Import Prelude Isa SyscallCode Events ByteLookup Record Alu State AirBuilder ByteTable MemoryAir Operations ChipSpec.

Local Open Scope Z_scope.
Local Open Scope rv_scope.

(** ** Instructions *)

Module InstructionCols.
Record InstructionCols : Type := mkInstructionCols {
  opcode : Z;
  op_a : Z;
  op_b : Word;
  op_c : Word;
  op_a_0 : Z;
  imm_b : Z;
  imm_c : Z
}.

Definition populate (instruction : Instruction) : InstructionCols :=
  mkInstructionCols (opcode_u32 (Isa.opcode instruction)) (Isa.op_a instruction) (word_from (Isa.op_b instruction))
    (word_from (Isa.op_c instruction)) (from_bool (Isa.op_a instruction =? reg_idx X0))
    (from_bool (Isa.imm_b instruction)) (from_bool (Isa.imm_c instruction)).

Definition into_iter (c : InstructionCols) : list Z :=
  [opcode c; op_a c] ++ limbs (op_b c) ++ limbs (op_c c) ++ [op_a_0 c; imm_b c; imm_c c].

Definition zero : InstructionCols := mkInstructionCols 0 0 word_zero word_zero 0 0 0.

Definition wf (c : InstructionCols) : Prop :=
  word_canon (op_b c) /\ word_canon (op_c c) /\ Forall canon [opcode c; op_a c; op_a_0 c; imm_b c; imm_c c].
End InstructionCols.
Import InstructionCols (InstructionCols, mkInstructionCols).

Definition program_values (pc : Z) (instruction : InstructionCols) : list Z :=
  [pc] ++ [InstructionCols.opcode instruction] ++ InstructionCols.into_iter instruction.

Definition send_program (pc : Z) (instruction : InstructionCols) (multiplicity : Z) : list Call :=
  [Send (mkAirInteraction (program_values pc instruction) multiplicity KProgram) Local].
Definition receive_program (pc : Z) (instruction : InstructionCols) (multiplicity : Z) : list Call :=
  [Receive (mkAirInteraction (program_values pc instruction) multiplicity KProgram) Local].

(** ** The program table *)

Module ProgramChip.
Record ProgramPreprocessedCols : Type := mkProgramPreprocessedCols { pc : Z; instruction : InstructionCols }.
Record ProgramMultiplicityCols : Type := mkProgramMultiplicityCols { multiplicity : Z }.

(** The rows of the instructions; the rest of the table is zero. *)
Definition preprocessed_rows (program : Program) : list ProgramPreprocessedCols :=
  imap (fun idx instruction =>
    mkProgramPreprocessedCols (Fred (u32 (pc_base program + u32 (Z.of_nat idx * 4)))) (InstructionCols.populate instruction))
    (instructions program).

Definition generate_preprocessed_trace (program : Program) (padded_nb_rows : nat) : list ProgramPreprocessedCols :=
  let rows := preprocessed_rows program in
  rows ++ replicate (padded_nb_rows - length rows) (mkProgramPreprocessedCols 0 InstructionCols.zero).

Definition instruction_count (cpu_events : list CpuEvent) (p : Z) : nat :=
  length (filter (fun event => cpu_pc event = p) cpu_events).

Definition generate_trace (program : Program) (cpu_events : list CpuEvent) (padded_nb_rows : nat) : list ProgramMultiplicityCols :=
  let rows := imap (fun i (_ : Instruction) =>
    mkProgramMultiplicityCols (Fred (Z.of_nat (instruction_count cpu_events (u32 (pc_base program + u32 (Z.of_nat i * 4)))))))
    (instructions program) in
  rows ++ replicate (padded_nb_rows - length rows) (mkProgramMultiplicityCols 0).

Definition eval (prep_local : ProgramPreprocessedCols) (mult_local : ProgramMultiplicityCols) : list Call :=
  receive_program (pc prep_local) (instruction prep_local) (multiplicity mult_local).
End ProgramChip.

(** ** The Cpu chip *)

Module CpuChip.
Record CpuCols : Type := mkCpuCols {
  shard : Z;
  clk_16bit_limb : Z;
  clk_8bit_limb : Z;
  shard_to_send : Z;
  clk_to_send : Z;
  pc : Z;
  next_pc : Z;
  instruction : InstructionCols;
  op_a_immutable : Z;
  is_memory : Z;
  is_syscall : Z;
  is_halt : Z;
  num_extra_cycles : Z;
  op_a_access : MemoryReadWriteCols;
  op_b_access : MemoryReadCols;
  op_c_access : MemoryReadCols;
  is_real : Z
}.

Definition op_a_val (c : CpuCols) : Word := value (op_a_access c).
Definition op_b_val (c : CpuCols) : Word := value (op_b_access c).
Definition op_c_val (c : CpuCols) : Word := value (op_c_access c).

(** *** Rows *)

Section Rows.
  Context {R : Type} `{ByteRecord R}.

(** The limbs of the clock and their lookups. *)
Definition populate_shard_clk (event : CpuEvent) (shard : Z) (blu_events : R) : Z * Z * R :=
  let clk_16bit_limb := u16 (Z.land (cpu_clk event) 0xffff) in
  let clk_8bit_limb := u8 (Z.land (Z.shiftr (cpu_clk event) 16) 0xff) in
  let blu_events := add_byte_lookup_event (mkByteLookupEvent ByteOpcode.U16Range (u16 shard) 0 0 0) blu_events in
  let blu_events := add_byte_lookup_event (mkByteLookupEvent ByteOpcode.U16Range clk_16bit_limb 0 0 0) blu_events in
  let blu_events := add_byte_lookup_event (mkByteLookupEvent ByteOpcode.U8Range 0 0 0 clk_8bit_limb) blu_events in
  (clk_16bit_limb, clk_8bit_limb, blu_events).

(** The access columns before the record is read: zero but for the value. *)
Definition value_only (x : Z) : MemoryAccessCols := mkMemoryAccessCols (word_from x) 0 0 0 0 0.

Definition populate_op_a (instruction : Instruction) (event : CpuEvent) (blu_events : R) : MemoryReadWriteCols * R :=
  match cpu_a_record event with
  | Some record =>
      if is_ecall_instruction instruction
      then ((populate_read_write record ([] : list ByteLookupEvent)).1, blu_events)
      else populate_read_write record blu_events
  | None => (mkMemoryReadWriteCols word_zero (value_only (cpu_a event)), blu_events)
  end.

Definition populate_read_operand (x : Z) (record : option MemoryRecordEnum) (blu_events : R) : MemoryReadCols * R :=
  match record with
  | Some (MRead record) => populate_mem_read record blu_events
  | _ => (mkMemoryReadCols (value_only x), blu_events)
  end.

Definition event_to_row (event : CpuEvent) (shard : Z) (instruction : Instruction) (blu_events : R) : CpuCols * R :=
  let '(clk_16bit_limb, clk_8bit_limb, blu_events) := populate_shard_clk event shard blu_events in
  let is_memory := is_memory_load_instruction instruction || is_memory_store_instruction instruction in
  let sends_time := is_memory || is_ecall_instruction instruction in
  let '(op_a_access, blu_events) := populate_op_a instruction event blu_events in
  let '(op_b_access, blu_events) := populate_read_operand (cpu_b event) (cpu_b_record event) blu_events in
  let '(op_c_access, blu_events) := populate_read_operand (cpu_c event) (cpu_c_record event) blu_events in
  let prev := prev_value op_a_access in
  let is_halt := is_ecall_instruction instruction && bool_decide (prev.[0] ≡F syscall_id HALT) in
  let a_bytes := map Fred (limbs (ac_value (mrw_access op_a_access))) in
  let byte i := u8 (nth i a_bytes 0) in
  let blu_events := add_byte_lookup_event (mkByteLookupEvent ByteOpcode.U8Range 0 0 (byte 0%nat) (byte 1%nat)) blu_events in
  let blu_events := add_byte_lookup_event (mkByteLookupEvent ByteOpcode.U8Range 0 0 (byte 2%nat) (byte 3%nat)) blu_events in
  (mkCpuCols (Fred shard) clk_16bit_limb clk_8bit_limb
     (if sends_time then Fred shard else 0) (if sends_time then Fred (cpu_clk event) else 0)
     (Fred (cpu_pc event)) (Fred (cpu_next_pc event)) (InstructionCols.populate instruction)
     (from_bool (is_memory_store_instruction instruction || is_branch_instruction instruction))
     (from_bool is_memory) (from_bool (is_ecall_instruction instruction)) (from_bool is_halt)
     (if is_ecall_instruction instruction then prev.[2] else 0)
     op_a_access op_b_access op_c_access 1, blu_events).

(** A row past the events. *)
Definition padding_row : CpuCols :=
  mkCpuCols 0 0 0 0 0 0 0 (mkInstructionCols 0 0 word_zero word_zero 0 1 1) 0 0 1 0 0
    read_write_zero read_zero read_zero 0.
End Rows.

(** *** Constraints *)

(** The public values the chip reads. *)
Record CpuPublicValues : Type := mkCpuPublicValues { start_pc : Z; pv_next_pc : Z; execution_shard : Z }.

(** The values of the row selectors of p3_air on the row. *)
Record RowPosition : Type := mkRowPosition { is_first_row : Z; is_last_row : Z; is_transition : Z }.

Definition clk (local : CpuCols) : Z := 2 ^ 16 * clk_8bit_limb local + clk_16bit_limb local.

Definition eval_registers (local : CpuCols) (clk : Z) : list Call :=
  let i := instruction local in
  when (InstructionCols.imm_b i) (assert_word_eq (op_b_val local) (InstructionCols.op_b i)) ++
  when (InstructionCols.imm_c i) (assert_word_eq (op_c_val local) (InstructionCols.op_c i)) ++
  eval_memory_access (shard local) (clk + position_u32 PB) (InstructionCols.op_b i).[0] (op_b_access local)
    (1 - InstructionCols.imm_b i) ++
  eval_memory_access (shard local) (clk + position_u32 PC) (InstructionCols.op_c i).[0] (op_c_access local)
    (1 - InstructionCols.imm_c i) ++
  when (InstructionCols.op_a_0 i) (assert_word_zero (value (op_a_access local))) ++
  eval_memory_access (shard local) (clk + position_u32 PA) (InstructionCols.op_a i) (op_a_access local)
    (1 - is_syscall local) ++
  slice_range_check_u8 (limbs (ac_value (mrw_access (op_a_access local)))) (is_real local) ++
  when (op_a_immutable local) (assert_word_eq (op_a_val local) (mrw_prev_value (op_a_access local))).

Definition eval_shard_clk (at_ : RowPosition) (pv : CpuPublicValues) (local next : CpuCols) (clk : Z) : list Call :=
  when (is_real local) [AssertEq (execution_shard pv) (shard local)] ++
  when (is_transition at_) (when (is_real next) [AssertEq (shard local) (shard next)]) ++
  send_byte (ByteOpcode.as_u8 ByteOpcode.U16Range) (shard local) 0 0 (is_real local) ++
  when (is_first_row at_) [AssertZero clk] ++
  let expected_next_clk := clk + DEFAULT_PC_INC + num_extra_cycles local in
  let next_clk := 2 ^ 16 * clk_8bit_limb next + clk_16bit_limb next in
  when (is_transition at_) (when (is_real next) [AssertEq expected_next_clk next_clk]) ++
  eval_range_check_24bits clk (clk_16bit_limb local) (clk_8bit_limb local) (is_real local).

Definition eval_pc (at_ : RowPosition) (pv : CpuPublicValues) (local next : CpuCols) : list Call :=
  when (is_first_row at_) [AssertEq (start_pc pv) (pc local)] ++
  when (is_transition at_) (when (is_real next) [AssertEq (next_pc local) (pc next)]) ++
  when (is_transition at_) (when (is_real local - is_real next) [AssertEq (pv_next_pc pv) (next_pc local)]) ++
  when (is_last_row at_) (when (is_real local) [AssertEq (pv_next_pc pv) (next_pc local)]).

Definition eval_is_real (at_ : RowPosition) (local next : CpuCols) : list Call :=
  [AssertBool (is_real local)] ++
  when (is_first_row at_) [AssertOne (is_real local)] ++
  when (is_transition at_) (when_not (is_real local) [AssertZero (is_real next)]) ++
  when (is_transition at_) (when (is_halt local) [AssertZero (is_real next)]).

Definition eval (at_ : RowPosition) (pv : CpuPublicValues) (local next : CpuCols) : list Call :=
  let clk := clk local in
  let i := instruction local in
  let expected_shard_to_send := if_else (is_memory local + is_syscall local) (shard local) 0 in
  let expected_clk_to_send := if_else (is_memory local + is_syscall local) clk 0 in
  let not_real := 1 - is_real local in
  send_program (pc local) i (is_real local) ++
  eval_registers local clk ++
  when (is_real local) [AssertEq (shard_to_send local) expected_shard_to_send] ++
  when (is_real local) [AssertEq (clk_to_send local) expected_clk_to_send] ++
  send_instruction (shard_to_send local) (clk_to_send local) (pc local) (next_pc local) (num_extra_cycles local)
    (InstructionCols.opcode i) (op_a_val local) (op_b_val local) (op_c_val local) (InstructionCols.op_a_0 i)
    (op_a_immutable local) (is_memory local) (is_syscall local) (is_halt local) (is_real local) ++
  eval_shard_clk at_ pv local next clk ++
  eval_pc at_ pv local next ++
  eval_is_real at_ local next ++
  when not_real [AssertZero (1 - InstructionCols.imm_b i)] ++
  when not_real [AssertZero (1 - InstructionCols.imm_c i)] ++
  when not_real [AssertZero (1 - is_syscall local)].

Definition wf (r : CpuCols) : Prop :=
  InstructionCols.wf (instruction r) /\ read_write_wf (op_a_access r) /\ read_wf (op_b_access r) /\ read_wf (op_c_access r) /\
  Forall canon [shard r; clk_16bit_limb r; clk_8bit_limb r; shard_to_send r; clk_to_send r; pc r; next_pc r] /\
  Forall canon [op_a_immutable r; is_memory r; is_syscall r; is_halt r; num_extra_cycles r; is_real r].
End CpuChip.
Import CpuChip.

(** Row [i] of [n]. *)
Definition row_position (n i : nat) : RowPosition :=
  mkRowPosition (from_bool (i =? 0)%nat) (from_bool (S i =? n)%nat) (from_bool (S i <? n)%nat).

(** ** What a row says *)

Lemma cpu_program_eq at_ pv r next : sends KProgram (eval at_ pv r next) =
  [mkAirInteraction (program_values (pc r) (instruction r)) (is_real r) KProgram].
Proof. reflexivity. Qed.

Lemma cpu_sends_eq at_ pv r next : sends KInstruction (eval at_ pv r next) = [mkAirInteraction
  (instruction_values (shard_to_send r) (clk_to_send r) (pc r) (next_pc r) (num_extra_cycles r)
    (InstructionCols.opcode (instruction r)) (op_a_val r) (op_b_val r) (op_c_val r) (InstructionCols.op_a_0 (instruction r))
    (op_a_immutable r) (is_memory r) (is_syscall r) (is_halt r)) (is_real r) KInstruction].
Proof. reflexivity. Qed.

(** The accesses of a row: operands B and C unless immediate, and A unless the
    instruction is a system call. *)
Definition cpu_accesses (r : CpuCols) : list Call :=
  let i := instruction r in
  eval_memory_access (shard r) (clk r + position_u32 PB) (InstructionCols.op_b i).[0] (op_b_access r) (1 - InstructionCols.imm_b i) ++
  eval_memory_access (shard r) (clk r + position_u32 PC) (InstructionCols.op_c i).[0] (op_c_access r) (1 - InstructionCols.imm_c i) ++
  eval_memory_access (shard r) (clk r + position_u32 PA) (InstructionCols.op_a i) (op_a_access r) (1 - is_syscall r).

Lemma cpu_memory_eq at_ pv r next : sends KMemory (eval at_ pv r next) = sends KMemory (cpu_accesses r) /\
  receives KMemory (eval at_ pv r next) = receives KMemory (cpu_accesses r).
Proof. split; reflexivity. Qed.

Section Sound.
  Context (at_ : RowPosition) (pv : CpuPublicValues) (r next : CpuCols) (Hwf : wf r) (Hok : row_ok (eval at_ pv r next)).
  Abbreviation i := (instruction r).

Ltac open_wf :=
  let H := fresh "HW" in let H' := fresh "HF" in let H'' := fresh "HZ" in
  pose proof Hwf as ((Cib & Cic & H) & Wa & Wb & Wc & H' & H''); rewrite !Forall_cons in H; rewrite !Forall_cons in H'; rewrite !Forall_cons in H'';
  destruct H as (Co & Coa & C0 & Ciib & Ciic & _); destruct H' as (Cs & C16 & C8 & Css & Cks & Cpc & Cnpc & _);
  destruct H'' as (Cim & Cme & Csy & Cha & Cex & Cre & _).

Lemma cpu_parts : row_ok (eval_registers r (clk r)) /\
  row_ok (when (is_real r) [AssertEq (shard_to_send r) (if_else (is_memory r + is_syscall r) (shard r) 0)]) /\
  row_ok (when (is_real r) [AssertEq (clk_to_send r) (if_else (is_memory r + is_syscall r) (clk r) 0)]) /\
  row_ok (eval_shard_clk at_ pv r next (clk r)) /\ row_ok (eval_pc at_ pv r next) /\ row_ok (eval_is_real at_ r next) /\
  row_ok (when (1 - is_real r) [AssertZero (1 - InstructionCols.imm_b i)]) /\
  row_ok (when (1 - is_real r) [AssertZero (1 - InstructionCols.imm_c i)]) /\
  row_ok (when (1 - is_real r) [AssertZero (1 - is_syscall r)]).
Proof using Hok. pose proof Hok as H. unfold eval in H. rewrite !row_ok_app in H. tauto. Qed.

Lemma cpu_real : is_real r = 0 \/ is_real r = 1.
Proof using Hwf Hok.
  destruct cpu_parts as (_ & _ & _ & _ & _ & P & _). unfold eval_is_real in P. rewrite !row_ok_app in P. destruct P as ([[B _] _] & _).
  open_wf. by apply bool_canon in B.
Qed.

(** A padding row accesses nothing. *)
Lemma cpu_dead : is_real r = 0 -> InstructionCols.imm_b i = 1 /\ InstructionCols.imm_c i = 1 /\ is_syscall r = 1.
Proof using Hwf Hok.
  intros E. destruct cpu_parts as (_ & _ & _ & _ & _ & _ & [P1 _] & [P2 _] & [P3 _]). rewrite all_hold_when, E in P1, P2, P3.
  destruct (P1 ltac:(done)) as [K1 _], (P2 ltac:(done)) as [K2 _], (P3 ltac:(done)) as [K3 _]. cbn [holds] in K1, K2, K3.
  open_wf. rewrite eqF_sub_0 in K1, K2, K3. apply eqF_canon in K1, K2, K3; done.
Qed.

(** The operands of a live row. *)
Lemma cpu_operands : is_real r = 1 ->
  (InstructionCols.imm_b i = 1 -> op_b_val r = InstructionCols.op_b i) /\
  (InstructionCols.imm_c i = 1 -> op_c_val r = InstructionCols.op_c i) /\
  (InstructionCols.op_a_0 i = 1 -> op_a_val r = word_zero) /\
  word_bytes (op_a_val r) /\ (op_a_immutable r = 1 -> op_a_val r = prev_value (op_a_access r)).
Proof using Hwf Hok.
  intros Er. destruct cpu_parts as (P & _). unfold eval_registers in P. rewrite !row_ok_app in P.
  destruct P as ([P1 _] & [P2 _] & _ & _ & [P5 _] & _ & [_ P7] & [P8 _]). open_wf.
  destruct Wa as [Wp (Wav & _)]. destruct Wb as (Wbv & _). destruct Wc as (Wcv & _).
  rewrite all_hold_when in P1, P2, P5, P8. split_and!.
  - intros E. rewrite E in P1. specialize (P1 zero_ne_one). by apply assert_word_eq_canon in P1; [|done..].
  - intros E. rewrite E in P2. specialize (P2 zero_ne_one). by apply assert_word_eq_canon in P2; [|done..].
  - intros E. rewrite E in P5. destruct (P5 zero_ne_one) as (E0 & E1 & E2 & E3 & _). cbn [holds] in *. destruct Wav as (D0 & D1 & D2 & D3).
    unfold op_a_val. cbn [value read_write_cols] in *. destruct (ac_value (mrw_access (op_a_access r))) as [x0 x1 x2 x3]. cbn [w0 w1 w2 w3] in *.
    apply eqF_canon in E0, E1, E2, E3; try done. by subst.
  - rewrite Er in P7. by apply (word_range_checked _ _ P7 zero_ne_one).
  - intros E. rewrite E in P8. specialize (P8 zero_ne_one). by apply assert_word_eq_canon in P8; [|done..].
Qed.

(** Its time. *)
Lemma cpu_time : is_real r = 1 -> 0 <= shard r < 2 ^ 16 /\ 0 <= clk r < 2 ^ 24 /\ execution_shard pv ≡F shard r.
Proof using Hwf Hok.
  intros Er. destruct cpu_parts as (_ & _ & _ & P & _). unfold eval_shard_clk in P. rewrite !row_ok_app in P.
  destruct P as ([P0 _] & _ & [_ [P2 _]] & _ & _ & P5). open_wf. rewrite Er in *. rewrite all_hold_when in P0. destruct (P0 zero_ne_one) as [E _].
  cbn [call_found kind multiplicity values] in P2. pose proof (u16range_found _ Cs (P2 zero_ne_one)) as R.
  destruct (range_check_24_sound _ _ _ _ C16 C8 zero_ne_one P5) as (d & _ & Ed & H16 & H8 & Hd). unfold in_u in R. unfold clk.
  split_and!; [lia..|exact E].
Qed.

(** The time it sends. *)
Lemma cpu_time_sent : is_real r = 1 -> is_memory r + is_syscall r = 1 -> shard_to_send r = shard r /\ clk_to_send r = clk r.
Proof using Hwf Hok.
  intros Er E. pose proof (cpu_time Er) as (Hs & Hk & _). destruct cpu_parts as (_ & [P1 _] & [P2 _] & _). open_wf.
  rewrite all_hold_when, Er, E in P1, P2. destruct (P1 zero_ne_one) as [E1 _], (P2 zero_ne_one) as [E2 _]. cbn [holds] in E1, E2. unfold if_else in E1, E2.
  rewrite Z.mul_1_l, Z.sub_diag, Z.mul_0_r, Z.add_0_r in E1, E2. apply eqF_canon in E1, E2; try done. unfold canon, BABYBEAR. lia.
Qed.

(** Each access is checked, and its selector is boolean. *)
Lemma cpu_accesses_ok : row_ok (cpu_accesses r).
Proof using Hok.
  destruct cpu_parts as (P & _). unfold eval_registers in P. rewrite !row_ok_app in P. unfold cpu_accesses. rewrite !row_ok_app. tauto.
Qed.

Ltac opened H := unfold when_not, when_ne in H; repeat first [rewrite all_hold_app in H|rewrite all_hold_when in H].

(** The first row, the row after a row, and the last live row. *)
Lemma cpu_first : is_first_row at_ = 1 -> is_real r = 1 /\ start_pc pv ≡F pc r /\ clk r ≡F 0.
Proof using Hwf Hok.
  intros E. destruct cpu_parts as (_ & _ & _ & [P1 _] & [P2 _] & [P3 _] & _). unfold eval_shard_clk in P1. unfold eval_pc in P2. unfold eval_is_real in P3.
  opened P1. opened P2. opened P3. rewrite E in *. destruct P1 as (_ & _ & _ & P1 & _), P2 as (P2 & _), P3 as (_ & P3 & _).
  destruct (P1 zero_ne_one) as [E1 _], (P2 zero_ne_one) as [E2 _], (P3 zero_ne_one) as [E3 _]. cbn [holds] in *. split; [|done]. open_wf. by apply eqF_canon.
Qed.

Lemma cpu_next : is_transition at_ = 1 -> wf next -> is_real next = 1 ->
  is_real r = 1 /\ pc next = next_pc r /\ clk r + DEFAULT_PC_INC + num_extra_cycles r ≡F clk next.
Proof using Hwf Hok.
  intros E Hw En. pose proof cpu_real as Hr. destruct cpu_parts as (_ & _ & _ & [P1 _] & [P2 _] & [P3 _] & _). unfold eval_shard_clk in P1. unfold eval_pc in P2. unfold eval_is_real in P3.
  opened P1. opened P2. opened P3. rewrite E, En in *. destruct P1 as (_ & _ & _ & _ & P1 & _), P2 as (_ & P2 & _), P3 as (_ & _ & P3 & _).
  specialize (P3 zero_ne_one). destruct (P1 zero_ne_one zero_ne_one) as [E1 _], (P2 zero_ne_one zero_ne_one) as [E2 _]. cbn [holds] in *. split; [|split; [|done]].
  - destruct Hr as [Hz|]; [|done]. rewrite Hz in P3. destruct (P3 ltac:(done)) as [E3 _]. cbn [holds] in E3. done.
  - open_wf. destruct Hw as (_ & _ & _ & _ & F & _). rewrite !Forall_cons in F. destruct F as (_ & _ & _ & _ & _ & Cp & _). symmetry. by apply eqF_canon.
Qed.

Lemma cpu_last : is_real r = 1 -> is_last_row at_ = 1 \/ is_transition at_ = 1 /\ is_real next = 0 -> pv_next_pc pv ≡F next_pc r.
Proof using Hok.
  clear Hwf. intros Er Hc. destruct cpu_parts as (_ & _ & _ & _ & [P _] & _). unfold eval_pc in P. opened P. destruct P as (_ & _ & P1 & P2).
  destruct Hc as [E|[E En]].
  - rewrite E, Er in P2. by destruct (P2 zero_ne_one zero_ne_one).
  - rewrite E, Er, En in P1. by destruct (P1 zero_ne_one ltac:(done)).
Qed.
End Sound.
