(* ===== verification/SyscallInstrChip.v ===== *)
(** * The SyscallInstrs chip (crates/core/machine/src/syscall/instructions)

    One row per ECALL.  The row reads the system call code from [x5], sends the
    call to its table if the code says so, and ties COMMIT, COMMIT_DEFERRED and
    HALT to the public values. *)

From Stdlib Require Import ZArith Lia Bool.
From stdpp Require Import base list.
From S2P Require Import Prelude Isa SyscallCode Events ByteLookup Record Alu State AirBuilder ByteTable MemoryAir Operations ChipSpec.

Local Open Scope Z_scope.
Local Open Scope rv_scope.

Module SyscallInstrsChip.
Record SyscallInstrColumns : Type := mkSyscallInstrColumns {
  pc : Z;
  next_pc : Z;
  shard : Z;
  clk : Z;
  num_extra_cycles : Z;
  is_halt : Z;
  op_a_access : MemoryReadWriteCols;
  op_b_value : Word;
  op_c_value : Word;
  is_enter_unconstrained : IsZeroOperation.IsZeroOperation;
  is_hint_len : IsZeroOperation.IsZeroOperation;
  is_halt_check : IsZeroOperation.IsZeroOperation;
  is_commit : IsZeroOperation.IsZeroOperation;
  is_commit_deferred_proofs : IsZeroOperation.IsZeroOperation;
  index_bitmap : list Z;
  operand_range_check_cols : BabyBearWordRangeChecker.BabyBearWordRangeChecker;
  operand_to_check : Word;
  ecall_range_check_operand : Z;
  is_real : Z
}.

(** ** Rows *)

(** [None]: the digest index is out of range. *)
Definition set_bit (digest_idx : Z) : option (list Z) :=
  if digest_idx <? Z.of_nat PV_DIGEST_NUM_WORDS
  then Some (<[Z.to_nat digest_idx := 1]> (replicate PV_DIGEST_NUM_WORDS 0)) else None.

Definition event_to_row {R} `{ByteRecord R} (event : SyscallEvent) (blu : R) : option (SyscallInstrColumns * R) :=
  let '(op_a_access, blu) := populate_read_write (MWrite (sy_a_record event)) blu in
  let op_b_value := word_from (sy_arg1 event) in
  let id := (prev_value op_a_access).[0] in
  let num_cycles := (prev_value op_a_access).[2] in
  let test c := (IsZeroOperation.populate_from_field_element (id - syscall_id c)).1 in
  let called c := bool_decide (id ≡F syscall_id c) in
  index_bitmap ← (if called COMMIT || called COMMIT_DEFERRED_PROOFS then set_bit (to_u32 op_b_value)
                  else Some (replicate PV_DIGEST_NUM_WORDS 0));
  let zero_check := BabyBearWordRangeChecker.mkBabyBearWordRangeChecker 0 in
  let '(operand, check, flag, blu) :=
    if called HALT then
      let '(k, blu) := BabyBearWordRangeChecker.populate (word_from (sy_arg1 event)) blu in (word_from (sy_arg1 event), k, 1, blu)
    else (word_zero, zero_check, 0, blu) in
  let '(operand, check, flag, blu) :=
    if called COMMIT_DEFERRED_PROOFS then
      let '(k, blu) := BabyBearWordRangeChecker.populate (word_from (sy_arg2 event)) blu in (word_from (sy_arg2 event), k, 1, blu)
    else (operand, check, flag, blu) in
  Some (mkSyscallInstrColumns (Fred (sy_pc event)) (Fred (sy_next_pc event)) (Fred (sy_shard event)) (Fred (sy_clk event))
    num_cycles (from_bool (called HALT)) op_a_access op_b_value (word_from (sy_arg2 event))
    (test ENTER_UNCONSTRAINED) (test HINT_LEN) (test HALT) (test COMMIT) (test COMMIT_DEFERRED_PROOFS)
    index_bitmap check operand flag 1, blu).

(** ** Constraints *)

Record SyscallPublicValues : Type := mkSyscallPublicValues {
  committed_value_digest : list Word;
  deferred_proofs_digest : list Z;
  exit_code : Z
}.

(** The bytes of the code, as it was in [x5]. *)
Definition syscall_code (local : SyscallInstrColumns) : Word := prev_value (op_a_access local).

Definition get_num_extra_ecall_cycles (local : SyscallInstrColumns) : Z := (syscall_code local).[2] * is_real local.

Definition eval_is_halt_syscall (local : SyscallInstrColumns) : list Call :=
  IsZeroOperation.eval ((syscall_code local).[0] - syscall_id HALT) (is_halt_check local) (is_real local) ++
  [AssertEq (is_halt local) (IsZeroOperation.result (is_halt_check local) * is_real local)].

Definition eval_ecall (local : SyscallInstrColumns) : list Call :=
  let id := (syscall_code local).[0] in
  let send_to_table := (syscall_code local).[1] in
  let enter := IsZeroOperation.result (is_enter_unconstrained local) in
  let hint_len := IsZeroOperation.result (is_hint_len local) in
  when (1 - is_real local) [AssertZero send_to_table] ++
  send_syscall (shard local) (clk local) id (reduce (op_b_value local)) (reduce (op_c_value local)) send_to_table Local ++
  IsZeroOperation.eval (id - syscall_id ENTER_UNCONSTRAINED) (is_enter_unconstrained local) (is_real local) ++
  IsZeroOperation.eval (id - syscall_id HINT_LEN) (is_hint_len local) (is_real local) ++
  when (is_real local) (when enter (assert_word_eq (value (op_a_access local)) (word_from 0))) ++
  when (is_real local) (when_not (enter + hint_len)
    (assert_word_eq (value (op_a_access local)) (prev_value (op_a_access local)))) ++
  [AssertEq (ecall_range_check_operand local)
     (is_real local * (IsZeroOperation.result (is_halt_check local) + IsZeroOperation.result (is_commit_deferred_proofs local)))] ++
  BabyBearWordRangeChecker.range_check (operand_to_check local) (operand_range_check_cols local) (ecall_range_check_operand local).

(** The tests, and the flags they give. *)
Definition get_is_commit_related_syscall (local : SyscallInstrColumns) : list Call * (Z * Z) :=
  let id := (syscall_code local).[0] in
  (IsZeroOperation.eval (id - syscall_id COMMIT) (is_commit local) (is_real local) ++
   IsZeroOperation.eval (id - syscall_id COMMIT_DEFERRED_PROOFS) (is_commit_deferred_proofs local) (is_real local),
   (IsZeroOperation.result (is_commit local), IsZeroOperation.result (is_commit_deferred_proofs local))).

Definition eval_commit (local : SyscallInstrColumns) (commit_digest : list Word) (deferred_digest : list Z) : list Call :=
  let '(tests, (is_commit, is_commit_deferred_proofs)) := get_is_commit_related_syscall local in
  let bitmap_sum := fold_left Z.add (index_bitmap local) 0 in
  let digest_word := op_c_value local in
  tests ++
  flat_map (fun bit => when (is_real local) [AssertBool bit]) (index_bitmap local) ++
  when (is_real local) (when (is_commit + is_commit_deferred_proofs) [AssertOne bitmap_sum]) ++
  when (is_real local) (when (1 - (is_commit + is_commit_deferred_proofs)) [AssertZero bitmap_sum]) ++
  concat (imap (fun i bit => when (is_real local) (when bit [AssertEq (op_b_value local).[0] (Z.of_nat i)])) (index_bitmap local)) ++
  flat_map (fun i => when (is_real local) (when (is_commit + is_commit_deferred_proofs) [AssertZero (op_b_value local).[i + 1]])) (seq 0 3) ++
  when (is_real local) (when is_commit (assert_word_eq (index_word_array commit_digest (index_bitmap local)) digest_word)) ++
  when (is_real local) (when is_commit_deferred_proofs (assert_word_eq digest_word (operand_to_check local))) ++
  when (is_real local) (when is_commit_deferred_proofs
    [AssertEq (index_array deferred_digest (index_bitmap local)) (reduce digest_word)]).

Definition eval_halt_unimpl (local : SyscallInstrColumns) (pv : SyscallPublicValues) : list Call :=
  when (is_halt local) [AssertZero (next_pc local)] ++
  when (is_halt local) (assert_word_eq (op_b_value local) (operand_to_check local)) ++
  when (is_halt local) [AssertEq (reduce (op_b_value local)) (exit_code pv)].

Definition eval (local : SyscallInstrColumns) (pv : SyscallPublicValues) : list Call :=
  [AssertBool (is_real local)] ++
  eval_is_halt_syscall local ++
  receive_instruction (shard local) (clk local) (pc local) (next_pc local) (num_extra_cycles local) (opcode_u32 ECALL)
    (value (op_a_access local)) (op_b_value local) (op_c_value local) 0 0 0 1 (is_halt local) (is_real local) ++
  when (is_real local) (when (1 - is_halt local) [AssertEq (next_pc local) (pc local + 4)]) ++
  [AssertEq (num_extra_cycles local) (get_num_extra_ecall_cycles local)] ++
  eval_memory_access (shard local) (clk local + position_u32 PA) (reg_idx X5) (op_a_access local) (is_real local) ++
  eval_ecall local ++
  eval_commit local (committed_value_digest pv) (deferred_proofs_digest pv) ++
  eval_halt_unimpl local pv.

Definition wf (r : SyscallInstrColumns) : Prop :=
  Forall word_canon [op_b_value r; op_c_value r; operand_to_check r] /\ read_write_wf (op_a_access r) /\
  Forall IsZeroOperation.wf [is_enter_unconstrained r; is_hint_len r; is_halt_check r; is_commit r; is_commit_deferred_proofs r] /\
  BabyBearWordRangeChecker.wf (operand_range_check_cols r) /\
  Forall canon (index_bitmap r) /\ length (index_bitmap r) = PV_DIGEST_NUM_WORDS /\
  Forall canon [pc r; next_pc r; shard r; clk r; num_extra_cycles r; is_halt r; ecall_range_check_operand r; is_real r].
End SyscallInstrsChip.
Import SyscallInstrsChip.

(** ** Soundness *)

(** What a row promises, by the byte of the code that names the call: the code
    it found in [x5], the word it left there, the public values. *)
Record ecall_message (pv : SyscallPublicValues) (vals : list Z) (code cur : Word) : Prop := {
  em_opcode : msg_opcode vals = opcode_u32 ECALL;
  em_flags : msg_op_a_0 vals = 0 /\ msg 19 vals = 0 /\ msg 20 vals = 0 /\ msg 21 vals = 1;
  em_cycles : msg 4 vals = code.[2];
  em_halt : msg 22 vals = from_bool (bool_decide (code.[0] = syscall_id HALT));
  em_next_pc : if bool_decide (code.[0] = syscall_id HALT) then msg_next_pc vals = 0
    else msg_next_pc vals ≡F msg_pc vals + DEFAULT_PC_INC;
  em_enter : code.[0] = syscall_id ENTER_UNCONSTRAINED -> cur = word_zero;
  em_keep : code.[0] <> syscall_id ENTER_UNCONSTRAINED -> code.[0] <> syscall_id HINT_LEN -> cur = code;
  em_exit_code : code.[0] = syscall_id HALT -> word_bytes (msg_b vals) ->
    canon (to_u32 (msg_b vals)) /\ to_u32 (msg_b vals) ≡F exit_code pv;
  em_commit : code.[0] = syscall_id COMMIT -> exists i w, (i < PV_DIGEST_NUM_WORDS)%nat /\
    to_u32 (msg_b vals) = Z.of_nat i /\ committed_value_digest pv !! i = Some w /\ map Fred (limbs w) = limbs (msg_c vals);
  em_deferred : code.[0] = syscall_id COMMIT_DEFERRED_PROOFS -> exists i x, (i < PV_DIGEST_NUM_WORDS)%nat /\
    to_u32 (msg_b vals) = Z.of_nat i /\ deferred_proofs_digest pv !! i = Some x /\
    (word_bytes (msg_c vals) -> canon (to_u32 (msg_c vals)) /\ to_u32 (msg_c vals) ≡F x)
}.

Lemma syscall_receives_eq r pv : receives KInstruction (eval r pv) = [mkAirInteraction
  (instruction_values (shard r) (clk r) (pc r) (next_pc r) (num_extra_cycles r) (opcode_u32 ECALL)
    (value (op_a_access r)) (op_b_value r) (op_c_value r) 0 0 0 1 (is_halt r)) (is_real r) KInstruction].
Proof.
  unfold eval, eval_commit, get_is_commit_related_syscall. rewrite !receives_app.
  assert (forall (f : nat -> Z -> list Call) l, (forall i x, receives KInstruction (f i x) = []) -> receives KInstruction (concat (imap f l)) = []) as Hc.
  { intros f l. revert f. induction l as [|x l IH]; intros f Hf; [done|]. rewrite imap_cons. cbn [concat]. rewrite receives_app, Hf. cbn [app]. apply IH. intros. apply Hf. }
  rewrite Hc by done.
  assert (forall l, receives KInstruction (flat_map (fun bit => when (is_real r) [AssertBool bit]) l) = []) as Hf.
  { induction l as [|x l IH]; [done|]. exact IH. }
  rewrite Hf. reflexivity.
Qed.

Lemma all_hold_imap {A} (f : nat -> A -> list Call) l :
  all_hold (concat (imap f l)) <-> forall i x, l !! i = Some x -> all_hold (f i x).
Proof.
  revert f. induction l as [|y l IH]; intros f; [by split|]. rewrite imap_cons. cbn [concat]. rewrite all_hold_app, IH. split.
  - intros [H1 H2] [|i] x Hx; [by injection Hx as <-|by apply (H2 i x)].
  - intros H. split; [by apply (H 0%nat)|]. intros i x Hx. by apply (H (S i)).
Qed.

(** A bitmap with one bit set selects. *)
Lemma one_bit l : Forall (fun b => b = 0 \/ b = 1) l -> fold_left Z.add l 0 = 1 ->
  exists i, (i < length l)%nat /\ l = <[i := 1]> (replicate (length l) 0).
Proof.
  assert (forall l x, fold_left Z.add l x = x + fold_left Z.add l 0) as Hadd.
  { clear. induction l as [|y l IH]; intros x; cbn [fold_left]; [lia|]. rewrite (IH (x + y)), (IH (0 + y)). lia. }
  assert (forall l, Forall (fun b => b = 0 \/ b = 1) l -> 0 <= fold_left Z.add l 0 /\ (fold_left Z.add l 0 = 0 -> l = replicate (length l) 0)) as Hz.
  { clear l. induction l as [|y l IH]; [done|]. rewrite Forall_cons. intros [Hy Hl]. cbn [fold_left]. rewrite Hadd. destruct (IH Hl) as [H1 H2].
    split; [lia|]. intros E. assert (y = 0) as -> by lia. cbn. f_equal. apply H2. lia. }
  induction l as [|y l IH]; [done|]. rewrite Forall_cons. intros [Hy Hl] E. cbn [fold_left] in E. rewrite Hadd in E. destruct (Hz l Hl) as [H1 H2].
  destruct Hy as [->| ->].
  - destruct (IH Hl ltac:(lia)) as (i & Hi & Ei). exists (S i). cbn. split; [lia|]. f_equal. exact Ei.
  - exists 0%nat. cbn. split; [lia|]. f_equal. apply H2. lia.
Qed.

Lemma index_array_bit arr n i x : length arr = n -> arr !! i = Some x -> index_array arr (<[i := 1]> (replicate n 0)) = x.
Proof.
  intros <- Hi. unfold index_array.
  assert (forall arr acc, fold_left (fun result '(v, i) => result + v * i) (zip arr (replicate (length arr) 0)) acc = acc) as Hz.
  { clear. induction arr as [|y arr IH]; intros acc; [done|]. cbn. rewrite IH. lia. }
  assert (forall arr i x acc, arr !! i = Some x -> fold_left (fun result '(v, i) => result + v * i) (zip arr (<[i := 1]> (replicate (length arr) 0))) acc = acc + x) as H.
  { clear - Hz. induction arr as [|y arr IH]; intros [|i] x acc Hi; try done; cbn in *.
    - rewrite Hz. injection Hi as <-. lia.
    - rewrite (IH i x); [lia|done]. }
  by rewrite (H arr i x 0 Hi).
Qed.

Section Sound.
  Context (r : SyscallInstrColumns) (pv : SyscallPublicValues) (Hwf : wf r) (Hok : row_ok (eval r pv)) (Hreal : ~ is_real r ≡F 0).
  Context (Hpv : length (committed_value_digest pv) = PV_DIGEST_NUM_WORDS /\ length (deferred_proofs_digest pv) = POSEIDON_NUM_WORDS).

Ltac open_wf :=
  let H := fresh "HW" in let H' := fresh "HF" in let H'' := fresh "HZ" in
  pose proof Hwf as (H & Wa & H'' & Wrc & Wbm & Lbm & H'); rewrite !Forall_cons in H; rewrite !Forall_cons in H'; rewrite !Forall_cons in H'';
  destruct H as (Cb & Cc & Ck & _); destruct H'' as (Ze & Zh & Zt & Zc & Zd & _);
  destruct H' as (Cpc & Cnpc & Cs & Cclk & Cx & Ch & Cr & Cre & _).

Abbreviation id := (syscall_code r).[0].

Lemma id_canon : word_canon (syscall_code r).
Proof using Hwf. open_wf. by destruct Wa. Qed.

Lemma syscall_parts : is_real r = 1 /\ row_ok (eval_is_halt_syscall r) /\
  row_ok (when (is_real r) (when (1 - is_halt r) [AssertEq (next_pc r) (pc r + 4)])) /\
  row_ok [AssertEq (num_extra_cycles r) (get_num_extra_ecall_cycles r)] /\
  row_ok (eval_ecall r) /\ row_ok (eval_commit r (committed_value_digest pv) (deferred_proofs_digest pv)) /\ row_ok (eval_halt_unimpl r pv).
Proof using Hok Hreal Hwf.
  pose proof Hok as H. unfold eval in H. rewrite !row_ok_app in H. destruct H as ([[B _] _] & P1 & _ & P3 & P4 & _ & P6 & P7 & P8).
  open_wf. cbn [holds] in B. apply bool_canon in B; [|done]. split; [|done]. destruct B as [B|B]; [rewrite B in Hreal; by destruct Hreal|done].
Qed.

(** A test of the code. *)
Lemma test_result (t : IsZeroOperation.IsZeroOperation) c : IsZeroOperation.wf t ->
  row_ok (IsZeroOperation.eval (id - syscall_id c) t (is_real r)) ->
  IsZeroOperation.result t = from_bool (bool_decide (id = syscall_id c)).
Proof using Hwf Hreal.
  intros [_ W] [P _]. rewrite (is_zero_sound _ _ _ W Hreal P). f_equal. apply bool_decide_ext. rewrite eqF_sub_0. split; [|by intros ->].
  intros E. apply eqF_canon; [done|apply id_canon|]. by destruct c.
Qed.

Lemma syscall_tests :
  is_halt r = from_bool (bool_decide (id = syscall_id HALT)) /\
  IsZeroOperation.result (is_halt_check r) = from_bool (bool_decide (id = syscall_id HALT)) /\
  IsZeroOperation.result (is_enter_unconstrained r) = from_bool (bool_decide (id = syscall_id ENTER_UNCONSTRAINED)) /\
  IsZeroOperation.result (is_hint_len r) = from_bool (bool_decide (id = syscall_id HINT_LEN)) /\
  IsZeroOperation.result (is_commit r) = from_bool (bool_decide (id = syscall_id COMMIT)) /\
  IsZeroOperation.result (is_commit_deferred_proofs r) = from_bool (bool_decide (id = syscall_id COMMIT_DEFERRED_PROOFS)).
Proof using Hok Hreal Hwf.
  destruct syscall_parts as (Er & P1 & _ & _ & P4 & P5 & _). open_wf.
  unfold eval_is_halt_syscall in P1. rewrite row_ok_app in P1. destruct P1 as (T & [[E _] _]). cbn [holds] in E.
  unfold eval_ecall in P4. rewrite !row_ok_app in P4. destruct P4 as (_ & _ & T1 & T2 & _).
  unfold eval_commit, get_is_commit_related_syscall in P5. rewrite !row_ok_app in P5. destruct P5 as ((T3 & T4) & _).
  pose proof (test_result _ _ Zt T) as Et. split; [|split; [exact Et|split; [|split; [|split]]]]; [|by eapply test_result..].
  rewrite Er, Z.mul_1_r, Et in E. apply eqF_canon in E; [done..|apply from_bool_canon].
Qed.

(** COMMIT and COMMIT_DEFERRED_PROOFS name a word of the digest. *)
Lemma syscall_bitmap : id = syscall_id COMMIT \/ id = syscall_id COMMIT_DEFERRED_PROOFS ->
  exists i, (i < PV_DIGEST_NUM_WORDS)%nat /\ index_bitmap r = <[i := 1]> (replicate PV_DIGEST_NUM_WORDS 0) /\ to_u32 (op_b_value r) = Z.of_nat i.
Proof using Hok Hreal Hwf.
  clear Hpv. intros Hid. destruct syscall_parts as (Er & _ & _ & _ & _ & P & _). destruct syscall_tests as (_ & _ & _ & _ & Ec & Ed). open_wf.
  unfold eval_commit, get_is_commit_related_syscall in P. rewrite Ec, Ed in P. rewrite !row_ok_app in P.
  destruct P as (_ & [B _] & [S _] & _ & [I _] & [U _] & _).
  assert (from_bool (bool_decide (id = syscall_id COMMIT)) + from_bool (bool_decide (id = syscall_id COMMIT_DEFERRED_PROOFS)) = 1) as E1
    by (destruct Hid as [-> | ->]; done).
  rewrite E1, Er in *. rewrite !all_hold_when in S. destruct (S ltac:(done) ltac:(done)) as [S1 _]. cbn [holds] in S1.
  assert (Forall (fun b => b = 0 \/ b = 1) (index_bitmap r)) as Hb.
  { apply Forall_forall. intros b Hin. rewrite Forall_forall in Wbm. apply bool_canon; [|by apply Wbm].
    rewrite all_hold_flat_map in B. specialize (B b ltac:(by apply list_elem_of_In)). rewrite all_hold_when in B. destruct (B ltac:(done)) as [Hb _]. exact Hb. }
  assert (fold_left Z.add (index_bitmap r) 0 = 1) as Es.
  { clear - S1 Hb Lbm. apply eqF_small; [done|]. unfold PV_DIGEST_NUM_WORDS in Lbm.
    destruct (index_bitmap r) as [|b0 [|b1 [|b2 [|b3 [|b4 [|b5 [|b6 [|b7 [|]]]]]]]]]; try discriminate Lbm. rewrite !Forall_cons in Hb. cbn [fold_left]. unfold BABYBEAR. lia. }
  destruct (one_bit _ Hb Es) as (i & Hi & Ei). rewrite Lbm in *. exists i. split; [done|]. split; [done|].
  rewrite Ei in I. cbn [flat_map seq app] in U. rewrite !all_hold_app, !all_hold_when in U.
  destruct U as (U1 & U2 & U3 & _). destruct (U1 ltac:(done) ltac:(done)) as [V1 _], (U2 ltac:(done) ltac:(done)) as [V2 _], (U3 ltac:(done) ltac:(done)) as [V3 _].
  cbn [holds widx Nat.add] in V1, V2, V3. destruct Cb as (D0 & D1 & D2 & D3). apply eqF_canon in V1, V2, V3; try done.
  assert (w0 (op_b_value r) = Z.of_nat i) as E0.
  { rewrite all_hold_imap in I. specialize (I i 1). rewrite list_lookup_insert_eq in I by (by rewrite length_replicate).
    rewrite !all_hold_when in I. destruct (I eq_refl ltac:(done) ltac:(done)) as [E _]. cbn [holds widx] in E. apply eqF_canon in E; [done..|].
    unfold canon, BABYBEAR, PV_DIGEST_NUM_WORDS in *. lia. }
  unfold to_u32, from_le_bytes32. rewrite E0, V1, V2, V3. lia.
Qed.

Lemma index_word_bit words i w : length words = PV_DIGEST_NUM_WORDS -> words !! i = Some w ->
  index_word_array words (<[i := 1]> (replicate PV_DIGEST_NUM_WORDS 0)) = w.
Proof using.
  clear. intros Hl Hi. unfold index_word_array, word_of.
  assert (forall j, index_array (map (fun w => w.[j]) words) (<[i := 1]> (replicate PV_DIGEST_NUM_WORDS 0)) = w.[j]) as Hj.
  { intros j. apply index_array_bit; [by rewrite length_map|]. change (map (fun w0 => w0.[j]) words) with (fmap (fun w0 => w0.[j]) words).
    by rewrite list_lookup_fmap, Hi. }
  rewrite !Hj. by destruct w.
Qed.

Lemma assert_word_eq_mod a b : word_canon b -> all_hold (assert_word_eq a b) -> map Fred (limbs a) = limbs b.
Proof using.
  clear. intros (D0 & D1 & D2 & D3) (E0 & E1 & E2 & E3 & _). cbn [holds] in *. unfold limbs. cbn [map].
  rewrite (Fred_eq _ _ E0), (Fred_eq _ _ E1), (Fred_eq _ _ E2), (Fred_eq _ _ E3), !Fred_small by done. done.
Qed.

(** The operand HALT and COMMIT_DEFERRED_PROOFS check is a field element. *)
Lemma syscall_operand : id = syscall_id HALT \/ id = syscall_id COMMIT_DEFERRED_PROOFS ->
  word_bytes (operand_to_check r) -> canon (to_u32 (operand_to_check r)).
Proof using Hok Hreal Hwf.
  clear Hpv. intros Hid Wo. destruct syscall_parts as (Er & _ & _ & _ & P & _). destruct syscall_tests as (_ & Eh & _ & _ & _ & Ed). open_wf.
  unfold eval_ecall in P. rewrite !row_ok_app in P. destruct P as (_ & _ & _ & _ & _ & _ & [[F _] _] & K). cbn [holds] in F.
  assert (ecall_range_check_operand r = 1) as E.
  { apply eqF_canon; [|done..]. rewrite F, Er, Eh, Ed. by destruct Hid as [-> | ->]. }
  rewrite E in K. by apply (range_check_sound _ _ _ Ck Wrc zero_ne_one K).
Qed.

Lemma syscall_a : (id = syscall_id ENTER_UNCONSTRAINED -> value (op_a_access r) = word_zero) /\
  (id <> syscall_id ENTER_UNCONSTRAINED -> id <> syscall_id HINT_LEN -> value (op_a_access r) = syscall_code r).
Proof using Hok Hreal Hwf.
  clear Hpv. destruct syscall_parts as (Er & _ & _ & _ & P & _). destruct syscall_tests as (_ & _ & Ee & Eh & _). open_wf.
  destruct Wa as [Wp (Wv & _)].
  unfold eval_ecall in P. rewrite !row_ok_app, Ee, Eh, Er in P. destruct P as (_ & _ & _ & _ & [K1 _] & [K2 _] & _).
  unfold when_not, when_ne in K2. rewrite !all_hold_when in K1, K2. split.
  - intros E. rewrite E in K1. specialize (K1 ltac:(done) ltac:(done)). by apply assert_word_eq_canon in K1; [|done..].
  - intros N1 N2. rewrite !bool_decide_eq_false_2 in K2 by done. specialize (K2 ltac:(done) ltac:(done)). by apply assert_word_eq_canon in K2; [|done..].
Qed.

Lemma syscall_digests : (id = syscall_id COMMIT -> exists i w, (i < PV_DIGEST_NUM_WORDS)%nat /\
    to_u32 (op_b_value r) = Z.of_nat i /\ committed_value_digest pv !! i = Some w /\ map Fred (limbs w) = limbs (op_c_value r)) /\
  (id = syscall_id COMMIT_DEFERRED_PROOFS -> exists i x, (i < PV_DIGEST_NUM_WORDS)%nat /\
    to_u32 (op_b_value r) = Z.of_nat i /\ deferred_proofs_digest pv !! i = Some x /\
    (word_bytes (op_c_value r) -> canon (to_u32 (op_c_value r)) /\ to_u32 (op_c_value r) ≡F x)).
Proof using Hok Hreal Hwf Hpv.
  destruct Hpv as [L1 L2]. destruct syscall_parts as (Er & _ & _ & _ & _ & P & _). destruct syscall_tests as (_ & _ & _ & _ & Ec & Ed). open_wf.
  unfold eval_commit, get_is_commit_related_syscall in P. rewrite Ec, Ed, Er in P. rewrite !row_ok_app in P.
  destruct P as (_ & _ & _ & _ & _ & _ & [K1 _] & [K2 _] & [K3 _]). rewrite !all_hold_when in K1, K2, K3. split; intros E.
  - destruct (syscall_bitmap (or_introl E)) as (i & Hi & Eb & Ei). destruct (lookup_lt_is_Some_2 (committed_value_digest pv) i) as [w Hw]; [by rewrite L1|].
    exists i, w. split_and!; try done. rewrite E in K1. specialize (K1 ltac:(done) ltac:(done)). rewrite Eb, (index_word_bit _ i w L1 Hw) in K1.
    by apply assert_word_eq_mod.
  - destruct (syscall_bitmap (or_intror E)) as (i & Hi & Eb & Ei). destruct (lookup_lt_is_Some_2 (deferred_proofs_digest pv) i) as [x Hx]; [by rewrite L2|].
    exists i, x. split_and!; try done. intros Wc. rewrite E in K2, K3. specialize (K2 ltac:(done) ltac:(done)). specialize (K3 ltac:(done) ltac:(done)).
    apply assert_word_eq_canon in K2; [|done..]. destruct K3 as [K3 _]. cbn [holds] in K3.
    rewrite Eb, (index_array_bit _ PV_DIGEST_NUM_WORDS i x L2 Hx), reduce_bytes in K3 by done. split; [|by rewrite K3].
    rewrite K2 in *. apply syscall_operand; [by right|done].
Qed.

Lemma syscall_receiver m : m ∈ receives KInstruction (eval r pv) ->
  length (values m) = 23%nat /\ msg 0 (values m) = shard r /\ msg 1 (values m) = clk r /\
  ecall_message pv (values m) (syscall_code r) (value (op_a_access r)).
Proof using Hok Hreal Hwf Hpv.
  intros Hm. rewrite syscall_receives_eq in Hm. apply list_elem_of_singleton in Hm as ->. cbn [values].
  destruct syscall_parts as (Er & _ & P3 & P4 & _ & _ & P8). destruct syscall_tests as (Eh & _). destruct syscall_a as [A1 A2].
  destruct syscall_digests as [D1 D2]. open_wf.
  split; [done|]. split; [by apply Fred_small|]. split; [by apply Fred_small|].
  destruct P3 as [P3 _]. destruct P4 as [[P4 _] _]. destruct P8 as [P8 _]. unfold eval_halt_unimpl in P8.
  rewrite !all_hold_app, !all_hold_when, Eh in P8. destruct P8 as (Q1 & Q2 & Q3). rewrite !all_hold_when, Eh in P3. cbn [holds] in P4.
  constructor; rewrite ?msg_b_eq, ?msg_c_eq, ?word_Fred by done; try done.
  - unfold msg. cbn [instruction_values app nth limbs]. rewrite Fred_small by done. unfold get_num_extra_ecall_cycles in P4. rewrite Er, Z.mul_1_r in P4.
    apply eqF_canon in P4; [done..|]. apply id_canon.
  - unfold msg. cbn [instruction_values app nth limbs]. by rewrite Fred_small.
  - unfold msg_next_pc, msg_pc, msg. cbn [instruction_values app nth limbs]. case_bool_decide as E.
    + destruct (Q1 ltac:(done)) as [K _]. exact K.
    + rewrite Er in P3. destruct (P3 ltac:(done) ltac:(done)) as [K _]. cbn [holds] in K. by rewrite !Fred_eqF.
  - intros E Wb. rewrite bool_decide_eq_true_2 in Q2, Q3 by done. specialize (Q2 ltac:(done)). specialize (Q3 ltac:(done)).
    apply assert_word_eq_canon in Q2; [|done..]. destruct Q3 as [K _]. cbn [holds] in K. rewrite reduce_bytes in K by done. split; [|done].
    rewrite Q2 in *. apply syscall_operand; [by left|done].
Qed.
End Sound.
