(* ===== verification/InstrRows.v ===== *)
(** * The rows that answer instructions

    The rows of the Branch, Jump, Auipc, MemoryInstrs and SyscallInstrs chips
    under one type, and what the lookup arguments need of them: which messages
    they exchange and with which multiplicities. *)

From Stdlib Require Import ZArith Lia Bool.
From stdpp Require Import base list.
From S2P Require Import Prelude Isa SyscallCode Events ByteLookup Record Alu Dependencies State AirBuilder ByteTable MemoryAir Operations ChipSpec.
From S2P Require Import Lookup AluMachine ControlFlow MemInstrChip CpuChip SyscallInstrChip.

Local Open Scope Z_scope.
Local Open Scope rv_scope.

Inductive InstrRow : Type :=
| BranchRow (r : BranchChip.BranchColumns)
| JumpRow (r : JumpChip.JumpColumns)
| AuipcRow (r : AuipcChip.AuipcColumns)
| MemRow (r : MemoryInstructionsChip.MemoryInstructionsColumns)
| SyscallRow (r : SyscallInstrsChip.SyscallInstrColumns).

Definition instr_calls (pv : SyscallInstrsChip.SyscallPublicValues) (row : InstrRow) : list Call :=
  match row with
  | BranchRow r => BranchChip.eval r
  | JumpRow r => JumpChip.eval r
  | AuipcRow r => AuipcChip.eval r
  | MemRow r => MemoryInstructionsChip.eval r
  | SyscallRow r => SyscallInstrsChip.eval r pv
  end.

Definition instr_wf (row : InstrRow) : Prop :=
  match row with
  | BranchRow r => BranchChip.wf r
  | JumpRow r => JumpChip.wf r
  | AuipcRow r => AuipcChip.wf r
  | MemRow r => MemoryInstructionsChip.wf r
  | SyscallRow r => SyscallInstrsChip.wf r
  end.

Definition instr_opcodes (row : InstrRow) : list Opcode :=
  match row with
  | BranchRow _ => branch_opcodes
  | JumpRow _ => jump_opcodes
  | AuipcRow _ => [AUIPC]
  | MemRow _ => mem_opcodes
  | SyscallRow _ => [ECALL]
  end.

(** The multiplicity of the instruction the row receives. *)
Definition instr_real (row : InstrRow) : Z :=
  match row with
  | BranchRow r => BranchChip.is_real r
  | JumpRow r => JumpChip.is_real r
  | AuipcRow r => AuipcChip.is_real r
  | MemRow r => MemoryInstructionsChip.is_real r
  | SyscallRow r => SyscallInstrsChip.is_real r
  end.

(** What a row of any of these chips exchanges. *)
Record instr_shape (calls : list Call) : Prop := {
  is_local : forallb local_call calls = true;
  is_no_table : receives KByte calls = [];
  is_no_program : sends KProgram calls = [] /\ receives KProgram calls = [];
  is_receives : Forall (fun m => boolean (multiplicity m)) (receives KInstruction calls);
  is_flags : Forall (fun m => msg_op_a_0 (values m) = 0) (sends KInstruction calls);
  is_bytes : Forall (fun m => boolean (multiplicity m)) (sends KByte calls);
  is_sends : (forall m, m ∈ receives KInstruction calls -> ~ multiplicity m ≡F 0 -> boolean (msg_op_a_0 (values m))) ->
    bytes_found calls -> Forall (fun m => boolean (multiplicity m)) (sends KInstruction calls)
}.

Ltac each_message := cbn; repeat apply Forall_cons_2; try apply Forall_nil_2; try done.

Lemma branch_shape r : BranchChip.wf r -> all_hold (BranchChip.eval r) -> instr_shape (BranchChip.eval r).
Proof.
  intros Hw Hh. pose proof Hh as H. unfold BranchChip.eval in H. cbn zeta in H. rewrite !all_hold_app in H.
  destruct H as (P0 & _ & _ & _ & _ & _ & _ & P7 & _ & P9 & _). cbn [map all_hold holds] in P0. destruct P0 as (_ & _ & _ & _ & _ & _ & B & _).
  assert (boolean (BranchChip.is_branching r)) as Bb.
  { unfold when_not, when_ne in P7. rewrite all_hold_when in P7, P9. destruct B as [B|B].
    - destruct P7 as [P7 _]; [rewrite B; done|]. by left.
    - destruct P9 as [P9 _]; [rewrite B; done|]. exact P9. }
  constructor; try reflexivity; try (by split).
  - rewrite branch_receives_eq. apply Forall_singleton. exact B.
  - rewrite branch_sends_eq. unfold branch_sends. each_message.
  - rewrite branch_bytes_eq. each_message.
  - intros _ _. rewrite branch_sends_eq. unfold branch_sends. each_message.
Qed.

Lemma jump_shape r : JumpChip.wf r -> all_hold (JumpChip.eval r) -> instr_shape (JumpChip.eval r).
Proof.
  intros Hw Hh. pose proof Hh as H. unfold JumpChip.eval in H. cbn zeta in H. rewrite !all_hold_app in H.
  destruct H as ((B1 & B2 & B & _) & _). constructor; try reflexivity; try (by split).
  - rewrite jump_receives_eq. apply Forall_singleton. exact B.
  - rewrite jump_sends_eq. each_message.
  - rewrite jump_bytes_eq. each_message.
  - intros _ _. rewrite jump_sends_eq. each_message.
Qed.

Lemma auipc_shape r : AuipcChip.wf r -> all_hold (AuipcChip.eval r) -> instr_shape (AuipcChip.eval r).
Proof.
  intros Hw Hh. pose proof Hh as H. unfold AuipcChip.eval in H. cbn zeta in H. rewrite !all_hold_app in H.
  destruct H as ((B1 & _ & _ & B & _) & _ & _ & _ & _ & Hn). rewrite all_hold_when in Hn. constructor; try reflexivity; try (by split).
  - rewrite auipc_receives_eq. apply Forall_singleton. exact B.
  - rewrite auipc_sends_eq. each_message.
  - rewrite auipc_bytes_eq. each_message.
  - intros Hx _. rewrite auipc_sends_eq. apply Forall_singleton. cbn [multiplicity].
    destruct (decide (AuipcChip.op_a_not_0 r ≡F 0)) as [|Hz]; [by left|]. destruct (Hn Hz) as [E _]. cbn [holds] in E.
    rewrite auipc_receives_eq in Hx. assert (boolean (Fred (1 - AuipcChip.op_a_not_0 r))) as [H|H].
    { refine (Hx _ (list_elem_of_here _ _) _). cbn [multiplicity]. by rewrite E. }
    + right. rewrite Fred_eqF, eqF_sub_0 in H. symmetry. exact H.
    + left. rewrite Fred_eqF in H. apply eqF_diff in H as [k H]. apply eqF_diff. exists (- k). lia.
Qed.

Section MemShape.
  Import MemoryInstructionsChip.
  Context (r : MemoryInstructionsColumns) (Hw : MemoryInstructionsChip.wf r) (Hh : all_hold (MemoryInstructionsChip.eval r)).

Lemma mem_booleans : boolean (is_real r) /\ boolean (is_lb r + is_lh r) /\ boolean (op_a_0 r) /\
  boolean (IsZeroOperation.result (most_sig_bytes_zero r)).
Proof using Hw Hh.
  pose proof Hh as H. unfold eval in H. rewrite !all_hold_app in H. destruct H as (P0 & P1 & _).
  cbn [map all_hold holds] in P0. destruct P0 as (B1 & B2 & B3 & B4 & B5 & B6 & B7 & B8 & BR & B0 & _).
  destruct Hw as (_ & _ & _ & _ & F & _). rewrite !Forall_cons in F. destruct F as (_ & _ & _ & _ & C1 & C2 & C3 & C4 & C5 & C6 & C7 & C8 & _).
  apply bool_canon in B1, B2, B3, B4, B5, B6, B7, B8; try done.
  split; [exact BR|]. split; [|split; [exact B0|]].
  - unfold is_real in BR. clear - B1 B2 B3 B4 B5 B6 B7 B8 BR.
    assert (is_lb r + is_lh r = 0 \/ is_lb r + is_lh r = 1) as [-> | ->]; [|by left|by right].
    destruct BR as [BR|BR]; (apply eqF_small in BR; [lia|unfold BABYBEAR; lia]).
  - unfold eval_memory_address_and_access in P1. rewrite !all_hold_app in P1. destruct P1 as (_ & _ & _ & _ & Q & Z & _).
    rewrite all_hold_when in Q. unfold IsZeroOperation.eval in Z. rewrite !all_hold_app, !all_hold_when in Z. destruct Z as (_ & Z & _).
    destruct (decide (IsZeroOperation.result (most_sig_bytes_zero r) ≡F 0)) as [|Hn]; [by left|].
    destruct (Q Hn) as [E _]. cbn [holds] in E. destruct Z as [Z _]; [by rewrite E|]. exact Z.
Qed.

Lemma mem_neg_boolean : bytes_found (eval r) -> boolean (mem_value_is_neg_not_x0 r).
Proof using Hw Hh.
  destruct mem_booleans as (_ & Bs & B0 & _). intros Hb. pose proof Hh as H. unfold eval in H, Hb. rewrite !all_hold_app in H. rewrite !bytes_found_app in Hb.
  destruct H as (_ & _ & P & _). destruct Hb as (_ & _ & Q & _). unfold eval_memory_load in P, Q. rewrite !all_hold_app in P. rewrite !bytes_found_app in Q.
  destruct P as (_ & [N _] & _). destruct Q as (_ & _ & [M _] & _). cbn [holds] in N. cbn [call_found kind multiplicity values] in M.
  destruct Hw as (_ & _ & _ & _ & _ & F). rewrite !Forall_cons in F. destruct F as (_ & _ & _ & _ & _ & Cbit & Cbyte & _).
  destruct (decide (is_lb r + is_lh r ≡F 0)) as [Ez|Hz].
  - left. by rewrite N, Ez.
  - destruct (msb_found _ _ Cbit Cbyte (M Hz)) as [U E]. rewrite is_u8_iff in U.
    assert (boolean (most_sig_bit r)) as Bb.
    { assert (most_sig_bit r = 0 \/ most_sig_bit r = 1) as [-> | ->]; [rewrite E; Z.div_mod_to_equations; lia|by left|by right]. }
    assert (boolean (1 - op_a_0 r)) as B0' by (destruct B0 as [B0|B0]; [right|left]; by rewrite B0).
    destruct (boolean_mul _ _ (boolean_mul _ _ Bs Bb) B0') as [K|K]; [left|right]; by rewrite N.
Qed.

Lemma mem_shape : instr_shape (eval r).
Proof using Hw Hh.
  destruct mem_booleans as (Br & Bs & B0 & Bz). constructor; try reflexivity; try (by split).
  - rewrite mem_receives_eq. apply Forall_singleton. exact Br.
  - rewrite mem_sends_eq. each_message.
  - each_message.
  - intros _ Hb. rewrite mem_sends_eq. pose proof (mem_neg_boolean Hb). each_message.
Qed.
End MemShape.

(** Constraints exchange nothing. *)
Definition constraint_call (c : Call) : bool :=
  match c with Send _ _ | Receive _ _ => false | _ => true end.

Lemma constraints_silent k calls : forallb constraint_call calls = true ->
  sends k calls = [] /\ receives k calls = [] /\ forallb local_call calls = true.
Proof.
  induction calls as [|c calls IH]; cbn [forallb]; [done|]. intros [Hc H]%andb_true_iff. destruct (IH H) as (E1 & E2 & E3).
  unfold sends, receives in *. cbn [omap list_omap]. by destruct c.
Qed.

Lemma constraints_flat_map {A} (f : A -> list Call) l : (forall x, forallb constraint_call (f x) = true) -> forallb constraint_call (flat_map f l) = true.
Proof. intros Hf. induction l as [|x l IH]; [done|]. cbn [flat_map]. by rewrite forallb_app, Hf, IH. Qed.

Lemma constraints_imap {A} (f : nat -> A -> list Call) l : (forall i x, forallb constraint_call (f i x) = true) -> forallb constraint_call (concat (imap f l)) = true.
Proof.
  revert f. induction l as [|x l IH]; intros f Hf; [done|]. rewrite imap_cons. cbn [concat]. rewrite forallb_app, Hf, IH; [done|]. intros. apply Hf.
Qed.

Section SyscallShape.
  Import SyscallInstrsChip.
  Context (r : SyscallInstrColumns) (pv : SyscallPublicValues) (Hw : SyscallInstrsChip.wf r) (Hh : all_hold (SyscallInstrsChip.eval r pv)).

Lemma commit_constraints dg dd : forallb constraint_call (eval_commit r dg dd) = true.
Proof using.
  clear. unfold eval_commit, get_is_commit_related_syscall. rewrite !forallb_app, (constraints_flat_map _ (index_bitmap r)), constraints_imap by done. done.
Qed.

(** The byte lookups: those of the access and of the operand check. *)
Lemma syscall_messages k : k <> KInstruction -> k <> KMemory -> k <> KSyscall ->
  sends k (eval r pv) = sends k (eval_memory_access (shard r) (clk r + position_u32 PA) (reg_idx X5) (op_a_access r) (is_real r) ++
    BabyBearWordRangeChecker.range_check (operand_to_check r) (operand_range_check_cols r) (ecall_range_check_operand r)) /\
  receives k (eval r pv) = [].
Proof using.
  clear. intros H1 H2 H3. destruct (constraints_silent k _ (commit_constraints (committed_value_digest pv) (deferred_proofs_digest pv))) as (E1 & E2 & _).
  unfold eval. rewrite !sends_app, !receives_app, E1, E2. destruct k; try done; split; reflexivity.
Qed.

Lemma syscall_operand_boolean : boolean (is_real r) /\ boolean (ecall_range_check_operand r).
Proof using Hw Hh.
  pose proof Hh as H. unfold eval in H. rewrite !all_hold_app in H. destruct H as ([B _] & H1 & _ & _ & _ & _ & H6 & H7 & _). cbn [holds] in B. split; [exact B|].
  unfold eval_is_halt_syscall in H1. rewrite all_hold_app in H1. destruct H1 as [T1 _].
  unfold eval_commit, get_is_commit_related_syscall in H7. rewrite !all_hold_app in H7. destruct H7 as ((_ & T2) & _).
  unfold eval_ecall in H6. rewrite !all_hold_app in H6. destruct H6 as (_ & _ & _ & _ & _ & _ & [E _] & _). cbn [holds] in E.
  destruct Hw as (_ & _ & W & _). rewrite !Forall_cons in W. destruct W as (_ & _ & [_ W1] & _ & [_ W2] & _).
  destruct (decide (is_real r ≡F 0)) as [Ez|Hz]; [left; by rewrite E, Ez|].
  rewrite (is_zero_sound _ _ _ W1 Hz T1), (is_zero_sound _ _ _ W2 Hz T2) in E. destruct B as [B|B]; [done|].
  set (x := (syscall_code r).[0]) in *. clearbody x.
  case_bool_decide as D1; case_bool_decide as D2; unfold boolean; rewrite E, B; cbn; try (by left); try (by right).
  rewrite eqF_sub_0 in D1, D2. rewrite D1 in D2. discriminate D2.
Qed.

Lemma syscall_shape : instr_shape (eval r pv).
Proof using Hw Hh.
  destruct syscall_operand_boolean as [Br Bo]. destruct (constraints_silent KInstruction _ (commit_constraints (committed_value_digest pv) (deferred_proofs_digest pv))) as (E1 & _ & E3).
  assert (sends KInstruction (eval r pv) = []) as Es by (unfold eval; rewrite !sends_app, E1; reflexivity).
  constructor.
  - unfold eval. rewrite !forallb_app, E3. reflexivity.
  - by apply syscall_messages.
  - split; [etrans; [by apply syscall_messages|reflexivity]|by apply syscall_messages].
  - rewrite syscall_receives_eq. apply Forall_singleton. exact Br.
  - rewrite Es. constructor.
  - destruct (syscall_messages KByte ltac:(done) ltac:(done) ltac:(done)) as [-> _]. each_message.
  - intros _ _. rewrite Es. constructor.
Qed.
End SyscallShape.

Lemma instr_row_shape pv row : instr_wf row -> all_hold (instr_calls pv row) -> instr_shape (instr_calls pv row).
Proof. destruct row; cbn [instr_wf instr_calls]; [apply branch_shape|apply jump_shape|apply auipc_shape|apply mem_shape|apply syscall_shape]. Qed.

(** A live row receives one of its opcodes. *)
Lemma instr_row_answers pv row m : instr_wf row -> row_ok (instr_calls pv row) -> m ∈ receives KInstruction (instr_calls pv row) ->
  ~ multiplicity m ≡F 0 -> answers (instr_opcodes row) (values m).
Proof.
  intros Hw Ho Hm Hz. destruct row as [r|r|r|r|r]; cbn [instr_wf instr_calls instr_opcodes] in *.
  - rewrite branch_receives_eq in Hm. apply list_elem_of_singleton in Hm as ->. cbn [multiplicity values] in *.
    destruct (branch_selected r Hw Ho Hz) as [o Hsel]. destruct (selected_facts r o Hsel) as (_ & _ & ->). eapply answers_intro; [apply Hsel|done].
  - rewrite jump_receives_eq in Hm. apply list_elem_of_singleton in Hm as ->. cbn [multiplicity values] in *.
    destruct (jump_selected r Hw Ho Hz) as (_ & [[-> ->]|[-> ->]]);
      [eapply (answers_intro _ _ _ _ _ _ _ _ _ _ _ _ _ _ _ JAL)|eapply (answers_intro _ _ _ _ _ _ _ _ _ _ _ _ _ _ _ JALR)]; (cbn; tauto) || done.
  - rewrite auipc_receives_eq in Hm. apply list_elem_of_singleton in Hm as ->. cbn [multiplicity values] in *. unfold AuipcChip.is_real in Hz.
    destruct (auipc_selected r Hw Ho) as (E1 & E2 & E3). rewrite E1, E2 in *. destruct E3 as [E3|E3]; rewrite E3 in *; [by destruct Hz|].
    eapply (answers_intro _ _ _ _ _ _ _ _ _ _ _ _ _ _ _ AUIPC); [by left|done].
  - rewrite mem_receives_eq in Hm. apply list_elem_of_singleton in Hm as ->. cbn [multiplicity values] in *.
    destruct (mem_selected r Hw Ho Hz) as [o Hsel]. destruct (mem_facts r o Hsel) as (_ & -> & _). eapply answers_intro; [apply Hsel|done].
  - rewrite syscall_receives_eq in Hm. apply list_elem_of_singleton in Hm as ->. cbn [multiplicity values] in *.
    eapply (answers_intro _ _ _ _ _ _ _ _ _ _ _ _ _ _ _ ECALL); [by left|done].
Qed.

(** The instructions the rows send are ALU instructions. *)
Lemma instr_row_sends pv row m : instr_wf row -> row_ok (instr_calls pv row) -> m ∈ sends KInstruction (instr_calls pv row) ->
  ~ multiplicity m ≡F 0 -> answers alu_opcodes (values m).
Proof.
  intros Hw Ho Hm Hz. assert (forall o a b c, In o alu_opcodes -> answers alu_opcodes (dep_values o a b c)) as Hdep.
  { intros o a b c Hin. exists o. split; [done|apply msg_opcode_dep]. }
  destruct row as [r|r|r|r|r]; cbn [instr_wf instr_calls] in *.
  - rewrite branch_sends_eq in Hm. unfold branch_sends in Hm. cbn zeta in Hm. rewrite !elem_of_cons in Hm.
    assert (BranchChip.is_real r ≡F 0 \/ exists o, (BranchChip.is_blt r + BranchChip.is_bge r) * opcode_u32 SLT
      + (1 - (BranchChip.is_blt r + BranchChip.is_bge r)) * opcode_u32 SLTU = opcode_u32 o /\ In o [SLT; SLTU]) as Hc.
    { destruct (decide (BranchChip.is_real r ≡F 0)) as [|Hr]; [by left|]. right. destruct (branch_selected r Hw Ho Hr) as [o Hsel].
      destruct (selected_facts r o Hsel) as (_ & -> & _). exists (if BranchChip.use_signed_comparison o then SLT else SLTU).
      destruct (BranchChip.use_signed_comparison o); (split; [done|cbn; tauto]). }
    destruct Hm as [-> | [-> | [-> | Hm%not_elem_of_nil]]]; cbn [values multiplicity] in *; [by apply (Hdep ADD); left| | |done];
      (destruct Hc as [Hc|(o & -> & Hin)]; [done|]); apply (Hdep o); cbn in Hin |- *; tauto.
  - rewrite jump_sends_eq, !elem_of_cons in Hm. destruct Hm as [-> | [-> | Hm%not_elem_of_nil]]; [by apply (Hdep ADD); left..|done].
  - rewrite auipc_sends_eq, !elem_of_cons in Hm. destruct Hm as [-> | Hm%not_elem_of_nil]; [by apply (Hdep ADD); left|done].
  - rewrite mem_sends_eq, !elem_of_cons in Hm. destruct Hm as [-> | [-> | Hm%not_elem_of_nil]]; [by apply (Hdep ADD); left|by apply (Hdep SUB); right; left|done].
  - destruct Ho as [Hh _]. destruct (constraints_silent KInstruction _ (commit_constraints r (SyscallInstrsChip.committed_value_digest pv)
      (SyscallInstrsChip.deferred_proofs_digest pv))) as (E1 & _).
    assert (sends KInstruction (SyscallInstrsChip.eval r pv) = []) as Es by (unfold SyscallInstrsChip.eval; rewrite !sends_app, E1; reflexivity).
    rewrite Es in Hm. by apply not_elem_of_nil in Hm.
Qed.

(** The rows of the Cpu chip, given that the instruction of a live row says
    whether its destination is [x0]. *)
Lemma cpu_shape at_ pv r next : all_hold (CpuChip.eval at_ pv r next) ->
  forallb local_call (CpuChip.eval at_ pv r next) = true /\ receives KByte (CpuChip.eval at_ pv r next) = [] /\
  receives KInstruction (CpuChip.eval at_ pv r next) = [] /\ receives KProgram (CpuChip.eval at_ pv r next) = [] /\
  boolean (CpuChip.is_real r) /\ Forall (fun m => boolean (multiplicity m)) (sends KByte (CpuChip.eval at_ pv r next)).
Proof.
  intros H. unfold CpuChip.eval in H. cbn zeta in H. rewrite !all_hold_app in H. destruct H as (_ & P & _ & _ & _ & _ & _ & Q & _).
  unfold CpuChip.eval_is_real in Q. rewrite !all_hold_app in Q. destruct Q as ([B _] & _). cbn [holds] in B.
  unfold CpuChip.eval_registers in P. rewrite !all_hold_app in P. destruct P as (_ & _ & A1 & A2 & _ & A3 & _).
  apply access_bool in A1, A2, A3. split_and!; try reflexivity; [exact B|]. each_message.
Qed.
