(* ===== verification/RiscvMachine.v ===== *)
(** * A shard of the machine

    The rows of the Cpu chip, of the chips that answer its instructions, of the
    program and byte tables, and whatever rows the other chips have.  From the
    constraints of the rows and the balance of the byte, program and instruction
    lookups, every live Cpu row executes the instruction of the program at its
    program counter. *)

From Stdlib Require Import ZArith Lia Bool.
From stdpp Require Import base list.
From S2P Require Import Prelude Isa SyscallCode Memory Events ByteLookup Record Alu Dependencies State Executor Access Refinement AirBuilder ByteTable.
From S2P Require Import MemoryAir Operations ChipSpec Lookup AluMachine ControlFlow MemInstrChip CpuChip SyscallInstrChip InstrRows.

Local Open Scope Z_scope.
Local Open Scope rv_scope.

(** ** Shards *)

Record RiscvShard : Type := mkRiscvShard {
  rs_program : Program;
  program_mults : list ProgramChip.ProgramMultiplicityCols;
  cpu_trace : list CpuChip.CpuCols;
  instr_trace : list InstrRow;
  alu_trace : list AluRow;
  rs_byte_mults : list (list Z);
  rest_rows : list (list Call);
  cpu_pv : CpuChip.CpuPublicValues;
  syscall_pv : SyscallInstrsChip.SyscallPublicValues
}.

(** The rows of a chip that looks at the next row; the last row sees the first. *)
Definition cpu_row (s : RiscvShard) (i : nat) (r : CpuChip.CpuCols) : list Call :=
  CpuChip.eval (row_position (length (cpu_trace s)) i) (cpu_pv s) r
    (nth (S i mod length (cpu_trace s)) (cpu_trace s) r).

Definition cpu_rows (s : RiscvShard) : list (list Call) := imap (cpu_row s) (cpu_trace s).

Definition program_rows (s : RiscvShard) : list (list Call) :=
  zip_with ProgramChip.eval (ProgramChip.generate_preprocessed_trace (rs_program s) (length (program_mults s))) (program_mults s).

Definition alu_shard (s : RiscvShard) : AluShard :=
  mkAluShard (alu_trace s) (rs_byte_mults s)
    (cpu_rows s ++ map (instr_calls (syscall_pv s)) (instr_trace s) ++ program_rows s ++ rest_rows s).

Abbreviation all_rows s := (shard_rows (alu_shard s)).

(** The other chips take no part in the instruction and program lookups and
    look each byte up at most once per row. *)
Record rest_row_ok (calls : list Call) : Prop := {
  rest_instructions : sent KInstruction calls = [] /\ received KInstruction calls = [];
  rest_program : sent KProgram calls = [] /\ received KProgram calls = [];
  rest_bytes : Forall (fun m => boolean (multiplicity m)) (sent KByte calls) /\ received KByte calls = []
}.

Record accepted_shard (s : RiscvShard) : Prop := {
  as_wf : Forall CpuChip.wf (cpu_trace s) /\ Forall instr_wf (instr_trace s) /\ Forall row_wf (alu_trace s);
  as_hold : Forall all_hold (cpu_rows s) /\ Forall (fun row => all_hold (instr_calls (syscall_pv s) row)) (instr_trace s) /\
    Forall (fun row => all_hold (row_calls row)) (alu_trace s);
  as_rest : Forall rest_row_ok (rest_rows s);
  as_bytes : balanced Local KByte (concat (all_rows s));
  as_instructions : balanced Local KInstruction (concat (all_rows s));
  as_program : balanced Local KProgram (concat (all_rows s));
  as_few : Z.of_nat (length (sent KByte (concat (all_rows s)))) < BABYBEAR /\
    Z.of_nat (length (sent KInstruction (concat (all_rows s)))) < BABYBEAR /\
    Z.of_nat (length (received KInstruction (concat (all_rows s)))) < BABYBEAR /\
    Z.of_nat (length (sent KProgram (concat (all_rows s)))) < BABYBEAR
}.

(** The instruction of a row is the one of the program, or a row of padding of
    the program table: [add x0, x0, x0] at address 0. *)
Definition fetched (p : Program) (pc : Z) (cols : InstructionCols.InstructionCols) : Prop :=
  (exists idx i, instructions p !! idx = Some i /\ pc = Fred (u32 (pc_base p + u32 (Z.of_nat idx * 4))) /\ cols = InstructionCols.populate i) \/
  pc = 0 /\ cols = InstructionCols.zero.

Lemma program_received s m : m ∈ received KProgram (concat (program_rows s)) ->
  exists pc cols, fetched (rs_program s) pc cols /\ values m = program_values pc cols.
Proof.
  intros (row & Hrow & Hm)%received_concat. unfold program_rows in Hrow. apply elem_of_zip_with in Hrow as (c & mu & -> & Hc & _).
  unfold ProgramChip.eval, receive_program, received, receives_in in Hm. cbn in Hm. apply list_elem_of_singleton in Hm as ->.
  exists (ProgramChip.pc c), (ProgramChip.instruction c). split; [|done]. unfold ProgramChip.generate_preprocessed_trace in Hc.
  apply elem_of_app in Hc as [Hc|Hc].
  - left. unfold ProgramChip.preprocessed_rows in Hc. apply list_elem_of_lookup in Hc as [idx Hc]. rewrite list_lookup_imap in Hc.
    destruct (instructions (rs_program s) !! idx) as [i|] eqn:E; [|done]. injection Hc as <-. by exists idx, i.
  - right. apply elem_of_replicate in Hc as [-> _]. done.
Qed.

(** Programs whose addresses are field elements. *)
Record program_ok (p : Program) : Prop := {
  po_instructions : Forall wf_instruction (instructions p);
  po_base : 0 < pc_base p /\ pc_base p + 4 * Z.of_nat (length (instructions p)) < BABYBEAR
}.

Lemma instruction_cols_wf i : wf_instruction i -> InstructionCols.wf (InstructionCols.populate i).
Proof.
  intros (Ha & _). split; [apply word_from_canon|]. split; [apply word_from_canon|].
  unfold InstructionCols.populate. cbn [InstructionCols.opcode InstructionCols.op_a InstructionCols.op_a_0 InstructionCols.imm_b InstructionCols.imm_c].
  repeat apply Forall_cons_2; try apply from_bool_canon; [by destruct (opcode i)|unfold canon, BABYBEAR; lia|apply Forall_nil_2].
Qed.

Lemma program_values_inj pc pc' c c' : canon pc -> canon pc' -> InstructionCols.wf c -> InstructionCols.wf c' ->
  same_values (program_values pc c) (program_values pc' c') -> pc = pc' /\ c = c'.
Proof.
  intros Hp Hp' (B & C & F) (B' & C' & F') E. unfold same_values, program_values, InstructionCols.into_iter in E. cbn [app map limbs] in E.
  rewrite !Forall_cons in F. rewrite !Forall_cons in F'. destruct F as (F0 & F1 & F2 & F3 & F4 & _), F' as (G0 & G1 & G2 & G3 & G4 & _).
  destruct c as [o a b c0 z ib ic], c' as [o' a' b' c0' z' ib' ic']. cbn [InstructionCols.opcode InstructionCols.op_a InstructionCols.op_b
    InstructionCols.op_c InstructionCols.op_a_0 InstructionCols.imm_b InstructionCols.imm_c] in *.
  destruct B as (?&?&?&?), C as (?&?&?&?), B' as (?&?&?&?), C' as (?&?&?&?). destruct b as [b0 b1 b2 b3], c0 as [c0 c1 c2 c3], b' as [b0' b1' b2' b3'], c0' as [c0' c1' c2' c3']. cbn [w0 w1 w2 w3] in *.
  rewrite !Fred_small in E by done. injection E. intros. by subst.
Qed.

Lemma alu_no_program row : sends KProgram (row_calls row) = [] /\ receives KProgram (row_calls row) = [].
Proof.
  destruct row; cbn [row_calls].
  - by split.
  - by split.
  - unfold LtChip.LtChip.eval. destruct (LtChip.LtChip.comparison_bytes r). by split.
  - unfold ShiftLeftChip.ShiftLeft.eval. split; silent_kind.
  - unfold ShiftRightChip.ShiftRightChip.eval. cbn [flat_map]. split; silent_kind.
  - unfold MulChip.MulChip.eval. split; silent_kind.
  - unfold DivRemChip.DivRemChip.eval. split; silent_kind.
Qed.

#[export] Instance answers_dec os vals : Decision (answers os vals).
Proof.
  refine (cast_if (decide (Exists (fun o => msg_opcode vals = opcode_u32 o) os)));
    unfold answers; setoid_rewrite <- list_elem_of_In; by rewrite <- Exists_exists.
Defined.

Section Machine.
  Context (s : RiscvShard) (Hacc : accepted_shard s) (Hp : program_ok (rs_program s)).
  Abbreviation calls := (concat (all_rows s)).

(** ** Where the rows are *)

Lemma cpu_row_hold i r : cpu_trace s !! i = Some r -> CpuChip.wf r /\ all_hold (cpu_row s i r) /\ cpu_row s i r ∈ all_rows s.
Proof using Hacc.
  intros Hi. destruct (as_wf s Hacc) as (W & _). destruct (as_hold s Hacc) as (H & _). rewrite Forall_forall in W. rewrite Forall_forall in H.
  assert (cpu_row s i r ∈ cpu_rows s) as Hin.
  { apply list_elem_of_lookup. exists i. unfold cpu_rows. by rewrite list_lookup_imap, Hi. }
  split; [apply W; by eapply list_elem_of_lookup_2|]. split; [by apply H|]. unfold shard_rows. rewrite !elem_of_app. right. right.
  cbn [other_rows alu_shard]. rewrite !elem_of_app. by left.
Qed.

Lemma instr_row_hold row : row ∈ instr_trace s -> instr_wf row /\ all_hold (instr_calls (syscall_pv s) row) /\ instr_calls (syscall_pv s) row ∈ all_rows s.
Proof using Hacc.
  intros Hi. destruct (as_wf s Hacc) as (_ & W & _). destruct (as_hold s Hacc) as (_ & H & _). rewrite Forall_forall in W. rewrite Forall_forall in H.
  split; [by apply W|]. split; [by apply H|]. unfold shard_rows. rewrite !elem_of_app. right. right.
  cbn [other_rows alu_shard]. rewrite !elem_of_app. right. left. apply list_elem_of_In, in_map, list_elem_of_In, Hi.
Qed.

(** The rows of the other kind. *)
Lemma other_row_cases row : row ∈ other_rows (alu_shard s) ->
  (exists i r, cpu_trace s !! i = Some r /\ row = cpu_row s i r) \/
  (exists x, x ∈ instr_trace s /\ row = instr_calls (syscall_pv s) x) \/ row ∈ program_rows s \/ row ∈ rest_rows s.
Proof using.
  cbn [other_rows alu_shard]. rewrite !elem_of_app. intros [H|[H|[H|H]]]; [left|right; left|by right; right; left|by right; right; right].
  - unfold cpu_rows in H. apply list_elem_of_lookup in H as [i H]. rewrite list_lookup_imap in H.
    destruct (cpu_trace s !! i) as [r|] eqn:E; [|done]. injection H as <-. by exists i, r.
  - apply list_elem_of_In, in_map_iff in H as (x & <- & Hx%list_elem_of_In). by exists x.
Qed.

Lemma program_row_calls row : row ∈ program_rows s -> sends_in Local row = [] /\ exists m, receives_in Local row = [m] /\ kind m = KProgram.
Proof using. unfold program_rows. intros (c & mu & -> & _)%elem_of_zip_with. split; [done|]. by eexists. Qed.

Lemma program_row_silent row k : row ∈ program_rows s -> sent k row = [] /\ (k <> KProgram -> received k row = []).
Proof using.
  intros Hr. destruct (program_row_calls row Hr) as (E1 & m & E2 & Ek). unfold sent, received. rewrite E1, E2. split; [done|].
  intros Hk. rewrite filter_cons, decide_False by congruence. done.
Qed.

(** ** Fetching *)

Lemma program_sent m : m ∈ sent KProgram calls -> exists i r, cpu_trace s !! i = Some r /\
  m = mkAirInteraction (program_values (CpuChip.pc r) (CpuChip.instruction r)) (CpuChip.is_real r) KProgram.
Proof using Hacc.
  intros (row & Hrow & Hm)%sent_concat. unfold shard_rows in Hrow. rewrite !elem_of_app in Hrow. destruct Hrow as [Hr|[Hr|Hr]].
  - exfalso. apply list_elem_of_In, in_map_iff in Hr as (x & <- & Hx%list_elem_of_In). destruct (as_hold s Hacc) as (_ & _ & H). rewrite Forall_forall in H.
    unfold sent in Hm. rewrite local_sends in Hm by (by apply shape_local, alu_row_shape, H).
    rewrite (proj1 (alu_no_program x)) in Hm. by apply not_elem_of_nil in Hm.
  - exfalso. unfold byte_rows in Hr. apply elem_of_zip_with in Hr as (c & mults & -> & _).
    assert (forall l, sent KProgram (flat_map (fun '(o, x) => ByteChip.receive_row (ByteChip.received c o) x) l) = []) as E.
    { induction l as [|[o x] l IH]; [done|]. cbn [flat_map]. by destruct o. }
    unfold ByteChip.eval in Hm. rewrite E in Hm. by apply not_elem_of_nil in Hm.
  - apply other_row_cases in Hr as [(i & r & Hi & ->)|[(x & Hx & ->)|[Hr|Hr]]].
    + destruct (cpu_row_hold i r Hi) as (_ & Hh & _). unfold sent, cpu_row in Hm. rewrite local_sends in Hm by (by apply cpu_shape).
      rewrite cpu_program_eq in Hm. apply list_elem_of_singleton in Hm as ->. by exists i, r.
    + exfalso. destruct (instr_row_hold x Hx) as (Hw & Hh & _). pose proof (instr_row_shape _ _ Hw Hh) as Hs.
      unfold sent in Hm. rewrite local_sends in Hm by apply Hs. rewrite (proj1 (is_no_program _ Hs)) in Hm. by apply not_elem_of_nil in Hm.
    + exfalso. destruct (program_row_silent row KProgram Hr) as [E _]. rewrite E in Hm. by apply not_elem_of_nil in Hm.
    + exfalso. pose proof (as_rest s Hacc) as R. rewrite Forall_forall in R. rewrite (proj1 (rest_program _ (R row Hr))) in Hm. by apply not_elem_of_nil in Hm.
Qed.

Lemma program_receives m : m ∈ received KProgram calls -> exists pc cols, fetched (rs_program s) pc cols /\ values m = program_values pc cols.
Proof using Hacc.
  intros (row & Hrow & Hm)%received_concat. unfold shard_rows in Hrow. rewrite !elem_of_app in Hrow. destruct Hrow as [Hr|[Hr|Hr]].
  - exfalso. apply list_elem_of_In, in_map_iff in Hr as (x & <- & Hx%list_elem_of_In). destruct (as_hold s Hacc) as (_ & _ & H). rewrite Forall_forall in H.
    unfold received in Hm. rewrite local_receives in Hm by (by apply shape_local, alu_row_shape, H).
    rewrite (proj2 (alu_no_program x)) in Hm. by apply not_elem_of_nil in Hm.
  - exfalso. unfold byte_rows in Hr. apply elem_of_zip_with in Hr as (c & mults & -> & _).
    assert (forall l, received KProgram (flat_map (fun '(o, x) => ByteChip.receive_row (ByteChip.received c o) x) l) = []) as E.
    { induction l as [|[o x] l IH]; [done|]. cbn [flat_map]. by destruct o. }
    unfold ByteChip.eval in Hm. rewrite E in Hm. by apply not_elem_of_nil in Hm.
  - apply other_row_cases in Hr as [(i & r & Hi & ->)|[(x & Hx & ->)|[Hr|Hr]]].
    + exfalso. destruct (cpu_row_hold i r Hi) as (_ & Hh & _). destruct (cpu_shape _ _ _ _ Hh) as (Hl & _ & _ & E & _).
      unfold received in Hm. unfold cpu_row in *. rewrite local_receives, E in Hm by done. by apply not_elem_of_nil in Hm.
    + exfalso. destruct (instr_row_hold x Hx) as (Hw & Hh & _). pose proof (instr_row_shape _ _ Hw Hh) as Hs.
      unfold received in Hm. rewrite local_receives in Hm by apply Hs. rewrite (proj2 (is_no_program _ Hs)) in Hm. by apply not_elem_of_nil in Hm.
    + apply (program_received s). apply received_concat. by exists row.
    + exfalso. pose proof (as_rest s Hacc) as R. rewrite Forall_forall in R. rewrite (proj2 (rest_program _ (R row Hr))) in Hm. by apply not_elem_of_nil in Hm.
Qed.

Lemma fetched_wf pc cols : fetched (rs_program s) pc cols -> canon pc /\ InstructionCols.wf cols.
Proof using Hp.
  intros [(idx & i & Hi & -> & ->)|[-> ->]]; [split; [apply Fred_canon|]|split; [done|]].
  - apply instruction_cols_wf. pose proof (po_instructions _ Hp) as H. rewrite Forall_forall in H. apply H. by eapply list_elem_of_lookup_2.
  - split; [done|]. split; [done|]. by repeat apply Forall_cons_2.
Qed.

Lemma cpu_fetched i r : cpu_trace s !! i = Some r -> ~ CpuChip.is_real r ≡F 0 -> fetched (rs_program s) (CpuChip.pc r) (CpuChip.instruction r).
Proof using Hacc Hp.
  intros Hi Hz. destruct (cpu_row_hold i r Hi) as (Hw & Hh & Hin).
  set (m := mkAirInteraction (program_values (CpuChip.pc r) (CpuChip.instruction r)) (CpuChip.is_real r) KProgram).
  assert (m ∈ sent KProgram calls) as Hm.
  { apply sent_concat. exists (cpu_row s i r). split; [done|]. unfold sent, cpu_row in *. rewrite local_sends by (by apply cpu_shape).
    rewrite cpu_program_eq. left. }
  assert (Forall (fun m => boolean (multiplicity m)) (sent KProgram calls)) as Hb.
  { apply Forall_forall. intros m' (i' & r' & Hi' & ->)%program_sent. destruct (cpu_row_hold i' r' Hi') as (_ & Hh' & _). by apply (cpu_shape _ _ _ _ Hh'). }
  pose proof (as_program s Hacc (values m)) as HB. destruct (as_few s Hacc) as (_ & _ & _ & Hf).
  destruct (partner _ _ _ m HB Hb Hf Hm eq_refl Hz) as (m' & Hm' & Hv & _).
  destruct (program_receives m' Hm') as (pc & cols & Hfe & Ev). rewrite Ev in Hv. destruct (fetched_wf _ _ Hfe) as [Cpc Wc].
  destruct Hw as (Wi & _ & _ & _ & F & _). rewrite !Forall_cons in F. destruct F as (_ & _ & _ & _ & _ & Cpc' & _).
  apply program_values_inj in Hv as [-> ->]; try done.
Qed.

Lemma fetched_flag pc cols : fetched (rs_program s) pc cols -> InstructionCols.op_a_0 cols = 0 \/ InstructionCols.op_a_0 cols = 1.
Proof using. intros [(idx & i & _ & _ & ->)|[_ ->]]; [|by left]. cbn. destruct (_ =? _); [by right|by left]. Qed.

(** ** The chips *)

Lemma cpu_other i r : cpu_trace s !! i = Some r -> other_row_ok (cpu_row s i r).
Proof using Hacc Hp.
  intros Hi. destruct (cpu_row_hold i r Hi) as (Hw & Hh & Hin). destruct (cpu_shape _ _ _ _ Hh) as (Hl & E1 & E2 & _ & Hb & Hbs).
  constructor; unfold sent, received, cpu_row in *; rewrite ?local_sends, ?local_receives by done.
  - rewrite cpu_sends_eq. apply Forall_singleton. cbn [multiplicity values]. intros Hz.
    unfold msg_op_a_0, msg. cbn [instruction_values app nth limbs].
    destruct (fetched_flag _ _ (cpu_fetched i r Hi Hz)) as [-> | ->]; [by left|by right].
  - intros _ _. rewrite cpu_sends_eq. by apply Forall_singleton.
  - rewrite E2. constructor.
  - intros _. exact Hbs.
  - exact E1.
Qed.

Lemma instr_other row : row ∈ instr_trace s -> other_row_ok (instr_calls (syscall_pv s) row).
Proof using Hacc.
  intros Hi. destruct (instr_row_hold row Hi) as (Hw & Hh & Hin). pose proof (instr_row_shape _ _ Hw Hh) as Hs.
  assert (bytes_looked_up (instr_calls (syscall_pv s) row) -> bytes_found (instr_calls (syscall_pv s) row)) as Hbf.
  { unfold bytes_looked_up, sent. rewrite local_sends by apply Hs. intros H. by apply bytes_found_sends. }
  constructor; unfold flags_received, sent, received in *; rewrite ?local_sends, ?local_receives by apply Hs.
  - eapply Forall_impl; [apply Hs|]. intros m E _. rewrite E. by left.
  - intros Hf Hb. by apply Hs; auto.
  - apply Forall_forall. intros m Hm. pose proof (is_receives _ Hs) as Hr. rewrite Forall_forall in Hr. split; [by apply Hr|].
    intros Hz Hb (o & Hin' & Eo). destruct (instr_row_answers _ row m Hw (conj Hh (Hbf Hb)) Hm Hz) as (o' & Hin'' & Eo').
    rewrite Eo in Eo'. apply (inj opcode_u32) in Eo' as <-. clear - Hin' Hin''. destruct row; cbn in Hin', Hin''; intuition congruence.
  - intros _. apply Hs.
  - apply Hs.
Qed.

Lemma alu_accepted : accepted (alu_shard s).
Proof using Hacc Hp.
  constructor.
  - apply Hacc.
  - apply Hacc.
  - apply Forall_forall. intros row [(i & r & Hi & ->)|[(x & Hx & ->)|[Hr|Hr]]]%other_row_cases.
    + by apply cpu_other.
    + by apply instr_other.
    + destruct (program_row_silent row KInstruction Hr) as [E1 E2]. destruct (program_row_silent row KByte Hr) as [E3 E4].
      constructor; rewrite ?E1, ?E2, ?E3, ?E4 by done; try constructor; intros _; constructor.
    + pose proof (as_rest s Hacc) as R. rewrite Forall_forall in R. destruct (R row Hr) as [[E1 E2] _ [B E3]].
      constructor; rewrite ?E1, ?E2, ?E3; try done; constructor.
  - apply Hacc.
  - apply Hacc.
  - destruct (as_few s Hacc) as (? & ? & ? & _). done.
Qed.

Lemma cpu_row_ok i r : cpu_trace s !! i = Some r -> CpuChip.wf r /\ row_ok (cpu_row s i r).
Proof using Hacc Hp.
  intros Hi. destruct (cpu_row_hold i r Hi) as (Hw & Hh & Hin). split; [done|]. split; [done|]. apply bytes_found_sends. intros m Hm.
  apply (bytes_in_table _ alu_accepted). apply sent_concat. exists (cpu_row s i r). split; [done|]. unfold sent, cpu_row in *.
  by rewrite local_sends by (by apply cpu_shape).
Qed.

Lemma instr_row_ok row : row ∈ instr_trace s -> instr_wf row /\ row_ok (instr_calls (syscall_pv s) row) /\ sends_answered (instr_calls (syscall_pv s) row).
Proof using Hacc Hp.
  intros Hi. destruct (instr_row_hold row Hi) as (Hw & Hh & Hin). pose proof (instr_row_shape _ _ Hw Hh) as Hs.
  assert (forall k m, m ∈ sends k (instr_calls (syscall_pv s) row) -> m ∈ sent k calls) as Hsent.
  { intros k m Hm. apply sent_concat. exists (instr_calls (syscall_pv s) row). split; [done|]. unfold sent. by rewrite local_sends by apply Hs. }
  assert (row_ok (instr_calls (syscall_pv s) row)) as Ho.
  { split; [done|]. apply bytes_found_sends. intros m Hm. apply (bytes_in_table _ alu_accepted). by apply Hsent. }
  split; [done|]. split; [done|]. intros m Hm Hz. apply (sent_answered _ alu_accepted); [by apply Hsent|done|]. by apply (instr_row_sends (syscall_pv s) row).
Qed.

(** The message of a row reaches the chip of its opcode. *)
Definition cpu_message (r : CpuChip.CpuCols) : list Z :=
  instruction_values (CpuChip.shard_to_send r) (CpuChip.clk_to_send r) (CpuChip.pc r) (CpuChip.next_pc r) (CpuChip.num_extra_cycles r)
    (InstructionCols.opcode (CpuChip.instruction r)) (CpuChip.op_a_val r) (CpuChip.op_b_val r) (CpuChip.op_c_val r)
    (InstructionCols.op_a_0 (CpuChip.instruction r)) (CpuChip.op_a_immutable r) (CpuChip.is_memory r) (CpuChip.is_syscall r) (CpuChip.is_halt r).

Lemma cpu_dispatch i r : cpu_trace s !! i = Some r -> ~ CpuChip.is_real r ≡F 0 ->
  answers alu_opcodes (cpu_message r) /\ plain_message (cpu_message r) /\
    (msg_op_a_0 (cpu_message r) = 0 -> word_bytes (msg_b (cpu_message r)) -> word_bytes (msg_c (cpu_message r)) -> alu_message (cpu_message r)) \/
  exists row m, row ∈ instr_trace s /\ m ∈ receives KInstruction (instr_calls (syscall_pv s) row) /\ ~ multiplicity m ≡F 0 /\
    same_values (values m) (cpu_message r) /\ answers (instr_opcodes row) (cpu_message r).
Proof using Hacc Hp.
  intros Hi Hz. destruct (cpu_row_hold i r Hi) as (Hw & Hh & Hin).
  set (m := mkAirInteraction (cpu_message r) (CpuChip.is_real r) KInstruction).
  assert (m ∈ sent KInstruction calls) as Hm.
  { apply sent_concat. exists (cpu_row s i r). split; [done|]. unfold sent, cpu_row in *. rewrite local_sends by (by apply cpu_shape). rewrite cpu_sends_eq. left. }
  destruct (decide (answers alu_opcodes (cpu_message r))) as [Ha|Hn].
  { left. split; [done|]. by apply (alu_instruction_sound _ alu_accepted m). }
  right. pose proof (as_instructions s Hacc (values m)) as HB. destruct (as_few s Hacc) as (_ & Hf & _).
  destruct (partner _ _ _ m HB (instruction_sends_boolean _ alu_accepted) Hf Hm eq_refl Hz) as (m' & Hin' & Hv & Hz').
  assert (forall os, answers os (values m') <-> answers os (cpu_message r)) as Hans.
  { intros os. unfold answers, msg_opcode. by rewrite (same_values_msg _ _ 5 Hv). }
  apply (received_cases _ alu_accepted) in Hin' as [(row & Hr & Hm')|[(row & Hr & Hm')|(row & Hr & Hm')]].
  - exfalso. apply Hn, Hans. destruct (row_answers _ alu_accepted row m' Hr Hm' Hz') as (_ & o & Ho & Eo). exists o. split; [|done].
    clear - Ho. destruct row; cbn in Ho |- *; tauto.
  - exfalso. destruct (byte_row_calls _ row Hr) as (_ & _ & E & _). rewrite E in Hm'. by apply not_elem_of_nil in Hm'.
  - apply other_row_cases in Hr as [(i' & r' & Hi' & ->)|[(x & Hx & ->)|[Hr|Hr]]].
    + exfalso. destruct (cpu_row_hold i' r' Hi') as (_ & Hh' & _). destruct (cpu_shape _ _ _ _ Hh') as (Hl & _ & E & _).
      unfold received in Hm'. unfold cpu_row in *. rewrite local_receives, E in Hm' by done. by apply not_elem_of_nil in Hm'.
    + destruct (instr_row_ok x Hx) as (Hwx & Hox & _). pose proof (instr_row_shape _ _ Hwx (proj1 Hox)) as Hs.
      unfold received in Hm'. rewrite local_receives in Hm' by apply Hs. exists x, m'. split_and!; try done. apply Hans.
      by apply (instr_row_answers (syscall_pv s) x).
    + exfalso. destruct (program_row_silent row KInstruction Hr) as [_ E]. rewrite E in Hm' by done. by apply not_elem_of_nil in Hm'.
    + exfalso. pose proof (as_rest s Hacc) as R. rewrite Forall_forall in R. rewrite (proj2 (rest_instructions _ (R row Hr))) in Hm'. by apply not_elem_of_nil in Hm'.
Qed.
End Machine.
