(* ===== verification/RiscvStep.v ===== *)
(** * The steps of a shard

    A live row of the Cpu chip, in an accepted shard, does the step of the
    RV32IM machine of [Refinement] on the values its accesses show: from any
    machine state that holds what the row found, the machine reaches the state
    that holds what the row left. *)

From Stdlib Require Import ZArith Lia Bool.
From stdpp Require Import base list.
From S2P Require Import Prelude Isa SyscallCode Memory Events ByteLookup Record Alu Dependencies State Executor Access Refinement AirBuilder ByteTable.
From S2P Require Import MemoryAir Operations ChipSpec Lookup AluMachine ControlFlow MemInstrChip CpuChip SyscallInstrChip InstrRows RiscvMachine.

Import MemoryInstructionsChip (MemoryInstructionsColumns).

Local Open Scope Z_scope.
Local Open Scope rv_scope.

(** Which operands are immediates, as the transpiler sets them. *)
Definition form_ok (i : Instruction) : bool :=
  if is_alu_instruction i then implb (imm_b i) (imm_c i)
  else if is_jump_instruction i && negb (opcode_eqb (opcode i) JALR) || is_auipc_instruction i then imm_b i && imm_c i
  else if is_memory_load_instruction i || is_memory_store_instruction i || is_branch_instruction i || is_jump_instruction i
  then negb (imm_b i) && imm_c i else true.

Lemma process_form d : form_ok (process d) = true.
Proof. by destruct d. Qed.

(** ** What a row found and left *)

(** [q] is the row of the MemoryInstrs chip, for a load or store. *)
Record row_found (i : Instruction) (r : CpuChip.CpuCols) (q : option MemoryInstructionsColumns) (m : RvState) : Prop := {
  rf_pc : rv_pc m = CpuChip.pc r;
  rf_x0 : rv_regs m X0 = 0;
  rf_a : word_bytes (prev_value (CpuChip.op_a_access r)) /\ rv_regs m (reg_of (op_a i)) = to_u32 (prev_value (CpuChip.op_a_access r));
  rf_b : imm_b i = false -> word_bytes (CpuChip.op_b_val r) /\ rv_regs m (reg_of (u8 (op_b i))) = to_u32 (CpuChip.op_b_val r);
  rf_c : imm_c i = false -> word_bytes (CpuChip.op_c_val r) /\ rv_regs m (reg_of (u8 (op_c i))) = to_u32 (CpuChip.op_c_val r);
  rf_mem : forall q', q = Some q' ->
    word_bytes (prev_value (MemoryInstructionsChip.memory_access q')) /\
    forall a, a / 4 = MemoryInstructionsChip.addr_aligned q' / 4 -> rv_mem m a = to_u32 (prev_value (MemoryInstructionsChip.memory_access q'))
}.

Definition row_left (i : Instruction) (r : CpuChip.CpuCols) (q : option MemoryInstructionsColumns) (m : RvState) : RvState :=
  mkRvState (set_reg (reg_of (op_a i)) (to_u32 (CpuChip.op_a_val r)) (rv_regs m))
    (match q with
     | Some q' => set_mem (MemoryInstructionsChip.addr_aligned q') (to_u32 (value (MemoryInstructionsChip.memory_access q'))) (rv_mem m)
     | None => rv_mem m
     end) (CpuChip.next_pc r).

(** The machine does what the row says; the Jump chip, as the executor, does not
    clear the lowest bit of the target of [JALR]. *)
Definition row_steps (i : Instruction) (r : CpuChip.CpuCols) (q : option MemoryInstructionsColumns) : Prop :=
  forall m, row_found i r q m -> (opcode i = JALR -> CpuChip.next_pc r mod 2 = 0) -> exists m', rv_step i m = RvNext m' /\ rv_eq m' (row_left i r q m).

(** Writing a register and leaving memory. *)
Lemma written i r m v np : CpuChip.next_pc r = np -> (op_a i = 0 \/ to_u32 (CpuChip.op_a_val r) = v) ->
  wf_instruction i -> exists m', rv_writeback (reg_of (op_a i)) v np m = RvNext m' /\ rv_eq m' (row_left i r None m).
Proof.
  intros En Hv (Ha & _). eexists. split; [reflexivity|]. unfold row_left. split_and!; cbn [rv_regs rv_mem rv_pc]; [|done|done].
  intros x. unfold set_reg. destruct (reg_idx x =? reg_idx (reg_of (op_a i))); [|done].
  destruct Hv as [E| ->]; [|done]. rewrite E. reflexivity.
Qed.

(** Keeping the registers. *)
Lemma kept i r q m : row_found i r q m -> CpuChip.op_a_val r = prev_value (CpuChip.op_a_access r) ->
  forall x, rv_regs m x = set_reg (reg_of (op_a i)) (to_u32 (CpuChip.op_a_val r)) (rv_regs m) x.
Proof.
  intros Hf Ea x. destruct Hf as [_ H0 [_ E] _ _ _]. unfold set_reg. destruct (Z.eqb_spec (reg_idx x) (reg_idx (reg_of (op_a i)))) as [Ex|]; [|done].
  apply (inj reg_idx) in Ex as ->. destruct (Z.eqb_spec (reg_idx (reg_of (op_a i))) 0) as [Ez|]; [|by rewrite Ea].
  change 0 with (reg_idx X0) in Ez. apply (inj reg_idx) in Ez as ->. done.
Qed.

(** Messages with equal values say the same. *)
Lemma same_msgs v v' : same_values v v' -> (forall i, msg i v = msg i v') /\ length v = length v'.
Proof.
  intros H. split; [intros i; by apply same_values_msg|]. unfold same_values in H. by rewrite <- (length_map Fred), H, length_map.
Qed.

Ltac transfer H :=
  let E := fresh in
  destruct (same_msgs _ _ H) as [E _];
  unfold branch_message, jump_message, auipc_message, mem_message, quiet_message, msg_pc, msg_next_pc, msg_opcode, msg_op_a_0, msg_a, msg_b, msg_c, msg_word in *;
  rewrite !E in *.

Lemma branch_same v v' : same_values v v' -> branch_message v -> branch_message v'.
Proof. intros H Hb. transfer H. exact Hb. Qed.
Lemma jump_same v v' : same_values v v' -> jump_message v -> jump_message v'.
Proof. intros H Hb. transfer H. exact Hb. Qed.
Lemma auipc_same v v' : same_values v v' -> auipc_message v -> auipc_message v'.
Proof. intros H Hb. transfer H. exact Hb. Qed.
Lemma mem_same v v' al pv cu : same_values v v' -> mem_message v al pv cu -> mem_message v' al pv cu.
Proof. intros H Hb. transfer H. exact Hb. Qed.
Lemma quiet_same im v v' : same_values v v' -> quiet_message im v -> quiet_message im v'.
Proof. intros H Hb. pose proof (same_msgs _ _ H) as [_ E]. transfer H. by rewrite <- E. Qed.

Section Step.
  Context (s : RiscvShard) (Hacc : accepted_shard s) (Hp : program_ok (rs_program s)).
  Context (n : nat) (r : CpuChip.CpuCols) (Hn : cpu_trace s !! n = Some r) (Hlive : ~ CpuChip.is_real r ≡F 0).
  Context (i : Instruction) (Hwi : wf_instruction i) (Hform : form_ok i = true).
  Context (Hcols : CpuChip.instruction r = InstructionCols.populate i).
  Context (Hpc : 0 < CpuChip.pc r /\ CpuChip.pc r + 4 < BABYBEAR).
  Abbreviation vals := (cpu_message r).

Lemma row_live : CpuChip.wf r /\ row_ok (cpu_row s n r) /\ CpuChip.is_real r = 1.
Proof using Hacc Hp Hn Hlive.
  destruct (cpu_row_ok s Hacc Hp n r Hn) as [Hw Ho]. split; [done|]. split; [done|].
  destruct (cpu_real _ _ _ _ Hw Ho) as [E|E]; [|done]. rewrite E in Hlive. by destruct Hlive.
Qed.

(** The fields of the message. *)
Lemma row_message : msg_pc vals = CpuChip.pc r /\ msg_next_pc vals = CpuChip.next_pc r /\ msg_opcode vals = opcode_u32 (opcode i) /\
  msg_a vals = CpuChip.op_a_val r /\ msg_b vals = CpuChip.op_b_val r /\ msg_c vals = CpuChip.op_c_val r /\
  msg_op_a_0 vals = from_bool (op_a i =? 0) /\ msg 19 vals = CpuChip.op_a_immutable r /\ msg 20 vals = CpuChip.is_memory r /\
  msg 21 vals = CpuChip.is_syscall r /\ msg 0 vals = CpuChip.shard_to_send r /\ msg 1 vals = CpuChip.clk_to_send r /\ canon (CpuChip.next_pc r).
Proof using Hacc Hp Hn Hlive Hcols.
  destruct row_live as (Hw & _). destruct Hw as (_ & Wa & Wb & Wc & F & G). rewrite !Forall_cons in F. rewrite !Forall_cons in G.
  destruct F as (_ & _ & _ & Css & Cks & Cpc & Cnpc & _). destruct G as (Cim & Cme & Csy & _).
  destruct Wa as [_ (Wa & _)], Wb as (Wb & _), Wc as (Wc & _).
  unfold cpu_message. rewrite msg_a_eq, msg_b_eq, msg_c_eq. rewrite (word_Fred (CpuChip.op_a_val r)), (word_Fred (CpuChip.op_b_val r)), (word_Fred (CpuChip.op_c_val r)) by done.
  unfold msg_pc, msg_next_pc, msg_opcode, msg_op_a_0, msg. cbn [instruction_values app nth limbs]. rewrite !(Fred_small (CpuChip.pc r)), !(Fred_small (CpuChip.next_pc r)),
    !(Fred_small (CpuChip.op_a_immutable r)), !(Fred_small (CpuChip.is_memory r)), !(Fred_small (CpuChip.is_syscall r)), !(Fred_small (CpuChip.shard_to_send r)), !(Fred_small (CpuChip.clk_to_send r)) by done.
  rewrite Hcols. cbn [InstructionCols.populate InstructionCols.opcode InstructionCols.op_a_0].
  split_and!; try done; [by destruct (opcode i)|change (reg_idx X0) with 0; by destruct (op_a i =? 0)].
Qed.

(** The operands. *)
Lemma row_operands : word_bytes (CpuChip.op_a_val r) /\
  (imm_b i = true -> CpuChip.op_b_val r = word_from (op_b i)) /\ (imm_c i = true -> CpuChip.op_c_val r = word_from (op_c i)) /\
  (op_a i = 0 -> CpuChip.op_a_val r = word_zero) /\
  (CpuChip.op_a_immutable r = 1 -> CpuChip.op_a_val r = prev_value (CpuChip.op_a_access r)).
Proof using Hacc Hp Hn Hlive Hcols.
  destruct row_live as (Hw & Ho & Er). destruct (cpu_operands _ _ _ _ Hw Ho Er) as (H1 & H2 & H3 & H4 & H5). rewrite Hcols in *.
  cbn [InstructionCols.populate InstructionCols.imm_b InstructionCols.imm_c InstructionCols.op_a_0 InstructionCols.op_b InstructionCols.op_c] in *.
  split; [done|]. split_and!; try done.
  - intros E. apply H1. by rewrite E.
  - intros E. apply H2. by rewrite E.
  - intros E. apply H3. by rewrite E.
Qed.

(** The operands of the instruction are the values the row shows. *)
Lemma operands_shown q m : row_found i r q m ->
  (imm_b i = true -> word_bytes (CpuChip.op_b_val r) /\ to_u32 (CpuChip.op_b_val r) = op_b i) /\
  (imm_c i = true -> word_bytes (CpuChip.op_c_val r) /\ to_u32 (CpuChip.op_c_val r) = op_c i) /\
  word_bytes (CpuChip.op_b_val r) /\ word_bytes (CpuChip.op_c_val r).
Proof using Hacc Hp Hn Hlive Hcols Hwi.
  intros Hf. destruct row_operands as (_ & H1 & H2 & _). destruct Hwi as (_ & Ub & Uc & _).
  assert (imm_b i = true -> word_bytes (CpuChip.op_b_val r) /\ to_u32 (CpuChip.op_b_val r) = op_b i) as Hb
    by (intros E; rewrite (H1 E); split; [apply word_from_bytes|by apply to_u32_word_from]).
  assert (imm_c i = true -> word_bytes (CpuChip.op_c_val r) /\ to_u32 (CpuChip.op_c_val r) = op_c i) as Hc
    by (intros E; rewrite (H2 E); split; [apply word_from_bytes|by apply to_u32_word_from]).
  split; [done|]. split; [done|]. split.
  - destruct (imm_b i) eqn:E; [by apply Hb|]. by apply (rf_b _ _ _ _ Hf).
  - destruct (imm_c i) eqn:E; [by apply Hc|]. by apply (rf_c _ _ _ _ Hf).
Qed.

Lemma next_instruction : CpuChip.next_pc r ≡F CpuChip.pc r + DEFAULT_PC_INC -> CpuChip.next_pc r = CpuChip.pc r + 4.
Proof using Hacc Hp Hn Hlive Hcols Hpc.
  intros E. destruct row_message as (_ & _ & _ & _ & _ & _ & _ & _ & _ & _ & _ & _ & C). apply eqF_small in E; [done|].
  unfold canon, BABYBEAR, DEFAULT_PC_INC in *. lia.
Qed.

Lemma next_pc_shown q m : row_found i r q m -> next_pc_of m = CpuChip.pc r + 4.
Proof using Hpc.
  intros Hf. unfold next_pc_of. rewrite (rf_pc _ _ _ _ Hf). apply Z.mod_small. unfold BABYBEAR in Hpc. lia.
Qed.

Lemma answered_opcode os : answers os vals -> In (opcode i) os.
Proof using Hacc Hp Hn Hlive Hcols. destruct row_message as (_ & _ & E & _). by apply answers_opcode. Qed.

Lemma alu_operands m : is_alu_instruction i = true -> row_found i r None m ->
  rv_operands i m = (to_u32 (CpuChip.op_b_val r), to_u32 (CpuChip.op_c_val r)).
Proof using Hacc Hp Hn Hlive Hcols Hwi Hform.
  intros Ha Hf. destruct (operands_shown None m Hf) as (Hb & Hc & _). unfold rv_operands. unfold form_ok in Hform. rewrite Ha in Hform.
  destruct (imm_c i) eqn:Ec; cbn [negb].
  - destruct (Hc eq_refl) as [_ ->]. destruct (imm_b i) eqn:Eb; cbn [negb]; [by destruct (Hb eq_refl) as [_ ->]|].
    by destruct (rf_b _ _ _ _ Hf Eb) as [_ ->].
  - destruct (imm_b i) eqn:Eb; [done|]. destruct (rf_b _ _ _ _ Hf Eb) as [_ ->]. by destruct (rf_c _ _ _ _ Hf Ec) as [_ ->].
Qed.

Lemma alu_step : is_alu_instruction i = true -> row_steps i r None.
Proof using Hacc Hp Hn Hlive Hcols Hwi Hform Hpc.
  intros Ha m Hf Hodd. destruct row_message as (Epc & Enpc & Eo & Ea & Eb & Ec & E0 & _).
  destruct (operands_shown None m Hf) as (_ & _ & Wb & Wc).
  destruct (cpu_dispatch s Hacc Hp n r Hn Hlive) as [(_ & Hpl & Halu)|(row & _ & _ & _ & _ & _ & Hans)].
  2: { exfalso. apply answered_opcode in Hans. unfold is_alu_instruction in Ha. destruct row; cbn in Hans; destruct (opcode i); try discriminate Ha; intuition discriminate. }
  unfold plain_message in Hpl. destruct Hpl as (_ & _ & _ & Hnext & _). rewrite Epc, Enpc in Hnext. apply next_instruction in Hnext.
  unfold rv_step. rewrite Ha, (alu_operands m Ha Hf).
  assert (exists a, rv_alu (opcode i) (to_u32 (CpuChip.op_b_val r)) (to_u32 (CpuChip.op_c_val r)) = Some a) as [a Er]
    by (unfold is_alu_instruction in Ha; destruct (opcode i); try discriminate Ha; by eexists).
  rewrite Er. apply written; [|..|done].
  - by rewrite Hnext, (next_pc_shown None m Hf).
  - destruct (Z.eqb_spec (op_a i) 0) as [Ez|Ez]; [by left|right]. cbn [from_bool] in E0.
    destruct (Halu E0) as (o & Eo' & _ & Hr); [by rewrite Eb|by rewrite Ec|]. rewrite Eo in Eo'. apply (inj opcode_u32) in Eo' as <-.
    rewrite Ea, Eb, Ec, alu_result_spec, Er in Hr by (by apply to_u32_range). by injection Hr.
Qed.

(** The instruction of another class reaches a row of its chip. *)
Lemma row_answered : is_alu_instruction i = false -> exists row m, row ∈ instr_trace s /\
  m ∈ receives KInstruction (instr_calls (syscall_pv s) row) /\ ~ multiplicity m ≡F 0 /\ same_values (values m) vals /\
  In (opcode i) (instr_opcodes row) /\ instr_wf row /\ row_ok (instr_calls (syscall_pv s) row) /\ sends_answered (instr_calls (syscall_pv s) row).
Proof using Hacc Hp Hn Hlive Hcols.
  clear Hpc Hwi Hform.
  intros Ha. destruct (cpu_dispatch s Hacc Hp n r Hn Hlive) as [(Hans & _)|(row & m & Hr & Hm & Hz & Hv & Hans)].
  { exfalso. apply answered_opcode in Hans. unfold is_alu_instruction in Ha. cbn in Hans. destruct (opcode i); try discriminate Ha; intuition discriminate. }
  exists row, m. destruct (instr_row_ok s Hacc Hp row Hr) as (? & ? & ?). apply answered_opcode in Hans. done.
Qed.

Lemma branch_step : is_branch_instruction i = true -> row_steps i r None.
Proof using Hacc Hp Hn Hlive Hcols Hwi Hform Hpc.
  intros Hb m Hf Hodd. assert (is_alu_instruction i = false /\ imm_b i = false /\ imm_c i = true) as (Ha & Ib & Ic).
  { unfold form_ok, is_branch_instruction, is_alu_instruction, is_jump_instruction, is_auipc_instruction, is_memory_load_instruction, is_memory_store_instruction in *.
    destruct (opcode i); try discriminate Hb; cbn in Hform; split; try done; by apply andb_true_iff in Hform as [->%negb_true_iff ->]. }
  destruct (row_answered Ha) as (row & ms & Hr & Hm & Hz & Hv & Hin & Hw & Ho & Hs).
  assert (exists b, row = BranchRow b) as [b ->]
    by (unfold is_branch_instruction in Hb; destruct row; cbn in Hin; [by eexists|destruct (opcode i); try discriminate Hb; intuition discriminate..]).
  destruct (branch_receiver b Hw Ho Hs ms Hm Hz) as (Hq & _ & Hp'). apply (quiet_same _ _ _ Hv) in Hq.
  destruct row_message as (Epc & Enpc & Eo & Ea & Eb & Ec & E0 & E19 & _). destruct Hq as (_ & _ & _ & _ & Eim & _). rewrite E19 in Eim.
  destruct row_operands as (Wa & _ & _ & _ & Him). specialize (Him Eim). destruct (operands_shown None m Hf) as (_ & Hc & Wb & Wc).
  destruct (Hc Ic) as [_ Eci]. destruct (rf_b _ _ _ _ Hf Ib) as [_ Ebi]. destruct (rf_a _ _ _ _ Hf) as [_ Eai].
  assert (branch_message vals) as (o & taken & Eo' & Ht & Hnext).
  { apply (branch_same _ _ Hv). destruct (same_msgs _ _ Hv) as [E _]. apply Hp'; unfold msg_a, msg_b, msg_c, msg_word in *; rewrite !E; [by rewrite Ea|by rewrite Eb|by rewrite Ec]. }
  rewrite Eo in Eo'. apply (inj opcode_u32) in Eo' as <-. rewrite Epc, Enpc, ?Ea, ?Eb, ?Ec in *. rewrite Him in Ht. rewrite <- Eai, <- Ebi in Ht.
  exists (mkRvState (rv_regs m) (rv_mem m) (CpuChip.next_pc r)). split.
  - assert (CpuChip.next_pc r = if taken then (rv_pc m + op_c i) mod 2 ^ 32 else next_pc_of m) as ->.
    { rewrite (next_pc_shown None m Hf), (rf_pc _ _ _ _ Hf). destruct taken; [by rewrite Hnext, Eci|by apply next_instruction]. }
    pose proof (to_u32_range _ Wb) as Ub. rewrite <- Ebi in Ub.
    assert (is_u32 (rv_regs m (reg_of (op_a i)))) as Ua by (rewrite Eai; apply to_u32_range; apply (rf_a _ _ _ _ Hf)).
    unfold rv_step. unfold is_branch_instruction in Hb.
    assert (is_memory_load_instruction i = false /\ is_memory_store_instruction i = false) as [-> ->].
    { unfold is_memory_load_instruction, is_memory_store_instruction. by destruct (opcode i). }
    rewrite Ha. destruct (opcode i); try discriminate Hb; cbn [branch_taken] in Ht; injection Ht as <-; rewrite ?i32_sx by done; do 3 f_equal;
      match goal with |- context [bool_decide ?P] => destruct (decide P) end; rewrite ?bool_decide_eq_true_2, ?bool_decide_eq_false_2 by done;
      repeat match goal with |- context [?x =? ?y] => destruct (Z.eqb_spec x y) | |- context [?x <? ?y] => destruct (Z.ltb_spec x y) | |- context [?x <=? ?y] => destruct (Z.leb_spec x y) end;
      try done; lia.
  - unfold row_left. split_and!; cbn [rv_regs rv_mem rv_pc]; try done. by apply (kept i r None m Hf).
Qed.

Lemma not_memory : is_jump_instruction i || is_auipc_instruction i = true ->
  is_alu_instruction i = false /\ is_memory_load_instruction i = false /\ is_memory_store_instruction i = false.
Proof using. clear. unfold is_jump_instruction, is_auipc_instruction, is_alu_instruction, is_memory_load_instruction, is_memory_store_instruction. by destruct (opcode i). Qed.

Lemma jump_step : is_jump_instruction i = true -> row_steps i r None.
Proof using Hacc Hp Hn Hlive Hcols Hwi Hform Hpc.
  intros Hb m Hf Hodd. destruct not_memory as (Ha & Hl & Hst); [by rewrite Hb|].
  destruct (row_answered Ha) as (row & ms & Hr & Hm & Hz & Hv & Hin & Hw & Ho & Hs).
  assert (exists b, row = JumpRow b) as [b ->]
    by (unfold is_jump_instruction in Hb; destruct row; cbn in Hin; [..|]; destruct (opcode i); try discriminate Hb; first [by eexists|intuition discriminate]).
  destruct (jump_receiver b Hw Ho Hs ms Hm Hz) as (_ & _ & Hp').
  destruct row_message as (Epc & Enpc & Eo & Ea & Eb & Ec & E0 & _).
  destruct row_operands as (Wa & _). destruct (operands_shown None m Hf) as (Hib & Hic & Wb & Wc).
  assert (jump_message vals) as [Ht Hlink].
  { apply (jump_same _ _ Hv). destruct (same_msgs _ _ Hv) as [E _]. apply Hp'; unfold msg_a, msg_b, msg_c, msg_word in *; rewrite !E; [by rewrite Ea|by rewrite Eb|by rewrite Ec]. }
  rewrite Eo, Epc, Enpc, ?Ea, ?Eb, ?Ec, E0 in *.
  assert (op_a i = 0 \/ to_u32 (CpuChip.op_a_val r) = next_pc_of m) as Hlnk.
  { destruct (Z.eqb_spec (op_a i) 0) as [|Hne]; [by left|right]. destruct (Hlink eq_refl) as [Cl El]. rewrite (next_pc_shown None m Hf).
    apply eqF_small in El; [done|]. unfold canon, BABYBEAR, DEFAULT_PC_INC in *. lia. }
  unfold rv_step. rewrite Ha, Hl, Hst. unfold form_ok in Hform. rewrite Ha, Hb in Hform. unfold is_jump_instruction in Hb.
  destruct (opcode i) eqn:Eop; try discriminate Hb; destruct Ht as [[Eq Ht]|[Eq Ht]]; try discriminate Eq.
  - apply andb_true_iff in Hform as [Ib Ic]. destruct (Hib Ib) as [_ Ebi]. apply written; [|done..]. by rewrite Ht, Ebi, (rf_pc _ _ _ _ Hf).
  - change (opcode_eqb JALR JALR) with true in Hform. cbn [negb andb orb is_auipc_instruction] in Hform.
    assert (negb (imm_b i) && imm_c i = true) as [Ib%negb_true_iff Ic]%andb_true_iff.
    { unfold is_auipc_instruction, is_memory_load_instruction, is_memory_store_instruction, is_branch_instruction in Hform. rewrite Eop in Hform. exact Hform. }
    destruct (Hic Ic) as [_ Eci]. destruct (rf_b _ _ _ _ Hf Ib) as [_ Ebi]. assert (CpuChip.next_pc r = (rv_regs m (reg_of (u8 (op_b i))) + op_c i) mod 2 ^ 32) as En by (by rewrite Ht, Eci, Ebi).
    apply written; [|done..]. specialize (Hodd eq_refl). rewrite <- En. lia.
Qed.

Lemma auipc_step : is_auipc_instruction i = true -> row_steps i r None.
Proof using Hacc Hp Hn Hlive Hcols Hwi Hform Hpc.
  intros Hb m Hf Hodd. destruct not_memory as (Ha & Hl & Hst); [by rewrite Hb, orb_true_r|].
  destruct (row_answered Ha) as (row & ms & Hr & Hm & Hz & Hv & Hin & Hw & Ho & Hs).
  assert (exists b, row = AuipcRow b) as [b ->]
    by (unfold is_auipc_instruction in Hb; destruct row; cbn in Hin; [..|]; destruct (opcode i); try discriminate Hb; first [by eexists|intuition discriminate]).
  destruct (auipc_receiver b Hw Ho Hs ms Hm Hz) as (_ & _ & Hp').
  destruct row_message as (Epc & Enpc & Eo & Ea & Eb & Ec & E0 & _).
  destruct row_operands as (Wa & _). destruct (operands_shown None m Hf) as (Hib & _ & Wb & Wc).
  assert (auipc_message vals) as (_ & Hnext & Hval).
  { apply (auipc_same _ _ Hv). destruct (same_msgs _ _ Hv) as [E _]. apply Hp'; unfold msg_a, msg_b, msg_c, msg_word in *; rewrite !E; [by rewrite Ea|by rewrite Eb|by rewrite Ec]. }
  rewrite Epc, Enpc, ?Ea, ?Eb, ?Ec, E0 in *. apply next_instruction in Hnext.
  assert (imm_b i = true) as Ib.
  { unfold form_ok in Hform. rewrite Ha, Hb, orb_true_r in Hform. by apply andb_true_iff in Hform as [-> _]. }
  destruct (Hib Ib) as [_ Ebi].
  unfold rv_step. rewrite Ha, Hl, Hst. unfold is_auipc_instruction in Hb. destruct (opcode i) eqn:Eop; try discriminate Hb.
  apply written; [by rewrite Hnext, (next_pc_shown None m Hf)| |done].
  destruct (Z.eqb_spec (op_a i) 0) as [|Hne]; [by left|right]. rewrite (Hval eq_refl), Ebi, (rf_pc _ _ _ _ Hf). done.
Qed.

(** A load or store reaches a row of the MemoryInstrs chip that accesses memory
    at the time of the cycle. *)
Lemma memory_row : is_memory_load_instruction i || is_memory_store_instruction i = true ->
  exists q, MemRow q ∈ instr_trace s /\ MemoryInstructionsChip.is_real q = 1 /\
    MemoryInstructionsChip.shard q = CpuChip.shard r /\ MemoryInstructionsChip.clk q = CpuChip.clk r /\
    CpuChip.next_pc r = CpuChip.pc r + 4 /\
    mem_message vals (MemoryInstructionsChip.addr_aligned q) (prev_value (MemoryInstructionsChip.memory_access q))
      (value (MemoryInstructionsChip.memory_access q)).
Proof using Hacc Hp Hn Hlive Hcols Hpc.
  clear Hwi Hform. intros Hb. assert (is_alu_instruction i = false) as Ha.
  { unfold is_alu_instruction, is_memory_load_instruction, is_memory_store_instruction in *. by destruct (opcode i). }
  destruct (row_answered Ha) as (row & ms & Hr & Hm & Hz & Hv & Hin & Hw & Ho & Hs).
  assert (exists b, row = MemRow b) as [q ->]
    by (unfold is_memory_load_instruction, is_memory_store_instruction in Hb; destruct row; cbn in Hin; [..|]; destruct (opcode i); try discriminate Hb; first [by eexists|intuition discriminate]).
  destruct (mem_receiver q Hw Ho Hs ms Hm Hz) as (Er & _ & M0 & M1 & Hnext & _ & M20 & M21 & _ & Hmm).
  destruct row_message as (Epc & Enpc & Eo & Ea & Eb & Ec & E0 & E19 & E20 & E21 & F0 & F1 & _).
  destruct (same_msgs _ _ Hv) as [E _]. unfold msg_next_pc, msg_pc in *. rewrite E in M0, M1, M20, M21. rewrite !E in Hnext.
  rewrite F0 in M0. rewrite F1 in M1. rewrite E20 in M20. rewrite E21 in M21. rewrite Epc, Enpc in Hnext. apply next_instruction in Hnext.
  destruct row_live as (Hwr & Hor & Err). destruct (cpu_time_sent _ _ _ _ Hwr Hor Err) as [T0 T1]; [by rewrite M20, M21|].
  exists q. split_and!; try done; [congruence..|]. by apply (mem_same _ _ _ _ _ Hv).
Qed.

Lemma memory_operands q m : is_memory_load_instruction i || is_memory_store_instruction i = true -> row_found i r q m ->
  (rv_regs m (reg_of (u8 (op_b i))) + op_c i) mod 2 ^ 32 = to_u32 (CpuChip.op_b_val r) +u to_u32 (CpuChip.op_c_val r).
Proof using Hacc Hp Hn Hlive Hcols Hwi Hform.
  intros Hb Hf. assert (imm_b i = false /\ imm_c i = true) as [Ib Ic].
  { unfold form_ok, is_memory_load_instruction, is_memory_store_instruction, is_alu_instruction, is_jump_instruction, is_auipc_instruction, is_branch_instruction in *.
    destruct (opcode i); try discriminate Hb; cbn in Hform; by apply andb_true_iff in Hform as [->%negb_true_iff ->]. }
  destruct (operands_shown q m Hf) as (_ & Hic & _). destruct (Hic Ic) as [_ ->]. by destruct (rf_b _ _ _ _ Hf Ib) as [_ ->].
Qed.

Lemma memory_step : is_memory_load_instruction i || is_memory_store_instruction i = true ->
  exists q, MemRow q ∈ instr_trace s /\ MemoryInstructionsChip.is_real q = 1 /\
    MemoryInstructionsChip.shard q = CpuChip.shard r /\ MemoryInstructionsChip.clk q = CpuChip.clk r /\ row_steps i r (Some q).
Proof using Hacc Hp Hn Hlive Hcols Hwi Hform Hpc.
  intros Hb. destruct (memory_row Hb) as (q & Hq & Er & Es & Ek & Hnext & Hmm). exists q. split_and!; try done. intros m Hf _.
  destruct row_message as (_ & _ & Eo & Ea & Eb & Ec & E0 & E19 & _). destruct row_operands as (Wa & _ & _ & _ & Him).
  destruct Hmm as (o & addr & Hin & Eo' & Eaddr & Hrange & Eal & Hmod & Hcase). rewrite Eo in Eo'. apply (inj opcode_u32) in Eo' as <-.
  rewrite ?Ea, ?Eb, ?Ec, ?E0, ?E19 in *. pose proof (memory_operands (Some q) m Hb Hf) as Eadr. rewrite <- Eaddr in Eadr.
  destruct (rf_mem _ _ _ _ Hf q eq_refl) as [Wp Hmem]. change (addr - addr mod 4) with (align addr) in Eal.
  assert (align addr / 4 = align addr / 4) as Hrefl by done. rewrite <- Eal in Hrefl at 2. pose proof (Hmem _ Hrefl) as Hmem0.
  assert (valid_mem_addr (align addr) = true) as Hvalid.
  { unfold valid_mem_addr, align. rewrite negb_true_iff, !orb_false_iff, negb_false_iff, Z.eqb_eq, Z.leb_gt, Z.leb_gt.
    change (reg_idx X31) with 31. unfold BABYBEAR_PRIME. unfold BABYBEAR in Hrange. Z.div_mod_to_equations. lia. }
  assert (Flat.in_range (align addr) = true) as Hrng by (apply valid_mem_in_range; [done|unfold align; Z.div_mod_to_equations; lia]).
  unfold rv_step. rewrite Eadr. assert (is_alu_instruction i = false) as ->.
  { unfold is_alu_instruction, is_memory_load_instruction, is_memory_store_instruction in *. by destruct (opcode i). }
  rewrite Hvalid, Hrng, Hmod, Z.eqb_refl. destruct (is_memory_load_instruction i) eqn:El.
  - rewrite bool_decide_eq_true_2 in Hcase by (unfold is_memory_load_instruction in El; cbn; destruct (opcode i); try discriminate El; tauto).
    destruct Hcase as (_ & Ecur & Hval). eexists. split; [reflexivity|]. unfold row_left. split_and!; cbn [rv_regs rv_mem rv_pc].
    + intros x. unfold set_reg. destruct (_ =? reg_idx (reg_of (op_a i))); [|done].
      destruct (Z.eqb_spec (op_a i) 0) as [Ez|]; [by rewrite Ez|]. by rewrite (Hval eq_refl Wp), Hmem0.
    + intros a. unfold set_mem. destruct (Z.eqb_spec (a / 4) (MemoryInstructionsChip.addr_aligned q / 4)) as [Ex|]; [|done]. rewrite Ecur. by apply Hmem.
    + by rewrite (next_pc_shown (Some q) m Hf).
  - assert (is_memory_store_instruction i = true) as Est by done. rewrite Est.
    rewrite bool_decide_eq_false_2 in Hcase by (unfold is_memory_store_instruction in Est; cbn; destruct (opcode i); try discriminate Est; intuition discriminate).
    destruct Hcase as (Eim & Hval). destruct (Hval Wa Wp) as [_ Ecur]. specialize (Him Eim). destruct (rf_a _ _ _ _ Hf) as [_ Eai].
    eexists. split; [reflexivity|]. unfold row_left. split_and!; cbn [rv_regs rv_mem rv_pc].
    + by apply (kept i r (Some q) m Hf).
    + intros a. by rewrite Eal, Hmem0, Ecur, Eai, Him.
    + by rewrite (next_pc_shown (Some q) m Hf).
Qed.
End Step.

(** ** Every row *)

Definition program_forms (p : Program) : Prop := Forall (fun i => form_ok i = true) (instructions p).

(** The address of an instruction is a field element, and so is the next one. *)
Lemma fetched_at p pc cols : program_ok p -> fetched p pc cols -> pc <> 0 ->
  exists i, fetch p pc = Some i /\ i ∈ instructions p /\ cols = InstructionCols.populate i /\ 0 < pc /\ pc + 4 < BABYBEAR.
Proof.
  intros [Hi [Hb Hl]] [(idx & i & Hidx & -> & ->)|[-> _]] Hne; [|done]. exists i.
  pose proof (lookup_lt_Some _ _ _ Hidx) as Hlt.
  assert (u32 (Z.of_nat idx * 4) = Z.of_nat idx * 4) as -> by (apply u32_small, is_u32_iff; unfold BABYBEAR in *; lia).
  assert (u32 (pc_base p + Z.of_nat idx * 4) = pc_base p + Z.of_nat idx * 4) as -> by (apply u32_small, is_u32_iff; unfold BABYBEAR in *; lia).
  rewrite Fred_small by (unfold canon; lia). split_and!; [|by eapply list_elem_of_lookup_2|done|lia|lia].
  unfold fetch, wsub. replace (pc_base p + Z.of_nat idx * 4 - pc_base p) with (Z.of_nat idx * 4) by lia.
  rewrite u32_small by (apply is_u32_iff; unfold BABYBEAR in *; lia). by rewrite Z.div_mul, Nat2Z.id by lia.
Qed.

Lemma fetched_aligned p pc cols : program_ok p -> pc_base p mod 4 = 0 -> fetched p pc cols -> pc mod 4 = 0.
Proof.
  intros [Hi [Hb Hl]] H4 [(idx & i & Hidx & -> & ->)|[-> _]]; [|done]. pose proof (lookup_lt_Some _ _ _ Hidx) as Hlt.
  assert (u32 (Z.of_nat idx * 4) = Z.of_nat idx * 4) as -> by (apply u32_small, is_u32_iff; unfold BABYBEAR in *; lia).
  assert (u32 (pc_base p + Z.of_nat idx * 4) = pc_base p + Z.of_nat idx * 4) as -> by (apply u32_small, is_u32_iff; unfold BABYBEAR in *; lia).
  rewrite Fred_small by (unfold canon; lia). by rewrite Z_mod_plus_full.
Qed.

Lemma cpu_row_step s n r : accepted_shard s -> program_ok (rs_program s) -> program_forms (rs_program s) ->
  cpu_trace s !! n = Some r -> ~ CpuChip.is_real r ≡F 0 -> CpuChip.pc r <> 0 ->
  exists i, fetch (rs_program s) (CpuChip.pc r) = Some i /\
    (is_ecall_instruction i = false -> exists q,
      row_steps i r q /\ (q = None -> is_memory_load_instruction i || is_memory_store_instruction i = false) /\
      forall q', q = Some q' -> MemRow q' ∈ instr_trace s /\ MemoryInstructionsChip.is_real q' = 1 /\
        MemoryInstructionsChip.shard q' = CpuChip.shard r /\ MemoryInstructionsChip.clk q' = CpuChip.clk r).
Proof.
  intros Hacc Hp Hforms Hn Hlive Hpc. destruct (fetched_at _ _ _ Hp (cpu_fetched s Hacc Hp n r Hn Hlive) Hpc) as (i & Hfe & Hin & Hcols & Hpc').
  exists i. split; [done|]. intros He. pose proof (po_instructions _ Hp) as Hwi. unfold program_forms in Hforms. rewrite Forall_forall in Hwi, Hforms.
  specialize (Hwi i Hin). specialize (Hforms i Hin).
  destruct (is_memory_load_instruction i || is_memory_store_instruction i) eqn:Em.
  { destruct (memory_step s Hacc Hp n r Hn Hlive i Hwi Hforms Hcols Hpc' Em) as (q & Hq & ? & ? & ? & Hstep). exists (Some q). split; [done|]. split; [done|]. by intros q' [= <-]. }
  exists None. split; [|done].
  destruct (is_alu_instruction i) eqn:E1; [by apply (alu_step s Hacc Hp n)|].
  destruct (is_branch_instruction i) eqn:E2; [by apply (branch_step s Hacc Hp n)|].
  destruct (is_jump_instruction i) eqn:E3; [by apply (jump_step s Hacc Hp n)|].
  destruct (is_auipc_instruction i) eqn:E4; [by apply (auipc_step s Hacc Hp n)|].
  exfalso. destruct (row_answered s Hacc Hp n r Hn Hlive i Hcols E1) as (row & m & _ & _ & _ & _ & Hino & _).
  unfold is_ecall_instruction, is_alu_instruction, is_branch_instruction, is_jump_instruction, is_auipc_instruction, is_memory_load_instruction, is_memory_store_instruction in *.
  destruct row; cbn in Hino; destruct (opcode i); try discriminate; intuition discriminate.
Qed.

(** ** A shard *)

(** [li x5, 0x300] as an addition of immediates, then [addi x6, x5, 0x100]. *)
Definition sample_program : Program :=
  Program_new [mkInstruction ADD 5 0x0100 0x0200 true true; mkInstruction ADD 6 5 0x0100 false true] 4 4.

Definition sample_cpu_events : list (CpuEvent * Instruction) :=
  [(mkCpuEvent 0 4 8 0x0300 (Some (MWrite (mkMemoryWriteRecord 0x0300 1 3 0 0 0))) 0x0100 None 0x0200 None 0,
    mkInstruction ADD 5 0x0100 0x0200 true true);
   (mkCpuEvent 4 8 12 0x0400 (Some (MWrite (mkMemoryWriteRecord 0x0400 1 7 0 0 0))) 0x0300
      (Some (MRead (mkMemoryReadRecord 0x0300 1 6 1 3))) 0x0100 None 0,
    mkInstruction ADD 6 5 0x0100 false true)].

Definition sample_cpu_rows : list CpuChip.CpuCols :=
  map (fun '(e, i) => (CpuChip.event_to_row e 1 i ([] : list ByteLookupEvent)).1) sample_cpu_events.

Definition sample_alu_events : list AluEvent :=
  [mkAluEvent 4 ADD 0x0300 0x0100 0x0200 false; mkAluEvent 8 ADD 0x0400 0x0300 0x0100 false].

Definition sample_alu_rows : list AluRow :=
  map (fun e => AddSubRow (AddSubChip.AddSubChip.event_to_row e AddSubChip.AddSubChip.default ([] : list ByteLookupEvent)).1) sample_alu_events.

(** The multiplicities of the first rows of the byte table. *)
Definition sample_mults (ms : list AirInteraction) : list (list Z) :=
  map (fun c => map (fun o => Z.of_nat (length (filter (fun m => values m = ByteChip.received c o /\ ~ multiplicity m ≡F 0) ms))) ByteOpcode.all) (take 16 ByteChip.trace).

Definition sample_riscv_shard : RiscvShard :=
  let pv := CpuChip.mkCpuPublicValues 4 12 1 in
  let spv := SyscallInstrsChip.mkSyscallPublicValues (replicate 8 word_zero) (replicate 8 0) 0 in
  let mk mults := mkRiscvShard sample_program (replicate 2 (ProgramChip.mkProgramMultiplicityCols 1)) sample_cpu_rows [] sample_alu_rows mults [] pv spv in
  mk (sample_mults (sends KByte (concat (cpu_rows (mk []) ++ map row_calls sample_alu_rows)))).

Lemma sample_shard_balanced : debug_interactions_with_all_chips 1 [all_rows sample_riscv_shard] [KByte; KInstruction; KProgram] Local = Some true.
Proof. vm_compute. reflexivity. Qed.

#[export] Instance cpu_wf_dec r : Decision (CpuChip.wf r).
Proof.
  unfold CpuChip.wf, InstructionCols.wf, read_write_wf, read_wf, access_wf, word_canon, canon. apply _.
Defined.

Lemma sample_shard_accepted : accepted_shard sample_riscv_shard.
Proof.
  pose proof sample_shard_balanced as Hb. rewrite debug_interactions_balanced in Hb by done. cbn [concat] in Hb. rewrite app_nil_r in Hb.
  assert (Forall (fun row => row_wf row /\ all_hold (row_calls row)) sample_alu_rows) as Hrows.
  { unfold sample_alu_rows. rewrite Forall_map. apply Forall_forall. intros e He.
    assert (alu_event_ok e /\ alu_op_a_0 e = false /\ (alu_opcode e = ADD \/ alu_opcode e = SUB)) as (H1 & H2 & H3).
    { unfold sample_alu_events in He. rewrite !elem_of_cons in He. destruct He as [->|[->|He%not_elem_of_nil]]; [..|done]; split_and!; try done; by left. }
    pose proof (AddSubChip.add_sub_row e ([] : list ByteLookupEvent) H3 H1 H2) as Hrow.
    destruct (AddSubChip.AddSubChip.event_to_row e AddSubChip.AddSubChip.default ([] : list ByteLookupEvent)) as [cols l]. destruct Hrow as (Hw & _ & (Hh & _)).
    done. }
  constructor.
  - split; [apply (bool_decide_unpack (Forall CpuChip.wf (cpu_trace sample_riscv_shard))); vm_compute; exact I|]. split; [constructor|]. eapply Forall_impl; [exact Hrows|]. by intros ? [].
  - split; [|split; [constructor|eapply Forall_impl; [exact Hrows|by intros ? []]]].
    assert (forallb (@debug_constraints nonzero_filter) (cpu_rows sample_riscv_shard) = true) as Hc by (vm_compute; reflexivity).
    rewrite forallb_forall in Hc. apply Forall_forall. intros row Hr. apply (debug_constraints_hold (FB := nonzero_filter)), Hc. by apply list_elem_of_In.
  - constructor.
  - apply Hb. by left.
  - apply Hb. right. by left.
  - apply Hb. right. right. by left.
  - split_and!; vm_compute; reflexivity.
Qed.

Lemma sample_program_ok : program_ok sample_program /\ program_forms sample_program.
Proof.
  split; [constructor|].
  - repeat apply Forall_cons_2; try apply Forall_nil_2; split_and!; done || (cbn; lia).
  - cbn. unfold BABYBEAR. lia.
  - by repeat apply Forall_cons_2.
Qed.

(** C6. In an accepted shard every live row of the Cpu chip, other than at
    address 0, carries the instruction of the program at its program counter;
    if that is not a system call, then from every RV32IM state that holds the
    values the row and its memory row found, [rv_step] reaches the state that
    holds the values they left, with the row's next program counter, except
    that [JALR] to an odd address keeps the lowest bit. *)
Theorem riscv_rows_step s n r : accepted_shard s -> program_ok (rs_program s) -> program_forms (rs_program s) ->
  cpu_trace s !! n = Some r -> ~ CpuChip.is_real r ≡F 0 -> CpuChip.pc r <> 0 ->
  exists i, fetch (rs_program s) (CpuChip.pc r) = Some i /\
    (is_ecall_instruction i = false -> exists q,
      row_steps i r q /\ forall q', q = Some q' -> MemRow q' ∈ instr_trace s /\ MemoryInstructionsChip.is_real q' = 1 /\
        MemoryInstructionsChip.shard q' = CpuChip.shard r /\ MemoryInstructionsChip.clk q' = CpuChip.clk r).
Proof.
  intros Hs Hp Hf Hn Hl Hpc. destruct (cpu_row_step s n r Hs Hp Hf Hn Hl Hpc) as (i & Hi & Hi'). exists i. split; [done|]. intros He. destruct (Hi' He) as (q & ? & _ & ?). by exists q.
Qed.

Lemma riscv_rows_step_witness : exists i r, cpu_trace sample_riscv_shard !! 1%nat = Some r /\
  fetch sample_program (CpuChip.pc r) = Some i /\ CpuChip.pc r = 8 /\
  (is_ecall_instruction i = false -> exists q, row_steps i r q).
Proof.
  destruct sample_program_ok as [Hp Hf].
  destruct (cpu_trace sample_riscv_shard !! 1%nat) as [r|] eqn:Er; [|exfalso; vm_compute in Er; discriminate Er].
  assert (CpuChip.is_real r = 1 /\ CpuChip.pc r = 8) as [E1 E2] by (vm_compute in Er; injection Er as <-; done).
  destruct (riscv_rows_step sample_riscv_shard 1 r sample_shard_accepted Hp Hf Er) as (i & Hi & Hs).
  - rewrite E1. apply zero_ne_one.
  - rewrite E2. done.
  - exists i, r. split; [done|]. split; [done|]. split; [done|]. intros He. destruct (Hs He) as (q & Hq & _). by exists q.
Defined.
