(* ===== verification/MemoryCheck.v ===== *)
(** * Offline memory checking

    Every access sends the word it found, with the time it was last accessed,
    and receives the word it leaves with its own time.  If messages balance
    with one initial and one final message per address, and every access is
    later than the one it refers to, then the accesses to an address form a
    chain from its initial to its final word: each finds what the one before it
    left. *)

From Stdlib Require Import ZArith Lia Bool Permutation.
From stdpp Require Import base list.
From S2P Require Import Prelude AirBuilder MemoryAir Lookup.

Local Open Scope Z_scope.
Local Open Scope rv_scope.

(** ** Balanced lookups are permutations *)

Definition live (ms : list AirInteraction) : list AirInteraction := filter (fun m => ~ multiplicity m ≡F 0) ms.
Definition keys (ms : list AirInteraction) : list (list Z) := map (fun m => map Fred (values m)) (live ms).

Abbreviation occurrences := (count_occ (fun x y : list Z => decide (x = y))).

Lemma mult_sum_count v ms : Forall (fun m => boolean (multiplicity m)) ms ->
  mult_sum v ms ≡F Z.of_nat (occurrences (keys ms) (map Fred v)).
Proof.
  induction 1 as [|m ms Hm _ IH]; [done|]. cbn [mult_sum]. rewrite IH. unfold keys, live. rewrite filter_cons.
  fold (live ms). destruct Hm as [E|E].
  - rewrite (decide_False (P := ~ multiplicity m ≡F 0)) by (intros H; by apply H). case_decide; [by rewrite E|done].
  - rewrite (decide_True (P := ~ multiplicity m ≡F 0)) by (by rewrite E). cbn [map count_occ]. fold (live ms). unfold same_values.
    destruct (decide (map Fred (values m) = map Fred v)); [|done]. rewrite E. rewrite Nat2Z.inj_succ. apply eqF_diff. exists 0. lia.
Qed.

Lemma count_le_length (l : list (list Z)) x : (occurrences l x <= length l)%nat.
Proof. apply count_occ_bound. Qed.

Lemma keys_length ms : (length (keys ms) <= length ms)%nat.
Proof. unfold keys, live. rewrite length_map. apply length_filter. Qed.

Lemma balanced_permutation ms ms' : (forall v, mult_sum v ms ≡F mult_sum v ms') ->
  Forall (fun m => boolean (multiplicity m)) ms -> Forall (fun m => boolean (multiplicity m)) ms' ->
  Z.of_nat (length ms) < BABYBEAR -> Z.of_nat (length ms') < BABYBEAR -> keys ms ≡ₚ keys ms'.
Proof.
  intros Hb H H' Hl Hl'. apply (Permutation_count_occ (fun x y : list Z => decide (x = y))). intros x.
  destruct (decide (map Fred x = x)) as [Ex|Hx].
  - pose proof (Hb x) as E. rewrite (mult_sum_count x ms H), (mult_sum_count x ms' H'), Ex in E. apply eqF_small in E; [lia|].
    pose proof (count_le_length (keys ms) x). pose proof (count_le_length (keys ms') x). pose proof (keys_length ms). pose proof (keys_length ms'). lia.
  - assert (forall l, occurrences (keys l) x = 0%nat) as Hz; [|by rewrite !Hz].
    intros l. apply count_occ_not_In. intros Hin. unfold keys in Hin. apply in_map_iff in Hin as (m & <- & _). apply Hx.
    rewrite map_map. apply map_ext. intros a. unfold Fred. by rewrite Z.mod_mod by done.
Qed.

(** ** Chains *)

Record MemMsg : Type := mkMemMsg { mm_time : Z * Z; mm_addr : Z; mm_word : Word }.
Record MemAccess : Type := mkMemAccess { ma_addr : Z; ma_prev : (Z * Z) * Word; ma_cur : (Z * Z) * Word }.

#[export] Instance MemMsg_eq_dec : EqDecision MemMsg.
Proof. solve_decision. Defined.

Definition found (a : MemAccess) : MemMsg := mkMemMsg (ma_prev a).1 (ma_addr a) (ma_prev a).2.
Definition left (a : MemAccess) : MemMsg := mkMemMsg (ma_cur a).1 (ma_addr a) (ma_cur a).2.

Definition in_order (a : MemAccess) : Prop := before (ma_prev a).1 (ma_cur a).1.

(** Each access finds what the one before it left. *)
Fixpoint chain (x : (Z * Z) * Word) (l : list MemAccess) (y : (Z * Z) * Word) : Prop :=
  match l with
  | [] => x = y
  | a :: l => ma_prev a = x /\ chain (ma_cur a) l y
  end.

Lemma chain_snoc x l a y : chain x (l ++ [a]) y <-> chain x l (ma_prev a) /\ ma_cur a = y.
Proof. revert x. induction l as [|b l IH]; intros x; cbn; [naive_solver|]. rewrite IH. tauto. Qed.

(** The latest access. *)
Lemma latest (l : list MemAccess) : l <> [] -> exists a l', l ≡ₚ a :: l' /\ forall b, b ∈ l -> ~ before (ma_cur a).1 (ma_cur b).1.
Proof.
  induction l as [|a l IH]; [done|]. intros _. destruct l as [|b l]; [exists a, []|].
  - split; [done|]. intros b ->%list_elem_of_singleton. apply before_irrefl.
  - destruct IH as (c & l' & Hp & Hc); [done|]. assert (before (ma_cur c).1 (ma_cur a).1 \/ ~ before (ma_cur c).1 (ma_cur a).1) as [H|H]
      by (unfold before; lia).
    + exists a, (b :: l). split; [done|]. intros d [->|Hd]%elem_of_cons; [apply before_irrefl|]. intros H'. by apply (Hc d Hd), (before_trans _ (ma_cur a).1).
    + exists c, (a :: l'). split; [rewrite Hp; apply Permutation_swap|]. intros d [->|Hd]%elem_of_cons; [done|by apply Hc].
Qed.

(** One address: from [x] to [y], or untouched. *)
Lemma chain_exists (l : list MemAccess) addr x y : Forall in_order l -> Forall (fun a => ma_addr a = addr) l ->
  map found l ++ [mkMemMsg y.1 addr y.2] ≡ₚ map left l ++ [mkMemMsg x.1 addr x.2] -> exists l', l' ≡ₚ l /\ chain x l' y.
Proof.
  revert y. induction l as [l IH] using (induction_ltof1 _ (@length MemAccess)). unfold ltof in IH. intros y Ho Ha Hp.
  destruct (decide (l = [])) as [->|Hne].
  - exists []. split; [done|]. cbn in Hp. apply Permutation_length_1 in Hp. destruct x, y. by injection Hp as -> ->.
  - destruct (latest l Hne) as (a & l' & Hl & Hmax). rewrite Hl in Hp. cbn [map] in Hp.
    rewrite Hl in Ho, Ha. apply Forall_cons in Ho as [Oa Ol], Ha as [Aa Al].
    assert (left a = mkMemMsg y.1 addr y.2) as Ey.
    { assert (left a ∈ (found a :: map found l') ++ [mkMemMsg y.1 addr y.2]) as Hin by (rewrite Hp; left).
      rewrite elem_of_app, elem_of_cons in Hin. destruct Hin as [[E|E]|E]; [| |by apply list_elem_of_singleton in E].
      - exfalso. unfold in_order in Oa. apply (before_irrefl (ma_cur a).1). injection E as E1 _. by rewrite <- E1 in Oa.
      - exfalso. apply list_elem_of_In, in_map_iff in E as (b & E & Hb%list_elem_of_In). rewrite Forall_forall in Ol.
        apply (Hmax b); [rewrite Hl; by right|]. injection E as E1 _. rewrite <- E1. by apply Ol. }
    destruct (IH l' ltac:(rewrite Hl; cbn; lia) (ma_prev a) Ol Al) as (l'' & Hp' & Hc).
    + rewrite Ey in Hp. assert (mkMemMsg (ma_prev a).1 addr (ma_prev a).2 = found a) as -> by (unfold found; by rewrite Aa).
      apply (Permutation_app_inv_l [mkMemMsg y.1 addr y.2]). cbn [app]. rewrite <- Hp. solve_Permutation.
    + exists (l'' ++ [a]). split; [rewrite Hp', Hl; apply Permutation_app_comm|]. apply chain_snoc. split; [done|].
      unfold left in Ey. destruct y, (ma_cur a). cbn in Ey. by injection Ey as -> _ ->.
Qed.

(** Accesses that find only what they leave: there are none. *)
Lemma no_cycle (l : list MemAccess) : Forall in_order l -> map found l ≡ₚ map left l -> l = [].
Proof.
  intros Ho Hp. destruct (decide (l = [])) as [|Hne]; [done|exfalso]. destruct (latest l Hne) as (a & l' & Hl & Hmax).
  assert (left a ∈ map found l) as Hin by (rewrite Hp, Hl; left). apply list_elem_of_In, in_map_iff in Hin as (b & E & Hb%list_elem_of_In).
  apply (Hmax b Hb). rewrite Forall_forall in Ho. specialize (Ho b Hb). unfold in_order in Ho. injection E as E _ _. by rewrite <- E.
Qed.

Definition at_addr (addr : Z) (l : list MemAccess) : list MemAccess := filter (fun a => ma_addr a = addr) l.
Definition msg_at (addr : Z) (l : list MemMsg) : list MemMsg := filter (fun m => mm_addr m = addr) l.

Lemma msg_at_map (f : MemAccess -> MemMsg) addr l : (forall a, mm_addr (f a) = ma_addr a) -> msg_at addr (map f l) = map f (at_addr addr l).
Proof.
  intros Hf. unfold msg_at, at_addr. induction l as [|a l IH]; [done|]. cbn [map]. rewrite !filter_cons, Hf. case_decide; cbn [map]; by rewrite IH.
Qed.

Lemma msg_at_NoDup addr l : NoDup (map mm_addr l) -> msg_at addr l = [] /\ addr ∉ map mm_addr l \/ exists m, msg_at addr l = [m] /\ m ∈ l /\ mm_addr m = addr.
Proof.
  unfold msg_at. induction l as [|m l IH]; cbn [map]; [intros _; left; split; [done|apply not_elem_of_nil]|]. rewrite NoDup_cons. intros [Hni Hnd].
  rewrite filter_cons. destruct (IH Hnd) as [[E Hn]|(m' & E & Hin & Ea)]; rewrite E; case_decide as Em.
  - right. exists m. split; [done|]. split; [left|done].
  - left. split; [done|]. rewrite elem_of_cons. by intros [|].
  - exfalso. apply Hni. rewrite Em, <- Ea. apply list_elem_of_In, in_map, list_elem_of_In, Hin.
  - right. exists m'. split; [done|]. split; [by right|done].
Qed.

(** The accesses to every address are a chain from its initial to its final
    message, or there are none and the address has neither.  Each address has at
    most one final message, and then no more than one initial one. *)
Lemma memory_chains accs inits finals addr : Forall in_order accs -> NoDup (map mm_addr finals) ->
  (map found accs ++ finals) ≡ₚ (map left accs ++ inits) ->
  (exists x y l, msg_at addr inits = [mkMemMsg x.1 addr x.2] /\ msg_at addr finals = [mkMemMsg y.1 addr y.2] /\ l ≡ₚ at_addr addr accs /\ chain x l y) \/
  at_addr addr accs = [] /\ msg_at addr inits = [] /\ msg_at addr finals = [].
Proof.
  intros Ho Hf Hp. assert (msg_at addr (map found accs ++ finals) ≡ₚ msg_at addr (map left accs ++ inits)) as Ha
    by (unfold msg_at; by rewrite Hp). unfold msg_at in Ha. rewrite !filter_app in Ha. fold (msg_at addr) in Ha.
  fold (msg_at addr (map found accs)) (msg_at addr (map left accs)) (msg_at addr inits) (msg_at addr finals) in Ha. rewrite !msg_at_map in Ha by done.
  assert (Forall in_order (at_addr addr accs)) as Ho'
    by (apply Forall_forall; intros a [_ Hin]%list_elem_of_filter; by apply (proj1 (Forall_forall _ _) Ho)).
  assert (Forall (fun a => ma_addr a = addr) (at_addr addr accs)) as Haddr by (apply Forall_forall; intros a [? _]%list_elem_of_filter; done).
  pose proof (Permutation_length Ha) as Hl. rewrite !length_app, !length_map in Hl.
  assert (forall m, m ∈ msg_at addr inits -> mm_addr m = addr) as Hi by (intros m [? _]%list_elem_of_filter; done).
  destruct (msg_at_NoDup addr finals Hf) as [[Ef Hnf]|([ty ay wy] & Ef & Hinf & Eay)]; rewrite Ef in Ha, Hl; cbn in Hl.
  - assert (msg_at addr inits = []) as Ei by (apply length_zero_iff_nil; lia). rewrite Ei, !app_nil_r in Ha. right. split; [by apply no_cycle|done].
  - destruct (msg_at addr inits) as [|[tx ax wx] [|]]; cbn in Hl; [lia| |lia]. left. cbn [mm_addr] in Eay. subst ay. assert (ax = addr) as -> by (apply (Hi _ (list_elem_of_here _ _))).
    destruct (chain_exists (at_addr addr accs) addr (tx, wx) (ty, wy) Ho' Haddr Ha) as (l & Hp' & Hc). by exists (tx, wx), (ty, wy), l.
Qed.

(** ** The word at an address at a time *)

#[export] Instance before_dec t t' : Decision (before t t').
Proof. unfold before. apply _. Defined.

Abbreviation time_of a := (ma_cur a).1.

(** The latest access before a time. *)
Fixpoint latest_before (t : Z * Z) (l : list MemAccess) : option MemAccess :=
  match l with
  | [] => None
  | a :: l =>
      match latest_before t l with
      | Some b => Some (if decide (before (time_of a) t /\ before (time_of b) (time_of a)) then a else b)
      | None => if decide (before (time_of a) t) then Some a else None
      end
  end.

Definition word_at (inits : list MemMsg) (accs : list MemAccess) (t : Z * Z) (addr : Z) : Word :=
  match latest_before t (at_addr addr accs) with
  | Some a => (ma_cur a).2
  | None => match msg_at addr inits with m :: _ => mm_word m | [] => word_zero end
  end.

Lemma latest_before_spec t l : match latest_before t l with
  | Some a => a ∈ l /\ before (time_of a) t /\ forall b, b ∈ l -> before (time_of b) t -> ~ before (time_of a) (time_of b)
  | None => forall b, b ∈ l -> ~ before (time_of b) t
  end.
Proof.
  induction l as [|a l IH]; cbn [latest_before]; [by intros b Hb%not_elem_of_nil|]. destruct (latest_before t l) as [b|].
  - destruct IH as (Hin & Hb & Hmax). case_decide as Hd.
    + destruct Hd as [Ha Hba]. split; [left|]. split; [done|]. intros c [->|Hc]%elem_of_cons Ht; [apply before_irrefl|]. intros Hac.
      by apply (Hmax c Hc Ht), (before_trans _ (time_of a)).
    + split; [by right|]. split; [done|]. intros c [->|Hc]%elem_of_cons Ht; [|by apply Hmax]. intros Hba. by apply Hd.
  - case_decide as Ha.
    + split; [left|]. split; [done|]. intros c [->|Hc]%elem_of_cons Ht; [apply before_irrefl|by destruct (IH c Hc)].
    + intros c [->|Hc]%elem_of_cons; [done|by apply IH].
Qed.

(** Times with the same accesses before them. *)
Lemma latest_before_agree t t' l : (forall a, a ∈ l -> before (time_of a) t <-> before (time_of a) t') -> latest_before t l = latest_before t' l.
Proof.
  induction l as [|a l IH]; intros H; [done|]. cbn [latest_before]. rewrite IH by (intros b Hb; apply H; by right). pose proof (H a (list_elem_of_here _ _)) as Ha.
  destruct (latest_before t' l); repeat case_decide; tauto.
Qed.

Lemma word_at_agree inits accs t t' addr : (forall a, a ∈ accs -> before (time_of a) t <-> before (time_of a) t') -> word_at inits accs t addr = word_at inits accs t' addr.
Proof.
  intros H. unfold word_at. rewrite (latest_before_agree t t'); [done|]. intros a Ha. apply H. unfold at_addr in Ha. by apply list_elem_of_filter in Ha as [_ ?].
Qed.

(** Along a chain time increases. *)
Lemma chain_after x l y : chain x l y -> Forall in_order l -> Forall (fun a => before x.1 (time_of a)) l.
Proof.
  revert x. induction l as [|a l IH]; intros x; [done|]. intros [E Hc] [Ha Hl]%Forall_cons. unfold in_order in Ha. rewrite E in Ha. constructor; [done|].
  eapply Forall_impl; [exact (IH _ Hc Hl)|]. intros b Hb. by apply (before_trans _ (time_of a)).
Qed.

Lemma chain_times x l y a b : chain x l y -> Forall in_order l -> a ∈ l -> b ∈ l -> time_of a = time_of b -> a = b.
Proof.
  revert x. induction l as [|c l IH]; intros x; [by intros _ _ Ha%not_elem_of_nil|]. intros [E Hc] [Ho Hl]%Forall_cons. pose proof (chain_after _ _ _ Hc Hl) as Haf. rewrite Forall_forall in Haf.
  intros [->|Ha]%elem_of_cons [->|Hb]%elem_of_cons Et; [done| | |by eapply IH].
  - exfalso. apply (before_irrefl (time_of b)). rewrite <- Et at 1. by apply Haf.
  - exfalso. apply (before_irrefl (time_of a)). rewrite Et at 1. by apply Haf.
Qed.

(** The word along a chain. *)
Fixpoint value_at (w : Word) (l : list MemAccess) (t : Z * Z) : Word :=
  match l with
  | [] => w
  | a :: l => if decide (before (time_of a) t) then value_at (ma_cur a).2 l t else w
  end.

Lemma value_at_spec x l y t : chain x l y -> Forall in_order l ->
  (exists a, a ∈ l /\ before (time_of a) t /\ (forall b, b ∈ l -> before (time_of b) t -> ~ before (time_of a) (time_of b)) /\ value_at x.2 l t = (ma_cur a).2) \/
  (forall b, b ∈ l -> ~ before (time_of b) t) /\ value_at x.2 l t = x.2.
Proof.
  revert x. induction l as [|a l IH]; intros x; [intros _ _; right; split; [by intros b Hb%not_elem_of_nil|done]|]. intros [E Hc] [Ha Hl]%Forall_cons. cbn [value_at].
  pose proof (chain_after _ _ _ Hc Hl) as Haf. rewrite Forall_forall in Haf. case_decide as Ht.
  - left. destruct (IH _ Hc Hl) as [(b & Hb & Hbt & Hmax & Ev)|[Hn Ev]].
    + exists b. split; [by right|]. split; [done|]. split; [|done]. intros c [->|Hcin]%elem_of_cons Hct; [|by apply Hmax]. intros Hba. apply (before_irrefl (time_of b)), (before_trans _ (time_of a)); [done|by apply Haf].
    + exists a. split; [left|]. split; [done|]. split; [|done]. intros c [->|Hcin]%elem_of_cons Hct; [apply before_irrefl|by destruct (Hn c)].
  - right. split; [|done]. intros b [->|Hb]%elem_of_cons; [done|]. intros Hbt. apply Ht, (before_trans _ (time_of b)); [by apply Haf|done].
Qed.

Lemma value_at_found x l y a : chain x l y -> Forall in_order l -> a ∈ l -> value_at x.2 l (time_of a) = (ma_prev a).2.
Proof.
  revert x. induction l as [|c l IH]; intros x; [by intros _ _ Ha%not_elem_of_nil|]. intros [E Hc] [Ho Hl]%Forall_cons Ha. cbn [value_at].
  apply elem_of_cons in Ha as [->|Ha].
  - rewrite decide_False by apply before_irrefl. by rewrite E.
  - pose proof (chain_after _ _ _ Hc Hl) as Haf. rewrite Forall_forall in Haf. rewrite decide_True by (by apply Haf). by apply IH.
Qed.

Lemma value_at_succ x l y s c : chain x l y -> Forall in_order l ->
  (forall a, a ∈ l -> time_of a = (s, c) -> value_at x.2 l (s, c + 1) = (ma_cur a).2) /\
  ((forall a, a ∈ l -> time_of a <> (s, c)) -> value_at x.2 l (s, c + 1) = value_at x.2 l (s, c)).
Proof.
  assert (forall t, before t (s, c + 1) <-> before t (s, c) \/ t = (s, c)) as Hb.
  { intros [t1 t2]. unfold before. cbn. split; [|intros [H|H]; [lia|injection H as -> ->; lia]]. intros H. destruct (decide ((t1, t2) = (s, c))) as [|Hne]; [by right|left].
    assert (t1 <> s \/ t2 <> c) by (destruct (decide (t1 = s)), (decide (t2 = c)); subst; tauto). lia. }
  revert x. induction l as [|a l IH]; intros x; [intros _ _; split; [by intros a Ha%not_elem_of_nil|done]|]. intros [E Hc] [Ho Hl]%Forall_cons. cbn [value_at].
  destruct (IH _ Hc Hl) as [IH1 IH2]. pose proof (chain_after _ _ _ Hc Hl) as Haf. rewrite Forall_forall in Haf. split.
  - intros b Hin Et. apply elem_of_cons in Hin as [->|Hin].
    + rewrite decide_True by (apply Hb; by right). rewrite Et in Haf. destruct l as [|b l]; [done|]. cbn [value_at]. rewrite decide_False; [done|]. rewrite Hb. intros [H|H].
      * apply (before_irrefl (s, c)), (before_trans _ (time_of b)); [apply Haf; left|done].
      * apply (before_irrefl (s, c)). rewrite <- H at 2. apply Haf. left.
    + rewrite decide_True; [by apply IH1|]. apply Hb. left. rewrite <- Et. by apply Haf.
  - intros Hno. destruct (decide (before (time_of a) (s, c))) as [Ha|Ha].
    + rewrite decide_True by (apply Hb; by left). apply IH2. intros b Hin. apply Hno. by right.
    + rewrite decide_False; [done|]. rewrite Hb. intros [H|H]; [done|]. by apply (Hno a (list_elem_of_here _ _)).
Qed.

Section WordAt.
  Context (inits : list MemMsg) (accs : list MemAccess) (finals : list MemMsg) (Ho : Forall in_order accs) (Hf : NoDup (map mm_addr finals)).
  Context (Hp : (map found accs ++ finals) ≡ₚ (map left accs ++ inits)).

Lemma in_at_addr addr a : a ∈ at_addr addr accs <-> a ∈ accs /\ ma_addr a = addr.
Proof using. clear. unfold at_addr. rewrite list_elem_of_filter. tauto. Qed.

Lemma word_at_chain addr x y l t : msg_at addr inits = [mkMemMsg x.1 addr x.2] -> l ≡ₚ at_addr addr accs -> chain x l y ->
  word_at inits accs t addr = value_at x.2 l t.
Proof using Ho.
  clear Hf Hp. intros Hinit Hl Hc. assert (Forall in_order l) as Hol.
  { apply Forall_forall. intros a Ha. rewrite Hl, in_at_addr in Ha. rewrite Forall_forall in Ho. by apply Ho, Ha. }
  unfold word_at. pose proof (latest_before_spec t (at_addr addr accs)) as Hs. destruct (latest_before _ _) as [b|].
  - destruct Hs as (Hb & Hbt & Hmax). rewrite <- Hl in Hb. destruct (value_at_spec x l y t Hc Hol) as [(a & Ha & Hat & Hmax' & ->)|[Hn _]]; [|by destruct (Hn b)].
    assert (b = a) as ->; [|done]. apply (chain_times x l y b a Hc Hol Hb Ha). assert (a ∈ at_addr addr accs) as Ha' by (by rewrite <- Hl). specialize (Hmax a Ha' Hat). specialize (Hmax' b Hb Hbt).
    destruct (time_of a) as [a1 a2], (time_of b) as [b1 b2]. unfold before in *. cbn in *. f_equal; lia.
  - destruct (value_at_spec x l y t Hc Hol) as [(a & Ha & Hat & _)|[_ ->]]; [exfalso; apply (Hs a); [by rewrite <- Hl|done]|]. by rewrite Hinit.
Qed.

Lemma chain_in_order addr l : l ≡ₚ at_addr addr accs -> Forall in_order l.
Proof using Ho. clear Hf Hp. intros Hl. apply Forall_forall. intros a Ha. rewrite Hl, in_at_addr in Ha. rewrite Forall_forall in Ho. by apply Ho, Ha. Qed.

Lemma access_chain a : a ∈ accs -> exists x y l, msg_at (ma_addr a) inits = [mkMemMsg x.1 (ma_addr a) x.2] /\
  l ≡ₚ at_addr (ma_addr a) accs /\ chain x l y /\ Forall in_order l /\ a ∈ l.
Proof using Ho Hf Hp.
  intros Ha. assert (a ∈ at_addr (ma_addr a) accs) as Hin by (by apply in_at_addr).
  destruct (memory_chains accs inits finals (ma_addr a) Ho Hf Hp) as [(x & y & l & Hi & _ & Hl & Hc)|(E & _)]; [|rewrite E in Hin; by apply not_elem_of_nil in Hin].
  exists x, y, l. split_and!; try done; [by apply (chain_in_order (ma_addr a))|by rewrite Hl].
Qed.

(** An access finds the word at its time and leaves its own. *)
Lemma word_at_found a : a ∈ accs -> word_at inits accs (time_of a) (ma_addr a) = (ma_prev a).2.
Proof using Ho Hf Hp.
  intros Ha. destruct (access_chain a Ha) as (x & y & l & Hi & Hl & Hc & Hol & Hin). rewrite (word_at_chain _ x y l _ Hi Hl Hc). by apply (value_at_found x l y).
Qed.

Lemma word_at_left a s c : a ∈ accs -> time_of a = (s, c) -> word_at inits accs (s, c + 1) (ma_addr a) = (ma_cur a).2.
Proof using Ho Hf Hp.
  intros Ha Et. destruct (access_chain a Ha) as (x & y & l & Hi & Hl & Hc & Hol & Hin). rewrite (word_at_chain _ x y l _ Hi Hl Hc). by apply (value_at_succ x l y s c Hc Hol).
Qed.

Lemma word_at_same addr s c : (forall a, a ∈ accs -> ma_addr a = addr -> time_of a <> (s, c)) ->
  word_at inits accs (s, c + 1) addr = word_at inits accs (s, c) addr.
Proof using Ho Hf Hp.
  intros Hno. destruct (memory_chains accs inits finals addr Ho Hf Hp) as [(x & y & l & Hi & _ & Hl & Hc)|(E & _)].
  - rewrite !(word_at_chain _ x y l _ Hi Hl Hc). apply (value_at_succ x l y s c Hc (chain_in_order _ _ Hl)). intros a Ha. rewrite Hl, in_at_addr in Ha. by apply Hno; apply Ha.
  - unfold word_at. by rewrite E.
Qed.

(** A property of words that holds at the start and that the accesses keep. *)
Lemma word_at_invariant (P : Z -> Word -> Prop) : (forall m, m ∈ inits -> P (mm_addr m) (mm_word m)) -> (forall addr, msg_at addr inits = [] -> P addr word_zero) ->
  (forall a, a ∈ accs -> P (ma_addr a) (ma_prev a).2 -> P (ma_addr a) (ma_cur a).2) -> forall t addr, P addr (word_at inits accs t addr).
Proof using Ho Hf Hp.
  intros Hi0 Hz Hk t addr. destruct (memory_chains accs inits finals addr Ho Hf Hp) as [(x & y & l & Hi & _ & Hl & Hc)|(E & E' & _)].
  - rewrite (word_at_chain _ x y l _ Hi Hl Hc). assert (P addr x.2) as Px.
    { assert (mkMemMsg x.1 addr x.2 ∈ msg_at addr inits) as Hin by (rewrite Hi; left). apply list_elem_of_filter in Hin as [_ Hin]. exact (Hi0 _ Hin). }
    assert (forall a, a ∈ l -> P addr (ma_prev a).2 -> P addr (ma_cur a).2) as Hk'.
    { intros a Ha. rewrite Hl, in_at_addr in Ha. destruct Ha as [Ha <-]. by apply Hk. }
    clear Hi Hl Hi0 Hk. revert x Hc Px. induction l as [|a l IH]; intros x; [done|]. intros [E Hc] Px. cbn [value_at]. rewrite <- E in Px. case_decide; [|by rewrite <- E].
    apply IH; [intros b Hb; apply Hk'; by right|done|apply Hk'; [left|done]].
  - unfold word_at. rewrite E, E'. cbn. by apply Hz.
Qed.
End WordAt.
