(* ===== verification/MemoryLocalChip.v ===== *)
(** * The MemoryLocal chip (crates/core/machine/src/memory/local.rs)

    Four entries per row, one entry per address a shard touches: the word the
    shard found there and the word it left.  An entry receives the first word
    and sends the last one inside the shard, and the other way round to the
    global table that connects the shards. *)

From Stdlib Require Import ZArith Lia Bool.
From stdpp Require Import base list gmap.
From S2P Require Import Prelude Isa Events ByteLookup Air Record AirBuilder ByteTable MemoryAir ChipSpec Lookup TraceGen MemoryCheck.

Local Open Scope Z_scope.
Local Open Scope rv_scope.

(** ** Messages of the global table *)

(** A message with its direction and kind, as the Global chip receives it. *)
Definition global_values (message : list Z) (is_send is_receive : Z) (k : InteractionKind) : list Z :=
  message ++ [is_send; is_receive; argument_index k].

Module MemoryLocalChip.
Definition NUM_LOCAL_MEMORY_ENTRIES_PER_ROW : nat := 4.

Record SingleMemoryLocal : Type := mkSingleMemoryLocal {
  addr : Z;
  initial_shard : Z;
  final_shard : Z;
  initial_clk : Z;
  final_clk : Z;
  initial_value : Word;
  final_value : Word;
  is_real : Z
}.

Record MemoryLocalCols : Type := mkMemoryLocalCols { memory_local_entries : list SingleMemoryLocal }.

Definition zero_entry : SingleMemoryLocal := mkSingleMemoryLocal 0 0 0 0 0 word_zero word_zero 0.
Definition zero_row : MemoryLocalCols := mkMemoryLocalCols (replicate NUM_LOCAL_MEMORY_ENTRIES_PER_ROW zero_entry).

(** ** Rows *)

Definition nb_rows (count : nat) : nat := (count + (NUM_LOCAL_MEMORY_ENTRIES_PER_ROW - 1)) / NUM_LOCAL_MEMORY_ENTRIES_PER_ROW.

Definition num_rows (input : ExecutionRecord) : option nat :=
  size_log2 ← fixed_log2_rows input RiscvAirId.MemoryLocal;
  next_power_of_two (nb_rows (length (get_local_mem_events input))) size_log2.

Definition entry_of (event : MemoryLocalEvent) : SingleMemoryLocal :=
  let initial := ml_initial_mem_access event in
  let final := ml_final_mem_access event in
  mkSingleMemoryLocal (Fred (ml_addr event)) (Fred (rec_shard initial)) (Fred (rec_shard final))
    (Fred (rec_timestamp initial)) (Fred (rec_timestamp final)) (word_from (rec_value initial)) (word_from (rec_value final)) 1.

(** The entries from [idx] on. *)
Definition fill_row (events : list MemoryLocalEvent) (idx : nat) : MemoryLocalCols :=
  mkMemoryLocalCols (map (fun k => match events !! (idx + k)%nat with Some event => entry_of event | None => zero_entry end)
    (seq 0 NUM_LOCAL_MEMORY_ENTRIES_PER_ROW)).

Definition generate_trace (cpus : nat) (input : ExecutionRecord) : option (list MemoryLocalCols) :=
  let events := get_local_mem_events input in
  let nb_rows := nb_rows (length events) in
  padded_nb_rows ← num_rows input;
  let chunk_size := (Nat.max (nb_rows / cpus) 0 + 1)%nat in
  rows ← concat (A := MemoryLocalCols) <$> mapM (fun '(i, rows) =>
      mapM (fun '(j, _) => Some (fill_row events ((i * chunk_size + j) * NUM_LOCAL_MEMORY_ENTRIES_PER_ROW))) (enumerate rows))
    (enumerate (chunks chunk_size (replicate nb_rows zero_row)));
  Some (rows ++ replicate (padded_nb_rows - nb_rows) zero_row).

(** The events of the Global chip. *)
Definition global_event (addr : Z) (r : MemoryRecord) (is_receive : bool) : GlobalInteractionEvent :=
  mkGlobalInteractionEvent
    [rec_shard r; rec_timestamp r; addr; Z.land (rec_value r) 255; Z.land (Z.shiftr (rec_value r) 8) 255;
     Z.land (Z.shiftr (rec_value r) 16) 255; Z.land (Z.shiftr (rec_value r) 24) 255] is_receive (argument_index KMemory).

Definition generate_dependencies (input output : ExecutionRecord) : ExecutionRecord :=
  let events := flat_map (fun e => [global_event (ml_addr e) (ml_initial_mem_access e) true;
                                    global_event (ml_addr e) (ml_final_mem_access e) false]) (get_local_mem_events input) in
  upd_global_interaction_events (fun l => l ++ events) output.

(** ** Constraints *)

Definition eval_entry (local : SingleMemoryLocal) : list Call :=
  let initial := memory_values (initial_shard local) (initial_clk local) (addr local) (initial_value local) in
  let final := memory_values (final_shard local) (final_clk local) (addr local) (final_value local) in
  [AssertBool (is_real local);
   AssertEq (is_real local * is_real local * is_real local) (is_real local * is_real local * is_real local);
   Receive (mkAirInteraction initial (is_real local) KMemory) Local;
   Send (mkAirInteraction (global_values initial 0 1 KMemory) (is_real local) KGlobal) Local;
   Send (mkAirInteraction (global_values final 1 0 KMemory) (is_real local) KGlobal) Local;
   Send (mkAirInteraction final (is_real local) KMemory) Local].

Definition eval (local : MemoryLocalCols) : list Call := flat_map eval_entry (memory_local_entries local).

Definition entry_wf (e : SingleMemoryLocal) : Prop :=
  word_canon (initial_value e) /\ word_canon (final_value e) /\
  Forall canon [addr e; initial_shard e; final_shard e; initial_clk e; final_clk e; is_real e].
Definition wf (r : MemoryLocalCols) : Prop := Forall entry_wf (memory_local_entries r).
End MemoryLocalChip.
Import MemoryLocalChip.

(** ** The trace *)

Lemma nb_rows_le n : (n <= nb_rows n * 4)%nat /\ (nb_rows n * 4 < n + 4)%nat.
Proof. unfold nb_rows, NUM_LOCAL_MEMORY_ENTRIES_PER_ROW. pose proof (Nat.div_mod_eq (n + (4 - 1)) 4). pose proof (Nat.mod_upper_bound (n + (4 - 1)) 4). lia. Qed.

Lemma mapM_Some_map {A B} (f : A -> B) l : mapM (fun x => Some (f x)) l = Some (map f l).
Proof. induction l as [|x l IH]; [done|]. cbn [mapM mbind option_bind map]. by rewrite IH. Qed.

(** The rows do not depend on the chunks. *)
Lemma local_trace_eq cpus input : generate_trace cpus input =
  padded ← num_rows input; let events := get_local_mem_events input in
  Some (map (fun i => fill_row events (i * 4)) (seq 0 (nb_rows (length events))) ++
        replicate (padded - nb_rows (length events)) zero_row).
Proof.
  unfold generate_trace. destruct (num_rows input) as [padded|]; [|done]. cbn [mbind option_bind].
  set (events := get_local_mem_events input). set (n := nb_rows (length events)).
  unfold chunks, enumerate at 2. rewrite (enumerate_chunks (fun i => Some (fill_row events (i * 4))) (Nat.max (n / cpus) 0 + 1)) by (rewrite ?length_replicate; lia).
  rewrite length_replicate. cbn [Nat.mul]. by rewrite mapM_Some_map.
Qed.

(** The entries in order: those of the events, then empty ones. *)
Lemma fill_rows_entries events n : (length events <= n * 4)%nat ->
  flat_map memory_local_entries (map (fun i => fill_row events (i * 4)) (seq 0 n)) = map entry_of events ++ replicate (n * 4 - length events) zero_entry.
Proof.
  set (g := fun k => match events !! k with Some event => entry_of event | None => zero_entry end).
  assert (forall n s, flat_map memory_local_entries (map (fun i => fill_row events (i * 4)) (seq s n)) = map g (seq (s * 4) (n * 4))) as H.
  { clear n. induction n as [|n IH]; intros s; [done|]. cbn [seq map flat_map]. rewrite IH. change (S n * 4)%nat with (4 + n * 4)%nat. rewrite seq_app, map_app.
    f_equal; [|by replace (s * 4 + 4)%nat with (S s * 4)%nat by lia]. unfold fill_row, NUM_LOCAL_MEMORY_ENTRIES_PER_ROW, memory_local_entries. cbn [seq map].
    subst g. by rewrite Nat.add_0_r, !Nat.add_succ_r, Nat.add_0_r. }
  rewrite H. cbn [Nat.mul]. intros Hn. clear H. pose proof (mapM_lookup (fun e => Some (entry_of e)) zero_entry events (n * 4) Hn) as E.
  rewrite mapM_Some_map in E. cbn [mbind option_bind] in E. apply (inj Some). rewrite <- E, <- mapM_Some_map. subst g.
  generalize (seq 0 (n * 4)). induction l as [|i l IH]; [done|]. cbn [mapM]. rewrite IH. by destruct (events !! i).
Qed.

(** ** Messages *)

(** Events whose fields fit the columns. *)
Definition mem_record_ok (r : MemoryRecord) : Prop := canon (rec_shard r) /\ canon (rec_timestamp r) /\ is_u32 (rec_value r).
Definition local_event_ok (e : MemoryLocalEvent) : Prop :=
  canon (ml_addr e) /\ mem_record_ok (ml_initial_mem_access e) /\ mem_record_ok (ml_final_mem_access e).

(** The word at an address, as a message. *)
Definition record_values (addr : Z) (r : MemoryRecord) : list Z := memory_values (rec_shard r) (rec_timestamp r) addr (word_from (rec_value r)).

(** What the Global chip reads off an event. *)
Definition global_event_values (e : GlobalInteractionEvent) : list Z :=
  gi_message e ++ [from_bool (negb (gi_is_receive e)); from_bool (gi_is_receive e); gi_kind e].

Lemma land_255 x : Z.land x 255 = u8 x.
Proof. change 255 with (Z.ones 8). rewrite Z.land_ones by lia. done. Qed.

Lemma global_event_eq addr r is_receive :
  global_event_values (global_event addr r is_receive) = global_values (record_values addr r) (from_bool (negb is_receive)) (from_bool is_receive) KMemory.
Proof. unfold global_event_values, global_event. cbn [gi_message gi_is_receive gi_kind]. by rewrite !land_255. Qed.

Abbreviation message v k := (mkAirInteraction v 1 k).

Lemma live_app l1 l2 : live (l1 ++ l2) = live l1 ++ live l2.
Proof. apply filter_app. Qed.

(** The messages of the entries of the events; the others are silent. *)
Lemma entries_messages events n : Forall local_event_ok events ->
  let calls := flat_map eval_entry (map entry_of events ++ replicate n zero_entry) in
  all_hold calls /\
  live (receives KMemory calls) = map (fun e => message (record_values (ml_addr e) (ml_initial_mem_access e)) KMemory) events /\
  live (sends KMemory calls) = map (fun e => message (record_values (ml_addr e) (ml_final_mem_access e)) KMemory) events /\
  live (sends KGlobal calls) = flat_map (fun e =>
    [message (global_values (record_values (ml_addr e) (ml_initial_mem_access e)) 0 1 KMemory) KGlobal;
     message (global_values (record_values (ml_addr e) (ml_final_mem_access e)) 1 0 KMemory) KGlobal]) events.
Proof.
  induction 1 as [|e events (Ha & (Hs & Ht & _) & (Hs' & Ht' & _)) _ IH]; cbn [map app flat_map].
  - induction n as [|n IH]; [done|]. cbn [replicate flat_map]. destruct IH as (H1 & H2 & H3 & H4).
    rewrite all_hold_app, receives_app, !sends_app, !live_app, H2, H3, H4. split; [|done]. split; [|exact H1]. split; [by left|]. done.
  - destruct IH as (H1 & H2 & H3 & H4). rewrite all_hold_app, receives_app, !sends_app, !live_app, H2, H3, H4. split; [|].
    { split; [|exact H1]. split; [by right|]. done. }
    unfold entry_of, eval_entry. cbn [addr initial_shard final_shard initial_clk final_clk initial_value final_value is_real]. rewrite !Fred_small by done. done.
Qed.

Lemma flat_map_eval rows : flat_map eval rows = flat_map eval_entry (flat_map memory_local_entries rows).
Proof. induction rows as [|r rows IH]; [done|]. cbn [flat_map]. by rewrite IH, flat_map_app. Qed.

Lemma zero_entries n : flat_map memory_local_entries (replicate n zero_row) = replicate (n * 4) zero_entry.
Proof. induction n as [|n IH]; [done|]. cbn [replicate flat_map]. rewrite IH. done. Qed.

Lemma local_trace_entries cpus input rows : generate_trace cpus input = Some rows ->
  exists n, flat_map eval rows = flat_map eval_entry (map entry_of (get_local_mem_events input) ++ replicate n zero_entry).
Proof.
  rewrite local_trace_eq. destruct (num_rows input) as [padded|]; [|done]. cbn [mbind option_bind]. intros [= <-].
  rewrite flat_map_eval, flat_map_app, fill_rows_entries, zero_entries by apply nb_rows_le. rewrite <- app_assoc, <- replicate_add. by eexists.
Qed.

Definition sample_local_record : ExecutionRecord :=
  upd_cpu_local_memory_access (fun _ => map (fun a => mkMemoryLocalEvent a (mkMemoryRecord 0 0 0) (mkMemoryRecord 1 (a + 3) 0x1234)) [5; 6; 7; 8; 100]) ExecutionRecord_default.

(** C37. The rows the MemoryLocal chip fills pass, on any number of threads: they
    receive the word every event found and send the word it left, and the
    messages they send to the Global chip are, in order, the events
    [generate_dependencies] records for it. *)
Theorem memory_local_messages cpus input output rows : generate_trace cpus input = Some rows ->
  Forall local_event_ok (get_local_mem_events input) ->
  let calls := flat_map eval rows in
  all_hold calls /\
  live (receives KMemory calls) = map (fun e => message (record_values (ml_addr e) (ml_initial_mem_access e)) KMemory) (get_local_mem_events input) /\
  live (sends KMemory calls) = map (fun e => message (record_values (ml_addr e) (ml_final_mem_access e)) KMemory) (get_local_mem_events input) /\
  exists new, global_interaction_events (generate_dependencies input output) = global_interaction_events output ++ new /\
    map values (live (sends KGlobal calls)) = map global_event_values new.
Proof.
  intros Ht Hok. destruct (local_trace_entries _ _ _ Ht) as [n En]. cbn zeta. rewrite En. destruct (entries_messages _ n Hok) as (H1 & H2 & H3 & H4).
  split; [done|]. split; [done|]. split; [done|]. eexists. split; [reflexivity|]. rewrite H4. clear.
  induction (get_local_mem_events input) as [|e l IH]; [done|]. cbn [flat_map app map]. rewrite IH. by rewrite !global_event_eq.
Qed.

Lemma memory_local_messages_witness : exists rows, generate_trace 2 sample_local_record = Some rows /\ length rows = 16%nat /\
  all_hold (flat_map eval rows) /\ length (live (sends KGlobal (flat_map eval rows))) = 10%nat.
Proof.
  destruct (generate_trace 2 sample_local_record) as [rows|] eqn:E; [|vm_compute in E; discriminate E]. exists rows. split; [done|].
  assert (Forall local_event_ok (get_local_mem_events sample_local_record)) as Hok.
  { change (get_local_mem_events sample_local_record) with
      (map (fun a => mkMemoryLocalEvent a (mkMemoryRecord 0 0 0) (mkMemoryRecord 1 (a + 3) 0x1234)) [5; 6; 7; 8; 100]).
    rewrite Forall_map. repeat apply Forall_cons_2; try apply Forall_nil_2;
      unfold local_event_ok, mem_record_ok; rewrite !is_u32_iff; unfold canon, BABYBEAR; cbn; lia. }
  destruct (memory_local_messages 2 sample_local_record sample_local_record rows E Hok) as (H & _). split; [vm_compute in E; injection E as <-; done|].
  split; [done|]. vm_compute in E. injection E as <-. reflexivity.
Defined.
