(* ===== verification/MemoryGlobalChip.v ===== *)
(** * The MemoryGlobalInit and MemoryGlobalFinalize chips
    (crates/core/machine/src/memory/global.rs)

    One row per address the program uses, in strictly increasing order of the
    addresses, across the shards too: the first row of a table is above the last
    address of the table before it.  Every row sends the word of its address to
    the global table: at time zero, or as the last access left it. *)

From Stdlib Require Import ZArith Lia Bool Sorted.
From stdpp Require Import base list gmap sorting.
From S2P Require Import Prelude Isa Events ByteLookup Air Record AirBuilder ByteTable MemoryAir Operations ChipSpec Lookup TraceGen CpuChip MemoryCheck.
From S2P Require Import MemoryLocalChip.

Local Open Scope Z_scope.
Local Open Scope rv_scope.

Import CpuChip (RowPosition, mkRowPosition, is_first_row, is_last_row, is_transition).

Inductive MemoryChipType : Type := Initialize | Finalize.

Module MemoryGlobalChip.
Record MemoryInitCols : Type := mkMemoryInitCols {
  shard : Z;
  timestamp : Z;
  addr : Z;
  lt_cols : AssertLtColsBits.AssertLtColsBits;
  addr_bits : BabyBearBitDecomposition.BabyBearBitDecomposition;
  value : list Z;
  is_real : Z;
  is_next_comp : Z;
  is_prev_addr_zero : IsZeroOperation.IsZeroOperation;
  is_first_comp : Z;
  is_last_addr : Z
}.

Definition zero_flags : AssertLtColsBits.AssertLtColsBits := AssertLtColsBits.mkAssertLtColsBits (replicate 32 0).
Definition zero_row : MemoryInitCols :=
  mkMemoryInitCols 0 0 0 zero_flags BabyBearBitDecomposition.zero (replicate 32 0) 0 0 (IsZeroOperation.mkIsZeroOperation 0 0) 0 0.

(** ** Rows *)

Definition events_of (kind : MemoryChipType) (input : ExecutionRecord) : list MemoryInitializeFinalizeEvent :=
  match kind with Initialize => global_memory_initialize_events input | Finalize => global_memory_finalize_events input end.

(** The public values the chip reads. *)
Record MemoryPublicValues : Type := mkMemoryPublicValues {
  previous_init_addr_bits : list Z;
  last_init_addr_bits : list Z;
  previous_finalize_addr_bits : list Z;
  last_finalize_addr_bits : list Z
}.

Definition memory_pv (pv : PublicValues) : MemoryPublicValues :=
  mkMemoryPublicValues (Record.previous_init_addr_bits pv) (Record.last_init_addr_bits pv)
    (Record.previous_finalize_addr_bits pv) (Record.last_finalize_addr_bits pv).

Definition previous_addr_bits (kind : MemoryChipType) (pv : MemoryPublicValues) : list Z :=
  match kind with Initialize => previous_init_addr_bits pv | Finalize => previous_finalize_addr_bits pv end.
Definition last_addr_bits (kind : MemoryChipType) (pv : MemoryPublicValues) : list Z :=
  match kind with Initialize => last_init_addr_bits pv | Finalize => last_finalize_addr_bits pv end.

Definition chip_id (kind : MemoryChipType) : RiscvAirId.t :=
  match kind with Initialize => RiscvAirId.MemoryGlobalInit | Finalize => RiscvAirId.MemoryGlobalFinalize end.

Definition num_rows (kind : MemoryChipType) (input : ExecutionRecord) : option nat :=
  size_log2 ← fixed_log2_rows input (chip_id kind); next_power_of_two (length (events_of kind input)) size_log2.

Definition generate_dependencies (kind : MemoryChipType) (input output : ExecutionRecord) : ExecutionRecord :=
  let is_receive := match kind with Initialize => false | Finalize => true end in
  let events := map (fun event =>
    let r := mkMemoryRecord (if is_receive then mif_shard event else 0) (if is_receive then mif_timestamp event else 0) (mif_value event) in
    MemoryLocalChip.global_event (mif_addr event) r is_receive) (sort_by_addr (events_of kind input)) in
  upd_global_interaction_events (fun l => l ++ events) output.

(** The columns an event alone decides. *)
Definition event_row (event : MemoryInitializeFinalizeEvent) : MemoryInitCols :=
  mkMemoryInitCols (Fred (mif_shard event)) (Fred (mif_timestamp event)) (Fred (mif_addr event)) zero_flags
    (BabyBearBitDecomposition.populate (mif_addr event)) (bits_of (mif_value event)) (Fred (mif_used event)) 0
    (IsZeroOperation.mkIsZeroOperation 0 0) 0 0.

(** The columns that compare it with the address before it: that of the public
    values in the first row, that of the previous event in the others.
    [None]: addresses repeat or are out of order. *)
Definition first_row (previous_addr_bits : list Z) (row : MemoryInitCols) (addr : Z) : option MemoryInitCols :=
  let prev_addr := u32 (fold_left (fun s '(j, bit) => s + bit * 2 ^ Z.of_nat j) (zip (seq 0 32) previous_addr_bits) 0) in
  lt ← (if prev_addr =? 0 then Some (lt_cols row) else AssertLtColsBits.populate previous_addr_bits (bits_of addr));
  Some (mkMemoryInitCols (shard row) (timestamp row) (MemoryGlobalChip.addr row) lt (addr_bits row) (value row) (is_real row) (is_next_comp row)
    (IsZeroOperation.populate prev_addr).1 (from_bool (negb (prev_addr =? 0))) (is_last_addr row)).

Definition next_row (previous : MemoryInitializeFinalizeEvent) (row : MemoryInitCols) (addr : Z) : option MemoryInitCols :=
  if mif_addr previous =? addr then None else
  lt ← AssertLtColsBits.populate (bits_of (mif_addr previous)) (bits_of addr);
  Some (mkMemoryInitCols (shard row) (timestamp row) (MemoryGlobalChip.addr row) lt (addr_bits row) (value row) (is_real row) (Fred (mif_used previous))
    (is_prev_addr_zero row) (is_first_comp row) (is_last_addr row)).

Definition set_last (last : bool) (row : MemoryInitCols) : MemoryInitCols :=
  mkMemoryInitCols (shard row) (timestamp row) (addr row) (lt_cols row) (addr_bits row) (value row) (is_real row) (is_next_comp row)
    (is_prev_addr_zero row) (is_first_comp row) (if last then 1 else is_last_addr row).

Definition fill_row (previous_addr_bits : list Z) (memory_events : list MemoryInitializeFinalizeEvent) (i : nat) (event : MemoryInitializeFinalizeEvent)
    : option MemoryInitCols :=
  row ← match i with
        | O => first_row previous_addr_bits (event_row event) (mif_addr event)
        | S i' => previous ← memory_events !! i'; next_row previous (event_row event) (mif_addr event)
        end;
  Some (set_last (S i =? length memory_events)%nat row).

Definition generate_trace (kind : MemoryChipType) (input : ExecutionRecord) : option (list MemoryInitCols) :=
  let memory_events := sort_by_addr (events_of kind input) in
  rows ← mapM (fun '(i, event) => fill_row (previous_addr_bits kind (memory_pv (public_values input))) memory_events i event) (enumerate memory_events);
  n ← num_rows kind input;
  Some (resize rows n zero_row).

(** ** Constraints *)

Definition value_byte (local : MemoryInitCols) (k : nat) : Z :=
  fold_left (fun byte i => byte + nth (i + 8 * k) (value local) 0 * 2 ^ Z.of_nat i) (seq 0 8) 0.
Definition value_word (local : MemoryInitCols) : Word := word_of (value_byte local).

(** Time zero, or the time of the last access. *)
Definition row_message (kind : MemoryChipType) (local : MemoryInitCols) : list Z :=
  match kind with
  | Initialize => global_values (memory_values 0 0 (addr local) (value_word local)) 1 0 KMemory
  | Finalize => global_values (memory_values (shard local) (timestamp local) (addr local) (value_word local)) 0 1 KMemory
  end.

Definition eval (kind : MemoryChipType) (at_ : RowPosition) (pv : MemoryPublicValues) (local next : MemoryInitCols) : list Call :=
  let local_bits := BabyBearBitDecomposition.bits (addr_bits local) in
  let next_bits := BabyBearBitDecomposition.bits (addr_bits next) in
  let prev_addr_bits := previous_addr_bits kind pv in
  let prev_addr := bits2num prev_addr_bits in
  let prev_zero := IsZeroOperation.result (is_prev_addr_zero local) in
  [AssertBool (is_real local)] ++
  map (fun i => AssertBool (nth i (value local) 0)) (seq 0 32) ++
  [Send (mkAirInteraction (row_message kind local) (is_real local) KGlobal) Local] ++
  BabyBearBitDecomposition.range_check (addr local) (addr_bits local) (is_real local) ++
  when (is_transition at_) [AssertEq (is_next_comp next) (is_real next)] ++
  AssertLtColsBits.eval (lt_cols next) local_bits next_bits (is_next_comp next) ++
  when (is_transition at_) (when_not (is_real local) [AssertZero (is_real next)]) ++
  IsZeroOperation.eval prev_addr (is_prev_addr_zero local) (is_first_row at_) ++
  [AssertBool (is_first_comp local)] ++
  when (is_first_row at_) [AssertEq (is_first_comp local) (1 - prev_zero)] ++
  when (is_first_row at_) [AssertOne (is_real local)] ++
  AssertLtColsBits.eval (lt_cols local) prev_addr_bits local_bits (is_first_comp local) ++
  when (is_first_row at_) (when prev_zero [AssertZero (addr local)]) ++
  when (is_first_row at_) (when prev_zero [AssertOne (is_real next)]) ++
  when (is_first_row at_) (when prev_zero [AssertOne (is_next_comp next)]) ++
  match kind with Initialize => when (is_real local) [AssertEq (timestamp local) 1] | Finalize => [] end ++
  flat_map (fun i => when (is_first_row at_) (when_not (is_first_comp local) [AssertZero (nth i (value local) 0)])) (seq 0 32) ++
  when (is_transition at_) [AssertEq (is_last_addr local) (is_real local * (1 - is_real next))] ++
  flat_map (fun '(local_bit, pub_bit) =>
    when (is_last_row at_) (when (is_real local) [AssertEq local_bit pub_bit]) ++
    when (is_transition at_) (when (is_last_addr local) [AssertEq local_bit pub_bit])) (zip local_bits (last_addr_bits kind pv)).

Definition wf (r : MemoryInitCols) : Prop :=
  AssertLtColsBits.wf 32 (lt_cols r) /\ BabyBearBitDecomposition.wf (addr_bits r) /\ IsZeroOperation.wf (is_prev_addr_zero r) /\
  length (value r) = 32%nat /\ Forall canon (value r) /\
  Forall canon [shard r; timestamp r; addr r; is_real r; is_next_comp r; is_first_comp r; is_last_addr r].
End MemoryGlobalChip.
Import MemoryGlobalChip.

(** ** Rows that are real at the top *)

Section Prefix.
  Context {A : Type} (P : A -> Prop) `{forall x, Decision (P x)} (key : A -> Z).

Definition increasing (l : list A) : Prop := forall i x y, l !! i = Some x -> l !! S i = Some y -> P y -> P x /\ key x < key y.

Lemma increasing_tail x l : increasing (x :: l) -> increasing l.
Proof using. intros H' i. exact (H' (S i)). Qed.

Lemma no_real_after x l : increasing (x :: l) -> ~ P x -> filter P l = [].
Proof using.
  revert x. induction l as [|y l IH]; intros x Hin Hx; [done|]. assert (~ P y) as Hy by (intros Hy; by destruct (Hin 0%nat x y eq_refl eq_refl Hy)).
  rewrite filter_cons_False by done. by apply (IH y (increasing_tail _ _ Hin)).
Qed.

Lemma increasing_sorted l : increasing l -> Sorted Z.lt (map key (filter P l)).
Proof using.
  induction l as [|x l IH]; intros Hin; [constructor|]. specialize (IH (increasing_tail _ _ Hin)). rewrite filter_cons. case_decide as Hx; [|done]. cbn [map]. constructor; [done|].
  destruct l as [|y l]; [constructor|]. destruct (decide (P y)) as [Hy|Hy].
  - rewrite filter_cons_True by done. constructor. by apply (Hin 0%nat x y eq_refl eq_refl).
  - rewrite (filter_cons_False _ _ _ Hy), (no_real_after y l (increasing_tail _ _ Hin) Hy). constructor.
Qed.

Lemma increasing_last l : increasing l -> filter P l <> [] ->
  exists i x, l !! i = Some x /\ P x /\ list.last (filter P l) = Some x /\ (S i = length l \/ exists y, l !! S i = Some y /\ ~ P y).
Proof using.
  induction l as [|x l IH]; intros Hin Hne; [done|]. rewrite filter_cons in *. case_decide as Hx; [|by rewrite (no_real_after x l Hin Hx) in Hne].
  destruct (decide (filter P l = [])) as [E|E].
  - exists 0%nat, x. rewrite E. split; [done|]. split; [done|]. split; [done|]. destruct l as [|y l]; [by left|right]. exists y. split; [done|]. intros Hy. by rewrite filter_cons_True in E.
  - destruct (IH (increasing_tail _ _ Hin) E) as (i & z & Hi & Hz & El & Hl). exists (S i), z. split; [done|]. split; [done|]. split.
    + destruct (filter P l); [done|]. exact El.
    + destruct Hl as [Hl|Hl]; [left; cbn; lia|by right].
Qed.
End Prefix.

(** ** A table *)

Definition table_row (kind : MemoryChipType) (pv : MemoryPublicValues) (rows : list MemoryInitCols) (i : nat) (r : MemoryInitCols) : list Call :=
  eval kind (row_position (length rows) i) pv r (nth (S i mod length rows) rows r).
Definition table_rows (kind : MemoryChipType) (pv : MemoryPublicValues) (rows : list MemoryInitCols) : list (list Call) :=
  imap (table_row kind pv rows) rows.

(** Public bits of an address. *)
Definition public_bits (l : list Z) : Prop := length l = 32%nat /\ digits 2 l /\ canon (bits2num l).

Section Table.
  Context (kind : MemoryChipType) (pv : MemoryPublicValues) (rows : list MemoryInitCols).
  Context (Hwf : Forall wf rows) (Hok : Forall all_hold (table_rows kind pv rows)).
  Context (Hprev : public_bits (previous_addr_bits kind pv)).
  Abbreviation n := (length rows).
  Abbreviation prev := (bits2num (previous_addr_bits kind pv)).
  Abbreviation next_of i r := (nth (S i mod n) rows r).

Lemma table_lookup i r : rows !! i = Some r -> wf r /\ all_hold (table_row kind pv rows i r).
Proof using Hwf Hok.
  clear Hprev. intros Hi. pose proof Hwf as W. pose proof Hok as K. rewrite Forall_forall in W. rewrite Forall_forall in K. split; [apply W; by eapply list_elem_of_lookup_2|].
  apply K. apply list_elem_of_lookup. exists i. unfold table_rows. by rewrite list_lookup_imap, Hi.
Qed.

Lemma next_lookup i r r' : rows !! S i = Some r' -> next_of i r = r'.
Proof using.
  clear. intros H. pose proof (lookup_lt_Some _ _ _ H). rewrite Nat.mod_small by done. by apply nth_lookup_Some.
Qed.

Lemma next_in i r : rows !! i = Some r -> next_of i r ∈ rows.
Proof using.
  clear. intros Hi. pose proof (lookup_lt_Some _ _ _ Hi). apply list_elem_of_In, nth_In, Nat.mod_upper_bound. lia.
Qed.

Section Row.
  Context (i : nat) (r : MemoryInitCols) (Hi : rows !! i = Some r).
  Abbreviation next := (next_of i r).
  Abbreviation at_ := (row_position n i).
  Abbreviation bits x := (BabyBearBitDecomposition.bits (addr_bits x)).

Lemma row_wf : wf r /\ wf next.
Proof using Hwf Hi. pose proof Hwf as W. rewrite Forall_forall in W. split; apply W; [by eapply list_elem_of_lookup_2|by apply next_in]. Qed.

Ltac open_wf H :=
  let F := fresh "HF" in destruct H as (Wl & Wb & Wz & Lv & Wv & F); rewrite !Forall_cons in F; destruct F as (Cs & Ct & Ca & Cr & Cn & Cf & Cl & _).

Lemma row_real : is_real r = 0 \/ is_real r = 1.
Proof using Hwf Hok Hi.
  clear Hprev. destruct (table_lookup i r Hi) as [W K]. unfold table_row, eval in K. rewrite !all_hold_app in K. destruct K as ([B _] & _). open_wf W. by apply bool_canon.
Qed.

(** The address of a live row is the number of its bits. *)
Lemma row_bits : is_real r = 1 -> digits 2 (bits r) /\ addr r = bits2num (bits r).
Proof using Hwf Hok Hi.
  clear Hprev. intros Er. destruct (table_lookup i r Hi) as [W K]. unfold table_row, eval in K. rewrite !all_hold_app in K. destruct K as (_ & _ & _ & D & _). open_wf W.
  rewrite Er in D. destruct (decomposition_sound _ _ _ Wb zero_ne_one D) as (H1 & H2 & H3). split; [done|]. by apply eqF_canon.
Qed.

(** After padding comes padding; a live row that is not the first is compared
    with the row before it. *)
Lemma row_next : (S i < n)%nat -> is_next_comp next = is_real next /\ (is_real r = 0 -> is_real next = 0).
Proof using Hwf Hok Hi.
  clear Hprev. intros Hn. destruct (table_lookup i r Hi) as [_ K]. destruct row_wf as [_ W']. unfold table_row, eval in K. rewrite !all_hold_app in K. destruct K as (_ & _ & _ & _ & N & _ & P & _).
  cbn [row_position is_transition] in N, P. apply Nat.ltb_lt in Hn. rewrite Hn in N, P. open_wf W'. unfold when_not, when_ne in P. rewrite !all_hold_when in N, P.
  destruct (N zero_ne_one) as [E _]. cbn [holds] in E. split; [by apply eqF_canon|]. intros E0. specialize (P zero_ne_one). rewrite E0, all_hold_when in P. destruct (P ltac:(done)) as [E1 _]. cbn [holds] in E1. by apply eqF_canon.
Qed.

Lemma row_compared : is_next_comp next = 1 -> digits 2 (bits r) -> digits 2 (bits next) -> bits2num (bits r) < bits2num (bits next).
Proof using Hwf Hok Hi.
  clear Hprev. intros E1 D D'. destruct (table_lookup i r Hi) as [W K]. destruct row_wf as [_ W']. unfold table_row, eval in K. rewrite !all_hold_app in K. destruct K as (_ & _ & _ & _ & _ & L & _).
  rewrite !bits2num_num. rewrite E1 in L. eapply (lt_bits_sound 32); [done| | |apply W'|exact zero_ne_one|done|done|exact L]; [apply W|apply W'].
Qed.

(** The first row. *)
Lemma row_first : i = 0%nat -> is_real r = 1 /\ (prev <> 0 -> prev < addr r) /\
  (prev = 0 -> addr r = 0 /\ value r = replicate 32 0 /\ is_real next = 1 /\ is_next_comp next = 1).
Proof using Hwf Hok Hi Hprev.
  intros E0. destruct (table_lookup i r Hi) as [W K]. destruct row_wf as [_ W']. destruct Hprev as (Lp & Dp & Cp). pose proof row_bits as Hbits. pose proof row_real as Hreal.
  unfold table_row, eval in K. rewrite !all_hold_app in K. destruct K as (_ & _ & _ & _ & _ & _ & _ & Z & _ & F & R & L & A & N & N' & _ & V & _).
  cbn [row_position is_first_row] in *. apply Nat.eqb_eq in E0. rewrite E0 in Z, F, R, A, N, N', V. cbn [from_bool] in *.
  rewrite !all_hold_when in F, R, A, N, N'. specialize (A zero_ne_one). specialize (N zero_ne_one). specialize (N' zero_ne_one).
  destruct (F zero_ne_one) as [EF _], (R zero_ne_one) as [ER _]. cbn [holds] in EF, ER. pose proof W as Wr. open_wf W. destruct Wz as [_ Wz].
  pose proof (is_zero_sound _ _ _ Wz zero_ne_one Z) as Ez. assert (is_real r = 1) as Er by (by apply eqF_canon). split; [done|]. destruct (Hbits Er) as [D Ea].
  assert (bool_decide (prev ≡F 0) = bool_decide (prev = 0)) as Eb by (apply bool_decide_ext; split; [intros; by apply eqF_canon|by intros ->]). rewrite Eb in Ez.
  split; intros Hp.
  - rewrite bool_decide_eq_false_2 in Ez by done. cbn [from_bool] in Ez. rewrite Ez in EF. assert (is_first_comp r = 1) as E1 by (by apply eqF_canon). rewrite E1 in L.
    rewrite Ea, !bits2num_num. eapply (lt_bits_sound 32); [done|done| |exact Wl|exact zero_ne_one|done|done|exact L]. apply Wb.
  - rewrite bool_decide_eq_true_2 in Ez by done. cbn [from_bool] in Ez. rewrite Ez in *. rewrite all_hold_when in A, N, N'. destruct (A zero_ne_one) as [A1 _], (N zero_ne_one) as [N1 _], (N' zero_ne_one) as [N2 _]. cbn [holds] in *.
    destruct W' as (_ & _ & _ & _ & _ & HF'). rewrite !Forall_cons in HF'. destruct HF' as (_ & _ & _ & Cr' & Cn' & _).
    split; [by apply eqF_canon|]. split; [|split; by apply eqF_canon]. assert (is_first_comp r = 0) as E1 by (by apply eqF_canon). rewrite E1 in V.
    apply list_eq. intros j. destruct (decide (j < 32)%nat) as [Hj|Hj].
    + rewrite lookup_replicate_2 by done. destruct (lookup_lt_is_Some_2 (value r) j) as [x Hx]; [lia|]. rewrite Hx. f_equal.
      rewrite all_hold_flat_map in V. specialize (V j ltac:(apply in_seq; lia)). unfold when_not, when_ne in V. rewrite all_hold_when in V. specialize (V zero_ne_one). rewrite all_hold_when in V. destruct (V ltac:(done)) as [Ej _]. cbn [holds] in Ej.
      rewrite (nth_lookup_Some _ _ 0 _ Hx) in Ej. rewrite Forall_forall in Wv. apply eqF_canon; [done| |done]. apply Wv. by eapply list_elem_of_lookup_2.
    + rewrite !lookup_ge_None_2; [done|rewrite length_replicate; lia|lia].
Qed.

(** The last live row shows the public bits. *)
Lemma row_last : length (last_addr_bits kind pv) = 32%nat -> is_real r = 1 -> S i = n \/ (S i < n)%nat /\ is_real next = 0 ->
  Forall2 eqF (bits r) (last_addr_bits kind pv).
Proof using Hwf Hok Hi.
  clear Hprev. intros Hl Er Hc. destruct (table_lookup i r Hi) as [W K]. unfold table_row, eval in K. rewrite !all_hold_app in K.
  destruct K as (_ & _ & _ & _ & _ & _ & _ & _ & _ & _ & _ & _ & _ & _ & _ & _ & _ & I & B). cbn [row_position is_transition is_last_row] in I, B. open_wf W. destruct Wb as (Lb & _).
  apply Forall2_same_length_lookup_2; [by rewrite Lb|]. intros j x y Hx Hy. rewrite all_hold_flat_map in B. specialize (B (x, y)). cbn beta iota in B. rewrite all_hold_app, !all_hold_when in B.
  destruct B as [B1 B2]; [apply list_elem_of_In, list_elem_of_lookup; exists j; by rewrite lookup_zip_with, Hx, Hy|]. rewrite Er in *.
  destruct Hc as [E|[E E']].
  - apply Nat.eqb_eq in E. rewrite E in B1. by destruct (B1 zero_ne_one zero_ne_one).
  - apply Nat.ltb_lt in E. rewrite E in *. rewrite all_hold_when in I. destruct (I zero_ne_one) as [EI _]. cbn [holds] in EI. rewrite E' in EI.
    assert (is_last_addr r = 1) as E1 by (by apply eqF_canon). rewrite E1 in B2. by destruct (B2 zero_ne_one zero_ne_one).
Qed.
End Row.

(** The word of a row. *)
Lemma row_value i r : rows !! i = Some r -> word_bytes (value_word r) /\ (value r = replicate 32 0 -> value_word r = word_zero).
Proof using Hwf Hok.
  clear Hprev. intros Hi. destruct (table_lookup i r Hi) as [W K]. unfold table_row, eval in K. rewrite !all_hold_app in K. destruct K as (_ & V & _).
  destruct W as (_ & _ & _ & Lv & Wv & _). assert (forall j, nth j (value r) 0 = 0 \/ nth j (value r) 0 = 1) as Hb.
  { intros j. destruct (nth_in_or_default j (value r) 0) as [Hin|]; [|by left]. destruct (Nat.lt_ge_cases j 32) as [Hj|Hj]; [|left; apply nth_overflow; lia].
    apply bool_canon; [|rewrite Forall_forall in Wv; apply Wv; by apply list_elem_of_In]. apply (all_hold_in _ (AssertBool (nth j (value r) 0)) V), (in_map (fun i => AssertBool (nth i (value r) 0))), in_seq. lia. }
  split.
  - assert (forall k, is_u8 (value_byte r k)) as Hk; [|exact (conj (Hk 0%nat) (conj (Hk 1%nat) (conj (Hk 2%nat) (Hk 3%nat))))]. intros k. apply is_u8_iff. unfold value_byte. cbn [seq fold_left].
    change (Z.of_nat 0) with 0. change (Z.of_nat 1) with 1. change (Z.of_nat 2) with 2. change (Z.of_nat 3) with 3. change (Z.of_nat 4) with 4. change (Z.of_nat 5) with 5. change (Z.of_nat 6) with 6. change (Z.of_nat 7) with 7.
    pose proof (Hb (0 + 8 * k)%nat). pose proof (Hb (1 + 8 * k)%nat). pose proof (Hb (2 + 8 * k)%nat). pose proof (Hb (3 + 8 * k)%nat). pose proof (Hb (4 + 8 * k)%nat). pose proof (Hb (5 + 8 * k)%nat). pose proof (Hb (6 + 8 * k)%nat). pose proof (Hb (7 + 8 * k)%nat). lia.
  - intros Ez. unfold value_word, word_of, value_byte. rewrite Ez. reflexivity.
Qed.

(** The live rows. *)
Definition real_rows : list MemoryInitCols := filter (fun r => is_real r = 1) rows.

Lemma rows_increasing : increasing (fun r => is_real r = 1) addr rows.
Proof using Hwf Hok.
  clear Hprev. intros i x y Hx Hy Ey. destruct (row_next i x Hx) as [En Ep]; [by apply lookup_lt_Some in Hy|]. rewrite (next_lookup i x y Hy) in En, Ep. rewrite Ey in *.
  assert (is_real x = 1) as Ex by (destruct (row_real i x Hx) as [E|E]; [by specialize (Ep E)|done]). split; [done|].
  destruct (row_bits i x Hx Ex) as [Dx ->]. destruct (row_bits (S i) y Hy Ey) as [Dy ->]. pose proof (row_compared i x Hx) as Hc. rewrite (next_lookup i x y Hy) in Hc. by apply Hc.
Qed.

Lemma table_last : length (last_addr_bits kind pv) = 32%nat -> Forall canon (last_addr_bits kind pv) -> real_rows <> [] ->
  exists r, list.last real_rows = Some r /\ public_bits (last_addr_bits kind pv) /\ bits2num (last_addr_bits kind pv) = addr r.
Proof using Hwf Hok.
  clear Hprev. intros Hl Hc Hne. destruct (increasing_last _ _ _ rows_increasing Hne) as (i & r & Hi & Er & El & Hend). exists r. split; [done|].
  assert (Forall2 eqF (BabyBearBitDecomposition.bits (addr_bits r)) (last_addr_bits kind pv)) as E.
  { apply (row_last i r Hi Hl Er). destruct Hend as [|(y & Hy & Hny)]; [by left|right]. split; [by apply lookup_lt_Some in Hy|]. rewrite (next_lookup i r y Hy).
    destruct (row_real (S i) y Hy); done. }
  destruct (row_bits i r Hi Er) as [D Ea]. destruct (row_wf i r Hi) as ((_ & (Lb & Cb & _) & _ & _ & _ & F) & _).
  assert (BabyBearBitDecomposition.bits (addr_bits r) = last_addr_bits kind pv) as Eq.
  { clear - E Cb Hc. induction E as [|x y l l' Hxy _ IH]; [done|]. apply Forall_cons in Cb as [? ?], Hc as [? ?]. f_equal; [by apply eqF_canon|by apply IH]. }
  rewrite <- Eq. split; [|done]. split; [done|]. split; [done|]. rewrite <- Ea. rewrite !Forall_cons in F. tauto.
Qed.

Lemma table_sound : rows <> [] -> Sorted Z.lt (map addr real_rows) /\ real_rows <> [] /\
  (prev <> 0 -> exists r rest, real_rows = r :: rest /\ prev < addr r) /\
  (prev = 0 -> exists r r' rest, real_rows = r :: r' :: rest /\ addr r = 0 /\ value r = replicate 32 0).
Proof using Hwf Hok Hprev.
  intros Hne. split; [apply increasing_sorted, rows_increasing|]. assert (exists r l, rows = r :: l) as (r & l & Er) by (clear - Hne; destruct rows as [|r l]; [done|by exists r, l]).
  assert (rows !! 0%nat = Some r) as H0 by (by rewrite Er). destruct (row_first 0 r H0 eq_refl) as (Hr & Hp & Hz). unfold real_rows. rewrite Er, filter_cons_True by done.
  split; [done|]. split; [intros Hpr; exists r, (filter (fun r => is_real r = 1) l); split; [done|by apply Hp]|]. intros Hpr. destruct (Hz Hpr) as (Ha & Hv & Hn & Hc).
  destruct l as [|r' l].
  - exfalso. destruct (row_bits 0 r H0 Hr) as [D _]. pose proof (row_compared 0 r H0) as Hcmp. rewrite Er in Hcmp, Hc. cbn in Hcmp, Hc. specialize (Hcmp Hc D D). lia.
  - assert (rows !! 1%nat = Some r') as H1 by (by rewrite Er). rewrite (next_lookup 0 r r' H1) in Hn. rewrite filter_cons_True by done. by exists r, r', (filter (fun r => is_real r = 1) l).
Qed.
End Table.

(** ** Tables of many shards *)

Section Tables.
  Context (kind : MemoryChipType).

(** Each table continues the one before it; a shard without a table keeps the
    last address. *)
Fixpoint linked (first : list Z) (tables : list (MemoryPublicValues * list MemoryInitCols)) : Prop :=
  match tables with
  | [] => True
  | (pv, rows) :: rest =>
      previous_addr_bits kind pv = first /\ (rows = [] -> last_addr_bits kind pv = first) /\ linked (last_addr_bits kind pv) rest
  end.

Definition table_ok (t : MemoryPublicValues * list MemoryInitCols) : Prop :=
  Forall wf t.2 /\ Forall all_hold (table_rows kind t.1 t.2) /\ length (last_addr_bits kind t.1) = 32%nat /\ Forall canon (last_addr_bits kind t.1).

Lemma sorted_last (l : list Z) x : StronglySorted Z.lt l -> list.last l = Some x -> Forall (fun y => y <= x) l.
Proof using.
  induction 1 as [|y l Hl IH Hy]; [done|]. intros E. destruct l as [|z l].
  - injection E as ->. by repeat constructor.
  - specialize (IH E). constructor; [|done]. rewrite Forall_forall in Hy. assert (x ∈ z :: l) as Hx.
    { clear - E. revert z E. induction l as [|w l IHl]; intros z E; [injection E as ->; left|]. right. by apply IHl. }
    specialize (Hy x Hx). lia.
Qed.

Lemma tables_sorted first tables : public_bits first -> linked first tables -> Forall table_ok tables ->
  let rows := flat_map (fun t => real_rows t.2) tables in
  StronglySorted Z.lt (map addr rows) /\ (bits2num first <> 0 -> Forall (fun r => bits2num first < addr r) rows) /\
  (bits2num first = 0 -> rows = [] \/ exists r rest, rows = r :: rest /\ addr r = 0 /\ value r = replicate 32 0).
Proof using.
  intros Hf Hl Hok. cbn zeta. revert first Hf Hl. induction Hok as [|[pv rows] tables (W & K & L & C) _ IH]; intros first Hf.
  - intros _. split; [constructor|]. split; [by intros _|by left].
  - intros (Ep & En & Hl). cbn [fst snd flat_map] in *. subst first. destruct (decide (rows = [])) as [->|Hne].
    + rewrite (En eq_refl) in Hl. exact (IH _ Hf Hl).
    + destruct (table_sound kind pv rows W K Hf Hne) as (Hs & Hr & Hp & Hz). destruct (table_last kind pv rows W K L C Hr) as (r & Er & Hlb & El).
      assert (StronglySorted Z.lt (map addr (real_rows rows))) as Hss by (apply Sorted_StronglySorted; [intros ????; lia|done]).
      assert (forall x, x ∈ map addr (real_rows rows) -> x <= addr r) as Hle.
      { apply Forall_forall, sorted_last; [done|]. change (map addr (real_rows rows)) with (fmap addr (real_rows rows)). by rewrite fmap_last, Er. }
      assert (bits2num (last_addr_bits kind pv) <> 0) as Hnz.
      { rewrite El. destruct (decide (bits2num (previous_addr_bits kind pv) = 0)) as [Ez|Ez].
        - destruct (Hz Ez) as (r0 & r1 & rest & E & E0 & _). rewrite E in Hss, Hle. cbn [map] in Hss, Hle. inversion_clear Hss as [|? ? _ H1]. apply Forall_cons in H1 as [H1 _].
          specialize (Hle (addr r1) ltac:(right; left)). lia.
        - destruct (Hp Ez) as (r0 & rest & E & E0). rewrite E in Hle. specialize (Hle (addr r0) (list_elem_of_here _ _)). destruct Hf as (_ & _ & [Hf _]). lia. }
      destruct (IH _ Hlb Hl) as (Hs' & Hp' & _). specialize (Hp' Hnz). rewrite El in Hp'. split; [|split].
      * rewrite map_app. apply StronglySorted_app_2; [|done..]. intros x y Hx Hy. specialize (Hle x Hx). apply list_elem_of_In, in_map_iff in Hy as (r' & <- & Hr'%list_elem_of_In).
        rewrite Forall_forall in Hp'. specialize (Hp' r' Hr'). lia.
      * intros Ez. destruct (Hp Ez) as (r0 & rest & E & E0). rewrite E in *. cbn [map app] in *. inversion_clear Hss as [|? ? _ H1]. rewrite Forall_map in H1.
        specialize (Hle (addr r0) (list_elem_of_here _ _)). constructor; [done|]. apply Forall_app. split; (eapply Forall_impl; [eassumption|]); cbn; intros; lia.
      * intros Ez. right. destruct (Hz Ez) as (r0 & r1 & rest & E & E0 & E1). rewrite E. cbn [app]. by eexists r0, _.
Qed.
End Tables.
