(* ===== verification/CoreVerify.v ===== *)
(** * The verifier of core proofs (crates/prover/src/verify.rs)

    [SP1Prover::verify] checks that the public values of the shards fit together
    before it hands the proof to the STARK verifier, which is an argument here.
    What the checks give: execution shards are numbered from one, each shard
    starts at the program counter where the one before it stopped, and the
    tables of initial and final memory continue each other. *)

From Stdlib Require Import ZArith Lia Bool.
From stdpp Require Import base list strings.
From S2P Require Import Prelude Isa AirBuilder CpuChip SyscallInstrChip MemoryGlobalChip.

Local Open Scope Z_scope.
Local Open Scope rv_scope.

Module CoreVerify.

(** [PublicValues<Word<T>, T>] (crates/stark/src/air/public_values.rs). *)
Record PublicValues : Type := mkPublicValues {
  committed_value_digest : list Word;
  deferred_proofs_digest : list Z;
  start_pc : Z;
  next_pc : Z;
  exit_code : Z;
  shard : Z;
  execution_shard : Z;
  previous_init_addr_bits : list Z;
  last_init_addr_bits : list Z;
  previous_finalize_addr_bits : list Z;
  last_finalize_addr_bits : list Z
}.

(** What the chips read of them. *)
Definition cpu_public_values (pv : PublicValues) : CpuChip.CpuPublicValues :=
  CpuChip.mkCpuPublicValues (start_pc pv) (next_pc pv) (execution_shard pv).
Definition syscall_public_values (pv : PublicValues) : SyscallInstrsChip.SyscallPublicValues :=
  SyscallInstrsChip.mkSyscallPublicValues (committed_value_digest pv) (deferred_proofs_digest pv) (exit_code pv).
Definition memory_public_values (pv : PublicValues) : MemoryGlobalChip.MemoryPublicValues :=
  MemoryGlobalChip.mkMemoryPublicValues (previous_init_addr_bits pv) (last_init_addr_bits pv)
    (previous_finalize_addr_bits pv) (last_finalize_addr_bits pv).

(** The part of [ShardProof] (crates/stark/src/types.rs) the checks read: the
    chips of the shard with their heights, and the public values. *)
Record ShardProof : Type := mkShardProof {
  chip_ordering : list (string * nat);
  log_degrees : list Z;
  public_values : PublicValues
}.

Definition chip_index (name : string) (p : ShardProof) : option nat :=
  snd <$> find (fun e => String.eqb e.1 name) (chip_ordering p).
Definition contains_chip (name : string) (p : ShardProof) : bool := bool_decide (chip_index name p <> None).
Definition contains_cpu (p : ShardProof) : bool := contains_chip "Cpu" p.
Definition contains_global_memory_init (p : ShardProof) : bool := contains_chip "MemoryGlobalInit" p.
Definition contains_global_memory_finalize (p : ShardProof) : bool := contains_chip "MemoryGlobalFinalize" p.
(** [None]: the chip is not there. *)
Definition log_degree_cpu (p : ShardProof) : option Z := idx ← chip_index "Cpu" p; log_degrees p !! idx.

Definition MAX_CPU_LOG_DEGREE : Z := 22.

(** The errors of the checks, and those of the machine verifier. *)
Inductive MachineVerificationError (E : Type) : Type :=
| MissingCpuInFirstShard
| CpuLogDegreeTooLarge (log_degree : Z)
| InvalidPublicValues (reason : string)
| TooManyShards
| MachineError (e : E).
Arguments MissingCpuInFirstShard {E}.
Arguments CpuLogDegreeTooLarge {E} log_degree.
Arguments InvalidPublicValues {E} reason.
Arguments TooManyShards {E}.
Arguments MachineError {E} e.

Inductive Verdict (E : Type) : Type := Accepted | Rejected (e : MachineVerificationError E) | Panicked.
Arguments Accepted {E}.
Arguments Rejected {E} e.
Arguments Panicked {E}.

Section Verify.
  Context {E : Type} (pc_start : Z) (machine_verify : list ShardProof -> option E).

(** Go on when the verdict is good. *)
Definition and_then (v w : Verdict E) : Verdict E := match v with Accepted => w | _ => v end.
Infix ";;;" := and_then (at level 62, right associativity).

Definition reject_if (bad : bool) (reason : string) : Verdict E := if bad then Rejected (InvalidPublicValues reason) else Accepted.

Fixpoint check_cpu_degrees (proof : list ShardProof) : Verdict E :=
  match proof with
  | [] => Accepted
  | p :: rest =>
      (if contains_cpu p then
         match log_degree_cpu p with
         | None => Panicked
         | Some d => if MAX_CPU_LOG_DEGREE <? d then Rejected (CpuLogDegreeTooLarge d) else Accepted
         end
       else Accepted) ;;; check_cpu_degrees rest
  end.

(** The counters are field elements. *)
Fixpoint check_shards (current_shard : Z) (proof : list ShardProof) : Verdict E :=
  match proof with
  | [] => Accepted
  | p :: rest =>
      let current_shard := Fred (current_shard + 1) in
      reject_if (negb (shard (public_values p) =? current_shard)) "shard index should be the previous shard index + 1 and start at 1" ;;;
      check_shards current_shard rest
  end.

Fixpoint check_execution_shards (current_execution_shard : Z) (proof : list ShardProof) : Verdict E :=
  match proof with
  | [] => Accepted
  | p :: rest =>
      if contains_cpu p then
        let current_execution_shard := Fred (current_execution_shard + 1) in
        reject_if (negb (execution_shard (public_values p) =? current_execution_shard))
          "execution shard index should be the previous execution shard index + 1 if cpu exists and start at 1" ;;;
        check_execution_shards current_execution_shard rest
      else check_execution_shards current_execution_shard rest
  end.

Fixpoint check_pcs (first : bool) (prev_next_pc : Z) (proof : list ShardProof) : Verdict E :=
  match proof with
  | [] => Accepted
  | p :: rest =>
      let pv := public_values p in
      (if first && negb (start_pc pv =? pc_start) then
         reject_if true "start_pc != vk.start_pc: program counter should start at vk.start_pc"
       else if negb first && negb (start_pc pv =? prev_next_pc) then
         reject_if true "start_pc != next_pc_prev: start_pc should equal next_pc_prev for all shards"
       else if negb (contains_cpu p) && negb (start_pc pv =? next_pc pv) then
         reject_if true "start_pc != next_pc: start_pc should equal next_pc for non-cpu shards"
       else if contains_cpu p && (start_pc pv =? 0) then
         reject_if true "start_pc == 0: execution should never start at halted state"
       else reject_if (match rest with [] => negb (next_pc pv =? 0) | _ => false end) "next_pc != 0: execution should have halted") ;;;
      check_pcs false (next_pc pv) rest
  end.

Fixpoint check_exit_codes (proof : list ShardProof) : Verdict E :=
  match proof with
  | [] => Accepted
  | p :: rest => reject_if (negb (exit_code (public_values p) =? 0)) "exit_code != 0: exit code should be zero for all shards" ;;; check_exit_codes rest
  end.

Definition bits_eqb (l l' : list Z) : bool := bool_decide (l = l').

Fixpoint check_addr_bits (last_init_addr_bits_prev last_finalize_addr_bits_prev : list Z) (proof : list ShardProof) : Verdict E :=
  match proof with
  | [] => Accepted
  | p :: rest =>
      let pv := public_values p in
      (if negb (bits_eqb (previous_init_addr_bits pv) last_init_addr_bits_prev) then
         reject_if true "previous_init_addr_bits != last_init_addr_bits_prev"
       else if negb (bits_eqb (previous_finalize_addr_bits pv) last_finalize_addr_bits_prev) then
         reject_if true "last_init_addr_bits != last_finalize_addr_bits_prev"
       else if negb (contains_global_memory_init p) && negb (bits_eqb (previous_init_addr_bits pv) (last_init_addr_bits pv)) then
         reject_if true "previous_init_addr_bits != last_init_addr_bits"
       else reject_if (negb (contains_global_memory_finalize p) && negb (bits_eqb (previous_finalize_addr_bits pv) (last_finalize_addr_bits pv)))
         "previous_finalize_addr_bits != last_finalize_addr_bits") ;;;
      check_addr_bits (last_init_addr_bits pv) (last_finalize_addr_bits pv) rest
  end.

Definition zero_committed_value_digest : list Word := replicate 8 word_zero.
Definition zero_deferred_proofs_digest : list Z := replicate 8 0.

Fixpoint check_digests (committed_prev : list Word) (deferred_prev : list Z) (proof : list ShardProof) : Verdict E :=
  match proof with
  | [] => Accepted
  | p :: rest =>
      let pv := public_values p in
      let committed_changed := bool_decide (committed_value_digest pv <> committed_prev) in
      let deferred_changed := bool_decide (deferred_proofs_digest pv <> deferred_prev) in
      (if bool_decide (committed_prev <> zero_committed_value_digest) && committed_changed then
         reject_if true "committed_value_digest != committed_value_digest_prev"
       else if bool_decide (deferred_prev <> zero_deferred_proofs_digest) && deferred_changed then
         reject_if true "deferred_proofs_digest != deferred_proofs_digest_prev"
       else if negb (contains_cpu p) && committed_changed then
         reject_if true "committed_value_digest != committed_value_digest_prev"
       else reject_if (negb (contains_cpu p) && deferred_changed) "deferred_proofs_digest != deferred_proofs_digest_prev") ;;;
      check_digests (committed_value_digest pv) (deferred_proofs_digest pv) rest
  end.

Definition verify (proof : list ShardProof) : Verdict E :=
  match proof with
  | [] => Panicked
  | first_shard :: _ =>
      (if contains_cpu first_shard then Accepted else Rejected MissingCpuInFirstShard) ;;;
      check_cpu_degrees proof ;;;
      check_shards 0 proof ;;;
      check_execution_shards 0 proof ;;;
      check_pcs true 0 proof ;;;
      check_exit_codes proof ;;;
      check_addr_bits (replicate 32 0) (replicate 32 0) proof ;;;
      check_digests zero_committed_value_digest zero_deferred_proofs_digest proof ;;;
      (if 2 ^ 16 <? Z.of_nat (length proof) then Rejected TooManyShards else Accepted) ;;;
      match machine_verify proof with Some e => Rejected (MachineError e) | None => Accepted end
  end.
End Verify.
End CoreVerify.
Import CoreVerify.

(** ** What the checks say *)

Abbreviation accepted v := (v = Accepted).

Section Checks.
  Context {E : Type} (pc_start : Z).
  Implicit Types (proof : list ShardProof) (p : ShardProof).

Lemma and_then_accepted (v w : Verdict E) : accepted (and_then v w) <-> accepted v /\ accepted w.
Proof. destruct v; cbn; naive_solver. Qed.

Lemma reject_if_accepted bad reason : accepted (reject_if (E := E) bad reason) <-> bad = false.
Proof. by destruct bad. Qed.

(** The value the shard before shows; [first] for the first one. *)
Definition previous {A} (out : ShardProof -> A) (first : A) (proof : list ShardProof) (i : nat) : A :=
  match i with O => first | S j => default first (out <$> proof !! j) end.

(** A property of every shard and the value before it. *)
Definition every {A} (out : ShardProof -> A) (first : A) (proof : list ShardProof) (P : A -> ShardProof -> Prop) : Prop :=
  forall i p, proof !! i = Some p -> P (previous out first proof i) p.

Lemma every_cons {A} (out : ShardProof -> A) first p proof P : every out first (p :: proof) P <-> P first p /\ every out (out p) proof P.
Proof.
  unfold every. split.
  - intros H. split; [by apply (H 0%nat)|]. intros i q Hi. specialize (H (S i) q Hi). destruct i as [|i]; [exact H|].
    cbn [previous lookup list_lookup] in *. destruct (proof !! i) eqn:Ei; [exact H|]. apply lookup_lt_Some in Hi. apply lookup_ge_None in Ei. lia.
  - intros [H0 H] [|i] q Hi; [by injection Hi as <-|]. cbn in Hi. specialize (H i q Hi). destruct i as [|i]; [exact H|].
    cbn [previous lookup list_lookup] in *. destruct (proof !! i) eqn:Ei; [exact H|]. apply lookup_lt_Some in Hi. apply lookup_ge_None in Ei. lia.
Qed.

Lemma every_nil {A} (out : ShardProof -> A) first P : every out first [] P <-> True.
Proof. split; [done|]. intros _ i p Hi. discriminate Hi. Qed.

(** The number of shards with a CPU up to a shard. *)
Definition cpu_count (proof : list ShardProof) : Z := Z.of_nat (length (filter (fun p => contains_cpu p = true) proof)).

Lemma cpu_count_cons p proof : cpu_count (p :: proof) = (if contains_cpu p then 1 else 0) + cpu_count proof.
Proof. unfold cpu_count. rewrite filter_cons. destruct (contains_cpu p); cbn [length]; case_decide; try done; cbn [length]; lia. Qed.

Lemma Fred_add x y : Fred (Fred x + y) = Fred (x + y).
Proof. unfold Fred. by rewrite Zplus_mod_idemp_l. Qed.

Lemma check_shards_iff k proof : accepted (check_shards (E := E) k proof) <->
  forall i p, proof !! i = Some p -> shard (public_values p) = Fred (k + Z.of_nat (S i)).
Proof.
  revert k. induction proof as [|p proof IH]; intros k; cbn [check_shards]; [split; [|done]; intros _ i p Hi; discriminate Hi|].
  rewrite and_then_accepted, reject_if_accepted, negb_false_iff, Z.eqb_eq, IH. split.
  - intros [H0 H] [|i] q Hi; [injection Hi as <-; rewrite H0; f_equal; lia|]. rewrite (H i q Hi). rewrite Fred_add. f_equal. lia.
  - intros H. split; [rewrite (H 0%nat p eq_refl); f_equal; lia|]. intros i q Hi. rewrite (H (S i) q Hi). rewrite Fred_add. f_equal. lia.
Qed.

Lemma check_execution_shards_iff k proof : accepted (check_execution_shards (E := E) k proof) <->
  forall i p, proof !! i = Some p -> contains_cpu p = true -> execution_shard (public_values p) = Fred (k + cpu_count (take (S i) proof)).
Proof.
  revert k. induction proof as [|p proof IH]; intros k; cbn [check_execution_shards]; [split; [|done]; intros _ i p Hi; discriminate Hi|].
  assert (forall k, (forall i q, (p :: proof) !! i = Some q -> contains_cpu q = true -> execution_shard (public_values q) = Fred (k + cpu_count (take (S i) (p :: proof)))) <->
    (contains_cpu p = true -> execution_shard (public_values p) = Fred (k + 1)) /\
    forall i q, proof !! i = Some q -> contains_cpu q = true -> execution_shard (public_values q) = Fred (k + (if contains_cpu p then 1 else 0) + cpu_count (take (S i) proof))) as Hc.
  { clear. intros k. split.
    - intros H. split; [intros Hp; rewrite (H 0%nat p eq_refl Hp); f_equal; cbn [take]; rewrite cpu_count_cons, Hp; change (cpu_count (take 0 proof)) with 0; cbv iota; lia|].
      intros i q Hi Hq. rewrite (H (S i) q Hi Hq). f_equal. cbn [take]. rewrite cpu_count_cons. lia.
    - intros [H0 H] [|i] q Hi Hq; [injection Hi as <-; rewrite (H0 Hq); f_equal; cbn [take]; rewrite cpu_count_cons, Hq; change (cpu_count (take 0 proof)) with 0; cbv iota; lia|].
      rewrite (H i q Hi Hq). f_equal. cbn [take]. rewrite cpu_count_cons. lia. }
  rewrite Hc. destruct (contains_cpu p).
  - rewrite and_then_accepted, reject_if_accepted, negb_false_iff, Z.eqb_eq, IH. setoid_rewrite Fred_add. tauto.
  - rewrite IH, Z.add_0_r. naive_solver.
Qed.

Lemma check_cpu_degrees_iff proof : accepted (check_cpu_degrees (E := E) proof) <->
  Forall (fun p => contains_cpu p = true -> exists d, log_degree_cpu p = Some d /\ d <= MAX_CPU_LOG_DEGREE) proof.
Proof.
  induction proof as [|p proof IH]; cbn [check_cpu_degrees]; [done|]. rewrite and_then_accepted, IH, Forall_cons. apply and_iff_compat_r.
  destruct (contains_cpu p); [|done]. destruct (log_degree_cpu p) as [d|]; [destruct (Z.ltb_spec MAX_CPU_LOG_DEGREE d)|]; split; try done.
  - intros H'. destruct (H' eq_refl) as (? & [= <-] & ?). lia.
  - intros _ _. exists d. split; [done|lia].
  - intros H'. by destruct (H' eq_refl) as (? & ? & _).
Qed.

Lemma check_exit_codes_iff proof : accepted (check_exit_codes (E := E) proof) <-> Forall (fun p => exit_code (public_values p) = 0) proof.
Proof.
  induction proof as [|p proof IH]; cbn [check_exit_codes]; [done|]. by rewrite and_then_accepted, reject_if_accepted, IH, Forall_cons, negb_false_iff, Z.eqb_eq.
Qed.

(** A shard starts where the one before it stopped; one without a CPU stops
    where it starts, one with a CPU is not halted, and the last one halts. *)
Definition pc_ok (proof : list ShardProof) (first : Z) : Prop :=
  every (fun p => next_pc (public_values p)) first proof (fun before p =>
    start_pc (public_values p) = before /\
    (contains_cpu p = false -> start_pc (public_values p) = next_pc (public_values p)) /\
    (contains_cpu p = true -> start_pc (public_values p) <> 0)) /\
  forall p, last proof = Some p -> next_pc (public_values p) = 0.

Lemma check_pcs_iff first before proof : accepted (check_pcs (E := E) pc_start first before proof) <-> pc_ok proof (if first then pc_start else before).
Proof.
  unfold pc_ok. revert first before. induction proof as [|p proof IH]; intros first before; cbn [check_pcs]; [rewrite every_nil; split; [by intros _|done]|].
  rewrite and_then_accepted, IH, every_cons. clear IH.
  set (rest := every _ _ proof _).
  assert ((forall q, last (p :: proof) = Some q -> next_pc (public_values q) = 0) <->
    match proof with [] => next_pc (public_values p) = 0 | _ => True end /\ forall q, last proof = Some q -> next_pc (public_values q) = 0) as ->.
  { destruct proof as [|q proof]; [|tauto]. split; [intros H; split; [by apply H|done]|]. intros [H _] q [= <-]. done. }
  assert (accepted (reject_if (E := E) match proof with [] => negb (next_pc (public_values p) =? 0) | _ => false end "next_pc != 0: execution should have halted") <->
    match proof with [] => next_pc (public_values p) = 0 | _ => True end) as Hl.
  { rewrite reject_if_accepted. destruct proof; [by rewrite negb_false_iff, Z.eqb_eq|done]. }
  destruct first, (contains_cpu p) eqn:Ep; cbn [andb negb];
    repeat (match goal with |- context [Z.eqb ?a ?b] => destruct (Z.eqb_spec a b) end; cbn [negb andb]);
    rewrite ?Hl; unfold reject_if; naive_solver congruence.
Qed.

(** The tables of one kind continue each other, and a shard without a table
    keeps the last address. *)
Definition bits_ok (prev last : PublicValues -> list Z) (has_table : ShardProof -> bool) (first : list Z) (proof : list ShardProof) : Prop :=
  every (fun p => last (public_values p)) first proof (fun before p =>
    prev (public_values p) = before /\ (has_table p = false -> prev (public_values p) = last (public_values p))).

Lemma check_addr_bits_iff init fin proof : accepted (check_addr_bits (E := E) init fin proof) <->
  bits_ok previous_init_addr_bits last_init_addr_bits contains_global_memory_init init proof /\
  bits_ok previous_finalize_addr_bits last_finalize_addr_bits contains_global_memory_finalize fin proof.
Proof.
  unfold bits_ok. revert init fin. induction proof as [|p proof IH]; intros init fin; cbn [check_addr_bits]; [by rewrite !every_nil|].
  rewrite and_then_accepted, IH, !every_cons. clear IH. unfold bits_eqb.
  repeat (case_bool_decide; cbn [negb andb]); destruct (contains_global_memory_init p), (contains_global_memory_finalize p); cbn [negb andb]; unfold reject_if; naive_solver congruence.
Qed.

(** A digest, once set, stays, and a shard without a CPU keeps it. *)
Definition digest_ok {A} (digest : PublicValues -> A) (zero first : A) (proof : list ShardProof) : Prop :=
  every (fun p => digest (public_values p)) first proof (fun before p =>
    before <> zero \/ contains_cpu p = false -> digest (public_values p) = before).

Lemma check_digests_iff c d proof : accepted (check_digests (E := E) c d proof) <->
  digest_ok committed_value_digest zero_committed_value_digest c proof /\ digest_ok deferred_proofs_digest zero_deferred_proofs_digest d proof.
Proof.
  unfold digest_ok. revert c d. induction proof as [|p proof IH]; intros c d; cbn [check_digests]; [by rewrite !every_nil|].
  rewrite and_then_accepted, IH, !every_cons. clear IH.
  destruct (decide (c = zero_committed_value_digest)), (decide (d = zero_deferred_proofs_digest)),
    (decide (committed_value_digest (public_values p) = c)), (decide (deferred_proofs_digest (public_values p) = d)), (contains_cpu p);
    repeat first [rewrite bool_decide_eq_true_2 by done|rewrite bool_decide_eq_false_2 by tauto]; cbn [negb andb]; unfold reject_if; naive_solver.
Qed.

(** Once set, a digest is the digest of every later shard. *)
Lemma digest_kept {A} (digest : PublicValues -> A) zero first proof i j p q : digest_ok digest zero first proof ->
  proof !! i = Some p -> proof !! j = Some q -> (i <= j)%nat -> digest (public_values p) <> zero -> digest (public_values q) = digest (public_values p).
Proof.
  intros H Hi Hj Hij Hz. revert q Hj. induction Hij as [|j Hij IH]; intros q Hj; [by rewrite Hi in Hj; injection Hj as <-|].
  destruct (lookup_lt_is_Some_2 proof j) as [r Hr]; [apply lookup_lt_Some in Hj; lia|]. specialize (IH r Hr). specialize (H (S j) q Hj). cbn [previous] in H. rewrite Hr in H. cbn in H.
  rewrite H; [done|]. left. by rewrite IH.
Qed.
End Checks.

(** Execution shards are numbered from one, in order. *)
Definition numbered (proof : list ShardProof) : Prop :=
  (forall i p, proof !! i = Some p -> shard (public_values p) = Fred (Z.of_nat (S i))) /\
  (forall i p, proof !! i = Some p -> contains_cpu p = true -> execution_shard (public_values p) = Fred (cpu_count (take (S i) proof))).

Lemma verify_iff {E} pc_start (machine_verify : list ShardProof -> option E) proof : verify pc_start machine_verify proof = Accepted <->
  (exists p, head proof = Some p /\ contains_cpu p = true) /\
  Forall (fun p => contains_cpu p = true -> exists d, log_degree_cpu p = Some d /\ d <= MAX_CPU_LOG_DEGREE) proof /\
  numbered proof /\ pc_ok proof pc_start /\ Forall (fun p => exit_code (public_values p) = 0) proof /\
  bits_ok previous_init_addr_bits last_init_addr_bits contains_global_memory_init (replicate 32 0) proof /\
  bits_ok previous_finalize_addr_bits last_finalize_addr_bits contains_global_memory_finalize (replicate 32 0) proof /\
  digest_ok committed_value_digest zero_committed_value_digest zero_committed_value_digest proof /\
  digest_ok deferred_proofs_digest zero_deferred_proofs_digest zero_deferred_proofs_digest proof /\
  Z.of_nat (length proof) <= 2 ^ 16 /\ machine_verify proof = None.
Proof.
  destruct proof as [|p0 proof]; [split; [done|]; by intros ((p & ? & _) & _)|]. unfold verify. set (l := p0 :: proof).
  rewrite !and_then_accepted, check_cpu_degrees_iff, check_shards_iff, check_execution_shards_iff, check_pcs_iff, check_exit_codes_iff, check_addr_bits_iff, check_digests_iff.
  unfold numbered. assert ((if contains_cpu p0 then Accepted else Rejected MissingCpuInFirstShard) = Accepted (E := E) <-> (exists p, head l = Some p /\ contains_cpu p = true)) as ->.
  { cbn. destruct (contains_cpu p0) eqn:E0; split; try done; [by intros _; exists p0|]. intros (p & [= <-] & Hp). congruence. }
  assert ((if 2 ^ 16 <? Z.of_nat (length l) then Rejected TooManyShards else Accepted) = Accepted (E := E) <-> Z.of_nat (length l) <= 2 ^ 16) as ->.
  { destruct (Z.ltb_spec (2 ^ 16) (Z.of_nat (length l))); split; try done; lia. }
  assert (match machine_verify l with Some e => Rejected (MachineError e) | None => Accepted end = Accepted (E := E) <-> machine_verify l = None) as ->.
  { by destruct (machine_verify l). }
  cbn [Z.add]. tauto.
Qed.

(** C38. The verifier accepts exactly the proofs whose first shard has a CPU and
    whose CPU tables are not too high, in which shards and execution shards are
    numbered from one, each shard starts at the program counter where the one
    before it stopped and the last one halts, every exit code is 0, the tables
    of memory continue each other, a digest that is set stays, and which are not
    too long and pass the machine verifier. *)
Theorem verify_accepts {E} pc_start (machine_verify : list ShardProof -> option E) proof : verify pc_start machine_verify proof = Accepted <->
  (exists p, head proof = Some p /\ contains_cpu p = true) /\
  Forall (fun p => contains_cpu p = true -> exists d, log_degree_cpu p = Some d /\ d <= MAX_CPU_LOG_DEGREE) proof /\
  numbered proof /\ pc_ok proof pc_start /\ Forall (fun p => exit_code (public_values p) = 0) proof /\
  bits_ok previous_init_addr_bits last_init_addr_bits contains_global_memory_init (replicate 32 0) proof /\
  bits_ok previous_finalize_addr_bits last_finalize_addr_bits contains_global_memory_finalize (replicate 32 0) proof /\
  digest_ok committed_value_digest zero_committed_value_digest zero_committed_value_digest proof /\
  digest_ok deferred_proofs_digest zero_deferred_proofs_digest zero_deferred_proofs_digest proof /\
  Z.of_nat (length proof) <= 2 ^ 16 /\ machine_verify proof = None.
Proof. apply verify_iff. Qed.
