(* ===== verification/MemoryBus.v ===== *)
(** * The memory of a proof

    Inside a shard every access of a row is matched by the rows of the shard or
    by an entry of its MemoryLocal chip; the Global chip matches the entries of
    all shards with the tables of initial and final memory.  Together they leave
    the accesses of all shards, the initial words and the final ones: the
    setting of [MemoryCheck]. *)

From Stdlib Require Import ZArith Lia Bool Permutation.
From stdpp Require Import base list gmap sorting.
From S2P Require Import Prelude Isa SyscallCode Memory Events ByteLookup Record Alu Dependencies State Executor Access Refinement AirBuilder ByteTable.
From S2P Require Import MemoryAir Operations ChipSpec Lookup AluMachine TraceGen ControlFlow MemInstrChip CpuChip SyscallInstrChip InstrRows RiscvMachine.
From S2P Require Import RiscvStep MemoryCheck MemoryLocalChip MemoryGlobalChip.

Local Open Scope Z_scope.
Local Open Scope rv_scope.

(** ** Messages *)

Definition enc (m : MemMsg) : list Z := memory_values (mm_time m).1 (mm_time m).2 (mm_addr m) (mm_word m).

#[export] Instance enc_inj : Inj (=) (=) enc.
Proof. intros [[s c] a [w0 w1 w2 w3]] [[s' c'] a' [v0 v1 v2 v3]] E. by injection E as -> -> -> -> -> -> ->. Qed.

Definition msg_canon (m : MemMsg) : Prop := canon (mm_time m).1 /\ canon (mm_time m).2 /\ canon (mm_addr m) /\ word_canon (mm_word m).

Lemma enc_reduced m : msg_canon m -> map Fred (enc m) = enc m.
Proof.
  intros (H1 & H2 & H3 & (H4 & H5 & H6 & H7)). unfold enc, memory_values, limbs. cbn [app map]. by rewrite !Fred_small.
Qed.

Lemma keys_app l1 l2 : keys (l1 ++ l2) = keys l1 ++ keys l2.
Proof. unfold keys, live. by rewrite filter_app, map_app. Qed.

Lemma keys_one v m k : boolean m -> keys [mkAirInteraction v m k] = if decide (m ≡F 0) then [] else [map Fred v].
Proof.
  intros _. unfold keys, live. destruct (decide (m ≡F 0)) as [Hz|Hz].
  - rewrite filter_cons_False; [done|]. cbn. by intros [].
  - by rewrite filter_cons_True.
Qed.

(** ** The accesses of a row *)

Definition acc_of {C} `{MemoryCols C} (shard clk addr : Z) (c : C) : MemAccess :=
  mkMemAccess addr ((prev_shard (access c), prev_clk (access c)), prev_value c) ((shard, clk), value c).
Definition accs_of {C} `{MemoryCols C} (shard clk addr : Z) (c : C) (check : Z) : list MemAccess :=
  if decide (check ≡F 0) then [] else [acc_of shard clk addr c].

(** An access is checked: at a time the clocks can show, later than the time it
    refers to if that is one too. *)
Definition checked (a : MemAccess) : Prop := time_ok (ma_cur a).1 /\ (time_ok (ma_prev a).1 -> in_order a).

(** The calls of a row exchange the messages of these accesses and no others. *)
Record mem_row (calls : list Call) (accs : list MemAccess) : Prop := {
  mr_sent : keys (sent KMemory calls) = map enc (map found accs);
  mr_received : keys (received KMemory calls) = map enc (map left accs);
  mr_bool : Forall (fun m => boolean (multiplicity m)) (sent KMemory calls) /\ Forall (fun m => boolean (multiplicity m)) (received KMemory calls);
  mr_checked : Forall checked accs
}.

Lemma mem_row_app l1 l2 a1 a2 : mem_row l1 a1 -> mem_row l2 a2 -> mem_row (l1 ++ l2) (a1 ++ a2).
Proof.
  intros [S1 R1 [B1 B1'] C1] [S2 R2 [B2 B2'] C2]. constructor; rewrite ?sent_app, ?received_app, ?keys_app, ?map_app, ?S1, ?S2, ?R1, ?R2; try done.
  - split; by apply Forall_app.
  - by apply Forall_app.
Qed.

Lemma mem_row_silent calls : sent KMemory calls = [] -> received KMemory calls = [] -> mem_row calls [].
Proof. intros E1 E2. by constructor; rewrite ?E1, ?E2. Qed.

Lemma mem_row_flat_map {A} (f : A -> list Call) (g : A -> list MemAccess) l : Forall (fun x => mem_row (f x) (g x)) l ->
  mem_row (concat (map f l)) (flat_map g l).
Proof. induction 1 as [|x l Hx _ IH]; [by apply mem_row_silent|]. cbn [map concat flat_map]. by apply mem_row_app. Qed.

(** One access. *)
Lemma access_mem_row {C} `{MemoryCols C} shard clk addr (c : C) check :
  row_ok (eval_memory_access shard clk addr c check) -> access_wf (access c) -> word_canon (prev_value c) -> word_canon (value c) -> canon addr ->
  (~ check ≡F 0 -> time_ok (shard, clk)) -> mem_row (eval_memory_access shard clk addr c check) (accs_of shard clk addr c check).
Proof.
  intros Hok Hw Wp Wv Ca Ht. pose proof (access_bool _ _ _ _ _ (proj1 Hok)) as Hb.
  assert (sent KMemory (eval_memory_access shard clk addr c check) = [mkAirInteraction (memory_values (prev_shard (access c)) (prev_clk (access c)) addr (prev_value c)) check KMemory]) as Es by done.
  assert (received KMemory (eval_memory_access shard clk addr c check) = [mkAirInteraction (memory_values shard clk addr (value c)) check KMemory]) as Er by done.
  pose proof Hw as (_ & C1 & C2 & _). unfold accs_of. constructor; rewrite ?Es, ?Er, ?keys_one by done; try (by split; apply Forall_singleton); case_decide as Hz; try done.
  - cbn [map]. f_equal. apply (enc_reduced (found (acc_of shard clk addr c))). by split_and!.
  - cbn [map]. f_equal. apply (enc_reduced (left (acc_of shard clk addr c))). destruct (Ht Hz) as [T1 T2]. cbn [fst snd] in T1, T2.
    split; [unfold canon, BABYBEAR; cbn; lia|]. split; [unfold canon, BABYBEAR; cbn; lia|]. done.
  - apply Forall_singleton. split; [by apply Ht|]. intros Hp. by apply (access_sound shard clk addr check c Hw Hz Hok (Ht Hz)).
Qed.

(** ** The instructions that show their time *)

(** Loads, stores and system calls. *)
Definition timed (vals : list Z) : Prop := msg 20 vals <> 0 \/ msg 21 vals <> 0.

#[export] Instance timed_dec vals : Decision (timed vals).
Proof. unfold timed. apply _. Defined.

Lemma timed_same v v' : same_values v v' -> timed v <-> timed v'.
Proof. intros H. unfold timed. by rewrite (same_values_msg _ _ 20 H), (same_values_msg _ _ 21 H). Qed.

Lemma dep_untimed o a b c : ~ timed (dep_values o a b c).
Proof. by intros [[]|[]]. Qed.

Section Shard.
  Context (s : RiscvShard) (Hacc : accepted_shard s) (Hp : program_ok (rs_program s)).
  Abbreviation calls := (concat (all_rows s)).
  Abbreviation instr_messages row := (receives KInstruction (instr_calls (syscall_pv s) row)).

Lemma alu_untimed row m : row ∈ alu_trace s -> m ∈ sends KInstruction (row_calls row) -> ~ timed (values m).
Proof using.
  clear. intros _ Hm. destruct (decide_divrem row) as [[r ->]|Hn]; [|rewrite quiet_row in Hm by done; by apply not_elem_of_nil in Hm].
  cbn [row_calls] in Hm. rewrite DivRemChip.divrem_sends in Hm. unfold DivRemChip.sent_instructions in Hm. cbn zeta in Hm. rewrite !elem_of_cons in Hm.
  destruct Hm as [-> |[-> |[-> |[-> |[-> |Hm%not_elem_of_nil]]]]]; try done; by intros [[]|[]].
Qed.

Lemma instr_untimed row m : m ∈ sends KInstruction (instr_calls (syscall_pv s) row) -> ~ timed (values m).
Proof using.
  clear. intros Hm. destruct row as [r|r|r|r|r]; cbn [instr_calls] in Hm.
  - rewrite branch_sends_eq in Hm. unfold branch_sends in Hm. cbn zeta in Hm. rewrite !elem_of_cons in Hm. destruct Hm as [-> |[-> |[-> |Hm%not_elem_of_nil]]]; try done; by intros [[]|[]].
  - rewrite jump_sends_eq, !elem_of_cons in Hm. destruct Hm as [-> |[-> |Hm%not_elem_of_nil]]; try done; by intros [[]|[]].
  - rewrite auipc_sends_eq, !elem_of_cons in Hm. destruct Hm as [-> |Hm%not_elem_of_nil]; try done; by intros [[]|[]].
  - rewrite mem_sends_eq, !elem_of_cons in Hm. destruct Hm as [-> |[-> |Hm%not_elem_of_nil]]; try done; by intros [[]|[]].
  - destruct (constraints_silent KInstruction _ (commit_constraints r (SyscallInstrsChip.committed_value_digest (syscall_pv s))
      (SyscallInstrsChip.deferred_proofs_digest (syscall_pv s)))) as (E1 & _).
    assert (sends KInstruction (SyscallInstrsChip.eval r (syscall_pv s)) = []) as Es by (unfold SyscallInstrsChip.eval; rewrite !sends_app, E1; reflexivity).
    rewrite Es in Hm. by apply not_elem_of_nil in Hm.
Qed.

Lemma sent_timed m : m ∈ sent KInstruction calls -> timed (values m) ->
  exists i r, cpu_trace s !! i = Some r /\ m = mkAirInteraction (cpu_message r) (CpuChip.is_real r) KInstruction.
Proof using Hacc Hp.
  intros Hm Ht. apply (sent_cases _ (alu_accepted s Hacc Hp)) in Hm as [(row & Hr & Hm)|[(row & Hr & Hm)|(row & Hr & Hm)]].
  - exfalso. by apply (alu_untimed row m Hr Hm).
  - exfalso. destruct (byte_row_calls _ row Hr) as (_ & E & _). rewrite E in Hm. by apply not_elem_of_nil in Hm.
  - apply other_row_cases in Hr as [(i & r & Hi & ->)|[(x & Hx & ->)|[Hr|Hr]]].
    + destruct (cpu_row_hold s Hacc i r Hi) as (_ & Hh & _). unfold sent, cpu_row in *. rewrite local_sends in Hm by (by apply cpu_shape). rewrite cpu_sends_eq in Hm.
      apply list_elem_of_singleton in Hm as ->. by exists i, r.
    + exfalso. destruct (instr_row_hold s Hacc x Hx) as (Hw & Hh & _). pose proof (instr_row_shape _ _ Hw Hh) as Hs. unfold sent in Hm. rewrite local_sends in Hm by apply Hs. by apply (instr_untimed x m).
    + exfalso. destruct (program_row_silent s row KInstruction Hr) as [E _]. rewrite E in Hm. by apply not_elem_of_nil in Hm.
    + exfalso. pose proof (as_rest s Hacc) as R. rewrite Forall_forall in R. rewrite (proj1 (rest_instructions _ (R row Hr))) in Hm. by apply not_elem_of_nil in Hm.
Qed.

(** A live row that receives such an instruction got it from a live row of the
    Cpu chip. *)
Lemma timed_sender row m : row ∈ instr_trace s -> m ∈ instr_messages row -> ~ multiplicity m ≡F 0 -> timed (values m) ->
  exists i r, cpu_trace s !! i = Some r /\ CpuChip.is_real r = 1 /\ CpuChip.wf r /\ row_ok (cpu_row s i r) /\ same_values (values m) (cpu_message r).
Proof using Hacc Hp.
  intros Hr Hm Hz Ht. destruct (instr_row_hold s Hacc row Hr) as (Hw & Hh & Hin). pose proof (instr_row_shape _ _ Hw Hh) as Hs.
  assert (m ∈ received KInstruction calls) as Hrec.
  { apply received_concat. exists (instr_calls (syscall_pv s) row). split; [done|]. unfold received. by rewrite local_receives by apply Hs. }
  pose proof (as_instructions s Hacc (values m)) as HB. symmetry in HB. destruct (as_few s Hacc) as (_ & _ & Hf & _).
  destruct (partner _ _ _ m HB (instruction_receives_boolean _ (alu_accepted s Hacc Hp)) Hf Hrec eq_refl Hz) as (m' & Hin' & Hv & Hz').
  destruct (sent_timed m' Hin') as (i & r & Hi & ->); [by apply (timed_same _ _ Hv)|]. cbn [multiplicity values] in *. destruct (cpu_row_ok s Hacc Hp i r Hi) as [Hwr Hor].
  exists i, r. split_and!; try done. destruct (cpu_real _ _ _ _ Hwr Hor) as [E|E]; [|done]. rewrite E in Hz'. by destruct Hz'.
Qed.

Lemma cpu_message_fields r : CpuChip.wf r -> msg 0 (cpu_message r) = CpuChip.shard_to_send r /\ msg 1 (cpu_message r) = CpuChip.clk_to_send r /\
  msg 4 (cpu_message r) = CpuChip.num_extra_cycles r /\ msg_a (cpu_message r) = CpuChip.op_a_val r /\
  msg 20 (cpu_message r) = CpuChip.is_memory r /\ msg 21 (cpu_message r) = CpuChip.is_syscall r.
Proof using.
  clear. intros (_ & Wa & _ & _ & F & G). rewrite !Forall_cons in F. rewrite !Forall_cons in G. destruct F as (_ & _ & _ & Css & Cks & _). destruct G as (_ & Cme & Csy & _ & Cx & _).
  destruct Wa as [_ (Wa & _)]. unfold cpu_message. rewrite msg_a_eq, (word_Fred (CpuChip.op_a_val r)) by done. unfold msg. cbn [instruction_values app nth limbs].
  by rewrite !Fred_small by done.
Qed.

(** The row of the Cpu chip an instruction that shows its time comes from. *)
Definition sent_by (i : nat) (r : CpuChip.CpuCols) (m : AirInteraction) : Prop :=
  cpu_trace s !! i = Some r /\ CpuChip.is_real r = 1 /\ CpuChip.wf r /\ row_ok (cpu_row s i r) /\ same_values (values m) (cpu_message r) /\
  msg 0 (values m) = CpuChip.shard r /\ msg 1 (values m) = CpuChip.clk r.

Lemma timed_row row m : row ∈ instr_trace s -> m ∈ instr_messages row -> ~ multiplicity m ≡F 0 -> msg 20 (values m) + msg 21 (values m) = 1 ->
  exists i r, sent_by i r m.
Proof using Hacc Hp.
  intros Hr Hm Hz Ht. destruct (timed_sender row m Hr Hm Hz) as (i & r & Hi & Er & Hw & Ho & Hv); [unfold timed; lia|].
  exists i, r. destruct (cpu_message_fields r Hw) as (F0 & F1 & _ & _ & F20 & F21). rewrite (same_values_msg _ _ 20 Hv), (same_values_msg _ _ 21 Hv), F20, F21 in Ht.
  destruct (cpu_time_sent _ _ _ _ Hw Ho Er Ht) as [E0 E1]. unfold sent_by. rewrite (same_values_msg _ _ 0 Hv), (same_values_msg _ _ 1 Hv), F0, F1. done.
Qed.

Lemma mem_sender q : MemRow q ∈ instr_trace s -> ~ MemoryInstructionsChip.is_real q ≡F 0 ->
  exists i r m, sent_by i r m /\ MemoryInstructionsChip.shard q = CpuChip.shard r /\ MemoryInstructionsChip.clk q = CpuChip.clk r /\
    mem_message (cpu_message r) (MemoryInstructionsChip.addr_aligned q) (prev_value (MemoryInstructionsChip.memory_access q)) (value (MemoryInstructionsChip.memory_access q)) /\
    m ∈ instr_messages (MemRow q).
Proof using Hacc Hp.
  intros Hq Hz. destruct (instr_row_ok s Hacc Hp (MemRow q) Hq) as (Hw & Ho & Hs). cbn [instr_wf instr_calls] in Hw, Ho, Hs.
  set (m := mkAirInteraction (instruction_values (MemoryInstructionsChip.shard q) (MemoryInstructionsChip.clk q) (MemoryInstructionsChip.pc q) (MemoryInstructionsChip.pc q + DEFAULT_PC_INC) 0
    (MemoryInstructionsChip.compute_opcode q) (MemoryInstructionsChip.op_a_value q) (MemoryInstructionsChip.op_b_value q) (MemoryInstructionsChip.op_c_value q) (MemoryInstructionsChip.op_a_0 q)
    (MemoryInstructionsChip.is_sb q + MemoryInstructionsChip.is_sh q + MemoryInstructionsChip.is_sw q) 1 0 0) (MemoryInstructionsChip.is_real q) KInstruction).
  assert (m ∈ instr_messages (MemRow q)) as Hm by (cbn [instr_calls]; rewrite mem_receives_eq; left).
  destruct (mem_receiver q Hw Ho Hs m Hm Hz) as (_ & _ & M0 & M1 & _ & _ & M20 & M21 & _ & Hmm).
  destruct (timed_row (MemRow q) m Hq Hm Hz) as (i & r & Hi); [by rewrite M20, M21|]. exists i, r, m. split; [done|]. destruct Hi as (_ & _ & _ & _ & Hv & E0 & E1).
  split; [congruence|]. split; [congruence|]. split; [|done]. destruct (same_msgs _ _ Hv) as [E _]. unfold mem_message, msg_opcode, msg_op_a_0, msg_a, msg_b, msg_c, msg_word in *. by rewrite !E in Hmm.
Qed.

Lemma syscall_sender y : SyscallRow y ∈ instr_trace s -> ~ SyscallInstrsChip.is_real y ≡F 0 ->
  exists i r m, sent_by i r m /\ SyscallInstrsChip.shard y = CpuChip.shard r /\ SyscallInstrsChip.clk y = CpuChip.clk r /\
    value (SyscallInstrsChip.op_a_access y) = CpuChip.op_a_val r /\ SyscallInstrsChip.num_extra_cycles y = CpuChip.num_extra_cycles r /\ m ∈ instr_messages (SyscallRow y).
Proof using Hacc Hp.
  intros Hy Hz. destruct (instr_row_ok s Hacc Hp (SyscallRow y) Hy) as (Hw & Ho & _). cbn [instr_wf instr_calls] in Hw, Ho.
  destruct Hw as (_ & [_ (Wv & _)] & _ & _ & _ & _ & F). rewrite !Forall_cons in F. destruct F as (_ & _ & Cs & Cc & Cx & _).
  assert (exists m, m ∈ instr_messages (SyscallRow y) /\ multiplicity m = SyscallInstrsChip.is_real y /\ msg 0 (values m) = SyscallInstrsChip.shard y /\ msg 1 (values m) = SyscallInstrsChip.clk y /\
    msg 4 (values m) = SyscallInstrsChip.num_extra_cycles y /\ msg_a (values m) = value (SyscallInstrsChip.op_a_access y) /\ msg 20 (values m) = 0 /\ msg 21 (values m) = 1) as (m & Hm & Em & M0 & M1 & M4 & Ma & M20 & M21).
  { eexists. split; [cbn [instr_calls]; rewrite syscall_receives_eq; left|]. cbn [multiplicity values]. rewrite msg_a_eq, (word_Fred (value (SyscallInstrsChip.op_a_access y))) by done.
    split; [done|]. unfold msg. cbn [instruction_values app nth limbs]. by rewrite !Fred_small by done. }
  destruct (timed_row (SyscallRow y) m Hy Hm) as (i & r & Hi); [by rewrite Em|by rewrite M20, M21|]. exists i, r, m. split; [done|]. destruct Hi as (_ & _ & Hwr & _ & Hv & E0 & E1).
  destruct (cpu_message_fields r Hwr) as (_ & _ & F4 & Fa & _). rewrite (same_values_msg _ _ 4 Hv), F4 in M4. destruct (same_message _ _ Hv) as (_ & _ & Ea & _). rewrite Ea, Fa in Ma.
  split_and!; congruence || done.
Qed.

(** ** The accesses of the rows *)

Definition cpu_accs (r : CpuChip.CpuCols) : list MemAccess :=
  let i := CpuChip.instruction r in
  accs_of (CpuChip.shard r) (CpuChip.clk r + position_u32 PB) (InstructionCols.op_b i).[0] (CpuChip.op_b_access r) (1 - InstructionCols.imm_b i) ++
  accs_of (CpuChip.shard r) (CpuChip.clk r + position_u32 PC) (InstructionCols.op_c i).[0] (CpuChip.op_c_access r) (1 - InstructionCols.imm_c i) ++
  accs_of (CpuChip.shard r) (CpuChip.clk r + position_u32 PA) (InstructionCols.op_a i) (CpuChip.op_a_access r) (1 - CpuChip.is_syscall r).

Definition instr_accs (row : InstrRow) : list MemAccess :=
  match row with
  | MemRow q => accs_of (MemoryInstructionsChip.shard q) (MemoryInstructionsChip.clk q + position_u32 PMemory) (MemoryInstructionsChip.addr_aligned q)
      (MemoryInstructionsChip.memory_access q) (MemoryInstructionsChip.is_real q)
  | SyscallRow y => accs_of (SyscallInstrsChip.shard y) (SyscallInstrsChip.clk y + position_u32 PA) (reg_idx X5) (SyscallInstrsChip.op_a_access y) (SyscallInstrsChip.is_real y)
  | _ => []
  end.

Lemma mem_row_same c c' accs : sent KMemory c = sent KMemory c' -> received KMemory c = received KMemory c' -> mem_row c' accs -> mem_row c accs.
Proof using. clear. intros E1 E2 [S R B C]. by constructor; rewrite ?E1, ?E2. Qed.

Lemma cpu_mem_row i r : cpu_trace s !! i = Some r -> mem_row (cpu_row s i r) (cpu_accs r).
Proof using Hacc Hp.
  intros Hi. destruct (cpu_row_ok s Hacc Hp i r Hi) as [Hw Ho]. destruct (cpu_row_hold s Hacc i r Hi) as (_ & Hh & _).
  pose proof (cpu_accesses_ok _ _ _ _ Ho) as Ha. unfold cpu_accesses in Ha. rewrite !row_ok_app in Ha. destruct Ha as (A1 & A2 & A3).
  assert (forall x c, (x = 1 -> CpuChip.is_real r = 0 -> False) -> 0 <= c <= 3 -> x = 0 \/ x = 1 -> ~ x ≡F 0 -> time_ok (CpuChip.shard r, CpuChip.clk r + c)) as Ht.
  { intros x c Hx Hc Hb Hz. destruct (cpu_real _ _ _ _ Hw Ho) as [E|E].
    - exfalso. destruct Hb as [-> | ->]; [by destruct Hz|by apply Hx].
    - destruct (cpu_time _ _ _ _ Hw Ho E) as (T1 & T2 & _). unfold time_ok. cbn. lia. }
  pose proof (cpu_dead _ _ _ _ Hw Ho) as Hd. destruct Hw as ((Cb & Cc & F) & [Wap Wa] & Wb & Wc & F' & G). rewrite !Forall_cons in F. rewrite !Forall_cons in G.
  destruct F as (_ & Ca & _ & Cib & Cic & _). destruct G as (_ & _ & Csy & _). destruct Cb as (Cb0 & _), Cc as (Cc0 & _).
  assert (forall x, canon x -> boolean (1 - x) -> 1 - x = 0 \/ 1 - x = 1) as Hbool.
  { intros x Cx [E|E].
    - left. rewrite eqF_sub_0 in E. apply eqF_canon in E; [lia|done..].
    - right. assert (x ≡F 0) as E0 by (apply eqF_diff in E as [k E]; apply eqF_diff; exists (- k); lia). apply eqF_canon in E0; [lia|done..]. }
  apply (mem_row_same _ (cpu_accesses r)).
  - unfold sent, cpu_row in *. rewrite local_sends by (by apply cpu_shape). rewrite (proj1 (cpu_memory_eq _ _ _ _)). by rewrite local_sends by reflexivity.
  - unfold received, cpu_row in *. rewrite local_receives by (by apply cpu_shape). rewrite (proj2 (cpu_memory_eq _ _ _ _)). by rewrite local_receives by reflexivity.
  - unfold cpu_accesses, cpu_accs. repeat apply mem_row_app; apply access_mem_row; try done; try (by apply Wb); try (by apply Wc); try (by apply Wa).
    + apply (Ht _ 2); [|lia|apply Hbool; [done|apply (access_bool _ _ _ _ _ (proj1 A1))]]. intros E E0. destruct (Hd E0) as (K & _). lia.
    + apply (Ht _ 1); [|lia|apply Hbool; [done|apply (access_bool _ _ _ _ _ (proj1 A2))]]. intros E E0. destruct (Hd E0) as (_ & K & _). lia.
    + apply (Ht _ 3); [|lia|apply Hbool; [done|apply (access_bool _ _ _ _ _ (proj1 A3))]]. intros E E0. destruct (Hd E0) as (_ & _ & K). lia.
Qed.

Lemma instr_mem_row row : row ∈ instr_trace s -> mem_row (instr_calls (syscall_pv s) row) (instr_accs row).
Proof using Hacc Hp.
  intros Hr. destruct (instr_row_ok s Hacc Hp row Hr) as (Hw & Ho & _). pose proof (instr_row_shape _ _ Hw (proj1 Ho)) as Hs.
  assert (forall c accs, sends KMemory (instr_calls (syscall_pv s) row) = sends KMemory c -> receives KMemory (instr_calls (syscall_pv s) row) = receives KMemory c ->
    forallb local_call c = true -> mem_row c accs -> mem_row (instr_calls (syscall_pv s) row) accs) as Hsame.
  { intros c accs E1 E2 Hl Hm. apply (mem_row_same _ c); unfold sent, received; rewrite ?local_sends, ?local_receives by (done || apply Hs); done. }
  assert (forall i r m, sent_by i r m -> forall c, 0 <= c <= 3 -> time_ok (CpuChip.shard r, CpuChip.clk r + c)) as Ht.
  { intros i r m (_ & Er & Hwr & Hor & _) c Hc. destruct (cpu_time _ _ _ _ Hwr Hor Er) as (T1 & T2 & _). unfold time_ok. cbn. lia. }
  destruct row as [r|r|r|q|y]; cbn [instr_calls instr_accs instr_wf] in *; try (by apply (Hsame []); [reflexivity|reflexivity|done|apply mem_row_silent]).
  - apply (Hsame (eval_memory_access (MemoryInstructionsChip.shard q) (MemoryInstructionsChip.clk q + position_u32 PMemory) (MemoryInstructionsChip.addr_aligned q)
      (MemoryInstructionsChip.memory_access q) (MemoryInstructionsChip.is_real q))); [reflexivity..|].
    unfold MemoryInstructionsChip.eval, MemoryInstructionsChip.eval_memory_address_and_access in Ho. rewrite !row_ok_app in Ho.
    destruct Ho as (_ & (_ & _ & _ & _ & _ & _ & _ & _ & _ & Ha & _) & _). destruct Hw as (_ & _ & [Wp Wa] & _ & _ & F). rewrite !Forall_cons in F. destruct F as (Ca & _).
    apply access_mem_row; [done..|apply Wa|done|]. intros Hz. destruct (mem_sender q Hr Hz) as (i & r & m & Hi & -> & -> & _). apply (Ht i r m Hi 0). lia.
  - apply (Hsame (eval_memory_access (SyscallInstrsChip.shard y) (SyscallInstrsChip.clk y + position_u32 PA) (reg_idx X5) (SyscallInstrsChip.op_a_access y) (SyscallInstrsChip.is_real y))).
    + destruct (constraints_silent KMemory _ (commit_constraints y (SyscallInstrsChip.committed_value_digest (syscall_pv s)) (SyscallInstrsChip.deferred_proofs_digest (syscall_pv s)))) as (E1 & _).
      unfold SyscallInstrsChip.eval. rewrite !sends_app, E1. reflexivity.
    + destruct (constraints_silent KMemory _ (commit_constraints y (SyscallInstrsChip.committed_value_digest (syscall_pv s)) (SyscallInstrsChip.deferred_proofs_digest (syscall_pv s)))) as (_ & E1 & _).
      unfold SyscallInstrsChip.eval. rewrite !receives_app, E1. reflexivity.
    + reflexivity.
    + unfold SyscallInstrsChip.eval in Ho. rewrite !row_ok_app in Ho. destruct Ho as (_ & _ & _ & _ & _ & Ha & _). destruct Hw as (_ & [Wp Wa] & _).
      apply access_mem_row; [done..|apply Wa|done|]. intros Hz. destruct (syscall_sender y Hr Hz) as (i & r & m & Hi & -> & -> & _). apply (Ht i r m Hi 3). lia.
Qed.
End Shard.

(** ** Rows that do not access memory *)

Lemma alu_no_memory row : sends KMemory (row_calls row) = [] /\ receives KMemory (row_calls row) = [].
Proof.
  destruct row; cbn [row_calls].
  - by split.
  - by split.
  - unfold LtChip.LtChip.eval. destruct (LtChip.LtChip.comparison_bytes r). by split.
  - unfold ShiftLeftChip.ShiftLeft.eval. split; silent_kind.
  - unfold ShiftRightChip.ShiftRightChip.eval. cbn [flat_map]. split; silent_kind.
  - unfold MulChip.MulChip.eval. split; silent_kind.
  - unfold DivRemChip.DivRemChip.eval. split; silent_kind.
Qed.

Lemma byte_no_memory c mults : sent KMemory (ByteChip.eval c mults) = [] /\ received KMemory (ByteChip.eval c mults) = [].
Proof.
  unfold ByteChip.eval. generalize (zip ByteOpcode.all mults). induction l as [|[o x] l [IH1 IH2]]; [done|]. cbn [flat_map]. rewrite sent_app, received_app, IH1, IH2. by destruct o.
Qed.

(** ** The entries of the MemoryLocal chip *)

Import MemoryLocalChip (MemoryLocalCols, SingleMemoryLocal, memory_local_entries).

Definition entry_initial (e : SingleMemoryLocal) : MemMsg :=
  mkMemMsg (MemoryLocalChip.initial_shard e, MemoryLocalChip.initial_clk e) (MemoryLocalChip.addr e) (MemoryLocalChip.initial_value e).
Definition entry_final (e : SingleMemoryLocal) : MemMsg :=
  mkMemMsg (MemoryLocalChip.final_shard e, MemoryLocalChip.final_clk e) (MemoryLocalChip.addr e) (MemoryLocalChip.final_value e).

Definition real_entries (rows : list MemoryLocalCols) : list SingleMemoryLocal :=
  filter (fun e => ~ MemoryLocalChip.is_real e ≡F 0) (flat_map memory_local_entries rows).

(** The message of the global table, sent or received. *)
Definition sent_globally (m : MemMsg) : list Z := global_values (enc m) 1 0 KMemory.
Definition received_globally (m : MemMsg) : list Z := global_values (enc m) 0 1 KMemory.

Lemma global_reduced m x y : msg_canon m -> canon x -> canon y -> map Fred (global_values (enc m) x y KMemory) = global_values (enc m) x y KMemory.
Proof. intros Hm Hx Hy. unfold global_values. rewrite map_app, enc_reduced by done. cbn [map]. by rewrite !Fred_small. Qed.

Lemma entry_canon e : MemoryLocalChip.entry_wf e -> msg_canon (entry_initial e) /\ msg_canon (entry_final e).
Proof. intros (W1 & W2 & F). rewrite !Forall_cons in F. destruct F as (H1 & H2 & H3 & H4 & H5 & _). split; by split_and!. Qed.

Lemma local_keys (es : list SingleMemoryLocal) : Forall MemoryLocalChip.entry_wf es -> all_hold (flat_map MemoryLocalChip.eval_entry es) ->
  let calls := flat_map MemoryLocalChip.eval_entry es in
  let live := filter (fun e => ~ MemoryLocalChip.is_real e ≡F 0) es in
  keys (sent KMemory calls) = map enc (map entry_final live) /\ keys (received KMemory calls) = map enc (map entry_initial live) /\
  keys (sent KGlobal calls) = flat_map (fun e => [received_globally (entry_initial e); sent_globally (entry_final e)]) live /\
  Forall (fun m => boolean (multiplicity m)) (sent KMemory calls) /\ Forall (fun m => boolean (multiplicity m)) (received KMemory calls).
Proof.
  induction 1 as [|e es We _ IH]; cbn [flat_map]; [intros _; cbn zeta; split_and!; done || constructor|]. rewrite all_hold_app. intros [He Hes]. destruct (IH Hes) as (K1 & K2 & K3 & B1 & B2). clear IH.
  destruct He as [B _]. cbn [holds] in B. destruct (entry_canon e We) as [C1 C2].
  rewrite !sent_app, !received_app, !keys_app, K1, K2, K3. clear K1 K2 K3.
  assert (sent KMemory (MemoryLocalChip.eval_entry e) = [mkAirInteraction (enc (entry_final e)) (MemoryLocalChip.is_real e) KMemory]) as -> by done.
  assert (received KMemory (MemoryLocalChip.eval_entry e) = [mkAirInteraction (enc (entry_initial e)) (MemoryLocalChip.is_real e) KMemory]) as -> by done.
  assert (sent KGlobal (MemoryLocalChip.eval_entry e) = [mkAirInteraction (received_globally (entry_initial e)) (MemoryLocalChip.is_real e) KGlobal] ++
    [mkAirInteraction (sent_globally (entry_final e)) (MemoryLocalChip.is_real e) KGlobal]) as -> by done.
  rewrite !keys_app, !keys_one by done. split_and!.
  - rewrite filter_cons. destruct (decide (MemoryLocalChip.is_real e ≡F 0)); case_decide; try tauto. cbn [map app]. by rewrite enc_reduced.
  - rewrite filter_cons. destruct (decide (MemoryLocalChip.is_real e ≡F 0)); case_decide; try tauto. cbn [map app]. by rewrite enc_reduced.
  - rewrite filter_cons. destruct (decide (MemoryLocalChip.is_real e ≡F 0)); case_decide; try tauto. cbn [flat_map app]. unfold received_globally, sent_globally. by rewrite !global_reduced.
  - by constructor.
  - by constructor.
Qed.

(** ** The rows of the tables of initial and final memory *)

Import MemoryGlobalChip (MemoryInitCols, MemoryPublicValues).

Definition row_msg (kind : MemoryChipType) (r : MemoryInitCols) : MemMsg :=
  match kind with
  | Initialize => mkMemMsg (0, 0) (MemoryGlobalChip.addr r) (MemoryGlobalChip.value_word r)
  | Finalize => mkMemMsg (MemoryGlobalChip.shard r, MemoryGlobalChip.timestamp r) (MemoryGlobalChip.addr r) (MemoryGlobalChip.value_word r)
  end.

Lemma constraints_exchange k calls : forallb constraint_call calls = true -> sent k calls = [] /\ received k calls = [].
Proof.
  unfold sent, received, sends_in, receives_in. induction calls as [|c calls IH]; cbn [forallb]; [done|]. intros [Hc H]%andb_true_iff. destruct (IH H) as [E1 E2].
  by destruct c.
Qed.

Lemma constraints_when c calls : forallb constraint_call (when c calls) = true.
Proof. unfold when. induction calls as [|k l IH]; [done|exact IH]. Qed.

Lemma lt_bits_constraints cols a b is_real : forallb constraint_call (AssertLtColsBits.eval cols a b is_real) = true.
Proof.
  unfold AssertLtColsBits.eval. assert (forall l v ca cb, forallb constraint_call (compare_digits (fun visited c => when is_real (when_not visited c)) v ca cb l).1 = true) as H.
  { induction l as [|[[x y] f] l IH]; intros v ca cb; [done|]. cbn [compare_digits]. specialize (IH (v + f) (ca + x * f) (cb + y * f)). destruct (compare_digits _ _ _ _ l) as [cs mk]. cbn [fst] in *.
    by rewrite forallb_app, constraints_when, IH. }
  specialize (H (zip (zip (rev a) (rev b)) (rev (AssertLtColsBits.bit_flags cols))) 0 0 0). destruct (compare_digits _ _ _ _ _) as [cs [x y]]. cbn [fst] in H.
  rewrite !forallb_app, !constraints_when, H. rewrite !andb_true_r. induction (AssertLtColsBits.bit_flags cols) as [|f l IH]; [done|exact IH].
Qed.

Lemma decomposition_constraints value cols is_real : forallb constraint_call (BabyBearBitDecomposition.range_check value cols is_real) = true.
Proof.
  unfold BabyBearBitDecomposition.range_check. rewrite !forallb_app, !constraints_when, constraints_flat_map by (intros; apply constraints_when). done.
Qed.

Lemma table_row_messages kind pv rows i r k : sent k (table_row kind pv rows i r) =
    sent k [Send (mkAirInteraction (MemoryGlobalChip.row_message kind r) (MemoryGlobalChip.is_real r) KGlobal) Local] /\
  received k (table_row kind pv rows i r) = [].
Proof.
  assert (forall a b c, forallb constraint_call a = true -> forallb constraint_call c = true -> sent k (a ++ b ++ c) = sent k b /\ received k (a ++ b ++ c) = received k b) as Hs.
  { intros a b c Ha Hc. destruct (constraints_exchange k a Ha) as [E1 E2], (constraints_exchange k c Hc) as [E3 E4]. by rewrite !sent_app, !received_app, E1, E2, E3, E4, !app_nil_r. }
  unfold table_row, MemoryGlobalChip.eval. cbn zeta. rewrite (app_assoc [AssertBool (MemoryGlobalChip.is_real r)]).
  edestruct Hs as [E1 E2]; [| |rewrite E1, E2; done].
  - reflexivity.
  - rewrite !forallb_app, decomposition_constraints, !lt_bits_constraints, !constraints_when, !constraints_flat_map; [| |intros; apply constraints_when].
    + by destruct kind.
    + intros [x y]. by rewrite forallb_app, !constraints_when.
Qed.

Lemma sent_imap {A} k (f : nat -> A -> list Call) (g : A -> list AirInteraction) l : (forall i x, sent k (f i x) = g x) -> sent k (concat (imap f l)) = flat_map g l.
Proof.
  revert f. induction l as [|x l IH]; intros f Hf; [done|]. rewrite imap_cons. cbn [concat flat_map]. rewrite sent_app, Hf. f_equal. apply IH. intros. apply Hf.
Qed.

Lemma received_imap {A} k (f : nat -> A -> list Call) (g : A -> list AirInteraction) l : (forall i x, received k (f i x) = g x) -> received k (concat (imap f l)) = flat_map g l.
Proof.
  revert f. induction l as [|x l IH]; intros f Hf; [done|]. rewrite imap_cons. cbn [concat flat_map]. rewrite received_app, Hf. f_equal. apply IH. intros. apply Hf.
Qed.

Definition globally (kind : MemoryChipType) : MemMsg -> list Z := match kind with Initialize => sent_globally | Finalize => received_globally end.

Lemma row_message_eq kind r : MemoryGlobalChip.row_message kind r = globally kind (row_msg kind r).
Proof. by destruct kind. Qed.

Section Table.
  Context (kind : MemoryChipType) (pv : MemoryPublicValues) (rows : list MemoryInitCols).
  Context (Hwf : Forall MemoryGlobalChip.wf rows) (Hok : Forall all_hold (table_rows kind pv rows)).

Lemma row_msg_canon r : r ∈ rows -> (MemoryGlobalChip.is_real r = 0 \/ MemoryGlobalChip.is_real r = 1) /\ msg_canon (row_msg kind r) /\ word_bytes (mm_word (row_msg kind r)).
Proof using Hwf Hok.
  intros [i Hi]%list_elem_of_lookup. split; [by apply (row_real kind pv rows Hwf Hok i)|]. destruct (row_value kind pv rows Hwf Hok i r Hi) as [Hv _].
  pose proof Hwf as W. rewrite Forall_forall in W. destruct (W r) as (_ & _ & _ & _ & _ & F); [by eapply list_elem_of_lookup_2|]. rewrite !Forall_cons in F. destruct F as (Cs & Ct & Ca & _).
  destruct kind; (split; [|done]); split_and!; try done; by apply word_bytes_canon.
Qed.

Lemma table_keys : keys (sent KGlobal (concat (table_rows kind pv rows))) = map (globally kind) (map (row_msg kind) (real_rows rows)) /\
  sent KMemory (concat (table_rows kind pv rows)) = [] /\ received KMemory (concat (table_rows kind pv rows)) = [].
Proof using Hwf Hok.
  unfold table_rows. rewrite (sent_imap KMemory _ (fun _ => [])), (received_imap KMemory _ (fun _ => [])) by (intros; by apply table_row_messages).
  assert (forall l : list MemoryInitCols, flat_map (fun _ => [] : list AirInteraction) l = []) as -> by (induction l; done). split; [|done].
  rewrite (sent_imap KGlobal _ (fun r => [mkAirInteraction (MemoryGlobalChip.row_message kind r) (MemoryGlobalChip.is_real r) KGlobal])) by (intros; by apply table_row_messages).
  pose proof row_msg_canon as Hc. unfold real_rows. clear Hwf Hok. revert Hc. generalize rows as l. induction l as [|r l IH]; intros Hc; [done|]. cbn [flat_map].
  destruct (Hc r (list_elem_of_here _ _)) as (Hr & Hm & _). rewrite keys_app, IH by (intros r' Hr'; apply Hc; by right). rewrite filter_cons. destruct Hr as [E|E]; rewrite E in *.
  - rewrite keys_one by (by left). rewrite decide_True by done. by rewrite decide_False.
  - rewrite keys_one by (by right). rewrite decide_False by done. rewrite decide_True by done. cbn [map app]. f_equal. rewrite row_message_eq. destruct kind; by apply global_reduced.
Qed.
End Table.
