(* ===== verification/CoreMemory.v ===== *)
(** * Memory across the shards of a proof

    The lookups of memory balance in every shard, and the messages of the global
    table balance over all shards; then every access of every shard finds the
    word the latest access before it left, or the initial word. *)

From Stdlib Require Import ZArith Lia Bool Permutation Sorted.
From stdpp Require Import base list gmap sorting.
From S2P Require Import Prelude Isa SyscallCode Memory Events ByteLookup Record Alu Dependencies State Executor Access Refinement AirBuilder ByteTable.
From S2P Require Import MemoryAir Operations ChipSpec Lookup AluMachine TraceGen ControlFlow MemInstrChip CpuChip SyscallInstrChip InstrRows RiscvMachine.
From S2P Require Import RiscvStep MemoryCheck MemoryLocalChip MemoryGlobalChip CoreVerify MemoryBus.

Local Open Scope Z_scope.
Local Open Scope rv_scope.

(** ** Shards *)

(** A shard, the tables of its memory chips, and the rows of its other chips
    with their accesses. *)
Record MemoryShard : Type := mkMemoryShard {
  ms_shard : RiscvShard;
  ms_local : list MemoryLocalChip.MemoryLocalCols;
  ms_init : list MemoryGlobalChip.MemoryInitCols;
  ms_final : list MemoryGlobalChip.MemoryInitCols;
  ms_other : list (list Call * list MemAccess);
  ms_pv : MemoryGlobalChip.MemoryPublicValues
}.

Definition memory_rows (m : MemoryShard) : list (list Call) :=
  map MemoryLocalChip.eval (ms_local m) ++ table_rows Initialize (ms_pv m) (ms_init m) ++ table_rows Finalize (ms_pv m) (ms_final m).

Record accepted_memory (m : MemoryShard) : Prop := {
  am_shard : accepted_shard (ms_shard m);
  am_program : program_ok (rs_program (ms_shard m));
  am_rest : rest_rows (ms_shard m) = memory_rows m ++ map fst (ms_other m);
  am_wf : Forall MemoryLocalChip.wf (ms_local m) /\ Forall MemoryGlobalChip.wf (ms_init m) /\ Forall MemoryGlobalChip.wf (ms_final m);
  am_hold : Forall all_hold (memory_rows m);
  am_other : Forall (fun o => mem_row o.1 o.2) (ms_other m);
  am_memory : balanced Local KMemory (concat (all_rows (ms_shard m)));
  am_few : Z.of_nat (length (sent KMemory (concat (all_rows (ms_shard m))))) < BABYBEAR /\
    Z.of_nat (length (received KMemory (concat (all_rows (ms_shard m))))) < BABYBEAR
}.

Definition shard_accs (m : MemoryShard) : list MemAccess :=
  flat_map cpu_accs (cpu_trace (ms_shard m)) ++ flat_map instr_accs (instr_trace (ms_shard m)) ++ flat_map snd (ms_other m).

Definition init_msgs (m : MemoryShard) : list MemMsg := map (row_msg Initialize) (real_rows (ms_init m)).
Definition final_msgs (m : MemoryShard) : list MemMsg := map (row_msg Finalize) (real_rows (ms_final m)).

Lemma mem_row_imap {A} (f : nat -> A -> list Call) (g : A -> list MemAccess) l : (forall i x, l !! i = Some x -> mem_row (f i x) (g x)) ->
  mem_row (concat (imap f l)) (flat_map g l).
Proof.
  revert f. induction l as [|x l IH]; intros f Hf; [by apply mem_row_silent|]. rewrite imap_cons. cbn [concat flat_map]. apply mem_row_app; [by apply (Hf 0%nat)|].
  apply IH. intros i y Hy. by apply (Hf (S i)).
Qed.

Lemma mem_row_none rows : Forall (fun c => sent KMemory c = [] /\ received KMemory c = []) rows -> mem_row (concat rows) [].
Proof. induction 1 as [|c rows [H1 H2] _ IH]; [by apply mem_row_silent|]. cbn [concat]. change ([] : list MemAccess) with ([] ++ [] : list MemAccess). apply mem_row_app; [by apply mem_row_silent|done]. Qed.

Lemma Permutation_map_inj {A B} (f : A -> B) `{!Inj (=) (=) f} l l' : map f l ≡ₚ map f l' -> l ≡ₚ l'.
Proof.
  intros (l3 & E & Hp)%Permutation_map_inv. assert (l = l3) as ->; [|done]. clear Hp. revert l3 E. induction l as [|x l IH]; intros [|y l3] E; try done.
  injection E as E1 E2. f_equal; [by apply (inj f)|by apply IH].
Qed.

Section Shard.
  Context (m : MemoryShard) (Hm : accepted_memory m).
  Abbreviation s := (ms_shard m).

Lemma real_part : mem_row (concat (map row_calls (alu_trace s) ++ byte_rows (alu_shard s) ++ cpu_rows s ++ map (instr_calls (syscall_pv s)) (instr_trace s) ++ program_rows s))
  (flat_map cpu_accs (cpu_trace s) ++ flat_map instr_accs (instr_trace s)).
Proof using Hm.
  pose proof (am_shard m Hm) as Ha. pose proof (am_program m Hm) as Hp. rewrite !concat_app.
  rewrite <- (app_nil_l (flat_map cpu_accs _ ++ _)). apply mem_row_app.
  { apply mem_row_none, Forall_map, Forall_forall. intros row Hr. destruct (as_hold s Ha) as (_ & _ & H). rewrite Forall_forall in H. pose proof (alu_row_shape _ (H row Hr)) as Hs.
    unfold sent, received. rewrite local_sends, local_receives by apply Hs. apply alu_no_memory. }
  rewrite <- (app_nil_l (flat_map cpu_accs _ ++ _)). apply mem_row_app.
  { apply mem_row_none, Forall_forall. intros row (c & mults & -> & _)%elem_of_zip_with. apply byte_no_memory. }
  apply mem_row_app; [apply mem_row_imap; intros i r Hi; by apply cpu_mem_row|].
  rewrite <- (app_nil_r (flat_map instr_accs _)). apply mem_row_app.
  - apply mem_row_flat_map, Forall_forall. intros row Hr. by apply instr_mem_row.
  - apply mem_row_none, Forall_forall. intros row Hr. destruct (program_row_silent s row KMemory Hr) as [E1 E2]. split; [done|by apply E2].
Qed.

Abbreviation entries := (real_entries (ms_local m)).

Lemma concat_local rows : concat (map MemoryLocalChip.eval rows) = flat_map MemoryLocalChip.eval_entry (flat_map MemoryLocalChip.memory_local_entries rows).
Proof using. rewrite <- flat_map_concat_map. apply flat_map_eval. Qed.

(** The messages of a shard. *)
Lemma shard_keys : let calls := concat (all_rows s) in
  keys (sent KMemory calls) ≡ₚ map enc (map found (shard_accs m) ++ map entry_final entries) /\
  keys (received KMemory calls) ≡ₚ map enc (map left (shard_accs m) ++ map entry_initial entries) /\
  Forall (fun m => boolean (multiplicity m)) (sent KMemory calls) /\ Forall (fun m => boolean (multiplicity m)) (received KMemory calls) /\ Forall checked (shard_accs m).
Proof using Hm.
  cbn zeta. assert (concat (all_rows s) = concat (map row_calls (alu_trace s) ++ byte_rows (alu_shard s) ++ cpu_rows s ++ map (instr_calls (syscall_pv s)) (instr_trace s) ++ program_rows s) ++
    flat_map MemoryLocalChip.eval_entry (flat_map MemoryLocalChip.memory_local_entries (ms_local m)) ++
    concat (table_rows Initialize (ms_pv m) (ms_init m)) ++ concat (table_rows Finalize (ms_pv m) (ms_final m)) ++ concat (map fst (ms_other m))) as ->.
  { rewrite <- concat_local. unfold shard_rows. cbn [alu_rows byte_mults other_rows alu_shard]. rewrite (am_rest m Hm). unfold memory_rows. by rewrite !concat_app, <- !app_assoc. }
  destruct real_part as [S1 R1 [B1 B1'] C1]. pose proof (am_hold m Hm) as Hh. unfold memory_rows in Hh. rewrite !Forall_app in Hh. destruct Hh as (Hl & Hi & Hf).
  destruct (am_wf m Hm) as (Wl & Wi & Wf). destruct (table_keys Initialize _ _ Wi Hi) as (_ & Ei & Ei'). destruct (table_keys Finalize _ _ Wf Hf) as (_ & Ef & Ef').
  assert (Forall MemoryLocalChip.entry_wf (flat_map MemoryLocalChip.memory_local_entries (ms_local m))) as We.
  { clear - Wl. induction Wl as [|r l Hr _ IH]; [constructor|]. cbn [flat_map]. by apply Forall_app. }
  assert (all_hold (flat_map MemoryLocalChip.eval_entry (flat_map MemoryLocalChip.memory_local_entries (ms_local m)))) as Hle.
  { rewrite <- concat_local. clear - Hl. induction (ms_local m) as [|r l IH]; [done|]. cbn [map concat] in *. apply Forall_cons in Hl as [H1 H2]. apply all_hold_app. split; [done|by apply IH]. }
  destruct (local_keys _ We Hle) as (K1 & K2 & _ & B2 & B2').
  assert (mem_row (concat (map fst (ms_other m))) (flat_map snd (ms_other m))) as [S3 R3 [B3 B3'] C3] by (apply mem_row_flat_map; exact (am_other m Hm)).
  rewrite !sent_app, !received_app, !keys_app, Ei, Ei', Ef, Ef', K1, K2, S1, R1, S3, R3. unfold shard_accs. rewrite app_assoc, !map_app. cbn [app keys live].
  unfold real_entries. rewrite app_nil_l. split_and!; try (by repeat apply Forall_app_2).
  - rewrite <- !app_assoc. do 2 apply Permutation_app_head. apply Permutation_app_comm.
  - rewrite <- !app_assoc. do 2 apply Permutation_app_head. apply Permutation_app_comm.
  - apply Forall_app in C1 as [? ?]. by repeat apply Forall_app_2.
Qed.

Lemma shard_balance : (map found (shard_accs m) ++ map entry_final entries) ≡ₚ (map left (shard_accs m) ++ map entry_initial entries).
Proof using Hm.
  destruct shard_keys as (S & R & B & B' & _). apply (Permutation_map_inj enc). rewrite <- S, <- R.
  destruct (am_few m Hm). by apply balanced_permutation; [apply (am_memory m Hm)|..].
Qed.
End Shard.

(** ** All shards *)

(** The words of the program image, which the verifying key adds to the global
    table ([MachineProgram::initial_global_cumulative_sum]). *)
Definition program_image (p : Program) : list MemMsg :=
  map (fun '(addr, word) => mkMemMsg (0, 0) addr (word_from word)) (map_to_list (memory_image p)).

(** The messages the memory chips of a shard send to the global table. *)
Definition global_keys (m : MemoryShard) : list (list Z) := keys (sent KGlobal (concat (memory_rows m))).

Definition is_sent (v : list Z) : Prop := nth 7 v 0 = 1.
Definition is_received (v : list Z) : Prop := nth 8 v 0 = 1.
Definition global_message (v : list Z) : list Z := take 7 v.

(** What the Global chips and the sum of their digests promise: the messages
    sent, those of the image with them, are the messages received. *)
Definition global_balanced (p : Program) (ms : list MemoryShard) : Prop :=
  (map enc (program_image p) ++ map global_message (filter is_sent (flat_map global_keys ms))) ≡ₚ
  map global_message (filter is_received (flat_map global_keys ms)).

Lemma sent_global m : is_sent (sent_globally m) /\ ~ is_received (sent_globally m) /\ global_message (sent_globally m) = enc m.
Proof. split_and!; [done|by intros [=]|reflexivity]. Qed.
Lemma received_global m : ~ is_sent (received_globally m) /\ is_received (received_globally m) /\ global_message (received_globally m) = enc m.
Proof. split_and!; [by intros [=]|done|reflexivity]. Qed.

Section Keys.
  Context (ms : list MemMsg).
Lemma filter_sent : filter is_sent (map sent_globally ms) = map sent_globally ms /\ filter is_received (map sent_globally ms) = [] /\
  map global_message (map sent_globally ms) = map enc ms.
Proof using.
  induction ms as [|m l (IH1 & IH2 & IH3)]; [done|]. cbn [map]. rewrite !filter_cons, IH1, IH2, IH3. destruct (sent_global m) as (H1 & H2 & H3). by rewrite decide_True, decide_False, H3.
Qed.
Lemma filter_received : filter is_sent (map received_globally ms) = [] /\ filter is_received (map received_globally ms) = map received_globally ms /\
  map global_message (map received_globally ms) = map enc ms.
Proof using.
  induction ms as [|m l (IH1 & IH2 & IH3)]; [done|]. cbn [map]. rewrite !filter_cons, IH1, IH2, IH3. destruct (received_global m) as (H1 & H2 & H3). by rewrite decide_False, decide_True, H3.
Qed.
End Keys.

Lemma flat_map_pair {A B} (f g : A -> B) l : flat_map (fun x => [f x; g x]) l ≡ₚ map f l ++ map g l.
Proof. induction l as [|x l IH]; [done|]. cbn [flat_map map app]. rewrite IH. apply perm_skip. apply Permutation_middle. Qed.

Lemma flat_map_split {A B} (f g : A -> list B) l : flat_map (fun x => f x ++ g x) l ≡ₚ flat_map f l ++ flat_map g l.
Proof. induction l as [|x l IH]; [done|]. cbn [flat_map]. rewrite IH, <- !app_assoc. apply Permutation_app_head. rewrite !app_assoc. apply Permutation_app_tail, Permutation_app_comm. Qed.

Lemma global_keys_eq m : accepted_memory m -> global_keys m ≡ₚ map received_globally (map entry_initial (real_entries (ms_local m)) ++ final_msgs m) ++
  map sent_globally (map entry_final (real_entries (ms_local m)) ++ init_msgs m).
Proof.
  intros Hm. unfold global_keys, memory_rows. pose proof (am_hold m Hm) as Hh. unfold memory_rows in Hh. rewrite !Forall_app in Hh. destruct Hh as (Hl & Hi & Hf).
  destruct (am_wf m Hm) as (Wl & Wi & Wf). destruct (table_keys Initialize _ _ Wi Hi) as (Ei & _). destruct (table_keys Finalize _ _ Wf Hf) as (Ef & _).
  rewrite !concat_app, !sent_app, !keys_app, Ei, Ef, concat_local.
  assert (Forall MemoryLocalChip.entry_wf (flat_map MemoryLocalChip.memory_local_entries (ms_local m))) as We.
  { clear - Wl. induction Wl as [|r l Hr _ IH]; [constructor|]. cbn [flat_map]. by apply Forall_app. }
  assert (all_hold (flat_map MemoryLocalChip.eval_entry (flat_map MemoryLocalChip.memory_local_entries (ms_local m)))) as Hle.
  { rewrite <- concat_local. clear - Hl. induction (ms_local m) as [|r l IH]; [done|]. cbn [map concat] in *. apply Forall_cons in Hl as [H1 H2]. apply all_hold_app. split; [done|by apply IH]. }
  destruct (local_keys _ We Hle) as (_ & _ & -> & _). fold (real_entries (ms_local m)). unfold globally, init_msgs, final_msgs.
  rewrite (flat_map_pair (fun e => received_globally (entry_initial e)) (fun e => sent_globally (entry_final e))).
  rewrite !map_app, !map_map. solve_Permutation.
Qed.

Import CoreVerify.

(** What the verifier compares is what the tables show: the public values of the
    proof are those of the shard, and a table of the proof has rows. *)
Record shows (p : ShardProof) (m : MemoryShard) : Prop := {
  sh_cpu : cpu_pv (ms_shard m) = cpu_public_values (public_values p);
  sh_syscall : syscall_pv (ms_shard m) = syscall_public_values (public_values p);
  sh_memory : ms_pv m = memory_public_values (public_values p);
  sh_has_cpu : contains_cpu p = true <-> cpu_trace (ms_shard m) <> [];
  sh_has_init : contains_global_memory_init p = true <-> ms_init m <> [];
  sh_has_final : contains_global_memory_finalize p = true <-> ms_final m <> []
}.

(** The public values are field elements, the bits of an address 32 of them. *)
Record public_ok (m : MemoryShard) : Prop := {
  pv_bits : forall kind, length (MemoryGlobalChip.last_addr_bits kind (ms_pv m)) = 32%nat /\ Forall canon (MemoryGlobalChip.last_addr_bits kind (ms_pv m));
  pv_cpu : Forall canon [CpuChip.start_pc (cpu_pv (ms_shard m)); CpuChip.pv_next_pc (cpu_pv (ms_shard m)); CpuChip.execution_shard (cpu_pv (ms_shard m))];
  pv_digests : length (SyscallInstrsChip.committed_value_digest (syscall_pv (ms_shard m))) = PV_DIGEST_NUM_WORDS /\
    length (SyscallInstrsChip.deferred_proofs_digest (syscall_pv (ms_shard m))) = POSEIDON_NUM_WORDS
}.

Definition all_accs (ms : list MemoryShard) : list MemAccess := flat_map shard_accs ms.
Definition all_inits (p : Program) (ms : list MemoryShard) : list MemMsg := program_image p ++ flat_map init_msgs ms.
Definition all_finals (ms : list MemoryShard) : list MemMsg := flat_map final_msgs ms.

Lemma flat_map_map {A B C} (f : B -> C) (g : A -> list B) l : flat_map (fun x => map f (g x)) l = map f (flat_map g l).
Proof. induction l as [|x l IH]; [done|]. cbn [flat_map]. by rewrite map_app, IH. Qed.

Lemma flat_map_perm {A B} (f g : A -> list B) l : Forall (fun x => f x ≡ₚ g x) l -> flat_map f l ≡ₚ flat_map g l.
Proof. induction 1 as [|x l Hx _ IH]; [done|]. cbn [flat_map]. by rewrite Hx, IH. Qed.

Section Shards.
  Context (prog : Program) (ms : list MemoryShard) (Hms : Forall accepted_memory ms) (Hg : global_balanced prog ms).

Abbreviation firsts := (flat_map (fun m => map entry_initial (real_entries (ms_local m))) ms).
Abbreviation lasts := (flat_map (fun m => map entry_final (real_entries (ms_local m))) ms).

Lemma global_messages : program_image prog ++ lasts ++ flat_map init_msgs ms ≡ₚ firsts ++ all_finals ms.
Proof using Hms Hg.
  assert (flat_map global_keys ms ≡ₚ map received_globally (firsts ++ all_finals ms) ++ map sent_globally (lasts ++ flat_map init_msgs ms)) as E.
  { rewrite (flat_map_perm _ _ ms (Forall_impl _ _ _ Hms global_keys_eq)). rewrite flat_map_split, (flat_map_map received_globally), (flat_map_map sent_globally), !flat_map_split. done. }
  unfold global_balanced in Hg. rewrite E, !filter_app in Hg. destruct (filter_sent (lasts ++ flat_map init_msgs ms)) as (F1 & F2 & F3), (filter_received (firsts ++ all_finals ms)) as (G1 & G2 & G3).
  rewrite F1, F2, G1, G2, app_nil_r, app_nil_l, F3, G3, <- map_app in Hg. by apply (Permutation_map_inj enc).
Qed.

Lemma local_messages : map found (all_accs ms) ++ lasts ≡ₚ map left (all_accs ms) ++ firsts.
Proof using Hms.
  clear Hg. unfold all_accs. rewrite <- !flat_map_map, <- !flat_map_split. apply flat_map_perm. eapply Forall_impl; [exact Hms|]. apply shard_balance.
Qed.

(** The accesses of all shards balance with the initial and the final words. *)
Lemma memory_balance : map found (all_accs ms) ++ all_finals ms ≡ₚ map left (all_accs ms) ++ all_inits prog ms.
Proof using Hms Hg.
  pose proof global_messages as G. pose proof local_messages as L. unfold all_inits.
  apply (Permutation_app_inv_l (lasts ++ firsts)).
  transitivity ((map found (all_accs ms) ++ lasts) ++ (firsts ++ all_finals ms)); [solve_Permutation|]. rewrite L, <- G. solve_Permutation.
Qed.

Lemma accs_in_order : Forall in_order (all_accs ms).
Proof using Hms Hg.
  assert (Forall checked (all_accs ms)) as Hc.
  { clear Hg. unfold all_accs. generalize Hms. clear Hms. generalize ms as l. induction 1 as [|m l Hm _ IH]; [constructor|]. cbn [flat_map]. apply Forall_app. split; [by apply shard_keys|exact IH]. }
  rewrite Forall_forall in Hc. apply Forall_forall. intros a Ha. apply (Hc a Ha).
  assert (found a ∈ map left (all_accs ms) ++ all_inits prog ms) as Hin
    by (rewrite <- memory_balance; apply elem_of_app; left; apply list_elem_of_In, in_map, list_elem_of_In, Ha).
  change (ma_prev a).1 with (mm_time (found a)). revert Hin. generalize (found a) as x. clear a Ha. intros x.
  unfold all_inits. rewrite !elem_of_app. intros [Hx|[Hx|Hx]].
  - apply list_elem_of_In, in_map_iff in Hx as (b & <- & Hb%list_elem_of_In). by apply (Hc b).
  - apply list_elem_of_In, in_map_iff in Hx as ([? ?] & <- & _). done.
  - apply list_elem_of_In, in_flat_map in Hx as (m & _ & Hx). apply in_map_iff in Hx as (r & <- & _). done.
Qed.
End Shards.

(** ** The tables of an accepted proof *)

Definition table_of (kind : MemoryChipType) (m : MemoryShard) : MemoryGlobalChip.MemoryPublicValues * list MemoryGlobalChip.MemoryInitCols :=
  (ms_pv m, match kind with Initialize => ms_init m | Finalize => ms_final m end).

Lemma tables_linked proof ms first : Forall2 shows proof ms ->
  (bits_ok previous_init_addr_bits last_init_addr_bits contains_global_memory_init first proof -> linked Initialize first (map (table_of Initialize) ms)) /\
  (bits_ok previous_finalize_addr_bits last_finalize_addr_bits contains_global_memory_finalize first proof -> linked Finalize first (map (table_of Finalize) ms)).
Proof.
  intros H. revert first. induction H as [|p m proof ms [_ _ Em _ Hi Hf] _ IH]; intros first; [done|]. unfold bits_ok in *. rewrite !every_cons.
  cbn [map linked table_of]. rewrite Em. cbn [memory_public_values MemoryGlobalChip.previous_addr_bits MemoryGlobalChip.last_addr_bits
    MemoryGlobalChip.previous_init_addr_bits MemoryGlobalChip.last_init_addr_bits MemoryGlobalChip.previous_finalize_addr_bits MemoryGlobalChip.last_finalize_addr_bits].
  split; intros [[E1 E2] Hrest]; (split; [done|]); (split; [|by apply IH]); intros Er; rewrite <- E1; symmetry; apply E2; [destruct (contains_global_memory_init p)|destruct (contains_global_memory_finalize p)]; try done; exfalso; [by apply Hi|by apply Hf].
Qed.

Lemma tables_ok kind ms : Forall accepted_memory ms -> Forall public_ok ms -> Forall (table_ok kind) (map (table_of kind) ms).
Proof.
  intros H1 H2. apply Forall_map, Forall_forall. intros m Hm. rewrite Forall_forall in H1. rewrite Forall_forall in H2. specialize (H1 m Hm). destruct (pv_bits m (H2 m Hm) kind) as [L C].
  pose proof (am_hold m H1) as Hh. unfold memory_rows in Hh. rewrite !Forall_app in Hh. destruct Hh as (_ & Hi & Hf), (am_wf m H1) as (_ & Wi & Wf). by destruct kind; split_and!.
Qed.

Lemma public_zero : MemoryGlobalChip.public_bits (replicate 32 0) /\ bits2num (replicate 32 0) = 0.
Proof. split; [split_and!; [done|by repeat constructor|unfold canon; vm_compute; done]|done]. Qed.

Lemma messages_rows kind ms : flat_map (fun m => map (row_msg kind) (real_rows (table_of kind m).2)) ms =
  map (row_msg kind) (flat_map (fun t => real_rows t.2) (map (table_of kind) ms)).
Proof. rewrite flat_map_map. f_equal. induction ms as [|m ms IH]; [done|]. cbn [map flat_map]. by rewrite IH. Qed.

Lemma StronglySorted_NoDup (l : list Z) : StronglySorted Z.lt l -> NoDup l.
Proof. induction 1 as [|x l _ IH Hx]; constructor; [|done]. intros Hin. rewrite Forall_forall in Hx. specialize (Hx x Hin). lia. Qed.

Section Tables.
  Context (kind : MemoryChipType) (ms : list MemoryShard) (Hms : Forall accepted_memory ms) (Hpub : Forall public_ok ms).
  Context (Hlink : linked kind (replicate 32 0) (map (table_of kind) ms)).

Abbreviation msgs := (flat_map (fun m => map (row_msg kind) (real_rows (table_of kind m).2)) ms).

(** Over all shards the addresses increase, and the first is register 0. *)
Lemma messages_sorted : StronglySorted Z.lt (map mm_addr msgs) /\ (msgs = [] \/ exists m rest, msgs = m :: rest /\ mm_addr m = 0 /\ mm_word m = word_zero).
Proof using Hms Hpub Hlink.
  rewrite messages_rows, map_map. destruct public_zero as [P0 P1]. destruct (tables_sorted kind _ _ P0 Hlink (tables_ok kind ms Hms Hpub)) as (Hs & _ & Hz). cbn zeta in Hs, Hz.
  split; [by destruct kind|]. destruct (Hz P1) as [->|(r & rest & -> & E & Ev)]; [by left|right]. exists (row_msg kind r), (map (row_msg kind) rest). split; [done|].
  split; [by destruct kind|]. destruct kind; cbn; unfold MemoryGlobalChip.value_word, word_of, MemoryGlobalChip.value_byte; by rewrite Ev.
Qed.
End Tables.

(** ** Memory of an accepted proof *)

(** What the STARK of a proof stands for: the shards hold, show the public values
    of the proof, run one program, and their global messages balance. *)
Record proves (prog : Program) (proof : list ShardProof) (ms : list MemoryShard) : Prop := {
  pr_shows : Forall2 shows proof ms;
  pr_shards : Forall accepted_memory ms;
  pr_public : Forall public_ok ms;
  pr_program : Forall (fun m => rs_program (ms_shard m) = prog) ms;
  pr_global : global_balanced prog ms
}.

(** The word at an address at a time: of the latest access before it, or the
    initial one. *)
Definition memory_at (prog : Program) (ms : list MemoryShard) (t : Z * Z) (addr : Z) : Word := word_at (all_inits prog ms) (all_accs ms) t addr.

Section Proof.
  Context {E : Type} (pc_start : Z) (machine_verify : list ShardProof -> option E) (proof : list ShardProof).
  Context (prog : Program) (ms : list MemoryShard) (Hv : verify pc_start machine_verify proof = Accepted) (Hp : proves prog proof ms).

Lemma proof_linked kind : linked kind (replicate 32 0) (map (table_of kind) ms).
Proof using Hv Hp.
  apply verify_iff in Hv as (_ & _ & _ & _ & _ & Hi & Hf & _). destruct (tables_linked proof ms (replicate 32 0) (pr_shows _ _ _ Hp)) as [Li Lf]. destruct kind; [by apply Li|by apply Lf].
Qed.

Lemma finals_NoDup : NoDup (map mm_addr (all_finals ms)).
Proof using Hv Hp. apply StronglySorted_NoDup. apply (messages_sorted Finalize ms (pr_shards _ _ _ Hp) (pr_public _ _ _ Hp) (proof_linked Finalize)). Qed.

Lemma accs_balance : Forall in_order (all_accs ms) /\ (map found (all_accs ms) ++ all_finals ms) ≡ₚ (map left (all_accs ms) ++ all_inits prog ms).
Proof using Hp. clear Hv. destruct Hp as [_ H _ _ G]. split; [by apply (accs_in_order prog)|by apply memory_balance]. Qed.

Lemma memory_found a : a ∈ all_accs ms -> memory_at prog ms (time_of a) (ma_addr a) = (ma_prev a).2.
Proof using Hv Hp. destruct accs_balance. apply (word_at_found _ _ (all_finals ms)); [done|exact finals_NoDup|done]. Qed.

Lemma memory_left a s c : a ∈ all_accs ms -> time_of a = (s, c) -> memory_at prog ms (s, c + 1) (ma_addr a) = (ma_cur a).2.
Proof using Hv Hp. destruct accs_balance. apply (word_at_left _ _ (all_finals ms)); [done|exact finals_NoDup|done]. Qed.

Lemma memory_same addr s c : (forall a, a ∈ all_accs ms -> ma_addr a = addr -> time_of a <> (s, c)) -> memory_at prog ms (s, c + 1) addr = memory_at prog ms (s, c) addr.
Proof using Hv Hp. destruct accs_balance. apply (word_at_same _ _ (all_finals ms)); [done|exact finals_NoDup|done]. Qed.

Lemma memory_invariant (P : Z -> Word -> Prop) : (forall m, m ∈ all_inits prog ms -> P (mm_addr m) (mm_word m)) -> (forall addr, msg_at addr (all_inits prog ms) = [] -> P addr word_zero) ->
  (forall a, a ∈ all_accs ms -> P (ma_addr a) (ma_prev a).2 -> P (ma_addr a) (ma_cur a).2) -> forall t addr, P addr (memory_at prog ms t addr).
Proof using Hv Hp. destruct accs_balance. apply (word_at_invariant _ _ (all_finals ms)); [done|exact finals_NoDup|done]. Qed.

(** No two accesses to an address at one time. *)
Lemma access_unique a b : a ∈ all_accs ms -> b ∈ all_accs ms -> ma_addr a = ma_addr b -> time_of a = time_of b -> a = b.
Proof using Hv Hp.
  intros Ha Hb Ea Et. destruct accs_balance as [Ho Hbal]. destruct (access_chain _ _ (all_finals ms) Ho finals_NoDup Hbal a Ha) as (x & y & l & _ & Hl & Hc & Hol & Hin).
  apply (chain_times x l y a b Hc Hol Hin); [|done]. rewrite Hl, in_at_addr. by rewrite Ea.
Qed.
End Proof.

(** C2. In a core proof the verifier accepts, whose shards satisfy their
    constraints, balance their lookups and balance the global messages of
    memory, every access to memory, of any chip in any shard, finds the word the
    latest earlier access to its address left, or the initial word, and leaves
    its own; the word at an address changes at no other time. *)
Theorem memory_consistent {E} pc_start (machine_verify : list ShardProof -> option E) proof prog ms :
  verify pc_start machine_verify proof = Accepted -> proves prog proof ms ->
  (forall a, a ∈ all_accs ms -> memory_at prog ms (time_of a) (ma_addr a) = (ma_prev a).2) /\
  (forall a s c, a ∈ all_accs ms -> time_of a = (s, c) -> memory_at prog ms (s, c + 1) (ma_addr a) = (ma_cur a).2) /\
  (forall addr s c, (forall a, a ∈ all_accs ms -> ma_addr a = addr -> time_of a <> (s, c)) -> memory_at prog ms (s, c + 1) addr = memory_at prog ms (s, c) addr).
Proof.
  intros Hv Hp. split_and!; [by apply (memory_found pc_start machine_verify proof)|by apply (memory_left pc_start machine_verify proof)|by apply (memory_same pc_start machine_verify proof)].
Qed.
