(* ===== verification/CoreRows.v ===== *)
(** * The rows of a core proof

    The rows of the Cpu chip of all shards of an accepted proof, in order: their
    program counters go from the start of the program to its halt, each is over
    when the next starts, every access to memory happens during one of them, and
    memory holds words, with zero in register 0. *)

From Stdlib Require Import ZArith Lia Bool Permutation Sorted.
From stdpp Require Import base list gmap sorting.
From S2P Require Import Prelude Isa SyscallCode Memory Events ByteLookup Record Alu Dependencies State Executor Access Refinement AirBuilder ByteTable.
From S2P Require Import MemoryAir Operations ChipSpec Lookup AluMachine TraceGen ControlFlow MemInstrChip CpuChip SyscallInstrChip InstrRows RiscvMachine.
From S2P Require Import RiscvStep MemoryCheck MemoryLocalChip MemoryGlobalChip CoreVerify MemoryBus CoreMemory.

Local Open Scope Z_scope.
Local Open Scope rv_scope.

(** * The rows of the Cpu chip in order

    In an accepted shard the live rows of the Cpu chip come first; the program
    counter of each is the next program counter of the one before it, and its
    clock is the one after the cycles of the one before it.  A row of an
    instruction that is not a system call takes no extra cycles; a system call
    reaches a row of the SyscallInstrs chip at its time. *)

Definition live_rows (s : RiscvShard) : list CpuChip.CpuCols := filter (fun r => CpuChip.is_real r = 1) (cpu_trace s).

(** A property that holds of the earlier rows: the rows that have it come first. *)
Definition passes_back {A} (P : A -> Prop) (l : list A) : Prop := forall i x y, l !! i = Some x -> l !! S i = Some y -> P y -> P x.

Lemma none_after {A} (P : A -> Prop) z l : passes_back P (z :: l) -> ~ P z -> forall k w, (z :: l) !! k = Some w -> ~ P w.
Proof.
  intros Hb Hz. induction k as [|k IHk]; intros w Hk; [by injection Hk as <-|]. intros Hw. destruct (lookup_lt_is_Some_2 (z :: l) k) as [v Hv]; [apply lookup_lt_Some in Hk; lia|].
  by apply (IHk v Hv), (Hb k v w).
Qed.

Lemma filter_prefix {A} (P : A -> Prop) `{HP : !forall x, Decision (P x)} (l : list A) : passes_back P l ->
  forall i x, filter P l !! i = Some x <-> l !! i = Some x /\ P x.
Proof.
  induction l as [|z l IH]; intros Hb i x; [by split; [|intros []]|]. rewrite filter_cons. case_decide as Hz.
  - destruct i as [|i]; cbn; [naive_solver|]. apply IH. intros j. by apply (Hb (S j)).
  - pose proof (none_after P z l Hb Hz) as Hn. assert (filter P l = []) as ->.
    { apply elem_of_nil_inv. intros w [Hw [k Hk]%list_elem_of_lookup]%list_elem_of_filter. by apply (Hn (S k) w). }
    rewrite lookup_nil. split; [done|]. intros [Hx Hpx]. by destruct (Hn i x).
Qed.

Section Shard.
  Context (s : RiscvShard) (Hacc : accepted_shard s) (Hp : program_ok (rs_program s)).
  Abbreviation trace := (cpu_trace s).

Lemma next_row i r r' : trace !! i = Some r -> trace !! S i = Some r' -> nth (S i mod length trace) trace r = r'.
Proof using.
  clear. intros _ H. pose proof (lookup_lt_Some _ _ _ H). rewrite Nat.mod_small by done. by rewrite (nth_lookup_Some _ _ _ _ H).
Qed.

Lemma row_after i r r' : trace !! i = Some r -> trace !! S i = Some r' -> CpuChip.is_real r' = 1 ->
  CpuChip.is_real r = 1 /\ CpuChip.pc r' = CpuChip.next_pc r /\ CpuChip.clk r + DEFAULT_PC_INC + CpuChip.num_extra_cycles r ≡F CpuChip.clk r'.
Proof using Hacc Hp.
  intros Hi Hi' Er. destruct (cpu_row_ok s Hacc Hp i r Hi) as [Hw Ho], (cpu_row_ok s Hacc Hp _ r' Hi') as [Hw' _].
  unfold cpu_row in Ho. rewrite (next_row i r r' Hi Hi') in Ho. apply (cpu_next _ _ _ _ Hw Ho); [|done..].
  cbn [row_position CpuChip.is_transition]. apply lookup_lt_Some in Hi'. apply Nat.ltb_lt in Hi'. by rewrite Hi'.
Qed.

Lemma live_lookup i r : live_rows s !! i = Some r <-> trace !! i = Some r /\ CpuChip.is_real r = 1.
Proof using Hacc Hp. apply (filter_prefix (fun r => CpuChip.is_real r = 1)). intros j x y Hx Hy Ey. by apply (row_after j x y). Qed.

Lemma live_row_ok i r : live_rows s !! i = Some r -> CpuChip.wf r /\ row_ok (cpu_row s i r) /\ CpuChip.is_real r = 1 /\ ~ CpuChip.is_real r ≡F 0.
Proof using Hacc Hp. intros [Hi Er]%live_lookup. destruct (cpu_row_ok s Hacc Hp i r Hi). rewrite Er. done. Qed.

Lemma live_first : trace <> [] -> exists r, live_rows s !! 0%nat = Some r /\ CpuChip.start_pc (cpu_pv s) ≡F CpuChip.pc r /\ CpuChip.clk r = 0.
Proof using Hacc Hp.
  intros Hne. assert (exists r, trace !! 0%nat = Some r) as [r Hr] by (destruct trace as [|r ?]; [done|by exists r]). exists r. rewrite live_lookup.
  destruct (cpu_row_ok s Hacc Hp 0 r Hr) as [Hw Ho]. destruct (cpu_first _ _ _ _ Hw Ho eq_refl) as (Er & Ep & Ec). split; [done|]. split; [done|].
  destruct (cpu_time _ _ _ _ Hw Ho Er) as (_ & Hc & _). apply eqF_small in Ec; [done|]. unfold BABYBEAR. lia.
Qed.

Lemma live_next i r r' : live_rows s !! i = Some r -> live_rows s !! S i = Some r' ->
  CpuChip.pc r' = CpuChip.next_pc r /\ (0 <= CpuChip.num_extra_cycles r < 256 -> CpuChip.clk r' = CpuChip.clk r + 4 + CpuChip.num_extra_cycles r).
Proof using Hacc Hp.
  intros Hi Hi'. pose proof (live_row_ok _ _ Hi) as (Hw & Ho & Er & _). pose proof (live_row_ok _ _ Hi') as (Hw' & Ho' & Er' & _).
  apply live_lookup in Hi as [Hi _], Hi' as [Hi' _]. destruct (row_after i r r' Hi Hi' Er') as (_ & Ep & Ec). split; [done|]. intros Hx.
  destruct (cpu_time _ _ _ _ Hw Ho Er) as (_ & Hc & _), (cpu_time _ _ _ _ Hw' Ho' Er') as (_ & Hc' & _). apply eqF_small in Ec; unfold BABYBEAR, DEFAULT_PC_INC in *; lia.
Qed.

Lemma live_last r : list.last (live_rows s) = Some r -> CpuChip.pv_next_pc (cpu_pv s) ≡F CpuChip.next_pc r.
Proof using Hacc Hp.
  intros Hl. assert (exists i, live_rows s !! i = Some r /\ live_rows s !! S i = None) as (i & Hi & Hn).
  { rewrite last_lookup in Hl. exists (pred (length (live_rows s))). split; [done|]. apply lookup_ge_None. lia. }
  pose proof (live_row_ok _ _ Hi) as (Hw & Ho & Er & _). apply live_lookup in Hi as [Hi _]. apply (cpu_last _ _ _ _ Ho Er). cbn [row_position CpuChip.is_transition CpuChip.is_last_row].
  destruct (trace !! S i) as [r'|] eqn:Hi'; [right|left].
  - rewrite (next_row i r r' Hi Hi'). pose proof (lookup_lt_Some _ _ _ Hi') as Hlt%Nat.ltb_lt. rewrite Hlt. split; [done|].
    destruct (cpu_row_ok s Hacc Hp _ r' Hi') as [Hw' Ho']. destruct (cpu_real _ _ _ _ Hw' Ho') as [|E]; [done|]. exfalso. assert (live_rows s !! S i = Some r') by (by apply live_lookup). congruence.
  - apply lookup_ge_None in Hi'. apply lookup_lt_Some in Hi. assert ((S i =? length trace)%nat = true) as -> by (apply Nat.eqb_eq; lia). done.
Qed.

(** ** System calls and the others *)

Definition ecall_row (r : CpuChip.CpuCols) : Prop := msg_opcode (cpu_message r) = opcode_u32 ECALL.

Definition digests_ok (pv : SyscallInstrsChip.SyscallPublicValues) : Prop :=
  length (SyscallInstrsChip.committed_value_digest pv) = PV_DIGEST_NUM_WORDS /\ length (SyscallInstrsChip.deferred_proofs_digest pv) = POSEIDON_NUM_WORDS.

(** The row of the SyscallInstrs chip of a system call. *)
Record ecall_served (r : CpuChip.CpuCols) (y : SyscallInstrsChip.SyscallInstrColumns) : Prop := {
  es_row : SyscallRow y ∈ instr_trace s;
  es_real : ~ SyscallInstrsChip.is_real y ≡F 0;
  es_time : SyscallInstrsChip.shard y = CpuChip.shard r /\ SyscallInstrsChip.clk y = CpuChip.clk r;
  es_message : ecall_message (syscall_pv s) (cpu_message r) (SyscallInstrsChip.syscall_code y) (value (SyscallInstrsChip.op_a_access y))
}.

Lemma ecall_same pv v v' code cur : same_values v v' -> ecall_message pv v code cur -> ecall_message pv v' code cur.
Proof using.
  clear. intros Hs He. destruct (same_msgs _ _ Hs) as [Em _]. unfold msg_opcode, msg_op_a_0, msg_next_pc, msg_pc, msg_b, msg_c, msg_word in *.
  destruct He as [H1 H2 H3 H4 H5 H6 H7 H8 H9 H10]. unfold msg_opcode, msg_op_a_0, msg_next_pc, msg_pc, msg_b, msg_c, msg_word in *. rewrite !Em in *.
  by constructor.
Qed.

Lemma row_class i r : digests_ok (syscall_pv s) -> live_rows s !! i = Some r ->
  ~ ecall_row r /\ CpuChip.is_syscall r = 0 /\ CpuChip.num_extra_cycles r = 0 \/ ecall_row r /\ CpuChip.is_syscall r = 1 /\ exists y, ecall_served r y.
Proof using Hacc Hp.
  intros Hd Hi. pose proof (live_row_ok _ _ Hi) as (Hw & Ho & Er & Hz). apply live_lookup in Hi as [Hi _]. destruct (cpu_message_fields r Hw) as (F0 & F1 & F4 & _ & F20 & F21).
  assert (forall os, answers os (cpu_message r) -> ~ In ECALL os -> ~ ecall_row r) as Hne.
  { intros os Ha Hn E. apply Hn. by apply (answers_opcode _ _ _ E). }
  destruct (cpu_dispatch s Hacc Hp i r Hi Hz) as [(Ha & Hpl & _)|(row & m & Hr & Hm & Hzm & Hv & Ha)].
  { left. split; [apply (Hne _ Ha); cbn; intuition discriminate|]. destruct Hpl as (_ & _ & _ & _ & E4 & _ & _ & E21 & _). rewrite <- F21, <- F4. done. }
  destruct (instr_row_ok s Hacc Hp row Hr) as (Hwr & Hor & Hsr). destruct (same_msgs _ _ Hv) as [Em _].
  assert (forall imm os P, instr_receiver imm os P (instr_calls (syscall_pv s) row) -> CpuChip.is_syscall r = 0 /\ CpuChip.num_extra_cycles r = 0) as Hq.
  { intros imm os P Hrec. destruct (Hrec m Hm Hzm) as ((_ & _ & _ & E4 & _ & _ & E21 & _) & _). rewrite Em in E4, E21. rewrite <- F21, <- F4. done. }
  destruct row as [b|b|b|q|y]; cbn [instr_wf instr_calls instr_opcodes] in *.
  - left. split; [apply (Hne _ Ha); cbn; intuition discriminate|]. by eapply Hq, branch_receiver.
  - left. split; [apply (Hne _ Ha); cbn; intuition discriminate|]. by eapply Hq, jump_receiver.
  - left. split; [apply (Hne _ Ha); cbn; intuition discriminate|]. by eapply Hq, auipc_receiver.
  - left. split; [apply (Hne _ Ha); cbn; intuition discriminate|]. destruct (mem_receiver q Hwr Hor Hsr m Hm Hzm) as (_ & _ & _ & _ & _ & E4 & _ & E21 & _). rewrite Em in E4, E21. rewrite <- F21, <- F4. done.
  - right. assert (~ SyscallInstrsChip.is_real y ≡F 0) as Hzy.
    { rewrite syscall_receives_eq in Hm. apply list_elem_of_singleton in Hm as ->. exact Hzm. }
    destruct (syscall_receiver y _ Hwr Hor Hzy Hd m Hm) as (_ & E0 & E1 & He). apply (ecall_same _ _ _ _ _ Hv) in He. rewrite Em, F0 in E0. rewrite Em, F1 in E1.
    pose proof (em_flags _ _ _ _ He) as (_ & _ & E20 & E21). rewrite F20 in E20. rewrite F21 in E21.
    destruct (cpu_time_sent _ _ _ _ Hw Ho Er) as [T0 T1]; [by rewrite E20, E21|].
    split; [apply (em_opcode _ _ _ _ He)|]. split; [done|]. exists y. constructor; try done. split; congruence.
Qed.
End Shard.

Import CoreVerify.

(** ** Times *)

Definition starts (r : CpuChip.CpuCols) : Z * Z := (CpuChip.shard r, CpuChip.clk r).
Definition ends (r : CpuChip.CpuCols) : Z * Z := (CpuChip.shard r, CpuChip.clk r + 4 + CpuChip.num_extra_cycles r).

Definition not_after (t t' : Z * Z) : Prop := ~ before t' t.

Lemma not_after_iff t t' : not_after t t' <-> t.1 < t'.1 \/ t.1 = t'.1 /\ t.2 <= t'.2.
Proof. unfold not_after, before. lia. Qed.

(** One row is over when the next one starts. *)
Definition follows (r r' : CpuChip.CpuCols) : Prop := not_after (ends r) (starts r') /\ 0 <= CpuChip.num_extra_cycles r'.

#[export] Instance follows_trans : Transitive follows.
Proof. intros r r' r'' [H1 X1] [H2 X2]. split; [|done]. rewrite not_after_iff in *. cbn in *. lia. Qed.

(** ** Program counters *)

(** From [pc] through the rows to [last]. *)
Fixpoint pc_flow (pc : Z) (rows : list CpuChip.CpuCols) (last : Z) : Prop :=
  match rows with
  | [] => pc = last
  | r :: rows => CpuChip.pc r = pc /\ pc_flow (CpuChip.next_pc r) rows last
  end.

Lemma pc_flow_app pc l l' last : pc_flow pc (l ++ l') last <-> exists mid, pc_flow pc l mid /\ pc_flow mid l' last.
Proof.
  revert pc. induction l as [|r l IH]; intros pc; cbn; [naive_solver|]. rewrite IH. naive_solver.
Qed.

Lemma pc_flow_rows r rows : (forall i x y, (r :: rows) !! i = Some x -> (r :: rows) !! S i = Some y -> CpuChip.pc y = CpuChip.next_pc x) ->
  exists x, list.last (r :: rows) = Some x /\ pc_flow (CpuChip.pc r) (r :: rows) (CpuChip.next_pc x).
Proof.
  revert r. induction rows as [|r' rows IH]; intros r H; [by exists r|]. destruct (IH r') as (x & Hx & Hf); [intros i; by apply (H (S i))|].
  exists x. split; [done|]. split; [done|]. by rewrite <- (H 0%nat r r').
Qed.

(** The rows of all shards. *)
Definition run_rows (ms : list MemoryShard) : list CpuChip.CpuCols := flat_map (fun m => live_rows (ms_shard m)) ms.

Lemma run_rows_elem ms r : r ∈ run_rows ms <-> exists m, m ∈ ms /\ r ∈ live_rows (ms_shard m).
Proof. unfold run_rows. rewrite list_elem_of_In, in_flat_map. by setoid_rewrite list_elem_of_In. Qed.

Lemma Sorted_lookup {A} (R : A -> A -> Prop) l : (forall i x y, l !! i = Some x -> l !! S i = Some y -> R x y) -> Sorted R l.
Proof.
  induction l as [|x l IH]; intros H; constructor; [apply IH; intros i; by apply (H (S i))|]. destruct l as [|y l]; constructor. by apply (H 0%nat).
Qed.

Lemma StronglySorted_lookup_lt {A} (R : A -> A -> Prop) l i j x y : StronglySorted R l -> l !! i = Some x -> l !! j = Some y -> (i < j)%nat -> R x y.
Proof.
  intros Hs. revert i j. induction Hs as [|z l _ IH Hz]; intros i j Hi Hj Hij; [done|]. destruct j as [|j]; [lia|]. cbn in Hj. destruct i as [|i].
  - injection Hi as <-. rewrite Forall_forall in Hz. apply Hz. by eapply list_elem_of_lookup_2.
  - apply (IH i j); [done..|lia].
Qed.

Lemma sorted_flat_map {A B} (R : B -> B -> Prop) (f : A -> list B) l : (forall x, x ∈ l -> StronglySorted R (f x)) ->
  (forall i j x y, (i < j)%nat -> l !! i = Some x -> l !! j = Some y -> forall a b, a ∈ f x -> b ∈ f y -> R a b) -> StronglySorted R (flat_map f l).
Proof.
  induction l as [|x l IH]; intros Hs H; [constructor|]. cbn [flat_map]. apply StronglySorted_app_2.
  - intros a b Ha Hb. apply list_elem_of_In, in_flat_map in Hb as (y & [j Hj]%list_elem_of_In%list_elem_of_lookup & Hb%list_elem_of_In). apply (H 0%nat (S j) x y); [lia|done..].
  - apply Hs. left.
  - apply IH; [intros y Hy; apply Hs; by right|]. intros i j y z Hij Hy Hz. apply (H (S i) (S j)); [lia|done..].
Qed.

(** ** Where accesses come from *)

(** An access of the MemoryInstrs row of [r], and of its SyscallInstrs row. *)
Definition mem_access (m : MemoryShard) (r : CpuChip.CpuCols) (a : MemAccess) : Prop := exists q,
  MemRow q ∈ instr_trace (ms_shard m) /\ a = acc_of (CpuChip.shard r) (CpuChip.clk r) (MemoryInstructionsChip.addr_aligned q) (MemoryInstructionsChip.memory_access q) /\
  mem_message (cpu_message r) (MemoryInstructionsChip.addr_aligned q) (prev_value (MemoryInstructionsChip.memory_access q)) (value (MemoryInstructionsChip.memory_access q)).

Definition syscall_access (m : MemoryShard) (r : CpuChip.CpuCols) (a : MemAccess) : Prop := exists y,
  SyscallRow y ∈ instr_trace (ms_shard m) /\ ecall_row r /\ a = acc_of (CpuChip.shard r) (CpuChip.clk r + 3) (reg_idx X5) (SyscallInstrsChip.op_a_access y) /\
  value (SyscallInstrsChip.op_a_access y) = CpuChip.op_a_val r.

Lemma accs_of_elem {C} `{MemoryCols C} shard clk addr (c : C) check a : a ∈ accs_of shard clk addr c check -> ~ check ≡F 0 /\ a = acc_of shard clk addr c.
Proof. unfold accs_of. case_decide; [by intros ?%not_elem_of_nil|]. by intros ->%list_elem_of_singleton. Qed.

Lemma shard_source m a : accepted_memory m -> a ∈ shard_accs m ->
  (exists i r, live_rows (ms_shard m) !! i = Some r /\ (a ∈ cpu_accs r \/ mem_access m r a \/ syscall_access m r a)) \/ exists o, o ∈ ms_other m /\ a ∈ o.2.
Proof.
  intros Hm. pose proof (am_shard m Hm) as Ha. pose proof (am_program m Hm) as Hpr. unfold shard_accs. rewrite !elem_of_app. intros [H|[H|H]].
  - left. apply list_elem_of_In, in_flat_map in H as (r & [i Hi]%list_elem_of_In%list_elem_of_lookup & Hin%list_elem_of_In). exists i, r. split; [|by left].
    apply (live_lookup _ Ha Hpr). split; [done|]. destruct (cpu_row_ok _ Ha Hpr i r Hi) as [Hw Ho]. destruct (cpu_real _ _ _ _ Hw Ho) as [E|]; [|done]. exfalso.
    destruct (cpu_dead _ _ _ _ Hw Ho E) as (E1 & E2 & E3). unfold cpu_accs, accs_of in Hin. rewrite E1, E2, E3 in Hin. by apply not_elem_of_nil in Hin.
  - left. apply list_elem_of_In, in_flat_map in H as (row & Hr%list_elem_of_In & Hin%list_elem_of_In). destruct row as [x|x|x|q|y]; cbn [instr_accs] in Hin; try by apply not_elem_of_nil in Hin.
    + apply accs_of_elem in Hin as [Hz ->]. destruct (mem_sender _ Ha Hpr q Hr Hz) as (i & r & ms & (Hi & Er & _) & -> & -> & Hmm & _). exists i, r. split; [by apply live_lookup|].
      right. left. exists q. split; [done|]. split; [|done]. by rewrite Z.add_0_r.
    + apply accs_of_elem in Hin as [Hz ->]. destruct (syscall_sender _ Ha Hpr y Hr Hz) as (i & r & ms & (Hi & Er & _ & _ & Hv & _) & Es & Ec & Hval & _ & Hms). exists i, r. split; [by apply live_lookup|].
      right. right. exists y. split; [done|]. split; [|split; [by rewrite Es, Ec|done]]. destruct (same_message _ _ Hv) as (_ & Eo & _). unfold ecall_row. rewrite <- Eo.
      cbn [instr_calls] in Hms. rewrite syscall_receives_eq in Hms. by apply list_elem_of_singleton in Hms as ->.
  - right. apply list_elem_of_In, in_flat_map in H as (o & Ho%list_elem_of_In & Hin%list_elem_of_In). by exists o.
Qed.

(** What the rows of the remaining chips do: they access memory, not registers,
    during a system call, and leave words. *)
Record other_access (ms : list MemoryShard) (a : MemAccess) : Prop := {
  oa_addr : 32 <= ma_addr a;
  oa_bytes : word_bytes (ma_prev a).2 -> word_bytes (ma_cur a).2;
  oa_time : exists r, r ∈ run_rows ms /\ ecall_row r /\ not_after (starts r) (time_of a) /\ before (time_of a) (ends r)
}.

Record run_ok (prog : Program) (ms : list MemoryShard) : Prop := {
  ro_program : program_ok prog /\ program_forms prog /\ 4 < pc_base prog;
  ro_aligned : pc_base prog mod 4 = 0;
  ro_ecalls : Forall (fun i => opcode i = ECALL -> i = process process_ecall) (instructions prog);
  ro_image : forall addr w, memory_image prog !! addr = Some w -> 32 <= addr;
  ro_others : forall m o a, m ∈ ms -> o ∈ ms_other m -> a ∈ o.2 -> other_access ms a
}.

Section Shards.
  Context {E : Type} (pc_start : Z) (machine_verify : list ShardProof -> option E) (proof : list ShardProof).
  Context (prog : Program) (ms : list MemoryShard) (Hv : verify pc_start machine_verify proof = Accepted) (Hp : proves prog proof ms).

Lemma shard_of m : m ∈ ms -> accepted_memory m /\ accepted_shard (ms_shard m) /\ program_ok (rs_program (ms_shard m)) /\ public_ok m /\ rs_program (ms_shard m) = prog.
Proof using Hp.
  clear Hv. intros Hm. destruct Hp as [_ H1 H2 H3 _]. rewrite Forall_forall in H1. rewrite Forall_forall in H2. rewrite Forall_forall in H3.
  specialize (H1 m Hm). pose proof (am_shard m H1). pose proof (am_program m H1). split_and!; try done; [by apply H2|by apply H3].
Qed.

(** The live rows of a shard go from its start to its next program counter. *)
Lemma shard_flow m : m ∈ ms -> cpu_trace (ms_shard m) <> [] -> pc_flow (CpuChip.start_pc (cpu_pv (ms_shard m))) (live_rows (ms_shard m)) (CpuChip.pv_next_pc (cpu_pv (ms_shard m))).
Proof using Hp.
  clear Hv. intros Hm Hne. destruct (shard_of m Hm) as (_ & Ha & Hpr & Hpub & _). destruct (live_first _ Ha Hpr Hne) as (r & Hr & Es & _).
  pose proof (pv_cpu m Hpub) as F. rewrite !Forall_cons in F. destruct F as (C1 & C2 & _).
  pose proof (live_row_ok _ Ha Hpr _ _ Hr) as (Hw & _). destruct Hw as (_ & _ & _ & _ & F & _). rewrite !Forall_cons in F. destruct F as (_ & _ & _ & _ & _ & Cpc & _). apply eqF_canon in Es; [|done..].
  assert (exists rows, live_rows (ms_shard m) = r :: rows) as [rows El] by (destruct (live_rows (ms_shard m)) as [|? rows]; [done|injection Hr as ->; by exists rows]).
  destruct (pc_flow_rows r rows) as (x & Hx & Hf).
  { intros i y z Hy Hz. rewrite <- El in Hy, Hz. by apply (live_next _ Ha Hpr i y z Hy Hz). }
  rewrite <- El in Hx, Hf. pose proof (live_last _ Ha Hpr x Hx) as En. apply last_Some_elem_of, list_elem_of_lookup in Hx as [i Hi].
  pose proof (live_row_ok _ Ha Hpr _ _ Hi) as (Hw & _). destruct Hw as (_ & _ & _ & _ & F & _). rewrite !Forall_cons in F. destruct F as (_ & _ & _ & _ & _ & _ & Cn & _).
  apply eqF_canon in En; [|done..]. by rewrite Es, En.
Qed.

Lemma no_cpu m p : shows p m -> contains_cpu p = false -> live_rows (ms_shard m) = [].
Proof using. clear. intros Hs Hc. unfold live_rows. destruct (decide (cpu_trace (ms_shard m) = [])) as [-> |Hne]; [done|]. apply (sh_has_cpu p m Hs) in Hne. congruence. Qed.

Lemma flow_from proof' ms' first : Forall2 shows proof' ms' -> (forall m, m ∈ ms' -> m ∈ ms) ->
  every (fun p => next_pc (public_values p)) first proof' (fun before p => start_pc (public_values p) = before /\
    (contains_cpu p = false -> start_pc (public_values p) = next_pc (public_values p)) /\ (contains_cpu p = true -> start_pc (public_values p) <> 0)) ->
  pc_flow first (run_rows ms') (default first ((fun p => next_pc (public_values p)) <$> list.last proof')).
Proof using Hp.
  clear Hv. intros Hs. revert first. induction Hs as [|p m proof' ms' Hpm Hs IH]; intros first Hin He; [done|]. rewrite every_cons in He. destruct He as [(E1 & E2 & _) He].
  change (run_rows (m :: ms')) with (live_rows (ms_shard m) ++ run_rows ms'). apply pc_flow_app. exists (next_pc (public_values p)). split.
  - destruct (contains_cpu p) eqn:Ec.
    + rewrite <- E1. pose proof (shard_flow m (Hin m (list_elem_of_here _ _))) as Hf. rewrite (sh_cpu p m Hpm) in Hf. apply Hf. by apply (sh_has_cpu p m Hpm).
    + rewrite (no_cpu m p Hpm Ec). cbn. by rewrite <- E1, E2.
  - specialize (IH (next_pc (public_values p))). destruct proof' as [|p' proof']; [by apply IH; [intros m' Hm'; apply Hin; right|]|].
    cbn [list.last]. destruct (last_is_Some (p' :: proof')) as [_ [q Hq]]; [done|]. rewrite Hq in *. apply IH; [intros m' Hm'; apply Hin; by right|done].
Qed.

(** The program counters of the run: from the start to the halt. *)
Lemma run_flow : pc_flow pc_start (run_rows ms) 0.
Proof using Hv Hp.
  apply verify_iff in Hv as ((p0 & Hp0 & _) & _ & _ & [He Hl] & _). pose proof (flow_from proof ms pc_start (pr_shows _ _ _ Hp) (fun m H => H) He) as Hf.
  destruct (last_is_Some proof) as [_ [q Hq]]; [by destruct proof|]. rewrite Hq in Hf. cbn in Hf. by rewrite (Hl q Hq) in Hf.
Qed.

(** The execution shards are numbered in order. *)
Lemma cpu_count_take l i p : l !! i = Some p -> contains_cpu p = true -> 1 <= cpu_count (take (S i) l) <= Z.of_nat (length l).
Proof using.
  clear. intros Hi Hc. rewrite (take_S_r _ _ _ Hi). unfold cpu_count. rewrite filter_app, length_app, filter_cons_True by done. cbn [length filter list_filter].
  pose proof (length_filter (fun p => contains_cpu p = true) (take i l)) as Hf. pose proof (lookup_lt_Some _ _ _ Hi). rewrite length_take in Hf. lia.
Qed.

Lemma shard_number i m r : ms !! i = Some m -> r ∈ live_rows (ms_shard m) -> CpuChip.shard r = cpu_count (take (S i) proof).
Proof using Hv Hp.
  intros Hm [j Hj]%list_elem_of_lookup. destruct (shard_of m) as (_ & Ha & Hpr & Hpub & _); [by eapply list_elem_of_lookup_2|]. pose proof (live_row_ok _ Ha Hpr _ _ Hj) as (Hw & Ho & Er & _).
  destruct (cpu_time _ _ _ _ Hw Ho Er) as (Hs & _ & Ee). destruct (Forall2_lookup_r _ _ _ _ _ (pr_shows _ _ _ Hp) Hm) as (p & Hpi & Hpm).
  apply verify_iff in Hv as (_ & _ & [_ Hn] & _ & _ & _ & _ & _ & _ & Hlen & _). assert (contains_cpu p = true) as Hc.
  { apply (sh_has_cpu p m Hpm). intros E0. unfold live_rows in Hj. by rewrite E0 in Hj. }
  specialize (Hn i p Hpi Hc). pose proof (cpu_count_take _ _ _ Hpi Hc) as Hcnt. rewrite Fred_small in Hn by (unfold canon, BABYBEAR; lia).
  rewrite (sh_cpu p m Hpm) in Ee. cbn [CpuChip.execution_shard cpu_public_values] in Ee. rewrite Hn in Ee. apply eqF_small in Ee; unfold BABYBEAR; lia.
Qed.

(** ** No row at address 0 *)

Lemma fetched_above p pc cols : program_ok p -> fetched p pc cols -> pc = 0 /\ cols = InstructionCols.zero \/ pc_base p <= pc.
Proof using.
  clear. intros [_ [Hb Hl]] [(idx & i & Hi & -> & _)|[-> ->]]; [right|by left]. apply lookup_lt_Some in Hi.
  rewrite (u32_small (Z.of_nat idx * 4)) by (apply is_u32_iff; unfold BABYBEAR in *; lia). rewrite u32_small by (apply is_u32_iff; unfold BABYBEAR in *; lia).
  rewrite Fred_small by (unfold canon; lia). lia.
Qed.

Lemma row_of r : r ∈ run_rows ms -> exists m i, m ∈ ms /\ live_rows (ms_shard m) !! i = Some r.
Proof using. clear. intros (m & Hm & [i Hi]%list_elem_of_lookup)%run_rows_elem. by exists m, i. Qed.

Lemma row_fetched r : r ∈ run_rows ms -> fetched prog (CpuChip.pc r) (CpuChip.instruction r).
Proof using Hp.
  clear Hv. intros (m & i & Hm & Hi)%row_of. destruct (shard_of m Hm) as (_ & Ha & Hpr & _ & Epr). pose proof (live_row_ok _ Ha Hpr _ _ Hi) as (_ & _ & _ & Hz).
  apply live_lookup in Hi as [Hi _]; [|done..]. rewrite <- Epr. by apply (cpu_fetched _ Ha Hpr i).
Qed.

(** The row at address 0 is a row of padding of the program table. *)
Lemma zero_row r : r ∈ run_rows ms -> CpuChip.instruction r = InstructionCols.zero -> CpuChip.next_pc r ≡F CpuChip.pc r + DEFAULT_PC_INC.
Proof using Hp.
  clear Hv. intros (m & i & Hm & Hi)%row_of Ez. destruct (shard_of m Hm) as (_ & Ha & Hpr & _ & _). pose proof (live_row_ok _ Ha Hpr _ _ Hi) as (Hw & _ & _ & Hz).
  apply live_lookup in Hi as [Hi _]; [|done..].
  assert (msg_opcode (cpu_message r) = opcode_u32 ADD) as Eo by (unfold msg_opcode, msg, cpu_message; rewrite Ez; reflexivity).
  destruct (cpu_dispatch _ Ha Hpr i r Hi Hz) as [(_ & Hpl & _)|(row & x & _ & _ & _ & _ & Hans)].
  - destruct Hpl as (_ & _ & _ & En & _). unfold msg_next_pc, msg_pc, msg, cpu_message in En. cbn [instruction_values app nth] in En. by rewrite !Fred_eqF in En.
  - exfalso. apply (answers_opcode _ _ _ Eo) in Hans. clear - Hans. destruct row; cbn in Hans; intuition discriminate.
Qed.

Lemma no_zero_pc : program_ok prog -> 4 < pc_base prog -> forall r, r ∈ run_rows ms -> CpuChip.pc r <> 0.
Proof using Hv Hp.
  intros Hpr Hb. pose proof run_flow as Hf. assert (forall r, r ∈ run_rows ms -> r ∈ run_rows ms) as Hsub by done. revert Hf Hsub. generalize pc_start as pc. generalize (run_rows ms) at 1 2 4 as rows.
  induction rows as [|r rows IH]; intros pc Hf Hsub r'; [by intros ?%not_elem_of_nil|]. destruct Hf as [_ Hf].
  intros [->|Hr]%elem_of_cons; [|by apply (IH _ Hf); [intros x Hx; apply Hsub; by right|]]. intros Ez.
  pose proof (Hsub r (list_elem_of_here _ _)) as Hin. destruct (fetched_above _ _ _ Hpr (row_fetched r Hin)) as [[_ Ec]|]; [|lia].
  pose proof (zero_row r Hin Ec) as En. rewrite Ez in En. pose proof (row_of r Hin) as (m & i & Hm & Hi). destruct (shard_of m Hm) as (_ & Ha & Hpr' & _). pose proof (live_row_ok _ Ha Hpr' _ _ Hi) as (Hw & _).
  destruct Hw as (_ & _ & _ & _ & F & _). rewrite !Forall_cons in F. destruct F as (_ & _ & _ & _ & _ & _ & Cn & _).
  apply eqF_canon in En; [|done|unfold canon, BABYBEAR, DEFAULT_PC_INC; lia]. change (0 + DEFAULT_PC_INC) with 4 in En.
  destruct rows as [|r2 rows]; [cbn in Hf; lia|]. destruct Hf as [E2 _]. destruct (fetched_above _ _ _ Hpr (row_fetched r2 (Hsub r2 ltac:(right; left)))) as [[? _]|]; lia.
Qed.

(** ** Words are bytes, and register 0 is zero *)

Context (Hr : run_ok prog ms).

Definition good_word (addr : Z) (w : Word) : Prop := word_bytes w /\ (addr = 0 -> w = word_zero).

Lemma source a : a ∈ all_accs ms -> exists m, m ∈ ms /\
  ((exists i r, live_rows (ms_shard m) !! i = Some r /\ (a ∈ cpu_accs r \/ mem_access m r a \/ syscall_access m r a)) \/ other_access ms a).
Proof using Hp Hr.
  clear Hv. intros (m & Hm%list_elem_of_In & Ha%list_elem_of_In)%list_elem_of_In%in_flat_map. exists m. split; [done|]. destruct (shard_of m Hm) as (Hacc & _).
  destruct (shard_source m a Hacc Ha) as [|(o & Ho & Hin)]; [by left|right]. by apply (ro_others _ _ Hr m o).
Qed.

(** The instruction of a row. *)
Lemma row_instruction r : r ∈ run_rows ms -> exists i, fetch prog (CpuChip.pc r) = Some i /\ i ∈ instructions prog /\ CpuChip.instruction r = InstructionCols.populate i /\
  wf_instruction i /\ form_ok i = true /\ 0 < CpuChip.pc r /\ CpuChip.pc r + 4 < BABYBEAR.
Proof using Hv Hp Hr.
  intros Hin. destruct (ro_program _ _ Hr) as (Hpr & Hforms & Hb). destruct (fetched_at _ _ _ Hpr (row_fetched r Hin) (no_zero_pc Hpr Hb r Hin)) as (i & Hf & Hi & Hc & Hpc).
  exists i. unfold program_forms in Hforms. pose proof (po_instructions _ Hpr) as Hw. rewrite Forall_forall in Hw. rewrite Forall_forall in Hforms. split_and!; try done; [by apply Hw|by apply Hforms|lia..].
Qed.

Lemma row_aligned r : r ∈ run_rows ms -> CpuChip.pc r mod 4 = 0.
Proof using Hv Hp Hr. intros Hin. destruct (ro_program _ _ Hr) as (Hpr & _). exact (fetched_aligned _ _ _ Hpr (ro_aligned _ _ Hr) (row_fetched r Hin)). Qed.

Lemma live_run m i r : m ∈ ms -> live_rows (ms_shard m) !! i = Some r -> r ∈ run_rows ms.
Proof using. clear. intros Hm Hi. apply run_rows_elem. exists m. split; [done|]. by eapply list_elem_of_lookup_2. Qed.

(** The operands of a row. *)
Lemma live_operands m n r i : m ∈ ms -> live_rows (ms_shard m) !! n = Some r -> CpuChip.instruction r = InstructionCols.populate i ->
  word_bytes (CpuChip.op_a_val r) /\ (op_a i = 0 -> CpuChip.op_a_val r = word_zero).
Proof using Hp.
  clear Hv Hr. intros Hm Hn Hc. destruct (shard_of m Hm) as (_ & Ha & Hpr & _). pose proof (live_row_ok _ Ha Hpr _ _ Hn) as (_ & _ & _ & Hz). apply live_lookup in Hn as [Hn _]; [|done..].
  destruct (row_operands _ Ha Hpr n r Hn Hz i Hc) as (H1 & _ & _ & H2 & _). done.
Qed.

Lemma image_good x : x ∈ all_inits prog ms -> good_word (mm_addr x) (mm_word x).
Proof using Hv Hp Hr.
  unfold all_inits. rewrite elem_of_app. intros [Hx|Hx].
  - apply list_elem_of_In, in_map_iff in Hx as ([addr w] & <- & Hin%list_elem_of_In%elem_of_map_to_list). cbn. split; [apply word_from_bytes|]. intros ->. by apply (ro_image _ _ Hr) in Hin.
  - destruct (messages_sorted Initialize ms (pr_shards _ _ _ Hp) (pr_public _ _ _ Hp) (proof_linked pc_start machine_verify proof prog ms Hv Hp Initialize)) as [Hs Hz].
    change (x ∈ flat_map (fun m => map (row_msg Initialize) (real_rows (table_of Initialize m).2)) ms) in Hx. split.
    + apply list_elem_of_In, in_flat_map in Hx as (m & Hm%list_elem_of_In & Hx). apply in_map_iff in Hx as (r & <- & Hin%list_elem_of_In). unfold real_rows in Hin. apply list_elem_of_filter in Hin as [_ Hin].
      destruct (shard_of m Hm) as (Hacc & _). destruct (am_wf m Hacc) as (_ & Wi & _). pose proof (am_hold m Hacc) as Hh. unfold memory_rows in Hh. rewrite !Forall_app in Hh. destruct Hh as (_ & Hi & _).
      by apply (row_msg_canon Initialize _ _ Wi Hi).
    + intros E0. destruct Hz as [E1|(y & rest & E1 & Ey & Ew)]; rewrite E1 in Hx; [by apply not_elem_of_nil in Hx|]. apply elem_of_cons in Hx as [-> |Hx]; [done|exfalso].
      rewrite E1 in Hs. cbn [map] in Hs. inversion_clear Hs as [|? ? _ Hlt]. rewrite Forall_map, Forall_forall in Hlt. specialize (Hlt x Hx). lia.
Qed.

Lemma access_good a : a ∈ all_accs ms -> good_word (ma_addr a) (ma_prev a).2 -> good_word (ma_addr a) (ma_cur a).2.
Proof using Hv Hp Hr.
  intros (m & Hm & [(n & r & Hn & Hc)|Ho])%source Hg.
  2: { split; [apply (oa_bytes _ _ Ho), Hg|]. intros E0. pose proof (oa_addr _ _ Ho). lia. }
  pose proof (live_run m n r Hm Hn) as Hin. destruct (row_instruction r Hin) as (i & _ & _ & Hcols & _). destruct (live_operands m n r i Hm Hn Hcols) as [Wa Wz].
  destruct Hc as [Hc|[(q & _ & -> & Hmm)|(y & _ & _ & -> & Ev)]].
  - unfold cpu_accs in Hc. rewrite !elem_of_app in Hc. destruct Hc as [Hc|[Hc|Hc]]; apply accs_of_elem in Hc as [_ ->]; [exact Hg|exact Hg|]. cbn in *. split; [done|]. rewrite Hcols. cbn. exact Wz.
  - cbn [acc_of ma_addr ma_prev ma_cur fst snd] in *. destruct Hg as [Wp _]. destruct Hmm as (o & addr & Ho & _ & _ & Hrange & -> & _ & Hk). split; [|Z.div_mod_to_equations; lia].
    case_bool_decide; [by destruct Hk as (_ & -> & _)|]. destruct Hk as [_ Hk]. apply Hk; [|done].
    destruct (shard_of m Hm) as (_ & Ha & Hpr & _). pose proof (live_row_ok _ Ha Hpr _ _ Hn) as (Hw & _). by destruct (cpu_message_fields r Hw) as (_ & _ & _ & -> & _).
  - cbn in *. rewrite Ev. split; [done|]. discriminate.
Qed.

Lemma memory_good t addr : good_word addr (memory_at prog ms t addr).
Proof using Hv Hp Hr.
  apply (memory_invariant pc_start machine_verify proof prog ms Hv Hp good_word); [exact image_good| |exact access_good]. intros addr' _. by split.
Qed.

(** ** The rows are in order *)

Lemma syscall_code_at m n r y : m ∈ ms -> live_rows (ms_shard m) !! n = Some r -> ecall_served (ms_shard m) r y ->
  acc_of (CpuChip.shard r) (CpuChip.clk r + 3) (reg_idx X5) (SyscallInstrsChip.op_a_access y) ∈ all_accs ms /\ word_bytes (SyscallInstrsChip.syscall_code y).
Proof using Hv Hp Hr.
  intros Hm Hn [Hy Hz [Es Ec] _]. assert (acc_of (CpuChip.shard r) (CpuChip.clk r + 3) (reg_idx X5) (SyscallInstrsChip.op_a_access y) ∈ all_accs ms) as Hin.
  { apply list_elem_of_In, in_flat_map. exists m. split; [by apply list_elem_of_In|]. apply list_elem_of_In. unfold shard_accs. rewrite !elem_of_app. right. left.
    apply list_elem_of_In, in_flat_map. exists (SyscallRow y). split; [by apply list_elem_of_In|]. cbn [instr_accs]. unfold accs_of. rewrite decide_False by done. rewrite Es, Ec. by left. }
  split; [done|]. pose proof (memory_found pc_start machine_verify proof prog ms Hv Hp _ Hin) as Hf. cbn [acc_of ma_prev snd] in Hf.
  unfold SyscallInstrsChip.syscall_code. rewrite <- Hf. apply memory_good.
Qed.

Lemma extra_cycles m n r : m ∈ ms -> live_rows (ms_shard m) !! n = Some r -> 0 <= CpuChip.num_extra_cycles r < 256.
Proof using Hv Hp Hr.
  intros Hm Hn. destruct (shard_of m Hm) as (_ & Ha & Hpr & Hpub & _). pose proof (live_row_ok _ Ha Hpr _ _ Hn) as (Hw & _).
  destruct (row_class _ Ha Hpr n r (pv_digests m Hpub) Hn) as [(_ & _ & ->)|(_ & _ & y & Hy)]; [done|]. destruct (syscall_code_at m n r y Hm Hn Hy) as [_ (_ & _ & B & _)].
  pose proof (em_cycles _ _ _ _ (es_message _ _ _ Hy)) as E4. destruct (cpu_message_fields r Hw) as (_ & _ & F4 & _). rewrite F4 in E4. rewrite E4. by apply is_u8_iff in B.
Qed.

Lemma cpu_count_mono l i j p : (i < j)%nat -> l !! j = Some p -> contains_cpu p = true -> cpu_count (take (S i) l) < cpu_count (take (S j) l).
Proof using.
  clear. intros Hij Hj Hc. rewrite (take_S_r _ _ _ Hj). assert (take j l = take (S i) l ++ take (j - S i) (drop (S i) l)) as ->.
  { rewrite <- (take_drop (S i) l) at 1. rewrite take_app. rewrite length_take. pose proof (lookup_lt_Some _ _ _ Hj). rewrite Nat.min_l by lia. f_equal. rewrite take_ge; [done|]. rewrite length_take. lia. }
  unfold cpu_count. rewrite !filter_app, !length_app. rewrite (filter_cons_True _ p) by done. cbn [length]. lia.
Qed.

Lemma run_sorted : StronglySorted follows (run_rows ms).
Proof using Hv Hp Hr.
  apply sorted_flat_map.
  - intros m Hm. destruct (shard_of m Hm) as (_ & Ha & Hpr & _). apply Sorted_StronglySorted; [apply follows_trans|]. apply Sorted_lookup. intros n r r' Hn Hn'.
    destruct (live_next _ Ha Hpr n r r' Hn Hn') as [_ Ec]. specialize (Ec (extra_cycles m n r Hm Hn)). split; [|apply (extra_cycles m _ r' Hm Hn')].
    apply list_elem_of_lookup in Hm as [k Hk]. rewrite not_after_iff. cbn. rewrite !(shard_number k m) by (done || by eapply list_elem_of_lookup_2). lia.
  - intros k k' m m' Hk Hm Hm' r r' Hin Hin'. pose proof (list_elem_of_lookup_2 _ _ _ Hm') as Hme. pose proof Hin' as [n' Hn']%list_elem_of_lookup. split; [|apply (extra_cycles m' n' r' Hme Hn')].
    rewrite not_after_iff. cbn. rewrite (shard_number k m r Hm Hin), (shard_number k' m' r' Hm' Hin').
    destruct (Forall2_lookup_r _ _ _ _ _ (pr_shows _ _ _ Hp) Hm') as (p & Hpi & Hpm). left. apply (cpu_count_mono _ _ _ p Hk Hpi). apply (sh_has_cpu p m' Hpm). intros E0. unfold live_rows in Hn'. by rewrite E0 in Hn'.
Qed.

(** ** One row at a time *)

Definition during (r : CpuChip.CpuCols) (t : Z * Z) : Prop := not_after (starts r) t /\ before t (ends r).

Lemma during_iff r t : during r t <-> t.1 = CpuChip.shard r /\ CpuChip.clk r <= t.2 < CpuChip.clk r + 4 + CpuChip.num_extra_cycles r.
Proof using. clear. unfold during. rewrite not_after_iff. unfold before. cbn. lia. Qed.

Lemma one_row j j' r r' t : run_rows ms !! j = Some r -> run_rows ms !! j' = Some r' -> during r t -> during r' t -> j = j'.
Proof using Hv Hp Hr.
  intros Hj Hj' [H1 H2] [H1' H2']. pose proof run_sorted as Hs. destruct (Nat.lt_total j j') as [Hlt|[|Hlt]]; [exfalso|done|exfalso].
  - destruct (StronglySorted_lookup_lt _ _ _ _ _ _ Hs Hj Hj' Hlt) as [Hf _]. rewrite not_after_iff in *. unfold before in *. lia.
  - destruct (StronglySorted_lookup_lt _ _ _ _ _ _ Hs Hj' Hj Hlt) as [Hf _]. rewrite not_after_iff in *. unfold before in *. lia.
Qed.

Lemma run_same r r' t : r ∈ run_rows ms -> r' ∈ run_rows ms -> during r t -> during r' t -> r = r'.
Proof using Hv Hp Hr.
  intros [j Hj]%list_elem_of_lookup [j' Hj']%list_elem_of_lookup H H'. rewrite (one_row j j' r r' t Hj Hj' H H') in Hj. congruence.
Qed.

Lemma row_during m n r a : m ∈ ms -> live_rows (ms_shard m) !! n = Some r -> a ∈ cpu_accs r \/ mem_access m r a \/ syscall_access m r a -> during r (time_of a).
Proof using Hv Hp Hr.
  intros Hm Hn Hc. pose proof (extra_cycles m n r Hm Hn). rewrite during_iff. unfold cpu_accs in Hc. rewrite !elem_of_app in Hc.
  destruct Hc as [[Hc|[Hc|Hc]]|[(q & _ & -> & _)|(y & _ & _ & -> & _)]]; try (apply accs_of_elem in Hc as [_ ->]); cbn; lia.
Qed.

Lemma access_during a : a ∈ all_accs ms -> exists r, r ∈ run_rows ms /\ during r (time_of a).
Proof using Hv Hp Hr.
  intros (m & Hm & [(n & r & Hn & Hc)|[_ _ (r & Hin & _ & H1 & H2)]])%source; [|by exists r]. exists r. split; [by apply (live_run m n)|by apply (row_during m n)].
Qed.

(** The accesses during an instruction that is not a system call. *)
Lemma row_accesses r a : r ∈ run_rows ms -> ~ ecall_row r -> a ∈ all_accs ms -> during r (time_of a) -> a ∈ cpu_accs r \/ exists m, mem_access m r a.
Proof using Hv Hp Hr.
  intros Hin Hne (m & Hm & [(n & r' & Hn & Hc)|[_ _ (r' & Hin' & He & H1 & H2)]])%source Hd.
  - assert (r = r') as <- by (apply (run_same r r' (time_of a)); [done|by apply (live_run m n)|done|by apply (row_during m n)]).
    destruct Hc as [Hc|[Hc|(y & _ & He & _)]]; [by left|right; by exists m|done].
  - exfalso. assert (r = r') as <- by (by apply (run_same r r' (time_of a))). done.
Qed.
End Shards.
