(* ===== verification/CoreRun.v ===== *)
(** * The run of a core proof

    The rows of the Cpu chip of all shards, in order, are a run of the RV32IM
    machine: each takes the registers and the memory at its time to those at the
    time of the next row, from the start of the program to its halt. *)

From Stdlib Require Import ZArith Lia Bool Permutation Sorted.
From stdpp Require Import base list gmap sorting.
From S2P Require Import Prelude Isa SyscallCode Memory Events ByteLookup Record Alu Dependencies State Executor Access Refinement AirBuilder ByteTable.
From S2P Require Import MemoryAir Operations ChipSpec Lookup AluMachine TraceGen ControlFlow MemInstrChip CpuChip SyscallInstrChip InstrRows RiscvMachine.
From S2P Require Import RiscvStep MemoryCheck MemoryLocalChip MemoryGlobalChip CoreVerify MemoryBus CoreMemory CoreRows.

Import CoreVerify.

Local Open Scope Z_scope.
Local Open Scope rv_scope.

(** ** The machine at a time *)

(** Registers are the words at addresses below 32, memory the other words. *)
Definition machine_at (prog : Program) (ms : list MemoryShard) (t : Z * Z) (pc : Z) : RvState :=
  mkRvState (fun x => to_u32 (memory_at prog ms t (reg_idx x)))
    (fun a => if 32 <=? a / 4 * 4 then to_u32 (memory_at prog ms t (a / 4 * 4)) else 0) pc.

Lemma reg_idx_of z : 0 <= z < 32 -> reg_idx (reg_of z) = z.
Proof. intros Hz. unfold reg_of. by destruct (reg_from_u8_ok z Hz) as (x & -> & ?). Qed.

Section Row.
  Context {E : Type} (pc_start : Z) (machine_verify : list ShardProof -> option E) (proof : list ShardProof).
  Context (prog : Program) (ms : list MemoryShard) (Hv : verify pc_start machine_verify proof = Accepted) (Hp : proves prog proof ms) (Hr : run_ok prog ms).
  Abbreviation M := (memory_at prog ms).

(** Accesses that leave the word they found. *)
Lemma memory_kept addr s c : (forall a, a ∈ all_accs ms -> ma_addr a = addr -> time_of a = (s, c) -> (ma_cur a).2 = (ma_prev a).2) -> M (s, c + 1) addr = M (s, c) addr.
Proof using Hv Hp.
  clear Hr. intros Hk. destruct (filter (fun a => ma_addr a = addr /\ time_of a = (s, c)) (all_accs ms)) as [|a l] eqn:Ef.
  - apply (memory_same pc_start machine_verify proof prog ms Hv Hp). intros a Ha Ea Et. assert (a ∈ filter (fun a => ma_addr a = addr /\ time_of a = (s, c)) (all_accs ms)) as Hin by (by apply list_elem_of_filter).
    rewrite Ef in Hin. by apply not_elem_of_nil in Hin.
  - assert (a ∈ filter (fun a => ma_addr a = addr /\ time_of a = (s, c)) (all_accs ms)) as [[Ea Et] Ha]%list_elem_of_filter by (rewrite Ef; left).
    rewrite <- Ea. rewrite (memory_left pc_start machine_verify proof prog ms Hv Hp a s c Ha Et), <- Et, (memory_found pc_start machine_verify proof prog ms Hv Hp a Ha). by apply Hk.
Qed.

Context (m : MemoryShard) (n : nat) (r : CpuChip.CpuCols) (Hm : m ∈ ms) (Hn : live_rows (ms_shard m) !! n = Some r) (Hne : ~ ecall_row r).
Context (i : Instruction) (Hc : CpuChip.instruction r = InstructionCols.populate i) (Hwi : wf_instruction i) (Hform : form_ok i = true).
Abbreviation S := (CpuChip.shard r).
Abbreviation C := (CpuChip.clk r).

Lemma row_quiet : CpuChip.is_syscall r = 0 /\ CpuChip.num_extra_cycles r = 0.
Proof using Hp Hm Hn Hne.
  clear Hv Hr Hc Hwi Hform. destruct (shard_of proof prog ms Hp m Hm) as (_ & Ha & Hpr & Hpub & _). destruct (row_class _ Ha Hpr n r (pv_digests m Hpub) Hn) as [(_ & ? & ?)|[? _]]; done.
Qed.

Lemma row_at a k : a ∈ all_accs ms -> time_of a = (S, C + k) -> 0 <= k < 4 -> a ∈ cpu_accs r \/ exists m, mem_access m r a.
Proof using Hv Hp Hr Hm Hn Hne.
  clear Hc Hwi Hform. intros Ha Et Hk. apply (row_accesses pc_start machine_verify proof prog ms Hv Hp Hr r a); [by apply (live_run ms m n)|done..|].
  rewrite during_iff, Et. destruct row_quiet as [_ ->]. cbn. lia.
Qed.

(** Operands B and C are read, so that the words stay from the second to the
    last access of the row. *)
Lemma reads_keep addr : M (S, C + 3) addr = M (S, C + 1) addr /\ M (S, C + 2) addr = M (S, C + 1) addr.
Proof using Hv Hp Hr Hm Hn Hne.
  assert (forall k, k = 1 \/ k = 2 -> M (S, C + k + 1) addr = M (S, C + k) addr) as Hk.
  { intros k Hk. apply memory_kept. intros a Ha _ Et. destruct (row_at a k Ha Et ltac:(lia)) as [Hin|(m' & q & _ & -> & _)].
    - unfold cpu_accs in Hin. rewrite !elem_of_app in Hin. destruct Hin as [Hin|[Hin|Hin]]; apply accs_of_elem in Hin as [_ ->]; try done.
      exfalso. injection Et as Et. change (position_u32 PA) with 3 in Et. lia.
    - exfalso. injection Et as Et. lia. }
  pose proof (Hk 1 ltac:(by left)) as E1. pose proof (Hk 2 ltac:(by right)) as E2. replace (C + 1 + 1) with (C + 2) in E1 by lia. replace (C + 2 + 1) with (C + 3) in E2 by lia. by rewrite E2, E1.
Qed.

(** The access to operand A. *)
Abbreviation a_access := (acc_of S (C + 3) (op_a i) (CpuChip.op_a_access r)).

Lemma in_accs a : a ∈ cpu_accs r -> a ∈ all_accs ms.
Proof using Hp Hm Hn.
  clear Hv Hr Hne Hc Hwi Hform. intros Ha. destruct (shard_of proof prog ms Hp m Hm) as (_ & Hacc & Hpr & _). apply live_lookup in Hn as [Hi _]; [|done..].
  apply list_elem_of_In, in_flat_map. exists m. split; [by apply list_elem_of_In|]. apply list_elem_of_In. unfold shard_accs. rewrite !elem_of_app. left.
  apply list_elem_of_In, in_flat_map. exists r. split; [|by apply list_elem_of_In]. apply list_elem_of_In. by eapply list_elem_of_lookup_2.
Qed.

Lemma a_accessed : a_access ∈ all_accs ms.
Proof using Hp Hm Hn Hne Hc.
  apply in_accs. unfold cpu_accs. rewrite !elem_of_app. right. right. destruct row_quiet as [-> _]. unfold accs_of. rewrite decide_False by done. rewrite Hc. by left.
Qed.

Lemma register_kept addr : addr < 32 -> M (S, C + 1) addr = M (S, C) addr.
Proof using Hv Hp Hr Hm Hn Hne.
  clear Hc Hwi Hform. intros Haddr. apply memory_kept. intros a Ha Ea Et. rewrite <- (Z.add_0_r C) in Et. destruct (row_at a 0 Ha Et ltac:(lia)) as [Hin|(m' & q & _ & -> & Hmm)].
  - exfalso. unfold cpu_accs in Hin. rewrite !elem_of_app in Hin. destruct Hin as [Hin|[Hin|Hin]]; apply accs_of_elem in Hin as [_ ->]; injection Et as Et; cbn in Et; lia.
  - exfalso. destruct Hmm as (o & ad & _ & _ & _ & Hrange & Eal & _). cbn in Ea. Z.div_mod_to_equations. lia.
Qed.

Lemma a_found : prev_value (CpuChip.op_a_access r) = M (S, C) (op_a i).
Proof using Hv Hp Hr Hm Hn Hne Hc Hwi.
  pose proof (memory_found pc_start machine_verify proof prog ms Hv Hp _ a_accessed) as Hf. cbn [acc_of ma_cur ma_addr ma_prev fst snd] in Hf. rewrite <- Hf.
  destruct (reads_keep (op_a i)) as [-> _]. apply register_kept. destruct Hwi as ((_ & ?) & _). done.
Qed.

Lemma a_left addr : M (S, C + 4) addr = if addr =? op_a i then CpuChip.op_a_val r else M (S, C + 1) addr.
Proof using Hv Hp Hr Hm Hn Hne Hc.
  replace (C + 4) with (C + 3 + 1) by lia. destruct (Z.eqb_spec addr (op_a i)) as [-> |Hx].
  - exact (memory_left pc_start machine_verify proof prog ms Hv Hp a_access S (C + 3) a_accessed eq_refl).
  - destruct (reads_keep addr) as [<- _]. apply memory_kept. intros a Ha Ea Et. exfalso. destruct (row_at a 3 Ha Et ltac:(lia)) as [Hin|(m' & q & _ & -> & _)].
    + unfold cpu_accs in Hin. rewrite !elem_of_app in Hin. destruct Hin as [Hin|[Hin|Hin]]; apply accs_of_elem in Hin as [_ ->]; [injection Et as Et; cbn in Et; lia..|]. apply Hx. rewrite <- Ea. cbn. by rewrite Hc.
    + injection Et as Et. lia.
Qed.

(** Operands B and C. *)
Lemma b_found : imm_b i = false -> CpuChip.op_b_val r = M (S, C + 1) (u8 (op_b i)).
Proof using Hv Hp Hr Hm Hn Hne Hc.
  intros Hb. assert (acc_of S (C + 2) (u8 (op_b i)) (CpuChip.op_b_access r) ∈ all_accs ms) as Hin.
  { apply in_accs. unfold cpu_accs. rewrite !elem_of_app. left. unfold accs_of. rewrite Hc. cbn [InstructionCols.populate InstructionCols.imm_b]. rewrite Hb. cbn [from_bool]. rewrite decide_False by done. by left. }
  pose proof (memory_found pc_start machine_verify proof prog ms Hv Hp _ Hin) as Hf. cbn [acc_of ma_cur ma_addr ma_prev fst snd] in Hf. rewrite (proj2 (reads_keep _)) in Hf. by rewrite Hf.
Qed.

Lemma c_found : imm_c i = false -> CpuChip.op_c_val r = M (S, C + 1) (u8 (op_c i)).
Proof using Hv Hp Hr Hm Hn Hne Hc.
  intros Hb. assert (acc_of S (C + 1) (u8 (op_c i)) (CpuChip.op_c_access r) ∈ all_accs ms) as Hin.
  { apply in_accs. unfold cpu_accs. rewrite !elem_of_app. right. left. unfold accs_of. rewrite Hc. cbn [InstructionCols.populate InstructionCols.imm_c]. rewrite Hb. cbn [from_bool]. rewrite decide_False by done. by left. }
  pose proof (memory_found pc_start machine_verify proof prog ms Hv Hp _ Hin) as Hf. cbn [acc_of ma_cur ma_addr ma_prev fst snd] in Hf. by rewrite Hf.
Qed.

(** The row of the MemoryInstrs chip. *)
Lemma mem_found q : MemRow q ∈ instr_trace (ms_shard m) -> MemoryInstructionsChip.is_real q = 1 -> MemoryInstructionsChip.shard q = S -> MemoryInstructionsChip.clk q = C ->
  prev_value (MemoryInstructionsChip.memory_access q) = M (S, C) (MemoryInstructionsChip.addr_aligned q) /\
  (forall addr, M (S, C + 1) addr = if addr =? MemoryInstructionsChip.addr_aligned q then value (MemoryInstructionsChip.memory_access q) else M (S, C) addr) /\
  32 <= MemoryInstructionsChip.addr_aligned q /\ MemoryInstructionsChip.addr_aligned q mod 4 = 0.
Proof using Hv Hp Hr Hm Hn Hne.
  clear Hc Hwi Hform. intros Hq Er Es Ec. set (a := acc_of S C (MemoryInstructionsChip.addr_aligned q) (MemoryInstructionsChip.memory_access q)).
  assert (a ∈ all_accs ms) as Hin.
  { apply list_elem_of_In, in_flat_map. exists m. split; [by apply list_elem_of_In|]. apply list_elem_of_In. unfold shard_accs. rewrite !elem_of_app. right. left.
    apply list_elem_of_In, in_flat_map. exists (MemRow q). split; [by apply list_elem_of_In|]. cbn [instr_accs]. unfold accs_of. rewrite Er, decide_False by done. rewrite Es, Ec. change (position_u32 PMemory) with 0. rewrite Z.add_0_r. by left. }
  assert (forall b, b ∈ all_accs ms -> time_of b = (S, C) -> ma_addr b = MemoryInstructionsChip.addr_aligned q /\ 32 <= ma_addr b /\ ma_addr b mod 4 = 0) as Hsame.
  { assert (forall b, b ∈ all_accs ms -> time_of b = (S, C) -> exists ad, ad = to_u32 (msg_b (cpu_message r)) +u to_u32 (msg_c (cpu_message r)) /\ 32 <= ad /\ ma_addr b = ad - ad mod 4) as Hb.
    { intros b Hb Et. rewrite <- (Z.add_0_r C) in Et. destruct (row_at b 0 Hb Et ltac:(lia)) as [Hin'|(m' & q' & _ & -> & Hmm)].
      - exfalso. unfold cpu_accs in Hin'. rewrite !elem_of_app in Hin'. destruct Hin' as [Hin'|[Hin'|Hin']]; apply accs_of_elem in Hin' as [_ ->]; injection Et as Et; cbn in Et; lia.
      - destruct Hmm as (o & ad & _ & _ & Ead & Hrange & Eal & _). exists ad. split_and!; [done|lia|done]. }
    intros b Hbin Et. destruct (Hb b Hbin Et) as (ad & -> & Hrange & Eal), (Hb a Hin eq_refl) as (ad' & -> & _ & Eal'). cbn [a acc_of ma_addr] in Eal'. rewrite Eal, Eal'. split_and!; [done|Z.div_mod_to_equations; lia|].
    Z.div_mod_to_equations. lia. }
  split; [symmetry; exact (memory_found pc_start machine_verify proof prog ms Hv Hp a Hin)|]. split; [|by apply (Hsame a Hin)]. intros addr. destruct (Z.eqb_spec addr (MemoryInstructionsChip.addr_aligned q)) as [-> |Hx].
  - exact (memory_left pc_start machine_verify proof prog ms Hv Hp a S C Hin eq_refl).
  - apply memory_kept. intros b Hb Eb Et. exfalso. apply Hx. rewrite <- Eb. by apply (Hsame b Hb Et).
Qed.

Lemma no_mem_row : is_memory_load_instruction i || is_memory_store_instruction i = false -> forall addr, M (S, C + 1) addr = M (S, C) addr.
Proof using Hv Hp Hr Hm Hn Hne Hc.
  clear Hwi Hform. intros Hi addr. apply memory_kept. intros a Ha _ Et. exfalso. rewrite <- (Z.add_0_r C) in Et. destruct (row_at a 0 Ha Et ltac:(lia)) as [Hin|(m' & q & _ & -> & Hmm)].
  - unfold cpu_accs in Hin. rewrite !elem_of_app in Hin. destruct Hin as [Hin|[Hin|Hin]]; apply accs_of_elem in Hin as [_ ->]; injection Et as Et; cbn in Et; lia.
  - destruct Hmm as (o & _ & Ho & Eo & _). destruct (shard_of proof prog ms Hp m Hm) as (_ & Hacc & Hpr & _). pose proof (live_row_ok _ Hacc Hpr _ _ Hn) as (_ & _ & _ & Hz). apply live_lookup in Hn as [Hn' _]; [|done..].
    destruct (row_message _ Hacc Hpr n r Hn' Hz i Hc) as (_ & _ & Eo' & _). rewrite Eo' in Eo. apply (inj opcode_u32) in Eo as <-.
    clear - Hi Ho. unfold is_memory_load_instruction, is_memory_store_instruction, mem_opcodes in *. cbn in Ho. destruct (opcode i); try discriminate Hi; intuition discriminate.
Qed.

Context (Hfetch : fetch prog (CpuChip.pc r) = Some i).

Lemma row_opcode : In (opcode i) (alu_opcodes ++ branch_opcodes ++ jump_opcodes ++ [AUIPC] ++ mem_opcodes).
Proof using Hp Hm Hn Hne Hc.
  clear Hv Hr Hwi Hform Hfetch. destruct (shard_of proof prog ms Hp m Hm) as (_ & Hacc & Hpr & _). pose proof (live_row_ok _ Hacc Hpr _ _ Hn) as (_ & _ & _ & Hz). apply live_lookup in Hn as [Hn' _]; [|done..].
  destruct (row_message _ Hacc Hpr n r Hn' Hz i Hc) as (_ & _ & Eo & _). rewrite !in_app_iff. unfold ecall_row in Hne.
  destruct (cpu_dispatch _ Hacc Hpr n r Hn' Hz) as [(Ha & _)|(row & ? & _ & _ & _ & _ & Ha)]; apply (answers_opcode _ _ _ Eo) in Ha; [by left|]. clear - Ha Hne Eo.
  destruct row; cbn [instr_opcodes] in Ha; [tauto..|]. exfalso. destruct Ha as [Ha|[]]. apply Hne. by rewrite Eo, <- Ha.
Qed.

Lemma register_b : imm_b i = false -> 0 <= op_b i < 32.
Proof using Hp Hm Hn Hne Hc Hwi Hform.
  clear Hv Hr Hfetch. intros Hb. pose proof row_opcode as Ho. destruct Hwi as (_ & [Ub _]%is_u32_iff & _ & Hreg & _). split; [done|]. apply Hreg. clear - Hb Ho Hform.
  unfold uses_reg_b, form_ok, is_alu_instruction, is_jump_instruction, is_auipc_instruction, is_memory_load_instruction, is_memory_store_instruction, is_branch_instruction in *. rewrite Hb in *. cbn in Ho.
  destruct (opcode i); try done; intuition discriminate.
Qed.

Lemma registers_below z : 0 <= z < 32 -> u8 z = z /\ reg_idx (reg_of z) = z.
Proof using. clear. intros Hz. split; [apply u8_small, is_u8_iff; lia|by apply reg_idx_of]. Qed.

(** The machine at the time of the row holds what the row found. *)
Lemma machine_found q : (forall q', q = Some q' -> MemRow q' ∈ instr_trace (ms_shard m) /\ MemoryInstructionsChip.is_real q' = 1 /\ MemoryInstructionsChip.shard q' = S /\ MemoryInstructionsChip.clk q' = C) ->
  row_found i r q (machine_at prog ms (S, C) (CpuChip.pc r)).
Proof using Hv Hp Hr Hm Hn Hne Hc Hwi Hform.
  clear Hfetch. intros Hq. pose proof (memory_good pc_start machine_verify proof prog ms Hv Hp Hr) as Hg. destruct Hwi as (Ha & _ & [Uc _]%is_u32_iff & _ & Hrc).
  constructor; cbn [machine_at rv_pc rv_regs rv_mem]; [done|..].
  - destruct (Hg (S, C) (reg_idx X0)) as [_ ->]; done.
  - rewrite reg_idx_of by done. rewrite a_found. split; [apply Hg|done].
  - intros Hb. pose proof (register_b Hb) as Rb. destruct (registers_below _ Rb) as [E1 E2]. rewrite (b_found Hb), E1, E2, register_kept by lia. split; [apply Hg|done].
  - intros Hb. assert (0 <= op_c i < 32) as Rc by (split; [done|by apply Hrc]). destruct (registers_below _ Rc) as [E1 E2]. rewrite (c_found Hb), E1, E2, register_kept by lia. split; [apply Hg|done].
  - intros q' ->. destruct (Hq q' eq_refl) as (H1 & H2 & H3 & H4). destruct (mem_found q' H1 H2 H3 H4) as (-> & _ & Hal & Hmod). split; [apply Hg|]. intros a Ea.
    rewrite Ea. assert (MemoryInstructionsChip.addr_aligned q' / 4 * 4 = MemoryInstructionsChip.addr_aligned q') as -> by (Z.div_mod_to_equations; lia). by rewrite (proj2 (Z.leb_le _ _) Hal).
Qed.

Lemma machine_left q : (q = None -> is_memory_load_instruction i || is_memory_store_instruction i = false) ->
  (forall q', q = Some q' -> MemRow q' ∈ instr_trace (ms_shard m) /\ MemoryInstructionsChip.is_real q' = 1 /\ MemoryInstructionsChip.shard q' = S /\ MemoryInstructionsChip.clk q' = C) ->
  rv_eq (row_left i r q (machine_at prog ms (S, C) (CpuChip.pc r))) (machine_at prog ms (S, C + 4) (CpuChip.next_pc r)).
Proof using Hv Hp Hr Hm Hn Hne Hc Hwi.
  clear Hform Hfetch. intros Hnone Hq. pose proof Hwi as (Ha & _). unfold row_left. split_and!; cbn [machine_at rv_pc rv_regs rv_mem]; [| |done].
  - intros x. unfold set_reg. rewrite a_left, reg_idx_of by done. pose proof (reg_idx_range x) as Hx. destruct (reg_idx x =? op_a i); [|by rewrite register_kept by lia].
    destruct (Z.eqb_spec (op_a i) 0) as [Ez|]; [|done]. destruct (live_operands proof prog ms Hp m n r i Hm Hn Hc) as [_ Wz]. by rewrite (Wz Ez).
  - intros a. assert (32 <= a / 4 * 4 -> M (S, C + 4) (a / 4 * 4) = M (S, C + 1) (a / 4 * 4)) as E4 by (intros Hge; rewrite a_left; destruct (Z.eqb_spec (a / 4 * 4) (op_a i)); [lia|done]).
    destruct q as [q|].
    + destruct (Hq q eq_refl) as (H1 & H2 & H3 & H4). destruct (mem_found q H1 H2 H3 H4) as (_ & Hl & Hal & Hmod). unfold set_mem.
      assert (MemoryInstructionsChip.addr_aligned q / 4 * 4 = MemoryInstructionsChip.addr_aligned q) as Eal by (Z.div_mod_to_equations; lia).
      destruct (Z.eqb_spec (a / 4) (MemoryInstructionsChip.addr_aligned q / 4)) as [Ea|Ea].
      * rewrite Ea, Eal in *. rewrite (proj2 (Z.leb_le _ _) Hal), (E4 Hal), Hl, Z.eqb_refl. done.
      * destruct (Z.leb_spec 32 (a / 4 * 4)) as [Hge|]; [|done]. rewrite (E4 Hge), Hl. destruct (Z.eqb_spec (a / 4 * 4) (MemoryInstructionsChip.addr_aligned q)); [|done]. exfalso. lia.
    + destruct (Z.leb_spec 32 (a / 4 * 4)) as [Hge|]; [|done]. by rewrite (E4 Hge), (no_mem_row (Hnone eq_refl)).
Qed.

(** The row is a step of the machine. *)
Lemma instruction_step : CpuChip.pc r <> 0 -> program_forms prog -> CpuChip.next_pc r mod 2 = 0 -> exists m', rv_step i (machine_at prog ms (S, C) (CpuChip.pc r)) = RvNext m' /\
  rv_eq m' (machine_at prog ms (S, C + 4) (CpuChip.next_pc r)).
Proof using Hv Hp Hr Hm Hn Hne Hc Hwi Hform Hfetch.
  intros Hpc Hforms Heven. destruct (shard_of proof prog ms Hp m Hm) as (_ & Hacc & Hpr & _ & Epr). pose proof (live_row_ok _ Hacc Hpr _ _ Hn) as (_ & _ & _ & Hz). pose proof (proj1 (live_lookup _ Hacc Hpr n r) Hn) as [Hn' _].
  destruct (cpu_row_step _ n r Hacc Hpr ltac:(by rewrite Epr) Hn' Hz Hpc) as (i' & Hi' & Hs). rewrite Epr, Hfetch in Hi'. injection Hi' as <-.
  assert (is_ecall_instruction i = false) as He.
  { destruct (is_ecall_instruction i) eqn:He; [|done]. exfalso. apply Hne. unfold ecall_row. destruct (row_message _ Hacc Hpr n r Hn' Hz i Hc) as (_ & _ & -> & _). unfold is_ecall_instruction in He. by destruct (opcode i). }
  destruct (Hs He) as (q & Hstep & Hnone & Hq). destruct (Hstep _ (machine_found q Hq) (fun _ => Heven)) as (m' & E1 & E2). exists m'. split; [done|]. etrans; [exact E2|]. by apply machine_left.
Qed.
End Row.

(** ** System calls *)

(** The byte of the code in [x5] that names the call. *)
Definition call_id (m : RvState) : Z := byte_at (rv_regs m X5) 0.

(** A word of a digest. *)
Definition committed (digest : list Word) (k v : Z) : Prop :=
  exists w, 0 <= k < 8 /\ digest !! Z.to_nat k = Some w /\ map Fred (limbs w) = limbs (word_from v).

(** What a system call may do: it keeps every register but [x5], which only two
    calls change, goes to the next instruction unless it halts, with exit code
    0, and commits to [digest].  It may change memory. *)
Record ecall_step (digest : list Word) (m m' : RvState) : Prop := {
  ec_registers : forall x, x <> X5 -> rv_regs m' x = rv_regs m x;
  ec_halt : call_id m = syscall_id HALT -> rv_pc m' = 0 /\ rv_regs m X10 = 0;
  ec_next : call_id m <> syscall_id HALT -> rv_pc m' = rv_pc m + 4;
  ec_enter : call_id m = syscall_id ENTER_UNCONSTRAINED -> rv_regs m' X5 = 0;
  ec_keep : call_id m <> syscall_id ENTER_UNCONSTRAINED -> call_id m <> syscall_id HINT_LEN -> rv_regs m' X5 = rv_regs m X5;
  ec_commit : call_id m = syscall_id COMMIT -> committed digest (rv_regs m X10) (rv_regs m X11)
}.

(** The digests the shards show, and that of the last shard. *)
Definition shard_digest (proof : list ShardProof) (digest : list Word) : Prop := exists p, p ∈ proof /\ committed_value_digest (public_values p) = digest.
Definition proof_digest (proof : list ShardProof) : list Word := default [] ((fun p => committed_value_digest (public_values p)) <$> list.last proof).

Section Ecall.
  Context {E : Type} (pc_start : Z) (machine_verify : list ShardProof -> option E) (proof : list ShardProof).
  Context (prog : Program) (ms : list MemoryShard) (Hv : verify pc_start machine_verify proof = Accepted) (Hp : proves prog proof ms) (Hr : run_ok prog ms).
  Context (m : MemoryShard) (n : nat) (r : CpuChip.CpuCols) (Hm : m ∈ ms) (Hn : live_rows (ms_shard m) !! n = Some r).
  Context (y : SyscallInstrsChip.SyscallInstrColumns) (He : ecall_row r) (Hsys : CpuChip.is_syscall r = 1) (Hy : ecall_served (ms_shard m) r y).
  Abbreviation M := (memory_at prog ms).
  Abbreviation S := (CpuChip.shard r).
  Abbreviation C := (CpuChip.clk r).
  Abbreviation extra := (CpuChip.num_extra_cycles r).

(** What happens during a system call. *)
Lemma ecall_accesses a : a ∈ all_accs ms -> during r (time_of a) -> ma_addr a < 32 ->
  (ma_cur a).2 = (ma_prev a).2 \/ exists m', syscall_access m' r a.
Proof using Hv Hp Hr Hm Hn He Hsys.
  clear Hy y. intros Ha Hd Haddr. destruct (source proof prog ms Hp Hr a Ha) as (m' & Hm' & [(n' & r' & Hn' & Hc)|Ho]).
  2: { exfalso. pose proof (oa_addr _ _ Ho). lia. }
  assert (r = r') as <-.
  { apply (run_same pc_start machine_verify proof prog ms Hv Hp Hr r r' (time_of a)); [by apply (live_run ms m n)|by apply (live_run ms m' n')|done|].
    by apply (row_during pc_start machine_verify proof prog ms Hv Hp Hr m' n'). }
  destruct Hc as [Hc|[(q & _ & -> & Hmm)|Hc]]; [left| |right; by exists m'].
  - unfold cpu_accs in Hc. rewrite !elem_of_app in Hc. destruct Hc as [Hc|[Hc|Hc]]; apply accs_of_elem in Hc as [Hz ->]; try done. rewrite Hsys in Hz. by destruct Hz.
  - exfalso. destruct Hmm as (o & ad & _ & _ & _ & Hrange & Eal & _). cbn in Haddr. Z.div_mod_to_equations. lia.
Qed.

(** A word no access of an interval changes. *)
Lemma interval addr c k : (forall a, a ∈ all_accs ms -> ma_addr a = addr -> (time_of a).1 = S -> c <= (time_of a).2 < c + Z.of_nat k -> (ma_cur a).2 = (ma_prev a).2) ->
  M (S, c + Z.of_nat k) addr = M (S, c) addr.
Proof using Hv Hp.
  clear Hr Hm Hn He Hsys Hy. induction k as [|k IH]; intros Hk; [by rewrite Z.add_0_r|]. rewrite <- IH by (intros a Ha Ea Es Et; apply Hk; [done..|lia]).
  replace (c + Z.of_nat (Datatypes.S k)) with (c + Z.of_nat k + 1) by lia. apply (memory_kept pc_start machine_verify proof prog ms Hv Hp). intros a Ha Ea Et. apply Hk; rewrite ?Et; cbn; [done..|lia].
Qed.

Lemma interval_to addr c c' : c <= c' -> (forall a, a ∈ all_accs ms -> ma_addr a = addr -> (time_of a).1 = S -> c <= (time_of a).2 < c' -> (ma_cur a).2 = (ma_prev a).2) ->
  M (S, c') addr = M (S, c) addr.
Proof using Hv Hp.
  clear Hr Hm Hn He Hsys Hy. intros Hc Hk. replace c' with (c + Z.of_nat (Z.to_nat (c' - c))) by lia. apply interval. intros a Ha Ea Es Et. apply Hk; [done..|lia].
Qed.

Abbreviation x5_access := (acc_of S (C + 3) (reg_idx X5) (SyscallInstrsChip.op_a_access y)).

Lemma ecall_register addr : addr < 32 -> addr <> reg_idx X5 -> forall c, C <= c <= C + 4 + extra -> M (S, c) addr = M (S, C) addr.
Proof using Hv Hp Hr Hm Hn He Hsys.
  intros Haddr Hx c Hc. apply interval_to; [lia|]. intros a Ha Ea Es Et. destruct (ecall_accesses a Ha) as [|(m' & y' & _ & _ & -> & _)]; [rewrite during_iff; lia|lia|done|]. by destruct Hx.
Qed.

Lemma ecall_x5 : M (S, C) (reg_idx X5) = SyscallInstrsChip.syscall_code y /\ M (S, C + 4 + extra) (reg_idx X5) = value (SyscallInstrsChip.op_a_access y).
Proof using Hv Hp Hr Hm Hn He Hsys Hy.
  destruct (syscall_code_at pc_start machine_verify proof prog ms Hv Hp Hr m n r y Hm Hn Hy) as [Hin _]. pose proof (extra_cycles pc_start machine_verify proof prog ms Hv Hp Hr m n r Hm Hn) as Hx.
  assert (forall c c', C <= c -> c <= c' <= C + 4 + extra -> c' <= C + 3 \/ C + 4 <= c -> M (S, c') (reg_idx X5) = M (S, c) (reg_idx X5)) as Hk.
  { intros c c' H0 H1 H2. apply interval_to; [lia|]. intros a Ha Ea Es Et. destruct (ecall_accesses a Ha) as [|(m' & y' & _ & _ & -> & _)]; [rewrite during_iff; lia|rewrite Ea; done|done|]. exfalso. cbn in Et. lia. }
  split.
  - rewrite <- (Hk C (C + 3)) by lia. exact (memory_found pc_start machine_verify proof prog ms Hv Hp _ Hin).
  - rewrite (Hk (C + 4)) by lia. replace (C + 4) with (C + 3 + 1) by lia. exact (memory_left pc_start machine_verify proof prog ms Hv Hp x5_access S (C + 3) Hin eq_refl).
Qed.

Context (i : Instruction) (Hc : CpuChip.instruction r = InstructionCols.populate i) (Hi : i = process process_ecall).
Context (Hpc : 0 < CpuChip.pc r /\ CpuChip.pc r + 4 < BABYBEAR).

(** The operands are [x10] and [x11]. *)
Lemma ecall_operands : CpuChip.op_b_val r = M (S, C) (reg_idx X10) /\ CpuChip.op_c_val r = M (S, C) (reg_idx X11).
Proof using Hv Hp Hr Hm Hn He Hsys Hc Hi.
  clear Hy Hpc. pose proof (extra_cycles pc_start machine_verify proof prog ms Hv Hp Hr m n r Hm Hn) as Hx. split.
  - assert (acc_of S (C + 2) (reg_idx X10) (CpuChip.op_b_access r) ∈ all_accs ms) as Hin by (apply (in_accs proof prog ms Hp m n r Hm Hn); unfold cpu_accs; rewrite Hc, Hi; left).
    rewrite <- (ecall_register (reg_idx X10)) with (c := C + 2) by (done || lia). symmetry. exact (memory_found pc_start machine_verify proof prog ms Hv Hp _ Hin).
  - assert (acc_of S (C + 1) (reg_idx X11) (CpuChip.op_c_access r) ∈ all_accs ms) as Hin by (apply (in_accs proof prog ms Hp m n r Hm Hn); unfold cpu_accs; rewrite Hc, Hi; right; left).
    rewrite <- (ecall_register (reg_idx X11)) with (c := C + 1) by (done || lia). symmetry. exact (memory_found pc_start machine_verify proof prog ms Hv Hp _ Hin).
Qed.

(** The public values of the shard. *)
Lemma shard_proof : exists p, p ∈ proof /\ shows p m /\ exit_code (public_values p) = 0.
Proof using Hv Hp Hm.
  clear - Hv Hp Hm. apply list_elem_of_lookup in Hm as [k Hk]. destruct (Forall2_lookup_r _ _ _ _ _ (pr_shows _ _ _ Hp) Hk) as (p & Hpk & Hs). exists p.
  apply verify_iff in Hv as (_ & _ & _ & _ & Hx & _). rewrite Forall_forall in Hx. split; [by eapply list_elem_of_lookup_2|]. split; [done|]. apply Hx. by eapply list_elem_of_lookup_2.
Qed.

Lemma system_call : exists digest, shard_digest proof digest /\ ecall_step digest (machine_at prog ms (S, C) (CpuChip.pc r)) (machine_at prog ms (S, C + 4 + extra) (CpuChip.next_pc r)).
Proof using Hv Hp Hr Hm Hn He Hsys Hy Hc Hi Hpc.
  destruct ecall_x5 as [E5 E5']. destruct ecall_operands as [E10 E11]. destruct (shard_of proof prog ms Hp m Hm) as (_ & Hacc & Hpr & _). pose proof (live_row_ok _ Hacc Hpr _ _ Hn) as (Hw & _ & _ & Hz).
  pose proof (proj1 (live_lookup _ Hacc Hpr n r) Hn) as [Hn' _]. destruct (row_message _ Hacc Hpr n r Hn' Hz i Hc) as (Epc & Enpc & _ & _ & Eb & Ec & _ & _ & _ & _ & _ & _ & Cn).
  pose proof (memory_good pc_start machine_verify proof prog ms Hv Hp Hr (S, C)) as Hg.
  destruct (es_message _ _ _ Hy) as [_ _ _ _ Hnext Henter Hkeep Hexit Hcommit _]. rewrite ?Epc, ?Enpc, ?Eb, ?Ec in *.
  assert (call_id (machine_at prog ms (S, C) (CpuChip.pc r)) = (SyscallInstrsChip.syscall_code y).[0]) as Eid.
  { unfold call_id. cbn [machine_at rv_regs]. rewrite E5. apply (byte_at_word _ 0); [|lia]. rewrite <- E5. apply Hg. }
  destruct shard_proof as (p & Hpp & Hs & Hx). exists (committed_value_digest (public_values p)). split; [by exists p|]. rewrite (sh_syscall p m Hs) in *. cbn [syscall_public_values SyscallInstrsChip.exit_code SyscallInstrsChip.committed_value_digest] in *.
  constructor; rewrite ?Eid; cbn [machine_at rv_regs rv_pc].
  - intros x Hx5. rewrite ecall_register; [done|pose proof (reg_idx_range x); lia| |pose proof (extra_cycles pc_start machine_verify proof prog ms Hv Hp Hr m n r Hm Hn); lia]. intros Ex. by apply Hx5, (inj reg_idx).
  - intros Eh. rewrite bool_decide_eq_true_2 in Hnext by done. split; [done|]. rewrite E10, Hx in Hexit. destruct (Hexit Eh) as [Hcan Hcode]; [apply Hg|]. by apply eqF_canon in Hcode.
  - intros Eh. rewrite bool_decide_eq_false_2 in Hnext by done. apply eqF_canon in Hnext; [done..|]. unfold canon, DEFAULT_PC_INC. lia.
  - intros Eh. by rewrite E5', (Henter Eh).
  - intros Eh1 Eh2. by rewrite E5', E5, (Hkeep Eh1 Eh2).
  - intros Eh. destruct (Hcommit Eh) as (k & w & Hk & Eb' & Hlook & Hl). rewrite E10 in Eb'. rewrite E11 in Hl. unfold committed. rewrite Eb'.
    exists w. rewrite word_from_to_u32 by apply Hg. unfold PV_DIGEST_NUM_WORDS in Hk. rewrite Nat2Z.id. split; [lia|done].
Qed.
End Ecall.

(** Every shard shows the digest of the last one, or zeros. *)
Lemma shard_digests {E} pc_start (machine_verify : list ShardProof -> option E) proof digest : verify pc_start machine_verify proof = Accepted ->
  shard_digest proof digest -> digest = zero_committed_value_digest \/ digest = proof_digest proof.
Proof.
  intros Hv (p & [k Hpk]%list_elem_of_lookup & <-). apply verify_iff in Hv as (_ & _ & _ & _ & _ & _ & _ & Hd & _).
  destruct (decide (committed_value_digest (public_values p) = zero_committed_value_digest)) as [|Hz]; [by left|right]. unfold proof_digest. pose proof (lookup_lt_Some _ _ _ Hpk) as Hlt.
  rewrite last_lookup. destruct (lookup_lt_is_Some_2 proof (pred (length proof))) as [q Hq]; [lia|]. rewrite Hq. cbn. symmetry. apply (digest_kept committed_value_digest _ _ proof k _ p q Hd Hpk Hq); [lia|done].
Qed.

(** ** The run *)

(** Steps of the machine, up to extensional equality of states, until it is at
    address 0; [digests] are the digests system calls may commit to. *)
Inductive core_run (prog : Program) (digests : list Word -> Prop) : RvState -> RvState -> Prop :=
| run_halt m m' : rv_pc m = 0 -> rv_eq m m' -> core_run prog digests m m'
| run_instruction m i m1 m2 m' : rv_pc m <> 0 -> fetch prog (rv_pc m) = Some i -> is_ecall_instruction i = false ->
    rv_step i m = RvNext m1 -> rv_eq m1 m2 -> core_run prog digests m2 m' -> core_run prog digests m m'
| run_ecall m i digest m1 m' : rv_pc m <> 0 -> fetch prog (rv_pc m) = Some i -> is_ecall_instruction i = true ->
    digests digest -> ecall_step digest m m1 -> core_run prog digests m1 m' -> core_run prog digests m m'.

(** Where programs start: register 0 is zero and memory holds the image. *)
Record initial_state (prog : Program) (pc_start : Z) (m : RvState) : Prop := {
  is_pc : rv_pc m = pc_start;
  is_x0 : rv_regs m X0 = 0;
  is_image : forall addr w, memory_image prog !! addr = Some w -> addr mod 4 = 0 -> is_u32 w -> rv_mem m addr = w
}.

Section Run.
  Context {E : Type} (pc_start : Z) (machine_verify : list ShardProof -> option E) (proof : list ShardProof).
  Context (prog : Program) (ms : list MemoryShard) (Hv : verify pc_start machine_verify proof = Accepted) (Hp : proves prog proof ms) (Hr : run_ok prog ms).
  Abbreviation M := (memory_at prog ms).
  Abbreviation rows := (run_rows ms).

(** A time between two rows: the accesses of the earlier ones are before it. *)
Definition between (pre suf : list CpuChip.CpuCols) (t : Z * Z) : Prop := rows = pre ++ suf /\
  (forall r, r ∈ pre -> not_after (ends r) t) /\ forall r, r ∈ suf -> not_after t (starts r).

Lemma between_agree pre suf t t' : between pre suf t -> between pre suf t' -> forall addr, M t addr = M t' addr.
Proof using Hv Hp Hr.
  intros (Er & H1 & H2) (_ & H1' & H2') addr. apply word_at_agree. intros a Ha. destruct (access_during pc_start machine_verify proof prog ms Hv Hp Hr a Ha) as (r & Hin & Hd1 & Hd2).
  rewrite Er, elem_of_app in Hin. destruct Hin as [Hin|Hin].
  - specialize (H1 r Hin). specialize (H1' r Hin). rewrite not_after_iff in *. unfold before in *. split; intros _; lia.
  - specialize (H2 r Hin). specialize (H2' r Hin). rewrite not_after_iff in *. unfold before in *. split; intros Hb; exfalso; lia.
Qed.

Lemma row_before pre r suf : rows = pre ++ r :: suf ->
  (forall x, x ∈ pre -> not_after (ends x) (starts r)) /\ (forall x, x ∈ suf -> not_after (ends r) (starts x)) /\ 0 <= CpuChip.num_extra_cycles r.
Proof using Hv Hp Hr.
  intros Er. pose proof (run_sorted pc_start machine_verify proof prog ms Hv Hp Hr) as Hs. split_and!.
  - intros x [k Hk]%list_elem_of_lookup. apply (StronglySorted_lookup_lt follows rows k (length pre) x r Hs); rewrite ?Er; [by apply lookup_app_l_Some|by rewrite lookup_app_r, Nat.sub_diag by done|by apply lookup_lt_Some in Hk].
  - intros x [k Hk]%list_elem_of_lookup. apply (StronglySorted_lookup_lt follows rows (length pre) (length pre + S k) r x Hs); rewrite ?Er; [by rewrite lookup_app_r, Nat.sub_diag by done| |lia].
    rewrite lookup_app_r by lia. by replace (length pre + S k - length pre)%nat with (S k) by lia.
  - assert (r ∈ rows) as Hin by (rewrite Er, elem_of_app; right; left). destruct (row_of ms r Hin) as (m & n & Hm & Hn). by apply (extra_cycles pc_start machine_verify proof prog ms Hv Hp Hr m n).
Qed.

Lemma between_start pre r suf : rows = pre ++ r :: suf -> between pre (r :: suf) (starts r).
Proof using Hv Hp Hr.
  intros Er. destruct (row_before pre r suf Er) as (H1 & H2 & Hx). split_and!; [done..|]. intros x [-> |Hin]%elem_of_cons; [rewrite not_after_iff; cbn; lia|]. specialize (H2 x Hin). rewrite not_after_iff in *. cbn in *. lia.
Qed.

Lemma between_end pre r suf : rows = pre ++ r :: suf -> between (pre ++ [r]) suf (ends r).
Proof using Hv Hp Hr.
  intros Er. destruct (row_before pre r suf Er) as (H1 & H2 & Hx). split_and!; [by rewrite <- app_assoc| |done]. intros x [Hin| ->%list_elem_of_singleton]%elem_of_app; [|rewrite not_after_iff; cbn; lia].
  specialize (H1 x Hin). rewrite not_after_iff in *. cbn in *. lia.
Qed.

Lemma machine_agree pre suf t t' pc : between pre suf t -> between pre suf t' -> rv_eq (machine_at prog ms t pc) (machine_at prog ms t' pc).
Proof using Hv Hp Hr. intros Ht Ht'. pose proof (between_agree pre suf t t' Ht Ht') as Em. split_and!; cbn; [intros x; by rewrite Em|intros a; by rewrite Em|done]. Qed.

Lemma ecall_step_eq digest m m1 m2 : ecall_step digest m m1 -> rv_eq m1 m2 -> ecall_step digest m m2.
Proof using. clear. intros [H1 H2 H3 H4 H5 H6] (Er & _ & Ep). constructor; rewrite <- ?Ep, <- ?Er; try done. intros x Hx. rewrite <- Er. by apply H1. Qed.

(** The state a row leaves is the state the next row finds. *)
Definition next_start (r : CpuChip.CpuCols) (suf : list CpuChip.CpuCols) : Z * Z := match suf with [] => ends r | r' :: _ => starts r' end.

Lemma next_agree pre r suf pc : rows = pre ++ r :: suf -> rv_eq (machine_at prog ms (ends r) pc) (machine_at prog ms (next_start r suf) pc).
Proof using Hv Hp Hr.
  intros Er. apply (machine_agree (pre ++ [r]) suf); [by apply between_end|]. destruct suf as [|r' suf]; [by apply between_end|]. apply between_start. by rewrite Er, <- app_assoc.
Qed.

Lemma row_step pre r suf : rows = pre ++ r :: suf -> CpuChip.next_pc r mod 2 = 0 -> forall m', core_run prog (shard_digest proof) (machine_at prog ms (next_start r suf) (CpuChip.next_pc r)) m' ->
  core_run prog (shard_digest proof) (machine_at prog ms (starts r) (CpuChip.pc r)) m'.
Proof using Hv Hp Hr.
  intros Er Heven m' Hrun. assert (r ∈ rows) as Hin by (rewrite Er, elem_of_app; right; left). destruct (row_of ms r Hin) as (m & n & Hm & Hn). destruct (shard_of proof prog ms Hp m Hm) as (_ & Hacc & Hpr & Hpub & _).
  destruct (row_instruction pc_start machine_verify proof prog ms Hv Hp Hr r Hin) as (i & Hf & Hi & Hc & Hwi & Hform & Hpc).
  pose proof (live_row_ok _ Hacc Hpr _ _ Hn) as (_ & _ & _ & Hz). pose proof (proj1 (live_lookup _ Hacc Hpr n r) Hn) as [Hn' _]. destruct (row_message _ Hacc Hpr n r Hn' Hz i Hc) as (_ & _ & Eo & _).
  assert (ecall_row r <-> is_ecall_instruction i = true) as Hec.
  { unfold ecall_row, is_ecall_instruction. rewrite Eo. split; [intros E1%(inj opcode_u32); by rewrite E1|by destruct (opcode i)]. }
  destruct (row_class _ Hacc Hpr n r (pv_digests m Hpub) Hn) as [(Hne & _ & Hx)|(He & Hsys & y & Hy)].
  - destruct (ro_program _ _ Hr) as (_ & Hforms & _). destruct (instruction_step pc_start machine_verify proof prog ms Hv Hp Hr m n r Hm Hn Hne i Hc Hwi Hform Hf) as (m1 & Hs & He1); [lia|done|done|].
    apply (run_instruction _ _ _ i m1 (machine_at prog ms (next_start r suf) (CpuChip.next_pc r))); [cbn; lia|done| |done| |done].
    + destruct (is_ecall_instruction i); [|done]. by destruct Hne; apply Hec.
    + etrans; [exact He1|]. rewrite <- (next_agree pre r suf _ Er). unfold ends. by rewrite Hx, Z.add_0_r.
  - pose proof (ro_ecalls _ _ Hr) as Hall. rewrite Forall_forall in Hall. assert (i = process process_ecall) as Ei.
    { apply Hall; [done|]. apply Hec in He. unfold is_ecall_instruction in He. by destruct (opcode i). }
    destruct (system_call pc_start machine_verify proof prog ms Hv Hp Hr m n r Hm Hn y He Hsys Hy i Hc Ei) as (digest & Hdig & Hstep); [done|].
    apply (run_ecall _ _ _ i digest (machine_at prog ms (next_start r suf) (CpuChip.next_pc r))); [cbn; lia|done|by apply Hec|done| |done].
    eapply ecall_step_eq; [exact Hstep|by apply (next_agree pre r suf)].
Qed.

Lemma run_from suf : forall pre r, rows = pre ++ r :: suf -> pc_flow (CpuChip.pc r) (r :: suf) 0 ->
  exists m', core_run prog (shard_digest proof) (machine_at prog ms (starts r) (CpuChip.pc r)) m' /\ rv_pc m' = 0.
Proof using Hv Hp Hr.
  induction suf as [|r' suf IH]; intros pre r Er [_ Hf].
  - exists (machine_at prog ms (ends r) (CpuChip.next_pc r)). split; [|done]. cbn in Hf. apply (row_step pre r [] Er); [by rewrite Hf|]. by apply run_halt.
  - destruct (IH (pre ++ [r]) r') as (m' & Hrun & Hz); [by rewrite Er, <- app_assoc|pose proof Hf as [-> _]; exact Hf|]. exists m'. split; [|done]. destruct Hf as [Epc _].
    assert (CpuChip.pc r' mod 4 = 0) as H4 by (apply (row_aligned pc_start machine_verify proof prog ms Hv Hp Hr); rewrite Er, elem_of_app; right; right; left).
    apply (row_step pre r (r' :: suf) Er); [rewrite <- Epc; Z.div_mod_to_equations; lia|]. cbn [next_start]. rewrite <- Epc. exact Hrun.
Qed.

(** Before the first row memory holds the initial words. *)
Lemma first_words r suf x : rows = r :: suf -> x ∈ all_inits prog ms -> M (starts r) (mm_addr x) = mm_word x.
Proof using Hv Hp Hr.
  intros Er Hx. destruct (between_start [] r suf Er) as (_ & _ & Hsuf). rewrite <- Er in Hsuf. unfold memory_at, word_at. pose proof (latest_before_spec (starts r) (at_addr (mm_addr x) (all_accs ms))) as Hl.
  destruct (latest_before _ _) as [a|].
  { exfalso. destruct Hl as (Ha & Hb & _). unfold at_addr in Ha. apply list_elem_of_filter in Ha as [_ Ha]. destruct (access_during pc_start machine_verify proof prog ms Hv Hp Hr a Ha) as (r' & Hin & Hd & _).
    specialize (Hsuf r' Hin). rewrite not_after_iff in *. unfold before in *. lia. }
  assert (x ∈ msg_at (mm_addr x) (all_inits prog ms)) as Hin by (unfold msg_at; by apply list_elem_of_filter). destruct (accs_balance proof prog ms Hp) as [Ho Hbal].
  destruct (memory_chains _ _ _ (mm_addr x) Ho (finals_NoDup pc_start machine_verify proof prog ms Hv Hp) Hbal) as [(z & y & l & Ei & _)|(_ & Ei & _)]; rewrite Ei in Hin |- *.
  - apply list_elem_of_singleton in Hin. destruct x as [tx ax wx]. by injection Hin as -> ->.
  - by apply not_elem_of_nil in Hin.
Qed.

Lemma first_state r suf : rows = r :: suf -> initial_state prog pc_start (machine_at prog ms (starts r) pc_start).
Proof using Hv Hp Hr.
  intros Er. constructor; cbn [machine_at rv_pc rv_regs rv_mem]; [done| |].
  - by rewrite (proj2 (memory_good pc_start machine_verify proof prog ms Hv Hp Hr (starts r) (reg_idx X0))).
  - intros addr w Hl Hmod Hw. pose proof (ro_image _ _ Hr addr w Hl) as Hge. assert (addr / 4 * 4 = addr) as -> by (Z.div_mod_to_equations; lia). rewrite (proj2 (Z.leb_le _ _) Hge).
    assert (mkMemMsg (0, 0) addr (word_from w) ∈ all_inits prog ms) as Hin.
    { unfold all_inits, program_image. rewrite elem_of_app. left. apply list_elem_of_In, in_map_iff. exists (addr, w). split; [done|]. by apply list_elem_of_In, elem_of_map_to_list. }
    pose proof (first_words r suf _ Er Hin) as Ew. cbn [mm_addr mm_word] in Ew. rewrite Ew. by apply to_u32_word_from.
Qed.

Lemma accepted_proof_runs : exists m m', initial_state prog pc_start m /\ core_run prog (shard_digest proof) m m' /\ rv_pc m' = 0 /\
  forall digest, shard_digest proof digest -> digest = zero_committed_value_digest \/ digest = proof_digest proof.
Proof using Hv Hp Hr.
  assert (rows <> []) as Hne.
  { apply verify_iff in Hv as ((p & Hh & Hc) & _). destruct proof as [|p' l]; [done|]. injection Hh as ->. pose proof (pr_shows _ _ _ Hp) as Hs. destruct ms as [|m l']; [by inversion Hs|]. inversion_clear Hs as [|? ? ? ? Hsh _].
    destruct (shard_of (p :: l) prog (m :: l') Hp m) as (_ & Hacc & Hpr & _); [left|]. destruct (live_first _ Hacc Hpr) as (r & Hl & _); [by apply (sh_has_cpu p m Hsh)|].
    unfold run_rows. cbn [flat_map]. destruct (live_rows (ms_shard m)); [discriminate Hl|done]. }
  pose proof (run_flow pc_start machine_verify proof prog ms Hv Hp) as Hf. destruct rows as [|r suf] eqn:Er; [done|]. pose proof Hf as [Epc _].
  destruct (run_from suf [] r Er) as (m' & Hrun & Hz); [by rewrite Epc|]. exists (machine_at prog ms (starts r) pc_start), m'. split; [by apply (first_state r suf)|]. split; [by rewrite <- Epc|]. split; [done|]. intros digest. by apply (shard_digests pc_start machine_verify).
Qed.
End Run.

