(* ===== verification/CoreProof.v ===== *)
(** * Core proofs

    An example of the theorems about accepted core proofs: a proof of three
    shards that writes a register in the first shard and reads it in the second,
    where it commits a value and halts; the third holds the tables of initial and
    final memory. *)

From Stdlib Require Import ZArith Lia Bool Permutation Sorted.
From stdpp Require Import base list gmap sorting strings.
From S2P Require Import Prelude Isa SyscallCode Memory Events ByteLookup Record Alu Dependencies State Executor Access Refinement AirBuilder ByteTable.
From S2P Require Import MemoryAir Operations ChipSpec AddSubChip Lookup AluMachine TraceGen ControlFlow MemInstrChip CpuChip SyscallInstrChip InstrRows.
From S2P Require Import RiscvMachine RiscvStep MemoryCheck MemoryLocalChip MemoryGlobalChip CoreVerify MemoryBus CoreMemory CoreRows CoreRun.

Import CoreVerify.

Local Open Scope Z_scope.
Local Open Scope rv_scope.

(** ** An example *)

(** [li x5, 0x300]; [sub x5, x5, x5]; [COMMIT] of 7 as word 0, with the call in
    [x5], the index in [x10] and the value in [x11]; [HALT]; and a word of data
    the program does not touch. *)
Definition example_ecall : Instruction := mkInstruction ECALL 5 10 11 false false.
Definition example_program : Program :=
  mkProgram [mkInstruction ADD 5 0x0100 0x0200 true true; mkInstruction SUB 5 5 5 false false; mkInstruction ADD 5 16 0 true true; mkInstruction ADD 11 7 0 true true; example_ecall;
    mkInstruction ADD 5 0 0 false false; example_ecall] 8 8 {[64 := 7]}.

Definition example_cpu_row (shard : Z) (e : CpuEvent) (i : Instruction) : CpuChip.CpuCols := (CpuChip.event_to_row e shard i ([] : list ByteLookupEvent)).1.

Definition example_cpu_1 : list CpuChip.CpuCols :=
  [example_cpu_row 1 (mkCpuEvent 0 8 12 0x0300 (Some (MWrite (mkMemoryWriteRecord 0x0300 1 3 0 0 0))) 0x0100 None 0x0200 None 0) (mkInstruction ADD 5 0x0100 0x0200 true true)].

Definition example_read (value time prev_shard prev_time : Z) : option MemoryRecordEnum := Some (MRead (mkMemoryReadRecord value 2 time prev_shard prev_time)).
Definition example_write (value time prev prev_shard prev_time : Z) : MemoryWriteRecord := mkMemoryWriteRecord value 2 time prev prev_shard prev_time.

Definition example_cpu_2 : list CpuChip.CpuCols :=
  [example_cpu_row 2 (mkCpuEvent 0 12 16 0 (Some (MWrite (example_write 0 3 0x0300 2 2))) 0x0300 (example_read 0x0300 2 2 1) 0x0300 (example_read 0x0300 1 1 3) 0) (mkInstruction SUB 5 5 5 false false);
   example_cpu_row 2 (mkCpuEvent 4 16 20 16 (Some (MWrite (example_write 16 7 0 2 3))) 16 None 0 None 0) (mkInstruction ADD 5 16 0 true true);
   example_cpu_row 2 (mkCpuEvent 8 20 24 7 (Some (MWrite (example_write 7 11 0 0 0))) 7 None 0 None 0) (mkInstruction ADD 11 7 0 true true);
   example_cpu_row 2 (mkCpuEvent 12 24 28 16 (Some (MWrite (example_write 16 15 16 2 7))) 0 (example_read 0 14 0 0) 7 (example_read 7 13 2 11) 0) example_ecall;
   example_cpu_row 2 (mkCpuEvent 16 28 32 0 (Some (MWrite (example_write 0 19 16 2 15))) 0 (example_read 0 18 2 17) 0 (example_read 0 17 0 0) 0) (mkInstruction ADD 5 0 0 false false);
   example_cpu_row 2 (mkCpuEvent 20 32 0 0 (Some (MWrite (example_write 0 23 0 2 19))) 0 (example_read 0 22 2 14) 7 (example_read 7 21 2 13) 0) example_ecall].

(** The rows of the SyscallInstrs chip. *)
Definition example_calls : list InstrRow :=
  map SyscallRow (omap (fun e => fst <$> SyscallInstrsChip.event_to_row e ([] : list ByteLookupEvent))
    [mkSyscallEvent 24 28 2 12 (example_write 16 15 16 2 7) true false COMMIT 16 0 7; mkSyscallEvent 32 0 2 20 (example_write 0 23 0 2 19) true false HALT 0 0 7]).

Definition example_alu_events_1 : list AluEvent := [mkAluEvent 8 ADD 0x0300 0x0100 0x0200 false].
Definition example_alu_events_2 : list AluEvent := [mkAluEvent 12 SUB 0 0x0300 0x0300 false; mkAluEvent 16 ADD 16 16 0 false; mkAluEvent 20 ADD 7 7 0 false; mkAluEvent 28 ADD 0 0 0 false].

Definition example_alu (events : list AluEvent) : list AluRow :=
  map (fun e => AddSubRow (AddSubChip.AddSubChip.event_to_row e AddSubChip.AddSubChip.default ([] : list ByteLookupEvent)).1) events.

(** The rows of the MemoryLocal chip. *)
Definition example_local (events : list MemoryLocalEvent) : list MemoryLocalChip.MemoryLocalCols := [MemoryLocalChip.fill_row events 0].
Definition example_local_1 := example_local [mkMemoryLocalEvent 5 (mkMemoryRecord 0 0 0) (mkMemoryRecord 1 3 0x0300)].
Definition example_local_2 := example_local [mkMemoryLocalEvent 0 (mkMemoryRecord 0 0 0) (mkMemoryRecord 2 18 0);
  mkMemoryLocalEvent 5 (mkMemoryRecord 1 3 0x0300) (mkMemoryRecord 2 23 0); mkMemoryLocalEvent 10 (mkMemoryRecord 0 0 0) (mkMemoryRecord 2 22 0);
  mkMemoryLocalEvent 11 (mkMemoryRecord 0 0 0) (mkMemoryRecord 2 21 7)].

(** The tables of initial and final memory. *)
Definition example_table (events : list MemoryInitializeFinalizeEvent) : list MemoryGlobalChip.MemoryInitCols :=
  default [] (mapM (fun '(i, e) => MemoryGlobalChip.fill_row (replicate 32 0) events i e) (enumerate events)).
Definition example_init := example_table [mif_initialize 0 0 true; mif_initialize 5 0 true; mif_initialize 10 0 true; mif_initialize 11 0 true].
Definition example_final := example_table [mkMemIFEvent 0 0 2 18 1; mkMemIFEvent 5 0 2 23 1; mkMemIFEvent 10 0 2 22 1; mkMemIFEvent 11 7 2 21 1; mkMemIFEvent 64 7 0 0 1].

(** The multiplicities of the first rows of the byte table: a row without messages
    for its operands has none. *)
Definition example_mults (ms : list AirInteraction) : list (list Z) :=
  let sent := filter (fun m => ~ multiplicity m ≡F 0) ms in
  let operands := remove_dups (map (fun m => match values m with [o; a1; _; b; c] => if o =? ByteOpcode.as_u8 ByteOpcode.U16Range then [a1 / 256; a1 mod 256] else [b; c] | _ => [] end) sent) in
  map (fun c => if bool_decide ([ByteChip.b c; ByteChip.c c] ∈ operands)
    then map (fun o => Z.of_nat (length (filter (fun m => values m = ByteChip.received c o) sent))) ByteOpcode.all
    else map (fun _ => 0) ByteOpcode.all) (take 4224 ByteChip.trace).

(** The digest with the committed word. *)
Definition example_digest : list Word := mkWord 7 0 0 0 :: replicate 7 word_zero.

Definition example_public (digest : list Word) (start next shard execution : Z) (last_init last_final : list Z) : PublicValues :=
  mkPublicValues digest zero_deferred_proofs_digest start next 0 shard execution (replicate 32 0) last_init (replicate 32 0) last_final.

Definition example_shard (pv : PublicValues) (mults : list Z) (cpu : list CpuChip.CpuCols) (instrs : list InstrRow) (alu : list AluRow)
    (local : list MemoryLocalChip.MemoryLocalCols) (init final : list MemoryGlobalChip.MemoryInitCols) : MemoryShard :=
  let rest := map MemoryLocalChip.eval local ++ table_rows Initialize (memory_public_values pv) init ++ table_rows Finalize (memory_public_values pv) final in
  let mk byte_mults := mkRiscvShard example_program (map ProgramChip.mkProgramMultiplicityCols mults) cpu instrs alu byte_mults rest (cpu_public_values pv) (syscall_public_values pv) in
  mkMemoryShard (mk (example_mults (sends KByte (concat (cpu_rows (mk []) ++ map (instr_calls (syscall_public_values pv)) instrs ++ map row_calls alu))))) local init final [] (memory_public_values pv).

Definition zero_bits : list Z := replicate 32 0.
Definition example_pv_1 := example_public zero_committed_value_digest 8 12 1 1 zero_bits zero_bits.
Definition example_pv_2 := example_public example_digest 12 0 2 2 zero_bits zero_bits.
Definition example_pv_3 := example_public example_digest 0 0 3 2 (bits_of 11) (bits_of 64).

Definition example_shards : list MemoryShard :=
  [example_shard example_pv_1 [1; 0; 0; 0; 0; 0; 0] example_cpu_1 [] (example_alu example_alu_events_1) example_local_1 [] [];
   example_shard example_pv_2 [0; 1; 1; 1; 1; 1; 1] example_cpu_2 example_calls (example_alu example_alu_events_2) example_local_2 [] [];
   example_shard example_pv_3 [0; 0; 0; 0; 0; 0; 0] [] [] [] [] example_init example_final].

Definition example_proof : list ShardProof :=
  [mkShardProof [("Cpu"%string, 0%nat)] [1] example_pv_1; mkShardProof [("Cpu"%string, 0%nat)] [3] example_pv_2;
   mkShardProof [("MemoryGlobalInit"%string, 0%nat); ("MemoryGlobalFinalize"%string, 1%nat)] [2; 3] example_pv_3].

Lemma example_accepted : verify (E := unit) 8 (fun _ => None) example_proof = Accepted.
Proof. vm_compute. reflexivity. Qed.

(** ** The example proves *)

Definition rest_check (c : list Call) : bool :=
  (length (sent KInstruction c) =? 0)%nat && (length (received KInstruction c) =? 0)%nat && (length (sent KProgram c) =? 0)%nat && (length (received KProgram c) =? 0)%nat &&
  forallb (fun m => bool_decide (boolean (multiplicity m))) (sent KByte c) && (length (received KByte c) =? 0)%nat.

Lemma rest_check_ok c : rest_check c = true -> rest_row_ok c.
Proof.
  unfold rest_check. rewrite !andb_true_iff, !Nat.eqb_eq, forallb_forall. intros (((((H1 & H2) & H3) & H4) & H5) & H6). constructor; (split; [|by apply length_zero_iff_nil]); try by apply length_zero_iff_nil.
  apply Forall_forall. intros m Hm. apply list_elem_of_In, H5 in Hm. by apply bool_decide_eq_true_1 in Hm.
Qed.

#[export] Instance syscall_wf_dec r : Decision (SyscallInstrsChip.wf r).
Proof. unfold SyscallInstrsChip.wf, read_write_wf, access_wf, IsZeroOperation.wf, BabyBearWordRangeChecker.wf, word_canon, canon. apply _. Defined.
#[export] Instance local_wf_dec r : Decision (MemoryLocalChip.wf r).
Proof. unfold MemoryLocalChip.wf, MemoryLocalChip.entry_wf, word_canon, canon. apply _. Defined.
#[export] Instance global_wf_dec r : Decision (MemoryGlobalChip.wf r).
Proof. unfold MemoryGlobalChip.wf, AssertLtColsBits.wf, BabyBearBitDecomposition.wf, IsZeroOperation.wf, canon. apply _. Defined.

Definition instr_check (row : InstrRow) : bool := match row with SyscallRow r => bool_decide (SyscallInstrsChip.wf r) | _ => false end.

(** What computation settles about a shard. *)
Definition shard_check (m : MemoryShard) : bool :=
  let s := ms_shard m in
  bool_decide (Forall CpuChip.wf (cpu_trace s)) && forallb instr_check (instr_trace s) &&
  bool_decide (Forall MemoryLocalChip.wf (ms_local m)) && bool_decide (Forall MemoryGlobalChip.wf (ms_init m)) && bool_decide (Forall MemoryGlobalChip.wf (ms_final m)) &&
  forallb (@debug_constraints nonzero_filter) (memory_rows m ++ cpu_rows s ++ map (instr_calls (syscall_pv s)) (instr_trace s)) &&
  forallb rest_check (rest_rows s) &&
  bool_decide (debug_interactions_with_all_chips 1 [all_rows s] [KByte; KInstruction; KProgram; KMemory] Local = Some true) &&
  forallb (fun k => (Z.of_nat (length (sent k (concat (all_rows s)))) <? BABYBEAR) && (Z.of_nat (length (received k (concat (all_rows s)))) <? BABYBEAR)) [KByte; KInstruction; KProgram; KMemory].

Lemma shard_check_ok m : shard_check m = true -> program_ok (rs_program (ms_shard m)) -> rest_rows (ms_shard m) = memory_rows m -> ms_other m = [] ->
  Forall (fun row => AluMachine.row_wf row /\ all_hold (row_calls row)) (alu_trace (ms_shard m)) -> accepted_memory m.
Proof.
  intros Hc Hp Er Eo Ha. unfold shard_check in Hc. cbn zeta in Hc. rewrite !andb_true_iff in Hc. destruct Hc as ((((((((W1 & W2) & W3) & W4) & W5) & Hh) & Hrest) & Hb) & Hf).
  apply bool_decide_eq_true_1 in W1, W3, W4, W5, Hb. rewrite debug_interactions_balanced in Hb by done. cbn [concat] in Hb. rewrite app_nil_r in Hb.
  rewrite !forallb_app, !andb_true_iff in Hh. destruct Hh as (H1 & H2 & H3). rewrite forallb_forall in H1, H2, H3, Hrest, W2, Hf.
  assert (forall k, In k [KByte; KInstruction; KProgram; KMemory] -> Z.of_nat (length (sent k (concat (all_rows (ms_shard m))))) < BABYBEAR /\ Z.of_nat (length (received k (concat (all_rows (ms_shard m))))) < BABYBEAR) as Hfew.
  { intros k Hk. specialize (Hf k Hk). by rewrite andb_true_iff, !Z.ltb_lt in Hf. }
  assert (forall rows, (forall x, In x rows -> @debug_constraints nonzero_filter x = true) -> Forall all_hold rows) as Hold.
  { intros rows Hx. apply Forall_forall. intros row Hrow. apply (debug_constraints_hold (FB := nonzero_filter)), Hx. by apply list_elem_of_In. }
  constructor; try done.
  - constructor.
    + split; [done|]. split; [|eapply Forall_impl; [exact Ha|by intros ? []]]. apply Forall_forall. intros row Hrow. apply list_elem_of_In, W2 in Hrow. destruct row; try discriminate Hrow. by apply bool_decide_eq_true_1 in Hrow.
    + split; [by apply Hold|]. split; [|eapply Forall_impl; [exact Ha|by intros ? []]]. pose proof (Hold _ H3) as Hi. by rewrite Forall_map in Hi.
    + apply Forall_forall. intros c Hin. apply rest_check_ok, Hrest. by apply list_elem_of_In.
    + apply Hb. by left.
    + apply Hb. right. by left.
    + apply Hb. right. right. by left.
    + destruct (Hfew KByte ltac:(by left)) as [F1 _], (Hfew KInstruction ltac:(right; by left)) as [F2 F2'], (Hfew KProgram ltac:(right; right; by left)) as [F3 _].
      exact (conj F1 (conj F2 (conj F2' F3))).
  - by rewrite Eo, app_nil_r.
  - by apply Hold.
  - rewrite Eo. constructor.
  - apply Hb. right. right. right. by left.
  - apply Hfew. right. right. right. by left.
Qed.

Lemma example_alu_ok events : Forall (fun e => (alu_opcode e = ADD \/ alu_opcode e = SUB) /\ alu_event_ok e /\ alu_op_a_0 e = false) events ->
  Forall (fun row => AluMachine.row_wf row /\ all_hold (row_calls row)) (example_alu events).
Proof.
  intros He. unfold example_alu. rewrite Forall_map. eapply Forall_impl; [exact He|]. intros e (H1 & H2 & H3). pose proof (AddSubChip.add_sub_row e ([] : list ByteLookupEvent) H1 H2 H3) as Hrow.
  destruct (AddSubChip.AddSubChip.event_to_row e AddSubChip.AddSubChip.default ([] : list ByteLookupEvent)) as [cols l]. by destruct Hrow as (Hw & _ & (Hh & _)).
Qed.

Lemma example_program_ok : program_ok example_program /\ program_forms example_program.
Proof.
  split; [constructor|].
  - repeat apply Forall_cons_2; try apply Forall_nil_2; split_and!; done || (cbn; lia).
  - cbn. unfold BABYBEAR. lia.
  - by repeat apply Forall_cons_2.
Qed.

Lemma example_shards_accepted : Forall accepted_memory example_shards.
Proof.
  destruct example_program_ok as [Hp _]. repeat apply Forall_cons_2; [..|constructor]; (apply shard_check_ok; [vm_compute; reflexivity|exact Hp|reflexivity|reflexivity|]).
  - apply example_alu_ok. repeat apply Forall_cons_2; [|constructor]. split; [by left|by split_and!].
  - apply example_alu_ok. repeat apply Forall_cons_2; [..|constructor]; (split; [by (left + right)|by split_and!]).
  - constructor.
Qed.

(** A shard shows its public values. *)
Lemma example_shard_shows p mults cpu instrs alu local init final :
  (contains_cpu p = true <-> cpu <> []) -> (contains_global_memory_init p = true <-> init <> []) -> (contains_global_memory_finalize p = true <-> final <> []) ->
  shows p (example_shard (public_values p) mults cpu instrs alu local init final).
Proof. intros H1 H2 H3. by constructor. Qed.

Lemma example_shard_public pv mults cpu instrs alu local init final :
  (forall kind, length (MemoryGlobalChip.last_addr_bits kind (memory_public_values pv)) = 32%nat /\ Forall canon (MemoryGlobalChip.last_addr_bits kind (memory_public_values pv))) ->
  Forall canon [start_pc pv; next_pc pv; execution_shard pv] -> length (committed_value_digest pv) = PV_DIGEST_NUM_WORDS /\ length (deferred_proofs_digest pv) = POSEIDON_NUM_WORDS ->
  public_ok (example_shard pv mults cpu instrs alu local init final).
Proof. intros H1 H2 H3. by constructor. Qed.

Lemma example_shows : Forall2 shows example_proof example_shards.
Proof.
  repeat apply Forall2_cons_2; [..|constructor];
    match goal with |- shows ?p _ => apply (example_shard_shows p) end; (split; [intros H; vm_compute in H |- *; congruence|intros H; vm_compute; vm_compute in H; try reflexivity; by destruct H]).
Qed.

Lemma example_public_ok : Forall public_ok example_shards.
Proof.
  repeat apply Forall_cons_2; [..|constructor]; (apply example_shard_public; [intros [|]; split|..]); try reflexivity; try (split; reflexivity);
    match goal with |- Forall canon ?l => apply (bool_decide_unpack (Forall (fun x => 0 <= x < BABYBEAR) l)); vm_compute; exact I end.
Qed.

Lemma example_global : global_balanced example_program example_shards.
Proof. unfold global_balanced. apply (bool_decide_unpack (_ ≡ₚ _)). vm_compute. exact I. Qed.

Lemma example_proves : proves example_program example_proof example_shards.
Proof.
  constructor; [apply example_shows|apply example_shards_accepted|apply example_public_ok| |apply example_global]. by repeat apply Forall_cons_2.
Qed.

Lemma example_run_ok : run_ok example_program example_shards.
Proof.
  destruct example_program_ok as [Hp Hf]. constructor; [split_and!; [done..|cbn; lia]|done|by repeat apply Forall_cons_2| |].
  - intros addr w Hl. cbn in Hl. apply lookup_singleton_Some in Hl as [<- _]. lia.
  - intros m o a Hm Ho _. exfalso. assert (Forall (fun m => ms_other m = []) example_shards) as Hall by (by repeat apply Forall_cons_2). rewrite Forall_forall in Hall. rewrite (Hall m Hm) in Ho. by apply not_elem_of_nil in Ho.
Qed.

(** ** The theorems at the example *)

Lemma memory_consistent_witness : exists a, a ∈ all_accs example_shards /\ time_of a = (2, 1) /\ ma_addr a = 5 /\
  memory_at example_program example_shards (2, 1) 5 = (ma_prev a).2 /\ (ma_prev a).2 = mkWord 0 3 0 0.
Proof.
  destruct (all_accs example_shards !! 2%nat) as [a|] eqn:Ea; [|exfalso; vm_compute in Ea; discriminate Ea]. exists a. pose proof (list_elem_of_lookup_2 _ _ _ Ea) as Hin.
  assert (time_of a = (2, 1) /\ ma_addr a = 5 /\ (ma_prev a).2 = mkWord 0 3 0 0) as (E1 & E2 & E3) by (vm_compute in Ea; injection Ea as <-; split_and!; reflexivity).
  destruct (memory_consistent 8 (fun _ => None : option unit) example_proof example_program example_shards example_accepted example_proves) as (H & _).
  specialize (H a Hin). rewrite E1, E2 in H. done.
Defined.

