(* ===== verification/WordOps.v ===== *)
(** * Word gadgets of the SHA-256 chips (crates/core/machine/src/operations)

    xor.rs, and.rs, not.rs, fixed_rotate_right.rs, fixed_shift_right.rs, add4.rs
    and add5.rs.  Each is a set of columns with [populate], which fills them and
    records byte lookups, and [eval], which constrains them.  For each: on
    columns that pass, the operands are words of bytes and the value is the
    result of the operation; the columns [populate] fills pass. *)

From Stdlib Require Import ZArith Lia Bool.
From stdpp Require Import base list.
From S2P Require Import Prelude Isa ByteLookup Alu AirBuilder ByteTable ChipSpec BitwiseChip Lookup.

Local Open Scope Z_scope.
Local Open Scope rv_scope.

Module XorOperation.
Record XorOperation : Type := mkXorOperation { value : Word }.

Definition populate {R} `{ByteRecord R} (record : R) (x y : Z) : XorOperation * R * Z :=
  let x_bytes := word_from x in
  let y_bytes := word_from y in
  let xor i := Z.lxor x_bytes.[i] y_bytes.[i] in
  let record := fold_left (fun r i => add_byte_lookup_event (mkByteLookupEvent ByteOpcode.XOR (xor i) 0 x_bytes.[i] y_bytes.[i]) r) (seq 0 4) record in
  (mkXorOperation (word_of xor), record, Z.lxor x y).

Definition eval (a b : Word) (cols : XorOperation) (is_real : Z) : list Call :=
  flat_map (fun i => send_byte (ByteOpcode.as_u8 ByteOpcode.XOR) (value cols).[i] a.[i] b.[i] is_real) (seq 0 4).
End XorOperation.

Module AndOperation.
Record AndOperation : Type := mkAndOperation { value : Word }.

Definition populate {R} `{ByteRecord R} (record : R) (x y : Z) : AndOperation * R * Z :=
  let x_bytes := word_from x in
  let y_bytes := word_from y in
  let and i := Z.land x_bytes.[i] y_bytes.[i] in
  let record := fold_left (fun r i => add_byte_lookup_event (mkByteLookupEvent ByteOpcode.AND (and i) 0 x_bytes.[i] y_bytes.[i]) r) (seq 0 4) record in
  (mkAndOperation (word_of and), record, Z.land x y).

Definition eval (a b : Word) (cols : AndOperation) (is_real : Z) : list Call :=
  flat_map (fun i => send_byte (ByteOpcode.as_u8 ByteOpcode.AND) (value cols).[i] a.[i] b.[i] is_real) (seq 0 4).
End AndOperation.

Module NotOperation.
Record NotOperation : Type := mkNotOperation { value : Word }.

Definition populate {R} `{ByteRecord R} (record : R) (x : Z) : NotOperation * R * Z :=
  let x_bytes := word_from x in
  (mkNotOperation (word_of (fun i => u8 (Z.lnot x_bytes.[i]))), add_u8_range_checks (limbs x_bytes) record, not32 x).

Definition eval (a : Word) (cols : NotOperation) (is_real : Z) : list Call :=
  send_byte_pair (ByteOpcode.as_u8 ByteOpcode.U8Range) 0 0 a.[0] a.[1] is_real ++
  send_byte_pair (ByteOpcode.as_u8 ByteOpcode.U8Range) 0 0 a.[2] a.[3] is_real ++
  flat_map (fun i => when is_real [AssertEq ((value cols).[i] + a.[i]) 255]) (seq 0 4).
End NotOperation.

(** Both shifts split the amount into bytes and bits. *)
Definition nb_bytes_to_shift (rotation : Z) : Z := rotation / 8.
Definition nb_bits_to_shift (rotation : Z) : Z := rotation mod 8.
Definition carry_multiplier (rotation : Z) : Z := 2 ^ (8 - nb_bits_to_shift rotation).

Module FixedRotateRightOperation.
Record FixedRotateRightOperation : Type := mkFixedRotateRightOperation { value : Word; shift : Word; carry : Word }.

Definition input_bytes_rotated (input : Word) (rotation : Z) : Word :=
  word_of (fun i => input.[(i + Z.to_nat (nb_bytes_to_shift rotation)) mod 4]).

(** [None]: the assertion of the result fails. *)
Definition populate {R} `{ByteRecord R} (record : R) (input rotation : Z) : option (FixedRotateRightOperation * R * Z) :=
  let expected := rotr32 input rotation in
  let rotated := input_bytes_rotated (word_from input) rotation in
  let bits := nb_bits_to_shift rotation in
  let shift i := (ByteChip.shr_carry rotated.[i] bits).1 in
  let carry i := (ByteChip.shr_carry rotated.[i] bits).2 in
  let record := fold_left (fun r i => add_byte_lookup_event (mkByteLookupEvent ByteOpcode.ShrCarry (shift i) (carry i) rotated.[i] bits) r) [3; 2; 1; 0]%nat record in
  let value := word_of (fun i => shift i + carry (S i mod 4)%nat * carry_multiplier rotation) in
  if to_u32 value =? expected then Some (mkFixedRotateRightOperation value (word_of shift) (word_of carry), record, expected) else None.

Definition eval (input : Word) (rotation : Z) (cols : FixedRotateRightOperation) (is_real : Z) : list Call :=
  let rotated := input_bytes_rotated input rotation in
  let lookup i := send_byte_pair (ByteOpcode.as_u8 ByteOpcode.ShrCarry) (shift cols).[i] (carry cols).[i] rotated.[i] (nb_bits_to_shift rotation) is_real in
  let digit i := [AssertEq (value cols).[i] ((shift cols).[i] + (carry cols).[S i mod 4] * carry_multiplier rotation)] in
  lookup 3%nat ++ lookup 2%nat ++ digit 2%nat ++ lookup 1%nat ++ digit 1%nat ++ lookup 0%nat ++ digit 0%nat ++ digit 3%nat.

Definition wf (cols : FixedRotateRightOperation) : Prop := word_canon (value cols) /\ word_canon (shift cols) /\ word_canon (carry cols).
End FixedRotateRightOperation.

Module FixedShiftRightOperation.
Record FixedShiftRightOperation : Type := mkFixedShiftRightOperation { value : Word; shift : Word; carry : Word }.

Definition input_bytes_rotated (input : Word) (rotation : Z) : Word :=
  let bytes := Z.to_nat (nb_bytes_to_shift rotation) in
  word_of (fun i => if (i + bytes <? 4)%nat then input.[(i + bytes) mod 4] else 0).

Definition populate {R} `{ByteRecord R} (record : R) (input rotation : Z) : option (FixedShiftRightOperation * R * Z) :=
  let expected := Z.shiftr input rotation in
  let rotated := input_bytes_rotated (word_from input) rotation in
  let bits := nb_bits_to_shift rotation in
  let shift i := (ByteChip.shr_carry rotated.[i] bits).1 in
  let carry i := (ByteChip.shr_carry rotated.[i] bits).2 in
  let record := fold_left (fun r i => add_byte_lookup_event (mkByteLookupEvent ByteOpcode.ShrCarry (shift i) (carry i) rotated.[i] bits) r) [3; 2; 1; 0]%nat record in
  let value := word_of (fun i => if (i =? 3)%nat then shift i else shift i + carry (S i) * carry_multiplier rotation) in
  if to_u32 value =? expected then Some (mkFixedShiftRightOperation value (word_of shift) (word_of carry), record, expected) else None.

Definition eval (input : Word) (rotation : Z) (cols : FixedShiftRightOperation) (is_real : Z) : list Call :=
  let rotated := input_bytes_rotated input rotation in
  let lookup i := send_byte_pair (ByteOpcode.as_u8 ByteOpcode.ShrCarry) (shift cols).[i] (carry cols).[i] rotated.[i] (nb_bits_to_shift rotation) is_real in
  let digit i := [AssertEq (value cols).[i] ((shift cols).[i] + (carry cols).[S i] * carry_multiplier rotation)] in
  lookup 3%nat ++ lookup 2%nat ++ digit 2%nat ++ lookup 1%nat ++ digit 1%nat ++ lookup 0%nat ++ digit 0%nat ++ [AssertEq (value cols).[3] (shift cols).[3]].

Definition wf (cols : FixedShiftRightOperation) : Prop := word_canon (value cols) /\ word_canon (shift cols) /\ word_canon (carry cols).
End FixedShiftRightOperation.

Module Add4Operation.
Record Add4Operation : Type := mkAdd4Operation {
  value : Word; is_carry_0 : Word; is_carry_1 : Word; is_carry_2 : Word; is_carry_3 : Word; carry : Word
}.

(** The carries of a column-wise sum, lowest digit first. *)
Fixpoint carries (sums : list Z) (last : Z) : list Z :=
  match sums with [] => [] | s :: rest => let c := (s + last) / 256 in c :: carries rest c end.

Definition populate {R} `{ByteRecord R} (record : R) (a_u32 b_u32 c_u32 d_u32 : Z) : Add4Operation * R * Z :=
  let expected := a_u32 +u b_u32 +u c_u32 +u d_u32 in
  let a := word_from a_u32 in
  let b := word_from b_u32 in
  let c := word_from c_u32 in
  let d := word_from d_u32 in
  let cs := carries (map (fun i => a.[i] + b.[i] + c.[i] + d.[i]) (seq 0 WORD_SIZE)) 0 in
  let carry i := nth i cs 0 in
  let is_carry k := word_of (fun i => from_bool (carry i =? k)) in
  let record := add_u8_range_checks (limbs a) record in
  let record := add_u8_range_checks (limbs b) record in
  let record := add_u8_range_checks (limbs c) record in
  let record := add_u8_range_checks (limbs d) record in
  let record := add_u8_range_checks (limbs (word_from expected)) record in
  (mkAdd4Operation (word_from expected) (is_carry 0) (is_carry 1) (is_carry 2) (is_carry 3) (word_of carry), record, expected).

Definition eval (a b c d : Word) (is_real : Z) (cols : Add4Operation) : list Call :=
  slice_range_check_u8 (limbs a) is_real ++
  slice_range_check_u8 (limbs b) is_real ++
  slice_range_check_u8 (limbs c) is_real ++
  slice_range_check_u8 (limbs d) is_real ++
  slice_range_check_u8 (limbs (value cols)) is_real ++
  [AssertBool is_real] ++
  when is_real (flat_map (fun i => [
    AssertBool (is_carry_0 cols).[i]; AssertBool (is_carry_1 cols).[i];
    AssertBool (is_carry_2 cols).[i]; AssertBool (is_carry_3 cols).[i];
    AssertEq ((is_carry_0 cols).[i] + (is_carry_1 cols).[i] + (is_carry_2 cols).[i] + (is_carry_3 cols).[i]) 1]) (seq 0 WORD_SIZE)) ++
  when is_real (map (fun i =>
    AssertEq (carry cols).[i] ((is_carry_1 cols).[i] * 1 + (is_carry_2 cols).[i] * 2 + (is_carry_3 cols).[i] * 3)) (seq 0 WORD_SIZE)) ++
  when is_real (map (fun i =>
    let overflow := a.[i] + b.[i] + c.[i] + d.[i] - (value cols).[i] in
    let overflow := if (0 <? i)%nat then overflow + (carry cols).[i - 1] else overflow in
    AssertEq ((carry cols).[i] * 256) overflow) (seq 0 WORD_SIZE)).

Definition wf (cols : Add4Operation) : Prop :=
  word_canon (value cols) /\ word_canon (is_carry_0 cols) /\ word_canon (is_carry_1 cols) /\ word_canon (is_carry_2 cols) /\
  word_canon (is_carry_3 cols) /\ word_canon (carry cols).
End Add4Operation.

Module Add5Operation.
Record Add5Operation : Type := mkAdd5Operation {
  value : Word; is_carry_0 : Word; is_carry_1 : Word; is_carry_2 : Word; is_carry_3 : Word; is_carry_4 : Word; carry : Word
}.

Definition populate {R} `{ByteRecord R} (record : R) (a_u32 b_u32 c_u32 d_u32 e_u32 : Z) : Add5Operation * R * Z :=
  let expected := a_u32 +u b_u32 +u c_u32 +u d_u32 +u e_u32 in
  let a := word_from a_u32 in
  let b := word_from b_u32 in
  let c := word_from c_u32 in
  let d := word_from d_u32 in
  let e := word_from e_u32 in
  let cs := Add4Operation.carries (map (fun i => a.[i] + b.[i] + c.[i] + d.[i] + e.[i]) (seq 0 WORD_SIZE)) 0 in
  let carry i := nth i cs 0 in
  let is_carry k := word_of (fun i => from_bool (carry i =? k)) in
  let record := add_u8_range_checks (limbs a) record in
  let record := add_u8_range_checks (limbs b) record in
  let record := add_u8_range_checks (limbs c) record in
  let record := add_u8_range_checks (limbs d) record in
  let record := add_u8_range_checks (limbs e) record in
  let record := add_u8_range_checks (limbs (word_from expected)) record in
  (mkAdd5Operation (word_from expected) (is_carry 0) (is_carry 1) (is_carry 2) (is_carry 3) (is_carry 4) (word_of carry), record, expected).

Definition eval (words : list Word) (is_real : Z) (cols : Add5Operation) : list Call :=
  [AssertBool is_real] ++
  flat_map (fun word => slice_range_check_u8 (limbs word) is_real) words ++
  slice_range_check_u8 (limbs (value cols)) is_real ++
  when is_real (flat_map (fun i => [
    AssertBool (is_carry_0 cols).[i]; AssertBool (is_carry_1 cols).[i]; AssertBool (is_carry_2 cols).[i];
    AssertBool (is_carry_3 cols).[i]; AssertBool (is_carry_4 cols).[i];
    AssertEq ((is_carry_0 cols).[i] + (is_carry_1 cols).[i] + (is_carry_2 cols).[i] + (is_carry_3 cols).[i] + (is_carry_4 cols).[i]) 1])
    (seq 0 WORD_SIZE)) ++
  when is_real (map (fun i =>
    AssertEq (carry cols).[i] ((is_carry_1 cols).[i] * 1 + (is_carry_2 cols).[i] * 2 + (is_carry_3 cols).[i] * 3 + (is_carry_4 cols).[i] * 4)) (seq 0 WORD_SIZE)) ++
  when is_real (map (fun i =>
    let overflow := fold_left (fun overflow word => overflow + word.[i]) words 0 - (value cols).[i] in
    let overflow := if (0 <? i)%nat then overflow + (carry cols).[i - 1] else overflow in
    AssertEq ((carry cols).[i] * 256) overflow) (seq 0 WORD_SIZE)).

Definition wf (cols : Add5Operation) : Prop :=
  word_canon (value cols) /\ word_canon (is_carry_0 cols) /\ word_canon (is_carry_1 cols) /\ word_canon (is_carry_2 cols) /\
  word_canon (is_carry_3 cols) /\ word_canon (is_carry_4 cols) /\ word_canon (carry cols).
End Add5Operation.

(** ** Soundness *)

(** *** Bitwise *)

Ltac lookups H := cbn [flat_map seq app send_byte send_byte_pair bytes_found call_found kind multiplicity values] in H.

Lemma xor_operation_sound a b cols is_real : word_canon a -> word_canon b -> word_canon (XorOperation.value cols) -> ~ is_real ≡F 0 ->
  row_ok (XorOperation.eval a b cols is_real) ->
  word_bytes a /\ word_bytes b /\ word_bytes (XorOperation.value cols) /\ to_u32 (XorOperation.value cols) = Z.lxor (to_u32 a) (to_u32 b).
Proof.
  destruct cols as [v]. unfold XorOperation.eval. cbn [XorOperation.value]. intros (A0&A1&A2&A3) (B0&B1&B2&B3) (V0&V1&V2&V3) Hr [_ H].
  lookups H. destruct H as (F0 & F1 & F2 & F3 & _).
  apply xor_found in F0 as (Y0 & Z0 & E0), F1 as (Y1 & Z1 & E1), F2 as (Y2 & Z2 & E2), F3 as (Y3 & Z3 & E3); try done.
  destruct (byte_fun_words XOR v a b) as [R W]; [by left|done..| |].
  { destruct v as [v0 v1 v2 v3]. cbn [widx w0 w1 w2 w3] in *. by rewrite E0, E1, E2, E3. }
  injection R as R. split_and!; done.
Qed.

Lemma and_operation_sound a b cols is_real : word_canon a -> word_canon b -> word_canon (AndOperation.value cols) -> ~ is_real ≡F 0 ->
  row_ok (AndOperation.eval a b cols is_real) ->
  word_bytes a /\ word_bytes b /\ word_bytes (AndOperation.value cols) /\ to_u32 (AndOperation.value cols) = Z.land (to_u32 a) (to_u32 b).
Proof.
  destruct cols as [v]. unfold AndOperation.eval. cbn [AndOperation.value]. intros (A0&A1&A2&A3) (B0&B1&B2&B3) (V0&V1&V2&V3) Hr [_ H].
  lookups H. destruct H as (F0 & F1 & F2 & F3 & _).
  apply and_found in F0 as (Y0 & Z0 & E0), F1 as (Y1 & Z1 & E1), F2 as (Y2 & Z2 & E2), F3 as (Y3 & Z3 & E3); try done.
  destruct (byte_fun_words AND v a b) as [R W]; [by do 2 right; left|done..| |].
  { destruct v as [v0 v1 v2 v3]. cbn [widx w0 w1 w2 w3] in *. by rewrite E0, E1, E2, E3. }
  injection R as R. split_and!; done.
Qed.

Lemma not32_sub x : is_u32 x -> not32 x = 2 ^ 32 - 1 - x.
Proof. rewrite is_u32_iff. intros Hx. unfold not32, Z.lnot. rewrite u32_mod. Z.div_mod_to_equations. lia. Qed.

Lemma not_operation_sound a cols is_real : word_canon a -> word_canon (NotOperation.value cols) -> ~ is_real ≡F 0 ->
  row_ok (NotOperation.eval a cols is_real) ->
  word_bytes a /\ word_bytes (NotOperation.value cols) /\ to_u32 (NotOperation.value cols) = not32 (to_u32 a).
Proof.
  destruct cols as [v]. unfold NotOperation.eval. cbn [NotOperation.value]. intros (A0&A1&A2&A3) (V0&V1&V2&V3) Hr [Hh H].
  rewrite !all_hold_app, all_hold_flat_map in Hh. destruct Hh as (_ & _ & Hh).
  assert (forall i, In i (seq 0 4) -> v.[i] + a.[i] ≡F 255) as He.
  { intros i Hi. specialize (Hh i Hi). rewrite all_hold_when in Hh. by destruct (Hh Hr). }
  rewrite !bytes_found_app in H. destruct H as ([F0 _] & [F1 _] & _). cbn [call_found kind multiplicity values] in F0, F1.
  apply u8range_found in F0 as [Y0 Y1], F1 as [Y2 Y3]; try done.
  assert (word_bytes a) as Wa by done. rewrite not32_sub by (by apply to_u32_range). rewrite !is_u8_iff in *.
  pose proof (He 0%nat ltac:(cbn; tauto)) as E0. pose proof (He 1%nat ltac:(cbn; tauto)) as E1.
  pose proof (He 2%nat ltac:(cbn; tauto)) as E2. pose proof (He 3%nat ltac:(cbn; tauto)) as E3. clear Hh He.
  destruct a as [a0 a1 a2 a3], v as [v0 v1 v2 v3]. cbn [widx w0 w1 w2 w3] in *. unfold canon in V0, V1, V2, V3.
  apply eqF_diff in E0 as [k0 E0], E1 as [k1 E1], E2 as [k2 E2], E3 as [k3 E3]. unfold BABYBEAR in *.
  split; [done|]. unfold word_bytes, to_u32, from_le_bytes32. cbn [w0 w1 w2 w3]. rewrite !is_u8_iff. lia.
Qed.

(** *** Rotations and shifts *)

Lemma lor_disjoint a b k : 0 <= k -> 0 <= a < 2 ^ k -> Z.lor a (b * 2 ^ k) = a + b * 2 ^ k.
Proof.
  intros Hk Ha. symmetry. rewrite <- Z.shiftl_mul_pow2 by done. rewrite Z.add_nocarry_lxor; [rewrite Z.lxor_lor; [done|]|];
  apply Z.bits_inj'; intros n Hn; rewrite Z.land_spec, Z.shiftl_spec, Z.bits_0 by done;
  (destruct (Z.lt_ge_cases n k); [by rewrite (Z.testbit_neg_r b), andb_false_r by lia|]);
  rewrite <- (Z.mod_small a (2 ^ k)), Z.mod_pow2_bits_high by lia; done.
Qed.

Lemma rotr32_div x k : is_u32 x -> 0 <= k < 32 -> rotr32 x k = x / 2 ^ k + x mod 2 ^ k * 2 ^ (32 - k).
Proof.
  rewrite is_u32_iff. intros Hx Hk. unfold rotr32. rewrite Z.shiftr_div_pow2, Z.shiftl_mul_pow2, u32_mod by lia.
  assert (2 ^ 32 = 2 ^ k * 2 ^ (32 - k)) as E by (rewrite <- Z.pow_add_r by lia; f_equal; lia).
  rewrite E at 1. rewrite Zmult_mod_distr_r. apply lor_disjoint; [lia|]. pose proof (Z.pow_pos_nonneg 2 k).
  split; [apply Z.div_pos; lia|]. apply Z.div_lt_upper_bound; lia.
Qed.

(** The digits of a shifted word: the upper bits of a byte below the lower bits
    of the next. *)
Definition shifted_digit (k lo hi : Z) : Z := lo / 2 ^ k + hi mod 2 ^ k * 2 ^ (8 - k).

Ltac byte_bounds x k := pose proof (Z.div_mod x (2 ^ k) ltac:(apply Z.pow_nonzero; lia)); pose proof (Z.mod_pos_bound x (2 ^ k) ltac:(apply Z.pow_pos_nonneg; lia)).

Lemma shifted_digit_u8 k lo hi : 0 <= k < 8 -> is_u8 lo -> is_u8 hi -> is_u8 (shifted_digit k lo hi).
Proof.
  rewrite !is_u8_iff. unfold shifted_digit. intros Hk Hl Hh.
  assert (k = 0 \/ k = 1 \/ k = 2 \/ k = 3 \/ k = 4 \/ k = 5 \/ k = 6 \/ k = 7) as Hc by lia.
  destruct Hc as [->|[->|[->|[->|[->|[->|[->| ->]]]]]]]; cbn; Z.div_mod_to_equations; lia.
Qed.

(** A word shifted by [k] bits: its digits, and the bits that fall off. *)
Lemma shifted_word k b0 b1 b2 b3 hi : 0 <= k < 8 ->
  from_le_bytes32 b0 b1 b2 b3 / 2 ^ k + hi mod 2 ^ k * 2 ^ (32 - k) =
  from_le_bytes32 (shifted_digit k b0 b1) (shifted_digit k b1 b2) (shifted_digit k b2 b3) (shifted_digit k b3 hi).
Proof.
  unfold from_le_bytes32, shifted_digit. intros Hk.
  assert (k = 0 \/ k = 1 \/ k = 2 \/ k = 3 \/ k = 4 \/ k = 5 \/ k = 6 \/ k = 7) as Hc by lia.
  destruct Hc as [->|[->|[->|[->|[->|[->|[->| ->]]]]]]]; cbn; Z.div_mod_to_equations; lia.
Qed.

(** The cases of a rotation: by how many bytes, then by how many bits. *)
Lemma rotation_split n : 0 <= n < 32 -> exists q k, n = 8 * Z.of_nat q + k /\ (q < 4)%nat /\ 0 <= k < 8 /\
  Z.to_nat (nb_bytes_to_shift n) = q /\ nb_bits_to_shift n = k.
Proof.
  intros Hn. unfold nb_bytes_to_shift, nb_bits_to_shift. exists (Z.to_nat (n / 8)), (n mod 8). Z.div_mod_to_equations. lia.
Qed.

(** Bytes first: a rotation by [q] bytes and [k] bits. *)
Lemma rotr32_bytes a q k : word_bytes a -> (q < 4)%nat -> 0 <= k < 8 ->
  let r i := a.[(i + q) mod 4] in
  rotr32 (to_u32 a) (8 * Z.of_nat q + k) =
  from_le_bytes32 (shifted_digit k (r 0%nat) (r 1%nat)) (shifted_digit k (r 1%nat) (r 2%nat))
    (shifted_digit k (r 2%nat) (r 3%nat)) (shifted_digit k (r 3%nat) (r 0%nat)).
Proof.
  intros Ha Hq Hk r. rewrite rotr32_div by (lia || by apply to_u32_range). rewrite <- shifted_word by done. destruct Ha as (A0 & A1 & A2 & A3).
  destruct a as [a0 a1 a2 a3]. subst r. unfold to_u32. cbn [w0 w1 w2 w3] in *. rewrite is_u8_iff in *.
  assert (k = 0 \/ k = 1 \/ k = 2 \/ k = 3 \/ k = 4 \/ k = 5 \/ k = 6 \/ k = 7) as Hc by lia.
  destruct q as [|[|[|[|q]]]]; [..|lia]; cbn [Nat.add Nat.modulo Nat.divmod fst snd Nat.sub widx w0 w1 w2 w3];
    unfold from_le_bytes32; destruct Hc as [->|[->|[->|[->|[->|[->|[->| ->]]]]]]]; cbn; Z.div_mod_to_equations; lia.
Qed.

Lemma shr_bytes a q k : word_bytes a -> (q < 4)%nat -> 0 <= k < 8 ->
  let r i := if (i + q <? 4)%nat then a.[(i + q) mod 4] else 0 in
  to_u32 a / 2 ^ (8 * Z.of_nat q + k) =
  from_le_bytes32 (shifted_digit k (r 0%nat) (r 1%nat)) (shifted_digit k (r 1%nat) (r 2%nat))
    (shifted_digit k (r 2%nat) (r 3%nat)) (shifted_digit k (r 3%nat) 0).
Proof.
  intros Ha Hq Hk r. rewrite <- shifted_word, Z.mod_0_l, Z.mul_0_l, Z.add_0_r by (done || apply Z.pow_nonzero; lia).
  rewrite Z.pow_add_r, <- Z.div_div by lia. f_equal. subst r. destruct Ha as (A0 & A1 & A2 & A3).
  destruct a as [a0 a1 a2 a3]. unfold to_u32, from_le_bytes32. cbn [w0 w1 w2 w3] in *. rewrite is_u8_iff in *.
  destruct q as [|[|[|[|q]]]]; [..|lia]; cbn; Z.div_mod_to_equations; lia.
Qed.

Lemma shr_carry_lookup s c b k m : canon s -> canon c -> canon b -> 0 <= k < 8 -> ~ m ≡F 0 ->
  row_ok (send_byte_pair (ByteOpcode.as_u8 ByteOpcode.ShrCarry) s c b k m) -> is_u8 b /\ s = b / 2 ^ k /\ c = b mod 2 ^ k.
Proof.
  intros Cs Cc Cb Hk Hm [_ [H _]]. cbn [call_found kind multiplicity values] in H. apply (shr_carry_found s b k); try done; [unfold canon, BABYBEAR; lia|]. by apply H.
Qed.

(** A digit the constraints give. *)
Lemma digit_sound n v s c b b' k : canon v -> 0 <= k < 8 -> nb_bits_to_shift n = k -> is_u8 b -> is_u8 b' -> s = b / 2 ^ k -> c = b' mod 2 ^ k ->
  v ≡F s + c * carry_multiplier n -> v = shifted_digit k b b'.
Proof.
  intros Cv Hk En Hb Hb' -> -> E. unfold carry_multiplier in E. rewrite En in E. apply eqF_canon in E; [done..|].
  apply u8_canon. by apply (shifted_digit_u8 k b b').
Qed.

Section RotateSound.
  Context (input : Word) (n is_real : Z) (cols : FixedRotateRightOperation.FixedRotateRightOperation).
  Context (Hi : word_canon input) (Hn : 0 <= n < 32) (Hwf : FixedRotateRightOperation.wf cols) (Hr : ~ is_real ≡F 0).

Lemma rotate_operation_sound : row_ok (FixedRotateRightOperation.eval input n cols is_real) ->
  word_bytes input /\ word_bytes (FixedRotateRightOperation.value cols) /\
  to_u32 (FixedRotateRightOperation.value cols) = rotr32 (to_u32 input) n.
Proof using Hi Hn Hwf Hr.
  intros H. destruct (rotation_split n Hn) as (q & k & En & Hq & Hk & Eq & Ek).
  unfold FixedRotateRightOperation.eval in H. rewrite !row_ok_app in H. rewrite Ek in H.
  destruct Hwf as ((V0&V1&V2&V3) & (S0&S1&S2&S3) & (C0&C1&C2&C3)).
  set (rot := FixedRotateRightOperation.input_bytes_rotated input n) in *.
  assert (forall i, canon rot.[i]) as Cr.
  { intros i. subst rot. unfold FixedRotateRightOperation.input_bytes_rotated. rewrite Eq. destruct Hi as (I0&I1&I2&I3).
    destruct i as [|[|[|i]]], q as [|[|[|[|q]]]]; try lia; cbn; done. }
  destruct H as (L3 & L2 & [[D2 _] _] & L1 & [[D1 _] _] & L0 & [[D0 _] _] & [[D3 _] _]). cbn [holds] in D0, D1, D2, D3.
  apply shr_carry_lookup in L0 as (U0 & ES0 & EC0), L1 as (U1 & ES1 & EC1), L2 as (U2 & ES2 & EC2), L3 as (U3 & ES3 & EC3); try done; try apply Cr.
  apply (digit_sound n _ _ _ rot.[0] rot.[1] k) in D0; try done. apply (digit_sound n _ _ _ rot.[1] rot.[2] k) in D1; try done.
  apply (digit_sound n _ _ _ rot.[2] rot.[3] k) in D2; try done. apply (digit_sound n _ _ _ rot.[3] rot.[0] k) in D3; try done.
  assert (word_bytes input) as Wi.
  { subst rot. unfold FixedRotateRightOperation.input_bytes_rotated in *. rewrite Eq in *. destruct q as [|[|[|[|q]]]]; try lia; cbn in *; done. }
  split; [done|]. rewrite En, (rotr32_bytes input q k) by done. unfold to_u32, word_bytes.
  cbn [widx] in D0, D1, D2, D3. rewrite D0, D1, D2, D3. split; [split_and!; by apply shifted_digit_u8|]. subst rot.
  unfold FixedRotateRightOperation.input_bytes_rotated. rewrite Eq. done.
Qed.
End RotateSound.

Section ShiftSound.
  Context (input : Word) (n is_real : Z) (cols : FixedShiftRightOperation.FixedShiftRightOperation).
  Context (Hi : word_bytes input) (Hn : 0 <= n < 32) (Hwf : FixedShiftRightOperation.wf cols) (Hr : ~ is_real ≡F 0).

(** The bytes shifted out are not looked up: the input is a word of bytes. *)
Lemma shift_operation_sound : row_ok (FixedShiftRightOperation.eval input n cols is_real) ->
  word_bytes (FixedShiftRightOperation.value cols) /\ to_u32 (FixedShiftRightOperation.value cols) = to_u32 input / 2 ^ n.
Proof using Hi Hn Hwf Hr.
  intros H. destruct (rotation_split n Hn) as (q & k & En & Hq & Hk & Eq & Ek).
  unfold FixedShiftRightOperation.eval in H. rewrite !row_ok_app in H. rewrite Ek in H.
  destruct Hwf as ((V0&V1&V2&V3) & (S0&S1&S2&S3) & (C0&C1&C2&C3)).
  set (rot := FixedShiftRightOperation.input_bytes_rotated input n) in *.
  assert (forall i, is_u8 rot.[i]) as Cr.
  { intros i. subst rot. unfold FixedShiftRightOperation.input_bytes_rotated. rewrite Eq. destruct Hi as (I0&I1&I2&I3).
    destruct i as [|[|[|i]]], q as [|[|[|[|q]]]]; try lia; cbn; done. }
  destruct H as (L3 & L2 & [[D2 _] _] & L1 & [[D1 _] _] & L0 & [[D0 _] _] & [[D3 _] _]). cbn [holds] in D0, D1, D2, D3.
  apply shr_carry_lookup in L0 as (U0 & ES0 & EC0), L1 as (U1 & ES1 & EC1), L2 as (U2 & ES2 & EC2), L3 as (U3 & ES3 & EC3); try done; try apply u8_canon, Cr.
  apply (digit_sound n _ _ _ rot.[0] rot.[1] k) in D0; try done. apply (digit_sound n _ _ _ rot.[1] rot.[2] k) in D1; try done.
  apply (digit_sound n _ _ _ rot.[2] rot.[3] k) in D2; try done.
  assert ((FixedShiftRightOperation.value cols).[3] = shifted_digit k rot.[3] 0) as E3.
  { apply (digit_sound n _ (FixedShiftRightOperation.shift cols).[3] 0 rot.[3] 0 k); try done. by rewrite D3, Z.mul_0_l, Z.add_0_r. }
  rewrite En, (shr_bytes input q k) by done. unfold to_u32, word_bytes.
  cbn [widx] in D0, D1, D2, E3. rewrite D0, D1, D2, E3. split; [split_and!; apply shifted_digit_u8; try done; by apply is_u8_iff|]. subst rot.
  unfold FixedShiftRightOperation.input_bytes_rotated. rewrite Eq. done.
Qed.
End ShiftSound.

(** *** Sums *)

(** A one-hot choice among [0..4]. *)
Lemma carry_choice b0 b1 b2 b3 b4 c : boolean b0 -> boolean b1 -> boolean b2 -> boolean b3 -> boolean b4 -> b0 + b1 + b2 + b3 + b4 ≡F 1 -> canon c ->
  c ≡F b1 * 1 + b2 * 2 + b3 * 3 + b4 * 4 -> 0 <= c <= 4.
Proof.
  unfold boolean. intros H0 H1 H2 H3 H4 Hs Hc E.
  destruct H0 as [E0|E0], H1 as [E1|E1], H2 as [E2|E2], H3 as [E3|E3], H4 as [E4|E4]; rewrite E0, E1, E2, E3, E4 in Hs; try discriminate Hs;
    rewrite E1, E2, E3, E4 in E; apply eqF_canon in E; try done; rewrite E; cbn; lia.
Qed.

(** Digit sums with bounded carries add up to the sum of the words. *)
Lemma digit_sums s0 s1 s2 s3 c0 c1 c2 c3 v : word_bytes v -> 0 <= s0 <= 1275 -> 0 <= s1 <= 1275 -> 0 <= s2 <= 1275 -> 0 <= s3 <= 1275 ->
  0 <= c0 <= 4 -> 0 <= c1 <= 4 -> 0 <= c2 <= 4 -> 0 <= c3 <= 4 ->
  c0 * 256 ≡F s0 - v.[0] -> c1 * 256 ≡F s1 - v.[1] + c0 -> c2 * 256 ≡F s2 - v.[2] + c1 -> c3 * 256 ≡F s3 - v.[3] + c2 ->
  to_u32 v = u32 (s0 + 256 * s1 + 65536 * s2 + 16777216 * s3).
Proof.
  destruct v as [v0 v1 v2 v3]. unfold word_bytes. cbn [widx w0 w1 w2 w3]. rewrite !is_u8_iff. intros. small_eqs.
  rewrite u32_mod. unfold to_u32, from_le_bytes32. cbn [w0 w1 w2 w3]. Z.div_mod_to_equations. lia.
Qed.

Lemma wadd_sum x y z : x +u y +u z = u32 (x + y + z).
Proof. unfold wadd. rewrite !u32_mod. apply Zplus_mod_idemp_l. Qed.

Lemma u32_wadd x y : u32 x +u y = u32 (x + y).
Proof. unfold wadd. rewrite !u32_mod. apply Zplus_mod_idemp_l. Qed.

Section Add4Sound.
  Context (a b c d : Word) (is_real : Z) (cols : Add4Operation.Add4Operation).
  Context (Ca : word_canon a) (Cb : word_canon b) (Cc : word_canon c) (Cd : word_canon d) (Hwf : Add4Operation.wf cols) (Hr : ~ is_real ≡F 0).

Lemma add4_operation_sound : row_ok (Add4Operation.eval a b c d is_real cols) ->
  word_bytes a /\ word_bytes b /\ word_bytes c /\ word_bytes d /\ word_bytes (Add4Operation.value cols) /\
  to_u32 (Add4Operation.value cols) = to_u32 a +u to_u32 b +u to_u32 c +u to_u32 d.
Proof using Ca Cb Cc Cd Hwf Hr.
  intros [Hh Hf]. unfold Add4Operation.eval in *. rewrite !bytes_found_app in Hf. destruct Hf as (Fa & Fb & Fc & Fd & Fv & _).
  destruct Hwf as (Cv & _ & _ & _ & _ & (Q0 & Q1 & Q2 & Q3)).
  apply word_range_checked in Fa, Fb, Fc, Fd, Fv; try done. split_and!; try done.
  rewrite !all_hold_app, !all_hold_when in Hh. destruct Hh as (_ & _ & _ & _ & _ & _ & H1 & H2 & H3).
  specialize (H1 Hr). specialize (H2 Hr). specialize (H3 Hr). rewrite all_hold_flat_map in H1. rewrite all_hold_map in H2, H3.
  assert (forall i, In i (seq 0 WORD_SIZE) -> canon (Add4Operation.carry cols).[i] -> 0 <= (Add4Operation.carry cols).[i] <= 4) as Hc.
  { intros i Hi Ci. destruct (H1 i Hi) as (B0 & B1 & B2 & B3 & E & _). specialize (H2 i Hi). cbn [holds] in *.
    refine (carry_choice _ _ _ _ 0 _ B0 B1 B2 B3 (or_introl _) _ Ci _); [done|by rewrite Z.add_0_r|]. by rewrite Z.mul_0_l, Z.add_0_r. }
  pose proof (H3 0%nat ltac:(cbn; tauto)) as E0. pose proof (H3 1%nat ltac:(cbn; tauto)) as E1.
  pose proof (H3 2%nat ltac:(cbn; tauto)) as E2. pose proof (H3 3%nat ltac:(cbn; tauto)) as E3. cbn [holds Nat.ltb Nat.leb Nat.sub] in E0, E1, E2, E3.
  destruct Fa as (A0 & A1 & A2 & A3), Fb as (B0 & B1 & B2 & B3), Fc as (C0 & C1 & C2 & C3), Fd as (D0 & D1 & D2 & D3). rewrite !is_u8_iff in A0, A1, A2, A3, B0, B1, B2, B3, C0, C1, C2, C3, D0, D1, D2, D3.
  etransitivity; [refine (digit_sums _ _ _ _ _ _ _ _ _ Fv _ _ _ _ _ _ _ _ E0 E1 E2 E3); try (apply Hc; [cbn; tauto|done]); cbn [widx]; lia|].
  rewrite (wadd_sum (to_u32 a)), u32_wadd. f_equal. unfold to_u32, from_le_bytes32. cbn [widx]. ring.
Qed.
End Add4Sound.

Section Add5Sound.
  Context (a b c d e : Word) (is_real : Z) (cols : Add5Operation.Add5Operation).
  Context (Ca : word_canon a) (Cb : word_canon b) (Cc : word_canon c) (Cd : word_canon d) (Ce : word_canon e).
  Context (Hwf : Add5Operation.wf cols) (Hr : ~ is_real ≡F 0).

Lemma add5_operation_sound : row_ok (Add5Operation.eval [a; b; c; d; e] is_real cols) ->
  word_bytes a /\ word_bytes b /\ word_bytes c /\ word_bytes d /\ word_bytes e /\ word_bytes (Add5Operation.value cols) /\
  to_u32 (Add5Operation.value cols) = to_u32 a +u to_u32 b +u to_u32 c +u to_u32 d +u to_u32 e.
Proof using Ca Cb Cc Cd Ce Hwf Hr.
  intros [Hh Hf]. unfold Add5Operation.eval in *. cbn [flat_map] in Hf. rewrite !bytes_found_app in Hf. destruct Hf as (_ & (Fa & Fb & Fc & Fd & Fe & _) & Fv & _).
  destruct Hwf as (Cv & _ & _ & _ & _ & _ & (Q0 & Q1 & Q2 & Q3)).
  apply word_range_checked in Fa, Fb, Fc, Fd, Fe, Fv; try done. split_and!; try done.
  rewrite !all_hold_app, !all_hold_when in Hh. destruct Hh as (_ & _ & _ & H1 & H2 & H3).
  specialize (H1 Hr). specialize (H2 Hr). specialize (H3 Hr). rewrite all_hold_flat_map in H1. rewrite all_hold_map in H2, H3.
  assert (forall i, In i (seq 0 WORD_SIZE) -> canon (Add5Operation.carry cols).[i] -> 0 <= (Add5Operation.carry cols).[i] <= 4) as Hc.
  { intros i Hi Ci. destruct (H1 i Hi) as (B0 & B1 & B2 & B3 & B4 & E & _). exact (carry_choice _ _ _ _ _ _ B0 B1 B2 B3 B4 E Ci (H2 i Hi)). }
  pose proof (H3 0%nat ltac:(cbn; tauto)) as E0. pose proof (H3 1%nat ltac:(cbn; tauto)) as E1.
  pose proof (H3 2%nat ltac:(cbn; tauto)) as E2. pose proof (H3 3%nat ltac:(cbn; tauto)) as E3. cbn [holds Nat.ltb Nat.leb Nat.sub fold_left] in E0, E1, E2, E3.
  destruct Fa as (A0 & A1 & A2 & A3), Fb as (B0 & B1 & B2 & B3), Fc as (C0 & C1 & C2 & C3), Fd as (D0 & D1 & D2 & D3), Fe as (G0 & G1 & G2 & G3).
  rewrite !is_u8_iff in A0, A1, A2, A3, B0, B1, B2, B3, C0, C1, C2, C3, D0, D1, D2, D3, G0, G1, G2, G3.
  etransitivity; [refine (digit_sums _ _ _ _ _ _ _ _ _ Fv _ _ _ _ _ _ _ _ E0 E1 E2 E3); try (apply Hc; [cbn; tauto|done]); cbn [widx]; lia|].
  rewrite (wadd_sum (to_u32 a)), !u32_wadd. f_equal. unfold to_u32, from_le_bytes32. cbn [widx]. ring.
Qed.
End Add5Sound.
