(* ===== verification/ShaExtendChip.v ===== *)
(** * The ShaExtend chip
    (crates/core/machine/src/syscall/precompiles/sha256/extend)

    48 rows per system call, one per word of the message schedule.  A power of
    a 16th root of unity and three flags count the rows of a block; each row
    reads four words, computes the next one with the gadgets of [WordOps] and
    writes it.  On a table that passes, a block that receives a system call
    extends the sixteen words in memory to the schedule of FIPS 180-4. *)

From Stdlib Require Import ZArith Lia Bool Permutation.
From stdpp Require Import base list gmap.
From S2P Require Import Prelude Monad Isa SyscallCode Events ByteLookup Record Alu State Executor Context Step Run Syscalls Precompiles CallMem Sha.
From S2P Require Import AirBuilder ByteTable MemoryAir Operations ChipSpec Lookup TraceGen CpuChip MemoryCheck MemoryBus CoreMemory WordOps.

Local Open Scope Z_scope.
Local Open Scope rv_scope.

Import CpuChip (RowPosition, mkRowPosition, is_first_row, is_last_row, is_transition).

Module ShaExtendChip.
Record ShaExtendCols : Type := mkShaExtendCols {
  shard : Z; clk : Z; w_ptr : Z;
  i : Z;
  cycle_16 : Z;
  cycle_16_start : IsZeroOperation.IsZeroOperation;
  cycle_16_end : IsZeroOperation.IsZeroOperation;
  cycle_48 : list Z;
  cycle_48_start : Z; cycle_48_end : Z;
  w_i_minus_15 : MemoryReadCols;
  w_i_minus_15_rr_7 : FixedRotateRightOperation.FixedRotateRightOperation;
  w_i_minus_15_rr_18 : FixedRotateRightOperation.FixedRotateRightOperation;
  w_i_minus_15_rs_3 : FixedShiftRightOperation.FixedShiftRightOperation;
  s0_intermediate : XorOperation.XorOperation;
  s0 : XorOperation.XorOperation;
  w_i_minus_2 : MemoryReadCols;
  w_i_minus_2_rr_17 : FixedRotateRightOperation.FixedRotateRightOperation;
  w_i_minus_2_rr_19 : FixedRotateRightOperation.FixedRotateRightOperation;
  w_i_minus_2_rs_10 : FixedShiftRightOperation.FixedShiftRightOperation;
  s1_intermediate : XorOperation.XorOperation;
  s1 : XorOperation.XorOperation;
  w_i_minus_16 : MemoryReadCols;
  w_i_minus_7 : MemoryReadCols;
  s2 : Add4Operation.Add4Operation;
  w_i : MemoryWriteCols;
  is_real : Z
}.

Definition flag (local : ShaExtendCols) (k : nat) : Z := nth k (cycle_48 local) 0.

(** ** Constraints *)

(** [g] is [BabyBear::two_adic_generator(4)]. *)
Section Eval.
  Context (g : Z) (at_ : RowPosition) (local next : ShaExtendCols).
Let start16 := IsZeroOperation.result (cycle_16_start local).
Let end16 := IsZeroOperation.result (cycle_16_end local).

Definition eval_flags : list Call :=
  when (is_first_row at_) [AssertEq (cycle_16 local) g] ++
  when (is_first_row at_) [AssertEq (i local) 16] ++
  when (is_transition at_) [AssertEq (cycle_16 local * g) (cycle_16 next)] ++
  IsZeroOperation.eval (cycle_16 local - g) (cycle_16_start local) 1 ++
  IsZeroOperation.eval (cycle_16 local - 1) (cycle_16_end local) 1 ++
  when (is_first_row at_) [AssertEq (flag local 0) 1] ++
  when (is_first_row at_) [AssertEq (flag local 1) 0] ++
  when (is_first_row at_) [AssertEq (flag local 2) 0] ++
  flat_map (fun k =>
    when (is_transition at_) (when end16 [AssertEq (flag local k) (flag next (S k mod 3))]) ++
    when (is_transition at_) (when (1 - end16) [AssertEq (flag local k) (flag next k)]) ++
    [AssertBool (flag local k)]) (seq 0 3) ++
  [AssertEq (start16 * flag local 0 * is_real local) (cycle_48_start local)] ++
  [AssertEq (end16 * flag local 2 * is_real local) (cycle_48_end local)] ++
  when (is_transition at_) (when (end16 * flag local 2) [AssertEq (i next) 16]) ++
  when (is_transition at_) (when_not (end16 * flag local 2) [AssertEq (i local + 1) (i next)]).

Definition eval_inputs : list Call :=
  when (is_transition at_) (when_not (end16 * flag local 2) [AssertEq (shard local) (shard next)]) ++
  when (is_transition at_) (when_not (end16 * flag local 2) [AssertEq (clk local) (clk next)]) ++
  when (is_transition at_) (when_not (end16 * flag local 2) [AssertEq (w_ptr local) (w_ptr next)]).

Definition eval_reads : list Call :=
  eval_memory_access (shard local) (clk local + (i local - 16)) (w_ptr local + (i local - 15) * 4) (w_i_minus_15 local) (is_real local) ++
  eval_memory_access (shard local) (clk local + (i local - 16)) (w_ptr local + (i local - 2) * 4) (w_i_minus_2 local) (is_real local) ++
  eval_memory_access (shard local) (clk local + (i local - 16)) (w_ptr local + (i local - 16) * 4) (w_i_minus_16 local) (is_real local) ++
  eval_memory_access (shard local) (clk local + (i local - 16)) (w_ptr local + (i local - 7) * 4) (w_i_minus_7 local) (is_real local).

Definition eval_s0 : list Call :=
  FixedRotateRightOperation.eval (value (w_i_minus_15 local)) 7 (w_i_minus_15_rr_7 local) (is_real local) ++
  FixedRotateRightOperation.eval (value (w_i_minus_15 local)) 18 (w_i_minus_15_rr_18 local) (is_real local) ++
  FixedShiftRightOperation.eval (value (w_i_minus_15 local)) 3 (w_i_minus_15_rs_3 local) (is_real local) ++
  XorOperation.eval (FixedRotateRightOperation.value (w_i_minus_15_rr_7 local)) (FixedRotateRightOperation.value (w_i_minus_15_rr_18 local))
    (s0_intermediate local) (is_real local) ++
  XorOperation.eval (XorOperation.value (s0_intermediate local)) (FixedShiftRightOperation.value (w_i_minus_15_rs_3 local)) (s0 local) (is_real local).

Definition eval_s1 : list Call :=
  FixedRotateRightOperation.eval (value (w_i_minus_2 local)) 17 (w_i_minus_2_rr_17 local) (is_real local) ++
  FixedRotateRightOperation.eval (value (w_i_minus_2 local)) 19 (w_i_minus_2_rr_19 local) (is_real local) ++
  FixedShiftRightOperation.eval (value (w_i_minus_2 local)) 10 (w_i_minus_2_rs_10 local) (is_real local) ++
  XorOperation.eval (FixedRotateRightOperation.value (w_i_minus_2_rr_17 local)) (FixedRotateRightOperation.value (w_i_minus_2_rr_19 local))
    (s1_intermediate local) (is_real local) ++
  XorOperation.eval (XorOperation.value (s1_intermediate local)) (FixedShiftRightOperation.value (w_i_minus_2_rs_10 local)) (s1 local) (is_real local).

Definition eval_s2 : list Call :=
  Add4Operation.eval (value (w_i_minus_16 local)) (XorOperation.value (s0 local)) (value (w_i_minus_7 local)) (XorOperation.value (s1 local))
    (is_real local) (s2 local).

Definition eval : list Call :=
  eval_flags ++ eval_inputs ++ eval_reads ++ eval_s0 ++ eval_s1 ++ eval_s2 ++
  eval_memory_access (shard local) (clk local + (i local - 16)) (w_ptr local + i local * 4) (w_i local) (is_real local) ++
  assert_word_eq (value (w_i local)) (Add4Operation.value (s2 local)) ++
  receive_syscall (shard local) (clk local) (syscall_id SHA_EXTEND) (w_ptr local) 0 (cycle_48_start local) Local ++
  [AssertBool (is_real local)] ++
  when (is_transition at_) (when_not (cycle_48_end local) [AssertEq (is_real local) (is_real next)]) ++
  when (is_last_row at_) [AssertZero (is_real local)].
End Eval.

Definition wf (r : ShaExtendCols) : Prop :=
  Forall canon [shard r; clk r; w_ptr r; i r; cycle_16 r; cycle_48_start r; cycle_48_end r; is_real r] /\
  (IsZeroOperation.wf (cycle_16_start r) /\ IsZeroOperation.wf (cycle_16_end r) /\ length (cycle_48 r) = 3%nat /\ Forall canon (cycle_48 r)) /\
  (access_wf (access (w_i_minus_15 r)) /\ access_wf (access (w_i_minus_2 r)) /\ access_wf (access (w_i_minus_16 r)) /\
   access_wf (access (w_i_minus_7 r)) /\ access_wf (access (w_i r)) /\ word_canon (prev_value (w_i r))) /\
  (FixedRotateRightOperation.wf (w_i_minus_15_rr_7 r) /\ FixedRotateRightOperation.wf (w_i_minus_15_rr_18 r) /\ FixedShiftRightOperation.wf (w_i_minus_15_rs_3 r) /\
   word_canon (XorOperation.value (s0_intermediate r)) /\ word_canon (XorOperation.value (s0 r))) /\
  (FixedRotateRightOperation.wf (w_i_minus_2_rr_17 r) /\ FixedRotateRightOperation.wf (w_i_minus_2_rr_19 r) /\ FixedShiftRightOperation.wf (w_i_minus_2_rs_10 r) /\
   word_canon (XorOperation.value (s1_intermediate r)) /\ word_canon (XorOperation.value (s1 r))) /\
  Add4Operation.wf (s2 r).
(** ** Filling the rows *)

(** The columns of [populate_flags] in row [i]. *)
Section Trace.
  Context (g : Z).

Record Flags : Type := mkFlags {
  f_cycle_16 : Z; f_cycle_16_start : IsZeroOperation.IsZeroOperation; f_cycle_16_end : IsZeroOperation.IsZeroOperation;
  f_i : Z; f_cycle_48 : list Z; f_cycle_48_start : Z; f_cycle_48_end : Z
}.

Definition populate_flags (is_real : Z) (i : nat) : Flags :=
  let cycle_16 := Fred (g ^ Z.of_nat (i + 1)) in
  let cycle_16_start := (IsZeroOperation.populate_from_field_element (cycle_16 - g)).1 in
  let cycle_16_end := (IsZeroOperation.populate_from_field_element (cycle_16 - 1)).1 in
  let j := (16 + i mod 48)%nat in
  let within lo hi := from_bool ((lo <=? j)%nat && (j <? hi)%nat) in
  mkFlags cycle_16 cycle_16_start cycle_16_end (Z.of_nat j) [within 16%nat 32%nat; within 32%nat 48%nat; within 48%nat 64%nat]
    (within 16%nat 32%nat * IsZeroOperation.result cycle_16_start * is_real)
    (within 48%nat 64%nat * IsZeroOperation.result cycle_16_end * is_real).

Definition zero_rotate := FixedRotateRightOperation.mkFixedRotateRightOperation word_zero word_zero word_zero.
Definition zero_shift := FixedShiftRightOperation.mkFixedShiftRightOperation word_zero word_zero word_zero.
Definition zero_xor := XorOperation.mkXorOperation word_zero.
Definition zero_add4 := Add4Operation.mkAdd4Operation word_zero word_zero word_zero word_zero word_zero word_zero.
Definition write_zero := mkMemoryWriteCols word_zero access_zero.

Definition padding_row (i : nat) : ShaExtendCols :=
  let f := populate_flags 0 i in
  mkShaExtendCols 0 0 0 (f_i f) (f_cycle_16 f) (f_cycle_16_start f) (f_cycle_16_end f) (f_cycle_48 f) (f_cycle_48_start f) (f_cycle_48_end f)
    read_zero zero_rotate zero_rotate zero_shift zero_xor zero_xor read_zero zero_rotate zero_rotate zero_shift zero_xor zero_xor
    read_zero read_zero zero_add4 write_zero 0.

(** Row [j] of an event ([None]: an index out of range, or a failed assertion of
    a gadget). *)
Definition event_to_row {R} `{ByteRecord R} (event : ShaExtendEvent) (j : nat) (blu : R) : option (ShaExtendCols * R) :=
  let f := populate_flags 1 j in
  r15 ← se_w_i_minus_15_reads event !! j;
  r2 ← se_w_i_minus_2_reads event !! j;
  r16 ← se_w_i_minus_16_reads event !! j;
  r7 ← se_w_i_minus_7_reads event !! j;
  let '(w_i_minus_15, blu) := populate_mem_read r15 blu in
  let '(w_i_minus_2, blu) := populate_mem_read r2 blu in
  let '(w_i_minus_16, blu) := populate_mem_read r16 blu in
  let '(w_i_minus_7, blu) := populate_mem_read r7 blu in
  '(rr_7, blu, v_rr_7) ← FixedRotateRightOperation.populate blu (rd_value r15) 7;
  '(rr_18, blu, v_rr_18) ← FixedRotateRightOperation.populate blu (rd_value r15) 18;
  '(rs_3, blu, v_rs_3) ← FixedShiftRightOperation.populate blu (rd_value r15) 3;
  let '(s0_intermediate, blu, v_s0_intermediate) := XorOperation.populate blu v_rr_7 v_rr_18 in
  let '(s0, blu, v_s0) := XorOperation.populate blu v_s0_intermediate v_rs_3 in
  '(rr_17, blu, v_rr_17) ← FixedRotateRightOperation.populate blu (rd_value r2) 17;
  '(rr_19, blu, v_rr_19) ← FixedRotateRightOperation.populate blu (rd_value r2) 19;
  '(rs_10, blu, v_rs_10) ← FixedShiftRightOperation.populate blu (rd_value r2) 10;
  let '(s1_intermediate, blu, v_s1_intermediate) := XorOperation.populate blu v_rr_17 v_rr_19 in
  let '(s1, blu, v_s1) := XorOperation.populate blu v_s1_intermediate v_rs_10 in
  let '(s2, blu, _) := Add4Operation.populate blu (rd_value r16) v_s0 (rd_value r7) v_s1 in
  write ← se_w_i_writes event !! j;
  let '(w_i, blu) := populate_mem_write write blu in
  Some (mkShaExtendCols (Fred (se_shard event)) (Fred (se_clk event)) (Fred (se_w_ptr event))
    (f_i f) (f_cycle_16 f) (f_cycle_16_start f) (f_cycle_16_end f) (f_cycle_48 f) (f_cycle_48_start f) (f_cycle_48_end f)
    w_i_minus_15 rr_7 rr_18 rs_3 s0_intermediate s0 w_i_minus_2 rr_17 rr_19 rs_10 s1_intermediate s1 w_i_minus_16 w_i_minus_7 s2 w_i 1, blu).

Definition event_to_rows {R} `{ByteRecord R} (event : ShaExtendEvent) (rows : list ShaExtendCols) (blu : R) : option (list ShaExtendCols * R) :=
  fold_left (fun acc j => '(rows, blu) ← acc; '(row, blu) ← event_to_row event j blu; Some (rows ++ [row], blu)) (seq 0 48) (Some (rows, blu)).

(** [unreachable!()] on an event of another kind. *)
Definition sha_extend_event (e : SyscallEvent * PrecompileEvent) : option ShaExtendEvent :=
  match e.2 with PShaExtend event => Some event | _ => None end.

Definition get_precompile_events (code : SyscallCode) (input : ExecutionRecord) : option (list (SyscallEvent * PrecompileEvent)) :=
  found ← precompile_get_events code (precompile_events input); found.

(** [usize::next_power_of_two]; at least four rows. *)
Definition padded_nb_rows (nb_rows : nat) : nat :=
  let padded := (2 ^ Nat.log2_up nb_rows)%nat in
  if (padded =? 2)%nat || (padded =? 1)%nat then 4%nat else padded.

Definition generate_trace (input : ExecutionRecord) : option (list ShaExtendCols) :=
  events ← get_precompile_events SHA_EXTEND input;
  '(rows, _) ← fold_left (fun acc e => '(rows, blu) ← acc; event ← sha_extend_event e; event_to_rows event rows blu)
    events (Some ([], [] : list ByteLookupEvent));
  let nb_rows := length rows in
  Some (rows ++ map padding_row (seq nb_rows (padded_nb_rows nb_rows - nb_rows))).

Definition generate_dependencies (cpus : nat) (input output : ExecutionRecord) : option ExecutionRecord :=
  events ← get_precompile_events SHA_EXTEND input;
  maps ← mapM (fun batch => snd <$> fold_left (fun acc e => '(rows, blu) ← acc; event ← sha_extend_event e; event_to_rows event rows blu)
    batch (Some ([], ∅ : gmap ByteLookupEvent Z))) (chunks (chunk_size (length events) cpus) events);
  add_byte_lookup_events_from_maps maps output.
End Trace.
End ShaExtendChip.
Import ShaExtendChip.

(** ** Roots of unity *)

(** What [two_adic_generator(4)] promises. *)
Definition order_16 (g : Z) : Prop := g ^ 16 ≡F 1 /\ ~ g ^ 8 ≡F 1.

Lemma pow_eqF x y n : 0 <= n -> x ≡F y -> x ^ n ≡F y ^ n.
Proof.
  intros Hn E. revert n Hn. apply natlike_ind; [done|]. intros n Hn IH. rewrite !Z.pow_succ_r by done. by apply eqF_mul.
Qed.

Section Root.
  Context (g : Z) (Hg : order_16 g).

Lemma root_periodic n k : 0 <= n -> 0 <= k -> g ^ (n + 16 * k) ≡F g ^ n.
Proof using Hg.
  intros Hn Hk. rewrite Z.pow_add_r, Z.pow_mul_r by lia. rewrite (pow_eqF (g ^ 16) 1 k Hk (proj1 Hg)). by rewrite Z.pow_1_l, Z.mul_1_r.
Qed.

Lemma root_mod n : 0 <= n -> g ^ n ≡F g ^ (n mod 16).
Proof using Hg.
  intros Hn. rewrite (Z.div_mod n 16) at 1 by lia. rewrite Z.add_comm. apply root_periodic; Z.div_mod_to_equations; lia.
Qed.

(** A power below the order is not one: some multiple of its exponent is 8. *)
Lemma root_not_one n : 0 < n < 16 -> ~ g ^ n ≡F 1.
Proof using Hg.
  intros Hn E. destruct Hg as [_ H8]. apply H8. clear H8.
  assert (exists u k, 0 <= u /\ 0 <= k /\ n * u = 8 + 16 * k) as (u & k & Hu & Hk & Eu).
  { assert (exists u, 0 <= u /\ (n * u) mod 16 = 8) as (u & Hu & Eu).
    { exists (if n mod 8 =? 0 then 1 else if n mod 4 =? 0 then 2 else if n mod 2 =? 0 then 4 else 8).
      assert (n = 1 \/ n = 2 \/ n = 3 \/ n = 4 \/ n = 5 \/ n = 6 \/ n = 7 \/ n = 8 \/ n = 9 \/ n = 10 \/ n = 11 \/ n = 12 \/ n = 13 \/ n = 14 \/ n = 15) as Hc by lia.
      repeat (destruct Hc as [->|Hc]; [split; [done|reflexivity]|]). subst. split; [done|reflexivity]. }
    exists u, ((n * u) / 16). split; [done|]. split; [Z.div_mod_to_equations; lia|]. rewrite <- Eu, Z.add_comm. apply Z.div_mod. lia. }
  rewrite <- (root_periodic 8 k ltac:(lia) Hk), <- Eu. rewrite Z.pow_mul_r by lia. rewrite (pow_eqF (g ^ n) 1 u Hu E). by rewrite Z.pow_1_l.
Qed.

Lemma root_one n : 0 <= n -> g ^ n ≡F 1 <-> n mod 16 = 0.
Proof using Hg.
  intros Hn. rewrite root_mod by done. pose proof (Z.mod_pos_bound n 16 ltac:(lia)). split; [|by intros ->].
  intros E. destruct (decide (n mod 16 = 0)); [done|]. exfalso. apply (root_not_one (n mod 16)); [lia|done].
Qed.

(** [g ^ (n + 1) = g] at the multiples of 16. *)
Lemma root_self n : 0 <= n -> g ^ (n + 1) ≡F g <-> n mod 16 = 0.
Proof using Hg.
  intros Hn. rewrite <- (root_one n Hn), Z.add_1_r, Z.pow_succ_r by done. split; [|intros ->; by rewrite Z.mul_1_r].
  intros E. assert (g * (g ^ n - 1) ≡F 0) as E0 by (rewrite Z.mul_sub_distr_l, E, Z.mul_1_r, Z.sub_diag; done).
  apply eqF_mul_0 in E0 as [E0|E0]; [|by apply eqF_sub_0]. exfalso.
  destruct Hg as [H16 _]. rewrite (pow_eqF g 0 16 ltac:(lia) E0) in H16. discriminate H16.
Qed.
End Root.

(** The rows of a block of 48, and of its thirds. *)
Ltac count t :=
  pose proof (Nat.div_mod_eq t 16); pose proof (Nat.mod_upper_bound t 16); pose proof (Nat.div_mod_eq (S t) 16); pose proof (Nat.mod_upper_bound (S t) 16);
  pose proof (Nat.div_mod_eq (t / 16) 3); pose proof (Nat.mod_upper_bound (t / 16) 3); pose proof (Nat.div_mod_eq t 48); pose proof (Nat.mod_upper_bound t 48);
  pose proof (Nat.div_mod_eq (S t / 16) 3); pose proof (Nat.mod_upper_bound (S t / 16) 3); pose proof (Nat.div_mod_eq (S t) 48); pose proof (Nat.mod_upper_bound (S t) 48);
  lia.

(** ** The counters of a table *)

Definition extend_row (g : Z) (rows : list ShaExtendCols) (t : nat) (r : ShaExtendCols) : list Call :=
  eval g (row_position (length rows) t) r (nth (S t mod length rows) rows r).

(** Rows that pass, with their byte lookups. *)
Record accepted_extend (g : Z) (rows : list ShaExtendCols) : Prop := {
  ae_wf : Forall wf rows;
  ae_ok : Forall row_ok (imap (extend_row g rows) rows)
}.

(** What the counters show in row [t]. *)
Record counters_at (g : Z) (t : nat) (r : ShaExtendCols) : Prop := {
  ct_cycle_16 : cycle_16 r ≡F g ^ Z.of_nat (t + 1);
  ct_flag k : (k < 3)%nat -> flag r k = from_bool ((t / 16) mod 3 =? k)%nat;
  ct_i : i r = Z.of_nat (16 + t mod 48)
}.

Section Table.
  Context (g : Z) (rows : list ShaExtendCols) (Hg : order_16 g) (Hok : accepted_extend g rows).

Lemma extend_lookup t r : rows !! t = Some r -> wf r /\ row_ok (extend_row g rows t r).
Proof using Hok.
  clear Hg. intros Ht. destruct Hok as [Hw Ho]. rewrite Forall_lookup in Hw. rewrite Forall_lookup in Ho.
  split; [by apply (Hw t)|]. apply (Ho t). by rewrite list_lookup_imap, Ht.
Qed.

Lemma extend_next_row t r r' : rows !! S t = Some r' -> nth (S t mod length rows) rows r = r'.
Proof using.
  clear. intros H. pose proof (lookup_lt_Some _ _ _ H). rewrite Nat.mod_small by lia. by apply nth_lookup_Some.
Qed.

Lemma flag_canon r k : wf r -> (k < 3)%nat -> canon (flag r k).
Proof using. clear. intros (_ & (_ & _ & L & C) & _) Hk. rewrite Forall_forall in C. apply C, list_elem_of_In, nth_In. lia. Qed.

(** The parts of the flag constraints of a row. *)
Lemma flags_hold t r : rows !! t = Some r -> all_hold (eval_flags g (row_position (length rows) t) r (nth (S t mod length rows) rows r)).
Proof using Hok. clear Hg. intros [_ [Hh _]]%extend_lookup. unfold extend_row, eval in Hh. by apply all_hold_app in Hh as [Hh _]. Qed.

Section Ends.
  Context (t : nat) (r : ShaExtendCols) (Ht : rows !! t = Some r) (Hc : counters_at g t r).

Lemma start16_eq : IsZeroOperation.result (cycle_16_start r) = from_bool (t mod 16 =? 0)%nat.
Proof using Hg Hok Ht Hc.
  pose proof (flags_hold t r Ht) as Hh. unfold eval_flags in Hh. rewrite !all_hold_app in Hh. destruct Hh as (_ & _ & _ & Hs & _).
  destruct (extend_lookup t r Ht) as [(_ & ((_ & C) & _) & _) _]. rewrite (is_zero_sound _ _ 1 C ltac:(done) Hs). f_equal.
  assert (cycle_16 r - g ≡F 0 <-> (t mod 16 = 0)%nat) as E.
  { rewrite eqF_sub_0. rewrite (ct_cycle_16 _ _ _ Hc). replace (Z.of_nat (t + 1)) with (Z.of_nat t + 1) by lia. rewrite (root_self g Hg) by lia. pose proof (Nat2Z.inj_mod t 16). lia. }
  rewrite (bool_decide_ext _ _ E). destruct (Nat.eqb_spec (t mod 16) 0); [by apply bool_decide_eq_true|by apply bool_decide_eq_false].
Qed.

Lemma end16_eq : IsZeroOperation.result (cycle_16_end r) = from_bool (S t mod 16 =? 0)%nat.
Proof using Hg Hok Ht Hc.
  pose proof (flags_hold t r Ht) as Hh. unfold eval_flags in Hh. rewrite !all_hold_app in Hh. destruct Hh as (_ & _ & _ & _ & Hs & _).
  destruct (extend_lookup t r Ht) as [(_ & (_ & (_ & C) & _) & _) _]. rewrite (is_zero_sound _ _ 1 C ltac:(done) Hs). f_equal.
  assert (cycle_16 r - 1 ≡F 0 <-> (S t mod 16 = 0)%nat) as E.
  { rewrite eqF_sub_0. rewrite (ct_cycle_16 _ _ _ Hc). rewrite (root_one g Hg) by lia. pose proof (Nat2Z.inj_mod (t + 1) 16) as E. rewrite Nat.add_1_r in *. lia. }
  rewrite (bool_decide_ext _ _ E). destruct (Nat.eqb_spec (S t mod 16) 0); [by apply bool_decide_eq_true|by apply bool_decide_eq_false].
Qed.

(** The end of a block. *)
Lemma end48_eq : IsZeroOperation.result (cycle_16_end r) * flag r 2 = from_bool (t mod 48 =? 47)%nat.
Proof using Hg Hok Ht Hc.
  rewrite end16_eq, (ct_flag _ _ _ Hc) by lia. destruct (Nat.eqb_spec (S t mod 16) 0), (Nat.eqb_spec ((t / 16) mod 3) 2), (Nat.eqb_spec (t mod 48) 47);
    try reflexivity; exfalso; count t.
Qed.

Lemma start48_eq : IsZeroOperation.result (cycle_16_start r) * flag r 0 = from_bool (t mod 48 =? 0)%nat.
Proof using Hg Hok Ht Hc.
  rewrite start16_eq, (ct_flag _ _ _ Hc) by lia. destruct (Nat.eqb_spec (t mod 16) 0), (Nat.eqb_spec ((t / 16) mod 3) 0), (Nat.eqb_spec (t mod 48) 0);
    try reflexivity; exfalso; count t.
Qed.
End Ends.

Lemma first_counters r : rows !! 0%nat = Some r -> counters_at g 0 r.
Proof using Hok.
  clear Hg. intros H0. pose proof (flags_hold 0 r H0) as Hh. destruct (extend_lookup 0 r H0) as [Hw _]. unfold eval_flags in Hh.
  rewrite !all_hold_app, !all_hold_when in Hh. destruct Hh as (C & I & _ & _ & _ & F0 & F1 & F2 & _).
  cbn [row_position is_first_row Nat.eqb from_bool] in *. destruct (C ltac:(done)) as [C' _], (I ltac:(done)) as [I' _], (F0 ltac:(done)) as [F0' _], (F1 ltac:(done)) as [F1' _], (F2 ltac:(done)) as [F2' _].
  cbn [holds] in *. clear C I F0 F1 F2. constructor.
  - by rewrite C', Z.pow_1_r.
  - intros k Hk. pose proof (flag_canon r k Hw Hk). destruct k as [|[|[|k]]]; [..|lia]; by apply eqF_canon.
  - apply eqF_canon; [done| |done]. destruct Hw as (C & _). rewrite !Forall_cons in C. apply C.
Qed.

Lemma next_counters t r r' : rows !! t = Some r -> rows !! S t = Some r' -> counters_at g t r -> counters_at g (S t) r'.
Proof using Hg Hok.
  intros Ht Ht' Hc. pose proof (flags_hold t r Ht) as Hh. rewrite (extend_next_row t r r' Ht') in Hh. destruct (extend_lookup (S t) r' Ht') as [Hw _].
  pose proof (end16_eq t r Ht Hc) as E16. pose proof (end48_eq t r Ht Hc) as E48.
  assert (is_transition (row_position (length rows) t) = 1) as Etr.
  { cbn [row_position is_transition]. apply lookup_lt_Some in Ht'. by rewrite (proj2 (Nat.ltb_lt _ _) Ht'). }
  unfold eval_flags in Hh. rewrite Etr, E48, E16 in Hh. unfold when_not, when_ne in Hh. rewrite !all_hold_app, !all_hold_when, all_hold_flat_map in Hh.
  destruct Hh as (_ & _ & C & _ & _ & _ & _ & _ & F & _ & _ & I & I'). specialize (C ltac:(done)) as [C _]. specialize (I ltac:(done)). specialize (I' ltac:(done)). cbn [holds] in C.
  constructor.
  - rewrite <- C, (ct_cycle_16 _ _ _ Hc). replace (Z.of_nat (S t + 1)) with (Z.of_nat (t + 1) + 1) by lia. by rewrite Z.pow_add_r, Z.pow_1_r by lia.
  - assert (forall j, (j < 3)%nat -> flag r j ≡F flag r' (if (S t mod 16 =? 0)%nat then S j mod 3 else j)) as Hf.
    { intros j Hj. assert (In j (seq 0 3)) as Hin by (apply in_seq; lia). specialize (F j Hin). rewrite !all_hold_app, !all_hold_when in F.
      destruct F as (FE & FN & _). specialize (FE ltac:(done)). specialize (FN ltac:(done)). destruct (S t mod 16 =? 0)%nat; cbn [from_bool] in *.
      - by destruct (FE ltac:(done)).
      - by destruct (FN ltac:(done)). }
    clear F. assert (forall j, (j < 3)%nat -> flag r' (if (S t mod 16 =? 0)%nat then S j mod 3 else j) = from_bool ((t / 16) mod 3 =? j)%nat) as Hf'.
    { intros j Hj. rewrite <- (ct_flag _ _ _ Hc j Hj). symmetry. apply eqF_canon; [by apply Hf|rewrite (ct_flag _ _ _ Hc j Hj); apply from_bool_canon|].
      apply flag_canon; [done|]. destruct (S t mod 16 =? 0)%nat; [apply Nat.mod_upper_bound|]; lia. }
    intros k Hk. destruct (Nat.eqb_spec (S t mod 16) 0) as [Ez|Ez].
    + assert (exists c, (t / 16) mod 3 = c /\ (S t / 16) mod 3 = (if c =? 2 then 0 else S c) /\ c < 3)%nat as (c & Ec & Ec' & Hc3).
      { eexists. split; [reflexivity|]. destruct (Nat.eqb_spec ((t / 16) mod 3) 2); count t. }
      rewrite Ec', Ec in *. clear - Hf' Hk Hc3. pose proof (Hf' 0%nat ltac:(lia)) as F0. pose proof (Hf' 1%nat ltac:(lia)) as F1. pose proof (Hf' 2%nat ltac:(lia)) as F2. cbn in F0, F1, F2.
      destruct k as [|[|[|k]]]; [..|lia]; rewrite ?F0, ?F1, ?F2; destruct c as [|[|[|c]]]; done || lia.
    + rewrite Hf' by done. f_equal. replace (S t / 16)%nat with (t / 16)%nat by count t. done.
  - assert (canon (i r')) as Ci by (destruct Hw as (C' & _); rewrite !Forall_cons in C'; apply C').
    assert (canon (Z.of_nat (16 + S t mod 48))) as Cn by (pose proof (Nat.mod_upper_bound (S t) 48); unfold canon, BABYBEAR; lia).
    apply eqF_canon; [|done..]. destruct (Nat.eqb_spec (t mod 48) 47) as [Ez|Ez]; cbn [from_bool] in *.
    + destruct (I ltac:(done)) as [I2 _]. cbn [holds] in I2. rewrite I2. replace (S t mod 48)%nat with 0%nat by count t. done.
    + destruct (I' ltac:(done)) as [I2 _]. cbn [holds] in I2. rewrite <- I2, (ct_i _ _ _ Hc). replace (S t mod 48)%nat with (S (t mod 48))%nat by count t.
      apply eqF_diff. exists 0. lia.
Qed.

Lemma counters_hold t r : rows !! t = Some r -> counters_at g t r.
Proof using Hg Hok.
  revert r. induction t as [|t IH]; intros r Ht; [by apply first_counters|].
  destruct (lookup_lt_is_Some_2 rows t) as [r0 H0]; [apply lookup_lt_Some in Ht; lia|]. by apply (next_counters t r0 r); auto.
Qed.

(** *** Blocks *)

Lemma real_bool t r : rows !! t = Some r -> is_real r = 0 \/ is_real r = 1.
Proof using Hok.
  clear Hg. intros [Hw [Hh _]]%extend_lookup. unfold extend_row, eval in Hh. rewrite !all_hold_app in Hh. destruct Hh as (_ & _ & _ & _ & _ & _ & _ & _ & _ & [B _] & _).
  destruct Hw as (C & _). rewrite !Forall_cons in C. apply bool_canon; [exact B|apply C].
Qed.

(** The row that receives the call is the first of a block. *)
Lemma start_row t r : rows !! t = Some r -> ~ cycle_48_start r ≡F 0 -> (t mod 48 = 0)%nat /\ is_real r = 1 /\ cycle_48_start r ≡F 1.
Proof using Hg Hok.
  intros Ht Hs. pose proof (flags_hold t r Ht) as Hh. unfold eval_flags in Hh. rewrite !all_hold_app in Hh.
  destruct Hh as (_ & _ & _ & _ & _ & _ & _ & _ & _ & [E _] & _). cbn [holds] in E. rewrite (start48_eq t r Ht (counters_hold t r Ht)) in E.
  rewrite <- E in Hs. rewrite <- E. destruct (Nat.eqb_spec (t mod 48) 0), (real_bool t r Ht) as [Er|Er]; rewrite Er in *; try (exfalso; apply Hs; reflexivity). split_and!; [done..|reflexivity].
Qed.

Lemma same_block t r r' : rows !! t = Some r -> rows !! S t = Some r' -> (t mod 48 <> 47)%nat ->
  shard r' = shard r /\ clk r' = clk r /\ w_ptr r' = w_ptr r /\ is_real r' = is_real r.
Proof using Hg Hok.
  intros Ht Ht' Hb. pose proof (counters_hold t r Ht) as Hc. destruct (extend_lookup t r Ht) as [Hw [Hh _]]. destruct (extend_lookup _ _ Ht') as [Hw' _].
  pose proof (flags_hold t r Ht) as Hf. pose proof (end48_eq t r Ht Hc) as E48. rewrite (proj2 (Nat.eqb_neq _ _) Hb) in E48.
  unfold eval_flags in Hf. rewrite !all_hold_app in Hf. destruct Hf as (_ & _ & _ & _ & _ & _ & _ & _ & _ & _ & [E _] & _). cbn [holds] in E. rewrite E48 in E.
  assert (is_transition (row_position (length rows) t) = 1) as Etr.
  { cbn [row_position is_transition]. apply lookup_lt_Some in Ht'. by rewrite (proj2 (Nat.ltb_lt _ _) Ht'). }
  unfold extend_row, eval, eval_inputs in Hh. rewrite (extend_next_row t r r' Ht'), Etr, E48 in Hh. unfold when_not, when_ne in Hh. rewrite !all_hold_app, !all_hold_when in Hh.
  destruct Hh as (_ & (H1 & H2 & H3) & _ & _ & _ & _ & _ & _ & _ & _ & H4 & _).
  destruct (H1 ltac:(done) ltac:(done)) as [H1' _], (H2 ltac:(done) ltac:(done)) as [H2' _], (H3 ltac:(done) ltac:(done)) as [H3' _]. cbn [holds from_bool] in *.
  assert (~ cycle_48_end r - 1 ≡F 0) as Hn by (rewrite <- E, Z.mul_0_l; done). destruct (H4 ltac:(done) Hn) as [H4' _]. cbn [holds] in H4'.
  destruct Hw as (C & _), Hw' as (C' & _). rewrite !Forall_cons in C. rewrite !Forall_cons in C'.
  split_and!; symmetry; apply eqF_canon; first [assumption|apply C|apply C'].
Qed.

Lemma last_not_real t r : rows !! t = Some r -> S t = length rows -> is_real r = 0.
Proof using Hok.
  clear Hg. intros Ht El. destruct (extend_lookup t r Ht) as [Hw [Hh _]]. unfold extend_row, eval in Hh. rewrite !all_hold_app, !all_hold_when in Hh.
  destruct Hh as (_ & _ & _ & _ & _ & _ & _ & _ & _ & _ & _ & L). cbn [row_position is_last_row] in L. rewrite (proj2 (Nat.eqb_eq _ _) El) in L.
  destruct (L ltac:(done)) as [L' _]. destruct Hw as (C & _). rewrite !Forall_cons in C. apply eqF_canon; [exact L'|apply C|done].
Qed.

(** A block that starts real has its 48 rows, which agree on the call. *)
Lemma block_rows t0 r0 : rows !! t0 = Some r0 -> (t0 mod 48 = 0)%nat -> is_real r0 = 1 -> forall j, (j < 48)%nat ->
  exists r, rows !! (t0 + j)%nat = Some r /\ i r = 16 + Z.of_nat j /\ shard r = shard r0 /\ clk r = clk r0 /\ w_ptr r = w_ptr r0 /\ is_real r = 1.
Proof using Hg Hok.
  intros H0 Hm Hr. assert (forall j, (j < 48)%nat -> (t0 + j) mod 48 = j)%nat as Hj.
  { intros j Hj. rewrite (Nat.div_mod_eq t0 48), Hm, Nat.add_0_r, Nat.add_comm, Nat.mul_comm, Nat.Div0.mod_add. by apply Nat.mod_small. }
  induction j as [|j IH]; intros Hlt.
  - exists r0. rewrite Nat.add_0_r. rewrite (ct_i _ _ _ (counters_hold t0 r0 H0)), Hm. done.
  - destruct (IH ltac:(lia)) as (r & Ht & _ & E1 & E2 & E3 & E4). pose proof (lookup_lt_Some _ _ _ Ht) as Hl.
    destruct (lookup_lt_is_Some_2 rows (S (t0 + j))) as [r' Ht'].
    { destruct (decide (S (t0 + j) = length rows)) as [E|E]; [|lia]. rewrite (last_not_real _ _ Ht E) in E4. done. }
    exists r'. rewrite Nat.add_succ_r. destruct (same_block _ _ _ Ht Ht') as (-> & -> & -> & ->); [rewrite Hj by lia; lia|].
    rewrite (ct_i _ _ _ (counters_hold _ _ Ht')). rewrite <- Nat.add_succ_r, Hj by done. split_and!; try done; [by rewrite Nat.add_succ_r|lia].
Qed.
End Table.

(** ** What a row computes *)

Section Row.
  Context (g : Z) (at_ : RowPosition) (r next : ShaExtendCols) (Hwf : wf r) (Hok : row_ok (eval g at_ r next)) (Hr : is_real r = 1).

Lemma s0_sound : word_bytes (value (w_i_minus_15 r)) /\ word_bytes (XorOperation.value (s0 r)) /\
  to_u32 (XorOperation.value (s0 r)) = sigma0 (to_u32 (value (w_i_minus_15 r))).
Proof using Hwf Hok Hr.
  destruct Hwf as (_ & _ & ((C15 & _) & _) & (W7 & W18 & W3 & Wi & Ws) & _). unfold eval, eval_s0 in Hok. rewrite !row_ok_app in Hok. rewrite Hr in Hok.
  destruct Hok as (_ & _ & _ & (R7 & R18 & R3 & X & X') & _). change (ac_value (access (w_i_minus_15 r))) with (value (w_i_minus_15 r)) in C15.
  apply rotate_operation_sound in R7 as (B & V7 & E7); [|done||lia..]. apply rotate_operation_sound in R18 as (_ & V18 & E18); [|done||lia..].
  apply shift_operation_sound in R3 as (V3 & E3); [|done||lia..].
  apply xor_operation_sound in X as (_ & _ & Vi & Ei); [|done||by apply word_bytes_canon..].
  apply xor_operation_sound in X' as (_ & _ & Vs & Es); [|done||by apply word_bytes_canon..].
  split_and!; [done..|]. by rewrite Es, Ei, E7, E18, E3.
Qed.

Lemma s1_sound : word_bytes (value (w_i_minus_2 r)) /\ word_bytes (XorOperation.value (s1 r)) /\
  to_u32 (XorOperation.value (s1 r)) = sigma1 (to_u32 (value (w_i_minus_2 r))).
Proof using Hwf Hok Hr.
  destruct Hwf as (_ & _ & (_ & (C2 & _) & _) & _ & (W17 & W19 & W10 & Wi & Ws) & _). unfold eval, eval_s1 in Hok. rewrite !row_ok_app in Hok. rewrite Hr in Hok.
  destruct Hok as (_ & _ & _ & _ & (R17 & R19 & R10 & X & X') & _). change (ac_value (access (w_i_minus_2 r))) with (value (w_i_minus_2 r)) in C2.
  apply rotate_operation_sound in R17 as (B & V17 & E17); [|done||lia..]. apply rotate_operation_sound in R19 as (_ & V19 & E19); [|done||lia..].
  apply shift_operation_sound in R10 as (V10 & E10); [|done||lia..].
  apply xor_operation_sound in X as (_ & _ & Vi & Ei); [|done||by apply word_bytes_canon..].
  apply xor_operation_sound in X' as (_ & _ & Vs & Es); [|done||by apply word_bytes_canon..].
  split_and!; [done..|]. by rewrite Es, Ei, E17, E19, E10.
Qed.

(** A real row writes the next word of the schedule. *)
Lemma extend_word : let w {C} `{MemoryCols C} (c : C) := to_u32 (value c) in
  w (w_i r) = (sigma1 (w (w_i_minus_2 r)) + w (w_i_minus_7 r) + sigma0 (w (w_i_minus_15 r)) + w (w_i_minus_16 r)) mod 2 ^ 32.
Proof using Hwf Hok Hr.
  cbn zeta. destruct s0_sound as (_ & B0 & <-), s1_sound as (_ & B1 & <-). destruct Hwf as (_ & _ & (_ & _ & (C16 & _) & (C7 & _) & (Cw & _) & _) & _ & _ & W2).
  unfold eval, eval_s2 in Hok. rewrite !row_ok_app in Hok. rewrite Hr in Hok. destruct Hok as (_ & _ & _ & _ & _ & A & _ & [Eq _] & _).
  apply add4_operation_sound in A as (_ & _ & _ & _ & V & E); [|done||by apply word_bytes_canon..].
  change (ac_value (access (w_i r))) with (value (w_i r)) in Cw.
  assert (value (w_i r) = Add4Operation.value (s2 r)) as ->.
  { pose proof (word_bytes_canon _ V) as (V0 & V1 & V2 & V3). destruct Cw as (D0 & D1 & D2 & D3). cbn [assert_word_eq zip_with limbs all_hold holds] in Eq. destruct Eq as (E0 & E1 & E2 & E3 & _).
    apply eqF_canon in E0, E1, E2, E3; try done. destruct (value (w_i r)), (Add4Operation.value (s2 r)). cbn in *. congruence. }
  rewrite E, sum_u32. f_equal. ring.
Qed.
End Row.

(** ** The accesses of the table *)

Definition row_clk (r : ShaExtendCols) : Z := clk r + (i r - 16).

Definition row_reads (r : ShaExtendCols) : list MemAccess :=
  accs_of (shard r) (row_clk r) (w_ptr r + (i r - 15) * 4) (w_i_minus_15 r) (is_real r) ++
  accs_of (shard r) (row_clk r) (w_ptr r + (i r - 2) * 4) (w_i_minus_2 r) (is_real r) ++
  accs_of (shard r) (row_clk r) (w_ptr r + (i r - 16) * 4) (w_i_minus_16 r) (is_real r) ++
  accs_of (shard r) (row_clk r) (w_ptr r + (i r - 7) * 4) (w_i_minus_7 r) (is_real r).
Definition row_write (r : ShaExtendCols) : list MemAccess :=
  accs_of (shard r) (row_clk r) (w_ptr r + i r * 4) (w_i r) (is_real r).
Definition row_accs (r : ShaExtendCols) : list MemAccess := row_reads r ++ row_write r.

Definition extend_accs (rows : list ShaExtendCols) : list MemAccess := flat_map row_accs rows.

(** Arguments of a call whose array and clock do not wrap. *)
Definition call_fits (r : ShaExtendCols) : Prop := w_ptr r + 256 <= BABYBEAR /\ time_ok (shard r, clk r) /\ time_ok (shard r, clk r + 47).

Lemma dead_access {C} `{MemoryCols C} shard clk addr (c : C) check :
  check ≡F 0 -> mem_row (eval_memory_access shard clk addr c check) (accs_of shard clk addr c check).
Proof.
  intros Hz. unfold accs_of. rewrite decide_True by done.
  assert (sent KMemory (eval_memory_access shard clk addr c check) = [mkAirInteraction (memory_values (prev_shard (access c)) (prev_clk (access c)) addr (prev_value c)) check KMemory]) as Es by done.
  assert (received KMemory (eval_memory_access shard clk addr c check) = [mkAirInteraction (memory_values shard clk addr (value c)) check KMemory]) as Er by done.
  assert (boolean check) as Hb by (by left).
  constructor; rewrite ?Es, ?Er, ?keys_one by done; try (by rewrite decide_True by done); [|done]. split; by apply Forall_singleton.
Qed.

Section Memory.
  Context (g : Z) (rows : list ShaExtendCols) (Hg : order_16 g) (Hok : accepted_extend g rows).

(** The first row of the block of a real row. *)
Lemma block_start t r : rows !! t = Some r -> is_real r = 1 -> exists t0 r0 j, rows !! t0 = Some r0 /\ ~ cycle_48_start r0 ≡F 0 /\
  (j < 48)%nat /\ t = (t0 + j)%nat /\ i r = 16 + Z.of_nat j /\ shard r = shard r0 /\ clk r = clk r0 /\ w_ptr r = w_ptr r0.
Proof using Hg Hok.
  intros Ht Hr. set (t0 := (t - t mod 48)%nat). pose proof (Nat.mod_upper_bound t 48 ltac:(lia)) as Hm. pose proof (Nat.Div0.mod_le t 48) as Hle.
  assert (t0 mod 48 = 0)%nat as E0.
  { unfold t0. pose proof (Nat.div_mod_eq t 48). replace (t - t mod 48)%nat with (0 + t / 48 * 48)%nat by lia. by rewrite Nat.Div0.mod_add. }
  assert (forall k r', (k <= t mod 48)%nat -> rows !! (t - k)%nat = Some r' -> is_real r' = 1) as Hback.
  { induction k as [|k IH]; intros r' Hk Hl; [rewrite Nat.sub_0_r, Ht in Hl; by injection Hl as <-|].
    destruct (lookup_lt_is_Some_2 rows (t - k)) as [r1 H1]; [apply lookup_lt_Some in Ht; lia|]. rewrite <- (IH r1 ltac:(lia) H1). symmetry.
    replace (t - k)%nat with (S (t - S k)) in H1 by lia. apply (same_block g rows Hg Hok _ _ _ Hl H1).
    pose proof (Nat.div_mod_eq t 48). pose proof (Nat.div_mod_eq (t - S k) 48). pose proof (Nat.mod_upper_bound (t - S k) 48). nia. }
  destruct (lookup_lt_is_Some_2 rows t0) as [r0 H0]; [apply lookup_lt_Some in Ht; lia|].
  pose proof (Hback (t mod 48)%nat r0 ltac:(lia) H0) as Hr0. pose proof (block_rows g rows Hg Hok t0 r0 H0 E0 Hr0 (t mod 48)%nat Hm) as (r' & Hl & Ei & Es & Ec & Ew & _).
  replace (t0 + t mod 48)%nat with t in Hl by (unfold t0; lia). rewrite Ht in Hl. injection Hl as <-.
  exists t0, r0, (t mod 48)%nat. split_and!; try done; [|unfold t0; lia].
  pose proof (flags_hold g rows Hok t0 r0 H0) as Hh. unfold eval_flags in Hh. rewrite !all_hold_app in Hh.
  destruct Hh as (_ & _ & _ & _ & _ & _ & _ & _ & _ & [E _] & _). cbn [holds] in E. rewrite (start48_eq g rows Hg Hok t0 r0 H0 (counters_hold g rows Hg Hok t0 r0 H0)), E0, Hr0 in E.
  rewrite <- E. discriminate.
Qed.

(** The memory messages of a row are those of its accesses. *)
Lemma extend_mem_row t r : rows !! t = Some r -> (is_real r = 1 -> call_fits r) -> mem_row (extend_row g rows t r) (row_accs r).
Proof using Hg Hok.
  intros Ht Hfit. destruct (extend_lookup g rows Hok t r Ht) as [Hw Ho]. pose proof (real_bool g rows Hok t r Ht) as Hb.
  pose proof (counters_hold g rows Hg Hok t r Ht) as Hc. pose proof (ct_i _ _ _ Hc) as Ei. pose proof (Nat.mod_upper_bound t 48 ltac:(lia)) as Hm.
  unfold extend_row, eval in *. rewrite !row_ok_app in Ho. destruct Ho as (_ & _ & Hreads & _ & _ & _ & Hwrite & _).
  unfold eval_reads in Hreads. rewrite !row_ok_app in Hreads. destruct Hreads as (R15 & R2 & R16 & R7).
  destruct Hw as (C & _ & (A15 & A2 & A16 & A7 & Aw & Wp) & _). rewrite !Forall_cons in C. destruct C as (_ & _ & [Cp _] & _).
  assert (forall {C} {M : MemoryCols C} k (c : C), 0 <= k < 64 -> row_ok (eval_memory_access (shard r) (row_clk r) (w_ptr r + k * 4) c (is_real r)) ->
    access_wf (access c) -> word_canon (prev_value c) -> word_canon (value c) ->
    mem_row (eval_memory_access (shard r) (row_clk r) (w_ptr r + k * 4) c (is_real r)) (accs_of (shard r) (row_clk r) (w_ptr r + k * 4) c (is_real r))) as Hacc.
  { intros C M k c Hk Hrow Wa Wv Wv'. destruct Hb as [E|E]; [apply dead_access; by rewrite E|]. destruct (Hfit E) as (Hp & [T1 T2] & [_ T3]). cbn [fst snd] in *.
    apply access_mem_row; try done; [unfold canon; lia|]. intros _. split; cbn [fst snd]; [done|]. unfold row_clk. rewrite Ei. lia. }
  assert (row_accs r = [] ++ [] ++ row_reads r ++ [] ++ [] ++ [] ++ row_write r ++ []) as -> by (unfold row_accs; by rewrite app_nil_r).
  unfold row_reads, row_write.
  repeat apply mem_row_app; try (apply mem_row_silent; reflexivity); try (apply Hacc; [lia|assumption|assumption|..]).
  all: first [apply A15|apply A2|apply A16|apply A7|apply Aw|exact Wp].
Qed.

Lemma extend_mem_rows : (forall t r, rows !! t = Some r -> ~ cycle_48_start r ≡F 0 -> call_fits r) ->
  mem_row (concat (imap (extend_row g rows) rows)) (extend_accs rows).
Proof using Hg Hok.
  intros Hfit. unfold extend_accs. apply mem_row_imap. intros t r Ht. apply extend_mem_row; [done|]. intros Hr.
  destruct (block_start t r Ht Hr) as (t0 & r0 & j & H0 & Hs & _ & _ & _ & E1 & E2 & E3). unfold call_fits. rewrite E1, E2, E3. by apply (Hfit t0).
Qed.
End Memory.

(** ** The schedule in memory *)

Lemma schedule_S n w : schedule (S n) w = schedule n w ++ [next_word (schedule n w)].
Proof. revert w. induction n as [|n IH]; intros w; [done|]. change (schedule (S (S n)) w) with (schedule (S n) (w ++ [next_word w])). by rewrite IH. Qed.

(** The memory of a proof, and the block of a call in it: its accesses are among
    those of the proof, and no others touch the array while the block runs. *)
Record block_in_memory (inits : list MemMsg) (accs : list MemAccess) (finals : list MemMsg) (block : list ShaExtendCols) (r0 : ShaExtendCols) : Prop := {
  bm_order : Forall in_order accs;
  bm_finals : NoDup (map mm_addr finals);
  bm_balance : map found accs ++ finals ≡ₚ map left accs ++ inits;
  bm_block : forall a, a ∈ extend_accs block -> a ∈ accs;
  bm_alone : forall a (j k : nat), a ∈ accs -> (j < 48)%nat -> (k < 64)%nat -> time_of a = (shard r0, clk r0 + Z.of_nat j) ->
    ma_addr a = w_ptr r0 + 4 * Z.of_nat k -> a ∈ extend_accs block
}.

Section Schedule.
  Context (g : Z) (rows : list ShaExtendCols) (Hg : order_16 g) (Hok : accepted_extend g rows).
  Context (t0 : nat) (r0 : ShaExtendCols) (H0 : rows !! t0 = Some r0) (Hs : ~ cycle_48_start r0 ≡F 0).
Let block := take 48 (drop t0 rows).
  Context (inits : list MemMsg) (accs : list MemAccess) (finals : list MemMsg) (Hm : block_in_memory inits accs finals block r0).
Let mem (j : nat) (addr : Z) : Z := to_u32 (word_at inits accs (shard r0, clk r0 + Z.of_nat j) addr).

(** Row [j] of the block. *)
Lemma block_row j : (j < 48)%nat -> exists r, block !! j = Some r /\ rows !! (t0 + j)%nat = Some r /\ i r = 16 + Z.of_nat j /\
  shard r = shard r0 /\ clk r = clk r0 /\ w_ptr r = w_ptr r0 /\ is_real r = 1.
Proof using Hg Hok H0 Hs.
  intros Hj. destruct (start_row g rows Hg Hok t0 r0 H0 Hs) as (E0 & Er & _).
  destruct (block_rows g rows Hg Hok t0 r0 H0 E0 Er j Hj) as (r & Hl & Hrest). exists r. split_and!; try done; try apply Hrest.
  unfold block. by rewrite lookup_take_lt, lookup_drop.
Qed.

Lemma live_acc {C} `{MemoryCols C} s c addr (x : C) : accs_of s c addr x 1 = [acc_of s c addr x].
Proof using. clear. unfold accs_of. by rewrite decide_False. Qed.

Lemma row_accs_real r : is_real r = 1 -> row_accs r =
  [acc_of (shard r) (row_clk r) (w_ptr r + (i r - 15) * 4) (w_i_minus_15 r); acc_of (shard r) (row_clk r) (w_ptr r + (i r - 2) * 4) (w_i_minus_2 r);
   acc_of (shard r) (row_clk r) (w_ptr r + (i r - 16) * 4) (w_i_minus_16 r); acc_of (shard r) (row_clk r) (w_ptr r + (i r - 7) * 4) (w_i_minus_7 r);
   acc_of (shard r) (row_clk r) (w_ptr r + i r * 4) (w_i r)].
Proof using. clear. intros E. unfold row_accs, row_reads, row_write. by rewrite E, !live_acc. Qed.

Lemma row_accs_in j r a : (j < 48)%nat -> block !! j = Some r -> a ∈ row_accs r -> a ∈ accs.
Proof using Hm. clear - Hm. intros Hj Hl Ha. apply (bm_block _ _ _ _ _ Hm). unfold extend_accs. apply list_elem_of_In, in_flat_map. exists r. split; apply list_elem_of_In; [by apply list_elem_of_lookup_2 in Hl|done]. Qed.

(** The words row [j] reads. *)
Lemma row_finds j r d : (j < 48)%nat -> block !! j = Some r -> In d [15; 2; 16; 7]%nat ->
  mem j (w_ptr r0 + 4 * Z.of_nat (16 + j - d)) = to_u32 (value (match d with 15 => w_i_minus_15 r | 2 => w_i_minus_2 r | 16 => w_i_minus_16 r | _ => w_i_minus_7 r end)%nat).
Proof using Hg Hok H0 Hs Hm.
  intros Hj Hl Hd. destruct (block_row j Hj) as (r' & Hl' & _ & Ei & E1 & E2 & E3 & Er). rewrite Hl in Hl'. injection Hl' as <-.
  pose proof (row_accs_in j r) as Hin. rewrite (row_accs_real r Er) in Hin. unfold row_clk in Hin. rewrite Ei, E1, E2, E3 in Hin. unfold mem. f_equal.
  assert (forall (c : MemoryReadCols) k, acc_of (shard r0) (clk r0 + (16 + Z.of_nat j - 16)) (w_ptr r0 + (16 + Z.of_nat j - Z.of_nat k) * 4) c ∈ accs -> (k <= 16)%nat ->
    word_at inits accs (shard r0, clk r0 + Z.of_nat j) (w_ptr r0 + 4 * Z.of_nat (16 + j - k)) = value c) as Hfound.
  { intros c k Ha Hk. pose proof (word_at_found inits accs finals (bm_order _ _ _ _ _ Hm) (bm_finals _ _ _ _ _ Hm) (bm_balance _ _ _ _ _ Hm) _ Ha) as E.
    cbn [acc_of ma_cur ma_prev ma_addr fst snd] in E. etransitivity; [|exact E]. f_equal; [f_equal; lia|lia]. }
  destruct Hd as [<-|[<-|[<-|[<-|[]]]]]; apply Hfound; try lia; apply Hin; try done; change (Z.of_nat 15) with 15; change (Z.of_nat 2) with 2;
    change (Z.of_nat 16) with 16; change (Z.of_nat 7) with 7; rewrite !elem_of_cons; tauto.
Qed.

(** Row [j] writes word [16 + j]. *)
Lemma row_writes j : (j < 48)%nat -> mem (S j) (w_ptr r0 + 4 * Z.of_nat (16 + j)) = next_word (words_at (mem j) (w_ptr r0) (16 + j)).
Proof using Hg Hok H0 Hs Hm.
  intros Hj. destruct (block_row j Hj) as (r & Hl & Ht & Ei & E1 & E2 & E3 & Er).
  destruct (extend_lookup g rows Hok _ _ Ht) as [Hw Ho]. pose proof (extend_word g _ r _ Hw Ho Er) as Ew. cbn zeta in Ew.
  unfold next_word. rewrite length_words_at, !nth_words_at by lia.
  rewrite (row_finds j r 2), (row_finds j r 7), (row_finds j r 15), (row_finds j r 16), <- Ew; try done; try (cbn; tauto).
  unfold mem. f_equal.
  assert (acc_of (shard r) (row_clk r) (w_ptr r + i r * 4) (w_i r) ∈ accs) as Ha.
  { apply (row_accs_in j r); try done. rewrite (row_accs_real r Er), !elem_of_cons. tauto. }
  pose proof (word_at_left inits accs finals (bm_order _ _ _ _ _ Hm) (bm_finals _ _ _ _ _ Hm) (bm_balance _ _ _ _ _ Hm) _ _ _ Ha eq_refl) as E.
  cbn [acc_of ma_cur ma_addr snd] in E. unfold row_clk in E. rewrite Ei, E1, E2, E3 in E. etransitivity; [|exact E]. f_equal; [f_equal; lia|lia].
Qed.

(** The other words of the array are kept. *)
Lemma row_keeps j k : (j < 48)%nat -> (k < 64)%nat -> k <> (16 + j)%nat -> mem (S j) (w_ptr r0 + 4 * Z.of_nat k) = mem j (w_ptr r0 + 4 * Z.of_nat k).
Proof using Hg Hok H0 Hs Hm.
  intros Hj Hk Hne. unfold mem. f_equal. set (addr := w_ptr r0 + 4 * Z.of_nat k). replace (clk r0 + Z.of_nat (S j)) with (clk r0 + Z.of_nat j + 1) by lia.
  pose proof (bm_order _ _ _ _ _ Hm) as P1. pose proof (bm_finals _ _ _ _ _ Hm) as P2. pose proof (bm_balance _ _ _ _ _ Hm) as P3.
  destruct (decide (Exists (fun a => ma_addr a = addr /\ time_of a = (shard r0, clk r0 + Z.of_nat j)) accs)) as [Hex|Hno].
  - apply Exists_exists in Hex as (a & Ha & Ea & Et).
    pose proof (word_at_left _ _ _ P1 P2 P3 a _ _ Ha Et) as EL. pose proof (word_at_found _ _ _ P1 P2 P3 a Ha) as EF. rewrite Et in EF. rewrite Ea in EL, EF. rewrite EL, EF.
    pose proof (bm_alone _ _ _ _ _ Hm a j k Ha Hj Hk Et Ea) as Hb. unfold extend_accs in Hb. apply list_elem_of_In, in_flat_map in Hb as (r & Hr & Hin).
    apply list_elem_of_In, list_elem_of_lookup in Hr as [j' Hl]. apply list_elem_of_In in Hin.
    assert (j' < 48)%nat as Hj' by (apply lookup_lt_Some in Hl; unfold block in Hl; rewrite length_take in Hl; lia).
    destruct (block_row j' Hj') as (r' & Hl' & _ & Ei & E1 & E2 & E3 & Er). rewrite Hl in Hl'. injection Hl' as <-.
    rewrite (row_accs_real r Er), !elem_of_cons in Hin. destruct Hin as [->|[->|[->|[->|[->|Hin]]]]]; try done; [|by apply not_elem_of_nil in Hin].
    exfalso. apply Hne. cbn [acc_of ma_cur ma_addr fst] in *. unfold row_clk in Et. injection Et as _ Et. rewrite Ei in *. rewrite E2, E3 in *. subst addr. lia.
  - apply (word_at_same _ _ _ P1 P2 P3). intros a Ha Ea Et. apply Hno, Exists_exists. by exists a.
Qed.

Lemma block_schedule j : (j <= 48)%nat -> words_at (mem j) (w_ptr r0) (16 + j) = schedule j (words_at (mem 0) (w_ptr r0) 16).
Proof using Hg Hok H0 Hs Hm.
  induction j as [|j IH]; intros Hj; [done|]. rewrite schedule_S, <- IH by lia. rewrite Nat.add_succ_r, words_at_S, row_writes by lia. f_equal.
  unfold words_at. apply map_ext_in. intros k Hk. unfold zseq in Hk. apply in_map_iff in Hk as (n & <- & Hn). apply in_seq in Hn. cbn [Z.add]. apply row_keeps; lia.
Qed.
End Schedule.

(** C33. On a ShaExtend table that passes, a block whose first row receives a system
    call extends the array the call points to: its accesses are the memory messages
    of the table, and in any memory that balances, where nothing else touches the
    array while the 48 rows run, the 64 words after the block are the message
    schedule of FIPS 180-4 of the 16 words before it. *)
Theorem sha_extend_chip_sound g rows t0 r0 inits accs finals : order_16 g -> accepted_extend g rows ->
  (forall t r, rows !! t = Some r -> ~ cycle_48_start r ≡F 0 -> call_fits r) ->
  rows !! t0 = Some r0 -> ~ cycle_48_start r0 ≡F 0 -> block_in_memory inits accs finals (take 48 (drop t0 rows)) r0 ->
  let mem clk addr := to_u32 (word_at inits accs (shard r0, clk) addr) in
  mem_row (concat (imap (extend_row g rows) rows)) (extend_accs rows) /\
  words_at (mem (clk r0 + 48)) (w_ptr r0) 64 = schedule 48 (words_at (mem (clk r0)) (w_ptr r0) 16).
Proof.
  intros Hg Hok Hfit H0 Hs Hm mem. split; [by apply extend_mem_rows|].
  pose proof (block_schedule g rows Hg Hok t0 r0 H0 Hs inits accs finals Hm 48 ltac:(lia)) as E. cbn beta in E.
  rewrite Z.add_0_r in E. exact E.
Qed.

(** * A run of the ShaExtend chip

    The system call on the words 1 to 16, as the executor runs it: the table of
    the event it records passes, with its byte lookups, and the memory of the
    run balances. *)

Import ShaExtendChip.

(** Checking a row. *)
Definition lookup_check (vals : list Z) : bool :=
  match vals with
  | [op; a1; _; b; c] =>
      existsb (fun o =>
        let '(b, c) := if bool_decide (o = ByteOpcode.U16Range) then (a1 / 256, a1 mod 256) else (b, c) in
        bool_decide (is_u8 b) && bool_decide (is_u8 c) && bool_decide (same_values vals (ByteChip.received (ByteChip.row b c) o))) ByteOpcode.all
  | _ => false
  end.

Lemma lookup_check_ok vals : lookup_check vals = true -> in_byte_table vals.
Proof.
  destruct vals as [|op [|a1 [|a2 [|b [|c [|]]]]]]; try done. cbn [lookup_check]. rewrite existsb_exists. intros (o & _ & H).
  destruct (if bool_decide _ then _ else _) as [b' c']. rewrite !andb_true_iff, !bool_decide_eq_true in H. destruct H as [[Hb Hc] Hv].
  exists (ByteChip.row b' c'), o. split; [apply in_trace; by exists b', c'|done].
Qed.

Definition row_check (calls : list Call) : bool :=
  debug_constraints (FB := nonzero_filter) calls && forallb (fun m => bool_decide (multiplicity m ≡F 0) || lookup_check (values m)) (sends KByte calls).

Lemma row_check_ok calls : row_check calls = true -> row_ok calls.
Proof.
  unfold row_check. rewrite andb_true_iff, forallb_forall. intros [H1 H2]. split; [by apply (debug_constraints_hold (FB := nonzero_filter))|].
  apply bytes_found_sends. intros m Hm Hz. apply list_elem_of_In in Hm. specialize (H2 m Hm). apply orb_true_iff in H2 as [H2|H2]; [by apply bool_decide_eq_true in H2|by apply lookup_check_ok].
Qed.

#[export] Instance canon_dec x : Decision (canon x).
Proof. unfold canon. apply _. Defined.
#[export] Instance word_canon_dec w : Decision (word_canon w).
Proof. unfold word_canon. apply _. Defined.
#[export] Instance extend_wf_dec r : Decision (wf r).
Proof.
  unfold wf, IsZeroOperation.wf, access_wf, FixedRotateRightOperation.wf, FixedShiftRightOperation.wf, Add4Operation.wf. apply _.
Defined.

(** 2^27-th roots of unity are powers of this one's 2^23-th root. *)
Definition g16 : Z := 196396260.

(** The record of [SHA_EXTEND] on the words 1 to 16, its table and its memory. *)
Definition extend_record : ExecutionRecord :=
  match execute Sha256ExtendSyscall SHA_EXTEND 4096 0 sha_ctx with Ok _ ctx => record (rt ctx) | _ => ExecutionRecord_default end.
Definition extend_rows : list ShaExtendCols := default [] (generate_trace g16 extend_record).
Definition extend_array (mem : Z -> Z * Z * Word) : list MemMsg :=
  map (fun k => let '(t, w) := mem (4096 + 4 * k) in mkMemMsg t (4096 + 4 * k) w) (zseq 0 64).
Definition extend_inits : list MemMsg := extend_array (fun a => ((0, 0), word_from (if a <? 4160 then (a - 4096) / 4 + 1 else 0))).
Definition extend_finals : list MemMsg :=
  extend_array (fun a => match latest_before (2, 0) (at_addr a (extend_accs extend_rows)) with Some b => ma_cur b | None => ((0, 0), word_zero) end).

(** The checks, on any table. *)
Definition extend_check (rows : list ShaExtendCols) : bool :=
  forallb (fun r => bool_decide (wf r)) rows && forallb row_check (imap (extend_row g16 rows) rows) &&
  forallb (fun r => bool_decide (cycle_48_start r ≡F 0) || bool_decide (shard r = 1 /\ clk r = 0 /\ w_ptr r = 4096)) rows.

Lemma extend_check_ok rows : extend_check rows = true -> accepted_extend g16 rows /\ forall t r, rows !! t = Some r -> ~ cycle_48_start r ≡F 0 -> call_fits r.
Proof.
  unfold extend_check. rewrite !andb_true_iff, !forallb_forall. intros [[H1 H2] H3]. split; [constructor; apply Forall_forall; intros x Hx%list_elem_of_In|].
  - by apply H1, bool_decide_eq_true in Hx.
  - by apply row_check_ok, H2.
  - intros t r Ht Hs. specialize (H3 r ltac:(apply list_elem_of_In; by apply list_elem_of_lookup_2 in Ht)). apply orb_true_iff in H3 as [H3|H3]; apply bool_decide_eq_true in H3; [done|].
    destruct H3 as (F1 & F2 & F3). unfold call_fits, time_ok, BABYBEAR. rewrite F1, F2, F3. cbn. lia.
Qed.

Definition memory_check (inits : list MemMsg) (accs : list MemAccess) (finals : list MemMsg) : bool :=
  forallb (fun a => bool_decide (before (ma_prev a).1 (ma_cur a).1)) accs && bool_decide (NoDup (map mm_addr finals)) &&
  bool_decide (map found accs ++ finals ≡ₚ map left accs ++ inits).

Lemma memory_check_ok inits finals block r0 : memory_check inits (extend_accs block) finals = true -> block_in_memory inits (extend_accs block) finals block r0.
Proof.
  unfold memory_check. rewrite !andb_true_iff, !bool_decide_eq_true, forallb_forall. intros [[H1 H2] H3]. constructor; try done.
  apply Forall_forall. intros a Ha%list_elem_of_In. by apply H1, bool_decide_eq_true in Ha.
Qed.

Lemma extend_rows_checked : extend_check extend_rows = true.
Proof. vm_compute. reflexivity. Qed.

Lemma extend_memory_checked : memory_check extend_inits (extend_accs (take 48 (drop 0 extend_rows))) extend_finals = true.
Proof. vm_compute. reflexivity. Qed.

Lemma extend_first_checked : bool_decide ((fun r => (shard r, clk r, w_ptr r, cycle_48_start r)) <$> extend_rows !! 0%nat = Some (1, 0, 4096, 1)) = true.
Proof. vm_compute. reflexivity. Qed.

Lemma extend_array_checked : words_at (fun addr => to_u32 (word_at extend_inits (extend_accs (take 48 (drop 0 extend_rows))) (1, 0) addr)) 4096 16 = map (fun i => i + 1) (zseq 0 16).
Proof. vm_compute. reflexivity. Qed.

Lemma sha_extend_chip_sound_witness :
  let mem clk addr := to_u32 (word_at extend_inits (extend_accs (take 48 (drop 0 extend_rows))) (1, clk) addr) in
  words_at (mem 48) 4096 64 = schedule 48 (map (fun i => i + 1) (zseq 0 16)).
Proof.
  pose proof extend_rows_checked as Hc. pose proof extend_memory_checked as Hm. pose proof extend_first_checked as Hf. pose proof extend_array_checked as Ha.
  apply bool_decide_eq_true in Hf. destruct (extend_check_ok _ Hc) as [Hok Hfit]. clear Hc.
  revert Hm Hf Ha Hok Hfit. generalize extend_rows extend_inits extend_finals. intros rows inits finals Hm Hf Ha Hok Hfit.
  destruct (rows !! 0%nat) as [r0|] eqn:H0; [|discriminate Hf]. injection Hf as E1 E2 E3 E4.
  destruct (sha_extend_chip_sound g16 rows 0 r0 inits (extend_accs (take 48 (drop 0 rows))) finals) as [_ E].
  - split; [vm_compute; reflexivity|intros H; vm_compute in H; discriminate H].
  - exact Hok.
  - exact Hfit.
  - exact H0.
  - rewrite E4. discriminate.
  - by apply memory_check_ok.
  - cbn zeta in E. rewrite E1, E2, E3 in E. cbn zeta. rewrite <- Ha. exact E.
Defined.
