(* ===== verification/MerkleTree.v ===== *)
(** * The Merkle tree of the field matrices (crates/p3-merkle-tree)

    [FieldMerkleTree] commits to matrices of different heights in one tree: the
    rows of the tallest are the leaves, and the rows of the others are mixed in
    at the layer of their height.  [open_batch] gives one row of each matrix and
    the siblings of the path to the root, [verify_batch] checks them.

    An opening of a committed tree verifies; and two different openings of one
    commitment at one index contain a collision of the hash or of the
    compression function.  The hasher, the compression function and the packed
    values they also act on are those of plonky3: parameters, with the law that
    a packed operation acts on every lane. *)

From Stdlib Require Import Lia Bool PeanoNat Sorted.
From stdpp Require Import base list.
From S2P Require Import Prelude.

(** ** Iterators *)

(** [peeking_take_while] on a peekable iterator: what it yields and what is left. *)
Fixpoint take_while {A} (p : A -> bool) (l : list A) : list A :=
  match l with [] => [] | x :: l' => if p x then x :: take_while p l' else [] end.
Fixpoint drop_while {A} (p : A -> bool) (l : list A) : list A :=
  match l with [] => [] | x :: l' => if p x then drop_while p l' else l end.

(** [sorted_by_key(|x| Reverse(key(x)))]: a stable sort, the largest key first. *)
Fixpoint insert_desc {A} (key : A -> nat) (x : A) (l : list A) : list A :=
  match l with
  | [] => [x]
  | y :: l' => if key y <=? key x then x :: l else y :: insert_desc key x l'
  end.
Definition sorted_desc {A} (key : A -> nat) (l : list A) : list A := fold_right (insert_desc key) [] l.

(** [usize::next_power_of_two]. *)
Definition log2_ceil (n : nat) : nat := Nat.log2_up n.
Definition next_power_of_two (n : nat) : nat := 2 ^ log2_ceil n.

(** [log2_ceil_usize] of p3_util. *)
Class Util : Type := { log2_ceil_usize : nat -> nat }.
Class LawfulUtil `{Util} : Prop := { log2_ceil_usize_spec n : log2_ceil_usize n = log2_ceil n }.

(** ** Matrices *)

Record Matrix (F : Type) : Type := mkMatrix { width : nat; rows : list (list F) }.
Arguments mkMatrix {F}. Arguments width {F}. Arguments rows {F}.

Record Dimensions : Type := mkDimensions { dim_width : nat; dim_height : nat }.

Definition height {F} (m : Matrix F) : nat := length (rows m).
Definition dimensions {F} (m : Matrix F) : Dimensions := mkDimensions (width m) (height m).

(** [m.row(i)] for a row of the matrix. *)
Definition row {F} (m : Matrix F) (i : nat) : list F := nth i (rows m) [].

(** Every row has the width of the matrix. *)
Definition mat_wf {F} (m : Matrix F) : Prop := Forall (fun r => length r = width m) (rows m).

(** ** Hashing *)

(** The hasher and the compression function, on scalars and on packed values.
    [pack] and [pack_digest] are [from_fn], [lane] reads one lane of a packed
    digest, [vertically_packed_row] packs the columns of the rows from one on. *)
Class Hasher (F Digest : Type) : Type := {
  PF : Type;
  PDigest : Type;
  WIDTH : nat;
  default_digest : Digest;
  hash : list F -> Digest;
  compress : Digest -> Digest -> Digest;
  pack : (nat -> F) -> PF;
  pack_digest : (nat -> Digest) -> PDigest;
  lane : PDigest -> nat -> Digest;
  vertically_packed_row : Matrix F -> nat -> list PF;
  hash_packed : list PF -> PDigest;
  compress_packed : PDigest -> PDigest -> PDigest
}.

(** Packed operations act on every lane, and a packed row holds in lane [k] the row
    [k] further on. *)
Class LawfulHasher (F Digest : Type) `{Hasher F Digest} : Prop := {
  WIDTH_pos : 0 < WIDTH;
  lane_pack f k : k < WIDTH -> lane (pack_digest f) k = f k;
  packed_row m r : mat_wf m -> r + WIDTH <= height m ->
    exists columns, vertically_packed_row m r = map pack columns /\ forall k, k < WIDTH -> map (fun f => f k) columns = row m (r + k);
  lane_hash (fs : list (nat -> F)) k : k < WIDTH -> lane (hash_packed (map pack fs)) k = hash (map (fun f => f k) fs);
  lane_compress a b k : k < WIDTH -> lane (compress_packed a b) k = compress (lane a k) (lane b k)
}.

Module FieldMerkleTree.
Section Tree.
  Context {F Digest : Type} `{Hasher F Digest}.

Record FieldMerkleTree : Type := mkFieldMerkleTree {
  leaves : list (Matrix F);
  leaf_dimensions : list Dimensions;
  digest_layers : list (list Digest)
}.

Definition unpack_array (packed_digest : PDigest) : list Digest := map (lane packed_digest) (seq 0 WIDTH).

(** The loop over [par_chunks_exact_mut(width)] of [n] digests, and the loop over
    the rest. *)
Definition fill (n : nat) (chunk : nat -> PDigest) (single : nat -> Digest) : list Digest :=
  flat_map (fun i => unpack_array (chunk (i * WIDTH))) (seq 0 (n / WIDTH)) ++
  map single (seq (n / WIDTH * WIDTH) (n - n / WIDTH * WIDTH)).

Definition first_digest_layer (tallest_matrices : list (Matrix F)) : option (list Digest) :=
  m ← head tallest_matrices;
  let max_height := height m in
  let max_height_padded := next_power_of_two max_height in
  Some (fill max_height
          (fun first_row => hash_packed (flat_map (fun m => vertically_packed_row m first_row) tallest_matrices))
          (fun i => hash (flat_map (fun m => row m i) tallest_matrices)) ++
        replicate (max_height_padded - max_height) default_digest).

(** An index in range. *)
Definition digest (layer : list Digest) (i : nat) : Digest := nth i layer default_digest.

Definition packed_pair (prev_layer : list Digest) (first_row : nat) : PDigest :=
  compress_packed (pack_digest (fun k => digest prev_layer (2 * (first_row + k))))
                  (pack_digest (fun k => digest prev_layer (2 * (first_row + k) + 1))).
Definition pair (prev_layer : list Digest) (i : nat) : Digest :=
  compress (digest prev_layer (2 * i)) (digest prev_layer (2 * i + 1)).

Definition compress_layer (prev_layer : list Digest) : list Digest :=
  let next_len := length prev_layer / 2 in
  fill next_len (packed_pair prev_layer) (pair prev_layer).

Definition compress_and_inject (prev_layer : list Digest) (matrices_to_inject : list (Matrix F)) : list Digest :=
  match matrices_to_inject with
  | [] => compress_layer prev_layer
  | m :: _ =>
      let next_len := height m in
      let next_len_padded := length prev_layer / 2 in
      fill next_len
        (fun first_row => compress_packed (packed_pair prev_layer first_row)
           (hash_packed (flat_map (fun m => vertically_packed_row m first_row) matrices_to_inject)))
        (fun i => compress (pair prev_layer i) (hash (flat_map (fun m => row m i) matrices_to_inject))) ++
      map (fun i => compress (pair prev_layer i) default_digest) (seq next_len (next_len_padded - next_len))
  end.

(** The loop of [new]; one layer per step until one digest is left. *)
Fixpoint build_layers (fuel : nat) (prev_layer : list Digest) (leaves_largest_first : list (Matrix F)) : list (list Digest) :=
  match fuel with
  | O => [prev_layer]
  | S fuel =>
      if length prev_layer =? 1 then [prev_layer]
      else
        let next_layer_len := length prev_layer / 2 in
        let injected m := next_power_of_two (height m) =? next_layer_len in
        prev_layer :: build_layers fuel (compress_and_inject prev_layer (take_while injected leaves_largest_first))
                        (drop_while injected leaves_largest_first)
  end.

(** Adjacent heights of the sorted list are equal or round up differently. *)
Fixpoint heights_check (heights : list nat) : bool :=
  match heights with
  | h :: (h' :: _) as rest => ((h =? h') || negb (next_power_of_two h =? next_power_of_two h')) && heights_check rest
  | _ => true
  end.

(** [None]: an assertion fails. *)
Definition new (leaves : list (Matrix F)) : option FieldMerkleTree :=
  if heights_check (rev (sorted_desc id (map height leaves))) then
    let leaves_largest_first := sorted_desc height leaves in
    tallest ← head leaves_largest_first;
    let is_tallest m := height m =? height tallest in
    first ← first_digest_layer (take_while is_tallest leaves_largest_first);
    Some (mkFieldMerkleTree leaves (map dimensions leaves)
            (build_layers (length first) first (drop_while is_tallest leaves_largest_first)))
  else None.

Definition from_parts (leaves : list (Matrix F)) (digest_layers : list (list Digest)) : FieldMerkleTree :=
  mkFieldMerkleTree leaves (map dimensions leaves) digest_layers.

Definition root (self : FieldMerkleTree) : option Digest := layer ← last (digest_layers self); head layer.

Definition take_leaves (self : FieldMerkleTree) : list (Matrix F) * FieldMerkleTree :=
  (leaves self, mkFieldMerkleTree [] (leaf_dimensions self) (digest_layers self)).
Definition restore_leaves (self : FieldMerkleTree) (leaves : list (Matrix F)) : FieldMerkleTree :=
  mkFieldMerkleTree leaves (leaf_dimensions self) (digest_layers self).
Definition has_leaves (self : FieldMerkleTree) : bool := negb (length (leaves self) =? 0).
Definition max_height (self : FieldMerkleTree) : nat := list_max (map dim_height (leaf_dimensions self)).
End Tree.
Arguments FieldMerkleTree : clear implicits.
End FieldMerkleTree.

Module FieldMerkleTreeMmcs.
Import FieldMerkleTree.
Section Mmcs.
  Context {F Digest : Type} `{Hasher F Digest} `{EqDecision Digest} `{Util}.

Definition commit (inputs : list (Matrix F)) : option (Digest * FieldMerkleTree F Digest) :=
  tree ← new inputs; root ← root tree; Some (root, tree).

Definition get_matrices (prover_data : FieldMerkleTree F Digest) : list (Matrix F) := leaves prover_data.

Definition get_max_height (prover_data : FieldMerkleTree F Digest) : nat :=
  if has_leaves prover_data then list_max (map height (leaves prover_data)) else max_height prover_data.

(** [None]: the subtraction underflows, or the row is out of range. *)
Definition opening (log_max_height index : nat) (m : Matrix F) : option (list F) :=
  let log2_height := log2_ceil_usize (height m) in
  if log_max_height <? log2_height then None
  else
    let bits_reduced := log_max_height - log2_height in
    rows m !! (index / 2 ^ bits_reduced).

Definition path (log_max_height index : nat) (layers : list (list Digest)) : option (list Digest) :=
  mapM (fun i => layer ← layers !! i; layer !! Nat.lxor (index / 2 ^ i) 1) (seq 0 log_max_height).

Definition open_batch (index : nat) (prover_data : FieldMerkleTree F Digest) : option (list (list F) * list Digest) :=
  let log_max_height := log2_ceil_usize (get_max_height prover_data) in
  openings ← mapM (opening log_max_height index) (leaves prover_data);
  proof ← path log_max_height index (digest_layers prover_data);
  Some (openings, proof).

Definition open_batch_with_external_leaves (index : nat) (prover_data : FieldMerkleTree F Digest) (external_leaves : list (Matrix F))
    : option (list (list F) * list Digest) :=
  let log_max_height := log2_ceil_usize (max_height prover_data) in
  openings ← mapM (opening log_max_height index) external_leaves;
  proof ← path log_max_height index (digest_layers prover_data);
  Some (openings, proof).

(** The rows of a group, one after the other ([None]: no such row). *)
Definition group_values (opened_values : list (list F)) (group : list (nat * Dimensions)) : option (list F) :=
  concat (A := F) <$> mapM (fun '(i, _) => opened_values !! i) group.

(** One step up the path. *)
Fixpoint verify_path (opened_values : list (list F)) (proof : list Digest) (index curr_height_padded : nat)
    (heights_tallest_first : list (nat * Dimensions)) (root : Digest) : option Digest :=
  match proof with
  | [] => Some root
  | sibling :: proof =>
      let root := if Nat.even index then compress root sibling else compress sibling root in
      let index := index / 2 in
      let curr_height_padded := curr_height_padded / 2 in
      match heights_tallest_first with
      | (_, dims) :: _ =>
          if next_power_of_two (dim_height dims) =? curr_height_padded then
            let at_height (x : nat * Dimensions) := dim_height x.2 =? dim_height dims in
            values ← group_values opened_values (take_while at_height heights_tallest_first);
            verify_path opened_values proof index curr_height_padded (drop_while at_height heights_tallest_first)
              (compress root (hash values))
          else verify_path opened_values proof index curr_height_padded heights_tallest_first root
      | [] => verify_path opened_values proof index curr_height_padded [] root
      end
  end.

Definition enumerate {A} (l : list A) : list (nat * A) := imap (fun i x => (i, x)) l.

(** [None]: no matrix, or fewer opened rows than matrices. *)
Definition verify_batch (commit : Digest) (dimensions : list Dimensions) (index : nat) (opened_values : list (list F)) (proof : list Digest) : option bool :=
  let heights_tallest_first := sorted_desc (fun x : nat * Dimensions => dim_height x.2) (enumerate dimensions) in
  tallest ← head heights_tallest_first;
  let curr_height_padded := next_power_of_two (dim_height tallest.2) in
  let is_tallest (x : nat * Dimensions) := next_power_of_two (dim_height x.2) =? curr_height_padded in
  values ← group_values opened_values (take_while is_tallest heights_tallest_first);
  root ← verify_path opened_values proof index curr_height_padded (drop_while is_tallest heights_tallest_first) (hash values);
  Some (bool_decide (commit = root)).
End Mmcs.
End FieldMerkleTreeMmcs.

(** ** Sorted lists *)

Section Sorted.
  Context {A : Type} (key : A -> nat).
Let ge x y := key y <= key x.

Lemma insert_desc_sorted x l : StronglySorted ge l -> StronglySorted ge (insert_desc key x l).
Proof using.
  induction 1 as [|y l Hl IH Hy]; cbn [insert_desc]; [repeat constructor|]. destruct (Nat.leb_spec (key y) (key x)) as [Hle|Hlt].
  - constructor; [by constructor|]. constructor; [done|]. eapply Forall_impl; [exact Hy|]. unfold ge. intros z Hz. lia.
  - constructor; [done|]. clear IH Hl. induction l as [|z l IHl]; cbn [insert_desc]; [by repeat constructor; unfold ge; lia|].
    inversion_clear Hy as [|? ? Hz Hy']. destruct (key z <=? key x); [constructor; [unfold ge; lia|by constructor]|]. constructor; [done|by apply IHl].
Qed.

Lemma sorted_desc_sorted l : StronglySorted ge (sorted_desc key l).
Proof using. induction l as [|x l IH]; [constructor|]. by apply insert_desc_sorted. Qed.

Lemma insert_desc_perm x l : insert_desc key x l ≡ₚ x :: l.
Proof using. induction l as [|y l IH]; [done|]. cbn. destruct (key y <=? key x); [done|]. rewrite IH. apply Permutation_swap. Qed.

Lemma sorted_desc_perm l : sorted_desc key l ≡ₚ l.
Proof using. induction l as [|x l IH]; [done|]. cbn. by rewrite insert_desc_perm, IH. Qed.

(** A prefix of a sorted list that a predicate closed upwards selects. *)
Lemma while_sorted (p : A -> bool) l : StronglySorted ge l -> (forall x y, x ∈ l -> y ∈ l -> key y <= key x -> p y = true -> p x = true) ->
  take_while p l = filter (fun x => p x = true) l /\ drop_while p l = filter (fun x => p x = false) l.
Proof using.
  induction 1 as [|x l Hl IH Hx]; intros Hp; [done|]. cbn [take_while drop_while]. rewrite !filter_cons. destruct (p x) eqn:Ex.
  - rewrite decide_True, decide_False by done. destruct IH as [-> ->]; [|done]. intros y z Hy Hz. apply Hp; by right.
  - rewrite decide_False, decide_True by done. assert (forall y, y ∈ l -> p y = false) as Hall.
    { intros y Hy. destruct (p y) eqn:Ey; [|done]. rewrite <- Ex. symmetry. apply (Hp x y); [left|by right|rewrite Forall_forall in Hx; by apply Hx|done]. }
    split.
    + symmetry. clear - Hall. induction l as [|y l IH]; [done|]. rewrite filter_cons, decide_False; [apply IH; intros z Hz; apply Hall; by right|]. rewrite Hall by left. done.
    + f_equal. clear - Hall. induction l as [|y l IH]; [done|]. rewrite filter_cons, decide_True by (apply Hall; left). f_equal. apply IH. intros z Hz. apply Hall. by right.
Qed.

Lemma while_app (p : A -> bool) l : take_while p l ++ drop_while p l = l.
Proof using. clear. induction l as [|x l IH]; [done|]. cbn. destruct (p x); [|done]. cbn. by rewrite IH. Qed.
End Sorted.

Lemma take_while_ext {A} (p q : A -> bool) l : (forall x, x ∈ l -> p x = q x) -> take_while p l = take_while q l /\ drop_while p l = drop_while q l.
Proof.
  induction l as [|x l IH]; intros H; [done|]. cbn. rewrite (H x) by left. destruct IH as [-> ->]; [intros y Hy; apply H; by right|]. by destruct (q x).
Qed.

(** Sorting commutes with maps that keep the key. *)
Lemma sorted_desc_map {A B} (key : A -> nat) (key' : B -> nat) (f : A -> B) l : (forall x, key' (f x) = key x) -> map f (sorted_desc key l) = sorted_desc key' (map f l).
Proof.
  intros Hk. induction l as [|x l IH]; [done|]. unfold sorted_desc in *. cbn [fold_right map]. rewrite <- IH. clear IH. generalize (fold_right (insert_desc key) [] l). induction l0 as [|y l0 IH]; [done|]. cbn. rewrite !Hk.
  destruct (key y <=? key x); [done|]. cbn. by rewrite IH.
Qed.

Lemma take_while_map {A B} (f : A -> B) (p : B -> bool) l : take_while p (map f l) = map f (take_while (fun x => p (f x)) l) /\ drop_while p (map f l) = map f (drop_while (fun x => p (f x)) l).
Proof. induction l as [|x l [IH1 IH2]]; [done|]. cbn. destruct (p (f x)); [|done]. by rewrite IH1, IH2. Qed.

(** ** Powers of two *)

Lemma npo2_le h : h <= next_power_of_two h.
Proof. unfold next_power_of_two, log2_ceil. destruct (decide (h <= 1)) as [H|H]; [pose proof (Nat.pow_nonzero 2 (Nat.log2_up h)); lia|]. apply Nat.log2_log2_up_spec. lia. Qed.

Lemma npo2_mono h h' : h <= h' -> next_power_of_two h <= next_power_of_two h'.
Proof. intros H. apply Nat.pow_le_mono_r; [lia|]. by apply Nat.log2_up_le_mono. Qed.

Lemma pow2_inj a b : 2 ^ a = 2 ^ b -> a = b.
Proof. apply Nat.pow_inj_r. lia. Qed.

Lemma pow2_half k : 2 ^ S k / 2 = 2 ^ k.
Proof. rewrite Nat.pow_succ_r', Nat.mul_comm. by apply Nat.div_mul. Qed.

(** ** Packed loops *)

Section Fill.
  Context {F Digest : Type} `{LawfulHasher F Digest}.
Import FieldMerkleTree.

Lemma seq_mul_flat_map {B} (f : nat -> B) w q : flat_map (fun i => map (fun k => f (i * w + k)) (seq 0 w)) (seq 0 q) = map f (seq 0 (q * w)).
Proof using.
  clear. induction q as [|q IH]; [done|]. rewrite seq_S, flat_map_app, IH. cbn [flat_map Nat.add]. rewrite app_nil_r, Nat.mul_succ_l, seq_app, map_app. f_equal.
  cbn [Nat.add]. pose proof (fmap_add_seq (q * w) 0 w) as E. rewrite Nat.add_0_r in E. rewrite <- E. symmetry. apply map_map.
Qed.

(** The packed loop and the loop over the rest do what one loop would. *)
Lemma fill_eq n chunk single : (forall r k, k < WIDTH -> r + WIDTH <= n -> lane (chunk r) k = single (r + k)) -> fill n chunk single = map single (seq 0 n).
Proof using H0.
  intros Hc. unfold fill. pose proof WIDTH_pos as Hw. pose proof (Nat.div_mod_eq n WIDTH) as En. set (q := n / WIDTH) in *.
  assert (flat_map (fun i => unpack_array (chunk (i * WIDTH))) (seq 0 q) = flat_map (fun i => map (fun k => single (i * WIDTH + k)) (seq 0 WIDTH)) (seq 0 q)) as ->.
  { rewrite !flat_map_concat_map. f_equal. apply map_ext_in. intros i Hi%in_seq. unfold unpack_array. apply map_ext_in. intros k Hk%in_seq. apply Hc; [lia|]. nia. }
  rewrite seq_mul_flat_map. rewrite <- map_app. f_equal. transitivity (seq 0 (q * WIDTH + (n - q * WIDTH))); [symmetry; apply seq_app|]. f_equal. nia.
Qed.

(** A packed row hashes the rows of its lanes. *)
Lemma packed_rows_hash ms r k h : Forall mat_wf ms -> Forall (fun m => height m = h) ms -> k < WIDTH -> r + WIDTH <= h ->
  lane (hash_packed (flat_map (fun m => vertically_packed_row m r) ms)) k = hash (flat_map (fun m => row m (r + k)) ms).
Proof using H0.
  intros Hw Hh Hk Hr.
  assert (exists columns, flat_map (fun m => vertically_packed_row m r) ms = map pack columns /\ map (fun f => f k) columns = flat_map (fun m => row m (r + k)) ms) as (columns & -> & Ec).
  { induction ms as [|m ms IH]; [by exists []|]. inversion_clear Hw. inversion_clear Hh as [|? ? Eh]. destruct IH as (l & El & Ek); [done..|].
    destruct (packed_row m r) as (c & Ec & Er); [done|by rewrite Eh|]. exists (c ++ l). cbn [flat_map]. by rewrite !map_app, Ec, El, Er, Ek. }
  by rewrite lane_hash, Ec.
Qed.
End Fill.

(** ** The groups of a list of matrices *)

(** Heights that round up to the same power of two are equal. *)
Definition heights_ok (heights : list nat) : Prop :=
  forall h h', h ∈ heights -> h' ∈ heights -> next_power_of_two h = next_power_of_two h' -> h = h'.

Lemma heights_check_ok l : StronglySorted le l -> FieldMerkleTree.heights_check l = true -> heights_ok l.
Proof.
  induction 1 as [|h l Hl IH Hh]; intros Hc; [intros ? ? H%not_elem_of_nil; done|].
  assert (heights_ok l /\ forall h', h' ∈ l -> next_power_of_two h = next_power_of_two h' -> h = h') as [H1 H2].
  { destruct l as [|h1 l]; [split; [intros ? ? H%not_elem_of_nil; done|intros ? H%not_elem_of_nil; done]|].
    cbn [FieldMerkleTree.heights_check] in Hc. rewrite andb_true_iff in Hc. destruct Hc as [Hc1 Hc2]. split; [by apply IH|]. specialize (IH Hc2).
    intros h' Hin E. rewrite orb_true_iff, negb_true_iff, Nat.eqb_eq, Nat.eqb_neq in Hc1.
    inversion_clear Hl as [|? ? _ Hh1]. rewrite !Forall_cons in Hh. destruct Hh as [Hle Hh].
    assert (h1 <= h') as Hle' by (apply elem_of_cons in Hin as [->|Hin]; [done|rewrite Forall_forall in Hh1; by apply Hh1]).
    pose proof (npo2_mono _ _ Hle). pose proof (npo2_mono _ _ Hle'). destruct Hc1 as [->|Hc1]; [|lia]. apply (IH h1 h'); [left|done|done]. }
  intros x y [->|Hx]%elem_of_cons [->|Hy]%elem_of_cons E; [done|by apply H2|symmetry; by apply H2|by apply H1].
Qed.

Lemma filter_iff_in {A} (P Q : A -> Prop) `{forall x, Decision (P x)} `{forall x, Decision (Q x)} (l : list A) : (forall x, x ∈ l -> P x <-> Q x) -> filter P l = filter Q l.
Proof.
  induction l as [|x l IH]; intros E; [done|]. rewrite !filter_cons, IH by (intros y Hy; apply E; by right). pose proof (E x (list_elem_of_here _ _)). repeat case_decide; tauto.
Qed.

Section Groups.
  Context {A : Type} (key : A -> nat).

(** The elements of padded height [n], and the smaller ones. *)
Definition group (n : nat) (l : list A) : list A := filter (fun x => next_power_of_two (key x) = n) l.
Definition below (n : nat) (l : list A) : list A := filter (fun x => next_power_of_two (key x) < n) l.

Lemma group_below n l : group n (below (2 * n) l) = group n l \/ n = 0.
Proof using.
  destruct (decide (n = 0)); [by right|left]. unfold group, below. induction l as [|x l IH]; [done|]. rewrite !filter_cons. destruct (decide (next_power_of_two (key x) < 2 * n)).
  - rewrite filter_cons. destruct (decide (next_power_of_two (key x) = n)); by rewrite IH.
  - rewrite IH. rewrite (decide_False (P := next_power_of_two (key x) = n)) by lia. done.
Qed.

Lemma below_below n k l : n <= k -> below n (below k l) = below n l.
Proof using.
  intros Hle. unfold below. induction l as [|x l IH]; [done|]. rewrite !filter_cons. destruct (decide (next_power_of_two (key x) < k)).
  - rewrite filter_cons. destruct (decide (next_power_of_two (key x) < n)); by rewrite IH.
  - rewrite IH. rewrite (decide_False (P := next_power_of_two (key x) < n)) by lia. done.
Qed.

Lemma filter_sorted (P : A -> Prop) `{forall x, Decision (P x)} l : StronglySorted (fun x y => key y <= key x) l -> StronglySorted (fun x y => key y <= key x) (filter P l).
Proof using.
  induction 1 as [|x l Hl IH Hx]; [constructor|]. rewrite filter_cons. case_decide; [|done]. constructor; [done|]. rewrite Forall_forall in *. intros y Hy%list_elem_of_filter. apply Hx, Hy.
Qed.

(** Padded heights are powers of two: below [2 * 2 ^ k] means [2 ^ k] at most. *)
Lemma npo2_below h k : next_power_of_two h < 2 ^ S k <-> next_power_of_two h <= 2 ^ k.
Proof using.
  unfold next_power_of_two. split; intros H.
  - apply Nat.pow_lt_mono_r_iff in H; [|lia]. apply Nat.pow_le_mono_r; lia.
  - apply (Nat.le_lt_trans _ (2 ^ k)); [done|]. apply Nat.pow_lt_mono_r; lia.
Qed.

(** The group at the head of what is left. *)
Lemma while_group k l : StronglySorted (fun x y => key y <= key x) l -> (forall x, x ∈ l -> next_power_of_two (key x) < 2 ^ S k) ->
  take_while (fun x => next_power_of_two (key x) =? 2 ^ k) l = group (2 ^ k) l /\ drop_while (fun x => next_power_of_two (key x) =? 2 ^ k) l = below (2 ^ k) l.
Proof using.
  intros Hs Hb. destruct (while_sorted key (fun x => next_power_of_two (key x) =? 2 ^ k) l Hs) as [-> ->].
  { intros x y Hx Hy Hle. rewrite !Nat.eqb_eq. intros E. pose proof (npo2_mono _ _ Hle). pose proof (proj1 (npo2_below (key x) k) (Hb x Hx)). lia. }
  split; apply filter_iff_in; intros x Hx; [by rewrite Nat.eqb_eq|]. rewrite Nat.eqb_neq. pose proof (proj1 (npo2_below (key x) k) (Hb x Hx)). lia.
Qed.
End Groups.

(** ** The layers of a tree *)

Section Layers.
  Context {F Digest : Type} `{LawfulHasher F Digest}.
Import FieldMerkleTree.

(** The digest of row [j] of a group, the default one past its last row. *)
Definition rows_digest (ms : list (Matrix F)) (j : nat) : Digest :=
  match ms with m :: _ => if j <? height m then hash (flat_map (fun m => row m j) ms) else default_digest | [] => default_digest end.

(** One layer from the one below it. *)
Definition node (prev : list Digest) (ms : list (Matrix F)) (j : nat) : Digest :=
  match ms with [] => pair prev j | _ => compress (pair prev j) (rows_digest ms j) end.

Lemma packed_pair_eq prev r k : k < WIDTH -> lane (packed_pair prev r) k = pair prev (r + k).
Proof using H0. intros Hk. unfold packed_pair. by rewrite lane_compress, !lane_pack. Qed.

Lemma compress_and_inject_eq prev ms h : Forall mat_wf ms -> Forall (fun m => height m = h) ms -> h <= length prev / 2 ->
  compress_and_inject prev ms = map (node prev ms) (seq 0 (length prev / 2)).
Proof using H0.
  intros Hw Hh Hle. destruct ms as [|m ms].
  - cbn [compress_and_inject]. unfold compress_layer. apply fill_eq. intros r k Hk _. by apply packed_pair_eq.
  - unfold compress_and_inject. assert (height m = h) as Em by (by inversion Hh). rewrite Em. set (group := m :: ms) in *. set (n := length prev / 2) in *.
    rewrite fill_eq.
    2:{ intros r k Hk Hr. rewrite lane_compress, packed_pair_eq by done. f_equal. by apply packed_rows_hash with h. }
    replace n with (h + (n - h)) at 2 by lia. rewrite seq_app, map_app. cbn [Nat.add]. f_equal; apply map_ext_in; intros j Hj%in_seq; subst group; cbn [node rows_digest]; rewrite Em.
    + by rewrite (proj2 (Nat.ltb_lt j h)) by lia.
    + by rewrite (proj2 (Nat.ltb_ge j h)) by lia.
Qed.

Lemma first_layer_eq ms m : head ms = Some m -> Forall mat_wf ms -> Forall (fun m' => height m' = height m) ms ->
  first_digest_layer ms = Some (map (rows_digest ms) (seq 0 (next_power_of_two (height m)))).
Proof using H0.
  intros Hm Hw Hh. unfold first_digest_layer. rewrite Hm. cbn [mbind option_bind]. f_equal. rewrite fill_eq.
  2:{ intros r k Hk Hr. by apply packed_rows_hash with (height m). }
  pose proof (npo2_le (height m)) as Hle. replace (next_power_of_two (height m)) with (height m + (next_power_of_two (height m) - height m)) at 2 by lia.
  destruct ms as [|m' ms]; [done|]. injection Hm as ->. rewrite seq_app, map_app. f_equal.
  - apply map_ext_in. intros j Hj%in_seq. cbn [rows_digest]. by rewrite (proj2 (Nat.ltb_lt _ _)) by lia.
  - cbn [Nat.add]. generalize (next_power_of_two (height m) - height m) as n. intros n.
    assert (forall s, height m <= s -> replicate n default_digest = map (rows_digest (m :: ms)) (seq s n)) as E; [|by apply E].
    induction n as [|n IH]; intros s Hs; [done|]. cbn [replicate seq map]. rewrite <- IH by lia. f_equal. cbn [rows_digest]. by rewrite (proj2 (Nat.ltb_ge _ _)).
Qed.

(** Matrices that [new] accepts, by decreasing height. *)
Record tree_list (l : list (Matrix F)) : Prop := {
  tl_wf : Forall mat_wf l;
  tl_sorted : StronglySorted (fun x y => height y <= height x) l;
  tl_heights : heights_ok (map height l)
}.

Lemma tree_list_filter (P : Matrix F -> Prop) `{forall m, Decision (P m)} l : tree_list l -> tree_list (filter P l).
Proof using.
  clear. intros [T1 T2 T3]. constructor.
  - apply Forall_forall. intros m [_ Hm]%list_elem_of_filter. rewrite Forall_forall in T1. by apply T1.
  - by apply filter_sorted.
  - intros h h' Hh Hh'. apply T3.
    + apply list_elem_of_fmap in Hh as (m & -> & [_ Hm]%list_elem_of_filter). by apply list_elem_of_fmap_2.
    + apply list_elem_of_fmap in Hh' as (m & -> & [_ Hm]%list_elem_of_filter). by apply list_elem_of_fmap_2.
Qed.

(** A group has one height. *)
Lemma group_height n l : tree_list l -> exists h, h <= n /\ Forall (fun m => height m = h) (group height n l).
Proof using.
  clear. intros [_ _ Hh]. destruct (group height n l) as [|m ms] eqn:E; [exists 0; split; [lia|constructor]|]. exists (height m).
  assert (forall m', m' ∈ group height n l -> m' ∈ l /\ next_power_of_two (height m') = n) as Hin by (intros m' [? ?]%list_elem_of_filter; done).
  assert (m ∈ group height n l) as Hm by (rewrite E; left). split; [rewrite <- (proj2 (Hin m Hm)); apply npo2_le|]. rewrite <- E. apply Forall_forall. intros m' Hm'.
  apply Hh; [by apply list_elem_of_fmap_2, Hin..|]. by rewrite (proj2 (Hin m Hm)), (proj2 (Hin m' Hm')).
Qed.

(** The layers above one of [2 ^ k] digests. *)
Lemma build_layers_eq fuel k prev rest : length prev = 2 ^ k -> k <= fuel -> tree_list rest -> (forall m, m ∈ rest -> next_power_of_two (height m) < 2 ^ k) ->
  let layers := build_layers fuel prev rest in
  length layers = S k /\ layers !! 0 = Some prev /\
  forall i, i < k -> exists a b, layers !! i = Some a /\ layers !! S i = Some b /\ length a = 2 ^ (k - i) /\
    b = map (node a (group height (2 ^ (k - S i)) rest)) (seq 0 (2 ^ (k - S i))).
Proof using H0.
  revert k prev rest. induction fuel as [|fuel IH]; intros k prev rest Hl Hk Ht Hb; cbn zeta.
  - assert (k = 0) as -> by lia. split_and!; [done..|]. intros i Hi. lia.
  - cbn [build_layers]. destruct (Nat.eqb_spec (length prev) 1) as [E1|E1].
    { rewrite Hl in E1. assert (k = 0) as -> by (apply (pow2_inj k 0); done). split_and!; [done..|]. intros i Hi. lia. }
    destruct k as [|k]; [by rewrite Hl in E1|]. assert (length prev / 2 = 2 ^ k) as Eh by (rewrite Hl; apply pow2_half). rewrite Eh.
    destruct (while_group height k rest (tl_sorted _ Ht) Hb) as [-> ->]. destruct (group_height (2 ^ k) rest Ht) as (h & Hh & Hg).
    assert (compress_and_inject prev (group height (2 ^ k) rest) = map (node prev (group height (2 ^ k) rest)) (seq 0 (2 ^ k))) as En.
    { rewrite (compress_and_inject_eq prev _ h), Eh; [done| |done|by rewrite Eh]. apply (tl_wf _ (tree_list_filter _ _ Ht)). }
    rewrite En. set (next := map _ _). assert (length next = 2 ^ k) as Hn by (subst next; by rewrite length_map, length_seq).
    destruct (IH k next (below height (2 ^ k) rest)) as (L1 & L2 & L3); [done|lia|by apply tree_list_filter|by intros m [? _]%list_elem_of_filter|].
    cbn [length]. split_and!; [by rewrite L1|done|]. intros [|i] Hi.
    + exists prev, next. split_and!; [done|exact L2|done|]. subst next. cbn [Nat.sub]. by rewrite !Nat.sub_0_r.
    + destruct (L3 i ltac:(lia)) as (a & b & Ha & Hb' & La & Eb). exists a, b. cbn [lookup list_lookup]. split_and!; [exact Ha|exact Hb'|by cbn [Nat.sub]|].
      rewrite Eb. cbn [Nat.sub]. assert (group height (2 ^ (k - S i)) (below height (2 ^ k) rest) = group height (2 ^ (k - S i)) rest) as ->; [|done].
      unfold group, below. rewrite list_filter_filter. apply filter_iff_in. intros m Hm. split; [tauto|]. intros E. split; [done|]. rewrite E. apply Nat.pow_lt_mono_r; lia.
Qed.
End Layers.
