(* ===== verification/MerkleOpen.v ===== *)
(** * Openings of the Merkle tree

    [open_batch] and [verify_batch] of crates/p3-merkle-tree against the tree that
    [new] builds: level by level the path from an opened row gives the digest of
    the next layer, so every opening verifies; and two openings of one root agree
    or give a collision. *)

From Stdlib Require Import Lia Bool PeanoNat Sorted.
From stdpp Require Import base list.
From S2P Require Import Prelude MerkleTree.

(** ** Verification, level by level *)

Section Verify.
  Context {F Digest : Type} `{Hasher F Digest} `{EqDecision Digest} `{LawfulUtil}.
Import FieldMerkleTree FieldMerkleTreeMmcs.

Definition dkey (x : nat * Dimensions) : nat := dim_height x.2.

Definition parent (index : nat) (root sibling : Digest) : Digest := if Nat.even index then compress root sibling else compress sibling root.

(** The next group of what is left is taken whole, if it is due. *)
Lemma verify_step opened sibling proof index k rest root : StronglySorted (fun x y => dkey y <= dkey x) rest ->
  (forall x, x ∈ rest -> next_power_of_two (dkey x) < 2 ^ S k) -> heights_ok (map dkey rest) ->
  verify_path opened (sibling :: proof) index (2 ^ S k) rest root =
  match group dkey (2 ^ k) rest with
  | [] => verify_path opened proof (index / 2) (2 ^ k) (below dkey (2 ^ k) rest) (parent index root sibling)
  | _ => values ← group_values opened (group dkey (2 ^ k) rest);
         verify_path opened proof (index / 2) (2 ^ k) (below dkey (2 ^ k) rest) (compress (parent index root sibling) (hash values))
  end.
Proof using.
  intros Hs Hb Hh. cbn [verify_path]. rewrite pow2_half. change (if Nat.even index then compress root sibling else compress sibling root) with (parent index root sibling).
  destruct (while_group dkey k rest Hs Hb) as [Et Ed]. destruct rest as [|[i d] rest]; [done|].
  destruct (Nat.eqb_spec (next_power_of_two (dim_height d)) (2 ^ k)) as [E|E].
  - assert (forall x, x ∈ (i, d) :: rest -> (dim_height x.2 =? dim_height d) = (next_power_of_two (dkey x) =? 2 ^ k)) as Hx.
    { intros x Hx. destruct (Nat.eqb_spec (dim_height x.2) (dim_height d)) as [Ex|Ex], (Nat.eqb_spec (next_power_of_two (dkey x)) (2 ^ k)) as [Ey|Ey]; try done; exfalso.
      - apply Ey. unfold dkey. by rewrite Ex.
      - apply Ex. apply (Hh (dkey x) (dkey (i, d))); [by apply list_elem_of_fmap_2|apply list_elem_of_fmap_2; left|]. by rewrite Ey. }
    destruct (take_while_ext _ _ _ Hx) as [-> ->]. rewrite Ed, Et. apply Nat.eqb_eq in E.
    assert (exists l, group dkey (2 ^ k) ((i, d) :: rest) = (i, d) :: l) as [l ->]; [|done].
    rewrite <- Et. cbn [take_while]. change (dkey (i, d)) with (dim_height d). rewrite E. by eexists.
  - apply Nat.eqb_neq in E. assert (group dkey (2 ^ k) ((i, d) :: rest) = []) as ->.
    { rewrite <- Et. cbn [take_while]. change (dkey (i, d)) with (dim_height d). by rewrite E. }
    rewrite <- Ed. cbn [drop_while]. change (dkey (i, d)) with (dim_height d). by rewrite E.
Qed.
End Verify.

Section Complete.
  Context {F Digest : Type} `{LawfulHasher F Digest} `{EqDecision Digest} `{LawfulUtil}.
Import FieldMerkleTree FieldMerkleTreeMmcs.

Definition ikey (x : nat * Matrix F) : nat := height x.2.
Definition to_dims (x : nat * Matrix F) : nat * Dimensions := (x.1, dimensions x.2).

Context (index K : nat) (opened : list (list F)) (E : list (nat * Matrix F)).
Context (Hopen : forall i m, (i, m) ∈ E -> index / 2 ^ (K - log2_ceil (height m)) < height m /\ opened !! i = Some (row m (index / 2 ^ (K - log2_ceil (height m))))).
Context (Ht : tree_list (map snd E)).

(** The opened rows of a group are its rows at the index of the layer. *)
Lemma group_opened (G : list (nat * Matrix F)) k : k <= K -> (forall x, x ∈ G -> x ∈ E /\ next_power_of_two (ikey x) = 2 ^ k) ->
  group_values opened (map to_dims G) = Some (flat_map (fun m => row m (index / 2 ^ (K - k))) (map snd G)) /\
  match map snd G with m :: _ => index / 2 ^ (K - k) < height m | [] => True end.
Proof using Hopen.
  clear Ht. intros Hk HG. assert (forall i m, (i, m) ∈ G -> index / 2 ^ (K - k) < height m /\ opened !! i = Some (row m (index / 2 ^ (K - k)))) as Ho.
  { intros i m Hin. destruct (HG _ Hin) as [HE Hn]. apply pow2_inj in Hn. cbn [ikey snd] in Hn. pose proof (Hopen i m HE) as Ho. unfold ikey in Hn. cbn [snd] in Hn. by rewrite Hn in Ho. }
  clear HG Hopen. split.
  - unfold group_values. induction G as [|[i m] G IH]; [done|]. destruct (Ho i m (list_elem_of_here _ _)) as [_ Hi]. cbn [map mapM to_dims fst]. rewrite Hi. cbn [mbind option_bind].
    assert (forall i m, (i, m) ∈ G -> index / 2 ^ (K - k) < height m /\ opened !! i = Some (row m (index / 2 ^ (K - k)))) as Ho' by (intros; apply Ho; by right).
    specialize (IH Ho'). cbn [map] in IH. destruct (mapM _ (map to_dims G)) as [l|]; [|discriminate IH]. cbn in IH. injection IH as IH. cbn [mret option_ret fmap option_fmap option_map mbind option_bind concat flat_map snd]. by rewrite IH.
  - destruct G as [|[i m] G]; [done|]. cbn. apply (Ho i m). left.
Qed.

Lemma group_map {A B} (f : A -> B) (key : A -> nat) (key' : B -> nat) n l : (forall x, key' (f x) = key x) ->
  group key' n (map f l) = map f (group key n l) /\ below key' n (map f l) = map f (below key n l).
Proof using.
  clear. intros Hk. unfold group, below. induction l as [|x l [IH1 IH2]]; [done|]. cbn [map]. rewrite !filter_cons, Hk, IH1, IH2. repeat case_decide; done.
Qed.

Lemma lxor_one q : Nat.lxor (2 * q) 1 = 2 * q + 1 /\ Nat.lxor (2 * q + 1) 1 = 2 * q.
Proof using.
  assert (forall n, Nat.testbit 1 (S n) = false) as H1' by (intros n; exact (Nat.bits_0 n)).
  split; apply Nat.bits_inj; intros [|n]; rewrite Nat.lxor_spec, ?H1', ?xorb_false_r, ?Nat.bit0_odd, ?Nat.odd_add, ?Nat.odd_mul; try done.
  - rewrite Nat.testbit_odd_succ', Nat.testbit_even_succ'; done || lia.
  - rewrite Nat.testbit_odd_succ', Nat.testbit_even_succ'; done || lia.
Qed.

Lemma parent_pair (a : list Digest) j x sibling : digest a j = x -> a !! Nat.lxor j 1 = Some sibling -> parent j x sibling = pair a (j / 2).
Proof using.
  clear. intros Ex Hs. unfold parent, pair, digest in *. rewrite <- Ex. apply (nth_lookup_Some _ _ default_digest) in Hs. rewrite <- Hs.
  destruct (Nat.even j) eqn:Ej.
  - apply Nat.even_spec in Ej as [q ->]. replace (2 * q / 2) with q by (rewrite Nat.mul_comm; by rewrite Nat.div_mul).
    by rewrite (proj1 (lxor_one q)).
  - assert (Nat.odd j = true) as [q ->]%Nat.odd_spec by (unfold Nat.odd; by rewrite Ej). replace ((2 * q + 1) / 2) with q by (apply (Nat.div_unique _ 2 q 1); lia).
    by rewrite (proj2 (lxor_one q)).
Qed.

Context (layers : list (list Digest)) (rest : list (nat * Matrix F)) (Hrest : rest = below ikey (2 ^ K) E).
Context (Hlayers : forall i, i < K -> exists a b, layers !! i = Some a /\ layers !! S i = Some b /\ length a = 2 ^ (K - i) /\
    b = map (node a (group height (2 ^ (K - S i)) (map snd rest))) (seq 0 (2 ^ (K - S i)))).
Context (Hidx : index < 2 ^ K).

Lemma index_bound i : i <= K -> index / 2 ^ i < 2 ^ (K - i).
Proof using Hidx. clear - Hidx. intros Hi. apply Nat.Div0.div_lt_upper_bound. rewrite <- Nat.pow_add_r. by replace (i + (K - i)) with K by lia. Qed.

(** From layer [i] up, the path gives the root. *)
Lemma verify_layers d : forall i a proof x, d + i = K -> layers !! i = Some a -> digest a (index / 2 ^ i) = x ->
  mapM (fun i => layer ← layers !! i; layer !! Nat.lxor (index / 2 ^ i) 1) (seq i d) = Some proof ->
  exists top, layers !! K = Some top /\
  verify_path opened proof (index / 2 ^ i) (2 ^ (K - i)) (below dkey (2 ^ (K - i)) (map to_dims E)) x = Some (digest top (index / 2 ^ K)).
Proof using Hopen Ht Hrest Hlayers Hidx.
  induction d as [|d IH]; intros i a proof x Hi Ha Ex Hp.
  { cbn in Hp. injection Hp as <-. assert (i = K) as -> by lia. exists a. split; [done|]. cbn [verify_path]. by rewrite Ex. }
  cbn [seq mapM] in Hp. rewrite Ha in Hp. cbn [mbind option_bind] in Hp. destruct (a !! Nat.lxor (index / 2 ^ i) 1) as [sib|] eqn:Es; [|discriminate Hp]. cbn [mbind option_bind] in Hp.
  destruct (mapM _ (seq (S i) d)) as [proof'|] eqn:Hp'; [|discriminate Hp]. injection Hp as <-.
  destruct (Hlayers i ltac:(lia)) as (a' & b & Ha' & Hb & La & Eb). rewrite Ha in Ha'. injection Ha' as <-.
  assert (K - i = S (K - S i)) as EK by lia. set (k := K - S i) in *. rewrite EK.
  assert (2 ^ S k <= 2 ^ K) as HkK by (apply Nat.pow_le_mono_r; lia).
  rewrite verify_step.
  2:{ apply filter_sorted. pose proof (tl_sorted _ Ht) as Hs. clear - Hs. induction E as [|[j m] l IHl]; [constructor|]. inversion_clear Hs as [|? ? Hl Hm]. constructor; [by apply IHl|].
      rewrite Forall_map in Hm. apply (proj2 (Forall_map _ _ _)). exact Hm. }
  2:{ by intros y [? _]%list_elem_of_filter. }
  2:{ intros h h' Hh Hh'. apply (tl_heights _ Ht).
      - apply list_elem_of_fmap in Hh as (y & -> & [_ Hy]%list_elem_of_filter). apply list_elem_of_fmap in Hy as (z & -> & Hz). rewrite map_map. change (dkey (to_dims z)) with (height z.2). by apply (list_elem_of_fmap_2 (fun z => height z.2)).
      - apply list_elem_of_fmap in Hh' as (y & -> & [_ Hy]%list_elem_of_filter). apply list_elem_of_fmap in Hy as (z & -> & Hz). rewrite map_map. change (dkey (to_dims z)) with (height z.2). by apply (list_elem_of_fmap_2 (fun z => height z.2)). }
  rewrite below_below by (apply Nat.pow_le_mono_r; lia).
  assert (group dkey (2 ^ k) (below dkey (2 ^ S k) (map to_dims E)) = map to_dims (group ikey (2 ^ k) E)) as ->.
  { destruct (group_below dkey (2 ^ k) (map to_dims E)) as [Eg|Eg]; [|by apply Nat.pow_nonzero in Eg]. change (2 ^ S k) with (2 * 2 ^ k). rewrite Eg. by apply group_map. }
  assert (group height (2 ^ k) (map snd rest) = map snd (group ikey (2 ^ k) E)) as Eg.
  { rewrite (proj1 (group_map snd ikey height (2 ^ k) rest ltac:(done))), Hrest. f_equal. unfold group, below. rewrite list_filter_filter. apply filter_iff_in. intros y Hy. split; [tauto|].
    intros Ey. split; [done|]. rewrite Ey. apply Nat.pow_lt_mono_r; lia. }
  rewrite Eg in Eb. assert (index / 2 ^ i / 2 = index / 2 ^ S i) as Ediv by (rewrite Nat.Div0.div_div, Nat.mul_comm; done). rewrite Ediv.
  pose proof (index_bound (S i) ltac:(lia)) as Hbnd. fold k in Hbnd.
  assert (digest b (index / 2 ^ S i) = node a (map snd (group ikey (2 ^ k) E)) (index / 2 ^ S i)) as Eb'.
  { rewrite Eb. unfold digest. rewrite (nth_indep _ _ (node a (map snd (group ikey (2 ^ k) E)) 0)) by (by rewrite length_map, length_seq). rewrite map_nth, seq_nth by done. done. }
  destruct (group_opened (group ikey (2 ^ k) E) k ltac:(lia)) as [Eo Hlt]; [intros y [? ?]%list_elem_of_filter; done|].
  replace (K - k) with (S i) in Eo, Hlt by lia. rewrite Eo. pose proof (parent_pair a _ x sib Ex Es) as Ep. rewrite Ediv in Ep. rewrite Ep.
  destruct (IH (S i) b proof' (digest b (index / 2 ^ S i)) ltac:(lia) Hb eq_refl Hp') as (top & Htop & Ev). exists top. split; [done|]. fold k in Ev. rewrite Eb' in Ev.
  destruct (map snd (group ikey (2 ^ k) E)) as [|m ms] eqn:Em; destruct (map to_dims (group ikey (2 ^ k) E)) as [|y ys] eqn:Ey;
    try (exfalso; destruct (group ikey (2 ^ k) E); done).
  - exact Ev.
  - cbn [mbind option_bind]. cbn [node rows_digest] in Ev. rewrite (proj2 (Nat.ltb_lt _ _) Hlt) in Ev. exact Ev.
Qed.
End Complete.

(** ** Openings verify *)

Section Opened.
  Context {F Digest : Type} `{LawfulHasher F Digest} `{EqDecision Digest} `{LawfulUtil}.
Import FieldMerkleTree FieldMerkleTreeMmcs.

(** The matrices with their positions, by decreasing height. *)
Definition by_height (leaves : list (Matrix F)) : list (nat * Matrix F) := sorted_desc ikey (enumerate leaves).

Lemma enumerate_map {A B} (f : A -> B) l : enumerate (map f l) = map (fun x => (x.1, f x.2)) (enumerate l).
Proof using. clear. unfold enumerate. apply list_eq. intros i. rewrite list_lookup_imap, !list_lookup_fmap, list_lookup_imap. by destruct (l !! i). Qed.

Lemma enumerate_snd {A} (l : list A) : map snd (enumerate l) = l.
Proof using. clear. unfold enumerate. apply list_eq. intros i. rewrite list_lookup_fmap, list_lookup_imap. by destruct (l !! i). Qed.

Lemma enumerate_elem {A} (l : list A) i x : (i, x) ∈ enumerate l <-> l !! i = Some x.
Proof using.
  clear. unfold enumerate. rewrite list_elem_of_lookup. setoid_rewrite list_lookup_imap. split.
  - intros [j Hj]. destruct (l !! j) as [y|] eqn:E; [|discriminate Hj]. cbn in Hj. by injection Hj as <- <-.
  - intros Hi. exists i. by rewrite Hi.
Qed.

Lemma by_height_snd leaves : map snd (by_height leaves) = sorted_desc height leaves.
Proof using. clear. unfold by_height. rewrite (sorted_desc_map ikey height snd) by done. by rewrite enumerate_snd. Qed.

(** The order in which [verify_batch] sees the matrices. *)
Definition dims_sorted (dims : list Dimensions) : list (nat * Dimensions) := sorted_desc (fun x : nat * Dimensions => dim_height x.2) (enumerate dims).

Lemma by_height_dims leaves : dims_sorted (map dimensions leaves) = map to_dims (by_height leaves).
Proof using. clear. unfold by_height, dims_sorted. rewrite enumerate_map. symmetry. apply sorted_desc_map. done. Qed.

Lemma sorted_tree_list (leaves : list (Matrix F)) : Forall mat_wf leaves -> heights_check (rev (sorted_desc id (map height leaves))) = true -> tree_list (sorted_desc height leaves).
Proof using.
  clear. intros Hw Hc. constructor.
  - by rewrite sorted_desc_perm.
  - apply sorted_desc_sorted.
  - assert (heights_ok (rev (sorted_desc id (map height leaves)))) as Hh.
    { apply heights_check_ok; [|done]. pose proof (sorted_desc_sorted id (map height leaves)) as Hs. clear - Hs. induction Hs as [|x l Hl IH Hx]; [constructor|].
      cbn [rev]. clear Hl. rewrite Forall_forall in Hx. assert (forall y, y ∈ rev l -> y <= x) as Hy by (intros y Hy; apply Hx; by apply list_elem_of_In, in_rev, list_elem_of_In).
      clear Hx. induction (rev l) as [|y l' IHl]; cbn [app]; [repeat constructor|]. inversion_clear IH as [|? ? Hl' Hf]. constructor; [apply IHl; [done|intros z Hz; apply Hy; by right]|].
      apply Forall_app. split; [done|]. apply Forall_singleton, Hy. left. }
    intros h h' Hi1 Hi2. apply Hh; apply list_elem_of_In; rewrite <- in_rev; apply list_elem_of_In; rewrite sorted_desc_perm; [rewrite (sorted_desc_perm height leaves) in Hi1|rewrite (sorted_desc_perm height leaves) in Hi2]; done.
Qed.

Lemma head_tallest (leaves : list (Matrix F)) tallest : head (sorted_desc height leaves) = Some tallest -> tallest ∈ leaves /\ (forall m, m ∈ leaves -> height m <= height tallest) /\ list_max (map height leaves) = height tallest.
Proof using.
  clear. intros Hh. assert (tallest ∈ leaves) as Hin.
  { rewrite <- (sorted_desc_perm height leaves). destruct (sorted_desc height leaves); [done|]. injection Hh as ->. left. }
  assert (forall m, m ∈ leaves -> height m <= height tallest) as Hmax.
  { intros m Hm. pose proof (sorted_desc_sorted height leaves) as Hs. rewrite <- (sorted_desc_perm height leaves) in Hm. destruct (sorted_desc height leaves) as [|x l]; [done|]. injection Hh as ->.
    inversion_clear Hs as [|? ? _ Hf]. apply elem_of_cons in Hm as [->|Hm]; [done|]. rewrite Forall_forall in Hf. by apply Hf. }
  split_and!; [done..|]. apply Nat.le_antisymm.
  - apply list_max_le. rewrite Forall_map. apply Forall_forall, Hmax.
  - pose proof (proj1 (list_max_le (map height leaves) (list_max (map height leaves))) (le_n _)) as Hf. rewrite Forall_map, Forall_forall in Hf. by apply Hf.
Qed.

(** The tallest matrices are a group. *)
Lemma tallest_group {A} (key : A -> nat) (p : A -> bool) l K : StronglySorted (fun x y => key y <= key x) l -> (forall x, x ∈ l -> next_power_of_two (key x) <= 2 ^ K) ->
  (forall x, x ∈ l -> p x = (next_power_of_two (key x) =? 2 ^ K)) -> take_while p l = group key (2 ^ K) l /\ drop_while p l = below key (2 ^ K) l.
Proof using.
  clear. intros Hs Hb Hp. destruct (take_while_ext _ _ _ Hp) as [-> ->]. apply while_group; [done|]. intros x Hx. apply npo2_below. by apply Hb.
Qed.

(** What [new] builds. *)
Lemma new_layers leaves tree : Forall mat_wf leaves -> new leaves = Some tree ->
  exists tallest K first, let S := sorted_desc height leaves in
    head S = Some tallest /\ K = log2_ceil (height tallest) /\ tree_list S /\
    first = map (rows_digest (group height (2 ^ K) S)) (seq 0 (2 ^ K)) /\
    tree = mkFieldMerkleTree leaves (map dimensions leaves) (build_layers (length first) first (below height (2 ^ K) S)).
Proof using H0.
  intros Hw Hn. unfold new in Hn. destruct (heights_check _) eqn:Hc; [|discriminate Hn]. pose proof (sorted_tree_list leaves Hw Hc) as Ht.
  destruct (head (sorted_desc height leaves)) as [tallest|] eqn:Hh; [|discriminate Hn]. cbn [mbind option_bind] in Hn. destruct (head_tallest _ _ Hh) as (Hin & Hmax & _).
  set (K := log2_ceil (height tallest)).
  assert (forall m, m ∈ sorted_desc height leaves -> (height m =? height tallest) = (next_power_of_two (height m) =? 2 ^ K)) as Hp.
  { intros m Hm. destruct (Nat.eqb_spec (height m) (height tallest)) as [E|E], (Nat.eqb_spec (next_power_of_two (height m)) (2 ^ K)) as [E'|E']; try done; exfalso.
    - apply E'. by rewrite E.
    - apply E, (tl_heights _ Ht); [by apply list_elem_of_fmap_2|apply list_elem_of_fmap_2; by rewrite sorted_desc_perm|done]. }
  destruct (tallest_group height (fun m => height m =? height tallest) (sorted_desc height leaves) K (tl_sorted _ Ht)) as [Et Ed]; [|exact Hp|].
  { intros m Hm. rewrite sorted_desc_perm in Hm. apply (npo2_mono (height m) (height tallest)). by apply Hmax. }
  rewrite Et, Ed in Hn. assert (head (group height (2 ^ K) (sorted_desc height leaves)) = Some tallest) as Hg.
  { rewrite <- Et. destruct (sorted_desc height leaves) as [|m l]; [done|]. injection Hh as ->. cbn. by rewrite Nat.eqb_refl. }
  rewrite (first_layer_eq _ tallest Hg) in Hn.
  2:{ apply (tl_wf _ (tree_list_filter _ _ Ht)). }
  2:{ apply Forall_forall. intros m [E Hm]%list_elem_of_filter. apply (tl_heights _ Ht); [by apply list_elem_of_fmap_2|apply list_elem_of_fmap_2; by rewrite sorted_desc_perm|done]. }
  cbn [mbind option_bind] in Hn. injection Hn as <-. exists tallest, K, (map (rows_digest (group height (2 ^ K) (sorted_desc height leaves))) (seq 0 (2 ^ K))). split_and!; done.
Qed.

Lemma mapM_lookup_Some {A B} (f : A -> option B) l l' i x : mapM f l = Some l' -> l !! i = Some x -> exists y, f x = Some y /\ l' !! i = Some y.
Proof using.
  clear. revert l' i. induction l as [|a l IH]; intros l' i Hm Hi; [done|]. cbn in Hm. destruct (f a) as [b|] eqn:Ea; [|discriminate Hm]. cbn in Hm.
  destruct (mapM f l) as [r|]; [|discriminate Hm]. injection Hm as <-. destruct i as [|i]; cbn in *; [injection Hi as <-; by exists b|by apply IH].
Qed.

(** [verify_batch] by groups. *)
Lemma dims_tallest dims d0 : head (dims_sorted dims) = Some d0 -> forall x, x ∈ dims_sorted dims -> dkey x <= dkey d0.
Proof using.
  clear. intros Hh x Hx. pose proof (sorted_desc_sorted dkey (enumerate dims)) as Hs. change (sorted_desc dkey (enumerate dims)) with (dims_sorted dims) in Hs.
  destruct (dims_sorted dims) as [|y l]; [done|]. injection Hh as ->. inversion_clear Hs as [|? ? _ Hf]. apply elem_of_cons in Hx as [->|Hx]; [done|]. rewrite Forall_forall in Hf. by apply Hf.
Qed.

Lemma verify_batch_eq (commit : Digest) dims index opened (proof : list Digest) d0 : head (dims_sorted dims) = Some d0 ->
  let K := log2_ceil (dim_height d0.2) in
  verify_batch commit dims index opened proof =
  (values ← group_values opened (group dkey (2 ^ K) (dims_sorted dims));
   root ← verify_path opened proof index (2 ^ K) (below dkey (2 ^ K) (dims_sorted dims)) (hash values);
   Some (bool_decide (commit = root))).
Proof using.
  intros Hh K. unfold verify_batch. change (sorted_desc _ _) with (dims_sorted dims). rewrite Hh. cbn [mbind option_bind]. change (next_power_of_two (dim_height d0.2)) with (2 ^ K).
  destruct (tallest_group dkey (fun x : nat * Dimensions => next_power_of_two (dim_height x.2) =? 2 ^ K) (dims_sorted dims) K (sorted_desc_sorted dkey _)) as [-> ->]; [|done|done].
  intros x Hx. apply (npo2_mono (dkey x) (dkey d0)). by apply dims_tallest with dims.
Qed.

(** The tree that [new] builds, layer by layer, and its root. *)
Lemma new_tree leaves tree : Forall mat_wf leaves -> new leaves = Some tree ->
  exists tallest K first layers top, let E := by_height leaves in
    (head (sorted_desc height leaves) = Some tallest /\ K = log2_ceil (height tallest) /\ tree_list (map snd E)) /\
    (tree = mkFieldMerkleTree leaves (map dimensions leaves) layers /\
     first = map (rows_digest (group height (2 ^ K) (sorted_desc height leaves))) (seq 0 (2 ^ K)) /\ layers !! 0 = Some first /\
     (forall i, i < K -> exists a b, layers !! i = Some a /\ layers !! S i = Some b /\ length a = 2 ^ (K - i) /\
        b = map (node a (group height (2 ^ (K - S i)) (map snd (below ikey (2 ^ K) E)))) (seq 0 (2 ^ (K - S i))))) /\
    layers !! K = Some top /\ root tree = Some (digest top 0).
Proof using H0.
  intros Hw Hn. destruct (new_layers leaves tree Hw Hn) as (tallest & K & first & Hh & EK & Ht & Efirst & Etree). cbn zeta in *.
  assert (length first = 2 ^ K) as Hlf by (rewrite Efirst; by rewrite length_map, length_seq).
  destruct (build_layers_eq (length first) K first (below height (2 ^ K) (sorted_desc height leaves)) Hlf) as (L1 & L2 & L3).
  { rewrite Hlf. apply Nat.lt_le_incl, Nat.pow_gt_lin_r. lia. } { by apply tree_list_filter. } { by intros m [? _]%list_elem_of_filter. }
  set (layers := build_layers _ _ _) in *. rewrite <- by_height_snd in L3, Ht.
  rewrite (proj2 (group_map snd ikey height (2 ^ K) (by_height leaves) ltac:(done))) in L3.
  assert (exists top, layers !! K = Some top /\ length top = 1) as (top & Htop & Hl1).
  { destruct K as [|K']; [by exists first|]. destruct (L3 K' ltac:(lia)) as (a & b & _ & Hb & _ & Eb). exists b. split; [done|]. rewrite Eb, length_map, length_seq. by rewrite Nat.sub_diag. }
  exists tallest, K, first, layers, top. split_and!; try done. unfold root. rewrite Etree. cbn [digest_layers]. rewrite last_lookup, L1. cbn [Nat.pred]. rewrite Htop. cbn [mbind option_bind]. by destruct top.
Qed.

Lemma commit_inv leaves r tree : commit leaves = Some (r, tree) -> new leaves = Some tree /\ root tree = Some r.
Proof using. clear. unfold commit. intros Hc. destruct (new leaves) as [t|]; [|discriminate Hc]. cbn [mbind option_bind] in Hc. destruct (root t) as [x|] eqn:E; [|discriminate Hc]. by injection Hc as <- <-. Qed.

(** An opening of a tree with its leaves. *)
Lemma open_batch_inv (leaves : list (Matrix F)) dims (layers : list (list Digest)) index (opened : list (list F)) (proof : list Digest) (tallest : Matrix F) : head (sorted_desc height leaves) = Some tallest ->
  open_batch index (mkFieldMerkleTree leaves dims layers) = Some (opened, proof) <->
  mapM (opening (log2_ceil (height tallest)) index) leaves = Some opened /\ path (log2_ceil (height tallest)) index layers = Some proof.
Proof using H2.
  intros Hh. destruct (head_tallest _ _ Hh) as (Hin & _ & Emax). unfold open_batch, get_max_height, has_leaves. cbn [FieldMerkleTree.leaves digest_layers].
  assert ((length leaves =? 0) = false) as -> by (destruct leaves; [by apply not_elem_of_nil in Hin|done]). cbn [negb]. rewrite Emax, log2_ceil_usize_spec.
  destruct (mapM _ leaves) as [o|]; cbn [mbind option_bind]; [|by split; [|intros [? _]]]. destruct (path _ _ _) as [p|]; cbn [mbind option_bind]; [|by split; [|intros [_ ?]]].
  split; [by intros [= -> ->]|by intros [[= ->] [= ->]]].
Qed.

Lemma opening_eq K index (m : Matrix F) : opening K index m = if K <? log2_ceil (height m) then None else rows m !! (index / 2 ^ (K - log2_ceil (height m))).
Proof using H2. unfold opening. by rewrite log2_ceil_usize_spec. Qed.

Lemma opening_Some K index (m : Matrix F) v : opening K index m = Some v -> rows m !! (index / 2 ^ (K - log2_ceil (height m))) = Some v.
Proof using H2. rewrite opening_eq. by destruct (K <? log2_ceil (height m)). Qed.

Lemma opened_verifies leaves root tree index opened proof : Forall mat_wf leaves -> commit leaves = Some (root, tree) ->
  open_batch index tree = Some (opened, proof) -> verify_batch root (map dimensions leaves) index opened proof = Some true.
Proof using H0 H2.
  intros Hw [Hn Hr]%commit_inv Ho. destruct (new_tree leaves tree Hw Hn) as (tallest & K & first & layers & top & (Hh & EK & Ht) & (Etree & Efirst & L2 & L3) & Ltop & Hroot).
  destruct (head_tallest _ _ Hh) as (Hin & Hmax & Emax). set (E := by_height leaves) in *. assert (map snd E = sorted_desc height leaves) as Esnd by apply by_height_snd.
  rewrite Etree, (open_batch_inv _ _ _ _ _ _ _ Hh), <- EK in Ho. destruct Ho as [Hop Hpf]. unfold path in Hpf.
  assert (forall i m, (i, m) ∈ E -> index / 2 ^ (K - log2_ceil (height m)) < height m /\ opened !! i = Some (row m (index / 2 ^ (K - log2_ceil (height m))))) as Hopen.
  { intros i m Him. subst E. unfold by_height in Him. rewrite sorted_desc_perm, enumerate_elem in Him. destruct (mapM_lookup_Some _ _ _ _ _ Hop Him) as (v & Hv & Hi). apply opening_Some in Hv.
    split; [by apply lookup_lt_Some in Hv|]. rewrite Hi. f_equal. unfold row. symmetry. by apply nth_lookup_Some. }
  assert (index < 2 ^ K) as Hidx.
  { assert (exists i, (i, tallest) ∈ E) as [i Hi].
    { assert (tallest ∈ map snd E) as Ht' by (rewrite Esnd; by rewrite sorted_desc_perm). apply list_elem_of_fmap in Ht' as ([i m] & -> & ?). by exists i. }
    destruct (Hopen i tallest Hi) as [Hlt _]. rewrite <- EK, Nat.sub_diag, Nat.div_1_r in Hlt. pose proof (npo2_le (height tallest)) as Hle. unfold next_power_of_two in Hle. rewrite <- EK in Hle. lia. }
  destruct (group_opened index K opened E Hopen (group ikey (2 ^ K) E) K ltac:(lia)) as [Eo Hlt]; [intros y [? ?]%list_elem_of_filter; done|].
  rewrite Nat.sub_diag, Nat.div_1_r in Eo, Hlt.
  assert (map snd (group ikey (2 ^ K) E) = group height (2 ^ K) (sorted_desc height leaves)) as Eg by (rewrite <- Esnd; symmetry; by apply group_map). rewrite Eg in Eo, Hlt.
  assert (digest first (index / 2 ^ 0) = hash (flat_map (fun m => row m index) (group height (2 ^ K) (sorted_desc height leaves)))) as Efd.
  { rewrite Nat.div_1_r, Efirst. unfold digest. rewrite (nth_indep _ _ (rows_digest (group height (2 ^ K) (sorted_desc height leaves)) 0)) by (by rewrite length_map, length_seq). rewrite map_nth, seq_nth by done. cbn [Nat.add].
    unfold rows_digest. destruct (group height (2 ^ K) (sorted_desc height leaves)) as [|m ms] eqn:Egs; [|by rewrite (proj2 (Nat.ltb_lt _ _) Hlt)].
    exfalso. assert (tallest ∈ group height (2 ^ K) (sorted_desc height leaves)) as Hg; [|rewrite Egs in Hg; by apply not_elem_of_nil in Hg].
    apply list_elem_of_filter. split; [by rewrite EK|]. by rewrite sorted_desc_perm. }
  destruct (verify_layers index K opened E Hopen Ht layers (below ikey (2 ^ K) E) eq_refl L3 Hidx K 0 first proof _ ltac:(lia) L2 Efd Hpf) as (top' & Htop & Ev).
  rewrite Ltop in Htop. injection Htop as <-. rewrite Nat.div_1_r, Nat.sub_0_r, (Nat.div_small index) in Ev by done.
  rewrite Hr in Hroot. injection Hroot as ->.
  assert (head (map to_dims E) = Some (to_dims (default (0, tallest) (head E)))) as Hhd by (rewrite <- Esnd in Hh; destruct E; done).
  assert (head (dims_sorted (map dimensions leaves)) = Some (to_dims (default (0, tallest) (head E)))) as Hhd' by (rewrite by_height_dims; exact Hhd).
  rewrite (verify_batch_eq _ _ _ _ _ _ Hhd'), by_height_dims. fold E.
  assert (log2_ceil (dim_height (to_dims (default (0, tallest) (head E))).2) = K) as ->.
  { rewrite <- Esnd in Hh. destruct E as [|y E']; [done|]. injection Hh as Ey. cbn. by rewrite Ey. }
  rewrite (proj1 (group_map to_dims ikey dkey (2 ^ K) E ltac:(done))), Eo. cbn [mbind option_bind]. rewrite Ev. cbn [mbind option_bind]. by rewrite bool_decide_true.
Qed.
End Opened.

(** ** Openings bind *)

Section Binding.
  Context {F Digest : Type} `{Hasher F Digest} `{EqDecision Digest} `{LawfulUtil} `{EqDecision F}.
Import FieldMerkleTree FieldMerkleTreeMmcs.

(** Two different inputs of the hasher or of the compression function with one
    digest. *)
Definition collision : Prop :=
  (exists x y : list F, x <> y /\ hash x = hash y) \/ (exists a b c d : Digest, (a, b) <> (c, d) /\ compress a b = compress c d).

Lemma compress_binds a b c d : compress a b = compress c d -> collision \/ a = c /\ b = d.
Proof using EqDecision0. clear EqDecision1. intros E. destruct (decide ((a, b) = (c, d))) as [Eq|Ne]; [right; by injection Eq|left; right; by exists a, b, c, d]. Qed.

Lemma hash_binds (x y : list F) : hash x = hash y -> collision \/ x = y.
Proof using EqDecision1. intros E. destruct (decide (x = y)) as [Eq|Ne]; [by right|left; left; by exists x, y]. Qed.

Lemma parent_binds index (r s r' s' : Digest) : parent index r s = parent index r' s' -> collision \/ r = r' /\ s = s'.
Proof using EqDecision0. unfold parent. destruct (Nat.even index); intros [?|[-> ->]]%compress_binds; auto. Qed.

(** Two paths from one level to one root. *)
Lemma paths_bind opened opened' k : forall proof proof' index rest r r' top, length proof = k -> length proof' = k ->
  StronglySorted (fun x y => dkey y <= dkey x) rest -> (forall x, x ∈ rest -> next_power_of_two (dkey x) < 2 ^ k) -> heights_ok (map dkey rest) ->
  verify_path opened proof index (2 ^ k) rest r = Some top -> verify_path opened' proof' index (2 ^ k) rest r' = Some top ->
  collision \/ r = r' /\ proof = proof' /\ forall j, j < k -> group_values opened (group dkey (2 ^ j) rest) = group_values opened' (group dkey (2 ^ j) rest).
Proof using EqDecision0 EqDecision1.
  induction k as [|k IH]; intros [|s proof] [|s' proof'] index rest r r' top Hl Hl' Hs Hb Hh Hv Hv'; try done.
  { right. cbn in Hv, Hv'. injection Hv as ->. injection Hv' as ->. split_and!; [done..|]. intros j Hj. lia. }
  injection Hl as Hl. injection Hl' as Hl'. rewrite verify_step in Hv, Hv' by done.
  assert (StronglySorted (fun x y => dkey y <= dkey x) (below dkey (2 ^ k) rest)) as Hs' by (by apply filter_sorted).
  assert (forall x, x ∈ below dkey (2 ^ k) rest -> next_power_of_two (dkey x) < 2 ^ k) as Hb' by (by intros x [? _]%list_elem_of_filter).
  assert (heights_ok (map dkey (below dkey (2 ^ k) rest))) as Hh'.
  { intros h h' Hi1 Hi2. apply Hh; [apply list_elem_of_fmap in Hi1 as (x & -> & [_ Hx]%list_elem_of_filter)|apply list_elem_of_fmap in Hi2 as (x & -> & [_ Hx]%list_elem_of_filter)]; by apply list_elem_of_fmap_2. }
  assert (forall j, j < k -> group dkey (2 ^ j) (below dkey (2 ^ k) rest) = group dkey (2 ^ j) rest) as Hg.
  { intros j Hj. unfold group, below. rewrite list_filter_filter. apply filter_iff_in. intros x Hx. split; [tauto|]. intros E. split; [done|]. rewrite E. apply Nat.pow_lt_mono_r; lia. }
  assert (forall x x', verify_path opened proof (index / 2) (2 ^ k) (below dkey (2 ^ k) rest) x = Some top ->
    verify_path opened' proof' (index / 2) (2 ^ k) (below dkey (2 ^ k) rest) x' = Some top ->
    collision \/ x = x' /\ proof = proof' /\ forall j, j < k -> group_values opened (group dkey (2 ^ j) rest) = group_values opened' (group dkey (2 ^ j) rest)) as Hup.
  { intros x x' Hx Hx'. destruct (IH _ _ _ _ _ _ _ Hl Hl' Hs' Hb' Hh' Hx Hx') as [?|(-> & -> & Hj)]; [by left|right]. split_and!; [done..|]. intros j Hlt. specialize (Hj j Hlt). by rewrite Hg in Hj. }
  assert (forall j, j < S k -> j < k \/ j = k) as Hcases by (intros; lia).
  destruct (group dkey (2 ^ k) rest) as [|y ys] eqn:Eg.
  - destruct (Hup _ _ Hv Hv') as [?|(E & -> & Hj)]; [by left|]. apply parent_binds in E as [?|[-> ->]]; [by left|right]. split_and!; [done..|].
    intros j [Hlt| ->]%Hcases; [by apply Hj|by rewrite Eg].
  - destruct (group_values opened (y :: ys)) as [v|] eqn:Ev; [|discriminate Hv]. destruct (group_values opened' (y :: ys)) as [v'|] eqn:Ev'; [|discriminate Hv']. cbn [mbind option_bind] in Hv, Hv'.
    destruct (Hup _ _ Hv Hv') as [?|(E & -> & Hj)]; [by left|]. apply compress_binds in E as [?|[E Eh]]; [by left|]. apply parent_binds in E as [?|[-> ->]]; [by left|].
    apply hash_binds in Eh as [?| ->]; [by left|right]. split_and!; [done..|]. intros j [Hlt| ->]%Hcases; [by apply Hj|by rewrite Eg, Ev, Ev'].
Qed.

(** Rows of given widths are read back from their concatenation. *)
Lemma rows_bind (opened opened' : list (list F)) (G : list (nat * Dimensions)) :
  (forall i d, (i, d) ∈ G -> (exists v, opened !! i = Some v /\ length v = dim_width d) /\ (exists v, opened' !! i = Some v /\ length v = dim_width d)) ->
  group_values opened G = group_values opened' G -> forall i d, (i, d) ∈ G -> opened !! i = opened' !! i.
Proof using.
  clear. unfold group_values. induction G as [|[i d] G IH]; intros Hw E j d' Hin; [by apply not_elem_of_nil in Hin|].
  destruct (Hw i d (list_elem_of_here _ _)) as [(v & Hv & Lv) (v' & Hv' & Lv')]. cbn [mapM] in E. rewrite Hv, Hv' in E. cbn [mbind option_bind] in E.
  assert (forall i d, (i, d) ∈ G -> (exists v, opened !! i = Some v /\ length v = dim_width d) /\ (exists v, opened' !! i = Some v /\ length v = dim_width d)) as Hw' by (intros; apply Hw; by right).
  assert (forall o : list (list F), (forall i d, (i, d) ∈ G -> exists v, o !! i = Some v) -> exists l, mapM (fun '(i, _) => o !! i) G = Some l) as Htot.
  { clear. intros o. induction G as [|[i d] G IH]; intros Ho; [by exists []|]. destruct (Ho i d (list_elem_of_here _ _)) as [v Hv]. destruct IH as [l El]; [intros i' d' H'; apply (Ho i' d'); by right|].
    exists (v :: l). cbn [mapM]. rewrite Hv. cbn [mbind option_bind]. by rewrite El. }
  destruct (Htot opened) as [l El]; [intros i' d'' H'; destruct (Hw' i' d'' H') as [(w & ? & _) _]; by exists w|].
  destruct (Htot opened') as [l' El']; [intros i' d'' H'; destruct (Hw' i' d'' H') as [_ (w & ? & _)]; by exists w|].
  rewrite El, El' in E. cbn in E. injection E as E. apply app_inj_1 in E as [-> E]; [|lia].
  apply elem_of_cons in Hin as [[= -> ->]|Hin]; [by rewrite Hv, Hv'|]. apply (IH Hw') with d'; [|done]. rewrite El, El'. cbn. by rewrite E.
Qed.

(** Rows and siblings in the numbers and widths the dimensions ask for. *)
Record shaped (dims : list Dimensions) (opened : list (list F)) (proof : list Digest) : Prop := {
  sh_rows : Forall2 (fun v d => length v = dim_width d) opened dims;
  sh_path : length proof = log2_ceil (list_max (map dim_height dims))
}.

Lemma shaped_lookup dims opened proof i d : shaped dims opened proof -> dims !! i = Some d -> exists v, opened !! i = Some v /\ length v = dim_width d.
Proof using. clear. intros [Hr _] Hi. destruct (Forall2_lookup_r _ _ _ _ _ Hr Hi) as (v & Hv & E). by exists v. Qed.

Lemma dims_head dims d0 : head (dims_sorted dims) = Some d0 -> list_max (map dim_height dims) = dim_height d0.2.
Proof using.
  clear. intros Hh. pose proof (dims_tallest dims d0 Hh) as Hmax. assert (forall x, x ∈ dims_sorted dims <-> dims !! x.1 = Some x.2) as Hin.
  { intros [i d]. unfold dims_sorted. rewrite sorted_desc_perm. apply enumerate_elem. }
  apply Nat.le_antisymm.
  - apply list_max_le. rewrite Forall_map. apply Forall_forall. intros d Hd. apply list_elem_of_lookup in Hd as [i Hi]. apply (Hmax (i, d)). by apply Hin.
  - assert (d0 ∈ dims_sorted dims) as H0 by (destruct (dims_sorted dims); [done|]; injection Hh as ->; left). apply Hin, list_elem_of_lookup_2 in H0.
    pose proof (proj1 (list_max_le (map dim_height dims) (list_max (map dim_height dims))) (le_n _)) as Hf. rewrite Forall_map, Forall_forall in Hf. by apply Hf.
Qed.

Lemma openings_bind (commit : Digest) dims index opened opened' proof proof' : heights_ok (map dim_height dims) -> shaped dims opened proof -> shaped dims opened' proof' ->
  verify_batch commit dims index opened proof = Some true -> verify_batch commit dims index opened' proof' = Some true ->
  collision \/ opened = opened' /\ proof = proof'.
Proof using EqDecision0 EqDecision1.
  intros Hh Hsh Hsh' Hv Hv'. destruct (head (dims_sorted dims)) as [d0|] eqn:Hd; [|unfold verify_batch in Hv; change (sorted_desc _ _) with (dims_sorted dims) in Hv; by rewrite Hd in Hv].
  rewrite (verify_batch_eq _ _ _ _ _ d0 Hd) in Hv. rewrite (verify_batch_eq _ _ _ _ _ d0 Hd) in Hv'. cbn zeta in Hv, Hv'. set (K := log2_ceil (dim_height d0.2)) in *.
  pose proof (sh_path _ _ _ Hsh) as Lp. pose proof (sh_path _ _ _ Hsh') as Lp'. rewrite (dims_head dims d0 Hd) in Lp, Lp'.
  destruct (group_values opened (group dkey (2 ^ K) (dims_sorted dims))) as [v|] eqn:Ev; [|discriminate Hv]. destruct (group_values opened' (group dkey (2 ^ K) (dims_sorted dims))) as [v'|] eqn:Ev'; [|discriminate Hv'].
  cbn [mbind option_bind] in Hv, Hv'. destruct (verify_path opened proof _ _ _ _) as [top|] eqn:Ep; [|discriminate Hv]. destruct (verify_path opened' proof' _ _ _ _) as [top'|] eqn:Ep'; [|discriminate Hv'].
  cbn [mbind option_bind] in Hv, Hv'. injection Hv as ->%bool_decide_eq_true. injection Hv' as Et%bool_decide_eq_true. subst top'.
  assert (forall x, x ∈ dims_sorted dims <-> dims !! x.1 = Some x.2) as Hin by (intros [i d]; unfold dims_sorted; rewrite sorted_desc_perm; apply enumerate_elem).
  assert (heights_ok (map dkey (below dkey (2 ^ K) (dims_sorted dims)))) as Hh'.
  { intros h h' Hi1 Hi2. apply Hh; [apply list_elem_of_fmap in Hi1 as (x & -> & [_ Hx]%list_elem_of_filter)|apply list_elem_of_fmap in Hi2 as (x & -> & [_ Hx]%list_elem_of_filter)]; apply Hin, list_elem_of_lookup_2 in Hx; by apply (list_elem_of_fmap_2 dim_height). }
  assert (StronglySorted (fun x y => dkey y <= dkey x) (below dkey (2 ^ K) (dims_sorted dims))) as Hs by apply filter_sorted, (sorted_desc_sorted dkey).
  assert (forall x, x ∈ below dkey (2 ^ K) (dims_sorted dims) -> next_power_of_two (dkey x) < 2 ^ K) as Hb by (by intros x [? _]%list_elem_of_filter).
  destruct (paths_bind opened opened' K proof proof' index _ _ _ _ Lp Lp' Hs Hb Hh' Ep Ep') as [?|(Ehash & -> & Hg)]; [by left|].
  apply hash_binds in Ehash as [?| ->]; [by left|right]. split; [|done].
  assert (forall j, j <= K -> group_values opened (group dkey (2 ^ j) (dims_sorted dims)) = group_values opened' (group dkey (2 ^ j) (dims_sorted dims))) as Hall.
  { intros j Hj. destruct (decide (j = K)) as [->|Hne]; [by rewrite Ev, Ev'|]. specialize (Hg j ltac:(lia)).
    assert (group dkey (2 ^ j) (below dkey (2 ^ K) (dims_sorted dims)) = group dkey (2 ^ j) (dims_sorted dims)) as Eg; [|by rewrite Eg in Hg].
    unfold group, below. rewrite list_filter_filter. apply filter_iff_in. intros x Hx. split; [tauto|]. intros E. split; [done|]. rewrite E. apply Nat.pow_lt_mono_r; lia. }
  apply list_eq. intros i. destruct (dims !! i) as [d|] eqn:Hi.
  - assert ((i, d) ∈ dims_sorted dims) as Hx by (by apply Hin). set (j := log2_ceil (dim_height d)).
    assert (j <= K) as Hj by (apply Nat.log2_up_le_mono; by apply (dims_tallest dims d0 Hd (i, d))).
    apply (rows_bind opened opened' (group dkey (2 ^ j) (dims_sorted dims))) with d; [|by apply Hall|by apply list_elem_of_filter].
    intros i' d' [_ Hx']%list_elem_of_filter. apply Hin in Hx'. cbn [fst snd] in Hx'. split; [by apply (shaped_lookup dims opened proof')|by apply (shaped_lookup dims opened' proof')].
  - pose proof (Forall2_length _ _ _ (sh_rows _ _ _ Hsh)) as E1. pose proof (Forall2_length _ _ _ (sh_rows _ _ _ Hsh')) as E2. apply lookup_ge_None in Hi. rewrite !lookup_ge_None_2 by lia. done.
Qed.
End Binding.

(** ** Shape and totality *)

Section Total.
  Context {F Digest : Type} `{LawfulHasher F Digest} `{EqDecision Digest} `{LawfulUtil}.
Import FieldMerkleTree FieldMerkleTreeMmcs.

Lemma mapM_Forall2 {A B} (f : A -> option B) l l' : mapM f l = Some l' -> Forall2 (fun y x => f x = Some y) l' l.
Proof using. clear. rewrite mapM_Some. intros Hl. by apply Forall2_flip. Qed.

Lemma opened_shape (leaves : list (Matrix F)) root tree index opened proof : Forall mat_wf leaves -> commit leaves = Some (root, tree) ->
  open_batch index tree = Some (opened, proof) -> heights_ok (map dim_height (map dimensions leaves)) /\ shaped (map dimensions leaves) opened proof.
Proof using H0 H2.
  intros Hw [Hn Hr]%commit_inv Ho. destruct (new_tree leaves tree Hw Hn) as (tallest & K & first & layers & top & (Hh & EK & Ht) & (Etree & _) & _).
  destruct (head_tallest _ _ Hh) as (Hin & _ & Emax). rewrite Etree, (open_batch_inv _ _ _ _ _ _ _ Hh) in Ho. destruct Ho as [Hop Hpf]. rewrite map_map. split.
  - intros h h' Hi1 Hi2. apply (tl_heights _ Ht); rewrite by_height_snd, sorted_desc_perm; done.
  - constructor.
    + apply mapM_Forall2 in Hop. clear - Hw Hop H2. rewrite Forall2_fmap_r. induction Hop as [|v m l l' Hv Hl IH]; [constructor|]. inversion_clear Hw as [|? ? Hm Hw']. constructor; [|by apply IH].
      apply opening_Some, list_elem_of_lookup_2 in Hv. by apply (proj1 (Forall_forall _ _) Hm).
    + rewrite map_map. change (map (fun x => dim_height (dimensions x)) leaves) with (map height leaves). rewrite Emax. unfold path in Hpf. apply mapM_Forall2, Forall2_length in Hpf. by rewrite length_seq in Hpf.
Qed.

(** Powers of two: no height rounds up. *)
Definition pow2_heights (leaves : list (Matrix F)) : Prop := Forall (fun m => next_power_of_two (height m) = height m) leaves.

Lemma heights_check_pow2 l : Forall (fun h => next_power_of_two h = h) l -> heights_check l = true.
Proof using.
  clear. induction l as [|h [|h' l] IH]; intros Hf; [done..|]. inversion_clear Hf as [|? ? E Hf']. change (heights_check (h :: h' :: l)) with (((h =? h') || negb (next_power_of_two h =? next_power_of_two h')) && heights_check (h' :: l)).
  rewrite (IH Hf'), andb_true_r.
  inversion_clear Hf' as [|? ? E' _]. rewrite E, E'. by destruct (h =? h').
Qed.

Lemma commit_total (leaves : list (Matrix F)) : Forall mat_wf leaves -> pow2_heights leaves -> leaves <> [] -> exists root tree, commit leaves = Some (root, tree).
Proof using H0.
  intros Hw Hp Hne. assert (exists tree, new leaves = Some tree) as [tree Hn].
  { unfold new. rewrite heights_check_pow2.
    2:{ apply Forall_forall. intros h Hx%list_elem_of_In%in_rev%list_elem_of_In. rewrite (sorted_desc_perm id (map height leaves)) in Hx. apply list_elem_of_fmap in Hx as (m & -> & Hm). by apply (proj1 (Forall_forall _ _) Hp). }
    destruct (sorted_desc height leaves) as [|m l] eqn:Es; [exfalso; apply Hne; apply Permutation_nil_r; by rewrite <- (sorted_desc_perm height leaves), Es|].
    cbn [head mbind option_bind take_while]. rewrite Nat.eqb_refl. cbn [first_digest_layer head mbind option_bind]. by eexists. }
  destruct (new_tree leaves tree Hw Hn) as (tallest & K & first & layers & top & _ & _ & _ & Hr). exists (digest top 0), tree. unfold commit. rewrite Hn. cbn [mbind option_bind]. by rewrite Hr.
Qed.

Lemma sibling_bound j n : j < 2 ^ S n -> Nat.lxor j 1 < 2 ^ S n.
Proof using.
  clear. intros Hj. cbn [Nat.pow] in *. destruct (Nat.Even_or_Odd j) as [[q ->]|[q ->]]; [rewrite (proj1 (lxor_one q))|rewrite (proj2 (lxor_one q))]; lia.
Qed.

Lemma mapM_total {A B} (f : A -> option B) l : (forall x, x ∈ l -> exists y, f x = Some y) -> exists l', mapM f l = Some l'.
Proof using.
  clear. induction l as [|x l IH]; intros Hf; [by exists []|]. destruct (Hf x (list_elem_of_here _ _)) as [y Ey]. destruct IH as [l' El]; [intros z Hz; apply Hf; by right|].
  exists (y :: l'). cbn [mapM]. rewrite Ey. cbn [mbind option_bind]. by rewrite El.
Qed.

Lemma open_total (leaves : list (Matrix F)) root tree index : Forall mat_wf leaves -> pow2_heights leaves -> commit leaves = Some (root, tree) ->
  index < list_max (map height leaves) -> exists opened proof, open_batch index tree = Some (opened, proof).
Proof using H0 H2.
  intros Hw Hp [Hn Hr]%commit_inv Hi. destruct (new_tree leaves tree Hw Hn) as (tallest & K & first & layers & top & (Hh & EK & Ht) & (Etree & _ & _ & L3) & _).
  destruct (head_tallest _ _ Hh) as (Hin & Hmax & Emax). rewrite Emax in Hi.
  assert (forall m, m ∈ leaves -> height m = 2 ^ log2_ceil (height m)) as Hpm by (intros m Hm; symmetry; by apply (proj1 (Forall_forall _ _) Hp)).
  rewrite (Hpm _ Hin), <- EK in Hi. destruct (mapM_total (opening K index) leaves) as [opened Hop].
  { intros m Hm. rewrite opening_eq. assert (log2_ceil (height m) <= K) as Hle by (rewrite EK; by apply Nat.log2_up_le_mono, Hmax). rewrite (proj2 (Nat.ltb_ge _ _) Hle).
    apply lookup_lt_is_Some_2. change (index / 2 ^ (K - log2_ceil (height m)) < height m). rewrite (Hpm _ Hm) at 2.
    apply Nat.Div0.div_lt_upper_bound. rewrite <- Nat.pow_add_r. by replace (K - log2_ceil (height m) + log2_ceil (height m)) with K by lia. }
  destruct (mapM_total (fun i => layer ← layers !! i; layer !! Nat.lxor (index / 2 ^ i) 1) (seq 0 K)) as [proof Hpf].
  { intros i [_ Hk]%elem_of_seq. destruct (L3 i ltac:(lia)) as (a & b & Ha & _ & La & _). rewrite Ha. cbn [mbind option_bind]. apply lookup_lt_is_Some_2. rewrite La.
    pose proof (index_bound index K Hi i ltac:(lia)) as Hb. replace (K - i) with (S (K - S i)) in * by lia. by apply sibling_bound. }
  exists opened, proof. rewrite Etree. apply (open_batch_inv _ _ _ _ _ _ _ Hh). by rewrite <- EK.
Qed.
End Total.

(** ** Widths *)

Section Widths.
  Context {F Digest : Type} `{Hasher F Digest} `{EqDecision Digest}.
Import FieldMerkleTree FieldMerkleTreeMmcs.

Definition no_width (x : nat * Dimensions) : nat * Dimensions := (x.1, mkDimensions 0 (dim_height x.2)).

Lemma group_values_width (opened : list (list F)) l : group_values opened (map no_width l) = group_values opened l.
Proof using. unfold group_values. f_equal. induction l as [|[i d] l IH]; [done|]. cbn [map mapM no_width fst]. by rewrite IH. Qed.

Lemma verify_path_width opened proof : forall index h l (root : Digest), verify_path opened proof index h (map no_width l) root = verify_path opened proof index h l root.
Proof using.
  induction proof as [|s proof IH]; intros index h l root; [done|]. destruct l as [|[i d] l]; [done|]. cbn [verify_path map]. change (no_width (i, d)) with (i, mkDimensions 0 (dim_height d)). cbn [snd dim_height]. destruct (next_power_of_two (dim_height d) =? h / 2).
  - change ((i, mkDimensions 0 (dim_height d)) :: map no_width l) with (map no_width ((i, d) :: l)). rewrite (proj1 (take_while_map no_width _ _)), (proj2 (take_while_map no_width _ _)), group_values_width. destruct (group_values opened _); [|done]. cbn [mbind option_bind]. apply IH.
  - change ((i, mkDimensions 0 (dim_height d)) :: map no_width l) with (map no_width ((i, d) :: l)). apply IH.
Qed.

(** The verifier does not look at the widths. *)
Lemma verify_batch_width (commitment : Digest) dims index (opened : list (list F)) proof :
  verify_batch commitment (map (fun d => mkDimensions 0 (dim_height d)) dims) index opened proof = verify_batch commitment dims index opened proof.
Proof using.
  unfold verify_batch. rewrite enumerate_map. change (map _ (enumerate dims)) with (map no_width (enumerate dims)).
  rewrite <- (sorted_desc_map (fun x : nat * Dimensions => dim_height x.2) (fun x : nat * Dimensions => dim_height x.2) no_width) by done. destruct (sorted_desc _ (enumerate dims)) as [|x l] eqn:E; [done|]. cbn [map head mbind option_bind]. change (no_width x).2 with (mkDimensions 0 (dim_height x.2)). cbn [dim_height].
  change (no_width x :: map no_width l) with (map no_width (x :: l)). rewrite (proj1 (take_while_map no_width _ _)), (proj2 (take_while_map no_width _ _)), group_values_width. destruct (group_values opened _) as [v|]; [|done]. cbn [mbind option_bind]. by rewrite verify_path_width.
Qed.

Lemma verify_batch_heights (commitment : Digest) dims dims' index (opened : list (list F)) proof : map dim_height dims = map dim_height dims' ->
  verify_batch commitment dims index opened proof = verify_batch commitment dims' index opened proof.
Proof using.
  intros E. rewrite <- (verify_batch_width commitment dims), <- (verify_batch_width commitment dims'). f_equal. rewrite <- (map_map dim_height (mkDimensions 0)), E. by rewrite map_map.
Qed.
End Widths.

(** ** The scheme *)

Section Scheme.
  Context {F Digest : Type} `{LawfulHasher F Digest} `{EqDecision Digest} `{LawfulUtil} `{EqDecision F}.
Import FieldMerkleTree FieldMerkleTreeMmcs.

(** With the leaves moved out of the tree, an opening from the moved leaves is the
    opening of the whole tree, and giving the leaves back restores it. *)
Lemma external_opening (tree : FieldMerkleTree F Digest) index : leaf_dimensions tree = map dimensions (leaves tree) ->
  let '(taken, digests_only) := take_leaves tree in
  open_batch_with_external_leaves index digests_only taken = open_batch index tree /\ restore_leaves digests_only taken = tree /\
  get_max_height digests_only = get_max_height tree.
Proof using.
  clear. destruct tree as [ls dims layers]. cbn [leaf_dimensions leaves take_leaves fst snd digest_layers]. intros ->.
  assert (max_height (mkFieldMerkleTree ls (map dimensions ls) layers) = list_max (map height ls)) as Em by (unfold max_height; cbn [leaf_dimensions]; by rewrite map_map).
  assert (get_max_height (mkFieldMerkleTree ls (map dimensions ls) layers) = list_max (map height ls)) as Eg.
  { unfold get_max_height. rewrite Em. by destruct (has_leaves _). }
  split_and!; [|done|by rewrite Eg].
  unfold open_batch_with_external_leaves, open_batch. rewrite Eg. change (max_height (mkFieldMerkleTree [] (map dimensions ls) layers)) with (max_height (mkFieldMerkleTree ls (map dimensions ls) layers)).
  by rewrite Em.
Qed.

(** C30. Every opening of a committed tree verifies: when [commit] accepts the matrices
    and [open_batch] opens row [index], [verify_batch] accepts the rows and the
    siblings for the root, whatever the heights of the matrices and the packing
    width of the hasher; and where the heights are powers of two every index below
    the largest opens. *)
Theorem opened_batch_verifies (inputs : list (Matrix F)) (commitment : Digest) tree : Forall mat_wf inputs -> commit inputs = Some (commitment, tree) ->
  (forall index opened proof, open_batch index tree = Some (opened, proof) -> verify_batch commitment (map dimensions inputs) index opened proof = Some true) /\
  (pow2_heights inputs -> forall index, index < list_max (map height inputs) -> exists opened proof, open_batch index tree = Some (opened, proof)).
Proof using H0 H2.
  intros Hw Hc. split.
  - intros index opened proof. by apply opened_verifies.
  - intros Hp index. by apply (open_total inputs commitment).
Qed.

(** C29. The commitment binds the rows: what [verify_batch] accepts for a committed
    tree, in the shape of its dimensions, are the rows and siblings that
    [open_batch] gives, or there are two different inputs of the hasher or of the
    compression function with one digest. *)
Theorem verified_batch_is_committed (inputs : list (Matrix F)) (commitment : Digest) tree index rows path opened proof : Forall mat_wf inputs ->
  commit inputs = Some (commitment, tree) -> open_batch index tree = Some (rows, path) -> shaped (map dimensions inputs) opened proof ->
  verify_batch commitment (map dimensions inputs) index opened proof = Some true ->
  collision (F := F) (Digest := Digest) \/ opened = rows /\ proof = path.
Proof using H0 H2 EqDecision1.
  intros Hw Hc Ho Hs Hv. pose proof (opened_verifies _ _ _ _ _ _ Hw Hc Ho) as Hv'.
  destruct (opened_shape _ _ _ _ _ _ Hw Hc Ho) as [Hh Hs']. exact (openings_bind _ _ _ _ _ _ _ Hh Hs Hs' Hv Hv').
Qed.
End Scheme.

(** ** A tree over four, two and one rows *)

Section Example.
Import FieldMerkleTree FieldMerkleTreeMmcs.
Open Scope Z_scope.

#[local] Instance toy_hasher : Hasher Z Z := {|
  PF := nat -> Z; PDigest := nat -> Z; WIDTH := 2%nat; default_digest := 0;
  hash l := fold_left (fun acc x => (31 * acc + x) mod 1009) l 7;
  compress a b := (5 * a + 3 * b + 11) mod 1009;
  pack f := f; pack_digest f := f; lane d k := d k;
  vertically_packed_row m r := map (fun c i => nth c (row m (r + i)) 0) (seq 0 (width m));
  hash_packed l k := fold_left (fun acc x => (31 * acc + x) mod 1009) (map (fun f : nat -> Z => f k) l) 7;
  compress_packed a b k := (5 * a k + 3 * b k + 11) mod 1009
|}.

Lemma map_nth_seq {B} (l : list B) (d : B) : map (fun c => nth c l d) (seq 0 (length l)) = l.
Proof. induction l as [|x l IH]; [done|]. cbn [length seq map]. f_equal. rewrite <- seq_shift, map_map. exact IH. Qed.

#[local] Instance toy_lawful : LawfulHasher Z Z.
Proof.
  constructor; [cbn; lia|done| | |done].
  - intros m r Hm Hr. exists (map (fun c i => nth c (row m (r + i)) 0) (seq 0 (width m))). split; [cbn; by rewrite map_id|]. intros k Hk. rewrite map_map.
    assert (length (row m (r + k)) = width m) as <-; [|apply map_nth_seq]. unfold mat_wf in Hm. rewrite Forall_forall in Hm. apply Hm, list_elem_of_In, nth_In. unfold height in Hr. lia.
  - intros fs k _. cbn. by rewrite map_map.
Qed.

#[local] Instance toy_util : Util := {| log2_ceil_usize := Nat.log2_up |}.
#[local] Instance toy_util_lawful : LawfulUtil.
Proof. by constructor. Qed.

Definition toy_inputs : list (Matrix Z) :=
  [mkMatrix 1 [[5]; [6]]; mkMatrix 2 [[1; 2]; [3; 4]; [7; 8]; [9; 10]]; mkMatrix 3 [[11; 12; 13]]; mkMatrix 1 [[14]; [15]; [16]; [17]]].

Definition toy_commitment : Z * FieldMerkleTree Z Z := default (0, mkFieldMerkleTree [] [] []) (commit toy_inputs).
Definition toy_opened : list (list Z) * list Z := default ([], []) (open_batch 2 toy_commitment.2).

Lemma toy_wf : Forall mat_wf toy_inputs.
Proof. repeat constructor. Qed.

Lemma opened_batch_verifies_witness :
  commit toy_inputs = Some toy_commitment /\ length (digest_layers toy_commitment.2) = 3%nat /\
  open_batch 2 toy_commitment.2 = Some ([[6]; [7; 8]; [11; 12; 13]; [16]], toy_opened.2) /\
  verify_batch toy_commitment.1 (map dimensions toy_inputs) 2 [[6]; [7; 8]; [11; 12; 13]; [16]] toy_opened.2 = Some true /\
  (exists opened proof, open_batch 3 toy_commitment.2 = Some (opened, proof)).
Proof.
  split; [vm_compute; reflexivity|]. split; [vm_compute; reflexivity|]. split; [vm_compute; reflexivity|]. split.
  - refine (proj1 (opened_batch_verifies toy_inputs toy_commitment.1 toy_commitment.2 toy_wf _) 2%nat _ _ _); vm_compute; reflexivity.
  - refine (proj2 (opened_batch_verifies toy_inputs toy_commitment.1 toy_commitment.2 toy_wf _) _ 3%nat _); [vm_compute; reflexivity|repeat constructor|vm_compute; lia].
Defined.

Lemma verified_batch_is_committed_witness :
  verify_batch toy_commitment.1 (map dimensions toy_inputs) 2 toy_opened.1 toy_opened.2 = Some true /\
  verify_batch toy_commitment.1 (map dimensions toy_inputs) 2 ([6%Z] :: [7; 9] :: drop 2 toy_opened.1) toy_opened.2 = Some false /\
  (collision (F := Z) (Digest := Z) \/ toy_opened.1 = toy_opened.1 /\ toy_opened.2 = toy_opened.2).
Proof.
  split_and!; try (vm_compute; reflexivity).
  apply (verified_batch_is_committed toy_inputs toy_commitment.1 toy_commitment.2 2 toy_opened.1 toy_opened.2); try (vm_compute; reflexivity).
  - exact toy_wf.
  - constructor; [vm_compute; repeat constructor|vm_compute; reflexivity].
Defined.
End Example.
