(* ===== verification/Fri.v ===== *)
(** * FRI (crates/p3-fri)

    The prover commits to a codeword, folds it with a random challenge and adds
    the next shorter input, until it is constant; the verifier follows the folds
    at random positions.  Field, commitment scheme, challenger and bit utilities
    are those of plonky3 and enter as classes with the laws the code relies on;
    the Merkle tree of [MerkleTree] is a commitment scheme. *)

From Stdlib Require Import Lia Bool PeanoNat Field.
From stdpp Require Import base list.
From S2P Require Import Prelude MerkleTree.

(** ** The field *)

Class TwoAdicField (F : Type) : Type := {
  zero : F; one : F; add : F -> F -> F; sub : F -> F -> F; mul : F -> F -> F; opp : F -> F; div : F -> F -> F; inverse : F -> F;
  TWO_ADICITY : nat;
  two_adic_generator : nat -> F;
  square : F -> F;
  exp_u64 : F -> nat -> F;
  shifted_powers : F -> F -> nat -> list F
}.

(** Powers, by repeated multiplication. *)
Fixpoint power {F} `{TwoAdicField F} (x : F) (n : nat) : F := match n with O => one | S n => mul x (power x n) end.

(** The laws of a field; [two_adic_generator k] has order [2 ^ k], and squaring it
    gives the next smaller one. *)
Class LawfulField (F : Type) `{TwoAdicField F} : Prop := {
  field_laws : field_theory zero one add mul sub opp div inverse eq;
  two_nonzero : add one one <> zero;
  square_spec x : square x = mul x x;
  exp_u64_spec x n : exp_u64 x n = power x n;
  shifted_powers_spec g s n : shifted_powers g s n = map (fun i => mul s (power g i)) (seq 0 n);
  generator_0 : two_adic_generator 0 = one;
  generator_1 : two_adic_generator 1 = opp one;
  generator_S k : k < TWO_ADICITY -> mul (two_adic_generator (S k)) (two_adic_generator (S k)) = two_adic_generator k
}.

(** ** Bit utilities *)

(** p3_util; [None]: not a power of two. *)
Class BitUtil : Type := {
  log2_strict_usize : nat -> option nat;
  reverse_bits_len : nat -> nat -> nat;
  reverse_slice_index_bits {A} : list A -> list A
}.

(** The lowest [k] bits of [i] in reverse. *)
Fixpoint bit_reverse (k i : nat) : nat := match k with O => 0 | S k => 2 ^ k * (i mod 2) + bit_reverse k (i / 2) end.

Class LawfulBitUtil `{BitUtil} : Prop := {
  log2_strict_spec k : log2_strict_usize (2 ^ k) = Some k;
  log2_strict_inv n k : log2_strict_usize n = Some k -> n = 2 ^ k;
  reverse_bits_len_spec i k : i < 2 ^ k -> reverse_bits_len i k = bit_reverse k i;
  reverse_slice_spec {A} (l : list A) k i : length l = 2 ^ k -> i < 2 ^ k -> reverse_slice_index_bits l !! i = l !! bit_reverse k i;
  reverse_slice_length {A} (l : list A) : length (reverse_slice_index_bits l) = length l
}.

(** ** Commitments and challenges *)

Inductive result (E A : Type) : Type := Ok (a : A) | Err (e : E).
Arguments Ok {E A}. Arguments Err {E A}.

(** [Mmcs]; [None] is a panic. *)
Class Mmcs (F : Type) : Type := {
  Commitment : Type; ProverData : Type; Proof : Type; MmcsError : Type;
  commit_matrix : Matrix F -> option (Commitment * ProverData);
  open_batch : nat -> ProverData -> option (list (list F) * Proof);
  verify_batch : Commitment -> list Dimensions -> nat -> list (list F) -> Proof -> option (result MmcsError unit)
}.

(** A matrix whose height is a power of two can be committed to and every row
    opened, and openings verify. *)
Class LawfulMmcs (F : Type) `{Mmcs F} : Prop := {
  committed (m : Matrix F) k : mat_wf m -> height m = 2 ^ k ->
    exists commitment data, commit_matrix m = Some (commitment, data) /\
    forall i, i < 2 ^ k -> exists proof, open_batch i data = Some ([row m i], proof) /\ verify_batch commitment [dimensions m] i [row m i] proof = Some (Ok tt)
}.

Class FriChallenger (F : Type) `{Mmcs F} : Type := {
  Challenger : Type; Witness : Type;
  observe : Commitment -> Challenger -> Challenger;
  observe_ext_element : F -> Challenger -> Challenger;
  sample_ext_element : Challenger -> F * Challenger;
  grind : nat -> Challenger -> option (Witness * Challenger);
  check_witness : nat -> Witness -> Challenger -> bool * Challenger;
  sample_bits : nat -> Challenger -> nat * Challenger
}.

(** The witness that grinding finds passes the check, which leaves the challenger
    as grinding does; [n] sampled bits are less than [2 ^ n]. *)
Class LawfulChallenger (F : Type) `{FriChallenger F} : Prop := {
  grind_checks bits c w c' : grind bits c = Some (w, c') -> check_witness bits w c = (true, c');
  sample_bits_lt n c : (sample_bits n c).1 < 2 ^ n
}.

(** ** Folding *)

Section Fold.
  Context {F : Type} `{TwoAdicField F} `{BitUtil}.

Definition two : F := add one one.

(** [None]: half the length is not a power of two. *)
Definition fold_even_odd (poly : list F) (beta : F) : option (list F) :=
  let half_len := length poly / 2 in
  log_half_len ← log2_strict_usize half_len;
  let g_inv := inverse (two_adic_generator (log_half_len + 1)) in
  let one_half := inverse two in
  let half_beta := mul beta one_half in
  let powers := reverse_slice_index_bits (shifted_powers g_inv half_beta half_len) in
  Some (imap (fun i power =>
          let r0 := nth (2 * i) poly zero in
          let r1 := nth (2 * i + 1) poly zero in
          let sum := add r0 r1 in
          let diff := sub r0 r1 in
          add (mul one_half sum) (mul power diff)) powers).
End Fold.

(** ** The protocol *)

Section Protocol.
  Context {F : Type} `{TwoAdicField F} `{EqDecision F} `{BitUtil} `{Mmcs F} `{!FriChallenger F}.

Record FriConfig : Type := mkFriConfig { log_blowup : nat; num_queries : nat; proof_of_work_bits : nat }.
Definition blowup (config : FriConfig) : nat := 2 ^ log_blowup config.

Record CommitPhaseProofStep : Type := mkStep { sibling_value : F; opening_proof : Proof }.
Record QueryProof : Type := mkQueryProof { commit_phase_openings : list CommitPhaseProofStep }.
Record FriProof : Type := mkFriProof {
  commit_phase_commits : list Commitment; query_proofs : list QueryProof; final_poly : F; pow_witness : Witness
}.
Record CommitPhaseResult : Type := mkCommitPhaseResult { commits : list Commitment; data : list ProverData; result_final_poly : F }.

(** [RowMajorMatrix::new(values, 2)]. *)
Fixpoint pairs (l : list F) : list (list F) := match l with x :: y :: l => [x; y] :: pairs l | _ => [] end.
Definition row_major_2 (values : list F) : Matrix F := mkMatrix 2 (pairs values).

(** [zip_eq] with [+=]; [None]: different lengths. *)
Fixpoint add_zip_eq (current v : list F) : option (list F) :=
  match current, v with
  | [], [] => Some []
  | c :: current, x :: v => cons (add c x) <$> add_zip_eq current v
  | _, _ => None
  end.

(** The input at a height ([None]: out of range). *)
Definition add_input (input : list (option (list F))) (log_folded_height : nat) (current : list F) : option (list F) :=
  v ← input !! log_folded_height;
  match v with Some v => add_zip_eq current v | None => Some current end.

Fixpoint commit_loop (input : list (option (list F))) (heights : list nat) (current : list F) (challenger : Challenger)
    : option (list Commitment * list ProverData * list F * Challenger) :=
  match heights with
  | [] => Some ([], [], current, challenger)
  | log_folded_height :: heights =>
      let leaves := row_major_2 current in
      '(commit, prover_data) ← commit_matrix leaves;
      let challenger := observe commit challenger in
      let '(beta, challenger) := sample_ext_element challenger in
      current ← fold_even_odd current beta;
      current ← add_input input log_folded_height current;
      '(commits, data, current, challenger) ← commit_loop input heights current challenger;
      Some (commit :: commits, prover_data :: data, current, challenger)
  end.

(** [None]: no input at the largest height, or an assertion fails. *)
Definition commit_phase (config : FriConfig) (input : list (option (list F))) (log_max_height : nat) (challenger : Challenger)
    : option (CommitPhaseResult * Challenger) :=
  current ← mjoin (input !! log_max_height);
  '(commits, data, current, challenger) ←
    commit_loop input (rev (seq (log_blowup config) (log_max_height - log_blowup config))) current challenger;
  if negb (length current =? blowup config) then None
  else
    final_poly ← head current;
    if forallb (fun x => bool_decide (x = final_poly)) current then
      Some (mkCommitPhaseResult commits data final_poly, observe_ext_element final_poly challenger)
    else None.

Definition answer_step (index i : nat) (commit : ProverData) : option CommitPhaseProofStep :=
  let index_i := index / 2 ^ i in
  let index_i_sibling := Nat.lxor index_i 1 in
  let index_pair := index_i / 2 in
  '(opened_rows, opening_proof) ← open_batch index_pair commit;
  if negb (length opened_rows =? 1) then None
  else
    opened_row ← last opened_rows;
    if negb (length opened_row =? 2) then None
    else
      sibling_value ← opened_row !! (index_i_sibling mod 2);
      Some (mkStep sibling_value opening_proof).

Definition answer_query (commit_phase_commits : list ProverData) (index : nat) : option QueryProof :=
  mkQueryProof <$> mapM (fun '(i, commit) => answer_step index i commit) (imap pair commit_phase_commits).

(** [input.iter().rposition(Option::is_some)]. *)
Fixpoint rposition (input : list (option (list F))) : option nat :=
  match input with
  | [] => None
  | x :: input => match rposition input with Some i => Some (S i) | None => match x with Some _ => Some 0 | None => None end end
  end.

(** [(0..n).map(|_| challenger.sample_bits(bits))]. *)
Fixpoint sample_indices (n bits : nat) (challenger : Challenger) : list nat * Challenger :=
  match n with
  | O => ([], challenger)
  | S n =>
      let '(index, challenger) := sample_bits bits challenger in
      let '(indices, challenger) := sample_indices n bits challenger in
      (index :: indices, challenger)
  end.

Definition prove (config : FriConfig) (input : list (option (list F))) (challenger : Challenger) : option (FriProof * list nat * Challenger) :=
  log_max_height ← rposition input;
  '(commit_phase_result, challenger) ← commit_phase config input log_max_height challenger;
  '(pow_witness, challenger) ← grind (proof_of_work_bits config) challenger;
  let '(query_indices, challenger) := sample_indices (num_queries config) log_max_height challenger in
  query_proofs ← mapM (answer_query (data commit_phase_result)) query_indices;
  Some (mkFriProof (commits commit_phase_result) query_proofs (result_final_poly commit_phase_result) pow_witness, query_indices, challenger).

(** ** The verifier *)

Inductive FriError : Type :=
  | InvalidProofShape | CommitPhaseMmcsError (e : MmcsError) | FinalPolyMismatch | InvalidPowWitness.

Record FriChallenges : Type := mkFriChallenges { query_indices : list nat; betas : list F }.

Fixpoint sample_betas (commits : list Commitment) (challenger : Challenger) : list F * Challenger :=
  match commits with
  | [] => ([], challenger)
  | comm :: commits =>
      let challenger := observe comm challenger in
      let '(beta, challenger) := sample_ext_element challenger in
      let '(betas, challenger) := sample_betas commits challenger in
      (beta :: betas, challenger)
  end.

Definition verify_shape_and_sample_challenges (config : FriConfig) (proof : FriProof) (challenger : Challenger)
    : result FriError FriChallenges * Challenger :=
  let '(betas, challenger) := sample_betas (commit_phase_commits proof) challenger in
  let challenger := observe_ext_element (final_poly proof) challenger in
  if negb (length (query_proofs proof) =? num_queries config) then (Err InvalidProofShape, challenger)
  else
    let '(valid, challenger) := check_witness (proof_of_work_bits config) (pow_witness proof) challenger in
    if negb valid then (Err InvalidPowWitness, challenger)
    else
      let log_max_height := length (commit_phase_commits proof) + log_blowup config in
      let '(query_indices, challenger) := sample_indices (num_queries config) log_max_height challenger in
      (Ok (mkFriChallenges query_indices betas), challenger).

(** One fold of a query: the value at [index] before and after. *)
Definition verify_fold (commit : Commitment) (step : CommitPhaseProofStep) (beta : F) (log_folded_height index : nat) (folded_eval x : F)
    : option (result FriError F) :=
  let index_sibling := Nat.lxor index 1 in
  let index_pair := index / 2 in
  let evals := <[index_sibling mod 2 := sibling_value step]> [folded_eval; folded_eval] in
  let dims := [mkDimensions 2 (2 ^ log_folded_height)] in
  verified ← verify_batch commit dims index_pair [evals] (opening_proof step);
  match verified with
  | Err e => Some (Err (CommitPhaseMmcsError e))
  | Ok _ =>
      let xs := alter (fun x => mul x (two_adic_generator 1)) (index_sibling mod 2) [x; x] in
      let '(e0, e1) := (nth 0 evals zero, nth 1 evals zero) in
      let '(x0, x1) := (nth 0 xs zero, nth 1 xs zero) in
      Some (Ok (add e0 (div (mul (sub beta x0) (sub e1 e0)) (sub x1 x0))))
  end.

(** The loop of [verify_query]; [None]: a height of 32 or more, or a panic of the
    commitment scheme. *)
Fixpoint verify_folds (heights : list nat) (commits : list Commitment) (steps : list CommitPhaseProofStep) (betas reduced_openings : list F)
    (index : nat) (folded_eval x : F) : option (result FriError F) :=
  match heights, commits, steps, betas with
  | log_folded_height :: heights, commit :: commits, step :: steps, beta :: betas =>
      ro ← reduced_openings !! (log_folded_height + 1);
      folded ← verify_fold commit step beta log_folded_height index (add folded_eval ro) x;
      match folded with
      | Err e => Some (Err e)
      | Ok folded_eval => verify_folds heights commits steps betas reduced_openings (index / 2) folded_eval (square x)
      end
  | _, _, _, _ => Some (Ok folded_eval)
  end.

Definition verify_query (commit_phase_commits : list Commitment) (index : nat) (proof : QueryProof) (betas reduced_openings : list F) (log_max_height : nat)
    : option (result FriError F) :=
  let x := exp_u64 (two_adic_generator log_max_height) (reverse_bits_len index log_max_height) in
  verify_folds (rev (seq 0 log_max_height)) commit_phase_commits (commit_phase_openings proof) betas reduced_openings index zero x.

(** The loop over the queries, as long as indices, proofs and openings last. *)
Fixpoint verify_queries (config : FriConfig) (proof : FriProof) (betas : list F) (indices : list nat) (query_proofs : list QueryProof)
    (reduced_openings : list (list F)) : option (result FriError unit) :=
  match indices, query_proofs, reduced_openings with
  | index :: indices, query_proof :: query_proofs, ro :: reduced_openings =>
      let log_max_height := length (commit_phase_commits proof) + log_blowup config in
      folded ← verify_query (commit_phase_commits proof) index query_proof betas ro log_max_height;
      match folded with
      | Err e => Some (Err e)
      | Ok folded_eval =>
          if bool_decide (folded_eval = final_poly proof) then verify_queries config proof betas indices query_proofs reduced_openings
          else Some (Err FinalPolyMismatch)
      end
  | _, _, _ => Some (Ok tt)
  end.

Definition verify_challenges (config : FriConfig) (proof : FriProof) (challenges : FriChallenges) (reduced_openings : list (list F)) : option (result FriError unit) :=
  verify_queries config proof (betas challenges) (query_indices challenges) (query_proofs proof) reduced_openings.
End Protocol.
