(* ===== verification/FriProtocol.v ===== *)
(** * The FRI prover and verifier

    The prover succeeds on the evaluations of polynomials of low degree, and the
    verifier accepts its proof; what an accepted query shows about committed
    codewords; and what the verifier does not look at. *)

From Stdlib Require Import Lia Bool PeanoNat Field.
From stdpp Require Import base list.
From S2P Require Import Prelude MerkleTree MerkleOpen Fri.

(** * One fold of FRI

    What [fold_even_odd] computes at one position, that the interpolation of
    [verify_fold] computes the same, and that folding the evaluations of a
    polynomial gives the evaluations of its folded polynomial. *)

(** ** Bits *)

Lemma bit_reverse_even k i : bit_reverse (S k) (2 * i) = bit_reverse k i.
Proof. cbn [bit_reverse]. rewrite (Nat.mul_comm 2 i), Nat.div_mul, Nat.Div0.mod_mul by done. lia. Qed.

Lemma bit_reverse_odd k i : bit_reverse (S k) (2 * i + 1) = 2 ^ k + bit_reverse k i.
Proof.
  cbn [bit_reverse]. replace ((2 * i + 1) mod 2) with 1 by (apply (Nat.mod_unique _ 2 i); lia). replace ((2 * i + 1) / 2) with i by (apply (Nat.div_unique _ 2 i 1); lia). lia.
Qed.

Lemma bit_reverse_lt k : forall i, bit_reverse k i < 2 ^ k.
Proof.
  induction k as [|k IH]; intros i; cbn [bit_reverse Nat.pow]; [lia|]. specialize (IH (i / 2)). pose proof (Nat.mod_upper_bound i 2 ltac:(done)). nia.
Qed.

Lemma bit_reverse_top k : forall a j, a < 2 -> j < 2 ^ k -> bit_reverse (S k) (2 ^ k * a + j) = 2 * bit_reverse k j + a.
Proof.
  induction k as [|k IH]; intros a j Ha Hj; [cbn in Hj; assert (j = 0) as -> by lia; destruct a as [|[|?]]; [done|done|lia]|].
  pose proof (Nat.div_mod_eq j 2) as Ej. pose proof (Nat.mod_upper_bound j 2 ltac:(done)) as Hm. assert (j / 2 < 2 ^ k) as Hj2 by (apply Nat.Div0.div_lt_upper_bound; exact Hj).
  change (bit_reverse (S (S k)) (2 ^ S k * a + j)) with (2 ^ S k * ((2 ^ S k * a + j) mod 2) + bit_reverse (S k) ((2 ^ S k * a + j) / 2)).
  replace ((2 ^ S k * a + j) / 2) with (2 ^ k * a + j / 2) by (apply (Nat.div_unique _ 2 _ (j mod 2)); [lia|cbn [Nat.pow]; nia]). replace ((2 ^ S k * a + j) mod 2) with (j mod 2) by (apply (Nat.mod_unique _ 2 (2 ^ k * a + j / 2)); [lia|cbn [Nat.pow]; nia]).
  rewrite IH by done. cbn [bit_reverse Nat.pow]. nia.
Qed.

Lemma bit_reverse_involutive k : forall i, i < 2 ^ k -> bit_reverse k (bit_reverse k i) = i.
Proof.
  induction k as [|k IH]; intros i Hi; [cbn in *; lia|]. change (bit_reverse (S k) i) with (2 ^ k * (i mod 2) + bit_reverse k (i / 2)). assert (i / 2 < 2 ^ k) as Hi2 by (apply Nat.Div0.div_lt_upper_bound; exact Hi).
  rewrite bit_reverse_top by (apply bit_reverse_lt || (apply Nat.mod_upper_bound; done)). rewrite IH by done. pose proof (Nat.div_mod_eq i 2). lia.
Qed.

(** The low half of the positions reverses to the even ones. *)
Lemma bit_reverse_prefix k d : forall j, j < 2 ^ k -> bit_reverse (d + k) j = 2 ^ d * bit_reverse k j.
Proof.
  induction d as [|d IH]; intros j Hj; [cbn; lia|]. assert (j < 2 ^ (d + k)) as Hd by (apply (Nat.lt_le_trans _ (2 ^ k)); [done|]; apply Nat.pow_le_mono_r; lia).
  pose proof (bit_reverse_top (d + k) 0 j ltac:(lia) Hd) as E. rewrite Nat.mul_0_r in E. cbn [Nat.add] in E. change (S d + k) with (S (d + k)). rewrite E, IH by done. cbn [Nat.pow]. lia.
Qed.

Lemma parity_cases j : (j = 2 * (j / 2) /\ Nat.lxor j 1 = 2 * (j / 2) + 1) \/ (j = 2 * (j / 2) + 1 /\ Nat.lxor j 1 = 2 * (j / 2)).
Proof.
  assert (forall q, Nat.lxor (2 * q) 1 = 2 * q + 1 /\ Nat.lxor (2 * q + 1) 1 = 2 * q) as Hx.
  { intros q. assert (forall n, Nat.testbit 1 (S n) = false) as H1 by (intros n; exact (Nat.bits_0 n)).
    split; apply Nat.bits_inj; intros [|n]; rewrite Nat.lxor_spec, ?H1, ?xorb_false_r, ?Nat.bit0_odd, ?Nat.odd_add, ?Nat.odd_mul; try done;
      rewrite Nat.testbit_odd_succ', Nat.testbit_even_succ'; done || lia. }
  pose proof (Nat.div_mod_eq j 2) as E. pose proof (Nat.mod_upper_bound j 2 ltac:(done)) as Hm. destruct (j mod 2) as [|[|?]] eqn:Em; [left|right|lia].
  - assert (j = 2 * (j / 2)) as Ej by lia. split; [done|]. rewrite Ej at 1. apply Hx.
  - assert (j = 2 * (j / 2) + 1) as Ej by lia. split; [done|]. rewrite Ej at 1. apply Hx.
Qed.

Section Field.
  Context {F : Type} `{LawfulField F}.

Lemma field_inst : field_theory zero one add mul sub opp div inverse eq.
Proof using H0. exact field_laws. Qed.
Add Field FriField : field_inst.

(** ** Powers and generators *)

Lemma power_add (x : F) a b : power x (a + b) = mul (power x a) (power x b).
Proof using H0. induction a as [|a IH]; cbn [power Nat.add]; [ring|]. rewrite IH. ring. Qed.

Lemma power_mul (x y : F) a : power (mul x y) a = mul (power x a) (power y a).
Proof using H0. induction a as [|a IH]; cbn [power]; [ring|]. rewrite IH. ring. Qed.

Lemma power_pow (x : F) a b : power x (a * b) = power (power x a) b.
Proof using H0.
  induction b as [|b IH]; [by rewrite Nat.mul_0_r|]. rewrite Nat.mul_succ_r, Nat.add_comm, power_add, IH. done.
Qed.

Lemma generator_order k : k <= TWO_ADICITY -> power (two_adic_generator k : F) (2 ^ k) = one.
Proof using H0.
  induction k as [|k IH]; intros Hk; [cbn; rewrite generator_0; ring|]. rewrite Nat.pow_succ_r', power_pow. cbn [power].
  replace (mul (two_adic_generator (S k)) (mul (two_adic_generator (S k)) one)) with (two_adic_generator (F := F) k) by (rewrite <- generator_S by lia; ring). apply IH. lia.
Qed.

Lemma generator_half k : k < TWO_ADICITY -> power (two_adic_generator (S k) : F) (2 ^ k) = opp one.
Proof using H0.
  induction k as [|k IH]; intros Hk; [cbn; rewrite generator_1; ring|]. rewrite Nat.pow_succ_r', power_pow. cbn [power].
  replace (mul (two_adic_generator (S (S k))) (mul (two_adic_generator (S (S k))) one)) with (two_adic_generator (F := F) (S k)) by (rewrite <- generator_S by lia; ring). apply IH. lia.
Qed.

Lemma one_nonzero : (one : F) <> zero.
Proof using H0. exact (F_1_neq_0 field_laws). Qed.

(** A power of a unit is a unit. *)
Lemma unit_power (x : F) n m : power x n = one -> 0 < n -> power x m <> zero.
Proof using H0.
  intros Hn Hpos Hz. assert (x <> zero) as Hx. { intros ->. destruct n as [|n]; [lia|]. cbn in Hn. apply one_nonzero. rewrite <- Hn. ring. }
  revert Hz. induction m as [|m IH]; cbn [power]; [apply one_nonzero|]. intros Hz. apply IH.
  replace (power x m) with (mul (inverse x) (mul x (power x m))) by (field; done). rewrite Hz. ring.
Qed.

(** ** The domain *)

(** The point at index [j] of the bit-reversed domain of size [2 ^ k]. *)
Definition dom (k j : nat) : F := power (two_adic_generator k) (bit_reverse k j).

Lemma dom_nonzero k j : k <= TWO_ADICITY -> dom k j <> zero.
Proof using H0. intros Hk. apply (unit_power _ (2 ^ k)); [by apply generator_order|]. apply Nat.neq_0_lt_0, Nat.pow_nonzero. done. Qed.

Lemma dom_odd k i : k < TWO_ADICITY -> dom (S k) (2 * i + 1) = opp (dom (S k) (2 * i)).
Proof using H0. intros Hk. unfold dom. rewrite bit_reverse_odd, bit_reverse_even, power_add, generator_half by done. ring. Qed.

Lemma dom_even_square k i : k < TWO_ADICITY -> mul (dom (S k) (2 * i)) (dom (S k) (2 * i)) = dom k i.
Proof using H0. intros Hk. unfold dom. rewrite bit_reverse_even, <- power_mul, generator_S by done. done. Qed.

Lemma dom_square k j : k < TWO_ADICITY -> mul (dom (S k) j) (dom (S k) j) = dom k (j / 2).
Proof using H0.
  intros Hk. destruct (parity_cases j) as [[Ej _]|[Ej _]]; rewrite Ej at 1 2; [by apply dom_even_square|]. rewrite dom_odd by done. rewrite <- (dom_even_square k (j / 2)) by done. ring.
Qed.

Lemma generator_pow d : forall k, d + k <= TWO_ADICITY -> power (two_adic_generator (d + k) : F) (2 ^ d) = two_adic_generator k.
Proof using H0.
  induction d as [|d IH]; intros k Hk; [cbn; ring|]. rewrite Nat.pow_succ_r', power_pow. cbn [power]. change (S d + k) with (S (d + k)).
  replace (mul (two_adic_generator (S (d + k))) (mul (two_adic_generator (S (d + k))) one)) with (two_adic_generator (F := F) (d + k)) by (rewrite <- generator_S by lia; ring). apply IH. lia.
Qed.

(** The domain of a smaller height is the start of the larger. *)
Lemma dom_prefix k L j : k <= L -> L <= TWO_ADICITY -> j < 2 ^ k -> dom L j = dom k j.
Proof using H0.
  intros Hk HL Hj. unfold dom. replace L with ((L - k) + k) by lia. rewrite bit_reverse_prefix by done. rewrite power_pow, generator_pow by lia. done.
Qed.

(** ** Folding a codeword *)

Definition half : F := inverse two.

(** The fold of the pair [i]. *)
Definition fold_at (k : nat) (beta : F) (e0 e1 : F) (i : nat) : F :=
  add (mul half (add e0 e1)) (mul (mul (mul beta half) (inverse (dom (S k) (2 * i)))) (sub e0 e1)).

Lemma inverse_power (x : F) n : x <> zero -> power (inverse x) n = inverse (power x n).
Proof using H0.
  intros Hx. assert (forall m, power x m <> zero) as Hp.
  { induction m as [|m IH]; cbn [power]; [apply one_nonzero|]. intros Hz. apply IH. replace (power x m) with (mul (inverse x) (mul x (power x m))) by (field; done). rewrite Hz. ring. }
  induction n as [|n IH]; cbn [power]; [field; apply one_nonzero|]. rewrite IH. field. auto.
Qed.

Lemma fold_even_odd_eq `{LawfulBitUtil} (codeword : list F) beta k : k < TWO_ADICITY -> length codeword = 2 ^ S k ->
  fold_even_odd codeword beta = Some (map (fun i => fold_at k beta (nth (2 * i) codeword zero) (nth (2 * i + 1) codeword zero) i) (seq 0 (2 ^ k))).
Proof using H0.
  intros Hk Hl. unfold fold_even_odd. assert (length codeword / 2 = 2 ^ k) as -> by (rewrite Hl, Nat.pow_succ_r', Nat.mul_comm; by apply Nat.div_mul).
  rewrite log2_strict_spec. cbn [mbind option_bind]. f_equal. rewrite shifted_powers_spec, Nat.add_1_r. set (ps := map _ (seq 0 (2 ^ k))).
  assert (length ps = 2 ^ k) as Lp by (subst ps; by rewrite length_map, length_seq). apply list_eq. intros i. rewrite list_lookup_imap, list_lookup_fmap.
  destruct (decide (i < 2 ^ k)) as [Hi|Hi]; [|rewrite !lookup_ge_None_2; [done|rewrite length_seq; lia|rewrite reverse_slice_length; lia]].
  rewrite (reverse_slice_spec ps k i Lp Hi), lookup_seq_lt by done. subst ps. pose proof (bit_reverse_lt k i) as Hb. rewrite list_lookup_fmap, lookup_seq_lt by done. cbn [fmap option_fmap option_map Nat.add].
  unfold fold_at, dom. rewrite bit_reverse_even, inverse_power; [done|]. pose proof (dom_nonzero (S k) 0 ltac:(lia)) as Hd. intros Ez. apply (unit_power (two_adic_generator (S k)) (2 ^ S k) 1); [by apply generator_order| |].
  - apply Nat.neq_0_lt_0, Nat.pow_nonzero. done.
  - cbn [power]. rewrite Ez. ring.
Qed.

Lemma fold_nth `{LawfulBitUtil} (codeword folded : list F) beta k i : k < TWO_ADICITY -> length codeword = 2 ^ S k -> fold_even_odd codeword beta = Some folded -> i < 2 ^ k ->
  nth i folded zero = fold_at k beta (nth (2 * i) codeword zero) (nth (2 * i + 1) codeword zero) i.
Proof using H0.
  intros Hk Hl Hf Hi. rewrite (fold_even_odd_eq codeword beta k Hk Hl) in Hf. injection Hf as <-. rewrite nth_lookup, list_lookup_fmap, lookup_seq_lt by done. done.
Qed.

(** The line through two opposite points, at [beta]. *)
Lemma interpolate_fold k beta (e0 e1 : F) i : k < TWO_ADICITY ->
  add e0 (div (mul (sub beta (dom (S k) (2 * i))) (sub e1 e0)) (sub (opp (dom (S k) (2 * i))) (dom (S k) (2 * i)))) = fold_at k beta e0 e1 i.
Proof using H0.
  intros Hk. unfold fold_at, half, two. pose proof (dom_nonzero (S k) (2 * i) ltac:(lia)) as Hd. pose proof two_nonzero as H2. set (x := dom (S k) (2 * i)) in *. clearbody x. field.
  split_and!; try done. intros E. assert (mul (add one one) x = zero) as E2 by (replace (mul (add one one) x) with (opp (sub (opp x) x)) by ring; rewrite E; ring).
  apply H2. replace (add one one) with (mul (mul (add one one) x) (inverse x)) by (field; done). rewrite E2. ring.
Qed.

(** ** Polynomials *)

Fixpoint eval (p : list F) (x : F) : F := match p with [] => zero | c :: p => add c (mul x (eval p x)) end.

Fixpoint evens (p : list F) : list F := match p with [] => [] | c :: p => c :: odds p end
with odds (p : list F) : list F := match p with [] => [] | _ :: p => evens p end.

Fixpoint poly_add (p q : list F) : list F :=
  match p, q with [], q => q | p, [] => p | a :: p, b :: q => add a b :: poly_add p q end.
Definition poly_scale (c : F) (p : list F) : list F := map (mul c) p.

(** [p(x) = p_even(x^2) + x p_odd(x^2)] becomes [p_even(x) + beta p_odd(x)]. *)
Definition fold_poly (beta : F) (p : list F) : list F := poly_add (evens p) (poly_scale beta (odds p)).

(** Bit-reversed evaluations over the subgroup of order [2 ^ k]. *)
Definition evals (k : nat) (p : list F) : list F := map (fun j => eval p (dom k j)) (seq 0 (2 ^ k)).

Lemma eval_split p x : eval p x = add (eval (evens p) (mul x x)) (mul x (eval (odds p) (mul x x))).
Proof using H0.
  induction p as [|c p IH]; cbn [eval evens odds]; [ring|]. rewrite IH. ring.
Qed.

Lemma eval_add p : forall q x, eval (poly_add p q) x = add (eval p x) (eval q x).
Proof using H0. induction p as [|a p IH]; intros [|b q] x; cbn [poly_add eval]; try ring. rewrite IH. ring. Qed.

Lemma eval_scale c p x : eval (poly_scale c p) x = mul c (eval p x).
Proof using H0. induction p as [|a p IH]; cbn [poly_scale map eval]; [ring|]. fold (poly_scale c p). rewrite IH. ring. Qed.

Lemma evals_length k p : length (evals k p) = 2 ^ k.
Proof using. unfold evals. by rewrite length_map, length_seq. Qed.

Lemma evals_nth k p j : j < 2 ^ k -> nth j (evals k p) zero = eval p (dom k j).
Proof using. intros Hj. unfold evals. rewrite (nth_indep _ _ (eval p (dom k 0))) by (by rewrite length_map, length_seq). rewrite (map_nth (fun j => eval p (dom k j)) (seq 0 (2 ^ k)) 0 j). by rewrite seq_nth. Qed.

Lemma evens_odds_length p : length (evens p) = (length p + 1) / 2 /\ length (odds p) = length p / 2.
Proof using.
  induction p as [|c p [IH1 IH2]]; [done|]. cbn [evens odds length]. split; [|by rewrite IH1, Nat.add_1_r].
  rewrite IH2. replace (S (length p) + 1) with (length p + 1 * 2) by lia. rewrite Nat.div_add by done. lia.
Qed.

Lemma poly_add_length p : forall q, length (poly_add p q) = Nat.max (length p) (length q).
Proof using. induction p as [|a p IH]; intros [|b q]; cbn [poly_add length]; try done. by rewrite IH. Qed.

Lemma fold_poly_length beta p n : length p <= 2 * n -> length (fold_poly beta p) <= n.
Proof using.
  intros Hl. unfold fold_poly, poly_scale. rewrite poly_add_length, length_map. destruct (evens_odds_length p) as [-> ->].
  apply Nat.max_lub; [apply Nat.lt_succ_r, Nat.Div0.div_lt_upper_bound|apply Nat.Div0.div_le_upper_bound]; lia.
Qed.

Lemma fold_evals `{LawfulBitUtil} k beta p : k < TWO_ADICITY -> fold_even_odd (evals (S k) p) beta = Some (evals k (fold_poly beta p)).
Proof using H0.
  intros Hk. rewrite (fold_even_odd_eq _ _ k) by (done || apply evals_length). f_equal. apply map_ext_in. intros i Hi%in_seq. assert (2 * i + 1 < 2 ^ S k) as Hb by (cbn [Nat.pow]; lia).
  rewrite !evals_nth by lia. rewrite dom_odd by done. unfold fold_poly. rewrite eval_add, eval_scale, (eval_split p (dom (S k) (2 * i))), (eval_split p (opp _)).
  replace (mul (opp (dom (S k) (2 * i))) (opp (dom (S k) (2 * i)))) with (dom k i) by (rewrite <- (dom_even_square k i) by done; ring). rewrite dom_even_square by done.
  pose proof (dom_nonzero (S k) (2 * i) ltac:(lia)) as Hd. pose proof two_nonzero as Htwo. unfold fold_at, half, two. field. done.
Qed.

(** A constant has constant evaluations. *)
Lemma evals_constant k p : length p <= 1 -> exists c, evals k p = replicate (2 ^ k) c.
Proof using H0.
  intros Hl. exists (eval p zero). unfold evals. rewrite <- (length_seq (2 ^ k) 0) at 2. induction (seq 0 (2 ^ k)) as [|j l IH]; [done|]. cbn [map length replicate]. rewrite IH. f_equal.
  destruct p as [|c [|? ?]]; cbn in *; [done|ring|lia].
Qed.
End Field.

Section Protocol.
  Context {F : Type} `{LF : LawfulField F} `{EqDecision F} `{LB : LawfulBitUtil} `{MM : Mmcs F} `{FC : !FriChallenger F}.

Lemma field_inst' : field_theory zero one add mul sub opp div inverse eq.
Proof using LF. exact field_laws. Qed.
Add Field FriField' : field_inst'.

(** ** One query step *)

(** The pair of a value and its sibling. *)
Definition pair_of (j : nat) (v sibling : F) : list F := if Nat.even j then [v; sibling] else [sibling; v].

Lemma verify_fold_eq commit (step : CommitPhaseProofStep) beta k j v : k < TWO_ADICITY ->
  verify_fold commit step beta k j v (dom (S k) j) =
  (verified ← verify_batch commit [mkDimensions 2 (2 ^ k)] (j / 2) [pair_of j v (sibling_value step)] (opening_proof step);
   match verified with
   | Err e => Some (Err (CommitPhaseMmcsError e))
   | Ok _ => Some (Ok (fold_at k beta (nth 0 (pair_of j v (sibling_value step)) zero) (nth 1 (pair_of j v (sibling_value step)) zero) (j / 2)))
   end).
Proof using LF.
  intros Hk. unfold verify_fold, pair_of. destruct (parity_cases j) as [[Ej Es]|[Ej Es]]; rewrite Es.
  - replace ((2 * (j / 2) + 1) mod 2) with 1 by (apply (Nat.mod_unique _ 2 (j / 2)); lia). assert (Nat.even j = true) as -> by (rewrite Ej; apply Nat.even_spec; by exists (j / 2)).
    destruct (verify_batch _ _ _ _ _) as [[[]|e]|]; [|done..]. cbn [mbind option_bind alter list_alter nth insert list_insert]. do 2 f_equal. rewrite generator_1.
    rewrite <- (interpolate_fold k beta v (sibling_value step) (j / 2) Hk). rewrite Ej at 1 2 3. set (x := dom (S k) (2 * (j / 2))). replace (mul x (opp one)) with (opp x) by ring. done.
  - replace ((2 * (j / 2)) mod 2) with 0 by (rewrite Nat.mul_comm; by rewrite Nat.Div0.mod_mul). assert (Nat.even j = false) as -> by (rewrite Ej, Nat.even_add, Nat.even_mul; done).
    destruct (verify_batch _ _ _ _ _) as [[[]|e]|]; [|done..]. cbn [mbind option_bind alter list_alter nth insert list_insert]. do 2 f_equal. rewrite generator_1.
    rewrite <- (interpolate_fold k beta (sibling_value step) v (j / 2) Hk). rewrite Ej at 1 2 3. rewrite dom_odd by done. set (x := dom (S k) (2 * (j / 2))). replace (mul (opp x) (opp one)) with x by ring. done.
Qed.

Lemma pair_of_codeword (cw : list F) j : pair_of j (nth j cw zero) (nth (Nat.lxor j 1) cw zero) = [nth (2 * (j / 2)) cw zero; nth (2 * (j / 2) + 1) cw zero].
Proof using.
  unfold pair_of. destruct (parity_cases j) as [[Ej Es]|[Ej Es]]; rewrite Es.
  - assert (Nat.even j = true) as -> by (rewrite Ej; apply Nat.even_spec; by exists (j / 2)). by rewrite <- Ej.
  - assert (Nat.even j = false) as -> by (rewrite Ej, Nat.even_add, Nat.even_mul; done). by rewrite <- Ej.
Qed.

(** ** Committing to a codeword *)

Lemma pairs_length (cw : list F) n : length cw = 2 * n -> length (pairs cw) = n /\ Forall (fun r => length r = 2) (pairs cw).
Proof using.
  revert cw. induction n as [|n IH]; intros cw Hl; [destruct cw; [by split; [|constructor]|done]|]. destruct cw as [|x [|y cw]]; [cbn in Hl; lia..|].
  cbn in Hl. destruct (IH cw ltac:(lia)) as [E1 E2]. cbn [pairs length]. rewrite E1. split; [done|by constructor].
Qed.

Lemma pairs_nth n : forall (cw : list F) i, length cw = 2 * n -> i < n -> nth i (pairs cw) [] = [nth (2 * i) cw zero; nth (2 * i + 1) cw zero].
Proof using.
  induction n as [|n IH]; intros cw i Hl Hi; [lia|]. destruct cw as [|x [|y cw]]; [cbn in Hl; lia..|]. destruct i as [|i]; [done|]. cbn in Hl.
  replace (2 * S i) with (S (S (2 * i))) by lia. cbn [pairs nth Nat.add]. rewrite (IH cw i) by lia. done.
Qed.

Lemma row_major_2_ok (cw : list F) k : length cw = 2 ^ S k ->
  mat_wf (row_major_2 cw) /\ height (row_major_2 cw) = 2 ^ k /\ forall i, i < 2 ^ k -> row (row_major_2 cw) i = [nth (2 * i) cw zero; nth (2 * i + 1) cw zero].
Proof using.
  intros Hl. destruct (pairs_length cw (2 ^ k) Hl) as [E Hf]. split_and!; [exact Hf|exact E|]. intros i Hi. by apply (pairs_nth (2 ^ k)).
Qed.

(** The step of the prover is answered from the codeword. *)
Lemma answer_step_eq data k (cw : list F) j proof : length cw = 2 ^ S k -> j < 2 ^ S k -> open_batch (j / 2) data = Some ([row (row_major_2 cw) (j / 2)], proof) ->
  answer_step j 0 data = Some (mkStep (nth (Nat.lxor j 1) cw zero) proof).
Proof using.
  intros Hl Hj Ho. assert (j / 2 < 2 ^ k) as Hp by (apply Nat.Div0.div_lt_upper_bound; exact Hj). destruct (row_major_2_ok cw k Hl) as (_ & _ & Hr). rewrite (Hr _ Hp) in Ho.
  unfold answer_step. rewrite Nat.div_1_r, Ho. cbn [mbind option_bind length Nat.eqb negb last]. destruct (parity_cases j) as [[Ej Es]|[Ej Es]]; rewrite Es.
  - by replace ((2 * (j / 2) + 1) mod 2) with 1 by (apply (Nat.mod_unique _ 2 (j / 2)); lia).
  - by replace ((2 * (j / 2)) mod 2) with 0 by (rewrite Nat.mul_comm; by rewrite Nat.Div0.mod_mul).
Qed.

Lemma answer_steps_tail (l : list ProverData) j : mapM (fun '(i, commit) => answer_step j i commit) (imap (fun i d => (S i, d)) l) =
  mapM (fun '(i, commit) => answer_step (j / 2) i commit) (imap pair l).
Proof using.
  assert (forall i d, answer_step j (S i) d = answer_step (j / 2) i d) as Hs by (intros i d; unfold answer_step; rewrite Nat.pow_succ_r', <- Nat.Div0.div_div; done).
  assert (forall o, mapM (fun '(i, commit) => answer_step j i commit) (imap (fun i d => (S (o + i), d)) l) = mapM (fun '(i, commit) => answer_step (j / 2) i commit) (imap (fun i d => (o + i, d)) l)) as Ho.
  { induction l as [|d l IH]; intros o; [done|]. cbn [imap]. cbn [mapM]. rewrite Hs. apply option_bind_ext_fun. intros st.
    assert (imap ((fun i d => (S (o + i), d)) ∘ S) l = imap (fun i d => (S (S o + i), d)) l) as -> by (apply imap_ext; intros i d' _; cbn; do 2 f_equal; lia).
    assert (imap ((fun i d => (o + i, d)) ∘ S) l = imap (fun i d => (S o + i, d)) l) as -> by (apply imap_ext; intros i d' _; cbn; do 2 f_equal; lia).
    by rewrite IH. }
  exact (Ho 0).
Qed.

(** ** Completeness *)

(** The inputs: for each height no polynomial or the evaluations of one. *)
Definition inputs (polys : list (option (list F))) : list (option (list F)) := imap (fun i p => evals i <$> p) polys.

(** An input at a position ([zero] if there is none). *)
Definition input_at (input : list (option (list F))) (m j : nat) : F := match input !! m with Some (Some v) => nth j v zero | _ => zero end.

(** The values the inputs have at a query: one per height. *)
Definition reduced_opening (input : list (option (list F))) (log_max_height index : nat) : list F :=
  imap (fun m v => match v with Some v => nth (index / 2 ^ (log_max_height - m)) v zero | None => zero end) input.

(** Degrees are below the height over the blowup, and no input is as short as the
    final polynomial. *)
Definition low_degree (config : FriConfig) (polys : list (option (list F))) : Prop :=
  forall i p, polys !! i = Some (Some p) -> log_blowup config < i <= TWO_ADICITY /\ length p <= 2 ^ (i - log_blowup config).

Lemma inputs_lookup polys m : inputs polys !! m = (fun p => evals m <$> p) <$> polys !! m.
Proof using. unfold inputs. by rewrite list_lookup_imap. Qed.

Lemma add_zip_evals m (p q : list F) : add_zip_eq (evals m p) (evals m q) = Some (evals m (poly_add p q)).
Proof using LF.
  unfold evals. induction (seq 0 (2 ^ m)) as [|j l IH]; [done|]. cbn [map add_zip_eq]. rewrite IH. cbn. by rewrite eval_add.
Qed.

Lemma add_input_evals polys m p n : m < length polys -> (forall q, polys !! m = Some (Some q) -> length q <= n) -> length p <= n ->
  exists p', add_input (inputs polys) m (evals m p) = Some (evals m p') /\ length p' <= n /\ forall j, j < 2 ^ m -> nth j (evals m p') zero = add (nth j (evals m p) zero) (input_at (inputs polys) m j).
Proof using LF.
  intros Hm Hq Hp. unfold add_input, input_at. rewrite inputs_lookup. destruct (lookup_lt_is_Some_2 polys m Hm) as [[q|] E]; rewrite E in *; cbn [fmap option_fmap option_map mbind option_bind].
  - exists (poly_add p q). rewrite add_zip_evals. split_and!; [done|rewrite poly_add_length; specialize (Hq q eq_refl); lia|]. intros j Hj. by rewrite !evals_nth, eval_add.
  - exists p. split_and!; [done..|]. intros j _. ring.
Qed.

Context (LM : LawfulMmcs F).

(** From one height down to the blowup: the prover commits and folds, its answers
    verify, and the verifier draws the same challenges. *)
Lemma commit_loop_complete b polys n : b + n < length polys -> b + n <= TWO_ADICITY -> polys !! b = Some None ->
  (forall m q, b < m < b + n -> polys !! m = Some (Some q) -> length q <= 2 ^ (m - b)) ->
  forall p challenger, length p <= 2 ^ n ->
  exists cs ds betas final challenger', commit_loop (inputs polys) (rev (seq b n)) (evals (b + n) p) challenger = Some (cs, ds, replicate (2 ^ b) final, challenger') /\
    length cs = n /\ sample_betas cs challenger = (betas, challenger') /\
    forall j, j < 2 ^ (b + n) -> exists steps, mapM (fun '(i, commit) => answer_step j i commit) (imap pair ds) = Some steps /\
      forall ro v r, (forall m, b <= m < b + n -> ro !! m = Some (input_at (inputs polys) m (j / 2 ^ (b + n - m)))) -> ro !! (b + n) = Some r -> (n = 0 -> r = zero) ->
        add v r = nth j (evals (b + n) p) zero -> verify_folds (rev (seq 0 (b + n))) cs steps betas ro j v (dom (b + n) j) = Some (Ok final).
Proof using LF LB LM.
  induction n as [|n IH]; intros Hlen Hta Hb Hq p c Hp.
  { rewrite Nat.add_0_r in *. destruct (evals_constant b p Hp) as [final Ef]. exists [], [], [], final, c. cbn [seq rev commit_loop sample_betas]. rewrite Ef. split_and!; [done..|].
    intros j Hj. exists []. split; [done|]. intros ro v r _ _ Hr Hv. rewrite (Hr eq_refl) in Hv. rewrite nth_lookup, lookup_replicate_2 in Hv by done. cbn in Hv.
    replace v with final by (rewrite <- Hv; ring). by destruct (rev (seq 0 b)). }
  replace (b + S n) with (S (b + n)) in * by lia. set (k := b + n) in *. assert (k < TWO_ADICITY) as Hk by lia.
  rewrite seq_S, rev_app_distr. cbn [rev app]. fold k. cbn [commit_loop]. destruct (row_major_2_ok (evals (S k) p) k (evals_length _ _)) as (Hw & Hh & Hrow).
  destruct (committed _ k Hw Hh) as (commitment & data & Ec & Ho). rewrite Ec. cbn [mbind option_bind sample_betas]. destruct (sample_ext_element (observe commitment c)) as [beta c1] eqn:Es.
  rewrite fold_evals by done. cbn [mbind option_bind].
  destruct (add_input_evals polys k (fold_poly beta p) (2 ^ n)) as (p' & Ea & Hp' & Hadd).
  { lia. } { intros q Eq. destruct n as [|n]; [subst k; rewrite Nat.add_0_r, Hb in Eq; done|]. replace (S n) with (k - b) by lia. apply (Hq k); [lia|done]. } { by apply fold_poly_length. }
  rewrite Ea. cbn [mbind option_bind]. destruct (IH ltac:(lia) ltac:(lia) Hb ltac:(intros m q Hm; apply Hq; lia) p' c1 Hp') as (cs & ds & betas & final & c2 & El & Hlc & Hsb & Hqs).
  rewrite El. exists (commitment :: cs), (data :: ds), (beta :: betas), final, c2. cbn [sample_betas]. rewrite Es, Hsb. split_and!; [done|cbn; lia|done|].
  intros j Hj. assert (j / 2 < 2 ^ k) as Hj2 by (apply Nat.Div0.div_lt_upper_bound; exact Hj). destruct (Ho _ Hj2) as (proof & Hop & Hver). destruct (Hqs _ Hj2) as (steps & Hst & Hvs).
  exists (mkStep (nth (Nat.lxor j 1) (evals (S k) p) zero) proof :: steps). split.
  { cbn [imap]. cbn [mapM]. rewrite (answer_step_eq data k (evals (S k) p) j proof) by (done || apply evals_length). cbn [mbind option_bind].
    change (imap (pair ∘ S) ds) with (imap (fun i d => (S i, d)) ds). rewrite answer_steps_tail, Hst. done. }
  intros ro v r Hro Hr _ Hv. rewrite seq_S, rev_app_distr. cbn [rev app Nat.add verify_folds]. rewrite Nat.add_1_r, Hr. cbn [mbind option_bind]. rewrite verify_fold_eq by done. cbn [sibling_value opening_proof].
  rewrite Hv, pair_of_codeword, <- Hrow by done. assert (dimensions (row_major_2 (evals (S k) p)) = mkDimensions 2 (2 ^ k)) as Ed by (unfold dimensions; by rewrite Hh). rewrite <- Ed, Hver. cbn [mbind option_bind].
  rewrite Hrow by done. cbn [nth]. rewrite square_spec, dom_square by done. pose proof (Hro k ltac:(lia)) as Hrk. replace (2 ^ (S k - k)) with 2 in Hrk by (by replace (S k - k) with 1 by lia).
  apply (Hvs ro _ (input_at (inputs polys) k (j / 2))); [|done| |].
  - intros m Hm. rewrite Nat.Div0.div_div. replace (2 * 2 ^ (k - m)) with (2 ^ (S k - m)) by (rewrite <- Nat.pow_succ_r'; f_equal; lia). apply Hro. lia.
  - intros ->. subst k. rewrite Nat.add_0_r. unfold input_at. by rewrite inputs_lookup, Hb.
  - rewrite Hadd by done. f_equal. symmetry. apply (fold_nth (evals (S k) p) _ beta k); [done|apply evals_length|by apply fold_evals|done].
Qed.

Lemma rposition_spec (input : list (option (list F))) L : rposition input = Some L -> exists v, input !! L = Some (Some v).
Proof using.
  revert L. induction input as [|x input IH]; intros L E; [done|]. cbn in E. destruct (rposition input) as [i|] eqn:Ei; [injection E as <-; by apply IH|]. destruct x as [v|]; [|done]. injection E as <-. by exists v.
Qed.

Lemma rposition_Some (input : list (option (list F))) v : Some v ∈ input -> exists L, rposition input = Some L.
Proof using.
  induction input as [|x input IH]; intros Hin; [by apply not_elem_of_nil in Hin|]. cbn. destruct (rposition input) as [i|] eqn:Ei; [by eexists|].
  apply elem_of_cons in Hin as [<-|Hin]; [by eexists|]. destruct (IH Hin) as [L E]. congruence.
Qed.

Lemma rposition_max (input : list (option (list F))) : forall L m v, rposition input = Some L -> input !! m = Some (Some v) -> m <= L.
Proof using.
  induction input as [|x input IH]; intros L m v E Hm; [done|]. cbn in E. destruct (rposition input) as [i|] eqn:Ei.
  - injection E as <-. destruct m as [|m]; [lia|]. cbn in Hm. specialize (IH i m v eq_refl Hm). lia.
  - destruct m as [|m]; [lia|]. cbn in Hm. destruct (rposition_Some input v) as [L' E']; [by apply list_elem_of_lookup_2 in Hm|congruence].
Qed.

Lemma sample_indices_lt `{!LawfulChallenger F} n bits : forall c indices c', sample_indices n bits c = (indices, c') -> length indices = n /\ Forall (fun i => i < 2 ^ bits) indices.
Proof using.
  induction n as [|n IH]; intros c indices c' E; cbn in E; [injection E as <- _; by split|]. pose proof (sample_bits_lt bits c) as Hb. destruct (sample_bits bits c) as [i c1]. destruct (sample_indices n bits c1) as [js c2] eqn:E2.
  injection E as <- _. destruct (IH _ _ _ E2) as [Hl Hf]. split; [cbn; by rewrite Hl|by constructor].
Qed.

(** Queries that are answered one by one. *)
Lemma verify_queries_complete config proof betas ros (answer : nat -> option QueryProof) : forall indices qs, mapM answer indices = Some qs ->
  (forall j q, j ∈ indices -> answer j = Some q -> verify_query (commit_phase_commits proof) j q betas (ros j) (length (commit_phase_commits proof) + log_blowup config) = Some (Ok (final_poly proof))) ->
  verify_queries config proof betas indices qs (map ros indices) = Some (Ok tt).
Proof using.
  induction indices as [|j indices IH]; intros qs Hm Hv; [cbn in Hm; by injection Hm as <-|]. cbn [mapM] in Hm. destruct (answer j) as [q|] eqn:Ej; [|discriminate Hm]. cbn [mbind option_bind] in Hm.
  destruct (mapM answer indices) as [qs'|] eqn:Eq; [|discriminate Hm]. injection Hm as <-. cbn [map verify_queries]. rewrite (Hv j q (list_elem_of_here _ _) Ej). cbn [mbind option_bind]. rewrite bool_decide_true by done.
  apply IH; [done|]. intros j' q' Hj'. apply Hv. by right.
Qed.

Lemma reduced_opening_lookup polys L index m : m < length polys -> reduced_opening (inputs polys) L index !! m = Some (input_at (inputs polys) m (index / 2 ^ (L - m))).
Proof using.
  intros Hm. unfold reduced_opening, input_at. rewrite list_lookup_imap, inputs_lookup. destruct (lookup_lt_is_Some_2 polys m Hm) as [[q|] ->]; done.
Qed.

(** The prover succeeds and its proof verifies, with the number of commitments. *)
Lemma fri_completes `{LC : !LawfulChallenger F} config polys challenger : low_degree config polys -> log_blowup config < length polys -> (exists p, Some p ∈ polys) ->
  (forall c, is_Some (grind (proof_of_work_bits config) c)) ->
  exists log_max_height proof indices challenger' challenges, rposition (inputs polys) = Some log_max_height /\
    prove config (inputs polys) challenger = Some (proof, indices, challenger') /\
    verify_shape_and_sample_challenges config proof challenger = (Ok challenges, challenger') /\ query_indices challenges = indices /\
    verify_challenges config proof challenges (map (reduced_opening (inputs polys) log_max_height) indices) = Some (Ok tt) /\
    length (commit_phase_commits proof) + log_blowup config = log_max_height /\ Forall (fun i => i < 2 ^ log_max_height) indices.
Proof using LF LB LM.
  intros Hld Hbl [p0 Hp0] Hgr. set (b := log_blowup config) in *. assert (exists L, rposition (inputs polys) = Some L) as [L HL].
  { apply list_elem_of_lookup in Hp0 as [i Hi]. apply (rposition_Some _ (evals i p0)). apply list_elem_of_lookup. exists i. by rewrite inputs_lookup, Hi. }
  exists L. destruct (rposition_spec _ _ HL) as [v Hv]. rewrite inputs_lookup in Hv. destruct (polys !! L) as [[p|]|] eqn:Ep; [|done..]. injection Hv as <-. destruct (Hld _ _ Ep) as [[HbL HLt] Hp]. fold b in HbL, Hp.
  assert (L < length polys) as HLl by (by apply lookup_lt_Some in Ep). assert (L = b + (L - b)) as EL by lia. set (n := L - b) in *.
  assert (polys !! b = Some None) as Hb. { destruct (lookup_lt_is_Some_2 polys b Hbl) as [[q|] E]; [|done]. destruct (Hld _ _ E) as [? _]. subst b. lia. }
  destruct (commit_loop_complete b polys n ltac:(lia) ltac:(lia) Hb) with p challenger as (cs & ds & betas & final & c1 & El & Hlc & Hsb & Hqs); [by intros m q _ Hm; apply (Hld m q Hm)|done|].
  rewrite <- EL in *. destruct (Hgr (observe_ext_element final c1)) as [[w c2] Hw].
  destruct (sample_indices (num_queries config) L c2) as [indices c3] eqn:Ei. destruct (sample_indices_lt _ _ _ _ _ Ei) as [Hni Hilt]. pose proof Hilt as Hilt'. rewrite Forall_forall in Hilt.
  destruct (mapM_total (answer_query ds) indices) as [qs Hqm]. { intros j Hj. destruct (Hqs j (Hilt _ Hj)) as (steps & Hst & _). unfold answer_query. rewrite Hst. by eexists. }
  assert (commit_phase config (inputs polys) L challenger = Some (mkCommitPhaseResult cs ds final, observe_ext_element final c1)) as Hcp.
  { unfold commit_phase. rewrite inputs_lookup, Ep. cbn [fmap option_fmap option_map mjoin option_join mbind option_bind]. fold b. fold n. rewrite El. cbn [mbind option_bind]. unfold blowup. fold b. rewrite length_replicate, Nat.eqb_refl. cbn [negb].
    assert (head (replicate (2 ^ b) final) = Some final) as -> by (destruct (2 ^ b) eqn:E; [by apply Nat.pow_nonzero in E|done]). cbn [mbind option_bind].
    assert (forallb (fun x => bool_decide (x = final)) (replicate (2 ^ b) final) = true) as ->; [|done]. apply forallb_forall. intros x Hx%list_elem_of_In. apply elem_of_replicate in Hx as [-> _]. by apply bool_decide_true. }
  exists (mkFriProof cs qs final w), indices, c3, (mkFriChallenges indices betas). split_and!; [done| | |done| |cbn [commit_phase_commits]; fold b; lia|done].
  - unfold prove. rewrite HL. cbn [mbind option_bind]. rewrite Hcp. cbn [mbind option_bind]. rewrite Hw. cbn [mbind option_bind]. rewrite Ei. cbn [data]. by rewrite Hqm.
  - unfold verify_shape_and_sample_challenges. cbn [commit_phase_commits query_proofs final_poly pow_witness]. rewrite Hsb. assert (length qs = num_queries config) as ->.
    { rewrite <- Hni. clear -Hqm. apply mapM_Some, Forall2_length in Hqm. done. }
    rewrite Nat.eqb_refl. cbn [negb]. rewrite (grind_checks _ _ _ _ Hw). cbn [negb]. rewrite Hlc. fold b. replace (n + b) with L by lia. by rewrite Ei.
  - unfold verify_challenges. cbn [Fri.betas query_indices query_proofs]. apply (verify_queries_complete config _ betas _ (answer_query ds)); [done|]. cbn [commit_phase_commits final_poly]. fold b. rewrite Hlc. replace (n + b) with L by lia.
    intros j q Hj Hq. specialize (Hilt j Hj). destruct (Hqs j Hilt) as (steps & Hst & Hvs). unfold answer_query in Hq. rewrite Hst in Hq. injection Hq as <-. unfold verify_query. cbn [commit_phase_openings].
    rewrite exp_u64_spec, reverse_bits_len_spec by done. apply (Hvs _ _ (input_at (inputs polys) L j)).
    + intros m Hm. apply reduced_opening_lookup. lia.
    + rewrite reduced_opening_lookup by done. by rewrite Nat.sub_diag, Nat.div_1_r.
    + lia.
    + unfold input_at. rewrite inputs_lookup, Ep. cbn [fmap option_fmap option_map]. ring.
Qed.

(** C10. FRI is complete: on the evaluations of polynomials of low degree, with inputs of
    any number of heights above the blowup, [prove] does not fail, the verifier
    draws the same challenges from the proof and ends in the same challenger
    state, and [verify_challenges] accepts the values of the inputs at the
    queries. *)
Theorem fri_complete `{LC : !LawfulChallenger F} config polys challenger : low_degree config polys -> log_blowup config < length polys -> (exists p, Some p ∈ polys) ->
  (forall c, is_Some (grind (proof_of_work_bits config) c)) ->
  exists log_max_height proof indices challenger' challenges, rposition (inputs polys) = Some log_max_height /\
    prove config (inputs polys) challenger = Some (proof, indices, challenger') /\
    verify_shape_and_sample_challenges config proof challenger = (Ok challenges, challenger') /\ query_indices challenges = indices /\
    verify_challenges config proof challenges (map (reduced_opening (inputs polys) log_max_height) indices) = Some (Ok tt).
Proof using LF LB LM.
  intros Hld Hbl Hp Hgr. destruct (fri_completes config polys challenger Hld Hbl Hp Hgr) as (L & proof & indices & c & chs & H1 & H2 & H3 & H4 & H5 & _). by exists L, proof, indices, c, chs.
Qed.

(** ** What an accepted query shows *)

(** The commitment opens to the pairs of the codeword only. *)
Definition opens_only (commit : Commitment) (codeword : list F) (k : nat) : Prop :=
  forall j pair proof, j < 2 ^ k -> length pair = 2 -> verify_batch commit [mkDimensions 2 (2 ^ k)] j [pair] proof = Some (Ok tt) -> pair = row (row_major_2 codeword) j.

(** Codewords of the heights below [k] behind the commitments. *)
Fixpoint committed_to (k : nat) (commits : list Commitment) (codewords : list (list F)) : Prop :=
  match commits, codewords, k with
  | [], [], _ => True
  | commit :: commits, codeword :: codewords, S k => length codeword = 2 ^ S k /\ opens_only commit codeword k /\ committed_to k commits codewords
  | _, _, _ => False
  end.

(** Position [j] of every codeword is the fold of the one before plus the opening of
    the inputs of its height, and the last fold is [final]. *)
Inductive folds_to (ro : list F) : nat -> list (list F) -> list F -> nat -> F -> F -> Prop :=
  | folds_end k j v : folds_to ro k [] [] j v v
  | folds_step k codeword codewords beta betas folded j v r final : ro !! S k = Some r -> nth j codeword zero = add v r -> fold_even_odd codeword beta = Some folded ->
      folds_to ro k codewords betas (j / 2) (nth (j / 2) folded zero) final -> folds_to ro (S k) (codeword :: codewords) (beta :: betas) j v final.

Lemma verify_folds_sound ro : forall commits k codewords steps betas j v final, k <= TWO_ADICITY -> committed_to k commits codewords -> length steps = length commits -> length betas = length commits -> j < 2 ^ k ->
  verify_folds (rev (seq 0 k)) commits steps betas ro j v (dom k j) = Some (Ok final) -> folds_to ro k codewords betas j v final.
Proof using LF LB.
  clear LM. induction commits as [|commit commits IH]; intros k codewords steps betas j v final Hta Hc Hs Hb Hj Hv.
  { destruct codewords as [|? ?]; [|by destruct k]. destruct steps, betas; [|done..]. assert (v = final) as -> by (destruct (rev (seq 0 k)); by injection Hv). constructor. }
  destruct codewords as [|cw codewords]; [by destruct k|]. destruct k as [|k]; [done|]. destruct Hc as (Hl & Ho & Hc). destruct steps as [|step steps]; [done|]. destruct betas as [|beta betas]; [done|].
  rewrite seq_S, rev_app_distr in Hv. cbn [rev app Nat.add verify_folds] in Hv. rewrite Nat.add_1_r in Hv. destruct (ro !! S k) as [r|] eqn:Er; [|discriminate Hv]. cbn [mbind option_bind] in Hv.
  rewrite verify_fold_eq in Hv by lia. destruct (verify_batch commit _ _ _ _) as [[[]|e]|] eqn:Ev; [|discriminate Hv..]. cbn [mbind option_bind] in Hv.
  assert (j / 2 < 2 ^ k) as Hj2 by (apply Nat.Div0.div_lt_upper_bound; exact Hj). assert (length (pair_of j (add v r) (sibling_value step)) = 2) as Lp by (unfold pair_of; by destruct (Nat.even j)).
  apply (Ho _ _ _ Hj2 Lp) in Ev. destruct (row_major_2_ok cw k Hl) as (_ & _ & Hrow). rewrite (Hrow _ Hj2) in Ev. rewrite Ev in Hv. cbn [nth] in Hv.
  rewrite square_spec, dom_square in Hv by lia. destruct (fold_even_odd cw beta) as [folded|] eqn:Ef; [|by rewrite (fold_even_odd_eq cw beta k ltac:(lia) Hl) in Ef].
  rewrite <- (fold_nth cw folded beta k (j / 2) ltac:(lia) Hl Ef Hj2) in Hv. apply folds_step with folded r; [done| |done|apply (IH _ _ steps); (done || cbn in *; lia)].
  assert (nth 0 (pair_of j (add v r) (sibling_value step)) zero = nth (2 * (j / 2)) cw zero /\ nth 1 (pair_of j (add v r) (sibling_value step)) zero = nth (2 * (j / 2) + 1) cw zero) as [E0 E1] by (by rewrite Ev).
  unfold pair_of in E0, E1. destruct (parity_cases j) as [[Ej _]|[Ej _]]; rewrite Ej at 1.
  - assert (Nat.even j = true) as Ee by (rewrite Ej; apply Nat.even_spec; by exists (j / 2)). by rewrite Ee in E0.
  - assert (Nat.even j = false) as Ee by (rewrite Ej, Nat.even_add, Nat.even_mul; done). by rewrite Ee in E1.
Qed.

(** C11. An accepted query is a consistent fold: if the commitments open to the pairs of
    codewords only and a query has an opening for every commitment, then for every
    query that [verify_challenges] goes through, each codeword is at the query the
    fold of the previous one, as [fold_even_odd] computes it, plus the opening of
    the inputs of its height, and the last fold is the final polynomial. *)
Theorem accepted_query_folds config proof challenges reduced_openings codewords : let L := length (commit_phase_commits proof) + log_blowup config in
  L <= TWO_ADICITY -> committed_to L (commit_phase_commits proof) codewords -> length (betas challenges) = length (commit_phase_commits proof) ->
  verify_challenges config proof challenges reduced_openings = Some (Ok tt) ->
  forall i index query ro, query_indices challenges !! i = Some index -> query_proofs proof !! i = Some query -> reduced_openings !! i = Some ro ->
    index < 2 ^ L -> length (commit_phase_openings query) = length (commit_phase_commits proof) ->
    folds_to ro L codewords (betas challenges) index zero (final_poly proof).
Proof using LF LB.
  clear LM. intros L HL Hc Hb. unfold verify_challenges. generalize (query_indices challenges) as js, (query_proofs proof) as qs. revert reduced_openings.
  intros ros js. revert ros. induction js as [|j js IH]; intros [|r ros] [|q qs] Hv i index query ro Hi Hq Hr Hlt Hs; try done. cbn [verify_queries] in Hv. fold L in Hv.
  destruct (verify_query _ j q _ r L) as [[v|e]|] eqn:Ev; [|discriminate Hv..]. cbn [mbind option_bind] in Hv. destruct (bool_decide_reflect (v = final_poly proof)) as [->|_]; [|discriminate Hv].
  destruct i as [|i]; cbn in Hi, Hq, Hr; [|by apply (IH ros qs Hv i index query ro)]. injection Hi as ->. injection Hq as ->. injection Hr as ->.
  unfold verify_query in Ev. rewrite exp_u64_spec, reverse_bits_len_spec in Ev by done. by apply (verify_folds_sound ro (commit_phase_commits proof) L codewords (commit_phase_openings query)).
Qed.

(** ** What the verifier does not look at *)

Lemma verify_folds_agree ro ro' b : forall commits steps betas j v x, (forall m, b < m -> ro !! m = ro' !! m) ->
  verify_folds (rev (seq 0 (length commits + b))) commits steps betas ro j v x = verify_folds (rev (seq 0 (length commits + b))) commits steps betas ro' j v x.
Proof using.
  clear LM. intros commits steps betas j v x Ha. revert steps betas j v x. induction commits as [|commit commits IH]; intros steps betas j v x; [by destruct (rev _)|].
  cbn [length Nat.add]. rewrite seq_S, rev_app_distr. cbn [rev app Nat.add verify_folds]. destruct steps as [|step steps]; [done|]. destruct betas as [|beta betas]; [done|].
  rewrite Ha by lia. destruct (ro' !! _) as [r|]; [|done]. cbn [mbind option_bind]. destruct (verify_fold _ _ _ _ _ _ _) as [[v'|e]|]; [|done..]. cbn [mbind option_bind]. apply IH.
Qed.

(** The verifier never looks at the openings of the inputs of height [log_blowup] or
    below: two lists of reduced openings that agree above it get the same verdict.
    The prover adds the input of that height in its last fold. *)
Theorem short_inputs_unchecked config proof challenges openings openings' :
  Forall2 (fun ro ro' => forall m, log_blowup config < m -> ro !! m = ro' !! m) openings openings' ->
  verify_challenges config proof challenges openings = verify_challenges config proof challenges openings'.
Proof using.
  clear LM. unfold verify_challenges. generalize (query_indices challenges) as js, (query_proofs proof) as qs. intros js qs Ha. revert js qs. induction Ha as [|ro ro' l l' Hr Ha IH]; intros js qs; [done|].
  destruct js as [|j js]; [done|]. destruct qs as [|q qs]; [done|]. cbn [verify_queries]. assert (verify_query (commit_phase_commits proof) j q (betas challenges) ro (length (commit_phase_commits proof) + log_blowup config) =
    verify_query (commit_phase_commits proof) j q (betas challenges) ro' (length (commit_phase_commits proof) + log_blowup config)) as -> by (by apply verify_folds_agree).
  destruct (verify_query _ _ _ _ _ _) as [[v|e]|]; [|done..]. cbn [mbind option_bind]. by rewrite IH.
Qed.

(** The verifier does not count the openings of a query: query proofs without any
    opening are accepted for every commitment, challenge and reduced opening when
    the final polynomial is zero. *)
Theorem unopened_queries_accepted config proof challenges reduced_openings : Forall (fun query => commit_phase_openings query = []) (query_proofs proof) -> final_poly proof = zero ->
  verify_challenges config proof challenges reduced_openings = Some (Ok tt).
Proof using.
  clear LM. intros Hq Hf. unfold verify_challenges. generalize (query_indices challenges) as js. revert reduced_openings. induction Hq as [|q qs Hq Hqs IH]; intros ros js; [by destruct js|].
  destruct js as [|j js]; [done|]. destruct ros as [|ro ros]; [done|]. cbn [verify_queries]. unfold verify_query. rewrite Hq. assert (forall hs cs bs x, verify_folds hs cs [] bs ro j zero x = Some (Ok zero)) as E by (by intros [|? ?] [|? ?]).
  rewrite E. cbn [mbind option_bind]. rewrite bool_decide_true by done. apply IH.
Qed.
End Protocol.
