(* ===== verification/FriPcs.v ===== *)
(** * The polynomial commitment scheme (crates/p3-fri/src/two_adic_pcs.rs)

    Matrices of polynomial evaluations are committed on a larger coset; an opening
    gives the values at points outside it and proves with FRI that the quotients
    by [X - z] are polynomials.  [open] takes whole prover data,
    [open_sequential_cached] and [open_sequential_cached_split] give the leaves
    back one round at a time.  The base field, its extension, packed values, the
    transform and the input commitment scheme are those of plonky3: classes. *)

From Stdlib Require Import Lia Bool PeanoNat Field.
From stdpp Require Import base list.
From S2P Require Import Prelude MerkleTree Fri.

(** ** The fields *)

(** [Challenge] over [Val]: [D] coordinates. *)
Class ExtensionField (Val Challenge : Type) `{TwoAdicField Val} `{TwoAdicField Challenge} : Type := {
  generator : Val;
  from_base : Val -> Challenge;
  D : nat;
  as_base_slice : Challenge -> list Val;
  from_base_fn : (nat -> Val) -> Challenge;
  from_canonical_usize : nat -> Val;
  two_adic_coset_zerofier : nat -> Challenge -> Challenge -> Challenge;
  cyclic_subgroup_coset_known_order : Val -> Val -> nat -> list Val;
  batch_multiplicative_inverse : list Challenge -> option (list Challenge);
  columnwise_dot_product : Matrix Val -> list Challenge -> list Challenge
}.

(** [F::Packing]: [PWIDTH] elements with operations on each. *)
Class PackedField (Val : Type) : Type := {
  Packing : Type;
  PWIDTH : nat;
  pack_slice : list Val -> list Packing;
  pack_slice_with_suffix : list Val -> list Packing * list Val;
  as_slice : Packing -> list Val;
  packed_zero : Packing; packed_add : Packing -> Packing -> Packing; packed_mul : Packing -> Packing -> Packing
}.

(** [Iterator::sum]. *)
Definition sum {F} `{TwoAdicField F} (l : list F) : F := fold_left add l zero.

(** ** The reducer of rows *)

Module PowersReducer.
Section Reducer.
  Context {Val Challenge : Type} `{ExtensionField Val Challenge} `{PackedField Val}.

Record PowersReducer : Type := mkPowersReducer { powers : list Challenge; transposed_packed : list (list Packing) }.

(** [None]: the first vector is missing or a later one is shorter. *)
Definition transpose_vec {T} (v : list (list T)) : option (list (list T)) :=
  first ← head v;
  mapM (fun i => mapM (fun n => n !! i) v) (seq 0 (length first)).

Definition next_multiple_of (n m : nat) : nat := (n + (m - 1)) / m * m.

Definition new (base : Challenge) (max_width : nat) : option PowersReducer :=
  let powers := shifted_powers base one (next_multiple_of max_width PWIDTH) in
  transposed_packed ← transpose_vec (map (fun d => pack_slice (map (fun a => nth d (as_base_slice a) zero) powers)) (seq 0 D));
  Some (mkPowersReducer powers transposed_packed).

Definition reduce_ext (self : PowersReducer) (xs : list Challenge) : Challenge :=
  sum (zip_with (fun pow x => mul pow x) (powers self) xs).

(** One step of the packed loop. *)
Definition add_products (sums : list Packing) (x : Packing) (pows : list Packing) : list Packing :=
  imap (fun d s => packed_add s (packed_mul x (nth d pows packed_zero))) sums.

(** [None]: more packed elements than powers. *)
Definition reduce_base (self : PowersReducer) (xs : list Val) : option Challenge :=
  let '(xs_packed, xs_sfx) := pack_slice_with_suffix xs in
  let sums := fold_left (fun sums '(x, pows) => add_products sums x pows) (zip xs_packed (transposed_packed self)) (replicate D packed_zero) in
  let packed_sum := from_base_fn (fun d => sum (as_slice (nth d sums packed_zero))) in
  if length (powers self) <? length xs_packed * PWIDTH then None
  else
    let sfx_sum := sum (zip_with (fun x pow => mul pow (from_base x)) xs_sfx (drop (length xs_packed * PWIDTH) (powers self))) in
    Some (add packed_sum sfx_sum).
End Reducer.
Arguments PowersReducer Val Challenge {_}.
End PowersReducer.

(** ** The input commitment scheme *)

(** [Mmcs] with several matrices, and the [LeafManageable] prover data. *)
Class InputMmcs (Val : Type) : Type := {
  ICommitment : Type; IProverData : Type; IProof : Type; IError : Type;
  icommit : list (Matrix Val) -> option (ICommitment * IProverData);
  iopen_batch : nat -> IProverData -> option (list (list Val) * IProof);
  iverify_batch : ICommitment -> list Dimensions -> nat -> list (list Val) -> IProof -> option (result IError unit);
  get_matrices : IProverData -> list (Matrix Val);
  get_max_height : IProverData -> nat;
  restore_leaves_rm : IProverData -> list (Matrix Val) -> IProverData;
  take_leaves_rm : IProverData -> list (Matrix Val) * IProverData
}.

Module TwoAdicFriPcs.
Import PowersReducer.
Section Pcs.
  Context {Val Challenge : Type} `{ExtensionField Val Challenge} `{PackedField Val} `{EqDecision Challenge} `{EqDecision Val} `{BitUtil}.
  Context `{InputMmcs Val} `{Mmcs Challenge} `{!FriChallenger Challenge}.

(** [TwoAdicMultiplicativeCoset]. *)
Record Domain : Type := mkDomain { log_n : nat; shift : Val }.
Definition size (domain : Domain) : nat := 2 ^ log_n domain.

(** The transform is a parameter of [commit]. *)
Record TwoAdicFriPcs : Type := mkPcs { pcs_log_n : nat; fri : FriConfig }.

Record BatchOpening : Type := mkBatchOpening { opened_values : list (list Val); batch_opening_proof : IProof }.
Record TwoAdicFriPcsProof : Type := mkPcsProof { fri_proof : FriProof (F := Challenge); query_openings : list (list BatchOpening) }.

Inductive VerificationError : Type := InputMmcsError (e : IError) | PcsFriError (e : FriError (F := Challenge)).

Definition bit_reverse_rows (m : Matrix Val) : Matrix Val := mkMatrix (width m) (reverse_slice_index_bits (rows m)).

Definition natural_domain_for_degree (self : TwoAdicFriPcs) (degree : nat) : option Domain :=
  log_n ← log2_strict_usize degree;
  if log_n <=? pcs_log_n self then Some (mkDomain log_n one) else None.

Definition commit_input (self : TwoAdicFriPcs) (input : Domain * Matrix Val) : option (Matrix Val * nat * Val) :=
  let '(domain, evals) := input in
  if negb (size domain =? height evals) then None
  else
    log_n ← log2_strict_usize (size domain);
    if log_n <=? pcs_log_n self then Some (evals, log_blowup (fri self), div generator (shift domain)) else None.

Definition commit (coset_lde_batch_multi : list (Matrix Val * nat * Val) -> list (Matrix Val)) (self : TwoAdicFriPcs) (evaluations : list (Domain * Matrix Val))
    : option (ICommitment * IProverData) :=
  inputs ← mapM (commit_input self) evaluations;
  icommit (map bit_reverse_rows (coset_lde_batch_multi inputs)).

Definition get_evaluations_on_domain (prover_data : IProverData) (idx : nat) (domain : Domain) : option (Matrix Val) :=
  if negb (bool_decide (shift domain = generator)) then None
  else
    lde ← get_matrices prover_data !! idx;
    if height lde <? size domain then None
    else Some (bit_reverse_rows (mkMatrix (width lde) (take (size domain) (rows lde)))).

Definition recompute_lde_owned (coset_lde_batch : Matrix Val -> nat -> Val -> Matrix Val) (self : TwoAdicFriPcs) (original_evals : list (Domain * Matrix Val)) : list (Matrix Val) :=
  map (fun '(domain, evals) => bit_reverse_rows (coset_lde_batch evals (log_blowup (fri self)) (div generator (shift domain)))) original_evals.

(** ** Inverse denominators *)

(** [LinearMap]: entries in the order of insertion. *)
Fixpoint get {A} (map : list (Challenge * A)) (z : Challenge) : option A :=
  match map with [] => None | (z', a) :: map => if decide (z = z') then Some a else get map z end.

(** The largest height of a point so far. *)
Fixpoint raise (map : list (Challenge * nat)) (z : Challenge) (log_height : nat) : list (Challenge * nat) :=
  match map with
  | [] => [(z, log_height)]
  | (z', lh) :: map => if decide (z = z') then (z', Nat.max lh log_height) :: map else (z', lh) :: raise map z log_height
  end.

Definition raise_points (map : list (Challenge * nat)) (height_and_points : nat * list Challenge) : option (list (Challenge * nat)) :=
  let '(height, points_for_mat) := height_and_points in
  log_height ← log2_strict_usize height;
  Some (fold_left (fun map z => raise map z log_height) points_for_mat map).

(** A loop that may panic. *)
Fixpoint foldM {A B} (f : A -> B -> option A) (a : A) (l : list B) : option A :=
  match l with [] => Some a | b :: l => a ← f a b; foldM f a l end.

Definition max_list (l : list nat) : option nat := match l with [] => None | _ => Some (list_max l) end.

(** Heights and points of the rounds ([izip!] ends with the shorter). *)
Definition compute_inverse_denominators_from_dims (dims_and_points : list (list Dimensions * list (list Challenge))) (coset_shift : Val)
    : option (list (Challenge * list Challenge)) :=
  max_log_height_for_point ← foldM raise_points [] (flat_map (fun '(dims, points) => zip (map dim_height dims) points) dims_and_points);
  max_log_height ← max_list (map snd max_log_height_for_point);
  let subgroup := reverse_slice_index_bits (cyclic_subgroup_coset_known_order (two_adic_generator max_log_height) coset_shift (2 ^ max_log_height)) in
  mapM (fun '(z, log_height) =>
    inv ← batch_multiplicative_inverse (map (fun x => sub (from_base x) z) (take (2 ^ log_height) subgroup));
    Some (z, inv)) max_log_height_for_point.

Definition compute_inverse_denominators (mats_and_points : list (list (Matrix Val) * list (list Challenge))) (coset_shift : Val)
    : option (list (Challenge * list Challenge)) :=
  compute_inverse_denominators_from_dims (map (fun '(mats, points) => (map dimensions mats, points)) mats_and_points) coset_shift.

(** ** Interpolation *)

Definition interpolate_coset_precomputed (coset_evals : Matrix Val) (shift : Val) (point : Challenge) (diff_invs : list Challenge) : option (list Challenge) :=
  let h := height coset_evals in
  log_height ← log2_strict_usize h;
  let g := two_adic_generator log_height in
  let col_scale := zip_with (fun sg diff_inv => mul diff_inv (from_base sg)) (shifted_powers g one (length diff_invs)) diff_invs in
  let sums := columnwise_dot_product coset_evals col_scale in
  let zerofier := two_adic_coset_zerofier log_height (from_base shift) point in
  let denominator := mul (from_canonical_usize h) (exp_u64 shift (h - 1)) in
  Some (map (mul (mul zerofier (from_base (inverse denominator)))) sums).

(** The values of a matrix at a point. *)
Definition open_at (log_blowup : nat) (inv_denoms : list (Challenge * list Challenge)) (mat : Matrix Val) (point : Challenge) : option (list Challenge) :=
  let h := height mat / 2 ^ log_blowup in
  log_h ← log2_strict_usize h;
  let low_coset := mkMatrix (width mat) (take h (rows mat)) in
  full_inv ← get inv_denoms point;
  diff_invs ← mapM (fun i => opp <$> full_inv !! reverse_bits_len i log_h) (seq 0 h);
  interpolate_coset_precomputed (bit_reverse_rows low_coset) generator point diff_invs.

Definition observe_all (ys : list Challenge) (challenger : Challenger) : Challenger := fold_left (fun c y => observe_ext_element y c) ys challenger.

(** ** Opening *)

(** The jobs of [open]: matrices are numbered along the zipped lists. *)
Fixpoint round_jobs (flat_idx : nat) (mats_points : list (Matrix Val * list Challenge)) : list (nat * Challenge) * nat :=
  match mats_points with
  | [] => ([], flat_idx)
  | (_, points_for_mat) :: mats_points =>
      let '(jobs, next) := round_jobs (S flat_idx) mats_points in
      (map (fun point => (flat_idx, point)) points_for_mat ++ jobs, next)
  end.

Fixpoint all_jobs (flat_idx : nat) (mats_and_points : list (list (Matrix Val) * list (list Challenge))) : list (nat * Challenge) :=
  match mats_and_points with
  | [] => []
  | (mats, points) :: rest => let '(jobs, next) := round_jobs flat_idx (zip mats points) in jobs ++ all_jobs next rest
  end.

Definition structure (mats_and_points : list (list (Matrix Val) * list (list Challenge))) : list (list nat) :=
  map (fun '(mats, points) => map (fun '(_, points_for_mat) => length points_for_mat) (zip mats points)) mats_and_points.

(** The results in the nested structure, observed in order. *)
Fixpoint collect_points (num_points : nat) (results : list (list Challenge)) (challenger : Challenger)
    : option (list (list Challenge) * list (list Challenge) * Challenger) :=
  match num_points, results with
  | O, _ => Some ([], results, challenger)
  | S n, ys :: results =>
      '(mat_opened, results, challenger) ← collect_points n results (observe_all ys challenger);
      Some (ys :: mat_opened, results, challenger)
  | S _, [] => None
  end.

Fixpoint collect_round (round_structure : list nat) (results : list (list Challenge)) (challenger : Challenger)
    : option (list (list (list Challenge)) * list (list Challenge) * Challenger) :=
  match round_structure with
  | [] => Some ([], results, challenger)
  | n :: round_structure =>
      '(mat_opened, results, challenger) ← collect_points n results challenger;
      '(round_opened, results, challenger) ← collect_round round_structure results challenger;
      Some (mat_opened :: round_opened, results, challenger)
  end.

Fixpoint collect (structure : list (list nat)) (results : list (list Challenge)) (challenger : Challenger)
    : option (list (list (list (list Challenge))) * Challenger) :=
  match structure with
  | [] => Some ([], challenger)
  | round_structure :: structure =>
      '(round_opened, results, challenger) ← collect_round round_structure results challenger;
      '(all_opened, challenger) ← collect structure results challenger;
      Some (round_opened :: all_opened, challenger)
  end.

(** [num_reduced] and [reduced_openings]. *)
Record Reduction : Type := mkReduction { num_reduced : list nat; reduced_openings : list (option (list Challenge)) }.
Definition no_reduction : Reduction := mkReduction (replicate 32 0) (replicate 32 None).

(** [zip_eq] of openings and rows, [zip] with the denominators. *)
Fixpoint reduce_rows (reducer : PowersReducer Val Challenge) (sum_y : Challenge) (reduced : list Challenge) (rows : list (list Val)) (scaled_inv_denoms : list Challenge)
    : option (list Challenge) :=
  match reduced, rows with
  | [], [] => Some []
  | r :: reduced, row :: rows =>
      match scaled_inv_denoms with
      | [] => cons r <$> reduce_rows reducer sum_y reduced rows []
      | scaled_inv :: scaled_inv_denoms =>
          row_sum ← reduce_base reducer row;
          cons (add r (mul scaled_inv (sub row_sum sum_y))) <$> reduce_rows reducer sum_y reduced rows scaled_inv_denoms
      end
  | _, _ => None
  end.

Definition reduce_point (alpha : Challenge) (reducer : PowersReducer Val Challenge) (inv_denoms : list (Challenge * list Challenge)) (mat : Matrix Val) (log_height : nat)
    (st : nat * list Challenge) (point_and_openings : Challenge * list Challenge) : option (nat * list Challenge) :=
  let '(num, reduced) := st in
  let '(point, openings) := point_and_openings in
  let alpha_pow_offset := exp_u64 alpha num in
  let sum_alpha_pows_times_y := reduce_ext reducer openings in
  raw_inv_denoms ← get inv_denoms point;
  if length raw_inv_denoms <? height mat then None
  else
    let scaled_inv_denoms := map (fun inv_denom => mul inv_denom alpha_pow_offset) (take (height mat) raw_inv_denoms) in
    reduced ← reduce_rows reducer sum_alpha_pows_times_y reduced (rows mat) scaled_inv_denoms;
    Some (num + width mat, reduced).

(** The matrix of one height; [None]: the height is not below [2 ^ 32]. *)
Definition reduce_mat (alpha : Challenge) (reducer : PowersReducer Val Challenge) (inv_denoms : list (Challenge * list Challenge)) (st : Reduction)
    (mat_points_openings : Matrix Val * list Challenge * list (list Challenge)) : option Reduction :=
  let '(mat, points_for_mat, openings_for_mat) := mat_points_openings in
  log_height ← log2_strict_usize (height mat);
  slot ← reduced_openings st !! log_height;
  num ← num_reduced st !! log_height;
  let reduced := default (replicate (height mat) zero) slot in
  '(num, reduced) ← foldM (reduce_point alpha reducer inv_denoms mat log_height) (num, reduced) (zip points_for_mat openings_for_mat);
  Some (mkReduction (<[log_height := num]> (num_reduced st)) (<[log_height := Some reduced]> (reduced_openings st))).

Definition reduce_round (alpha : Challenge) (reducer : PowersReducer Val Challenge) (inv_denoms : list (Challenge * list Challenge)) (st : Reduction)
    (round : list (Matrix Val) * list (list Challenge) * list (list (list Challenge))) : option Reduction :=
  let '(mats, points, openings_for_round) := round in
  foldM (reduce_mat alpha reducer inv_denoms) st (zip (zip mats points) openings_for_round).

(** [None]: taller than the tallest. *)
Definition bits_reduced (log_global_max_height : nat) (data : IProverData) : option nat :=
  log_max_height ← log2_strict_usize (get_max_height data);
  if log_global_max_height <? log_max_height then None else Some (log_global_max_height - log_max_height).

(** The batch of a round at a query. *)
Definition open_query (data : IProverData) (bits_reduced index : nat) : option BatchOpening :=
  let reduced_index := index / 2 ^ bits_reduced in
  '(opened_values, opening_proof) ← iopen_batch reduced_index data;
  Some (mkBatchOpening opened_values opening_proof).

Definition OpenedValues : Type := list (list (list (list Challenge))).
Definition Rounds : Type := list (IProverData * list (list Challenge)).

Definition open (self : TwoAdicFriPcs) (rounds : Rounds) (challenger : Challenger) : option (OpenedValues * TwoAdicFriPcsProof * Challenger) :=
  let mats_and_points := map (fun '(data, points) => (get_matrices data, points)) rounds in
  let mats := concat (map fst mats_and_points) in
  global_max_height ← max_list (map height mats);
  log_global_max_height ← log2_strict_usize global_max_height;
  inv_denoms ← compute_inverse_denominators mats_and_points generator;
  results ← mapM (fun '(mat_idx, point) => mat ← mats !! mat_idx; open_at (log_blowup (fri self)) inv_denoms mat point) (all_jobs 0 mats_and_points);
  '(all_opened_values, challenger) ← collect (structure mats_and_points) results challenger;
  let '(alpha, challenger) := sample_ext_element challenger in
  global_max_width ← max_list (map width mats);
  alpha_reducer ← new alpha global_max_width;
  reduction ← foldM (reduce_round alpha alpha_reducer inv_denoms) no_reduction (zip mats_and_points all_opened_values);
  '(fri_proof, query_indices, challenger) ← prove (fri self) (reduced_openings reduction) challenger;
  query_openings ← mapM (fun index => mapM (fun '(data, _) => bits ← bits_reduced log_global_max_height data; open_query data bits index) rounds) query_indices;
  Some (all_opened_values, mkPcsProof fri_proof query_openings, challenger).

(** ** Opening round by round *)

(** A round with the leaves that were taken from it. *)
Definition SavedRounds : Type := list (IProverData * list (list Challenge) * option (list (Matrix Val))).

Definition restore_round (data : IProverData) (saved : option (list (Matrix Val))) : IProverData :=
  match saved with Some ldes => restore_leaves_rm data ldes | None => data end.
(** The leaves are taken back if they were restored. *)
Definition release_round (data : IProverData) (saved : option (list (Matrix Val))) : IProverData * option (list (Matrix Val)) :=
  match saved with Some _ => let '(ldes, data) := take_leaves_rm data in (data, Some ldes) | None => (data, None) end.

(** Phase 0: dimensions. *)
Fixpoint read_dims (rounds : SavedRounds) : list (list Dimensions) * SavedRounds :=
  match rounds with
  | [] => ([], [])
  | (data, points, saved) :: rounds =>
      let data := restore_round data saved in
      let dims := map dimensions (get_matrices data) in
      let '(data, saved) := release_round data saved in
      let '(round_dims, rounds) := read_dims rounds in
      (dims :: round_dims, (data, points, saved) :: rounds)
  end.

(** The values of one round. *)
Definition open_round (log_blowup : nat) (inv_denoms : list (Challenge * list Challenge)) (mats : list (Matrix Val)) (points : list (list Challenge))
    : option (list (list (list Challenge))) :=
  mapM (fun '(mat, points_for_mat) => mapM (open_at log_blowup inv_denoms mat) points_for_mat) (zip mats points).

Definition observe_round (values : list (list (list Challenge))) (challenger : Challenger) : Challenger :=
  fold_left (fun c mat_values => fold_left (fun c ys => observe_all ys c) mat_values c) values challenger.

(** Phase 1: interpolation. *)
Fixpoint open_rounds (log_blowup : nat) (inv_denoms : list (Challenge * list Challenge)) (rounds : SavedRounds) (challenger : Challenger)
    : option (OpenedValues * SavedRounds * Challenger) :=
  match rounds with
  | [] => Some ([], [], challenger)
  | (data, points, saved) :: rounds =>
      let data := restore_round data saved in
      round_opened_values ← open_round log_blowup inv_denoms (get_matrices data) points;
      let challenger := observe_round round_opened_values challenger in
      let '(data, saved) := release_round data saved in
      '(all_opened_values, rounds, challenger) ← open_rounds log_blowup inv_denoms rounds challenger;
      Some (round_opened_values :: all_opened_values, (data, points, saved) :: rounds, challenger)
  end.

(** Phase 2: reduction; the leaves stay ([None]: no opened values for a round). *)
Fixpoint reduce_rounds (alpha : Challenge) (reducer : PowersReducer Val Challenge) (inv_denoms : list (Challenge * list Challenge)) (st : Reduction) (rounds : SavedRounds)
    (all_opened_values : OpenedValues) : option (Reduction * Rounds) :=
  match rounds with
  | [] => Some (st, [])
  | (data, points, saved) :: rounds =>
      let data := restore_round data saved in
      match all_opened_values with
      | [] => None
      | values :: all_opened_values =>
          st ← reduce_round alpha reducer inv_denoms st (get_matrices data, points, values);
          '(st, rounds) ← reduce_rounds alpha reducer inv_denoms st rounds all_opened_values;
          Some (st, (data, points) :: rounds)
      end
  end.

(** Phase 3: every round adds its batch to every query. *)
Definition query_round (log_global_max_height : nat) (query_indices : list nat) (all_query_openings : list (list BatchOpening)) (round : IProverData * list (list Challenge))
    : option (list (list BatchOpening)) :=
  bits ← bits_reduced log_global_max_height round.1;
  batches ← mapM (open_query round.1 bits) query_indices;
  Some (zip_with (fun openings batch => openings ++ [batch]) all_query_openings batches).

Definition open_sequential_cached (self : TwoAdicFriPcs) (rounds : Rounds) (saved_ldes : list (option (list (Matrix Val)))) (challenger : Challenger)
    : option (OpenedValues * TwoAdicFriPcsProof * Rounds * Challenger) :=
  if negb (length rounds =? length saved_ldes) then None
  else
    let '(round_dims, rounds) := read_dims (zip_with (fun '(data, points) saved => (data, points, saved)) rounds saved_ldes) in
    let global_max_height := list_max (map dim_height (concat round_dims)) in
    let global_max_width := list_max (map dim_width (concat round_dims)) in
    log_global_max_height ← log2_strict_usize global_max_height;
    inv_denoms ← compute_inverse_denominators_from_dims (zip round_dims (map (fun '(_, points, _) => points) rounds)) generator;
    '(all_opened_values, rounds, challenger) ← open_rounds (log_blowup (fri self)) inv_denoms rounds challenger;
    let '(alpha, challenger) := sample_ext_element challenger in
    alpha_reducer ← new alpha global_max_width;
    '(reduction, rounds) ← reduce_rounds alpha alpha_reducer inv_denoms no_reduction rounds all_opened_values;
    '(fri_proof, query_indices, challenger) ← prove (fri self) (reduced_openings reduction) challenger;
    all_query_openings ← foldM (query_round log_global_max_height query_indices) (replicate (length query_indices) []) rounds;
    Some (all_opened_values, mkPcsProof fri_proof all_query_openings, rounds, challenger).

(** The same with a first round that is only read. *)
Definition open_sequential_cached_split (self : TwoAdicFriPcs) (preprocessed_data : IProverData) (preprocessed_points : list (list Challenge)) (rounds : Rounds)
    (saved_ldes : list (option (list (Matrix Val)))) (challenger : Challenger) : option (OpenedValues * TwoAdicFriPcsProof * Rounds * Challenger) :=
  if negb (length rounds =? length saved_ldes) then None
  else
    let prep_mats := get_matrices preprocessed_data in
    let prep_dims := map dimensions prep_mats in
    let '(round_dims, rounds) := read_dims (zip_with (fun '(data, points) saved => (data, points, saved)) rounds saved_ldes) in
    let round_dims := prep_dims :: round_dims in
    let global_max_height := list_max (map dim_height (concat round_dims)) in
    let global_max_width := list_max (map dim_width (concat round_dims)) in
    log_global_max_height ← log2_strict_usize global_max_height;
    inv_denoms ← compute_inverse_denominators_from_dims (zip round_dims (preprocessed_points :: map (fun '(_, points, _) => points) rounds)) generator;
    prep_opened_values ← open_round (log_blowup (fri self)) inv_denoms prep_mats preprocessed_points;
    let challenger := observe_round prep_opened_values challenger in
    '(round_opened_values, rounds, challenger) ← open_rounds (log_blowup (fri self)) inv_denoms rounds challenger;
    let '(alpha, challenger) := sample_ext_element challenger in
    alpha_reducer ← new alpha global_max_width;
    reduction ← reduce_round alpha alpha_reducer inv_denoms no_reduction (prep_mats, preprocessed_points, prep_opened_values);
    '(reduction, rounds) ← reduce_rounds alpha alpha_reducer inv_denoms reduction rounds round_opened_values;
    '(fri_proof, query_indices, challenger) ← prove (fri self) (reduced_openings reduction) challenger;
    all_query_openings ← query_round log_global_max_height query_indices (replicate (length query_indices) []) (preprocessed_data, preprocessed_points);
    all_query_openings ← foldM (query_round log_global_max_height query_indices) all_query_openings rounds;
    Some (prep_opened_values :: round_opened_values, mkPcsProof fri_proof all_query_openings, rounds, challenger).

(** ** Verification *)

(** A matrix of a round: its domain, and the values at its points. *)
Definition MatClaim : Type := Domain * list (Challenge * list Challenge).

Definition observe_claims (rounds : list (ICommitment * list MatClaim)) (challenger : Challenger) : Challenger :=
  fold_left (fun c (round : ICommitment * list MatClaim) => fold_left (fun c (mat : MatClaim) => fold_left (fun c '(_, ys) => observe_all ys c) mat.2 c) round.2 c) rounds challenger.

(** One claimed value; [None]: the division is by zero, or the height is not below 32. *)
Definition add_quotient (alpha x z : Challenge) (log_height : nat) (st : list Challenge * list Challenge) (values : Val * Challenge) : option (list Challenge * list Challenge) :=
  let '(ro, alpha_pow) := st in
  let '(p_at_x, p_at_z) := values in
  if decide (add (opp z) x = zero) then None
  else
    let quotient := div (add (opp p_at_z) (from_base p_at_x)) (add (opp z) x) in
    r ← ro !! log_height;
    a ← alpha_pow !! log_height;
    Some (<[log_height := add r (mul a quotient)]> ro, <[log_height := mul a alpha]> alpha_pow).

(** The claimed values of one point. *)
Definition add_point (alpha x : Challenge) (log_height : nat) (mat_opening : list Val) (st : list Challenge * list Challenge) (point_and_values : Challenge * list Challenge)
    : option (list Challenge * list Challenge) :=
  let '(z, ps_at_z) := point_and_values in
  foldM (add_quotient alpha x z log_height) st (zip mat_opening ps_at_z).

(** The claims of one matrix; [None]: taller than the tallest, or a panic at one of its values. *)
Definition verify_mat (log_blowup log_global_max_height index : nat) (alpha : Challenge) (st : list Challenge * list Challenge) (opening_and_claim : list Val * MatClaim)
    : option (list Challenge * list Challenge) :=
  let '(mat_opening, (mat_domain, mat_points_and_values)) := opening_and_claim in
  log_size ← log2_strict_usize (size mat_domain);
  let log_height := log_size + log_blowup in
  if log_global_max_height <? log_height then None
  else
    let bits_reduced := log_global_max_height - log_height in
    let rev_reduced_index := reverse_bits_len (index / 2 ^ bits_reduced) log_height in
    let x := mul generator (exp_u64 (two_adic_generator log_height) rev_reduced_index) in
    foldM (add_point alpha (from_base x) log_height mat_opening) st mat_points_and_values.

(** One batch of a query; the inner [None] is a panic. *)
Definition verify_opening (log_blowup log_global_max_height index : nat) (alpha : Challenge) (st : list Challenge * list Challenge) (batch : BatchOpening * (ICommitment * list MatClaim))
    : option (result IError (list Challenge * list Challenge)) :=
  let '(batch_opening, (batch_commit, mats)) := batch in
  let batch_heights := map (fun mat : MatClaim => size mat.1 * 2 ^ log_blowup) mats in
  let batch_dims := map (mkDimensions 0) batch_heights in
  batch_max_height ← max_list batch_heights;
  log_batch_max_height ← log2_strict_usize batch_max_height;
  if log_global_max_height <? log_batch_max_height then None
  else
    let bits_reduced := log_global_max_height - log_batch_max_height in
    let reduced_index := index / 2 ^ bits_reduced in
    verified ← iverify_batch batch_commit batch_dims reduced_index (opened_values batch_opening) (batch_opening_proof batch_opening);
    match verified with
    | Err e => Some (Err e)
    | Ok _ => Ok <$> foldM (verify_mat log_blowup log_global_max_height index alpha) st (zip (opened_values batch_opening) mats)
    end.

Fixpoint verify_openings (log_blowup log_global_max_height index : nat) (alpha : Challenge) (st : list Challenge * list Challenge) (batches : list (BatchOpening * (ICommitment * list MatClaim)))
    : option (result IError (list Challenge)) :=
  match batches with
  | [] => Some (Ok st.1)
  | batch :: batches =>
      verified ← verify_opening log_blowup log_global_max_height index alpha st batch;
      match verified with Err e => Some (Err e) | Ok st => verify_openings log_blowup log_global_max_height index alpha st batches end
  end.

Definition no_openings : list Challenge * list Challenge := (replicate 32 zero, replicate 32 one).

(** The reduced openings of every query, up to the first error. *)
Fixpoint reduce_queries (log_blowup log_global_max_height : nat) (alpha : Challenge) (rounds : list (ICommitment * list MatClaim)) (queries : list (list BatchOpening * nat))
    : option (result IError (list (list Challenge))) :=
  match queries with
  | [] => Some (Ok [])
  | (query_opening, index) :: queries =>
      ro ← verify_openings log_blowup log_global_max_height index alpha no_openings (zip query_opening rounds);
      match ro with
      | Err e => Some (Err e)
      | Ok ro =>
          rest ← reduce_queries log_blowup log_global_max_height alpha rounds queries;
          Some (match rest with Err e => Err e | Ok ros => Ok (ro :: ros) end)
      end
  end.

(** [sample] is the challenger's [CanSample<Challenge>]. *)
Definition verify (sample : Challenger -> Challenge * Challenger) (self : TwoAdicFriPcs) (rounds : list (ICommitment * list MatClaim)) (proof : TwoAdicFriPcsProof) (challenger : Challenger)
    : option (result VerificationError unit) * Challenger :=
  let challenger := observe_claims rounds challenger in
  let '(alpha, challenger) := sample challenger in
  let '(fri_challenges, challenger) := verify_shape_and_sample_challenges (fri self) (fri_proof proof) challenger in
  match fri_challenges with
  | Err e => (Some (Err (PcsFriError e)), challenger)
  | Ok fri_challenges =>
      let log_global_max_height := length (commit_phase_commits (fri_proof proof)) + log_blowup (fri self) in
      match reduce_queries (log_blowup (fri self)) log_global_max_height alpha rounds (zip (query_openings proof) (query_indices fri_challenges)) with
      | None => (None, challenger)
      | Some (Err e) => (Some (Err (InputMmcsError e)), challenger)
      | Some (Ok reduced_openings) =>
          match verify_challenges (fri self) (fri_proof proof) fri_challenges reduced_openings with
          | None => (None, challenger)
          | Some (Err e) => (Some (Err (PcsFriError e)), challenger)
          | Some (Ok _) => (Some (Ok tt), challenger)
          end
      end
  end.

(** ** Proofs without query openings *)

(** C40. The verifier does not count the query openings: a proof whose FRI part has the
    right number of query proofs and passes the proof of work, and that has no query
    openings at all, is accepted for every commitment and every claimed value. *)
Theorem missing_query_openings_accepted sample self (rounds : list (ICommitment * list MatClaim)) proof challenger alpha challenger1 challenges challenger2 :
  query_openings proof = [] -> sample (observe_claims rounds challenger) = (alpha, challenger1) ->
  verify_shape_and_sample_challenges (fri self) (fri_proof proof) challenger1 = (Ok challenges, challenger2) ->
  verify sample self rounds proof challenger = (Some (Ok tt), challenger2).
Proof using.
  intros Hq Hs Hv. unfold verify. rewrite Hs, Hv, Hq. cbn [zip zip_with reduce_queries]. unfold verify_challenges. by destruct (query_indices challenges), (query_proofs (fri_proof proof)).
Qed.
End Pcs.
Arguments Rounds Val Challenge {_}. Arguments SavedRounds Val Challenge {_}. Arguments OpenedValues Challenge : clear implicits.
Arguments MatClaim Val Challenge : clear implicits. Arguments Domain Val : clear implicits. Arguments Reduction Challenge : clear implicits.
Arguments TwoAdicFriPcsProof Val Challenge {_ _ _}. Arguments VerificationError Val Challenge {_ _}. Arguments BatchOpening Val {_}.
End TwoAdicFriPcs.
