(* ===== verification/FriSequential.v ===== *)
(** * Opening round by round is opening at once

    [open_sequential_cached] and [open_sequential_cached_split] compute the values,
    the proof and the challenger state of [open] on prover data with all their
    leaves. *)

From Stdlib Require Import Lia Bool PeanoNat.
From stdpp Require Import base list.
From S2P Require Import Prelude MerkleTree Fri FriPcs.

(** ** Lists in the option monad *)

Lemma obind_assoc {A B C} (x : option A) (f : A -> option B) (g : B -> option C) : ((x ≫= f) ≫= g) = (x ≫= fun a => f a ≫= g).
Proof. by destruct x. Qed.

Lemma mapM_app {A B} (f : A -> option B) l l' : mapM f (l ++ l') = (x ← mapM f l; y ← mapM f l'; Some (x ++ y)).
Proof.
  induction l as [|a l IH]; [cbn; by destruct (mapM f l')|]. cbn [app mapM]. rewrite IH. destruct (f a); [|done]. cbn [mbind option_bind]. destruct (mapM f l); [|done]. cbn [mbind option_bind]. by destruct (mapM f l').
Qed.

Lemma mapM_map {A B C} (f : B -> option C) (g : A -> B) l : mapM f (map g l) = mapM (fun a => f (g a)) l.
Proof. induction l as [|a l IH]; [done|]. cbn [map mapM]. by rewrite IH. Qed.

Lemma mapM_ext_in {A B} (f g : A -> option B) l : (forall a, a ∈ l -> f a = g a) -> mapM f l = mapM g l.
Proof.
  induction l as [|a l IH]; intros Hf; [done|]. cbn [mapM]. rewrite (Hf a (list_elem_of_here _ _)), IH; [done|]. intros b Hb. apply Hf. by right.
Qed.

Lemma mapM_len {A B} (f : A -> option B) l l' : mapM f l = Some l' -> length l' = length l.
Proof. intros Hm. apply mapM_Some, Forall2_length in Hm. done. Qed.

(** A constant effect before every element happens once. *)
Lemma mapM_hoist {A B C} (e : option C) (f : C -> A -> option B) l : l <> [] -> mapM (fun a => c ← e; f c a) l = (c ← e; mapM (f c) l).
Proof.
  intros Hl. destruct e as [c|]; [done|]. destruct l as [|a l]; [done|]. done.
Qed.

(** Two effects per element. *)
Lemma mapM_cons2 {A B} (g : A -> option B) (h : A -> option (list B)) l :
  mapM (fun a => b ← g a; bs ← h a; Some (b :: bs)) l = (bs ← mapM g l; xs ← mapM h l; Some (zip_with cons bs xs)).
Proof.
  induction l as [|a l IH]; [done|]. cbn [mapM]. rewrite IH. destruct (g a) as [b|]; cbn [mbind option_bind]; [|by destruct (mapM g l)].
  destruct (mapM g l) as [bs|]; cbn [mbind option_bind]; [|by destruct (h a)]. destruct (h a) as [x|]; cbn [mbind option_bind]; [|done]. by destruct (mapM h l).
Qed.

Lemma foldM_app {A B} (f : A -> B -> option A) a l l' : TwoAdicFriPcs.foldM f a (l ++ l') = (a ← TwoAdicFriPcs.foldM f a l; TwoAdicFriPcs.foldM f a l').
Proof. revert a. induction l as [|b l IH]; intros a; [done|]. cbn [app TwoAdicFriPcs.foldM]. destruct (f a b) as [a'|]; [|done]. cbn [mbind option_bind]. apply IH. Qed.

(** Prover data from which leaves can be taken and given back. *)
Class LawfulLeaves (Val : Type) `{InputMmcs Val} : Prop := {
  get_restored data ldes : get_matrices (restore_leaves_rm data ldes) = ldes;
  take_restored data ldes : exists data', take_leaves_rm (restore_leaves_rm data ldes) = (ldes, data') /\ restore_leaves_rm data' ldes = restore_leaves_rm data ldes
}.

Section Sequential.
  Context {Val Challenge : Type} `{EF : ExtensionField Val Challenge} `{PK : PackedField Val} `{EC : EqDecision Challenge} `{EV : EqDecision Val} `{LB : LawfulBitUtil}.
  Context `{LL : LawfulLeaves Val} `{MM : Mmcs Challenge} `{FC : !FriChallenger Challenge}.
Import TwoAdicFriPcs.

(** ** Leaves *)

Definition restored (rounds : SavedRounds Val Challenge) : Rounds Val Challenge := map (fun '(data, points, saved) => (restore_round data saved, points)) rounds.

Lemma release_restored data saved : (fun r => restore_round r.1 r.2) (release_round (restore_round data saved) saved) = restore_round data saved.
Proof using LL.
  destruct saved as [ldes|]; [|done]. cbn [restore_round release_round]. destruct (take_restored data ldes) as (data' & -> & E). exact E.
Qed.

Definition mats_of (rounds : Rounds Val Challenge) : list (list (Matrix Val) * list (list Challenge)) := map (fun '(data, points) => (get_matrices data, points)) rounds.

Lemma read_dims_eq rounds : (read_dims rounds).1 = map (fun r => map dimensions (get_matrices r.1)) (restored rounds) /\ restored (read_dims rounds).2 = restored rounds.
Proof using LL.
  induction rounds as [|[[data points] saved] rounds [IH1 IH2]]; [done|]. cbn [read_dims restored map]. pose proof (release_restored data saved) as Er.
  destruct (release_round (restore_round data saved) saved) as [data' saved'] eqn:E. cbn in Er. destruct (read_dims rounds) as [dims rounds'] eqn:E'. unfold restored in *. cbn [fst snd map] in *. split; [by rewrite IH1|by rewrite IH2, Er].
Qed.

(** ** Values *)

Lemma open_rounds_eq lb inv rounds ch : 
  (x ← open_rounds lb inv rounds ch; Some (x.1.1, restored x.1.2, x.2)) =
  (values ← mapM (fun '(mats, points) => open_round lb inv mats points) (mats_of (restored rounds)); Some (values, restored rounds, fold_left (fun c v => observe_round v c) values ch)).
Proof using LL.
  revert ch. induction rounds as [|[[data points] saved] rounds IH]; intros ch; [done|]. cbn [open_rounds restored mats_of map mapM]. pose proof (release_restored data saved) as Er.
  destruct (open_round lb inv (get_matrices (restore_round data saved)) points) as [v|]; [|done]. cbn [mbind option_bind]. destruct (release_round (restore_round data saved) saved) as [data' saved']. cbn in Er.
  specialize (IH (observe_round v ch)). unfold mats_of, restored in *. rewrite obind_assoc. 
  destruct (open_rounds lb inv rounds (observe_round v ch)) as [[[vs rs] c]|]; cbn [mbind option_bind fst snd] in *; destruct (mapM _ _) as [vs'|]; try discriminate IH; [|done].
  cbn [mbind option_bind] in IH. injection IH as E1 E2 E3. cbn [mbind option_bind fst snd map mret option_ret fold_left]. by rewrite Er, E1, E2, E3.
Qed.

(** The numbered jobs are the nested loops. *)
Lemma round_jobs_eq lb (inv : list (Challenge * list Challenge)) (pre post : list (Matrix Val)) mats (points : list (list Challenge)) : length mats = length points ->
  mapM (fun '(mat_idx, point) => mat ← (pre ++ mats ++ post) !! mat_idx; open_at lb inv mat point) (round_jobs (length pre) (zip mats points)).1 = (@concat (list Challenge) <$> open_round lb inv mats points) /\
  (round_jobs (length pre) (zip mats points)).2 = length pre + length mats.
Proof using.
  revert pre points. induction mats as [|mat mats IH]; intros pre [|pts points] Hl; [by rewrite Nat.add_0_r|done..|]. injection Hl as Hl. unfold open_round. cbn [zip zip_with round_jobs mapM].
  destruct (IH (pre ++ [mat]) points Hl) as [IH1 IH2]. rewrite length_app in IH1, IH2. cbn [length] in IH1, IH2. rewrite Nat.add_1_r, <- app_assoc in IH1. rewrite Nat.add_1_r in IH2. cbn [app] in IH1.
  destruct (round_jobs (S (length pre)) (zip mats points)) as [jobs next]. cbn [fst snd] in *. split; [|cbn [length]; lia].
  change ((mat :: mats) ++ post) with (mat :: mats ++ post). rewrite mapM_app, mapM_map, IH1. rewrite (mapM_ext_in _ (open_at lb inv mat)).
  2:{ intros point _. by rewrite lookup_app_r, Nat.sub_diag by done. }
  fold (open_round lb inv mats points). destruct (mapM (open_at lb inv mat) pts) as [vs|]; [|done]. cbn [mbind option_bind]. by destruct (open_round lb inv mats points).
Qed.

Lemma all_jobs_eq lb (inv : list (Challenge * list Challenge)) rounds : Forall (fun r : list (Matrix Val) * list (list Challenge) => length r.1 = length r.2) rounds ->
  mapM (fun '(mat_idx, point) => mat ← concat (map fst rounds) !! mat_idx; open_at lb inv mat point) (all_jobs 0 rounds) =
  (values ← mapM (fun '(mats, points) => open_round lb inv mats points) rounds; Some (concat (map (@concat _) values))).
Proof using.
  intros Hf. assert (forall pre, mapM (fun '(mat_idx, point) => mat ← (pre ++ concat (map fst rounds)) !! mat_idx; open_at lb inv mat point) (all_jobs (length pre) rounds) =
    (values ← mapM (fun '(mats, points) => open_round lb inv mats points) rounds; Some (concat (map (@concat _) values)))) as Hpre; [|exact (Hpre [])].
  induction Hf as [|[mats points] rounds Hl Hf IH]; intros pre; [done|]. cbn [map concat all_jobs mapM fst]. cbn [fst snd] in Hl.
  destruct (round_jobs_eq lb inv pre (concat (map fst rounds)) mats points Hl) as [E1 E2]. destruct (round_jobs (length pre) (zip mats points)) as [jobs next]. cbn [fst snd] in *.
  rewrite mapM_app, E1, E2. specialize (IH (pre ++ mats)). rewrite length_app, <- app_assoc in IH. rewrite IH. destruct (open_round lb inv mats points) as [v|]; [|done]. cbn [mbind option_bind fmap option_fmap option_map].
  by destruct (mapM _ rounds) as [vs|].
Qed.

Lemma collect_points_eq (vs : list (list Challenge)) : forall rest ch, collect_points (length vs) (vs ++ rest) ch = Some (vs, rest, fold_left (fun c ys => observe_all ys c) vs ch).
Proof using. induction vs as [|v vs IH]; intros rest ch; [done|]. cbn [length app collect_points fold_left]. by rewrite IH. Qed.

Lemma collect_round_eq (values : list (list (list Challenge))) : forall rest ch, collect_round (map length values) (concat values ++ rest) ch = Some (values, rest, observe_round values ch).
Proof using.
  induction values as [|vs values IH]; intros rest ch; [done|]. cbn [map concat collect_round]. rewrite <- app_assoc, collect_points_eq. cbn [mbind option_bind]. rewrite IH. done.
Qed.

Lemma collect_eq (values : OpenedValues Challenge) : forall ch, collect (map (map length) values) (concat (map (@concat _) values)) ch = Some (values, fold_left (fun c v => observe_round v c) values ch).
Proof using.
  induction values as [|v values IH]; intros ch; [done|]. cbn [map concat collect]. rewrite collect_round_eq. cbn [mbind option_bind]. rewrite IH. done.
Qed.

Lemma structure_eq lb (inv : list (Challenge * list Challenge)) rounds values : mapM (fun '(mats, points) => open_round lb inv mats points) rounds = Some values -> structure rounds = map (map length) values.
Proof using.
  revert values. induction rounds as [|[mats points] rounds IH]; intros values Hm; [cbn in Hm; by injection Hm as <-|]. cbn [mapM] in Hm. destruct (open_round lb inv mats points) as [v|] eqn:Ev; [|discriminate Hm]. cbn [mbind option_bind] in Hm.
  destruct (mapM _ rounds) as [vs|] eqn:Es; [|discriminate Hm]. injection Hm as <-. cbn [structure map]. f_equal; [|by apply IH]. clear -Ev. unfold open_round in Ev. revert v Ev.
  induction (zip mats points) as [|[m pts] l IH]; intros v Ev; [cbn in Ev; by injection Ev as <-|]. cbn [mapM] in Ev. destruct (mapM (open_at lb inv m) pts) as [x|] eqn:Ex; [|discriminate Ev]. cbn [mbind option_bind] in Ev.
  destruct (mapM _ l) as [xs|]; [|discriminate Ev]. injection Ev as <-. cbn [map]. rewrite (mapM_len _ _ _ Ex). f_equal. by apply IH.
Qed.

(** ** Reduction and queries *)

Lemma reduce_rounds_eq alpha reducer inv rounds : forall st values, length values = length rounds ->
  reduce_rounds alpha reducer inv st rounds values = (st ← foldM (reduce_round alpha reducer inv) st (zip (mats_of (restored rounds)) values); Some (st, restored rounds)).
Proof using.
  induction rounds as [|[[data points] saved] rounds IH]; intros st [|v values] Hl; try done. injection Hl as Hl. cbn [reduce_rounds restored mats_of map zip zip_with foldM].
  destruct (reduce_round _ _ _ _ _) as [st'|]; [|done]. cbn [mbind option_bind]. rewrite (IH st' values Hl). unfold mats_of, restored. destruct (foldM _ _ _) as [st''|]; done.
Qed.

Lemma zip_with_snoc {A} (acc : list (list A)) : forall bs xs, zip_with app (zip_with (fun l b => l ++ [b]) acc bs) xs = zip_with app acc (zip_with cons bs xs).
Proof using. clear. induction acc as [|l acc IH]; intros [|b bs] [|x xs]; try done. cbn [zip_with]. rewrite IH. f_equal. by rewrite <- app_assoc. Qed.

Lemma query_rounds_eq L indices : indices <> [] -> forall (rounds : Rounds Val Challenge) acc, length acc = length indices ->
  foldM (query_round L indices) acc rounds =
  (x ← mapM (fun index => mapM (fun '(data, _) => bits ← bits_reduced L data; open_query data bits index) rounds) indices; Some (zip_with app acc x)).
Proof using.
  intros Hne. induction rounds as [|[data points] rounds IH]; intros acc Hl.
  { cbn [foldM]. assert (mapM (fun index => mapM (fun '(data, _) => bits ← bits_reduced L data; open_query data bits index) ([] : Rounds Val Challenge)) indices = Some (replicate (length indices) [])) as ->.
    { clear. induction indices as [|i indices IH]; [done|]. cbn [mapM] in *. by rewrite IH. }
    cbn [mbind option_bind]. rewrite <- Hl. f_equal. clear. induction acc as [|l acc IH]; [done|]. cbn [length replicate zip_with]. by rewrite app_nil_r, <- IH. }
  cbn [foldM]. assert (query_round L indices acc (data, points) =
    (bits ← bits_reduced L data; batches ← mapM (open_query data bits) indices; Some (zip_with (fun openings batch => openings ++ [batch]) acc batches))) as -> by done. rewrite obind_assoc.
  assert (mapM (fun index => mapM (fun '(data, _) => bits ← bits_reduced L data; open_query data bits index) ((data, points) :: rounds)) indices =
    (bs ← mapM (fun index => bits ← bits_reduced L data; open_query data bits index) indices; xs ← mapM (fun index => mapM (fun '(data, _) => bits ← bits_reduced L data; open_query data bits index) rounds) indices; Some (zip_with cons bs xs))) as -> by apply mapM_cons2.
  rewrite mapM_hoist by done. destruct (bits_reduced L data) as [bits|]; [|done]. cbn [mbind option_bind]. rewrite !obind_assoc. destruct (mapM (open_query data bits) indices) as [bs|] eqn:Eb; [|done]. cbn [mbind option_bind].
  rewrite IH. 2:{ rewrite length_zip_with, (mapM_len _ _ _ Eb). lia. }
  destruct (mapM _ indices) as [xs|]; [|done]. cbn [mbind option_bind]. by rewrite zip_with_snoc.
Qed.

Lemma prove_indices_length (config : FriConfig) (input : list (option (list Challenge))) ch proof indices ch' : prove config input ch = Some (proof, indices, ch') -> length indices = num_queries config.
Proof using.
  unfold prove. intros Hp. destruct (rposition input) as [L|]; [|discriminate Hp]. cbn [mbind option_bind] in Hp. destruct (commit_phase config input L ch) as [[r c1]|]; [|discriminate Hp]. cbn [mbind option_bind] in Hp.
  destruct (grind _ c1) as [[w c2]|]; [|discriminate Hp]. cbn [mbind option_bind] in Hp. destruct (sample_indices (num_queries config) L c2) as [ks c3] eqn:Ei. destruct (mapM _ ks) as [qs|]; [|discriminate Hp]. injection Hp as <- <- <-.
  clear -Ei. revert c2 ks c3 Ei. induction (num_queries config) as [|n IH]; intros c ks c' Ei; cbn in Ei; [by injection Ei as <- _|]. destruct (sample_bits L c) as [i c1]. destruct (sample_indices n L c1) as [js c2] eqn:E. injection Ei as <- _. cbn. by rewrite (IH _ _ _ E).
Qed.

Lemma max_list_log2 (l : list nat) : (m ← max_list l; log2_strict_usize m) = log2_strict_usize (list_max l).
Proof using LB.
  destruct l as [|x l]; [|done]. cbn. destruct (log2_strict_usize 0) as [k|] eqn:E; [|done]. apply log2_strict_inv in E. symmetry in E. by apply Nat.pow_nonzero in E.
Qed.

Lemma inverse_denominators_eq (rounds : Rounds Val Challenge) shift :
  compute_inverse_denominators (mats_of rounds) shift = compute_inverse_denominators_from_dims (zip (map (fun r => map dimensions (get_matrices r.1)) rounds) (map snd rounds)) shift.
Proof using.
  unfold compute_inverse_denominators. f_equal. unfold mats_of. rewrite map_map. induction rounds as [|[data points] rounds IH]; [done|]. cbn [map zip zip_with fst snd]. f_equal. exact IH.
Qed.

(** Every matrix has its list of points. *)
Definition points_match (rounds : Rounds Val Challenge) : Prop := Forall (fun r => length (get_matrices r.1) = length r.2) rounds.

(** [open], with the dimensions and the values of every round. *)
Lemma open_eq self (rounds : Rounds Val Challenge) ch : points_match rounds ->
  let dims := map (fun r => map dimensions (get_matrices r.1)) rounds in
  open self rounds ch =
  (log_max ← log2_strict_usize (list_max (map dim_height (concat dims)));
   inv_denoms ← compute_inverse_denominators_from_dims (zip dims (map snd rounds)) generator;
   values ← mapM (fun '(mats, points) => open_round (log_blowup (fri self)) inv_denoms mats points) (mats_of rounds);
   let '(alpha, ch) := sample_ext_element (fold_left (fun c v => observe_round v c) values ch) in
   reducer ← PowersReducer.new alpha (list_max (map dim_width (concat dims)));
   reduction ← foldM (reduce_round alpha reducer inv_denoms) no_reduction (zip (mats_of rounds) values);
   '(proof, indices, ch) ← prove (fri self) (reduced_openings reduction) ch;
   openings ← mapM (fun index => mapM (fun '(data, _) => bits ← bits_reduced log_max data; open_query data bits index) rounds) indices;
   Some (values, mkPcsProof proof openings, ch)).
Proof using LB.
  intros Hp dims. unfold open. fold (mats_of rounds). assert (forall (f : Matrix Val -> nat) (g : Dimensions -> nat), (forall m, f m = g (dimensions m)) -> map f (concat (map fst (mats_of rounds))) = map g (concat dims)) as Hd.
  { intros f g Hfg. subst dims. clear Hp. induction rounds as [|[data points] rounds IH]; [done|]. cbn [mats_of map concat fst]. rewrite !map_app. f_equal; [|exact IH]. rewrite map_map. apply map_ext. done. }
  rewrite (Hd height dim_height), (Hd width dim_width) by done. rewrite <- obind_assoc, max_list_log2. destruct (log2_strict_usize (list_max (map dim_height (concat dims)))) as [L|] eqn:EL; [|done]. cbn [mbind option_bind].
  rewrite inverse_denominators_eq. fold dims. destruct (compute_inverse_denominators_from_dims _ _) as [inv|]; [|done]. cbn [mbind option_bind].
  assert (Forall (fun r : list (Matrix Val) * list (list Challenge) => length r.1 = length r.2) (mats_of rounds)) as Hm by (unfold mats_of; rewrite Forall_map; eapply Forall_impl; [exact Hp|]; by intros [? ?]).
  rewrite (all_jobs_eq _ _ _ Hm). rewrite obind_assoc. destruct (mapM _ (mats_of rounds)) as [values|] eqn:Ev; [|done]. cbn [mbind option_bind]. rewrite (structure_eq _ _ _ _ Ev), collect_eq. cbn [mbind option_bind].
  destruct (sample_ext_element _) as [alpha c1]. assert (max_list (map dim_width (concat dims)) = Some (list_max (map dim_width (concat dims)))) as ->; [|done].
  destruct (concat dims) as [|d l]; [|done]. exfalso. cbn in EL. apply log2_strict_inv in EL. symmetry in EL. by apply Nat.pow_nonzero in EL.
Qed.

Definition with_saved (rounds : Rounds Val Challenge) (saved_ldes : list (option (list (Matrix Val)))) : SavedRounds Val Challenge :=
  zip_with (fun '(data, points) saved => (data, points, saved)) rounds saved_ldes.

Lemma sequential_eq self rounds saved ch : length rounds = length saved -> points_match (restored (with_saved rounds saved)) -> 0 < num_queries (fri self) ->
  open_sequential_cached self rounds saved ch = ('(values, proof, c) ← open self (restored (with_saved rounds saved)) ch; Some (values, proof, restored (with_saved rounds saved), c)).
Proof using LB LL.
  intros Hl Hp Hq. rewrite open_eq by done. unfold open_sequential_cached. rewrite Hl, Nat.eqb_refl. cbn [negb]. fold (with_saved rounds saved). set (rs := with_saved rounds saved) in *.
  destruct (read_dims_eq rs) as [E1 E2]. destruct (read_dims rs) as [dims rs']. cbn [fst snd] in E1, E2. rewrite E1. set (ds := map _ (restored rs)). rewrite obind_assoc. destruct (log2_strict_usize _) as [L|]; [|done]. cbn [mbind option_bind].
  assert (map (fun '(_, points, _) => points) rs' = map snd (restored rs)) as ->. { rewrite <- E2. unfold restored. rewrite map_map. apply map_ext. by intros [[? ?] ?]. }
  rewrite obind_assoc. destruct (compute_inverse_denominators_from_dims _ _) as [inv|]; [|done]. cbn [mbind option_bind]. pose proof (open_rounds_eq (log_blowup (fri self)) inv rs' ch) as Eo. rewrite E2 in Eo.
  rewrite obind_assoc. destruct (mapM _ (mats_of (restored rs))) as [values|] eqn:Ev; destruct (open_rounds _ _ rs' ch) as [[[vs rs''] c1]|]; try discriminate Eo; [|done]. cbn [mbind option_bind fst snd] in Eo. injection Eo as -> Er ->.
  cbn [mbind option_bind]. destruct (sample_ext_element _) as [alpha c2]. rewrite obind_assoc. destruct (PowersReducer.new alpha _) as [red|]; [|done]. cbn [mbind option_bind].
  assert (length values = length rs'') as Hlv. { apply mapM_len in Ev. rewrite Ev. unfold mats_of. rewrite <- Er. unfold restored. by rewrite !length_map. }
  rewrite reduce_rounds_eq, Er by done. rewrite !obind_assoc. destruct (foldM _ no_reduction _) as [st|]; [|done]. cbn [mbind option_bind]. rewrite obind_assoc.
  destruct (prove (fri self) (reduced_openings st) c2) as [[[proof indices] c3]|] eqn:Epr; [|done]. cbn [mbind option_bind]. apply prove_indices_length in Epr.
  assert (indices <> []) as Hne by (intros ->; cbn in Epr; lia). rewrite query_rounds_eq; [|done|by rewrite length_replicate]. rewrite !obind_assoc. destruct (mapM _ indices) as [xs|] eqn:Ex; [|done]. cbn [mbind option_bind].
  assert (zip_with app (replicate (length indices) []) xs = xs) as ->; [|done]. apply mapM_len in Ex. rewrite <- Ex. clear. induction xs as [|x xs IH]; [done|]. cbn. by rewrite IH.
Qed.

(** A round that is only read is a round without saved leaves. *)
Lemma split_eq self pdata ppoints rounds saved ch :
  open_sequential_cached_split self pdata ppoints rounds saved ch =
  ('(values, proof, rs, c) ← open_sequential_cached self ((pdata, ppoints) :: rounds) (None :: saved) ch; Some (values, proof, tail rs, c)).
Proof using.
  unfold open_sequential_cached_split, open_sequential_cached. cbn [length Nat.eqb]. destruct (length rounds =? length saved); [|done]. cbn [negb zip_with read_dims restore_round release_round].
  destruct (read_dims _) as [dims rs]. cbn [map]. destruct (log2_strict_usize _) as [L|]; [|done]. cbn [mbind option_bind]. destruct (compute_inverse_denominators_from_dims _ _) as [inv|]; [|done]. cbn [mbind option_bind open_rounds restore_round release_round].
  destruct (open_round _ inv _ _) as [v|]; [|done]. cbn [mbind option_bind]. destruct (open_rounds _ inv rs _) as [[[vs rs'] c1]|]; [|done]. cbn [mbind option_bind]. destruct (sample_ext_element c1) as [alpha c2].
  destruct (PowersReducer.new alpha _) as [red|]; [|done]. cbn [mbind option_bind reduce_rounds restore_round]. destruct (reduce_round _ _ _ _ _) as [st|]; [|done]. cbn [mbind option_bind]. destruct (reduce_rounds _ _ _ st rs' vs) as [[st' rs'']|]; [|done].
  cbn [mbind option_bind]. destruct (prove _ _ c2) as [[[proof indices] c3]|]; [|done]. cbn [mbind option_bind foldM]. destruct (query_round L indices _ _) as [acc|]; [|done]. cbn [mbind option_bind]. by destruct (foldM _ acc rs'').
Qed.

(** C12. Opening round by round gives what opening at once gives: with the taken leaves
    passed beside the rounds, [open_sequential_cached] returns the values, the proof
    and the challenger of [open] on the restored rounds, and leaves the rounds
    restored; [open_sequential_cached_split] does the same for a first round that is
    only read. *)
Theorem sequential_open_same self rounds saved ch : length rounds = length saved -> points_match (restored (with_saved rounds saved)) -> 0 < num_queries (fri self) ->
  open_sequential_cached self rounds saved ch =
    ('(values, proof, c) ← open self (restored (with_saved rounds saved)) ch; Some (values, proof, restored (with_saved rounds saved), c)) /\
  forall pdata ppoints, length (get_matrices pdata) = length ppoints ->
  open_sequential_cached_split self pdata ppoints rounds saved ch =
    ('(values, proof, c) ← open self ((pdata, ppoints) :: restored (with_saved rounds saved)) ch; Some (values, proof, restored (with_saved rounds saved), c)).
Proof using LB LL.
  intros Hl Hp Hq. split; [by apply sequential_eq|]. intros pdata ppoints Hpp. rewrite split_eq. assert (points_match (restored (with_saved ((pdata, ppoints) :: rounds) (None :: saved)))) as Hp' by (by constructor).
  rewrite (sequential_eq self _ _ ch) by (done || (cbn; lia)). cbn [with_saved zip_with restored map restore_round]. fold (restored (with_saved rounds saved)). destruct (open _ _ _) as [[[v p] c]|]; done.
Qed.
End Sequential.
