(* ===== verification/FriInterpolate.v ===== *)
(** * Barycentric interpolation

    [interpolate_coset_precomputed] computes the value of a polynomial outside a
    coset from its evaluations on the coset. *)

From Stdlib Require Import Lia Bool PeanoNat Field.
From stdpp Require Import base list.
From S2P Require Import Prelude MerkleTree Fri FriProtocol FriPcs FriSequential.

(** * Reduction of rows with powers of alpha

    [PowersReducer::reduce_base] multiplies packed elements by transposed
    coordinates of the powers; it computes the plain sum of [reduce_ext]. *)

(** Sums from the right. *)
Fixpoint lsum {F} `{TwoAdicField F} (l : list F) : F := match l with [] => zero | x :: l => add x (lsum l) end.

(** The laws of the extension, of its coordinates and of the functions on them. *)
Class LawfulExtension (Val Challenge : Type) `{ExtensionField Val Challenge} : Prop := {
  val_field : LawfulField Val;
  challenge_field : LawfulField Challenge;
  generator_nonzero : (generator : Val) <> zero;
  from_base_add x y : from_base (add x y) = add (from_base x) (from_base y);
  from_base_mul x y : from_base (mul x y) = mul (from_base x) (from_base y);
  from_base_one : from_base one = one;
  adicity_le : TWO_ADICITY (F := Val) <= TWO_ADICITY (F := Challenge);
  from_base_generator k : k <= TWO_ADICITY (F := Val) -> from_base (two_adic_generator k) = two_adic_generator k;
  D_pos : 0 < D;
  as_base_slice_length x : length (as_base_slice x) = D;
  from_base_fn_ext f g : (forall d, d < D -> f d = g d) -> from_base_fn f = from_base_fn g;
  from_base_fn_add f g : from_base_fn (fun d => add (f d) (g d)) = add (from_base_fn f) (from_base_fn g);
  from_base_fn_scale x v : from_base_fn (fun d => mul v (nth d (as_base_slice x) zero)) = mul x (from_base v);
  from_canonical_usize_spec n : from_canonical_usize n = lsum (replicate n one);
  zerofier_spec k s x : two_adic_coset_zerofier k s x = sub (power x (2 ^ k)) (power s (2 ^ k));
  coset_spec g s n : cyclic_subgroup_coset_known_order g s n = map (fun i => mul s (power g i)) (seq 0 n);
  batch_inverse_spec l : Forall (fun x => x <> zero) l -> batch_multiplicative_inverse l = Some (map inverse l);
  dot_product_spec m v : mat_wf m -> length v = height m ->
    columnwise_dot_product m v = map (fun c => lsum (zip_with (fun r x => mul (from_base (nth c r zero)) x) (rows m) v)) (seq 0 (width m))
}.

(** Packed elements: chunks of [PWIDTH], operations lane by lane. *)
Class LawfulPacking (Val : Type) `{TwoAdicField Val} `{PackedField Val} : Prop := {
  PWIDTH_pos : 0 < PWIDTH;
  pack_slice_length l n : length l = n * PWIDTH -> length (pack_slice l) = n;
  pack_slice_spec l n i : length l = n * PWIDTH -> i < n -> as_slice (nth i (pack_slice l) packed_zero) = take PWIDTH (drop (i * PWIDTH) l);
  pack_suffix_spec l : pack_slice_with_suffix l = (pack_slice (take (length l / PWIDTH * PWIDTH) l), drop (length l / PWIDTH * PWIDTH) l);
  packed_zero_spec : as_slice packed_zero = replicate PWIDTH zero;
  packed_add_spec x y : as_slice (packed_add x y) = zip_with add (as_slice x) (as_slice y);
  packed_mul_spec x y : as_slice (packed_mul x y) = zip_with mul (as_slice x) (as_slice y)
}.

(** ** Sums *)

Section Sums.
  Context {F : Type} `{LF : LawfulField F}.

Lemma sum_field_inst : field_theory zero one add mul sub opp div inverse eq.
Proof using LF. exact field_laws. Qed.
Add Field SumField : sum_field_inst.

Lemma esum_app l l' : lsum (l ++ l') = add (lsum l) (lsum l').
Proof using LF. induction l as [|x l IH]; cbn [app lsum]; [ring|]. rewrite IH. ring. Qed.

Lemma sum_lsum l : sum l = lsum l.
Proof using LF.
  unfold sum. assert (forall a, fold_left add l a = add a (lsum l)) as Ha; [|rewrite Ha; ring].
  induction l as [|x l IH]; intros a; cbn [fold_left lsum]; [ring|]. rewrite IH. ring.
Qed.

Lemma lsum_add l : forall l', length l = length l' -> lsum (zip_with add l l') = add (lsum l) (lsum l').
Proof using LF. induction l as [|x l IH]; intros [|y l'] Hl; try done; cbn [zip_with lsum]; [ring|]. injection Hl as Hl. specialize (IH l' Hl). rewrite IH. ring. Qed.

Lemma lsum_scale c l : mul c (lsum l) = lsum (map (mul c) l).
Proof using LF. induction l as [|x l IH]; cbn [map lsum]; [ring|]. rewrite <- IH. ring. Qed.

Lemma lsum_zero n : lsum (replicate n zero) = zero.
Proof using LF. induction n as [|n IH]; [done|]. cbn [replicate lsum]. rewrite IH. ring. Qed.

Lemma lsum_ext {A} (f g : A -> F) l : (forall a, a ∈ l -> f a = g a) -> lsum (map f l) = lsum (map g l).
Proof using. intros Hf. f_equal. apply map_ext_in. intros a Ha%list_elem_of_In. by apply Hf. Qed.
End Sums.

Section Reduce.
  Context {Val Challenge : Type} `{LE : LawfulExtension Val Challenge} `{PK : PackedField Val} `{LP : !LawfulPacking Val}.
Import PowersReducer.

Local Instance val_inst : LawfulField Val.
Proof using LE. exact val_field. Qed.
Local Instance challenge_inst : LawfulField Challenge.
Proof using LE. exact challenge_field. Qed.
Lemma val_field_inst : field_theory (zero : Val) one add mul sub opp div inverse eq.
Proof using LE. exact field_laws. Qed.
Lemma challenge_field_inst : field_theory (zero : Challenge) one add mul sub opp div inverse eq.
Proof using LE. exact field_laws. Qed.
Add Field ValField : val_field_inst.
Add Field ChallengeField : challenge_field_inst.

Lemma from_base_zero : from_base zero = zero.
Proof using LE. assert (add (from_base zero) (from_base zero) = from_base zero) as E by (rewrite <- from_base_add; f_equal; ring). replace (from_base zero) with (sub (add (from_base zero) (from_base zero)) (from_base zero)) by ring. rewrite E. ring. Qed.

(** Sums of products, coordinate by coordinate. *)
Lemma from_base_fn_sum (xs : list Val) : forall ps : list Challenge, length xs = length ps ->
  from_base_fn (fun d => lsum (zip_with mul xs (map (fun p => nth d (as_base_slice p) zero) ps))) = lsum (zip_with (fun p x => mul p (from_base x)) ps xs).
Proof using LE.
  induction xs as [|x xs IH]; intros [|p ps] Hl; try done.
  - cbn [map zip_with lsum]. rewrite (from_base_fn_ext _ (fun d => mul zero (nth d (as_base_slice zero) zero))) by (intros; ring). rewrite from_base_fn_scale, from_base_zero. ring.
  - injection Hl as Hl. cbn [map zip_with lsum]. rewrite from_base_fn_add, from_base_fn_scale. f_equal. exact (IH ps Hl).
Qed.

(** The value of the packed sums. *)
Definition packed_value (sums : list Packing) : Challenge := from_base_fn (fun d => sum (as_slice (nth d sums packed_zero))).

(** Coordinates of [PWIDTH] powers, one packed element each. *)
Definition coordinates (pows : list Packing) (ps : list Challenge) : Prop :=
  length ps = PWIDTH /\ forall d, d < D -> as_slice (nth d pows packed_zero) = map (fun p => nth d (as_base_slice p) zero) ps.

Lemma add_products_value sums x pows ps : length sums = D -> Forall (fun s => length (as_slice s) = PWIDTH) sums -> length (as_slice x) = PWIDTH -> coordinates pows ps ->
  packed_value (add_products sums x pows) = add (packed_value sums) (lsum (zip_with (fun p v => mul p (from_base v)) ps (as_slice x))) /\
  length (add_products sums x pows) = D /\ Forall (fun s => length (as_slice s) = PWIDTH) (add_products sums x pows).
Proof using LE LP.
  intros Hs Hw Hx [Hp Hc]. assert (length (add_products sums x pows) = D) as Hl by (unfold add_products; by rewrite length_imap).
  assert (forall d, d < D -> as_slice (nth d (add_products sums x pows) packed_zero) = zip_with add (as_slice (nth d sums packed_zero)) (zip_with mul (as_slice x) (map (fun p => nth d (as_base_slice p) zero) ps))) as Hd.
  { intros d Hd. destruct (lookup_lt_is_Some_2 sums d) as [s Es]; [by rewrite Hs|]. rewrite (nth_lookup_Some sums d _ s Es). rewrite (nth_lookup_Some _ d _ (packed_add s (packed_mul x (nth d pows packed_zero)))).
    - by rewrite packed_add_spec, packed_mul_spec, Hc.
    - unfold add_products. by rewrite list_lookup_imap, Es. }
  assert (forall d, d < D -> length (as_slice (nth d sums packed_zero)) = PWIDTH) as Hsl. { intros d Hd'. destruct (lookup_lt_is_Some_2 sums d) as [s Es]; [by rewrite Hs|]. rewrite (nth_lookup_Some sums d _ s Es). by apply (proj1 (Forall_lookup _ _) Hw d). }
  split_and!; [|done|].
  - unfold packed_value. rewrite <- (from_base_fn_sum (as_slice x) ps) by (by rewrite Hx, Hp). rewrite <- from_base_fn_add. apply from_base_fn_ext. intros d Hlt. rewrite !sum_lsum, Hd by done.
    apply lsum_add. rewrite Hsl by done. rewrite length_zip_with, length_map, Hx, Hp. lia.
  - apply Forall_lookup. intros d s Es. assert (d < D) as Hlt by (rewrite <- Hl; by apply lookup_lt_Some in Es). pose proof (Hd d Hlt) as E. rewrite (nth_lookup_Some _ d packed_zero s Es) in E. rewrite E, !length_zip_with, length_map, Hsl, Hx, Hp by done. lia.
Qed.

(** The loop over the chunks. *)
Lemma packed_loop (chunks : list (Packing * list Packing)) : forall pss sums, Forall2 (fun c ps => length (as_slice c.1) = PWIDTH /\ coordinates c.2 ps) chunks pss ->
  length sums = D -> Forall (fun s => length (as_slice s) = PWIDTH) sums ->
  packed_value (fold_left (fun sums '(x, pows) => add_products sums x pows) chunks sums) =
  add (packed_value sums) (lsum (zip_with (fun p v => mul p (from_base v)) (concat pss) (concat (map (fun c => as_slice c.1) chunks)))).
Proof using LE LP.
  induction chunks as [|[x pows] chunks IH]; intros pss sums Hf Hs Hw; inversion Hf as [|? ps ? pss' [Hx Hc] Hf']; subst; cbn [fold_left concat map fst]; [cbn; ring|]. cbn [fst snd] in Hx, Hc.
  destruct (add_products_value sums x pows ps Hs Hw Hx Hc) as (E & Hl & Hw'). rewrite (IH pss' _ Hf' Hl Hw'), E. rewrite zip_with_app by (destruct Hc as [-> _]; done). rewrite esum_app. ring.
Qed.

(** Rows of transposed coordinates. *)
Lemma mapM_pointwise {A B} (f : A -> option B) (g : A -> B) l : (forall a, a ∈ l -> f a = Some (g a)) -> mapM f l = Some (map g l).
Proof using. clear. induction l as [|a l IH]; intros Hf; [done|]. cbn [mapM map]. rewrite (Hf a (list_elem_of_here _ _)), IH; [done|]. intros b Hb. apply Hf. by right. Qed.

Lemma transpose_packed (f : nat -> list Packing) n : (forall d, d < D -> length (f d) = n) ->
  transpose_vec (map f (seq 0 D)) = Some (map (fun i => map (fun d => nth i (f d) packed_zero) (seq 0 D)) (seq 0 n)).
Proof using LE.
  intros Hf. pose proof D_pos as HD. unfold transpose_vec. assert (head (map f (seq 0 D)) = Some (f 0)) as -> by (destruct D; [lia|done]). cbn [mbind option_bind]. rewrite (Hf 0 HD).
  apply mapM_pointwise. intros i [_ Hi]%elem_of_seq. rewrite mapM_map. apply mapM_pointwise. intros d [_ Hd]%elem_of_seq. destruct (lookup_lt_is_Some_2 (f d) i) as [y Ey]; [rewrite Hf by lia; lia|]. rewrite Ey. by rewrite (nth_lookup_Some _ _ _ _ Ey).
Qed.

Lemma next_multiple_spec w : exists n, next_multiple_of w PWIDTH = n * PWIDTH /\ w <= n * PWIDTH.
Proof using LP.
  pose proof PWIDTH_pos as HW. unfold next_multiple_of. exists ((w + (PWIDTH - 1)) / PWIDTH). split; [done|]. pose proof (Nat.div_mod_eq (w + (PWIDTH - 1)) PWIDTH) as E. pose proof (Nat.mod_upper_bound (w + (PWIDTH - 1)) PWIDTH ltac:(lia)). nia.
Qed.

(** The powers of [base] and their coordinates. *)
Record reducer_ok (base : Challenge) (w : nat) (r : PowersReducer Val Challenge) (n : nat) : Prop := {
  rd_powers : powers r = map (power base) (seq 0 (n * PWIDTH));
  rd_width : w <= n * PWIDTH;
  rd_length : length (transposed_packed r) = n;
  rd_coordinates i : i < n -> coordinates (nth i (transposed_packed r) []) (take PWIDTH (drop (i * PWIDTH) (powers r)))
}.

Lemma new_ok base w : exists r n, new base w = Some r /\ reducer_ok base w r n.
Proof using LE LP.
  destruct (next_multiple_spec w) as (n & En & Hn). unfold new. rewrite En, shifted_powers_spec. set (ps := map _ (seq 0 (n * PWIDTH))).
  assert (ps = map (power base) (seq 0 (n * PWIDTH))) as Eps by (apply map_ext; intros i; ring). assert (length ps = n * PWIDTH) as Lps by (rewrite Eps; by rewrite length_map, length_seq).
  set (f := fun d => pack_slice (map (fun a : Challenge => nth d (as_base_slice a) zero) ps)). assert (forall d, length (map (fun a : Challenge => nth d (as_base_slice a) zero) ps) = n * PWIDTH) as Lm by (intros d; by rewrite length_map).
  assert (forall d, length (f d) = n) as Lf by (intros d; by apply pack_slice_length). rewrite (transpose_packed f n) by done. cbn [mbind option_bind]. eexists _, n. split; [done|].
  constructor; cbn [powers transposed_packed]; [done|done|by rewrite length_map, length_seq|]. intros i Hi. rewrite nth_lookup, list_lookup_fmap, lookup_seq_lt by done. cbn [fmap option_fmap option_map default from_option id Nat.add]. split.
  - rewrite length_take, length_drop, Lps. nia.
  - intros d Hd. rewrite nth_lookup, list_lookup_fmap, lookup_seq_lt by done. cbn [fmap option_fmap option_map default from_option id Nat.add]. unfold f. rewrite (pack_slice_spec _ n i) by done. by rewrite skipn_map, firstn_map.
Qed.

Lemma concat_blocks {A} (l : list A) w m : m * w <= length l -> concat (map (fun i => take w (drop (i * w) l)) (seq 0 m)) = take (m * w) l.
Proof using.
  clear. induction m as [|m IH]; intros Hl; [done|]. rewrite seq_S, map_app, concat_app, IH by lia. cbn [map concat Nat.add]. rewrite app_nil_r. rewrite <- (firstn_skipn (m * w) (take (S m * w) l)). rewrite take_take, skipn_firstn_comm. f_equal; f_equal; lia.
Qed.

Lemma zip_with_split {A B C} (f : A -> B -> C) k : forall l l', k <= length l -> k <= length l' -> zip_with f l l' = zip_with f (take k l) (take k l') ++ zip_with f (drop k l) (drop k l').
Proof using. clear. induction k as [|k IH]; intros [|x l] [|y l'] Hl Hl'; cbn [length] in *; try lia; try done. cbn. f_equal. apply IH; lia. Qed.

Lemma eval_powers alpha (xs : list Challenge) : forall k n, length xs <= n -> lsum (zip_with mul (map (power alpha) (seq k n)) xs) = mul (power alpha k) (eval xs alpha).
Proof using LE.
  induction xs as [|x xs IH]; intros k [|n] Hl; cbn [length] in Hl; try lia; cbn [seq map zip_with lsum eval]; [ring..|]. rewrite (IH (S k) n) by lia. cbn [power]. ring.
Qed.

Lemma reduce_ext_eq alpha w r n ys : reducer_ok alpha w r n -> length ys <= w -> reduce_ext r ys = eval ys alpha.
Proof using LE.
  intros Hr Hl. unfold reduce_ext. rewrite sum_lsum, (rd_powers _ _ _ _ Hr). pose proof (rd_width _ _ _ _ Hr). rewrite (eval_powers alpha ys 0) by lia. cbn [power]. ring.
Qed.

Lemma reduce_base_eq alpha w r n xs : reducer_ok alpha w r n -> length xs <= w -> reduce_base r xs = Some (eval (map from_base xs) alpha).
Proof using LE LP.
  intros Hr Hl. pose proof PWIDTH_pos as HW. pose proof (rd_width _ _ _ _ Hr) as Hw. assert (length (powers r) = n * PWIDTH) as Lp by (rewrite (rd_powers _ _ _ _ Hr); by rewrite length_map, length_seq).
  unfold reduce_base. rewrite pack_suffix_spec. set (m := length xs / PWIDTH). assert (m * PWIDTH <= length xs) as Hm by (subst m; rewrite Nat.mul_comm; by apply Nat.Div0.mul_div_le).
  assert (m <= n) as Hmn by nia. set (xp := take (m * PWIDTH) xs). assert (length xp = m * PWIDTH) as Lxp by (subst xp; rewrite length_take; lia). assert (length (pack_slice xp) = m) as Lpk by (by apply pack_slice_length).
  rewrite Lpk. assert ((length (powers r) <? m * PWIDTH) = false) as -> by (apply Nat.ltb_ge; nia). f_equal.
  change (from_base_fn _) with (packed_value (fold_left (fun sums '(x, pows) => add_products sums x pows) (zip (pack_slice xp) (transposed_packed r)) (replicate D packed_zero))).
  set (pss := map (fun i => take PWIDTH (drop (i * PWIDTH) (powers r))) (seq 0 m)).
  assert (Forall2 (fun c ps => length (as_slice c.1) = PWIDTH /\ coordinates c.2 ps) (zip (pack_slice xp) (transposed_packed r)) pss) as Hch.
  { apply Forall2_same_length_lookup_2; [subst pss; rewrite length_zip_with, length_map, length_seq, Lpk, (rd_length _ _ _ _ Hr); lia|]. intros i [x pows] ps Hi Hps. subst pss. rewrite list_lookup_fmap in Hps.
    destruct (seq 0 m !! i) as [j|] eqn:Ej; [|discriminate Hps]. apply lookup_seq in Ej as [-> Hj]. cbn in Hps. injection Hps as <-. apply lookup_zip_Some in Hi as [Hx Hpw]. cbn [fst snd].
    split; [rewrite <- (nth_lookup_Some _ _ packed_zero _ Hx), (pack_slice_spec xp m i) by done; rewrite length_take, length_drop, Lxp; nia|]. rewrite <- (nth_lookup_Some _ _ [] _ Hpw). apply (rd_coordinates _ _ _ _ Hr). lia. }
  rewrite (packed_loop _ _ _ Hch); [|apply length_replicate|apply Forall_replicate; rewrite packed_zero_spec; apply length_replicate].
  assert (packed_value (replicate D packed_zero) = zero) as ->.
  { unfold packed_value. rewrite (from_base_fn_ext _ (fun d => mul zero (nth d (as_base_slice zero) zero))); [rewrite from_base_fn_scale, from_base_zero; ring|]. intros d Hd. rewrite nth_lookup, lookup_replicate_2 by done. cbn [default from_option id]. rewrite sum_lsum, packed_zero_spec, lsum_zero. ring. }
  assert (concat (map (fun c : Packing * list Packing => as_slice c.1) (zip (pack_slice xp) (transposed_packed r))) = xp) as ->.
  { rewrite <- (map_map fst as_slice). assert (map fst (zip (pack_slice xp) (transposed_packed r)) = pack_slice xp) as -> by (apply fst_zip; rewrite Lpk, (rd_length _ _ _ _ Hr); lia).
    transitivity (take (m * PWIDTH) xp); [|rewrite <- Lxp; apply firstn_all]. rewrite <- concat_blocks by lia. f_equal. apply list_eq. intros i. rewrite !list_lookup_fmap. destruct (decide (i < m)) as [Hi|Hi].
    - rewrite lookup_seq_lt by done. destruct (lookup_lt_is_Some_2 (pack_slice xp) i) as [y Ey]; [by rewrite Lpk|]. rewrite Ey. cbn. f_equal. rewrite <- (nth_lookup_Some _ _ packed_zero _ Ey). by apply (pack_slice_spec xp m).
    - rewrite !lookup_ge_None_2; [done|rewrite length_seq; lia|lia]. }
  assert (concat pss = take (m * PWIDTH) (powers r)) as -> by (apply concat_blocks; nia). rewrite sum_lsum.
  assert (zip_with (fun x pow => mul pow (from_base x)) (drop (m * PWIDTH) xs) (drop (m * PWIDTH) (powers r)) = zip_with (fun p v => mul p (from_base v)) (drop (m * PWIDTH) (powers r)) (drop (m * PWIDTH) xs)) as -> by apply zip_with_flip.
  transitivity (lsum (zip_with (fun p v => mul p (from_base v)) (powers r) xs)).
  - rewrite (zip_with_split _ (m * PWIDTH) (powers r) xs) by lia. rewrite esum_app. subst xp. ring.
  - rewrite (rd_powers _ _ _ _ Hr). assert (zip_with (fun p v => mul p (from_base v)) (map (power alpha) (seq 0 (n * PWIDTH))) xs = zip_with mul (map (power alpha) (seq 0 (n * PWIDTH))) (map from_base xs)) as -> by (symmetry; apply zip_with_fmap_r).
    rewrite (eval_powers alpha (map from_base xs) 0) by (rewrite length_map; lia). cbn [power]. ring.
Qed.
End Reduce.

Section Coset.
  Context {F : Type} `{LF : LawfulField F}.

Lemma coset_field_inst : field_theory zero one add mul sub opp div inverse eq.
Proof using LF. exact field_laws. Qed.
Add Field CosetField : coset_field_inst.

(** ** Nonzero elements *)

Lemma mul_nonzero (x y : F) : x <> zero -> y <> zero -> mul x y <> zero.
Proof using LF. intros Hx Hy E. apply Hy. replace y with (mul (inverse x) (mul x y)) by (field; done). rewrite E. ring. Qed.

Lemma power_nonzero (x : F) n : x <> zero -> power x n <> zero.
Proof using LF. intros Hx. induction n as [|n IH]; cbn [power]; [apply one_nonzero|by apply mul_nonzero]. Qed.

Lemma power_one n : power (one : F) n = one.
Proof using LF. induction n as [|n IH]; cbn [power]; [done|]. rewrite IH. ring. Qed.

Lemma sub_nonzero (x y : F) : x <> y -> sub x y <> zero.
Proof using LF. intros Hx E. apply Hx. replace x with (add (sub x y) y) by ring. rewrite E. ring. Qed.

Definition of_nat (n : nat) : F := lsum (replicate n one).

Lemma of_nat_add n m : of_nat (n + m) = add (of_nat n) (of_nat m).
Proof using LF. unfold of_nat. by rewrite replicate_add, esum_app. Qed.

Lemma of_nat_pow2 k : of_nat (2 ^ k) <> zero.
Proof using LF.
  induction k as [|k IH]; [cbn; replace (add one zero) with (one : F) by ring; apply one_nonzero|]. rewrite Nat.pow_succ_r'. replace (2 * 2 ^ k) with (2 ^ k + 2 ^ k) by lia. rewrite of_nat_add.
  replace (add (of_nat (2 ^ k)) (of_nat (2 ^ k))) with (mul (add one one) (of_nat (2 ^ k))) by ring. apply mul_nonzero; [apply two_nonzero|done].
Qed.

(** ** Sums over the subgroup *)

(** The generator has order exactly [2 ^ k]. *)
Lemma generator_primitive k : k <= TWO_ADICITY -> forall t, 0 < t < 2 ^ k -> power (two_adic_generator k : F) t <> one.
Proof using LF.
  induction k as [|k IH]; intros Hk t Ht E; [cbn in Ht; lia|]. pose proof (Nat.div_mod_eq t 2) as Et. destruct (t mod 2) as [|[|?]] eqn:Em; [| |pose proof (Nat.mod_upper_bound t 2); lia].
  - apply (IH ltac:(lia) (t / 2)); [cbn [Nat.pow] in Ht; lia|]. rewrite <- generator_S by lia. rewrite power_mul, <- power_add. rewrite <- E. f_equal. lia.
  - assert (power (power (two_adic_generator (S k)) t) (2 ^ k) = (opp one : F)) as E2.
    { rewrite <- power_pow, Nat.mul_comm, power_pow, generator_half by lia. rewrite Et, power_add, power_pow. cbn [power]. replace (mul (opp one) (mul (opp one) one)) with (one : F) by ring.
      rewrite power_one. ring. }
    rewrite E, power_one in E2. apply two_nonzero. rewrite E2 at 1. ring.
Qed.

Lemma geometric (x : F) n : mul (sub x one) (lsum (map (power x) (seq 0 n))) = sub (power x n) one.
Proof using LF.
  induction n as [|n IH]; [cbn; ring|]. rewrite seq_S, map_app, esum_app. cbn [map lsum Nat.add power]. replace (mul (sub x one) (add (lsum (map (power x) (seq 0 n))) (add (power x n) zero))) with (add (mul (sub x one) (lsum (map (power x) (seq 0 n)))) (mul (sub x one) (power x n))) by ring.
  rewrite IH. ring.
Qed.

(** ** Division by [X - z] *)

Fixpoint quotient (z : F) (p : list F) : list F :=
  match p with c :: (_ :: _) as p' => eval p' z :: quotient z p' | _ => [] end.

Lemma quotient_length z p : length (quotient z p) = length p - 1.
Proof using. induction p as [|c [|c' p] IH]; [done..|]. change (S (length (quotient z (c' :: p))) = S (length p)). rewrite IH. cbn. lia. Qed.

Lemma eval_quotient z p x : sub (eval p x) (eval p z) = mul (sub x z) (eval (quotient z p) x).
Proof using LF.
  induction p as [|c [|c' p] IH]; [cbn; ring..|]. change (quotient z (c :: c' :: p)) with (eval (c' :: p) z :: quotient z (c' :: p)). set (q := c' :: p) in *. cbn [eval].
  replace (sub (add c (mul x (eval q x))) (add c (mul z (eval q z)))) with (add (mul x (sub (eval q x) (eval q z))) (mul (sub x z) (eval q z))) by ring. rewrite IH. ring.
Qed.

Lemma quotient_last z p : forall m, length p = S (S m) -> nth m (quotient z p) zero = nth (S m) p zero.
Proof using LF.
  induction p as [|c [|c' p] IH]; intros m Hl; [done..|]. change (quotient z (c :: c' :: p)) with (eval (c' :: p) z :: quotient z (c' :: p)). destruct m as [|m].
  - destruct p; [|done]. cbn. ring.
  - cbn [nth]. apply IH. cbn in *. lia.
Qed.

Context (k : nat) (Hk : k <= TWO_ADICITY).
Let n := 2 ^ k.
Let g : F := two_adic_generator k.

Lemma character_sum t : 0 < t <= n -> lsum (map (fun i => power g (i * t)) (seq 0 n)) = if t =? n then of_nat n else zero.
Proof using LF Hk.
  intros Ht. assert (lsum (map (fun i => power g (i * t)) (seq 0 n)) = lsum (map (power (power g t)) (seq 0 n))) as ->.
  { apply lsum_ext. intros i _. by rewrite Nat.mul_comm, power_pow. }
  destruct (Nat.eqb_spec t n) as [->|Hne].
  - unfold n, g. rewrite generator_order by done. unfold of_nat. f_equal. rewrite <- (length_seq (2 ^ k) 0) at 2. clear - LF. induction (seq 0 (2 ^ k)) as [|i l IH]; [done|]. cbn [map length replicate]. by rewrite power_one, IH.
  - assert (power g t <> one) as Hp by (apply generator_primitive; [done|fold n; lia]). pose proof (geometric (power g t) n) as G. rewrite <- power_pow, Nat.mul_comm, power_pow in G. unfold n, g in G. rewrite generator_order in G by done. fold n g in G.
    rewrite power_one in G. apply sub_nonzero in Hp. replace (lsum (map (power (power g t)) (seq 0 n))) with (mul (inverse (sub (power g t) one)) (mul (sub (power g t) one) (lsum (map (power (power g t)) (seq 0 n))))) by (field; done). rewrite G. ring.
Qed.

(** ** Sums of a polynomial over the coset *)

Context (s : F).
Let point (i : nat) : F := mul s (power g i).

Lemma coset_sum q : forall t, length q + t <= n -> t < n ->
  lsum (map (fun i => mul (power g (i * S t)) (eval q (point i))) (seq 0 n)) = mul (of_nat n) (mul (power s (n - S t)) (nth (n - S t) q zero)).
Proof using LF Hk.
  induction q as [|c q IH]; intros t Hl Ht.
  - assert (nth (n - S t) [] zero = (zero : F)) as -> by (by destruct (n - S t)). rewrite (lsum_ext _ (fun _ => zero)) by (intros; cbn [eval]; ring).
    replace (lsum (map (fun _ => zero) (seq 0 n))) with (zero : F); [ring|]. symmetry. clear -LF. induction (seq 0 n) as [|i l IHl]; [done|]. cbn [map lsum]. rewrite IHl. ring.
  - cbn [length] in Hl. rewrite (lsum_ext _ (fun i => add (mul c (power g (i * S t))) (mul s (mul (power g (i * S (S t))) (eval q (point i)))))).
    2:{ intros i _. cbn [eval]. unfold point. replace (i * S (S t)) with (i + i * S t) by lia. rewrite power_add. ring. }
    assert (forall (u v : nat -> F) l, lsum (map (fun i => add (u i) (v i)) l) = add (lsum (map u l)) (lsum (map v l))) as Hadd by (clear -LF; intros u v l; induction l as [|i l IHl]; cbn [map lsum]; [ring|]; rewrite IHl; ring).
    rewrite Hadd. rewrite <- (map_map (fun i => power g (i * S t)) (mul c)), <- lsum_scale, (character_sum (S t)) by lia.
    rewrite <- (map_map (fun i => mul (power g (i * S (S t))) (eval q (point i))) (mul s)), <- lsum_scale. destruct (Nat.eqb_spec (S t) n) as [E|E].
    + assert (q = []) as -> by (destruct q; [done|cbn in Hl; lia]). rewrite <- E, Nat.sub_diag. cbn [nth power]. rewrite (lsum_ext _ (fun _ => zero)) by (intros; cbn [eval]; ring).
      replace (lsum (map (fun _ => zero) (seq 0 (S t)))) with (zero : F); [ring|]. symmetry. clear -LF. induction (seq 0 (S t)) as [|i l IHl]; [done|]. cbn [map lsum]. rewrite IHl. ring.
    + rewrite (IH (S t)) by lia. replace (n - S t) with (S (n - S (S t))) by lia. cbn [nth power]. ring.
Qed.

Lemma eval_monomial m (x : F) : eval (replicate m zero ++ [one]) x = power x m.
Proof using LF. induction m as [|m IH]; cbn [replicate app eval power]; [ring|]. rewrite IH. ring. Qed.

Lemma n_pos : 0 < n.
Proof using. apply Nat.neq_0_lt_0, Nat.pow_nonzero. done. Qed.

Lemma point_power i : power (point i) n = power s n.
Proof using LF Hk. unfold point. rewrite power_mul, <- power_pow, Nat.mul_comm, power_pow. unfold g, n. rewrite generator_order, power_one by done. ring. Qed.

Context (z : F) (Hz : forall i, i < n -> z <> point i) (Hs : s <> zero).

(** [sum_i g^i / (z - s g^i)]. *)
Lemma inverse_sum : mul (sub (power z n) (power s n)) (lsum (map (fun i => mul (inverse (sub z (point i))) (power g i)) (seq 0 n))) = mul (of_nat n) (power s (n - 1)).
Proof using LF Hk Hz.
  pose proof n_pos as Hn. set (p := replicate n zero ++ [one : F]). assert (length p = S n) as Lp by (unfold p; rewrite length_app, length_replicate; cbn; lia). set (q := quotient z p).
  assert (length q = n) as Lq by (unfold q; rewrite quotient_length; lia). assert (nth (n - 1) q zero = one) as Eq.
  { unfold q. rewrite quotient_last by lia. unfold p. rewrite app_nth2, length_replicate by (rewrite length_replicate; lia). by replace (S (n - 1) - n) with 0 by lia. }
  transitivity (lsum (map (fun i => mul (power g (i * 1)) (eval q (point i))) (seq 0 n))).
  - rewrite lsum_scale, map_map. apply lsum_ext. intros i [_ Hi]%elem_of_seq. pose proof (sub_nonzero _ _ (Hz i ltac:(lia))) as Hd. rewrite Nat.mul_1_r.
    pose proof (eval_quotient z p (point i)) as E. fold q in E. unfold p in E. rewrite !eval_monomial, point_power in E.
    replace (sub (power z n) (power s n)) with (mul (sub z (point i)) (eval q (point i))) by (transitivity (opp (mul (sub (point i) z) (eval q (point i)))); [ring|rewrite <- E; ring]). field. done.
  - rewrite (coset_sum q 0) by lia. rewrite Eq. ring.
Qed.

(** Barycentric interpolation. *)
Lemma barycentric p : length p <= n ->
  mul (mul (sub (power z n) (power s n)) (inverse (mul (of_nat n) (power s (n - 1)))))
      (lsum (map (fun i => mul (eval p (point i)) (mul (inverse (sub z (point i))) (power g i))) (seq 0 n))) = eval p z.
Proof using LF Hk Hz Hs.
  intros Hp. pose proof n_pos as Hn. set (q := quotient z p). assert (lsum (map (fun i => mul (power g (i * 1)) (eval q (point i))) (seq 0 n)) = zero) as Eq.
  { rewrite (coset_sum q 0) by (unfold q; rewrite ?quotient_length; lia). rewrite nth_overflow by (unfold q; rewrite quotient_length; lia). ring. }
  assert (lsum (map (fun i => mul (eval p (point i)) (mul (inverse (sub z (point i))) (power g i))) (seq 0 n)) =
    mul (eval p z) (lsum (map (fun i => mul (inverse (sub z (point i))) (power g i)) (seq 0 n)))) as ->.
  { assert (forall (u v w : nat -> F) l, (forall i, i ∈ l -> u i = sub (v i) (w i)) -> lsum (map u l) = sub (lsum (map v l)) (lsum (map w l))) as Hsub.
    { clear -LF. intros u v w l. induction l as [|i l IHl]; intros Hu; cbn [map lsum]; [ring|]. rewrite (Hu i (list_elem_of_here _ _)), IHl by (intros j Hj; apply Hu; by right). ring. }
    rewrite (Hsub _ (fun i => mul (eval p z) (mul (inverse (sub z (point i))) (power g i))) (fun i => mul (power g (i * 1)) (eval q (point i)))).
    - rewrite Eq, lsum_scale, map_map. ring.
    - intros i [_ Hi]%elem_of_seq. pose proof (sub_nonzero _ _ (Hz i ltac:(lia))) as Hd. rewrite Nat.mul_1_r. pose proof (eval_quotient z p (point i)) as E. fold q in E.
      replace (eval p (point i)) with (add (eval p z) (mul (sub (point i) z) (eval q (point i)))) by (rewrite <- E; ring). field. done. }
  assert (mul (of_nat n) (power s (n - 1)) <> zero) as Hd by (apply mul_nonzero; [apply of_nat_pow2|by apply power_nonzero]).
  pose proof inverse_sum as Es. revert Es Hd. generalize (lsum (map (fun i => mul (inverse (sub z (point i))) (power g i)) (seq 0 n))) as A, (mul (of_nat n) (power s (n - 1))) as B, (sub (power z n) (power s n)) as C, (eval p z) as y.
  intros A B C y E Hb. replace (mul (mul C (inverse B)) (mul y A)) with (mul y (mul (mul C A) (inverse B))) by ring. rewrite E. field. done.
Qed.
End Coset.

(** ** Interpolation of a matrix *)

Section Interpolate.
  Context {Val Challenge : Type} `{LE : LawfulExtension Val Challenge} `{LB : LawfulBitUtil}.
Import TwoAdicFriPcs.

#[local] Existing Instance val_inst.
#[local] Existing Instance challenge_inst.
Lemma ext_field_inst : field_theory (zero : Challenge) one add mul sub opp div inverse eq.
Proof using LE. exact field_laws. Qed.
Add Field ExtField : ext_field_inst.
Lemma base_field_inst : field_theory (zero : Val) one add mul sub opp div inverse eq.
Proof using LE. exact field_laws. Qed.
Add Field BaseField : base_field_inst.

Lemma from_base_power (x : Val) m : from_base (power x m) = power (from_base x) m.
Proof using LE. induction m as [|m IH]; cbn [power]; [apply from_base_one|]. by rewrite from_base_mul, IH. Qed.

Lemma from_base_eval p (x : Val) : from_base (eval p x) = eval (map from_base p) (from_base x).
Proof using LE. induction p as [|c p IH]; cbn [map eval]; [apply from_base_zero|]. by rewrite from_base_add, from_base_mul, IH. Qed.

Lemma from_base_inverse (x : Val) : x <> zero -> from_base (inverse x) = inverse (from_base x).
Proof using LE.
  intros Hx. assert (mul (from_base x) (from_base (inverse x)) = one) as E by (rewrite <- from_base_mul, <- from_base_one; f_equal; field; done).
  assert (from_base x <> zero) as Hn. { intros E0. rewrite E0 in E. apply (one_nonzero (F := Challenge)). rewrite <- E. ring. }
  replace (from_base (inverse x)) with (mul (inverse (from_base x)) (mul (from_base x) (from_base (inverse x)))) by (field; done). rewrite E. ring.
Qed.

Lemma from_base_nonzero (x : Val) : x <> zero -> from_base x <> zero.
Proof using LE.
  intros Hx E0. assert (mul (from_base x) (from_base (inverse x)) = one) as E by (rewrite <- from_base_mul, <- from_base_one; f_equal; field; done). rewrite E0 in E. apply (one_nonzero (F := Challenge)). rewrite <- E. ring.
Qed.

Lemma from_base_of_nat m : from_base (of_nat m) = of_nat m.
Proof using LE. unfold of_nat. induction m as [|m IH]; [apply from_base_zero|]. cbn [replicate lsum]. by rewrite from_base_add, from_base_one, IH. Qed.

(** The points of the coset in natural order. *)
Definition coset_point (k i : nat) (shift : Val) : Val := mul shift (power (two_adic_generator k) i).

Lemma interpolate_eq (m : Matrix Val) k shift z polys : k <= TWO_ADICITY (F := Val) -> shift <> zero -> width m = length polys -> Forall (fun p => length p <= 2 ^ k) polys ->
  rows m = map (fun i => map (fun p => eval p (coset_point k i shift)) polys) (seq 0 (2 ^ k)) -> (forall i, i < 2 ^ k -> z <> from_base (coset_point k i shift)) ->
  interpolate_coset_precomputed m shift z (map (fun i => inverse (sub z (from_base (coset_point k i shift)))) (seq 0 (2 ^ k))) = Some (map (fun p => eval (map from_base p) z) polys).
Proof using LE LB.
  intros Hk Hs Hw Hp Hr Hz. assert (height m = 2 ^ k) as Hh by (unfold height; rewrite Hr; by rewrite length_map, length_seq). unfold interpolate_coset_precomputed. rewrite Hh, log2_strict_spec. cbn [mbind option_bind]. f_equal.
  rewrite shifted_powers_spec, length_map, length_seq, zerofier_spec, from_canonical_usize_spec, exp_u64_spec. fold (of_nat (F := Val) (2 ^ k)).
  set (scale := zip_with _ _ _). assert (scale = map (fun i => mul (inverse (sub z (from_base (coset_point k i shift)))) (power (two_adic_generator k) i)) (seq 0 (2 ^ k))) as Esc.
  { unfold scale. clear -LE Hk. induction (seq 0 (2 ^ k)) as [|i l IH]; [done|]. cbn [map zip_with]. rewrite IH. f_equal. f_equal. rewrite from_base_mul, from_base_one, from_base_power, from_base_generator by done. ring. }
  rewrite dot_product_spec; [|unfold mat_wf; rewrite Hr, Hw; apply Forall_map, Forall_true; intros; apply length_map|rewrite Esc, Hh; by rewrite length_map, length_seq].
  rewrite Hw, map_map. transitivity (map (fun c => eval (map from_base (nth c polys [])) z) (seq 0 (length polys))).
  2:{ clear. induction polys as [|p polys IH]; [done|]. cbn [length seq map nth]. f_equal. rewrite <- IH, <- seq_shift, map_map. done. }
  apply map_ext_in. intros c [_ Hc]%in_seq. destruct (lookup_lt_is_Some_2 polys c) as [p Ep]; [lia|]. rewrite (nth_lookup_Some _ _ [] _ Ep). assert (length p <= 2 ^ k) as Lp by (by apply (proj1 (Forall_lookup _ _) Hp c)).
  rewrite <- (barycentric k ltac:(pose proof adicity_le; lia) (from_base shift) z) with (p := map from_base p).
  - rewrite from_base_inverse by (apply mul_nonzero; [apply of_nat_pow2|by apply power_nonzero]). rewrite from_base_mul, from_base_of_nat, from_base_power. f_equal. rewrite Hr, Esc. f_equal.
    clear -LE Hk Ep. induction (seq 0 (2 ^ k)) as [|i l IH]; [done|]. cbn [map zip_with]. rewrite IH. f_equal. rewrite (nth_lookup_Some _ c zero (eval p (coset_point k i shift))) by (by rewrite list_lookup_fmap, Ep).
    assert (from_base (coset_point k i shift) = mul (from_base shift) (power (two_adic_generator k) i)) as E by (unfold coset_point; by rewrite from_base_mul, from_base_power, from_base_generator). by rewrite from_base_eval, E.
  - intros i Hi. specialize (Hz i Hi). unfold coset_point in Hz. by rewrite from_base_mul, from_base_power, from_base_generator in Hz.
  - by apply from_base_nonzero.
  - by rewrite length_map.
Qed.

(** C39. Interpolation is correct: on the evaluations of polynomials of degree below
    the size of a coset, and the inverses of the differences to a point outside it,
    [interpolate_coset_precomputed] returns the values of the polynomials there. *)
Theorem interpolation_correct (m : Matrix Val) k shift z polys : k <= TWO_ADICITY (F := Val) -> shift <> zero -> width m = length polys -> Forall (fun p => length p <= 2 ^ k) polys ->
  rows m = map (fun i => map (fun p => eval p (coset_point k i shift)) polys) (seq 0 (2 ^ k)) -> (forall i, i < 2 ^ k -> z <> from_base (coset_point k i shift)) ->
  interpolate_coset_precomputed m shift z (map (fun i => inverse (sub z (from_base (coset_point k i shift)))) (seq 0 (2 ^ k))) = Some (map (fun p => eval (map from_base p) z) polys).
Proof using LE LB. apply interpolate_eq. Qed.
End Interpolate.
