(* ===== verification/FriComplete.v ===== *)
(** * Openings verify

    The reduction of [open] and that of [verify] follow one abstract reduction, a
    polynomial and a power of [alpha] per height; with the completeness of FRI and
    of the input commitments, what [open] proves [verify] accepts. *)

From Stdlib Require Import Lia Bool PeanoNat Field.
From stdpp Require Import base list.
From S2P Require Import Prelude MerkleTree MerkleOpen Fri FriProtocol FriPcs FriSequential FriInterpolate.

(** * Values and quotients of an opening

    On low-degree extensions the opening finds the inverse denominators it needs,
    its values are those of the polynomials, and the reduced openings are
    evaluations of polynomials of low degree. *)

Section Open.
  Context {Val Challenge : Type} `{LE : LawfulExtension Val Challenge} `{LB : LawfulBitUtil} `{EC : EqDecision Challenge} `{PK : PackedField Val} `{LP : !LawfulPacking Val}.
Import TwoAdicFriPcs.

#[local] Existing Instance val_inst.
#[local] Existing Instance challenge_inst.
Lemma open_field_inst : field_theory (zero : Challenge) one add mul sub opp div inverse eq.
Proof using LE. exact field_laws. Qed.
Add Field OpenField : open_field_inst.

(** ** Extensions *)

(** The point at position [j] of the coset of size [2 ^ m], and in the extension. *)
Definition base_point (m j : nat) : Val := mul generator (dom m j).
Definition ext_point (m j : nat) : Challenge := from_base (base_point m j).

(** The low-degree extension of columns [ps] of degree below [2 ^ k]. *)
Definition lde (b k : nat) (ps : list (list Val)) : Matrix Val :=
  mkMatrix (length ps) (map (fun j => map (fun p => eval p (base_point (k + b) j)) ps) (seq 0 (2 ^ (k + b)))).

(** No point of the coset of size [2 ^ L]. *)
Definition outside (L : nat) (z : Challenge) : Prop := forall j, j < 2 ^ L -> z <> ext_point L j.

Lemma ext_point_dom m j : m <= TWO_ADICITY (F := Val) -> ext_point m j = mul (from_base generator) (dom m j).
Proof using LE. intros Hm. unfold ext_point, base_point, dom. by rewrite from_base_mul, from_base_power, from_base_generator. Qed.

Lemma base_point_prefix m L j : m <= L -> L <= TWO_ADICITY (F := Val) -> j < 2 ^ m -> base_point L j = base_point m j.
Proof using LE. intros. unfold base_point. by rewrite (dom_prefix m L). Qed.

Lemma lde_height b k ps : height (lde b k ps) = 2 ^ (k + b).
Proof using. unfold height, lde. cbn [rows]. by rewrite length_map, length_seq. Qed.

Lemma lde_row b k ps j : j < 2 ^ (k + b) -> row (lde b k ps) j = map (fun p => eval p (base_point (k + b) j)) ps.
Proof using. intros Hj. unfold row, lde. cbn [rows]. rewrite nth_lookup, list_lookup_fmap, lookup_seq_lt by done. done. Qed.

Lemma lde_wf b k ps : mat_wf (lde b k ps).
Proof using. unfold mat_wf, lde. cbn [rows width]. apply Forall_map, Forall_true. intros. apply length_map. Qed.

(** ** Inverse denominators *)

(** The inverses for a point and a height. *)
Definition inverses_for (inv : list (Challenge * list Challenge)) (m : nat) (z : Challenge) : Prop :=
  exists l, get inv z = Some l /\ 2 ^ m <= length l /\ forall j, j < 2 ^ m -> l !! j = Some (inverse (sub (ext_point m j) z)).

Lemma get_raise (mp : list (Challenge * nat)) z h z' : get (raise mp z h) z' = if decide (z' = z) then Some (match get mp z with Some lh => Nat.max lh h | None => h end) else get mp z'.
Proof using.
  induction mp as [|[y lh] mp IH]; cbn [raise get]; [by destruct (decide (z' = z))|]. destruct (decide (z = y)) as [->|Hne]; cbn [get].
  - by destruct (decide (z' = y)).
  - destruct (decide (z' = y)) as [->|Hne']; [by destruct (decide (y = z))|]. exact IH.
Qed.

Lemma raise_keys (P : Challenge * nat -> Prop) mp z h : Forall P mp -> P (z, h) -> (forall lh, P (z, lh) -> P (z, Nat.max lh h)) -> Forall P (raise mp z h).
Proof using.
  intros Hf Hz Hm. induction Hf as [|[y lh] mp Hy Hf IH]; cbn [raise]; [by constructor|]. destruct (decide (z = y)) as [->|Hne]; [|by constructor]. constructor; [by apply Hm|done].
Qed.

(** Raising the heights of points. *)
Lemma raise_all (pts : list Challenge) h : forall (mp : list (Challenge * nat)) z lh, get mp z = Some lh -> exists lh', lh <= lh' /\ get (fold_left (fun mp z => raise mp z h) pts mp) z = Some lh'.
Proof using.
  induction pts as [|y pts IH]; intros mp z lh E; [by exists lh|]. cbn [fold_left]. destruct (IH (raise mp y h) z (if decide (z = y) then Nat.max lh h else lh)) as (lh' & Hle & E').
  - rewrite get_raise. destruct (decide (z = y)) as [->|]; [by rewrite E|done].
  - exists lh'. split; [|done]. destruct (decide (z = y)); lia.
Qed.

Lemma raise_in (pts : list Challenge) h : forall (mp : list (Challenge * nat)) z, z ∈ pts -> exists lh, h <= lh /\ get (fold_left (fun mp z => raise mp z h) pts mp) z = Some lh.
Proof using.
  induction pts as [|y pts IH]; intros mp z Hz; [by apply not_elem_of_nil in Hz|]. cbn [fold_left]. apply elem_of_cons in Hz as [->|Hz]; [|by apply IH].
  destruct (raise_all pts h (raise mp y h) y (match get mp y with Some lh => Nat.max lh h | None => h end)) as (lh & Hle & E); [by rewrite get_raise, decide_True|].
  exists lh. split; [|done]. destruct (get mp y); lia.
Qed.

Lemma raise_points_ok L (hps : list (nat * list Challenge)) : Forall (fun hp => hp.1 <= L /\ Forall (outside L) hp.2) hps -> forall mp, Forall (fun e : Challenge * nat => e.2 <= L /\ outside L e.1) mp ->
  exists mp', foldM raise_points mp (map (fun '(h, pts) => (2 ^ h, pts)) hps) = Some mp' /\ Forall (fun e : Challenge * nat => e.2 <= L /\ outside L e.1) mp' /\
  (forall z lh, get mp z = Some lh -> exists lh', lh <= lh' /\ get mp' z = Some lh') /\ (forall h pts z, (h, pts) ∈ hps -> z ∈ pts -> exists lh, h <= lh /\ get mp' z = Some lh).
Proof using LB.
  induction 1 as [|[h pts] hps [Hh Hpts] Hf IH]; intros mp Hmp.
  { exists mp. split_and!; [done|done|intros z lh E; by exists lh|]. intros h pts z Hin. by apply not_elem_of_nil in Hin. }
  cbn [map foldM raise_points]. rewrite log2_strict_spec. cbn [mbind option_bind fst snd] in *. set (mp1 := fold_left _ pts mp).
  assert (Forall (fun e : Challenge * nat => e.2 <= L /\ outside L e.1) mp1) as Hmp1.
  { subst mp1. clear IH. revert mp Hmp. induction Hpts as [|y pts Hy Hpts IHp]; intros mp Hmp; [done|]. cbn [fold_left]. apply IHp. apply raise_keys; cbn; [done|by split|]. intros lh [? ?]. split; [lia|done]. }
  destruct (IH mp1 Hmp1) as (mp' & E & Hmp' & Hmono & Hall). exists mp'. split_and!; [done|done| |].
  - intros z lh Ez. destruct (raise_all pts h mp z lh Ez) as (lh1 & Hle & E1). destruct (Hmono z lh1 E1) as (lh' & Hle' & E'). exists lh'. split; [lia|done].
  - intros h' pts' z Hin Hz. apply elem_of_cons in Hin as [[= -> ->]|Hin]; [|by apply (Hall h' pts')]. destruct (raise_in pts h mp z Hz) as (lh1 & Hle & E1). destruct (Hmono z lh1 E1) as (lh' & Hle' & E'). exists lh'. split; [lia|done].
Qed.

Lemma get_mapM {A B} (f : Challenge * A -> option B) (mp : list (Challenge * A)) inv z a : mapM (fun '(z, a) => b ← f (z, a); Some (z, b)) mp = Some inv -> get mp z = Some a ->
  exists b, f (z, a) = Some b /\ get inv z = Some b.
Proof using.
  revert inv. induction mp as [|[y c] mp IH]; intros inv Hm Hg; [done|]. cbn [mapM] in Hm. cbn [get] in Hg. destruct (f (y, c)) as [b|] eqn:Ef; [|discriminate Hm]. cbn [mbind option_bind] in Hm.
  destruct (mapM _ mp) as [inv'|] eqn:Em; [|discriminate Hm]. injection Hm as <-. cbn [get]. destruct (decide (z = y)) as [->|]; [injection Hg as <-; by exists b|]. by apply IH.
Qed.

Lemma get_elem {A} (mp : list (Challenge * A)) z a : get mp z = Some a -> (z, a) ∈ mp.
Proof using.
  induction mp as [|[y c] mp IH]; intros E; [done|]. cbn [get] in E. destruct (decide (z = y)) as [->|]; [injection E as ->; left|right; by apply IH].
Qed.

Lemma inverse_denominators_ok L (hps : list (nat * list Challenge)) dims_and_points : L <= TWO_ADICITY (F := Val) ->
  flat_map (fun '(dims, points) => zip (map dim_height dims) points) dims_and_points = map (fun '(h, pts) => (2 ^ h, pts)) hps ->
  Forall (fun hp => hp.1 <= L /\ Forall (outside L) hp.2) hps -> (exists h pts z, (h, pts) ∈ hps /\ z ∈ pts) ->
  exists inv, compute_inverse_denominators_from_dims dims_and_points generator = Some inv /\ forall h pts z, (h, pts) ∈ hps -> z ∈ pts -> inverses_for inv h z.
Proof using LE LB.
  intros HL Ed Hf (h0 & pts0 & z0 & Hin0 & Hz0). unfold compute_inverse_denominators_from_dims. rewrite Ed. destruct (raise_points_ok L hps Hf [] (Forall_nil_2 _)) as (mp & -> & Hmp & _ & Hall). cbn [mbind option_bind].
  assert (exists M, max_list (map snd mp) = Some M /\ M <= L /\ forall e, e ∈ mp -> e.2 <= M) as (M & -> & HM & Hle).
  { destruct (Hall h0 pts0 z0 Hin0 Hz0) as (lh & _ & E). destruct mp as [|e mp]; [done|]. exists (list_max (map snd (e :: mp))). split; [done|]. split.
    - apply list_max_le. rewrite Forall_map. eapply Forall_impl; [exact Hmp|]. by intros e' [? _].
    - pose proof (proj1 (list_max_le (map snd (e :: mp)) _) (le_n _)) as Hm. by rewrite Forall_map, Forall_forall in Hm. }
  cbn [mbind option_bind]. rewrite coset_spec. set (subgroup := reverse_slice_index_bits _).
  assert (length subgroup = 2 ^ M) as Ls by (subst subgroup; by rewrite reverse_slice_length, length_map, length_seq).
  assert (forall j, j < 2 ^ M -> subgroup !! j = Some (base_point M j)) as Hsub.
  { intros j Hj. subst subgroup. rewrite (reverse_slice_spec _ M j) by (done || by rewrite length_map, length_seq). pose proof (bit_reverse_lt M j). rewrite list_lookup_fmap, lookup_seq_lt by done. done. }
  assert (forall z lh, lh <= M -> outside L z -> batch_multiplicative_inverse (map (fun x => sub (from_base x) z) (take (2 ^ lh) subgroup)) = Some (map (fun x => inverse (sub (from_base x) z)) (take (2 ^ lh) subgroup))) as Hbi.
  { intros z lh Hlh Ho. rewrite batch_inverse_spec; [by rewrite map_map|]. apply Forall_map, Forall_lookup. intros j x Ex. apply lookup_take_Some in Ex as [Ex Hj]. assert (j < 2 ^ M) as HjM by (rewrite <- Ls; by apply lookup_lt_Some in Ex).
    rewrite Hsub in Ex by done. injection Ex as <-. apply sub_nonzero. intros E. apply (Ho j); [apply (Nat.lt_le_trans _ (2 ^ M)); [done|apply Nat.pow_le_mono_r; lia]|]. unfold ext_point. rewrite (base_point_prefix M L) by done. done. }
  set (f := fun e : Challenge * nat => batch_multiplicative_inverse (map (fun x => sub (from_base x) e.1) (take (2 ^ e.2) subgroup))).
  assert (forall e, e ∈ mp -> f e = Some (map (fun x => inverse (sub (from_base x) e.1)) (take (2 ^ e.2) subgroup))) as Hfe.
  { intros e He. apply Hbi; [by apply Hle|]. by apply (proj1 (Forall_forall _ _) Hmp e He). }
  destruct (mapM_total (fun '(z, a) => b ← f (z, a); Some (z, b)) mp) as [inv Hinv]; [intros [z lh] Hin; rewrite Hfe by done; by eexists|].
  exists inv. split; [exact Hinv|]. intros h pts z Hin Hz. destruct (Hall h pts z Hin Hz) as (lh & Hlh & Eg). destruct (get_mapM f mp inv z lh Hinv Eg) as (l & El & Egl).
  assert (lh <= M) as HlM by (by apply (Hle (z, lh)), get_elem). rewrite (Hfe (z, lh)) in El by (by apply get_elem). injection El as <-. cbn [fst snd] in *. eexists. split; [exact Egl|]. assert (2 ^ h <= 2 ^ lh) as Hp1 by (apply Nat.pow_le_mono_r; lia). assert (2 ^ lh <= 2 ^ M) as Hp2 by (apply Nat.pow_le_mono_r; lia). split.
  - rewrite length_map, length_take, Ls. lia.
  - intros j Hj. rewrite list_lookup_fmap, lookup_take_lt, Hsub by lia. cbn. unfold ext_point. by rewrite (base_point_prefix h M) by lia.
Qed.

(** ** Values *)

(** The values of the columns at a point. *)
Definition values_at (z : Challenge) (ps : list (list Val)) : list Challenge := map (fun p => eval (map from_base p) z) ps.

Lemma dom_reversed (k i : nat) : i < 2 ^ k -> dom k (bit_reverse k i) = power (two_adic_generator (F := Val) k) i.
Proof using. intros Hi. unfold dom. by rewrite bit_reverse_involutive. Qed.

Lemma opp_inverse (x z : Challenge) : z <> x -> opp (inverse (sub x z)) = inverse (sub z x).
Proof using LE.
  intros Hz. assert (sub x z <> zero) as H1' by (apply sub_nonzero; by intros ->). assert (sub z x <> zero) as H2' by (by apply sub_nonzero). field. done.
Qed.

Lemma open_at_lde b k ps inv z L : k + b <= L -> L <= TWO_ADICITY (F := Val) -> Forall (fun p => length p <= 2 ^ k) ps -> outside L z -> inverses_for inv (k + b) z ->
  open_at b inv (lde b k ps) z = Some (values_at z ps).
Proof using LE LB.
  intros HL HLt Hps Ho (l & El & Ll & Hl). assert (2 ^ k <= 2 ^ (k + b)) as Hkb by (apply Nat.pow_le_mono_r; lia). assert (2 ^ (k + b) <= 2 ^ L) as HkL by (apply Nat.pow_le_mono_r; lia).
  unfold open_at. rewrite lde_height. replace (2 ^ (k + b) / 2 ^ b) with (2 ^ k) by (rewrite Nat.pow_add_r; symmetry; apply Nat.div_mul, Nat.pow_nonzero; done). rewrite log2_strict_spec. cbn [mbind option_bind]. rewrite El. cbn [mbind option_bind].
  assert (forall j, j < 2 ^ k -> base_point (k + b) j = base_point k j) as Hbp by (intros j Hj; apply base_point_prefix; lia).
  assert (forall i, i < 2 ^ k -> base_point k (bit_reverse k i) = coset_point k i generator) as Hcp by (intros i Hi; unfold base_point, coset_point; by rewrite dom_reversed).
  assert (forall i, i < 2 ^ k -> z <> from_base (coset_point k i generator)) as Hz.
  { intros i Hi. pose proof (bit_reverse_lt k i) as Hb. rewrite <- Hcp by done. rewrite <- (base_point_prefix k L) by lia. apply Ho. lia. }
  rewrite (mapM_pointwise _ (fun i => inverse (sub z (from_base (coset_point k i generator))))).
  2:{ intros i [_ Hi]%elem_of_seq. cbn [Nat.add] in Hi. pose proof (bit_reverse_lt k i) as Hb. rewrite reverse_bits_len_spec, Hl by lia. cbn. f_equal. unfold ext_point. rewrite Hbp, Hcp by done. by apply opp_inverse, Hz. }
  cbn [mbind option_bind]. apply interpolate_eq; try done; [lia|apply generator_nonzero|].
  unfold bit_reverse_rows, lde. cbn [rows width]. apply list_eq. intros i. assert (length (take (2 ^ k) (map (fun j => map (fun p => eval p (base_point (k + b) j)) ps) (seq 0 (2 ^ (k + b))))) = 2 ^ k) as Lt by (rewrite length_take, length_map, length_seq; lia).
  destruct (decide (i < 2 ^ k)) as [Hi|Hi]; [|rewrite !lookup_ge_None_2; [done|rewrite length_map, length_seq; lia|rewrite reverse_slice_length; lia]].
  pose proof (bit_reverse_lt k i) as Hb. rewrite (reverse_slice_spec _ k i Lt Hi), lookup_take_lt by done. rewrite !list_lookup_fmap, !lookup_seq_lt by lia. cbn [fmap option_fmap option_map Nat.add]. by rewrite Hbp, Hcp.
Qed.

(** ** Quotients *)

(** The columns with powers of [alpha]. *)
Fixpoint combine (alpha : Challenge) (ps : list (list Val)) : list Challenge :=
  match ps with [] => [] | p :: ps => poly_add (map from_base p) (poly_scale alpha (combine alpha ps)) end.

Lemma eval_combine alpha ps x : eval (combine alpha ps) x = eval (map (fun p => eval (map from_base p) x) ps) alpha.
Proof using LE. induction ps as [|p ps IH]; [done|]. cbn [combine map eval]. by rewrite eval_add, eval_scale, IH. Qed.

Lemma combine_length alpha ps n : Forall (fun p => length p <= n) ps -> length (combine alpha ps) <= n.
Proof using. induction 1 as [|p ps Hp Hf IH]; [cbn; lia|]. cbn [combine]. unfold poly_scale. rewrite poly_add_length, !length_map. lia. Qed.

(** [q(c X)]. *)
Fixpoint dilate (c : Challenge) (q : list Challenge) : list Challenge := match q with [] => [] | a :: q => a :: poly_scale c (dilate c q) end.

Lemma eval_dilate c q x : eval (dilate c q) x = eval q (mul c x).
Proof using LE. induction q as [|a q IH]; [done|]. cbn [dilate eval]. rewrite eval_scale, IH. ring. Qed.

Lemma dilate_length c q : length (dilate c q) = length q.
Proof using. induction q as [|a q IH]; [done|]. cbn [dilate length]. unfold poly_scale. by rewrite length_map, IH. Qed.

(** What a point adds to the polynomial of its height. *)
Definition point_poly (alpha : Challenge) (num : nat) (z : Challenge) (ps : list (list Val)) : list Challenge :=
  poly_scale (power alpha num) (dilate (from_base generator) (quotient z (combine alpha ps))).

Lemma point_poly_eval alpha num z ps m j : m <= TWO_ADICITY (F := Val) -> z <> ext_point m j ->
  eval (point_poly alpha num z ps) (dom m j) =
  mul (mul (inverse (sub (ext_point m j) z)) (power alpha num)) (sub (eval (map from_base (map (fun p => eval p (base_point m j)) ps)) alpha) (eval (values_at z ps) alpha)).
Proof using LE.
  intros Hm Hz. unfold point_poly. rewrite eval_scale, eval_dilate, <- ext_point_dom by done. rewrite map_map. rewrite (map_ext _ (fun p => eval (map from_base p) (ext_point m j))) by (intros p; by rewrite from_base_eval).
  unfold values_at. rewrite <- !eval_combine, eval_quotient. assert (sub (ext_point m j) z <> zero) as Hd by (apply sub_nonzero; by intros E). field. done.
Qed.

Lemma point_poly_length alpha num z ps n : Forall (fun p => length p <= n) ps -> length (point_poly alpha num z ps) <= n.
Proof using.
  intros Hp. unfold point_poly, poly_scale. rewrite length_map, dilate_length, quotient_length. pose proof (combine_length alpha ps n Hp). lia.
Qed.
End Open.

Section Complete.
  Context {Val Challenge : Type} `{LE : LawfulExtension Val Challenge} `{LB : LawfulBitUtil} `{EC : EqDecision Challenge} `{EV : EqDecision Val} `{PK : PackedField Val} `{LP : !LawfulPacking Val}.
  Context `{IM : InputMmcs Val} `{MM : Mmcs Challenge} `{FC : !FriChallenger Challenge}.
Import TwoAdicFriPcs.

#[local] Existing Instance val_inst.
#[local] Existing Instance challenge_inst.
Lemma complete_field_inst : field_theory (zero : Challenge) one add mul sub opp div inverse eq.
Proof using LE. exact field_laws. Qed.
Add Field CompleteField : complete_field_inst.

(** ** The abstract reduction *)

(** A matrix: its degree bound [2 ^ k], its columns and its points. *)
Record MatSpec : Type := mkMatSpec { ms_log : nat; ms_columns : list (list Val); ms_points : list Challenge }.

(** Per height: the number of columns so far and their polynomial. *)
Local Abbreviation Spec := (list (nat * option (list Challenge))) (only parsing).

Definition spec_point (alpha : Challenge) (ps : list (list Val)) (st : nat * list Challenge) (z : Challenge) : nat * list Challenge :=
  (st.1 + length ps, poly_add st.2 (point_poly alpha st.1 z ps)).

Definition spec_mat (alpha : Challenge) (b : nat) (st : Spec) (m : MatSpec) : Spec :=
  alter (fun e : nat * option (list Challenge) =>
           let '(num, R) := fold_left (spec_point alpha (ms_columns m)) (ms_points m) (e.1, default [] e.2) in (num, Some R)) (ms_log m + b) st.

Definition spec_start : Spec := replicate 32 (0, None).

(** The state of the prover, and that of the verifier at a query. *)
Definition prover_state (st : Spec) : Reduction Challenge := mkReduction (map fst st) (inputs (map snd st)).
Definition verifier_state (alpha : Challenge) (L index : nat) (st : Spec) : list Challenge * list Challenge :=
  (imap (fun m e => eval (default [] e.2) (dom m (index / 2 ^ (L - m)))) st, map (fun e : nat * option (list Challenge) => power alpha e.1) st).

(** ** The prover *)

Lemma reduce_rows_map (r : PowersReducer.PowersReducer Val Challenge) y (f h s : nat -> Challenge) (g : nat -> list Val) l : (forall j, j ∈ l -> PowersReducer.reduce_base r (g j) = Some (s j)) ->
  reduce_rows r y (map f l) (map g l) (map h l) = Some (map (fun j => add (f j) (mul (h j) (sub (s j) y))) l).
Proof using.
  induction l as [|j l IH]; intros Hs; [done|]. cbn [map reduce_rows]. rewrite (Hs j (list_elem_of_here _ _)). cbn [mbind option_bind]. rewrite IH by (intros i Hi; apply Hs; by right). done.
Qed.

Context (b L : nat) (HLt : L <= TWO_ADICITY (F := Val)) (HL32 : L < 32).
Context (alpha : Challenge) (w n : nat) (reducer : PowersReducer.PowersReducer Val Challenge) (Hred : reducer_ok alpha w reducer n).

(** A matrix of the opening: low degree, not too wide or tall, points outside. *)
Record mat_ok (inv : list (Challenge * list Challenge)) (m : MatSpec) : Prop := {
  mo_log : 1 <= ms_log m;
  mo_height : ms_log m + b <= L;
  mo_width : length (ms_columns m) <= w;
  mo_degree : Forall (fun p => length p <= 2 ^ ms_log m) (ms_columns m);
  mo_points : Forall (fun z => outside L z /\ inverses_for inv (ms_log m + b) z) (ms_points m)
}.

Lemma reduce_point_spec inv m z num R : mat_ok inv m -> outside L z -> inverses_for inv (ms_log m + b) z ->
  reduce_point alpha reducer inv (lde b (ms_log m) (ms_columns m)) (ms_log m + b) (num, evals (ms_log m + b) R) (z, values_at z (ms_columns m)) =
  Some (let '(num, R) := spec_point alpha (ms_columns m) (num, R) z in (num, evals (ms_log m + b) R)).
Proof using LE LB LP Hred HLt HL32.
  intros Hm Ho (l & El & Ll & Hl). destruct m as [k ps pts]. cbn [ms_log ms_columns] in *. pose proof (mo_height _ _ Hm) as Hh. pose proof (mo_width _ _ Hm) as Hw. cbn in Hh, Hw. unfold reduce_point. rewrite El. cbn [mbind option_bind]. rewrite lde_height.
  assert ((length l <? 2 ^ (k + b)) = false) as -> by (by apply Nat.ltb_ge). rewrite exp_u64_spec. assert (take (2 ^ (k + b)) l = map (fun j => inverse (sub (ext_point (k + b) j) z)) (seq 0 (2 ^ (k + b)))) as ->.
  { apply list_eq. intros j. rewrite list_lookup_fmap. destruct (decide (j < 2 ^ (k + b))) as [Hj|Hj]; [rewrite lookup_take_lt, Hl, lookup_seq_lt by done; done|]. rewrite !lookup_ge_None_2; [done|rewrite length_seq; lia|rewrite length_take; lia]. }
  rewrite map_map. change (rows (lde b k ps)) with (map (fun j => map (fun p => eval p (base_point (k + b) j)) ps) (seq 0 (2 ^ (k + b)))). unfold evals at 1. rewrite (reduce_rows_map _ _ _ _ (fun j => eval (map from_base (map (fun p => eval p (base_point (k + b) j)) ps)) alpha)).
  2:{ intros j _. apply (reduce_base_eq alpha w reducer n); [done|]. by rewrite length_map. }
  cbn [mbind option_bind]. unfold spec_point. cbn [fst snd width lde]. do 3 f_equal. unfold evals. apply map_ext_in. intros j [_ Hj]%in_seq. rewrite eval_add. f_equal. rewrite point_poly_eval; [|lia|].
  - rewrite (reduce_ext_eq alpha w reducer n) by (done || by unfold values_at; rewrite length_map). done.
  - unfold ext_point. rewrite <- (base_point_prefix (k + b) L) by (done || lia). apply Ho. apply (Nat.lt_le_trans _ (2 ^ (k + b))); [lia|]. apply Nat.pow_le_mono_r; lia.
Qed.

Lemma reduce_points_spec inv m pts : mat_ok inv m -> Forall (fun z => outside L z /\ inverses_for inv (ms_log m + b) z) pts -> forall num R,
  foldM (reduce_point alpha reducer inv (lde b (ms_log m) (ms_columns m)) (ms_log m + b)) (num, evals (ms_log m + b) R) (zip pts (map (fun z => values_at z (ms_columns m)) pts)) =
  Some (let '(num, R) := fold_left (spec_point alpha (ms_columns m)) pts (num, R) in (num, evals (ms_log m + b) R)).
Proof using LE LB LP Hred HLt HL32.
  intros Hm. induction 1 as [|z pts [Ho Hi] Hf IH]; intros num R; [done|]. cbn [map zip zip_with foldM fold_left]. rewrite (reduce_point_spec inv m z num R Hm Ho Hi). cbn [mbind option_bind spec_point fst snd]. apply IH.
Qed.

Lemma inputs_alter (l : list (nat * option (list Challenge))) f i : inputs (map snd (alter f i l)) = alter (fun _ => evals i <$> (f (default (0, None) (l !! i))).2) i (inputs (map snd l)).
Proof using.
  apply list_eq. intros j. rewrite inputs_lookup, list_lookup_fmap. destruct (decide (i = j)) as [<-|Hne].
  - rewrite !list_lookup_alter_eq, inputs_lookup, list_lookup_fmap. by destruct (l !! i).
  - rewrite !list_lookup_alter_ne, inputs_lookup, list_lookup_fmap by done. done.
Qed.

Lemma evals_nil i : evals i [] = replicate (2 ^ i) (zero : Challenge).
Proof using. unfold evals. cbn [eval]. rewrite <- (length_seq (2 ^ i) 0) at 2. induction (seq 0 (2 ^ i)) as [|j l IH]; [done|]. cbn [map length replicate]. by rewrite IH. Qed.

Lemma reduce_mat_spec inv st m : mat_ok inv m -> length st = 32 ->
  reduce_mat alpha reducer inv (prover_state st) (lde b (ms_log m) (ms_columns m), ms_points m, map (fun z => values_at z (ms_columns m)) (ms_points m)) = Some (prover_state (spec_mat alpha b st m)).
Proof using LE LB LP Hred HLt HL32.
  intros Hm Hl. pose proof (mo_height _ _ Hm) as Hh. unfold reduce_mat. rewrite lde_height, log2_strict_spec. cbn [mbind option_bind prover_state num_reduced reduced_openings]. destruct (lookup_lt_is_Some_2 st (ms_log m + b)) as [[num o] Eo]; [lia|].
  rewrite inputs_lookup, !list_lookup_fmap, Eo. cbn [fmap option_fmap option_map mbind option_bind fst snd].
  assert (default (replicate (2 ^ (ms_log m + b)) zero) (evals (ms_log m + b) <$> o) = evals (ms_log m + b) (default [] o)) as -> by (destruct o; [done|]; symmetry; apply evals_nil).
  rewrite (reduce_points_spec inv m (ms_points m) Hm (mo_points _ _ Hm)). destruct (fold_left _ (ms_points m) (num, default [] o)) as [num' R] eqn:Ef. cbn [mbind option_bind]. f_equal. unfold prover_state, spec_mat. f_equal.
  - apply list_eq. intros j. rewrite list_lookup_fmap. destruct (decide (ms_log m + b = j)) as [<-|Hne].
    + rewrite list_lookup_insert_eq by (rewrite length_map; lia). rewrite list_lookup_alter_eq, Eo. cbn [fmap option_fmap option_map fst snd]. by rewrite Ef.
    + rewrite list_lookup_insert_ne, list_lookup_alter_ne, list_lookup_fmap by done. done.
  - rewrite inputs_alter, Eo. cbn [default from_option id fst snd]. rewrite Ef. cbn [snd fmap option_fmap option_map]. apply list_eq. intros j. destruct (decide (ms_log m + b = j)) as [<-|Hne].
    + rewrite list_lookup_insert_eq by (unfold inputs; rewrite length_imap, length_map; lia). rewrite list_lookup_alter_eq, inputs_lookup, list_lookup_fmap, Eo. done.
    + by rewrite list_lookup_insert_ne, list_lookup_alter_ne by done.
Qed.

(** ** The verifier *)

Lemma add_quotients h x z : sub x z <> zero -> forall (row : list Val) ys ro alpha_pow r a, length row = length ys -> ro !! h = Some r -> alpha_pow !! h = Some a ->
  foldM (add_quotient alpha x z h) (ro, alpha_pow) (zip row ys) =
  Some (<[h := add r (mul a (mul (inverse (sub x z)) (sub (eval (map from_base row) alpha) (eval ys alpha))))]> ro, <[h := mul a (power alpha (length row))]> alpha_pow).
Proof using LE.
  intros Hd. assert (add (opp z) x = sub x z) as Ed by ring. induction row as [|v row IH]; intros [|y ys] ro alpha_pow r a Hl Hr Ha; try done; cbn [zip zip_with foldM map eval length power].
  - f_equal. f_equal; symmetry; apply list_insert_id; [rewrite Hr|rewrite Ha]; f_equal; ring.
  - injection Hl as Hl. cbn [add_quotient]. rewrite Ed, decide_False, Hr, Ha by done. cbn [mbind option_bind].
    rewrite (IH ys _ _ _ _ Hl (list_lookup_insert_eq ro h _ (lookup_lt_Some _ _ _ Hr)) (list_lookup_insert_eq alpha_pow h _ (lookup_lt_Some _ _ _ Ha))), !list_insert_insert_eq.
    f_equal. f_equal; f_equal; [field; done|ring].
Qed.

Lemma verify_points_spec inv m pts j : mat_ok inv m -> j < 2 ^ (ms_log m + b) -> Forall (fun z => outside L z /\ inverses_for inv (ms_log m + b) z) pts -> forall num R ro alpha_pow,
  ro !! (ms_log m + b) = Some (eval R (dom (ms_log m + b) j)) -> alpha_pow !! (ms_log m + b) = Some (power alpha num) ->
  foldM (add_point alpha (ext_point (ms_log m + b) j) (ms_log m + b) (map (fun p => eval p (base_point (ms_log m + b) j)) (ms_columns m))) (ro, alpha_pow) (map (fun z => (z, values_at z (ms_columns m))) pts) =
  (let '(num, R) := fold_left (spec_point alpha (ms_columns m)) pts (num, R) in Some (<[ms_log m + b := eval R (dom (ms_log m + b) j)]> ro, <[ms_log m + b := power alpha num]> alpha_pow)).
Proof using LE HLt HL32.
  intros Hm Hj. pose proof (mo_height _ _ Hm) as Hh. induction 1 as [|z pts [Ho _] Hf IH]; intros num R ro alpha_pow Hr Ha; [cbn; f_equal; f_equal; symmetry; by apply list_insert_id|]. cbn [map fold_left foldM add_point].
  assert (z <> ext_point (ms_log m + b) j) as Hz. { unfold ext_point. rewrite <- (base_point_prefix (ms_log m + b) L) by (done || lia). apply Ho. apply (Nat.lt_le_trans _ (2 ^ (ms_log m + b))); [lia|]. apply Nat.pow_le_mono_r; lia. }
  assert (spec_point alpha (ms_columns m) (num, R) z = (num + length (ms_columns m), poly_add R (point_poly alpha num z (ms_columns m)))) as -> by reflexivity.
  assert (sub (ext_point (ms_log m + b) j) z <> zero) as Hd by (apply sub_nonzero; intros E; by apply Hz).
  set (opening := map _ (ms_columns m)) in IH |- *. assert (length opening = length (values_at z (ms_columns m))) as Hlen by (unfold opening, values_at; by rewrite !length_map).
  rewrite (add_quotients (ms_log m + b) (ext_point (ms_log m + b) j) z Hd opening (values_at z (ms_columns m)) ro alpha_pow _ _ Hlen Hr Ha). cbn [mbind option_bind]. subst opening.
  rewrite (IH (num + length (ms_columns m)) (poly_add R (point_poly alpha num z (ms_columns m)))).
  - destruct (fold_left _ pts _) as [num' R']. by rewrite !list_insert_insert_eq.
  - rewrite list_lookup_insert_eq by exact (lookup_lt_Some _ _ _ Hr). f_equal. rewrite eval_add, point_poly_eval by (done || lia). f_equal. ring.
  - rewrite list_lookup_insert_eq by exact (lookup_lt_Some _ _ _ Ha). f_equal. by rewrite length_map, power_add.
Qed.

Lemma verify_mat_spec inv st m index shift : mat_ok inv m -> length st = 32 -> index < 2 ^ L ->
  verify_mat b L index alpha (verifier_state alpha L index st)
    (row (lde b (ms_log m) (ms_columns m)) (index / 2 ^ (L - (ms_log m + b))), (mkDomain (ms_log m) shift, map (fun z => (z, values_at z (ms_columns m))) (ms_points m))) =
  Some (verifier_state alpha L index (spec_mat alpha b st m)).
Proof using LE LB HLt HL32.
  intros Hm Hl Hi. pose proof (mo_height _ _ Hm) as Hh. unfold verify_mat, verifier_state at 1. unfold size. cbn [log_n]. rewrite log2_strict_spec. cbn [mbind option_bind]. assert ((L <? ms_log m + b) = false) as -> by (apply Nat.ltb_ge; lia).
  set (j := index / 2 ^ (L - (ms_log m + b))). assert (j < 2 ^ (ms_log m + b)) as Hj by (subst j; apply Nat.Div0.div_lt_upper_bound; rewrite <- Nat.pow_add_r; by replace (L - (ms_log m + b) + (ms_log m + b)) with L by lia).
  rewrite reverse_bits_len_spec, exp_u64_spec by done. change (mul generator (power (two_adic_generator (ms_log m + b)) (bit_reverse (ms_log m + b) j))) with (base_point (ms_log m + b) j). fold (ext_point (ms_log m + b) j).
  destruct (lookup_lt_is_Some_2 st (ms_log m + b)) as [[num o] Eo]; [lia|]. rewrite lde_row by done.
  rewrite (verify_points_spec inv m (ms_points m) j Hm Hj (mo_points _ _ Hm) num (default [] o)) by (rewrite ?list_lookup_imap, ?list_lookup_fmap, Eo; done). destruct (fold_left _ (ms_points m) (num, default [] o)) as [num' R] eqn:Ef. f_equal. unfold verifier_state, spec_mat. f_equal; apply list_eq; intros i.
  - destruct (decide (ms_log m + b = i)) as [<-|Hne].
    + rewrite list_lookup_insert_eq by (rewrite length_imap; lia). rewrite list_lookup_imap, list_lookup_alter_eq, Eo. cbn [fmap option_fmap option_map fst snd]. rewrite Ef. done.
    + rewrite list_lookup_insert_ne, !list_lookup_imap, list_lookup_alter_ne by done. done.
  - destruct (decide (ms_log m + b = i)) as [<-|Hne].
    + rewrite list_lookup_insert_eq by (rewrite length_map; lia). rewrite list_lookup_fmap, list_lookup_alter_eq, Eo. cbn [fmap option_fmap option_map fst snd]. by rewrite Ef.
    + rewrite list_lookup_insert_ne, !list_lookup_fmap, list_lookup_alter_ne by done. done.
Qed.

(** ** Rounds *)

Definition spec_mats (st : Spec) (ms : list MatSpec) : Spec := fold_left (spec_mat alpha b) ms st.

Lemma spec_mats_length ms : forall st, length (spec_mats st ms) = length st.
Proof using. induction ms as [|m ms IH]; intros st; [done|]. cbn [spec_mats fold_left]. unfold spec_mats in IH. rewrite IH. apply length_alter. Qed.

Definition ldes (ms : list MatSpec) : list (Matrix Val) := map (fun m => lde b (ms_log m) (ms_columns m)) ms.
Definition opened (ms : list MatSpec) : list (list (list Challenge)) := map (fun m => map (fun z => values_at z (ms_columns m)) (ms_points m)) ms.

Lemma reduce_round_spec inv ms : Forall (mat_ok inv) ms -> forall st, length st = 32 ->
  reduce_round alpha reducer inv (prover_state st) (ldes ms, map ms_points ms, opened ms) = Some (prover_state (spec_mats st ms)).
Proof using LE LB LP Hred HLt HL32.
  unfold reduce_round. induction 1 as [|m ms Hm Hf IH]; intros st Hl; [done|]. cbn [ldes opened map zip zip_with foldM]. rewrite (reduce_mat_spec inv st m Hm Hl). cbn [mbind option_bind spec_mats fold_left]. apply IH. unfold spec_mat. by rewrite length_alter.
Qed.

Lemma reduce_rounds_spec inv rounds : Forall (Forall (mat_ok inv)) rounds -> forall st, length st = 32 ->
  foldM (reduce_round alpha reducer inv) (prover_state st) (zip (map (fun ms => (ldes ms, map ms_points ms)) rounds) (map opened rounds)) = Some (prover_state (fold_left spec_mats rounds st)).
Proof using LE LB LP Hred HLt HL32.
  induction 1 as [|ms rounds Hm Hf IH]; intros st Hl; [done|]. cbn [map zip zip_with foldM]. rewrite (reduce_round_spec inv ms Hm st Hl). cbn [mbind option_bind fold_left]. apply IH. by rewrite spec_mats_length.
Qed.

(** What the verifier is told of a matrix. *)
Definition claim (m : MatSpec) : MatClaim Val Challenge := (mkDomain (ms_log m) one, map (fun z => (z, values_at z (ms_columns m))) (ms_points m)).

Lemma verify_mats_spec inv ms index : Forall (mat_ok inv) ms -> index < 2 ^ L -> forall st, length st = 32 ->
  foldM (verify_mat b L index alpha) (verifier_state alpha L index st) (zip (map (fun m => row (lde b (ms_log m) (ms_columns m)) (index / 2 ^ (L - (ms_log m + b)))) ms) (map claim ms)) = Some (verifier_state alpha L index (spec_mats st ms)).
Proof using LE LB HLt HL32.
  intros Hf Hi. induction Hf as [|m ms Hm Hf IH]; intros st Hl; [done|]. cbn [map zip zip_with foldM]. unfold claim at 1. rewrite (verify_mat_spec inv st m index one Hm Hl Hi). cbn [mbind option_bind spec_mats fold_left]. apply IH. unfold spec_mat. by rewrite length_alter.
Qed.
End Complete.

(** ** Batches *)

Section Batches.
  Context {Val Challenge : Type} `{LE : LawfulExtension Val Challenge} `{LB : LawfulBitUtil} `{EC : EqDecision Challenge} `{EV : EqDecision Val} `{PK : PackedField Val} `{LP : !LawfulPacking Val}.
  Context `{IM : InputMmcs Val} `{MM : Mmcs Challenge} `{FC : !FriChallenger Challenge}.
Import TwoAdicFriPcs.

#[local] Existing Instance val_inst.
#[local] Existing Instance challenge_inst.

(** The rows of a batch at an index of the tallest. *)
Definition batch_rows (ms : list (Matrix Val)) (i : nat) : list (list Val) :=
  map (fun m => row m (i / 2 ^ (log2_ceil (list_max (map height ms)) - log2_ceil (height m)))) ms.

(** The prover data hold the matrices, and every row opens and verifies, whatever
    the widths claimed. *)
Record opens (commitment : ICommitment) (data : IProverData) (ms : list (Matrix Val)) : Prop := {
  op_matrices : get_matrices data = ms;
  op_max_height : get_max_height data = list_max (map height ms);
  op_rows i : i < list_max (map height ms) -> exists proof, iopen_batch i data = Some (batch_rows ms i, proof) /\
    forall dims, map dim_height dims = map height ms -> iverify_batch commitment dims i (batch_rows ms i) proof = Some (Ok tt)
}.

Lemma list_max_pow2 l : l <> [] -> list_max (map (fun h => 2 ^ h) l) = 2 ^ list_max l.
Proof using.
  clear. induction l as [|h l IH]; intros Hne; [done|]. destruct l as [|h' l]; [cbn; rewrite !Nat.max_0_r; done|]. assert (forall x (t : list nat), list_max (x :: t) = Nat.max x (list_max t)) as Hc by done.
  cbn [map]. change (2 ^ h' :: map (fun h0 => 2 ^ h0) l) with (map (fun h0 => 2 ^ h0) (h' :: l)). rewrite (Hc (2 ^ h)), IH by done. rewrite (Hc h (h' :: l)). destruct (Nat.max_spec h (list_max (h' :: l))) as [[H1' ->]|[H1' ->]].
  - apply Nat.max_r. apply Nat.pow_le_mono_r; lia.
  - apply Nat.max_l. apply Nat.pow_le_mono_r; lia.
Qed.

Definition log_heights (b : nat) (ms : list (MatSpec (Val := Val) (Challenge := Challenge))) : list nat := map (fun m => ms_log m + b) ms.

Lemma ldes_heights b ms : map height (ldes b ms) = map (fun h => 2 ^ h) (log_heights b ms).
Proof using. unfold ldes, log_heights. rewrite !map_map. apply map_ext. intros m. apply lde_height. Qed.

Lemma batch_rows_lde b L ms index : list_max (log_heights b ms) <= L -> ms <> [] ->
  batch_rows (ldes b ms) (index / 2 ^ (L - list_max (log_heights b ms))) = map (fun m => row (lde b (ms_log m) (ms_columns m)) (index / 2 ^ (L - (ms_log m + b)))) ms.
Proof using.
  intros HL Hne. unfold batch_rows. rewrite ldes_heights, list_max_pow2 by (by unfold log_heights; destruct ms). set (M := list_max (log_heights b ms)) in *. unfold log2_ceil. rewrite Nat.log2_up_pow2 by lia. unfold ldes. rewrite map_map. apply map_ext_in. intros m Hm%list_elem_of_In.
  rewrite lde_height, Nat.log2_up_pow2 by lia. f_equal. rewrite Nat.Div0.div_div, <- Nat.pow_add_r. do 2 f_equal. assert (ms_log m + b <= M) as HM; [|lia].
  pose proof (proj1 (list_max_le (log_heights b ms) M) (le_n _)) as Hf. rewrite Forall_forall in Hf. apply Hf. unfold log_heights. by apply (list_elem_of_fmap_2 (fun m => ms_log m + b)).
Qed.

Context (b L : nat) (HLt : L <= TWO_ADICITY (F := Val)) (HL32 : L < 32).

Lemma batch_verifies alpha w inv commitment data ms index bits batch st : opens commitment data (ldes b ms) -> ms <> [] -> Forall (mat_ok b L w inv) ms -> index < 2 ^ L -> length st = 32 ->
  bits_reduced L data = Some bits -> open_query data bits index = Some batch ->
  verify_opening b L index alpha (verifier_state alpha L index st) (batch, (commitment, map claim ms)) = Some (Ok (verifier_state alpha L index (spec_mats b alpha st ms))).
Proof using LE LB HLt HL32.
  intros Ho Hne Hf Hi Hl Hb Hq. set (M := list_max (log_heights b ms)). assert (M <= L) as HM.
  { apply list_max_le. unfold log_heights. rewrite Forall_map. eapply Forall_impl; [exact Hf|]. intros m Hm. apply (mo_height _ _ _ _ _ Hm). }
  assert (list_max (map height (ldes b ms)) = 2 ^ M) as Emax by (rewrite ldes_heights; apply list_max_pow2; unfold log_heights; by destruct ms).
  unfold bits_reduced in Hb. rewrite (op_max_height _ _ _ Ho), Emax, log2_strict_spec in Hb. cbn [mbind option_bind] in Hb. assert ((L <? M) = false) as EM by (by apply Nat.ltb_ge). rewrite EM in Hb. injection Hb as <-.
  assert (index / 2 ^ (L - M) < 2 ^ M) as Hr by (apply Nat.Div0.div_lt_upper_bound; rewrite <- Nat.pow_add_r; by replace (L - M + M) with L by lia).
  destruct (op_rows _ _ _ Ho (index / 2 ^ (L - M))) as (proof & Eo & Hv); [by rewrite Emax|]. unfold open_query in Hq. rewrite Eo in Hq. cbn [mbind option_bind] in Hq. injection Hq as <-. subst M. rewrite batch_rows_lde in * by done.
  unfold verify_opening. assert (map (fun mat : MatClaim Val Challenge => size mat.1 * 2 ^ b) (map claim ms) = map (fun h => 2 ^ h) (log_heights b ms)) as Eh.
  { unfold log_heights. rewrite !map_map. apply map_ext. intros m. cbn. unfold size. cbn [log_n]. by rewrite <- Nat.pow_add_r. }
  rewrite Eh. assert (max_list (map (fun h => 2 ^ h) (log_heights b ms)) = Some (2 ^ list_max (log_heights b ms))) as ->.
  { destruct ms as [|m ms']; [done|]. rewrite <- list_max_pow2 by done. done. }
  cbn [mbind option_bind]. rewrite log2_strict_spec. cbn [mbind option_bind]. rewrite EM. cbn [opened_values batch_opening_proof]. rewrite Hv by (rewrite map_map; cbn [dim_height]; by rewrite map_id, ldes_heights). cbn [mbind option_bind].
  rewrite (verify_mats_spec b L HLt HL32 alpha w inv ms index Hf Hi st Hl). done.
Qed.

Record RoundSpec : Type := mkRoundSpec { rs_commitment : ICommitment; rs_data : IProverData; rs_mats : list (MatSpec (Val := Val) (Challenge := Challenge)) }.

Definition open_rounds_of (rounds : list RoundSpec) : Rounds Val Challenge := map (fun r => (rs_data r, map ms_points (rs_mats r))) rounds.
Definition verify_rounds_of (rounds : list RoundSpec) : list (ICommitment * list (MatClaim Val Challenge)) := map (fun r => (rs_commitment r, map claim (rs_mats r))) rounds.

Definition round_ok (w : nat) (inv : list (Challenge * list Challenge)) (r : RoundSpec) : Prop :=
  opens (rs_commitment r) (rs_data r) (ldes b (rs_mats r)) /\ rs_mats r <> [] /\ Forall (mat_ok b L w inv) (rs_mats r).

Lemma query_verifies alpha w inv rounds index : Forall (round_ok w inv) rounds -> index < 2 ^ L -> forall st qo, length st = 32 ->
  mapM (fun '(data, _) => bits ← bits_reduced L data; open_query data bits index) (open_rounds_of rounds) = Some qo ->
  verify_openings b L index alpha (verifier_state alpha L index st) (zip qo (verify_rounds_of rounds)) = Some (Ok (verifier_state alpha L index (fold_left (spec_mats b alpha) (map rs_mats rounds) st)).1).
Proof using LE LB HLt HL32.
  intros Hf Hi. induction Hf as [|r rounds (Ho & Hne & Hm) Hf IH]; intros st qo Hl Hq; [cbn in Hq; by injection Hq as <-|]. cbn [open_rounds_of map mapM] in Hq.
  destruct (bits_reduced L (rs_data r)) as [bits|] eqn:Eb; [|discriminate Hq]. cbn [mbind option_bind] in Hq. destruct (open_query (rs_data r) bits index) as [batch|] eqn:Eq; [|discriminate Hq]. cbn [mbind option_bind] in Hq.
  destruct (mapM _ _) as [qo'|] eqn:Em; [|discriminate Hq]. injection Hq as <-. cbn [verify_rounds_of map zip zip_with verify_openings]. rewrite (batch_verifies alpha w inv _ _ _ _ _ _ st Ho Hne Hm Hi Hl Eb Eq). cbn [mbind option_bind fold_left].
  apply IH; [by rewrite spec_mats_length|done].
Qed.
End Batches.

(** ** The invariant of the abstract reduction *)

Section Invariant.
  Context {Val Challenge : Type} `{LE : LawfulExtension Val Challenge} `{EC : EqDecision Challenge}.

(** Heights above the blowup, low degrees. *)
Definition spec_ok (b L : nat) (st : list (nat * option (list Challenge))) : Prop :=
  length st = 32 /\ forall m num R, st !! m = Some (num, Some R) -> b < m <= L /\ length R <= 2 ^ (m - b).

Lemma spec_points_length alpha (ps : list (list Val)) n pts : Forall (fun p => length p <= n) ps -> forall num R, length R <= n -> length (fold_left (spec_point alpha ps) pts (num, R)).2 <= n.
Proof using.
  intros Hp. induction pts as [|z pts IH]; intros num R Hr; [done|]. cbn [fold_left]. apply IH. cbn [fst snd]. rewrite poly_add_length. pose proof (point_poly_length alpha num z ps n Hp). lia.
Qed.

Lemma spec_mat_ok alpha b L w inv st m : L < 32 -> spec_ok b L st -> mat_ok b L w inv m -> spec_ok b L (spec_mat alpha b st m) /\ (exists num R, spec_mat alpha b st m !! (ms_log m + b) = Some (num, Some R)) /\
  (forall i, is_Some (st !! i ≫= snd) -> is_Some (spec_mat alpha b st m !! i ≫= snd)).
Proof using.
  intros HL [Hl Hs] Hm. pose proof (mo_log _ _ _ _ _ Hm) as H1'. pose proof (mo_height _ _ _ _ _ Hm) as H2'. pose proof (mo_degree _ _ _ _ _ Hm) as Hd. assert (forall num o, st !! (ms_log m + b) = Some (num, o) -> exists num' R', spec_mat alpha b st m !! (ms_log m + b) = Some (num', Some R') /\ length R' <= 2 ^ ms_log m) as Hat.
  { intros num o Eo. unfold spec_mat. rewrite list_lookup_alter_eq, Eo. cbn [fmap option_fmap option_map fst snd]. pose proof (spec_points_length alpha (ms_columns m) (2 ^ ms_log m) (ms_points m) Hd num (default [] o)) as Hlen.
    destruct (fold_left _ _ _) as [num' R'] eqn:Ef. exists num', R'. split; [done|]. cbn [snd] in Hlen. apply Hlen. destruct o as [R|]; [|cbn; lia]. cbn. destruct (Hs _ _ _ Eo) as [_ HR]. by replace (ms_log m + b - b) with (ms_log m) in HR by lia. }
  split_and!.
  - split; [unfold spec_mat; by rewrite length_alter|]. intros i num R Ei. destruct (decide (ms_log m + b = i)) as [<-|Hne].
    + destruct (st !! (ms_log m + b)) as [[num0 o]|] eqn:Eo; [|unfold spec_mat in Ei; by rewrite list_lookup_alter_eq, Eo in Ei]. destruct (Hat _ _ eq_refl) as (num' & R' & E' & HR). rewrite E' in Ei. injection Ei as <- <-.
      split; [lia|]. by replace (ms_log m + b - b) with (ms_log m) by lia.
    + unfold spec_mat in Ei. rewrite list_lookup_alter_ne in Ei by done. by apply (Hs _ num).
  - destruct (st !! (ms_log m + b)) as [[num0 o]|] eqn:Eo; [destruct (Hat _ _ eq_refl) as (num' & R' & E' & _); by exists num', R'|]. apply lookup_ge_None in Eo. lia.
  - intros i Hi. destruct (decide (ms_log m + b = i)) as [<-|Hne]; [|unfold spec_mat; by rewrite list_lookup_alter_ne].
    destruct (st !! (ms_log m + b)) as [[num0 o]|] eqn:Eo; [|by destruct Hi]. destruct (Hat _ _ eq_refl) as (num' & R' & -> & _). by eexists.
Qed.

(** After all matrices. *)
Lemma spec_all_ok alpha b L w inv ms : L < 32 -> Forall (mat_ok b L w inv) ms -> forall st, spec_ok b L st ->
  spec_ok b L (spec_mats b alpha st ms) /\ (forall i, is_Some (st !! i ≫= snd) -> is_Some (spec_mats b alpha st ms !! i ≫= snd)) /\ (forall m, m ∈ ms -> is_Some (spec_mats b alpha st ms !! (ms_log m + b) ≫= snd)).
Proof using.
  intros HL. induction 1 as [|m ms Hm Hf IH]; intros st Hs; [split_and!; [done|done|]; intros m Hm; by apply not_elem_of_nil in Hm|]. destruct (spec_mat_ok alpha b L w inv st m HL Hs Hm) as (Hs1 & (num & R & E) & Hmono). cbn [spec_mats fold_left]. fold (spec_mats b alpha (spec_mat alpha b st m) ms).
  destruct (IH _ Hs1) as (Hs2 & Hmono2 & Hin). split_and!; [done|intros i Hi; by apply Hmono2, Hmono|]. intros m' Hm'. apply elem_of_cons in Hm' as [->|Hm']; [|by apply Hin]. apply Hmono2. rewrite E. by eexists.
Qed.

Lemma spec_mats_concat alpha b (rounds : list (list (MatSpec (Val := Val) (Challenge := Challenge)))) : forall st, fold_left (spec_mats b alpha) rounds st = spec_mats b alpha st (concat rounds).
Proof using. induction rounds as [|ms rounds IH]; intros st; [done|]. cbn [fold_left concat]. rewrite IH. unfold spec_mats. by rewrite fold_left_app. Qed.

Lemma spec_start_ok b L : spec_ok b L spec_start.
Proof using. split; [apply length_replicate|]. intros m num R E. apply lookup_replicate in E as [E _]. discriminate E. Qed.

(** The openings the verifier computes are those of the reduced polynomials. *)
Lemma verifier_openings alpha b L index st : spec_ok b L st -> index < 2 ^ L -> (verifier_state alpha L index st).1 = reduced_opening (inputs (map snd st)) L index.
Proof using.
  intros [_ Hs] Hi. unfold verifier_state, reduced_opening. cbn [fst]. apply list_eq. intros m. rewrite !list_lookup_imap, inputs_lookup, list_lookup_fmap. destruct (st !! m) as [[num [R|]]|] eqn:E; [|done..]. cbn. f_equal.
  destruct (Hs _ _ _ E) as [Hm _]. symmetry. apply evals_nth. apply Nat.Div0.div_lt_upper_bound. rewrite <- Nat.pow_add_r. by replace (L - m + m) with L by lia.
Qed.
End Invariant.

(** ** The scheme *)

Section Scheme.
  Context {Val Challenge : Type} `{LE : LawfulExtension Val Challenge} `{LB : LawfulBitUtil} `{EC : EqDecision Challenge} `{EV : EqDecision Val} `{PK : PackedField Val} `{LP : !LawfulPacking Val}.
  Context `{IM : InputMmcs Val} `{MM : Mmcs Challenge} `{FC : !FriChallenger Challenge} (LM : LawfulMmcs Challenge) `{LC : !LawfulChallenger Challenge}.
Import TwoAdicFriPcs.

#[local] Existing Instance val_inst.
#[local] Existing Instance challenge_inst.

(** Matrices of an opening: at least two rows before the blowup, low degree, and
    every point outside the largest coset; some point; commitments that open. *)
Record opening_ok (b : nat) (rounds : list (RoundSpec (Val := Val) (Challenge := Challenge))) : Prop := {
  oo_rounds : Forall (fun r => opens (rs_commitment r) (rs_data r) (ldes b (rs_mats r)) /\ rs_mats r <> []) rounds;
  oo_height : list_max (log_heights b (concat (map rs_mats rounds))) <= TWO_ADICITY (F := Val) /\ list_max (log_heights b (concat (map rs_mats rounds))) < 32;
  oo_mats : Forall (fun m => 1 <= ms_log m /\ Forall (fun p => length p <= 2 ^ ms_log m) (ms_columns m) /\ Forall (outside (list_max (log_heights b (concat (map rs_mats rounds))))) (ms_points m)) (concat (map rs_mats rounds));
  oo_point : exists m z, m ∈ concat (map rs_mats rounds) /\ z ∈ ms_points m
}.

(** What is opened. *)
Definition claimed (rounds : list (RoundSpec (Val := Val) (Challenge := Challenge))) : OpenedValues Challenge := map (fun r => opened (rs_mats r)) rounds.

Lemma rounds_dims b rounds : Forall (fun r => opens (rs_commitment r) (rs_data r) (ldes b (rs_mats r)) /\ rs_mats r <> []) rounds ->
  map (fun r => map dimensions (get_matrices r.1)) (open_rounds_of rounds) = map (fun r => map dimensions (ldes b (rs_mats r))) rounds /\
  mats_of (open_rounds_of rounds) = map (fun ms => (ldes b ms, map ms_points ms)) (map rs_mats rounds) /\ points_match (open_rounds_of rounds).
Proof using.
  induction 1 as [|r rounds [Ho _] Hf (IH1 & IH2 & IH3)]; [split_and!; [done|done|constructor]|]. cbn [open_rounds_of map mats_of]. unfold mats_of in IH2. fold (open_rounds_of rounds). cbn [fst]. rewrite (op_matrices _ _ _ Ho), IH1, IH2. split_and!; [done..|].
  constructor; [|exact IH3]. cbn [fst snd]. rewrite (op_matrices _ _ _ Ho). unfold ldes. by rewrite !length_map.
Qed.

Lemma observe_claims_eq (rounds : list (RoundSpec (Val := Val) (Challenge := Challenge))) : forall ch, observe_claims (verify_rounds_of rounds) ch = fold_left (fun c v => observe_round v c) (claimed rounds) ch.
Proof using.
  induction rounds as [|r rounds IH]; intros ch; [done|]. unfold observe_claims in *. cbn [verify_rounds_of map fold_left claimed snd]. fold (verify_rounds_of rounds) (claimed rounds). rewrite IH. f_equal. clear IH.
  unfold observe_round, opened. revert ch. induction (rs_mats r) as [|m ms IH]; intros ch; [done|]. cbn [map fold_left claim snd]. rewrite IH. f_equal. clear IH. revert ch. induction (ms_points m) as [|z pts IH]; intros ch; [done|]. cbn [map fold_left]. apply IH.
Qed.

Lemma open_round_lde b L w inv (ms : list (MatSpec (Val := Val) (Challenge := Challenge))) : L <= TWO_ADICITY (F := Val) -> Forall (mat_ok b L w inv) ms -> open_round b inv (ldes b ms) (map ms_points ms) = Some (opened ms).
Proof using LE LB.
  intros HL Hf. unfold open_round. assert (zip (ldes b ms) (map ms_points ms) = map (fun m => (lde b (ms_log m) (ms_columns m), ms_points m)) ms) as -> by (clear; induction ms as [|m ms IH]; [done|]; cbn [ldes map zip zip_with]; f_equal; exact IH).
  rewrite mapM_map. unfold opened. apply mapM_pointwise. intros m Hm. assert (mat_ok b L w inv m) as Hmo by (by apply (proj1 (Forall_forall _ _) Hf)). apply mapM_pointwise. intros z Hz. pose proof (proj1 (Forall_forall _ _) (mo_points _ _ _ _ _ Hmo) z Hz) as [Ho Hi].
  apply (open_at_lde b _ _ inv z L); [apply (mo_height _ _ _ _ _ Hmo)|done|apply (mo_degree _ _ _ _ _ Hmo)|done|done].
Qed.

(** The inverses every matrix needs. *)
Lemma opening_inverses b rounds : opening_ok b rounds -> let L := list_max (log_heights b (concat (map rs_mats rounds))) in let dims := map (fun r => map dimensions (ldes b (rs_mats r))) rounds in
  exists inv, compute_inverse_denominators_from_dims (zip dims (map snd (open_rounds_of rounds))) generator = Some inv /\
    Forall (mat_ok b L (list_max (map dim_width (concat dims))) inv) (concat (map rs_mats rounds)).
Proof using LE LB.
  intros [Hr [HLt HL32] Hm (m0 & z0 & Hm0 & Hz0)] L dims. set (all := concat (map rs_mats rounds)) in *. set (hps := map (fun m : MatSpec => (ms_log m + b, ms_points m)) all).
  assert (forall m, m ∈ all -> ms_log m + b <= L) as Hle.
  { intros m Hin. pose proof (proj1 (list_max_le (log_heights b all) L) (le_n _)) as Hf. rewrite Forall_forall in Hf. apply Hf. by apply (list_elem_of_fmap_2 (fun m => ms_log m + b)). }
  destruct (inverse_denominators_ok L hps (zip dims (map snd (open_rounds_of rounds)))) as (inv & Einv & Hinv).
  - done.
  - subst hps all dims. clear. induction rounds as [|r rounds IH]; [done|]. cbn [map open_rounds_of zip zip_with concat snd flat_map]. rewrite !map_app. f_equal; [|exact IH]. clear. rewrite map_map. unfold ldes. rewrite map_map.
    induction (rs_mats r) as [|m ms IH]; [done|]. cbn [map zip zip_with]. f_equal; [|exact IH]. f_equal. apply lde_height.
  - subst hps. apply Forall_map. rewrite Forall_forall in *. intros m Hin. cbn [fst snd]. split; [by apply Hle|]. apply (Hm m Hin).
  - exists (ms_log m0 + b), (ms_points m0), z0. split; [|done]. by apply (list_elem_of_fmap_2 (fun m : MatSpec => (ms_log m + b, ms_points m))).
  - exists inv. split; [done|]. rewrite Forall_forall in *. intros m Hin. destruct (Hm m Hin) as (H1' & H2' & H3'). constructor; [done|by apply Hle| |done|].
    + pose proof (proj1 (list_max_le (map dim_width (concat dims)) _) (le_n _)) as Hf. rewrite Forall_map, Forall_forall in Hf. apply (Hf (dimensions (lde b (ms_log m) (ms_columns m)))). subst dims all. clear -Hin.
      induction rounds as [|r rounds IH]; [by apply not_elem_of_nil in Hin|]. cbn [map concat] in *. apply elem_of_app. apply elem_of_app in Hin as [Hin|Hin]; [left|right; by apply IH].
      unfold ldes. rewrite map_map. by apply (list_elem_of_fmap_2 (fun m => dimensions (lde b (ms_log m) (ms_columns m)))).
    + rewrite Forall_forall in *. intros z Hz. split; [by apply H3'|]. apply (Hinv (ms_log m + b) (ms_points m)); [|done]. by apply (list_elem_of_fmap_2 (fun m : MatSpec => (ms_log m + b, ms_points m))).
Qed.

Lemma queries_verify alpha b L w inv rounds final : L <= TWO_ADICITY (F := Val) -> L < 32 -> Forall (round_ok b L w inv) rounds -> final = fold_left (spec_mats b alpha) (map rs_mats rounds) spec_start -> spec_ok b L final ->
  forall indices qos, Forall (fun i => i < 2 ^ L) indices ->
  mapM (fun index => mapM (fun '(data, _) => bits ← bits_reduced L data; open_query data bits index) (open_rounds_of rounds)) indices = Some qos ->
  reduce_queries b L alpha (verify_rounds_of rounds) (zip qos indices) = Some (Ok (map (reduced_opening (inputs (map snd final)) L) indices)).
Proof using LE LB.
  intros HLt HL32 Hr Ef Hs indices. induction indices as [|index indices IH]; intros qos Hi Hq; [cbn in Hq; by injection Hq as <-|]. cbn [mapM] in Hq. destruct (mapM _ (open_rounds_of rounds)) as [qo|] eqn:Eqo; [|discriminate Hq]. cbn [mbind option_bind] in Hq.
  destruct (mapM _ indices) as [qos'|] eqn:Eqs; [|discriminate Hq]. injection Hq as <-. inversion_clear Hi as [|? ? Hix Hi']. cbn [zip zip_with reduce_queries].
  assert (no_openings = verifier_state alpha L index spec_start) as -> by reflexivity.
  rewrite (query_verifies b L HLt HL32 alpha w inv rounds index Hr Hix spec_start qo (length_replicate _ _) Eqo). cbn [mbind option_bind]. rewrite <- Ef, (verifier_openings alpha b L index final Hs Hix). rewrite (IH qos' Hi' eq_refl). done.
Qed.

Lemma round_opens b L w inv (r : RoundSpec) index : L <= TWO_ADICITY (F := Val) -> round_ok b L w inv r -> index < 2 ^ L ->
  exists batch, (bits ← bits_reduced L (rs_data r); open_query (rs_data r) bits index) = Some batch.
Proof using LB.
  intros HLt (Ho & Hne & Hm) Hi. set (M := list_max (log_heights b (rs_mats r))). assert (M <= L) as HM.
  { apply list_max_le. unfold log_heights. rewrite Forall_map. eapply Forall_impl; [exact Hm|]. intros m Hmo. apply (mo_height _ _ _ _ _ Hmo). }
  assert (list_max (map height (ldes b (rs_mats r))) = 2 ^ M) as Emax by (rewrite ldes_heights; apply list_max_pow2; unfold log_heights; by destruct (rs_mats r)).
  unfold bits_reduced. rewrite (op_max_height _ _ _ Ho), Emax, log2_strict_spec. cbn [mbind option_bind]. assert ((L <? M) = false) as -> by (by apply Nat.ltb_ge). cbn [mbind option_bind].
  destruct (op_rows _ _ _ Ho (index / 2 ^ (L - M))) as (proof & Eo & _); [rewrite Emax; apply Nat.Div0.div_lt_upper_bound; rewrite <- Nat.pow_add_r; by replace (L - M + M) with L by lia|]. unfold open_query. rewrite Eo. by eexists.
Qed.

(** C9. What the scheme opens verifies: for committed low-degree extensions of matrices
    of any heights, widths and numbers of points, [open] does not fail, returns the
    values of the columns at the points, and [verify] accepts them with the proof
    and ends in the same challenger state.  The two ways to sample a challenge,
    [sample] and [sample_ext_element], are taken to agree. *)
Theorem opened_values_verify self rounds sample challenger : opening_ok (log_blowup (fri self)) rounds -> (forall c, sample c = sample_ext_element c) -> (forall c, is_Some (grind (proof_of_work_bits (fri self)) c)) ->
  exists proof challenger', open self (open_rounds_of rounds) challenger = Some (claimed rounds, proof, challenger') /\
    verify sample self (verify_rounds_of rounds) proof challenger = (Some (Ok tt), challenger').
Proof using LE LB LP LM LC.
  intros Hok Hsample Hgr. set (b := log_blowup (fri self)) in *. pose proof (opening_inverses b rounds Hok) as Hinv. cbn zeta in Hinv. destruct Hok as [Hr [HLt HL32] Hm (m0 & z0 & Hm0 & Hz0)]. set (L := list_max (log_heights b (concat (map rs_mats rounds)))) in *.
  destruct (rounds_dims b rounds Hr) as (Ed & Em & Hpm). rewrite (open_eq self (open_rounds_of rounds) challenger Hpm), Ed, Em. set (dims := map (fun r => map dimensions (ldes b (rs_mats r))) rounds) in *. set (w := list_max (map dim_width (concat dims))) in *.
  destruct Hinv as (inv & Einv & Hmo). assert (list_max (map dim_height (concat dims)) = 2 ^ L) as ->.
  { subst L. rewrite <- list_max_pow2 by (intros E; unfold log_heights in E; destruct (concat (map rs_mats rounds)); [by apply not_elem_of_nil in Hm0|done]). f_equal. subst dims. clear. induction rounds as [|r rounds IH]; [done|]. cbn [map concat]. unfold log_heights in *. rewrite !map_app. f_equal; [|exact IH].
    rewrite map_map. exact (ldes_heights b (rs_mats r)). }
  rewrite log2_strict_spec. cbn [mbind option_bind]. rewrite Einv. cbn [mbind option_bind]. fold b.
  assert (Forall (Forall (mat_ok b L w inv)) (map rs_mats rounds)) as Hmo' by (by apply Forall_concat).
  assert (mapM (fun '(mats, points) => open_round b inv mats points) (map (fun ms => (ldes b ms, map ms_points ms)) (map rs_mats rounds)) = Some (claimed rounds)) as ->.
  { rewrite map_map, mapM_map. unfold claimed. apply mapM_pointwise. intros r Hin. apply (open_round_lde b L w inv _ HLt). rewrite Forall_map, Forall_forall in Hmo'. by apply Hmo'. }
  cbn [mbind option_bind]. unfold verify. rewrite observe_claims_eq, Hsample. destruct (sample_ext_element _) as [alpha c1]. destruct (new_ok (Val := Val) alpha w) as (reducer & n & -> & Hred). cbn [mbind option_bind].
  set (final := fold_left (spec_mats b alpha) (map rs_mats rounds) spec_start).
  assert (foldM (reduce_round alpha reducer inv) no_reduction (zip (map (fun ms => (ldes b ms, map ms_points ms)) (map rs_mats rounds)) (claimed rounds)) = Some (prover_state final)) as ->.
  { change no_reduction with (prover_state (Challenge := Challenge) spec_start). unfold claimed. rewrite <- (map_map rs_mats opened). apply (reduce_rounds_spec b L HLt HL32 alpha w n reducer Hred inv _ Hmo'). apply length_replicate. }
  cbn [mbind option_bind reduced_openings prover_state]. destruct (spec_all_ok alpha b L w inv _ HL32 Hmo spec_start (spec_start_ok b L)) as (Hs & _ & Hcov). rewrite <- spec_mats_concat in Hs, Hcov. fold final in Hs, Hcov.
  assert (length (map snd final) = 32) as Lf by (rewrite length_map; apply Hs).
  destruct (Hcov m0 Hm0) as [R0 HR0]. destruct (fri_completes LM (fri self) (map snd final) c1) as (L' & fproof & indices & c2 & chs & Hrp & Hpr & Hvs & Eqi & Hvc & Hlen & Hilt).
  { intros i p Ei. rewrite list_lookup_fmap in Ei. destruct (final !! i) as [[num [R|]]|] eqn:E; try discriminate Ei. injection Ei as <-. destruct Hs as [_ Hs]. destruct (Hs _ _ _ E) as [? ?]. fold b. split; [|done]. pose proof adicity_le. lia. }
  { fold b. rewrite Lf. destruct (final !! (ms_log m0 + b)) as [[num o]|] eqn:E; [|done]. cbn in HR0. subst o. destruct Hs as [_ Hs]. destruct (Hs _ _ _ E). lia. }
  { exists R0. apply list_elem_of_lookup. exists (ms_log m0 + b). rewrite list_lookup_fmap. destruct (final !! (ms_log m0 + b)) as [[num o]|]; [|done]. cbn in *. by subst o. }
  { done. }
  assert (L' = L) as ->.
  { apply Nat.le_antisymm.
    - destruct (rposition_spec _ _ Hrp) as [v Hv]. rewrite inputs_lookup, list_lookup_fmap in Hv. destruct (final !! L') as [[num [R|]]|] eqn:E; try discriminate Hv. destruct Hs as [_ Hs]. by apply (Hs _ _ _ E).
    - apply list_max_le. unfold log_heights. rewrite Forall_map. apply Forall_forall. intros m Hin. destruct (Hcov m Hin) as [R HR]. apply (rposition_max _ L' (ms_log m + b) (evals (ms_log m + b) R) Hrp). rewrite inputs_lookup, list_lookup_fmap. destruct (final !! (ms_log m + b)) as [[num o]|]; [|done]. cbn in *. by subst o. }
  rewrite Hpr. cbn [mbind option_bind]. assert (Forall (round_ok b L w inv) rounds) as Hro.
  { rewrite Forall_map in Hmo'. rewrite Forall_forall in *. intros r Hin. destruct (Hr r Hin) as [Ho Hne]. split; [done|]. split; [done|]. by apply Hmo'. }
  destruct (mapM_total (fun index => mapM (fun '(data, _) => bits ← bits_reduced L data; open_query data bits index) (open_rounds_of rounds)) indices) as [qos Hqo].
  { intros index Hin. apply mapM_total. intros [data pts] Hd. apply list_elem_of_fmap in Hd as (r & [= -> ->] & Hin'). apply (round_opens b L w inv r index HLt); [by apply (proj1 (Forall_forall _ _) Hro)|by apply (proj1 (Forall_forall _ _) Hilt)]. }
  rewrite Hqo. cbn [mbind option_bind]. exists (mkPcsProof fproof qos), c2. split; [done|]. cbn [fri_proof query_openings]. rewrite Hvs, Eqi. fold b. fold b in Hlen. rewrite Hlen. rewrite (queries_verify alpha b L w inv rounds final HLt HL32 Hro eq_refl Hs indices qos Hilt Hqo).
  by rewrite Hvc.
Qed.
End Scheme.
