(* ===== verification/FriInstance.v ===== *)
(** * FRI over BabyBear with the Merkle tree

    The Merkle tree implements the commitment scheme FRI relies on, and BabyBear
    its field; an example runs the protocol theorems on them. *)

From Stdlib Require Import ZArith Lia Bool PeanoNat Field Eqdep_dec.
From stdpp Require Import base list.
From S2P Require Import Prelude AirBuilder MerkleTree MerkleOpen Fri FriProtocol FriPcs FriSequential FriInterpolate FriComplete.

Local Open Scope Z_scope.
Local Open Scope rv_scope.

(** ** The Merkle tree is a commitment scheme *)

Section MerkleMmcs.
  Context {F Digest : Type} `{LawfulHasher F Digest} `{EqDecision Digest} `{LawfulUtil}.

#[local] Instance merkle_mmcs : Mmcs F := {|
  Commitment := Digest; ProverData := FieldMerkleTree.FieldMerkleTree F Digest; Proof := list Digest; MmcsError := unit;
  commit_matrix m := FieldMerkleTreeMmcs.commit [m];
  open_batch := FieldMerkleTreeMmcs.open_batch;
  verify_batch (commit : Digest) dims index (opened : list (list F)) (proof : list Digest) :=
    (fun accepted : bool => if accepted then Ok tt else Err tt) <$> FieldMerkleTreeMmcs.verify_batch commit dims index opened proof
|}.

Lemma merkle_lawful_mmcs : LawfulMmcs F.
Proof using H0 H2.
  constructor. intros m k Hw Hh. assert (Forall mat_wf [m]) as Hws by (by constructor).
  assert (pow2_heights [m]) as Hp. { constructor; [|constructor]. unfold next_power_of_two, log2_ceil. rewrite Hh. by rewrite Nat.log2_up_pow2 by lia. }
  destruct (commit_total [m] Hws Hp ltac:(done)) as (root & tree & Hc). exists root, tree. split; [exact Hc|]. intros i Hi.
  destruct (open_total [m] root tree i Hws Hp Hc) as (opened & proof & Ho); [cbn; lia|]. exists proof.
  assert (opened = [row m i]) as ->.
  { destruct (commit_inv _ _ _ Hc) as [Hn _]. destruct (new_tree [m] tree Hws Hn) as (tallest & K & first & layers & top & (Hhd & _) & (Etree & _) & _). injection Hhd as ->.
    rewrite Etree in Ho. apply (open_batch_inv _ _ _ _ _ _ tallest) in Ho as [Hm _]; [|done]. cbn [mapM] in Hm. rewrite opening_eq, Nat.ltb_irrefl, Nat.sub_diag, Nat.div_1_r in Hm.
    destruct (rows tallest !! i) as [r|] eqn:Er; [|discriminate Hm]. cbn in Hm. injection Hm as <-. f_equal. unfold row. symmetry. by apply nth_lookup_Some. }
  split; [exact Ho|]. cbn [verify_batch merkle_mmcs]. pose proof (opened_verifies [m] root tree i _ _ Hws Hc Ho) as Hv. cbn [map] in Hv. by rewrite Hv.
Qed.
End MerkleMmcs.

(** ** BabyBear *)

(** Canonical elements. *)
Definition Fp : Type := { z : Z | (z mod BABYBEAR =? z)%Z = true }.
Definition val (x : Fp) : Z := proj1_sig x.
Lemma canonical z : (z mod BABYBEAR mod BABYBEAR =? z mod BABYBEAR)%Z = true.
Proof. apply Z.eqb_eq, Z.mod_mod. done. Qed.
Definition mk (z : Z) : Fp := exist _ (z mod BABYBEAR)%Z (canonical z).

Lemma Fp_eq (x y : Fp) : val x ≡F val y -> x = y.
Proof.
  destruct x as [x Hx], y as [y Hy]. cbn. unfold eqF. intros E. assert (x = y) as -> by (apply Z.eqb_eq in Hx, Hy; congruence).
  f_equal. apply UIP_dec, bool_dec.
Qed.

Lemma val_mk z : val (mk z) ≡F z.
Proof. cbn. unfold eqF. apply Z.mod_mod. done. Qed.

#[export] Instance Fp_eq_dec : EqDecision Fp.
Proof.
  intros x y. destruct (decide (val x = val y)) as [E|E]; [left|right; by intros ->]. apply Fp_eq. by rewrite E.
Defined.

(** The generator of the subgroup of order [2 ^ 27] and its squares. *)
Fixpoint generators (n : nat) : Fp := match n with O => mk 440564289 | S n => let x := generators n in mk (val x * val x) end.

Fixpoint mk_power (x : Fp) (n : nat) : Fp := match n with O => mk 1 | S n => mk (val x * val (mk_power x n)) end.

#[local] Instance babybear : TwoAdicField Fp := {|
  zero := mk 0; one := mk 1; add x y := mk (val x + val y); sub x y := mk (val x - val y); mul x y := mk (val x * val y);
  opp x := mk (- val x); inverse x := mk (Finv (val x)); div x y := mk (val x * val (mk (Finv (val y))));
  TWO_ADICITY := 27;
  two_adic_generator k := generators (27 - k);
  square x := mk (val x * val x); exp_u64 := mk_power;
  shifted_powers g s n := map (fun i => mk (val s * val (mk_power g i))) (seq 0 n)
|}.

Ltac fp := apply Fp_eq; cbn [add sub mul opp inverse div zero one babybear]; rewrite ?val_mk; try match goal with |- ?a ≡F ?b => replace a with b by ring; reflexivity end.

Lemma babybear_field : field_theory (zero : Fp) one add mul sub opp div inverse eq.
Proof.
  constructor; [constructor; intros; fp| | |].
  - intros E. apply (f_equal val) in E. vm_compute in E. discriminate E.
  - intros x y. done.
  - intros x Hx. fp. apply Finv_spec. intros E. apply Hx. apply Fp_eq. rewrite E. symmetry. apply val_mk.
Qed.

Lemma mk_power_power x n : mk_power x n = power x n.
Proof. induction n as [|n IH]; [done|]. cbn [mk_power power]. by rewrite IH. Qed.

#[local] Instance babybear_lawful : LawfulField Fp.
Proof.
  constructor.
  - exact babybear_field.
  - intros E. apply (f_equal val) in E. vm_compute in E. discriminate E.
  - done.
  - intros x n. apply mk_power_power.
  - intros g s n. cbn [shifted_powers babybear]. apply map_ext. intros i. by rewrite mk_power_power.
  - apply Fp_eq. vm_compute. reflexivity.
  - apply Fp_eq. vm_compute. reflexivity.
  - intros k Hk. cbn [TWO_ADICITY babybear] in Hk. cbn [two_adic_generator mul babybear]. replace (27 - k)%nat with (S (27 - S k)) by lia. done.
Qed.

(** ** Bits, hashing and challenges of the examples *)

Local Close Scope Z_scope.

#[local] Instance bits : BitUtil := {|
  log2_strict_usize n := if 2 ^ Nat.log2 n =? n then Some (Nat.log2 n) else None;
  reverse_bits_len i k := bit_reverse k i;
  reverse_slice_index_bits A l := imap (fun i x => default x (l !! bit_reverse (Nat.log2 (length l)) i)) l
|}.

#[local] Instance bits_lawful : LawfulBitUtil.
Proof.
  constructor.
  - intros k. cbn. rewrite Nat.log2_pow2 by lia. by rewrite Nat.eqb_refl.
  - intros n k E. cbn in E. destruct (Nat.eqb_spec (2 ^ Nat.log2 n) n) as [En|_]; [|discriminate E]. injection E as <-. done.
  - done.
  - intros A l k i Hl Hi. cbn. rewrite list_lookup_imap, Hl, Nat.log2_pow2 by lia. destruct (lookup_lt_is_Some_2 l i) as [x Ex]; [by rewrite Hl|].
    destruct (lookup_lt_is_Some_2 l (bit_reverse k i)) as [y Ey]; [rewrite Hl; apply bit_reverse_lt|]. rewrite Ex, Ey. done.
  - intros A l. apply length_imap.
Qed.

#[local] Instance sum_hasher : Hasher Fp Fp := {|
  PF := Fp; PDigest := Fp; WIDTH := 1; default_digest := mk 0;
  hash l := fold_left (fun acc x => mk (31 * val acc + val x)) l (mk 7);
  compress a b := mk (5 * val a + 3 * val b + 11);
  pack f := f 0; pack_digest f := f 0; lane d _ := d;
  vertically_packed_row m r := row m r;
  hash_packed l := fold_left (fun acc x => mk (31 * val acc + val x)) l (mk 7);
  compress_packed a b := mk (5 * val a + 3 * val b + 11)
|}.

#[local] Instance sum_hasher_lawful : LawfulHasher Fp Fp.
Proof.
  constructor; cbn; [lia| | | |done].
  - intros f k Hk. by replace k with 0 by lia.
  - intros m r _ _. exists (map (fun x _ => x) (row m r)). rewrite map_map. split; [by rewrite map_id|]. intros k Hk. replace k with 0 by lia. by rewrite map_map, map_id, Nat.add_0_r.
  - intros fs k Hk. by replace k with 0 by lia.
Qed.

#[local] Instance std_util : Util := {| log2_ceil_usize := Nat.log2_up |}.
#[local] Instance std_util_lawful : LawfulUtil.
Proof. by constructor. Qed.

(** A challenger that adds up what it observes. *)
Definition sum_challenger `{Mmcs Fp} (digest : Commitment -> Fp) : FriChallenger Fp := {|
  Challenger := Fp; Witness := unit;
  observe c s := mk (val s + val (digest c)); observe_ext_element x s := mk (val s + val x); sample_ext_element s := (mk (3 * val s + 1), mk (val s + 1));
  grind _ s := Some (tt, s); check_witness _ _ s := (true, s); sample_bits n s := (Z.to_nat (val s) mod 2 ^ n, mk (val s + 1))
|}.

#[local] Instance sum_challenger_lawful `{MM : Mmcs Fp} digest : @LawfulChallenger Fp MM (sum_challenger digest).
Proof. constructor; cbn; [by intros bits c w c' [= <- <-]|]. intros n c. apply Nat.mod_upper_bound, Nat.pow_nonzero. done. Qed.

(** ** The prover on two polynomials *)

Definition ex_config : FriConfig := mkFriConfig 1 3 0.
Definition ex_polys : list (option (list Fp)) :=
  [None; None; Some [mk 3; mk 5]; None; Some (map mk [1; 2; 3; 4; 5; 6; 7; 8]%Z)] ++ replicate 27 None.

Lemma ex_low_degree : low_degree ex_config ex_polys.
Proof.
  intros i p E. destruct i as [|[|[|[|[|i]]]]]; try discriminate E; [injection E as <-; cbn; lia..|]. exfalso.
  unfold ex_polys in E. rewrite lookup_app_r in E by (cbn; lia). apply lookup_replicate in E as [E _]. discriminate E.
Qed.

Lemma fri_complete_witness : let MM := merkle_mmcs (F := Fp) (Digest := Fp) in let FC := @sum_challenger MM (fun d : Fp => d) in
  exists log_max_height proof indices challenger' challenges, rposition (inputs ex_polys) = Some log_max_height /\
    prove ex_config (inputs ex_polys) (mk 5) = Some (proof, indices, challenger') /\
    verify_shape_and_sample_challenges ex_config proof (mk 5) = (Ok challenges, challenger') /\ query_indices challenges = indices /\
    verify_challenges ex_config proof challenges (map (reduced_opening (inputs ex_polys) log_max_height) indices) = Some (Ok tt).
Proof.
  cbn zeta. apply (fri_complete merkle_lawful_mmcs ex_config ex_polys).
  - exact ex_low_degree.
  - cbn. lia.
  - exists [mk 3; mk 5]. unfold ex_polys. apply elem_of_app. left. do 2 apply list_elem_of_further. apply list_elem_of_here.
  - intros c. by eexists.
Defined.

(** ** One query on a committed codeword *)

(** A commitment scheme that shows the matrix. *)
#[local] Instance transparent_mmcs : Mmcs Fp := {|
  Commitment := Matrix Fp; ProverData := Matrix Fp; Proof := unit; MmcsError := unit;
  commit_matrix m := Some (m, m);
  open_batch i m := (fun r => ([r], tt)) <$> rows m !! i;
  verify_batch m _ i opened _ := Some (if bool_decide (rows m !! i = head opened) then Ok tt else Err tt)
|}.

Definition ex_codeword : list Fp := evals 2 [mk 3; mk 5].

#[local] Instance ex_challenger : FriChallenger Fp := @sum_challenger transparent_mmcs (fun _ => mk 0).

(** A proof with one query, and the values of the inputs at position 2. *)
Definition one_query (codeword : list Fp) (steps : list (CommitPhaseProofStep (F := Fp))) (final : Fp) : FriProof (F := Fp) (FriChallenger0 := ex_challenger) :=
  mkFriProof (FriChallenger0 := ex_challenger) [row_major_2 codeword] [mkQueryProof steps] final tt.
Definition ex_step (codeword : list Fp) : CommitPhaseProofStep (F := Fp) := mkStep (nth 3 codeword zero) tt.
Definition openings_at_2 (codeword : list Fp) : list Fp := replicate 2 zero ++ [nth 2 codeword zero] ++ replicate 29 zero.

Lemma transparent_opens_only (codeword : list Fp) k : opens_only (row_major_2 codeword) codeword k.
Proof.
  intros j pair [] Hj _ Hv. cbn [verify_batch transparent_mmcs head] in Hv. destruct (bool_decide_reflect (rows (row_major_2 codeword) !! j = Some pair)) as [E|_]; [|discriminate Hv].
  unfold row. symmetry. by apply nth_lookup_Some.
Qed.

Lemma ex_accepts : verify_challenges ex_config (one_query ex_codeword [ex_step ex_codeword] (mk 38)) (mkFriChallenges [2] [mk 7]) [openings_at_2 ex_codeword] = Some (Ok tt).
Proof.
  set (verdict := verify_challenges _ _ _ _). assert (match verdict with Some (Ok _) => true | _ => false end = true) as E by (vm_compute; reflexivity).
  by destruct verdict as [[[]|]|].
Qed.

Lemma accepted_query_folds_witness : folds_to (openings_at_2 ex_codeword) 2 [ex_codeword] [mk 7] 2 zero (mk 38).
Proof.
  pose proof ex_accepts as Hv. pose proof (evals_length 2 [mk 3; mk 5] : length ex_codeword = 2 ^ 2) as Hl. revert Hv Hl. generalize ex_codeword as codeword, (mk 38) as final, (mk 7) as beta. intros codeword final beta Hv Hl.
  refine (accepted_query_folds ex_config (one_query codeword [ex_step codeword] final) (mkFriChallenges [2] [beta]) [openings_at_2 codeword] [codeword] _ _ eq_refl Hv 0 2 _ _ eq_refl eq_refl eq_refl _ eq_refl).
  - cbn. lia.
  - split; [exact Hl|]. split; [apply transparent_opens_only|exact I].
  - cbn. lia.
Defined.

Lemma short_inputs_unchecked_witness :
  verify_challenges ex_config (one_query ex_codeword [ex_step ex_codeword] (mk 38)) (mkFriChallenges [2] [mk 7]) [<[1 := mk 999]> (openings_at_2 ex_codeword)] = Some (Ok tt).
Proof.
  rewrite <- ex_accepts. apply short_inputs_unchecked. constructor; [|constructor]. intros m Hm. apply list_lookup_insert_ne. unfold ex_config in Hm. cbn [log_blowup] in Hm. lia.
Defined.

Lemma unopened_queries_accepted_witness : verify_challenges ex_config (one_query ex_codeword [] zero) (mkFriChallenges [2] [mk 7]) [openings_at_2 ex_codeword] = Some (Ok tt).
Proof. generalize ex_codeword as codeword. intros codeword. apply unopened_queries_accepted; [by repeat constructor|reflexivity]. Defined.

(** * The commitment scheme over BabyBear and the Merkle tree

    The Merkle tree implements the input commitments of the scheme and the prover
    data whose leaves are taken and restored; an example opens two matrices. *)

(** ** The Merkle tree as input commitment *)

Section MerkleInput.
  Context {F Digest : Type} `{LawfulHasher F Digest} `{EqDecision Digest} `{LawfulUtil}.

#[local] Instance merkle_input : InputMmcs F := {|
  ICommitment := Digest; IProverData := FieldMerkleTree.FieldMerkleTree F Digest; IProof := list Digest; IError := unit;
  icommit := FieldMerkleTreeMmcs.commit;
  iopen_batch := FieldMerkleTreeMmcs.open_batch;
  iverify_batch (commit : Digest) dims index (opened : list (list F)) (proof : list Digest) :=
    (fun accepted : bool => if accepted then Ok tt else Err tt) <$> FieldMerkleTreeMmcs.verify_batch commit dims index opened proof;
  get_matrices := FieldMerkleTreeMmcs.get_matrices;
  get_max_height := FieldMerkleTreeMmcs.get_max_height;
  restore_leaves_rm := FieldMerkleTree.restore_leaves;
  take_leaves_rm := FieldMerkleTree.take_leaves
|}.

Lemma merkle_leaves : LawfulLeaves F.
Proof using. constructor; [done|]. intros data l. by eexists. Qed.

(** A committed tree opens, if the heights are powers of two. *)
Lemma merkle_opens (ms : list (Matrix F)) : ms <> [] -> Forall mat_wf ms -> pow2_heights ms -> exists root tree, icommit ms = Some (root, tree) /\ opens root tree ms.
Proof using H0 H2.
  intros Hne Hw Hp. destruct (commit_total ms Hw Hp Hne) as (root & tree & Hc). exists root, tree. split; [exact Hc|]. destruct (commit_inv _ _ _ Hc) as [Hn _].
  destruct (new_tree ms tree Hw Hn) as (tallest & K & first & layers & top & (Hhd & EK & _) & (Etree & _) & _). destruct (head_tallest _ _ Hhd) as (Hin & _ & Emax). constructor.
  - by rewrite Etree.
  - cbn [get_max_height merkle_input]. unfold FieldMerkleTreeMmcs.get_max_height. rewrite Etree. unfold FieldMerkleTree.has_leaves. cbn [FieldMerkleTree.leaves]. by destruct ms.
  - intros i Hi. destruct (open_total ms root tree i Hw Hp Hc Hi) as (opened & proof & Ho). exists proof. assert (opened = batch_rows ms i) as ->.
    { rewrite Etree in Ho. apply (open_batch_inv _ _ _ _ _ _ tallest) in Ho as [Hm _]; [|done]. unfold batch_rows. rewrite Emax. apply mapM_Some in Hm. clear -Hm H2. induction Hm as [|m r ms rs Hr Hm IH]; [done|]. cbn [map]. f_equal; [|exact IH].
      apply opening_Some in Hr. unfold row. symmetry. by apply nth_lookup_Some. }
    split; [exact Ho|]. intros dims Hd. cbn [iverify_batch merkle_input]. rewrite (verify_batch_heights _ dims (map dimensions ms)) by (by rewrite Hd, map_map). by rewrite (opened_verifies ms root tree i _ _ Hw Hc Ho).
Qed.
End MerkleInput.

(** ** BabyBear over itself, packed in pairs *)

#[local] Existing Instance babybear.
#[local] Existing Instance babybear_lawful.
#[local] Existing Instance bits.
#[local] Existing Instance bits_lawful.

#[local] Instance trivial_extension : ExtensionField Fp Fp := {|
  generator := mk 31; from_base x := x; D := 1%nat; as_base_slice x := [x]; from_base_fn f := f 0%nat;
  from_canonical_usize n := lsum (replicate n one);
  two_adic_coset_zerofier k s x := sub (power x (2 ^ k)) (power s (2 ^ k));
  cyclic_subgroup_coset_known_order g s n := map (fun i => mul s (power g i)) (seq 0 n);
  batch_multiplicative_inverse l := if decide (Forall (fun x => x <> zero) l) then Some (map inverse l) else None;
  columnwise_dot_product m v := map (fun c => lsum (zip_with (fun r x => mul (nth c r zero) x) (rows m) v)) (seq 0 (width m))
|}.

#[local] Instance trivial_extension_lawful : LawfulExtension Fp Fp.
Proof.
  constructor; try done; try exact babybear_lawful.
  - cbn. lia.
  - intros f g Hf. apply Hf. cbn. lia.
  - intros x v. cbn [from_base_fn as_base_slice nth from_base trivial_extension]. fp.
  - intros l Hl. cbn [batch_multiplicative_inverse trivial_extension]. by rewrite decide_True.
Qed.

#[local] Instance pair_packing : PackedField Fp := {|
  Packing := list Fp; PWIDTH := 2%nat; pack_slice := pairs; pack_slice_with_suffix l := (pairs (take (length l / 2 * 2) l), drop (length l / 2 * 2) l);
  as_slice l := l; packed_zero := [zero; zero]; packed_add := zip_with add; packed_mul := zip_with mul
|}.

#[local] Instance pair_packing_lawful : LawfulPacking Fp.
Proof.
  constructor; try done; cbn [PWIDTH pair_packing pack_slice as_slice packed_zero].
  - lia.
  - intros l n Hl. apply pairs_length. lia.
  - intros l n i Hl Hi. transitivity (nth i (pairs l) []); [apply nth_indep; rewrite (proj1 (pairs_length l n ltac:(lia))); done|]. rewrite (pairs_nth n l i ltac:(lia) Hi). rewrite (Nat.mul_comm i 2).
    destruct (lookup_lt_is_Some_2 l (2 * i)) as [x Ex]; [lia|]. destruct (lookup_lt_is_Some_2 l (2 * i + 1)) as [y Ey]; [lia|]. rewrite (nth_lookup_Some _ _ _ _ Ex), (nth_lookup_Some _ _ _ _ Ey).
    rewrite (drop_S _ _ _ Ex). rewrite Nat.add_1_r in Ey. by rewrite (drop_S _ _ _ Ey).
Qed.

(** ** Two matrices opened at two points *)

Local Close Scope Z_scope.
Import TwoAdicFriPcs.
#[local] Existing Instance sum_hasher.
#[local] Existing Instance sum_hasher_lawful.
#[local] Existing Instance std_util.
#[local] Existing Instance std_util_lawful.
#[local] Existing Instance sum_challenger_lawful.

#[local] Instance ex_input : InputMmcs Fp := merkle_input (Digest := Fp).
#[local] Instance ex_mmcs : Mmcs Fp := merkle_mmcs (Digest := Fp).
#[local] Instance ex_sum : FriChallenger Fp := @sum_challenger ex_mmcs (fun d : Fp => d).

Definition ex_pcs : TwoAdicFriPcs := mkPcs 20 ex_config.

Definition ex_mats : list (MatSpec (Val := Fp) (Challenge := Fp)) :=
  [mkMatSpec 2 [map mk [1; 2; 3; 4]%Z; [mk 5; mk 6]] [mk 1000; mk 2000]; mkMatSpec 1 [[mk 7; mk 8]] [mk 1000]].

(** A check of [outside] for given points. *)
Lemma outside_check L z : forallb (fun j => negb (bool_decide (z = ext_point L j))) (seq 0 (2 ^ L)) = true -> outside L z.
Proof. intros Hf j Hj E. rewrite forallb_forall in Hf. specialize (Hf j ltac:(apply in_seq; lia)). apply negb_true_iff, bool_decide_eq_false in Hf. done. Qed.

Lemma ex_outside : Forall (fun m => Forall (outside 3) (ms_points m)) ex_mats.
Proof. repeat constructor; apply outside_check; vm_compute; reflexivity. Qed.

Lemma ex_wf b ms : Forall mat_wf (ldes (Val := Fp) (Challenge := Fp) b ms).
Proof. unfold ldes. apply Forall_map, Forall_true. intros m. apply lde_wf. Qed.

Lemma ex_pow2 b ms : pow2_heights (ldes (Val := Fp) (Challenge := Fp) b ms).
Proof. unfold ldes. apply Forall_map, Forall_true. intros m. rewrite lde_height. unfold next_power_of_two, log2_ceil. by rewrite Nat.log2_up_pow2 by lia. Qed.

Lemma ex_opening root tree : opens root tree (ldes 1 ex_mats) -> opening_ok 1 [mkRoundSpec root tree ex_mats].
Proof.
  intros Ho. assert (concat (map rs_mats [mkRoundSpec root tree ex_mats]) = ex_mats) as E by done. constructor; rewrite ?E.
  - constructor; [|constructor]. split; [exact Ho|discriminate].
  - cbn [log_heights ex_mats map ms_log list_max fold_right Nat.add Nat.max TWO_ADICITY babybear]. lia.
  - change (list_max (log_heights 1 ex_mats)) with 3. pose proof ex_outside as Hout. inversion_clear Hout as [|? ? H1 Ht]. inversion_clear Ht as [|? ? H2 _]. constructor; [|constructor; [|constructor]]; (split; [cbn; lia|split; [repeat constructor; cbn; lia|done]]).
  - eexists _, _. split; apply list_elem_of_here.
Qed.

Lemma opened_values_verify_witness : exists root tree proof challenger', icommit (ldes 1 ex_mats) = Some (root, tree) /\
  open ex_pcs [(tree, map ms_points ex_mats)] (mk 5) = Some ([opened ex_mats], proof, challenger') /\
  verify sample_ext_element ex_pcs [(root, map claim ex_mats)] proof (mk 5) = (Some (Ok tt), challenger').
Proof.
  destruct (merkle_opens (ldes 1 ex_mats) ltac:(discriminate) (ex_wf 1 ex_mats) (ex_pow2 1 ex_mats)) as (root & tree & Hc & Ho). exists root, tree.
  destruct (opened_values_verify (MM := ex_mmcs) (FC := ex_sum) merkle_lawful_mmcs ex_pcs [mkRoundSpec root tree ex_mats] sample_ext_element (mk 5) (ex_opening root tree Ho) (fun _ => eq_refl)) as (proof & c & H1 & H2); [intros c; by eexists|].
  exists proof, c. split; [exact Hc|]. split; [exact H1|exact H2].
Defined.

Lemma sequential_open_same_witness : exists root tree, icommit (ldes 1 ex_mats) = Some (root, tree) /\
  let '(taken, digests_only) := take_leaves_rm tree in restore_leaves_rm digests_only taken = tree /\
  open_sequential_cached ex_pcs [(digests_only, map ms_points ex_mats)] [Some taken] (mk 5) =
    ('(values, proof, c) ← open ex_pcs [(tree, map ms_points ex_mats)] (mk 5); Some (values, proof, [(tree, map ms_points ex_mats)], c)) /\
  open_sequential_cached_split ex_pcs tree (map ms_points ex_mats) [(digests_only, map ms_points ex_mats)] [Some taken] (mk 5) =
    ('(values, proof, c) ← open ex_pcs [(tree, map ms_points ex_mats); (tree, map ms_points ex_mats)] (mk 5); Some (values, proof, [(tree, map ms_points ex_mats)], c)).
Proof.
  destruct (merkle_opens (ldes 1 ex_mats) ltac:(discriminate) (ex_wf 1 ex_mats) (ex_pow2 1 ex_mats)) as (root & tree & Hc & Ho). exists root, tree. split; [exact Hc|]. destruct tree as [ls dims layers].
  pose proof (op_matrices _ _ _ Ho) as Em. change (ls = ldes 1 ex_mats) in Em. cbn [take_leaves_rm ex_input merkle_input FieldMerkleTree.take_leaves FieldMerkleTree.leaves FieldMerkleTree.leaf_dimensions FieldMerkleTree.digest_layers].
  assert (length ls = 2) as El by (rewrite Em; reflexivity). split; [reflexivity|]. pose proof (merkle_leaves (F := Fp) (Digest := Fp)) as Hll.
  destruct (sequential_open_same (LL := Hll) (FC := ex_sum) ex_pcs [(FieldMerkleTree.mkFieldMerkleTree [] dims layers, map ms_points ex_mats)] [Some ls] (mk 5) eq_refl) as [H1 H2].
  - constructor; [exact El|constructor].
  - cbn. lia.
  - split; [exact H1|]. apply H2. exact El.
Defined.

(** A false claim, and a proof with no query openings. *)
Definition no_queries : TwoAdicFriPcsProof Fp Fp := mkPcsProof (mkFriProof (FriChallenger0 := ex_sum) [] (replicate 3 (mkQueryProof [])) zero tt) [].
Definition false_claim : list (@ICommitment Fp ex_input * list (MatClaim Fp Fp)) := [(mk 17, [(mkDomain 2 one, [(mk 1000, [mk 1; mk 1])])])].

Definition ex_start : @Challenger Fp ex_mmcs ex_sum := mk 5.

Lemma missing_query_openings_accepted_witness : (verify sample_ext_element ex_pcs false_claim no_queries ex_start).1 = Some (Ok tt).
Proof.
  destruct (sample_ext_element (observe_claims false_claim ex_start)) as [alpha c1] eqn:Es.
  destruct (sample_indices (F := Fp) (FriChallenger0 := ex_sum) 3 1 (observe_ext_element zero c1)) as [indices c2] eqn:Ei.
  assert (verify_shape_and_sample_challenges (fri ex_pcs) (fri_proof no_queries) c1 = (Ok (mkFriChallenges indices []), c2)) as Hv.
  { unfold verify_shape_and_sample_challenges, no_queries. cbn [fri_proof commit_phase_commits query_proofs final_poly pow_witness sample_betas length]. 
    change (length (replicate 3 _) =? num_queries (fri ex_pcs)) with true. cbn [negb check_witness ex_sum sum_challenger length Nat.add]. change (log_blowup (fri ex_pcs)) with 1. change (num_queries (fri ex_pcs)) with 3. by rewrite Ei. }
  by rewrite (missing_query_openings_accepted sample_ext_element ex_pcs false_claim no_queries ex_start alpha c1 (mkFriChallenges indices []) c2 eq_refl Es Hv).
Defined.

(** One column of degree 3 at a point outside the coset. *)
Definition ex_column : list Fp := map mk [1; 2; 3; 4]%Z.
Definition ex_coset : Matrix Fp := mkMatrix 1 (map (fun i => map (fun p => eval p (coset_point (Val := Fp) 2 i (mk 31))) [ex_column]) (seq 0 4)).

Lemma interpolation_correct_witness :
  interpolate_coset_precomputed ex_coset (mk 31) (mk 1000) (map (fun i => inverse (sub (mk 1000) (from_base (coset_point 2 i (mk 31))))) (seq 0 4)) = Some [eval (map from_base ex_column) (mk 1000)].
Proof.
  apply (interpolation_correct ex_coset 2 (mk 31) (mk 1000) [ex_column]).
  - cbn. lia.
  - intros E. apply (f_equal val) in E. vm_compute in E. discriminate E.
  - reflexivity.
  - repeat constructor.
  - reflexivity.
  - assert (forallb (fun i => negb (bool_decide (mk 1000 = from_base (coset_point 2 i (mk 31))))) (seq 0 (2 ^ 2)) = true) as Hf by (vm_compute; reflexivity).
    intros i Hi E. rewrite forallb_forall in Hf. specialize (Hf i ltac:(apply in_seq; lia)). apply negb_true_iff, bool_decide_eq_false in Hf. done.
Defined.
