(* ===== verification/LogUp.v ===== *)
(** * The permutation argument (crates/stark/src/permutation.rs)

    The messages of the chips balance when the sum of [m / (alpha + f)] over all
    messages, with [f] the fingerprint of a message and [m] its signed
    multiplicity, is zero.  A chip commits to a trace of partial sums, generated
    in blocks with batched inversions, and [eval_permutation_constraints] checks
    it.  The generated trace passes; a trace that passes has the sum of its
    messages; and sums that vanish for as many challenges as there are messages
    say that the messages balance. *)

From Stdlib Require Import ZArith Lia Bool PeanoNat Field.
From stdpp Require Import base list gmap.
From S2P Require Import Prelude Record Sharding AirBuilder Lookup MerkleTree MerkleOpen Fri FriProtocol FriPcs FriInterpolate.



(** [VirtualPairCol] of p3_air over the base field and over the extension,
    [AbstractField::from_canonical_usize] of the extension, and the parallel scan
    of rayon_scan with addition. *)
Class PairColumns (Val Challenge : Type) : Type := {
  VirtualPairCol : Type;
  apply : VirtualPairCol -> list Val -> list Val -> Val;
  apply_ext : VirtualPairCol -> list Challenge -> list Challenge -> Challenge;
  ext_from_canonical_usize : nat -> Challenge;
  scan_sum : list Challenge -> list Challenge
}.

(** Running sums. *)
Fixpoint running {F} `{TwoAdicField F} (acc : F) (l : list F) : list F := match l with [] => [] | x :: l => add acc x :: running (add acc x) l end.

Class LawfulColumns (Val Challenge : Type) `{ExtensionField Val Challenge} `{!PairColumns Val Challenge} : Prop := {
  apply_ext_spec (c : VirtualPairCol) prep main : apply_ext c (map from_base prep) (map from_base main) = from_base (apply c prep main);
  scan_sum_spec l : scan_sum l = running zero l
}.

Section LogUp.
  Context {Val Challenge : Type} `{EF : ExtensionField Val Challenge} `{PC : !PairColumns Val Challenge} `{EqDecision Val} `{EqDecision Challenge}.

(** ** Interactions *)

Record Interaction : Type := mkInteraction { int_values : list VirtualPairCol; int_multiplicity : VirtualPairCol; int_kind : InteractionKind; int_scope : InteractionScope }.

Definition int_argument_index (int : Interaction) : nat := Z.to_nat (argument_index (int_kind int)).

(** [sort_by_key] is stable; [Global] comes first. *)
Fixpoint insert_by_scope (int : Interaction) (l : list Interaction) : list Interaction :=
  match l with
  | [] => [int]
  | int' :: l => if bool_decide (int_scope int = Local /\ int_scope int' = Global) then int' :: insert_by_scope int l else int :: int' :: l
  end.
Definition sort_by_scope (l : list Interaction) : list Interaction := foldr insert_by_scope [] l.

(** [chunk_by]: runs of one scope. *)
Fixpoint chunk_by_scope (l : list Interaction) : list (InteractionScope * list Interaction) :=
  match l with
  | [] => []
  | int :: l =>
      match chunk_by_scope l with
      | (k, values) :: groups => if decide (int_scope int = k) then (k, int :: values) :: groups else (int_scope int, [int]) :: (k, values) :: groups
      | [] => [(int_scope int, [int])]
      end
  end.

(** Later groups replace earlier ones of the same scope. *)
Definition group_by_scope (l : list Interaction) : gmap InteractionScope (list Interaction) :=
  fold_left (fun m '(k, values) => <[k := values]> m) (chunk_by_scope (sort_by_scope l)) ∅.

Definition scoped_interactions (sends receives : list Interaction) : gmap InteractionScope (list Interaction) * gmap InteractionScope (list Interaction) :=
  (group_by_scope sends, group_by_scope receives).

(** [div_ceil]. *)
Definition local_permutation_trace_width (nb_interactions batch_size : nat) : nat :=
  if nb_interactions =? 0 then 0 else (nb_interactions + (batch_size - 1)) / batch_size + 1.

(** Sends, then receives, with their direction. *)
Definition directed (local_sends local_receives : list Interaction) : list (Interaction * bool) :=
  map (fun int => (int, true)) local_sends ++ map (fun int => (int, false)) local_receives.

Fixpoint powers_from (current beta : Challenge) (n : nat) : list Challenge :=
  match n with O => [] | S n => current :: powers_from (mul current beta) beta n end.
Definition beta_powers (beta : Challenge) (interactions : list (Interaction * bool)) : list Challenge :=
  powers_from one beta (list_max (map (fun '(int, _) => length (int_values int)) interactions) + 1).

(** ** Trace generation *)

(** The denominator and the signed multiplicity; [None]: too few powers. *)
Definition entry_of (alpha : Challenge) (powers : list Challenge) (prep_row main_row : list Val) (interaction : Interaction * bool) : option (Challenge * Val) :=
  let '(int, is_send) := interaction in
  match powers with
  | [] => None
  | power0 :: powers =>
      if length powers <? length (int_values int) then None
      else
        let denominator := fold_left (fun d '(power, col) => add d (mul power (from_base (apply col prep_row main_row)))) (zip powers (int_values int))
          (add alpha (mul power0 (ext_from_canonical_usize (int_argument_index int)))) in
        let mult := apply (int_multiplicity int) prep_row main_row in
        Some (denominator, if is_send then mult else opp mult)
  end.

Fixpoint prefix_products (acc : Challenge) (l : list Challenge) : list Challenge :=
  match l with [] => [] | d :: l => mul acc d :: prefix_products (mul acc d) l end.

(** One inversion for a batch; the buffers hold eight entries. *)
Definition batch_sum (entries : list (Challenge * Val)) : option Challenge :=
  if 8 <? length entries then None
  else
    match entries with
    | [] => None
    | [(d, m)] => Some (div (from_base m) d)
    | (d0, m0) :: rest =>
        let prefix := d0 :: prefix_products d0 (map fst rest) in
        let '(inv, sum) := fold_left (fun '(inv, sum) '(p, (d, m)) => (mul inv d, add sum (mul (from_base m) (mul inv p))))
          (rev (zip prefix rest)) (inverse (List.last prefix zero), zero) in
        Some (add sum (mul (from_base m0) inv))
    end.

Definition populate_local_permutation_row (row : list Challenge) (preprocessed_row main_row : list Val) (sends receives : list Interaction)
    (alpha : Challenge) (powers : list Challenge) (batch_size : nat) : option (list Challenge) :=
  let interaction_chunks := chunks batch_size (directed sends receives) in
  values ← mapM (fun chunk => entries ← mapM (entry_of alpha powers preprocessed_row main_row) chunk; batch_sum entries) (take (length row) interaction_chunks);
  Some (values ++ drop (length values) row).

(** The product of the others. *)
Definition all_but (i : nat) (denoms : list Challenge) : Challenge :=
  fold_left (fun p '(j, d) => if j =? i then p else mul p d) (imap pair denoms) one.

(** Product and numerator of a chunk. *)
Definition chunk_fraction (alpha : Challenge) (powers : list Challenge) (prep_row main_row : list Val) (chunk : list (Interaction * bool)) : option (Challenge * Challenge) :=
  entries ← mapM (entry_of alpha powers prep_row main_row) chunk;
  match entries with
  | [(d, m)] => Some (d, from_base m)
  | [(d0, m0); (d1, m1)] => Some (mul d0 d1, add (mul (from_base m0) d1) (mul (from_base m1) d0))
  | _ =>
      if 8 <? length entries then None
      else Some (fold_left mul (map fst entries) one, fold_left (fun num '(i, (_, m)) => add num (mul (from_base m) (all_but i (map fst entries)))) (imap pair entries) zero)
  end.

Definition BLOCK_SIZE : nat := Nat.pow 2 12.

(** A block of rows: all its products are inverted together. *)
Definition fill_block (alpha : Challenge) (powers : list Challenge) (interaction_chunks : list (list (Interaction * bool))) (block : list (list Val * list Val)) : option (list (list Challenge)) :=
  let num_chunks := length interaction_chunks in
  fractions ← mapM (fun '(prep_row, main_row) => mapM (chunk_fraction alpha powers prep_row main_row) interaction_chunks) block;
  inv_products ← batch_multiplicative_inverse (map fst (concat fractions));
  Some (imap (fun local_row row => imap (fun c '(_, numerator) => mul numerator (nth (local_row * num_chunks + c) inv_products zero)) row) fractions).

(** The rows of the two traces; [None]: the preprocessed trace is shorter. *)
Definition row_pairs (preprocessed : option (Matrix Val)) (main : Matrix Val) : option (list (list Val * list Val)) :=
  match preprocessed with
  | None => Some (map (fun row => ([], row)) (rows main))
  | Some prep => if length (rows prep) <? length (rows main) then None else Some (zip (rows prep) (rows main))
  end.

Definition generate_permutation_trace_prescoped (local_sends local_receives : list Interaction) (preprocessed : option (Matrix Val)) (main : Matrix Val)
    (random_elements : list Challenge) (batch_size : nat) : option (Matrix Challenge * Challenge) :=
  let permutation_trace_width := local_permutation_trace_width (length local_sends + length local_receives) batch_size in
  match local_sends, local_receives with
  | [], [] => Some (mkMatrix permutation_trace_width [], zero)
  | _, _ =>
      alpha ← random_elements !! 0;
      beta ← random_elements !! 1;
      let all_interactions := directed local_sends local_receives in
      let powers := beta_powers beta all_interactions in
      pairs ← row_pairs preprocessed main;
      blocks ← mapM (fill_block alpha powers (chunks batch_size all_interactions)) (chunks BLOCK_SIZE pairs);
      let trace := concat blocks in
      let cumulative_sums := scan_sum (map sum trace) in
      local_cumulative_sum ← last cumulative_sums;
      if negb (length cumulative_sums =? length trace) then None
      else Some (mkMatrix permutation_trace_width (zip_with (fun row cum_sum => row ++ [cum_sum]) trace cumulative_sums), local_cumulative_sum)
  end.

Definition generate_permutation_trace (sends receives : list Interaction) (preprocessed : option (Matrix Val)) (main : Matrix Val)
    (random_elements : list Challenge) (batch_size : nat) : option (Matrix Challenge * Challenge) :=
  let '(scoped_sends, scoped_receives) := scoped_interactions sends receives in
  generate_permutation_trace_prescoped (default [] (scoped_sends !! Local)) (default [] (scoped_receives !! Local)) preprocessed main random_elements batch_size.

(** ** Constraints *)

(** What a builder shows: two rows of each trace, as elements of the extension. *)
Record Folder : Type := mkFolder {
  f_prep_local : list Challenge; f_prep_next : list Challenge;
  f_main_local : list Challenge; f_main_next : list Challenge;
  f_perm_local : list Challenge; f_perm_next : list Challenge;
  f_perm_challenges : list Challenge;
  f_local_cumulative_sum : Challenge;
  f_global_cumulative_sum : list Val * list Val;
  f_is_first_row : Challenge; f_is_last_row : Challenge; f_is_transition : Challenge;
  f_public_values : list Val
}.

(** The random linear combination and the signed multiplicity. *)
Definition rlc_of (alpha : Challenge) (powers : list Challenge) (prep_local main_local : list Challenge) (interaction : Interaction * bool) : Challenge * Challenge :=
  let '(int, is_send) := interaction in
  let rlc := fold_left (fun rlc '(field, bp) => add rlc (mul bp (apply_ext field prep_local main_local))) (zip (int_values int) (tail powers))
    (add alpha (mul (nth 0 powers zero) (ext_from_canonical_usize (int_argument_index int)))) in
  (rlc, mul (apply_ext (int_multiplicity int) prep_local main_local) (if is_send then one else opp one)).

Fixpoint suffix_products (l : list Challenge) : list Challenge * Challenge :=
  match l with [] => ([], one) | d :: l => let '(suffix, acc) := suffix_products l in (mul acc d :: suffix, mul acc d) end.

Definition combine_chunk (entries : list (Challenge * Challenge)) : Challenge * Challenge :=
  match entries with
  | [(r, m)] => (r, m)
  | [(r0, m0); (r1, m1)] => (mul r0 r1, add (mul m0 r1) (mul m1 r0))
  | _ =>
      let n := length entries in
      let prefix := prefix_products one (map fst entries) in
      let suffix := (suffix_products (map fst entries)).1 in
      (nth (n - 1) prefix zero,
       fold_left (fun numerator '(i, (_, m)) =>
         let all_but_current := if i =? 0 then nth 1 suffix zero else if i + 1 =? n then nth (i - 1) prefix zero else mul (nth (i - 1) prefix zero) (nth (i + 1) suffix zero) in
         add numerator (mul m all_but_current)) (imap pair entries) zero)
  end.

(** The asserted expressions, in order; [None] is a panic. *)
Definition eval_permutation_constraints_prescoped (local_sends local_receives : list Interaction) (batch_size : nat) (commit_scope : InteractionScope) (builder : Folder)
    : option (list Challenge) :=
  let permutation_trace_width := local_permutation_trace_width (length local_sends + length local_receives) batch_size in
  if negb (length (f_perm_local builder) =? permutation_trace_width) then None
  else
    alpha ← f_perm_challenges builder !! 0;
    beta ← f_perm_challenges builder !! 1;
    let perm_local := f_perm_local builder in
    let perm_next := f_perm_next builder in
    let local_asserts :=
      match local_sends, local_receives with
      | [], [] => []
      | _, _ =>
          let all_interactions := directed local_sends local_receives in
          let powers := beta_powers beta all_interactions in
          let sum_local := sum (take (permutation_trace_width - 1) perm_local) in
          let sum_next := sum (take (permutation_trace_width - 1) perm_next) in
          let phi_local := List.last perm_local zero in
          let phi_next := List.last perm_next zero in
          zip_with (fun entry chunk =>
            let '(product, numerator) := combine_chunk (map (rlc_of alpha powers (f_prep_local builder) (f_main_local builder)) chunk) in
            sub (mul product entry) numerator) (take (length perm_local - 1) perm_local) (chunks batch_size all_interactions) ++
          [mul (f_is_first_row builder) (sub phi_local sum_local);
           mul (f_is_transition builder) (sub (sub phi_next phi_local) sum_next);
           mul (f_is_last_row builder) (sub phi_local (f_local_cumulative_sum builder))]
      end in
    let main_local := f_main_local builder in
    match commit_scope with
    | Local => Some local_asserts
    | Global =>
        if length main_local <? 14 then None
        else
          let '(x, y) := f_global_cumulative_sum builder in
          Some (local_asserts ++ concat (map (fun i =>
            [mul (f_is_last_row builder) (sub (nth (length main_local - 14 + i) main_local zero) (from_base (nth i x zero)));
             mul (f_is_last_row builder) (sub (nth (length main_local - 7 + i) main_local zero) (from_base (nth i y zero)))]) (seq 0 7)))
    end.

Definition eval_permutation_constraints (sends receives : list Interaction) (batch_size : nat) (commit_scope : InteractionScope) (builder : Folder) : option (list Challenge) :=
  let '(scoped_sends, scoped_receives) := scoped_interactions sends receives in
  eval_permutation_constraints_prescoped (default [] (scoped_sends !! Local)) (default [] (scoped_receives !! Local)) batch_size commit_scope builder.

(** *** The debug builder (debug.rs) *)

(** The rows [i] and [i + 1] of the traces, cyclically. *)
Definition debug_folder (pairs : list (list Val * list Val)) (perm : list (list Challenge)) (perm_challenges : list Challenge) (public_values : list Val)
    (local_cumulative_sum : Challenge) (global_cumulative_sum : list Val * list Val) (i : nat) : Folder :=
  let n := length pairs in
  let i_next := (i + 1) mod n in
  let '(prep_local, main_local) := nth i pairs ([], []) in
  let '(prep_next, main_next) := nth i_next pairs ([], []) in
  mkFolder (map from_base prep_local) (map from_base prep_next) (map from_base main_local) (map from_base main_next) (nth i perm []) (nth i_next perm [])
    perm_challenges local_cumulative_sum global_cumulative_sum
    (if i =? 0 then one else zero) (if i =? n - 1 then one else zero) (if i =? n - 1 then zero else one) public_values.

(** [chip_eval]: the [eval] of a chip; [None]: a row fails. *)
Definition debug_constraints (chip_eval : Folder -> option (list Challenge)) (preprocessed : option (Matrix Val)) (main : Matrix Val) (perm : Matrix Challenge)
    (perm_challenges : list Challenge) (public_values : list Val) (local_cumulative_sum : Challenge) (global_cumulative_sum : list Val * list Val) : option unit :=
  if negb (height main =? height perm) then None
  else if height main =? 0 then Some tt
  else
    pairs ← row_pairs preprocessed main;
    _ ← mapM (fun i => asserted ← chip_eval (debug_folder pairs (rows perm) perm_challenges public_values local_cumulative_sum global_cumulative_sum i);
                       if forallb (fun x => bool_decide (x = zero)) asserted then Some tt else None) (seq 0 (height main));
    Some tt.
End LogUp.
Arguments Interaction Val Challenge {_}. Arguments Folder Val Challenge : clear implicits.

(** ** Sums of fractions *)

Section Fractions.
  Context {F : Type} `{LF : LawfulField F}.

Lemma frac_field_inst : field_theory zero one add mul sub opp div inverse eq.
Proof using LF. exact field_laws. Qed.
Add Field FracField : frac_field_inst.

(** The sum of [m / d] over entries [(d, m)]. *)
Definition frac_sum (entries : list (F * F)) : F := lsum (map (fun '(d, m) => mul m (inverse d)) entries).
Fixpoint lprod (l : list F) : F := match l with [] => one | x :: l => mul x (lprod l) end.
(** Its numerator over the product of the denominators. *)
Fixpoint cross (entries : list (F * F)) : F :=
  match entries with [] => zero | (d, m) :: entries => add (mul m (lprod (map fst entries))) (mul d (cross entries)) end.

Lemma lprod_app l l' : lprod (l ++ l') = mul (lprod l) (lprod l').
Proof using LF. induction l as [|x l IH]; cbn [app lprod]; [ring|]. rewrite IH. ring. Qed.

Lemma lprod_nonzero l : Forall (fun x => x <> zero) l -> lprod l <> zero.
Proof using LF. induction 1 as [|x l Hx _ IH]; cbn [lprod]; [apply one_nonzero|by apply mul_nonzero]. Qed.

Lemma cross_frac entries : Forall (fun e => e.1 <> zero) entries -> cross entries = mul (lprod (map fst entries)) (frac_sum entries).
Proof using LF.
  unfold frac_sum. induction 1 as [|[d m] entries Hd _ IH]; cbn [cross map lprod lsum fst]; [ring|]. rewrite IH. cbn in Hd. field. done.
Qed.

Lemma frac_sum_app l l' : frac_sum (l ++ l') = add (frac_sum l) (frac_sum l').
Proof using LF. unfold frac_sum. by rewrite map_app, esum_app. Qed.

Lemma frac_sum_concat ls : frac_sum (concat ls) = lsum (map frac_sum ls).
Proof using LF. induction ls as [|l ls IH]; [done|]. cbn [concat map lsum]. by rewrite frac_sum_app, IH. Qed.

(** Accumulation in a loop. *)
Lemma fold_add {A} (g : A -> F) l : forall a, fold_left (fun acc x => add acc (g x)) l a = add a (lsum (map g l)).
Proof using LF. induction l as [|x l IH]; intros a; cbn [fold_left map lsum]; [ring|]. rewrite IH. ring. Qed.

Lemma fold_mul l : forall a, fold_left mul l a = mul a (lprod l).
Proof using LF. induction l as [|x l IH]; intros a; cbn [fold_left lprod]; [ring|]. rewrite IH. ring. Qed.

Lemma map_imap {A B C} (f : B -> C) (g : nat -> A -> B) l : map f (imap g l) = imap (fun i x => f (g i x)) l.
Proof using. clear. revert g. induction l as [|x l IH]; intros g; [done|]. rewrite !imap_cons. cbn [map]. by rewrite IH. Qed.

(** The numerator, term by term. *)
Lemma cross_terms (entries : list (F * F)) :
  lsum (imap (fun i '(_, m) => mul m (mul (lprod (take i (map fst entries))) (lprod (drop (S i) (map fst entries))))) entries) = cross entries.
Proof using LF.
  induction entries as [|[d m] entries IH]; [done|]. rewrite imap_cons. cbn [map fst lsum cross firstn skipn lprod]. f_equal; [rewrite drop_0; ring|]. rewrite <- IH, lsum_scale. f_equal.
  rewrite map_imap. apply imap_ext. intros i [d' m'] _. unfold compose. cbn [map fst firstn skipn lprod]. ring.
Qed.

Lemma prefix_products_length acc (l : list F) : length (prefix_products acc l) = length l.
Proof using. revert acc. induction l as [|x l IH]; intros acc; cbn [prefix_products length]; [done|]. by rewrite IH. Qed.

Lemma prefix_products_nth (l : list F) : forall acc i, i < length l -> nth i (prefix_products acc l) zero = mul acc (lprod (take (S i) l)).
Proof using LF.
  induction l as [|x l IH]; intros acc [|i] Hi; cbn [length] in Hi; try lia; cbn [prefix_products nth firstn lprod]; [rewrite take_0; cbn [lprod]; ring|]. rewrite IH by lia. cbn [firstn lprod]. ring.
Qed.

Lemma suffix_products_spec (l : list F) : suffix_products l = (map (fun i => lprod (drop i l)) (seq 0 (length l)), lprod l).
Proof using LF.
  induction l as [|x l IH]; [done|]. cbn [suffix_products]. rewrite IH. cbn [length seq map]. rewrite <- seq_shift, map_map. cbn [skipn lprod]. replace (mul (lprod l) x) with (mul x (lprod l)) by ring. done.
Qed.

Lemma suffix_products_nth (l : list F) i : i < length l -> nth i (suffix_products l).1 zero = lprod (drop i l).
Proof using LF. intros Hi. rewrite suffix_products_spec. cbn [fst]. rewrite (nth_indep _ zero (lprod (drop 0 l))) by (by rewrite length_map, length_seq). by rewrite (map_nth (fun i => lprod (drop i l)) (seq 0 (length l)) 0 i), seq_nth by done. Qed.

Lemma fold_left_ext_in {A B} (f g : A -> B -> A) l : forall a, (forall a b, b ∈ l -> f a b = g a b) -> fold_left f l a = fold_left g l a.
Proof using. clear. induction l as [|b l IH]; intros a Hf; [done|]. cbn [fold_left]. rewrite Hf by (by left). apply IH. intros a' b' Hb. apply Hf. by right. Qed.

Lemma fold_imap {A} (g : nat -> A -> F) l a : fold_left (fun acc '(i, x) => add acc (g i x)) (imap pair l) a = add a (lsum (imap g l)).
Proof using LF.
  rewrite (fold_left_ext_in _ (fun acc p => add acc (g p.1 p.2))) by (by intros ? [] _). rewrite fold_add. f_equal. f_equal. apply map_imap.
Qed.

(** All three cases of the constraint compute product and numerator. *)
Lemma combine_chunk_eq (entries : list (F * F)) : entries <> [] -> combine_chunk entries = (lprod (map fst entries), cross entries).
Proof using LF.
  intros Hne. destruct entries as [|[r0 m0] [|[r1 m1] [|e2 rest]]]; [done|cbn; f_equal; ring..|].
  set (entries := (r0, m0) :: (r1, m1) :: e2 :: rest) in *. change (combine_chunk entries) with (
    (nth (length entries - 1) (prefix_products one (map fst entries)) zero,
     fold_left (fun numerator '(i, (_, m)) => let all_but_current := if i =? 0 then nth 1 (suffix_products (map fst entries)).1 zero
       else if i + 1 =? length entries then nth (i - 1) (prefix_products one (map fst entries)) zero
       else mul (nth (i - 1) (prefix_products one (map fst entries)) zero) (nth (i + 1) (suffix_products (map fst entries)).1 zero) in add numerator (mul m all_but_current)) (imap pair entries) zero)).
  assert (3 <= length entries) as Hl by (cbn; lia). f_equal.
  - rewrite prefix_products_nth by (rewrite length_map; lia). rewrite take_ge by (rewrite length_map; lia). ring.
  - rewrite <- cross_terms. transitivity (add zero (lsum (imap (fun i '(_, m) => mul m (mul (lprod (take i (map fst entries))) (lprod (drop (S i) (map fst entries))))) entries))); [|ring].
    rewrite <- fold_imap. apply fold_left_ext_in. intros acc [i [d m]] Hi. apply elem_of_lookup_imap in Hi as (i' & e & [= <- <-] & Hi). apply lookup_lt_Some in Hi. cbn zeta. f_equal. f_equal.
    assert (length (map fst entries) = length entries) as Lm by apply length_map. destruct (Nat.eqb_spec i 0) as [->|Hi0]; [rewrite suffix_products_nth, take_0 by lia; cbn [lprod]; ring|].
    rewrite prefix_products_nth by lia. replace (S (i - 1)) with i by lia. destruct (Nat.eqb_spec (i + 1) (length entries)) as [Hl1|Hl1].
    + rewrite (drop_ge _ (S i)) by lia. cbn [lprod]. ring.
    + rewrite suffix_products_nth by lia. replace (i + 1) with (S i) by lia. ring.
Qed.
(** ** Vanishing sums *)

(** A polynomial with more roots than its degree is zero everywhere. *)
Lemma roots_vanish (xs : list F) : NoDup xs -> forall p, length p <= length xs -> (forall x, x ∈ xs -> eval p x = zero) -> forall y, eval p y = zero.
Proof using LF.
  induction 1 as [|z xs Hz _ IH]; intros p Hl Hr y; [destruct p; [done|cbn in Hl; lia]|]. pose proof (eval_quotient z p y) as E. rewrite (Hr z (list_elem_of_here _ _)) in E.
  rewrite (IH (quotient z p)) in E; [| |intros x Hx].
  - replace (eval p y) with (sub (eval p y) zero) by ring. rewrite E. ring.
  - rewrite quotient_length. cbn in Hl. lia.
  - pose proof (eval_quotient z p x) as Ex. rewrite (Hr z (list_elem_of_here _ _)), (Hr x (list_elem_of_further _ _ _ Hx)) in Ex. assert (sub x z <> zero) as Hn by (apply sub_nonzero; intros ->; done).
    replace (eval (quotient z p) x) with (mul (inverse (sub x z)) (mul (sub x z) (eval (quotient z p) x))) by (field; done). rewrite <- Ex. ring.
Qed.

(** Product and numerator as polynomials of the challenge. *)
Definition mul_linear (f : F) (p : list F) : list F := poly_add (zero :: p) (poly_scale f p).
Fixpoint prod_poly (fs : list F) : list F := match fs with [] => [one] | f :: fs => mul_linear f (prod_poly fs) end.
Fixpoint cross_poly (terms : list (F * F)) : list F :=
  match terms with [] => [] | (f, c) :: terms => poly_add (poly_scale c (prod_poly (map fst terms))) (mul_linear f (cross_poly terms)) end.

Lemma eval_linear f p x : eval (mul_linear f p) x = mul (add x f) (eval p x).
Proof using LF. unfold mul_linear. rewrite eval_add, eval_scale. cbn [eval]. ring. Qed.
Lemma linear_length f p : length (mul_linear f p) = S (length p).
Proof using. unfold mul_linear, poly_scale. rewrite poly_add_length, length_map. cbn [length]. lia. Qed.
Lemma prod_poly_length fs : length (prod_poly fs) = S (length fs).
Proof using. induction fs as [|f fs IH]; [done|]. cbn [prod_poly]. by rewrite linear_length, IH. Qed.
Lemma eval_prod fs x : eval (prod_poly fs) x = lprod (map (add x) fs).
Proof using LF. induction fs as [|f fs IH]; cbn [prod_poly map lprod]; [cbn; ring|]. by rewrite eval_linear, IH. Qed.

Definition at_point (x : F) (t : F * F) : F * F := (add x t.1, t.2).
Lemma eval_cross terms x : eval (cross_poly terms) x = cross (map (at_point x) terms).
Proof using LF.
  induction terms as [|[f c] terms IH]; [done|]. cbn [cross_poly map at_point fst snd cross]. rewrite eval_add, eval_scale, eval_linear, IH, eval_prod, !map_map. done.
Qed.
Lemma cross_poly_length terms : length (cross_poly terms) <= length terms.
Proof using.
  induction terms as [|[f c] terms IH]; [done|]. cbn [cross_poly length]. rewrite poly_add_length, linear_length. unfold poly_scale. rewrite length_map, prod_poly_length, length_map. destruct terms; cbn in *; lia.
Qed.

(** At the pole of a fraction only its numerator is left. *)
Lemma cross_at_pole terms f c : NoDup (map fst terms) -> (f, c) ∈ terms -> cross (map (at_point (opp f)) terms) = zero -> c = zero.
Proof using LF.
  induction terms as [|[g b] terms IH]; intros Hnd Hin E; [by apply not_elem_of_nil in Hin|]. cbn [map fst] in Hnd. apply NoDup_cons in Hnd as [Hg Hnd]. cbn [map at_point fst snd cross] in E. rewrite map_map in E. cbn [at_point fst] in E.
  apply elem_of_cons in Hin as [[= <- <-]|Hin].
  - assert (lprod (map (fun t => add (opp f) t.1) terms) <> zero) as Hp.
    { apply lprod_nonzero. rewrite Forall_map. apply Forall_forall. intros t Ht E0. apply Hg. replace f with t.1; [apply list_elem_of_fmap; eauto|]. replace (t.1) with (add f (add (opp f) t.1)) by ring. rewrite E0. ring. }
    set (P := lprod _) in *. replace c with (mul (inverse P) (add (mul c P) (mul (add (opp f) f) (cross (map (at_point (opp f)) terms))))) by (field; done). rewrite E. ring.
  - apply (IH Hnd Hin). assert (lprod (map (fun t => add (opp f) t.1) terms) = zero) as Hp.
    { clear -LF Hin. induction terms as [|t terms IH]; [by apply not_elem_of_nil in Hin|]. cbn [map lprod]. apply elem_of_cons in Hin as [<-|Hin]; [cbn [fst]; ring|]. rewrite (IH Hin). ring. }
    rewrite Hp in E. assert (add (opp f) g <> zero) as Hn. { intros E0. apply Hg. replace g with f; [apply list_elem_of_fmap; by exists (f, c)|]. replace g with (add f (add (opp f) g)) by ring. rewrite E0. ring. }
    set (X := cross _) in *. replace X with (mul (inverse (add (opp f) g)) (add (mul b zero) (mul (add (opp f) g) X))) by (field; done). rewrite E. ring.
Qed.

(** Fractions with different poles that cancel for as many challenges as there are
    poles have numerators zero. *)
Lemma fractions_vanish terms (xs : list F) : NoDup (map fst terms) -> NoDup xs -> length terms <= length xs ->
  (forall x, x ∈ xs -> Forall (fun t => add x t.1 <> zero) terms /\ frac_sum (map (at_point x) terms) = zero) -> Forall (fun t => t.2 = zero) terms.
Proof using LF.
  intros Hnd Hx Hl Hs. apply Forall_forall. intros [f c] Hin. cbn [snd]. apply (cross_at_pole terms f c Hnd Hin). rewrite <- eval_cross. apply (roots_vanish xs Hx); [pose proof (cross_poly_length terms); lia|].
  intros x Hx'. destruct (Hs x Hx') as [Hp E]. rewrite eval_cross, cross_frac, E by (by rewrite Forall_map). ring.
Qed.
End Fractions.

(** ** Messages and their sum *)

Section Messages.
  Context {Val Challenge : Type} `{EF : ExtensionField Val Challenge} `{PC : !PairColumns Val Challenge}.

(** Kind, values and signed multiplicity. *)
Definition Message : Type := InteractionKind * list Val * Val.

Definition message_of (row : list Val * list Val) (interaction : Interaction Val Challenge * bool) : Message :=
  let '(int, is_send) := interaction in
  let mult := apply (int_multiplicity int) row.1 row.2 in
  (int_kind int, map (fun col => apply col row.1 row.2) (int_values int), if is_send then mult else opp mult).

(** The messages of the rows of a table. *)
Definition table_messages (pairs : list (list Val * list Val)) (interactions : list (Interaction Val Challenge * bool)) : list Message :=
  concat (map (fun row => map (message_of row) interactions) pairs).

Definition fingerprint (beta : Challenge) (key : InteractionKind * list Val) : Challenge :=
  add (ext_from_canonical_usize (Z.to_nat (argument_index key.1))) (mul beta (eval (map from_base key.2) beta)).

Definition term (alpha beta : Challenge) (m : Message) : Challenge * Challenge := (add alpha (fingerprint beta m.1), from_base m.2).

Definition logup (alpha beta : Challenge) (messages : list Message) : Challenge := frac_sum (map (term alpha beta) messages).

(** No denominator is zero. *)
Definition no_pole (alpha beta : Challenge) (messages : list Message) : Prop := Forall (fun m => add alpha (fingerprint beta m.1) <> zero) messages.
End Messages.
Arguments Message Val : clear implicits.

Section Argument.
  Context {Val Challenge : Type} `{LE : LawfulExtension Val Challenge} `{PC : !PairColumns Val Challenge} `{LC : !LawfulColumns Val Challenge} `{EV : EqDecision Val} `{EC : EqDecision Challenge}.

#[local] Existing Instance val_inst.
#[local] Existing Instance challenge_inst.
Lemma logup_field_inst : field_theory (zero : Challenge) one add mul sub opp div inverse eq.
Proof using LE. exact field_laws. Qed.
Add Field LogUpField : logup_field_inst.
Lemma logup_base_inst : field_theory (zero : Val) one add mul sub opp div inverse eq.
Proof using LE. exact field_laws. Qed.
Add Field LogUpBase : logup_base_inst.

Implicit Types (alpha beta : Challenge) (row : list Val * list Val) (int : Interaction Val Challenge) (interactions chunk : list (Interaction Val Challenge * bool)).

(** *** Fingerprints *)

Lemma powers_from_eq beta n : forall current, powers_from current beta n = map (fun i => mul current (power beta i)) (seq 0 n).
Proof using LE.
  induction n as [|n IH]; intros current; [done|]. cbn [powers_from seq map power]. f_equal; [ring|]. rewrite IH, <- seq_shift, map_map. apply map_ext. intros i. cbn [power]. ring.
Qed.

Lemma values_fold {A} (f : A -> Challenge) beta : forall cols n current acc, length cols <= n ->
  fold_left (fun d '(power, col) => add d (mul power (f col))) (zip (powers_from current beta n) cols) acc = add acc (mul current (eval (map f cols) beta)).
Proof using LE.
  induction cols as [|col cols IH]; intros n current acc Hn; [destruct (powers_from _ _ _); cbn; ring|]. destruct n as [|n]; [cbn in Hn; lia|]. cbn [powers_from zip zip_with fold_left map eval].
  rewrite IH by (cbn in Hn; lia). ring.
Qed.

Definition short_enough (interactions : list (Interaction Val Challenge * bool)) (i : Interaction Val Challenge * bool) : Prop :=
  length (int_values i.1) <= list_max (map (fun '(int, _) => length (int_values int)) interactions).

Lemma all_short interactions i : i ∈ interactions -> short_enough interactions i.
Proof using.
  intros Hi. unfold short_enough. pose proof (proj1 (list_max_le (map (fun '(int, _) => length (int_values int)) interactions) _) (le_n _)) as Hf. rewrite Forall_forall in Hf. apply Hf.
  apply list_elem_of_fmap. exists i. destruct i. done.
Qed.

Lemma entry_of_eq alpha beta interactions row i : short_enough interactions i ->
  entry_of alpha (beta_powers beta interactions) row.1 row.2 i = Some (add alpha (fingerprint beta (message_of row i).1), (message_of row i).2).
Proof using LE.
  unfold short_enough, beta_powers. destruct i as [int is_send]. cbn [fst]. set (n := list_max _). intros Hn. rewrite Nat.add_1_r. cbn [powers_from entry_of].
  assert ((length (powers_from (mul one beta) beta n) <? length (int_values int)) = false) as ->.
  { apply Nat.ltb_ge. rewrite powers_from_eq, length_map, length_seq. done. }
  rewrite values_fold by done. cbn [message_of fst snd]. unfold fingerprint, int_argument_index. cbn [fst snd]. f_equal. f_equal. rewrite map_map. ring.
Qed.

Lemma from_base_opp (x : Val) : from_base (opp x) = opp (from_base x).
Proof using LE. assert (add (from_base x) (from_base (opp x)) = zero) as E by (rewrite <- from_base_add, <- from_base_zero; f_equal; ring). replace (from_base (opp x)) with (sub (add (from_base x) (from_base (opp x))) (from_base x)) by ring. rewrite E. ring. Qed.

Lemma fold_zip_swap {A B C} (f : C -> A -> B -> C) : forall (la : list A) (lb : list B) c, fold_left (fun c '(a, b) => f c a b) (zip la lb) c = fold_left (fun c '(b, a) => f c a b) (zip lb la) c.
Proof using. clear. induction la as [|a la IH]; intros [|b lb] c; [done..|]. cbn [zip zip_with fold_left]. apply IH. Qed.

Lemma rlc_of_eq alpha beta interactions row i : short_enough interactions i ->
  rlc_of alpha (beta_powers beta interactions) (map from_base row.1) (map from_base row.2) i = term alpha beta (message_of row i).
Proof using LE LC.
  unfold short_enough, beta_powers. destruct i as [int is_send]. cbn [fst]. set (n := list_max _). intros Hn. rewrite Nat.add_1_r. cbn [powers_from rlc_of nth tail]. unfold term. cbn [message_of fst snd]. f_equal.
  - rewrite (fold_zip_swap (fun rlc field bp => add rlc (mul bp (apply_ext field (map from_base row.1) (map from_base row.2))))), values_fold by done.
    unfold fingerprint, int_argument_index. cbn [fst snd]. rewrite map_map. replace (map (fun x => apply_ext x (map from_base row.1) (map from_base row.2)) (int_values int)) with (map (fun x => from_base (apply x row.1 row.2)) (int_values int)) by (apply map_ext; intros x; by rewrite apply_ext_spec).
    ring.
  - rewrite apply_ext_spec. destruct is_send; [|rewrite from_base_opp]; ring.
Qed.

(** *** One chunk *)

(** Entries over the extension. *)
Definition lift (e : Challenge * Val) : Challenge * Challenge := (e.1, from_base e.2).

Fixpoint with_prefix (acc : Challenge) (entries : list (Challenge * Val)) : list (Challenge * (Challenge * Val)) :=
  match entries with [] => [] | e :: entries => (acc, e) :: with_prefix (mul acc e.1) entries end.

Lemma zip_prefix entries : forall acc, zip (acc :: prefix_products acc (map fst entries)) entries = with_prefix acc entries.
Proof using. induction entries as [|[d m] entries IH]; intros acc; [done|]. cbn [map fst prefix_products zip zip_with with_prefix]. f_equal. apply IH. Qed.

Lemma last_prefix (l : list Challenge) : forall acc, List.last (acc :: prefix_products acc l) zero = mul acc (lprod l).
Proof using LE.
  induction l as [|d l IH]; intros acc; [cbn; ring|]. cbn [prefix_products]. change (List.last (acc :: mul acc d :: prefix_products (mul acc d) l) zero) with (List.last (mul acc d :: prefix_products (mul acc d) l) zero).
  rewrite IH. cbn [lprod]. ring.
Qed.

(** The backward loop of the batched inversion. *)
Lemma inversion_loop entries : forall acc s, acc <> zero -> Forall (fun e => e.1 <> zero) entries ->
  fold_left (fun '(inv, sum) '(p, (d, m)) => (mul inv d, add sum (mul (from_base m) (mul inv p)))) (rev (with_prefix acc entries)) (inverse (mul acc (lprod (map fst entries))), s) =
  (inverse acc, add s (frac_sum (map lift entries))).
Proof using LE.
  induction entries as [|[d m] entries IH]; intros acc s Ha Hf.
  - cbn. f_equal; [f_equal|]; ring.
  - inversion_clear Hf as [|? ? Hd Hf']. cbn [fst] in Hd. cbn [with_prefix rev map fst lprod]. rewrite fold_left_app. replace (mul acc (mul d (lprod (map fst entries)))) with (mul (mul acc d) (lprod (map fst entries))) by ring.
    rewrite IH by (done || by apply mul_nonzero). cbn [fold_left lift fst snd]. unfold frac_sum. cbn [map lsum]. unfold lift at 2. cbn [fst snd]. f_equal; field; done.
Qed.

(** The batched inversion of a row computes the sum of the fractions. *)
Lemma batch_sum_eq entries : entries <> [] -> length entries <= 8 -> Forall (fun e => e.1 <> zero) entries -> batch_sum entries = Some (frac_sum (map lift entries)).
Proof using LE.
  intros Hne Hl Hf. unfold batch_sum. rewrite (proj2 (Nat.ltb_ge 8 (length entries)) Hl). destruct entries as [|[d0 m0] rest]; [done|]. inversion_clear Hf as [|? ? Hd Hf']. cbn [fst] in Hd.
  destruct rest as [|e rest]; [cbn; f_equal; field; done|]. rewrite zip_prefix, last_prefix, inversion_loop by done. unfold frac_sum. cbn [map lsum lift fst snd]. f_equal. ring.
Qed.

Lemma all_but_fold i (l : list Challenge) : forall k a, fold_left (fun p '(j, d) => if j =? i then p else mul p d) (imap (fun j d => (k + j, d)) l) a =
  mul a (if k <=? i then mul (lprod (take (i - k) l)) (lprod (drop (S (i - k)) l)) else lprod l).
Proof using LE.
  induction l as [|d l IH]; intros k a; [cbn; rewrite take_nil; destruct (k <=? i); cbn; ring|]. rewrite imap_cons. cbn [fold_left]. rewrite (imap_ext _ (fun j d => (S k + j, d))) by (intros; unfold compose; f_equal; lia). rewrite IH, Nat.add_0_r.
  destruct (Nat.eqb_spec k i) as [->|Hk].
  - rewrite Nat.leb_refl, Nat.sub_diag, (proj2 (Nat.leb_gt (S i) i)) by lia. cbn [firstn skipn lprod]. rewrite drop_0. ring.
  - destruct (Nat.leb_spec k i) as [Hle|Hgt].
    + rewrite (proj2 (Nat.leb_le (S k) i)) by lia. replace (i - k) with (S (i - S k)) by lia. cbn [firstn skipn lprod]. ring.
    + rewrite (proj2 (Nat.leb_gt (S k) i)) by lia. cbn [lprod]. ring.
Qed.

Lemma all_but_eq i (l : list Challenge) : all_but i l = mul (lprod (take i l)) (lprod (drop (S i) l)).
Proof using LE. unfold all_but. change (imap pair l) with (imap (fun j d => (0 + j, d)) l). rewrite all_but_fold. cbn [Nat.leb]. rewrite Nat.sub_0_r. ring. Qed.

Definition entry_at alpha beta row (i : Interaction Val Challenge * bool) : Challenge * Val := (add alpha (fingerprint beta (message_of row i).1), (message_of row i).2).

Lemma chunk_fraction_eq alpha beta interactions row chunk : Forall (short_enough interactions) chunk -> chunk <> [] -> length chunk <= 8 ->
  chunk_fraction alpha (beta_powers beta interactions) row.1 row.2 chunk =
  Some (lprod (map fst (map (term alpha beta) (map (message_of row) chunk))), cross (map (term alpha beta) (map (message_of row) chunk))).
Proof using LE.
  intros Hs Hne Hl. unfold chunk_fraction. rewrite (mapM_pointwise _ (entry_at alpha beta row)) by (intros i Hi; apply entry_of_eq; rewrite Forall_forall in Hs; by apply Hs). cbn [mbind option_bind].
  set (entries := map (entry_at alpha beta row) chunk). assert (map (term alpha beta) (map (message_of row) chunk) = map lift entries) as -> by (subst entries; rewrite !map_map; done).
  assert (entries <> []) as Hne' by (subst entries; by destruct chunk). assert (length entries <= 8) as Hl' by (subst entries; by rewrite length_map). clearbody entries. clear Hs Hne Hl chunk.
  assert (map fst (map lift entries) = map fst entries) as Em by (by rewrite map_map).
  assert (Some (fold_left mul (map fst entries) one, fold_left (fun num '(i, (_, m)) => add num (mul (from_base m) (all_but i (map fst entries)))) (imap pair entries) zero) = Some (lprod (map fst (map lift entries)), cross (map lift entries))) as Eg.
  { f_equal. f_equal; [rewrite Em, fold_mul; ring|]. rewrite <- cross_terms, Em. rewrite (fold_left_ext_in _ (fun num '(i, e) => add num ((fun i e => mul (from_base e.2) (all_but i (map fst entries))) i e))) by (by intros ? [? []] _). rewrite fold_imap.
    change (map lift entries) with (fmap (M := list) lift entries). rewrite imap_fmap. transitivity (lsum (imap (fun i e => mul (from_base e.2) (all_but i (map fst entries))) entries)); [ring|]. f_equal. apply imap_ext. intros i [d m] _. unfold compose, lift. cbn [fst snd]. by rewrite all_but_eq. }
  destruct entries as [|[d0 m0] [|[d1 m1] [|e2 rest]]]; [done|cbn; f_equal; f_equal; ring..|]. rewrite (proj2 (Nat.ltb_ge 8 (length _)) Hl'). exact Eg.
Qed.

(** *** Blocks of rows *)

Lemma lookup_concat_uniform {A} n : forall (ls : list (list A)) r (l : list A) c x, Forall (fun l => length l = n) ls -> ls !! r = Some l -> l !! c = Some x -> concat ls !! (r * n + c) = Some x.
Proof using.
  clear. induction ls as [|l ls IH]; intros r l' c x Hf Hr Hc; [done|]. inversion_clear Hf as [|? ? Hl Hf']. cbn [concat]. destruct r as [|r]; cbn in Hr.
  - injection Hr as ->. rewrite lookup_app_l by (apply lookup_lt_Some in Hc; lia). done.
  - rewrite lookup_app_r by lia. rewrite Hl. replace (S r * n + c - n) with (r * n + c) by lia. by apply (IH r l').
Qed.

Lemma imap_const {A B} (f : A -> B) l : imap (fun _ x => f x) l = map f l.
Proof using. clear. induction l as [|x l IH]; [done|]. rewrite imap_cons. cbn [map]. f_equal. exact IH. Qed.

Definition row_terms alpha beta row chunk : list (Challenge * Challenge) := map (term alpha beta) (map (message_of row) chunk).
Definition entries_of alpha beta row (chs : list (list (Interaction Val Challenge * bool))) : list Challenge := map (fun chunk => frac_sum (row_terms alpha beta row chunk)) chs.

(** The chunks of the interactions: not empty, at most eight long. *)
Definition chunks_ok interactions (chs : list (list (Interaction Val Challenge * bool))) : Prop :=
  Forall (fun chunk => Forall (short_enough interactions) chunk /\ chunk <> [] /\ length chunk <= 8) chs.
Definition row_nonzero alpha beta row (chs : list (list (Interaction Val Challenge * bool))) : Prop := Forall (fun chunk => Forall (fun e => e.1 <> zero) (row_terms alpha beta row chunk)) chs.

Lemma fill_block_eq alpha beta interactions chs block : chunks_ok interactions chs -> Forall (fun row => row_nonzero alpha beta row chs) block ->
  fill_block alpha (beta_powers beta interactions) chs block = Some (map (fun row => entries_of alpha beta row chs) block).
Proof using LE.
  intros Hok Hnz. unfold fill_block. set (fr := fun row chunk => (lprod (map fst (row_terms alpha beta row chunk)), cross (row_terms alpha beta row chunk))).
  rewrite (mapM_pointwise _ (fun row => map (fr row) chs)).
  2:{ intros [prep main] Hrow. apply mapM_pointwise. intros chunk Hc. unfold chunks_ok in Hok. rewrite Forall_forall in Hok. destruct (Hok chunk Hc) as (Hs & Hne & Hl). apply (chunk_fraction_eq alpha beta interactions (prep, main) chunk Hs Hne Hl). }
  cbn [mbind option_bind]. rewrite batch_inverse_spec.
  2:{ rewrite Forall_map. apply Forall_concat. rewrite Forall_map. eapply Forall_impl; [exact Hnz|]. intros row Hr. rewrite Forall_map. eapply Forall_impl; [exact Hr|]. intros chunk Hc. cbn [fr fst]. apply lprod_nonzero. by rewrite Forall_map. }
  cbn [mbind option_bind]. f_equal. set (ls := map (fun row => map (fr row) chs) block).
  transitivity (imap (fun _ fs => map (fun x => mul x.2 (inverse x.1)) fs) ls).
  - apply imap_ext. intros r row Hr. rewrite <- (imap_const (fun x => mul x.2 (inverse x.1)) row). apply imap_ext. intros c [d num] Hc. cbn [fst snd]. f_equal. apply nth_lookup_Some.
    change (map inverse (map fst (concat ls))) with (inverse <$> (fst <$> concat ls)). rewrite !list_lookup_fmap, (lookup_concat_uniform (length chs) ls r row c (d, num)); [done| |done|done].
    subst ls. rewrite Forall_map. apply Forall_true. intros row'. apply length_map.
  - rewrite imap_const. subst ls. rewrite map_map. apply map_ext_in. intros row Hrow%list_elem_of_In. rewrite map_map. apply map_ext_in. intros chunk Hc%list_elem_of_In. cbn [fr fst snd].
    rewrite Forall_forall in Hnz. pose proof (Hnz row Hrow) as Hr. unfold row_nonzero in Hr. rewrite Forall_forall in Hr. specialize (Hr chunk Hc). rewrite cross_frac by done.
    assert (lprod (map fst (row_terms alpha beta row chunk)) <> zero) by (apply lprod_nonzero; by rewrite Forall_map). field. done.
Qed.

(** *** The generated trace *)

Lemma running_length (l : list Challenge) : forall acc, length (running acc l) = length l.
Proof using. induction l as [|x l IH]; intros acc; cbn [running length]; [done|]. by rewrite IH. Qed.

Lemma chunks_width {A} n (l : list A) : 0 < n -> length (chunks n l) = (length l + (n - 1)) / n.
Proof using.
  clear. intros Hn. revert l. apply (chunks_ind n); [done|cbn; rewrite Nat.div_small by lia; done|]. intros l Hl IH. rewrite chunks_step by done. cbn [length]. rewrite IH, length_drop.
  assert (0 < length l) by (destruct l; [done|cbn; lia]). destruct (Nat.le_gt_cases n (length l)) as [Hle|Hgt].
  - replace (length l + (n - 1)) with (1 * n + (length l - n + (n - 1))) by lia. rewrite Nat.div_add_l by lia. done.
  - replace (length l - n) with 0 by lia. rewrite (Nat.div_small (0 + (n - 1))) by lia. apply (Nat.div_unique _ _ _ (length l - 1)); lia.
Qed.

Lemma chunks_elements {A} n (l : list A) : 0 < n -> Forall (fun c => c <> [] /\ length c <= n /\ c ⊆ l) (chunks n l).
Proof using.
  clear. intros Hn. revert l. apply (chunks_ind n); [done|constructor|]. intros l Hl IH. rewrite chunks_step by done. constructor.
  - split_and!; [by destruct l, n; [| |lia|]|rewrite length_take; lia|]. intros x Hx. by apply (elem_of_take _ n) in Hx as (? & ? & ?); eapply list_elem_of_lookup_2.
  - eapply Forall_impl; [exact IH|]. intros c (H1 & H2 & H3). split_and!; [done..|]. intros x Hx. apply H3 in Hx. rewrite <- (take_drop n l). apply elem_of_app. by right.
Qed.

Lemma interaction_chunks_ok n interactions : 0 < n <= 8 -> chunks_ok interactions (chunks n interactions).
Proof using.
  intros Hn. unfold chunks_ok. eapply Forall_impl; [apply (chunks_elements n); lia|]. intros chunk (H1' & H2' & H3'). split_and!; [|done|lia]. apply Forall_forall. intros i Hi. apply all_short. by apply H3'.
Qed.

Lemma map_concat_map {A B} (f : A -> B) ls : map f (concat ls) = concat (map (map f) ls).
Proof using. clear. induction ls as [|l ls IH]; [done|]. cbn [concat map]. by rewrite map_app, IH. Qed.

(** The entries of a row add up to the sum of its messages. *)
Lemma entries_sum n alpha beta row interactions : 0 < n -> sum (entries_of alpha beta row (chunks n interactions)) = frac_sum (row_terms alpha beta row interactions).
Proof using LE.
  intros Hn. rewrite sum_lsum. unfold entries_of. rewrite <- (concat_chunks n interactions Hn) at 2. unfold row_terms. rewrite !map_concat_map, frac_sum_concat, !map_map. done.
Qed.

Lemma no_pole_rows n alpha beta pairs interactions : 0 < n -> no_pole alpha beta (table_messages pairs interactions) -> Forall (fun row => row_nonzero alpha beta row (chunks n interactions)) pairs.
Proof using.
  intros Hn. unfold no_pole, table_messages. rewrite Forall_concat, Forall_map. intros Hf. eapply Forall_impl; [exact Hf|]. intros row Hr. unfold row_nonzero. rewrite <- (concat_chunks n interactions Hn), map_concat_map, Forall_concat, Forall_map in Hr.
  eapply Forall_impl; [exact Hr|]. intros chunk Hc. unfold row_terms. by rewrite Forall_map.
Qed.

Lemma logup_rows alpha beta pairs interactions : logup alpha beta (table_messages pairs interactions) = lsum (map (fun row => frac_sum (row_terms alpha beta row interactions)) pairs).
Proof using LE. unfold logup, table_messages. rewrite map_concat_map, frac_sum_concat, !map_map. done. Qed.

Lemma last_running (l : list Challenge) : forall acc, l <> [] -> last (running acc l) = Some (add acc (lsum l)).
Proof using LE.
  induction l as [|x l IH]; intros acc Hne; [done|]. cbn [running lsum]. destruct l as [|y l]; [cbn; f_equal; ring|]. cbn [running]. change (last (add acc x :: running (add acc x) (y :: l)) = Some (add acc (add x (lsum (y :: l))))).
  rewrite last_cons, IH by done. f_equal. ring.
Qed.

(** The trace of partial sums. *)
Definition partial_sums n alpha beta (pairs : list (list Val * list Val)) interactions : list (list Challenge) :=
  zip_with (fun es c => es ++ [c]) (map (fun row => entries_of alpha beta row (chunks n interactions)) pairs) (running zero (map (fun row => frac_sum (row_terms alpha beta row interactions)) pairs)).

Lemma block_pos : 0 < BLOCK_SIZE.
Proof using. apply Nat.neq_0_lt_0. by apply Nat.pow_nonzero. Qed.

Lemma generate_eq sends receives prep main alpha beta rest n pairs : directed sends receives <> [] -> 0 < n <= 8 -> row_pairs prep main = Some pairs -> pairs <> [] ->
  no_pole alpha beta (table_messages pairs (directed sends receives)) ->
  generate_permutation_trace_prescoped sends receives prep main (alpha :: beta :: rest) n =
  Some (mkMatrix (local_permutation_trace_width (length sends + length receives) n) (partial_sums n alpha beta pairs (directed sends receives)), logup alpha beta (table_messages pairs (directed sends receives))).
Proof using LE LC.
  intros Hne Hn Hp Hpn Hnp. set (ints := directed sends receives) in *. unfold generate_permutation_trace_prescoped. fold ints.
  assert (forall X Y : option (Matrix Challenge * Challenge), match sends, receives with [], [] => X | _, _ => Y end = Y) as -> by (intros X Y; destruct sends; [destruct receives; done|done]).
  cbn [lookup list_lookup mbind option_bind]. rewrite Hp. cbn [mbind option_bind].
  assert (mapM (fill_block alpha (beta_powers beta ints) (chunks n ints)) (chunks BLOCK_SIZE pairs) = Some (map (map (fun row => entries_of alpha beta row (chunks n ints))) (chunks BLOCK_SIZE pairs))) as ->.
  { apply mapM_pointwise. intros block Hb. apply fill_block_eq; [by apply interaction_chunks_ok|]. pose proof (chunks_elements BLOCK_SIZE pairs block_pos) as Hc. rewrite Forall_forall in Hc. destruct (Hc block Hb) as (_ & _ & Hsub).
    pose proof (no_pole_rows n alpha beta pairs ints ltac:(lia) Hnp) as Hr. rewrite Forall_forall in Hr |- *. intros row Hrow. apply Hr. by apply Hsub. }
  cbn [mbind option_bind]. rewrite <- map_concat_map, concat_chunks by apply block_pos. rewrite map_map. rewrite (map_ext _ (fun row => frac_sum (row_terms alpha beta row ints))) by (intros row; apply entries_sum; lia).
  rewrite scan_sum_spec, last_running by (by destruct pairs). cbn [mbind option_bind]. rewrite running_length, !length_map, Nat.eqb_refl. cbn [negb]. unfold partial_sums. rewrite logup_rows. do 2 f_equal. ring.
Qed.

(** *** The constraints of a row *)

(** The constraint of an entry. *)
Definition entry_assert alpha (powers : list Challenge) row (entry : Challenge) chunk : Challenge :=
  let '(product, numerator) := combine_chunk (map (rlc_of alpha powers (map from_base row.1) (map from_base row.2)) chunk) in sub (mul product entry) numerator.

Lemma sub_zero (x y : Challenge) : sub x y = zero <-> x = y.
Proof using LE. split; [|intros ->; ring]. intros E. replace x with (add (sub x y) y) by ring. rewrite E. ring. Qed.

Lemma entry_assert_zero alpha beta interactions row chunk entry : Forall (short_enough interactions) chunk -> chunk <> [] -> Forall (fun e => e.1 <> zero) (row_terms alpha beta row chunk) ->
  entry_assert alpha (beta_powers beta interactions) row entry chunk = zero <-> entry = frac_sum (row_terms alpha beta row chunk).
Proof using LE LC.
  intros Hs Hne Hnz. unfold entry_assert. rewrite (map_ext_in _ (fun i => term alpha beta (message_of row i))).
  2:{ intros i Hi%list_elem_of_In. apply rlc_of_eq. rewrite Forall_forall in Hs. by apply Hs. }
  rewrite <- (map_map (message_of row)). fold (row_terms alpha beta row chunk). rewrite combine_chunk_eq by (by destruct chunk). rewrite cross_frac, sub_zero by done.
  assert (lprod (map fst (row_terms alpha beta row chunk)) <> zero) as Hp by (apply lprod_nonzero; by rewrite Forall_map). split; [|by intros ->]. intros E.
  replace entry with (mul (inverse (lprod (map fst (row_terms alpha beta row chunk)))) (mul (lprod (map fst (row_terms alpha beta row chunk))) entry)) by (field; done). rewrite E. field. done.
Qed.

Lemma entries_assert_zero alpha beta interactions row : forall chs es, chunks_ok interactions chs -> row_nonzero alpha beta row chs -> length es = length chs ->
  Forall (fun x => x = zero) (zip_with (entry_assert alpha (beta_powers beta interactions) row) es chs) <-> es = entries_of alpha beta row chs.
Proof using LE LC.
  induction chs as [|chunk chs IH]; intros [|e es] Hok Hnz Hl; try done. apply Forall_cons in Hok as [(Hs & Hne & _) Hok]. apply Forall_cons in Hnz as [Hn Hnz]. injection Hl as Hl. cbn [zip_with entries_of map].
  rewrite Forall_cons, (entry_assert_zero alpha beta interactions row chunk e Hs Hne Hn), (IH es Hok Hnz Hl). split; [by intros [-> ->]|]. intros [= -> ->]. done.
Qed.

(** The digest of a chip of global scope is in the last 14 columns. *)
Definition digest_at (main_local : list Val) (digest : list Val * list Val) : Prop :=
  forall i, i < 7 -> nth (length main_local - 14 + i) main_local zero = nth i digest.1 zero /\ nth (length main_local - 7 + i) main_local zero = nth i digest.2 zero.

Definition row_spec n alpha beta interactions row (perm_local perm_next : list Challenge) (first last transition cum : Challenge) : Prop :=
  take (length perm_local - 1) perm_local = entries_of alpha beta row (chunks n interactions) /\
  mul first (sub (List.last perm_local zero) (sum (take (length perm_local - 1) perm_local))) = zero /\
  mul transition (sub (sub (List.last perm_next zero) (List.last perm_local zero)) (sum (take (length perm_local - 1) perm_next))) = zero /\
  mul last (sub (List.last perm_local zero) cum) = zero.

Lemma from_base_inj (x y : Val) : from_base x = from_base y -> x = y.
Proof using LE EV.
  intros E. destruct (decide (x = y)) as [|Hn]; [done|]. exfalso. apply (from_base_nonzero (sub x y)); [by apply sub_nonzero|]. replace (sub x y) with (add x (opp y)) by ring. rewrite from_base_add, from_base_opp, E. ring.
Qed.

Lemma mul_zero_iff (x y : Challenge) : mul x y = zero <-> (x <> zero -> y = zero).
Proof using LE EC.
  split; [|intros Hy; destruct (decide (x = zero)) as [->|Hx]; [ring|rewrite (Hy Hx); ring]]. intros E Hx. replace y with (mul (inverse x) (mul x y)) by (field; done). rewrite E. ring.
Qed.

Lemma nth_from_base i (l : list Val) : nth i (map from_base l) zero = from_base (nth i l zero).
Proof using LE. rewrite <- from_base_zero. apply map_nth. Qed.

Lemma digest_asserts (l : Challenge) (main_local : list Val) digest :
  Forall (fun x => x = zero) (concat (map (fun i =>
    [mul l (sub (nth (length (map from_base main_local) - 14 + i) (map from_base main_local) zero) (from_base (nth i digest.1 zero)));
     mul l (sub (nth (length (map from_base main_local) - 7 + i) (map from_base main_local) zero) (from_base (nth i digest.2 zero)))]) (seq 0 7))) <-> (l <> zero -> digest_at main_local digest).
Proof using LE EV EC.
  rewrite Forall_concat, Forall_map, length_map. split.
  - intros Hf Hl i Hi. rewrite Forall_forall in Hf. specialize (Hf i ltac:(apply elem_of_seq; lia)). apply Forall_cons in Hf as [H1' Hf]. apply Forall_cons in Hf as [H2' _].
    rewrite mul_zero_iff, sub_zero, nth_from_base in H1', H2'. split; apply from_base_inj; auto.
  - intros Hd. apply Forall_forall. intros i Hi%elem_of_seq. repeat constructor; rewrite mul_zero_iff, sub_zero, nth_from_base; intros Hl; destruct (Hd Hl i ltac:(lia)) as [E1 E2]; by f_equal.
Qed.

(** The assertions of a row, in the terms of its messages. *)
Lemma row_asserts n sends receives scope (f : Folder Val Challenge) alpha beta rest row : directed sends receives <> [] -> 0 < n <= 8 ->
  f_perm_challenges f = alpha :: beta :: rest -> f_prep_local f = map from_base row.1 -> f_main_local f = map from_base row.2 ->
  length (f_perm_local f) = S (length (chunks n (directed sends receives))) -> row_nonzero alpha beta row (chunks n (directed sends receives)) ->
  (exists asserted, eval_permutation_constraints_prescoped sends receives n scope f = Some asserted /\ Forall (fun x => x = zero) asserted) <->
  row_spec n alpha beta (directed sends receives) row (f_perm_local f) (f_perm_next f) (f_is_first_row f) (f_is_last_row f) (f_is_transition f) (f_local_cumulative_sum f) /\
  (scope = Global -> 14 <= length row.2 /\ (f_is_last_row f <> zero -> digest_at row.2 (f_global_cumulative_sum f))).
Proof using LE LC EV EC.
  intros Hne Hn Hch Hprep Hmain Hlen Hnz. set (ints := directed sends receives) in *.
  assert (length sends + length receives = length ints) as El by (subst ints; unfold directed; by rewrite length_app, !length_map).
  assert (local_permutation_trace_width (length sends + length receives) n = length (f_perm_local f)) as Ew.
  { unfold local_permutation_trace_width. rewrite El, Hlen, chunks_width by lia. destruct (Nat.eqb_spec (length ints) 0) as [E|_]; [destruct ints; done|lia]. }
  unfold eval_permutation_constraints_prescoped. rewrite Ew, Nat.eqb_refl, Hch, Hprep, Hmain. cbn [negb lookup list_lookup mbind option_bind]. fold ints.
  assert (forall X Y : list Challenge, match sends, receives with [], [] => X | _, _ => Y end = Y) as -> by (intros X Y; destruct sends; [destruct receives; done|done]).
  change (fun entry chunk => let '(product, numerator) := combine_chunk (map (rlc_of alpha (beta_powers beta ints) (map from_base row.1) (map from_base row.2)) chunk) in sub (mul product entry) numerator)
    with (entry_assert alpha (beta_powers beta ints) row).
  set (locals := zip_with _ _ _ ++ _). assert (Forall (fun x => x = zero) locals <-> row_spec n alpha beta ints row (f_perm_local f) (f_perm_next f) (f_is_first_row f) (f_is_last_row f) (f_is_transition f) (f_local_cumulative_sum f)) as El'.
  { subst locals. unfold row_spec. rewrite Forall_app, (entries_assert_zero alpha beta ints row (chunks n ints)) by (done || (by apply interaction_chunks_ok) || (rewrite length_take; lia)). rewrite !Forall_cons. naive_solver. }
  rewrite <- El'. clearbody locals. destruct scope.
  - rewrite length_map. destruct (Nat.ltb_spec (length row.2) 14) as [Hlt|Hge].
    + split; [intros (? & [=] & _)|]. intros [_ Hg]. specialize (Hg eq_refl). lia.
    + destruct (f_global_cumulative_sum f) as [x y] eqn:Eg. pose proof (digest_asserts (f_is_last_row f) row.2 (x, y)) as Hd. cbn [fst snd] in Hd. rewrite length_map in Hd. split.
      * intros (asserted & [= <-] & Hf). apply Forall_app in Hf as [Hf1 Hf2]. split; [done|]. intros _. split; [done|by apply Hd].
      * intros [Hf1 Hg]. eexists. split; [reflexivity|]. apply Forall_app. split; [done|]. apply Hd. by apply Hg.
  - split; [intros (asserted & [= <-] & Hf); done|]. intros [Hf _]. by exists locals.
Qed.

(** *** The whole trace *)

Lemma row_pairs_length (prep : option (Matrix Val)) (main : Matrix Val) pairs : row_pairs prep main = Some pairs -> length pairs = height main.
Proof using.
  unfold row_pairs, height. destruct prep as [prep|]; [|intros [= <-]; apply length_map]. destruct (Nat.ltb_spec (length (rows prep)) (length (rows main))) as [|Hle]; [done|]. intros [= <-]. rewrite length_zip_with. lia.
Qed.

Lemma debug_constraints_iff chip_eval prep main perm challenges pvs cum digest pairs : row_pairs prep main = Some pairs -> 0 < height main -> height main = height perm ->
  debug_constraints chip_eval prep main perm challenges pvs cum digest = Some tt <->
  forall i, i < length pairs -> exists asserted, chip_eval (debug_folder pairs (rows perm) challenges pvs cum digest i) = Some asserted /\ Forall (fun x => x = zero) asserted.
Proof using EV EC.
  intros Hp Hpos Hh. pose proof (row_pairs_length _ _ _ Hp) as Hl. unfold debug_constraints. rewrite <- Hh, Nat.eqb_refl, (proj2 (Nat.eqb_neq (height main) 0)), Hp by lia. cbn [negb mbind option_bind]. rewrite <- Hl.
  match goal with |- context [mapM ?c _] => set (check := c) end. assert (forall i, check i = Some tt <-> exists asserted, chip_eval (debug_folder pairs (rows perm) challenges pvs cum digest i) = Some asserted /\ Forall (fun x => x = zero) asserted) as Hc.
  { intros i. subst check. cbn beta. destruct (chip_eval _) as [asserted|]; cbn [mbind option_bind]; [|naive_solver]. assert (forallb (fun x => bool_decide (x = zero)) asserted = true <-> Forall (fun x => x = zero) asserted) as Hb.
    { rewrite forallb_forall, Forall_forall. setoid_rewrite <- list_elem_of_In. by setoid_rewrite bool_decide_eq_true. }
    destruct (forallb _ asserted); naive_solver. }
  split.
  - intros E i Hi. apply Hc. destruct (mapM check (seq 0 (length pairs))) as [l|] eqn:Em; [|discriminate E]. apply mapM_Some_1 in Em. apply (Forall2_lookup_l _ _ _ i i) in Em as ([] & _ & Em); [done|]. by rewrite lookup_seq_lt.
  - intros Hf. rewrite (mapM_pointwise _ (fun _ => tt)); [done|]. intros i Hi%elem_of_seq. apply Hc, Hf. lia.
Qed.

Lemma running_nth (l : list Challenge) : forall acc i, i < length l -> nth i (running acc l) zero = add acc (lsum (take (S i) l)).
Proof using LE.
  induction l as [|x l IH]; intros acc [|i] Hi; cbn [length] in Hi; try lia; cbn [running nth firstn lsum]; [rewrite take_0; cbn [lsum]; ring|]. rewrite IH by lia. cbn [firstn lsum]. ring.
Qed.

Section Table.
  Context (sends receives : list (Interaction Val Challenge)) (n : nat) (scope : InteractionScope) (prep : option (Matrix Val)) (main : Matrix Val).
  Context (alpha beta : Challenge) (rest : list Challenge) (pvs : list Val) (digest : list Val * list Val) (pairs : list (list Val * list Val)).
  Context (Hne : directed sends receives <> []) (Hn : 0 < n <= 8) (Hp : row_pairs prep main = Some pairs) (Hpos : 0 < height main).
  Context (Hnp : no_pole alpha beta (table_messages pairs (directed sends receives))).

Let ints := directed sends receives.
Let w := S (length (chunks n ints)).
Let row_at i := nth i pairs ([], []).
Let row_sum i := frac_sum (row_terms alpha beta (row_at i) ints).

Lemma trace_width : local_permutation_trace_width (length sends + length receives) n = w.
Proof using Hn Hne.
  clear -Hn Hne. assert (length sends + length receives = length ints) as -> by (subst ints; unfold directed; by rewrite length_app, !length_map). subst w. unfold local_permutation_trace_width. rewrite chunks_width by lia.
  destruct (Nat.eqb_spec (length ints) 0) as [E|_]; [subst ints; by destruct (directed sends receives)|lia].
Qed.

Lemma table_rows_nonzero i : i < length pairs -> row_nonzero alpha beta (row_at i) (chunks n ints).
Proof using Hnp Hn.
  intros Hi. pose proof (no_pole_rows n alpha beta pairs ints (proj1 Hn) Hnp) as Hr. rewrite Forall_forall in Hr. apply Hr. apply list_elem_of_In, nth_In. done.
Qed.

Lemma folder_row perm cum i : let f := debug_folder pairs perm (alpha :: beta :: rest) pvs cum digest i in
  f_prep_local f = map from_base (row_at i).1 /\ f_main_local f = map from_base (row_at i).2 /\ f_perm_challenges f = alpha :: beta :: rest /\ f_perm_local f = nth i perm [] /\ f_perm_next f = nth ((i + 1) mod length pairs) perm [] /\
  f_local_cumulative_sum f = cum /\ f_global_cumulative_sum f = digest /\ f_is_first_row f = (if i =? 0 then one else zero) /\ f_is_last_row f = (if i =? length pairs - 1 then one else zero) /\ f_is_transition f = (if i =? length pairs - 1 then zero else one).
Proof using. cbn zeta. unfold debug_folder, row_at. by destruct (nth i pairs _), (nth ((i + 1) mod length pairs) pairs _). Qed.

(** The rows that the check goes through. *)
Definition row_ok_at (perm : list (list Challenge)) (cum : Challenge) (i : nat) : Prop :=
  length (nth i perm []) = w /\
  row_spec n alpha beta ints (row_at i) (nth i perm []) (nth ((i + 1) mod length pairs) perm []) (if i =? 0 then one else zero) (if i =? length pairs - 1 then one else zero) (if i =? length pairs - 1 then zero else one) cum /\
  (scope = Global -> 14 <= length (row_at i).2 /\ (i = length pairs - 1 -> digest_at (row_at i).2 digest)).

Lemma check_iff perm cum : height perm = height main ->
  debug_constraints (eval_permutation_constraints_prescoped sends receives n scope) prep main perm (alpha :: beta :: rest) pvs cum digest = Some tt <-> forall i, i < length pairs -> row_ok_at (rows perm) cum i.
Proof using LE LC EV Hne Hn Hp Hpos Hnp.
  intros Hh. rewrite (debug_constraints_iff _ _ _ _ _ _ _ _ pairs Hp Hpos) by done. apply forall_proper. intros i. split; intros Hi Hlt; specialize (Hi Hlt);
    destruct (folder_row (rows perm) cum i) as (F1 & F2 & F3 & F4 & F5 & F6 & F7 & F8 & F9 & F10); pose proof (table_rows_nonzero i Hlt) as Hnz; revert F1 F2 F3 F4 F5 F6 F7 F8 F9 F10 Hi; set (f := debug_folder _ _ _ _ _ _ i); intros F1 F2 F3 F4 F5 F6 F7 F8 F9 F10 Hi.
  - assert (length (nth i (rows perm) []) = w) as Hw.
    { destruct Hi as (asserted & Hi & _). unfold eval_permutation_constraints_prescoped in Hi. rewrite F4, trace_width in Hi. destruct (Nat.eqb_spec (length (nth i (rows perm) [])) w); [done|discriminate Hi]. }
    split; [done|]. apply (row_asserts n sends receives scope f alpha beta rest (row_at i)) in Hi; [|done..|by rewrite F4|done]. rewrite F4, F5, F6, F7, F8, F9, F10 in Hi. destruct Hi as [Hs Hg]. split; [done|]. intros Hsc. destruct (Hg Hsc) as [Hg1 Hg2]. split; [done|]. intros ->. apply Hg2. rewrite Nat.eqb_refl. apply one_nonzero.
  - destruct Hi as (Hw & Hs & Hg). apply (row_asserts n sends receives scope f alpha beta rest (row_at i)); [done..|by rewrite F4|done|]. rewrite F4, F5, F6, F7, F8, F9, F10. split; [done|]. intros Hsc. destruct (Hg Hsc) as [Hg1 Hg2]. split; [done|]. intros Hl. apply Hg2. destruct (Nat.eqb_spec i (length pairs - 1)); done.
Qed.

Lemma row_sum_entries i : sum (entries_of alpha beta (row_at i) (chunks n ints)) = row_sum i.
Proof using LE Hn. apply entries_sum, Hn. Qed.

Lemma sums_of_rows : lsum (map row_sum (seq 0 (length pairs))) = logup alpha beta (table_messages pairs ints).
Proof using LE. rewrite logup_rows. f_equal. rewrite <- (map_nth_seq pairs ([], [])) at 2. rewrite map_map. done. Qed.

(** The column of running sums. *)
Lemma running_column perm cum : (forall i, i < length pairs -> row_ok_at perm cum i) -> forall i, i < length pairs -> List.last (nth i perm []) zero = lsum (map row_sum (seq 0 (S i))).
Proof using LE Hn Hpos.
  intros Hok. induction i as [|i IH]; intros Hi.
  - destruct (Hok 0 Hi) as (Hw & (He & Hf & _) & _). cbn [Nat.eqb] in Hf. rewrite He, row_sum_entries in Hf. cbn [seq map lsum]. replace (add (row_sum 0) zero) with (row_sum 0) by ring. apply sub_zero. etransitivity; [|exact Hf]. ring.
  - destruct (Hok i ltac:(lia)) as (Hw & (He & _ & Ht & _) & _). destruct (Hok (S i) Hi) as (Hw' & (He' & _) & _). rewrite (proj2 (Nat.eqb_neq i (length pairs - 1))) in Ht by lia.
    rewrite Nat.add_1_r, Nat.mod_small in Ht by lia. rewrite Hw, <- Hw', He', row_sum_entries, (IH ltac:(lia)) in Ht. rewrite seq_S, map_app, esum_app. cbn [map lsum Nat.add].
    apply sub_zero. etransitivity; [|exact Ht]. ring.
Qed.

Lemma sums_checked perm cum : height perm = height main -> debug_constraints (eval_permutation_constraints_prescoped sends receives n scope) prep main perm (alpha :: beta :: rest) pvs cum digest = Some tt ->
  cum = logup alpha beta (table_messages pairs ints).
Proof using LE LC EV Hne Hn Hp Hpos Hnp.
  intros Hh Hd0. pose proof (proj1 (check_iff perm cum Hh) Hd0) as Hd. rewrite <- sums_of_rows. pose proof (row_pairs_length _ _ _ Hp) as Hl. destruct (Hd (length pairs - 1) ltac:(lia)) as (_ & (_ & _ & _ & Hc) & _).
  rewrite Nat.eqb_refl, (running_column (rows perm) cum Hd) in Hc by lia. replace (S (length pairs - 1)) with (length pairs) in Hc by lia. symmetry. apply sub_zero. etransitivity; [|exact Hc]. ring.
Qed.

Lemma lookup_nth_lt {A} (l : list A) i d : i < length l -> l !! i = Some (nth i l d).
Proof using. clear. intros Hi. destruct (lookup_lt_is_Some_2 l i Hi) as [x Hx]. by rewrite Hx, (nth_lookup_Some _ _ d _ Hx). Qed.

Lemma partial_sums_nth i : i < length pairs -> nth i (partial_sums n alpha beta pairs ints) [] = entries_of alpha beta (row_at i) (chunks n ints) ++ [lsum (map row_sum (seq 0 (S i)))].
Proof using LE Hn Hpos.
  intros Hi. unfold partial_sums. apply nth_lookup_Some. rewrite lookup_zip_with. change (map (fun row => entries_of alpha beta row (chunks n ints)) pairs) with ((fun row => entries_of alpha beta row (chunks n ints)) <$> pairs).
  rewrite list_lookup_fmap, (lookup_nth_lt pairs i ([], []) Hi). cbn [fmap option_fmap option_map mbind option_bind]. fold (row_at i).
  set (sums := map (fun row => frac_sum (row_terms alpha beta row ints)) pairs). assert (i < length (running zero sums)) as Hi' by (rewrite running_length; subst sums; by rewrite length_map).
  rewrite (lookup_nth_lt _ i zero Hi'). cbn [mbind option_bind]. do 3 f_equal. rewrite running_nth by (subst sums; by rewrite length_map). subst sums. rewrite firstn_map, <- (map_nth_seq pairs ([], [])), firstn_map, take_seq.
  rewrite map_map. replace (S i `min` length pairs) with (S i) by lia. unfold row_sum, row_at. ring.
Qed.

Lemma partial_sums_ok : (scope = Global -> forall i, i < length pairs -> 14 <= length (row_at i).2) -> (scope = Global -> digest_at (row_at (length pairs - 1)).2 digest) ->
  forall i, i < length pairs -> row_ok_at (partial_sums n alpha beta pairs ints) (logup alpha beta (table_messages pairs ints)) i.
Proof using LE Hn Hpos.
  intros Hg1 Hg2 i Hi. unfold row_ok_at, row_spec. assert (forall j, length (entries_of alpha beta (row_at j) (chunks n ints)) = length (chunks n ints)) as Le by (intros j; apply length_map).
  rewrite partial_sums_nth by done. rewrite length_app, Le. cbn [length]. rewrite Nat.add_sub. split_and!; [subst w; lia|..].
  - by rewrite take_app_length' by done.
  - rewrite take_app_length' by done. rewrite last_last, row_sum_entries. destruct (Nat.eqb_spec i 0) as [->|_]; cbn [seq map lsum]; ring.
  - destruct (Nat.eqb_spec i (length pairs - 1)) as [->|Hl]; [ring|]. rewrite Nat.add_1_r, Nat.mod_small by lia. rewrite partial_sums_nth by lia. rewrite take_app_length' by done. rewrite !last_last, row_sum_entries, (seq_S (S i) 0), map_app, esum_app. cbn [map lsum Nat.add]. ring.
  - rewrite last_last, <- sums_of_rows. destruct (Nat.eqb_spec i (length pairs - 1)) as [->|_]; [replace (S (length pairs - 1)) with (length pairs) by lia|]; ring.
  - intros Hs. split; [by apply Hg1|]. intros ->. by apply Hg2.
Qed.
End Table.

(** *** Scopes *)

Definition in_local (int : Interaction Val Challenge) : Prop := int_scope int = Local.
#[local] Instance in_local_dec int : Decision (in_local int).
Proof. unfold in_local. apply _. Defined.

Lemma sort_by_scope_eq (l : list (Interaction Val Challenge)) : sort_by_scope l = filter (fun int => ~ in_local int) l ++ filter in_local l.
Proof using.
  assert (forall int gs ls, Forall (fun i => ~ in_local i) gs -> Forall in_local ls -> insert_by_scope int (gs ++ ls) = if decide (in_local int) then gs ++ int :: ls else int :: gs ++ ls) as Hi.
  { intros int gs ls Hg Hl. induction Hg as [|g gs Hg _ IH]; cbn [app insert_by_scope].
    - destruct Hl as [|l0 ls Hl _]; cbn [insert_by_scope]; [by case_decide|]. rewrite bool_decide_false by (intros [_ E]; unfold in_local in Hl; congruence). by case_decide.
    - assert (int_scope g = Global) as Eg by (unfold in_local in Hg; by destruct (int_scope g)). unfold in_local in *. destruct (decide (int_scope int = Local)) as [E|E].
      + rewrite bool_decide_true by done. by rewrite IH.
      + rewrite bool_decide_false by naive_solver. done. }
  induction l as [|int l IH]; [done|]. cbn [sort_by_scope foldr]. fold (sort_by_scope l). rewrite IH, Hi by (apply Forall_forall; intros x [? ?]%list_elem_of_filter; done). rewrite !filter_cons. destruct (decide (in_local int)) as [Hl|Hl].
  - by rewrite decide_False by (intros Hn; by apply Hn).
  - by rewrite decide_True by done.
Qed.

Lemma chunk_by_one k (l : list (Interaction Val Challenge)) : Forall (fun i => int_scope i = k) l -> chunk_by_scope l = match l with [] => [] | _ => [(k, l)] end.
Proof using. induction 1 as [|int l E _ IH]; [done|]. cbn [chunk_by_scope]. rewrite IH, E. destruct l; [done|]. by rewrite decide_True. Qed.

Lemma chunk_by_two (gs ls : list (Interaction Val Challenge)) : Forall (fun i => int_scope i = Global) gs -> Forall in_local ls ->
  chunk_by_scope (gs ++ ls) = chunk_by_scope gs ++ chunk_by_scope ls.
Proof using.
  intros Hg Hl. induction Hg as [|g gs E Hg IH]; [done|]. cbn [app chunk_by_scope]. rewrite IH, (chunk_by_one Global gs Hg), (chunk_by_one Local ls Hl). destruct gs as [|g' gs].
  - cbn [app]. destruct ls; [done|]. rewrite decide_False by (by rewrite E). done.
  - cbn [app]. destruct (decide (int_scope g = Global)); [done|congruence].
Qed.

(** Grouping finds the interactions of local scope, in order. *)
Lemma scoped_local (l : list (Interaction Val Challenge)) : default [] (group_by_scope l !! Local) = filter in_local l.
Proof using.
  unfold group_by_scope. rewrite sort_by_scope_eq. set (gs := filter (fun int => ~ in_local int) l). set (ls := filter in_local l).
  assert (Forall (fun i => int_scope i = Global) gs) as Hg by (apply Forall_forall; intros x [Hx _]%list_elem_of_filter; unfold in_local in Hx; by destruct (int_scope x)).
  assert (Forall in_local ls) as Hl by (apply Forall_forall; by intros x [? _]%list_elem_of_filter). rewrite chunk_by_two, (chunk_by_one Global gs Hg), (chunk_by_one Local ls Hl) by done.
  destruct gs, ls; cbn [app fold_left]; [by rewrite lookup_empty|by rewrite lookup_insert_eq|by rewrite lookup_insert_ne, lookup_empty by done|by rewrite lookup_insert_eq].
Qed.

(** The interactions of local scope. *)
Definition local_interactions (sends receives : list (Interaction Val Challenge)) : list (Interaction Val Challenge * bool) := directed (filter in_local sends) (filter in_local receives).

Lemma populate_row sends receives row alpha beta n cum blank : 0 < n <= 8 -> row_nonzero alpha beta row (chunks n (directed sends receives)) ->
  let entries := entries_of alpha beta row (chunks n (directed sends receives)) ++ [cum] in length blank = length entries -> last blank = last entries ->
  populate_local_permutation_row blank row.1 row.2 sends receives alpha (beta_powers beta (directed sends receives)) n = Some entries.
Proof using LE.
  intros Hn Hnz. cbn zeta. set (ints := directed sends receives) in *. rewrite last_snoc, length_app. unfold entries_of at 1. rewrite length_map. intros Hlen Hlast.
  apply last_Some in Hlast as [pre ->]. rewrite length_app in Hlen. cbn [length] in Hlen. unfold populate_local_permutation_row. fold ints. rewrite take_ge by (rewrite length_app; lia).
  rewrite (mapM_pointwise _ (fun chunk => frac_sum (row_terms alpha beta row chunk))).
  - cbn [mbind option_bind]. f_equal. unfold entries_of. by rewrite drop_app_length' by (rewrite length_map; lia).
  - intros chunk Hc. pose proof (interaction_chunks_ok n ints Hn) as Hok. unfold chunks_ok in Hok. rewrite Forall_forall in Hok. destruct (Hok chunk Hc) as (Hs & Hne & Hl). unfold row_nonzero in Hnz. rewrite Forall_forall in Hnz. specialize (Hnz chunk Hc).
    rewrite (mapM_pointwise _ (entry_at alpha beta row)) by (intros i Hi; apply entry_of_eq; rewrite Forall_forall in Hs; by apply Hs). cbn [mbind option_bind].
    unfold row_terms in Hnz |- *. rewrite batch_sum_eq; [by rewrite !map_map|by destruct chunk|by rewrite length_map|]. rewrite !Forall_map in Hnz. rewrite Forall_map. eapply Forall_impl; [exact Hnz|]. intros i Hi. exact Hi.
Qed.

(** ** The theorems *)

(** C14. The generated permutation trace passes its constraints: for interactions of any
    number and batches of at most eight, unless a denominator is zero, the blocked
    generation succeeds, its sum is the sum of the fractions of all local messages,
    every row satisfies [eval_permutation_constraints], and filling any row of the same
    length by itself with [populate_local_permutation_row], its last entry being the
    running sum, gives the row of the trace whatever its other entries were. *)
Theorem permutation_trace_passes sends receives scope prep main alpha beta rest n pvs digest pairs : let ints := local_interactions sends receives in
  ints <> [] -> 0 < n <= 8 -> row_pairs prep main = Some pairs -> 0 < height main -> no_pole alpha beta (table_messages pairs ints) ->
  (scope = Global -> Forall (fun row => 14 <= length row.2) pairs) -> (scope = Global -> forall row, last pairs = Some row -> digest_at row.2 digest) ->
  exists trace, generate_permutation_trace sends receives prep main (alpha :: beta :: rest) n = Some (trace, logup alpha beta (table_messages pairs ints)) /\
    debug_constraints (eval_permutation_constraints sends receives n scope) prep main trace (alpha :: beta :: rest) pvs (logup alpha beta (table_messages pairs ints)) digest = Some tt /\
    forall i row perm_row blank, pairs !! i = Some row -> rows trace !! i = Some perm_row -> length blank = length perm_row -> last blank = last perm_row ->
      populate_local_permutation_row blank row.1 row.2 (filter in_local sends) (filter in_local receives) alpha (beta_powers beta ints) n = Some perm_row.
Proof using LE LC EV EC.
  intros ints Hne Hn Hp Hpos Hnp Hg1 Hg2. pose proof (row_pairs_length _ _ _ Hp) as Hl. assert (pairs <> []) as Hpn by (intros ->; cbn in Hl; lia). unfold generate_permutation_trace, eval_permutation_constraints. cbn [scoped_interactions]. rewrite !scoped_local. fold (in_local).
  eexists. split; [apply (generate_eq _ _ _ _ _ _ _ _ pairs); done|]. split.
  - apply (check_iff _ _ n scope prep main alpha beta rest pvs digest pairs Hne Hn Hp Hpos Hnp); [unfold height; cbn [rows]; unfold partial_sums; rewrite length_zip_with, running_length, !length_map; unfold height in Hl; lia|]. cbn [rows].
    apply (partial_sums_ok _ _ n scope main alpha beta digest pairs Hn Hpos).
    + intros Hs i Hi. specialize (Hg1 Hs). rewrite Forall_forall in Hg1. apply Hg1. apply list_elem_of_In, nth_In. done.
    + intros Hs. apply (Hg2 Hs). rewrite last_lookup. replace (pred (length pairs)) with (length pairs - 1) by lia. apply lookup_nth_lt. lia.
  - cbn [rows]. intros i row perm_row blank Hr Hq. pose proof (lookup_lt_Some _ _ _ Hr) as Hi. apply (nth_lookup_Some _ _ []) in Hq. rewrite (partial_sums_nth _ _ n main alpha beta pairs Hn Hpos i Hi) in Hq. subst perm_row. rewrite (nth_lookup_Some _ _ _ _ Hr).
    apply populate_row; [done|]. pose proof (table_rows_nonzero _ _ n alpha beta pairs Hn Hnp i Hi) as Hz. cbn beta zeta in Hz. by rewrite (nth_lookup_Some _ _ _ _ Hr) in Hz.
Qed.

Lemma check_height chip_eval prep (main : Matrix Val) (perm : Matrix Challenge) challenges pvs cum digest : debug_constraints chip_eval prep main perm challenges pvs cum digest = Some tt -> height perm = height main.
Proof using. unfold debug_constraints. by destruct (Nat.eqb_spec (height main) (height perm)). Qed.

Lemma passing_sum sends receives scope prep main perm alpha beta rest n pvs digest cum pairs : let ints := local_interactions sends receives in
  ints <> [] -> 0 < n <= 8 -> row_pairs prep main = Some pairs -> 0 < height main -> no_pole alpha beta (table_messages pairs ints) ->
  debug_constraints (eval_permutation_constraints sends receives n scope) prep main perm (alpha :: beta :: rest) pvs cum digest = Some tt -> cum = logup alpha beta (table_messages pairs ints).
Proof using LE LC EV EC.
  intros ints Hne Hn Hp Hpos Hnp Hd. pose proof (check_height _ _ _ _ _ _ _ _ Hd) as Hh. unfold eval_permutation_constraints in Hd. cbn [scoped_interactions] in Hd. rewrite !scoped_local in Hd.
  exact (sums_checked _ _ n scope prep main alpha beta rest pvs digest pairs Hne Hn Hp Hpos Hnp perm cum Hh Hd).
Qed.

(** C15. Whatever trace a prover commits to, if it passes the permutation constraints on
    every row its cumulative sum is the sum of the fractions of the messages of the
    table, unless a denominator is zero. *)
Theorem passing_trace_has_the_sum sends receives scope prep main perm alpha beta rest n pvs digest cum pairs : let ints := local_interactions sends receives in
  ints <> [] -> 0 < n <= 8 -> row_pairs prep main = Some pairs -> 0 < height main -> no_pole alpha beta (table_messages pairs ints) ->
  debug_constraints (eval_permutation_constraints sends receives n scope) prep main perm (alpha :: beta :: rest) pvs cum digest = Some tt -> cum = logup alpha beta (table_messages pairs ints).
Proof using LE LC EV EC. exact (passing_sum sends receives scope prep main perm alpha beta rest n pvs digest cum pairs). Qed.

(** *** Balance *)

(** The total signed multiplicity of a message: sends minus receives. *)
Definition net_multiplicity (key : (InteractionKind * list Val)) (messages : list (Message Val)) : Val := lsum (map (fun m => if decide (m.1 = key) then m.2 else zero) messages).

Lemma from_base_lsum {A} (f : A -> Val) l : from_base (lsum (map f l)) = lsum (map (fun x => from_base (f x)) l).
Proof using LE. induction l as [|x l IH]; cbn [map lsum]; [apply from_base_zero|]. by rewrite from_base_add, IH. Qed.

Lemma lsum_pick (keys : list (InteractionKind * list Val)) key (v : (InteractionKind * list Val) -> Challenge) : NoDup keys -> key ∈ keys -> lsum (map (fun k => if decide (key = k) then v k else zero) keys) = v key.
Proof using LE EV.
  induction 1 as [|k keys Hk _ IH]; intros Hin; [by apply not_elem_of_nil in Hin|]. cbn [map lsum]. apply elem_of_cons in Hin as [->|Hin].
  - rewrite decide_True by done. rewrite (lsum_ext _ (fun _ => zero)) by (intros k' Hk'; rewrite decide_False; [done|intros ->; done]).
    replace (map (fun _ => zero) keys) with (replicate (length keys) (zero : Challenge)) by (clear; induction keys; cbn; by f_equal). rewrite lsum_zero. ring.
  - rewrite decide_False, (IH Hin) by (intros ->; done). ring.
Qed.

(** The sum of the fractions, message by message and key by key. *)
Lemma group_by_key (h : (InteractionKind * list Val) -> Challenge) (keys : list (InteractionKind * list Val)) messages : NoDup keys -> Forall (fun m => m.1 ∈ keys) messages ->
  lsum (map (fun m : Message Val => mul (from_base m.2) (h m.1)) messages) = lsum (map (fun k => mul (from_base (net_multiplicity k messages)) (h k)) keys).
Proof using LE EV.
  intros Hnd. induction 1 as [|m messages Hm Hf IH].
  - cbn [map lsum]. rewrite (lsum_ext _ (fun _ => zero)) by (intros k _; unfold net_multiplicity; cbn [map lsum]; rewrite from_base_zero; ring). replace (map (fun _ => zero) keys) with (replicate (length keys) (zero : Challenge)) by (clear; induction keys; cbn; by f_equal). by rewrite lsum_zero.
  - cbn [map lsum]. rewrite IH, <- (lsum_pick keys m.1 (fun k => mul (from_base m.2) (h k)) Hnd Hm). clear IH.
    assert (forall l : list (InteractionKind * list Val), add (lsum (map (fun k => if decide (m.1 = k) then mul (from_base m.2) (h k) else zero) l)) (lsum (map (fun k => mul (from_base (net_multiplicity k messages)) (h k)) l)) =
      lsum (map (fun k => mul (from_base (net_multiplicity k (m :: messages))) (h k)) l)) as El; [|apply El].
    induction l as [|k l IH]; cbn [map lsum]; [ring|]. rewrite <- IH. unfold net_multiplicity at 3. cbn [map lsum]. fold (net_multiplicity k messages). rewrite from_base_add. repeat case_decide; try done; [|rewrite from_base_zero]; ring.
Qed.

(** A table of a chip with local interactions. *)
Record Table : Type := mkTable {
  t_sends : list (Interaction Val Challenge); t_receives : list (Interaction Val Challenge); t_batch : nat; t_scope : InteractionScope;
  t_prep : option (Matrix Val); t_main : Matrix Val; t_pairs : list (list Val * list Val)
}.
Definition t_messages (t : Table) : list (Message Val) := table_messages (t_pairs t) (local_interactions (t_sends t) (t_receives t)).
Definition table_ok (t : Table) : Prop :=
  local_interactions (t_sends t) (t_receives t) <> [] /\ 0 < t_batch t <= 8 /\ row_pairs (t_prep t) (t_main t) = Some (t_pairs t) /\ 0 < height (t_main t).

(** A prover can pass with this cumulative sum. *)
Definition passes (alpha beta : Challenge) (t : Table) (cum : Challenge) : Prop :=
  exists perm rest pvs digest, debug_constraints (eval_permutation_constraints (t_sends t) (t_receives t) (t_batch t) (t_scope t)) (t_prep t) (t_main t) perm (alpha :: beta :: rest) pvs cum digest = Some tt.

Lemma passing_tables alpha beta tables cums : Forall table_ok tables -> no_pole alpha beta (concat (map t_messages tables)) -> Forall2 (passes alpha beta) tables cums -> sum cums = logup alpha beta (concat (map t_messages tables)).
Proof using LE LC EV EC.
  intros Hok Hnp Hp. rewrite sum_lsum. unfold logup. revert Hok Hnp. induction Hp as [|t cum tables cums (perm & rest & pvs & digest & Ht) Hp IH]; intros Hok Hnp; [done|]. apply Forall_cons in Hok as [(Hne & Hn & Hpr & Hh) Hok]. cbn [map concat] in Hnp |- *. apply Forall_app in Hnp as [Hn1 Hn2].
  cbn [lsum]. rewrite map_app, frac_sum_app, <- (IH Hok Hn2). f_equal. exact (passing_sum _ _ _ _ _ perm alpha beta rest _ pvs digest cum _ Hne Hn Hpr Hh Hn1 Ht).
Qed.

(** C13. Balance is enforced: if, for a challenge [beta] that gives different messages
    different fingerprints, a prover can pass the permutation constraints of all
    tables with cumulative sums that add up to zero for at least as many challenges
    [alpha], none of them a pole, as there are different messages, then every
    message is sent exactly as often as it is received.  A prover whose messages do
    not balance therefore passes for fewer challenges than that. *)
Theorem vanishing_sums_balance beta tables (alphas : list Challenge) : let messages := concat (map t_messages tables) in
  Forall table_ok tables -> (forall m m', m ∈ messages -> m' ∈ messages -> fingerprint beta m.1 = fingerprint beta m'.1 -> m.1 = m'.1) ->
  NoDup alphas -> length (remove_dups (map fst messages)) <= length alphas ->
  (forall alpha, alpha ∈ alphas -> no_pole alpha beta messages /\ exists cums, Forall2 (passes alpha beta) tables cums /\ sum cums = zero) ->
  forall key, net_multiplicity key messages = zero.
Proof using LE LC EV EC.
  intros messages Hok Hinj Hnd Hlen Hs key. set (keys := remove_dups (map fst messages)) in *. assert (NoDup keys) as Hk by apply NoDup_remove_dups.
  assert (forall k, k ∈ keys <-> k ∈ map fst messages) as Hin by (intros k; apply elem_of_remove_dups).
  assert (Forall (fun m => m.1 ∈ keys) messages) as Hm by (apply Forall_forall; intros m Hm; apply Hin, list_elem_of_fmap; eauto).
  destruct (decide (key ∈ keys)) as [Hkey|Hkey].
  - set (terms := map (fun k => (fingerprint beta k, from_base (net_multiplicity k messages))) keys).
    assert (Forall (fun t => t.2 = zero) terms) as Hz.
    { apply (fractions_vanish terms alphas); [|done|subst terms; by rewrite length_map|].
      - subst terms. rewrite map_map. cbn [fst]. apply NoDup_fmap_2_strong; [|done]. intros k k' Hk1 Hk2 E. apply Hin in Hk1, Hk2. apply list_elem_of_fmap in Hk1 as (m & -> & Hm1). apply list_elem_of_fmap in Hk2 as (m' & -> & Hm2). by apply Hinj.
      - intros alpha Ha. destruct (Hs alpha Ha) as (Hnp & cums & Hp & E). split.
        + subst terms. rewrite Forall_map. apply Forall_forall. intros k Hk'%Hin. apply list_elem_of_fmap in Hk' as (m & -> & Hm'). unfold no_pole in Hnp. rewrite Forall_forall in Hnp. by apply Hnp.
        + rewrite <- E, (passing_tables alpha beta tables cums Hok Hnp Hp). unfold logup, frac_sum. subst terms. rewrite !map_map. cbn [at_point fst snd].
          symmetry. exact (group_by_key (fun k => inverse (add alpha (fingerprint beta k))) keys messages Hk Hm). }
    rewrite Forall_forall in Hz. specialize (Hz (fingerprint beta key, from_base (net_multiplicity key messages)) ltac:(subst terms; apply list_elem_of_fmap; eauto)). cbn [snd] in Hz. apply from_base_inj. by rewrite Hz, from_base_zero.
  - unfold net_multiplicity. assert (forall ms : list (Message Val), Forall (fun m => m.1 <> key) ms -> lsum (map (fun m => if decide (m.1 = key) then m.2 else zero) ms) = zero) as Hz.
    { induction 1 as [|m ms Hn _ IH]; cbn [map lsum]; [done|]. rewrite decide_False, IH by done. ring. }
    apply Hz. eapply Forall_impl; [exact Hm|]. intros m Hm' E. apply Hkey. rewrite <- E. exact Hm'.
Qed.
End Argument.
