(* ===== verification/Stark.v ===== *)
(** * The verifier of shard proofs (crates/stark/src/verifier.rs, chip.rs, types.rs,
    folder.rs, machine.rs)

    [verify_shard] replays the challenges of the prover, checks the claimed values
    of all traces at a random point with the commitment scheme of [FriPcs], and
    checks that the constraints of every chip, those of [LogUp] included, folded
    with powers of a challenge, are the vanishing polynomial times the quotient.
    Chips are records with the constraints of their AIR as a function; the domains
    of plonky3 are a class. *)

From Stdlib Require Import ZArith Lia Bool PeanoNat Field String.
From stdpp Require Import base list gmap strings.
From S2P Require Import Prelude Record Sharding AirBuilder Lookup MerkleTree MerkleOpen Fri FriProtocol FriPcs FriInterpolate LogUp.

Import TwoAdicFriPcs.

(** [PolynomialSpace] of p3_commit on the cosets of [FriPcs], [monomial] of the
    extension, [from_canonical_u32] and the order of the base field. *)
Record LagrangeSelectors (Challenge : Type) : Type := mkSelectors { is_first_row : Challenge; is_last_row : Challenge; is_transition : Challenge; inv_zeroifier : Challenge }.
Arguments mkSelectors {_}. Arguments is_first_row {_}. Arguments is_last_row {_}. Arguments is_transition {_}. Arguments inv_zeroifier {_}.

Class PolynomialSpace (Val Challenge : Type) : Type := {
  first_point : Domain Val -> Val;
  next_point : Domain Val -> Challenge -> option Challenge;
  create_disjoint_domain : Domain Val -> nat -> Domain Val;
  split_domains : Domain Val -> nat -> list (Domain Val);
  zp_at_point : Domain Val -> Challenge -> Challenge;
  zp_at_base : Domain Val -> Val -> Val;
  selectors_at_point : Domain Val -> Challenge -> LagrangeSelectors Challenge;
  monomial : nat -> Challenge;
  from_canonical_u32 : Z -> Val;
  field_order : Z
}.

(** What the challenger of the machine observes besides FRI. *)
Class ShardChallenger (Val Challenge : Type) `{InputMmcs Val} `{FriChallenger Challenge} : Type := {
  observe_commit : ICommitment -> Challenger -> Challenger;
  observe_val : Val -> Challenger -> Challenger
}.

Section Stark.
  Context {Val Challenge : Type} `{EF : ExtensionField Val Challenge} `{PK : PackedField Val} `{PC : !PairColumns Val Challenge} `{PS : !PolynomialSpace Val Challenge} `{EV : EqDecision Val} `{EC : EqDecision Challenge} `{BU : BitUtil}.
  Context `{IM : InputMmcs Val} `{MM : Mmcs Challenge} `{FC : !FriChallenger Challenge} `{SC : !ShardChallenger Val Challenge}.

(** ** Chips (chip.rs) *)

(** The AIR of a chip is its name, widths, scope and constraints. *)
Record Chip : Type := mkChip {
  chip_name : string; chip_width : nat; chip_preprocessed_width : nat; chip_commit_scope : InteractionScope; chip_local_only : bool;
  chip_air_eval : Folder Val Challenge -> option (list Challenge);
  chip_sends : list (Interaction Val Challenge); chip_receives : list (Interaction Val Challenge);
  chip_local_sends : list (Interaction Val Challenge); chip_local_receives : list (Interaction Val Challenge);
  chip_log_quotient_degree : nat
}.

Definition num_sent_byte_lookups (chip : Chip) : nat := length (filter (fun i => int_kind i = KByte) (chip_sends chip)).
Definition quotient_width (chip : Chip) : nat := 2 ^ chip_log_quotient_degree chip.
Definition logup_batch_size (chip : Chip) : nat := 2 ^ chip_log_quotient_degree chip.
Definition permutation_width (chip : Chip) : nat :=
  local_permutation_trace_width (length (chip_local_sends chip) + length (chip_local_receives chip)) (logup_batch_size chip).

Definition chip_cost (chip : Chip) : nat := chip_preprocessed_width chip + chip_width chip + permutation_width chip * 4 + quotient_width chip * 4.

Definition chip_generate_permutation_trace (chip : Chip) (preprocessed : option (Matrix Val)) (main : Matrix Val) (random_elements : list Challenge) : option (Matrix Challenge * Challenge) :=
  generate_permutation_trace_prescoped (chip_local_sends chip) (chip_local_receives chip) preprocessed main random_elements (logup_batch_size chip).

(** The constraints of the AIR, then those of the permutation. *)
Definition chip_eval (chip : Chip) (builder : Folder Val Challenge) : option (list Challenge) :=
  air ← chip_air_eval chip builder;
  permutation ← eval_permutation_constraints_prescoped (chip_local_sends chip) (chip_local_receives chip) (logup_batch_size chip) (chip_commit_scope chip) builder;
  Some (air ++ permutation).

(** ** Proofs (types.rs) *)

(** [SepticDigest]: the coordinates of a point. *)
Definition SepticDigest : Type := list Val * list Val.
Definition CURVE_CUMULATIVE_SUM_START_X : list Z := [21185043; 90322736; 156256384; 23627556; 34171264; 126183783; 25645942]%Z.
Definition CURVE_CUMULATIVE_SUM_START_Y : list Z := [885797405; 1130275556; 567836311; 52700240; 239639200; 442612155; 1839439733]%Z.
Definition digest_zero : SepticDigest := (map from_canonical_u32 CURVE_CUMULATIVE_SUM_START_X, map from_canonical_u32 CURVE_CUMULATIVE_SUM_START_Y).
Definition digest_is_zero (digest : SepticDigest) : bool := bool_decide (digest = digest_zero).

Record AirOpenedValues : Type := mkAirOpened { opened_local : list Challenge; opened_next : list Challenge }.
Record ChipOpenedValues : Type := mkChipOpened {
  preprocessed : AirOpenedValues; main : AirOpenedValues; permutation : AirOpenedValues;
  quotient_chunks : list (list Challenge);
  global_cumulative_sum : SepticDigest; local_cumulative_sum : Challenge;
  log_degree : nat
}.
Record ShardCommitment : Type := mkShardCommitment { main_commit : ICommitment; permutation_commit : ICommitment; quotient_commit : ICommitment }.
Record ShardProof : Type := mkShardProof {
  commitment : ShardCommitment; opened_chips : list ChipOpenedValues; shard_opening_proof : TwoAdicFriPcsProof Val Challenge;
  chip_ordering : gmap string nat; public_values : list Val
}.
Record StarkVerifyingKey : Type := mkVerifyingKey { vk_commit : ICommitment; vk_pc_start : Val; vk_initial_sum : SepticDigest; chip_information : list (string * Domain Val * Dimensions); vk_chip_ordering : gmap string nat }.

Definition proof_local_cumulative_sum (proof : ShardProof) : Challenge := sum (map local_cumulative_sum (opened_chips proof)).

(** ** Errors *)

Inductive OpeningShapeError : Type :=
| PreprocessedWidthMismatch (expected actual : nat) | MainWidthMismatch (expected actual : nat) | PermutationWidthMismatch (expected actual : nat)
| QuotientWidthMismatch (expected actual : nat) | QuotientChunkSizeMismatch (expected actual : nat).

Inductive ShardError : Type :=
| InvalidopeningArgument (e : VerificationError Val Challenge) | OodEvaluationMismatch (chip : string) | ShapeError (chip : string) (e : OpeningShapeError)
| MissingCpuChip | ChipOpeningLengthMismatch | PreprocessedChipIdMismatch (expected actual : string) | CumulativeSumsError (message : string).

(** ** One chip *)

(** The first error, if any. *)
Definition first_error {E} (checks : list (option E)) : result E unit := match omap id checks with [] => Ok tt | e :: _ => Err e end.
Definition unless {E} (ok : bool) (e : E) : option E := if ok then None else Some e.

Definition verify_opening_shape (chip : Chip) (opening : ChipOpenedValues) : result OpeningShapeError unit :=
  let check (error : nat -> nat -> OpeningShapeError) (factor expected actual : nat) := unless (actual =? expected * factor) (error expected actual) in
  first_error ([
    check PreprocessedWidthMismatch 1 (chip_preprocessed_width chip) (length (opened_local (preprocessed opening)));
    check PreprocessedWidthMismatch 1 (chip_preprocessed_width chip) (length (opened_next (preprocessed opening)));
    check MainWidthMismatch 1 (chip_width chip) (length (opened_local (main opening)));
    check MainWidthMismatch 1 (chip_width chip) (length (opened_next (main opening)));
    check PermutationWidthMismatch D (permutation_width chip) (length (opened_local (permutation opening)));
    check PermutationWidthMismatch D (permutation_width chip) (length (opened_next (permutation opening)));
    check QuotientWidthMismatch 1 (quotient_width chip) (length (quotient_chunks opening))] ++
    map (fun slice => check QuotientChunkSizeMismatch 1 D (length slice)) (quotient_chunks opening)).

(** [chunks_exact(D)], each chunk an element of the extension. *)
Definition from_coefficients (chunk : list Challenge) : Challenge := sum (imap (fun e_i x => mul (monomial e_i) x) chunk).
Definition unflatten (v : list Challenge) : list Challenge := map from_coefficients (chunks_exact D v).

(** The folder: every assertion multiplies the accumulator by [alpha] and is added. *)
Definition fold_asserts (alpha : Challenge) (asserted : list Challenge) : Challenge := fold_left (fun accumulator x => add (mul accumulator alpha) x) asserted zero.

Definition eval_constraints (chip : Chip) (opening : ChipOpenedValues) (selectors : LagrangeSelectors Challenge) (alpha : Challenge) (permutation_challenges : list Challenge) (public_values : list Val)
    : option Challenge :=
  asserted ← chip_eval chip (mkFolder (opened_local (preprocessed opening)) (opened_next (preprocessed opening)) (opened_local (main opening)) (opened_next (main opening))
    (unflatten (opened_local (permutation opening))) (unflatten (opened_next (permutation opening))) permutation_challenges (local_cumulative_sum opening) (global_cumulative_sum opening)
    (is_first_row selectors) (is_last_row selectors) (is_transition selectors) public_values);
  Some (fold_asserts alpha asserted).

Definition product (l : list Challenge) : Challenge := fold_left mul l one.

(** The factor of chunk [i]: the other domains vanish, its own gives one. *)
Definition chunk_factor (qc_domains : list (Domain Val)) (zeta : Challenge) (i : nat) (domain : Domain Val) : Challenge :=
  product (omap id (imap (fun j other_domain =>
    if j =? i then None else Some (mul (zp_at_point other_domain zeta) (from_base (inverse (zp_at_base other_domain (first_point domain)))))) qc_domains)).

(** [None]: a chunk of the wrong length, or more chunks than domains. *)
Definition recompute_quotient (opening : ChipOpenedValues) (qc_domains : list (Domain Val)) (zeta : Challenge) : option Challenge :=
  let zps := imap (chunk_factor qc_domains zeta) qc_domains in
  terms ← mapM (fun '(ch_i, ch) =>
    if negb (length ch =? D) then None
    else zp ← zps !! ch_i; Some (sum (imap (fun e_i c => mul (mul zp (monomial e_i)) c) ch))) (imap pair (quotient_chunks opening));
  Some (sum terms).

(** Whether [folded_constraints(zeta) / Z_H(zeta) = quotient(zeta)]. *)
Definition verify_constraints (chip : Chip) (opening : ChipOpenedValues) (trace_domain : Domain Val) (qc_domains : list (Domain Val)) (zeta alpha : Challenge)
    (permutation_challenges : list Challenge) (public_values : list Val) : option bool :=
  let sels := selectors_at_point trace_domain zeta in
  quotient ← recompute_quotient opening qc_domains zeta;
  folded_constraints ← eval_constraints chip opening sels alpha permutation_challenges public_values;
  Some (bool_decide (mul folded_constraints (inv_zeroifier sels) = quotient)).

(** ** One shard *)

(** Checked 64-bit arithmetic. *)
Definition checked_u64 (x : Z) : option Z := if (x <? 2 ^ 64)%Z then Some x else None.
Fixpoint max_byte_lookup_mult (acc : Z) (chips : list Chip) (opened : list ChipOpenedValues) : option Z :=
  match chips, opened with
  | chip :: chips, val :: opened =>
      let shift := (Z.of_nat (log_degree val) mod 2 ^ 32)%Z in
      if (64 <=? shift)%Z then None
      else
        mult ← checked_u64 (Z.of_nat (num_sent_byte_lookups chip) * 2 ^ shift);
        acc ← checked_u64 (acc + mult);
        max_byte_lookup_mult acc chips opened
  | _, _ => Some acc
  end.

Definition observe_slice (xs : list Val) (challenger : Challenger) : Challenger := fold_left (fun c x => observe_val x c) xs challenger.

(** The cumulative sums are observed and checked chip by chip. *)
Fixpoint observe_sums (opened : list ChipOpenedValues) (chips : list Chip) (challenger : Challenger) : result ShardError Challenger :=
  match opened, chips with
  | opening :: opened, chip :: chips =>
      let local_sum := local_cumulative_sum opening in
      let global_sum := global_cumulative_sum opening in
      let challenger := observe_slice global_sum.2 (observe_slice global_sum.1 (observe_slice (as_base_slice local_sum) challenger)) in
      if bool_decide (chip_commit_scope chip = Local) && negb (digest_is_zero global_sum) then Err (CumulativeSumsError "global cumulative sum is non-zero, but chip is Local")
      else if negb (existsb (fun i => bool_decide (int_scope i = Local)) (chip_sends chip ++ chip_receives chip)) && negb (bool_decide (local_sum = zero))
      then Err (CumulativeSumsError "local cumulative sum is non-zero, but no local interactions")
      else observe_sums opened chips challenger
  | _, _ => Ok challenger
  end.

(** The claims at [zeta], and at the next point unless only one row is used. *)
Definition claims_at (domain : Domain Val) (zeta : Challenge) (local_only : bool) (values : AirOpenedValues) : option (MatClaim Val Challenge) :=
  if local_only then Some (domain, [(zeta, opened_local values)])
  else next ← next_point domain zeta; Some (domain, [(zeta, opened_local values); (next, opened_next values)]).

(** [None]: a name without a position, or a position without a chip. *)
Fixpoint preprocessed_claims (info : list (string * Domain Val * Dimensions)) (chips : list Chip) (proof : ShardProof) (zeta : Challenge) : option (result ShardError (list (MatClaim Val Challenge))) :=
  match info with
  | [] => Some (Ok [])
  | (name, domain, _) :: info =>
      i ← chip_ordering proof !! name;
      chip ← chips !! i;
      if negb (bool_decide (name = chip_name chip)) then Some (Err (PreprocessedChipIdMismatch name (chip_name chip)))
      else
        values ← opened_chips proof !! i;
        claim ← claims_at domain zeta (chip_local_only chip) (preprocessed values);
        rest ← preprocessed_claims info chips proof zeta;
        Some (match rest with Ok claims => Ok (claim :: claims) | Err e => Err e end)
  end.

Definition quotient_claims (zeta : Challenge) (opened : ChipOpenedValues) (qc_domains : list (Domain Val)) : option (list (MatClaim Val Challenge)) :=
  if negb (length (quotient_chunks opened) =? length qc_domains) then None
  else Some (zip_with (fun values q_domain => (q_domain, [(zeta, values)])) (quotient_chunks opened) qc_domains).

(** The constraints of the chips, up to the first error. *)
Fixpoint verify_chips (chips : list Chip) (trace_domains : list (Domain Val)) (qc_domains : list (list (Domain Val))) (opened : list ChipOpenedValues)
    (zeta alpha : Challenge) (permutation_challenges : list Challenge) (public_values : list Val) : option (result ShardError unit) :=
  match chips, trace_domains, qc_domains, opened with
  | chip :: chips, trace_domain :: trace_domains, qcs :: qc_domains, values :: opened =>
      match verify_opening_shape chip values with
      | Err e => Some (Err (ShapeError (chip_name chip) e))
      | Ok _ =>
          ok ← verify_constraints chip values trace_domain qcs zeta alpha permutation_challenges public_values;
          if negb ok then Some (Err (OodEvaluationMismatch (chip_name chip)))
          else verify_chips chips trace_domains qc_domains opened zeta alpha permutation_challenges public_values
      end
  | _, _, _, _ => Some (Ok tt)
  end.

(** The challenges: two for the permutation, [alpha] and [zeta]. *)
Definition sample_challenges (commitment : ShardCommitment) (opened : list ChipOpenedValues) (chips : list Chip) (challenger : Challenger) : result ShardError (list Challenge * Challenge * Challenge * Challenger) :=
  let challenger := observe_commit (main_commit commitment) challenger in
  let '(challenge_0, challenger) := sample_ext_element challenger in
  let '(challenge_1, challenger) := sample_ext_element challenger in
  let challenger := observe_commit (permutation_commit commitment) challenger in
  match observe_sums opened chips challenger with
  | Err e => Err e
  | Ok challenger =>
      let '(alpha, challenger) := sample_ext_element challenger in
      let challenger := observe_commit (quotient_commit commitment) challenger in
      let '(zeta, challenger) := sample_ext_element challenger in
      Ok ([challenge_0; challenge_1], alpha, zeta, challenger)
  end.

Definition quotient_chunk_domains (trace_domain : Domain Val) (values : ChipOpenedValues) (chip : Chip) : list (Domain Val) :=
  split_domains (create_disjoint_domain trace_domain (2 ^ (log_degree values + chip_log_quotient_degree chip))) (2 ^ chip_log_quotient_degree chip).

Definition verify_shard (sample : Challenger -> Challenge * Challenger) (pcs : TwoAdicFriPcs) (vk : StarkVerifyingKey) (chips : list Chip) (challenger : Challenger) (proof : ShardProof)
    : option (result ShardError unit) :=
  let opened := opened_chips proof in
  if negb (length chips =? length opened) then Some (Err ChipOpeningLengthMismatch)
  else
    max_mult ← max_byte_lookup_mult 0 chips opened;
    if (field_order <? max_mult)%Z then None
    else
      trace_domains ← mapM (fun val => natural_domain_for_degree pcs (2 ^ log_degree val)) opened;
      match sample_challenges (commitment proof) opened chips challenger with
      | Err e => Some (Err e)
      | Ok (permutation_challenges, alpha, zeta, challenger) =>
          prep ← preprocessed_claims (chip_information vk) chips proof zeta;
          match prep with
          | Err e => Some (Err e)
          | Ok preprocessed_claims =>
              main_claims ← mapM (fun '(domain, (values, chip)) => claims_at domain zeta (chip_local_only chip) (main values)) (zip trace_domains (zip opened chips));
              perm_claims ← mapM (fun '(domain, values) => claims_at domain zeta false (permutation values)) (zip trace_domains opened);
              let qc_domains := zip_with (fun domain '(values, chip) => quotient_chunk_domains domain values chip) trace_domains (zip opened chips) in
              quotients ← mapM (fun '(values, qcs) => quotient_claims zeta values qcs) (zip opened qc_domains);
              let rounds := [(vk_commit vk, preprocessed_claims); (main_commit (commitment proof), main_claims); (permutation_commit (commitment proof), perm_claims);
                             (quotient_commit (commitment proof), concat quotients)] in
              verified ← (verify sample pcs rounds (shard_opening_proof proof) challenger).1;
              match verified with
              | Err e => Some (Err (InvalidopeningArgument e))
              | Ok _ =>
                  checked ← verify_chips chips trace_domains qc_domains opened zeta alpha permutation_challenges (public_values proof);
                  match checked with
                  | Err e => Some (Err e)
                  | Ok _ => if bool_decide (proof_local_cumulative_sum proof = zero) then Some (Ok tt) else Some (Err (CumulativeSumsError "local cumulative sum is not zero"))
                  end
              end
          end
      end.
End Stark.
Arguments Chip Val Challenge {_}. Arguments ChipOpenedValues Val Challenge : clear implicits. Arguments AirOpenedValues Challenge : clear implicits. Arguments SepticDigest Val : clear implicits.
Arguments ShardProof Val Challenge {_ _ _}. Arguments StarkVerifyingKey Val {_}. Arguments ShardCommitment Val {_}.

(** What plonky3 promises of the domains: the next point exists, a disjoint domain
    has the size asked for, splitting gives the cosets of the chunks, and the
    vanishing polynomial of a coset; the first monomial is one. *)
Class LawfulSpace (Val Challenge : Type) `{ExtensionField Val Challenge} `{!PolynomialSpace Val Challenge} : Prop := {
  next_point_some (d : Domain Val) (x : Challenge) : is_Some (next_point d x);
  first_point_spec (d : Domain Val) : first_point d = shift d;
  disjoint_size (d : Domain Val) k : log_n (create_disjoint_domain d (2 ^ k)) = k;
  split_spec (d : Domain Val) k : k <= log_n d -> split_domains d (2 ^ k) = map (fun i => mkDomain (log_n d - k) (mul (shift d) (power (two_adic_generator (log_n d)) i))) (seq 0 (2 ^ k));
  zp_spec (d : Domain Val) (x : Challenge) : zp_at_point d x = sub (power (mul x (from_base (inverse (shift d)))) (2 ^ log_n d)) one;
  zp_base_spec (d : Domain Val) (x : Val) : zp_at_base d x = sub (power (mul x (inverse (shift d))) (2 ^ log_n d)) one;
  monomial_0 : (monomial 0 : Challenge) = one
}.

(** ** Recombination of the quotient *)

Section Recombine.
  Context {F : Type} `{LF : LawfulField F} `{EqDecision F}.

Lemma recombine_field_inst : field_theory zero one add mul sub opp div inverse eq.
Proof using LF. exact field_laws. Qed.
Add Field RecombineField : recombine_field_inst.

(** *** Products of polynomials *)

Fixpoint poly_mul (p q : list F) : list F := match p with [] => [] | c :: p => poly_add (poly_scale c q) (zero :: poly_mul p q) end.

Lemma eval_mul p q x : eval (poly_mul p q) x = mul (eval p x) (eval q x).
Proof using LF. induction p as [|c p IH]; cbn [poly_mul eval]; [ring|]. rewrite eval_add, eval_scale. cbn [eval]. rewrite IH. ring. Qed.

Lemma poly_mul_length p q : length (poly_mul p q) <= length p + Nat.max 1 (length q) - 1.
Proof using.
  induction p as [|c p IH]; [cbn; lia|]. cbn [poly_mul]. rewrite poly_add_length. unfold poly_scale. rewrite length_map. cbn [length]. lia.
Qed.

Definition poly_prod (ps : list (list F)) : list F := foldr poly_mul [one] ps.

Lemma eval_poly_prod ps x : eval (poly_prod ps) x = lprod (map (fun p => eval p x) ps).
Proof using LF. induction ps as [|p ps IH]; cbn [poly_prod foldr map lprod]; [cbn; ring|]. fold (poly_prod ps). by rewrite eval_mul, IH. Qed.

Lemma poly_prod_length ps : length (poly_prod ps) <= 1 + list_sum (map (fun p => length p - 1) ps).
Proof using.
  induction ps as [|p ps IH]; [done|]. cbn [poly_prod foldr map]. fold (poly_prod ps). change (list_sum (length p - 1 :: map (fun p => length p - 1) ps)) with (length p - 1 + list_sum (map (fun p => length p - 1) ps)).
  pose proof (poly_mul_length p (poly_prod ps)). destruct p as [|c p]; [cbn; lia|]. cbn [length] in *. lia.
Qed.

Lemma eval_poly_sum (ps : list (list F)) x : eval (foldr poly_add [] ps) x = lsum (map (fun p => eval p x) ps).
Proof using LF. induction ps as [|p ps IH]; cbn [foldr map lsum]; [done|]. by rewrite eval_add, IH. Qed.

Lemma poly_sum_length (ps : list (list F)) n : Forall (fun p => length p <= n) ps -> length (foldr poly_add [] ps) <= n.
Proof using. induction 1 as [|p ps Hp _ IH]; cbn [foldr length]; [lia|]. rewrite poly_add_length. lia. Qed.

(** *** The cosets of the chunks *)

Context (n k : nat) (Hk : k <= n) (Hn : n <= TWO_ADICITY) (s : F) (Hs : s <> zero).
Let K := 2 ^ k.
Let m := 2 ^ (n - k).
Let g : F := two_adic_generator n.
Definition chunk_shift (i : nat) : F := mul s (power (two_adic_generator n) i).
(** [Z_i(x)]. *)
Definition vanishing (i : nat) (x : F) : F := sub (power (mul x (inverse (chunk_shift i))) (2 ^ (n - k))) one.
Definition chunk_point (i j : nat) : F := mul (chunk_shift i) (power (two_adic_generator (n - k)) j).

Lemma K_m : K * m = 2 ^ n.
Proof using Hk. subst K m. clear -Hk. rewrite <- Nat.pow_add_r. f_equal. lia. Qed.
Lemma pos_K : 0 < K. Proof using. apply Nat.neq_0_lt_0. by apply Nat.pow_nonzero. Qed.
Lemma pos_m : 0 < m. Proof using. apply Nat.neq_0_lt_0. by apply Nat.pow_nonzero. Qed.

Lemma gen_nonzero t : power g t <> zero.
Proof using LF Hk Hn Hs.
  apply power_nonzero. intros E. pose proof (generator_order n Hn) as Ho. fold g in Ho. rewrite E in Ho. assert (forall t, 0 < t -> power (zero : F) t = zero) as Hz by (intros [|t'] Ht; [lia|cbn [power]; ring]).
  rewrite Hz in Ho by (apply Nat.neq_0_lt_0; by apply Nat.pow_nonzero). by apply one_nonzero.
Qed.

Lemma shift_nonzero i : chunk_shift i <> zero.
Proof using LF Hk Hn Hs. apply mul_nonzero; [done|apply gen_nonzero]. Qed.

(** The position of a point in the whole coset. *)
Lemma chunk_point_eq i j : chunk_point i j = mul s (power g (i + K * j)).
Proof using LF Hk Hn Hs.
  unfold chunk_point, chunk_shift. assert (two_adic_generator (n - k) = power g K) as ->. { subst g K. rewrite <- (generator_pow k (n - k)) by lia. by replace (k + (n - k)) with n by lia. }
  rewrite <- power_pow, power_add. subst g. ring.
Qed.

Lemma power_inj a b : a < 2 ^ n -> b < 2 ^ n -> power g a = power g b -> a = b.
Proof using LF Hk Hn Hs.
  assert (forall a b, a < b -> b < 2 ^ n -> power g a <> power g b) as Hlt.
  { intros a' b' Hab Hb E. apply (generator_primitive n Hn (b' - a') ltac:(lia)). replace b' with (a' + (b' - a')) in E by lia. rewrite power_add in E. pose proof (gen_nonzero a') as Hz. fold g.
    replace (power g (b' - a')) with (mul (inverse (power g a')) (mul (power g a') (power g (b' - a')))) by (field; done). rewrite <- E. field. done. }
  intros Ha Hb E. destruct (Nat.lt_trichotomy a b) as [H1'|[->|H1']]; [|done|]; exfalso; [by apply (Hlt a b)|by apply (Hlt b a)].
Qed.

(** A vanishing polynomial is constant on the other chunks. *)
Lemma vanishing_chunk l i j : vanishing l (chunk_point i j) = vanishing l (chunk_shift i).
Proof using LF Hk Hn Hs.
  unfold vanishing, chunk_point. f_equal. replace (mul (mul (chunk_shift i) (power (two_adic_generator (n - k)) j)) (inverse (chunk_shift l))) with (mul (mul (chunk_shift i) (inverse (chunk_shift l))) (power (two_adic_generator (n - k)) j)) by ring.
  rewrite power_mul, <- power_pow, Nat.mul_comm, power_pow, generator_order, power_one by lia. ring.
Qed.

Lemma vanishing_own i : vanishing i (chunk_shift i) = zero.
Proof using LF Hk Hn Hs. unfold vanishing. replace (mul (chunk_shift i) (inverse (chunk_shift i))) with (one : F) by (field; apply shift_nonzero). rewrite power_one. ring. Qed.

Lemma vanishing_other l i : l < K -> i < K -> l <> i -> vanishing l (chunk_shift i) <> zero.
Proof using LF Hk Hn Hs.
  intros Hl Hi Hne E. apply Hne. unfold vanishing in E. pose proof (shift_nonzero l) as Hsl. assert (power (mul (chunk_shift i) (inverse (chunk_shift l))) m = one) as E1.
  { replace (power (mul (chunk_shift i) (inverse (chunk_shift l))) m) with (add (sub (power (mul (chunk_shift i) (inverse (chunk_shift l))) m) one) one) by ring. subst m. rewrite E. ring. }
  assert (power (chunk_shift i) m = power (chunk_shift l) m) as E2.
  { replace (chunk_shift i) with (mul (mul (chunk_shift i) (inverse (chunk_shift l))) (chunk_shift l)) by (field; done). rewrite power_mul, E1. ring. }
  unfold chunk_shift in E2. rewrite !power_mul in E2. pose proof (power_nonzero s m Hs) as Hsm. assert (power g (i * m) = power g (l * m)) as E3.
  { rewrite !power_pow. replace (power (power g i) m) with (mul (inverse (power s m)) (mul (power s m) (power (power g i) m))) by (field; done). subst g. rewrite E2. field. done. }
  pose proof K_m as EK. pose proof pos_m. apply power_inj in E3; nia.
Qed.

(** *** The factors *)

Definition factor (i : nat) (x : F) : F :=
  lprod (map (fun l => if l =? i then one else mul (vanishing l x) (inverse (vanishing l (chunk_shift i)))) (seq 0 (2 ^ k))).

Lemma lprod_zero l : (zero : F) ∈ l -> lprod l = zero.
Proof using LF. clear -LF. induction l as [|x l IH]; intros Hin; [by apply not_elem_of_nil in Hin|]. cbn [lprod]. apply elem_of_cons in Hin as [<-|Hin]; [ring|]. rewrite (IH Hin). ring. Qed.

Lemma lprod_ones {A} (f : A -> F) l : (forall a, a ∈ l -> f a = one) -> lprod (map f l) = one.
Proof using LF. clear -LF. induction l as [|a l IH]; intros Hf; [done|]. cbn [map lprod]. rewrite (Hf a (list_elem_of_here _ _)), IH by (intros b Hb; apply Hf; by right). ring. Qed.

Lemma lsum_single (f : nat -> F) i l : NoDup l -> i ∈ l -> (forall j, j ∈ l -> j <> i -> f j = zero) -> lsum (map f l) = f i.
Proof using LF.
  clear -LF. induction 1 as [|j l Hj _ IH]; intros Hin Hz; [by apply not_elem_of_nil in Hin|]. cbn [map lsum]. apply elem_of_cons in Hin as [->|Hin].
  - rewrite (lsum_ext f (fun _ => zero)) by (intros a Ha; apply Hz; [by right|intros ->; done]). replace (map (fun _ => zero) l) with (replicate (length l) (zero : F)) by (clear; induction l; cbn; by f_equal). rewrite lsum_zero. ring.
  - rewrite (Hz j (list_elem_of_here _ _)) by (intros ->; done). rewrite IH by (done || (intros; apply Hz; [by right|done])). ring.
Qed.

(** One on the own chunk, zero on the others. *)
Lemma factor_own i j : i < K -> factor i (chunk_point i j) = one.
Proof using LF Hk Hn Hs.
  intros Hi. apply lprod_ones. intros l Hl%elem_of_seq. destruct (Nat.eqb_spec l i) as [|Hne]; [done|]. rewrite vanishing_chunk. pose proof (vanishing_other l i ltac:(lia) Hi Hne). field. done.
Qed.

Lemma factor_other l i j : i < K -> l <> i -> factor l (chunk_point i j) = zero.
Proof using LF Hk Hn Hs.
  intros Hi Hne. apply lprod_zero. apply list_elem_of_fmap. exists i. split; [|apply elem_of_seq; lia]. rewrite (proj2 (Nat.eqb_neq i l)) by congruence. rewrite vanishing_chunk, vanishing_own. ring.
Qed.

Definition vanish_poly (l : nat) : list F := poly_add [opp one] (poly_scale (power (inverse (chunk_shift l)) (2 ^ (n - k))) (replicate (2 ^ (n - k)) zero ++ [one])).
Definition factor_poly (i : nat) : list F :=
  poly_prod (map (fun l => if l =? i then [one] else poly_scale (inverse (vanishing l (chunk_shift i))) (vanish_poly l)) (seq 0 (2 ^ k))).

Lemma eval_vanish l x : eval (vanish_poly l) x = vanishing l x.
Proof using LF Hk Hn Hs. unfold vanish_poly, vanishing. rewrite eval_add, eval_scale, eval_monomial, power_mul by (exact Hn || lia). cbn [eval]. ring. Qed.

Lemma eval_factor i x : eval (factor_poly i) x = factor i x.
Proof using LF Hk Hn Hs.
  unfold factor_poly, factor. rewrite eval_poly_prod, map_map. f_equal. apply map_ext. intros l. destruct (l =? i); [cbn; ring|]. rewrite eval_scale, eval_vanish. ring.
Qed.

Lemma factor_poly_length i : i < K -> length (factor_poly i) <= (K - 1) * m + 1.
Proof using Hk Hn.
  intros Hi. unfold factor_poly. etransitivity; [apply poly_prod_length|]. rewrite map_map. enough (list_sum (map (fun l => length (if l =? i then [one] else poly_scale (inverse (vanishing l (chunk_shift i))) (vanish_poly l)) - 1) (seq 0 (2 ^ k))) <= (K - 1) * m) as He by lia.
  assert (forall l, length (vanish_poly l) - 1 <= m) as Hv. { intros l. unfold vanish_poly, poly_scale. rewrite poly_add_length, length_map, length_app, length_replicate. cbn [length]. subst m. lia. }
  assert (forall N a, list_sum (map (fun l => length (if l =? i then [one] else poly_scale (inverse (vanishing l (chunk_shift i))) (vanish_poly l)) - 1) (seq a N)) <= (if (a <=? i) && (i <? a + N) then (N - 1) * m else N * m)) as Hsum.
  { induction N as [|N IH]; intros a; [cbn; lia|]. cbn [seq map]. change (list_sum (?x :: ?l)) with (x + list_sum l). specialize (IH (S a)). destruct (Nat.eqb_spec a i) as [->|Hne].
    - cbn [length]. rewrite (proj2 (Nat.leb_gt (S i) i)) in IH by lia. cbn [andb] in IH. rewrite Nat.leb_refl, (proj2 (Nat.ltb_lt i (i + S N))) by lia. cbn [andb]. lia.
    - unfold poly_scale at 1. rewrite length_map. specialize (Hv a). destruct (Nat.leb_spec a i), (Nat.leb_spec (S a) i), (Nat.ltb_spec i (a + S N)), (Nat.ltb_spec i (S a + N)); cbn [andb] in *; try lia; nia. }
  specialize (Hsum (2 ^ k) 0). rewrite (proj2 (Nat.ltb_lt i (0 + 2 ^ k))) in Hsum by (subst K; lia). cbn [Nat.leb andb] in Hsum. exact Hsum.
Qed.

(** *** The recombined polynomial *)

Lemma coset_nodup : NoDup (map (fun t => mul s (power g t)) (seq 0 (2 ^ n))).
Proof using LF Hk Hn Hs.
  apply NoDup_fmap_2_strong; [|apply NoDup_seq]. intros a b Ha%elem_of_seq Hb%elem_of_seq E. apply power_inj; [lia..|]. replace (power g a) with (mul (inverse s) (mul s (power g a))) by (field; done). rewrite E. field. done.
Qed.

Lemma recombine_chunks (ps : list (list F)) (q : list F) z : length ps = K -> Forall (fun p => length p <= m) ps -> length q <= 2 ^ n ->
  (forall i j, i < K -> j < m -> eval (nth i ps []) (chunk_point i j) = eval q (chunk_point i j)) ->
  lsum (map (fun i => mul (factor i z) (eval (nth i ps []) z)) (seq 0 K)) = eval q z.
Proof using LF Hk Hn Hs.
  intros Hl Hps Hq He. set (r := foldr poly_add [] (map (fun i => poly_mul (factor_poly i) (nth i ps [])) (seq 0 K))).
  assert (forall x, eval r x = lsum (map (fun i => mul (factor i x) (eval (nth i ps []) x)) (seq 0 K))) as Er.
  { intros x. subst r. rewrite eval_poly_sum, map_map. f_equal. apply map_ext. intros i. by rewrite eval_mul, eval_factor. }
  rewrite <- Er. pose proof K_m as EK. pose proof pos_m as Pm. pose proof pos_K as PK. assert (forall x, eval (poly_add r (poly_scale (opp one) q)) x = sub (eval r x) (eval q x)) as Ed by (intros x; rewrite eval_add, eval_scale; ring).
  assert (eval (poly_add r (poly_scale (opp one) q)) z = zero) as E0.
  { apply (roots_vanish _ coset_nodup).
    - rewrite length_map, length_seq, poly_add_length. unfold poly_scale. rewrite length_map. apply Nat.max_lub; [|done]. subst r. apply poly_sum_length. rewrite Forall_map. apply Forall_forall. intros i Hi%elem_of_seq.
      etransitivity; [apply poly_mul_length|]. pose proof (factor_poly_length i ltac:(lia)) as Hf. assert (length (nth i ps []) <= m) as Hp by (rewrite Forall_forall in Hps; apply Hps, list_elem_of_In, nth_In; lia). nia.
    - intros x Hx. apply list_elem_of_fmap in Hx as (t & -> & Ht%elem_of_seq). rewrite Ed. assert (t = t mod K + K * (t / K)) as Et by (pose proof (Nat.div_mod_eq t K); lia). rewrite Et, <- chunk_point_eq.
      assert (t mod K < K) as Hi by (apply Nat.mod_upper_bound; lia). assert (t / K < m) as Hj by (apply Nat.Div0.div_lt_upper_bound; lia). rewrite Er, (lsum_single _ (t mod K)); [|apply NoDup_seq|apply elem_of_seq; lia|].
      + rewrite factor_own, He by done. ring.
      + intros l _ Hne. rewrite factor_other by done. ring. }
  rewrite Ed in E0. replace (eval r z) with (add (sub (eval r z) (eval q z)) (eval q z)) by ring. rewrite E0. ring.
Qed.
End Recombine.

Section Quotient.
  Context {Val Challenge : Type} `{LE : LawfulExtension Val Challenge} `{PS : !PolynomialSpace Val Challenge} `{LS : !LawfulSpace Val Challenge} `{EV : EqDecision Val} `{EC : EqDecision Challenge}.

#[local] Existing Instance val_inst.
#[local] Existing Instance challenge_inst.
Lemma quotient_field_inst : field_theory (zero : Challenge) one add mul sub opp div inverse eq.
Proof using LE. exact field_laws. Qed.
Add Field QuotientField : quotient_field_inst.
Lemma quotient_base_inst : field_theory (zero : Val) one add mul sub opp div inverse eq.
Proof using LE. exact field_laws. Qed.
Add Field QuotientBase : quotient_base_inst.

Lemma from_base_sub (x y : Val) : from_base (sub x y) = sub (from_base x) (from_base y).
Proof using LE. replace (sub x y) with (add x (opp y)) by ring. rewrite from_base_add, from_base_opp. ring. Qed.

Section Domains.
  Context (d : Domain Val) (k : nat) (Hk : k <= log_n d) (Hn : log_n d <= TWO_ADICITY (F := Val)) (Hs : shift d <> zero).
Let n := log_n d.
Let s : Challenge := from_base (shift d).
Definition chunk_domain (i : nat) : Domain Val := mkDomain (log_n d - k) (mul (shift d) (power (two_adic_generator (log_n d)) i)).

Lemma chunk_domain_shift i : from_base (shift (chunk_domain i)) = chunk_shift n s i.
Proof using LE Hn. unfold chunk_shift. cbn [chunk_domain shift]. rewrite from_base_mul, from_base_power, from_base_generator by done. done. Qed.

Lemma zp_vanishing i x : zp_at_point (chunk_domain i) x = vanishing n k s i x.
Proof using LE LS EV Hk Hn Hs.
  rewrite zp_spec. unfold vanishing. cbn [chunk_domain log_n]. rewrite <- chunk_domain_shift, from_base_inverse; [done|]. intros E. apply (shift_nonzero n k Hk (Nat.le_trans _ _ _ Hn adicity_le) s (from_base_nonzero _ Hs) i). rewrite <- chunk_domain_shift, E. apply from_base_zero.
Qed.

Lemma zp_base_vanishing l i : from_base (zp_at_base (chunk_domain l) (first_point (chunk_domain i))) = vanishing n k s l (chunk_shift n s i).
Proof using LE LS EV Hk Hn Hs.
  rewrite <- zp_vanishing, zp_spec, zp_base_spec, first_point_spec, from_base_sub, from_base_power, from_base_mul, from_base_one, chunk_domain_shift. done.
Qed.

Lemma product_omap {A} (f : nat -> A -> option Challenge) (l : list A) : product (omap id (imap f l)) = lprod (imap (fun j x => default one (f j x)) l).
Proof using LE.
  unfold product. rewrite fold_mul. enough (lprod (omap id (imap f l)) = lprod (imap (fun j x => default one (f j x)) l)) as -> by ring. revert f. induction l as [|x l IH]; intros f; [done|]. rewrite !imap_cons. cbn [omap list_omap id]. destruct (f 0 x) as [y|]; cbn [default lprod].
  - f_equal. apply IH.
  - rewrite (IH (f ∘ S)). unfold compose. change (from_option id one (None : option Challenge)) with (one : Challenge). ring.
Qed.

Lemma imap_seq {A} (f : nat -> nat -> A) N : forall a, imap (fun j i => f (a + j) i) (seq a N) = map (fun i => f i i) (seq a N).
Proof using. clear. induction N as [|N IH]; intros a; [done|]. cbn [seq map]. rewrite imap_cons, Nat.add_0_r. f_equal. rewrite <- IH. apply imap_ext. intros j i _. unfold compose. f_equal. lia. Qed.

Lemma chunk_factor_eq i zeta : i < 2 ^ k -> chunk_factor (map chunk_domain (seq 0 (2 ^ k))) zeta i (chunk_domain i) = factor n k s i zeta.
Proof using LE LS EV EC Hk Hn Hs.
  intros Hi. unfold chunk_factor, factor. rewrite product_omap. f_equal. change (map chunk_domain (seq 0 (2 ^ k))) with (chunk_domain <$> seq 0 (2 ^ k)). rewrite imap_fmap.
  rewrite <- (imap_seq (fun _ l => if l =? i then one else mul (vanishing n k s l zeta) (inverse (vanishing n k s l (chunk_shift n s i)))) (2 ^ k) 0). apply imap_ext. intros j l Hl. apply lookup_seq in Hl as [-> Hl]. unfold compose. cbn [Nat.add].
  destruct (Nat.eqb_spec j i) as [|Hne]; [done|]. cbn [default from_option id]. rewrite zp_vanishing. f_equal. rewrite from_base_inverse, zp_base_vanishing; [done|]. intros E.
  apply (vanishing_other n k Hk (Nat.le_trans _ _ _ Hn adicity_le) s (from_base_nonzero _ Hs) j i Hl Hi Hne). rewrite <- zp_base_vanishing, E. apply from_base_zero.
Qed.

(** The point of a chunk, in the extension. *)
Lemma chunk_domain_point i j : from_base (mul (shift (chunk_domain i)) (power (two_adic_generator (log_n (chunk_domain i))) j)) = chunk_point n k s i j.
Proof using LE Hk Hn. unfold chunk_point. rewrite from_base_mul, from_base_power, chunk_domain_shift. cbn [chunk_domain log_n]. rewrite from_base_generator by lia. done. Qed.
End Domains.

(** C16. The quotient is recombined correctly: when the chunks of a polynomial of degree
    below the size of the quotient domain are polynomials of degree below the size of
    a chunk that agree with it on their cosets, [recompute_quotient] computes its
    value at every point from the coefficients of the chunks' values there. *)
Theorem recompute_quotient_correct (opening : ChipOpenedValues Val Challenge) (d : Domain Val) k zeta (chunk_polys : list (list Challenge)) (q : list Challenge) :
  k <= log_n d -> log_n d <= TWO_ADICITY (F := Val) -> shift d <> zero ->
  length chunk_polys = 2 ^ k -> Forall (fun p => length p <= 2 ^ (log_n d - k)) chunk_polys -> length q <= size d ->
  (forall i domain j, split_domains d (2 ^ k) !! i = Some domain -> j < size domain ->
     let x := from_base (mul (shift domain) (power (two_adic_generator (log_n domain)) j)) in eval (nth i chunk_polys []) x = eval q x) ->
  Forall (fun ch => length ch = D) (quotient_chunks opening) -> map from_coefficients (quotient_chunks opening) = map (fun p => eval p zeta) chunk_polys ->
  recompute_quotient opening (split_domains d (2 ^ k)) zeta = Some (eval q zeta).
Proof using LE LS EV EC.
  intros Hk Hn Hs Hl Hps Hq He Hc Hv. rewrite split_spec in * by done. fold (chunk_domain d k) in *. unfold recompute_quotient. set (zps := imap _ _). assert (length zps = 2 ^ k) as Lz by (subst zps; rewrite length_imap, length_map, length_seq; done).
  assert (length (quotient_chunks opening) = 2 ^ k) as Lq by (rewrite <- (length_map from_coefficients), Hv, length_map; done).
  rewrite (mapM_pointwise _ (fun '(ch_i, ch) => mul (nth ch_i zps zero) (from_coefficients ch))).
  2:{ intros [ch_i ch] Hin. apply elem_of_lookup_imap in Hin as (i & c & [= -> ->] & Hi). pose proof (lookup_lt_Some _ _ _ Hi) as Hlt. rewrite Forall_forall in Hc. rewrite (Hc c) by (by eapply list_elem_of_lookup_2). rewrite Nat.eqb_refl. cbn [negb].
      rewrite (lookup_nth_lt zps i zero) by lia. cbn [mbind option_bind]. f_equal. unfold from_coefficients. rewrite !sum_lsum, lsum_scale, map_imap. f_equal. apply imap_ext. intros e x _. ring. }
  cbn [mbind option_bind]. f_equal. rewrite sum_lsum, map_imap. assert (0 < 2 ^ k) as Hpos by (apply Nat.neq_0_lt_0; by apply Nat.pow_nonzero).
  transitivity (lsum (map (fun i => mul (factor (log_n d) k (from_base (shift d)) i zeta) (eval (nth i chunk_polys []) zeta)) (seq 0 (2 ^ k)))).
  - f_equal. apply list_eq_same_length with (2 ^ k); [by rewrite length_map, length_seq|by rewrite length_imap|]. intros i x y Hi Hx Hy. rewrite list_lookup_imap in Hx. change (map ?f ?l) with (f <$> l) in Hy. rewrite list_lookup_fmap, lookup_seq_lt in Hy by done. injection Hy as <-.
    destruct (quotient_chunks opening !! i) as [ch|] eqn:Ec; [|discriminate Hx]. injection Hx as <-. f_equal.
    + rewrite <- (chunk_factor_eq d k Hk Hn Hs i zeta Hi). apply nth_lookup_Some. subst zps. rewrite list_lookup_imap. change (map (chunk_domain d k) ?l) with (chunk_domain d k <$> l) at 1. rewrite list_lookup_fmap, lookup_seq_lt by done. done.
    + apply (f_equal (fun l => nth i l zero)) in Hv. rewrite (nth_lookup_Some (map from_coefficients (quotient_chunks opening)) i zero (from_coefficients ch)) in Hv by (change (map ?f ?l) with (f <$> l); by rewrite list_lookup_fmap, Ec). rewrite Hv. apply nth_lookup_Some.
      change (map ?f ?l) with (f <$> l). rewrite list_lookup_fmap, (lookup_nth_lt chunk_polys i []) by lia. done.
  - apply (recombine_chunks (log_n d) k Hk (Nat.le_trans _ _ _ Hn adicity_le) (from_base (shift d)) (from_base_nonzero _ Hs) chunk_polys q zeta Hl Hps Hq). intros i j Hi Hj. rewrite <- (chunk_domain_point d k Hk Hn).
    apply (He i (chunk_domain d k i) j); [|done]. change (map (chunk_domain d k) ?l) with (chunk_domain d k <$> l). rewrite list_lookup_fmap, lookup_seq_lt by done. done.
Qed.
End Quotient.

(** ** A shard proof without openings *)

Section Forge.
  Context {Val Challenge : Type} `{LE : LawfulExtension Val Challenge} `{PK : PackedField Val} `{PC : !PairColumns Val Challenge} `{PS : !PolynomialSpace Val Challenge} `{LS : !LawfulSpace Val Challenge} `{EV : EqDecision Val} `{EC : EqDecision Challenge} `{BU : BitUtil}.
  Context `{IM : InputMmcs Val} `{MM : Mmcs Challenge} `{FC : !FriChallenger Challenge} `{LC : !LawfulChallenger Challenge} `{SC : !ShardChallenger Val Challenge}.

#[local] Existing Instance val_inst.
#[local] Existing Instance challenge_inst.
Lemma stark_field_inst : field_theory (zero : Challenge) one add mul sub opp div inverse eq.
Proof using LE. exact field_laws. Qed.
Add Field StarkField : stark_field_inst.

Implicit Types (chip : Chip Val Challenge) (opening : ChipOpenedValues Val Challenge).

(** The opened values with other quotient chunks. *)
Definition with_quotient (chunks : list (list Challenge)) opening : ChipOpenedValues Val Challenge :=
  mkChipOpened (preprocessed opening) (main opening) (permutation opening) chunks (global_cumulative_sum opening) (local_cumulative_sum opening) (log_degree opening).

(** Chunks whose recombination is the factor of the first one times [q]. *)
Definition one_chunk (w : nat) (q : Challenge) : list (list Challenge) := (q :: replicate (D - 1) zero) :: replicate (w - 1) (replicate D zero).

Lemma lsum_imap_zero {A} (f : nat -> A -> Challenge) l : (forall i x, x ∈ l -> f i x = zero) -> lsum (imap f l) = zero.
Proof using LE.
  revert f. induction l as [|x l IH]; intros f Hf; [done|]. rewrite imap_cons. cbn [lsum]. rewrite (Hf 0 x (list_elem_of_here _ _)), IH by (intros i y Hy; apply Hf; by right). ring.
Qed.

Lemma recompute_one_chunk opening qcs d zeta q : head qcs = Some d ->
  recompute_quotient (with_quotient (one_chunk (length qcs) q) opening) qcs zeta = Some (mul (chunk_factor qcs zeta 0 d) q).
Proof using LE LS.
  intros Hd. unfold recompute_quotient. cbn [quotient_chunks with_quotient]. set (zps := imap (chunk_factor qcs zeta) qcs). set (val := fun '(ch_i, ch) => sum (imap (fun e_i c => mul (mul (nth ch_i zps zero) (monomial e_i)) c) ch)).
  pose proof (D_pos (Val := Val) (Challenge := Challenge)) as HD. assert (0 < length qcs) as Hl by (destruct qcs; [done|cbn; lia]).
  rewrite (mapM_pointwise _ val).
  - cbn [mbind option_bind]. f_equal. rewrite sum_lsum, map_imap. unfold one_chunk. rewrite imap_cons. cbn [lsum]. rewrite lsum_imap_zero.
    + subst val. cbn beta iota. rewrite sum_lsum, imap_cons. cbn [lsum]. rewrite lsum_imap_zero by (intros i x [-> _]%elem_of_replicate; unfold compose; ring). rewrite monomial_0. assert (nth 0 zps zero = chunk_factor qcs zeta 0 d) as -> by (subst zps; destruct qcs; [done|]; injection Hd as ->; done). ring.
    + intros i x [-> _]%elem_of_replicate. unfold compose. subst val. cbn beta iota. rewrite sum_lsum. apply lsum_imap_zero. intros j y [-> _]%elem_of_replicate. ring.
  - intros [ch_i ch] Hin. apply elem_of_lookup_imap in Hin as (i & c & [= -> ->] & Hi). assert (length c = D) as ->.
    { apply list_elem_of_lookup_2 in Hi. unfold one_chunk in Hi. apply elem_of_cons in Hi as [->|[-> _]%elem_of_replicate]; [cbn [length]; rewrite length_replicate; lia|apply length_replicate]. }
    rewrite Nat.eqb_refl. cbn [negb]. apply lookup_lt_Some in Hi. unfold one_chunk in Hi. cbn [length] in Hi. rewrite length_replicate in Hi. rewrite (lookup_nth_lt zps i zero) by (subst zps; rewrite length_imap; lia). done.
Qed.

(** The widths a chip expects. *)
Definition shape_ok chip opening : Prop :=
  length (opened_local (preprocessed opening)) = chip_preprocessed_width chip /\ length (opened_next (preprocessed opening)) = chip_preprocessed_width chip /\
  length (opened_local (main opening)) = chip_width chip /\ length (opened_next (main opening)) = chip_width chip /\
  length (opened_local (permutation opening)) = permutation_width chip * D /\ length (opened_next (permutation opening)) = permutation_width chip * D.

Lemma shape_accepted chip opening q : shape_ok chip opening -> verify_opening_shape chip (with_quotient (one_chunk (quotient_width chip) q) opening) = Ok tt.
Proof using LE.
  intros (H1' & H2' & H3' & H4' & H5' & H6'). pose proof (D_pos (Val := Val) (Challenge := Challenge)) as HD. unfold verify_opening_shape. cbn [with_quotient preprocessed main permutation quotient_chunks]. rewrite H1', H2', H3', H4', H5', H6', !Nat.mul_1_r, !Nat.eqb_refl.
  assert (0 < quotient_width chip) as Hw by (unfold quotient_width; apply Nat.neq_0_lt_0; by apply Nat.pow_nonzero). assert (length (one_chunk (quotient_width chip) q) = quotient_width chip) as -> by (unfold one_chunk; cbn [length]; rewrite length_replicate; lia).
  rewrite Nat.eqb_refl. unfold first_error. cbn [unless app]. unfold one_chunk. cbn [map length]. rewrite length_replicate, ?Nat.mul_1_r. replace (S (D - 1)) with (D (Val := Val) (Challenge := Challenge)) by lia. rewrite Nat.eqb_refl.
  cbn [unless omap list_omap id]. match goal with |- context [map ?f (replicate ?k ?x)] => assert (f x = None) as Ef by (cbn beta; by rewrite length_replicate, ?Nat.mul_1_r, Nat.eqb_refl); assert (forall n, omap id (map f (replicate n x)) = []) as -> end; [|done].
  induction n as [|n IH]; [done|]. cbn [replicate map]. rewrite Ef. exact IH.
Qed.

(** Values that a forger can start from: any that have the right widths. *)
Definition forgeable (pcs : TwoAdicFriPcs) (zeta alpha : Challenge) (permutation_challenges : list Challenge) (pvs : list Val) chip opening : Prop :=
  shape_ok chip opening /\ exists trace_domain, natural_domain_for_degree pcs (2 ^ log_degree opening) = Some trace_domain /\
    is_Some (eval_constraints chip opening (selectors_at_point trace_domain zeta) alpha permutation_challenges pvs) /\
    forall d, head (quotient_chunk_domains trace_domain opening chip) = Some d -> chunk_factor (quotient_chunk_domains trace_domain opening chip) zeta 0 d <> zero.

Definition requotiented opening opening' : Prop := exists chunks, opening' = with_quotient chunks opening.

Lemma quotient_width_pos chip : 0 < quotient_width chip.
Proof using. apply Nat.neq_0_lt_0. by apply Nat.pow_nonzero. Qed.

(** A quotient for one chip. *)
Lemma forge_chip pcs zeta alpha perm pvs chip opening : forgeable pcs zeta alpha perm pvs chip opening ->
  exists opening' trace_domain, requotiented opening opening' /\ natural_domain_for_degree pcs (2 ^ log_degree opening') = Some trace_domain /\ verify_opening_shape chip opening' = Ok tt /\
    length (quotient_chunks opening') = length (quotient_chunk_domains trace_domain opening' chip) /\
    verify_constraints chip opening' trace_domain (quotient_chunk_domains trace_domain opening' chip) zeta alpha perm pvs = Some true.
Proof using LE LS.
  intros (Hs & td & Hd & [folded Hf] & Hz). set (qcs := quotient_chunk_domains td opening chip) in *. assert (length qcs = quotient_width chip) as Lq by (subst qcs; unfold quotient_chunk_domains; rewrite split_spec, length_map, length_seq by (rewrite disjoint_size; lia); done). pose proof (quotient_width_pos chip) as Hw.
  destruct (head qcs) as [d|] eqn:Eh; [|destruct qcs; [cbn in Lq; lia|discriminate Eh]]. specialize (Hz d eq_refl). set (factor := chunk_factor qcs zeta 0 d) in *.
  set (q := mul (mul folded (inv_zeroifier (selectors_at_point td zeta))) (inverse factor)). exists (with_quotient (one_chunk (quotient_width chip) q) opening), td. split_and!; [by eexists|done|by apply shape_accepted| |].
  - change (quotient_chunk_domains td _ chip) with qcs. unfold one_chunk. cbn [with_quotient quotient_chunks length]. rewrite length_replicate. lia.
  - change (quotient_chunk_domains td _ chip) with qcs. unfold verify_constraints. rewrite <- Lq, (recompute_one_chunk opening qcs d zeta q Eh). cbn [mbind option_bind].
    change (eval_constraints chip (with_quotient _ opening)) with (eval_constraints chip opening). rewrite Hf. cbn [mbind option_bind]. f_equal. apply bool_decide_true. subst q factor. field. done.
Qed.

Lemma forge_chips pcs zeta alpha perm pvs chips opened : Forall2 (forgeable pcs zeta alpha perm pvs) chips opened ->
  exists opened' domains, Forall2 requotiented opened opened' /\ mapM (fun val => natural_domain_for_degree pcs (2 ^ log_degree val)) opened' = Some domains /\
    (let qcs := zip_with (fun domain '(values, chip) => quotient_chunk_domains domain values chip) domains (zip opened' chips) in
     (exists quotients, mapM (fun '(values, qcs) => quotient_claims zeta values qcs) (zip opened' qcs) = Some quotients) /\ verify_chips chips domains qcs opened' zeta alpha perm pvs = Some (Ok tt)).
Proof using LE LS.
  induction 1 as [|chip opening chips opened Hc _ (opened' & domains & Hr & Hm & (quotients & Hq) & Hv)]; [exists [], []; by split_and!; [| |split; [exists []|]]|].
  destruct (forge_chip _ _ _ _ _ _ _ Hc) as (opening' & td & Hr' & Hd & Hs & Hl & Hk). exists (opening' :: opened'), (td :: domains). cbn zeta in *. split_and!; [by constructor|cbn [mapM]; by rewrite Hd, Hm| |].
  - assert (exists claims, quotient_claims zeta opening' (quotient_chunk_domains td opening' chip) = Some claims) as [claims Ec] by (unfold quotient_claims; rewrite Hl, Nat.eqb_refl; by eexists).
    cbn [zip zip_with mapM]. rewrite Ec. cbn [mbind option_bind]. unfold zip in Hq |- *. rewrite Hq. by eexists.
  - cbn [zip zip_with verify_chips]. rewrite Hs, Hk. cbn [mbind option_bind negb]. exact Hv.
Qed.

(** What the challenges and the checks before the opening depend on. *)
Lemma requotiented_same chips : forall opened opened', Forall2 requotiented opened opened' ->
  length opened' = length opened /\ (forall acc, max_byte_lookup_mult acc chips opened' = max_byte_lookup_mult acc chips opened) /\ (forall c, observe_sums opened' chips c = observe_sums opened chips c) /\
  map local_cumulative_sum opened' = map local_cumulative_sum opened.
Proof using.
  clear LC. revert chips. induction chips as [|chip chips IH]; intros opened opened' Hr.
  - split_and!; [symmetry; by eapply Forall2_length|done|by intros c; destruct opened, opened'|]. induction Hr as [|o o' os os' [chunks ->] _ IH]; [done|]. cbn [map with_quotient local_cumulative_sum]. by rewrite IH.
  - destruct Hr as [|o o' os os' [chunks ->] Hr]; [done|]. destruct (IH os os' Hr) as (E1 & E2 & E3 & E4). split_and!.
    + cbn. by rewrite E1.
    + intros acc. cbn [max_byte_lookup_mult with_quotient log_degree]. destruct (64 <=? _)%Z; [done|]. destruct (checked_u64 _); [|done]. cbn [mbind option_bind]. destruct (checked_u64 _); [|done]. apply E2.
    + intros c. cbn [observe_sums with_quotient local_cumulative_sum global_cumulative_sum]. by rewrite E3.
    + cbn [map with_quotient local_cumulative_sum]. by rewrite E4.
Qed.

Lemma claims_at_some d zeta local_only (values : AirOpenedValues Challenge) : is_Some (claims_at d zeta local_only values).
Proof using LS. unfold claims_at. destruct local_only; [by eexists|]. destruct (next_point_some d zeta) as [x ->]. by eexists. Qed.

(** Every preprocessed table is that of a chip of the shard. *)
Definition known_tables (info : list (string * Domain Val * Dimensions)) (chips : list (Chip Val Challenge)) (ordering : gmap string nat) : Prop :=
  Forall (fun '(name, _, _) => exists i chip, ordering !! name = Some i /\ chips !! i = Some chip /\ chip_name chip = name) info.

Lemma preprocessed_claims_some info chips (proof : ShardProof Val Challenge) zeta : known_tables info chips (chip_ordering proof) -> length (opened_chips proof) = length chips ->
  exists claims, preprocessed_claims info chips proof zeta = Some (Ok claims).
Proof using LS.
  intros Hk Hl. induction Hk as [|[[name d] dims] info (i & chip & Ho & Hc & En) _ [claims IH]]; [by exists []|]. cbn [preprocessed_claims]. rewrite Ho. cbn [mbind option_bind]. rewrite Hc. cbn [mbind option_bind]. rewrite bool_decide_true by done. cbn [negb].
  destruct (lookup_lt_is_Some_2 (opened_chips proof) i) as [values ->]; [rewrite Hl; by eapply lookup_lt_Some|]. cbn [mbind option_bind]. destruct (claims_at_some d zeta (chip_local_only chip) (preprocessed values)) as [claim ->]. cbn [mbind option_bind]. rewrite IH. by eexists.
Qed.

(** A proof without query openings passes for all claims. *)
Lemma verify_without_openings sample pcs (rounds : list (ICommitment * list (MatClaim Val Challenge))) challenger : (forall c, is_Some (grind (proof_of_work_bits (fri pcs)) c)) ->
  exists proof, query_openings proof = [] /\ (verify sample pcs rounds proof challenger).1 = Some (Ok tt).
Proof using LE LC.
  intros Hg. set (c0 := observe_claims rounds challenger). destruct (sample c0) as [a c1] eqn:Es. destruct (Hg (observe_ext_element zero c1)) as [[w c2] Hw].
  exists (mkPcsProof (mkFriProof [] (replicate (num_queries (fri pcs)) (mkQueryProof [])) zero w) []). split; [done|]. unfold verify. fold c0. rewrite Es. unfold verify_shape_and_sample_challenges.
  cbn [fri_proof commit_phase_commits sample_betas final_poly query_proofs pow_witness length]. rewrite length_replicate, Nat.eqb_refl. cbn [negb]. rewrite (grind_checks _ _ _ _ Hw). cbn [negb]. destruct (sample_indices _ _ c2) as [indices c3].
  cbn [query_openings query_indices zip zip_with reduce_queries]. unfold verify_challenges. cbn [query_proofs query_indices fri_proof]. by destruct indices, (replicate _ _).
Qed.

(** C17. [verify_shard] accepts forged proofs: for every verifying key, chips, public
    values, commitments and opened values of the right widths (whose cumulative
    sums vanish and at which the constraints can be evaluated), there are quotient
    chunks and an opening proof without a single query opening with which the shard
    is accepted.  Neither the values nor the quotient need have anything to do with
    the commitments. *)
Theorem forged_shard_accepted sample pcs vk chips opened ordering com pvs challenger perm alpha zeta challenger' m :
  max_byte_lookup_mult 0 chips opened = Some m -> (m <= field_order)%Z -> sample_challenges com opened chips challenger = Ok (perm, alpha, zeta, challenger') ->
  Forall2 (forgeable pcs zeta alpha perm pvs) chips opened -> known_tables (chip_information vk) chips ordering -> sum (map local_cumulative_sum opened) = zero ->
  (forall c, is_Some (grind (proof_of_work_bits (fri pcs)) c)) ->
  exists opened' opening_proof, Forall2 requotiented opened opened' /\ query_openings opening_proof = [] /\
    verify_shard sample pcs vk chips challenger (mkShardProof com opened' opening_proof ordering pvs) = Some (Ok tt).
Proof using LE LS LC.
  intros Hm Hle Hs Hf Hk Hz Hg. destruct (forge_chips _ _ _ _ _ _ _ Hf) as (opened' & domains & Hr & Hd & (quotients & Hq) & Hv). destruct (requotiented_same chips opened opened' Hr) as (El & E1 & E2 & E3). pose proof (Forall2_length _ _ _ Hf) as Lc.
  set (qcs := zip_with _ domains (zip opened' chips)) in *.
  set (blank := fun op => mkShardProof com opened' op ordering pvs).
  assert (exists claims, forall op, preprocessed_claims (chip_information vk) chips (blank op) zeta = Some (Ok claims)) as [claims Hp].
  { destruct (verify_without_openings sample pcs [] challenger Hg) as (op & _). destruct (preprocessed_claims_some (chip_information vk) chips (blank op) zeta Hk) as [claims Hc]; [cbn; lia|]. exists claims. intros op'. rewrite <- Hc. clear. induction (chip_information vk) as [|[[name d] dims] info IH]; [done|]. cbn [preprocessed_claims chip_ordering opened_chips blank]. by rewrite IH. }
  destruct (mapM_total (fun '(domain, (values, chip)) => claims_at domain zeta (chip_local_only chip) (main values)) (zip domains (zip opened' chips))) as [mains Hmain]; [intros [d [v c]] _; apply claims_at_some|].
  destruct (mapM_total (fun '(domain, values) => claims_at domain zeta false (permutation values)) (zip domains opened')) as [perms Hperm]; [intros [d v] _; apply claims_at_some|].
  destruct (verify_without_openings sample pcs [(vk_commit vk, claims); (main_commit com, mains); (permutation_commit com, perms); (quotient_commit com, concat quotients)] challenger' Hg) as (op & Hop & Hver).
  exists opened', op. split_and!; [done..|]. fold (blank op). unfold verify_shard. cbn [blank opened_chips commitment public_values proof_local_cumulative_sum]. fold (blank op). rewrite El, Lc, Nat.eqb_refl. cbn [negb]. rewrite E1, Hm. cbn [mbind option_bind].
  rewrite (proj2 (Z.ltb_ge _ _)) by done. rewrite Hd. cbn [mbind option_bind]. assert (sample_challenges com opened' chips challenger = Ok (perm, alpha, zeta, challenger')) as ->.
  { rewrite <- Hs. unfold sample_challenges. destruct (sample_ext_element _) as [x0 c0]. destruct (sample_ext_element c0) as [x1 c1]. by rewrite E2. }
  rewrite Hp. cbn [mbind option_bind]. rewrite Hmain. cbn [mbind option_bind]. rewrite Hperm. cbn [mbind option_bind]. fold qcs. rewrite Hq. subst blank. cbn [mbind option_bind shard_opening_proof commitment public_values]. rewrite Hver. cbn [mbind option_bind]. rewrite Hv. cbn [mbind option_bind].
  unfold proof_local_cumulative_sum. cbn [opened_chips]. rewrite E3, Hz. by rewrite bool_decide_true.
Qed.
End Forge.
