(* ===== verification/StarkInstance.v ===== *)
(** * The permutation argument and the shard verifier over BabyBear

    Columns, domains and challengers for the examples of [LogUp] and [Stark]: a
    table of two rows that sends and receives one message, the quotient of a cubic
    polynomial, and a forged proof for a chip whose constraint is [1 = 0]. *)

From Stdlib Require Import ZArith Lia Bool PeanoNat Field String.
From stdpp Require Import base list gmap strings.
From S2P Require Import Prelude Record Sharding AirBuilder Lookup MerkleTree MerkleOpen Fri FriProtocol FriPcs FriInterpolate FriInstance LogUp Stark.

Import TwoAdicFriPcs.
#[local] Existing Instance babybear.
#[local] Existing Instance babybear_lawful.
#[local] Existing Instance bits.
#[local] Existing Instance trivial_extension.
#[local] Existing Instance trivial_extension_lawful.
#[local] Existing Instance pair_packing.
#[local] Existing Instance ex_input.
#[local] Existing Instance ex_mmcs.
#[local] Existing Instance ex_sum.
#[local] Existing Instance sum_challenger_lawful.

(** ** Columns *)

(** A column of the main trace. *)
#[local] Instance main_columns : PairColumns Fp Fp := {|
  VirtualPairCol := nat; apply c _ main := nth c main zero; apply_ext c _ main := nth c main zero;
  ext_from_canonical_usize n := lsum (replicate n one); scan_sum l := running zero l
|}.
#[local] Instance main_columns_lawful : LawfulColumns Fp Fp.
Proof. constructor; [|done]. intros c prep main. cbn [apply_ext apply main_columns from_base trivial_extension]. by rewrite map_id. Qed.

(** Column 0, sent as often as column 1 says and received as often as column 2. *)
Definition ex_send : Interaction Fp Fp := mkInteraction (PC := main_columns) [0] 1 KByte Local.
Definition ex_receive : Interaction Fp Fp := mkInteraction (PC := main_columns) [0] 2 KByte Local.
Definition ex_main : Matrix Fp := mkMatrix 3 [[mk 5; mk 1; mk 0]; [mk 5; mk 0; mk 1]].
Definition ex_pairs : list (list Fp * list Fp) := [([], [mk 5; mk 1; mk 0]); ([], [mk 5; mk 0; mk 1])].
Definition ex_ints := local_interactions [ex_send] [ex_receive].

Lemma no_pole_check alpha beta (ms : list (Message Fp)) : forallb (fun m => negb (bool_decide (add alpha (fingerprint beta m.1) = zero))) ms = true -> no_pole alpha beta ms.
Proof. intros Hf. apply Forall_forall. intros m Hm. rewrite forallb_forall in Hf. specialize (Hf m ltac:(by apply list_elem_of_In)). by apply negb_true_iff, bool_decide_eq_false in Hf. Qed.

Lemma ex_no_pole : no_pole (mk 10) (mk 3) (table_messages ex_pairs ex_ints).
Proof. apply no_pole_check. vm_compute. reflexivity. Qed.

Lemma permutation_trace_passes_witness :
  exists trace, generate_permutation_trace [ex_send] [ex_receive] None ex_main [mk 10; mk 3] 2 = Some (trace, logup (mk 10) (mk 3) (table_messages ex_pairs ex_ints)) /\
    debug_constraints (eval_permutation_constraints [ex_send] [ex_receive] 2 Local) None ex_main trace [mk 10; mk 3] [] (logup (mk 10) (mk 3) (table_messages ex_pairs ex_ints)) ([], []) = Some tt.
Proof.
  destruct (permutation_trace_passes [ex_send] [ex_receive] Local None ex_main (mk 10) (mk 3) [] 2 [] ([], []) ex_pairs) as (trace & Hg & Hd & _); [done|lia|reflexivity|cbn; lia|exact ex_no_pole|done|done|].
  exists trace. split; [exact Hg|exact Hd].
Defined.

(** The trace of the example, and a check of it. *)
Definition ex_trace : Matrix Fp := match generate_permutation_trace [ex_send] [ex_receive] None ex_main [mk 10; mk 3] 2 with Some (trace, _) => trace | None => mkMatrix 0 [] end.
Lemma ex_trace_passes : debug_constraints (eval_permutation_constraints [ex_send] [ex_receive] 2 Local) None ex_main ex_trace [mk 10; mk 3] [] zero ([], []) = Some tt.
Proof. vm_compute. reflexivity. Qed.

Lemma passing_trace_has_the_sum_witness : zero = logup (mk 10) (mk 3) (table_messages ex_pairs ex_ints).
Proof. apply (passing_trace_has_the_sum [ex_send] [ex_receive] Local None ex_main ex_trace (mk 10) (mk 3) [] 2 [] ([], [])); [done|lia|reflexivity|cbn; lia|exact ex_no_pole|exact ex_trace_passes]. Defined.

Definition ex_table : Table (Val := Fp) (Challenge := Fp) := mkTable [ex_send] [ex_receive] 2 Local None ex_main ex_pairs.

Lemma vanishing_sums_balance_witness : net_multiplicity (KByte, [mk 5]) (concat (map t_messages [ex_table])) = zero.
Proof.
  apply (vanishing_sums_balance (mk 3) [ex_table] [mk 10]).
  - constructor; [|constructor]. split_and!; [done|cbn; lia|cbn; lia|reflexivity|cbn; lia].
  - intros m m' Hm Hm' _. assert (forall x, x ∈ concat (map t_messages [ex_table]) -> x.1 = (KByte, [mk 5])) as Hk; [|by rewrite (Hk m Hm), (Hk m' Hm')].
    intros x Hx. repeat (apply elem_of_cons in Hx as [->|Hx]; [reflexivity|]). by apply not_elem_of_nil in Hx.
  - apply NoDup_singleton.
  - assert ((length (remove_dups (map fst (concat (map t_messages [ex_table])))) <=? length [mk 10]) = true) as E by (vm_compute; reflexivity). by apply Nat.leb_le in E.
  - intros alpha ->%list_elem_of_singleton. split; [exact ex_no_pole|]. exists [zero]. split; [|apply Fp_eq; vm_compute; reflexivity]. constructor; [|constructor]. exists ex_trace, [], [], ([], []). exact ex_trace_passes.
Defined.

(** ** Domains *)

#[local] Instance cosets : PolynomialSpace Fp Fp := {|
  first_point d := shift d; next_point d x := Some (mul x (two_adic_generator (log_n d)));
  create_disjoint_domain d n := mkDomain (Nat.log2_up n) (mul (shift d) generator);
  split_domains d n := map (fun i => mkDomain (log_n d - Nat.log2_up n) (mul (shift d) (power (two_adic_generator (log_n d)) i))) (seq 0 n);
  zp_at_point d x := sub (power (mul x (from_base (inverse (shift d)))) (2 ^ log_n d)) one;
  zp_at_base d x := sub (power (mul x (inverse (shift d))) (2 ^ log_n d)) one;
  selectors_at_point d x :=
    let y := mul x (inverse (shift d)) in
    let z := sub (power y (2 ^ log_n d)) one in
    let last := inverse (two_adic_generator (log_n d)) in
    mkSelectors (div z (sub y one)) (div z (sub y last)) (sub y last) (inverse z);
  monomial _ := one; from_canonical_u32 z := mk z; field_order := BABYBEAR
|}.

#[local] Instance cosets_lawful : LawfulSpace Fp Fp.
Proof.
  constructor; try done.
  - intros d k. cbn [create_disjoint_domain cosets log_n]. by rewrite Nat.log2_up_pow2 by lia.
  - intros d k Hk. cbn [split_domains cosets]. by rewrite Nat.log2_up_pow2 by lia.
Qed.

(** ** The quotient of a cubic polynomial in two chunks *)

Definition ex_quotient : list Fp := map mk [1; 2; 3; 4]%Z.
Definition ex_domain : Domain Fp := mkDomain 2 (mk 31).
(** On a coset of two points the polynomial is linear. *)
Definition ex_chunk (i : nat) : list Fp := let x := mul (mk 31) (power (two_adic_generator 2) i) in let x2 := mul x x in [add (mk 1) (mul (mk 3) x2); add (mk 2) (mul (mk 4) x2)].
Definition ex_chunks : list (list Fp) := [ex_chunk 0; ex_chunk 1].
Definition ex_opening : ChipOpenedValues Fp Fp := mkChipOpened (mkAirOpened [] []) (mkAirOpened [] []) (mkAirOpened [] []) (map (fun p => [eval p (mk 1000)]) ex_chunks) ([], []) zero 1.

Add Field FpField : babybear_field.
Lemma one_coefficient (y : Fp) : from_coefficients [y] = y.
Proof. unfold from_coefficients, sum. cbn [imap fold_left]. change (monomial 0) with (one : Fp). ring. Qed.

Lemma recompute_quotient_correct_witness : recompute_quotient ex_opening (split_domains ex_domain 2) (mk 1000) = Some (eval ex_quotient (mk 1000)).
Proof.
  apply (recompute_quotient_correct ex_opening ex_domain 1 (mk 1000) ex_chunks ex_quotient).
  - cbn. lia.
  - cbn. lia.
  - intros E. apply (f_equal val) in E. vm_compute in E. discriminate E.
  - reflexivity.
  - repeat constructor.
  - cbn. lia.
  - assert (forallb (fun i => forallb (fun j => bool_decide (let d := nth i (split_domains ex_domain 2) ex_domain in let x := from_base (mul (shift d) (power (two_adic_generator (log_n d)) j)) in eval (nth i ex_chunks []) x = eval ex_quotient x)) [0; 1]) [0; 1] = true) as Hf by (vm_compute; reflexivity).
    intros i domain j Hi Hj. rewrite <- (nth_lookup_Some _ _ ex_domain _ Hi) in Hj |- *. pose proof (lookup_lt_Some _ _ _ Hi) as Hlt. change (length (split_domains ex_domain (2 ^ 1))) with 2 in Hlt. rewrite forallb_forall in Hf.
    assert (j < 2) as Hj' by (destruct i as [|[|i]]; [exact Hj|exact Hj|lia]). specialize (Hf i ltac:(cbn; lia)). rewrite forallb_forall in Hf. specialize (Hf j ltac:(cbn; lia)). by apply bool_decide_eq_true in Hf.
  - repeat constructor.
  - cbn [quotient_chunks ex_opening]. rewrite map_map. apply map_ext. intros p. apply one_coefficient.
Defined.

(** ** A forged shard *)

#[local] Instance ex_shard_challenger : ShardChallenger Fp Fp := Build_ShardChallenger Fp Fp ex_input ex_mmcs ex_sum (fun (c s : Fp) => mk (val s + val c)) (fun (x s : Fp) => mk (val s + val x)).

(** One column and the constraint [1 = 0]. *)
Definition absurd_chip : Chip Fp Fp := mkChip "Absurd" 1 0 Local false (fun _ => Some [one]) [] [] [] [] 1.
Definition any_values : ChipOpenedValues Fp Fp := mkChipOpened (mkAirOpened [] []) (mkAirOpened [mk 7] [mk 8]) (mkAirOpened [] []) [] digest_zero zero 1.
Definition ex_commitment : ShardCommitment Fp := mkShardCommitment (IM := ex_input) (mk 1) (mk 2) (mk 3).
Definition ex_vk : StarkVerifyingKey Fp := mkVerifyingKey (IM := ex_input) (mk 4) (mk 0) digest_zero [] ∅.

Definition ex_challenges := sample_challenges ex_commitment [any_values] [absurd_chip] ex_start.
Definition ex_trace_domain : Domain Fp := mkDomain 1 one.
Definition ex_qcs : list (Domain Fp) := quotient_chunk_domains ex_trace_domain any_values absurd_chip.

Lemma ex_factor_nonzero : match ex_challenges, head ex_qcs with Ok (_, _, zeta, _), Some d => negb (bool_decide (chunk_factor ex_qcs zeta 0 d = zero)) | _, _ => false end = true.
Proof. vm_compute. reflexivity. Qed.

Lemma any_values_forgeable perm alpha zeta c : ex_challenges = Ok (perm, alpha, zeta, c) -> length perm = 2 -> forgeable ex_pcs zeta alpha perm [mk 42] absurd_chip any_values.
Proof.
  intros Es Hp. pose proof ex_factor_nonzero as Hf. rewrite Es in Hf. split; [by repeat split|]. exists ex_trace_domain. split; [reflexivity|]. split.
  - by destruct perm as [|x0 [|x1 [|]]].
  - fold ex_qcs. intros d Hd E. rewrite Hd in Hf. apply negb_true_iff, bool_decide_eq_false in Hf. done.
Qed.

Lemma challenges_length perm alpha zeta c : ex_challenges = Ok (perm, alpha, zeta, c) -> length perm = 2.
Proof.
  unfold ex_challenges, sample_challenges. destruct (sample_ext_element _) as [x0 c0]. destruct (sample_ext_element c0) as [x1 c1]. destruct (observe_sums _ _ _) as [c2|e]; [|done]. destruct (sample_ext_element c2) as [x2 c3]. destruct (sample_ext_element _) as [x3 c4].
  by intros [= <- _ _ _].
Qed.

Lemma forged_shard_accepted_witness : exists opened' opening_proof,
  verify_shard sample_ext_element ex_pcs ex_vk [absurd_chip] ex_start (mkShardProof ex_commitment opened' opening_proof ∅ [mk 42]) = Some (Ok tt).
Proof.
  pose proof ex_factor_nonzero as Hf. destruct ex_challenges as [[[[perm alpha] zeta] c]|e] eqn:Es; [|discriminate Hf]. clear Hf.
  destruct (forged_shard_accepted sample_ext_element ex_pcs ex_vk [absurd_chip] [any_values] ∅ ex_commitment [mk 42] ex_start perm alpha zeta c 0) as (opened' & op & _ & _ & Hv).
  - reflexivity.
  - discriminate.
  - exact Es.
  - constructor; [|constructor]. by apply (any_values_forgeable perm alpha zeta c), (challenges_length perm alpha zeta c).
  - constructor.
  - apply Fp_eq. vm_compute. reflexivity.
  - intros c'. by eexists.
  - exists opened', op. exact Hv.
Defined.
